(* ===== verification/_CoqProject ===== *)
-Q . S2P
Prelude.v
Bytes.v
Utf8.v
ReadSchema.v
Platform.v
Format.v
EdgeLog.v
PartTypes.v
LiveSet.v
LiveSetFacts.v
Replay.v
Checkpoints.v
ObjectStore.v
LogReader.v
LogWriter.v
MergePlanner.v
Merkle.v
TokenCounts.v
BlockIndex.v
TextTokens.v
Keywords.v
Addresses.v
TokenIndex.v
Prune.v
PruneSafety.v
Spellings.v
FilePrune.v
FilePruneSafety.v
SummaryCache.v
BloomCache.v
MetadataCache.v
MetadataSafety.v
Json.v
ProvenanceTypes.v
Provenance.v
Signing.v
SigningExample.v
CountRecord.v
GcRequest.v
GcPlanner.v
GcSafety.v
GcEnv.v
GcIndex.v
GcIndexSafety.v
GcExecutor.v
GcPassSafety.v
GcPass.v
GcLimits.v
Quarantine.v
QuarantineFacts.v
QuarantineSafety.v
QuarantineStore.v
QuarantineMirror.v
QuarantineExpiry.v
QuarantineLedger.v
WriterLease.v
