(* ===== verification/Prelude.v ===== *)
(** * Verification of the lean-lake parts of nano

    nano keeps a tenant's events in a lake of immutable Parquet parts in an object store. The
    parts contract ([nanosiem-lake-worker/src/parts/]) says how a part is named, proved,
    indexed and committed; one writer per tenant appends to a numbered log, every reader folds
    that log into the set of live parts, a planner decides which parts to merge, a garbage
    collector deletes what the log no longer needs, a search skips the parts, row groups and
    blocks that cannot hold a match, and objects that admission refuses are kept in a quarantine
    until an operator replays them. This library models that contract and the clients whose
    mistakes would lose data or lose answers: the garbage collector with its pass and its
    publication of the log ([nanosiem-lake-worker/src/lake_part_gc/]), the writer lease of a lake
    cell ([nanosiem-lake-worker/src/part_ingest/writer_lease.rs]) and search pruning with its
    metadata caches ([nanosiem-lake-worker/src/part_query/prune.rs]) against the keyword SQL it
    must agree with ([nanosiem-core/src/query/clickhouse_sql_gen/helpers.rs]), and the bronze
    quarantine ([nanosiem-lake-worker/src/part_ingest/quarantine.rs] and its neighbours).

    ** Parts, files and the code they model

    - [Prelude]: results with bail sites as values ([anyhow::Result]), machine-width integers
      ([wrap_u64], [sat_i64], ...), byte strings and the Rust
      string operations the code uses ([strip_suffix], [splitn], [split_once], decimal
      parsing), generic lemmas, hints and tactics. Release builds of the repository do not
      check overflow, so arithmetic wraps where the source does not say [checked] or
      [saturating].
    - [Bytes]: byte buffers, little-endian integers and varints with bounds-checked readers.
    - [Utf8]: validity, characters, white space and signed decimals of the Rust string type.
    - [ReadSchema] ([iceberg.rs]): Arrow types and schemas, and the ClickHouse read projection
      whose digest is a schema's fingerprint.
    - [Platform]: what the contract calls and the repository does not contain (SHA-256, UUID,
      base64, the schema in a Parquet file, the calendar) as operations of classes with their
      documented laws ([PlatformLaws], [CalendarLaws]), and toy instances that show the laws can
      hold.
    - [Format] ([parts/mod.rs], [parts/format.rs], [parts/request_dedup.rs], [Level] of
      [parts/levels.rs]): part ids, object keys, event hours, row-group and file-size
      settings, request hours.
    - [EdgeLog] ([parts/provenance.rs]): segments of the edge log, their hash chain and
      [EdgeLogRange].
    - [PartTypes], [LiveSet], [LiveSetFacts], [Replay], [Checkpoints] ([parts/part_log.rs]):
      part references, operations, entries and checkpoints; [LiveSet::apply] with its undo
      journal; the fold of a log; checkpoints, the GC working set and the totals.
    - [ObjectStore], [LogReader], [LogWriter] ([parts/part_log.rs]): the storage trait as a
      class with its laws, [LocalObjectStore] as an instance; [load_log], [catch_up] and the
      schema view; [PartLogWriter] with [open], [append], adoption, fencing, checkpoints and
      [reload], and a system of several writers over one store.
    - [MergePlanner] ([parts/levels.rs]): the merge policy, [plan_merges], [split_merge] and
      the overdue signal.
    - [Merkle], [Json], [ProvenanceTypes], [Provenance], [Signing], [SigningExample]
      ([parts/provenance.rs]): the Merkle root of a part, canonical JSON, the provenance
      record with its validation and canonical bytes, the signed record, the owner's signing
      calls and file checks; a concrete signing platform for the witnesses.
    - [CountRecord] ([parts/count_record.rs]): the signed count record.
    - [TokenCounts] ([parts/token_counts.rs]), [BlockIndex] ([parts/block_index.rs]),
      [TokenIndex] ([parts/sidecar.rs]): the keyword counts of a part, its token block index and
      its token index, as bytes with their builders and readers.
    - [TextTokens], [Addresses], [Keywords] ([parts/sidecar.rs], [helpers.rs]): the tokens of a
      text, the IP addresses in it, and the SQL predicate of a bare keyword.
    - [Prune], [PruneSafety] ([part_query/prune.rs]): the tokens a keyword requires and what the
      token index decides; the composition with the SQL.
    - [Spellings], [FilePrune], [FilePruneSafety] ([part_query/prune.rs],
      [nanosiem-core/src/search/lake_indicators.rs]): byte bounds over case spellings, the summary of a Parquet
      footer, families, classes, entities, indicators and times, and the ranges that are read.
    - [SummaryCache], [BloomCache], [MetadataCache], [MetadataSafety] ([part_query/prune.rs]):
      the caches in front of the footers and filters, with failing disk reads.
    - [GcRequest], [GcPlanner], [GcSafety] ([lake_part_gc/request.rs],
      [lake_part_gc/planner.rs]): which keys a delete may name, the request and its permit,
      the view of the log, the protected keys, both planners and inventory selection; the
      last file composes them with the fold of the log.
    - [GcEnv], [GcIndex], [GcIndexSafety] ([lake_part_gc/index.rs]): the seams of the GC as a
      class of worlds with a monad that records every call; the publication of the log to
      control's index with retries, read-ahead and batches, and what control is told.
    - [GcExecutor], [GcPassSafety], [GcPass], [GcLimits] ([lake_part_gc/executor.rs]): permits,
      receipts, refused keys, the pacer, one delete, the loop and the whole pass; the safety of
      a pass against every world; the books of a pass; how often it asks.
    - [Quarantine], [QuarantineFacts], [QuarantineSafety] ([part_ingest/quarantine.rs]): the
      quarantine directory as file-system calls over a [Disk] whose calls may fail or tear, one
      by one; what the calls touch and read; releases, sweeps and keeps.
    - [QuarantineStore], [QuarantineMirror] ([part_ingest/quarantine_store.rs]): the records and
      objects of the tenant bucket, the mirror of one id and the restore of a fresh directory.
    - [QuarantineExpiry] ([lake_part_gc/quarantine_expiry.rs]): the GC pass over the bucket's
      quarantine, on the executor of [GcExecutor].
    - [QuarantineLedger] ([part_ingest/quarantine_ledger.rs]): the reports to the landing ledger.
    - [WriterLease] ([part_ingest/writer_lease.rs]): the lease table, the held lease with its
      commit deadline, the renew loop, and the protocol as a step relation.

    They interact as the code does: [LogWriter] appends through [ObjectStore] and advances
    the [LiveSet] it folded with [LogReader]; [Provenance] and [Signing] make the records
    whose references an entry carries; [GcPlanner] folds the same entries as [Replay], and
    [GcExecutor] runs its plan after [GcIndex] has published them; [WriterLease] is the gate
    that [append] asks before a commit; [MetadataCache] answers with [FilePrune], which asks
    [Prune] over the [TokenIndex] that [TextTokens] filled; [QuarantineStore] mirrors the
    [Quarantine] into the bucket from which [QuarantineExpiry] deletes through [GcExecutor].

    ** What the theorems show

    - The log. An applied entry does what a copying reference does and a refused one changes
      nothing ([apply_refines_reference]). Over entry times that do not go back: the fold yields
      exactly the parts added and not removed and keeps its invariant ([replay_live_exact],
      [replay_wf]); a writer that checks before it appends consumes no source twice within the
      id memory of what it folded itself ([consumed_once]); a checkpoint and the GC's working
      set give the live parts, schema, head and edge points of the full fold
      ([checkpoint_resume], [gc_working_set_exact]). The condition is needed: where entry times
      go back, an id can come back ([clock_regression_readds], a counterexample).
    - Readers and writers. Loading from any honest checkpoint gives the live parts, schema, head
      and edge points of the full fold ([load_log_exact], [load_log_schema_exact]); commits of different writers never disagree
      ([no_split_brain]); what an append acknowledges is stored under its number, a retry is
      acknowledged as the same entry, a foreign entry fences ([append_committed],
      [retry_same_entry], [foreign_entry_fences], [local_append_outcome]).
    - The lease. Two pods of a cell are never both entitled to commit whatever happens on the
      network ([lease_exclusive]); a taken lease stays taken, an abandoned one is taken over,
      short renew failures are absorbed ([taken_never_renewed], [failover],
      [two_failures_absorbed]).
    - Merges. Planned merges are executable, fit the size cap and include what is overdue,
      unsorted parts apart ([plan_executable], [plan_respects_cap], [overdue_is_planned]).
    - Proofs of parts. Merkle roots bind their rows, or the two trees hold two different hashed
      inputs with one digest ([trees_collide]); canonical bytes, edge chains and signed messages
      bind their content; a schema's read projection, whose digest is its fingerprint,
      determines its columns ([read_schema_binds], [merkle_root_is_mth],
      [merkle_root_binds], [canonical_json_exact], [edge_history_unique],
      [signing_messages_distinct], [local_sign_roundtrip], [sign_plan_exact],
      [owner_verify_exact], [count_record_authority]).
    - Sidecars. Counts, blocks and token indexes say what the rows say ([counts_exact],
      [counts_roundtrip], [block_index_complete], [block_index_roundtrip],
      [token_index_roundtrip]).
    - Search. For hints whose plain tokens are ASCII and texts without a long s or a Kelvin sign
      (which the engine's case folding maps to ASCII letters and the index does not; see
      [long_s_pruned]), nothing that matches the SQL is skipped, by the token index, by the
      footer of a file or through the caches ([pruning_keeps_matches], [address_keyword_indexed],
      [file_pruning_keeps_matches], [cached_evidence_keeps_matches]); the summary and the
      caches answer like the footer itself ([summary_answers_like_footer],
      [cached_evidence_exact]); case spellings are decided without listing them
      ([spelling_in_range_exact]); ranges are exact and scans end ([kept_ranges_exact],
      [scans_terminate]); the caches stay within their bounds ([summary_cache_bounded],
      [bloom_cache_bounded]).
    - Deletion. While entry times do not go back, a planned delete never hits a part that is
      live or may become live in a log appended after the plan's hour of slack, and is justified by log evidence ([gc_never_deletes_live], [gc_requests_justified],
      [live_keys_complete], [gc_view_exact], [plan_exact], [selection_is_prefix]); requests
      never name the log, keys parse back, permits bind requests ([validated_never_log],
      [part_key_grammar], [part_key_roundtrip], [permit_binds_request]). Against every world a
      pass retires only such parts, under a permit it asked for, checked and prepared
      ([pass_deletes_only_dead]), and its books balance ([pass_accounts_exactly]).
    - Publication. Control is told only in-order, chained, settled and bounded runs of verified
      entries, and "caught up" means it ([index_pushes_exact], [index_caught_up_exact],
      [watermark_sound]).
    - Limits. Authorize calls are paced and bounded, refused keys are remembered within a bound
      ([pacer_bound], [asks_bounded], [refused_memory]).
    - The quarantine. With any I/O faults: a released object is not imported again within the
      time to live of the earliest of its recorded releases ([released_stays_released]; a second
      release is forgotten early, [second_release_forgotten]), a replay gets exactly the refused bytes
      ([replay_bytes_verified]), keeps and sweeps do what they say and hold the cap
      ([keep_new_exact], [sweep_exact]; one metadata error costs a live entry its bytes,
      [sweep_error_drops_bytes]). The bucket holds the record and the bytes a restore
      reads back ([mirror_restores]), the GC deletes nothing a later restore reads
      ([expiry_spares_restore]), and reports reach the ledger in order ([reports_in_order],
      [outbox_survives_restart]).

    ** Parameters

    Code outside the repository is an operation of a class with its documented behaviour as the
    laws, and every class has an instance: [Platform], [SignPlatform], [JsonWriter], the Unicode
    tables of the standard library's [char], the search engine's case folding ([SimpleFolding]:
    an ASCII letter equals its other case, and s and k also the long s and the Kelvin sign, as
    the comments of the sidecar say of RE2), xxHash, the xor filters, the
    split-block Bloom filters of Parquet, IPv6 parsing, the order of a hash map ([HashIter]).
    The other side of the GC's seams is a [GcWorld]: any state with any answers, so no law is
    needed except for the clock of the pacer ([ClockLaws]). The quarantine takes serde_json of
    its three documents ([EntryCodec], [RecordCodec], [OutboxCodec]), the order of a directory
    listing ([DirOrder]), modification times, and the tenant bucket ([Bucket]: any answers, with
    the promises of the storage trait in [BucketLaws], stored bytes and their digests included,
    where a theorem is about what is stored).

    ** Fuel and bounds

    [catch_up] takes one unit of fuel per fetch window; [load_log_exact] holds from one unit
    per remaining entry on. [append] retries at most once, so its fuel is 2 ([append_fuel]).
    The chunking of a merge, the Merkle tree hash, the planner's cursor and its collection
    take the length of their list (plus one), of which every round uses one element; so do the
    loops over keyword pieces and address texts, the report of deleted keys and the loop over
    planned requests ([execute_loop_enough]). Eviction takes the number of entries of its cache.
    A varint has at most ten groups; a scan of a text has one round per byte and answers
    [None] when they run out, which never happens ([scans_terminate]); a search of a count or token file one per entry or byte left. A batch has as many rounds as entries it may hold, a sync as many
    as requests it may send, a retried call as many as its retries. [acquire] takes at most two
    rounds ([acquire_takes]). The listing of quarantine records takes one unit per page. Time and sizes are kept at their width where the source lets them
    wrap; sequence numbers and lease epochs grow by one per commit.

    ** Not modelled

    Parquet and Arrow encoding of the data files, the entity count and locator indexes; the
    query engine around pruning; the drivers around the modelled cores, which are network,
    SQLite, PostgreSQL, process control or metrics (the GC's paged history, local authority
    and HTTP clients, the ingest cell with its flushes and retry timers, the lake-cell
    supervisor); log lines
    and their redaction; the SQL behind the lease and the tokio tasks of its renewer; the
    generation-based lake that the parts contract replaces; the search service apart from the
    bare-keyword SQL, the web UI, the API and the connectors. *)
From Stdlib Require Export ZArith Lia Ascii.
From stdpp Require Export sorting numbers gmap strings list_relations list.

#[global] Open Scope Z_scope.

(** ** Results: [anyhow::Result] with the bail sites as values *)

Inductive result (E A : Type) : Type :=
| Ok (a : A)
| Err (e : E).
Arguments Ok {E A} a.
Arguments Err {E A} e.

#[export] Instance result_ret {E} : MRet (result E) := fun A a => Ok a.
#[export] Instance result_bind {E} : MBind (result E) := fun A B k r =>
  match r with Ok a => k a | Err e => Err e end.

#[export] Instance result_eq_dec {E A} `{EqDecision E, EqDecision A} : EqDecision (result E A).
Proof. solve_decision. Defined.

(** [ensure c e]: go on when [c] holds, bail with [e] otherwise. *)
Definition ensure {E} (c : bool) (e : E) : result E unit := if c then Ok tt else Err e.

(** [.context(e)?] of an option. *)
Definition of_option {E A} (o : option A) (e : E) : result E A :=
  match o with Some a => Ok a | None => Err e end.

(** [.map_err(f)] *)
Definition map_err {E F A} (f : E -> F) (r : result E A) : result F A :=
  match r with Ok a => Ok a | Err e => Err (f e) end.

(** [o.is_some()] *)
Definition is_some {A} (o : option A) : bool := match o with Some _ => true | None => false end.
Lemma is_some_spec {A} (o : option A) : is_some o = true <-> is_Some o.
Proof. destruct o; cbn; split; [eauto|done|done|by intros [? ?]]. Qed.
Lemma is_some_false {A} (o : option A) : is_some o = false <-> o = None.
Proof. by destruct o. Qed.

Definition is_ok {E A} (r : result E A) : bool := match r with Ok _ => true | Err _ => false end.

(** The value of a computation that succeeds. *)
Definition unwrap {E A} (d : A) (r : result E A) : A := match r with Ok a => a | Err _ => d end.

Lemma Ok_inj {E A} (a b : A) : @Ok E A a = Ok b -> a = b.
Proof. congruence. Qed.

Lemma unwrap_ok {E A} (d : A) (r : result E A) : is_ok r = true -> r = Ok (unwrap d r).
Proof. by destruct r. Qed.

(** [for x in l { s = f(s, x)?; }] *)
Fixpoint fold_res {E S X} (f : S -> X -> result E S) (l : list X) (s : S) : result E S :=
  match l with
  | [] => Ok s
  | x :: l => s' ← f s x; fold_res f l s'
  end.

Section result_lemmas.
Context {E A B : Type}.

Lemma bind_ok_inv (r : result E A) (k : A -> result E B) b :
  (r ≫= k) = Ok b <-> exists a, r = Ok a /\ k a = Ok b.
Proof. destruct r as [a|e]; cbn; split; [by exists a|by intros (? & [= ->] & ?)|done|by intros (? & ? & ?)]. Qed.

(** Introduction: run a computation step by step. *)
Lemma bind_intro (r : result E A) (k : A -> result E B) a b : r = Ok a -> k a = Ok b -> (r ≫= k) = Ok b.
Proof. by intros ->. Qed.

Lemma ensure_intro (c : bool) (e : E) : c = true -> ensure c e = Ok tt.
Proof. by intros ->. Qed.

Lemma of_option_intro (o : option A) (e : E) a : o = Some a -> of_option o e = Ok a.
Proof. by intros ->. Qed.

Lemma ensure_ok_inv (c : bool) (e : E) : ensure c e = Ok tt <-> c = true.
Proof. by destruct c. Qed.

Lemma of_option_ok_inv (o : option A) (e : E) a : of_option o e = Ok a <-> o = Some a.
Proof. destruct o; cbn; split; congruence. Qed.

Lemma is_ok_spec (r : result E A) : is_ok r = true <-> exists a, r = Ok a.
Proof. destruct r as [a|e]; cbn; split; [by exists a|done|done|by intros [? ?]]. Qed.

Lemma fold_res_app {S X} (f : S -> X -> result E S) l1 l2 s :
  fold_res f (l1 ++ l2) s = (s' ← fold_res f l1 s; fold_res f l2 s').
Proof. revert s; induction l1 as [|x l1 IH]; intros s; cbn; [done|]. by destruct (f s x); cbn. Qed.
End result_lemmas.

(** Invert the [Ok] equations of a monadic computation in the context. *)
Ltac inv_ok :=
  repeat match goal with
  | H : (_ ≫= _) = Ok _ |- _ => apply bind_ok_inv in H as (? & ? & H)
  | H : ensure _ _ = Ok ?u |- _ => destruct u; apply ensure_ok_inv in H
  | H : of_option _ _ = Ok _ |- _ => apply of_option_ok_inv in H
  | H : mret _ = Ok _ |- _ => injection H as H
  | H : Ok _ = Ok _ |- _ => injection H as H
  | H : Err _ = Ok _ |- _ => discriminate H
  end; try subst.

(** ** Machine integers *)

Definition i32_max : Z := 2147483647.
Definition i64_min : Z := -9223372036854775808.
Definition i64_max : Z := 9223372036854775807.
Definition u64_max : Z := 18446744073709551615.

Definition in_i64 (z : Z) : Prop := i64_min <= z <= i64_max.
Definition in_u64 (z : Z) : Prop := 0 <= z <= u64_max.

(** Release builds wrap ([overflow-checks] is off in the release profile). *)
Definition wrap_i64 (z : Z) : Z := (z - i64_min) mod (u64_max + 1) + i64_min.
Definition wrap_i32 (z : Z) : Z := (z + 2147483648) mod 4294967296 - 2147483648.
Definition wrap_u64 (z : Z) : Z := z mod (u64_max + 1).
Definition u32_max : Z := 4294967295.
Definition in_u32 (z : Z) : Prop := 0 <= z <= u32_max.
Definition wrap_u32 (z : Z) : Z := z mod (u32_max + 1).

Definition sat_i64 (z : Z) : Z := Z.max i64_min (Z.min i64_max z).
Definition sat_u64 (z : Z) : Z := Z.max 0 (Z.min u64_max z).

Lemma wrap_i64_id z : in_i64 z -> wrap_i64 z = z.
Proof. unfold in_i64, wrap_i64, i64_min, i64_max, u64_max. intros. rewrite Z.mod_small; lia. Qed.

Lemma wrap_u32_id z : in_u32 z -> wrap_u32 z = z.
Proof. unfold in_u32, wrap_u32, u32_max. intros. apply Z.mod_small. lia. Qed.

Lemma wrap_u64_id z : in_u64 z -> wrap_u64 z = z.
Proof. unfold in_u64, wrap_u64, u64_max. intros. rewrite Z.mod_small; lia. Qed.

Lemma sat_i64_range z : in_i64 (sat_i64 z).
Proof. unfold in_i64, sat_i64, i64_min, i64_max. lia. Qed.

Lemma sat_i64_id z : in_i64 z -> sat_i64 z = z.
Proof. unfold in_i64, sat_i64, i64_min, i64_max. lia. Qed.

Lemma sat_i64_mono a b : a <= b -> sat_i64 a <= sat_i64 b.
Proof. unfold sat_i64. lia. Qed.

Lemma sat_u64_id z : in_u64 z -> sat_u64 z = z.
Proof. unfold in_u64, sat_u64, u64_max. lia. Qed.

(** ** Lists: [slice::chunks], stable sorting, running minimum and maximum *)

(** [chunks_aux fuel n l]: consecutive chunks of [n] elements, the last one shorter.
    [length l] steps are enough since every chunk of a positive size is non-empty. *)
Fixpoint chunks_aux {A} (fuel n : nat) (l : list A) : list (list A) :=
  match fuel with
  | O => []
  | S fuel =>
      match l with
      | [] => []
      | _ => take n l :: chunks_aux fuel n (drop n l)
      end
  end.
Definition chunks {A} (n : nat) (l : list A) : list (list A) := chunks_aux (length l) n l.

(** Stable insertion sort: [sort_by leb] is [slice::sort_by] with the order [leb]. *)
Fixpoint insert_by {A} (leb : A -> A -> bool) (x : A) (l : list A) : list A :=
  match l with
  | [] => [x]
  | y :: l' => if leb x y then x :: l else y :: insert_by leb x l'
  end.
Definition sort_by {A} (leb : A -> A -> bool) (l : list A) : list A := foldr (insert_by leb) [] l.

Section list_lemmas.
Context {A : Type}.
Implicit Types l : list A.

Lemma elem_of_concat (x : A) (ls : list (list A)) : x ∈ concat ls <-> exists l, x ∈ l /\ l ∈ ls.
Proof. induction ls as [|l ls IH]; cbn; [set_solver|]. rewrite elem_of_app, IH. set_solver. Qed.

Lemma chunks_aux_concat fuel n l :
  (0 < n)%nat -> (length l <= fuel)%nat -> concat (chunks_aux fuel n l) = l.
Proof.
  intros Hn; revert l; induction fuel as [|fuel IH]; intros [|x l] Hl; try done; [cbn in Hl; lia|].
  cbn [chunks_aux concat]. rewrite IH; [apply take_drop|].
  rewrite length_drop; cbn in *; lia.
Qed.

Lemma chunks_concat n l : (0 < n)%nat -> concat (chunks n l) = l.
Proof. intros. by apply chunks_aux_concat. Qed.

Lemma chunks_aux_size fuel n l c :
  (0 < n)%nat -> c ∈ chunks_aux fuel n l -> (1 <= length c <= n)%nat.
Proof.
  intros Hn; revert l; induction fuel as [|fuel IH]; intros l; cbn; [by intros ?%elem_of_nil|].
  destruct l as [|x l]; [by intros ?%elem_of_nil|].
  intros [->|Hc]%elem_of_cons; [|by eapply IH].
  rewrite length_take; cbn; lia.
Qed.

Lemma chunks_size n l c : (0 < n)%nat -> c ∈ chunks n l -> (1 <= length c <= n)%nat.
Proof. apply chunks_aux_size. Qed.

Lemma insert_by_perm leb x l : insert_by leb x l ≡ₚ x :: l.
Proof.
  induction l as [|y l IH]; cbn; [done|]. destruct (leb x y); [done|].
  by rewrite IH, Permutation_swap.
Qed.

Lemma sort_by_perm leb l : sort_by leb l ≡ₚ l.
Proof. induction l as [|x l IH]; cbn; [done|]. by rewrite insert_by_perm, IH. Qed.

Lemma elem_of_sort_by leb l x : x ∈ sort_by leb l <-> x ∈ l.
Proof. by rewrite sort_by_perm. Qed.

Lemma length_sort_by leb l : length (sort_by leb l) = length l.
Proof. by rewrite sort_by_perm. Qed.

Lemma NoDup_sort_by leb l : NoDup l -> NoDup (sort_by leb l).
Proof. by rewrite sort_by_perm. Qed.

Section ordered.
Context (leb : A -> A -> bool).
Context (Htot : forall x y, leb x y = true \/ leb y x = true).
Context (Htrans : forall x y z, leb x y = true -> leb y z = true -> leb x z = true).

Let R x y := leb x y = true.

Lemma insert_by_sorted x l : StronglySorted R l -> StronglySorted R (insert_by leb x l).
Proof.
  induction 1 as [|y l Hs IH Hy]; cbn; [by repeat constructor|].
  destruct (leb x y) eqn:E.
  - constructor; [by constructor|]. constructor; [done|].
    rewrite Forall_forall in Hy |- *. intros z Hz. by eapply Htrans, Hy.
  - constructor; [done|]. rewrite Forall_forall. intros z.
    rewrite insert_by_perm. intros [->|Hz]%elem_of_cons.
    + destruct (Htot x y); [congruence|done].
    + rewrite Forall_forall in Hy. by apply Hy.
Qed.

Lemma sort_by_sorted l : StronglySorted R (sort_by leb l).
Proof. induction l as [|x l IH]; cbn; [constructor|by apply insert_by_sorted]. Qed.
End ordered.
End list_lemmas.

(** [iter().max()] and [iter().min()] over integers. *)
Definition max_list (l : list Z) : option Z :=
  match l with [] => None | x :: l => Some (foldr Z.max x l) end.
Definition min_list (l : list Z) : option Z :=
  match l with [] => None | x :: l => Some (foldr Z.min x l) end.

Lemma foldr_max_spec d l : (forall x, x ∈ l -> x <= foldr Z.max d l) /\ d <= foldr Z.max d l.
Proof.
  induction l as [|x l [IH1 IH2]]; cbn; [split; [by intros ? ?%elem_of_nil|lia]|].
  split; [|lia]. intros z [->|Hz]%elem_of_cons; [lia|]. specialize (IH1 _ Hz); lia.
Qed.

Lemma foldr_min_spec d l : (forall x, x ∈ l -> foldr Z.min d l <= x) /\ foldr Z.min d l <= d.
Proof.
  induction l as [|x l [IH1 IH2]]; cbn; [split; [by intros ? ?%elem_of_nil|lia]|].
  split; [|lia]. intros z [->|Hz]%elem_of_cons; [lia|]. specialize (IH1 _ Hz); lia.
Qed.

Lemma max_list_ub l m x : max_list l = Some m -> x ∈ l -> x <= m.
Proof.
  destruct l as [|y l]; [done|]. intros [= <-] Hx. destruct (foldr_max_spec y l) as [H1 H2].
  apply elem_of_cons in Hx as [->|Hx]; [lia|by apply H1].
Qed.

Lemma min_list_lb l m x : min_list l = Some m -> x ∈ l -> m <= x.
Proof.
  destruct l as [|y l]; [done|]. intros [= <-] Hx. destruct (foldr_min_spec y l) as [H1 H2].
  apply elem_of_cons in Hx as [->|Hx]; [lia|by apply H1].
Qed.

Lemma min_list_elem l m : min_list l = Some m -> m ∈ l.
Proof.
  destruct l as [|x l]; [done|]. intros [= <-]. revert x. induction l as [|y l IH]; intros x; cbn; [constructor|].
  destruct (Z.min_spec y (foldr Z.min x l)) as [[_ ->]|[_ ->]]; [right; constructor|].
  apply elem_of_cons. specialize (IH x). apply elem_of_cons in IH as [->|?]; [by left|]. right. by constructor.
Qed.

(** ** Byte strings *)

(** A Rust [String] is its UTF-8 bytes; [ascii] is a byte here. *)
Definition byte_val (c : ascii) : Z := Z.of_N (N_of_ascii c).
Definition is_digit (c : ascii) : bool := (48 <=? byte_val c) && (byte_val c <=? 57).
(** [b.is_ascii_digit() || (b'a'..=b'f').contains(&b)] *)
Definition is_hex_lower (c : ascii) : bool :=
  is_digit c || ((97 <=? byte_val c) && (byte_val c <=? 102)).

Fixpoint str_all (p : ascii -> bool) (s : string) : bool :=
  match s with EmptyString => true | String c s => p c && str_all p s end.
Fixpoint str_take (n : nat) (s : string) : string :=
  match n, s with S n, String c s => String c (str_take n s) | _, _ => EmptyString end.
Fixpoint str_drop (n : nat) (s : string) : string :=
  match n, s with S n, String _ s => str_drop n s | _, _ => s end.
Definition str_get (n : nat) (s : string) : option ascii :=
  match str_drop n s with String c _ => Some c | EmptyString => None end.
Definition str_len (s : string) : Z := Z.of_nat (String.length s).

(** [s.strip_prefix(p)] *)
Fixpoint strip_prefix (p s : string) : option string :=
  match p, s with
  | EmptyString, _ => Some s
  | String a p, String b s => if Ascii.eqb a b then strip_prefix p s else None
  | String _ _, EmptyString => None
  end.

(** [s.split_once(c)]: before and after the first [c]. *)
Fixpoint split_once (c : ascii) (s : string) : option (string * string) :=
  match s with
  | EmptyString => None
  | String a s =>
      if Ascii.eqb a c then Some (EmptyString, s)
      else match split_once c s with
           | Some (l, r) => Some (String a l, r)
           | None => None
           end
  end.

(** [s.split(c)]: the segments between the occurrences of [c]; never empty. *)
Fixpoint split_on (c : ascii) (s : string) : list string :=
  match s with
  | EmptyString => [EmptyString]
  | String a s =>
      if Ascii.eqb a c then EmptyString :: split_on c s
      else match split_on c s with
           | seg :: segs => String a seg :: segs
           | [] => [String a EmptyString]
           end
  end.

(** [s.strip_suffix(t)] *)
Definition strip_suffix (t s : string) : option string :=
  let n := (String.length s - String.length t)%nat in
  if (String.length t <=? String.length s)%nat && bool_decide (str_drop n s = t) then Some (str_take n s) else None.

(** [s.starts_with(p)] *)
Definition starts_with (p s : string) : bool := match strip_prefix p s with Some _ => true | None => false end.

(** [s.split_once(pat)] of a string pattern: around its first occurrence. *)
Fixpoint split_once_str (pat s : string) : option (string * string) :=
  match strip_prefix pat s with
  | Some r => Some (EmptyString, r)
  | None =>
      match s with
      | EmptyString => None
      | String a s => match split_once_str pat s with Some (l, r) => Some (String a l, r) | None => None end
      end
  end.

(** [s.splitn(n, c)]: at most [n] segments, the last one unsplit. *)
Fixpoint splitn (n : nat) (c : ascii) (s : string) : list string :=
  match n with
  | O => []
  | S O => [s]
  | S n => match split_once c s with Some (l, r) => l :: splitn n c r | None => [s] end
  end.

(** [s.split_at_checked(n)]: in range and at a character boundary, that is not before a
    UTF-8 continuation byte. *)
Definition split_at_checked (n : nat) (s : string) : option (string * string) :=
  if (n <=? String.length s)%nat
     && match str_get n s with Some c => negb ((128 <=? byte_val c) && (byte_val c <? 192)) | None => true end
  then Some (str_take n s, str_drop n s) else None.

(** A regular expression that is a sequence of character classes, anchored at both ends. *)
Fixpoint matches (classes : list (ascii -> bool)) (s : string) : bool :=
  match classes, s with
  | [], EmptyString => true
  | p :: classes, String c s => p c && matches classes s
  | _, _ => false
  end.

(** [s.chars().any(char::is_control)] of UTF-8 bytes: C0, DEL, and C1 (encoded [C2 80..9F]). *)
Fixpoint has_control (s : string) : bool :=
  match s with
  | EmptyString => false
  | String c rest =>
      (byte_val c <? 32) || (byte_val c =? 127)
      || ((byte_val c =? 194)
          && match rest with
             | String d _ => (128 <=? byte_val d) && (byte_val d <=? 159)
             | EmptyString => false
             end)
      || has_control rest
  end.

Definition newline : string := String (ascii_of_N 10) EmptyString.

(** Decimal digits, most significant first: [format!("{z:0w$}")] of [0 <= z < 10^w]. *)
Definition digit_char (d : Z) : ascii := ascii_of_N (Z.to_N (48 + d)).
Definition digit_val (c : ascii) : Z := byte_val c - 48.
Fixpoint fixed_dec (w : nat) (z : Z) : string :=
  match w with
  | O => EmptyString
  | S w => String (digit_char (z / 10 ^ Z.of_nat w mod 10)) (fixed_dec w z)
  end.

(** Number of digits of [z], at least one. *)
Fixpoint ndigits_aux (fuel : nat) (z : Z) : nat :=
  match fuel with
  | O => 1
  | S fuel => if z <? 10 then 1 else S (ndigits_aux fuel (z / 10))
  end.
Definition ndigits (z : Z) : nat := ndigits_aux (Z.to_nat (Z.log2 z)) z.

(** [format!("{z:0w$}")]; a number wider than [w] keeps all its digits. *)
Definition fmt_pad (w : nat) (z : Z) : string := fixed_dec (Nat.max w (ndigits z)) z.
Definition to_dec (z : Z) : string := fmt_pad 1 z.

Fixpoint dec_val (acc : Z) (s : string) : Z :=
  match s with EmptyString => acc | String c s => dec_val (acc * 10 + digit_val c) s end.

(** [str::parse] of an unsigned integer up to [hi]: an optional [+], then digits. *)
Definition parse_unsigned (hi : Z) (s : string) : option Z :=
  let body := match s with String "+" r => r | _ => s end in
  if (0 <? str_len body) && str_all is_digit body && (dec_val 0 body <=? hi)
  then Some (dec_val 0 body) else None.

(** [str::parse] of a signed integer in [lo, hi]: an optional sign, then digits. *)
Definition parse_signed (lo hi : Z) (s : string) : option Z :=
  match s with
  | String "-" r =>
      if (0 <? str_len r) && str_all is_digit r && (lo <=? - dec_val 0 r)
      then Some (- dec_val 0 r) else None
  | _ => parse_unsigned hi s
  end.

Section string_lemmas.
Implicit Types (s t : string) (c : ascii).

Lemma str_app_cons c s t : String c s +:+ t = String c (s +:+ t).
Proof. done. Qed.

Lemma str_app_assoc s t u : s +:+ t +:+ u = (s +:+ t) +:+ u.
Proof. induction s as [|c s IH]; [done|]. by rewrite !str_app_cons, IH. Qed.

Lemma str_len_app s t : str_len (s +:+ t) = str_len s + str_len t.
Proof.
  unfold str_len. rewrite <- Nat2Z.inj_add. f_equal.
  induction s as [|c s IH]; [done|]. rewrite str_app_cons. cbn. by f_equal.
Qed.

Lemma str_take_app s t n : String.length s = n -> str_take n (s +:+ t) = s.
Proof. intros <-. induction s as [|c s IH]; [done|]. rewrite str_app_cons. cbn. f_equal. apply IH. Qed.

Lemma str_drop_app s t n : String.length s = n -> str_drop n (s +:+ t) = t.
Proof. intros <-. induction s as [|c s IH]; [done|]. rewrite str_app_cons. apply IH. Qed.

Lemma str_take_drop n s : str_take n s +:+ str_drop n s = s.
Proof.
  revert n; induction s as [|c s IH]; intros [|n]; try done.
  cbn. by rewrite str_app_cons, IH.
Qed.

Lemma str_take_length n s : (n <= String.length s)%nat -> String.length (str_take n s) = n.
Proof. revert n; induction s as [|c s IH]; intros [|n] Hn; cbn in *; try done; [lia|]. rewrite IH; lia. Qed.

Lemma str_all_app p s t : str_all p (s +:+ t) = str_all p s && str_all p t.
Proof.
  induction s as [|c s IH]; [done|]. rewrite str_app_cons. cbn. by rewrite IH, andb_assoc.
Qed.

Lemma strip_prefix_app p s : strip_prefix p (p +:+ s) = Some s.
Proof.
  induction p as [|c p IH]; [by destruct s|]. rewrite str_app_cons. cbn. by rewrite Ascii.eqb_refl.
Qed.

Lemma strip_prefix_inv p s r : strip_prefix p s = Some r -> s = p +:+ r.
Proof.
  revert s; induction p as [|a p IH]; intros s; cbn; [intros [= ->]; done|].
  destruct s as [|b s]; [done|]. destruct (Ascii.eqb_spec a b) as [->|]; [|done].
  intros ->%IH. done.
Qed.

Lemma str_length_app s t : String.length (s +:+ t) = (String.length s + String.length t)%nat.
Proof. induction s as [|c s IH]; [done|]. rewrite str_app_cons. cbn. by f_equal. Qed.

Lemma strip_suffix_app s t : strip_suffix t (s +:+ t) = Some s.
Proof.
  unfold strip_suffix. rewrite str_length_app.
  replace (String.length s + String.length t - String.length t)%nat with (String.length s) by lia.
  rewrite str_drop_app, str_take_app, bool_decide_eq_true_2 by done. by rewrite (proj2 (Nat.leb_le _ _)) by lia.
Qed.

Lemma strip_suffix_inv t s r : strip_suffix t s = Some r -> s = r +:+ t.
Proof.
  unfold strip_suffix. destruct (_ && _) eqn:E; [|done]. intros [= <-].
  apply andb_true_iff in E as [_ E%bool_decide_eq_true].
  rewrite <- (str_take_drop (String.length s - String.length t) s) at 1. by rewrite E.
Qed.

Lemma starts_with_spec p s : starts_with p s = true <-> exists r, s = p +:+ r.
Proof.
  unfold starts_with. split.
  - destruct (strip_prefix p s) as [r|] eqn:E; [|done]. intros _. exists r. by apply strip_prefix_inv.
  - intros [r ->]. by rewrite strip_prefix_app.
Qed.

Lemma split_once_inv c s l r :
  split_once c s = Some (l, r) -> s = l +:+ String c r /\ str_all (fun d => negb (Ascii.eqb d c)) l = true.
Proof.
  revert l. induction s as [|a s IH]; intros l; cbn; [done|]. destruct (Ascii.eqb_spec a c) as [->|Hne]; [by intros [= <- <-]|].
  destruct (split_once c s) as [[l' r']|]; [|done]. intros [= <- <-]. destruct (IH l' eq_refl) as [-> Hl].
  split; [done|]. cbn. rewrite Hl. by destruct (Ascii.eqb_spec a c).
Qed.

Lemma split_once_app c l r :
  str_all (fun d => negb (Ascii.eqb d c)) l = true -> split_once c (l +:+ String c r) = Some (l, r).
Proof.
  induction l as [|a l IH]; intros Hl.
  - change ("" +:+ String c r) with (String c r). cbn [split_once]. by rewrite Ascii.eqb_refl.
  - rewrite str_app_cons. cbn [split_once str_all] in *. apply andb_true_iff in Hl as [Ha Hl].
    apply negb_true_iff in Ha. by rewrite Ha, IH.
Qed.

Lemma split_once_str_inv pat s l r : split_once_str pat s = Some (l, r) -> s = l +:+ pat +:+ r.
Proof.
  revert l. induction s as [|a s IH]; intros l; cbn [split_once_str].
  - destruct (strip_prefix pat _) eqn:E; [|done]. intros [= <- <-]. apply (strip_prefix_inv _ _ _ E).
  - destruct (strip_prefix pat _) eqn:E; [intros [= <- <-]; apply (strip_prefix_inv _ _ _ E)|].
    destruct (split_once_str pat s) as [[l' r']|]; [|done]. intros [= <- <-]. rewrite str_app_cons. f_equal. by apply IH.
Qed.

(** A pattern is found right after a prefix that does not contain its first character. *)
Lemma split_once_str_app c pat l r :
  str_all (fun d => negb (Ascii.eqb d c)) l = true ->
  split_once_str (String c pat) (l +:+ String c pat +:+ r) = Some (l, r).
Proof.
  induction l as [|a l IH]; intros Hl.
  - change ("" +:+ String c pat +:+ r) with (String c pat +:+ r). rewrite str_app_cons. cbn [split_once_str].
    rewrite <- str_app_cons, strip_prefix_app. done.
  - rewrite str_app_cons. cbn in Hl. apply andb_true_iff in Hl as [Ha Hl]. apply negb_true_iff in Ha.
    cbn [split_once_str strip_prefix]. rewrite Ascii.eqb_sym, Ha. by rewrite IH.
Qed.

Lemma matches_length ps s : matches ps s = true -> String.length s = length ps.
Proof. revert s. induction ps as [|p ps IH]; intros [|c s]; cbn; try done. intros [_ Hs]%andb_true_iff. by rewrite IH. Qed.

(** What every class excludes, the matched string does not contain. *)
Lemma matches_all (q : ascii -> bool) ps s :
  Forall (fun p => forall c, p c = true -> q c = true) ps -> matches ps s = true -> str_all q s = true.
Proof.
  intros Hp. revert s. induction Hp as [|p ps Hq Hp IH]; intros [|c s]; cbn; try done.
  intros [Hc Hs]%andb_true_iff. by rewrite Hq, IH.
Qed.

Lemma str_app_inv_len s1 s2 t1 t2 :
  String.length s1 = String.length s2 -> s1 +:+ t1 = s2 +:+ t2 -> s1 = s2 /\ t1 = t2.
Proof.
  revert s2; induction s1 as [|c s1 IH]; intros [|d s2] Hl H; try done.
  injection Hl as Hl. rewrite !str_app_cons in H. injection H as -> H. by destruct (IH _ Hl H) as [-> ->].
Qed.

(** A separator that the left parts do not contain splits uniquely. *)
Lemma split_sep_inj p s1 s2 c t1 t2 :
  str_all p s1 = true -> str_all p s2 = true -> p c = false ->
  s1 +:+ String c t1 = s2 +:+ String c t2 -> s1 = s2 /\ t1 = t2.
Proof.
  intros H1 H2 Hc. revert s2 H2; induction s1 as [|a s1 IH]; intros [|b s2] H2 E.
  - by injection E.
  - injection E as -> _. cbn in H2. by rewrite Hc in H2.
  - injection E as -> _. cbn in H1. by rewrite Hc in H1.
  - rewrite !str_app_cons in E. injection E as -> E. cbn in H1, H2.
    apply andb_true_iff in H1 as [_ H1], H2 as [_ H2]. by destruct (IH H1 s2 H2 E) as [-> ->].
Qed.

Lemma no_control_no_newline s :
  has_control s = false -> str_all (fun c => negb (byte_val c =? 10)) s = true.
Proof.
  induction s as [|c s IH]; [done|]. cbn [has_control str_all].
  rewrite !orb_false_iff. intros [[[H1 _] _] H2]. rewrite IH by done.
  apply Z.ltb_ge in H1. destruct (Z.eqb_spec (byte_val c) 10); [lia|done].
Qed.

Lemma str_all_impl p q s : (forall c, p c = true -> q c = true) -> str_all p s = true -> str_all q s = true.
Proof. intros Hpq. induction s as [|c s IH]; cbn; [done|]. rewrite !andb_true_iff. intros [? ?]; split; auto. Qed.

Lemma byte_val_inj c d : byte_val c = byte_val d -> c = d.
Proof.
  unfold byte_val. intros H%N2Z.inj. rewrite <- (ascii_N_embedding c), H. apply ascii_N_embedding.
Qed.

Lemma digit_char_val d : 0 <= d < 10 -> digit_val (digit_char d) = d.
Proof.
  intros. unfold digit_val, byte_val, digit_char. rewrite N_ascii_embedding by lia. lia.
Qed.

Lemma digit_char_digit d : 0 <= d < 10 -> is_digit (digit_char d) = true.
Proof.
  intros H. pose proof (digit_char_val d H) as Hv. unfold digit_val in Hv.
  unfold is_digit. rewrite andb_true_iff. lia.
Qed.

Lemma is_digit_range c : is_digit c = true -> 0 <= digit_val c < 10.
Proof. unfold is_digit, digit_val. rewrite andb_true_iff. lia. Qed.

Lemma fixed_dec_length w z : String.length (fixed_dec w z) = w.
Proof. induction w as [|w IH]; cbn; [done|by rewrite IH]. Qed.

Lemma fixed_dec_digits w z : str_all is_digit (fixed_dec w z) = true.
Proof.
  induction w as [|w IH]; cbn; [done|]. rewrite IH, digit_char_digit; [done|].
  apply Z.mod_pos_bound. lia.
Qed.

Lemma fmt_pad_digits w z : str_all is_digit (fmt_pad w z) = true.
Proof. apply fixed_dec_digits. Qed.

Lemma dec_val_acc acc s : dec_val acc s = acc * 10 ^ str_len s + dec_val 0 s.
Proof.
  unfold str_len. revert acc; induction s as [|c s IH]; intros acc; [cbn; lia|].
  cbn [dec_val String.length]. rewrite IH, (IH (0 * 10 + digit_val c)).
  rewrite Nat2Z.inj_succ, Z.pow_succ_r by lia. ring.
Qed.

Lemma dec_val_bound s : str_all is_digit s = true -> 0 <= dec_val 0 s < 10 ^ str_len s.
Proof.
  unfold str_len. induction s as [|c s IH]; [cbn; lia|].
  cbn [str_all dec_val String.length]. intros [Hc%is_digit_range Hs]%andb_true_iff.
  specialize (IH Hs). rewrite dec_val_acc. unfold str_len.
  rewrite Nat2Z.inj_succ, Z.pow_succ_r by lia. nia.
Qed.

Lemma dec_val_fixed w z : 0 <= z < 10 ^ Z.of_nat w -> dec_val 0 (fixed_dec w z) = z.
Proof.
  enough (0 <= z -> dec_val 0 (fixed_dec w z) = z mod 10 ^ Z.of_nat w) as H.
  { intros Hz. rewrite H by lia. by apply Z.mod_small. }
  intros Hz. induction w as [|w IH]; [cbn; by rewrite Z.mod_1_r|].
  cbn [fixed_dec dec_val]. rewrite dec_val_acc, IH. unfold str_len. rewrite fixed_dec_length.
  rewrite digit_char_val by (apply Z.mod_pos_bound; lia).
  rewrite Nat2Z.inj_succ, Z.pow_succ_r, (Z.mul_comm 10) by lia.
  rewrite Z.rem_mul_r by lia. ring.
Qed.
End string_lemmas.

(** ** Order of strings, and of the keys of a [BTreeMap] *)

Section string_order.
Implicit Types (s t : string) (c d : ascii).

Lemma ascii_compare_val c d : Ascii.compare c d = (byte_val c ?= byte_val d).
Proof. unfold Ascii.compare, byte_val. by rewrite N2Z.inj_compare. Qed.

Lemma str_compare_refl s : String.compare s s = Eq.
Proof. induction s as [|c s IH]; cbn; [done|]. by rewrite ascii_compare_val, Z.compare_refl. Qed.

(** Digit strings of one length compare as their numbers. *)
Lemma dec_compare s t :
  String.length s = String.length t -> str_all is_digit s = true -> str_all is_digit t = true ->
  String.compare s t = (dec_val 0 s ?= dec_val 0 t).
Proof.
  revert t; induction s as [|c s IH]; intros [|d t] Hl Hs Ht; try done.
  injection Hl as Hl. cbn in Hs, Ht. apply andb_true_iff in Hs as [Hc Hs], Ht as [Hd Ht].
  cbn [String.compare dec_val]. rewrite ascii_compare_val, IH by done.
  pose proof (dec_val_bound s Hs) as Bs. pose proof (dec_val_bound t Ht) as Bt.
  rewrite (dec_val_acc (0 * 10 + digit_val c) s), (dec_val_acc (0 * 10 + digit_val d) t).
  assert (str_len s = str_len t) as El by (unfold str_len; by rewrite Hl).
  rewrite El in *. apply is_digit_range in Hc, Hd. unfold digit_val in *.
  assert (0 < 10 ^ str_len t) by (apply Z.pow_pos_nonneg; unfold str_len; lia).
  destruct (Z.compare_spec (byte_val c) (byte_val d)) as [E|E|E].
  - rewrite E. symmetry. apply Z.add_compare_mono_l.
  - symmetry. apply Z.compare_lt_iff. nia.
  - symmetry. apply Z.compare_gt_iff. nia.
Qed.

(** The first differing block of one length decides the order. *)
Lemma str_compare_app s1 s2 t1 t2 :
  String.length s1 = String.length s2 ->
  String.compare (s1 +:+ t1) (s2 +:+ t2) =
    match String.compare s1 s2 with Eq => String.compare t1 t2 | r => r end.
Proof.
  revert s2; induction s1 as [|c s1 IH]; intros [|d s2] Hl; try done.
  injection Hl as Hl. rewrite !str_app_cons. cbn. by destruct (Ascii.compare c d); [apply IH| |].
Qed.

Lemma str_leb_refl s : String.leb s s = true.
Proof. unfold String.leb. by rewrite str_compare_refl. Qed.

Lemma str_leb_trans s1 s2 s3 : String.leb s1 s2 = true -> String.leb s2 s3 = true -> String.leb s1 s3 = true.
Proof.
  intros H1 H2. apply Is_true_true. by apply (transitivity (R := String.le) (y := s2)); apply Is_true_true.
Qed.
End string_order.

Lemma fixed_dec_compare w a b :
  0 <= a < 10 ^ Z.of_nat w -> 0 <= b < 10 ^ Z.of_nat w ->
  String.compare (fixed_dec w a) (fixed_dec w b) = (a ?= b).
Proof.
  intros Ha Hb. rewrite dec_compare by (by rewrite ?fixed_dec_length, ?fixed_dec_digits).
  by rewrite !dec_val_fixed.
Qed.

Lemma fixed_dec_inj w a b :
  0 <= a < 10 ^ Z.of_nat w -> 0 <= b < 10 ^ Z.of_nat w -> fixed_dec w a = fixed_dec w b -> a = b.
Proof. intros Ha Hb H. rewrite <- (dec_val_fixed w a Ha), H. by apply dec_val_fixed. Qed.

Lemma ndigits_aux_bound fuel w z : 0 <= z < 10 ^ Z.of_nat (S w) -> (ndigits_aux fuel z <= S w)%nat.
Proof.
  revert w z; induction fuel as [|fuel IH]; intros w z Hz; cbn; [lia|].
  destruct (Z.ltb_spec z 10); [lia|]. destruct w as [|w]; [cbn in Hz; lia|].
  apply le_n_S, IH. rewrite (Nat2Z.inj_succ (S w)), Z.pow_succ_r in Hz by lia.
  split; [by apply Z.div_pos; lia|]. apply Z.div_lt_upper_bound; lia.
Qed.

(** A number that fits [w] digits is printed with exactly [w] digits. *)
Lemma fmt_pad_fixed w z : 0 <= z < 10 ^ Z.of_nat (S w) -> fmt_pad (S w) z = fixed_dec (S w) z.
Proof.
  intros Hz. unfold fmt_pad. f_equal. pose proof (ndigits_aux_bound (Z.to_nat (Z.log2 z)) w z Hz).
  unfold ndigits. lia.
Qed.

Lemma ndigits_aux_enough fuel z : 0 <= z < 2 ^ Z.of_nat (S fuel) -> z < 10 ^ Z.of_nat (ndigits_aux fuel z).
Proof.
  revert z; induction fuel as [|fuel IH]; intros z Hz; cbn [ndigits_aux]; [cbn in *; lia|].
  destruct (Z.ltb_spec z 10); [cbn; lia|].
  rewrite (Nat2Z.inj_succ (S fuel)), Z.pow_succ_r in Hz by lia.
  assert (z / 10 < 10 ^ Z.of_nat (ndigits_aux fuel (z / 10))) as H'.
  { apply IH. split; [by apply Z.div_pos; lia|]. apply Z.div_lt_upper_bound; lia. }
  rewrite Nat2Z.inj_succ, Z.pow_succ_r by lia.
  pose proof (Z.div_mod z 10 ltac:(lia)). pose proof (Z.mod_pos_bound z 10 ltac:(lia)). lia.
Qed.

(** Printing keeps every digit: the number reads back, at any width. *)
Lemma dec_val_fmt_pad w z : 0 <= z -> dec_val 0 (fmt_pad w z) = z.
Proof.
  intros Hz. unfold fmt_pad. apply dec_val_fixed. split; [done|].
  apply Z.lt_le_trans with (10 ^ Z.of_nat (ndigits z)); [|apply Z.pow_le_mono_r; lia].
  unfold ndigits. apply ndigits_aux_enough. split; [done|].
  destruct (Z.eq_dec z 0) as [->|Hnz]; [done|].
  rewrite Nat2Z.inj_succ, Z2Nat.id by apply Z.log2_nonneg. apply Z.log2_spec. lia.
Qed.

Lemma to_dec_inj a b : 0 <= a -> 0 <= b -> to_dec a = to_dec b -> a = b.
Proof. intros Ha Hb E. rewrite <- (dec_val_fmt_pad 1 a Ha), <- (dec_val_fmt_pad 1 b Hb). by f_equal. Qed.

(** ** Decimal strings without leading zeros are the numbers *)

Section canonical_decimal.
Implicit Types s : string.

Lemma digit_char_of c : is_digit c = true -> digit_char (digit_val c) = c.
Proof.
  intros H. pose proof (is_digit_range c H). apply byte_val_inj.
  pose proof (digit_char_val (digit_val c) ltac:(lia)) as E. unfold digit_val in E at 1. unfold digit_val in *. lia.
Qed.

Lemma fixed_dec_dec_val s : str_all is_digit s = true -> fixed_dec (String.length s) (dec_val 0 s) = s.
Proof.
  enough (forall s k, str_all is_digit s = true -> 0 <= k -> fixed_dec (String.length s) (k * 10 ^ str_len s + dec_val 0 s) = s) as H.
  { intros Hs. specialize (H s 0 Hs ltac:(lia)). by rewrite Z.mul_0_l, Z.add_0_l in H. }
  clear. induction s as [|c s IH]; intros k Hs Hk; [done|]. cbn [String.length fixed_dec]. cbn [str_all] in Hs.
  apply andb_true_iff in Hs as [Hc Hs]. pose proof (is_digit_range c Hc) as Hr. pose proof (dec_val_bound s Hs) as Hb.
  change (dec_val 0 (String c s)) with (dec_val (0 * 10 + digit_val c) s). rewrite dec_val_acc.
  assert (str_len (String c s) = str_len s + 1) as -> by (unfold str_len; cbn [String.length]; lia).
  rewrite Z.pow_add_r by (unfold str_len; lia).
  replace (k * (10 ^ str_len s * 10 ^ 1) + ((0 * 10 + digit_val c) * 10 ^ str_len s + dec_val 0 s))
    with ((k * 10 + digit_val c) * 10 ^ str_len s + dec_val 0 s) by ring.
  f_equal; [|apply IH; [done|lia]]. change (Z.of_nat (String.length s)) with (str_len s).
  rewrite Z.div_add_l, Z.div_small, Z.add_0_r by lia. rewrite Z.add_comm, Z_mod_plus_full, Z.mod_small by lia. by apply digit_char_of.
Qed.

Lemma ndigits_aux_exact fuel w z :
  10 ^ Z.of_nat w <= z < 2 ^ Z.of_nat (S fuel) -> (S w <= ndigits_aux fuel z)%nat.
Proof.
  revert w z; induction fuel as [|fuel IH]; intros w z [H1 H2]; destruct w as [|w]; cbn [ndigits_aux]; try lia.
  - rewrite Nat2Z.inj_succ, Z.pow_succ_r in H1 by lia. assert (0 < 10 ^ Z.of_nat w) by (apply Z.pow_pos_nonneg; lia). cbn in H2. lia.
  - destruct (z <? 10); lia.
  - rewrite Nat2Z.inj_succ, Z.pow_succ_r in H1 by lia. assert (0 < 10 ^ Z.of_nat w) by (apply Z.pow_pos_nonneg; lia).
    destruct (Z.ltb_spec z 10); [lia|]. apply le_n_S, IH. rewrite (Nat2Z.inj_succ (S fuel)), Z.pow_succ_r in H2 by lia.
    split; [apply Z.div_le_lower_bound; lia|apply Z.div_lt_upper_bound; lia].
Qed.

Lemma ndigits_exact w z : 10 ^ Z.of_nat w <= z < 10 ^ Z.of_nat (S w) -> ndigits z = S w.
Proof.
  intros [H1 H2]. assert (0 < 10 ^ Z.of_nat w) by (apply Z.pow_pos_nonneg; lia). unfold ndigits. apply Nat.le_antisymm.
  - apply ndigits_aux_bound. lia.
  - apply ndigits_aux_exact. split; [done|]. rewrite Nat2Z.inj_succ, Z2Nat.id by apply Z.log2_nonneg. apply Z.log2_spec. lia.
Qed.

(** The digit strings that are a number's spelling: zero alone, or a non-zero first digit. *)
Definition no_leading_zero s : bool := bool_decide (s = "0") || negb (bool_decide (str_get 0 s = Some "0"%char)).

Lemma to_dec_canonical s :
  s <> EmptyString -> str_all is_digit s = true -> no_leading_zero s = true -> to_dec (dec_val 0 s) = s.
Proof.
  intros Hne Hs Hz. destruct s as [|c s]; [done|]. unfold no_leading_zero in Hz. apply orb_true_iff in Hz as [Hz|Hz].
  { apply bool_decide_eq_true in Hz. by rewrite Hz. }
  apply negb_true_iff, bool_decide_eq_false in Hz. cbn in Hz.
  pose proof Hs as Hs'. cbn [str_all] in Hs'. apply andb_true_iff in Hs' as [Hc Ht].
  pose proof (is_digit_range c Hc). assert (digit_val c <> 0).
  { intros E. apply Hz. f_equal. rewrite <- (digit_char_of c Hc), E. reflexivity. }
  pose proof (dec_val_bound s Ht). pose proof (dec_val_bound _ Hs) as [_ Hub].
  assert (dec_val 0 (String c s) = digit_val c * 10 ^ str_len s + dec_val 0 s) as Ev.
  { change (dec_val 0 (String c s)) with (dec_val (0 * 10 + digit_val c) s). rewrite dec_val_acc. ring. }
  unfold to_dec, fmt_pad. rewrite (ndigits_exact (String.length s)).
  - change (1 `max` S (String.length s))%nat with (S (String.length s)). by apply (fixed_dec_dec_val (String c s)).
  - change (10 ^ str_len s <= dec_val 0 (String c s) < 10 ^ str_len (String c s)). split; [|done]. rewrite Ev. nia.
Qed.

Lemma ndigits_pos z : (1 <= ndigits z)%nat.
Proof. unfold ndigits. destruct (Z.to_nat (Z.log2 z)); cbn; [lia|]. destruct (z <? 10); lia. Qed.

Lemma ndigits_aux_lower fuel z : 0 < z < 2 ^ Z.of_nat (S fuel) -> 10 ^ (Z.of_nat (ndigits_aux fuel z) - 1) <= z.
Proof.
  revert z. induction fuel as [|fuel IH]; intros z Hz; cbn [ndigits_aux]; [cbn in *; lia|].
  destruct (Z.ltb_spec z 10); [cbn; lia|]. rewrite (Nat2Z.inj_succ (S fuel)), Z.pow_succ_r in Hz by lia.
  assert (10 ^ (Z.of_nat (ndigits_aux fuel (z / 10)) - 1) <= z / 10) as H'.
  { apply IH. split; [apply Z.div_str_pos; lia|apply Z.div_lt_upper_bound; lia]. }
  pose proof (Z.mul_div_le z 10 ltac:(lia)).
  destruct (ndigits_aux fuel (z / 10)) as [|n] eqn:En; [destruct fuel; cbn in En; [done|destruct (_ <? 10); done]|].
  replace (Z.of_nat (S n) - 1) with (Z.of_nat n) in H' by lia.
  replace (Z.of_nat (S (S n)) - 1) with (Z.succ (Z.of_nat n)) by lia. rewrite Z.pow_succ_r by lia. lia.
Qed.

Lemma to_dec_head z : 0 <= z -> exists c t, to_dec z = String c t /\ is_digit c = true.
Proof.
  intros Hz. pose proof (fmt_pad_digits 1 z) as Hd. fold (to_dec z) in Hd. destruct (to_dec z) as [|c t] eqn:E.
  - unfold to_dec, fmt_pad in E. apply (f_equal String.length) in E. rewrite fixed_dec_length in E. cbn in E. lia.
  - exists c, t. split; [done|]. by apply andb_true_iff in Hd as [? _].
Qed.

Lemma to_dec_no_leading_zero z : 0 <= z -> no_leading_zero (to_dec z) = true.
Proof.
  intros Hz. destruct (Z.eq_dec z 0) as [->|Hnz]; [done|]. unfold no_leading_zero. apply orb_true_iff. right.
  apply negb_true_iff, bool_decide_eq_false. unfold to_dec, fmt_pad. pose proof (ndigits_pos z).
  destruct (1 `max` ndigits z)%nat as [|w] eqn:Ew; [lia|]. cbn. intros [= E].
  assert (10 ^ Z.of_nat w <= z < 10 ^ Z.of_nat (S w)) as Hb.
  { assert (ndigits z = S w) as En by lia. unfold ndigits in En.
    assert (0 < z < 2 ^ Z.of_nat (S (Z.to_nat (Z.log2 z)))) as Hl.
    { rewrite Nat2Z.inj_succ, Z2Nat.id by apply Z.log2_nonneg. split; [lia|]. apply Z.log2_spec. lia. }
    pose proof (ndigits_aux_lower _ _ Hl) as L. pose proof (ndigits_aux_enough _ z ltac:(split; [lia|apply Hl])) as U.
    rewrite En in L, U. replace (Z.of_nat (S w) - 1) with (Z.of_nat w) in L by lia. done. }
  rewrite Nat2Z.inj_succ, Z.pow_succ_r in Hb by lia. assert (0 < 10 ^ Z.of_nat w) by (apply Z.pow_pos_nonneg; lia).
  assert (1 <= z / 10 ^ Z.of_nat w < 10) as Hq by (split; [apply Z.div_le_lower_bound; lia|apply Z.div_lt_upper_bound; lia]).
  rewrite Z.mod_small in E by lia. apply (f_equal digit_val) in E. rewrite digit_char_val in E by lia. change (digit_val "0") with 0 in E. lia.
Qed.
End canonical_decimal.

(** Keys of an ordered map, in the order [BTreeMap] iterates them. *)
Section btree.
Context {K V : Type} `{Countable K}.
Context (leb : K -> K -> bool).

Definition btree_keys (m : gmap K V) : list K := sort_by leb (map_to_list m).*1.
Definition btree_values (m : gmap K V) : list V := omap (fun k => m !! k) (btree_keys m).

Lemma elem_of_btree_keys m k : k ∈ btree_keys m <-> is_Some (m !! k).
Proof.
  unfold btree_keys. rewrite elem_of_sort_by, list_elem_of_fmap. split.
  - intros ([k' v] & -> & Hkv). apply elem_of_map_to_list in Hkv. by eexists.
  - intros [v Hv]. exists (k, v). split; [done|]. by apply elem_of_map_to_list.
Qed.

Lemma elem_of_btree_values m v : v ∈ btree_values m <-> exists k, m !! k = Some v.
Proof.
  unfold btree_values. rewrite list_elem_of_omap. split.
  - intros (k & _ & ?). by exists k.
  - intros [k Hk]. exists k. split; [|done]. apply elem_of_btree_keys. by eexists.
Qed.

Lemma NoDup_btree_keys m : NoDup (btree_keys m).
Proof. apply NoDup_sort_by, NoDup_fst_map_to_list. Qed.
End btree.

(** ** Sums *)

Definition zsum (l : list Z) : Z := foldr Z.add 0 l.

(** [iter().sum()] of [u64]s, which wraps in a release build. *)
Definition sum_u64 (l : list Z) : Z := fold_left (fun a b => wrap_u64 (a + b)) l 0.

(** [slice::windows(2).any(p)] *)
Fixpoint any_pair {A} (p : A -> A -> bool) (l : list A) : bool :=
  match l with
  | a :: ((b :: _) as l') => p a b || any_pair p l'
  | _ => false
  end.

Lemma submseteq_Forall {A} (P : A -> Prop) l k : l ⊆+ k -> Forall P k -> Forall P l.
Proof. rewrite !Forall_forall. intros Hs Hk x Hx. apply Hk. by eapply elem_of_submseteq. Qed.

Lemma zsum_nonneg l : Forall (fun x => 0 <= x) l -> 0 <= zsum l.
Proof. induction 1; unfold zsum in *; cbn; lia. Qed.

Lemma zsum_perm l k : l ≡ₚ k -> zsum l = zsum k.
Proof. induction 1 as [|x l k _ IH|x y l|l k j _ IH1 _ IH2]; cbn; unfold zsum in *; lia. Qed.

Lemma sum_u64_acc l a :
  Forall (fun x => 0 <= x) l -> 0 <= a -> a + zsum l <= u64_max ->
  fold_left (fun a b => wrap_u64 (a + b)) l a = a + zsum l.
Proof.
  intros Hl. revert a. induction Hl as [|x l Hx Hl IH]; intros a Ha Hb; cbn in *; [lia|].
  assert (0 <= zsum l) by (by apply zsum_nonneg).
  fold (zsum l) in *. rewrite wrap_u64_id by (unfold in_u64; lia). rewrite IH; lia.
Qed.

Lemma sum_u64_exact l : Forall (fun x => 0 <= x) l -> zsum l <= u64_max -> sum_u64 l = zsum l.
Proof. intros. unfold sum_u64. rewrite sum_u64_acc by (done || lia). lia. Qed.

Lemma zsum_submseteq l k : l ⊆+ k -> Forall (fun x => 0 <= x) k -> zsum l <= zsum k.
Proof.
  intros Hs. induction Hs as [|x l k Hs IH|x y l|x l k Hs IH|l k j H1 IH1 H2 IH2]; intros Hk; cbn in *.
  - done.
  - apply Forall_cons in Hk as [Hx Hk]. specialize (IH Hk). unfold zsum in *. lia.
  - lia.
  - apply Forall_cons in Hk as [Hx Hk]. specialize (IH Hk). unfold zsum in *. lia.
  - specialize (IH2 Hk). specialize (IH1 (submseteq_Forall _ _ _ H2 Hk)). lia.
Qed.
