(* ===== verification/Bytes.v ===== *)
(** * Bytes: byte strings and the integer codings of the index files

    Byte slices ([&[u8]]) with ASCII classes, their lexicographic order, UTF-8, little-endian
    integers, the varints of [parts/token_counts.rs] and the [Cursor] of [parts/sidecar.rs].
    A reading position in a slice is the unread rest of the slice. *)
From S2P Require Import Prelude.

Definition Bytes := list Z.
Definition is_byte (b : Z) : Prop := 0 <= b < 256.

(** ** ASCII *)

Definition is_ascii (b : Z) : bool := (0 <=? b) && (b <? 128).
Definition ascii_digit (b : Z) : bool := (48 <=? b) && (b <=? 57).
Definition ascii_upper (b : Z) : bool := (65 <=? b) && (b <=? 90).
Definition ascii_lower (b : Z) : bool := (97 <=? b) && (b <=? 122).
Definition ascii_alphabetic (b : Z) : bool := ascii_upper b || ascii_lower b.
Definition ascii_alphanumeric (b : Z) : bool := ascii_digit b || ascii_alphabetic b.
Definition to_ascii_lowercase (b : Z) : Z := if ascii_upper b then b + 32 else b.
Definition to_ascii_uppercase (b : Z) : Z := if ascii_lower b then b - 32 else b.
Definition lower_all (bs : Bytes) : Bytes := to_ascii_lowercase <$> bs.

(** Decide the ASCII classes of the goal and the hypotheses by arithmetic. *)
Ltac ascii_solve :=
  unfold to_ascii_lowercase, to_ascii_uppercase, is_ascii, ascii_alphanumeric, ascii_alphabetic, ascii_digit, ascii_upper, ascii_lower in *;
  repeat match goal with
  | H : context [Z.leb _ _] |- _ => revert H
  | H : context [Z.ltb _ _] |- _ => revert H
  end;
  repeat (match goal with
  | |- context [?a <=? ?b] => lazymatch constr:((a, b)) with context [if _ then _ else _] => fail | _ => destruct (Z.leb_spec a b) end
  | |- context [?a <? ?b] => lazymatch constr:((a, b)) with context [if _ then _ else _] => fail | _ => destruct (Z.ltb_spec a b) end
  end; cbn [andb orb negb]); intros; try congruence; try lia.

Lemma lowercase_idemp b : to_ascii_lowercase (to_ascii_lowercase b) = to_ascii_lowercase b.
Proof. ascii_solve. Qed.

(** ASCII case folding neither makes nor breaks a class. *)
Lemma fold_alphanumeric a b : to_ascii_lowercase a = to_ascii_lowercase b -> ascii_alphanumeric a = ascii_alphanumeric b.
Proof. ascii_solve. Qed.
Lemma fold_ascii a b : to_ascii_lowercase a = to_ascii_lowercase b -> is_ascii a = is_ascii b.
Proof. ascii_solve. Qed.
(** A byte that is no letter folds only to itself. *)
Lemma fold_other a b : ascii_alphabetic a = false -> to_ascii_lowercase a = to_ascii_lowercase b -> b = a.
Proof. ascii_solve. Qed.

(** ** Lexicographic order *)

Fixpoint bytes_leb (a b : Bytes) : bool :=
  match a, b with
  | [], _ => true
  | _ :: _, [] => false
  | x :: a, y :: b => (x <? y) || ((x =? y) && bytes_leb a b)
  end.
(** [a < b] *)
Definition bytes_ltb (a b : Bytes) : bool := negb (bytes_leb b a).

Lemma bytes_leb_refl a : bytes_leb a a = true.
Proof. induction a as [|x a IH]; cbn; [done|]. by rewrite Z.eqb_refl, IH, orb_true_r. Qed.

Lemma bytes_leb_total a b : bytes_leb a b = true \/ bytes_leb b a = true.
Proof.
  revert b; induction a as [|x a IH]; intros [|y b]; cbn; auto.
  destruct (Z.ltb_spec x y), (Z.ltb_spec y x); cbn; auto. assert (x = y) as -> by lia. by rewrite Z.eqb_refl; cbn.
Qed.

Lemma bytes_leb_cons x y a b : bytes_leb (x :: a) (y :: b) = true <-> x < y \/ x = y /\ bytes_leb a b = true.
Proof. cbn. rewrite orb_true_iff, andb_true_iff, Z.ltb_lt, Z.eqb_eq. done. Qed.

Lemma bytes_leb_trans a b c : bytes_leb a b = true -> bytes_leb b c = true -> bytes_leb a c = true.
Proof.
  revert b c; induction a as [|x a IH]; intros [|y b] [|z c]; try done.
  rewrite !bytes_leb_cons. intros [?|[-> ?]] [?|[-> ?]]; [left; lia|left; lia|left; lia|right; eauto].
Qed.

Lemma bytes_leb_antisym a b : bytes_leb a b = true -> bytes_leb b a = true -> a = b.
Proof.
  revert b; induction a as [|x a IH]; intros [|y b]; try done.
  rewrite !bytes_leb_cons. intros [?|[-> ?]] [?|[? ?]]; try lia. f_equal; auto.
Qed.

Lemma bytes_ltb_spec a b : bytes_ltb a b = true <-> bytes_leb a b = true /\ a <> b.
Proof.
  unfold bytes_ltb. rewrite negb_true_iff. split.
  - intros Hba. destruct (bytes_leb_total a b) as [Hab|]; [|congruence]. split; [done|].
    intros ->. by rewrite bytes_leb_refl in Hba.
  - intros [Hab Hne]. destruct (bytes_leb b a) eqn:E; [|done]. destruct Hne. by apply bytes_leb_antisym.
Qed.

(** [sort_unstable(); dedup()] *)
Fixpoint dedup {A} `{EqDecision A} (l : list A) : list A :=
  match l with
  | x :: ((y :: _) as l') => if decide (x = y) then dedup l' else x :: dedup l'
  | l => l
  end.

Lemma elem_of_dedup {A} `{EqDecision A} (l : list A) x : x ∈ dedup l <-> x ∈ l.
Proof.
  induction l as [|y [|z l] IH]; [done..|]. cbn [dedup] in *. case_decide; subst; rewrite ?elem_of_cons, IH; set_solver.
Qed.

Definition sort_bytes (l : list Bytes) : list Bytes := dedup (sort_by bytes_leb l).
Lemma elem_of_sort_bytes l x : x ∈ sort_bytes l <-> x ∈ l.
Proof. unfold sort_bytes. by rewrite elem_of_dedup, elem_of_sort_by. Qed.

(** ** Little-endian integers *)

Fixpoint le_bytes (n : nat) (z : Z) : Bytes :=
  match n with O => [] | S n => z mod 256 :: le_bytes n (z / 256) end.
Fixpoint of_le (bs : Bytes) : Z := match bs with [] => 0 | b :: bs => b + 256 * of_le bs end.

Lemma length_le_bytes n z : length (le_bytes n z) = n.
Proof. revert z; induction n; cbn; auto. Qed.

Lemma le_bytes_byte n z : Forall is_byte (le_bytes n z).
Proof. revert z; induction n; cbn; constructor; auto. apply Z.mod_pos_bound. lia. Qed.

Lemma of_le_bytes n z : 0 <= z < 256 ^ Z.of_nat n -> of_le (le_bytes n z) = z.
Proof.
  revert z; induction n as [|n IH]; intros z Hz; cbn; [change (256 ^ Z.of_nat 0) with 1 in Hz; lia|].
  rewrite Nat2Z.inj_succ, Z.pow_succ_r in Hz by lia.
  rewrite IH; [pose proof (Z.div_mod z 256); lia|]. split; [apply Z.div_pos; lia|apply Z.div_lt_upper_bound; lia].
Qed.

Lemma le_of_bytes bs : Forall is_byte bs -> le_bytes (length bs) (of_le bs) = bs.
Proof.
  induction 1 as [|b bs Hb _ IH]; cbn; [done|]. unfold is_byte in Hb.
  rewrite (Z.mul_comm 256), Z.mod_add, Z.mod_small, Z.div_add, Z.div_small, Z.add_0_l, IH by lia. done.
Qed.

(** ** Cursor *)

Inductive IndexError := Truncated | Invalid (what : string).

(** [Cursor::take]; a length that overflows the offset is past the end too. *)
Definition cursor_take (n : Z) (cur : Bytes) : result IndexError (Bytes * Bytes) :=
  if Z.of_nat (length cur) <? n then Err Truncated else Ok (take (Z.to_nat n) cur, drop (Z.to_nat n) cur).
(** [Cursor::u16], [u32], [u64]: [n] bytes *)
Definition cursor_le (n : nat) (cur : Bytes) : result IndexError (Z * Bytes) :=
  '(bs, cur) ← cursor_take (Z.of_nat n) cur; Ok (of_le bs, cur).

Lemma cursor_take_app n bs cur : Z.of_nat (length bs) = n -> cursor_take n (bs ++ cur) = Ok (bs, cur).
Proof.
  intros <-. unfold cursor_take. rewrite length_app, Nat2Z.id.
  destruct (Z.ltb_spec (Z.of_nat (length bs + length cur)) (Z.of_nat (length bs))); [lia|].
  by rewrite take_app_length, drop_app_length.
Qed.

Lemma cursor_take_all n bs : Z.of_nat (length bs) = n -> cursor_take n bs = Ok (bs, []).
Proof. intros. rewrite <- (app_nil_r bs) at 1. by apply cursor_take_app. Qed.

Lemma cursor_le_app n z cur : 0 <= z < 256 ^ Z.of_nat n -> cursor_le n (le_bytes n z ++ cur) = Ok (z, cur).
Proof.
  intros Hz. unfold cursor_le. rewrite cursor_take_app by (by rewrite length_le_bytes). cbn. by rewrite of_le_bytes.
Qed.

(** ** Varints *)

(** [put_varint]: ten groups of seven bits hold any [u64]. *)
Fixpoint put_varint_loop (fuel : nat) (value : Z) : Bytes :=
  match fuel with
  | O => []
  | S fuel =>
      if 128 <=? value then Z.lor (value mod 256) 128 :: put_varint_loop fuel (Z.shiftr value 7)
      else [value mod 256]
  end.
Definition put_varint (value : Z) : Bytes := put_varint_loop 10 value.

(** [get_varint]: [for shift in (0..64).step_by(7)] *)
Fixpoint get_varint_loop (fuel : nat) (shift value : Z) (bs : Bytes) : result IndexError (Z * Bytes) :=
  match fuel with
  | O => Err (Invalid "token count varint is too long")
  | S fuel =>
      match bs with
      | [] => Err Truncated
      | byte :: bs =>
          let value := Z.lor value (wrap_u64 (Z.shiftl (Z.land byte 127) shift)) in
          if Z.land byte 128 =? 0 then Ok (value, bs) else get_varint_loop fuel (shift + 7) value bs
      end
  end.
Definition get_varint (bs : Bytes) : result IndexError (Z * Bytes) := get_varint_loop 10 0 0 bs.

Lemma testbit_above a n i : 0 <= n -> 0 <= a < 2 ^ n -> n <= i -> Z.testbit a i = false.
Proof. intros Hn Ha Hi. rewrite <- (Z.mod_small a (2 ^ n)) by done. apply Z.mod_pow2_bits_high. lia. Qed.

Lemma lor_disjoint a b n : 0 <= n -> 0 <= a < 2 ^ n -> Z.lor a (b * 2 ^ n) = a + b * 2 ^ n.
Proof.
  intros Hn Ha. assert (H0 : Z.land a (b * 2 ^ n) = 0).
  { apply Z.bits_inj'. intros i Hi. rewrite Z.land_spec, Z.bits_0. destruct (Z.lt_ge_cases i n).
    - by rewrite Z.mul_pow2_bits_low, andb_false_r.
    - by rewrite (testbit_above a n). }
  rewrite <- Z.lxor_lor by done. symmetry. by apply Z.add_nocarry_lxor.
Qed.

(** The group a byte carries, and whether more follow. *)
Lemma varint_byte v : 0 <= v ->
  Z.land (Z.lor (v mod 256) 128) 127 = v mod 128 /\ Z.land (Z.lor (v mod 256) 128) 128 <> 0.
Proof.
  intros Hv. pose proof (Z.mod_pos_bound v 256).
  assert (Hm : v mod 128 = (v mod 256) mod 128) by (rewrite Z.mod_mod_divide; [done|by exists 2]).
  rewrite Hm. generalize dependent (v mod 256). intros m Hm _. clear v Hv.
  assert (Hall : forallb (fun n => (Z.land (Z.lor (Z.of_nat n) 128) 127 =? Z.of_nat n mod 128) && negb (Z.land (Z.lor (Z.of_nat n) 128) 128 =? 0)) (seq 0 256) = true)
    by (vm_compute; reflexivity).
  rewrite forallb_forall in Hall. specialize (Hall (Z.to_nat m)). rewrite Z2Nat.id in Hall by lia.
  apply andb_true_iff in Hall as [->%Z.eqb_eq H2%negb_true_iff%Z.eqb_neq]; [done|]. apply in_seq. lia.
Qed.

Lemma get_put_loop fuel shift value v rest :
  0 <= v < 2 ^ (7 * Z.of_nat fuel) -> 0 <= shift -> 0 <= value < 2 ^ shift -> value + v * 2 ^ shift <= u64_max -> (0 < fuel)%nat ->
  get_varint_loop fuel shift value (put_varint_loop fuel v ++ rest) = Ok (value + v * 2 ^ shift, rest).
Proof.
  revert shift value v; induction fuel as [|fuel IH]; intros shift value v Hv Hs Hval Hmax Hf; [lia|].
  assert (Hp : 0 < 2 ^ shift) by (apply Z.pow_pos_nonneg; lia).
  cbn [put_varint_loop get_varint_loop]. destruct (Z.leb_spec 128 v) as [Hbig|Hsmall].
  - destruct (varint_byte v) as [Hlow Hmore]; [lia|]. cbn [app get_varint_loop].
    rewrite Hlow, (proj2 (Z.eqb_neq _ _) Hmore). rewrite Z.shiftl_mul_pow2, Z.shiftr_div_pow2 by lia. change (2 ^ 7) with 128 in *.
    pose proof (Z.div_mod v 128) as Hdm. pose proof (Z.mod_pos_bound v 128) as Hmb.
    rewrite wrap_u64_id by (unfold in_u64; nia). rewrite lor_disjoint by lia.
    rewrite Nat2Z.inj_succ, Z.mul_succ_r, Z.add_comm, Z.pow_add_r in Hv by lia. change (2 ^ 7) with 128 in Hv.
    assert (Hfuel : (0 < fuel)%nat) by (destruct fuel; [cbn in Hv; lia|lia]).
    rewrite IH; rewrite ?Z.pow_add_r by lia; change (2 ^ 7) with 128.
    + f_equal. f_equal. nia.
    + split; [apply Z.div_pos; lia|apply Z.div_lt_upper_bound; lia].
    + lia.
    + nia.
    + nia.
    + done.
  - cbn [app get_varint_loop]. rewrite (Z.mod_small v 256) by lia.
    replace (Z.land v 128) with 0.
    2:{ symmetry. apply Z.bits_inj'. intros i Hi. rewrite Z.land_spec, Z.bits_0. change 128 with (2 ^ 7).
        rewrite Z.pow2_bits_eqb by lia. destruct (Z.eqb_spec 7 i) as [<-|]; [|apply andb_false_r].
        rewrite andb_true_r. apply (testbit_above v 7); lia. }
    change 127 with (Z.ones 7). rewrite Z.land_ones, Z.mod_small by lia. cbn [Z.eqb].
    rewrite Z.shiftl_mul_pow2 by lia. rewrite wrap_u64_id by (unfold in_u64; nia). by rewrite lor_disjoint by lia.
Qed.

(** A [u64] written as a varint reads back, and nothing after it is read. *)
Lemma get_put_varint v rest : in_u64 v -> get_varint (put_varint v ++ rest) = Ok (v, rest).
Proof.
  unfold in_u64. intros Hv. unfold get_varint, put_varint. rewrite get_put_loop; [by rewrite Z.mul_1_r|..]; unfold u64_max in *; lia.
Qed.

Lemma put_varint_nonempty v : put_varint v <> [].
Proof. unfold put_varint. cbn [put_varint_loop]. by destruct (128 <=? v). Qed.

#[global] Arguments get_varint : simpl never.
#[global] Arguments put_varint : simpl never.
#[global] Arguments cursor_take : simpl never.
#[global] Arguments cursor_le : simpl never.
#[global] Arguments le_bytes : simpl never.

(** ** Fields *)

(** [u32::try_from(n)?] *)
Definition to_u32 (n : Z) : result IndexError Z := _ ← ensure (n <=? u32_max) (Invalid "out of range integral type conversion attempted"); Ok n.

Lemma to_u32_inv n m : 0 <= n -> to_u32 n = Ok m -> m = n /\ in_u32 n.
Proof. unfold to_u32, ensure, in_u32. intros Hn. destruct (Z.leb_spec n u32_max); [|done]. intros [= <-]. done. Qed.

(** [windows(2).all(|w| w[0] < w[1])] *)
Fixpoint increasing (l : list Z) : bool :=
  match l with x :: ((y :: _) as l') => (x <? y) && increasing l' | _ => true end.

Lemma i64_bits z : in_i64 z -> wrap_i64 (wrap_u64 z) = z.
Proof.
  unfold in_i64, wrap_i64, wrap_u64, i64_min, i64_max, u64_max. intros Hz.
  rewrite <- Zminus_mod_idemp_l, Z.mod_mod, Zminus_mod_idemp_l by lia. rewrite Z.mod_small by lia. lia.
Qed.

Lemma wrap_u64_range z : 0 <= wrap_u64 z < 256 ^ Z.of_nat 8.
Proof. unfold wrap_u64. change (256 ^ Z.of_nat 8) with (u64_max + 1). by apply Z.mod_pos_bound. Qed.
Lemma u32_range z : in_u32 z -> 0 <= z < 256 ^ Z.of_nat 4.
Proof. unfold in_u32, u32_max. change (256 ^ Z.of_nat 4) with 4294967296. lia. Qed.
Lemma u64_range z : in_u64 z -> 0 <= z < 256 ^ Z.of_nat 8.
Proof. unfold in_u64, u64_max. change (256 ^ Z.of_nat 8) with 18446744073709551616. lia. Qed.

(** [chunks_exact] of equal pieces gives the pieces back. *)
Lemma chunks_pieces (k : nat) (l : list Bytes) : (0 < k)%nat -> Forall (fun b => length b = k) l -> chunks k (concat l) = l.
Proof.
  intros Hk Hl. unfold chunks. assert (Hf : (length (concat l) <= length (concat l))%nat) by lia. revert Hf.
  generalize (length (concat l)) at 2 3. intros fuel. revert fuel. induction Hl as [|b l Hb Hl IH]; intros fuel Hf; [by destruct fuel|].
  cbn in *. rewrite length_app in Hf. destruct fuel as [|fuel]; [lia|]. cbn [chunks_aux].
  destruct (b ++ concat l) eqn:E; [by apply (f_equal length) in E; rewrite length_app in E; cbn in E; lia|]. rewrite <- E.
  rewrite take_app_length', drop_app_length' by done. f_equal. apply IH. lia.
Qed.

Lemma le_list_roundtrip (k : nat) l : (0 < k)%nat -> Forall (fun z => 0 <= z < 256 ^ Z.of_nat k) l -> of_le <$> chunks k (concat (le_bytes k <$> l)) = l.
Proof.
  intros Hk Hl. rewrite chunks_pieces by (try done; apply Forall_fmap, Forall_true; intros; apply length_le_bytes).
  rewrite <- list_fmap_compose. rewrite <- (list_fmap_id l) at 2. apply list_fmap_ext. intros i x Hx.
  rewrite Forall_lookup in Hl. cbn. apply of_le_bytes. eauto.
Qed.

Lemma length_concat_le (k : nat) l : length (concat (le_bytes k <$> l)) = (k * length l)%nat.
Proof. induction l as [|r l IH]; cbn [fmap list_fmap concat length]; [lia|]. rewrite length_app, length_le_bytes, IH. lia. Qed.

(** Read the next field of a section; pass the next check of a decoder. *)
Ltac read_field :=
  eapply bind_intro; [first [apply cursor_le_app; first [by apply u32_range|by apply u64_range|apply wrap_u64_range]|apply cursor_take_app]|]; cbv beta iota.
Ltac pass_check := eapply bind_intro; [apply ensure_intro|]; cbv beta iota.
