(* ===== verification/Utf8.v ===== *)
(** * Utf8: strings as the standard library reads them

    The parts of [std::str] that the quarantine and the GC executor use on text whose bytes
    are UTF-8: validity ([read_to_string]), the characters, control characters, white space,
    [trim], [split_whitespace] and signed decimals. A string is its bytes. *)
From S2P Require Import Prelude.

Definition in_byte (lo hi : Z) (c : ascii) : bool := (lo <=? byte_val c) && (byte_val c <=? hi).
(** A continuation byte, [10xxxxxx]. *)
Definition is_cont (c : ascii) : bool := in_byte 128 191 c.

(** [std::str::from_utf8(bytes).is_ok()]: no overlong form, no surrogate, at most U+10FFFF. *)
Fixpoint valid_utf8 (s : string) : bool :=
  match s with
  | EmptyString => true
  | String a s1 =>
      if byte_val a <? 128 then valid_utf8 s1 else
      match s1 with
      | EmptyString => false
      | String b s2 =>
          if in_byte 194 223 a then is_cont b && valid_utf8 s2 else
          match s2 with
          | EmptyString => false
          | String c s3 =>
              if in_byte 224 239 a then
                (if byte_val a =? 224 then in_byte 160 191 b else if byte_val a =? 237 then in_byte 128 159 b else is_cont b)
                && is_cont c && valid_utf8 s3
              else
              match s3 with
              | EmptyString => false
              | String d s4 =>
                  in_byte 240 244 a
                  && (if byte_val a =? 240 then in_byte 144 191 b else if byte_val a =? 244 then in_byte 128 143 b else is_cont b)
                  && is_cont c && is_cont d && valid_utf8 s4
              end
          end
      end
  end.

(** [str::chars]: each character as its bytes, a byte with the continuation bytes after it. *)
Fixpoint chars (s : string) : list string :=
  match s with
  | EmptyString => []
  | String a rest =>
      match chars rest with
      | String b c :: cs => if is_cont b then String a (String b c) :: cs else String a EmptyString :: String b c :: cs
      | cs => String a EmptyString :: cs
      end
  end.
(** [collect::<String>()] of characters. *)
Definition concat_str (l : list string) : string := foldr String.append EmptyString l.

(** The code point of the white-space table, as UTF-8 bytes. *)
Definition ws_wide : list (list Z) :=
  [[194; 133]; [194; 160]; [225; 154; 128]; [226; 128; 128]; [226; 128; 129]; [226; 128; 130]; [226; 128; 131]; [226; 128; 132]; [226; 128; 133];
   [226; 128; 134]; [226; 128; 135]; [226; 128; 136]; [226; 128; 137]; [226; 128; 138]; [226; 128; 168]; [226; 128; 169]; [226; 128; 175];
   [226; 129; 159]; [227; 128; 128]].
Definition byte_vals (s : string) : list Z := byte_val <$> String.list_ascii_of_string s.
(** [char::is_whitespace] *)
Definition is_space (c : string) : bool :=
  match c with
  | String a EmptyString => in_byte 9 13 a || (byte_val a =? 32)
  | _ => bool_decide (byte_vals c ∈ ws_wide)
  end.
(** [char::is_control] *)
Definition is_control (c : string) : bool := has_control c.

Fixpoint drop_while {A} (p : A -> bool) (l : list A) : list A :=
  match l with x :: l' => if p x then drop_while p l' else l | [] => [] end.
(** [str::trim] *)
Definition trim (s : string) : string := concat_str (rev (drop_while is_space (rev (drop_while is_space (chars s))))).

(** [str::split_whitespace]: the non-empty runs between white space. *)
Fixpoint words (word : string) (cs : list string) : list string :=
  let done := if bool_decide (word = EmptyString) then [] else [word] in
  match cs with
  | [] => done
  | c :: cs => if is_space c then done ++ words EmptyString cs else words (word +:+ c) cs
  end.
Definition split_whitespace (s : string) : list string := words EmptyString (chars s).

(** [i64::to_string] *)
Definition i64_to_string (z : Z) : string := if z <? 0 then String "-" (to_dec (- z)) else to_dec z.
(** [str::parse::<i64>] *)
Definition parse_i64 (s : string) : option Z := parse_signed i64_min i64_max s.

(** ** Facts *)

Lemma chars_concat s : concat_str (chars s) = s.
Proof.
  induction s as [|a s IH]; [done|]. cbn [chars]. destruct (chars s) as [|[|b c] cs]; cbn in *;
    [by rewrite <- IH|by rewrite IH|]. destruct (is_cont b); cbn; by rewrite <- IH.
Qed.

(** The characters of ASCII text are its bytes. *)
Lemma chars_ascii s : str_all (fun c => byte_val c <? 128) s = true -> chars s = (fun c => String c EmptyString) <$> String.list_ascii_of_string s.
Proof.
  induction s as [|a s IH]; [done|]. cbn [str_all]. intros [_ Hs]%andb_true_iff. cbn [chars String.list_ascii_of_string].
  rewrite fmap_cons, (IH Hs). destruct s as [|b s]; [done|]. cbn [String.list_ascii_of_string]. rewrite fmap_cons.
  cbn [str_all] in Hs. apply andb_true_iff in Hs as [Hb _].
  assert (is_cont b = false) as -> by (unfold is_cont, in_byte; rewrite andb_false_iff; lia). done.
Qed.

Lemma drop_while_head {A} (p : A -> bool) (l : list A) : (forall x, head l = Some x -> p x = false) -> drop_while p l = l.
Proof. destruct l as [|x l]; [done|]. cbn. intros H. by rewrite H. Qed.

(** Text without white space at its ends is not trimmed. *)
Lemma trim_id s : (forall c, c ∈ chars s -> is_space c = false) -> trim s = s.
Proof.
  intros Hs. unfold trim. rewrite (drop_while_head _ (chars s)).
  - rewrite drop_while_head; [by rewrite rev_involutive, chars_concat|]. intros x Hx. apply Hs.
    destruct (rev (chars s)) eqn:E; [done|]. cbn in Hx. simplify_eq. apply (f_equal (@rev string)) in E. rewrite rev_involutive in E. rewrite E. cbn.
    set_solver.
  - intros x Hx. apply Hs. destruct (chars s); [done|]. cbn in Hx. simplify_eq. set_solver.
Qed.

Definition is_dec_char (c : ascii) : bool := is_digit c || Ascii.eqb c "-".
Lemma trim_dec s : str_all is_dec_char s = true -> trim s = s.
Proof.
  intros Hs. apply trim_id. rewrite chars_ascii.
  - intros c (a & -> & Ha)%list_elem_of_fmap. cbn.
    assert (is_dec_char a = true) as Hd.
    { clear -Hs Ha. induction s as [|b s IH]; cbn in *; [set_solver|]. apply andb_true_iff in Hs as [H1 H2]. apply elem_of_cons in Ha as [->|Ha]; auto. }
    unfold is_dec_char, is_digit in Hd. unfold in_byte. apply orb_true_iff in Hd as [Hd| ->%Ascii.eqb_eq]; [|done].
    apply andb_true_iff in Hd as [? ?]. rewrite orb_false_iff, andb_false_iff. lia.
  - revert Hs. clear. induction s as [|b s IH]; [done|]. cbn. intros [H1 H2]%andb_true_iff. rewrite IH, andb_true_r by done.
    unfold is_dec_char, is_digit in H1. apply orb_true_iff in H1 as [Hd| ->%Ascii.eqb_eq]; [|done]. apply andb_true_iff in Hd as [? ?]. lia.
Qed.

Lemma valid_ascii s : str_all (fun c => byte_val c <? 128) s = true -> valid_utf8 s = true.
Proof. induction s as [|a s IH]; [done|]. cbn. intros [-> ?]%andb_true_iff. auto. Qed.
