(* ===== verification/ReadSchema.v ===== *)
(** * ReadSchema: Arrow schemas and their ClickHouse read projection

    The data of the Arrow crate's [DataType], [Field] and [Schema] (what this repository reads
    of them) and [iceberg.rs]'s [clickhouse_read_schema], whose digest is the fingerprint of a
    part's schema. [read_schema_binds]: the projection determines the columns. *)
From S2P Require Import Prelude Utf8.

(** [s.replace(c, "cc")] *)
Fixpoint double (c : ascii) (s : string) : string :=
  match s with
  | EmptyString => EmptyString
  | String d s => if Ascii.eqb d c then String c (String c (double c s)) else String d (double c s)
  end.

(** [parts.join(sep)] *)
Fixpoint join (sep : string) (parts : list string) : string :=
  match parts with
  | [] => EmptyString
  | [part] => part
  | part :: parts => part +:+ sep +:+ join sep parts
  end.

Module Arrow.

Inductive TimeUnit := Second | Millisecond | Microsecond | Nanosecond.
Inductive IntervalUnit := YearMonth | DayTime | MonthDayNano.
Inductive UnionMode := Sparse | Dense.

(** [arrow_schema::DataType] and the fields of [arrow_schema::Field] the repository reads. *)
Inductive DataType :=
| Null | Boolean | Int8 | Int16 | Int32 | Int64 | UInt8 | UInt16 | UInt32 | UInt64
| Float16 | Float32 | Float64
| Timestamp (unit : TimeUnit) (timezone : option string)
| Date32 | Date64 | Time32 (unit : TimeUnit) | Time64 (unit : TimeUnit)
| Duration (unit : TimeUnit) | Interval (unit : IntervalUnit)
| Binary | FixedSizeBinary (size : Z) | LargeBinary | BinaryView | Utf8 | LargeUtf8 | Utf8View
| List (child : Field) | ListView (child : Field) | FixedSizeList (child : Field) (size : Z)
| LargeList (child : Field) | LargeListView (child : Field)
| Struct (fields : list Field) | Union (fields : list (Z * Field)) (mode : UnionMode)
| Dictionary (key value : DataType)
| Decimal32 (precision scale : Z) | Decimal64 (precision scale : Z)
| Decimal128 (precision scale : Z) | Decimal256 (precision scale : Z)
| Map (entries : Field) (keys_sorted : bool) | RunEndEncoded (run_ends values : Field)
with Field := mk_field (name : string) (data_type : DataType) (nullable : bool).

Definition name (field : Field) : string := let 'mk_field name _ _ := field in name.
Definition data_type (field : Field) : DataType := let 'mk_field _ data_type _ := field in data_type.
Definition is_nullable (field : Field) : bool := let 'mk_field _ _ nullable := field in nullable.

(** [arrow_schema::Schema] *)
Record Schema := { fields : list Field }.

Inductive ReadError := FieldBound | FieldName | MapNotStruct | MapNotPair | UnsupportedType.

#[global] Instance ReadError_eq_dec : EqDecision ReadError.
Proof. solve_decision. Defined.

Definition BACKTICK : ascii := "`".
Definition QUOTE : ascii := "'".

Definition clickhouse_identifier (value : string) : result ReadError string :=
  if bool_decide (value = EmptyString) || (1024 <? str_len value) || has_control value then Err FieldName
  else Ok (String BACKTICK (double BACKTICK value +:+ String BACKTICK EmptyString)).

Definition clickhouse_type_supports_nullable (data_type : DataType) : bool :=
  match data_type with
  | Struct _ | List _ | ListView _ | LargeList _ | LargeListView _ | FixedSizeList _ _ | Map _ _ => false
  | _ => true
  end.

Definition precision_of (unit : TimeUnit) : Z :=
  match unit with Second => 0 | Millisecond => 3 | Microsecond => 6 | Nanosecond => 9 end.

Definition utc_names : list string := ["+00:00"; "+0000"; "+00"; "Z"; "Etc/UTC"; "UTC"].

Definition clickhouse_timestamp (unit : TimeUnit) (timezone : option string) : string :=
  let precision := i64_to_string (precision_of unit) in
  match timezone with
  | Some timezone =>
      if bool_decide (timezone ∈ utc_names) then "DateTime64(" +:+ precision +:+ ", 'UTC')"
      else "DateTime64(" +:+ precision +:+ ", '" +:+ double QUOTE timezone +:+ "')"
  | None => "DateTime64(" +:+ precision +:+ ")"
  end.

Fixpoint clickhouse_data_type (data_type : DataType) : result ReadError string :=
  match data_type with
  | Boolean => Ok "Bool"
  | Int8 => Ok "Int8" | Int16 => Ok "Int16" | Int32 => Ok "Int32" | Int64 => Ok "Int64"
  | UInt8 => Ok "UInt8" | UInt16 => Ok "UInt16" | UInt32 => Ok "UInt32" | UInt64 => Ok "UInt64"
  | Float16 | Float32 => Ok "Float32"
  | Float64 => Ok "Float64"
  | Timestamp unit timezone => Ok (clickhouse_timestamp unit timezone)
  | Date32 => Ok "Date32"
  | Date64 => Ok "DateTime64(3)"
  | Time32 _ => Ok "Int32"
  | Time64 _ | Duration _ => Ok "Int64"
  | Binary | LargeBinary | BinaryView | Utf8 | LargeUtf8 | Utf8View => Ok "String"
  | FixedSizeBinary size =>
      if 0 <? size then Ok ("FixedString(" +:+ i64_to_string size +:+ ")") else Err UnsupportedType
  | List child | ListView child | LargeList child | LargeListView child =>
      value ← clickhouse_field_type child; Ok ("Array(" +:+ value +:+ ")")
  | FixedSizeList child size =>
      if 0 <? size then value ← clickhouse_field_type child; Ok ("Array(" +:+ value +:+ ")") else Err UnsupportedType
  | Struct [] => Err UnsupportedType
  | Struct fields =>
      parts ← mapM (fun field =>
        id ← clickhouse_identifier (name field);
        value ← clickhouse_field_type field;
        Ok (id +:+ " " +:+ value)) fields;
      Ok ("Tuple(" +:+ join ", " parts +:+ ")")
  | Map (mk_field _ entries _) _ =>
      match entries with
      | Struct [key; value] =>
          key ← clickhouse_field_type key;
          value ← clickhouse_field_type value;
          Ok ("Map(" +:+ key +:+ ", " +:+ value +:+ ")")
      | Struct _ => Err MapNotPair
      | _ => Err MapNotStruct
      end
  | Dictionary _ value => clickhouse_data_type value
  | Decimal32 precision scale | Decimal64 precision scale
  | Decimal128 precision scale | Decimal256 precision scale =>
      Ok ("Decimal(" +:+ i64_to_string precision +:+ ", " +:+ i64_to_string scale +:+ ")")
  | Null | Interval _ | Union _ _ | RunEndEncoded _ _ => Err UnsupportedType
  end
with clickhouse_field_type (field : Field) : result ReadError string :=
  let 'mk_field _ data_type nullable := field in
  value ← clickhouse_data_type data_type;
  Ok (if nullable && clickhouse_type_supports_nullable data_type then "Nullable(" +:+ value +:+ ")" else value).

Definition clickhouse_column (field : Field) : result ReadError string :=
  id ← clickhouse_identifier (name field);
  value ← clickhouse_field_type field;
  Ok (id +:+ " " +:+ value).

Definition clickhouse_read_schema (schema : Schema) : result ReadError string :=
  if bool_decide (fields schema = []) || (10000 <? Z.of_nat (length (fields schema))) then Err FieldBound
  else columns ← mapM clickhouse_column (fields schema); Ok (join ", " columns).

(** ** The columns of a schema: the specification

    ClickHouse's types as a tree, what an Arrow type becomes, and how a tree is written. *)
Inductive Scalar :=
| Bool' | Int8' | Int16' | Int32' | Int64' | UInt8' | UInt16' | UInt32' | UInt64' | Float32' | Float64' | Date32' | String'.

Inductive ColType :=
| CScalar (scalar : Scalar)
| CDateTime64 (precision : Z) (timezone : option string)
| CFixedString (size : Z)
| CDecimal (precision scale : Z)
| CNullable (inner : ColType)
| CArray (item : ColType)
| CTuple (columns : list (string * ColType))
| CMap (key value : ColType).

Definition normal_zone (timezone : string) : string := if bool_decide (timezone ∈ utc_names) then "UTC" else timezone.

Fixpoint col_type (data_type : DataType) : option ColType :=
  match data_type with
  | Boolean => Some (CScalar Bool')
  | Int8 => Some (CScalar Int8') | Int16 => Some (CScalar Int16')
  | Int32 | Time32 _ => Some (CScalar Int32')
  | Int64 | Time64 _ | Duration _ => Some (CScalar Int64')
  | UInt8 => Some (CScalar UInt8') | UInt16 => Some (CScalar UInt16')
  | UInt32 => Some (CScalar UInt32') | UInt64 => Some (CScalar UInt64')
  | Float16 | Float32 => Some (CScalar Float32') | Float64 => Some (CScalar Float64')
  | Timestamp unit timezone => Some (CDateTime64 (precision_of unit) (normal_zone <$> timezone))
  | Date32 => Some (CScalar Date32')
  | Date64 => Some (CDateTime64 3 None)
  | Binary | LargeBinary | BinaryView | Utf8 | LargeUtf8 | Utf8View => Some (CScalar String')
  | FixedSizeBinary size => if 0 <? size then Some (CFixedString size) else None
  | List child | ListView child | LargeList child | LargeListView child => CArray <$> field_type child
  | FixedSizeList child size => if 0 <? size then CArray <$> field_type child else None
  | Struct fields =>
      if bool_decide (fields = []) then None
      else CTuple <$> mapM (fun field => pair (name field) <$> field_type field) fields
  | Map (mk_field _ (Struct [key; value]) _) _ =>
      key ← field_type key; CMap key <$> field_type value
  | Dictionary _ value => col_type value
  | Decimal32 p s | Decimal64 p s | Decimal128 p s | Decimal256 p s => Some (CDecimal p s)
  | _ => None
  end
with field_type (field : Field) : option ColType :=
  let 'mk_field _ data_type nullable := field in
  (if nullable && clickhouse_type_supports_nullable data_type then CNullable else id) <$> col_type data_type.

(** The names and types of the columns, [None] when a type has no ClickHouse counterpart. *)
Definition columns (schema : Schema) : option (list (string * ColType)) :=
  mapM (fun field => pair (name field) <$> field_type field) (fields schema).

Definition scalar_name (scalar : Scalar) : string :=
  match scalar with
  | Bool' => "Bool" | Int8' => "Int8" | Int16' => "Int16" | Int32' => "Int32" | Int64' => "Int64"
  | UInt8' => "UInt8" | UInt16' => "UInt16" | UInt32' => "UInt32" | UInt64' => "UInt64"
  | Float32' => "Float32" | Float64' => "Float64" | Date32' => "Date32" | String' => "String"
  end.

(** A type is a word and, for most, arguments in parentheses. *)
Definition word (t : ColType) : string :=
  match t with
  | CScalar s => scalar_name s | CDateTime64 _ _ => "DateTime64" | CFixedString _ => "FixedString"
  | CDecimal _ _ => "Decimal" | CNullable _ => "Nullable" | CArray _ => "Array" | CTuple _ => "Tuple" | CMap _ _ => "Map"
  end.

Definition quoted (q : ascii) (s : string) : string := String q (double q s +:+ String q EmptyString).

Fixpoint show (t : ColType) : string :=
  word t +:+
  match t with
  | CScalar _ => EmptyString
  | CDateTime64 p zone => "(" +:+ i64_to_string p +:+ from_option (fun z => ", " +:+ quoted QUOTE z) EmptyString zone +:+ ")"
  | CFixedString n => "(" +:+ i64_to_string n +:+ ")"
  | CDecimal p s => "(" +:+ i64_to_string p +:+ ", " +:+ i64_to_string s +:+ ")"
  | CNullable t | CArray t => "(" +:+ show t +:+ ")"
  | CTuple cols => "(" +:+ join ", " ((fun c => quoted BACKTICK c.1 +:+ " " +:+ show c.2) <$> cols) +:+ ")"
  | CMap k v => "(" +:+ show k +:+ ", " +:+ show v +:+ ")"
  end.

Definition show_column (c : string * ColType) : string := quoted BACKTICK c.1 +:+ " " +:+ show c.2.

(** ** Induction over nested types *)
Section induction.
Context (P : DataType -> Prop).

(** The types a type is built from; those of a map include its key and value. *)
Definition subtypes (d : DataType) : list DataType :=
  match d with
  | List f | ListView f | LargeList f | LargeListView f | FixedSizeList f _ => [data_type f]
  | Struct fs => data_type <$> fs
  | Map f _ => match data_type f with Struct fs => data_type <$> fs | _ => [] end
  | Dictionary _ v => [v]
  | _ => []
  end.

Hypothesis step : forall d, Forall P (subtypes d) -> P d.

Lemma type_ind d : P d.
Proof.
  revert d. fix IH 1. intros d.
  assert (forall f, P (data_type f) -> Forall P [data_type f]) as H1 by (intros; by repeat constructor).
  destruct d; apply step; try exact (Forall_nil_2 _);
    try (apply H1; match goal with f : Field |- _ => destruct f as [n d b]; exact (IH d) end).
  - induction fields0 as [|[n d b] fs IHfs]; constructor; [exact (IH d)|exact IHfs].
  - constructor; [exact (IH d2)|constructor].
  - destruct entries as [n d b]. destruct d; try exact (Forall_nil_2 _). cbn [subtypes data_type].
    induction fields0 as [|[m d c] fs IHfs]; constructor; [exact (IH d)|exact IHfs].
Qed.
End induction.

(** ** The projection writes the columns *)
Lemma identifier_ok n i : clickhouse_identifier n = Ok i -> i = quoted BACKTICK n.
Proof. unfold clickhouse_identifier. case_match; [done|]. by intros [= <-]. Qed.

Lemma timestamp_shows u z : clickhouse_timestamp u z = show (CDateTime64 (precision_of u) (normal_zone <$> z)).
Proof.
  unfold clickhouse_timestamp, normal_zone. destruct z as [z|]; [|done]. cbn -[i64_to_string String.append]. case_bool_decide; [done|].
  unfold quoted. assert (forall d, ", '" +:+ d +:+ "')" = (", " +:+ String QUOTE (d +:+ String QUOTE EmptyString)) +:+ ")") as ->; [|done].
  intros d. by rewrite <- str_app_assoc, (str_app_cons QUOTE), <- str_app_assoc.
Qed.

Definition shows (d : DataType) : Prop :=
  forall s, clickhouse_data_type d = Ok s -> exists t, col_type d = Some t /\ s = show t.

Lemma field_shows f s : shows (data_type f) -> clickhouse_field_type f = Ok s -> exists t, field_type f = Some t /\ s = show t.
Proof.
  destruct f as [n d b]. cbn [clickhouse_field_type field_type data_type]. intros IH (v & Hv & H)%bind_ok_inv.
  destruct (IH _ Hv) as (t & -> & ->). injection H as <-. destruct (_ && _); cbn; by eexists.
Qed.

Lemma columns_show (fs : list Field) (parts : list string) :
  Forall shows (data_type <$> fs) -> mapM clickhouse_column fs = Ok parts ->
  exists cols : list (string * ColType), mapM (fun f => pair (name f) <$> field_type f) fs = Some cols /\ parts = show_column <$> cols.
Proof.
  revert parts. induction fs as [|f fs IH]; intros parts HF H; cbn [mapM] in *; [injection H as <-; by exists []|].
  apply Forall_cons in HF as [Hf HF]. apply bind_ok_inv in H as (p & Hp & H). apply bind_ok_inv in H as (ps & Hps & [= <-]).
  apply bind_ok_inv in Hp as (i & Hi%identifier_ok & Hp). apply bind_ok_inv in Hp as (v & Hv & [= <-]).
  destruct (IH _ HF Hps) as (cols & -> & ->), (field_shows _ _ Hf Hv) as (t & -> & ->). subst i. by eexists.
Qed.

Lemma data_type_shows d : shows d.
Proof.
  induction d as [d IH] using type_ind. intros s H.
  assert (forall f, Forall shows [data_type f] -> clickhouse_field_type f ≫= (fun v => Ok ("Array(" +:+ v +:+ ")")) = Ok s ->
    exists t, CArray <$> field_type f = Some t /\ s = show t) as Harr.
  { intros f [Hf _]%Forall_cons (v & Hv & [= <-])%bind_ok_inv. destruct (field_shows _ _ Hf Hv) as (t & -> & ->). by eexists. }
  destruct d; cbn [clickhouse_data_type col_type subtypes] in *; try discriminate H; try (by apply Harr);
    try (injection H as <-; eexists; split; [reflexivity|]; first [reflexivity|apply timestamp_shows]).
  - case_match; [|done]. injection H as <-. by eexists.
  - case_match; [|done]. by apply Harr.
  - destruct fields0 as [|f fs]; [done|]. rewrite bool_decide_eq_false_2 by done. apply bind_ok_inv in H as (parts & Hp & H).
    destruct (columns_show (f :: fs) parts IH Hp) as (cols & -> & ->). injection H as <-. by eexists.
  - apply Forall_cons in IH as [IH _]. by apply IH.
  - destruct entries as [n [] b]; try discriminate H. destruct fields0 as [|k [|v [|]]]; try discriminate H. cbn in IH.
    apply Forall_cons in IH as [Hk [Hv _]%Forall_cons].
    apply bind_ok_inv in H as (sk & Ek & H). apply bind_ok_inv in H as (sv & Ev & [= <-]).
    destruct (field_shows _ _ Hk Ek) as (tk & -> & ->), (field_shows _ _ Hv Ev) as (tv & -> & ->). by eexists.
Qed.

Lemma read_schema_shows schema text : clickhouse_read_schema schema = Ok text ->
  exists cols, columns schema = Some cols /\ text = join ", " (show_column <$> cols).
Proof.
  unfold clickhouse_read_schema. case_match; [done|]. intros (parts & Hp & [= <-])%bind_ok_inv. unfold columns.
  destruct (columns_show _ _ (proj2 (Forall_forall _ _) (fun d _ => data_type_shows d)) Hp) as (cols & -> & ->). by eexists.
Qed.

(** ** The text determines the columns

    A word ends where its characters do; a quoted name ends at the first single quote mark. *)
Definition is_word (c : ascii) : bool := let v := byte_val c in
  is_digit c || ((65 <=? v) && (v <=? 90)) || ((97 <=? v) && (v <=? 122)) || Ascii.eqb c "-".
Definition stops (r : string) : Prop := match r with EmptyString => True | String c _ => is_word c = false end.

Lemma word_split w1 w2 r1 r2 : str_all is_word w1 = true -> str_all is_word w2 = true -> stops r1 -> stops r2 ->
  w1 +:+ r1 = w2 +:+ r2 -> w1 = w2 /\ r1 = r2.
Proof.
  revert w2. induction w1 as [|c w1 IH]; intros [|d w2] H1 H2 S1 S2 E; [done| | |]; rewrite ?str_app_cons in E.
  - change (r1 = String d (w2 +:+ r2)) in E. subst r1. cbn in *. apply andb_true_iff in H2 as [? ?]. congruence.
  - change (String c (w1 +:+ r1) = r2) in E. subst r2. cbn in *. apply andb_true_iff in H1 as [? ?]. congruence.
  - injection E as -> E. cbn in *. apply andb_true_iff in H1 as [_ H1], H2 as [_ H2]. by destruct (IH w2 H1 H2 S1 S2 E) as [-> ->].
Qed.

Lemma quoted_split q s1 s2 r1 r2 : str_get 0 r1 <> Some q -> str_get 0 r2 <> Some q ->
  quoted q s1 +:+ r1 = quoted q s2 +:+ r2 -> s1 = s2 /\ r1 = r2.
Proof.
  intros Q1 Q2. unfold quoted. rewrite !str_app_cons, <- !str_app_assoc. intros [= E]. revert s2 E.
  assert (forall (s : string) r t, String q r = double q s +:+ String q t -> str_get 0 r <> Some q -> s = EmptyString /\ r = t) as Hend.
  { intros [|c s] r t E Hr; [by injection E|]. cbn in E. destruct (Ascii.eqb_spec c q) as [->|Hc].
    - injection E as ->. by destruct Hr.
    - injection E as <- _. done. }
  induction s1 as [|c s1 IH]; intros s2 E.
  - by destruct (Hend _ _ _ E Q1) as [-> ->].
  - destruct s2 as [|d s2]; [by destruct (Hend _ _ _ (eq_sym E) Q2)|]. cbn in E.
    destruct (Ascii.eqb_spec c q) as [->|Hc], (Ascii.eqb_spec d q) as [->|Hd]; rewrite ?str_app_cons in E.
    + injection E as E. by destruct (IH _ E) as [-> ->].
    + injection E as -> E. done.
    + injection E as -> E. done.
    + injection E as -> E. by destruct (IH _ E) as [-> ->].
Qed.

Lemma num_word z : str_all is_word (i64_to_string z) = true.
Proof.
  assert (forall x, str_all is_word (to_dec x) = true) as H.
  { intros x. eapply str_all_impl; [|apply (fmt_pad_digits 1 x)]. intros c Hc. unfold is_word. by rewrite Hc. }
  unfold i64_to_string. case_match; [cbn; apply H|apply H].
Qed.

Lemma num_inj a b : i64_to_string a = i64_to_string b -> a = b.
Proof.
  unfold i64_to_string. destruct (Z.ltb_spec a 0) as [Ha|Ha], (Z.ltb_spec b 0) as [Hb|Hb].
  - intros [= E%to_dec_inj]; lia.
  - destruct (to_dec_head b Hb) as (c & t & -> & Hc). intros [= <- _]. done.
  - destruct (to_dec_head a Ha) as (c & t & -> & Hc). intros [= -> _]. done.
  - intros E%to_dec_inj; lia.
Qed.

Lemma num_split a b r1 r2 : stops r1 -> stops r2 -> i64_to_string a +:+ r1 = i64_to_string b +:+ r2 -> a = b /\ r1 = r2.
Proof. intros S1 S2 E. destruct (word_split _ _ _ _ (num_word a) (num_word b) S1 S2 E) as [->%num_inj ->]. done. Qed.

Lemma str_app_nil_r s : s +:+ EmptyString = s.
Proof. induction s as [|c s IH]; [done|]. by rewrite str_app_cons, IH. Qed.

Definition subcolumns (t : ColType) : list ColType :=
  match t with CNullable t | CArray t => [t] | CTuple cols => snd <$> cols | CMap k v => [k; v] | _ => [] end.

Lemma ColType_nested_ind (P : ColType -> Prop) (step : forall t, Forall P (subcolumns t) -> P t) t : P t.
Proof.
  revert t. fix IH 1. intros t. destruct t as [| | | |t|t|cols|k v]; apply step; try exact (Forall_nil_2 _).
  - constructor; [exact (IH t)|constructor].
  - constructor; [exact (IH t)|constructor].
  - induction cols as [|[n t] cols IHc]; constructor; [exact (IH t)|exact IHc].
  - constructor; [exact (IH k)|constructor; [exact (IH v)|constructor]].
Qed.

(** A written type can be read off the front of a text. *)
Definition splits (t1 : ColType) : Prop := forall t2 r1 r2, stops r1 -> stops r2 ->
  show t1 +:+ r1 = show t2 +:+ r2 -> t1 = t2 /\ r1 = r2.
Definition closes (r : string) : Prop := r = EmptyString \/ exists t, r = String ")" t.

Definition more (cols : list (string * ColType)) : string :=
  match cols with [] => EmptyString | _ => ", " +:+ join ", " (show_column <$> cols) end.
Lemma join_more c cols : join ", " (show_column <$> c :: cols) = quoted BACKTICK c.1 +:+ " " +:+ show c.2 +:+ more cols.
Proof.
  destruct cols as [|d cols]; unfold more; cbn [fmap list_fmap join]; unfold show_column at 1; [by rewrite str_app_nil_r|].
  by rewrite <- !str_app_assoc.
Qed.
Lemma more_stops cols r : closes r -> stops (more cols +:+ r).
Proof. intros [->|[t ->]]; by destruct cols. Qed.

Lemma columns_split cols1 cols2 r1 r2 : Forall splits (snd <$> cols1) -> closes r1 -> closes r2 ->
  join ", " (show_column <$> cols1) +:+ r1 = join ", " (show_column <$> cols2) +:+ r2 -> cols1 = cols2 /\ r1 = r2.
Proof.
  intros HF C1 C2. revert cols2 HF. induction cols1 as [|[n1 t1] cols1 IH]; intros [|[n2 t2] cols2] HF; [done| | |].
  - rewrite join_more. intros E. destruct C1 as [->|[t ->]]; discriminate E.
  - rewrite join_more. intros E. destruct C2 as [->|[t ->]]; discriminate E.
  - rewrite !join_more, <- !str_app_assoc. cbn [fst snd fmap list_fmap] in *. apply Forall_cons in HF as [Ht HF]. intros E.
    apply quoted_split in E as [-> E]; [|done|done]. injection E as E. rewrite <- ?str_app_assoc in E.
    apply Ht in E as [-> E]; [|by apply more_stops|by apply more_stops].
    destruct cols1 as [|c1 cols1], cols2 as [|c2 cols2]; unfold more in E.
    + by split.
    + destruct C1 as [->|[t ->]]; discriminate E.
    + destruct C2 as [->|[t ->]]; discriminate E.
    + rewrite <- !str_app_assoc in E. injection E as E. by destruct (IH (c2 :: cols2) HF E) as [-> ->].
Qed.

Lemma close_inj r1 r2 : ")" +:+ r1 = ")" +:+ r2 -> r1 = r2.
Proof. by intros [= E]. Qed.

Lemma show_inj t : splits t.
Proof.
  induction t as [t1 IH] using ColType_nested_ind. intros t2 r1 r2 S1 S2 E.
  assert (forall t, exists b, show t = word t +:+ b /\ (b = EmptyString \/ exists b', b = String "(" b')) as Hw.
  { intros []; eexists; (split; [reflexivity|]); first [by left|by right; eexists]. }
  assert (forall t r, stops r -> exists b, show t +:+ r = word t +:+ b /\ stops b) as Hs.
  { intros t r Sr. destruct (Hw t) as (b & -> & Hb). exists (b +:+ r). rewrite <- str_app_assoc. split; [done|]. by destruct Hb as [->|[b' ->]]. }
  assert (word t1 = word t2) as Hword.
  { destruct (Hs t1 r1 S1) as (b1 & E1 & B1), (Hs t2 r2 S2) as (b2 & E2 & B2). rewrite E1, E2 in E.
    apply word_split in E as [E _]; [done|by destruct t1 as [[]| | | | | | |]|by destruct t2 as [[]| | | | | | |]|done|done]. }
  destruct t1 as [s1|p1 z1|n1|p1 q1|t1|t1|c1|k1 v1], t2 as [s2|p2 z2|n2|p2 q2|t2|t2|c2|k2 v2];
    try discriminate Hword; try (destruct s1; discriminate Hword); try (destruct s2; discriminate Hword); cbn [show subcolumns] in *;
    rewrite <- ?str_app_assoc in E; try injection E as E.
  - destruct s1, s2; try discriminate Hword; by injection E.
  - apply num_split in E as [-> E]; [|by destruct z1|by destruct z2]. destruct z1 as [z1|], z2 as [z2|]; cbn [from_option] in E; try discriminate E.
    + rewrite <- !str_app_assoc in E. injection E as E. apply (f_equal (String QUOTE)) in E. apply (quoted_split QUOTE z1 z2) in E as [-> E]; [|done|done]. by apply close_inj in E as ->.
    + by apply close_inj in E as ->.
  - apply num_split in E as [-> E]; [|done|done]. by apply close_inj in E as ->.
  - apply num_split in E as [-> E]; [|done|done]. injection E as E. apply num_split in E as [-> E]; [|done|done]. by apply close_inj in E as ->.
  - apply Forall_cons in IH as [IH _]. apply IH in E as [-> E]; [|done|done]. by apply close_inj in E as ->.
  - apply Forall_cons in IH as [IH _]. apply IH in E as [-> E]; [|done|done]. by apply close_inj in E as ->.
  - apply (columns_split c1 c2) in E as [-> E]; [|done|right; by eexists|right; by eexists]. by apply close_inj in E as ->.
  - apply Forall_cons in IH as [IHk [IHv _]%Forall_cons]. apply IHk in E as [-> E]; [|done|done]. injection E as E.
    apply IHv in E as [-> E]; [|done|done]. by apply close_inj in E as ->.
Qed.

(** C40: two schemas have one ClickHouse read projection, the text whose digest is the schema
    fingerprint of a part and of the log, exactly when they have the same columns: the same
    names in the same order, with the same ClickHouse types at every depth (nullability, tuple
    fields, time zones, precisions); and a schema that has a projection has its columns. *)
Theorem read_schema_binds (s1 s2 : Schema) (text1 text2 : string) :
  clickhouse_read_schema s1 = Ok text1 -> clickhouse_read_schema s2 = Ok text2 ->
  exists cols1 cols2, columns s1 = Some cols1 /\ columns s2 = Some cols2 /\ (text1 = text2 <-> cols1 = cols2).
Proof.
  intros (cols1 & E1 & ->)%read_schema_shows (cols2 & E2 & ->)%read_schema_shows. exists cols1, cols2. split; [done|]. split; [done|].
  split; [|by intros ->]. intros E. apply (f_equal (fun s => s +:+ EmptyString)) in E.
  apply columns_split in E as [-> _]; [done| |by left|by left]. apply Forall_forall. intros t _. apply show_inj.
Qed.

End Arrow.

(** ** A concrete schema *)
Module SchemaExample.
Import Arrow.

Definition f (n : string) (d : DataType) (b : bool) : Field := mk_field n d b.
Definition actor : DataType := Struct [f "user`name" Utf8 true; f "ports" (List (f "item" UInt16 false)) true].
Definition sch (zone : string) : Schema :=
  {| fields := [f "time" (Timestamp Microsecond (Some zone)) false; f "actor" actor true;
                f "tags" (Map (f "entries" (Struct [f "key" Utf8 false; f "value" Utf8View true]) false) false) true;
                f "cost" (Decimal128 18 (-2)) false] |}.
Definition text : string :=
  "`time` DateTime64(6, 'UTC'), `actor` Tuple(`user``name` Nullable(String), `ports` Array(UInt16)), `tags` Map(String, Nullable(String)), `cost` Decimal(18, -2)".

Example sch_text : clickhouse_read_schema (sch "Z") = Ok text.
Proof. by vm_compute. Qed.

(** Two spellings of UTC are one column type; another zone is another. *)
Lemma read_schema_binds_witness :
  (exists c1 c2, columns (sch "Z") = Some c1 /\ columns (sch "+00:00") = Some c2 /\ c1 = c2)
  /\ exists c1 c2, columns (sch "Z") = Some c1 /\ columns (sch "Europe/Rome") = Some c2 /\ c1 <> c2.
Proof.
  split.
  - destruct (read_schema_binds (sch "Z") (sch "+00:00") text text) as (c1 & c2 & E1 & E2 & H); [by vm_compute|by vm_compute|].
    exists c1, c2. split; [exact E1|]. split; [exact E2|]. by apply H.
  - destruct (read_schema_binds (sch "Z") (sch "Europe/Rome") text (unwrap EmptyString (clickhouse_read_schema (sch "Europe/Rome"))))
      as (c1 & c2 & E1 & E2 & H); [by vm_compute|by vm_compute|].
    exists c1, c2. split; [exact E1|]. split; [exact E2|]. intros E. apply H in E. vm_compute in E. discriminate E.
Defined.

(** What has no projection: a null column, an empty struct, a map whose entries are no pair, a
    blank name, no column at all. *)
Example refused_schemas :
  (fun d => clickhouse_data_type d) <$> [Null; Struct []; Map (f "e" (Struct [f "k" Utf8 false]) false) true; Map (f "e" Utf8 false) true; Struct [f "" Utf8 true]]
  = [Err UnsupportedType; Err UnsupportedType; Err MapNotPair; Err MapNotStruct; Err FieldName]
  /\ clickhouse_read_schema {| fields := [] |} = Err FieldBound.
Proof. by vm_compute. Qed.
End SchemaExample.
