(* ===== verification/Platform.v ===== *)
(** * Platform: code the part contract calls and this repository does not contain

    SHA-256 ([sha2], [hex]), UUID parsing ([uuid]), base64, the Parquet crate
    and the calendar ([chrono]) are crates, so they are operations of the class
    [Platform]; what the contract relies on is the class [PlatformLaws]. Collision
    resistance is never assumed: the theorems that need it conclude "or two different
    inputs with one digest are exhibited" ([Collision]). *)
From S2P Require Import Prelude ReadSchema.

(** A UTC civil date and hour ([chrono::DateTime<Utc>]). *)
Record Civil := { year : Z; month : Z; day : Z; hour : Z }.

Class Platform := {
  (** [hex::encode(Sha256::digest(bytes))] *)
  sha256_hex : string -> string;
  (** [Uuid::parse_str(s)], then [.hyphenated().to_string()] *)
  uuid_hyphenated : string -> option string;
  (** [DateTime::<Utc>::from_timestamp(secs, 0)] *)
  from_timestamp : Z -> option Civil;
  (** [NaiveDate::from_ymd_opt(y, m, d)], as days since 1970-01-01 *)
  from_ymd_opt : Z -> Z -> Z -> option Z;
  (** base64 decoding, standard alphabet *)
  base64_decode : string -> option string;
  (** the Arrow schema carried by an (empty) Parquet file *)
  parquet_arrow_schema : string -> option Arrow.Schema;
}.

(** True for a 64-char lowercase hex SHA-256. *)
Definition is_sha256_hex (value : string) : bool :=
  (String.length value =? 64)%nat && str_all is_hex_lower value.

Class PlatformLaws (P : Platform) : Prop := {
  sha256_hex_wf : forall bytes, is_sha256_hex (sha256_hex bytes) = true;
}.

(** The calendar: a timestamp is a date and a time of day, and a date names one day. *)
Class CalendarLaws (P : Platform) : Prop := {
  civil_range : forall secs c, from_timestamp secs = Some c ->
    -262144 <= year c <= 262143 /\ 1 <= month c <= 12 /\ 1 <= day c <= 31 /\ 0 <= hour c <= 23;
  civil_date : forall hours c, from_timestamp (hours * 3600) = Some c ->
    from_ymd_opt (year c) (month c) (day c) = Some (hours / 24) /\ hour c = hours mod 24;
  (** the range of [NaiveDate] *)
  date_range : forall y m d n, from_ymd_opt y m d = Some n -> -97000000 <= n <= 97000000;
}.

(** Two different byte strings with one SHA-256. *)
Definition Collision `{Platform} : Prop :=
  exists b1 b2, b1 <> b2 /\ sha256_hex b1 = sha256_hex b2.

Lemma sha256_hex_inj `{Platform} b1 b2 : sha256_hex b1 = sha256_hex b2 -> b1 = b2 \/ Collision.
Proof. intros E. destruct (decide (b1 = b2)) as [->|Hne]; [by left|right]. by exists b1, b2. Qed.

(** ** A concrete platform, for evaluating the definitions on examples

    The digest is the hex of the first and the last sixteen bytes. *)
Module ToyPlatform.
Definition nibble (a b c d : bool) : ascii :=
  match d, c, b, a with
  | false, false, false, false => "0" | false, false, false, true => "1"
  | false, false, true, false => "2" | false, false, true, true => "3"
  | false, true, false, false => "4" | false, true, false, true => "5"
  | false, true, true, false => "6" | false, true, true, true => "7"
  | true, false, false, false => "8" | true, false, false, true => "9"
  | true, false, true, false => "a" | true, false, true, true => "b"
  | true, true, false, false => "c" | true, true, false, true => "d"
  | true, true, true, false => "e" | true, true, true, true => "f"
  end.

(** The hex of [n] bytes, zero bytes after the end. *)
Fixpoint hex_bytes (n : nat) (s : string) : string :=
  match n with
  | O => EmptyString
  | S n =>
      match s with
      | EmptyString => String "0" (String "0" (hex_bytes n EmptyString))
      | String (Ascii b0 b1 b2 b3 b4 b5 b6 b7) s =>
          String (nibble b4 b5 b6 b7) (String (nibble b0 b1 b2 b3) (hex_bytes n s))
      end
  end.

Definition toy_sha (s : string) : string :=
  hex_bytes 16 s +:+ hex_bytes 16 (str_drop (String.length s - 16) s).

Lemma nibble_hex a b c d : is_hex_lower (nibble a b c d) = true.
Proof. by destruct a, b, c, d. Qed.

Lemma hex_bytes_wf n s :
  str_len (hex_bytes n s) = 2 * Z.of_nat n /\ str_all is_hex_lower (hex_bytes n s) = true.
Proof.
  revert s. induction n as [|n IH]; intros s; [done|]. unfold str_len in *.
  destruct s as [|[] s]; cbn [hex_bytes String.length str_all]; [destruct (IH EmptyString) as [E ->]|destruct (IH s) as [E ->]];
    rewrite ?nibble_hex; (split; [lia|done]).
Qed.

#[export] Instance toy : Platform := {|
  sha256_hex := toy_sha;
  uuid_hyphenated s := if (String.length s =? 36)%nat then Some s else None;
  from_timestamp s :=
    if (0 <=? s) && (s <? 31 * 86400)
    then Some {| year := 1970; month := 1; day := 1 + s / 86400; hour := s / 3600 mod 24 |} else None;
  from_ymd_opt y m d := if (y =? 1970) && (m =? 1) && (1 <=? d) && (d <=? 31) then Some (d - 1) else None;
  base64_decode := Some;
  parquet_arrow_schema bytes := Some {| Arrow.fields := [Arrow.mk_field bytes Arrow.Utf8 false] |};
|}.

#[export] Instance toy_laws : PlatformLaws toy.
Proof.
  split. intros bytes. unfold is_sha256_hex. change (sha256_hex bytes) with (toy_sha bytes). unfold toy_sha.
  destruct (hex_bytes_wf 16 bytes) as [L1 A1].
  destruct (hex_bytes_wf 16 (str_drop (String.length bytes - 16) bytes)) as [L2 A2].
  rewrite str_all_app, A1, A2, andb_true_r. apply Nat.eqb_eq, Nat2Z.inj.
  change (str_len (hex_bytes 16 bytes +:+ hex_bytes 16 (str_drop (String.length bytes - 16) bytes)) = 64).
  rewrite str_len_app. lia.
Qed.

#[export] Instance toy_calendar : CalendarLaws toy.
Proof.
  split.
  - intros s c. cbn. destruct (_ && _) eqn:E; [|done]. intros [= <-]. cbn.
    apply andb_true_iff in E as [E1%Z.leb_le E2%Z.ltb_lt].
    pose proof (Z.mod_pos_bound (s / 3600) 24 ltac:(lia)). pose proof (Z.div_pos s 86400 ltac:(lia) ltac:(lia)).
    pose proof (Z.div_lt_upper_bound s 86400 31 ltac:(lia) ltac:(lia)). lia.
  - intros h c. cbn. destruct (_ && _) eqn:E; [|done]. intros [= <-]. cbn.
    apply andb_true_iff in E as [E1%Z.leb_le E2%Z.ltb_lt].
    assert (h * 3600 / 86400 = h / 24) as -> by (change 86400 with (24 * 3600); by rewrite Z.div_mul_cancel_r by lia).
    rewrite Z.div_mul by lia. pose proof (Z.div_pos h 24 ltac:(lia) ltac:(lia)).
    pose proof (Z.div_lt_upper_bound h 24 31 ltac:(lia) ltac:(lia)).
    rewrite (proj2 (Z.leb_le 1 _)), (proj2 (Z.leb_le _ 31)) by lia. split; [f_equal; lia|done].
  - intros y m d n. cbn. destruct (_ && _) eqn:E; [|done]. intros [= <-]. rewrite !andb_true_iff in E. lia.
Qed.
End ToyPlatform.
