(* ===== verification/Format.v ===== *)
(** * Format: time buckets, part ids, object keys and Parquet layout settings

    Models [parts/mod.rs], [parts/format.rs], [parts/request_dedup.rs] and the [Level]
    enumeration of [parts/levels.rs]. *)
From S2P Require Import Prelude ReadSchema Platform.

(** ** Event hours and days ([parts/mod.rs]) *)

Definition HOUR_US : Z := 3600000000.
Definition DAY_US : Z := 86400000000.

(** [i32::try_from(z).unwrap_or(i32::MAX)] *)
Definition i32_or_max (z : Z) : Z := if (- i32_max - 1 <=? z) && (z <=? i32_max) then z else i32_max.

Definition event_hour_of (time_us : Z) : Z := i32_or_max (time_us / HOUR_US).
Definition event_day_of (time_us : Z) : Z := i32_or_max (time_us / DAY_US).

(** Inclusive time bounds of an event hour and of an event day, in microseconds. *)
Definition hour_bounds_us (event_hour : Z) : Z * Z := (event_hour * HOUR_US, event_hour * HOUR_US + HOUR_US - 1).
Definition day_bounds_us (event_day : Z) : Z * Z := (event_day * DAY_US, event_day * DAY_US + DAY_US - 1).

(** [schema_fingerprint]: SHA-256 of the schema's ClickHouse read projection. *)
Definition arrow_fingerprint `{Platform} (schema : Arrow.Schema) : result Arrow.ReadError string :=
  read ← Arrow.clickhouse_read_schema schema;
  Ok (sha256_hex read).

Lemma i32_or_max_id z : - i32_max - 1 <= z <= i32_max -> i32_or_max z = z.
Proof. unfold i32_or_max. intros. destruct (Z.leb_spec (- i32_max - 1) z), (Z.leb_spec z i32_max); cbn; lia. Qed.

Lemma i32_or_max_lt z h : h < i32_max -> i32_or_max z = h <-> z = h /\ - i32_max - 1 <= h.
Proof.
  unfold i32_or_max. destruct (Z.leb_spec (- i32_max - 1) z), (Z.leb_spec z i32_max); cbn; lia.
Qed.

Lemma div_bounds a b q : 0 < b -> a / b = q <-> q * b <= a <= q * b + b - 1.
Proof.
  intros Hb. split.
  - intros <-. pose proof (Z.div_mod a b ltac:(lia)). pose proof (Z.mod_pos_bound a b Hb). lia.
  - intros H. symmetry. apply Z.div_unique_pos with (a - q * b); lia.
Qed.

(** ** Merge levels ([parts/levels.rs]) *)

Inductive Level := L0 | Minute | Hour | Day.

#[export] Instance Level_eq_dec : EqDecision Level.
Proof. solve_decision. Defined.

Definition Level_code (l : Level) : string :=
  match l with L0 => "l0" | Minute => "m" | Hour => "h" | Day => "d" end.
(** True when a part of this level spans one event hour. *)
Definition is_hourly (l : Level) : bool := negb (bool_decide (l = Day)).

(** ** Part ids: [{created_unix_ms:013}-{16 lowercase hex}] *)

Inductive FormatError := CreationTimeOutOfRange | PartIdMalformed | TenantNotUuid | TenantNotCanonical
  | EventHourOutOfRange | DayPartHour | LayoutShape | LayoutRows | LayoutBytes | LayoutBounds.

#[export] Instance FormatError_eq_dec : EqDecision FormatError.
Proof. solve_decision. Defined.

Definition part_id_valid (value : string) : bool :=
  (String.length value =? 30)%nat
  && bool_decide (str_get 13 value = Some "-"%char)
  && str_all is_digit (str_take 13 value)
  && str_all is_hex_lower (str_drop 14 value).

(** The field is private and every constructor validates, so validity is part of the type. *)
Record PartId := mk_part_id { pid_str : string; pid_valid : part_id_valid pid_str = true }.

Lemma PartId_eq a b : pid_str a = pid_str b -> a = b.
Proof. destruct a, b; cbn; intros ->. f_equal. apply (proof_irrel (A := _ = true)). Qed.

Definition PartId_parse (value : string) : result FormatError PartId :=
  match decide (part_id_valid value = true) with
  | left H => Ok (mk_part_id value H)
  | right _ => Err PartIdMalformed
  end.

(** [PartId::new]: the suffix is the hex of eight random bytes. *)
Definition part_id_new_str (created_unix_ms : Z) (suffix : string) : result FormatError string :=
  _ ← ensure ((0 <=? created_unix_ms) && (created_unix_ms <=? 9999999999999)) CreationTimeOutOfRange;
  Ok (fmt_pad 13 created_unix_ms +:+ "-" +:+ suffix).

(** [self.0[..13].parse().unwrap_or_default()] *)
Definition created_unix_ms (id : PartId) : Z :=
  default 0 (parse_signed i64_min i64_max (str_take 13 (pid_str id))).

(** The derived [Ord]: byte order of the string. *)
Definition pid_leb (a b : PartId) : bool := String.leb (pid_str a) (pid_str b).

#[export] Instance PartId_eq_dec : EqDecision PartId.
Proof.
  intros a b. destruct (decide (pid_str a = pid_str b)) as [E|E].
  - left. by apply PartId_eq.
  - right. congruence.
Defined.

#[export] Program Instance PartId_countable : Countable PartId :=
  inj_countable pid_str (fun s => match PartId_parse s with Ok id => Some id | Err _ => None end) _.
Next Obligation.
  intros [s H]. unfold PartId_parse. cbn. destruct (decide _) as [H'|]; [|congruence].
  f_equal. by apply PartId_eq.
Qed.

Lemma is_digit_not_sign c : is_digit c = true -> c <> "+"%char /\ c <> "-"%char.
Proof. intros H. split; intros ->; discriminate H. Qed.

Lemma digits_no_plus s : str_all is_digit s = true -> (match s with String "+" r => r | _ => s end) = s.
Proof.
  destruct s as [|c s]; [done|]. cbn. intros [Hc _]%andb_true_iff. apply is_digit_not_sign in Hc as [Hc _].
  by destruct c as [[][][][][][][][]].
Qed.

(** A digit string parses to its number, sign handling aside. *)
Lemma parse_unsigned_digits hi s :
  s <> EmptyString -> str_all is_digit s = true -> dec_val 0 s <= hi -> parse_unsigned hi s = Some (dec_val 0 s).
Proof.
  intros Hne Hs Hv. unfold parse_unsigned. rewrite digits_no_plus, Hs by done. rewrite (proj2 (Z.leb_le _ _) Hv).
  assert (0 < str_len s) by (destruct s; [done|unfold str_len; cbn; lia]). by rewrite (proj2 (Z.ltb_lt _ _)).
Qed.

Lemma parse_signed_digits lo hi s :
  s <> EmptyString -> str_all is_digit s = true -> dec_val 0 s <= hi ->
  parse_signed lo hi s = Some (dec_val 0 s).
Proof.
  intros Hne Hs Hv. pose proof (parse_unsigned_digits hi s Hne Hs Hv) as Hu.
  destruct s as [|c s]; [done|]. cbn [str_all] in Hs. apply andb_true_iff in Hs as [Hc _].
  apply is_digit_not_sign in Hc as [_ Hc]. unfold parse_signed.
  destruct c as [[][][][][][][][]]; done.
Qed.

Lemma part_id_valid_inv s :
  part_id_valid s = true ->
  String.length s = 30%nat /\ str_all is_digit (str_take 13 s) = true.
Proof.
  unfold part_id_valid. rewrite !andb_true_iff, Nat.eqb_eq. tauto.
Qed.

Lemma pid_prefix id :
  str_all is_digit (str_take 13 (pid_str id)) = true /\ String.length (str_take 13 (pid_str id)) = 13%nat.
Proof.
  destruct (part_id_valid_inv _ (pid_valid id)) as [Hl Hd].
  split; [done|]. apply str_take_length. lia.
Qed.

Lemma created_unix_ms_val id : created_unix_ms id = dec_val 0 (str_take 13 (pid_str id)).
Proof.
  destruct (pid_prefix id) as [Hd Hl]. pose proof (dec_val_bound _ Hd) as Hb.
  unfold str_len in Hb. rewrite Hl in Hb. unfold created_unix_ms.
  rewrite parse_signed_digits; [done| |done|unfold i64_max; lia].
  intros E. by rewrite E in Hl.
Qed.

Lemma created_unix_ms_range id : 0 <= created_unix_ms id <= 9999999999999.
Proof.
  rewrite created_unix_ms_val. destruct (pid_prefix id) as [Hd Hl].
  pose proof (dec_val_bound _ Hd) as Hb. unfold str_len in Hb. rewrite Hl in Hb. lia.
Qed.

(** Ids sort by creation time: the order of a [BTreeSet<PartId>] is the order of time first. *)
Lemma pid_leb_created a b : pid_leb a b = true -> created_unix_ms a <= created_unix_ms b.
Proof.
  rewrite !created_unix_ms_val. unfold pid_leb, String.leb.
  destruct (pid_prefix a) as [Ha La], (pid_prefix b) as [Hb Lb].
  rewrite <- (str_take_drop 13 (pid_str a)) at 1. rewrite <- (str_take_drop 13 (pid_str b)) at 1.
  rewrite str_compare_app by congruence. rewrite dec_compare by congruence.
  destruct (Z.compare_spec (dec_val 0 (str_take 13 (pid_str a))) (dec_val 0 (str_take 13 (pid_str b)))); [lia|lia|done].
Qed.

Lemma pid_leb_total a b : pid_leb a b = true \/ pid_leb b a = true.
Proof. apply String.leb_total. Qed.

Lemma pid_leb_trans a b c : pid_leb a b = true -> pid_leb b c = true -> pid_leb a c = true.
Proof. apply str_leb_trans. Qed.

Lemma pid_leb_antisym a b : pid_leb a b = true -> pid_leb b a = true -> a = b.
Proof. intros H1 H2. by apply PartId_eq, String.leb_antisym. Qed.

Lemma PartId_parse_valid s id : PartId_parse s = Ok id <-> pid_str id = s.
Proof.
  unfold PartId_parse. destruct (decide _) as [H|H]; split.
  - by intros [= <-].
  - intros <-. f_equal. by apply PartId_eq.
  - done.
  - intros <-. destruct H. apply pid_valid.
Qed.

(** [PartId::new] writes a valid id whose creation time reads back. *)
Lemma part_id_new_parses t suffix s :
  String.length suffix = 16%nat -> str_all is_hex_lower suffix = true ->
  part_id_new_str t suffix = Ok s ->
  exists id, PartId_parse s = Ok id /\ created_unix_ms id = t.
Proof.
  intros Hl Hh Hs. unfold part_id_new_str in Hs. inv_ok.
  match goal with H : andb _ _ = true |- _ => apply andb_true_iff in H as [H1 H2] end.
  rewrite fmt_pad_fixed by lia. set (s := fixed_dec 13 t +:+ "-" +:+ suffix).
  assert (str_take 13 s = fixed_dec 13 t) as Et by (by apply str_take_app, fixed_dec_length).
  assert (part_id_valid s = true) as Hv.
  { unfold part_id_valid. rewrite Et, fixed_dec_digits, andb_true_r.
    assert (str_drop 13 s = "-" +:+ suffix) as Ed by (by apply str_drop_app, fixed_dec_length).
    unfold str_get. rewrite Ed.
    assert (str_drop 14 s = suffix) as -> by (subst s; rewrite str_app_assoc; by apply str_drop_app).
    rewrite Hh, andb_true_r.
    assert (String.length s = 30)%nat as ->; [|done].
    apply Nat2Z.inj. change (str_len s = 30). subst s. rewrite !str_len_app.
    unfold str_len. rewrite fixed_dec_length, Hl. done. }
  exists (mk_part_id s Hv). split; [by apply PartId_parse_valid|].
  rewrite created_unix_ms_val. cbn [pid_str]. rewrite Et. apply dec_val_fixed. lia.
Qed.

(** ** Object keys *)

Section keys.
Context `{Platform}.

(** [validate_tenant_uuid]: lowercase and hyphenated. *)
Definition validate_tenant_uuid (tenant_id : string) : result FormatError unit :=
  canonical ← of_option (uuid_hyphenated tenant_id) TenantNotUuid;
  ensure (bool_decide (canonical = tenant_id)) TenantNotCanonical.

Definition PARTS_ROOT : string := "lake/parts/v1".
Definition tenant_root (tenant_id : string) : string := PARTS_ROOT +:+ "/tenant=" +:+ tenant_id.

Definition data_file_name (index : Z) : string := "data-" +:+ fmt_pad 5 index +:+ ".parquet".
Definition tokens_file_name (index : Z) : string := "tokens-" +:+ fmt_pad 5 index +:+ ".nti".

(** [{z:04}] and [{z:02}] of a signed number. *)
Definition fmt_pad_signed (w : nat) (z : Z) : string :=
  if z <? 0 then "-" +:+ fmt_pad (w - 1) (- z) else fmt_pad w z.

(** [PartKeys::new]: the directory of a part's files. *)
Definition PartKeys_new (tenant_id : string) (level : Level) (event_hour : Z) (part_id : PartId)
    : result FormatError string :=
  _ ← validate_tenant_uuid tenant_id;
  start ← of_option (from_timestamp (event_hour * 3600)) EventHourOutOfRange;
  let hour' := if bool_decide (level = Day) then 0 else hour start in
  _ ← ensure (negb (bool_decide (level = Day) && negb (hour start =? 0))) DayPartHour;
  Ok (tenant_root tenant_id +:+ "/parts/" +:+ Level_code level +:+ "/"
      +:+ fmt_pad_signed 4 (year start) +:+ "/" +:+ fmt_pad_signed 2 (month start) +:+ "/"
      +:+ fmt_pad_signed 2 (day start) +:+ "/" +:+ fmt_pad_signed 2 hour' +:+ "/" +:+ pid_str part_id).

Definition part_file (dir name : string) : string := dir +:+ "/" +:+ name.

(** [LogKeys]: [log_root] is the [root] field. *)
Definition LogKeys_new (tenant_id : string) : result FormatError string :=
  _ ← validate_tenant_uuid tenant_id;
  Ok (tenant_root tenant_id +:+ "/log").
Definition entry_key (log_root : string) (seq : Z) : string :=
  log_root +:+ "/entries/" +:+ fmt_pad 20 seq +:+ ".json".
Definition checkpoint_key (log_root : string) (seq : Z) : string :=
  log_root +:+ "/checkpoints/" +:+ fmt_pad 20 seq +:+ ".json".
Definition checkpoints_prefix (log_root : string) : string := log_root +:+ "/checkpoints/".

(** The last path segment: [key.rsplit('/').next()]. *)
Fixpoint last_segment (acc key : string) : string :=
  match key with
  | EmptyString => acc
  | String c key => if Ascii.eqb c "/" then last_segment key key else last_segment acc key
  end.

(** [is_snapshot_checkpoint_key]: a 25-byte name of twenty digits and [.json]. *)
Definition is_snapshot_checkpoint_key (key : string) : bool :=
  let name := last_segment key key in
  (String.length name =? 25)%nat
  && bool_decide (str_drop 20 name = ".json") && str_all is_digit (str_take 20 name).

Lemma fmt_pad_20 seq : in_u64 seq -> fmt_pad 20 seq = fixed_dec 20 seq.
Proof. unfold in_u64, u64_max. intros. apply fmt_pad_fixed. lia. Qed.

Lemma u64_pow20 seq : in_u64 seq -> 0 <= seq < 10 ^ Z.of_nat 20.
Proof. unfold in_u64, u64_max. lia. Qed.

Lemma entry_key_inj root a b : in_u64 a -> in_u64 b -> entry_key root a = entry_key root b -> a = b.
Proof.
  intros Ha Hb. unfold entry_key. rewrite !fmt_pad_20 by done.
  intros E%(inj (String.app root))%(inj (String.app "/entries/")).
  apply str_app_inv_len in E as [E _]; [|by rewrite !fixed_dec_length].
  by eapply fixed_dec_inj; try apply u64_pow20.
Qed.

Lemma entry_checkpoint_ne root a b : entry_key root a <> checkpoint_key root b.
Proof. unfold entry_key, checkpoint_key. intros E%(inj (String.app root)). discriminate E. Qed.

Lemma last_segment_no_slash acc s :
  str_all (fun c => negb (Ascii.eqb c "/")) s = true -> last_segment acc s = acc.
Proof.
  induction s as [|c s IH]; cbn; [done|]. intros [Hc Hs]%andb_true_iff.
  destruct (Ascii.eqb c "/"); [done|by apply IH].
Qed.

Lemma last_segment_app acc pre name :
  str_all (fun c => negb (Ascii.eqb c "/")) name = true ->
  last_segment acc (pre +:+ "/" +:+ name) = name.
Proof.
  intros Hn. revert acc; induction pre as [|c pre IH]; intros acc.
  - change ("" +:+ "/" +:+ name) with (String "/" name). cbn. by apply last_segment_no_slash.
  - rewrite str_app_cons. cbn. destruct (Ascii.eqb c "/"); apply IH.
Qed.

Lemma digits_no_slash s : str_all is_digit s = true -> str_all (fun c => negb (Ascii.eqb c "/")) s = true.
Proof.
  induction s as [|c s IH]; cbn; [done|]. intros [Hc Hs]%andb_true_iff. rewrite IH by done.
  destruct (Ascii.eqb_spec c "/") as [->|]; [by discriminate Hc|done].
Qed.

(** The keys [write_checkpoint] creates are the keys [load_log] reads. *)
Lemma checkpoint_key_snapshot root seq :
  in_u64 seq -> is_snapshot_checkpoint_key (checkpoint_key root seq) = true.
Proof.
  intros Hs. unfold is_snapshot_checkpoint_key, checkpoint_key. rewrite fmt_pad_20 by done.
  replace (root +:+ "/checkpoints/" +:+ fixed_dec 20 seq +:+ ".json")
    with ((root +:+ "/checkpoints") +:+ "/" +:+ (fixed_dec 20 seq +:+ ".json"))
    by (rewrite <- str_app_assoc; done).
  rewrite last_segment_app by (rewrite str_all_app, digits_no_slash; [done|apply fixed_dec_digits]).
  rewrite str_take_app, str_drop_app, fixed_dec_digits by apply fixed_dec_length.
  assert (String.length (fixed_dec 20 seq +:+ ".json") = 25)%nat as ->; [|done].
  apply Nat2Z.inj. change (str_len (fixed_dec 20 seq +:+ ".json") = 25).
  rewrite str_len_app. unfold str_len. by rewrite fixed_dec_length.
Qed.

(** Listing order is sequence order: the newest checkpoint is the last key listed. *)
Lemma checkpoint_key_leb root a b :
  in_u64 a -> in_u64 b -> String.leb (checkpoint_key root a) (checkpoint_key root b) = (a <=? b).
Proof.
  intros Ha Hb. unfold checkpoint_key, String.leb. rewrite !fmt_pad_20 by done.
  rewrite str_compare_app, str_compare_refl by done.
  rewrite (str_compare_app "/checkpoints/" "/checkpoints/"), str_compare_refl by done.
  rewrite str_compare_app by (by rewrite !fixed_dec_length).
  rewrite fixed_dec_compare by (by apply u64_pow20). rewrite str_compare_refl.
  unfold Z.leb. by destruct (a ?= b).
Qed.
End keys.

(** ** Parquet layout settings *)

Definition ROW_GROUP_ROWS : Z := 65536.
Definition MAX_ROW_GROUP_ROWS : Z := 262144.
Definition MAX_OBJECT_BYTES : Z := 2 * 1024 * 1024 * 1024.
Definition DATA_FILE_SPLIT_BYTES : Z := 1024 * 1024 * 1024.
Definition MAX_DATA_FILES : Z := 1000.
Definition MAX_LOG_OBJECT_BYTES : Z := 4 * 1024 * 1024.

Record ParquetSettings := { zstd_level : Z; row_group_rows : Z; max_file_bytes : Z }.

Definition settings_for_level (level : Level) : ParquetSettings :=
  {| zstd_level := match level with L0 => 3 | Minute => 6 | Hour | Day => 9 end;
     row_group_rows := ROW_GROUP_ROWS; max_file_bytes := DATA_FILE_SPLIT_BYTES |}.

(** The opt-in [rows:file_bytes] layout; L0 keeps its ingest layout. *)
Definition compaction_layout (self : ParquetSettings) (level : Level) (value : option string)
    : result FormatError ParquetSettings :=
  match value with
  | None => Ok self
  | Some value =>
      if bool_decide (level = L0) then Ok self else
      '(rows, bytes) ← of_option (split_once ":" value) LayoutShape;
      rows ← of_option (parse_unsigned u64_max rows) LayoutRows;
      bytes ← of_option (parse_unsigned u64_max bytes) LayoutBytes;
      _ ← ensure (bool_decide (rows ∈ [8192; 16384; 32768; ROW_GROUP_ROWS; 131072; MAX_ROW_GROUP_ROWS])
                  && ((64 * 1024 * 1024 <=? bytes) && (bytes <=? DATA_FILE_SPLIT_BYTES))) LayoutBounds;
      Ok {| zstd_level := zstd_level self; row_group_rows := rows; max_file_bytes := bytes |}
  end.

Definition cluster_worthwhile (rows group_rows : Z) : bool :=
  sat_u64 (Z.max 8192 (Z.min ROW_GROUP_ROWS group_rows) * 8) <=? rows.

Definition for_compaction_rows (self : ParquetSettings) (level : Level) (rows : Z) : ParquetSettings :=
  if negb (bool_decide (level = L0)) && negb (cluster_worthwhile rows (row_group_rows self))
  then {| zstd_level := zstd_level self; row_group_rows := ROW_GROUP_ROWS;
          max_file_bytes := DATA_FILE_SPLIT_BYTES |}
  else self.

(** The bound every reader of a part relies on: groups of at most [MAX_ROW_GROUP_ROWS]
    rows, and files that leave half of [MAX_OBJECT_BYTES] for their last row group. *)
Definition layout_bounded (s : ParquetSettings) : Prop :=
  8192 <= row_group_rows s <= MAX_ROW_GROUP_ROWS
  /\ 64 * 1024 * 1024 <= max_file_bytes s <= DATA_FILE_SPLIT_BYTES.

(** The settings a writer uses for a part: the level's, then the configured layout, then
    the floor on the number of rows. *)
Definition draft_settings (level : Level) (layout : option string) (rows : Z) : result FormatError ParquetSettings :=
  s ← compaction_layout (settings_for_level level) level layout;
  Ok (for_compaction_rows s level rows).

Lemma for_level_bounded level : layout_bounded (settings_for_level level).
Proof. unfold layout_bounded, settings_for_level, ROW_GROUP_ROWS, MAX_ROW_GROUP_ROWS, DATA_FILE_SPLIT_BYTES. cbn. lia. Qed.

Lemma compaction_layout_bounded s level value s' :
  layout_bounded s -> compaction_layout s level value = Ok s' -> layout_bounded s'.
Proof.
  intros Hs. unfold compaction_layout. destruct value as [value|]; [|by intros [= <-]].
  case_bool_decide; [by intros [= <-]|]. destruct (split_once ":" value) as [[r b]|]; [|done].
  intros H'. cbn in H'. inv_ok.
  match goal with H : _ && _ = true |- _ => apply andb_true_iff in H as [Hr Hb] end.
  apply bool_decide_eq_true in Hr. apply andb_true_iff in Hb as [Hb1%Z.leb_le Hb2%Z.leb_le].
  split; [|done]. unfold ROW_GROUP_ROWS, MAX_ROW_GROUP_ROWS in *. cbn [row_group_rows].
  rewrite !elem_of_cons, elem_of_nil in Hr. lia.
Qed.

Lemma for_compaction_rows_bounded s level rows :
  layout_bounded s -> layout_bounded (for_compaction_rows s level rows).
Proof.
  intros Hs. unfold for_compaction_rows. destruct (_ && _); [|done].
  apply (for_level_bounded level).
Qed.

(** ** Request hours ([parts/request_dedup.rs]) *)

Record RequestHours := { rh_first : Z; rh_last : Z }.

#[export] Instance RequestHours_eq_dec : EqDecision RequestHours.
Proof. solve_decision. Defined.

Definition hours_contains (self : RequestHours) (hour : Z) : bool := (rh_first self <=? hour) && (hour <=? rh_last self).
Definition hours_include (self : RequestHours) (hour : Z) : RequestHours :=
  {| rh_first := Z.min (rh_first self) hour; rh_last := Z.max (rh_last self) hour |}.
Definition hours_valid (self : RequestHours) : bool :=
  (0 <=? rh_first self) && (rh_first self <=? rh_last self) && (rh_last self <? 100000000).

Definition REQUEST_PREFIX : string := "nano-request-v1:".

Definition request_hour (uid : string) : option Z :=
  rest ← strip_prefix REQUEST_PREFIX uid;
  '(hour, digest) ← split_once ":" rest;
  if negb (is_sha256_hex digest) then None else
  hour ← parse_signed (- i32_max - 1) i32_max hour;
  if (0 <=? hour) && (hour <? 100000000) then Some hour else None.

#[global] Arguments request_hour : simpl never.
#[global] Arguments created_unix_ms : simpl never.
#[global] Arguments event_hour_of : simpl never.
#[global] Arguments event_day_of : simpl never.

(** Separate namespaces of one bounded window: [i64::MIN + hour]. *)
Definition window_hour (hour : Z) : Z := i64_min + hour.
Definition is_window_hour (hour : Z) : bool := hour <? i64_min + 100000000.

(** What [PartWriter::write] keeps per uid of a part ([part_ingest/writer.rs]). *)
Definition note_uid (request_hours : option RequestHours) (uid : string) : option RequestHours :=
  match request_hour uid with
  | Some hour =>
      match request_hours with
      | Some hours => Some (hours_include hours hour)
      | None => Some {| rh_first := hour; rh_last := hour |}
      end
  | None => request_hours
  end.

Lemma hours_include_contains r h h' :
  hours_contains (hours_include r h) h' = true <->
  h' = h \/ (Z.min (rh_first r) h <= h' <= Z.max (rh_last r) h).
Proof. unfold hours_contains, hours_include. cbn. rewrite andb_true_iff, !Z.leb_le. lia. Qed.

Lemma fold_include_first hs r :
  rh_first (fold_left hours_include hs r) <= rh_first r /\ rh_last r <= rh_last (fold_left hours_include hs r).
Proof.
  revert r; induction hs as [|h hs IH]; intros r; cbn; [lia|].
  specialize (IH (hours_include r h)). cbn in IH. lia.
Qed.

Lemma fold_include_elem hs r h :
  h ∈ hs -> rh_first (fold_left hours_include hs r) <= h <= rh_last (fold_left hours_include hs r).
Proof.
  revert r; induction hs as [|h' hs IH]; intros r; [by intros ?%elem_of_nil|].
  intros [->|Hh]%elem_of_cons; cbn; [|by apply IH].
  pose proof (fold_include_first hs (hours_include r h')). cbn in *. lia.
Qed.

Lemma fold_include_range hs r (lo hi : Z) :
  lo <= rh_first r -> rh_last r <= hi -> Forall (fun h => lo <= h <= hi) hs ->
  lo <= rh_first (fold_left hours_include hs r) /\ rh_last (fold_left hours_include hs r) <= hi.
Proof.
  intros H1 H2 Hs. revert r H1 H2; induction Hs as [|h hs Hh Hs IH]; intros r H1 H2; cbn; [done|].
  apply IH; cbn; lia.
Qed.

Lemma request_hour_range uid h : request_hour uid = Some h -> 0 <= h < 100000000.
Proof.
  unfold request_hour. intros (rest & _ & H)%bind_Some. apply bind_Some in H as ([hour digest] & _ & H).
  destruct (negb _); [done|]. apply bind_Some in H as (h' & _ & H).
  destruct (Z.leb_spec 0 h'), (Z.ltb_spec h' 100000000); cbn in H; simplify_eq. lia.
Qed.

(** [note_uid] over a part is one fold of [hours_include] over the hours its uids name. *)
Lemma note_uids_Some uids r :
  fold_left note_uid uids (Some r) = Some (fold_left hours_include (omap request_hour uids) r).
Proof.
  revert r; induction uids as [|uid uids IH]; intros r; cbn; [done|].
  unfold note_uid at 2. destruct (request_hour uid) as [h|] eqn:E; cbn; apply IH.
Qed.

Lemma note_uids_None uids :
  fold_left note_uid uids None =
    match omap request_hour uids with
    | [] => None
    | h :: hs => Some (fold_left hours_include hs {| rh_first := h; rh_last := h |})
    end.
Proof.
  induction uids as [|uid uids IH]; cbn; [done|].
  unfold note_uid at 2. destruct (request_hour uid) as [h|] eqn:E; cbn; [apply note_uids_Some|apply IH].
Qed.

Lemma omap_request_hours_range uids : Forall (fun h => 0 <= h <= 99999999) (omap request_hour uids).
Proof.
  rewrite Forall_forall. intros h Hh. apply list_elem_of_omap in Hh as (uid & _ & Hh).
  apply request_hour_range in Hh. lia.
Qed.

(** ** Properties *)

(** An event time is bucketed into hour [h] exactly when it lies within the inclusive
    bounds [hour_bounds_us h], for every hour an [i32] below its maximum can name. *)
Theorem event_hour_bounds t h :
  - i32_max - 1 <= h < i32_max ->
  event_hour_of t = h <-> (hour_bounds_us h).1 <= t <= (hour_bounds_us h).2.
Proof.
  intros Hh. unfold event_hour_of. rewrite i32_or_max_lt by lia. unfold hour_bounds_us. cbn.
  rewrite <- div_bounds by (unfold HOUR_US; lia). lia.
Qed.

Lemma event_hour_bounds_witness :
  - i32_max - 1 <= -1 < i32_max /\
  (event_hour_of (-1) = -1 <-> (hour_bounds_us (-1)).1 <= -1 <= (hour_bounds_us (-1)).2).
Proof. split; [unfold i32_max; lia|]. apply event_hour_bounds. unfold i32_max. lia. Defined.

(** [PartId::new] succeeds exactly on the thirteen-digit range, and the id it writes
    parses, reads its creation time back, and sorts after every id created earlier. *)
Theorem part_id_roundtrip t suffix :
  String.length suffix = 16%nat -> str_all is_hex_lower suffix = true -> 0 <= t <= 9999999999999 ->
  exists s id, part_id_new_str t suffix = Ok s /\ PartId_parse s = Ok id /\ created_unix_ms id = t
    /\ forall id', created_unix_ms id' < t -> pid_leb id' id = true /\ pid_leb id id' = false.
Proof.
  intros Hl Hh Ht.
  assert (part_id_new_str t suffix = Ok (fmt_pad 13 t +:+ "-" +:+ suffix)) as E.
  { unfold part_id_new_str. rewrite (proj2 (Z.leb_le 0 t)), (proj2 (Z.leb_le t _)) by lia. done. }
  destruct (part_id_new_parses t suffix _ Hl Hh E) as (id & Hp & Hc).
  eexists _, id. do 3 (split; [done|]). intros id' Hlt.
  destruct (pid_leb id id') eqn:E'.
  - apply pid_leb_created in E'. lia.
  - by destruct (pid_leb_total id' id) as [->|]; [|congruence].
Qed.

Lemma part_id_roundtrip_witness :
  exists s id, part_id_new_str 1760000000000 "00112233445566ff" = Ok s /\ PartId_parse s = Ok id
    /\ created_unix_ms id = 1760000000000
    /\ forall id', created_unix_ms id' < 1760000000000 -> pid_leb id' id = true /\ pid_leb id id' = false.
Proof. apply part_id_roundtrip; [done|done|lia]. Defined.

(** The settings a part writer computes from its level, the configured layout and the
    expected rows always stay within the row-group and file-size bounds readers accept;
    a layout outside them is refused. *)
Theorem draft_settings_bounded level layout rows s :
  draft_settings level layout rows = Ok s -> layout_bounded s.
Proof.
  unfold draft_settings. intros H'. inv_ok.
  eapply for_compaction_rows_bounded, compaction_layout_bounded; [apply for_level_bounded|done].
Qed.

Lemma draft_settings_bounded_witness :
  exists s, draft_settings Hour (Some "262144:268435456") 1080000 = Ok s /\ layout_bounded s.
Proof.
  eexists. split; [vm_compute; reflexivity|].
  apply (draft_settings_bounded Hour (Some "262144:268435456") 1080000). vm_compute. reflexivity.
Defined.

(** The request-hour summary a writer folds over a part's uids is valid for the log,
    contains the hour of every request uid of the part, and is no wider than they are. *)
Theorem request_hours_summary uids :
  (forall uid h, uid ∈ uids -> request_hour uid = Some h ->
     exists r, fold_left note_uid uids None = Some r /\ hours_contains r h = true)
  /\ (forall r, fold_left note_uid uids None = Some r -> hours_valid r = true
        /\ (exists uid, uid ∈ uids /\ request_hour uid <> None)).
Proof.
  rewrite note_uids_None. pose proof (omap_request_hours_range uids) as Hr.
  assert (forall uid h, uid ∈ uids -> request_hour uid = Some h -> h ∈ omap request_hour uids) as Hin.
  { intros uid h ? ?. apply list_elem_of_omap. by exists uid. }
  destruct (omap request_hour uids) as [|h0 hs] eqn:E.
  - split; [|done]. intros uid h Hu Hh. specialize (Hin _ _ Hu Hh). by apply elem_of_nil in Hin.
  - apply Forall_cons in Hr as [H0 Hr]. split.
    + intros uid h Hu Hh. eexists; split; [done|]. unfold hours_contains. rewrite andb_true_iff, !Z.leb_le.
      destruct (proj1 (elem_of_cons _ _ _) (Hin _ _ Hu Hh)) as [->|Hh']; [|by apply fold_include_elem].
      pose proof (fold_include_first hs {| rh_first := h0; rh_last := h0 |}). cbn in *. lia.
    + intros r [= <-]. split.
      * destruct (fold_include_range hs {| rh_first := h0; rh_last := h0 |} 0 99999999) as [? ?]; cbn; [lia..|done|].
        pose proof (fold_include_first hs {| rh_first := h0; rh_last := h0 |}). cbn in *.
        unfold hours_valid. rewrite !andb_true_iff. lia.
      * assert (h0 ∈ omap request_hour uids) as Hh by (rewrite E; constructor).
        apply list_elem_of_omap in Hh as (uid & ? & Hu). exists uid. split; [done|congruence].
Qed.
