(* ===== verification/EdgeLog.v ===== *)
(** * EdgeLog: the hash-chained edge-log ranges a part consumes

    Models the edge-log half of [parts/provenance.rs]: segment keys and versions, the
    chain ([edge_log_genesis], [edge_log_next_chain]) and [EdgeLogRange]. *)
From S2P Require Import Prelude Platform Format.

Definition EDGE_LOG_CONTRACT : string := "nano-edge-log-v1".
Definition EDGE_LOG_VERSION_PREFIX : string := "edge-log-v1:".
Definition MAX_SAFE_INTEGER : Z := 9007199254740991.

(** One consumed source object (a Vector bronze object in the tenant bucket). *)
Record SourceObject := {
  so_key : string; so_version : string; so_bytes : Z; so_sha256 : string; so_rows : Z;
  so_edge_sha256 : option string }.

Inductive EdgeSkipReason := ConsumedWithoutRows.

Record EdgeSkippedSegment := {
  sk_seq : Z; sk_key : string; sk_sha256 : string; sk_length : Z; sk_reason : EdgeSkipReason;
  sk_rows : Z; sk_rows_rejected : Z; sk_rows_duplicate : Z }.

Record EdgeLogRange := {
  el_log : string; el_contract : string; first_seq : Z; through_seq : Z;
  prev_chain : string; through_chain : string; skipped : list EdgeSkippedSegment;
  rows_in : Z; rows_rejected : Z; rows_duplicate : Z }.

#[export] Instance SourceObject_eq_dec : EqDecision SourceObject.
Proof. solve_decision. Defined.
#[export] Instance EdgeSkipReason_eq_dec : EqDecision EdgeSkipReason.
Proof. solve_decision. Defined.
#[export] Instance EdgeSkippedSegment_eq_dec : EqDecision EdgeSkippedSegment.
Proof. solve_decision. Defined.
#[export] Instance EdgeLogRange_eq_dec : EqDecision EdgeLogRange.
Proof. solve_decision. Defined.

(** [bronze-v2/shard=<n>/tenant_id=<tenant>/<file>], without control characters. *)
Definition is_edge_segment_key (tenant_id key : string) : bool :=
  match split_on "/" key with
  | [a; shard; tenant; file] =>
      bool_decide (a = "bronze-v2")
      && match strip_prefix "shard=" shard with
         | Some n => (0 <? str_len n) && str_all is_digit n
         | None => false
         end
      && bool_decide (tenant = "tenant_id=" +:+ tenant_id)
      && (0 <? str_len file) && negb (bool_decide (file = ".")) && negb (bool_decide (file = ".."))
  | _ => false
  end && (str_len key <=? 1024) && negb (has_control key).

(** The sequence of a source version [edge-log-v1:<seq>]. *)
Definition edge_log_seq_of_version (version : string) : option Z :=
  digits ← strip_prefix EDGE_LOG_VERSION_PREFIX version;
  if (str_len digits =? 0) || (20 <? str_len digits) || negb (str_all is_digit digits)
     || bool_decide (str_get 0 digits = Some "0"%char)
  then None else
  seq ← parse_unsigned u64_max digits;
  if seq <=? MAX_SAFE_INTEGER then Some seq else None.

Inductive EdgeError :=
| EdgeOtherLog | EdgeBounds | EdgeSourceKey | EdgeSkippedAccounting | EdgeRowOverflow
| EdgeRowAccounting | EdgeChainMalformed | EdgeSourceVersion | EdgeSkippedDigest
| EdgeCover | EdgeLastSource | EdgeChainMismatch | EdgeSeqOverflow | EdgeNotContinuing.

#[export] Instance EdgeError_eq_dec : EqDecision EdgeError.
Proof. solve_decision. Defined.

(** A segment as the chain sees it: [(seq, key, sha256, length)]. *)
Record Segment := { sg_seq : Z; sg_key : string; sg_sha256 : string; sg_length : Z }.

#[export] Instance Segment_eq_dec : EqDecision Segment.
Proof. solve_decision. Defined.

(** [try_fold(0, checked_add)] *)
Definition checked_sum (l : list Z) : option Z :=
  fold_left (fun acc x => s ← acc; if s + x <=? u64_max then Some (s + x) else None) l (Some 0).

Section edge_log.
Context `{Platform}.

Definition edge_log_genesis (tenant_id : string) : string :=
  sha256_hex (EDGE_LOG_CONTRACT +:+ newline +:+ tenant_id).

(** The line that is hashed into the next chain value. *)
Definition chain_line (previous : string) (s : Segment) : string :=
  previous +:+ newline +:+ to_dec (sg_seq s) +:+ newline +:+ sg_key s +:+ newline
    +:+ sg_sha256 s +:+ newline +:+ to_dec (sg_length s).
Definition edge_log_next_chain (previous : string) (s : Segment) : string :=
  sha256_hex (chain_line previous s).

(** [let mut chain = prev; for segment in segments { chain = next(chain, segment) }] *)
Definition chain_over (prev : string) (segs : list Segment) : string :=
  fold_left edge_log_next_chain segs prev.

Definition edge_log_name (tenant_id : string) : string := "edgelog:" +:+ tenant_id.

Definition skipped_segment (k : EdgeSkippedSegment) : Segment :=
  {| sg_seq := sk_seq k; sg_key := sk_key k; sg_sha256 := sk_sha256 k; sg_length := sk_length k |}.

(** The segments of a range, sources first, each source with its parsed sequence. *)
Fixpoint source_segments (sources : list SourceObject) : result EdgeError (list Segment) :=
  match sources with
  | [] => Ok []
  | s :: sources =>
      seq ← of_option (edge_log_seq_of_version (so_version s)) EdgeSourceVersion;
      segs ← source_segments sources;
      Ok ({| sg_seq := seq; sg_key := so_key s; sg_sha256 := so_sha256 s; sg_length := so_bytes s |} :: segs)
  end.

Definition seg_leb (a b : Segment) : bool := sg_seq a <=? sg_seq b.
(** [segments.iter().enumerate().any(|(offset, s)| s.0 != first_seq + offset)] negated *)
Fixpoint consecutive (seq : Z) (segs : list Segment) : bool :=
  match segs with [] => true | s :: segs => (sg_seq s =? seq) && consecutive (seq + 1) segs end.

(** [rows.checked_sub(rejected).and_then(|r| r.checked_sub(duplicate)) == Some(0)] *)
Definition skipped_accounted (k : EdgeSkippedSegment) : bool :=
  (0 <=? sk_rows k - sk_rows_rejected k)
  && (sk_rows k - sk_rows_rejected k - sk_rows_duplicate k =? 0).

(** [EdgeLogRange::validate]; the range's segments in order, for its callers' proofs. *)
Definition range_segments (self : EdgeLogRange) (sources : list SourceObject) : result EdgeError (list Segment) :=
  segs ← source_segments sources;
  Ok (sort_by seg_leb (segs ++ (skipped_segment <$> skipped self))).

Definition range_validate (self : EdgeLogRange) (tenant_id : string) (sources : list SourceObject)
    : result EdgeError unit :=
  _ ← ensure (bool_decide (el_log self = edge_log_name tenant_id)
              && bool_decide (el_contract self = EDGE_LOG_CONTRACT)) EdgeOtherLog;
  _ ← ensure (negb (first_seq self =? 0) && (first_seq self <=? through_seq self)
              && (through_seq self <=? MAX_SAFE_INTEGER)) EdgeBounds;
  _ ← ensure (forallb (fun s => is_sha256_hex (so_sha256 s) && is_edge_segment_key tenant_id (so_key s)) sources)
        EdgeSourceKey;
  _ ← ensure (forallb (fun k => is_edge_segment_key tenant_id (sk_key k) && skipped_accounted k) (skipped self))
        EdgeSkippedAccounting;
  source_rows ← of_option (checked_sum (so_rows <$> sources)) EdgeRowOverflow;
  skipped_rows ← of_option (checked_sum (sk_rows <$> skipped self)) EdgeRowOverflow;
  _ ← ensure ((source_rows + skipped_rows <=? u64_max) && (source_rows + skipped_rows =? rows_in self)
              && (rows_rejected self + rows_duplicate self <=? u64_max)
              && (rows_rejected self + rows_duplicate self <=? rows_in self)) EdgeRowAccounting;
  _ ← ensure (is_sha256_hex (prev_chain self) && is_sha256_hex (through_chain self)) EdgeChainMalformed;
  segs ← source_segments sources;
  _ ← ensure (forallb (fun k => is_sha256_hex (sk_sha256 k)) (skipped self)) EdgeSkippedDigest;
  let segments := sort_by seg_leb (segs ++ (skipped_segment <$> skipped self)) in
  let count := through_seq self - first_seq self + 1 in
  _ ← ensure ((Z.of_nat (length segments) =? count) && consecutive (first_seq self) segments) EdgeCover;
  _ ← ensure (match max_list (omap (fun s => edge_log_seq_of_version (so_version s)) sources) with
              | Some m => m =? through_seq self
              | None => true
              end) EdgeLastSource;
  ensure (bool_decide (chain_over (prev_chain self) segments = through_chain self)) EdgeChainMismatch.

Definition follows_point (self : EdgeLogRange) (log : string) (seq : Z) (chain : string) : result EdgeError unit :=
  _ ← ensure (seq + 1 <=? u64_max) EdgeSeqOverflow;
  ensure (bool_decide (el_log self = log) && (first_seq self =? seq + 1)
          && bool_decide (prev_chain self = chain)) EdgeNotContinuing.

Definition follows (self previous : EdgeLogRange) : result EdgeError unit :=
  follows_point self (el_log previous) (through_seq previous) (through_chain previous).
End edge_log.

(** ** Lemmas *)

Section edge_lemmas.
Context `{PL : PlatformLaws}.
Implicit Types (s : Segment) (segs : list Segment).

Lemma consecutive_seqZ f segs : consecutive f segs = true -> sg_seq <$> segs = seqZ f (Z.of_nat (length segs)).
Proof.
  revert f; induction segs as [|s segs IH]; intros f; cbn [consecutive]; [done|].
  intros [E%Z.eqb_eq Hc]%andb_true_iff. rewrite fmap_cons, length_cons, Nat2Z.inj_succ.
  rewrite seqZ_cons by lia. rewrite Z.pred_succ, (IH _ Hc), E. done.
Qed.

(** What a validated range says of each of its segments. *)
Definition seg_wf s : Prop :=
  has_control (sg_key s) = false /\ is_sha256_hex (sg_sha256 s) = true /\ 0 <= sg_seq s /\ 0 <= sg_length s.

Lemma is_sha256_hex_chars v :
  is_sha256_hex v = true -> str_all (fun c => negb (byte_val c =? 10)) v = true.
Proof.
  unfold is_sha256_hex. intros [_ Hv]%andb_true_iff. eapply str_all_impl; [|exact Hv].
  intros c. unfold is_hex_lower, is_digit. destruct (Z.eqb_spec (byte_val c) 10) as [->|]; done.
Qed.

Lemma digits_chars v : str_all is_digit v = true -> str_all (fun c => negb (byte_val c =? 10)) v = true.
Proof.
  apply str_all_impl. intros c. unfold is_digit. destruct (Z.eqb_spec (byte_val c) 10) as [->|]; done.
Qed.

(** No field of a chain line contains the separator, so the line determines its fields. *)
Lemma chain_line_inj p1 p2 s1 s2 :
  is_sha256_hex p1 = true -> is_sha256_hex p2 = true -> seg_wf s1 -> seg_wf s2 ->
  chain_line p1 s1 = chain_line p2 s2 -> p1 = p2 /\ s1 = s2.
Proof.
  intros Hp1 Hp2 (K1 & D1 & Q1 & L1) (K2 & D2 & Q2 & L2). unfold chain_line, newline.
  set (nl := fun c => negb (byte_val c =? 10)).
  assert (nl (ascii_of_N 10) = false) as Hnl by done.
  intros E.
  apply (split_sep_inj nl) in E as [-> E]; [|by apply is_sha256_hex_chars..|done].
  apply (split_sep_inj nl) in E as [Eq E]; [|apply digits_chars, fmt_pad_digits..|done].
  apply (split_sep_inj nl) in E as [Ek E]; [|by apply no_control_no_newline..|done].
  apply (split_sep_inj nl) in E as [Ed El]; [|by apply is_sha256_hex_chars..|done].
  apply to_dec_inj in Eq, El; [|done..]. destruct s1, s2; cbn in *. by subst.
Qed.

Lemma chain_over_hex p segs : is_sha256_hex p = true -> is_sha256_hex (chain_over p segs) = true.
Proof.
  unfold chain_over. revert p; induction segs as [|s segs IH]; intros p Hp; cbn; [done|].
  apply IH. unfold edge_log_next_chain. apply sha256_hex_wf.
Qed.

Lemma chain_over_snoc p segs s : chain_over p (segs ++ [s]) = edge_log_next_chain (chain_over p segs) s.
Proof. unfold chain_over. by rewrite fold_left_app. Qed.

Lemma chain_over_app p segs1 segs2 : chain_over p (segs1 ++ segs2) = chain_over (chain_over p segs1) segs2.
Proof. apply fold_left_app. Qed.

Lemma chain_over_inj p1 p2 segs1 segs2 :
  is_sha256_hex p1 = true -> is_sha256_hex p2 = true -> Forall seg_wf segs1 -> Forall seg_wf segs2 ->
  length segs1 = length segs2 -> chain_over p1 segs1 = chain_over p2 segs2 ->
  (p1 = p2 /\ segs1 = segs2) \/ Collision.
Proof.
  intros Hp1 Hp2. revert segs2; induction segs1 as [|s1 segs1 IH] using rev_ind; intros segs2 W1 W2 Hl E.
  { destruct segs2; [|done]. by left. }
  destruct segs2 as [|s2 segs2 _] using rev_ind; [rewrite length_app in Hl; cbn in Hl; lia|].
  rewrite !length_app in Hl. cbn in Hl. apply Forall_app in W1 as [W1 S1], W2 as [W2 S2].
  rewrite !chain_over_snoc in E. unfold edge_log_next_chain in E.
  apply sha256_hex_inj in E as [E|]; [|by right].
  apply chain_line_inj in E as [E ->]; [|by apply chain_over_hex..|by inversion S1|by inversion S2].
  destruct (IH segs2 W1 W2 ltac:(lia) E) as [[-> ->]|]; [by left|by right].
Qed.

Lemma source_segments_elem sources segs s :
  source_segments sources = Ok segs -> s ∈ segs ->
  exists o, o ∈ sources /\ edge_log_seq_of_version (so_version o) = Some (sg_seq s)
    /\ sg_key s = so_key o /\ sg_sha256 s = so_sha256 o /\ sg_length s = so_bytes o.
Proof.
  revert segs; induction sources as [|o sources IH]; intros segs Hs Hin; cbn in Hs; inv_ok.
  { by apply elem_of_nil in Hin. }
  apply elem_of_cons in Hin as [->|Hin].
  - exists o. cbn. split; [constructor|done].
  - edestruct IH as (o' & ? & ?); [done..|]. exists o'. split; [by constructor|done].
Qed.

Lemma edge_key_no_control t k : is_edge_segment_key t k = true -> has_control k = false.
Proof. unfold is_edge_segment_key. rewrite !andb_true_iff, negb_true_iff. tauto. Qed.
End edge_lemmas.

(** [u64] fields of a range and of its sources. *)
Definition range_typed (r : EdgeLogRange) (sources : list SourceObject) : Prop :=
  in_u64 (first_seq r) /\ in_u64 (through_seq r) /\
  Forall (fun k => in_u64 (sk_length k) /\ in_u64 (sk_rows k)) (skipped r) /\
  Forall (fun s => in_u64 (so_bytes s) /\ in_u64 (so_rows s)) sources.

Lemma checked_sum_acc l a n :
  fold_left (fun acc x => s ← acc; if s + x <=? u64_max then Some (s + x) else None) l (Some a) = Some n ->
  n = a + zsum l.
Proof.
  revert a; induction l as [|x l IH]; intros a; cbn; [intros [= <-]; unfold zsum; cbn; lia|].
  destruct (a + x <=? u64_max); cbn; [intros ->%IH; unfold zsum; cbn; lia|].
  assert (forall l, fold_left (fun acc x => s ← acc; if s + x <=? u64_max then Some (s + x) else None) l None = None) as E
    by (clear; induction l; done).
  by rewrite E.
Qed.

Lemma checked_sum_zsum l n : checked_sum l = Some n -> n = zsum l.
Proof. intros E%checked_sum_acc. lia. Qed.

Section edge_validated.
Context `{PL : PlatformLaws}.

Lemma range_seg_wf r t sources segs0 :
  Forall (fun k => in_u64 (sk_length k) /\ in_u64 (sk_rows k)) (skipped r) ->
  Forall (fun s => in_u64 (so_bytes s) /\ in_u64 (so_rows s)) sources ->
  Forall (fun s => is_sha256_hex (so_sha256 s) = true /\ is_edge_segment_key t (so_key s) = true) sources ->
  Forall (fun k => is_edge_segment_key t (sk_key k) = true /\ is_sha256_hex (sk_sha256 k) = true) (skipped r) ->
  source_segments sources = Ok segs0 ->
  forall s, s ∈ segs0 ++ (skipped_segment <$> skipped r) -> 0 <= sg_seq s -> seg_wf s.
Proof.
  rewrite !Forall_forall. intros Hk Hs Ws Wk Es s Hin Hq. unfold seg_wf.
  apply elem_of_app in Hin as [Hin|(k & -> & Hin)%list_elem_of_fmap].
  - destruct (source_segments_elem _ _ _ Es Hin) as (o & Ho & _ & -> & -> & ->).
    destruct (Ws _ Ho) as [? ?%edge_key_no_control], (Hs _ Ho) as [[? _] _]. done.
  - destruct (Wk _ Hin) as [?%edge_key_no_control ?], (Hk _ Hin) as [[? _] _]. done.
Qed.

(** What a successful [validate] establishes, in one place. *)
Lemma range_validate_inv r t sources :
  range_typed r sources -> range_validate r t sources = Ok () ->
  exists segs, range_segments r sources = Ok segs
    /\ el_log r = edge_log_name t
    /\ sg_seq <$> segs = seqZ (first_seq r) (through_seq r - first_seq r + 1)
    /\ Forall seg_wf segs
    /\ is_sha256_hex (prev_chain r) = true
    /\ chain_over (prev_chain r) segs = through_chain r
    /\ rows_in r = zsum (so_rows <$> sources) + zsum (sk_rows <$> skipped r)
    /\ first_seq r <= through_seq r.
Proof.
  intros (Hf & Ht & Hk & Hs) H'. unfold range_validate in H'. inv_ok. unfold range_segments.
  repeat match goal with
    | H : andb _ _ = true |- _ => apply andb_true_iff in H as [? ?]
    | H : bool_decide _ = true |- _ => apply bool_decide_eq_true in H
    | H : checked_sum _ = Some _ |- _ => apply checked_sum_zsum in H; subst
    | H : forallb _ _ = true |- _ => apply Is_true_true, forallb_True in H
    end.
  match goal with E : source_segments sources = Ok ?l |- _ => rename l into segs0; rename E into Esegs end.
  match goal with E : consecutive _ _ = true |- _ => pose proof (consecutive_seqZ _ _ E) as Hseq end.
  match goal with E : (Z.of_nat (length _) =? _) = true |- _ => apply Z.eqb_eq in E; rewrite E in Hseq end.
  rewrite Esegs. eexists. split; [done|]. split; [done|]. split; [done|]. split; [|split_and!; try done; lia].
  rewrite Forall_forall. intros s Hin. eapply (range_seg_wf r t sources); [done|done| | |done| |].
  - eapply Forall_impl; [eassumption|]. intros o Ho. by apply Is_true_true, andb_true_iff in Ho.
  - rewrite Forall_forall in *. intros k Hkin. split.
    + match goal with H : forall x, x ∈ skipped r -> Is_true (_ && _) |- _ => apply H, Is_true_true, andb_true_iff in Hkin end. tauto.
    + match goal with H : forall x, x ∈ skipped r -> Is_true (is_sha256_hex _) |- _ => by apply H, Is_true_true in Hkin end.
  - by apply elem_of_sort_by in Hin.
  - assert (sg_seq s ∈ sg_seq <$> sort_by seg_leb (segs0 ++ (skipped_segment <$> skipped r))) as Hq
      by (by apply list_elem_of_fmap_2).
    rewrite Hseq in Hq. apply elem_of_seqZ in Hq. unfold in_u64 in Hf. lia.
Qed.
End edge_validated.

(** ** Histories of ranges *)

(** A point of a tenant's chain: log name, sequence, chain value. *)
Definition ChainPoint : Type := string * Z * string.
Definition range_end (r : EdgeLogRange) : ChainPoint := (el_log r, through_seq r, through_chain r).

Section histories.
Context `{PL : PlatformLaws}.

(** Consecutive consumed ranges: each continues the point before it and validates. *)
Fixpoint linked (t : string) (p : ChainPoint) (rs : list (EdgeLogRange * list SourceObject)) : Prop :=
  match rs with
  | [] => True
  | (r, sources) :: rs =>
      range_typed r sources
      /\ follows_point r p.1.1 p.1.2 p.2 = Ok () /\ range_validate r t sources = Ok ()
      /\ linked t (range_end r) rs
  end.

Definition history_end (p : ChainPoint) (rs : list (EdgeLogRange * list SourceObject)) : ChainPoint :=
  match list.last rs with Some (r, _) => range_end r | None => p end.

(** Every segment the history consumed or skipped, in sequence order. *)
Fixpoint history_segments (rs : list (EdgeLogRange * list SourceObject)) : result EdgeError (list Segment) :=
  match rs with
  | [] => Ok []
  | (r, sources) :: rs => segs ← range_segments r sources; rest ← history_segments rs; Ok (segs ++ rest)
  end.

Lemma follows_point_inv r log seq chain :
  follows_point r log seq chain = Ok () <->
  seq + 1 <= u64_max /\ el_log r = log /\ first_seq r = seq + 1 /\ prev_chain r = chain.
Proof.
  unfold follows_point. rewrite bind_ok_inv. split.
  - intros ([] & H1%ensure_ok_inv & H2%ensure_ok_inv).
    rewrite !andb_true_iff, !bool_decide_eq_true, Z.leb_le, Z.eqb_eq in *. tauto.
  - intros (? & ? & ? & ?). exists (). rewrite !ensure_ok_inv, !andb_true_iff, !bool_decide_eq_true, Z.leb_le, Z.eqb_eq. tauto.
Qed.

Lemma history_end_cons p r sources rs : history_end p ((r, sources) :: rs) = history_end (range_end r) rs.
Proof. unfold history_end. destruct rs as [|x rs]; [done|]. rewrite last_cons_cons.
  destruct (list.last (x :: rs)) as [[? ?]|] eqn:E; [done|]. by apply last_None in E.
Qed.

(** A linked history covers its sequence numbers once each and its chain recomputes. *)
Lemma linked_covers t p rs :
  linked t p rs ->
  exists segs, history_segments rs = Ok segs /\ Forall seg_wf segs
    /\ chain_over p.2 segs = (history_end p rs).2
    /\ sg_seq <$> segs = seqZ (p.1.2 + 1) ((history_end p rs).1.2 - p.1.2)
    /\ p.1.2 <= (history_end p rs).1.2
    /\ (rs <> [] -> is_sha256_hex p.2 = true).
Proof.
  revert p; induction rs as [|[r sources] rs IH]; intros [[log seq] chain] Hl.
  { exists []. cbn. rewrite Z.sub_diag. split_and!; done || constructor || lia. }
  destruct Hl as (Hty & Hf & Hv & Hl).
  cbn [fst snd] in Hf. apply follows_point_inv in Hf as (_ & <- & Hfirst & <-).
  destruct (range_validate_inv _ _ _ Hty Hv) as (segs1 & Hs1 & _ & Hq1 & Hw1 & Hp1 & Hc1 & _ & Hle).
  destruct (IH _ Hl) as (segs2 & Hs2 & Hw2 & Hc2 & Hq2 & Hle2 & _).
  rewrite history_end_cons. exists (segs1 ++ segs2). cbn [history_segments].
  rewrite Hs1. cbn. rewrite Hs2. cbn in *.
  split; [done|]. split; [by apply Forall_app|]. split; [by rewrite chain_over_app, Hc1|].
  split; [|split; [lia|done]].
  rewrite fmap_app, Hq1, Hq2, Hfirst.
  replace (through_seq r - (seq + 1) + 1) with (through_seq r - seq) by lia.
  replace ((history_end (range_end r) rs).1.2 - seq)
    with ((through_seq r - seq) + ((history_end (range_end r) rs).1.2 - through_seq r)) by lia.
  rewrite seqZ_app by lia. do 2 f_equal; lia.
Qed.

(** The edge-log chain binds the history. Two linked histories of validated ranges
    that start from one point and end at one sequence number with one chain value
    consumed exactly the same segments (sequence, key, digest, length), in order and
    without a gap or an insertion; otherwise they exhibit a SHA-256 collision. *)
Theorem edge_history_unique t p rs1 rs2 :
  linked t p rs1 -> linked t p rs2 ->
  (history_end p rs1).1.2 = (history_end p rs2).1.2 -> (history_end p rs1).2 = (history_end p rs2).2 ->
  is_sha256_hex p.2 = true ->
  (exists segs, history_segments rs1 = Ok segs /\ history_segments rs2 = Ok segs
     /\ sg_seq <$> segs = seqZ (p.1.2 + 1) ((history_end p rs1).1.2 - p.1.2))
  \/ Collision.
Proof.
  intros H1 H2 Eq Ec Hp.
  destruct (linked_covers _ _ _ H1) as (s1 & E1 & W1 & C1 & Q1 & L1 & _).
  destruct (linked_covers _ _ _ H2) as (s2 & E2 & W2 & C2 & Q2 & L2 & _).
  assert (length s1 = length s2) as El.
  { apply (f_equal length) in Q1, Q2. rewrite length_fmap, length_seqZ in Q1, Q2. congruence. }
  rewrite <- C1, <- C2 in Ec.
  destruct (chain_over_inj _ _ _ _ Hp Hp W1 W2 El Ec) as [[_ ->]|]; [|by right].
  left. exists s2. by rewrite <- Eq in Q2.
Qed.

(** A range only continues its predecessor, never skips or rewinds: [follows_point]
    accepts exactly the ranges that name the same log, start one past the point and carry
    its chain value. *)
Theorem follows_point_exact r log seq chain :
  in_u64 seq ->
  follows_point r log seq chain =
    (if seq =? u64_max then Err EdgeSeqOverflow
     else if decide (el_log r = log /\ first_seq r = seq + 1 /\ prev_chain r = chain)
     then Ok () else Err EdgeNotContinuing).
Proof.
  unfold in_u64. intros Hs. destruct (follows_point r log seq chain) as [[]|e] eqn:E.
  - apply follows_point_inv in E as (? & ? & ? & ?).
    destruct (Z.eqb_spec seq u64_max); [lia|]. by rewrite decide_True.
  - unfold follows_point in E. destruct (Z.leb_spec (seq + 1) u64_max); cbn in E.
    + destruct (Z.eqb_spec seq u64_max); [lia|]. rewrite decide_False.
      * destruct (_ && _) in E; cbn in E; congruence.
      * intros (H1 & H2 & H3). rewrite !bool_decide_true, (proj2 (Z.eqb_eq _ _) H2) in E by done. done.
    + destruct (Z.eqb_spec seq u64_max); [congruence|lia].
Qed.
End histories.

Lemma follows_point_exact_witness :
  in_u64 7 /\ forall r, follows_point r "edgelog:t" 7 "c" =
      (if 7 =? u64_max then Err EdgeSeqOverflow
       else if decide (el_log r = "edgelog:t" /\ first_seq r = 7 + 1 /\ prev_chain r = "c")
       then Ok () else Err EdgeNotContinuing).
Proof.
  split; [split; unfold u64_max; lia|]. intros r. apply follows_point_exact. split; unfold u64_max; lia.
Defined.

(** ** A concrete history of two ranges, the second with a skipped segment *)
Module EdgeExample.
Import ToyPlatform.

Definition source (seq : Z) (file : string) : SourceObject :=
  {| so_key := "bronze-v2/shard=0/tenant_id=acme/" +:+ file;
     so_version := EDGE_LOG_VERSION_PREFIX +:+ to_dec seq; so_bytes := 100 + seq;
     so_sha256 := sha256_hex file; so_rows := 5; so_edge_sha256 := None |}.
Definition seg (seq : Z) (file : string) : Segment :=
  {| sg_seq := seq; sg_key := so_key (source seq file); sg_sha256 := sha256_hex file; sg_length := 100 + seq |}.

Definition genesis : string := edge_log_genesis "acme".
Definition c1 : string := chain_over genesis [seg 1 "a"].
Definition c3 : string := chain_over c1 [seg 2 "b"; seg 3 "c"].

Definition r1 : EdgeLogRange := {|
  el_log := edge_log_name "acme"; el_contract := EDGE_LOG_CONTRACT; first_seq := 1; through_seq := 1;
  prev_chain := genesis; through_chain := c1; skipped := [];
  rows_in := 5; rows_rejected := 0; rows_duplicate := 0 |}.
Definition r2 : EdgeLogRange := {|
  el_log := edge_log_name "acme"; el_contract := EDGE_LOG_CONTRACT; first_seq := 2; through_seq := 3;
  prev_chain := c1; through_chain := c3;
  skipped := [{| sk_seq := 2; sk_key := so_key (source 2 "b"); sk_sha256 := sha256_hex "b"; sk_length := 102;
                 sk_reason := ConsumedWithoutRows; sk_rows := 4; sk_rows_rejected := 1; sk_rows_duplicate := 3 |}];
  rows_in := 9; rows_rejected := 1; rows_duplicate := 3 |}.

Definition start : ChainPoint := (edge_log_name "acme", 0, genesis).
Definition hist : list (EdgeLogRange * list SourceObject) := [(r1, [source 1 "a"]); (r2, [source 3 "c"])].

Lemma hist_linked : linked "acme" start hist.
Proof.
  split; [|split; [vm_compute; reflexivity|split; [vm_compute; reflexivity|]]].
  { unfold range_typed, in_u64, u64_max; cbn. repeat constructor; cbn; lia. }
  split; [|split; [vm_compute; reflexivity|split; [vm_compute; reflexivity|done]]].
  unfold range_typed, in_u64, u64_max; cbn. repeat constructor; cbn; lia.
Qed.
End EdgeExample.

Lemma edge_history_unique_witness :
  let _ := ToyPlatform.toy in
  (exists segs, history_segments EdgeExample.hist = Ok segs /\ history_segments EdgeExample.hist = Ok segs
     /\ sg_seq <$> segs = seqZ (EdgeExample.start.1.2 + 1)
          ((history_end EdgeExample.start EdgeExample.hist).1.2 - EdgeExample.start.1.2))
  \/ Collision.
Proof.
  intros p. apply (edge_history_unique (PL := ToyPlatform.toy_laws) "acme" EdgeExample.start EdgeExample.hist EdgeExample.hist);
    [apply EdgeExample.hist_linked|apply EdgeExample.hist_linked|reflexivity|reflexivity|vm_compute; reflexivity].
Defined.
