(* ===== verification/PartTypes.v ===== *)
(** * PartTypes: part references, log operations, entries and checkpoints

    The data of [parts/part_log.rs]: [PartRef], [SourceRef], [Rejection], [LogSchema],
    [LogOp], [LogEntry], [Checkpoint] and [EdgePoint], with the checks each type carries. *)
From S2P Require Import Prelude ReadSchema Platform Format EdgeLog.

Inductive LogError :=
(* PartRef::validate *)
| RefRequestHours | RefBounds | RefDigest | RefDayBinding
(* LogSchema::to_arrow *)
| SchemaBase64 | SchemaDecode | SchemaFingerprintFailed (e : Arrow.ReadError) | SchemaFingerprintMismatch
(* LiveSet *)
| ChainBroken | EpochRegresses | OutsideIdMemory | AddedTwice | NotLive
| GenesisAfterZero | MustBeGenesis | AddEmpty | AddWithoutEdge | EdgeOtherTenant | NonL0Part
| SupersedesNothing | FloorMalformed | FloorBackwards | FloorAfterEnd
| RejectCount | RejectMalformed | EndMalformed | EndOutsideEdge | EndNotAtPoint
| RetireEmpty | AdoptEmpty | AdoptLevel | AdoptSorted | EdgeRange (e : EdgeError)
(* Checkpoint *)
| CheckpointRepeats | CheckpointEmptyLog | CheckpointNoSchema
(* writer guard *)
| DoubleConsume (key : string).

#[export] Instance LogError_eq_dec : EqDecision LogError.
Proof. solve_decision. Defined.

(** What a planner needs about a live part without fetching its record. *)
Record PartRef := {
  request_hours : option RequestHours;
  part_id : PartId;
  level : Level;
  event_hour : Z;
  event_day : option Z;
  rows : Z;
  min_time_us : Z;
  max_time_us : Z;
  schema_fingerprint : string;
  provenance_sha256 : string;
  merkle_root : string;
  sorted : bool;
  data_bytes : Z;
  row_groups : Z;
  data_files : Z }.

#[export] Instance PartRef_eq_dec : EqDecision PartRef.
Proof. solve_decision. Defined.

Definition PartRef_validate (self : PartRef) : result LogError unit :=
  _ ← ensure (match request_hours self with Some hours => hours_valid hours | None => true end) RefRequestHours;
  _ ← ensure (negb ((rows self =? 0) || (max_time_us self <? min_time_us self)
                    || (row_groups self =? 0) || (data_files self =? 0))) RefBounds;
  _ ← ensure (forallb is_sha256_hex [schema_fingerprint self; provenance_sha256 self; merkle_root self]) RefDigest;
  ensure (Bool.eqb (bool_decide (level self = Day)) (bool_decide (is_Some (event_day self)))) RefDayBinding.

(** True when the part's rows may intersect [[from_us, to_us]]. *)
Definition overlaps (self : PartRef) (from_us to_us : Z) : bool :=
  (min_time_us self <=? to_us) && (from_us <=? max_time_us self).

(** One consumed source object. *)
Record SourceRef := { sr_key : string; sr_version : string; sr_sha256 : string }.

#[export] Instance SourceRef_eq_dec : EqDecision SourceRef.
Proof. solve_decision. Defined.

(** One refused source object or its refused rows. *)
Record Rejection := {
  rj_source : SourceRef; rj_scope : string; rj_rows_rejected : Z; rj_reason : string; rj_detail : string }.

#[export] Instance Rejection_eq_dec : EqDecision Rejection.
Proof. solve_decision. Defined.

(** A finding add: every source is an immutable receipt under this tenant's prefix. *)
Definition finding_receipts_only (tenant_id : string) (sources : list SourceRef) : bool :=
  let prefix := "lake/parts/v1/tenant=" +:+ tenant_id +:+ "/finding-outbox/receipts/" in
  negb (bool_decide (sources = []))
  && forallb (fun source =>
       bool_decide (sr_version source = "nano.finding-outbox-receipt.v1")
       && is_sha256_hex (sr_sha256 source)
       && bool_decide (sr_key source = prefix +:+ sr_sha256 source +:+ ".json")) sources.

Definition QUARANTINE_REPLAY_VERSION : string := "nano.bronze-quarantine-replay.v1".
Definition quarantine_replay_key (tenant_id sha256 : string) : string :=
  "bronze-quarantine/tenant_id=" +:+ tenant_id +:+ "/" +:+ sha256 +:+ ".parquet".

(** An operator replay of quarantined bronze objects of this tenant. *)
Definition quarantine_replays_only (tenant_id : string) (sources : list SourceRef) : bool :=
  negb (bool_decide (sources = []))
  && forallb (fun source =>
       bool_decide (sr_version source = QUARANTINE_REPLAY_VERSION)
       && is_sha256_hex (sr_sha256 source)
       && bool_decide (sr_key source = quarantine_replay_key tenant_id (sr_sha256 source))) sources.

Inductive RetireReason := Retention | Erasure.

#[export] Instance RetireReason_eq_dec : EqDecision RetireReason.
Proof. solve_decision. Defined.

Record LogSchema := { parquet_base64 : string; fingerprint : string }.

#[export] Instance LogSchema_eq_dec : EqDecision LogSchema.
Proof. solve_decision. Defined.

(** [LogSchema::to_arrow]: decode, and check the fingerprint of what was decoded. *)
Definition to_arrow `{Platform} (self : LogSchema) : result LogError Arrow.Schema :=
  bytes ← of_option (base64_decode (parquet_base64 self)) SchemaBase64;
  schema ← of_option (parquet_arrow_schema bytes) SchemaDecode;
  digest ← map_err SchemaFingerprintFailed (arrow_fingerprint schema);
  _ ← ensure (bool_decide (digest = fingerprint self)) SchemaFingerprintMismatch;
  Ok schema.

Inductive LogOp :=
| Genesis (schema : LogSchema)
| Schema (schema : LogSchema)
| Add (parts : list PartRef) (consumed : list SourceRef) (edge_log : option EdgeLogRange)
| EdgeFloor (through_seq : Z) (through_chain : string) (reason : string)
| Reject (rejections : list Rejection)
| EdgeEnd (through_seq : Z) (through_chain : string) (reason : string)
| Merge (output : PartRef) (supersedes : list PartId)
| Retire (parts : list PartId) (reason : RetireReason) (deletion_unit : string)
| Rewrite (output : PartRef) (supersedes : list PartId) (deletion_unit : string)
| Adopt (parts : list PartRef).

#[export] Instance LogOp_eq_dec : EqDecision LogOp.
Proof. solve_decision. Defined.

Record LogEntry := {
  format : string; tenant_id : string; seq : Z; prev_sha256 : string; writer_epoch : Z;
  appended_at_ms : Z; op : LogOp }.

#[export] Instance LogEntry_eq_dec : EqDecision LogEntry.
Proof. solve_decision. Defined.

(** A point on a tenant's edge-log chain. *)
Record EdgePoint := { ep_log : string; ep_seq : Z; ep_chain : string }.

#[export] Instance EdgePoint_eq_dec : EqDecision EdgePoint.
Proof. solve_decision. Defined.

(** The live set and schema at entry [cp_seq]. *)
Record Checkpoint := {
  cp_format : string; cp_tenant_id : string; cp_seq : Z; cp_entry_sha256 : string; cp_writer_epoch : Z;
  cp_schema : LogSchema; cp_live : list PartRef; cp_edge_log : option EdgePoint;
  cp_edge_ended : option EdgePoint }.

#[export] Instance Checkpoint_eq_dec : EqDecision Checkpoint.
Proof. solve_decision. Defined.

Definition LOG_FORMAT : string := "nano.part-log.v1".
Definition CHECKPOINT_FORMAT : string := "nano.part-log-checkpoint.v1".
Definition CHECKPOINT_EVERY : Z := 1024.
Definition MAX_ENTRY_BYTES : Z := MAX_LOG_OBJECT_BYTES.
Definition MAX_CHECKPOINT_BYTES : Z := MAX_LOG_OBJECT_BYTES.
Definition ID_MEMORY_MS : Z := 48 * 3600000.
Definition GENESIS_PREV : string := "0000000000000000000000000000000000000000000000000000000000000000".

(** The edge-log consumer's commit must never move backwards. *)
Definition check_edge_commit_monotonic (last_committed next : Z) : bool := negb (next <? last_committed).
