(* ===== verification/LiveSet.v ===== *)
(** * LiveSet: the live part set folded from the log

    Models [LiveSet] of [parts/part_log.rs]: the journaled mutations ([Undo]), [apply] with
    its rollback, the id-memory pruning, checkpoints, the writer's double-consume guard and
    the lake-part GC's hydrated working set. *)
From S2P Require Import Prelude Platform Format EdgeLog PartTypes.

(** [consumed] is keyed by the 16-byte source identity, kept here as its 32 hex digits. *)
Record LiveSet := mk_live_set {
  live : gmap PartId PartRef;
  seen : gset PartId;
  removed : gmap PartId (Z * Z);
  removed_refs : gmap PartId PartRef;
  added_at : gmap PartId Z;
  schema : option LogSchema;
  head : option (Z * string * Z);
  edge : option EdgePoint;
  edge_ended : option EdgePoint;
  consumed : gmap string Z }.

Definition empty_set : LiveSet := mk_live_set ∅ ∅ ∅ ∅ ∅ None None None None ∅.

(** Field updates. *)
Definition with_live (f : gmap PartId PartRef -> gmap PartId PartRef) (s : LiveSet) : LiveSet :=
  mk_live_set (f (live s)) (seen s) (removed s) (removed_refs s) (added_at s) (schema s) (head s) (edge s) (edge_ended s) (consumed s).
Definition with_seen (f : gset PartId -> gset PartId) (s : LiveSet) : LiveSet :=
  mk_live_set (live s) (f (seen s)) (removed s) (removed_refs s) (added_at s) (schema s) (head s) (edge s) (edge_ended s) (consumed s).
Definition with_removed (f : gmap PartId (Z * Z) -> gmap PartId (Z * Z)) (s : LiveSet) : LiveSet :=
  mk_live_set (live s) (seen s) (f (removed s)) (removed_refs s) (added_at s) (schema s) (head s) (edge s) (edge_ended s) (consumed s).
Definition with_removed_refs (f : gmap PartId PartRef -> gmap PartId PartRef) (s : LiveSet) : LiveSet :=
  mk_live_set (live s) (seen s) (removed s) (f (removed_refs s)) (added_at s) (schema s) (head s) (edge s) (edge_ended s) (consumed s).
Definition with_added_at (f : gmap PartId Z -> gmap PartId Z) (s : LiveSet) : LiveSet :=
  mk_live_set (live s) (seen s) (removed s) (removed_refs s) (f (added_at s)) (schema s) (head s) (edge s) (edge_ended s) (consumed s).
Definition with_consumed (f : gmap string Z -> gmap string Z) (s : LiveSet) : LiveSet :=
  mk_live_set (live s) (seen s) (removed s) (removed_refs s) (added_at s) (schema s) (head s) (edge s) (edge_ended s) (f (consumed s)).
Definition with_schema (v : option LogSchema) (s : LiveSet) : LiveSet :=
  mk_live_set (live s) (seen s) (removed s) (removed_refs s) (added_at s) v (head s) (edge s) (edge_ended s) (consumed s).
Definition with_head (v : option (Z * string * Z)) (s : LiveSet) : LiveSet :=
  mk_live_set (live s) (seen s) (removed s) (removed_refs s) (added_at s) (schema s) v (edge s) (edge_ended s) (consumed s).
Definition with_edge (v : option EdgePoint) (s : LiveSet) : LiveSet :=
  mk_live_set (live s) (seen s) (removed s) (removed_refs s) (added_at s) (schema s) (head s) v (edge_ended s) (consumed s).
Definition with_edge_ended (v : option EdgePoint) (s : LiveSet) : LiveSet :=
  mk_live_set (live s) (seen s) (removed s) (removed_refs s) (added_at s) (schema s) (head s) (edge s) v (consumed s).

(** One mutation [apply] made, so a refused entry can be undone. *)
Inductive Undo :=
| USeen (id : PartId)
| ULive (id : PartId) (previous : option PartRef)
| UUnlive (id : PartId) (part : PartRef)
| UAddedAt (id : PartId) (previous : option Z)
| URemoved (id : PartId) (previous : option (Z * Z))
| URemovedRef (id : PartId) (previous : option PartRef)
| UConsumed (id : string) (previous : option Z).

(** Computations over the set and its journal. An error keeps the mutations made so far,
    as in the source, where [apply] must roll them back. *)
Definition Journaled : Type := LiveSet * list Undo.
Definition JM (A : Type) : Type := Journaled -> Journaled * result LogError A.

#[export] Instance JM_ret : MRet JM := fun A a j => (j, Ok a).
#[export] Instance JM_bind : MBind JM := fun A B k m j =>
  match m j with (j', Ok a) => k a j' | (j', Err e) => (j', Err e) end.

Definition lift {A} (r : result LogError A) : JM A := fun j => (j, r).
Definition gets {A} (f : LiveSet -> A) : JM A := fun j => (j, Ok (f j.1)).
Definition modify (f : LiveSet -> LiveSet) : JM unit := fun j => ((f j.1, j.2), Ok ()).
(** [undo.push(u)] *)
Definition push_undo (u : Undo) : JM unit := fun j => ((j.1, j.2 ++ [u]), Ok ()).
Fixpoint for_each {X} (f : X -> JM unit) (l : list X) : JM unit :=
  match l with [] => mret () | x :: l => _ ← f x; for_each f l end.

Section live_set.
Context `{Platform}.

Definition source_identity (source : SourceRef) : string :=
  str_take 32 (sha256_hex (sr_key source +:+ String "000" EmptyString +:+ sr_version source
                           +:+ String "000" EmptyString +:+ sr_sha256 source)).

(** [LiveSet::add] *)
Definition add_part (part : PartRef) (at_ms : Z) : JM unit :=
  _ ← lift (PartRef_validate part);
  _ ← lift (ensure (negb (created_unix_ms (part_id part) <? sat_i64 (at_ms - ID_MEMORY_MS))) OutsideIdMemory);
  known ← gets (fun s => bool_decide (part_id part ∈ seen s));
  _ ← lift (ensure (negb known) AddedTwice);
  _ ← modify (with_seen (fun m => {[part_id part]} ∪ m));
  _ ← push_undo (USeen (part_id part));
  previous ← gets (fun s => live s !! part_id part);
  _ ← modify (with_live <[part_id part := part]>);
  _ ← push_undo (ULive (part_id part) previous);
  previous ← gets (fun s => added_at s !! part_id part);
  _ ← modify (with_added_at <[part_id part := at_ms]>);
  push_undo (UAddedAt (part_id part) previous).

(** [LiveSet::remove] *)
Definition remove_part (id : PartId) (seq at_ms : Z) : JM unit :=
  found ← gets (fun s => live s !! id);
  part ← lift (of_option found NotLive);
  _ ← modify (with_live (delete id));
  previous ← gets (fun s => removed_refs s !! id);
  _ ← modify (with_removed_refs <[id := part]>);
  _ ← push_undo (UUnlive id part);
  _ ← push_undo (URemovedRef id previous);
  previous ← gets (fun s => removed s !! id);
  _ ← modify (with_removed <[id := (seq, at_ms)]>);
  push_undo (URemoved id previous).

(** [LiveSet::consume] *)
Definition consume (at_ms : Z) (source : SourceRef) : JM unit :=
  let id := source_identity source in
  previous ← gets (fun s => consumed s !! id);
  _ ← modify (with_consumed <[id := at_ms]>);
  push_undo (UConsumed id previous).

Definition restore {K V} `{Countable K} (key : K) (previous : option V) (m : gmap K V) : gmap K V :=
  match previous with Some value => <[key := value]> m | None => delete key m end.

Definition undo_step (s : LiveSet) (u : Undo) : LiveSet :=
  match u with
  | USeen id => with_seen (fun m => m ∖ {[id]}) s
  | ULive id previous => with_live (restore id previous) s
  | UUnlive id part => with_live <[id := part]> s
  | UAddedAt id previous => with_added_at (restore id previous) s
  | URemoved id previous => with_removed (restore id previous) s
  | URemovedRef id previous => with_removed_refs (restore id previous) s
  | UConsumed id previous => with_consumed (restore id previous) s
  end.

(** [LiveSet::rollback]: newest first. *)
Definition rollback (s : LiveSet) (undo : list Undo) : LiveSet := fold_left undo_step (rev undo) s.
End live_set.

Section apply.
Context `{Platform}.

Definition edge_err {A} (r : result EdgeError A) : result LogError A :=
  match r with Ok a => Ok a | Err e => Err (EdgeRange e) end.

(** The edge-log rule of an [add]: continue the current point, the point edge mode ended
    at, or genesis; without a range, only finding receipts and quarantine replays. *)
Definition check_edge (tenant_id : string) (consumed : list SourceRef) (edge_log : option EdgeLogRange)
    (edge edge_ended : option EdgePoint) : result LogError unit :=
  match edge_log, edge with
  | Some range, Some point => edge_err (follows_point range (ep_log point) (ep_seq point) (ep_chain point))
  | Some range, None =>
      match edge_ended with
      | Some ended => edge_err (follows_point range (ep_log ended) (ep_seq ended) (ep_chain ended))
      | None => edge_err (follows_point range (edge_log_name tenant_id) 0 (edge_log_genesis tenant_id))
      end
  | None, Some _ =>
      ensure (negb (negb (finding_receipts_only tenant_id consumed)
                    && negb (quarantine_replays_only tenant_id consumed))) AddWithoutEdge
  | None, None => Ok ()
  end.

Definition rejection_ok (r : Rejection) : bool :=
  bool_decide (rj_scope r ∈ ["object"; "rows"])
  && bool_decide (rj_reason r ∈ ["admission_invalid"; "shape_drift"; "int_truncation"; "digest_mismatch"; "missing"])
  && (str_len (rj_detail r) <=? 512)
  && is_sha256_hex (sr_sha256 (rj_source r))
  && (bool_decide (rj_scope r = "object") || (0 <? rj_rows_rejected r)).

(** [is_sha256_hex(chain) && !reason.is_empty() && reason.len() <= 256] *)
Definition edge_note_ok (chain reason : string) : bool :=
  is_sha256_hex chain && negb (str_len reason =? 0) && negb (256 <? str_len reason).

Definition set_schema_op (schema : LogSchema) : JM unit :=
  _ ← lift (to_arrow schema);
  modify (with_schema (Some schema)).

Definition apply_add (entry : LogEntry) (parts : list PartRef) (consumed : list SourceRef)
    (edge_log : option EdgeLogRange) : JM unit :=
  _ ← lift (ensure (negb (bool_decide (parts = []) || bool_decide (consumed = []))) AddEmpty);
  '(point, ended) ← gets (fun s => (edge s, edge_ended s));
  _ ← lift (check_edge (tenant_id entry) consumed edge_log point ended);
  _ ← match edge_log with
      | Some range =>
          _ ← lift (ensure (bool_decide (el_log range = edge_log_name (tenant_id entry))) EdgeOtherTenant);
          modify (with_edge (Some {| ep_log := el_log range; ep_seq := through_seq range;
                                     ep_chain := through_chain range |}))
      | None => mret ()
      end;
  _ ← for_each (fun part =>
        _ ← lift (ensure (bool_decide (level part = L0) && sorted part) NonL0Part);
        add_part part (appended_at_ms entry)) parts;
  for_each (consume (appended_at_ms entry)) consumed.

Definition apply_supersede (entry : LogEntry) (output : PartRef) (supersedes : list PartId) : JM unit :=
  _ ← lift (ensure (negb (bool_decide (supersedes = []))) SupersedesNothing);
  _ ← for_each (fun id => remove_part id (seq entry) (appended_at_ms entry)) supersedes;
  add_part output (appended_at_ms entry).

Definition apply_floor (entry : LogEntry) (through_seq : Z) (through_chain reason : string) : JM unit :=
  _ ← lift (ensure (edge_note_ok through_chain reason) FloorMalformed);
  '(point, ended) ← gets (fun s => (edge s, edge_ended s));
  _ ← lift (ensure (match point with Some p => negb (through_seq <? ep_seq p) | None => true end) FloorBackwards);
  _ ← lift (ensure (negb (bool_decide (point = None) && bool_decide (is_Some ended))) FloorAfterEnd);
  modify (with_edge (Some {| ep_log := edge_log_name (tenant_id entry); ep_seq := through_seq;
                             ep_chain := through_chain |})).

Definition apply_end (through_seq : Z) (through_chain reason : string) : JM unit :=
  _ ← lift (ensure (edge_note_ok through_chain reason) EndMalformed);
  taken ← gets edge;
  _ ← modify (with_edge None);
  point ← lift (of_option taken EndOutsideEdge);
  _ ← lift (ensure ((ep_seq point =? through_seq) && bool_decide (ep_chain point = through_chain)) EndNotAtPoint);
  modify (with_edge_ended (Some point)).

Definition apply_adopt (entry : LogEntry) (parts : list PartRef) : JM unit :=
  _ ← lift (ensure (negb (bool_decide (parts = []))) AdoptEmpty);
  for_each (fun part =>
    _ ← lift (ensure (bool_decide (level part = Hour) || bool_decide (level part = Day)) AdoptLevel);
    _ ← lift (ensure (negb (sorted part)) AdoptSorted);
    add_part part (appended_at_ms entry)) parts.

(** [LiveSet::apply_op]: the op of one entry, journaled. *)
Definition apply_op (entry : LogEntry) : JM unit :=
  match op entry with
  | Genesis schema => if seq entry =? 0 then set_schema_op schema else lift (Err GenesisAfterZero)
  | operation =>
      if seq entry =? 0 then lift (Err MustBeGenesis) else
      match operation with
      | Genesis _ => lift (Err GenesisAfterZero)
      | Schema schema => set_schema_op schema
      | Add parts consumed edge_log => apply_add entry parts consumed edge_log
      | Merge output supersedes | Rewrite output supersedes _ => apply_supersede entry output supersedes
      | EdgeFloor s c r => apply_floor entry s c r
      | Reject rejections =>
          _ ← lift (ensure (negb (bool_decide (rejections = []) || (1000 <? Z.of_nat (length rejections)))) RejectCount);
          lift (ensure (forallb rejection_ok rejections) RejectMalformed)
      | EdgeEnd s c r => apply_end s c r
      | Retire parts _ _ =>
          _ ← lift (ensure (negb (bool_decide (parts = []))) RetireEmpty);
          for_each (fun id => remove_part id (seq entry) (appended_at_ms entry)) parts
      | Adopt parts => apply_adopt entry parts
      end
  end.

(** [BTreeSet::first] *)
Definition first_seen (s : LiveSet) : option PartId := list.head (sort_by pid_leb (elements (seen s))).

(** Forget ids, removals and consumptions older than the id memory. *)
Definition prune (horizon : Z) (s : LiveSet) : LiveSet :=
  match first_seen s with
  | Some id =>
      if created_unix_ms id <? horizon then
        let removed' := filter (fun kv => horizon <= kv.2.2) (removed s) in
        mk_live_set (live s)
          (filter (fun id => horizon <= created_unix_ms id \/ is_Some (live s !! id)) (seen s))
          removed'
          (filter (fun kv => is_Some (removed' !! kv.1)) (removed_refs s))
          (filter (fun kv => is_Some (live s !! kv.1)) (added_at s))
          (schema s) (head s) (edge s) (edge_ended s)
          (filter (fun kv => horizon <= kv.2) (consumed s))
      else s
  | None => s
  end.

Definition expected_seq (hd : option (Z * string * Z)) : Z :=
  match hd with Some (s, _, _) => wrap_u64 (s + 1) | None => 0 end.
Definition expected_prev (hd : option (Z * string * Z)) : string :=
  match hd with Some (_, sha, _) => sha | None => GENESIS_PREV end.
Definition min_epoch (hd : option (Z * string * Z)) : Z :=
  match hd with Some (_, _, epoch) => epoch | None => 0 end.

(** The chain check shared by every reader of the log. *)
Definition check_chain (hd : option (Z * string * Z)) (entry : LogEntry) : result LogError unit :=
  _ ← ensure ((seq entry =? expected_seq hd) && bool_decide (prev_sha256 entry = expected_prev hd)) ChainBroken;
  ensure (negb (writer_epoch entry <? min_epoch hd)) EpochRegresses.

(** [LiveSet::apply]: the set after the call, and its result. *)
Definition apply (s : LiveSet) (entry : LogEntry) (entry_sha256 : string) : LiveSet * result LogError unit :=
  match check_chain (head s) entry with
  | Err e => (s, Err e)
  | Ok _ =>
      match apply_op entry (s, []) with
      | ((s', undo), Err e) =>
          let r := rollback s' undo in
          (with_edge_ended (edge_ended s) (with_edge (edge s) (with_schema (schema s) r)), Err e)
      | ((s', _), Ok _) =>
          let s'' := with_head (Some (seq entry, entry_sha256, writer_epoch entry)) s' in
          (prune (sat_i64 (appended_at_ms entry - ID_MEMORY_MS)) s'', Ok ())
      end
  end.

(** Successful [apply], the form most proofs use. *)
Definition applies (s : LiveSet) (entry : LogEntry) (sha : string) (s' : LiveSet) : Prop :=
  apply s entry sha = (s', Ok ()).
End apply.

(** ** Closed forms of the journaled mutations *)

Definition added (part : PartRef) (at_ms : Z) (s : LiveSet) : LiveSet :=
  with_added_at <[part_id part := at_ms]>
    (with_live <[part_id part := part]> (with_seen (fun m => {[part_id part]} ∪ m) s)).
Definition taken (id : PartId) (part : PartRef) (seq at_ms : Z) (s : LiveSet) : LiveSet :=
  with_removed <[id := (seq, at_ms)]> (with_removed_refs <[id := part]> (with_live (delete id) s)).

Definition add_guard (part : PartRef) (at_ms : Z) (s : LiveSet) : result LogError unit :=
  _ ← PartRef_validate part;
  _ ← ensure (negb (created_unix_ms (part_id part) <? sat_i64 (at_ms - ID_MEMORY_MS))) OutsideIdMemory;
  ensure (negb (bool_decide (part_id part ∈ seen s))) AddedTwice.

Section closed_forms.
Context `{Platform}.
Implicit Types (s : LiveSet) (u : list Undo).

Lemma bind_JM {A B} (m : JM A) (k : A -> JM B) j :
  (m ≫= k) j = match m j with (j', Ok a) => k a j' | (j', Err e) => (j', Err e) end.
Proof. done. Qed.

Lemma add_part_eq part at_ms s u :
  add_part part at_ms (s, u) =
    match add_guard part at_ms s with
    | Ok _ => ((added part at_ms s,
                u ++ [USeen (part_id part); ULive (part_id part) (live s !! part_id part);
                      UAddedAt (part_id part) (added_at s !! part_id part)]), Ok ())
    | Err e => ((s, u), Err e)
    end.
Proof.
  unfold add_part, add_guard. rewrite bind_JM. unfold lift at 1.
  destruct (PartRef_validate part) as [[]|e]; [|done]. cbn [mbind result_bind].
  rewrite bind_JM. unfold lift at 1.
  destruct (ensure (negb (_ <? _)) _) as [[]|e]; [|done]. cbn [mbind result_bind].
  rewrite bind_JM. cbn [gets]. rewrite bind_JM. unfold lift at 1.
  destruct (ensure (negb (bool_decide _)) _) as [[]|e]; [|done].
  unfold mbind, JM_bind, gets, modify, push_undo. cbn. by rewrite <- !app_assoc.
Qed.

Lemma remove_part_eq id seq at_ms s u :
  remove_part id seq at_ms (s, u) =
    match live s !! id with
    | Some part => ((taken id part seq at_ms s,
                     u ++ [UUnlive id part; URemovedRef id (removed_refs s !! id);
                           URemoved id (removed s !! id)]), Ok ())
    | None => ((s, u), Err NotLive)
    end.
Proof.
  unfold remove_part. rewrite bind_JM. cbn [gets]. rewrite bind_JM. unfold lift. cbn [fst].
  destruct (live s !! id) as [part|]; [|done]. unfold mbind, JM_bind, gets, modify, push_undo. cbn. by rewrite <- !app_assoc.
Qed.

Lemma consume_eq at_ms source s u :
  consume at_ms source (s, u) =
    ((with_consumed <[source_identity source := at_ms]> s,
      u ++ [UConsumed (source_identity source) (consumed s !! source_identity source)]), Ok ()).
Proof. done. Qed.

(** ** Undo *)

(** The part of the set the journal covers. *)
Definition same_core (a b : LiveSet) : Prop :=
  live a = live b /\ seen a = seen b /\ removed a = removed b /\ removed_refs a = removed_refs b
  /\ added_at a = added_at b /\ consumed a = consumed b /\ head a = head b.

#[local] Instance same_core_equiv : Equivalence same_core.
Proof. split; red; unfold same_core; intros; intuition congruence. Qed.

#[local] Instance undo_step_proper : Proper (same_core ==> eq ==> same_core) undo_step.
Proof.
  intros a b Hab u u' <-. destruct u; unfold same_core in *; cbn; intuition congruence.
Qed.

#[local] Instance rollback_proper : Proper (same_core ==> eq ==> same_core) rollback.
Proof.
  intros a b Hab u u' <-. unfold rollback. generalize (rev u) as l. intros l.
  revert a b Hab; induction l as [|x l IH]; intros a b Hab; cbn; [done|]. apply IH. by rewrite Hab.
Qed.

Lemma rollback_app s u v : rollback s (u ++ v) = rollback (rollback s v) u.
Proof. unfold rollback. by rewrite rev_app_distr, fold_left_app. Qed.

(** A computation whose journal undoes it, whether it fails or not. *)
Definition undoes {A} (m : JM A) : Prop :=
  forall s u, exists v, (m (s, u)).1.2 = u ++ v /\ same_core (rollback (m (s, u)).1.1 v) s.

Lemma undoes_lift {A} (r : result LogError A) : undoes (lift r).
Proof. intros s u. exists []. by rewrite app_nil_r. Qed.

Lemma undoes_gets {A} (f : LiveSet -> A) : undoes (gets f).
Proof. intros s u. exists []. by rewrite app_nil_r. Qed.

Lemma undoes_ret {A} (a : A) : undoes (mret a).
Proof. intros s u. exists []. by rewrite app_nil_r. Qed.

(** Updates outside the journal's cover ([schema], [edge], [edge_ended]). *)
Lemma undoes_modify f : (forall s, same_core (f s) s) -> undoes (modify f).
Proof. intros Hf s u. exists []. rewrite app_nil_r. split; [done|]. apply Hf. Qed.

Lemma undoes_bind {A B} (m : JM A) (k : A -> JM B) :
  undoes m -> (forall a, undoes (k a)) -> undoes (m ≫= k).
Proof.
  intros Hm Hk s u. rewrite bind_JM. destruct (Hm s u) as (v & Hv & Hs).
  destruct (m (s, u)) as [[s' u'] [a|e]]; cbn in *; subst u'; [|by exists v].
  destruct (Hk a s' (u ++ v)) as (w & Hw & Hs'). exists (v ++ w). split; [by rewrite app_assoc|].
  by rewrite rollback_app, Hs'.
Qed.

Lemma undoes_for_each {X} (f : X -> JM unit) l : (forall x, undoes (f x)) -> undoes (for_each f l).
Proof.
  intros Hf. induction l as [|x l IH]; cbn; [apply undoes_ret|]. by apply undoes_bind.
Qed.

Lemma restore_insert {K V} `{Countable K} (k : K) (v : V) m : restore k (m !! k) (<[k := v]> m) = m.
Proof.
  destruct (m !! k) as [v'|] eqn:E; cbn.
  - rewrite insert_insert_eq. by apply insert_id.
  - by apply delete_insert_id.
Qed.

Lemma undoes_add_part part at_ms : undoes (add_part part at_ms).
Proof.
  intros s u. rewrite add_part_eq. destruct (add_guard part at_ms s) as [[]|e] eqn:E; cbn.
  - eexists. split; [done|]. unfold same_core; cbn. rewrite !restore_insert.
    split_and!; try done. unfold add_guard in E. inv_ok.
    match goal with Hs : negb _ = true |- _ => apply negb_true_iff, bool_decide_eq_false in Hs end.
    set_solver.
  - exists []. by rewrite app_nil_r.
Qed.

Lemma undoes_remove_part id seq at_ms : undoes (remove_part id seq at_ms).
Proof.
  intros s u. rewrite remove_part_eq. destruct (live s !! id) as [part|] eqn:E; cbn.
  - eexists. split; [done|]. unfold same_core; cbn. rewrite !restore_insert.
    split_and!; try done. rewrite insert_delete_eq. by apply insert_id.
  - exists []. by rewrite app_nil_r.
Qed.

Lemma undoes_consume at_ms source : undoes (consume at_ms source).
Proof.
  intros s u. rewrite consume_eq. eexists. split; [done|]. unfold same_core; cbn.
  by rewrite restore_insert.
Qed.
End closed_forms.

Create HintDb undo.
#[export] Hint Resolve undoes_lift undoes_gets undoes_ret
  undoes_add_part undoes_remove_part undoes_consume : undo.

Section atomicity.
Context `{Platform}.

Lemma undoes_with_schema v : undoes (modify (with_schema v)).
Proof. apply undoes_modify. intros s. by unfold same_core; cbn. Qed.
Lemma undoes_with_edge v : undoes (modify (with_edge v)).
Proof. apply undoes_modify. intros s. by unfold same_core; cbn. Qed.
Lemma undoes_with_edge_ended v : undoes (modify (with_edge_ended v)).
Proof. apply undoes_modify. intros s. by unfold same_core; cbn. Qed.
#[local] Hint Resolve undoes_with_schema undoes_with_edge undoes_with_edge_ended : undo.

Ltac undo_solve :=
  repeat first
    [ solve [auto with undo] | apply undoes_for_each; intros ? | apply undoes_bind; [|intros ?]
    | case_match ].

(** Every operation can be undone from its journal. *)
Lemma undoes_apply_op entry : undoes (apply_op entry).
Proof.
  unfold apply_op, set_schema_op, apply_add, apply_supersede, apply_floor, apply_end, apply_adopt.
  destruct (op entry); undo_solve.
Qed.

Lemma restored_same_core a b :
  same_core a b -> with_edge_ended (edge_ended b) (with_edge (edge b) (with_schema (schema b) a)) = b.
Proof.
  destruct a, b. unfold same_core; cbn. intros (-> & -> & -> & -> & -> & -> & ->). done.
Qed.

(** The journal of a refused entry restores the set exactly. *)
Lemma apply_err_unchanged s entry sha s' e : apply s entry sha = (s', Err e) -> s' = s.
Proof.
  unfold apply. destruct (check_chain (head s) entry); [|by intros [= -> _]].
  destruct (undoes_apply_op entry s []) as (v & Hv & Hs).
  destruct (apply_op entry (s, [])) as [[s1 u] [|e1]]; [done|]. cbn in *. subst u.
  intros [= <- _]. by apply restored_same_core.
Qed.

Lemma apply_ok_inv s entry sha s' :
  applies s entry sha s' <->
  check_chain (head s) entry = Ok () /\
  exists s1 u, apply_op entry (s, []) = ((s1, u), Ok ()) /\
    s' = prune (sat_i64 (appended_at_ms entry - ID_MEMORY_MS))
           (with_head (Some (seq entry, sha, writer_epoch entry)) s1).
Proof.
  unfold applies, apply. destruct (check_chain (head s) entry) as [[]|e].
  - destruct (apply_op entry (s, [])) as [[s1 u] [[]|e]]; split.
    + intros [= <-]. split; [done|]. by exists s1, u.
    + by intros (_ & s2 & v & [= -> ->] & ->).
    + done.
    + by intros (_ & s2 & v & ? & _).
  - split; [done|]. by intros [? _].
Qed.
End atomicity.

(** ** Reference semantics: validate and update a copy

    The journal exists so that [apply] need not clone the set. The reference does: it works
    on values, and an error simply drops the copy. *)

Section reference.
Context `{Platform}.

Definition add_ref (at_ms : Z) (s : LiveSet) (part : PartRef) : result LogError LiveSet :=
  _ ← add_guard part at_ms s; Ok (added part at_ms s).
Definition remove_ref (seq at_ms : Z) (s : LiveSet) (id : PartId) : result LogError LiveSet :=
  part ← of_option (live s !! id) NotLive; Ok (taken id part seq at_ms s).
Definition consume_ref (at_ms : Z) (s : LiveSet) (source : SourceRef) : LiveSet :=
  with_consumed <[source_identity source := at_ms]> s.
Definition edge_ref (entry : LogEntry) (edge_log : option EdgeLogRange) (s : LiveSet) : result LogError LiveSet :=
  match edge_log with
  | None => Ok s
  | Some range =>
      _ ← ensure (bool_decide (el_log range = edge_log_name (tenant_id entry))) EdgeOtherTenant;
      Ok (with_edge (Some {| ep_log := el_log range; ep_seq := through_seq range;
                             ep_chain := through_chain range |}) s)
  end.

Definition op_ref (entry : LogEntry) (s : LiveSet) : result LogError LiveSet :=
  let at_ms := appended_at_ms entry in
  match op entry with
  | Genesis sc =>
      if seq entry =? 0 then _ ← to_arrow sc; Ok (with_schema (Some sc) s) else Err GenesisAfterZero
  | operation =>
      if seq entry =? 0 then Err MustBeGenesis else
      match operation with
      | Genesis _ => Err GenesisAfterZero
      | Schema sc => _ ← to_arrow sc; Ok (with_schema (Some sc) s)
      | Add parts consumed edge_log =>
          _ ← ensure (negb (bool_decide (parts = []) || bool_decide (consumed = []))) AddEmpty;
          _ ← check_edge (tenant_id entry) consumed edge_log (edge s) (edge_ended s);
          s1 ← edge_ref entry edge_log s;
          s2 ← fold_res (fun s part =>
                 _ ← ensure (bool_decide (level part = L0) && sorted part) NonL0Part; add_ref at_ms s part) parts s1;
          Ok (fold_left (consume_ref at_ms) consumed s2)
      | Merge output supersedes | Rewrite output supersedes _ =>
          _ ← ensure (negb (bool_decide (supersedes = []))) SupersedesNothing;
          s1 ← fold_res (remove_ref (seq entry) at_ms) supersedes s;
          add_ref at_ms s1 output
      | EdgeFloor q c r =>
          _ ← ensure (edge_note_ok c r) FloorMalformed;
          _ ← ensure (match edge s with Some p => negb (q <? ep_seq p) | None => true end) FloorBackwards;
          _ ← ensure (negb (bool_decide (edge s = None) && bool_decide (is_Some (edge_ended s)))) FloorAfterEnd;
          Ok (with_edge (Some {| ep_log := edge_log_name (tenant_id entry); ep_seq := q; ep_chain := c |}) s)
      | Reject rejections =>
          _ ← ensure (negb (bool_decide (rejections = []) || (1000 <? Z.of_nat (length rejections)))) RejectCount;
          _ ← ensure (forallb rejection_ok rejections) RejectMalformed;
          Ok s
      | EdgeEnd q c r =>
          _ ← ensure (edge_note_ok c r) EndMalformed;
          point ← of_option (edge s) EndOutsideEdge;
          _ ← ensure ((ep_seq point =? q) && bool_decide (ep_chain point = c)) EndNotAtPoint;
          Ok (with_edge_ended (Some point) (with_edge None s))
      | Retire parts _ _ =>
          _ ← ensure (negb (bool_decide (parts = []))) RetireEmpty;
          fold_res (remove_ref (seq entry) at_ms) parts s
      | Adopt parts =>
          _ ← ensure (negb (bool_decide (parts = []))) AdoptEmpty;
          fold_res (fun s part =>
            _ ← ensure (bool_decide (level part = Hour) || bool_decide (level part = Day)) AdoptLevel;
            _ ← ensure (negb (sorted part)) AdoptSorted;
            add_ref at_ms s part) parts s
      end
  end.

Definition apply_ref (s : LiveSet) (entry : LogEntry) (sha : string) : result LogError LiveSet :=
  _ ← check_chain (head s) entry;
  s1 ← op_ref entry s;
  Ok (prune (sat_i64 (appended_at_ms entry - ID_MEMORY_MS))
        (with_head (Some (seq entry, sha, writer_epoch entry)) s1)).

(** [m] computes what [f] computes, from any journal. *)
Definition refines (m : JM unit) (f : LiveSet -> result LogError LiveSet) : Prop :=
  forall s u, match f s with
              | Ok s' => exists u', m (s, u) = ((s', u'), Ok ())
              | Err e => (m (s, u)).2 = Err e
              end.

Lemma refines_ensure c e (m : JM unit) f :
  refines m f -> refines (_ ← lift (ensure c e); m) (fun s => _ ← ensure c e; f s).
Proof. intros Hm s u. rewrite bind_JM. destruct c; cbn; [apply Hm|done]. Qed.

Lemma refines_for_each {X} (g : X -> JM unit) f l :
  (forall x, refines (g x) (fun s => f s x)) -> refines (for_each g l) (fold_res f l).
Proof.
  intros Hg. induction l as [|x l IH]; intros s u; cbn; [by exists u|].
  rewrite bind_JM. specialize (Hg x s u). destruct (f s x) as [s'|e]; cbn.
  - destruct Hg as [u' ->]. apply IH.
  - destruct (g x (s, u)) as [j [?|?]]; cbn in Hg; simplify_eq. done.
Qed.

Lemma refines_bind m1 m2 f1 f2 :
  refines m1 f1 -> refines m2 f2 -> refines (_ ← m1; m2) (fun s => s' ← f1 s; f2 s').
Proof.
  intros H1 H2 s u. rewrite bind_JM. specialize (H1 s u). destruct (f1 s) as [s'|e]; cbn.
  - destruct H1 as [u' ->]. apply H2.
  - destruct (m1 (s, u)) as [j [?|?]]; cbn in H1; simplify_eq. done.
Qed.

Lemma refines_add_part at_ms part : refines (add_part part at_ms) (fun s => add_ref at_ms s part).
Proof.
  intros s u. rewrite add_part_eq. unfold add_ref. destruct (add_guard part at_ms s) as [[]|e]; cbn; [by eexists|done].
Qed.

Lemma refines_remove_part seq at_ms id : refines (remove_part id seq at_ms) (fun s => remove_ref seq at_ms s id).
Proof.
  intros s u. rewrite remove_part_eq. unfold remove_ref. destruct (live s !! id); cbn; [by eexists|done].
Qed.

Lemma refines_consume_all at_ms sources :
  refines (for_each (consume at_ms) sources) (fun s => Ok (fold_left (consume_ref at_ms) sources s)).
Proof.
  induction sources as [|x l IH]; intros s u; cbn; [by exists u|].
  rewrite bind_JM, consume_eq. apply IH.
Qed.

Lemma refines_modify f : refines (modify f) (fun s => Ok (f s)).
Proof. intros s u. by exists u. Qed.

Lemma refines_lift (r : result LogError unit) : refines (lift r) (fun s => _ ← r; Ok s).
Proof. intros s u. destruct r as [[]|e]; cbn; [by exists u|done]. Qed.

Lemma refines_to_arrow sc :
  refines (set_schema_op sc) (fun s => _ ← to_arrow sc; Ok (with_schema (Some sc) s)).
Proof. intros s u. unfold set_schema_op. rewrite bind_JM. destruct (to_arrow sc); cbn; [by exists u|done]. Qed.

Lemma refines_gets {A} (g : LiveSet -> A) (m : A -> JM unit) f :
  (forall a, refines (m a) (f a)) -> refines (a ← gets g; m a) (fun s => f (g s) s).
Proof. intros Hm s u. rewrite bind_JM. apply Hm. Qed.

Lemma refines_ext m f g : (forall s, f s = g s) -> refines m f -> refines m g.
Proof. intros E Hm s u. specialize (Hm s u). by rewrite E in Hm. Qed.
End reference.

Section refinement.
Context `{Platform}.

Lemma refines_edge entry edge_log :
  refines (match edge_log with
           | Some range =>
               _ ← lift (ensure (bool_decide (el_log range = edge_log_name (tenant_id entry))) EdgeOtherTenant);
               modify (with_edge (Some {| ep_log := el_log range; ep_seq := through_seq range;
                                          ep_chain := through_chain range |}))
           | None => mret ()
           end) (edge_ref entry edge_log).
Proof.
  destruct edge_log as [range|]; [apply refines_ensure, refines_modify|]. intros s u. by exists u.
Qed.

Lemma refines_apply_add entry parts consumed edge_log :
  seq entry <> 0 -> op entry = Add parts consumed edge_log ->
  refines (apply_add entry parts consumed edge_log) (op_ref entry).
Proof.
  intros Hs Ho. eapply refines_ext.
  { intros s. unfold op_ref. rewrite Ho, (proj2 (Z.eqb_neq _ _) Hs). reflexivity. }
  unfold apply_add. apply refines_ensure.
  eapply refines_ext; [intros s; reflexivity|].
  intros s u. rewrite bind_JM. cbn [gets fst]. rewrite bind_JM.
  destruct (check_edge _ _ _ _ _) as [[]|e] eqn:E; [|done]. cbn [lift].
  revert s u E. intros s u _.
  apply (refines_bind _ _ (edge_ref entry edge_log)); [apply refines_edge|].
  apply refines_bind; [|apply refines_consume_all].
  apply refines_for_each. intros part. apply refines_ensure, refines_add_part.
Qed.

Lemma refines_apply_op entry : refines (apply_op entry) (op_ref entry).
Proof.
  unfold apply_op. destruct (op entry) eqn:Ho; destruct (Z.eqb_spec (seq entry) 0) as [E|E];
    try (intros s u; unfold op_ref; rewrite Ho, (proj2 (Z.eqb_eq _ _) E); done).
  1: { intros s u. unfold op_ref. rewrite Ho, (proj2 (Z.eqb_eq _ _) E). apply refines_to_arrow. }
  2: { eapply refines_ext; [|apply refines_to_arrow]. intros s. unfold op_ref. rewrite Ho.
       by rewrite (proj2 (Z.eqb_neq _ _) E). }
  1: { intros s u. unfold op_ref. by rewrite Ho, (proj2 (Z.eqb_neq _ _) E). }
  1: { by apply refines_apply_add. }
  all: eapply refines_ext; [intros s; unfold op_ref; rewrite Ho, (proj2 (Z.eqb_neq _ _) E); reflexivity|].
  - unfold apply_floor. apply refines_ensure. intros s u. rewrite bind_JM. cbn [gets fst].
    rewrite bind_JM. unfold lift at 1. destruct (ensure (match _ with Some _ => _ | None => _ end) _) as [[]|e]; [|done].
    rewrite bind_JM. unfold lift at 1. cbn [mbind result_bind].
    destruct (ensure (negb _) FloorAfterEnd) as [[]|e]; [by exists u|done].
  - apply refines_ensure, refines_lift.
  - unfold apply_end. apply refines_ensure. intros s u. rewrite bind_JM. cbn [gets fst].
    rewrite bind_JM. cbn [modify fst snd]. destruct (edge s) as [point|]; [|done]. cbn [of_option mbind result_bind].
    unfold mbind, JM_bind, lift, modify. cbn [fst snd].
    destruct (ensure (_ && _) EndNotAtPoint) as [[]|e]; [by exists u|done].
  - apply refines_ensure, refines_bind; [|apply refines_add_part].
    apply refines_for_each. intros id. apply refines_remove_part.
  - apply refines_ensure, refines_for_each. intros id. apply refines_remove_part.
  - apply refines_ensure, refines_bind; [|apply refines_add_part].
    apply refines_for_each. intros id. apply refines_remove_part.
  - apply refines_ensure, refines_for_each. intros part.
    apply refines_ensure, refines_ensure, refines_add_part.
Qed.

(** The journaled [apply] computes the reference. *)
Lemma apply_apply_ref s entry sha :
  apply s entry sha =
    match apply_ref s entry sha with Ok s' => (s', Ok ()) | Err e => (s, Err e) end.
Proof.
  destruct (apply s entry sha) as [s' [[]|e]] eqn:E.
  - apply apply_ok_inv in E as (Hc & s1 & u & Ho & ->). unfold apply_ref. rewrite Hc. cbn.
    pose proof (refines_apply_op entry s []) as Hr. destruct (op_ref entry s) as [s2|e].
    + destruct Hr as [u' Hr]. rewrite Ho in Hr. by simplify_eq.
    + rewrite Ho in Hr. done.
  - pose proof (apply_err_unchanged _ _ _ _ _ E) as ->. unfold apply in E. unfold apply_ref.
    destruct (check_chain (head s) entry) as [[]|e']; [cbn|by simplify_eq].
    pose proof (refines_apply_op entry s []) as Hr. destruct (op_ref entry s) as [s2|e2]; cbn.
    + destruct Hr as [u' Hr]. by rewrite Hr in E.
    + destruct (apply_op entry (s, [])) as [[s3 u3] [?|?]]; cbn in Hr; by simplify_eq.
Qed.

Lemma applies_ref s entry sha s' : applies s entry sha s' <-> apply_ref s entry sha = Ok s'.
Proof.
  unfold applies. rewrite apply_apply_ref. destruct (apply_ref s entry sha); split; intros; by simplify_eq.
Qed.
End refinement.

(** C11: the journaled, clone-free [apply] refines the reference semantics that validates and
    updates a copy: it returns the same result on every entry, installs the same set when the
    entry is accepted, and on every refusal, after any number of partial mutations, leaves
    every field of the set exactly as it was. *)
Theorem apply_refines_reference `{Platform} s entry sha :
  apply s entry sha =
    match apply_ref s entry sha with Ok s' => (s', Ok ()) | Err e => (s, Err e) end.
Proof. apply apply_apply_ref. Qed.
