(* ===== verification/LiveSetFacts.v ===== *)
(** * LiveSetFacts: what an accepted entry does to the live set

    The effect of [op_ref] field by field, the well-formedness invariant of the set, and
    the rule that a part id is added at most once in the life of a log. *)
From S2P Require Import Prelude Platform Format EdgeLog PartTypes LiveSet.

(** The ids an operation removes, and the parts it adds. *)
Definition op_removes (o : LogOp) : list PartId :=
  match o with
  | Merge _ supersedes | Rewrite _ supersedes _ => supersedes
  | Retire parts _ _ => parts
  | _ => []
  end.
Definition op_adds (o : LogOp) : list PartRef :=
  match o with
  | Add parts _ _ | Adopt parts => parts
  | Merge output _ | Rewrite output _ _ => [output]
  | _ => []
  end.
Definition op_consumes (o : LogOp) : list SourceRef :=
  match o with Add _ consumed _ => consumed | _ => [] end.

(** The part of [adds] that is stored under [id]. *)
Definition find_part (id : PartId) (adds : list PartRef) : option PartRef :=
  list_find (fun p => part_id p = id) adds ≫= fun x => Some x.2.

Lemma find_part_None id adds : find_part id adds = None <-> id ∉ part_id <$> adds.
Proof.
  unfold find_part. destruct (list_find _ adds) as [[i p]|] eqn:E; cbn.
  - apply list_find_Some in E as (Hl & <- & _). split; [done|]. intros []. 
    apply list_elem_of_fmap_2. by eapply list_elem_of_lookup_2.
  - apply list_find_None in E. split; [|done]. intros _ (p & -> & Hp)%list_elem_of_fmap.
    rewrite Forall_forall in E. by apply (E p).
Qed.

Lemma find_part_Some id adds p : find_part id adds = Some p -> p ∈ adds /\ part_id p = id.
Proof.
  unfold find_part. intros ([i q] & E & [= <-])%bind_Some.
  apply list_find_Some in E as (Hl & ? & _). split; [by eapply list_elem_of_lookup_2|done].
Qed.

Lemma find_part_elem adds p :
  NoDup (part_id <$> adds) -> p ∈ adds -> find_part (part_id p) adds = Some p.
Proof.
  intros Hn Hp. destruct (find_part (part_id p) adds) as [q|] eqn:E.
  - apply find_part_Some in E as [Hq E]. f_equal.
    apply list_elem_of_lookup in Hp as [i Hi], Hq as [j Hj].
    assert (i = j) as <-; [|congruence].
    eapply NoDup_lookup; [exact Hn|..]; rewrite list_lookup_fmap; [by rewrite Hi|by rewrite Hj; cbn; rewrite E].
  - apply find_part_None in E. destruct E. by apply list_elem_of_fmap_2.
Qed.

Lemma find_part_cons id x adds :
  find_part id (x :: adds) = if decide (id = part_id x) then Some x else find_part id adds.
Proof.
  unfold find_part. cbn. destruct (decide (part_id x = id)) as [E|E]; cbn.
  - by rewrite decide_True.
  - rewrite decide_False by congruence. by destruct (list_find _ adds).
Qed.

#[global] Arguments find_part _ _ : simpl never.

Section effects.
Context `{Platform}.
Implicit Types (s : LiveSet) (id : PartId).

(** [s'] is [s] with [ids] moved from live to removed. *)
Record removes_effect (q at_ms : Z) (ids : list PartId) s s' : Prop := {
  re_nodup : NoDup ids;
  re_live_in : forall id, id ∈ ids -> is_Some (live s !! id);
  re_live : forall id, live s' !! id = if decide (id ∈ ids) then None else live s !! id;
  re_removed : forall id, removed s' !! id = if decide (id ∈ ids) then Some (q, at_ms) else removed s !! id;
  re_refs : forall id, removed_refs s' !! id = if decide (id ∈ ids) then live s !! id else removed_refs s !! id;
  re_rest : seen s' = seen s /\ added_at s' = added_at s /\ consumed s' = consumed s /\ schema s' = schema s
    /\ head s' = head s /\ edge s' = edge s /\ edge_ended s' = edge_ended s }.

Lemma removes_effect_fold q at_ms ids s s' :
  fold_res (remove_ref q at_ms) ids s = Ok s' -> removes_effect q at_ms ids s s'.
Proof.
  revert s; induction ids as [|x ids IH]; intros s; cbn.
  { intros [= <-]. split; try (intros; by rewrite decide_False by apply not_elem_of_nil);
      [constructor|by intros ? ?%elem_of_nil|done]. }
  intros (s1 & Hs1 & Hf)%bind_ok_inv. unfold remove_ref in Hs1.
  destruct (live s !! x) as [part|] eqn:Ex; cbn in Hs1; [|done]. injection Hs1 as <-.
  destruct (IH _ Hf) as [Hn Hin Hl Hr Hf' Hrest]. cbn in *.
  assert (x ∉ ids) as Hx.
  { intros Hx. destruct (Hin _ Hx) as [? Hx']. by rewrite lookup_delete_eq in Hx'. }
  split.
  - by constructor.
  - intros id [->|Hid]%elem_of_cons; [by eexists|]. destruct (Hin _ Hid) as [p Hp].
    apply lookup_delete_Some in Hp as [_ Hp]. by eexists.
  - intros id. rewrite Hl. destruct (decide (id = x)) as [->|Hne].
    + rewrite lookup_delete_eq, (decide_True (P := x ∈ x :: ids)) by constructor. by destruct (decide _).
    + rewrite lookup_delete_ne by done. destruct (decide (id ∈ ids)), (decide (id ∈ x :: ids)) as [E|E]; try done.
      * destruct E. by constructor.
      * by apply elem_of_cons in E as [?|?].
  - intros id. rewrite Hr. destruct (decide (id = x)) as [->|Hne].
    + rewrite lookup_insert_eq, (decide_True (P := x ∈ x :: ids)), decide_False by done || constructor. done.
    + rewrite lookup_insert_ne by done. destruct (decide (id ∈ ids)), (decide (id ∈ x :: ids)) as [E|E]; try done.
      * destruct E. by constructor.
      * by apply elem_of_cons in E as [?|?].
  - intros id. rewrite Hf'. destruct (decide (id = x)) as [->|Hne].
    + rewrite lookup_insert_eq, (decide_True (P := x ∈ x :: ids)), decide_False by done || constructor. done.
    + rewrite lookup_insert_ne, lookup_delete_ne by done.
      destruct (decide (id ∈ ids)), (decide (id ∈ x :: ids)) as [E|E]; try done.
      * destruct E. by constructor.
      * by apply elem_of_cons in E as [?|?].
  - done.
Qed.

(** [s'] is [s] with [adds] live. *)
Record adds_effect (at_ms : Z) (adds : list PartRef) s s' : Prop := {
  ae_nodup : NoDup (part_id <$> adds);
  ae_fresh : forall p, p ∈ adds -> part_id p ∉ seen s;
  ae_valid : forall p, p ∈ adds -> PartRef_validate p = Ok ();
  ae_recent : forall p, p ∈ adds -> sat_i64 (at_ms - ID_MEMORY_MS) <= created_unix_ms (part_id p);
  ae_live : forall id, live s' !! id = match find_part id adds with Some p => Some p | None => live s !! id end;
  ae_added : forall id, added_at s' !! id = match find_part id adds with Some _ => Some at_ms | None => added_at s !! id end;
  ae_seen : seen s' = list_to_set (part_id <$> adds) ∪ seen s;
  ae_rest : removed s' = removed s /\ removed_refs s' = removed_refs s /\ consumed s' = consumed s
    /\ schema s' = schema s /\ head s' = head s /\ edge s' = edge s /\ edge_ended s' = edge_ended s }.

Lemma adds_effect_fold at_ms (guard : PartRef -> result LogError unit) adds s s' :
  fold_res (fun s p => _ ← guard p; add_ref at_ms s p) adds s = Ok s' -> adds_effect at_ms adds s s'.
Proof.
  revert s; induction adds as [|x adds IH]; intros s; cbn.
  { intros [= <-]. split; try done; try (by intros ? ?%elem_of_nil); [constructor|].
    cbn. set_solver. }
  intros (s1 & Hs1 & Hf)%bind_ok_inv. unfold add_ref, add_guard in Hs1. inv_ok.
  destruct (IH _ Hf) as [Hn Hfr Hv Hrec Hl Ha Hs Hrest]. cbn in *.
  repeat match goal with
    | E : negb _ = true |- _ => apply negb_true_iff in E
    | E : (_ <? _) = false |- _ => apply Z.ltb_ge in E
    | E : bool_decide _ = false |- _ => apply bool_decide_eq_false in E
    | u : () |- _ => destruct u
    end.
  assert (part_id x ∉ part_id <$> adds) as Hx.
  { intros (p & E & Hp)%list_elem_of_fmap. apply (Hfr p Hp). rewrite <- E. set_solver. }
  split.
  - by constructor.
  - intros p [->|Hp]%elem_of_cons; [done|]. specialize (Hfr p Hp). set_solver.
  - intros p [->|Hp]%elem_of_cons; [done|by apply Hv].
  - intros p [->|Hp]%elem_of_cons; [done|by apply Hrec].
  - intros id. rewrite Hl, find_part_cons. destruct (decide (id = part_id x)) as [->|Hne].
    + rewrite (proj2 (find_part_None _ _) Hx). apply lookup_insert_eq.
    + by rewrite lookup_insert_ne by done.
  - intros id. rewrite Ha, find_part_cons. destruct (decide (id = part_id x)) as [->|Hne].
    + rewrite (proj2 (find_part_None _ _) Hx). apply lookup_insert_eq.
    + by rewrite lookup_insert_ne by done.
  - rewrite Hs. set_solver.
  - done.
Qed.

(** The id-level effect of an accepted operation. *)
Record op_effect (entry : LogEntry) s s1 : Prop := {
  oe_rem_nodup : NoDup (op_removes (op entry));
  oe_rem_live : forall id, id ∈ op_removes (op entry) -> is_Some (live s !! id);
  oe_add_nodup : NoDup (part_id <$> op_adds (op entry));
  oe_add_fresh : forall p, p ∈ op_adds (op entry) -> part_id p ∉ seen s;
  oe_add_valid : forall p, p ∈ op_adds (op entry) -> PartRef_validate p = Ok ();
  oe_add_recent : forall p, p ∈ op_adds (op entry) ->
    sat_i64 (appended_at_ms entry - ID_MEMORY_MS) <= created_unix_ms (part_id p);
  oe_live : forall id, live s1 !! id =
    match find_part id (op_adds (op entry)) with
    | Some p => Some p
    | None => if decide (id ∈ op_removes (op entry)) then None else live s !! id
    end;
  oe_removed : forall id, removed s1 !! id =
    if decide (id ∈ op_removes (op entry)) then Some (seq entry, appended_at_ms entry) else removed s !! id;
  oe_refs : forall id, removed_refs s1 !! id =
    if decide (id ∈ op_removes (op entry)) then live s !! id else removed_refs s !! id;
  oe_added : forall id, added_at s1 !! id =
    match find_part id (op_adds (op entry)) with
    | Some _ => Some (appended_at_ms entry)
    | None => added_at s !! id
    end;
  oe_seen : seen s1 = list_to_set (part_id <$> op_adds (op entry)) ∪ seen s;
  oe_head : head s1 = head s }.
End effects.

Section op_effects.
Context `{Platform}.
Implicit Types (s : LiveSet) (id : PartId).

(** Two sets that agree on every id-level field. *)
Definition same_ids s1 s2 : Prop :=
  live s1 = live s2 /\ seen s1 = seen s2 /\ removed s1 = removed s2 /\ removed_refs s1 = removed_refs s2
  /\ added_at s1 = added_at s2 /\ head s1 = head s2.

Lemma consume_all_ids at_ms sources s : same_ids (fold_left (consume_ref at_ms) sources s) s.
Proof.
  revert s; induction sources as [|x l IH]; intros s; cbn; [done|].
  exact (IH (consume_ref at_ms s x)).
Qed.

Lemma consume_all_rest at_ms sources s :
  let s' := fold_left (consume_ref at_ms) sources s in
  schema s' = schema s /\ edge s' = edge s /\ edge_ended s' = edge_ended s.
Proof.
  revert s; induction sources as [|x l IH]; intros s; cbn; [done|]. apply (IH (consume_ref at_ms s x)).
Qed.

Lemma op_effect_same_ids entry s s1 s0 s2 :
  same_ids s0 s -> same_ids s2 s1 -> op_effect entry s s1 -> op_effect entry s0 s2.
Proof.
  intros (E1 & E2 & E3 & E4 & E5 & E6) (F1 & F2 & F3 & F4 & F5 & F6) [].
  split; rewrite ?E1, ?E2, ?E3, ?E4, ?E5, ?E6, ?F1, ?F2, ?F3, ?F4, ?F5, ?F6; done.
Qed.

Lemma op_effect_none entry s s1 :
  op_removes (op entry) = [] -> op_adds (op entry) = [] -> same_ids s1 s -> op_effect entry s s1.
Proof.
  intros Er Ea (E1 & E2 & E3 & E4 & E5 & E6).
  split; rewrite ?Er, ?Ea, ?E1, ?E2, ?E3, ?E4, ?E5, ?E6; cbn; try done;
    try (by intros ? ?%elem_of_nil); try constructor;
    try (intros; by rewrite decide_False by apply not_elem_of_nil); try set_solver.
Qed.

Lemma op_effect_adds entry s s1 :
  op_removes (op entry) = [] -> adds_effect (appended_at_ms entry) (op_adds (op entry)) s s1 ->
  op_effect entry s s1.
Proof.
  intros Er [? ? ? ? Hl ? ? (Er1 & Er2 & _ & _ & Eh & _)].
  split; rewrite ?Er, ?Er1, ?Er2, ?Eh; try done; try (by intros ? ?%elem_of_nil); try constructor.
  all: intros id; rewrite ?Hl; by rewrite decide_False by apply not_elem_of_nil.
Qed.

Lemma op_effect_removes entry s s1 :
  op_adds (op entry) = [] -> removes_effect (seq entry) (appended_at_ms entry) (op_removes (op entry)) s s1 ->
  op_effect entry s s1.
Proof.
  intros Ea [? ? Hl ? ? (Es & Eat & _ & _ & Eh & _)].
  split; rewrite ?Ea, ?Es, ?Eat, ?Eh; try done; try (by intros ? ?%elem_of_nil); try constructor. set_solver.
Qed.

Lemma op_effect_supersede entry s s1 s2 output supersedes :
  op_removes (op entry) = supersedes -> op_adds (op entry) = [output] ->
  removes_effect (seq entry) (appended_at_ms entry) supersedes s s1 ->
  adds_effect (appended_at_ms entry) [output] s1 s2 -> op_effect entry s s2.
Proof.
  intros Er Ea [? ? Hl Hr Hf (Es & Eat & _ & _ & Eh & _)] [? Hfr ? ? Hl' Ha Hs (Er1 & Er2 & _ & _ & Eh' & _)].
  split; rewrite ?Er, ?Ea, ?Er1, ?Er2, ?Eh', ?Eh; try done.
  - intros p Hp. rewrite <- Es. by apply Hfr.
  - intros id. by rewrite Hl', Hl.
  - intros id. by rewrite Ha, Eat.
  - by rewrite Hs, Es.
Qed.

(** [fold_res] with a single check before [add_ref], in the shape of [adds_effect_fold]. *)
Lemma adds_effect_adopt at_ms adds s s' :
  fold_res (fun s part =>
    _ ← ensure (bool_decide (level part = Hour) || bool_decide (level part = Day)) AdoptLevel;
    _ ← ensure (negb (sorted part)) AdoptSorted;
    add_ref at_ms s part) adds s = Ok s' -> adds_effect at_ms adds s s'.
Proof.
  intros Hf. apply (adds_effect_fold at_ms (fun part =>
    _ ← ensure (bool_decide (level part = Hour) || bool_decide (level part = Day)) AdoptLevel;
    ensure (negb (sorted part)) AdoptSorted)).
  revert s Hf; induction adds as [|x adds IH]; intros s; cbn; [done|].
  destruct (ensure _ AdoptLevel); cbn; [|done]. destruct (ensure _ AdoptSorted); cbn; [|done].
  destruct (add_ref at_ms s x); cbn; [apply IH|done].
Qed.

Lemma op_ref_effect entry s s1 : op_ref entry s = Ok s1 -> op_effect entry s s1.
Proof.
  unfold op_ref. destruct (op entry) eqn:Ho; destruct (seq entry =? 0); try done; intros Hr; inv_ok.
  1, 2, 4, 5, 6: by apply op_effect_none; rewrite ?Ho.
  - eapply op_effect_same_ids; [|apply consume_all_ids|].
    2: { apply op_effect_adds; rewrite Ho; [done|]. cbn [op_adds].
         eapply (adds_effect_fold _ (fun part => ensure (bool_decide (level part = L0) && sorted part) NonL0Part)).
         eassumption. }
    match goal with E : edge_ref entry edge_log s = Ok ?x |- _ => clear - E; revert E; unfold edge_ref end.
    destruct edge_log; intros E; inv_ok; by unfold same_ids.
  - eapply op_effect_supersede; rewrite ?Ho; [done|done|by apply removes_effect_fold|].
    apply (adds_effect_fold _ (fun _ => Ok ())). cbn. by rewrite Hr.
  - apply op_effect_removes; rewrite Ho; [done|]. by apply removes_effect_fold.
  - eapply op_effect_supersede; rewrite ?Ho; [done|done|by apply removes_effect_fold|].
    apply (adds_effect_fold _ (fun _ => Ok ())). cbn. by rewrite Hr.
  - apply op_effect_adds; rewrite Ho; [done|]. by apply adds_effect_adopt.
Qed.
End op_effects.

(** ** Pruning *)

Section pruning.
Context `{Platform}.
Implicit Types (s : LiveSet) (id : PartId).

Lemma first_seen_least s id :
  id ∈ seen s -> exists least, first_seen s = Some least /\ created_unix_ms least <= created_unix_ms id.
Proof.
  intros Hid. unfold first_seen.
  assert (id ∈ sort_by pid_leb (elements (seen s))) as Hin by (by apply elem_of_sort_by, elem_of_elements).
  pose proof (sort_by_sorted pid_leb pid_leb_total pid_leb_trans (elements (seen s))) as Hs.
  destruct (sort_by pid_leb _) as [|x l]; [by apply elem_of_nil in Hin|].
  exists x. split; [done|]. apply elem_of_cons in Hin as [->|Hin]; [lia|].
  apply pid_leb_created. apply StronglySorted_inv in Hs as [_ Hs]. rewrite Forall_forall in Hs. by apply Hs.
Qed.

(** Whether or not the memory is swept, the remembered ids are exactly the recent and
    the live ones. *)
Lemma prune_seen h s id :
  id ∈ seen (prune h s) <-> id ∈ seen s /\ (h <= created_unix_ms id \/ is_Some (live s !! id)).
Proof.
  unfold prune. destruct (first_seen s) as [least|] eqn:E.
  - destruct (Z.ltb_spec (created_unix_ms least) h); cbn; [rewrite elem_of_filter; tauto|].
    split; [|tauto]. intros Hid. split; [done|]. left.
    destruct (first_seen_least _ _ Hid) as (l & ? & ?). simplify_eq. lia.
  - split; [|tauto]. intros Hid. destruct (first_seen_least _ _ Hid) as (l & ? & ?). congruence.
Qed.

Lemma prune_fields h s :
  live (prune h s) = live s /\ schema (prune h s) = schema s /\ head (prune h s) = head s
  /\ edge (prune h s) = edge s /\ edge_ended (prune h s) = edge_ended s.
Proof. unfold prune. repeat case_match; done. Qed.

Lemma prune_live h s : live (prune h s) = live s.
Proof. apply prune_fields. Qed.

Lemma prune_removed h s id v :
  removed (prune h s) !! id = Some v -> removed s !! id = Some v.
Proof.
  unfold prune. repeat case_match; cbn; try done. intros Hv. by apply map_lookup_filter_Some in Hv as [? _].
Qed.

Lemma prune_removed_refs h s id :
  (forall id, is_Some (removed_refs s !! id) <-> is_Some (removed s !! id)) ->
  is_Some (removed_refs (prune h s) !! id) <-> is_Some (removed (prune h s) !! id).
Proof.
  intros Hd. unfold prune. repeat case_match; cbn; try apply Hd. split.
  - intros [r Hr]. apply map_lookup_filter_Some in Hr as [_ Hr]. done.
  - intros [v Hv]. pose proof Hv as Hv'. apply map_lookup_filter_Some in Hv as [Hv _].
    destruct (proj2 (Hd id)) as [r Hr]; [by eexists|]. exists r. apply map_lookup_filter_Some.
    split; [done|]. by eexists.
Qed.

Lemma prune_removed_ref h s id p :
  removed_refs (prune h s) !! id = Some p -> removed_refs s !! id = Some p.
Proof.
  unfold prune. repeat case_match; cbn; try done. intros Hv. by apply map_lookup_filter_Some in Hv as [? _].
Qed.

Lemma prune_added h s id v :
  added_at (prune h s) !! id = Some v -> added_at s !! id = Some v.
Proof.
  unfold prune. repeat case_match; cbn; try done. intros Hv. by apply map_lookup_filter_Some in Hv as [? _].
Qed.

Lemma prune_added_live h s id :
  is_Some (live s !! id) -> added_at (prune h s) !! id = added_at s !! id.
Proof.
  intros Hl. unfold prune. repeat case_match; cbn; try done.
  apply option_eq. intros v. rewrite map_lookup_filter_Some. by split; [intros []|].
Qed.

Lemma prune_consumed h s (id : string) v :
  consumed (prune h s) !! id = Some v -> consumed s !! id = Some v.
Proof.
  unfold prune. repeat case_match; cbn; try done. intros Hv. by apply map_lookup_filter_Some in Hv as [? _].
Qed.

Lemma prune_consumed_recent h s (id : string) v :
  consumed s !! id = Some v -> h <= v -> consumed (prune h s) !! id = Some v.
Proof.
  intros Hv Hh. unfold prune. repeat case_match; cbn; try done. by apply map_lookup_filter_Some.
Qed.
End pruning.

(** ** The invariant *)

(** The id memory horizon of an entry appended at [t]. *)
Definition horizon (t : Z) : Z := sat_i64 (t - ID_MEMORY_MS).

Lemma horizon_mono a b : a <= b -> horizon a <= horizon b.
Proof. intros. apply sat_i64_mono. lia. Qed.

(** Well-formedness of a set whose last entry was appended at [now]. *)
Record wf (now : Z) (s : LiveSet) : Prop := {
  wf_live : forall id p, live s !! id = Some p ->
    part_id p = id /\ PartRef_validate p = Ok () /\ id ∈ seen s /\ is_Some (added_at s !! id);
  wf_removed : forall id v, removed s !! id = Some v ->
    live s !! id = None /\ (id ∈ seen s \/ created_unix_ms id < horizon now);
  wf_refs : forall id, is_Some (removed_refs s !! id) <-> is_Some (removed s !! id);
  wf_ref : forall id p, removed_refs s !! id = Some p -> part_id p = id;
  wf_seen : forall id, id ∈ seen s -> horizon now <= created_unix_ms id \/ is_Some (live s !! id) }.

Lemma wf_empty now : wf now empty_set.
Proof.
  split; cbn; try (intros *; by rewrite lookup_empty); try set_solver.
  intros id. by rewrite !lookup_empty.
Qed.

Section invariant.
Context `{Platform}.
Implicit Types (s : LiveSet) (id : PartId).

Lemma apply_ref_inv s entry sha s' :
  apply_ref s entry sha = Ok s' ->
  check_chain (head s) entry = Ok () /\
  exists s1, op_effect entry s s1 /\ op_ref entry s = Ok s1 /\
    s' = prune (horizon (appended_at_ms entry)) (with_head (Some (seq entry, sha, writer_epoch entry)) s1).
Proof.
  unfold apply_ref. intros Ha. apply bind_ok_inv in Ha as ([] & Hc & Ha).
  apply bind_ok_inv in Ha as (s1 & Hs & [= <-]).
  split; [done|]. exists s1. split; [by apply op_ref_effect|done].
Qed.

(** An added id is not live and not remembered as removed. *)
Lemma fresh_unknown now s entry s1 p :
  wf now s -> now <= appended_at_ms entry -> op_effect entry s s1 -> p ∈ op_adds (op entry) ->
  live s !! part_id p = None /\ removed s !! part_id p = None.
Proof.
  intros Hw Hnow He Hp. pose proof (oe_add_fresh _ _ _ He p Hp) as Hf. split.
  - destruct (live s !! part_id p) eqn:E; [|done]. by apply (wf_live _ _ Hw) in E as (_ & _ & ? & _).
  - destruct (removed s !! part_id p) eqn:E; [|done].
    apply (wf_removed _ _ Hw) in E as [_ [?|Hc]]; [done|].
    pose proof (oe_add_recent _ _ _ He p Hp) as Hr. fold (horizon (appended_at_ms entry)) in Hr.
    pose proof (horizon_mono _ _ Hnow). lia.
Qed.

Lemma added_not_removed s entry s1 p :
  op_effect entry s s1 -> (forall id, is_Some (live s !! id) -> id ∈ seen s) ->
  p ∈ op_adds (op entry) -> part_id p ∉ op_removes (op entry).
Proof.
  intros He Hl Hp Hr. apply (oe_rem_live _ _ _ He) in Hr. apply Hl in Hr.
  by apply (oe_add_fresh _ _ _ He p Hp) in Hr.
Qed.

Lemma wf_live_seen now s : wf now s -> forall id, is_Some (live s !! id) -> id ∈ seen s.
Proof. intros Hw id [p Hp]. by apply (wf_live _ _ Hw) in Hp as (_ & _ & ? & _). Qed.

(** An operation preserves the invariant, up to the sweep of the id memory. *)
Lemma op_effect_wf_live now s entry s1 id p :
  wf now s -> op_effect entry s s1 -> live s1 !! id = Some p ->
  part_id p = id /\ PartRef_validate p = Ok () /\ id ∈ seen s1 /\ is_Some (added_at s1 !! id).
Proof.
  intros Hw He. rewrite (oe_live _ _ _ He), (oe_seen _ _ _ He), (oe_added _ _ _ He).
  destruct (find_part id _) as [q|] eqn:E.
  - intros [= <-]. apply find_part_Some in E as [Hq <-].
    split; [done|]. split; [by apply (oe_add_valid _ _ _ He)|]. split; [|by eexists].
    apply elem_of_union_l, elem_of_list_to_set. by apply list_elem_of_fmap_2.
  - destruct (decide _); [done|]. intros (? & ? & ? & ?)%(wf_live _ _ Hw). set_solver.
Qed.

Lemma op_effect_wf_removed now s entry s1 id v :
  wf now s -> now <= appended_at_ms entry -> op_effect entry s s1 -> removed s1 !! id = Some v ->
  live s1 !! id = None /\ (id ∈ seen s1 \/ created_unix_ms id < horizon (appended_at_ms entry)).
Proof.
  intros Hw Hnow He. rewrite (oe_removed _ _ _ He), (oe_live _ _ _ He), (oe_seen _ _ _ He).
  pose proof (horizon_mono _ _ Hnow).
  destruct (find_part id _) as [q|] eqn:E.
  - apply find_part_Some in E as [Hq <-].
    rewrite decide_False by (eapply added_not_removed; eauto using wf_live_seen).
    intros Hv. by destruct (fresh_unknown _ _ _ _ _ Hw Hnow He Hq) as [_ ?]; simplify_eq.
  - destruct (decide _) as [Hr|Hr].
    + intros _. split; [done|]. left. apply elem_of_union_r. eapply wf_live_seen; [done|].
      by apply (oe_rem_live _ _ _ He).
    + intros [? [?|?]]%(wf_removed _ _ Hw); (split; [done|]); [left; set_solver|right; lia].
Qed.

Lemma apply_wf now s entry sha s' :
  wf now s -> now <= appended_at_ms entry -> apply_ref s entry sha = Ok s' -> wf (appended_at_ms entry) s'.
Proof.
  intros Hw Hnow (_ & s1 & He & _ & ->)%apply_ref_inv. set (h := horizon (appended_at_ms entry)).
  assert (forall id, is_Some (removed_refs s1 !! id) <-> is_Some (removed s1 !! id)) as Hd.
  { intros id. rewrite (oe_refs _ _ _ He), (oe_removed _ _ _ He). destruct (decide _) as [Hr|].
    - apply (oe_rem_live _ _ _ He) in Hr. split; [by eexists|done].
    - apply (wf_refs _ _ Hw). }
  split.
  - rewrite prune_live. cbn. intros id p Hp.
    destruct (op_effect_wf_live _ _ _ _ _ _ Hw He Hp) as (? & ? & ? & ?).
    split; [done|]. split; [done|]. split; [|rewrite prune_added_live; [done|by eexists]].
    rewrite prune_seen. cbn. split; [done|]. right. by eexists.
  - rewrite prune_live. cbn. intros id v Hv%prune_removed. cbn in Hv.
    destruct (op_effect_wf_removed _ _ _ _ _ _ Hw Hnow He Hv) as [Hl Hs]. split; [done|].
    rewrite prune_seen. cbn. fold h in Hs |- *. rewrite Hl.
    destruct (Z.lt_ge_cases (created_unix_ms id) h); [by right|]. destruct Hs as [?|?]; [|lia]. left. tauto.
  - intros id. by apply prune_removed_refs.
  - intros id p Hp%prune_removed_ref. cbn in Hp. rewrite (oe_refs _ _ _ He) in Hp.
    destruct (decide _); [by apply (wf_live _ _ Hw) in Hp as (? & _)|by apply (wf_ref _ _ Hw)].
  - intros id. rewrite prune_live, prune_seen. cbn. tauto.
Qed.
End invariant.
