(* ===== verification/Replay.v ===== *)
(** * Replay: folding a whole log

    What the fold of [load_log] over a verified log yields: the set holds exactly the parts
    that were added and not removed, every part id is added at most once, and no source is
    consumed twice by a writer that asks [check_consumes]; with the case where the
    timestamps of the entries are not monotone. *)
From S2P Require Import Prelude Platform Format EdgeLog PartTypes LiveSet LiveSetFacts.

Section replay.
Context `{Platform}.

(** One step of the fold: [live.apply(&entry, &sha)?]. *)
Definition apply_step (s : LiveSet) (es : LogEntry * string) : result LogError LiveSet :=
  match apply s es.1 es.2 with (s', Ok _) => Ok s' | (_, Err e) => Err e end.

(** Apply the entries in order, stopping at the first refusal. *)
Definition replay (log : list (LogEntry * string)) (s : LiveSet) : result LogError LiveSet :=
  fold_res apply_step log s.

Lemma apply_step_ref s es : apply_step s es = apply_ref s es.1 es.2.
Proof. unfold apply_step. rewrite apply_apply_ref. by destruct (apply_ref s es.1 es.2). Qed.

Lemma replay_cons es log s s' :
  replay (es :: log) s = Ok s' <-> exists s1, apply_ref s es.1 es.2 = Ok s1 /\ replay log s1 = Ok s'.
Proof. unfold replay. cbn. rewrite apply_step_ref. apply bind_ok_inv. Qed.

Lemma replay_app log1 log2 s s' :
  replay (log1 ++ log2) s = Ok s' <-> exists s1, replay log1 s = Ok s1 /\ replay log2 s1 = Ok s'.
Proof. unfold replay. rewrite fold_res_app. apply bind_ok_inv. Qed.
End replay.

(** Everything a log adds, and everything it removes, in order. *)
Definition log_adds (log : list (LogEntry * string)) : list PartRef := log ≫= fun es => op_adds (op es.1).
Definition log_removes (log : list (LogEntry * string)) : list PartId := log ≫= fun es => op_removes (op es.1).
Definition log_times (log : list (LogEntry * string)) : list Z := (fun es => appended_at_ms es.1) <$> log.

Lemma log_adds_cons es log : log_adds (es :: log) = op_adds (op es.1) ++ log_adds log.
Proof. done. Qed.
Lemma log_removes_cons es log : log_removes (es :: log) = op_removes (op es.1) ++ log_removes log.
Proof. done. Qed.

Lemma last_cons_default {A} (x d : A) l : List.last (x :: l) d = List.last l x.
Proof. revert x d. induction l as [|y l IH]; intros x d; [done|]. exact (eq_trans (IH y d) (eq_sym (IH y x))). Qed.

(** The history behind a set: [adds] were added and [removes] removed, once each, and every
    added id is still remembered or older than the id memory. *)
Record history (now : Z) (adds : list PartRef) (removes : list PartId) (s : LiveSet) : Prop := {
  hi_wf : wf now s;
  hi_nodup : NoDup (part_id <$> adds);
  hi_removes : NoDup removes;
  hi_removed : forall id, id ∈ removes -> id ∈ part_id <$> adds;
  hi_seen : forall id, id ∈ part_id <$> adds -> id ∈ seen s \/ created_unix_ms id < horizon now;
  hi_live : forall id p, live s !! id = Some p <-> p ∈ adds /\ part_id p = id /\ id ∉ removes }.

Lemma history_empty now : history now [] [] empty_set.
Proof.
  split; [apply wf_empty|constructor|constructor|set_solver|set_solver|].
  intros id p. cbn. rewrite lookup_empty. set_solver.
Qed.

Section history.
Context `{Platform}.
Implicit Types (s : LiveSet) (id : PartId).

Lemma history_fresh now adds removes s entry s1 p :
  history now adds removes s -> now <= appended_at_ms entry -> op_effect entry s s1 ->
  p ∈ op_adds (op entry) -> part_id p ∉ part_id <$> adds.
Proof.
  intros Hh Hnow He Hp Hin. destruct (hi_seen _ _ _ _ Hh _ Hin) as [?|Hc].
  - by apply (oe_add_fresh _ _ _ He p Hp).
  - pose proof (oe_add_recent _ _ _ He p Hp) as Hr. fold (horizon (appended_at_ms entry)) in Hr.
    pose proof (horizon_mono _ _ Hnow). lia.
Qed.

(** The live map after an operation, over the history. *)
Lemma history_live now adds removes s entry s1 id p :
  history now adds removes s -> now <= appended_at_ms entry -> op_effect entry s s1 ->
  live s1 !! id = Some p <->
  p ∈ adds ++ op_adds (op entry) /\ part_id p = id /\ id ∉ removes ++ op_removes (op entry).
Proof.
  intros Hh Hnow He.
  rewrite (oe_live _ _ _ He), elem_of_app, not_elem_of_app.
  destruct (find_part id (op_adds (op entry))) as [q|] eqn:E.
  - apply find_part_Some in E as [Hq <-]. pose proof (history_fresh _ _ _ _ _ _ _ Hh Hnow He Hq) as Hf.
    assert (part_id q ∉ removes) by (intros ?; by apply Hf, (hi_removed _ _ _ _ Hh)).
    assert (part_id q ∉ op_removes (op entry)).
    { eapply added_not_removed; [done| |done]. eapply wf_live_seen, hi_wf, Hh. }
    split.
    + intros [= <-]. split; [by right|]. done.
    + intros ([Hp|Hp] & Ei & _).
      * destruct Hf. rewrite <- Ei. by apply list_elem_of_fmap_2.
      * f_equal. apply find_part_elem in Hp; [|apply (oe_add_nodup _ _ _ He)].
        apply find_part_elem in Hq; [|apply (oe_add_nodup _ _ _ He)]. congruence.
  - apply find_part_None in E. destruct (decide _) as [Hr|Hr].
    + split; [done|]. by intros (_ & _ & _ & ?).
    + rewrite (hi_live _ _ _ _ Hh). split; [tauto|]. intros ([?|Hp] & <- & ? & ?); [done|].
      destruct E. by apply list_elem_of_fmap_2.
Qed.

Lemma history_step now adds removes s entry sha s' :
  history now adds removes s -> now <= appended_at_ms entry -> apply_ref s entry sha = Ok s' ->
  history (appended_at_ms entry) (adds ++ op_adds (op entry)) (removes ++ op_removes (op entry)) s'.
Proof.
  intros Hh Hnow Ha. pose proof (apply_wf _ _ _ _ _ (hi_wf _ _ _ _ Hh) Hnow Ha) as Hw.
  apply apply_ref_inv in Ha as (_ & s1 & He & _ & ->). pose proof (horizon_mono _ _ Hnow) as Hmono.
  split; [done|..].
  - rewrite fmap_app. apply NoDup_app. split; [apply (hi_nodup _ _ _ _ Hh)|]. split; [|apply (oe_add_nodup _ _ _ He)].
    intros id Hid (p & -> & Hp)%list_elem_of_fmap. by eapply history_fresh.
  - apply NoDup_app. split; [apply (hi_removes _ _ _ _ Hh)|]. split; [|apply (oe_rem_nodup _ _ _ He)].
    intros id Hid Hr. apply (oe_rem_live _ _ _ He) in Hr as [p Hp]. by apply (hi_live _ _ _ _ Hh) in Hp as (_ & _ & ?).
  - intros id. rewrite fmap_app, !elem_of_app. intros [?|Hr]; [left; by apply (hi_removed _ _ _ _ Hh)|].
    apply (oe_rem_live _ _ _ He) in Hr as [p Hp]. apply (hi_live _ _ _ _ Hh) in Hp as (? & <- & _).
    left. by apply list_elem_of_fmap_2.
  - intros id. rewrite fmap_app, elem_of_app, prune_seen. cbn. rewrite (oe_seen _ _ _ He), elem_of_union, elem_of_list_to_set.
    destruct (Z.lt_ge_cases (created_unix_ms id) (horizon (appended_at_ms entry))); [by right|].
    intros [Hid|Hid]; left; [|tauto]. apply (hi_seen _ _ _ _ Hh) in Hid as [?|?]; [tauto|lia].
  - intros id p. rewrite prune_live. cbn. by eapply history_live.
Qed.

Lemma history_replay log now adds removes s s' :
  history now adds removes s -> Sorted Z.le (now :: log_times log) -> replay log s = Ok s' ->
  history (List.last (log_times log) now) (adds ++ log_adds log) (removes ++ log_removes log) s'.
Proof.
  revert now adds removes s. induction log as [|es log IH]; intros now adds removes s Hh Ht Hr.
  { injection Hr as <-. cbn. by rewrite !app_nil_r. }
  apply replay_cons in Hr as (s1 & Ha & Hr). cbn in Ht.
  apply Sorted_inv in Ht as [Ht Hhd]. apply HdRel_inv in Hhd.
  pose proof (history_step _ _ _ _ _ _ _ Hh Hhd Ha) as Hh1.
  specialize (IH _ _ _ _ Hh1 Ht Hr). rewrite log_adds_cons, log_removes_cons, !(assoc_L (++)).
  replace (List.last _ now) with (List.last (log_times log) (appended_at_ms es.1)); [done|].
  symmetry. apply last_cons_default.
Qed.

(** The history of a log whose entries carry monotone times. *)
Lemma history_log log s :
  Sorted Z.le (log_times log) -> replay log empty_set = Ok s ->
  exists now, history now (log_adds log) (log_removes log) s.
Proof.
  intros Ht Hr. set (t0 := match log_times log with t :: _ => t | [] => 0 end).
  exists (List.last (log_times log) t0). apply (history_replay log t0 [] [] empty_set); [apply history_empty| |done].
  constructor; [done|]. unfold t0. destruct (log_times log); constructor. lia.
Qed.
End history.

(** ** The writer's double-consume guard *)

#[local] Arguments source_identity {_} _ : simpl never.

Section consumes.
Context `{Platform}.
Implicit Types (s : LiveSet).

(** [LiveSet::check_consumes] *)
Fixpoint check_consumes_go (known within : gset string) (sources : list SourceRef) : result LogError unit :=
  match sources with
  | [] => Ok ()
  | source :: rest =>
      let id := source_identity source in
      if bool_decide (id ∈ within) || bool_decide (id ∈ known) then Err (DoubleConsume (sr_key source))
      else check_consumes_go known ({[id]} ∪ within) rest
  end.
Definition check_consumes (s : LiveSet) (o : LogOp) : result LogError unit :=
  match o with Add _ consumed _ => check_consumes_go (dom (LiveSet.consumed s)) ∅ consumed | _ => Ok () end.

(** [LiveSet::consumed] *)
Definition is_consumed (s : LiveSet) (source : SourceRef) : bool :=
  bool_decide (is_Some (LiveSet.consumed s !! source_identity source)).

(** A writer's log: every entry passed the guard before it was applied. *)
Definition guarded_step s (es : LogEntry * string) : result LogError LiveSet :=
  _ ← check_consumes s (op es.1); apply_step s es.
Definition guarded_replay (log : list (LogEntry * string)) s : result LogError LiveSet :=
  fold_res guarded_step log s.

Lemma check_consumes_go_ok known within sources :
  check_consumes_go known within sources = Ok () <->
  NoDup (source_identity <$> sources)
  /\ forall id, id ∈ (source_identity <$> sources) -> (id ∉ within) /\ (id ∉ known).
Proof.
  revert within. induction sources as [|x sources IH]; intros within; cbn.
  { split; [|done]. split; [constructor|]. by intros ? ?%elem_of_nil. }
  rewrite NoDup_cons. destruct (bool_decide_reflect (source_identity x ∈ within)); cbn.
  { split; [done|]. intros [_ Hi]. destruct (Hi (source_identity x)) as [? ?]; [by constructor|contradiction]. }
  destruct (bool_decide_reflect (source_identity x ∈ known)); cbn.
  { split; [done|]. intros [_ Hi]. destruct (Hi (source_identity x)) as [? ?]; [by constructor|contradiction]. }
  rewrite IH. split.
  - intros [Hn Hi]. split; [split; [|done]; intros Hx; apply Hi in Hx; set_solver|].
    intros id [->|Hid]%elem_of_cons; [done|]. apply Hi in Hid. set_solver.
  - intros [[Hx Hn] Hi]. split; [done|]. intros id Hid. destruct (Hi id); [by constructor|].
    split; [|done]. intros [->%elem_of_singleton|?]%elem_of_union; done.
Qed.

(** The sources an accepted operation records. *)
Lemma consume_all_lookup at_ms sources s id :
  LiveSet.consumed (fold_left (consume_ref at_ms) sources s) !! id =
    if decide (id ∈ source_identity <$> sources) then Some at_ms else LiveSet.consumed s !! id.
Proof.
  revert s. induction sources as [|x sources IH]; intros s; cbn; [by rewrite decide_False by apply not_elem_of_nil|].
  rewrite IH. cbn. destruct (decide (id ∈ _ <$> sources)) as [E|E].
  - by rewrite decide_True by (by constructor).
  - destruct (decide (id = source_identity x)) as [->|Hne].
    + by rewrite lookup_insert_eq, decide_True by constructor.
    + rewrite lookup_insert_ne by done. by rewrite decide_False by (by intros [?|?]%elem_of_cons).
Qed.

Lemma op_ref_consumed entry s s1 id :
  op_ref entry s = Ok s1 ->
  LiveSet.consumed s1 !! id =
    if decide (id ∈ source_identity <$> op_consumes (op entry)) then Some (appended_at_ms entry)
    else LiveSet.consumed s !! id.
Proof.
  unfold op_ref. destruct (op entry); destruct (seq entry =? 0); try done; intros Hr; inv_ok; cbn [op_consumes fmap list_fmap].
  all: try (rewrite decide_False by apply not_elem_of_nil; done).
  - rewrite consume_all_lookup. destruct (decide _); [done|].
    match goal with E : edge_ref _ _ s = Ok ?x, F : fold_res _ _ ?x = Ok ?y |- _ =>
      apply (adds_effect_fold _ (fun part => ensure (bool_decide (level part = L0) && sorted part) NonL0Part)) in F;
      rewrite (proj1 (proj2 (proj2 (ae_rest _ _ _ _ F)))); clear - E; revert E end.
    unfold edge_ref. destruct edge_log; intros E; inv_ok; done.
  - rewrite decide_False by apply not_elem_of_nil.
    match goal with F : fold_res _ _ s = Ok ?y |- _ => apply removes_effect_fold in F;
      rewrite <- (proj1 (proj2 (proj2 (re_rest _ _ _ _ _ F)))) end.
    unfold add_ref in Hr. by inv_ok.
  - rewrite decide_False by apply not_elem_of_nil. apply removes_effect_fold in Hr.
    by rewrite <- (proj1 (proj2 (proj2 (re_rest _ _ _ _ _ Hr)))).
  - rewrite decide_False by apply not_elem_of_nil.
    match goal with F : fold_res _ _ s = Ok ?y |- _ => apply removes_effect_fold in F;
      rewrite <- (proj1 (proj2 (proj2 (re_rest _ _ _ _ _ F)))) end.
    unfold add_ref in Hr. by inv_ok.
  - rewrite decide_False by apply not_elem_of_nil. apply adds_effect_adopt in Hr.
    by rewrite (proj1 (proj2 (proj2 (ae_rest _ _ _ _ Hr)))).
Qed.
End consumes.

(** Every consumed source of a log with its entry's time, in order. *)
Definition log_consumes (log : list (LogEntry * string)) : list (SourceRef * Z) :=
  log ≫= fun es => (fun source => (source, appended_at_ms es.1)) <$> op_consumes (op es.1).

(** A source repeats only after it has left the id memory. *)
Definition consumed_apart (a b : SourceRef * Z) : Prop := a.1 = b.1 -> a.2 < horizon b.2.

Lemma last_from (x y : Z) l : List.last (y :: l) x = List.last l y.
Proof. revert x y. induction l as [|z l IH]; intros x y; [done|]. change (List.last (y :: z :: l) x) with (List.last (z :: l) x). by rewrite !IH. Qed.

Section consumed_once.
Context `{Platform}.

(** [past] is up to [now], and the set remembers every recent consumption of it. *)
Definition remembers (now : Z) (past : list (SourceRef * Z)) (s : LiveSet) : Prop :=
  forall source t, (source, t) ∈ past -> t <= now /\ (horizon now <= t ->
  exists t', LiveSet.consumed s !! source_identity source = Some t' /\ t <= t').

Lemma check_consumes_ok s o :
  check_consumes s o = Ok () ->
  NoDup (source_identity <$> op_consumes o)
  /\ forall id, id ∈ (source_identity <$> op_consumes o) -> LiveSet.consumed s !! id = None.
Proof.
  destruct o; cbn; try (split; [constructor|by intros ? ?%elem_of_nil]).
  intros [? Hg]%check_consumes_go_ok. split; [done|]. intros id [_ Hid]%Hg. by apply not_elem_of_dom in Hid.
Qed.

(** The sources of one entry, at its time. *)
Definition entry_consumes (es : LogEntry * string) : list (SourceRef * Z) := (fun source => (source, appended_at_ms es.1)) <$> op_consumes (op es.1).

Lemma step_remembers now past s es s' :
  remembers now past s -> now <= appended_at_ms es.1 -> apply_step s es = Ok s' -> remembers (appended_at_ms es.1) (past ++ entry_consumes es) s'.
Proof.
  intros Hk Hnow Hs. rewrite apply_step_ref in Hs. apply apply_ref_inv in Hs as (_ & s1 & _ & Ho & ->).
  pose proof (horizon_mono _ _ Hnow) as Hm. intros source t Hin. split.
  { apply elem_of_app in Hin as [[? _]%Hk|(x & [= -> ->] & Hx)%list_elem_of_fmap]; lia. }
  intros Ht. assert (exists t', LiveSet.consumed s1 !! source_identity source = Some t' /\ t <= t') as (t' & E & Ht').
  2: { exists t'. split; [|done]. apply prune_consumed_recent; [done|lia]. }
  rewrite (op_ref_consumed _ _ _ _ Ho). apply elem_of_app in Hin as [Hin|(x & [= -> ->] & Hx)%list_elem_of_fmap].
  - destruct (Hk _ _ Hin) as [Hle Hr]. destruct Hr as (t' & E & ?); [lia|]. destruct (decide _); [|by exists t']. exists (appended_at_ms es.1). split; [done|lia].
  - exists (appended_at_ms es.1). rewrite decide_True by (by apply list_elem_of_fmap_2). split; [done|lia].
Qed.
Lemma replay_remembers log now past s s' :
  remembers now past s -> Sorted Z.le (now :: log_times log) -> replay log s = Ok s' -> remembers (List.last (log_times log) now) (past ++ log_consumes log) s'.
Proof.
  revert now past s. induction log as [|es log IH]; intros now past s Hk Ht Hr.
  { injection Hr as <-. cbn. by rewrite app_nil_r. }
  cbn in Hr. apply bind_ok_inv in Hr as (s1 & Hs & Hr). cbn in Ht. apply Sorted_inv in Ht as [Ht Hhd%HdRel_inv].
  change (log_consumes (es :: log)) with (entry_consumes es ++ log_consumes log). rewrite (assoc_L (++)).
  change (log_times (es :: log)) with (appended_at_ms es.1 :: log_times log). rewrite last_from.
  eapply IH; [|exact Ht|exact Hr]. by eapply step_remembers.
Qed.

Lemma guarded_step_inv now past s es s' :
  remembers now past s -> now <= appended_at_ms es.1 -> guarded_step s es = Ok s' ->
  remembers (appended_at_ms es.1) (past ++ entry_consumes es) s'
  /\ NoDup (entry_consumes es) /\ forall a b, a ∈ past -> b ∈ entry_consumes es -> consumed_apart a b.
Proof.
  intros Hk Hnow Hs. unfold guarded_step in Hs. apply bind_ok_inv in Hs as ([] & Hg & Hs).
  apply check_consumes_ok in Hg as [Hn Hf]. split; [by eapply step_remembers|]. split.
  - apply NoDup_fmap_2; [by intros ?? [= ->]|]. by eapply NoDup_fmap_1.
  - intros [a t] b Ha (x & -> & Hx)%list_elem_of_fmap. intros E. cbn in E. subst a. cbn.
    destruct (Z.lt_ge_cases t (horizon (appended_at_ms es.1))); [done|]. pose proof (horizon_mono _ _ Hnow) as Hm.
    destruct (proj2 (Hk _ _ Ha)) as (t' & E & _); [lia|]. by rewrite (Hf (source_identity x)) in E by (by apply list_elem_of_fmap_2).
Qed.

(** One entry's own sources are pairwise distinct. *)
Lemma mine_apart (t : Z) (sources : list SourceRef) :
  NoDup ((fun source => (source, t)) <$> sources) ->
  StronglySorted consumed_apart ((fun source => (source, t)) <$> sources).
Proof.
  induction sources as [|x l IH]; cbn; [constructor|]. intros [Hx Hn]%NoDup_cons. constructor; [by apply IH|].
  apply Forall_forall. intros b (y & -> & Hy)%list_elem_of_fmap E. cbn in E. subst y.
  destruct Hx. by apply list_elem_of_fmap_2 with (f := fun source => (source, t)).
Qed.

Lemma guarded_replay_apart log now past s s' :
  remembers now past s -> Sorted Z.le (now :: log_times log) -> guarded_replay log s = Ok s' ->
  StronglySorted consumed_apart (log_consumes log) /\ forall a b, a ∈ past -> b ∈ log_consumes log -> consumed_apart a b.
Proof.
  revert now past s. induction log as [|es log IH]; intros now past s Hk Ht Hr.
  { split; [constructor|by intros a b _ ?%elem_of_nil]. }
  unfold guarded_replay in Hr. cbn in Hr. apply bind_ok_inv in Hr as (s1 & Hs & Hr).
  cbn in Ht. apply Sorted_inv in Ht as [Ht Hhd]. apply HdRel_inv in Hhd.
  destruct (guarded_step_inv _ _ _ _ _ Hk Hhd Hs) as (Hk' & Hn & Hx). destruct (IH _ _ _ Hk' Ht Hr) as [H1 H2].
  change (log_consumes (es :: log)) with (entry_consumes es ++ log_consumes log). split.
  - apply StronglySorted_app_2; [|by apply mine_apart|done]. intros a b Ha Hb. apply H2; [|done]. set_solver.
  - intros a b Ha [Hb|Hb]%elem_of_app; [by apply Hx|]. apply H2; [|done]. set_solver.
Qed.
End consumed_once.

Lemma sorted_app_l (x : Z) (a b : list Z) : Sorted Z.le (x :: a ++ b) -> Sorted Z.le (x :: a).
Proof.
  intros Hs. apply Sorted_StronglySorted in Hs; [|intros ???; lia]. apply StronglySorted_Sorted.
  change (x :: a ++ b) with ((x :: a) ++ b) in Hs. revert Hs. generalize (x :: a). intros l. induction l as [|y l IH]; cbn; [constructor|].
  intros [? Hy]%StronglySorted_inv. constructor; [auto|]. by apply Forall_app in Hy as [? _].
Qed.
Lemma sorted_from_last (x : Z) (a b : list Z) : Sorted Z.le (x :: a ++ b) -> Sorted Z.le (List.last a x :: b).
Proof.
  revert x. induction a as [|y a IH]; intros x Hs; [done|]. apply Sorted_inv in Hs as [Hs _]. apply IH in Hs. by rewrite last_from.
Qed.

(** ** A concrete log *)
Module LogExample.
Import ToyPlatform.

Definition tenant : string := "11111111-2222-3333-4444-555555555555".
Definition sha (n : Z) : string := sha256_hex (to_dec n).
Definition pid1 : PartId := mk_part_id "0000000000100-00112233445566aa" eq_refl.
Definition pid2 : PartId := mk_part_id "0000000000200-00112233445566bb" eq_refl.
Definition pid3 : PartId := mk_part_id "0000000000300-00112233445566cc" eq_refl.

Definition part (id : PartId) (l : Level) : PartRef :=
  {| request_hours := None; part_id := id; level := l; event_hour := 0; event_day := None; rows := 10;
     min_time_us := 0; max_time_us := 9; schema_fingerprint := sha 1; provenance_sha256 := sha 2;
     merkle_root := sha 3; sorted := true; data_bytes := 1000; row_groups := 1; data_files := 1 |}.
Definition src (k : string) : SourceRef := {| sr_key := k; sr_version := "v"; sr_sha256 := sha 9 |}.
Definition sc : LogSchema := {| parquet_base64 := "schema"; fingerprint := sha256_hex "`schema` String" |}.

(** Number the entries and link them with their digests. *)
Definition mk (n : Z) (t : Z) (o : LogOp) : LogEntry * string :=
  ({| format := LOG_FORMAT; tenant_id := tenant; seq := n;
      prev_sha256 := if n =? 0 then GENESIS_PREV else sha (100 + n - 1); writer_epoch := 1;
      appended_at_ms := t; op := o |}, sha (100 + n)).

Definition log : list (LogEntry * string) :=
  [ mk 0 50 (Genesis sc);
    mk 1 150 (Add [part pid1 L0] [src "a"; src "b"] None);
    mk 2 250 (Add [part pid2 L0] [src "c"] None);
    mk 3 350 (Merge (part pid3 Minute) [pid1; pid2]) ].

(** The same id again, after an entry appended two days later and one appended at the
    old time. *)
Definition regressed : list (LogEntry * string) :=
  [ mk 0 50 (Genesis sc);
    mk 1 150 (Add [part pid1 L0] [src "a"] None);
    mk 2 200 (Retire [pid1] Retention "unit");
    mk 3 (150 + 2 * ID_MEMORY_MS) (Schema sc);
    mk 4 150 (Add [part pid1 L0] [src "a"] None) ].

Definition final (l : list (LogEntry * string)) : LiveSet :=
  unwrap empty_set (replay l empty_set).

Lemma log_sorted : Sorted Z.le (log_times log).
Proof. cbn. repeat constructor; lia. Qed.
End LogExample.

(** C12: folding a log whose entries carry non-decreasing times yields exactly the parts that
    were added and never removed, each stored under its own id; every part id is added at
    most once and removed at most once in the whole log, although the set forgets ids older
    than its memory. *)
Theorem replay_live_exact `{Platform} log s :
  Sorted Z.le (log_times log) -> replay log empty_set = Ok s ->
  NoDup (part_id <$> log_adds log) /\ NoDup (log_removes log)
  /\ forall id p, live s !! id = Some p <-> p ∈ log_adds log /\ part_id p = id /\ id ∉ log_removes log.
Proof.
  intros Ht Hr. destruct (history_log _ _ Ht Hr) as [now [? ? ? ? ? ?]]. done.
Qed.

Lemma replay_live_exact_witness :
  let _ := ToyPlatform.toy in
  NoDup (part_id <$> log_adds LogExample.log) /\ NoDup (log_removes LogExample.log)
  /\ forall id p, live (LogExample.final LogExample.log) !! id = Some p <->
       p ∈ log_adds LogExample.log /\ part_id p = id /\ id ∉ log_removes LogExample.log.
Proof.
  intros P. apply (replay_live_exact (H := P)); [apply LogExample.log_sorted|].
  apply unwrap_ok. vm_compute. reflexivity.
Defined.

(** C24: the set folded from a log whose entry times do not go back is well formed at the time of
    its last entry: live parts are
    stored under their own ids, validated, remembered and dated; removed ids are not live,
    keep their references, and stay remembered while they are recent; and the id memory
    holds only recent and live ids. *)
Theorem replay_wf `{Platform} t0 log s :
  Sorted Z.le (t0 :: log_times log) -> replay log empty_set = Ok s ->
  wf (List.last (log_times log) t0) s.
Proof. intros Ht Hr. eapply hi_wf, (history_replay log t0 [] []); [apply history_empty|done|done]. Qed.

Lemma replay_wf_witness :
  let _ := ToyPlatform.toy in wf 350 (LogExample.final LogExample.log).
Proof.
  intros P. apply (replay_wf (H := P) 0 LogExample.log); [|apply unwrap_ok; vm_compute; reflexivity].
  constructor; [apply LogExample.log_sorted|]. constructor. cbn. lia.
Defined.

(** C20: a writer never consumes a source again within the id memory, as far back as its set was
    folded. It starts from any set (a checkpoint's remembers no source), folds the entries it
    finds after that, and from then on asks [check_consumes] before each entry it appends. With
    non-decreasing entry times, a source it consumes was consumed neither by an earlier entry or
    the same entry of its own, nor by an entry it folded, unless that is out of the id memory. *)
Theorem consumed_once `{Platform} start found mine s s' :
  Sorted Z.le (log_times (found ++ mine)) -> replay found start = Ok s -> guarded_replay mine s = Ok s' ->
  StronglySorted consumed_apart (log_consumes mine)
  /\ forall a b, a ∈ log_consumes found -> b ∈ log_consumes mine -> consumed_apart a b.
Proof.
  intros Ht Hf Hm. set (t0 := match log_times (found ++ mine) with t :: _ => t | [] => 0 end).
  assert (Sorted Z.le (t0 :: log_times (found ++ mine))) as Ht0.
  { constructor; [done|]. unfold t0. destruct (log_times (found ++ mine)); constructor. lia. }
  assert (log_times (found ++ mine) = log_times found ++ log_times mine) as E by (unfold log_times; apply fmap_app).
  rewrite E in Ht0. eapply (guarded_replay_apart mine (List.last (log_times found) t0)); [|by apply sorted_from_last|exact Hm].
  apply (replay_remembers found t0 [] start); [by intros ? ? ?%elem_of_nil|by eapply sorted_app_l|done].
Qed.

Lemma consumed_once_witness :
  let _ := ToyPlatform.toy in
  StronglySorted consumed_apart (log_consumes (drop 2 LogExample.log))
  /\ forall a b, a ∈ log_consumes (take 2 LogExample.log) -> b ∈ log_consumes (drop 2 LogExample.log) -> consumed_apart a b.
Proof.
  intros P. set (s := unwrap empty_set (replay (take 2 LogExample.log) empty_set)).
  apply (consumed_once (H := P) empty_set (take 2 LogExample.log) (drop 2 LogExample.log) s (unwrap empty_set (guarded_replay (drop 2 LogExample.log) s))).
  - rewrite take_drop. apply LogExample.log_sorted.
  - apply unwrap_ok. vm_compute. reflexivity.
  - apply unwrap_ok. vm_compute. reflexivity.
Defined.

(** The hypothesis on times is needed, for nothing in the fold compares the times of two
    entries: an entry appended two days later lets the set forget a removed id, and a later
    entry with an old time adds that id again and consumes its source again. *)
Theorem clock_regression_readds :
  let _ := ToyPlatform.toy in
  exists s, guarded_replay LogExample.regressed empty_set = Ok s
    /\ ~ NoDup (part_id <$> log_adds LogExample.regressed)
    /\ ~ NoDup ((log_consumes LogExample.regressed).*1).
Proof.
  intros P. exists (unwrap empty_set (guarded_replay LogExample.regressed empty_set)).
  split; [apply unwrap_ok; vm_compute; reflexivity|].
  split; cbn; intros [Hn _]%NoDup_cons; apply Hn; constructor.
Qed.
