(* ===== verification/Checkpoints.v ===== *)
(** * Checkpoints: shortcuts around a full fold

    [LiveSet::from_checkpoint], [LiveSet::checkpoint], the lake-part GC's hydrated working
    set ([gc_working_set]) and the totals of the live set. Both shortcuts are proved against
    the full fold with one simulation, [sim]. *)
From S2P Require Import Prelude Platform Format EdgeLog PartTypes LiveSet LiveSetFacts Replay.

Section checkpoint.
Implicit Types s : LiveSet.

Definition checkpoint_part s (part : PartRef) : result LogError LiveSet :=
  _ ← PartRef_validate part;
  _ ← ensure (negb (bool_decide (is_Some (live s !! part_id part)))) CheckpointRepeats;
  Ok (with_added_at <[part_id part := created_unix_ms (part_id part)]>
        (with_seen (fun m => {[part_id part]} ∪ m) (with_live <[part_id part := part]> s))).

(** [LiveSet::from_checkpoint] *)
Definition from_checkpoint (checkpoint : Checkpoint) : result LogError LiveSet :=
  s ← fold_res checkpoint_part (cp_live checkpoint) empty_set;
  Ok (with_head (Some (cp_seq checkpoint, cp_entry_sha256 checkpoint, cp_writer_epoch checkpoint))
        (with_schema (Some (cp_schema checkpoint))
           (with_edge_ended (cp_edge_ended checkpoint) (with_edge (cp_edge_log checkpoint) s)))).

(** [LiveSet::checkpoint] *)
Definition checkpoint s (tenant_id : string) : result LogError Checkpoint :=
  h ← of_option (head s) CheckpointEmptyLog;
  sc ← of_option (schema s) CheckpointNoSchema;
  Ok {| cp_format := CHECKPOINT_FORMAT; cp_tenant_id := tenant_id; cp_seq := h.1.1; cp_entry_sha256 := h.1.2;
        cp_writer_epoch := h.2; cp_schema := sc; cp_live := btree_values pid_leb (live s);
        cp_edge_log := edge s; cp_edge_ended := edge_ended s |}.

Lemma checkpoint_fold parts s :
  NoDup (part_id <$> parts) -> Forall (fun p => PartRef_validate p = Ok () /\ live s !! part_id p = None) parts ->
  exists s', fold_res checkpoint_part parts s = Ok s'
  /\ (forall id, live s' !! id = match find_part id parts with Some p => Some p | None => live s !! id end)
  /\ seen s' = list_to_set (part_id <$> parts) ∪ seen s.
Proof.
  revert s. induction parts as [|x parts IH]; intros s Hn Hv; cbn.
  { exists s. split; [done|]. split; [done|set_solver]. }
  apply NoDup_cons in Hn as [Hx Hn]. apply Forall_cons in Hv as [[Hv Hl] Hvs].
  set (s1 := with_added_at <[part_id x := created_unix_ms (part_id x)]>
        (with_seen (fun m => {[part_id x]} ∪ m) (with_live <[part_id x := x]> s))).
  assert (checkpoint_part s x = Ok s1) as ->.
  { unfold checkpoint_part. rewrite Hv, Hl. done. }
  destruct (IH s1 Hn) as (s' & Hf & Hlive & Hseen).
  { rewrite Forall_forall in Hvs |- *. intros p Hp. destruct (Hvs p Hp) as [? ?]. split; [done|].
    cbn. rewrite lookup_insert_ne; [done|]. intros E. destruct Hx. rewrite E. by apply list_elem_of_fmap_2. }
  exists s'. split; [done|]. split.
  - intros id. rewrite Hlive, find_part_cons. destruct (decide (id = part_id x)) as [->|Hne].
    + rewrite (proj2 (find_part_None _ _) Hx). apply lookup_insert_eq.
    + destruct (find_part id parts); [done|]. by apply lookup_insert_ne.
  - rewrite Hseen. cbn. set_solver.
Qed.

(** The values of a map keyed by the parts' own ids. *)
Lemma part_ids_btree_values s :
  (forall id p, live s !! id = Some p -> part_id p = id) ->
  part_id <$> btree_values pid_leb (live s) = btree_keys pid_leb (live s).
Proof.
  intros Hw. unfold btree_values.
  assert (forall k, k ∈ btree_keys pid_leb (live s) -> is_Some (live s !! k)) as Hk
    by (by intros k ?%elem_of_btree_keys).
  induction (btree_keys pid_leb (live s)) as [|k ks IH]; cbn; [done|].
  destruct (Hk k) as [p Hp]; [constructor|]. rewrite Hp. cbn. rewrite (Hw _ _ Hp). f_equal.
  apply IH. intros k' ?. apply Hk. by constructor.
Qed.

Lemma find_part_btree_values s id :
  (forall id p, live s !! id = Some p -> part_id p = id) ->
  find_part id (btree_values pid_leb (live s)) = live s !! id.
Proof.
  intros Hw. pose proof (part_ids_btree_values s Hw) as Ek.
  assert (NoDup (part_id <$> btree_values pid_leb (live s))) as Hn by (rewrite Ek; apply NoDup_btree_keys).
  destruct (live s !! id) as [p|] eqn:E.
  - rewrite <- (Hw _ _ E). apply find_part_elem; [done|]. apply elem_of_btree_values. by exists id.
  - apply find_part_None. rewrite Ek, elem_of_btree_keys, E. by intros [? ?].
Qed.
End checkpoint.

(** ** One simulation for both shortcuts *)

(** [b] stands for [a] on the ids in [T]: same live parts, no other ids remembered, same
    chain, schema and edge state. *)
Record sim (T : PartId -> Prop) (a b : LiveSet) : Prop := {
  sim_live : forall id, T id -> live b !! id = live a !! id;
  sim_seen : forall id, T id -> id ∈ seen b -> id ∈ seen a;
  sim_schema : schema b = schema a;
  sim_head : head b = head a;
  sim_edge : edge b = edge a;
  sim_ended : edge_ended b = edge_ended a }.

(** The ids an operation touches, in the order the GC hydrates them. *)
Definition op_touched (o : LogOp) : list PartId :=
  match o with
  | Add parts _ _ | Adopt parts => part_id <$> parts
  | Merge output supersedes | Rewrite output supersedes _ => part_id output :: supersedes
  | Retire parts _ _ => parts
  | _ => []
  end.

Section simulation.
Context `{Platform} (T : PartId -> Prop).
Implicit Types (a b : LiveSet).

(** Whatever [f] does from [a], it does from [b]. *)
Definition simulates (f : LiveSet -> result LogError LiveSet) : Prop :=
  forall a b a', sim T a b -> f a = Ok a' -> exists b', f b = Ok b' /\ sim T a' b'.

Lemma simulates_fold {X} (f : LiveSet -> X -> result LogError LiveSet) l :
  (forall x, x ∈ l -> simulates (fun s => f s x)) -> simulates (fold_res f l).
Proof.
  induction l as [|x l IH]; intros Hf a b a' Hs; cbn.
  { intros [= <-]. by exists b. }
  intros (a1 & Ha & Hr)%bind_ok_inv. destruct (Hf x ltac:(constructor) _ _ _ Hs Ha) as (b1 & -> & Hs1).
  apply (IH (fun y Hy => Hf y ltac:(by constructor)) _ _ _ Hs1 Hr).
Qed.

Lemma simulates_bind f g : simulates f -> simulates g -> simulates (fun s => s' ← f s; g s').
Proof.
  intros Hf Hg a b a' Hs (a1 & Ha & Hr)%bind_ok_inv. destruct (Hf _ _ _ Hs Ha) as (b1 & -> & Hs1).
  by apply (Hg _ _ _ Hs1).
Qed.

Lemma simulates_guard {A} (r : result LogError A) f : simulates f -> simulates (fun s => _ ← r; f s).
Proof. intros Hf a b a' Hs (x & -> & Ha)%bind_ok_inv. by apply (Hf _ _ _ Hs). Qed.

Lemma simulates_add at_ms part : T (part_id part) -> simulates (fun s => add_ref at_ms s part).
Proof.
  intros HT a b a' Hs. unfold add_ref, add_guard. destruct (PartRef_validate part) as [[]|]; [|done].
  destruct (ensure _ OutsideIdMemory) as [[]|]; [|done]. cbn.
  destruct (bool_decide_reflect (part_id part ∈ seen a)); [done|]. cbn. intros [= <-].
  rewrite bool_decide_eq_false_2 by (intros Hb; by apply (sim_seen _ _ _ Hs) in Hb). cbn.
  eexists. split; [done|]. destruct Hs as [Hl Hsn ? ? ? ?]. split; cbn; try done.
  - intros id Hid. destruct (decide (id = part_id part)) as [->|]; [by rewrite !lookup_insert_eq|].
    rewrite !lookup_insert_ne by done. by apply Hl.
  - intros id Hid. specialize (Hsn id Hid). set_solver.
Qed.

Lemma simulates_remove q at_ms id : T id -> simulates (fun s => remove_ref q at_ms s id).
Proof.
  intros HT a b a' Hs. unfold remove_ref. rewrite (sim_live _ _ _ Hs id HT). destruct (live a !! id); cbn; [|done].
  intros [= <-]. eexists. split; [done|]. destruct Hs as [Hl Hsn ? ? ? ?]. split; cbn; try done.
  intros k Hk. destruct (decide (k = id)) as [->|]; [by rewrite !lookup_delete_eq|].
  rewrite !lookup_delete_ne by done. by apply Hl.
Qed.

Lemma sim_consume at_ms sources a b :
  sim T a b -> sim T (fold_left (consume_ref at_ms) sources a) (fold_left (consume_ref at_ms) sources b).
Proof.
  revert a b. induction sources as [|x l IH]; intros a b Hs; cbn; [done|]. apply IH. by destruct Hs.
Qed.

Lemma simulates_edge entry edge_log : simulates (edge_ref entry edge_log).
Proof.
  intros a b a' Hs. unfold edge_ref. destruct edge_log; [|intros [= <-]; by exists b].
  destruct (ensure _ EdgeOtherTenant); cbn; [|done]. intros [= <-].
  eexists. split; [done|]. by destruct Hs.
Qed.

Lemma simulates_op entry : (forall id, id ∈ op_touched (op entry) -> T id) -> simulates (op_ref entry).
Proof.
  intros HT a b a' Hs. unfold op_ref. destruct (op entry) eqn:Ho; cbn [op_touched] in HT;
    destruct (seq entry =? 0); try done.
  - revert a b a' Hs. apply simulates_guard. intros ? ? ? Hr [= <-]. eexists. split; [done|]. by destruct Hr.
  - revert a b a' Hs. apply simulates_guard. intros ? ? ? Hr [= <-]. eexists. split; [done|]. by destruct Hr.
  - rewrite (sim_edge _ _ _ Hs), (sim_ended _ _ _ Hs). generalize (check_edge (tenant_id entry) consumed edge_log (edge a) (edge_ended a)).
    intros r. revert a b a' Hs. do 2 apply simulates_guard.
    apply simulates_bind; [apply simulates_edge|]. apply simulates_bind.
    + apply simulates_fold. intros part Hp. apply simulates_guard, simulates_add, HT. by apply list_elem_of_fmap_2.
    + intros ? ? ? Hr [= <-]. eexists. split; [done|]. by apply sim_consume.
  - rewrite (sim_edge _ _ _ Hs), (sim_ended _ _ _ Hs).
    destruct (ensure _ FloorMalformed); [|done]. destruct (ensure _ FloorBackwards); [|done].
    destruct (ensure _ FloorAfterEnd); [|done]. intros [= <-]. eexists. split; [done|]. by destruct Hs.
  - revert a b a' Hs. do 2 apply simulates_guard. intros ? ? ? Hr [= <-]. by eexists.
  - rewrite (sim_edge _ _ _ Hs). destruct (ensure _ EndMalformed); [|done].
    destruct (of_option (edge a) EndOutsideEdge) as [point|]; [|done]. cbn [mbind result_bind].
    destruct (ensure _ EndNotAtPoint); [|done]. intros [= <-]. eexists. split; [done|]. by destruct Hs.
  - revert a b a' Hs. apply simulates_guard, simulates_bind.
    + apply simulates_fold. intros id Hid. apply simulates_remove, HT. by constructor.
    + apply simulates_add, HT. constructor.
  - revert a b a' Hs. apply simulates_guard, simulates_fold. intros id Hid. by apply simulates_remove, HT.
  - revert a b a' Hs. apply simulates_guard, simulates_bind.
    + apply simulates_fold. intros id Hid. apply simulates_remove, HT. by constructor.
    + apply simulates_add, HT. constructor.
  - revert a b a' Hs. apply simulates_guard, simulates_fold. intros part Hp.
    do 2 apply simulates_guard. apply simulates_add, HT. by apply list_elem_of_fmap_2.
Qed.

Lemma sim_prune h v a b : sim T a b -> sim T (prune h (with_head v a)) (prune h (with_head v b)).
Proof.
  intros [Hl Hsn ? ? ? ?].
  destruct (prune_fields h (with_head v a)) as (La & Sa & Ha & Ea & Da).
  destruct (prune_fields h (with_head v b)) as (Lb & Sb & Hb & Eb & Db).
  split; rewrite ?La, ?Lb, ?Sa, ?Sb, ?Ha, ?Hb, ?Ea, ?Eb, ?Da, ?Db; try done.
  intros id Hid. rewrite !prune_seen. cbn. rewrite Hl by done. intros [? ?]. split; [by apply Hsn|done].
Qed.

(** An entry the full set accepts is accepted by the stand-in, which goes on standing in. *)
Lemma simulates_apply entry sha :
  (forall id, id ∈ op_touched (op entry) -> T id) -> simulates (fun s => apply_ref s entry sha).
Proof.
  intros HT a b a' Hs. unfold apply_ref. rewrite (sim_head _ _ _ Hs).
  destruct (check_chain (head a) entry) as [[]|]; [|done]. cbn.
  intros (a1 & Ha & [= <-])%bind_ok_inv. destruct (simulates_op entry HT _ _ _ Hs Ha) as (b1 & -> & Hs1).
  eexists. split; [done|]. by apply sim_prune.
Qed.
End simulation.

Section resume.
Context `{Platform}.

Lemma sim_replay log a b a' :
  sim (fun _ => True) a b -> replay log a = Ok a' -> exists b', replay log b = Ok b' /\ sim (fun _ => True) a' b'.
Proof.
  apply simulates_fold. intros es _ x y x' Hs. rewrite !apply_step_ref.
  by apply (simulates_apply (fun _ => True) es.1 es.2).
Qed.

Lemma checkpoint_sim now s tenant cp :
  wf now s -> checkpoint s tenant = Ok cp ->
  exists c, from_checkpoint cp = Ok c /\ sim (fun _ => True) s c.
Proof.
  intros Hw Hc. unfold checkpoint in Hc. inv_ok.
  assert (forall id p, live s !! id = Some p -> part_id p = id) as Hk
    by (intros id p Hp; by apply (wf_live _ _ Hw) in Hp as [? _]).
  destruct (checkpoint_fold (btree_values pid_leb (live s)) empty_set) as (c & Hf & Hl & Hs).
  { rewrite part_ids_btree_values by done. apply NoDup_btree_keys. }
  { apply Forall_forall. intros p [k Hp]%elem_of_btree_values. apply (wf_live _ _ Hw) in Hp as (? & ? & _).
    split; [done|]. cbn. by rewrite lookup_empty. }
  unfold from_checkpoint. cbn. rewrite Hf. cbn. eexists. split; [done|]. split; cbn; try done.
  - intros id _. rewrite Hl, find_part_btree_values by done. destruct (live s !! id); [done|]. apply lookup_empty.
  - intros id _. rewrite Hs, part_ids_btree_values, elem_of_union, elem_of_list_to_set, elem_of_btree_keys by done.
    intros [?|?]; [by eapply wf_live_seen|set_solver].
  - match goal with E : head s = Some ?h |- _ => rewrite E; by destruct h as [[? ?] ?] end.
Qed.
End resume.

(** ** The GC's hydrated working set *)

Section gc.
Context `{Platform} {E : Type}.
Implicit Types s w : LiveSet.

Inductive GcError := GcLoad (e : E) | GcInvalidEntry (e : LogError).

(** [hydrate]: the part and the seen flag the disk index holds for one id. *)
Definition hydrate (load : PartId -> result E (option PartRef * bool)) (next : LiveSet) (id : PartId) :
    result GcError LiveSet :=
  match load id with
  | Err e => Err (GcLoad e)
  | Ok (part, known) =>
      let next := match part with Some part => with_live <[id := part]> next | None => next end in
      Ok (if known then with_seen (fun m => {[id]} ∪ m) next else next)
  end.

(** [LiveSet::gc_working_set] *)
Definition gc_working_set s (entry : LogEntry) (sha : string)
    (load : PartId -> result E (option PartRef * bool)) : result GcError LiveSet :=
  let next := with_edge_ended (edge_ended s) (with_edge (edge s) (with_head (head s) (with_schema (schema s) empty_set))) in
  next ← fold_res (hydrate load) (op_touched (op entry)) next;
  match apply next entry sha with
  | (next, Ok _) => Ok next
  | (_, Err e) => Err (GcInvalidEntry e)
  end.

(** [LiveSet::gc_clear_resident] *)
Definition gc_clear_resident s : LiveSet :=
  mk_live_set ∅ ∅ ∅ ∅ ∅ (schema s) (head s) (edge s) (edge_ended s) ∅.

(** [LiveSet::resident_refs] *)
Definition resident_refs s : nat :=
  sum_list [size (live s); size (seen s); size (removed s); size (removed_refs s); size (added_at s);
            size (consumed s)].

(** The index answers for the set [s]. *)
Definition load_reads (load : PartId -> result E (option PartRef * bool)) s : Prop :=
  forall id, load id = Ok (live s !! id, bool_decide (id ∈ seen s)).

Lemma hydrate_fold load s ids w :
  load_reads load s ->
  exists w', fold_res (hydrate load) ids w = Ok w'
  /\ (forall id, live w' !! id = if decide (id ∈ ids) then
        match live s !! id with Some p => Some p | None => live w !! id end else live w !! id)
  /\ (forall id, id ∈ seen w' <-> id ∈ seen w \/ (id ∈ ids /\ id ∈ seen s))
  /\ schema w' = schema w /\ head w' = head w /\ edge w' = edge w /\ edge_ended w' = edge_ended w.
Proof.
  intros Hload. revert w. induction ids as [|x ids IH]; intros w; cbn.
  { exists w. split; [done|]. split; [by intros; rewrite decide_False by apply not_elem_of_nil|].
    split; [|done]. intros id. rewrite elem_of_nil. tauto. }
  set (w1 := match live s !! x with Some p => with_live <[x := p]> w | None => w end).
  set (w2 := if bool_decide (x ∈ seen s) then with_seen (fun m => {[x]} ∪ m) w1 else w1).
  assert (hydrate load w x = Ok w2) as -> by (unfold hydrate; by rewrite Hload).
  destruct (IH w2) as (w' & Hf & Hl & Hs & Hr). exists w'. split; [done|]. split; [|split].
  - intros id. rewrite Hl. assert (live w2 = live w1) as -> by (subst w2; by destruct (bool_decide _)).
    assert (live w1 !! id = if decide (id = x) then
      match live s !! id with Some p => Some p | None => live w !! id end else live w !! id) as ->.
    { subst w1. destruct (decide (id = x)) as [->|]; destruct (live s !! x); cbn;
        rewrite ?lookup_insert_eq, ?lookup_insert_ne by done; done. }
    destruct (decide (id ∈ ids)), (decide (id ∈ x :: ids)) as [C|C], (decide (id = x)) as [D|D]; try done.
    + by destruct (live s !! id).
    + destruct C. by constructor.
    + destruct C. by constructor.
    + by apply elem_of_cons in C as [?|?].
    + subst. destruct C. by constructor.
  - intros id. rewrite Hs, elem_of_cons. assert (id ∈ seen w2 <-> id ∈ seen w \/ (id = x /\ id ∈ seen s)) as ->; [|tauto].
    assert (seen w1 = seen w) as Ew by (subst w1; by destruct (live s !! x)). subst w2.
    destruct (bool_decide_reflect (x ∈ seen s)); cbn; rewrite Ew; [|split; [tauto|intros [?|[-> ?]]; done]].
    split; [set_solver|]. intros [?|[-> ?]]; set_solver.
  - destruct Hr as (-> & -> & -> & ->). subst w2 w1. by destruct (bool_decide _), (live s !! x).
Qed.

Lemma gc_hydrated load s entry :
  load_reads load s ->
  exists w, fold_res (hydrate load) (op_touched (op entry))
      (with_edge_ended (edge_ended s) (with_edge (edge s) (with_head (head s) (with_schema (schema s) empty_set)))) = Ok w
    /\ sim (fun id => id ∈ op_touched (op entry)) s w /\ sim (fun id => id ∈ op_touched (op entry)) w s.
Proof.
  intros Hload. destruct (hydrate_fold load s (op_touched (op entry))
    (with_edge_ended (edge_ended s) (with_edge (edge s) (with_head (head s) (with_schema (schema s) empty_set)))) Hload)
    as (w & Hf & Hl & Hs & Hsc & Hh & He & Hee). exists w. split; [done|].
  assert (forall id, id ∈ op_touched (op entry) -> live w !! id = live s !! id) as Hl'.
  { intros id Hid. rewrite Hl, decide_True by done. destruct (live s !! id); [done|]. apply lookup_empty. }
  split; split; try done; try (intros id Hid; rewrite Hs; cbn; set_solver).
  intros id Hid. symmetry. by apply Hl'.
Qed.
End gc.
Arguments GcError : clear implicits.

(** ** Totals of the live set *)

Record LivePartTotals := {
  lt_parts : Z; lt_rows : Z; lt_data_bytes : Z; lt_data_files : Z;
  lt_min_time_us : option Z; lt_max_time_us : option Z; lt_last_added_at_ms : option Z }.

Definition totals_default : LivePartTotals :=
  {| lt_parts := 0; lt_rows := 0; lt_data_bytes := 0; lt_data_files := 0;
     lt_min_time_us := None; lt_max_time_us := None; lt_last_added_at_ms := None |}.

(** [o.map_or(x, |t| f(t, x))] *)
Definition map_or_with (f : Z -> Z -> Z) (o : option Z) (x : Z) : Z := match o with Some t => f t x | None => x end.

Definition totals_step (s : LiveSet) (totals : LivePartTotals) (part : PartRef) : LivePartTotals :=
  {| lt_parts := wrap_u64 (lt_parts totals + 1);
     lt_rows := sat_u64 (lt_rows totals + rows part);
     lt_data_bytes := sat_u64 (lt_data_bytes totals + data_bytes part);
     lt_data_files := sat_u64 (lt_data_files totals + data_files part);
     lt_min_time_us := Some (map_or_with Z.min (lt_min_time_us totals) (min_time_us part));
     lt_max_time_us := Some (map_or_with Z.max (lt_max_time_us totals) (max_time_us part));
     lt_last_added_at_ms := match added_at s !! part_id part with
       | Some at_ms => Some (map_or_with Z.max (lt_last_added_at_ms totals) at_ms)
       | None => lt_last_added_at_ms totals
       end |}.

(** [LiveSet::totals] *)
Definition totals (s : LiveSet) : LivePartTotals :=
  fold_left (totals_step s) (btree_values pid_leb (live s)) totals_default.

(** [LiveSet::removed_before] *)
Definition removed_before (s : LiveSet) (before_ms : Z) : list PartId :=
  List.filter (fun id => match removed s !! id with Some v => v.2 <=? before_ms | None => false end)
    (btree_keys pid_leb (removed s)).

Definition sum_Z (l : list Z) : Z := foldr Z.add 0 l.

Lemma sat_u64_add a b c : 0 <= a -> 0 <= b -> 0 <= c -> sat_u64 (sat_u64 (a + b) + c) = sat_u64 (a + (b + c)).
Proof. unfold sat_u64, u64_max. lia. Qed.

(** The fold from any totals, over parts whose counters fit their width. *)
Lemma totals_fold s parts t :
  Forall (fun p => 0 <= rows p /\ 0 <= data_bytes p /\ 0 <= data_files p) parts ->
  0 <= lt_rows t -> 0 <= lt_data_bytes t -> 0 <= lt_data_files t ->
  let r := fold_left (totals_step s) parts t in
  wrap_u64 (lt_parts r) = wrap_u64 (lt_parts t + Z.of_nat (length parts))
  /\ sat_u64 (lt_rows r) = sat_u64 (lt_rows t + sum_Z (rows <$> parts))
  /\ sat_u64 (lt_data_bytes r) = sat_u64 (lt_data_bytes t + sum_Z (data_bytes <$> parts))
  /\ sat_u64 (lt_data_files r) = sat_u64 (lt_data_files t + sum_Z (data_files <$> parts)).
Proof.
  revert t. induction parts as [|p parts IH]; intros t Hp Hr Hb Hf; cbn [fold_left length fmap list_fmap sum_Z foldr].
  { by rewrite !Z.add_0_r. }
  apply Forall_cons in Hp as [(? & ? & ?) Hp].
  destruct (IH (totals_step s t p) Hp) as (E1 & E2 & E3 & E4); [unfold totals_step, sat_u64, u64_max; cbn; lia..|].
  rewrite E1, E2, E3, E4. clear E1 E2 E3 E4. cbn.
  assert (Forall (fun z => 0 <= z) (rows <$> parts) /\ Forall (fun z => 0 <= z) (data_bytes <$> parts)
    /\ Forall (fun z => 0 <= z) (data_files <$> parts)) as (N1 & N2 & N3).
  { rewrite !Forall_fmap. repeat split; (eapply Forall_impl; [exact Hp|]); cbn; intuition. }
  assert (forall l, Forall (fun z => 0 <= z) l -> 0 <= sum_Z l) as Hpos.
  { intros l Hl. unfold sum_Z. induction Hl; cbn; lia. }
  apply Hpos in N1, N2, N3. unfold sum_Z in N1, N2, N3.
  split; [|split; [|split]]; [|by apply sat_u64_add..]. unfold wrap_u64, u64_max.
  rewrite Z.add_mod_idemp_l by lia. f_equal. lia.
Qed.

Lemma foldr_min_init d x l : foldr Z.min (Z.min d x) l = Z.min x (foldr Z.min d l).
Proof. induction l as [|y l IH]; cbn; lia. Qed.
Lemma foldr_max_init d x l : foldr Z.max (Z.max d x) l = Z.max x (foldr Z.max d l).
Proof. induction l as [|y l IH]; cbn; lia. Qed.

Lemma totals_bounds_fold s parts t :
  let r := fold_left (totals_step s) parts t in
  lt_min_time_us r = min_list (option_list (lt_min_time_us t) ++ (min_time_us <$> parts))
  /\ lt_max_time_us r = max_list (option_list (lt_max_time_us t) ++ (max_time_us <$> parts)).
Proof.
  revert t. induction parts as [|p parts IH]; intros t; cbn [fold_left fmap list_fmap].
  { rewrite !app_nil_r. by destruct (lt_min_time_us t), (lt_max_time_us t). }
  destruct (IH (totals_step s t p)) as [-> ->]. cbn.
  destruct (lt_min_time_us t), (lt_max_time_us t); cbn; by rewrite ?foldr_min_init, ?foldr_max_init.
Qed.

Lemma totals_u64 s parts t :
  in_u64 (lt_parts t) /\ in_u64 (lt_rows t) /\ in_u64 (lt_data_bytes t) /\ in_u64 (lt_data_files t) ->
  let r := fold_left (totals_step s) parts t in
  in_u64 (lt_parts r) /\ in_u64 (lt_rows r) /\ in_u64 (lt_data_bytes r) /\ in_u64 (lt_data_files r).
Proof.
  revert t. induction parts as [|p parts IH]; intros t Ht; cbn [fold_left]; [done|].
  apply IH. unfold totals_step, in_u64, wrap_u64, sat_u64, u64_max in *. cbn.
  pose proof (Z.mod_pos_bound (lt_parts t + 1) (18446744073709551615 + 1)). lia.
Qed.

(** ** Properties *)

(** C19: a set rebuilt from a checkpoint stands in for the set of the full log: the checkpoint
    of any folded log whose entry times do not go back loads, and every later log the full set accepts is accepted from the
    checkpoint with the same live parts, schema, head and edge points at the end; the
    rebuilt set only ever remembers ids the full one remembers. *)
Theorem checkpoint_resume `{Platform} log1 log2 s1 s2 tenant cp :
  Sorted Z.le (log_times log1) -> replay log1 empty_set = Ok s1 -> checkpoint s1 tenant = Ok cp ->
  replay log2 s1 = Ok s2 ->
  exists c1 c2, from_checkpoint cp = Ok c1 /\ replay log2 c1 = Ok c2
    /\ live c2 = live s2 /\ schema c2 = schema s2 /\ head c2 = head s2
    /\ edge c2 = edge s2 /\ edge_ended c2 = edge_ended s2 /\ seen c2 ⊆ seen s2.
Proof.
  intros Ht H1 Hc H2. destruct (history_log _ _ Ht H1) as [now [Hw _ _ _ _ _]].
  destruct (checkpoint_sim _ _ _ _ Hw Hc) as (c1 & Hc1 & Hs1).
  destruct (sim_replay _ _ _ _ Hs1 H2) as (c2 & Hc2 & [Hl Hs ? ? ? ?]).
  exists c1, c2. do 2 (split; [done|]). split; [apply map_eq; intros id; by apply Hl|].
  do 4 (split; [done|]). intros id Hid. by apply Hs.
Qed.

Lemma checkpoint_resume_witness :
  let P := ToyPlatform.toy in
  exists s1 s2 cp c1 c2, replay LogExample.log empty_set = Ok s1 /\ checkpoint s1 LogExample.tenant = Ok cp
    /\ replay [LogExample.mk 4 400 (Retire [LogExample.pid3] Retention "u")] s1 = Ok s2
    /\ from_checkpoint cp = Ok c1
    /\ replay [LogExample.mk 4 400 (Retire [LogExample.pid3] Retention "u")] c1 = Ok c2 /\ live c2 = live s2.
Proof.
  intros P. set (log2 := [LogExample.mk 4 400 (Retire [LogExample.pid3] Retention "u")]).
  set (s1 := unwrap empty_set (replay LogExample.log empty_set)).
  assert (replay LogExample.log empty_set = Ok s1) as H1 by (apply unwrap_ok; vm_compute; reflexivity).
  destruct (checkpoint s1 LogExample.tenant) as [cp|e] eqn:Hc; [|exfalso].
  2: { assert (is_ok (checkpoint s1 LogExample.tenant) = true) as C by (vm_compute; reflexivity). rewrite Hc in C. discriminate C. }
  destruct (replay log2 s1) as [s2|e] eqn:H2; [|exfalso].
  2: { assert (is_ok (replay log2 s1) = true) as C by (vm_compute; reflexivity). rewrite H2 in C. discriminate C. }
  destruct (checkpoint_resume LogExample.log log2 s1 s2 LogExample.tenant cp LogExample.log_sorted H1 Hc H2)
    as (c1 & c2 & Hc1 & Hc2 & Hl & _).
  exists s1, s2, cp, c1, c2. exact (conj H1 (conj Hc (conj H2 (conj Hc1 (conj Hc2 Hl))))).
Defined.

(** The converse fails, because a checkpoint carries no removed ids: after a retire, a set
    rebuilt from the checkpoint accepts the same part id again, which the full log refuses as
    added twice. *)
Theorem checkpoint_forgets_removed :
  let P := ToyPlatform.toy in
  let log1 := LogExample.log ++ [LogExample.mk 4 400 (Retire [LogExample.pid3] Retention "u")] in
  let again := LogExample.mk 5 450 (Add [LogExample.part LogExample.pid3 L0] [LogExample.src "z"] None) in
  exists s1 cp c1 c2, replay log1 empty_set = Ok s1 /\ checkpoint s1 LogExample.tenant = Ok cp /\ from_checkpoint cp = Ok c1
    /\ replay [again] s1 = Err AddedTwice /\ replay [again] c1 = Ok c2.
Proof.
  intros P log1 again. set (s1 := unwrap empty_set (replay log1 empty_set)).
  set (cp0 := {| cp_format := ""; cp_tenant_id := ""; cp_seq := 0; cp_entry_sha256 := ""; cp_writer_epoch := 0;
                 cp_schema := LogExample.sc; cp_live := []; cp_edge_log := None; cp_edge_ended := None |}).
  set (cp := unwrap cp0 (checkpoint s1 LogExample.tenant)). set (c1 := unwrap empty_set (from_checkpoint cp)).
  exists s1, cp, c1, (unwrap empty_set (replay [again] c1)).
  do 3 (split; [apply unwrap_ok; vm_compute; reflexivity|]).
  split; [vm_compute; reflexivity|apply unwrap_ok; vm_compute; reflexivity].
Qed.

(** The GC's working set, hydrated with only the ids an entry touches, decides the entry
    exactly as the full set does, and agrees with it afterwards on the live parts and the
    memory of those ids and on the chain, schema and edge state. *)
Theorem gc_working_set_exact `{Platform} {E} (load : PartId -> result E (option PartRef * bool)) s entry sha :
  load_reads load s ->
  (is_ok (gc_working_set s entry sha load) = is_ok (replay [(entry, sha)] s))
  /\ forall w s', gc_working_set s entry sha load = Ok w -> replay [(entry, sha)] s = Ok s' ->
     (forall id, id ∈ op_touched (op entry) -> live w !! id = live s' !! id /\ (id ∈ seen w <-> id ∈ seen s'))
     /\ schema w = schema s' /\ head w = head s' /\ edge w = edge s' /\ edge_ended w = edge_ended s'.
Proof.
  intros Hload. destruct (gc_hydrated load s entry Hload) as (w0 & Hf & Hs & Hs').
  unfold gc_working_set. rewrite Hf. cbn. unfold replay. cbn. rewrite apply_step_ref. cbn.
  rewrite apply_apply_ref. set (T := fun id => id ∈ op_touched (op entry)) in *.
  assert (forall id, id ∈ op_touched (op entry) -> T id) as HT by done.
  pose proof (simulates_apply T entry sha HT) as Hsim.
  destruct (apply_ref s entry sha) as [s'|e] eqn:Es, (apply_ref w0 entry sha) as [w'|e'] eqn:Ew; cbn.
  - destruct (Hsim _ _ _ Hs Es) as (b & Eb & Hb). destruct (Hsim _ _ _ Hs' Ew) as (c & Ec & Hc).
    rewrite Ew in Eb. rewrite Es in Ec. injection Eb as <-. injection Ec as <-.
    split; [done|]. intros w s'' [= <-] [= <-]. destruct Hb as [L1 S1 ? ? ? ?], Hc as [L2 S2 _ _ _ _].
    split; [|done]. intros id Hid. split; [by apply L1|]. split; [by apply S1|by apply S2].
  - destruct (Hsim _ _ _ Hs Es) as (b & Eb & Hb). congruence.
  - destruct (Hsim _ _ _ Hs' Ew) as (b & Eb & Hb). congruence.
  - done.
Qed.

Lemma gc_working_set_exact_witness :
  let P := ToyPlatform.toy in
  let s := LogExample.final LogExample.log in
  let es := LogExample.mk 4 400 (Retire [LogExample.pid3] Retention "u") in
  let load := fun id => Ok (live s !! id, bool_decide (id ∈ seen s)) : result unit _ in
  is_ok (gc_working_set s es.1 es.2 load) = is_ok (replay [(es.1, es.2)] s)
  /\ is_ok (replay [es] s) = true.
Proof.
  intros P s es load. split; [|vm_compute; reflexivity].
  apply (gc_working_set_exact load s es.1 es.2). intros id. reflexivity.
Defined.

(** The totals of the live set: the number of live parts, the sums of their rows, bytes
    and files saturated at 64 bits, and the exact event-time bounds. *)
Theorem totals_exact s :
  (forall id p, live s !! id = Some p -> part_id p = id /\ 0 <= rows p /\ 0 <= data_bytes p /\ 0 <= data_files p) ->
  Z.of_nat (size (live s)) <= u64_max ->
  let parts := btree_values pid_leb (live s) in
  lt_parts (totals s) = Z.of_nat (size (live s))
  /\ lt_rows (totals s) = sat_u64 (sum_Z (rows <$> parts))
  /\ lt_data_bytes (totals s) = sat_u64 (sum_Z (data_bytes <$> parts))
  /\ lt_data_files (totals s) = sat_u64 (sum_Z (data_files <$> parts))
  /\ lt_min_time_us (totals s) = min_list (min_time_us <$> parts)
  /\ lt_max_time_us (totals s) = max_list (max_time_us <$> parts).
Proof.
  intros Hp Hsz parts.
  assert (length parts = size (live s)) as Hlen.
  { rewrite <- (length_fmap part_id). unfold parts. rewrite part_ids_btree_values by (intros ? ? ?; by eapply Hp).
    unfold btree_keys. rewrite length_sort_by, length_fmap. apply length_map_to_list. }
  destruct (totals_fold s parts totals_default) as (E1 & E2 & E3 & E4); [|cbn; lia..|].
  { apply Forall_forall. intros p [k Hk]%elem_of_btree_values. by apply Hp in Hk as (_ & ?). }
  destruct (totals_u64 s parts totals_default) as (U1 & U2 & U3 & U4); [unfold in_u64, u64_max; cbn; lia|].
  destruct (totals_bounds_fold s parts totals_default) as [B1 B2].
  fold (totals s) in *. cbn in E1, E2, E3, E4. rewrite !sat_u64_id in * by done.
  rewrite Hlen, !wrap_u64_id in E1 by (done || (unfold in_u64; lia)).
  done.
Qed.

Lemma totals_exact_witness :
  let s := with_live <[LogExample.pid1 := LogExample.part LogExample.pid1 L0]>
             (with_live <[LogExample.pid2 := LogExample.part LogExample.pid2 L0]> empty_set) in
  lt_parts (totals s) = Z.of_nat (size (live s)) /\ lt_parts (totals s) = 2 /\ lt_rows (totals s) = 20.
Proof.
  intros s. split; [|vm_compute; done]. apply (totals_exact s).
  - intros id p. cbn. rewrite !lookup_insert_Some, lookup_empty.
    intros [[<- <-]|[_ [[<- <-]|[_ ?]]]]; [cbn; lia || (split; [done|lia])..|done].
  - vm_compute. discriminate.
Defined.
