(* ===== verification/ObjectStore.v ===== *)
(** * ObjectStore: the storage seam of the part log

    The [ObjectStore] trait of [parts/part_log.rs] as a class over a world [W], the laws its
    documentation promises to the log ([StoreLaws], [Reliable]), and [LocalObjectStore], the
    directory-backed store of the same file, as an instance that satisfies them. *)
From S2P Require Import Prelude Platform Format PartTypes.

(** ** Fallible computations that change a world

    An error keeps the world: what was sent to the store stays sent. *)

Inductive StoreError := OwnerConflict | LogKeyHeld | NativePutUnresolved | StoreInvalidKey | StoreOther.

#[export] Instance StoreError_eq_dec : EqDecision StoreError.
Proof. solve_decision. Defined.

Inductive Fail :=
| FStore (e : StoreError) | FLog (e : LogError) | FFormat (e : FormatError)
| FEntryEncode | FEntryTooLarge | FEntryParse | FEntryTenant | FEntryNotCanonical
| FCheckpointEncode | FCheckpointTooLarge | FCheckpointParse | FCheckpointTenant
| FMissingEntry | FCheckpointMismatch | FVanished | FFenced (seq : Z) | FGate | FStaleEpoch | FOutOfFuel.

#[export] Instance Fail_eq_dec : EqDecision Fail.
Proof. solve_decision. Defined.

Definition IO (S A : Type) : Type := S -> S * result Fail A.

#[export] Instance IO_ret {S} : MRet (IO S) := fun A a s => (s, Ok a).
#[export] Instance IO_bind {S} : MBind (IO S) := fun A B k m s =>
  match m s with (s', Ok a) => k a s' | (s', Err e) => (s', Err e) end.

Definition io_lift {S A} (r : result Fail A) : IO S A := fun s => (s, r).
Definition io_gets {S A} (f : S -> A) : IO S A := fun s => (s, Ok (f s)).
Definition io_set {S} (f : S -> S) : IO S unit := fun s => (f s, Ok ()).
(** Run [m] and hand its result, error or not, to the continuation. *)
Definition io_try {S A} (m : IO S A) : IO S (result Fail A) := fun s => let '(s', r) := m s in (s', Ok r).
(** A computation on the store, inside a larger state. *)
Definition on_store {X W A} (m : IO W A) : IO (X * W) A :=
  fun s => let '(w, r) := m s.2 in ((s.1, w), r).

Definition log_res {A} (r : result LogError A) : result Fail A :=
  match r with Ok a => Ok a | Err e => Err (FLog e) end.
Definition format_res {A} (r : result FormatError A) : result Fail A :=
  match r with Ok a => Ok a | Err e => Err (FFormat e) end.

Lemma bind_IO {S A B} (m : IO S A) (k : A -> IO S B) s :
  (m ≫= k) s = match m s with (s', Ok a) => k a s' | (s', Err e) => (s', Err e) end.
Proof. done. Qed.

Lemma bind_IO_ok {S A B} (m : IO S A) (k : A -> IO S B) s s' b :
  (m ≫= k) s = (s', Ok b) -> exists s1 a, m s = (s1, Ok a) /\ k a s1 = (s', Ok b).
Proof. rewrite bind_IO. destruct (m s) as [s1 [a|e]]; [by exists s1, a|done]. Qed.

(** ** The trait *)

Inductive WriterClass := LakePart | LakePartLog.

#[export] Instance WriterClass_eq_dec : EqDecision WriterClass.
Proof. solve_decision. Defined.

(** What the owner authorization of one write needs besides the key and bytes. *)
Record WriteHints := { wh_class : WriterClass; wh_event_hour : Z; wh_min_time_ms : Z; wh_max_time_ms : Z }.

(** The operations the log uses. The world covers the store and whatever else writes to it:
    an operation may also show what other principals stored in the meantime. *)
Class ObjectStore (W : Type) := {
  os_get : string -> IO W (option string);
  os_put_if_absent_with : string -> string -> WriteHints -> IO W bool;
  os_list : string -> IO W (list string) }.

(** What the trait's documentation promises of the log's objects: they are immutable, a read
    returns what is stored, [Ok(true)] means these bytes are stored, [Ok(false)] that the key
    is taken. An error promises nothing: the bytes may have landed. *)
Class StoreLaws (W : Type) `{ObjectStore W} (objects : W -> gmap string string) : Prop := {
  get_grows : forall key w, objects w ⊆ objects (os_get key w).1;
  put_grows : forall key bytes hints w, objects w ⊆ objects (os_put_if_absent_with key bytes hints w).1;
  list_grows : forall prefix w, objects w ⊆ objects (os_list prefix w).1;
  get_some : forall key w w' bytes, os_get key w = (w', Ok (Some bytes)) -> objects w' !! key = Some bytes;
  put_true : forall key bytes hints w w',
    os_put_if_absent_with key bytes hints w = (w', Ok true) -> objects w' !! key = Some bytes }.

(** A store at rest that serves the keys in [K]: no error, nobody else writes. *)
Class Reliable (W : Type) `{ObjectStore W} (objects : W -> gmap string string) (K : string -> Prop) : Prop := {
  get_exact : forall key w, K key -> os_get key w = (w, Ok (objects w !! key));
  list_exact : forall prefix w, exists keys, os_list prefix w = (w, Ok keys)
    /\ StronglySorted (fun a b => String.leb a b = true) keys
    /\ forall key, key ∈ keys -> is_Some (objects w !! key) /\ is_Some (strip_prefix prefix key) }.

Section list_page.
Context {W : Type} `{ObjectStore W}.

(** The default [ObjectStore::list_page]. *)
Definition list_page (prefix : string) (start_after : option string) (limit : nat) : IO W (list string) :=
  keys ← os_list prefix;
  mret (take limit (sort_by String.leb
    (List.filter (fun key => match start_after with
                             | None => true
                             | Some after => bool_decide (String.compare key after = Gt)
                             end) keys))).
End list_page.

(** ** [LocalObjectStore]: a directory of files

    The directory is a map from keys to file contents; a hard link to a fully written
    temporary file is an atomic create-if-absent. *)

Module LocalObjectStore.
Abbreviation Store := (gmap string string).

(** [LocalObjectStore::path]: the keys the store accepts. *)
Definition path_ok (key : string) : bool :=
  negb (bool_decide (key = EmptyString))
  && negb (bool_decide (str_get 0 key = Some "/"%char))
  && forallb (fun s => negb (bool_decide (s ∈ [EmptyString; "."; ".."]))) (split_on "/" key).

Definition checked {A} (key : string) (m : IO Store A) : IO Store A :=
  if path_ok key then m else io_lift (Err (FStore StoreInvalidKey)).

Definition get (key : string) : IO Store (option string) := checked key (io_gets (fun w => w !! key)).

(** The link fails when the key exists, and the existing bytes stay. *)
Definition put_if_absent (key bytes : string) : IO Store bool :=
  checked key (existing ← io_gets (fun w => w !! key);
               match existing with
               | Some _ => mret false
               | None => _ ← io_set <[key := bytes]>; mret true
               end).
(** [rename] replaces. *)
Definition put (key bytes : string) : IO Store unit := checked key (io_set <[key := bytes]>).
Definition delete_object (key : string) : IO Store unit := checked key (io_set (delete key)).
Definition object_size (key : string) : IO Store (option Z) :=
  checked key (io_gets (fun w => str_len <$> (w !! key))).

(** Bytes [[first, last)]; a reversed, oversized or overlong range is refused. *)
Definition get_range (max_object_bytes : Z) (key : string) (first last : Z) : IO Store (option string) :=
  checked key (file ← io_gets (fun w => w !! key);
               match file with
               | None => mret None
               | Some body =>
                   if (last <? first) || (max_object_bytes <? last - first) || (str_len body <? last)
                   then io_lift (Err (FStore StoreOther))
                   else mret (Some (str_take (Z.to_nat (last - first)) (str_drop (Z.to_nat first) body)))
               end).

(** The name after the last slash starts with [.tmp-]. *)
Definition is_temp (key : string) : bool :=
  match list.last (split_on "/" key) with
  | Some name => bool_decide (is_Some (strip_prefix ".tmp-" name))
  | None => false
  end.
(** Keys under a prefix, sorted. *)
Definition list_keys (prefix : string) : IO Store (list string) :=
  io_gets (fun w => sort_by String.leb
    (List.filter (fun key => bool_decide (is_Some (strip_prefix prefix key)) && negb (is_temp key))
      (map_to_list w).*1)).

#[export] Instance local_store : ObjectStore Store := {|
  os_get := get;
  os_put_if_absent_with key bytes _ := put_if_absent key bytes;
  os_list := list_keys |}.

Lemma put_if_absent_grows key bytes w : w ⊆ (put_if_absent key bytes w).1.
Proof.
  unfold put_if_absent, checked. destruct (path_ok key); [|done]. rewrite bind_IO. cbn.
  destruct (w !! key) eqn:E; [done|]. cbn. by apply insert_subseteq.
Qed.

#[export] Instance local_laws : StoreLaws Store id.
Proof.
  split.
  - intros key w. cbn. unfold get, checked. by destruct (path_ok key).
  - intros key bytes hints w. apply put_if_absent_grows.
  - done.
  - intros key w w' bytes. cbn. unfold get, checked. destruct (path_ok key); [|done]. by intros [= <- ?].
  - intros key bytes hints w w'. cbn. unfold put_if_absent, checked. destruct (path_ok key); [|done].
    rewrite bind_IO. cbn. destruct (w !! key) eqn:E; cbn; [done|]. intros [= <-]. apply lookup_insert_eq.
Qed.

#[export] Instance local_reliable : Reliable Store id (fun key => path_ok key = true).
Proof.
  split.
  - intros key w Hk. cbn. unfold get, checked. by rewrite Hk.
  - intros prefix w. cbn. eexists. split; [done|]. split.
    + apply sort_by_sorted; [|apply str_leb_trans]. intros a b.
      destruct (String.leb a b) eqn:E; [by left|right]. by destruct (String.leb_total a b) as [?|?]; [congruence|].
    + intros key Hk%elem_of_sort_by. apply list_elem_of_In, filter_In in Hk as [Hk Hp].
      apply andb_true_iff in Hp as [Hp%bool_decide_eq_true _]. split; [|done].
      apply list_elem_of_In, list_elem_of_fmap in Hk as ([k v] & -> & Hk). apply elem_of_map_to_list in Hk. by eexists.
Qed.
End LocalObjectStore.

(** ** Properties *)

(** The local store's conditional create: exactly one of two creates of a key wins, the
    winner's bytes are what every later read returns, a loser changes nothing, and a refused
    key touches no file. *)
Theorem put_if_absent_once key a b (w w1 w2 : gmap string string) r1 r2 :
  LocalObjectStore.put_if_absent key a w = (w1, r1) -> LocalObjectStore.put_if_absent key b w1 = (w2, r2) ->
  w2 = w1 /\ (r2 = Ok false \/ (r1 = Err (FStore StoreInvalidKey) /\ r2 = r1 /\ w1 = w))
  /\ (forall k, k <> key -> w1 !! k = w !! k)
  /\ (r1 = Ok true -> w !! key = None /\ LocalObjectStore.get key w2 = (w2, Ok (Some a)))
  /\ (r1 = Ok false -> w1 = w).
Proof.
  unfold LocalObjectStore.put_if_absent, LocalObjectStore.get, LocalObjectStore.checked.
  destruct (LocalObjectStore.path_ok key); [|by intros [= <- <-] [= <- <-]; naive_solver].
  rewrite !bind_IO. cbn. destruct (w !! key) as [e|] eqn:E; cbn.
  - intros [= <- <-]. rewrite E. intros [= <- <-]. naive_solver.
  - rewrite bind_IO. cbn [io_set mret IO_ret]. intros [= <- <-].
    pose proof (lookup_insert_eq w key a) as Ei. rewrite Ei. intros [= <- <-].
    split; [done|]. split; [by left|]. split; [intros k Hk; by apply lookup_insert_ne|].
    split; [|done]. intros _. split; [done|]. unfold io_gets. by rewrite Ei.
Qed.

Lemma put_if_absent_once_witness :
  let w1 := <["a" := "x"]> (∅ : gmap string string) in
  LocalObjectStore.put_if_absent "a" "x" ∅ = (w1, Ok true)
  /\ LocalObjectStore.put_if_absent "a" "y" w1 = (w1, Ok false)
  /\ LocalObjectStore.get "a" w1 = (w1, Ok (Some "x")).
Proof.
  intros w1.
  assert (LocalObjectStore.put_if_absent "a" "x" ∅ = (w1, Ok true)) as E1 by reflexivity.
  assert (LocalObjectStore.put_if_absent "a" "y" w1 = (w1, Ok false)) as E2.
  { unfold LocalObjectStore.put_if_absent, LocalObjectStore.checked.
    change (LocalObjectStore.path_ok "a") with true. cbn iota. rewrite bind_IO. unfold io_gets at 1, w1.
    by rewrite lookup_insert_eq. }
  split; [exact E1|]. split; [exact E2|].
  apply (put_if_absent_once "a" "x" "y" ∅ w1 w1 (Ok true) (Ok false) E1 E2). reflexivity.
Defined.
