(* ===== verification/LogReader.v ===== *)
(** * LogReader: loading a tenant's log

    [LogEntry]/[Checkpoint] byte forms, [load_log], [catch_up] with its doubling fetch
    window, and the schema-only view ([LogSchemaView], [load_log_schema]) of
    [parts/part_log.rs]. *)
From S2P Require Import Prelude Platform Format EdgeLog PartTypes LiveSet LiveSetFacts Replay Checkpoints ObjectStore.

(** What [load_log_schema] reads of a checkpoint. *)
Record CheckpointSchemaOnly := {
  cs_format : string; cs_tenant_id : string; cs_seq : Z; cs_entry_sha256 : string; cs_writer_epoch : Z;
  cs_schema : LogSchema }.

(** The JSON forms ([serde_json] and [canonical_json_bytes]): the encoder may refuse, and
    what it writes decodes to the same value. *)
Class LogCodec := {
  entry_json : LogEntry -> option string;
  entry_of_json : string -> option LogEntry;
  checkpoint_json : Checkpoint -> option string;
  checkpoint_of_json : string -> option Checkpoint;
  checkpoint_schema_of_json : string -> option CheckpointSchemaOnly }.

Definition schema_only (cp : Checkpoint) : CheckpointSchemaOnly :=
  {| cs_format := cp_format cp; cs_tenant_id := cp_tenant_id cp; cs_seq := cp_seq cp;
     cs_entry_sha256 := cp_entry_sha256 cp; cs_writer_epoch := cp_writer_epoch cp; cs_schema := cp_schema cp |}.

Class LogCodecLaws (C : LogCodec) : Prop := {
  entry_json_roundtrip : forall e b, entry_json e = Some b -> entry_of_json b = Some e;
  checkpoint_json_roundtrip : forall cp b, checkpoint_json cp = Some b -> checkpoint_of_json b = Some cp;
  checkpoint_schema_reads : forall b cp, checkpoint_of_json b = Some cp ->
    checkpoint_schema_of_json b = Some (schema_only cp) }.

Section bytes.
Context `{LogCodec}.

(** [LogEntry::to_bytes] *)
Definition entry_to_bytes (self : LogEntry) : result Fail string :=
  bytes ← of_option (entry_json self) FEntryEncode;
  _ ← ensure (negb (MAX_ENTRY_BYTES <? str_len bytes)) FEntryTooLarge;
  Ok bytes.

(** [LogEntry::parse_bytes] *)
Definition entry_parse_bytes (bytes tenant : string) : result Fail LogEntry :=
  _ ← ensure (negb (MAX_ENTRY_BYTES <? str_len bytes)) FEntryTooLarge;
  entry ← of_option (entry_of_json bytes) FEntryParse;
  _ ← ensure (bool_decide (format entry = LOG_FORMAT) && bool_decide (tenant_id entry = tenant)) FEntryTenant;
  canonical ← entry_to_bytes entry;
  _ ← ensure (bool_decide (canonical = bytes)) FEntryNotCanonical;
  Ok entry.

(** [Checkpoint::to_bytes]: [None] when it does not fit one object. *)
Definition checkpoint_to_bytes (self : Checkpoint) : result Fail (option string) :=
  bytes ← of_option (checkpoint_json self) FCheckpointEncode;
  Ok (if str_len bytes <=? MAX_CHECKPOINT_BYTES then Some bytes else None).

(** [Checkpoint::parse_bytes] *)
Definition checkpoint_parse_bytes (bytes tenant : string) : result Fail Checkpoint :=
  _ ← ensure (negb (MAX_CHECKPOINT_BYTES <? str_len bytes)) FCheckpointTooLarge;
  checkpoint ← of_option (checkpoint_of_json bytes) FCheckpointParse;
  _ ← ensure (bool_decide (cp_format checkpoint = CHECKPOINT_FORMAT)
              && bool_decide (cp_tenant_id checkpoint = tenant)) FCheckpointTenant;
  Ok checkpoint.

(** An entry is readable exactly in the bytes its writer stores, and in no others. *)
Lemma entry_parse_inv bytes tenant e :
  entry_parse_bytes bytes tenant = Ok e ->
  entry_to_bytes e = Ok bytes /\ format e = LOG_FORMAT /\ tenant_id e = tenant.
Proof.
  unfold entry_parse_bytes. intros Hp. inv_ok.
  repeat match goal with
    | E : _ && _ = true |- _ => apply andb_true_iff in E as [? ?]
    | E : bool_decide _ = true |- _ => apply bool_decide_eq_true in E
    end. by subst.
Qed.

Lemma entry_to_bytes_parse `{!LogCodecLaws _} e bytes :
  entry_to_bytes e = Ok bytes -> format e = LOG_FORMAT -> entry_parse_bytes bytes (tenant_id e) = Ok e.
Proof.
  intros He Hf. unfold entry_parse_bytes. pose proof He as He'. unfold entry_to_bytes in He'. inv_ok.
  match goal with E : negb _ = true |- _ => rewrite E end.
  match goal with E : entry_json _ = Some _ |- _ => rewrite (entry_json_roundtrip _ _ E) end.
  cbn [ensure of_option mbind result_bind]. rewrite !bool_decide_eq_true_2 by done. cbn [ensure mbind result_bind andb].
  rewrite He. cbn [ensure mbind result_bind]. by rewrite bool_decide_eq_true_2.
Qed.
End bytes.

(** [(first..end)] on [u64]. *)
Definition u64_range (first last : Z) : list Z := seqZ first (last - first).

(** ** The fetch loop, shared by the two readers

    [X] is the reader's state, with its head and its [apply]. *)

Definition CATCH_UP_MAX_WINDOW : Z := 32.

Section catch_up.
Context `{Platform} `{LogCodec} {W : Type} `{ObjectStore W} {X : Type}.
Context (xhead : X -> option (Z * string * Z)) (xapply : X -> LogEntry -> string -> X * result LogError unit).

(** [try_join_all] of the window's GETs. *)
Fixpoint fetch_all (keys : list string) : IO W (list (option string)) :=
  match keys with
  | [] => mret []
  | key :: keys => bytes ← os_get key; rest ← fetch_all keys; mret (bytes :: rest)
  end.

Definition apply_io (entry : LogEntry) (sha : string) : IO (X * W) unit :=
  fun s => let '(x, r) := xapply s.1 entry sha in ((x, s.2), log_res r).

(** Apply the fetched entries in order; [false] when the first missing one is reached. *)
Fixpoint apply_fetched (tenant : string) (fetched : list (option string)) (applied : Z) : IO (X * W) (Z * bool) :=
  match fetched with
  | [] => mret (applied, true)
  | None :: _ => mret (applied, false)
  | Some bytes :: rest =>
      entry ← io_lift (entry_parse_bytes bytes tenant);
      _ ← apply_io entry (sha256_hex bytes);
      apply_fetched tenant rest (wrap_u64 (applied + 1))
  end.

(** The loop of [catch_up] and [catch_up_schema], on [fuel] windows. *)
Fixpoint catch_up_loop (fuel : nat) (root tenant : string) (window applied : Z) : IO (X * W) Z :=
  match fuel with
  | O => io_lift (Err FOutOfFuel)
  | S fuel =>
      first ← io_gets (fun s => expected_seq (xhead s.1));
      fetched ← on_store (fetch_all (entry_key root <$> u64_range first (wrap_u64 (first + window))));
      let complete := forallb (fun b => bool_decide (is_Some b)) fetched in
      '(applied, go_on) ← apply_fetched tenant fetched applied;
      if go_on : bool
      then catch_up_loop fuel root tenant
             (if complete then Z.min (wrap_u64 (window * 2)) CATCH_UP_MAX_WINDOW else window) applied
      else mret applied
  end.

Definition catch_up_with (fuel : nat) (tenant : string) : IO (X * W) Z :=
  root ← io_lift (format_res (LogKeys_new tenant));
  catch_up_loop fuel root tenant 1 0.
End catch_up.

(** ** The schema-only view *)

Section schema_view.
Context `{Platform}.

Record LogSchemaView := { lv_head : option (Z * string * Z); lv_schema : option LogSchema }.

Definition view_default : LogSchemaView := {| lv_head := None; lv_schema := None |}.

(** The schema an entry leaves. *)
Definition view_op (self : LogSchemaView) (entry : LogEntry) : result LogError (option LogSchema) :=
  match op entry with
  | Genesis sc => if seq entry =? 0 then _ ← to_arrow sc; Ok (Some sc) else Err GenesisAfterZero
  | Schema sc => if seq entry =? 0 then Err MustBeGenesis else _ ← to_arrow sc; Ok (Some sc)
  | _ => if seq entry =? 0 then Err MustBeGenesis else Ok (lv_schema self)
  end.

(** [LogSchemaView::apply] *)
Definition view_apply (self : LogSchemaView) (entry : LogEntry) (entry_sha256 : string) :
    LogSchemaView * result LogError unit :=
  match check_chain (lv_head self) entry with
  | Err e => (self, Err e)
  | Ok _ =>
      match view_op self entry with
      | Err e => (self, Err e)
      | Ok sc => ({| lv_head := Some (seq entry, entry_sha256, writer_epoch entry); lv_schema := sc |}, Ok ())
      end
  end.
End schema_view.

(** ** Loading *)

Section load.
Context `{Platform} `{LogCodec} {W : Type} `{ObjectStore W}.

(** [catch_up] *)
Definition catch_up (fuel : nat) (tenant : string) : IO (LiveSet * W) Z :=
  catch_up_with head apply fuel tenant.
(** [catch_up_schema] *)
Definition catch_up_schema (fuel : nat) (tenant : string) : IO (LogSchemaView * W) Z :=
  catch_up_with lv_head view_apply fuel tenant.

(** The entry a checkpoint names must exist with the recorded digest. *)
Definition check_entry (root : string) (q : Z) (entry_sha256 : string) : IO W unit :=
  bytes ← os_get (entry_key root q);
  entry_bytes ← io_lift (of_option bytes FMissingEntry);
  io_lift (ensure (bool_decide (sha256_hex entry_bytes = entry_sha256)) FCheckpointMismatch).

(** The first of [keys] that is a readable snapshot. *)
Fixpoint find_checkpoint {A} (read : string -> IO W (option A)) (keys : list string) : IO W (option A) :=
  match keys with
  | [] => mret None
  | key :: keys =>
      if is_snapshot_checkpoint_key key then
        bytes ← os_get key;
        match bytes with
        | None => find_checkpoint read keys
        | Some bytes => found ← read bytes; match found with Some a => mret (Some a) | None => find_checkpoint read keys end
        end
      else find_checkpoint read keys
  end.

(** [None]: unreadable, skipped with a warning. *)
Definition read_checkpoint (root tenant : string) (bytes : string) : IO W (option LiveSet) :=
  match checkpoint_parse_bytes bytes tenant with
  | Err _ => mret None
  | Ok cp =>
      _ ← check_entry root (cp_seq cp) (cp_entry_sha256 cp);
      set ← io_lift (log_res (from_checkpoint cp));
      mret (Some set)
  end.

(** [load_log] *)
Definition load_log (fuel : nat) (tenant : string) : IO W LiveSet := fun w =>
  match (root ← io_lift (format_res (LogKeys_new tenant));
         checkpoints ← os_list (checkpoints_prefix root);
         find_checkpoint (read_checkpoint root tenant) (rev checkpoints)) w with
  | (w', Err e) => (w', Err e)
  | (w', Ok found) =>
      match catch_up fuel tenant (default empty_set found, w') with
      | ((set, w''), Ok _) => (w'', Ok set)
      | ((_, w''), Err e) => (w'', Err e)
      end
  end.

(** The closure that parses a schema-only checkpoint. *)
Definition parse_schema_only (bytes tenant : string) : result Fail CheckpointSchemaOnly :=
  _ ← ensure (negb (MAX_CHECKPOINT_BYTES <? str_len bytes)) FCheckpointTooLarge;
  checkpoint ← of_option (checkpoint_schema_of_json bytes) FCheckpointParse;
  _ ← ensure (bool_decide (cs_format checkpoint = CHECKPOINT_FORMAT)
              && bool_decide (cs_tenant_id checkpoint = tenant)) FCheckpointTenant;
  _ ← log_res (to_arrow (cs_schema checkpoint));
  Ok checkpoint.

Definition read_schema_only (root tenant : string) (bytes : string) : IO W (option LogSchemaView) :=
  match parse_schema_only bytes tenant with
  | Err _ => mret None
  | Ok cs =>
      _ ← check_entry root (cs_seq cs) (cs_entry_sha256 cs);
      mret (Some {| lv_head := Some (cs_seq cs, cs_entry_sha256 cs, cs_writer_epoch cs); lv_schema := Some (cs_schema cs) |})
  end.

(** [load_log_schema] *)
Definition load_log_schema (fuel : nat) (tenant : string) : IO W LogSchemaView := fun w =>
  match (root ← io_lift (format_res (LogKeys_new tenant));
         checkpoints ← os_list (checkpoints_prefix root);
         find_checkpoint (read_schema_only root tenant) (rev checkpoints)) w with
  | (w', Err e) => (w', Err e)
  | (w', Ok found) =>
      match catch_up_schema fuel tenant (default view_default found, w') with
      | ((view, w''), Ok _) => (w'', Ok view)
      | ((_, w''), Err e) => (w'', Err e)
      end
  end.
End load.

(** ** A stored log *)

(** The objects hold [log] at consecutive keys from [q]. *)
Fixpoint stored `{Platform} `{LogCodec} (objs : gmap string string) (root tenant : string) (q : Z)
    (log : list (LogEntry * string)) : Prop :=
  match log with
  | [] => True
  | (e, sha) :: log =>
      (exists bytes, objs !! entry_key root q = Some bytes /\ entry_parse_bytes bytes tenant = Ok e
         /\ sha256_hex bytes = sha)
      /\ stored objs root tenant (q + 1) log
  end.

Lemma stored_app `{Platform} `{LogCodec} objs root tenant q l1 l2 :
  stored objs root tenant q (l1 ++ l2) <->
  stored objs root tenant q l1 /\ stored objs root tenant (q + Z.of_nat (length l1)) l2.
Proof.
  revert q. induction l1 as [|[e sha] l1 IH]; intros q; cbn [app length stored].
  - rewrite Z.add_0_r. tauto.
  - rewrite IH. replace (q + 1 + Z.of_nat (length l1)) with (q + Z.of_nat (S (length l1))) by lia. tauto.
Qed.

Lemma wrap_u64_wrap a b : wrap_u64 (wrap_u64 a + b) = wrap_u64 (a + b).
Proof. unfold wrap_u64. by rewrite Z.add_mod_idemp_l by (unfold u64_max; lia). Qed.

Lemma seqZ_S q n : 0 <= n -> seqZ q (n + 1) = q :: seqZ (q + 1) n.
Proof. intros Hn. rewrite seqZ_cons by lia. f_equal. f_equal; lia. Qed.

Section catch_up_exact.
Context `{Platform} `{LogCodec} {W : Type} `{ObjectStore W} (objects : W -> gmap string string).
Context (root tenant : string) `{!Reliable W objects K} (HK : forall q, K (entry_key root q)).
Context {X : Type} (xhead : X -> option (Z * string * Z)) (xapply : X -> LogEntry -> string -> X * result LogError unit).

Definition xstep (x : X) (es : LogEntry * string) : result LogError X :=
  match xapply x es.1 es.2 with (x', Ok _) => Ok x' | (_, Err e) => Err e end.

Context (Hhead : forall x e sha x', xapply x e sha = (x', Ok ()) ->
  seq e = expected_seq (xhead x) /\ xhead x' = Some (seq e, sha, writer_epoch e)).

Lemma fetch_all_exact qs w :
  fetch_all (entry_key root <$> qs) w = (w, Ok ((fun q => objects w !! entry_key root q) <$> qs)).
Proof.
  induction qs as [|q qs IH]; cbn; [done|]. rewrite bind_IO, get_exact by apply HK. cbn.
  rewrite bind_IO, IH. done.
Qed.

Lemma xstep_head x es x' :
  xstep x es = Ok x' -> expected_seq (xhead x) = seq es.1 /\ expected_seq (xhead x') = wrap_u64 (seq es.1 + 1).
Proof.
  unfold xstep. destruct (xapply x es.1 es.2) as [y [[]|]] eqn:E; [|done]. intros [= <-].
  apply Hhead in E as [E1 E2]. by rewrite E2.
Qed.

Lemma fold_head log x x' q :
  fold_res xstep log x = Ok x' -> expected_seq (xhead x) = q -> 0 <= q -> q + Z.of_nat (length log) <= u64_max ->
  expected_seq (xhead x') = q + Z.of_nat (length log).
Proof.
  revert x q. induction log as [|es log IH]; intros x q; cbn [fold_res length].
  { intros [= <-] ->. lia. }
  intros (x1 & Hx & Hf)%bind_ok_inv Hq Hpos Hb. apply xstep_head in Hx as [E1 E2].
  rewrite wrap_u64_id in E2 by (unfold in_u64; lia). rewrite (IH x1 (q + 1)); [lia|done|congruence|lia|lia].
Qed.

(** A window that lies within the log. *)
Lemma apply_fetched_full log x x' q w applied :
  stored (objects w) root tenant q log -> fold_res xstep log x = Ok x' -> in_u64 applied ->
  apply_fetched xapply tenant ((fun q => objects w !! entry_key root q) <$> seqZ q (Z.of_nat (length log))) applied (x, w)
  = ((x', w), Ok (wrap_u64 (applied + Z.of_nat (length log)), true)).
Proof.
  revert x q applied. induction log as [|[e sha] log IH]; intros x q applied Hs Hf Ha; cbn [length].
  { injection Hf as <-. cbn. by rewrite Z.add_0_r, wrap_u64_id. }
  destruct Hs as [(bytes & Hb & Hp & Hsha) Hs]. cbn in Hf. apply bind_ok_inv in Hf as (x1 & Hx & Hf).
  rewrite Nat2Z.inj_succ, <- Z.add_1_r, seqZ_S by lia. cbn [fmap list_fmap apply_fetched]. rewrite Hb.
  rewrite bind_IO. unfold io_lift. rewrite Hp. rewrite bind_IO. unfold apply_io at 1. cbn [fst snd].
  rewrite Hsha. unfold xstep in Hx. cbn in Hx. destruct (xapply x e sha) as [y [[]|]]; [|done].
  injection Hx as ->. cbn [log_res]. rewrite IH; [|done..|].
  - rewrite wrap_u64_wrap. do 4 f_equal. lia.
  - unfold in_u64, wrap_u64. pose proof (Z.mod_pos_bound (applied + 1) (u64_max + 1)). unfold u64_max in *. lia.
Qed.

(** A window that reaches past the end of the log. *)
Lemma apply_fetched_end log rest x x' q w applied :
  stored (objects w) root tenant q log -> fold_res xstep log x = Ok x' -> in_u64 applied ->
  objects w !! entry_key root (q + Z.of_nat (length log)) = None -> 0 < rest ->
  apply_fetched xapply tenant
    ((fun q => objects w !! entry_key root q) <$> seqZ q (Z.of_nat (length log) + rest)) applied (x, w)
  = ((x', w), Ok (wrap_u64 (applied + Z.of_nat (length log)), false)).
Proof.
  revert x q applied. induction log as [|[e sha] log IH]; intros x q applied Hs Hf Ha Hn Hr; cbn [length].
  { injection Hf as <-. cbn in Hn. rewrite Z.add_0_r in Hn. cbn [Z.of_nat]. rewrite Z.add_0_l, seqZ_cons by lia.
    cbn [fmap list_fmap apply_fetched]. rewrite Hn. by rewrite Z.add_0_r, wrap_u64_id. }
  destruct Hs as [(bytes & Hb & Hp & Hsha) Hs]. cbn in Hf. apply bind_ok_inv in Hf as (x1 & Hx & Hf).
  replace (Z.of_nat (S (length log)) + rest) with (Z.of_nat (length log) + rest + 1) by lia.
  rewrite seqZ_S by lia. cbn [fmap list_fmap apply_fetched]. rewrite Hb.
  rewrite bind_IO. unfold io_lift. rewrite Hp. rewrite bind_IO. unfold apply_io at 1. cbn [fst snd].
  rewrite Hsha. unfold xstep in Hx. cbn in Hx. destruct (xapply x e sha) as [y [[]|]]; [|done].
  injection Hx as ->. cbn [log_res]. rewrite IH; [|done|done| | |done].
  - rewrite wrap_u64_wrap. do 4 f_equal. lia.
  - unfold in_u64, wrap_u64. pose proof (Z.mod_pos_bound (applied + 1) (u64_max + 1)). unfold u64_max in *. lia.
  - rewrite <- Hn. do 2 f_equal. cbn [length]. lia.
Qed.

Lemma catch_up_loop_exact fuel log x x' q w window applied :
  (length log < fuel)%nat -> 1 <= window <= CATCH_UP_MAX_WINDOW -> expected_seq (xhead x) = q -> 0 <= q ->
  q + Z.of_nat (length log) + CATCH_UP_MAX_WINDOW <= u64_max -> in_u64 applied ->
  stored (objects w) root tenant q log -> objects w !! entry_key root (q + Z.of_nat (length log)) = None ->
  fold_res xstep log x = Ok x' ->
  catch_up_loop xhead xapply fuel root tenant window applied (x, w)
  = ((x', w), Ok (wrap_u64 (applied + Z.of_nat (length log)))).
Proof.
  unfold CATCH_UP_MAX_WINDOW.
  revert log x q window applied. induction fuel as [|fuel IH]; intros log x q window applied Hf Hw Hq Hpos Hb Ha Hs Hn Hr; [lia|].
  cbn [catch_up_loop]. rewrite bind_IO. cbn [io_gets fst]. rewrite Hq, bind_IO. unfold on_store. cbn [snd].
  rewrite fetch_all_exact. cbn [fst]. unfold u64_range. rewrite wrap_u64_id by (unfold in_u64; lia).
  replace (q + window - q) with window by lia. rewrite bind_IO.
  destruct (Z.le_gt_cases window (Z.of_nat (length log))) as [Hle|Hgt].
  - pose proof (take_drop (Z.to_nat window) log) as Etd.
    set (l1 := take (Z.to_nat window) log) in *. set (l2 := drop (Z.to_nat window) log) in *.
    assert (Z.of_nat (length l1) = window) as Hl1 by (unfold l1; rewrite length_take; lia).
    assert (length log = (length l1 + length l2)%nat) as Hl2 by (rewrite <- Etd at 1; apply length_app).
    rewrite <- Etd in Hs, Hr. apply stored_app in Hs as [Hs1 Hs2]. rewrite fold_res_app in Hr.
    apply bind_ok_inv in Hr as (x1 & Hr1 & Hr2).
    rewrite <- Hl1 at 1. erewrite apply_fetched_full by done. cbn beta iota.
    erewrite IH; [| |..|exact Hs2| |exact Hr2].
    + rewrite wrap_u64_wrap. do 3 f_equal. lia.
    + lia.
    + unfold CATCH_UP_MAX_WINDOW. rewrite wrap_u64_id by (unfold in_u64, u64_max in *; lia). case_match; lia.
    + eapply fold_head; [exact Hr1|done|lia|lia].
    + lia.
    + lia.
    + unfold in_u64, wrap_u64. pose proof (Z.mod_pos_bound (applied + Z.of_nat (length l1)) (u64_max + 1)). unfold u64_max in *. lia.
    + rewrite <- Hn. do 2 f_equal. lia.
  - replace window with (Z.of_nat (length log) + (window - Z.of_nat (length log))) by lia.
    erewrite apply_fetched_end; [|done..|lia]. done.
Qed.
End catch_up_exact.

(** ** The schema view follows the full fold *)

Section view_sim.
Context `{Platform}.
Implicit Types s : LiveSet.

Definition view_of s : LogSchemaView := {| lv_head := head s; lv_schema := schema s |}.

(** The schema an operation leaves, and that a kept schema decodes. *)
Lemma op_ref_schema entry s s1 :
  op_ref entry s = Ok s1 ->
  view_op (view_of s) entry = Ok (schema s1)
  /\ ((forall sc, schema s = Some sc -> is_ok (to_arrow sc) = true) ->
      forall sc, schema s1 = Some sc -> is_ok (to_arrow sc) = true).
Proof.
  unfold op_ref, view_op. destruct (op entry); destruct (seq entry =? 0); try done; intros Hr; cbn [lv_schema view_of].
  1, 2: destruct (to_arrow schema) eqn:E; cbn in Hr |- *; [|done]; injection Hr as <-; cbn;
    (split; [done|]); intros _ sc [= <-]; by rewrite E.
  all: assert (schema s1 = schema s) as ->; [|by split]; inv_ok; try done.
  - rewrite (proj1 (consume_all_rest _ _ _)).
    match goal with E : edge_ref _ _ s = Ok ?x, F : fold_res _ _ ?x = Ok ?y |- _ =>
      apply (adds_effect_fold _ (fun part => ensure (bool_decide (level part = L0) && sorted part) NonL0Part)) in F;
      rewrite (proj1 (proj2 (proj2 (proj2 (ae_rest _ _ _ _ F))))); clear - E; revert E end.
    unfold edge_ref. destruct edge_log; intros E; inv_ok; done.
  - match goal with F : fold_res _ _ s = Ok ?y |- _ => apply removes_effect_fold in F;
      rewrite <- (proj1 (proj2 (proj2 (proj2 (re_rest _ _ _ _ _ F))))) end.
    unfold add_ref in Hr. by inv_ok.
  - apply removes_effect_fold in Hr. apply (re_rest _ _ _ _ _ Hr).
  - match goal with F : fold_res _ _ s = Ok ?y |- _ => apply removes_effect_fold in F;
      rewrite <- (proj1 (proj2 (proj2 (proj2 (re_rest _ _ _ _ _ F))))) end.
    unfold add_ref in Hr. by inv_ok.
  - apply adds_effect_adopt in Hr. apply (ae_rest _ _ _ _ Hr).
Qed.

Lemma view_apply_sim s es s' :
  apply_step s es = Ok s' -> view_apply (view_of s) es.1 es.2 = (view_of s', Ok ()).
Proof.
  rewrite apply_step_ref. intros (Hc & s1 & He & Ho & ->)%apply_ref_inv. unfold view_apply. cbn [lv_head view_of].
  rewrite Hc. rewrite (proj1 (op_ref_schema _ _ _ Ho)). unfold view_of.
  destruct (prune_fields (horizon (appended_at_ms es.1)) (with_head (Some (seq es.1, es.2, writer_epoch es.1)) s1))
    as (_ & -> & -> & _). done.
Qed.

Lemma view_replay_sim log s s' :
  replay log s = Ok s' -> fold_res (xstep view_apply) log (view_of s) = Ok (view_of s').
Proof.
  revert s. induction log as [|es log IH]; intros s; cbn; [by intros [= <-]|].
  intros (s1 & Hs & Hr)%bind_ok_inv. assert (xstep view_apply (view_of s) es = Ok (view_of s1)) as ->; [|by apply IH].
  unfold xstep. by rewrite (view_apply_sim _ _ _ Hs).
Qed.

Lemma replay_schema_decodes log s s' :
  (forall sc, schema s = Some sc -> is_ok (to_arrow sc) = true) -> replay log s = Ok s' ->
  forall sc, schema s' = Some sc -> is_ok (to_arrow sc) = true.
Proof.
  revert s. induction log as [|es log IH]; intros s Hs; cbn; [by intros [= <-]|].
  intros (s1 & Ha & Hr)%bind_ok_inv. apply (IH s1); [|done].
  rewrite apply_step_ref in Ha. apply apply_ref_inv in Ha as (_ & s2 & _ & Ho & ->).
  destruct (prune_fields (horizon (appended_at_ms es.1)) (with_head (Some (seq es.1, es.2, writer_epoch es.1)) s2))
    as (_ & -> & _). cbn. by eapply op_ref_schema.
Qed.

(** Both readers advance their heads alike. *)
Lemma check_chain_seq hd entry : check_chain hd entry = Ok () -> seq entry = expected_seq hd.
Proof. unfold check_chain. intros Hc. apply bind_ok_inv in Hc as ([] & Hc & _). apply ensure_ok_inv, andb_true_iff in Hc as [Hc _].
  by apply Z.eqb_eq in Hc. Qed.

Lemma apply_head s e sha s' :
  apply s e sha = (s', Ok ()) -> seq e = expected_seq (head s) /\ head s' = Some (seq e, sha, writer_epoch e).
Proof.
  intros (Hc & s1 & He & _ & ->)%applies_ref%apply_ref_inv. split; [by apply check_chain_seq|]. apply prune_fields.
Qed.

Lemma view_apply_head v e sha v' :
  view_apply v e sha = (v', Ok ()) -> seq e = expected_seq (lv_head v) /\ lv_head v' = Some (seq e, sha, writer_epoch e).
Proof.
  unfold view_apply. destruct (check_chain (lv_head v) e) as [[]|] eqn:E; [|done].
  destruct (view_op v e); [|done]. intros [= <-]. split; [by apply check_chain_seq|done].
Qed.

Lemma replay_head_last log es s s' :
  replay (log ++ [es]) s = Ok s' -> head s' = Some (seq es.1, es.2, writer_epoch es.1).
Proof.
  intros (s1 & _ & Hr)%replay_app. apply replay_cons in Hr as (s2 & Ha & [= <-]).
  apply applies_ref in Ha. by apply apply_head in Ha as [_ ?].
Qed.

Lemma replay_expected log s :
  replay log empty_set = Ok s -> Z.of_nat (length log) <= u64_max -> expected_seq (head s) = Z.of_nat (length log).
Proof.
  intros Hr Hl. apply (fold_head head apply apply_head log empty_set s 0); [exact Hr|done|lia|lia].
Qed.
End view_sim.

(** ** Loading a stored log *)

Section load_exact.
Context `{Platform} `{LogCodec} `{!LogCodecLaws _} {W : Type} `{ObjectStore W} (objects : W -> gmap string string).
Context (root tenant : string) `{!Reliable W objects K}.

(** Every snapshot object is a checkpoint its writer took at some prefix of the log. *)
Definition honest_checkpoints (w : W) (log : list (LogEntry * string)) : Prop :=
  forall key bytes, is_Some (strip_prefix (checkpoints_prefix root) key) ->
  is_snapshot_checkpoint_key key = true -> objects w !! key = Some bytes ->
  exists n s cp, (n <= length log)%nat /\ replay (take n log) empty_set = Ok s /\ checkpoint s tenant = Ok cp
    /\ checkpoint_to_bytes cp = Ok (Some bytes).

(** A store at rest that holds exactly this log and its checkpoints. *)
Record holds_log (w : W) (log : list (LogEntry * string)) : Prop := {
  hl_keys : forall key, is_Some (objects w !! key) -> K key;
  hl_entry_keys : forall q, K (entry_key root q);
  hl_stored : stored (objects w) root tenant 0 log;
  hl_end : objects w !! entry_key root (Z.of_nat (length log)) = None;
  hl_checkpoints : honest_checkpoints w log;
  hl_bound : Z.of_nat (length log) + CATCH_UP_MAX_WINDOW <= u64_max }.

Lemma find_checkpoint_spec {A} (read : string -> IO W (option A)) (P : A -> Prop) w keys :
  (forall key, key ∈ keys -> exists bytes, objects w !! key = Some bytes /\ K key) ->
  (forall key bytes, key ∈ keys -> is_snapshot_checkpoint_key key = true -> objects w !! key = Some bytes ->
     read bytes w = (w, Ok None) \/ exists a, read bytes w = (w, Ok (Some a)) /\ P a) ->
  find_checkpoint read keys w = (w, Ok None) \/ exists a, find_checkpoint read keys w = (w, Ok (Some a)) /\ P a.
Proof.
  intros Hk Hread. induction keys as [|key keys IH]; cbn; [by left|].
  assert (find_checkpoint read keys w = (w, Ok None) \/
          exists a, find_checkpoint read keys w = (w, Ok (Some a)) /\ P a) as IH'.
  { apply IH; [intros k ?; apply Hk; by constructor|]. intros k bytes ? ?. apply Hread; [by constructor|done]. }
  destruct (is_snapshot_checkpoint_key key) eqn:E; [|done].
  destruct (Hk key) as (bytes & Hb & HKk); [constructor|]. rewrite bind_IO, get_exact, Hb by done.
  rewrite bind_IO. destruct (Hread key bytes ltac:(constructor) E Hb) as [->|(a & -> & Ha)]; [done|]. right. by exists a.
Qed.

Lemma checkpoint_parses cp bytes s :
  checkpoint s tenant = Ok cp -> checkpoint_to_bytes cp = Ok (Some bytes) ->
  checkpoint_parse_bytes bytes tenant = Ok cp /\ checkpoint_of_json bytes = Some cp
  /\ (MAX_CHECKPOINT_BYTES <? str_len bytes) = false /\ cp_format cp = CHECKPOINT_FORMAT /\ cp_tenant_id cp = tenant.
Proof.
  intros Hc Hb. unfold checkpoint_to_bytes in Hb. apply bind_ok_inv in Hb as (b & Hj & Hb).
  destruct (Z.leb_spec (str_len b) MAX_CHECKPOINT_BYTES); [|done]. injection Hb as ->.
  apply of_option_ok_inv, checkpoint_json_roundtrip in Hj.
  assert (cp_format cp = CHECKPOINT_FORMAT /\ cp_tenant_id cp = tenant) as [Hf Ht].
  { unfold checkpoint in Hc. by inv_ok. }
  assert ((MAX_CHECKPOINT_BYTES <? str_len bytes) = false) as Hl by lia.
  split; [|done]. unfold checkpoint_parse_bytes. rewrite Hl, Hj. cbn [negb ensure of_option mbind result_bind].
  by rewrite !bool_decide_eq_true_2.
Qed.

(** The entry a checkpoint of the log names is stored with its digest. *)
Lemma check_entry_ok w log n s cp :
  holds_log w log -> (n <= length log)%nat -> replay (take n log) empty_set = Ok s -> checkpoint s tenant = Ok cp ->
  check_entry root (cp_seq cp) (cp_entry_sha256 cp) w = (w, Ok ()).
Proof.
  intros Hh Hn Hr Hc. destruct n as [|n]; [injection Hr as <-; done|].
  destruct (lookup_lt_is_Some_2 log n) as [es Hes]; [lia|].
  rewrite (take_S_r _ _ _ Hes) in Hr. pose proof (hl_bound _ _ Hh) as Hb. unfold CATCH_UP_MAX_WINDOW in Hb.
  pose proof (replay_head_last _ _ _ _ Hr) as Hhd.
  assert (seq es.1 = Z.of_nat n) as Hseq.
  { apply replay_app in Hr as (s1 & Hr1 & Hr2). apply replay_cons in Hr2 as (s2 & Ha & _).
    apply applies_ref, apply_head in Ha as [-> _]. apply replay_expected in Hr1; rewrite length_take in Hr1 || rewrite length_take; lia. }
  pose proof (hl_stored _ _ Hh) as Hst. rewrite <- (take_drop n log), (drop_S _ _ _ Hes) in Hst.
  apply stored_app in Hst as [_ Hst]. destruct es as [e sha]. destruct Hst as [(bytes & Hbt & _ & Hsha) _].
  rewrite length_take in Hbt. replace (0 + Z.of_nat (n `min` length log)) with (Z.of_nat n) in Hbt by lia.
  unfold checkpoint in Hc. rewrite Hhd in Hc. cbn in Hc, Hseq. inv_ok. cbn. unfold check_entry.
  rewrite bind_IO, get_exact by apply (hl_entry_keys _ _ Hh). rewrite Hseq, Hbt. rewrite bind_IO. cbn.
  by rewrite bool_decide_eq_true_2.
Qed.

(** What loading finds: a stand-in for some prefix of the log. *)
Definition prefix_sim (log : list (LogEntry * string)) (c : LiveSet) : Prop :=
  exists n s, (n <= length log)%nat /\ replay (take n log) empty_set = Ok s /\ sim (fun _ => True) s c.

Lemma prefix_sorted log n : Sorted Z.le (log_times log) -> Sorted Z.le (log_times (take n log)).
Proof.
  intros Hs. unfold log_times in *. rewrite fmap_take.
  apply Sorted_StronglySorted in Hs; [|intros ? ? ?; lia]. apply StronglySorted_Sorted.
  rewrite <- (take_drop n (_ <$> log)) in Hs. by apply StronglySorted_app_1_l in Hs.
Qed.

Lemma read_checkpoint_spec w log key bytes :
  holds_log w log -> Sorted Z.le (log_times log) -> is_Some (strip_prefix (checkpoints_prefix root) key) ->
  is_snapshot_checkpoint_key key = true ->
  objects w !! key = Some bytes ->
  exists c, read_checkpoint root tenant bytes w = (w, Ok (Some c)) /\ prefix_sim log c.
Proof.
  intros Hh Ht Hpre Hk Hb. destruct (hl_checkpoints _ _ Hh _ _ Hpre Hk Hb) as (n & s & cp & Hn & Hr & Hc & Hby).
  destruct (history_log _ _ (prefix_sorted _ n Ht) Hr) as [now Hhist].
  destruct (checkpoint_sim _ _ _ _ (hi_wf _ _ _ _ Hhist) Hc) as (c & Hfc & Hs). exists c.
  split; [|by exists n, s]. unfold read_checkpoint. rewrite (proj1 (checkpoint_parses _ _ _ Hc Hby)).
  rewrite bind_IO, (check_entry_ok _ _ _ _ _ Hh Hn Hr Hc). rewrite bind_IO. unfold io_lift. by rewrite Hfc.
Qed.

Lemma read_schema_only_spec w log key bytes :
  holds_log w log -> is_Some (strip_prefix (checkpoints_prefix root) key) -> is_snapshot_checkpoint_key key = true ->
  objects w !! key = Some bytes ->
  exists n s, (n <= length log)%nat /\ replay (take n log) empty_set = Ok s
    /\ read_schema_only root tenant bytes w = (w, Ok (Some (view_of s))).
Proof.
  intros Hh Hpre Hk Hb. destruct (hl_checkpoints _ _ Hh _ _ Hpre Hk Hb) as (n & s & cp & Hn & Hr & Hc & Hby).
  exists n, s. split; [done|]. split; [done|].
  destruct (checkpoint_parses _ _ _ Hc Hby) as (_ & Hj & Hl & Hf & Htn).
  pose proof (check_entry_ok _ _ _ _ _ Hh Hn Hr Hc) as Hce.
  pose proof Hc as Hc'. unfold checkpoint in Hc'. inv_ok. cbn in *.
  assert (is_ok (to_arrow x0) = true) as Ha.
  { eapply (replay_schema_decodes _ empty_set); [done|exact Hr|done]. }
  unfold read_schema_only, parse_schema_only. rewrite Hl, (checkpoint_schema_reads _ _ Hj). cbn.
  rewrite !bool_decide_eq_true_2 by done. cbn. destruct (to_arrow x0); [|done]. cbn.
  rewrite bind_IO, Hce. unfold view_of.
  match goal with E : head s = Some _, F : schema s = Some _ |- _ => rewrite E, F end. by destruct x as [[? ?] ?].
Qed.

(** [load_log] and [load_log_schema] up to the catch-up. *)
Lemma load_keys w log {A} (read : string -> string -> IO W (option A)) (P : A -> Prop) :
  holds_log w log -> LogKeys_new tenant = Ok root ->
  (forall key bytes, is_Some (strip_prefix (checkpoints_prefix root) key) -> is_snapshot_checkpoint_key key = true ->
     objects w !! key = Some bytes -> read root bytes w = (w, Ok None) \/ exists a, read root bytes w = (w, Ok (Some a)) /\ P a) ->
  exists found, (root' ← io_lift (format_res (LogKeys_new tenant));
    checkpoints ← os_list (checkpoints_prefix root');
    find_checkpoint (read root') (rev checkpoints)) w = (w, Ok found) /\ forall a, found = Some a -> P a.
Proof.
  intros Hh Hroot Hread. rewrite Hroot, bind_IO. cbn [io_lift format_res].
  destruct (list_exact (checkpoints_prefix root) w) as (keys & Hl & _ & Hkeys). rewrite bind_IO, Hl.
  destruct (find_checkpoint_spec (read root) P w (rev keys)) as [->|(a & -> & Ha)]; [| |by eexists|].
  - intros key Hk. apply list_elem_of_In, in_rev, list_elem_of_In in Hk.
    destruct (Hkeys _ Hk) as [[bytes Hb] _]. exists bytes. split; [done|]. apply (hl_keys _ _ Hh). by eexists.
  - intros key bytes Hk. apply list_elem_of_In, in_rev, list_elem_of_In in Hk. apply Hread, Hkeys, Hk.
  - exists (Some a). split; [done|]. by intros ? [= ->].
Qed.

(** Catching up from any prefix reaches the end of the log. *)
Lemma catch_up_from {X} (xhead : X -> option (Z * string * Z)) xapply w log n x x' fuel :
  (forall x e sha x', xapply x e sha = (x', Ok ()) ->
     seq e = expected_seq (xhead x) /\ xhead x' = Some (seq e, sha, writer_epoch e)) ->
  holds_log w log -> LogKeys_new tenant = Ok root -> (n <= length log)%nat -> (length log < fuel)%nat ->
  expected_seq (xhead x) = Z.of_nat n -> fold_res (xstep xapply) (drop n log) x = Ok x' ->
  catch_up_with xhead xapply fuel tenant (x, w) = ((x', w), Ok (Z.of_nat (length log - n))).
Proof.
  intros Hhead Hh Hroot Hn Hfuel Hx Hf. unfold catch_up_with. rewrite Hroot, bind_IO. cbn [io_lift format_res].
  pose proof (hl_bound _ _ Hh) as Hb. pose proof (hl_stored _ _ Hh) as Hst.
  rewrite <- (take_drop n log) in Hst. apply stored_app in Hst as [_ Hst].
  rewrite length_take, Nat.min_l in Hst by lia.
  erewrite (catch_up_loop_exact objects root tenant (hl_entry_keys _ _ Hh) xhead xapply Hhead);
    [| | |exact Hx| | | |exact Hst| |exact Hf]; rewrite ?length_drop; unfold CATCH_UP_MAX_WINDOW in *.
  - do 3 f_equal. rewrite wrap_u64_id; [done|unfold in_u64; lia].
  - lia.
  - lia.
  - lia.
  - lia.
  - unfold in_u64, u64_max. lia.
  - rewrite <- (hl_end _ _ Hh). do 2 f_equal. lia.
Qed.
End load_exact.

(** ** A concrete store

    The example log and a checkpoint of its first three entries in the local store, under a
    codec that numbers the values of two lists. *)
Module StoreExample.
Import ToyPlatform.

Definition code_entry (e : LogEntry) : string := to_dec (100 + seq e + 1000 * (writer_epoch e - 1)).
Definition code_checkpoint (cp : Checkpoint) : string := "c" +:+ to_dec (cp_seq cp).

Definition codec (entries : list LogEntry) (cps : list Checkpoint) : LogCodec := {|
  entry_json e := if bool_decide (e ∈ entries) then Some (code_entry e) else None;
  entry_of_json b := List.find (fun e => bool_decide (code_entry e = b)) entries;
  checkpoint_json cp := if bool_decide (cp ∈ cps) then Some (code_checkpoint cp) else None;
  checkpoint_of_json b := List.find (fun cp => bool_decide (code_checkpoint cp = b)) cps;
  checkpoint_schema_of_json b := schema_only <$> List.find (fun cp => bool_decide (code_checkpoint cp = b)) cps |}.

Lemma codec_laws entries cps :
  forallb (fun e => bool_decide (List.find (fun e' => bool_decide (code_entry e' = code_entry e)) entries = Some e)) entries = true ->
  forallb (fun cp => bool_decide (List.find (fun cp' => bool_decide (code_checkpoint cp' = code_checkpoint cp)) cps = Some cp)) cps = true ->
  LogCodecLaws (codec entries cps).
Proof.
  intros He Hc. rewrite forallb_forall in He, Hc. split; cbn.
  - intros e b. destruct (bool_decide_reflect (e ∈ entries)) as [Hin|]; [|done]. intros [= <-].
    apply list_elem_of_In, He in Hin. by apply bool_decide_eq_true in Hin.
  - intros cp b. destruct (bool_decide_reflect (cp ∈ cps)) as [Hin|]; [|done]. intros [= <-].
    apply list_elem_of_In, Hc in Hin. by apply bool_decide_eq_true in Hin.
  - intros b cp ->. done.
Qed.

Definition cp0 : Checkpoint :=
  {| cp_format := ""; cp_tenant_id := ""; cp_seq := 0; cp_entry_sha256 := ""; cp_writer_epoch := 0;
     cp_schema := LogExample.sc; cp_live := []; cp_edge_log := None; cp_edge_ended := None |}.
Definition s3 : LiveSet := unwrap empty_set (replay (take 3 LogExample.log) empty_set).
Definition snapshot : Checkpoint := unwrap cp0 (checkpoint s3 LogExample.tenant).

(** The next entry of the log, and another writer's entry for the same place. *)
Definition next_op : LogOp := Retire [LogExample.pid3] Retention "u".
Definition next : LogEntry := (LogExample.mk 4 400 next_op).1.
Definition rival : LogEntry :=
  {| format := LOG_FORMAT; tenant_id := LogExample.tenant; seq := 4; prev_sha256 := prev_sha256 next;
     writer_epoch := 2; appended_at_ms := 390; op := Schema LogExample.sc |}.

#[export] Instance example_codec : LogCodec := codec (LogExample.log.*1 ++ [next; rival]) [snapshot].
#[export] Instance example_codec_laws : LogCodecLaws example_codec.
Proof. apply codec_laws; vm_compute; reflexivity. Qed.

Definition root : string := tenant_root LogExample.tenant +:+ "/log".
Definition store : gmap string string :=
  <[checkpoint_key root 2 := code_checkpoint snapshot]>
  (<[entry_key root 0 := "100"]> (<[entry_key root 1 := "101"]>
  (<[entry_key root 2 := "102"]> (<[entry_key root 3 := "103"]> ∅)))).
End StoreExample.

Section paths.
Lemma split_on_ne c a : split_on c a <> [].
Proof. destruct a as [|x a]; cbn; [done|]. destruct (Ascii.eqb x c); [done|]. by destruct (split_on c a). Qed.

Lemma split_on_app c a b : split_on c (a +:+ String c b) = split_on c a ++ split_on c b.
Proof.
  induction a as [|x a IH]; [change (EmptyString +:+ String c b) with (String c b); cbn; by rewrite Ascii.eqb_refl|].
  rewrite str_app_cons. cbn. rewrite IH. destruct (Ascii.eqb x c); [done|].
  destruct (split_on c a) eqn:E; [by apply split_on_ne in E|done].
Qed.

Lemma split_on_none c b : str_all (fun x => negb (Ascii.eqb x c)) b = true -> split_on c b = [b].
Proof.
  induction b as [|x b IH]; cbn; [done|]. intros [Hx Hb]%andb_true_iff. rewrite IH by done.
  by destruct (Ascii.eqb x c).
Qed.

Lemma digits_path_segment b t :
  str_all is_digit b = true -> str_all (fun x => negb (Ascii.eqb x "/")) t = true ->
  str_all (fun x => negb (Ascii.eqb x "/")) (b +:+ t) = true.
Proof.
  intros Hb Ht. induction b as [|x b IH]; [done|]. rewrite str_app_cons. cbn in *.
  apply andb_true_iff in Hb as [Hx Hb]. rewrite IH by done. destruct (Ascii.eqb_spec x "/") as [->|]; [done|done].
Qed.

(** Every entry key of an acceptable root is a path the local store accepts. *)
Lemma entry_key_path_ok root q :
  LocalObjectStore.path_ok root = true -> LocalObjectStore.path_ok (entry_key root q) = true.
Proof.
  unfold LocalObjectStore.path_ok, entry_key. rewrite !andb_true_iff. intros [[Hne Hhd] Hsegs].
  change ("/entries/" +:+ fmt_pad 20 q +:+ ".json") with (String "/" ("entries" +:+ String "/" (fmt_pad 20 q +:+ ".json"))).
  destruct root as [|c root]; [done|]. split; [split|].
  - done.
  - exact Hhd.
  - rewrite split_on_app, forallb_app, Hsegs, split_on_app, forallb_app.
    rewrite (split_on_none _ (fmt_pad 20 q +:+ ".json")) by (apply digits_path_segment; [apply fmt_pad_digits|done]).
    assert (5 <= str_len (fmt_pad 20 q +:+ ".json")) as Hl.
    { rewrite str_len_app. unfold str_len. cbn. lia. }
    cbn [forallb]. rewrite bool_decide_eq_false_2; [done|].
    intros Hin. rewrite !elem_of_cons, elem_of_nil in Hin. destruct Hin as [E|[E|[E|[]]]]; rewrite E in Hl; unfold str_len in Hl; cbn in Hl; lia.
Qed.
End paths.

(** ** Properties *)

(** C13: loading a log at rest succeeds and is exact, for a stored log whose entry times do not go
    back and whose checkpoints are those of its prefixes: whichever checkpoint the loader finds, and
    whatever fetch windows it uses, it ends with the live parts, schema, head and edge points
    of the full fold of the stored entries, remembering no id the full fold does not; one
    window per stored entry is always enough. *)
Theorem load_log_exact `{Platform} `{LogCodec} `{!LogCodecLaws _} {W} `{ObjectStore W} objects root tenant
    `{!Reliable W objects K} w log full fuel :
  LogKeys_new tenant = Ok root -> holds_log objects root tenant (K := K) w log -> Sorted Z.le (log_times log) ->
  replay log empty_set = Ok full -> (length log < fuel)%nat ->
  exists set, load_log fuel tenant w = (w, Ok set)
    /\ live set = live full /\ schema set = schema full /\ head set = head full
    /\ edge set = edge full /\ edge_ended set = edge_ended full /\ seen set ⊆ seen full.
Proof.
  intros Hroot Hh Ht Hr Hfuel.
  destruct (load_keys objects root tenant w log (fun root => read_checkpoint root tenant) (prefix_sim log) Hh Hroot) as (found & Hl & Hfound).
  { intros key bytes Hpre Hk Hb. right. by eapply read_checkpoint_spec. }
  assert (prefix_sim log (default empty_set found)) as (n & s & Hn & Hp & Hs).
  { destruct found as [c|]; [by apply Hfound|]. exists 0%nat, empty_set. split; [lia|]. done. }
  pose proof Hr as Hr'. rewrite <- (take_drop n log) in Hr'. apply replay_app in Hr' as (s' & Hp' & Hd).
  rewrite Hp in Hp'. injection Hp' as <-. destruct (sim_replay _ _ _ _ Hs Hd) as (c' & Hc' & [Sl Ss S1 S2 S3 S4]).
  exists c'. unfold load_log. rewrite Hroot in *. rewrite Hl. unfold catch_up.
  rewrite (catch_up_from objects root tenant head apply w log n _ c' fuel apply_head Hh Hroot Hn Hfuel); [|..|exact Hc'].
  - split; [done|]. split; [apply map_eq; intros id; by apply Sl|]. do 4 (split; [done|]). intros id Hid. by apply Ss.
  - rewrite (sim_head _ _ _ Hs). apply replay_expected in Hp as ->; rewrite length_take; [lia|].
    pose proof (hl_bound _ _ _ _ _ Hh). unfold CATCH_UP_MAX_WINDOW in *. lia.
Qed.

(** The schema-only loader reaches the head and the schema that the full fold reaches,
    without folding any part. *)
Theorem load_log_schema_exact `{Platform} `{LogCodec} `{!LogCodecLaws _} {W} `{ObjectStore W} objects root tenant
    `{!Reliable W objects K} w log full fuel :
  LogKeys_new tenant = Ok root -> holds_log objects root tenant (K := K) w log ->
  replay log empty_set = Ok full -> (length log < fuel)%nat ->
  load_log_schema fuel tenant w = (w, Ok {| lv_head := head full; lv_schema := schema full |}).
Proof.
  intros Hroot Hh Hr Hfuel.
  destruct (load_keys objects root tenant w log (fun root => read_schema_only root tenant)
    (fun v => exists n s, (n <= length log)%nat /\ replay (take n log) empty_set = Ok s /\ v = view_of s) Hh Hroot)
    as (found & Hl & Hfound).
  { intros key bytes Hpre Hk Hb. right. destruct (read_schema_only_spec objects root tenant w log key bytes Hh Hpre Hk Hb) as (n & s & ? & ? & ?).
    eexists. split; [done|]. by exists n, s. }
  assert (exists n s, (n <= length log)%nat /\ replay (take n log) empty_set = Ok s /\ default view_default found = view_of s)
    as (n & s & Hn & Hp & Hv).
  { destruct found as [v|]; [by apply Hfound|]. exists 0%nat, empty_set. split; [lia|]. done. }
  pose proof Hr as Hr'. rewrite <- (take_drop n log) in Hr'. apply replay_app in Hr' as (s' & Hp' & Hd).
  rewrite Hp in Hp'. injection Hp' as <-. apply view_replay_sim in Hd.
  unfold load_log_schema. rewrite Hroot in *. rewrite Hl, Hv. unfold catch_up_schema.
  rewrite (catch_up_from objects root tenant lv_head view_apply w log n (view_of s) (view_of full) fuel view_apply_head Hh Hroot Hn Hfuel); [|..|exact Hd];
    [done|].
  cbn. apply replay_expected in Hp as ->; rewrite length_take; [lia|].
  pose proof (hl_bound _ _ _ _ _ Hh). unfold CATCH_UP_MAX_WINDOW in *. lia.
Qed.

(** The example store holds the example log. *)
Lemma example_holds :
  holds_log (W := gmap string string) (H := ToyPlatform.toy) (H0 := StoreExample.example_codec)
    id StoreExample.root LogExample.tenant (K := fun key => LocalObjectStore.path_ok key = true)
    StoreExample.store LogExample.log.
Proof.
  split.
  - intros key [v Hv]. unfold StoreExample.store, id in Hv. rewrite !lookup_insert_Some, lookup_empty in Hv.
    destruct Hv as [[<- _]|[_ [[<- _]|[_ [[<- _]|[_ [[<- _]|[_ [[<- _]|[_ ?]]]]]]]]]];
      [vm_compute; reflexivity..|done].
  - intros q. apply entry_key_path_ok. vm_compute. reflexivity.
  - cbn [stored LogExample.log].
    repeat split; eexists; (split; [vm_compute; reflexivity|split; vm_compute; reflexivity]).
  - vm_compute. reflexivity.
  - intros key bytes Hpre Hk Hv. unfold StoreExample.store, id in Hv. rewrite !lookup_insert_Some, lookup_empty in Hv.
    destruct Hv as [[<- <-]|[_ [[<- _]|[_ [[<- _]|[_ [[<- _]|[_ [[<- _]|[_ ?]]]]]]]]]].
    2-5: exfalso; vm_compute in Hpre; destruct Hpre as [? ?]; discriminate.
    2: done.
    exists 3%nat, StoreExample.s3, StoreExample.snapshot. split; [cbn; lia|].
    split; [apply unwrap_ok; vm_compute; reflexivity|].
    split; [apply unwrap_ok; vm_compute; reflexivity|vm_compute; reflexivity].
  - vm_compute. discriminate.
Qed.

Lemma load_log_exact_witness :
  let P := ToyPlatform.toy in let C := StoreExample.example_codec in let S := LocalObjectStore.local_store in
  exists set, load_log 5 LogExample.tenant StoreExample.store = (StoreExample.store, Ok set)
    /\ live set = live (LogExample.final LogExample.log).
Proof.
  intros P C S.
  destruct (load_log_exact (H := P) (H0 := C) (H1 := S)
    (LogCodecLaws0 := StoreExample.example_codec_laws) (Reliable0 := LocalObjectStore.local_reliable) id StoreExample.root LogExample.tenant
    (K := fun key => LocalObjectStore.path_ok key = true) StoreExample.store LogExample.log
    (LogExample.final LogExample.log) 5) as (set & Hl & Hlive & _).
  - vm_compute. reflexivity.
  - apply example_holds.
  - apply LogExample.log_sorted.
  - apply unwrap_ok. vm_compute. reflexivity.
  - cbn. lia.
  - exists set. exact (conj Hl Hlive).
Defined.

Lemma load_log_schema_exact_witness :
  let P := ToyPlatform.toy in let C := StoreExample.example_codec in let S := LocalObjectStore.local_store in
  load_log_schema 5 LogExample.tenant StoreExample.store
  = (StoreExample.store, Ok {| lv_head := head (LogExample.final LogExample.log);
                               lv_schema := schema (LogExample.final LogExample.log) |}).
Proof.
  intros P C S.
  apply (load_log_schema_exact (H := P) (H0 := C) (H1 := S)
    (LogCodecLaws0 := StoreExample.example_codec_laws) (Reliable0 := LocalObjectStore.local_reliable) id StoreExample.root LogExample.tenant
    (K := fun key => LocalObjectStore.path_ok key = true) StoreExample.store LogExample.log).
  - vm_compute. reflexivity.
  - apply example_holds.
  - apply unwrap_ok. vm_compute. reflexivity.
  - cbn. lia.
Defined.
