(* ===== verification/LogWriter.v ===== *)
(** * LogWriter: the single appender of a tenant's log

    [PartLogWriter] of [parts/part_log.rs]: [open], [append] with its retry of an unresolved
    attempt, [create] with every outcome of the conditional create, adoption of the writer's
    own landed entry, fencing, checkpoints and [reload]; and a system of several writers over
    one store, whose commits never disagree. *)
From S2P Require Import Prelude Platform Format EdgeLog PartTypes LiveSet LiveSetFacts Replay Checkpoints ObjectStore LogReader.

(** [pw_root] is [log_keys], [pw_gated] whether a gate is set, [pw_receipted] the appends
    recorded as receipted when that record is wired. *)
Record PartLogWriter := mk_writer {
  pw_tenant : string;
  pw_root : string;
  pw_epoch : Z;
  pw_set : LiveSet;
  pw_key_held_total : Z;
  pw_receipted : option (list (Z * Z));
  pw_gated : bool;
  pw_pending : option LogEntry }.

Definition set_pending (p : option LogEntry) (pw : PartLogWriter) : PartLogWriter :=
  mk_writer (pw_tenant pw) (pw_root pw) (pw_epoch pw) (pw_set pw) (pw_key_held_total pw) (pw_receipted pw) (pw_gated pw) p.
Definition set_live (s : LiveSet) (pw : PartLogWriter) : PartLogWriter :=
  mk_writer (pw_tenant pw) (pw_root pw) (pw_epoch pw) s (pw_key_held_total pw) (pw_receipted pw) (pw_gated pw) (pw_pending pw).
Definition count_held (pw : PartLogWriter) : PartLogWriter :=
  mk_writer (pw_tenant pw) (pw_root pw) (pw_epoch pw) (pw_set pw) (sat_u64 (pw_key_held_total pw + 1)) (pw_receipted pw)
    (pw_gated pw) (pw_pending pw).
Definition record_receipt (seq at_ms : Z) (pw : PartLogWriter) : PartLogWriter :=
  mk_writer (pw_tenant pw) (pw_root pw) (pw_epoch pw) (pw_set pw) (pw_key_held_total pw)
    ((fun l => l ++ [(seq, at_ms)]) <$> pw_receipted pw) (pw_gated pw) (pw_pending pw).

(** [AppendOutcome::Committed]: the sequence number and the entry's digest. *)
Abbreviation AppendOutcome := (Z * string)%type.

Section writer.
Context `{Platform} `{LogCodec} {W : Type} `{ObjectStore W}.
(** [AppendGate::check_append], answered by the world. *)
Context (check_append : W -> bool).

Abbreviation St := (PartLogWriter * W)%type.

Definition on_writer (f : PartLogWriter -> PartLogWriter) : IO St unit := io_set (fun s => (f s.1, s.2)).
Definition io_fail {A} (e : Fail) : IO St A := io_lift (Err e).

(** [log_hints] *)
Definition log_hints (now_ms : Z) : WriteHints :=
  {| wh_class := LakePartLog; wh_event_hour := event_hour_of (sat_i64 (now_ms * 1000));
     wh_min_time_ms := now_ms; wh_max_time_ms := now_ms |}.

(** [write_checkpoint]: skipped when the live set exceeds one log object. *)
Definition write_checkpoint (now_ms : Z) : IO St unit :=
  pw ← io_gets fst;
  cp ← io_lift (log_res (checkpoint (pw_set pw) (pw_tenant pw)));
  encoded ← io_lift (checkpoint_to_bytes cp);
  match encoded with
  | None => mret ()
  | Some bytes =>
      let hints := {| wh_class := LakePart; wh_event_hour := wh_event_hour (log_hints now_ms);
                      wh_min_time_ms := now_ms; wh_max_time_ms := now_ms |} in
      _ ← on_store (os_put_if_absent_with (checkpoint_key (pw_root pw) (cp_seq cp)) bytes hints);
      mret ()
  end.

(** [committed]: advance the head, then checkpoint on schedule; a failed checkpoint is not
    a failed append. *)
Definition committed (q : Z) (next : LiveSet) (sha : string) (now_ms : Z) : IO St AppendOutcome :=
  _ ← on_writer (set_live next);
  _ ← (if (0 <? q) && (q mod CHECKPOINT_EVERY =? 0)
       then _ ← io_try (write_checkpoint now_ms); mret () else mret ());
  mret (q, sha).

(** [is_own_entry]: only [appended_at_ms] may differ. *)
Definition is_own_entry (existing entry : LogEntry) : bool :=
  (seq existing =? seq entry) && (writer_epoch existing =? writer_epoch entry)
  && bool_decide (prev_sha256 existing = prev_sha256 entry) && bool_decide (op existing = op entry).

(** [adopt] *)
Definition adopt (entry : LogEntry) (bytes : string) (now_ms : Z) : IO St AppendOutcome :=
  let sha := sha256_hex bytes in
  pw ← io_gets fst;
  _ ← io_lift (log_res (check_consumes (pw_set pw) (op entry)));
  next ← io_lift (log_res (apply_step (pw_set pw) (entry, sha)));
  put ← io_try (on_store (os_put_if_absent_with (entry_key (pw_root pw) (seq entry)) bytes (log_hints (appended_at_ms entry))));
  _ ← match put with
      | Ok true => on_writer (record_receipt (seq entry) (appended_at_ms entry))
      | _ => mret ()
      end;
  committed (seq entry) next sha now_ms.

(** [adopt_or_fence] *)
Definition adopt_or_fence (entry : LogEntry) (existing : string) (now_ms : Z) : IO St AppendOutcome :=
  pw ← io_gets fst;
  match entry_parse_bytes existing (pw_tenant pw) with
  | Ok decoded => if is_own_entry decoded entry then adopt decoded existing now_ms else io_fail (FFenced (seq entry))
  | Err _ => io_fail (FFenced (seq entry))
  end.

(** The key holds [existing]: this append's own bytes are a commit, anything else is
    adopted or fences. *)
Definition resolve (entry : LogEntry) (bytes : string) (next : LiveSet) (existing : string) (now_ms : Z) : IO St AppendOutcome :=
  if bool_decide (existing = bytes) then committed (seq entry) next (sha256_hex bytes) now_ms
  else adopt_or_fence entry existing now_ms.

(** [create]: one conditional create of [entry]. *)
Definition create (entry : LogEntry) (now_ms : Z) : IO St AppendOutcome :=
  bytes ← io_lift (entry_to_bytes entry);
  let sha := sha256_hex bytes in
  pw ← io_gets fst;
  _ ← io_lift (log_res (check_consumes (pw_set pw) (op entry)));
  next ← io_lift (log_res (apply_step (pw_set pw) (entry, sha)));
  let key := entry_key (pw_root pw) (seq entry) in
  admitted ← io_gets (fun s => negb (pw_gated s.1) || check_append s.2);
  _ ← io_lift (ensure admitted FGate);
  _ ← on_writer (set_pending (Some entry));
  put ← io_try (on_store (os_put_if_absent_with key bytes (log_hints (appended_at_ms entry))));
  match put with
  | Ok true =>
      _ ← on_writer (set_pending None);
      _ ← on_writer (record_receipt (seq entry) (appended_at_ms entry));
      committed (seq entry) next sha now_ms
  | Ok false =>
      got ← on_store (os_get key);
      existing ← io_lift (of_option got FVanished);
      _ ← on_writer (set_pending None);
      resolve entry bytes next existing now_ms
  | Err (FStore OwnerConflict) =>
      _ ← on_writer (set_pending None);
      got ← io_try (on_store (os_get key));
      match got with
      | Ok (Some existing) => resolve entry bytes next existing now_ms
      | _ => io_fail (FFenced (seq entry))
      end
  | Err (FStore LogKeyHeld) =>
      _ ← on_writer count_held;
      got ← io_try (on_store (os_get key));
      match got with
      | Ok (Some existing) => _ ← on_writer (set_pending None); resolve entry bytes next existing now_ms
      | _ => io_fail (FStore LogKeyHeld)
      end
  | Err (FStore NativePutUnresolved) =>
      _ ← on_writer (set_pending None);
      io_fail (FStore NativePutUnresolved)
  | Err e => io_fail e
  end.

(** [new_entry] *)
Definition new_entry (pw : PartLogWriter) (q : Z) (prev : string) (o : LogOp) (now_ms : Z) : LogEntry :=
  {| format := LOG_FORMAT; tenant_id := pw_tenant pw; seq := q; prev_sha256 := prev;
     writer_epoch := pw_epoch pw; appended_at_ms := now_ms; op := o |}.

(** [settle_pending]: [true] when the earlier attempt had landed and is adopted. *)
Definition settle_pending (pending : LogEntry) (now_ms : Z) : IO St bool :=
  pw ← io_gets fst;
  got ← io_try (on_store (os_get (entry_key (pw_root pw) (seq pending))));
  match got with
  | Err e => _ ← on_writer (set_pending (Some pending)); io_fail e
  | Ok None => mret false
  | Ok (Some existing) => _ ← adopt_or_fence pending existing now_ms; mret true
  end.

(** The loop of [append]; a second round only follows a settled attempt. *)
Fixpoint append_loop (fuel : nat) (o : LogOp) (now_ms : Z) : IO St AppendOutcome :=
  match fuel with
  | O => io_fail FOutOfFuel
  | S fuel =>
      pw ← io_gets fst;
      let q := expected_seq (head (pw_set pw)) in
      let prev := expected_prev (head (pw_set pw)) in
      let pending := match pw_pending pw with
                     | Some p => if (seq p =? q) && bool_decide (prev_sha256 p = prev) then Some p else None
                     | None => None
                     end in
      _ ← on_writer (set_pending None);
      match pending with
      | Some p =>
          if bool_decide (op p = o) then create p now_ms
          else settled ← settle_pending p now_ms;
               if settled : bool then append_loop fuel o now_ms
               else create (new_entry pw q prev o now_ms) now_ms
      | None => create (new_entry pw q prev o now_ms) now_ms
      end
  end.

(** [append]: two rounds are enough, see [append_fuel]. *)
Definition append (o : LogOp) (now_ms : Z) : IO St AppendOutcome := append_loop 2 o now_ms.

(** [reload] *)
Definition reload (fuel : nat) : IO St unit := fun s =>
  let pw := set_pending None s.1 in
  match load_log fuel (pw_tenant pw) s.2 with
  | (w, Ok set) => ((set_live set pw, w), Ok ())
  | (w, Err e) => ((pw, w), Err e)
  end.

(** [open]; [initial_schema] is what [LogSchema::from_arrow] returns. *)
Definition open (fuel : nat) (tenant : string) (epoch : Z) (initial_schema : result Fail LogSchema) (now_ms : Z) :
    IO W PartLogWriter := fun w =>
  match load_log fuel tenant w with
  | (w, Err e) => (w, Err e)
  | (w, Ok set) =>
      if match head set with Some (_, _, e) => epoch <? e | None => false end then (w, Err FStaleEpoch)
      else match LogKeys_new tenant with
           | Err e => (w, Err (FFormat e))
           | Ok root =>
               let pw := mk_writer tenant root epoch set 0 None false None in
               match head set with
               | Some _ => (w, Ok pw)
               | None =>
                   match initial_schema with
                   | Err e => (w, Err e)
                   | Ok sc => match append (Genesis sc) now_ms (pw, w) with
                              | ((pw, w), Ok _) => (w, Ok pw)
                              | ((_, w), Err e) => (w, Err e)
                              end
                   end
               end
           end
  end.
End writer.

(** ** Weakest preconditions for store computations *)

Section wp.
Context {S : Type}.

(** After [m] from [s], the state and the result satisfy [Q]. *)
Definition wp {A} (m : IO S A) (s : S) (Q : S -> result Fail A -> Prop) : Prop := Q (m s).1 (m s).2.

Lemma wp_bind {A B} (m : IO S A) (k : A -> IO S B) s Q :
  wp m s (fun s' r => match r with Ok a => wp (k a) s' Q | Err e => Q s' (Err e) end) -> wp (m ≫= k) s Q.
Proof. unfold wp. rewrite bind_IO. by destruct (m s) as [s' [a|e]]. Qed.

Lemma wp_mono {A} (m : IO S A) s (Q Q' : S -> result Fail A -> Prop) :
  wp m s Q -> (forall s' r, Q s' r -> Q' s' r) -> wp m s Q'.
Proof. unfold wp. auto. Qed.

Lemma wp_lift {A} (r : result Fail A) s (Q : S -> result Fail A -> Prop) : Q s r -> wp (io_lift r) s Q.
Proof. done. Qed.
Lemma wp_ret {A} (a : A) s (Q : S -> result Fail A -> Prop) : Q s (Ok a) -> wp (mret a) s Q.
Proof. done. Qed.
Lemma wp_gets {A} (f : S -> A) s Q : Q s (Ok (f s)) -> wp (io_gets f) s Q.
Proof. done. Qed.
Lemma wp_set f s Q : Q (f s) (Ok ()) -> wp (io_set f) s Q.
Proof. done. Qed.
Lemma wp_try {A} (m : IO S A) s (Q : S -> result Fail (result Fail A) -> Prop) :
  wp m s (fun s' r => Q s' (Ok r)) -> wp (io_try m) s Q.
Proof. unfold wp, io_try. by destruct (m s). Qed.
End wp.

Section wp_store.
Context {W X : Type} `{ObjectStore W} (objects : W -> gmap string string) `{!StoreLaws W objects}.

Lemma wp_get key x w (Q : X * W -> result Fail (option string) -> Prop) :
  (forall w' r, objects w ⊆ objects w' -> (forall b, r = Ok (Some b) -> objects w' !! key = Some b) -> Q (x, w') r) ->
  wp (on_store (os_get key)) (x, w) Q.
Proof.
  intros HQ. unfold wp, on_store. cbn. pose proof (get_grows key w) as Hg.
  destruct (os_get key w) as [w' r] eqn:E. cbn in *. apply HQ; [done|]. intros b ->. by eapply get_some.
Qed.

Lemma wp_put key bytes hints x w (Q : X * W -> result Fail bool -> Prop) :
  (forall w' r, objects w ⊆ objects w' -> (r = Ok true -> objects w' !! key = Some bytes) -> Q (x, w') r) ->
  wp (on_store (os_put_if_absent_with key bytes hints)) (x, w) Q.
Proof.
  intros HQ. unfold wp, on_store. cbn. pose proof (put_grows key bytes hints w) as Hg.
  destruct (os_put_if_absent_with key bytes hints w) as [w' r] eqn:E. cbn in *. apply HQ; [done|].
  intros ->. by eapply put_true.
Qed.
End wp_store.

(** ** Specifications of the writer *)

Section writer_spec.
Context `{Platform} `{LogCodec} {W : Type} `{ObjectStore W} (objects : W -> gmap string string) `{!StoreLaws W objects}.
Context (check_append : W -> bool).
Implicit Types (pw : PartLogWriter) (w : W).

(** The store holds the entry's bytes, with that digest, at the entry's key. *)
Definition landed (objs : gmap string string) (root : string) (es : LogEntry * string) : Prop :=
  exists bytes, objs !! entry_key root (seq es.1) = Some bytes /\ entry_to_bytes es.1 = Ok bytes
    /\ sha256_hex bytes = es.2.

Lemma landed_grows objs objs' root es : objs ⊆ objs' -> landed objs root es -> landed objs' root es.
Proof. intros Hs (b & Hb & ?). exists b. split; [|done]. by eapply lookup_weaken. Qed.

(** What no operation of a writer changes. *)
Definition same_writer pw pw' : Prop :=
  pw_tenant pw' = pw_tenant pw /\ pw_root pw' = pw_root pw /\ pw_epoch pw' = pw_epoch pw /\ pw_gated pw' = pw_gated pw.

#[local] Hint Extern 0 (same_writer _ _) => repeat split : core.
#[local] Hint Extern 0 (_ ⊆ _) => reflexivity : core.

Lemma wp_write_checkpoint now_ms pw w Q :
  (forall w' r, objects w ⊆ objects w' -> Q (pw, w') r) -> wp (write_checkpoint now_ms) (pw, w) Q.
Proof.
  intros HQ. unfold write_checkpoint. apply wp_bind, wp_gets. apply wp_bind, wp_lift.
  destruct (log_res _) as [cp|e]; [|by apply HQ]. apply wp_bind, wp_lift.
  destruct (checkpoint_to_bytes cp) as [[bytes|]|e]; [|by apply wp_ret, HQ|by apply HQ].
  apply wp_bind, (wp_put objects). intros w' r Hg _. destruct r; [by apply wp_ret, HQ|by apply HQ].
Qed.

(** A commit always succeeds, installs the next set, and keeps the rest. *)
Lemma wp_committed q next sha now_ms pw w Q :
  (forall w', objects w ⊆ objects w' -> Q (set_live next pw, w') (Ok (q, sha))) ->
  wp (committed q next sha now_ms) (pw, w) Q.
Proof.
  intros HQ. unfold committed. apply wp_bind, wp_set. apply wp_bind. cbn [fst snd].
  destruct (_ && _); [|by apply wp_ret, wp_ret, HQ].
  apply wp_bind, wp_try, wp_write_checkpoint. intros w' r Hg. by apply wp_ret, wp_ret, HQ.
Qed.

(** The entry committed in place of [entry]: itself or an earlier attempt of it. *)
Definition commits pw entry (s' : PartLogWriter * W) (out : AppendOutcome) : Prop :=
  exists e, landed (objects s'.2) (pw_root pw) (e, out.2) /\ is_own_entry e entry = true /\ out.1 = seq e
    /\ check_consumes (pw_set pw) (op e) = Ok () /\ apply_step (pw_set pw) (e, out.2) = Ok (pw_set s'.1).

Definition create_post pw w entry (s' : PartLogWriter * W) (r : result Fail AppendOutcome) : Prop :=
  objects w ⊆ objects s'.2 /\ same_writer pw s'.1 /\
  match r with
  | Ok out => commits pw entry s' out /\ pw_pending s'.1 = None
  | Err _ => pw_set s'.1 = pw_set pw /\ (pw_pending s'.1 = None \/ pw_pending s'.1 = Some entry)
  end.

Lemma log_res_ok {A} (r : result LogError A) a : log_res r = Ok a -> r = Ok a.
Proof. destruct r; [by intros [= ->]|done]. Qed.

Lemma is_own_entry_refl e : is_own_entry e e = true.
Proof. unfold is_own_entry. rewrite !Z.eqb_refl, !bool_decide_eq_true_2; done. Qed.

Lemma create_post_err pw pw' w w' entry e :
  objects w ⊆ objects w' -> same_writer pw pw' -> pw_set pw' = pw_set pw ->
  pw_pending pw' = None \/ pw_pending pw' = Some entry -> create_post pw w entry (pw', w') (Err e).
Proof. done. Qed.

Lemma wp_adopt entry e bytes now_ms pw w :
  pw_pending pw = None -> is_own_entry e entry = true -> entry_to_bytes e = Ok bytes ->
  objects w !! entry_key (pw_root pw) (seq e) = Some bytes ->
  wp (adopt e bytes now_ms) (pw, w) (create_post pw w entry).
Proof.
  intros Hpend Hown Hbytes Hstored. unfold adopt. apply wp_bind, wp_gets. cbn [fst].
  apply wp_bind, wp_lift. destruct (log_res (check_consumes _ _)) as [[]|] eqn:Hc; [|by apply create_post_err; auto].
  apply wp_bind, wp_lift. destruct (log_res (apply_step _ _)) as [next|] eqn:Ha; [|by apply create_post_err; auto].
  apply log_res_ok in Hc, Ha. apply wp_bind, wp_try, (wp_put objects). intros w' r Hg _.
  apply wp_bind.
  set (pw1 := match r with Ok true => record_receipt (seq e) (appended_at_ms e) pw | _ => pw end).
  assert (forall Q, Q (pw1, w') (Ok ()) -> wp (match r with
    | Ok true => on_writer (record_receipt (seq e) (appended_at_ms e)) | _ => mret () end) (pw, w') Q) as Hrec.
  { subst pw1. intros Q HQ. destruct r as [[]|]; [by apply wp_set|by apply wp_ret..]. }
  apply Hrec, wp_committed. intros w'' Hg'. cbn.
  assert (pw_pending pw1 = None /\ same_writer pw pw1 /\ pw_set pw1 = pw_set pw) as (Hp1 & Hsw & _).
  { subst pw1. by destruct r as [[]|]. }
  split; [by etrans|]. split; [done|]. split; [|done]. exists e.
  split; [|done]. exists bytes. split; [|done]. eapply lookup_weaken; [exact Hstored|by etrans].
Qed.

Lemma wp_adopt_or_fence entry existing now_ms pw w :
  pw_pending pw = None -> objects w !! entry_key (pw_root pw) (seq entry) = Some existing ->
  wp (adopt_or_fence entry existing now_ms) (pw, w) (create_post pw w entry).
Proof.
  intros Hpend Hstored. unfold adopt_or_fence. apply wp_bind, wp_gets. cbn [fst].
  destruct (entry_parse_bytes existing (pw_tenant pw)) as [e|] eqn:Hp; [|by apply wp_lift, create_post_err; auto].
  destruct (is_own_entry e entry) eqn:Hown; [|by apply wp_lift, create_post_err; auto].
  apply entry_parse_inv in Hp as [Hb _]. apply wp_adopt; [done..|].
  replace (seq e) with (seq entry); [done|]. unfold is_own_entry in Hown. rewrite !andb_true_iff in Hown. lia.
Qed.

Lemma wp_resolve entry bytes next existing now_ms pw pw1 w w1 :
  entry_to_bytes entry = Ok bytes -> check_consumes (pw_set pw) (op entry) = Ok () ->
  apply_step (pw_set pw) (entry, sha256_hex bytes) = Ok next ->
  objects w ⊆ objects w1 -> same_writer pw pw1 -> pw_set pw1 = pw_set pw -> pw_pending pw1 = None ->
  objects w1 !! entry_key (pw_root pw) (seq entry) = Some existing ->
  wp (resolve entry bytes next existing now_ms) (pw1, w1) (create_post pw w entry).
Proof.
  intros Hb Hc Ha Hg Hsw Hset Hp Hst. unfold resolve. destruct (bool_decide_reflect (existing = bytes)) as [->|].
  - apply wp_committed. intros w' Hg'. split; [by etrans|]. split; [done|]. split; [|done]. exists entry.
    split; [|by rewrite is_own_entry_refl]. exists bytes. split; [|done]. by eapply lookup_weaken.
  - eapply wp_mono; [apply wp_adopt_or_fence; [done|]|].
    + destruct Hsw as (_ & -> & _). done.
    + intros [pw' w'] r (Hg' & (St & Sr & Se & Sga) & Hr). destruct Hsw as (Tt & Tr & Te & Tg).
      split; [by etrans|]. split; [repeat split; congruence|]. destruct r as [out|]; [|by rewrite Hset in Hr].
      unfold commits in *. by rewrite Hset, Tr in Hr.
Qed.

Lemma wp_create entry now_ms pw w :
  pw_pending pw = None -> wp (create check_append entry now_ms) (pw, w) (create_post pw w entry).
Proof.
  intros Hpend. unfold create. apply wp_bind, wp_lift.
  destruct (entry_to_bytes entry) as [bytes|] eqn:Hb; [|by apply create_post_err; auto].
  apply wp_bind, wp_gets. cbn [fst]. apply wp_bind, wp_lift.
  destruct (log_res (check_consumes _ _)) as [[]|] eqn:Hc; [|by apply create_post_err; auto].
  apply wp_bind, wp_lift. destruct (log_res (apply_step _ _)) as [next|] eqn:Ha; [|by apply create_post_err; auto].
  apply log_res_ok in Hc, Ha. apply wp_bind, wp_gets. apply wp_bind, wp_lift.
  destruct (ensure _ FGate) as [[]|]; [|by apply create_post_err; auto].
  apply wp_bind, wp_set. cbn [fst snd]. apply wp_bind, wp_try, (wp_put objects). intros w1 r Hg Hr.
  destruct r as [[]|e].
  - apply wp_bind, wp_set. cbn [fst snd]. apply wp_bind, wp_set. cbn [fst snd]. apply wp_committed. intros w2 Hg'.
    split; [by etrans|]. split; [done|]. split; [|done]. exists entry. split; [|by rewrite is_own_entry_refl].
    exists bytes. split; [|done]. eapply lookup_weaken; [by apply Hr|done].
  - apply wp_bind, (wp_get objects). intros w2 r2 Hg2 Hr2. destruct r2 as [got|]; [|apply create_post_err; auto; by etrans].
    apply wp_bind, wp_lift. destruct got as [existing|]; [|apply create_post_err; auto; by etrans].
    apply wp_bind, wp_set. cbn [fst snd]. apply (wp_resolve _ _ _ existing); auto; by etrans.
  - assert (forall f, wp (io_fail (W := W) f) (set_pending (Some entry) pw, w1) (create_post pw w entry)) as Hother.
    { intros f. apply wp_lift, create_post_err; auto. }
    destruct e as [[]| | | | | | | | | | | | | | | | | |]; try apply Hother.
    + apply wp_bind, wp_set. cbn [fst snd]. apply wp_bind, wp_try, (wp_get objects). intros w2 r2 Hg2 Hr2.
      destruct r2 as [[existing|]|]; [|apply wp_lift, create_post_err; auto; by etrans..].
      apply (wp_resolve _ _ _ existing); auto; by etrans.
    + apply wp_bind, wp_set. cbn [fst snd]. apply wp_bind, wp_try, (wp_get objects). intros w2 r2 Hg2 Hr2.
      destruct r2 as [[existing|]|]; [|apply wp_lift, create_post_err; auto; by etrans..].
      apply wp_bind, wp_set. cbn [fst snd]. apply (wp_resolve _ _ _ existing); auto; by etrans.
    + apply wp_bind, wp_set. cbn [fst snd]. by apply wp_lift, create_post_err; auto.
Qed.

Lemma wp_settle_pending p now_ms pw w :
  pw_pending pw = None ->
  wp (settle_pending p now_ms) (pw, w) (fun s' r =>
    objects w ⊆ objects s'.2 /\ same_writer pw s'.1 /\
    match r with
    | Ok true => (exists out, commits pw p s' out) /\ pw_pending s'.1 = None
    | Ok false => s'.1 = pw
    | Err _ => pw_set s'.1 = pw_set pw /\ (pw_pending s'.1 = None \/ pw_pending s'.1 = Some p)
    end).
Proof.
  intros Hpend. unfold settle_pending. apply wp_bind, wp_gets. cbn [fst]. apply wp_bind, wp_try, (wp_get objects).
  intros w1 r Hg Hr. destruct r as [[existing|]|].
  - apply wp_bind. eapply wp_mono; [apply wp_adopt_or_fence; [done|by apply Hr]|].
    intros [pw' w'] r (Hg' & Hsw & Hpost). destruct r as [out|]; [apply wp_ret|];
      (split; [by etrans|split; [done|]]); [|done]. destruct Hpost as [Hc ?]. split; [by exists out|done].
  - apply wp_ret. done.
  - apply wp_bind, wp_set. cbn [fst snd]. apply wp_lift. split; [done|]. split; [done|]. split; [done|by right].
Qed.

(** A pending entry was built by this writer. *)
Definition mine pw e : Prop := writer_epoch e = pw_epoch pw.
Definition pending_ok pw : Prop := forall p, pw_pending pw = Some p -> mine pw p.

Lemma is_own_entry_spec a b :
  is_own_entry a b = true -> seq a = seq b /\ writer_epoch a = writer_epoch b /\ prev_sha256 a = prev_sha256 b /\ op a = op b.
Proof. unfold is_own_entry. rewrite !andb_true_iff, !bool_decide_eq_true. lia || intuition lia. Qed.

(** From a state with nothing pending, one round decides. *)
Lemma append_loop_fresh fuel o now_ms pw w :
  pw_pending pw = None ->
  append_loop check_append (S fuel) o now_ms (pw, w)
  = create check_append (new_entry pw (expected_seq (head (pw_set pw))) (expected_prev (head (pw_set pw))) o now_ms)
      now_ms (set_pending None pw, w).
Proof. intros Hp. cbn. rewrite bind_IO. cbn. by rewrite Hp. Qed.

(** Two rounds are enough: more fuel changes nothing. *)
Lemma append_fuel fuel o now_ms s :
  append_loop check_append (S (S fuel)) o now_ms s = append check_append o now_ms s.
Proof.
  destruct s as [pw w]. unfold append. set (m := 1%nat). set (m' := S fuel). cbn [append_loop]. rewrite !bind_IO. cbn [io_gets fst].
  rewrite !bind_IO. cbn [on_writer io_set fst snd]. destruct (match pw_pending pw with Some _ => _ | None => _ end) as [p|]; [|done].
  destruct (bool_decide (op p = o)); [done|]. rewrite !bind_IO.
  pose proof (wp_settle_pending p now_ms (set_pending None pw) w eq_refl) as Hs. unfold wp in Hs.
  destruct (settle_pending p now_ms (set_pending None pw, w)) as [[pw' w'] [[]|]]; [|done..].
  cbn in Hs. destruct Hs as (_ & _ & _ & Hp). unfold m, m'. rewrite !append_loop_fresh by exact Hp. done.
Qed.

(** The entries an append put behind the writer's set, oldest first: at most one earlier
    attempt of its own, then the entry of [o] when it succeeds. *)
Definition append_post pw w o (s' : PartLogWriter * W) (r : result Fail AppendOutcome) : Prop :=
  objects w ⊆ objects s'.2 /\ same_writer pw s'.1 /\ pending_ok s'.1 /\
  exists earlier mine_now,
    guarded_replay (earlier ++ mine_now) (pw_set pw) = Ok (pw_set s'.1)
    /\ Forall (fun es => landed (objects s'.2) (pw_root pw) es /\ mine pw es.1) (earlier ++ mine_now)
    /\ (length earlier <= 1)%nat
    /\ (forall es, es ∈ earlier -> exists p, pw_pending pw = Some p /\ is_own_entry es.1 p = true)
    /\ match r with
       | Ok out => exists e, mine_now = [(e, out.2)] /\ out.1 = seq e /\ op e = o
       | Err _ => mine_now = []
       end.

Lemma guarded_one s e sha s' :
  check_consumes s (op e) = Ok () -> apply_step s (e, sha) = Ok s' -> guarded_replay [(e, sha)] s = Ok s'.
Proof. intros Hc Ha. unfold guarded_replay, guarded_step. cbn [fold_res fst snd]. rewrite Hc. cbn. by rewrite Ha. Qed.

Lemma guarded_replay_app l1 l2 s s1 s2 :
  guarded_replay l1 s = Ok s1 -> guarded_replay l2 s1 = Ok s2 -> guarded_replay (l1 ++ l2) s = Ok s2.
Proof. unfold guarded_replay. intros E1 E2. rewrite fold_res_app, E1. done. Qed.

(** One create, seen from the writer that called it. *)
Lemma create_append_post pw pw0 w entry o s' r :
  same_writer pw pw0 -> pw_set pw0 = pw_set pw -> mine pw entry -> op entry = o ->
  create_post pw0 w entry s' r -> append_post pw w o s' r.
Proof.
  intros (T1 & T2 & T3 & T4) Hset Hm Ho (Hg & (S1 & S2 & S3 & S4) & Hr). split; [done|].
  split; [repeat split; congruence|]. unfold mine in Hm. destruct r as [out|e].
  - destruct Hr as ((e & Hl & Hown & Hq & Hc & Ha) & Hp). apply is_own_entry_spec in Hown as (E1 & E2 & E3 & E4).
    split; [intros p; by rewrite Hp|]. exists [], [(e, out.2)]. cbn [app].
    split; [rewrite <- Hset; by apply guarded_one|]. split.
    { apply Forall_singleton. split; [by rewrite <- T2|]. unfold mine. cbn. congruence. }
    split; [cbn; lia|]. split; [by intros ? ?%elem_of_nil|]. exists e. split; [done|]. split; [done|congruence].
  - destruct Hr as [Hs Hp]. split.
    { intros p Hp'. unfold mine. destruct Hp as [Hp|Hp]; rewrite Hp in Hp'; [done|]. injection Hp' as <-. congruence. }
    exists [], []. split; [cbn; congruence|]. split; [constructor|]. split; [cbn; lia|]. split; [by intros ? ?%elem_of_nil|done].
Qed.

(** An append after an earlier attempt of this writer was adopted. *)
Lemma settled_append_post pw pw1 w w1 p out o s' r :
  mine pw p -> pw_pending pw = Some p -> objects w ⊆ objects w1 -> same_writer (set_pending None pw) pw1 ->
  commits (set_pending None pw) p (pw1, w1) out -> pw_pending pw1 = None ->
  append_post pw1 w1 o s' r -> append_post pw w o s' r.
Proof.
  intros Hm Hp Hg (T1 & T2 & T3 & T4) (e & Hl & Hown & Hq & Hc & Ha) Hnone
    (Hg' & (S1 & S2 & S3 & S4) & Hpo & earlier & now & Hre & Hla & Hlen & Hear & Hr). cbn in *.
  split; [by etrans|]. split; [repeat split; congruence|]. split; [done|].
  assert (earlier = []) as ->.
  { destruct earlier as [|x l]; [done|]. destruct (Hear x) as (q & Hq' & _); [constructor|]. congruence. }
  exists [(e, out.2)], now. split; [eapply guarded_replay_app; [by apply guarded_one|done]|].
  pose proof (is_own_entry_spec _ _ Hown) as (_ & E2 & _). split.
  { apply Forall_app. split.
    - apply Forall_singleton. split; [by eapply landed_grows|]. unfold mine in *. cbn. congruence.
    - eapply Forall_impl; [exact Hla|]. cbn. intros es [Hes Hms]. split; [by rewrite <- T2|]. unfold mine in *. congruence. }
  split; [cbn; lia|]. split; [|done]. intros es ->%list_elem_of_singleton. by exists p.
Qed.

Lemma wp_append o now_ms pw w :
  pending_ok pw -> wp (append check_append o now_ms) (pw, w) (append_post pw w o).
Proof.
  intros Hok. unfold append. set (m := 1%nat). cbn [append_loop]. apply wp_bind, wp_gets. cbn [fst].
  apply wp_bind, wp_set. cbn [fst snd].
  assert (forall w q prev, wp (create check_append (new_entry pw q prev o now_ms) now_ms) (set_pending None pw, w) (append_post pw w o)) as Hnew.
  { intros w' q prev. eapply wp_mono; [by apply wp_create|]. intros s' r. by apply create_append_post. }
  destruct (match pw_pending pw with Some _ => _ | None => _ end) as [p|] eqn:Ep; [|apply Hnew].
  assert (pw_pending pw = Some p) as Hp.
  { destruct (pw_pending pw); [|done]. by destruct (_ && _). }
  destruct (bool_decide_reflect (op p = o)) as [Eo|_].
  { eapply wp_mono; [by apply wp_create|]. intros s' r. apply create_append_post; [done|done|by apply Hok|done]. }
  apply wp_bind. eapply wp_mono; [by apply wp_settle_pending|].
  intros [pw1 w1] r (Hg & Hsw & Hr). destruct r as [[]|e]; cbn [fst snd] in *.
  - destruct Hr as [[out Hc] Hnone]. unfold m, wp. rewrite append_loop_fresh by done.
    apply (settled_append_post pw pw1 w w1 p out o); [by apply Hok|done|done|done|done|done|].
    eapply wp_mono; [by apply wp_create|]. intros s' r. by apply create_append_post.
  - subst pw1. eapply wp_mono; [apply Hnew|]. intros s' r (Hg' & Hrest). split; [by etrans|done].
  - apply (create_append_post pw (set_pending None pw) w p (op p) (pw1, w1) (Err e)); [done|done|by apply Hok|done|done].
Qed.
End writer_spec.

(** ** What a load promises on any store *)

Section load_spec.
Context `{Platform} `{LogCodec} {W : Type} `{ObjectStore W} (objects : W -> gmap string string) `{!StoreLaws W objects}.
Implicit Types (w : W) (s : LiveSet).

(** [(q, sha)] is the digest of what the store holds at [q]. *)
Definition holds (objs : gmap string string) (root : string) (out : Z * string) : Prop :=
  exists bytes, objs !! entry_key root out.1 = Some bytes /\ sha256_hex bytes = out.2.

Lemma holds_grows objs objs' root out : objs ⊆ objs' -> holds objs root out -> holds objs' root out.
Proof. intros Hs (b & Hb & ?). exists b. split; [|done]. by eapply lookup_weaken. Qed.

Lemma landed_holds objs root e sha : landed objs root (e, sha) -> holds objs root (seq e, sha).
Proof. intros (b & ? & _ & ?). by exists b. Qed.

Definition head_held (objs : gmap string string) (root : string) s : Prop :=
  forall q sha epoch, head s = Some (q, sha, epoch) -> holds objs root (q, sha).

Lemma head_held_grows objs objs' root s : objs ⊆ objs' -> head_held objs root s -> head_held objs' root s.
Proof. intros Hs Hh q sha epoch Hq. eapply holds_grows; [done|]. by eapply Hh. Qed.

Lemma wp_store_get key w (Q : W -> result Fail (option string) -> Prop) :
  (forall w' r, objects w ⊆ objects w' -> (forall b, r = Ok (Some b) -> objects w' !! key = Some b) -> Q w' r) ->
  wp (os_get key) w Q.
Proof.
  intros HQ. unfold wp. pose proof (get_grows key w) as Hg.
  destruct (os_get key w) as [w' r] eqn:E. cbn in *. apply HQ; [done|]. intros b ->. by eapply get_some.
Qed.

(** The fetched bytes are what the store holds. *)
Definition fetched_ok (objs : gmap string string) (keys : list string) (got : list (option string)) : Prop :=
  Forall2 (fun key o => forall b, o = Some b -> objs !! key = Some b) keys got.

Lemma wp_fetch_all keys w :
  wp (fetch_all keys) w (fun w' r => objects w ⊆ objects w' /\ forall l, r = Ok l -> fetched_ok (objects w') keys l).
Proof.
  revert w. induction keys as [|key keys IH]; intros w; cbn [fetch_all].
  { apply wp_ret. split; [done|]. intros l [= <-]. constructor. }
  apply wp_bind, wp_store_get. intros w1 r Hg Hr. destruct r as [o|]; [|by split].
  apply wp_bind. eapply wp_mono; [apply IH|]. intros w2 r2 [Hg2 Hr2]. destruct r2 as [l|]; [|split; [by etrans|done]].
  apply wp_ret. split; [by etrans|]. intros l' [= <-]. constructor; [|by apply Hr2].
  intros b ->. eapply lookup_weaken; [by apply Hr|done].
Qed.

Lemma wp_apply_fetched root tenant got n applied s w q :
  fetched_ok (objects w) (entry_key root <$> seqZ q n) got -> expected_seq (head s) = q -> 0 <= q ->
  q + n <= u64_max -> head_held (objects w) root s ->
  wp (apply_fetched apply tenant got applied) (s, w) (fun st r =>
    st.2 = w /\ forall x, r = Ok x -> head_held (objects w) root st.1).
Proof.
  revert n applied s q. induction got as [|o got IH]; intros n applied s q Hf Hq Hpos Hn Hh; cbn [apply_fetched].
  { apply wp_ret. done. }
  destruct (Z.le_gt_cases n 0) as [Hle|Hgt]; [rewrite seqZ_nil in Hf by lia; inversion Hf|].
  rewrite seqZ_cons in Hf by lia. apply Forall2_cons in Hf as [Hb Hf].
  destruct o as [bytes|]; [|by apply wp_ret].
  apply wp_bind, wp_lift. destruct (entry_parse_bytes bytes tenant) as [e|]; [|done].
  apply wp_bind. unfold apply_io. unfold wp at 1. cbn [fst snd].
  destruct (apply s e (sha256_hex bytes)) as [s' [[]|]] eqn:Ea; [|done]. cbn [log_res fst snd].
  apply apply_head in Ea as [Es Eh]. apply (IH (Z.pred n) _ _ (Z.succ q)); [done| |lia|lia|].
  - rewrite Eh. cbn. rewrite wrap_u64_id by (unfold in_u64; lia). lia.
  - intros q' sha epoch. rewrite Eh. intros [= <- <- <-]. exists bytes. split; [|done]. cbn. rewrite Es, Hq. by apply Hb.
Qed.

Lemma expected_seq_u64 s : 0 <= expected_seq (head s) <= u64_max.
Proof.
  unfold expected_seq. destruct (head s) as [[[q sha] ep]|]; [|unfold u64_max; lia].
  unfold wrap_u64. pose proof (Z.mod_pos_bound (q + 1) (u64_max + 1)). unfold u64_max in *. lia.
Qed.

Lemma wp_catch_up_loop fuel root tenant window applied s w :
  1 <= window <= CATCH_UP_MAX_WINDOW -> head_held (objects w) root s ->
  wp (catch_up_loop head apply fuel root tenant window applied) (s, w) (fun st r =>
    objects w ⊆ objects st.2 /\ forall x, r = Ok x -> head_held (objects st.2) root st.1).
Proof.
  unfold CATCH_UP_MAX_WINDOW. revert window applied s w.
  induction fuel as [|fuel IH]; intros window applied s w Hw Hh; cbn [catch_up_loop]; [by apply wp_lift|].
  apply wp_bind, wp_gets. cbn [fst]. pose proof (expected_seq_u64 s) as Hr. set (q := expected_seq (head s)) in *.
  apply wp_bind. unfold on_store. unfold wp at 1. cbn [fst snd].
  set (n := wrap_u64 (q + window) - q).
  assert (q + n <= u64_max) as Hn.
  { subst n. unfold wrap_u64. pose proof (Z.mod_pos_bound (q + window) (u64_max + 1)). unfold u64_max in *. lia. }
  change (u64_range q (wrap_u64 (q + window))) with (seqZ q n).
  pose proof (wp_fetch_all (entry_key root <$> seqZ q n) w) as Hf. unfold wp in Hf.
  destruct (fetch_all (entry_key root <$> seqZ q n) w) as [w1 [got|]]; cbn [fst snd] in *; [|by destruct Hf].
  destruct Hf as [Hg Hf]. specialize (Hf _ eq_refl). apply wp_bind.
  eapply wp_mono; [eapply (wp_apply_fetched root tenant got n applied s w1 q); [done|done|lia|done|by eapply head_held_grows]|].
  intros [s2 w2] r [Hw2 Hs2]. cbn in Hw2. subst w2. destruct r as [[applied' go_on]|]; [|done].
  specialize (Hs2 _ eq_refl). cbn in Hs2. destruct go_on; [|by apply wp_ret].
  eapply wp_mono; [apply IH; [|done]|].
  - unfold CATCH_UP_MAX_WINDOW. rewrite wrap_u64_id by (unfold in_u64, u64_max; lia). case_match; lia.
  - intros st r [Hg' Hx]. split; [by etrans|done].
Qed.

Lemma wp_check_entry root q sha w :
  wp (check_entry root q sha) w (fun w' r => objects w ⊆ objects w' /\ (r = Ok () -> holds (objects w') root (q, sha))).
Proof.
  unfold check_entry. apply wp_bind, wp_store_get. intros w1 r Hg Hr. destruct r as [o|]; [|done].
  apply wp_bind, wp_lift. destruct o as [b|]; [|done]. apply wp_lift. split; [done|].
  cbn. destruct (bool_decide_reflect (sha256_hex b = sha)) as [Hs|]; [|done]. intros _. exists b. split; [by apply Hr|done].
Qed.

Lemma from_checkpoint_head cp s :
  from_checkpoint cp = Ok s -> head s = Some (cp_seq cp, cp_entry_sha256 cp, cp_writer_epoch cp).
Proof. unfold from_checkpoint. intros Hs. by inv_ok. Qed.

Lemma wp_find_checkpoint root tenant keys w :
  wp (find_checkpoint (read_checkpoint root tenant) keys) w (fun w' r =>
    objects w ⊆ objects w' /\ forall c, r = Ok (Some c) -> head_held (objects w') root c).
Proof.
  revert w. induction keys as [|key keys IH]; intros w; cbn [find_checkpoint]; [by apply wp_ret|].
  destruct (is_snapshot_checkpoint_key key); [|apply IH].
  apply wp_bind, wp_store_get. intros w1 r Hg _. destruct r as [[bytes|]|]; [| |done].
  2: { eapply wp_mono; [apply IH|]. intros w2 r [Hg2 Hr]. split; [by etrans|done]. }
  apply wp_bind. unfold read_checkpoint. destruct (checkpoint_parse_bytes bytes tenant) as [cp|].
  2: { apply wp_ret. eapply wp_mono; [apply IH|]. intros w2 r [Hg2 Hr]. split; [by etrans|done]. }
  apply wp_bind. eapply wp_mono; [apply wp_check_entry|]. intros w2 r [Hg2 Hr]. destruct r as [[]|]; [|split; [by etrans|done]].
  apply wp_bind, wp_lift. destruct (log_res (from_checkpoint cp)) as [c|] eqn:Hc; [|split; [by etrans|done]].
  apply log_res_ok, from_checkpoint_head in Hc. apply wp_ret, wp_ret. split; [by etrans|].
  intros c' [= <-] q sha epoch. rewrite Hc. intros [= <- <- <-]. by apply Hr.
Qed.

(** However the store behaves, the head of a loaded set is in the store. *)
Lemma load_log_held fuel root tenant w w' r :
  LogKeys_new tenant = Ok root -> load_log fuel tenant w = (w', r) ->
  objects w ⊆ objects w' /\ forall set, r = Ok set -> head_held (objects w') root set.
Proof.
  intros Hroot. unfold load_log. rewrite Hroot.
  assert (wp (root' ← io_lift (format_res (Ok root)); checkpoints ← os_list (checkpoints_prefix root');
    find_checkpoint (read_checkpoint root' tenant) (rev checkpoints)) w (fun w' r =>
    objects w ⊆ objects w' /\ forall c, r = Ok (Some c) -> head_held (objects w') root c)) as Hf.
  { apply wp_bind, wp_lift. cbn [format_res]. apply wp_bind. unfold wp at 1. pose proof (list_grows (checkpoints_prefix root) w) as Hg.
    destruct (os_list (checkpoints_prefix root) w) as [w1 [keys|]]; cbn [fst snd] in *; [|done].
    eapply wp_mono; [apply wp_find_checkpoint|]. intros w2 r2 [Hg2 Hr2]. split; [by etrans|done]. }
  unfold wp in Hf. destruct (mbind (M := IO W) _ _ w) as [w1 [found|e]]; cbn [fst snd] in Hf; [|intros [= <- <-]; by destruct Hf].
  destruct Hf as [Hg Hf]. unfold catch_up, catch_up_with. rewrite Hroot, bind_IO. cbn [io_lift format_res].
  assert (head_held (objects w1) root (default empty_set found)) as Hh.
  { destruct found as [c|]; [by apply Hf|done]. }
  pose proof (wp_catch_up_loop fuel root tenant 1 0 _ w1 ltac:(unfold CATCH_UP_MAX_WINDOW; lia) Hh) as Hc. unfold wp in Hc.
  destruct (catch_up_loop head apply fuel root tenant 1 0 (default empty_set found, w1)) as [[set w2] [x|e]];
    cbn [fst snd] in Hc; destruct Hc as [Hg2 Hx]; intros [= <- <-]; (split; [by etrans|]); [|done].
  intros set' [= <-]. by eapply Hx.
Qed.
End load_spec.

(** ** Several writers over one store *)

Section system.
Context `{Platform} `{LogCodec} {W : Type} `{ObjectStore W} (objects : W -> gmap string string).
Context (check_append : W -> bool) (tenant root : string).

(** The world, the writers that are open, and every outcome a writer was told is committed. *)
Record System := { sys_world : W; sys_writers : list PartLogWriter; sys_acks : list AppendOutcome }.

(** The environment may store new objects at any time; writers open, append, fail and
    reload in any order. *)
Inductive sys_step : System -> System -> Prop :=
| step_env w' sy : objects (sys_world sy) ⊆ objects w' ->
    sys_step sy {| sys_world := w'; sys_writers := sys_writers sy; sys_acks := sys_acks sy |}
| step_append i o now_ms sy pw pw' w' out :
    sys_writers sy !! i = Some pw -> append check_append o now_ms (pw, sys_world sy) = ((pw', w'), Ok out) ->
    sys_step sy {| sys_world := w'; sys_writers := <[i := pw']> (sys_writers sy); sys_acks := sys_acks sy ++ [out] |}
| step_append_failed i o now_ms sy pw pw' w' e :
    sys_writers sy !! i = Some pw -> append check_append o now_ms (pw, sys_world sy) = ((pw', w'), Err e) ->
    sys_step sy {| sys_world := w'; sys_writers := <[i := pw']> (sys_writers sy); sys_acks := sys_acks sy |}
| step_reload i fuel sy pw pw' w' r :
    sys_writers sy !! i = Some pw -> reload fuel (pw, sys_world sy) = ((pw', w'), r) ->
    sys_step sy {| sys_world := w'; sys_writers := <[i := pw']> (sys_writers sy); sys_acks := sys_acks sy |}
| step_open fuel epoch schema now_ms sy pw w' :
    open check_append fuel tenant epoch schema now_ms (sys_world sy) = (w', Ok pw) ->
    sys_step sy {| sys_world := w'; sys_writers := sys_writers sy ++ [pw]; sys_acks := sys_acks sy |}.

Inductive reachable : System -> Prop :=
| reach_init w : reachable {| sys_world := w; sys_writers := []; sys_acks := [] |}
| reach_step sy sy' : reachable sy -> sys_step sy sy' -> reachable sy'.

(** Every writer is this tenant's, built its own pending entry, and stands on a stored
    entry; every acknowledged outcome is stored. *)
Definition writer_ok (w : W) (pw : PartLogWriter) : Prop :=
  pw_tenant pw = tenant /\ pw_root pw = root /\ pending_ok pw /\ head_held (objects w) root (pw_set pw).
Record sys_inv (sy : System) : Prop := {
  si_writers : Forall (writer_ok (sys_world sy)) (sys_writers sy);
  si_acks : Forall (holds (objects (sys_world sy)) root) (sys_acks sy) }.

Context `{!StoreLaws W objects} (Hroot : LogKeys_new tenant = Ok root).

Lemma writer_ok_grows w w' pw : objects w ⊆ objects w' -> writer_ok w pw -> writer_ok w' pw.
Proof. intros Hg (? & ? & ? & ?). repeat split; [done..|]. by eapply head_held_grows. Qed.

Lemma inv_grows w w' writers acks :
  objects w ⊆ objects w' -> Forall (writer_ok w) writers -> Forall (holds (objects w) root) acks ->
  Forall (writer_ok w') writers /\ Forall (holds (objects w') root) acks.
Proof.
  intros Hg Hw Ha. split; (eapply Forall_impl; [done|]); cbn; intros x Hx; [by eapply writer_ok_grows|by eapply holds_grows].
Qed.

Lemma guarded_replay_replay log s s' : guarded_replay log s = Ok s' -> replay log s = Ok s'.
Proof.
  unfold guarded_replay, replay. revert s. induction log as [|es log IH]; intros s; cbn; [done|].
  intros (s1 & Hs & Hr)%bind_ok_inv. unfold guarded_step in Hs. apply bind_ok_inv in Hs as ([] & _ & ->). cbn. by apply IH.
Qed.

(** An append keeps a writer on a stored entry. *)
Lemma append_writer_ok o now_ms pw w pw' w' r :
  writer_ok w pw -> append check_append o now_ms (pw, w) = ((pw', w'), r) ->
  objects w ⊆ objects w' /\ writer_ok w' pw' /\ (forall out, r = Ok out -> holds (objects w') root out).
Proof.
  intros (Ht & Hr & Hp & Hh) Ha. pose proof (wp_append objects check_append o now_ms pw w Hp) as Hpost.
  unfold wp in Hpost. rewrite Ha in Hpost. cbn [fst snd] in Hpost.
  destruct Hpost as (Hg & (S1 & S2 & _) & Hpo & earlier & now & Hre & Hla & _ & _ & Hout). cbn [fst snd] in *.
  rewrite Hr in Hla. split; [done|]. split.
  - split; [congruence|]. split; [congruence|]. split; [done|].
    destruct (earlier ++ now) as [|es log _] eqn:E using rev_ind.
    { injection Hre as <-. by eapply head_held_grows. }
    apply guarded_replay_replay, replay_head_last in Hre. intros q sha epoch. rewrite Hre. intros [= <- <- <-].
    apply Forall_app in Hla as [_ [[Hl _] _]%Forall_cons]. by destruct es; apply landed_holds in Hl.
  - intros [q sha] ->. destruct Hout as (e & -> & Eq & _). cbn in Eq. subst q.
    apply Forall_app in Hla as [_ [[Hl _] _]%Forall_cons]. by apply landed_holds in Hl.
Qed.

Lemma reload_writer_ok fuel pw w pw' w' r :
  writer_ok w pw -> reload fuel (pw, w) = ((pw', w'), r) -> objects w ⊆ objects w' /\ writer_ok w' pw'.
Proof.
  intros (Ht & Hr & Hp & Hh) He. unfold reload in He. cbn in He. rewrite Ht in He.
  destruct (load_log fuel tenant w) as [w1 [set|e]] eqn:El; injection He as <- <- <-;
    destruct (load_log_held objects _ _ _ _ _ _ Hroot El) as [Hg Hs]; (split; [done|]).
  - repeat split; [done..|]. cbn. by apply Hs.
  - repeat split; [done..|]. cbn. by eapply head_held_grows.
Qed.

Lemma open_writer_ok fuel epoch schema now_ms w pw w' :
  open check_append fuel tenant epoch schema now_ms w = (w', Ok pw) -> objects w ⊆ objects w' /\ writer_ok w' pw.
Proof.
  unfold open. destruct (load_log fuel tenant w) as [w1 [set|e]] eqn:El; [|done].
  destruct (load_log_held objects _ _ _ _ _ _ Hroot El) as [Hg Hs]. specialize (Hs _ eq_refl).
  destruct (match head set with Some _ => _ | None => _ end); [done|]. rewrite Hroot.
  set (pw0 := mk_writer tenant root epoch set 0 None false None).
  assert (writer_ok w1 pw0) as Hok by (by repeat split). destruct (head set).
  { intros [= <- <-]. done. }
  destruct schema as [sc|]; [|done].
  destruct (append check_append (Genesis sc) now_ms (pw0, w1)) as [[pw1 w2] [out|]] eqn:Ea; [|done].
  intros [= <- <-]. destruct (append_writer_ok _ _ _ _ _ _ _ Hok Ea) as (Hg2 & ? & _). split; [by etrans|done].
Qed.

Lemma sys_inv_step sy sy' : sys_inv sy -> sys_step sy sy' -> sys_inv sy'.
Proof.
  intros [Hw Ha] Hs. destruct Hs as [w' sy Hg|i o t sy pw pw' w' out Hi He|i o t sy pw pw' w' e Hi He
    |i fuel sy pw pw' w' r Hi He|fuel epoch schema t sy pw w' He].
  - destruct (inv_grows _ _ _ _ Hg Hw Ha). by split.
  - pose proof (proj1 (Forall_lookup _ _) Hw _ _ Hi) as Hok. destruct (append_writer_ok _ _ _ _ _ _ _ Hok He) as (Hg & Hok' & Ho).
    destruct (inv_grows _ _ _ _ Hg Hw Ha). split; cbn; [by apply Forall_insert|]. apply Forall_app. split; [done|].
    apply Forall_singleton. by apply Ho.
  - pose proof (proj1 (Forall_lookup _ _) Hw _ _ Hi) as Hok. destruct (append_writer_ok _ _ _ _ _ _ _ Hok He) as (Hg & Hok' & _).
    destruct (inv_grows _ _ _ _ Hg Hw Ha). split; cbn; [by apply Forall_insert|done].
  - pose proof (proj1 (Forall_lookup _ _) Hw _ _ Hi) as Hok. destruct (reload_writer_ok _ _ _ _ _ _ Hok He) as (Hg & Hok').
    destruct (inv_grows _ _ _ _ Hg Hw Ha). split; cbn; [by apply Forall_insert|done].
  - destruct (open_writer_ok _ _ _ _ _ _ _ He) as (Hg & Hok'). destruct (inv_grows _ _ _ _ Hg Hw Ha).
    split; cbn; [|done]. apply Forall_app. split; [done|by apply Forall_singleton].
Qed.

Lemma sys_inv_reachable sy : reachable sy -> sys_inv sy.
Proof. induction 1; [by split; constructor|by eapply sys_inv_step]. Qed.

Lemma holds_functional objs q a b : holds objs root (q, a) -> holds objs root (q, b) -> a = b.
Proof. intros (x & Hx & Ex) (y & Hy & Ey). cbn in *. congruence. Qed.
End system.

(** ** A concrete run *)
Module WriterExample.
#[export] Existing Instance ToyPlatform.toy.
#[export] Existing Instance StoreExample.example_codec.
#[export] Existing Instance LocalObjectStore.local_store.

Definition gate (w : gmap string string) : bool := true.
Definition blank : PartLogWriter := mk_writer "" "" 0 empty_set 0 None false None.
Definition open_at (epoch : Z) : IO (gmap string string) PartLogWriter :=
  open gate 6 LogExample.tenant epoch (Err FGate) 380.

(** Writer [a] (epoch 1) and its rival [b] (epoch 2) open the example log. *)
Definition a : PartLogWriter := unwrap blank (open_at 1 StoreExample.store).2.
Definition w1 : gmap string string := (open_at 1 StoreExample.store).1.
Definition b : PartLogWriter := unwrap blank (open_at 2 w1).2.
Definition w2 : gmap string string := (open_at 2 w1).1.
(** [a] appends; then [b] tries to. *)
Definition ra := append gate StoreExample.next_op 400 (a, w2).
Definition rb := append gate (Schema LogExample.sc) 390 (b, ra.1.2).

Lemma run_ok {S A} (d : A) (m : IO S A) s : is_ok (m s).2 = true -> m s = ((m s).1, Ok (unwrap d (m s).2)).
Proof. destruct (m s) as [s' r]. cbn. intros Hr. f_equal. by apply unwrap_ok. Qed.

Lemma run_err {S A} (e : Fail) (m : IO S A) s : (m s).2 = Err e -> m s = ((m s).1, Err e).
Proof. by destruct (m s) as [s' r]; cbn; intros ->. Qed.

Lemma root_ok : LogKeys_new LogExample.tenant = Ok StoreExample.root.
Proof. vm_compute. reflexivity. Qed.
Lemma a_ok : open gate 6 LogExample.tenant 1 (Err FGate) 380 StoreExample.store = (w1, Ok a).
Proof. refine (run_ok blank (open_at 1) StoreExample.store _). vm_compute. reflexivity. Qed.
Lemma b_ok : open gate 6 LogExample.tenant 2 (Err FGate) 380 w1 = (w2, Ok b).
Proof. refine (run_ok blank (open_at 2) w1 _). vm_compute. reflexivity. Qed.
Lemma run_eta {S T A} (m : IO (S * T) A) s r : (m s).2 = r -> m s = (((m s).1.1, (m s).1.2), r).
Proof. intros <-. by destruct (m s) as [[? ?] ?]. Qed.

Lemma ra_ok : append gate StoreExample.next_op 400 (a, w2) = ((ra.1.1, ra.1.2), Ok (4, sha256_hex "104")).
Proof. refine (run_eta (append gate StoreExample.next_op 400) (a, w2) _ _). vm_compute. reflexivity. Qed.
Lemma rb_fenced : append gate (Schema LogExample.sc) 390 (b, ra.1.2) = ((rb.1.1, rb.1.2), Err (FFenced 4)).
Proof. refine (run_eta (append gate (Schema LogExample.sc) 390) (b, ra.1.2) _ _). vm_compute. reflexivity. Qed.
End WriterExample.

(** ** Properties *)

(** C15: a committed append: the store holds the entry with the acknowledged digest at its
    sequence number, the entry carries the requested operation under this writer's epoch, and
    the writer's set is its old set advanced by that entry, after at most one earlier attempt
    of its own, each step passing the double-consume guard. *)
Theorem append_committed `{Platform} `{LogCodec} {W} `{ObjectStore W} objects `{!StoreLaws W objects} check_append
    o now_ms pw w pw' w' q sha :
  pending_ok pw -> append check_append o now_ms (pw, w) = ((pw', w'), Ok (q, sha)) ->
  exists earlier e, op e = o /\ seq e = q /\ writer_epoch e = pw_epoch pw
    /\ landed (objects w') (pw_root pw) (e, sha)
    /\ guarded_replay (earlier ++ [(e, sha)]) (pw_set pw) = Ok (pw_set pw') /\ (length earlier <= 1)%nat
    /\ objects w ⊆ objects w'.
Proof.
  intros Hp Ha. pose proof (wp_append objects check_append o now_ms pw w Hp) as Hpost. unfold wp in Hpost.
  rewrite Ha in Hpost. destruct Hpost as (Hg & _ & _ & earlier & now & Hre & Hla & Hlen & _ & (e & -> & Hq & Ho)).
  cbn in *. exists earlier, e. apply Forall_app in Hla as [_ [[Hl Hm] _]%Forall_cons].
  split; [done|]. split; [done|]. split; [exact Hm|]. done.
Qed.

(** C1: commits never disagree: in any interleaving of any number of writers of a tenant with
    each other, with failing and ambiguous creates, reloads and outside writes, two
    acknowledged commits of the same sequence number have the same entry digest, and a writer
    whose head is at that number has it too. *)
Theorem no_split_brain `{Platform} `{LogCodec} {W} `{ObjectStore W} objects `{!StoreLaws W objects} check_append
    tenant root sy :
  LogKeys_new tenant = Ok root -> reachable objects check_append tenant sy ->
  (forall q a b, (q, a) ∈ sys_acks sy -> (q, b) ∈ sys_acks sy -> a = b)
  /\ (forall q a b epoch pw, (q, a) ∈ sys_acks sy -> pw ∈ sys_writers sy -> head (pw_set pw) = Some (q, b, epoch) -> a = b)
  /\ (forall q a b ea eb pa pb, pa ∈ sys_writers sy -> pb ∈ sys_writers sy ->
        head (pw_set pa) = Some (q, a, ea) -> head (pw_set pb) = Some (q, b, eb) -> a = b).
Proof.
  intros Hroot Hr. destruct (sys_inv_reachable objects check_append tenant root Hroot sy Hr) as [Hw Ha].
  pose proof (proj1 (Forall_forall _ _) Hw) as Hws. pose proof (proj1 (Forall_forall _ _) Ha) as Has. clear Hw Ha. split; [|split].
  - intros q a b H1' H2'. eapply holds_functional; by apply Has.
  - intros q a b epoch pw Hq Hpw Hh. eapply holds_functional; [by apply Has|]. by apply Hws in Hpw as (_ & _ & _ & Hpw); eapply Hpw.
  - intros q a b ea eb pa pb Hpa Hpb Hha Hhb. apply Hws in Hpa as (_ & _ & _ & Hpa), Hpb as (_ & _ & _ & Hpb).
    eapply holds_functional; [by eapply Hpa|by eapply Hpb].
Qed.

Section fencing.
Context `{Platform} `{LogCodec} {W : Type} `{ObjectStore W} (objects : W -> gmap string string) `{!StoreLaws W objects}.
Context (check_append : W -> bool).

(** The first entry an append puts behind the set sits at the next sequence number. *)
Lemma first_landed root objs log es s s' :
  guarded_replay (es :: log) s = Ok s' -> landed objs root es ->
  exists bytes, objs !! entry_key root (expected_seq (head s)) = Some bytes /\ entry_to_bytes es.1 = Ok bytes.
Proof.
  intros Hr (bytes & Hb & He & _). exists bytes. split; [|done]. unfold guarded_replay in Hr. cbn in Hr.
  apply bind_ok_inv in Hr as (s1 & Hs & _). unfold guarded_step in Hs. apply bind_ok_inv in Hs as (_ & _ & Ha).
  unfold apply_step in Ha. destruct (apply s es.1 es.2) as [s2 [[]|]] eqn:E; [|done].
  apply apply_head in E as [<- _]. done.
Qed.

Lemma entry_to_bytes_inj `{!LogCodecLaws _} a b bytes : entry_to_bytes a = Ok bytes -> entry_to_bytes b = Ok bytes -> a = b.
Proof.
  unfold entry_to_bytes. intros Ha Hb. inv_ok.
  repeat match goal with E : entry_json _ = Some _ |- _ => apply entry_json_roundtrip in E end. congruence.
Qed.
End fencing.

(** C16: a writer whose next key already holds another writer's entry can never append: every
    append fails, its set stays where it was, and the stored entry stays as it is. *)
Theorem foreign_entry_fences `{Platform} `{LogCodec} {W} `{ObjectStore W} objects `{!StoreLaws W objects} check_append
    o now_ms pw w pw' w' r bytes :
  pending_ok pw -> objects w !! entry_key (pw_root pw) (expected_seq (head (pw_set pw))) = Some bytes ->
  (forall e, entry_to_bytes e = Ok bytes -> writer_epoch e <> pw_epoch pw) ->
  append check_append o now_ms (pw, w) = ((pw', w'), r) ->
  is_ok r = false /\ pw_set pw' = pw_set pw
  /\ objects w' !! entry_key (pw_root pw) (expected_seq (head (pw_set pw))) = Some bytes.
Proof.
  intros Hp Hb Hforeign Ha. pose proof (wp_append objects check_append o now_ms pw w Hp) as Hpost. unfold wp in Hpost.
  rewrite Ha in Hpost. destruct Hpost as (Hg & _ & _ & earlier & now & Hre & Hla & _ & _ & Hout). cbn in *.
  assert (objects w' !! entry_key (pw_root pw) (expected_seq (head (pw_set pw))) = Some bytes) as Hb' by (by eapply lookup_weaken).
  destruct (earlier ++ now) as [|es log] eqn:E.
  - apply app_nil in E as [-> ->]. injection Hre as <-. split; [|done]. destruct r as [out|]; [|done].
    by destruct Hout as (e & ? & _).
  - apply Forall_cons in Hla as [[Hl Hm] _]. destruct (first_landed _ _ _ _ _ _ Hre Hl) as (b' & Hb2 & He).
    exfalso. apply (Hforeign es.1); [congruence|exact Hm].
Qed.

(** C17: a retry never commits twice: when an earlier attempt of unknown outcome did land, a
    retry of the same operation, whenever it is made, can only be acknowledged as that very
    entry, with its original time and bytes. *)
Theorem retry_same_entry `{Platform} `{LogCodec} `{!LogCodecLaws _} {W} `{ObjectStore W} objects `{!StoreLaws W objects}
    check_append p bytes now_ms pw w pw' w' out :
  pw_pending pw = Some p -> seq p = expected_seq (head (pw_set pw)) -> prev_sha256 p = expected_prev (head (pw_set pw)) ->
  entry_to_bytes p = Ok bytes -> objects w !! entry_key (pw_root pw) (seq p) = Some bytes ->
  append check_append (op p) now_ms (pw, w) = ((pw', w'), Ok out) ->
  out = (seq p, sha256_hex bytes) /\ apply_step (pw_set pw) (p, sha256_hex bytes) = Ok (pw_set pw').
Proof.
  intros Hpend Hq Hprev Hbytes Hst Ha. unfold append in Ha. cbn [append_loop] in Ha. rewrite bind_IO in Ha.
  cbn [io_gets fst] in Ha. rewrite Hpend, Hq, Z.eqb_refl, bool_decide_eq_true_2, bind_IO in Ha by done.
  cbn [on_writer io_set fst snd andb] in Ha. rewrite bool_decide_eq_true_2 in Ha by done.
  pose proof (wp_create objects check_append p now_ms (set_pending None pw) w eq_refl) as Hpost. unfold wp in Hpost.
  rewrite Ha in Hpost. destruct Hpost as (Hg & _ & (e & (b & Hb & He & Hsha) & Hown & Hseq & _ & Happly) & _). cbn in *.
  apply is_own_entry_spec in Hown as (Es & _). assert (b = bytes) as ->.
  { rewrite Es in Hb. eapply lookup_weaken in Hst; [|exact Hg]. congruence. }
  rewrite (entry_to_bytes_inj _ _ _ He Hbytes) in *. destruct out as [q sha]. cbn in *. subst. done.
Qed.

Section local.
Context `{Platform} `{LogCodec} {X : Type}.
#[local] Existing Instance LocalObjectStore.local_store.

Lemma wp_local_put key bytes hints (x : X) (w : gmap string string) Q :
  LocalObjectStore.path_ok key = true ->
  match w !! key with None => Q (x, <[key := bytes]> w) (Ok true) | Some _ => Q (x, w) (Ok false) end ->
  wp (on_store (os_put_if_absent_with key bytes hints)) (x, w) Q.
Proof.
  intros Hp HQ. unfold wp, on_store. cbn. unfold LocalObjectStore.put_if_absent, LocalObjectStore.checked.
  rewrite Hp, bind_IO. cbn. by destruct (w !! key).
Qed.

Lemma wp_local_get key (x : X) (w : gmap string string) Q :
  LocalObjectStore.path_ok key = true -> Q (x, w) (Ok (w !! key)) -> wp (on_store (os_get key)) (x, w) Q.
Proof. intros Hp HQ. unfold wp, on_store. cbn. unfold LocalObjectStore.get, LocalObjectStore.checked. by rewrite Hp. Qed.

Lemma wp_append_fresh check_append o now_ms pw (w : gmap string string) Q :
  pw_pending pw = None ->
  wp (create check_append (new_entry pw (expected_seq (head (pw_set pw))) (expected_prev (head (pw_set pw))) o now_ms) now_ms)
    (set_pending None pw, w) Q ->
  wp (append check_append o now_ms) (pw, w) Q.
Proof. intros Hp HQ. unfold wp, append. by rewrite append_loop_fresh. Qed.
End local.

(** On the local store an append is decided: a free next key commits the new entry, which
    the store then holds, and a key taken by anything but this writer's own entry fences. *)
Theorem local_append_outcome `{Platform} `{LogCodec} o now_ms pw (w : gmap string string) bytes next :
  let S := LocalObjectStore.local_store in
  let q := expected_seq (head (pw_set pw)) in
  let entry := new_entry pw q (expected_prev (head (pw_set pw))) o now_ms in
  pw_pending pw = None -> pw_gated pw = false -> LocalObjectStore.path_ok (entry_key (pw_root pw) q) = true ->
  entry_to_bytes entry = Ok bytes -> check_consumes (pw_set pw) o = Ok () ->
  apply_step (pw_set pw) (entry, sha256_hex bytes) = Ok next ->
  let '((pw', w'), r) := append (fun _ => false) o now_ms (pw, w) in
  match w !! entry_key (pw_root pw) q with
  | None => r = Ok (q, sha256_hex bytes) /\ pw_set pw' = next /\ w' !! entry_key (pw_root pw) q = Some bytes
  | Some existing =>
      existing <> bytes ->
      (forall e, entry_parse_bytes existing (pw_tenant pw) = Ok e -> is_own_entry e entry = false) ->
      r = Err (FFenced q) /\ pw_set pw' = pw_set pw /\ w' = w
  end.
Proof.
  intros S q entry Hpend Hgate Hpath Hb Hc Ha.
  enough (wp (append (fun _ => false) o now_ms) (pw, w) (fun s' r =>
    match w !! entry_key (pw_root pw) q with
    | None => r = Ok (q, sha256_hex bytes) /\ pw_set s'.1 = next /\ s'.2 !! entry_key (pw_root pw) q = Some bytes
    | Some existing =>
        existing <> bytes ->
        (forall e, entry_parse_bytes existing (pw_tenant pw) = Ok e -> is_own_entry e entry = false) ->
        r = Err (FFenced q) /\ pw_set s'.1 = pw_set pw /\ s'.2 = w
    end)) as Hw.
  { unfold wp in Hw. by destruct (append (fun _ => false) o now_ms (pw, w)) as [[pw' w'] r]. }
  apply wp_append_fresh; [done|]. fold q entry. unfold create. apply wp_bind, wp_lift. rewrite Hb.
  apply wp_bind, wp_gets. cbn [fst pw_set set_pending pw_root]. apply wp_bind, wp_lift. change (op entry) with o. rewrite Hc.
  apply wp_bind, wp_lift. rewrite Ha. cbn [log_res]. apply wp_bind, wp_gets. apply wp_bind, wp_lift.
  cbn [fst pw_gated set_pending]. rewrite Hgate. cbn [negb orb ensure]. apply wp_bind, wp_set. cbn [fst snd].
  apply wp_bind, wp_try. change (seq entry) with q. apply wp_local_put; [done|].
  destruct (w !! entry_key (pw_root pw) q) as [existing|] eqn:E.
  - apply wp_bind, wp_local_get; [done|]. rewrite E. apply wp_bind, wp_lift. cbn [of_option]. apply wp_bind, wp_set.
    cbn [fst snd]. unfold resolve, wp. intros Hne Hforeign. rewrite bool_decide_eq_false_2 by done.
    unfold adopt_or_fence. rewrite bind_IO. cbn [io_gets fst pw_tenant set_pending].
    destruct (entry_parse_bytes existing (pw_tenant pw)) as [e|] eqn:Ep; [|done]. by rewrite (Hforeign e eq_refl).
  - apply wp_bind, wp_set. cbn [fst snd]. apply wp_bind, wp_set. cbn [fst snd].
    apply (wp_committed id (StoreLaws0 := LocalObjectStore.local_laws)). intros w' Hg. cbn [fst snd]. split; [done|].
    split; [done|]. eapply lookup_weaken; [|exact Hg]. apply lookup_insert_eq.
Qed.

(** ** Witnesses: the concrete run *)
Import WriterExample.

Lemma append_committed_witness :
  exists earlier e, op e = StoreExample.next_op /\ seq e = 4 /\ writer_epoch e = pw_epoch a
    /\ landed (id ra.1.2) (pw_root a) (e, sha256_hex "104")
    /\ guarded_replay (earlier ++ [(e, sha256_hex "104")]) (pw_set a) = Ok (pw_set ra.1.1)
    /\ (length earlier <= 1)%nat /\ id w2 ⊆ id ra.1.2.
Proof.
  apply (append_committed id (StoreLaws0 := LocalObjectStore.local_laws) gate StoreExample.next_op 400
    a w2 ra.1.1 ra.1.2 4 _).
  - intros p Hp. exfalso. assert (pw_pending a = None) as E by (vm_compute; reflexivity).
    rewrite E in Hp. discriminate Hp.
  - exact ra_ok.
Defined.

(** The system after both appends: one commit, one fenced rival. *)
Definition final_system : System (W := gmap string string) :=
  {| sys_world := rb.1.2; sys_writers := <[1%nat := rb.1.1]> (<[0%nat := ra.1.1]> [a; b]);
     sys_acks := [(4, sha256_hex "104")] |}.

Lemma final_reachable : reachable id gate LogExample.tenant final_system.
Proof.
  pose proof (reach_init id gate LogExample.tenant StoreExample.store) as H0.
  pose proof (step_open id gate LogExample.tenant 6 1 (Err FGate) 380 _ a w1 (a_ok : open gate 6 LogExample.tenant 1 (Err FGate) 380
    (sys_world {| sys_world := StoreExample.store; sys_writers := []; sys_acks := [] |}) = _)) as S1.
  pose proof (reach_step _ _ _ _ _ H0 S1) as H1. clear H0 S1. cbn [sys_writers sys_acks app] in H1.
  pose proof (step_open id gate LogExample.tenant 6 2 (Err FGate) 380 _ b w2 (b_ok : open gate 6 LogExample.tenant 2 (Err FGate) 380
    (sys_world {| sys_world := w1; sys_writers := [a]; sys_acks := [] |}) = _)) as S2.
  pose proof (reach_step _ _ _ _ _ H1 S2) as H2. clear H1 S2. cbn [sys_writers sys_acks app] in H2.
  pose proof (step_append id gate LogExample.tenant 0 StoreExample.next_op 400
    {| sys_world := w2; sys_writers := [a; b]; sys_acks := [] |} a ra.1.1 ra.1.2 _ eq_refl
    (ra_ok : append gate StoreExample.next_op 400 (a, sys_world {| sys_world := w2; sys_writers := [a; b]; sys_acks := [] |}) = _)) as S3.
  pose proof (reach_step _ _ _ _ _ H2 S3) as H3. clear H2 S3. cbn [sys_writers sys_acks app] in H3.
  pose proof (step_append_failed id gate LogExample.tenant 1 (Schema LogExample.sc) 390
    {| sys_world := ra.1.2; sys_writers := <[0%nat := ra.1.1]> [a; b]; sys_acks := [(4, sha256_hex "104")] |}
    b rb.1.1 rb.1.2 _ eq_refl
    (rb_fenced : append gate (Schema LogExample.sc) 390 (b, sys_world {| sys_world := ra.1.2;
      sys_writers := <[0%nat := ra.1.1]> [a; b]; sys_acks := [(4, sha256_hex "104")] |}) = _)) as S4.
  exact (reach_step _ _ _ _ _ H3 S4).
Qed.

Lemma no_split_brain_witness :
  (forall q x y, (q, x) ∈ sys_acks final_system -> (q, y) ∈ sys_acks final_system -> x = y)
  /\ length (sys_acks final_system) = 1%nat.
Proof.
  split; [|reflexivity].
  apply (no_split_brain id (StoreLaws0 := LocalObjectStore.local_laws) gate LogExample.tenant StoreExample.root final_system);
    [exact root_ok|exact final_reachable].
Defined.

Lemma eta3 {A B C} (x : A * B * C) : x = ((x.1.1, x.1.2), x.2).
Proof. by destruct x as [[? ?] ?]. Qed.

Lemma b_pending : pw_pending b = None.
Proof. vm_compute. reflexivity. Qed.

Lemma foreign_entry_fences_witness :
  is_ok rb.2 = false /\ pw_set rb.1.1 = pw_set b
  /\ id rb.1.2 !! entry_key (pw_root b) (expected_seq (head (pw_set b))) = Some "104".
Proof.
  apply (foreign_entry_fences id (StoreLaws0 := LocalObjectStore.local_laws) gate (Schema LogExample.sc) 390
    b ra.1.2 rb.1.1 rb.1.2 rb.2 "104").
  - intros p Hp. rewrite b_pending in Hp. discriminate Hp.
  - vm_compute. reflexivity.
  - intros e He. pose proof (entry_to_bytes_inj (LogCodecLaws0 := StoreExample.example_codec_laws) e StoreExample.next "104" He) as E.
    rewrite E by (vm_compute; reflexivity). vm_compute. discriminate.
  - exact (eta3 rb).
Defined.

(** A writer whose attempt at [next] landed without an answer. *)
Definition a_unresolved : PartLogWriter := set_pending (Some StoreExample.next) a.
Definition retried := append gate StoreExample.next_op 900 (a_unresolved, ra.1.2).

Lemma retry_same_entry_witness :
  (4, sha256_hex "104") = (seq StoreExample.next, sha256_hex "104")
  /\ apply_step (pw_set a_unresolved) (StoreExample.next, sha256_hex "104") = Ok (pw_set retried.1.1).
Proof.
  apply (retry_same_entry id (LogCodecLaws0 := StoreExample.example_codec_laws)
    (StoreLaws0 := LocalObjectStore.local_laws) gate StoreExample.next "104" 900 a_unresolved ra.1.2 retried.1.1 retried.1.2).
  - reflexivity.
  - vm_compute. reflexivity.
  - vm_compute. reflexivity.
  - vm_compute. reflexivity.
  - vm_compute. reflexivity.
  - assert (retried.2 = Ok (4, sha256_hex "104")) as E by (vm_compute; reflexivity).
    exact (eq_trans (eta3 retried) (f_equal (pair (retried.1.1, retried.1.2)) E)).
Defined.

Lemma local_append_outcome_witness :
  let r := append (fun _ => false) StoreExample.next_op 400 (a, w2) in
  r.2 = Ok (4, sha256_hex "104") /\ r.1.2 !! entry_key (pw_root a) 4 = Some "104".
Proof.
  assert (expected_seq (head (pw_set a)) = 4) as Eq by (vm_compute; reflexivity).
  assert (w2 !! entry_key (pw_root a) (expected_seq (head (pw_set a))) = None) as Hn by (vm_compute; reflexivity).
  pose proof (local_append_outcome StoreExample.next_op 400 a w2 "104"
    (unwrap empty_set (apply_step (pw_set a) (new_entry a (expected_seq (head (pw_set a)))
       (expected_prev (head (pw_set a))) StoreExample.next_op 400, sha256_hex "104")))
    ltac:(vm_compute; reflexivity) ltac:(vm_compute; reflexivity) ltac:(vm_compute; reflexivity)
    ltac:(vm_compute; reflexivity) ltac:(vm_compute; reflexivity) ltac:(apply unwrap_ok; vm_compute; reflexivity)) as Ho.
  revert Ho. generalize (append (fun _ => false) StoreExample.next_op 400 (a, w2)).
  intros [[pw' w'] r]. rewrite Hn, Eq. intros (Hr & _ & Hw). exact (conj Hr Hw).
Defined.
