(* ===== verification/MergePlanner.v ===== *)
(** * MergePlanner: which merges are due

    [parts/levels.rs]: the merge policy, [plan_merges] with its size cap and minute
    splitting, [split_merge] and the overdue signal [l0_merge_overdue_ms]. *)
From S2P Require Import Prelude Platform Format EdgeLog PartTypes.

(** Tunables of the merge policy. *)
Record MergePolicy := {
  minute_min_l0_parts : nat;
  minute_max_l0_age_ms : Z;
  hour_seal_ms : Z;
  day_seal_ms : Z;
  supersede_grace_ms : Z;
  orphan_age_ms : Z;
  max_part_bytes : option Z;
  day_merges : bool;
  sealed_remerge_debounce_ms : Z;
  sealed_remerge_max_defer_ms : Z }.

Definition INTERIM_MAX_PART_BYTES : Z := 2 * 1024 * 1024 * 1024.

Definition MergePolicy_default : MergePolicy := {|
  minute_min_l0_parts := 12;
  minute_max_l0_age_ms := 60000;
  hour_seal_ms := 10 * 60000;
  day_seal_ms := 2 * 3600000;
  supersede_grace_ms := 3600000;
  orphan_age_ms := 49 * 3600000;
  max_part_bytes := Some INTERIM_MAX_PART_BYTES;
  day_merges := false;
  sealed_remerge_debounce_ms := 5 * 60000;
  sealed_remerge_max_defer_ms := 30 * 60000 |}.

(** Estimated bytes of a merged part: its inputs' data plus 35%. *)
Definition estimated_part_bytes (inputs : list PartRef) : Z :=
  let data := sum_u64 (data_bytes <$> inputs) in
  sat_u64 (data + sat_u64 (data * 35) / 100).

Definition MAX_MINUTE_MERGE_INPUTS : nat := 24.
Definition FRAGMENTED_HOUR_PARTS : nat := 64.
Definition hour_is_fragmented (parts : nat) : bool := (FRAGMENTED_HOUR_PARTS <=? parts)%nat.

(** One merge the planner decided is due. *)
Record PlannedMerge := { output_level : Level; pm_event_hour : Z; inputs : list PartRef }.

#[export] Instance PlannedMerge_eq_dec : EqDecision PlannedMerge.
Proof. solve_decision. Defined.

Definition is_fragmented_hour_merge (merge : PlannedMerge) : bool :=
  bool_decide (output_level merge = Hour) && hour_is_fragmented (length (inputs merge)).

Definition at_level (l : Level) (p : PartRef) : bool := bool_decide (level p = l).
(** [matches!(p.level, Level::L0 | Level::Minute)] *)
Definition is_unmerged (p : PartRef) : bool := at_level L0 p || at_level Minute p.
Definition created (p : PartRef) : Z := created_unix_ms (part_id p).

(** True when the newest unmerged part was created at least the debounce ago. *)
Definition unmerged_quiet (parts : list PartRef) (now_ms : Z) (policy : MergePolicy) : bool :=
  match max_list (created <$> List.filter is_unmerged parts) with
  | Some newest => sealed_remerge_debounce_ms policy <=? wrap_i64 (now_ms - newest)
  | None => false
  end.

(** ** Grouping: the two [BTreeMap]s, iterated in key order *)

Definition sorted_keys (l : list Z) : list Z := sort_by Z.leb (remove_dups l).
Definition hourly_parts (live : list PartRef) : list PartRef :=
  List.filter (fun p => sorted p && negb (at_level Day p)) live.
Definition day_parts (live : list PartRef) : list PartRef :=
  List.filter (fun p => sorted p && at_level Day p) live.
Definition hour_group (live : list PartRef) (hour : Z) : list PartRef :=
  List.filter (fun p => event_hour p =? hour) (hourly_parts live).
Definition hour_keys (live : list PartRef) : list Z := sorted_keys (event_hour <$> hourly_parts live).
Definition day_of_part (p : PartRef) : Z := default (event_day_of (event_hour p * HOUR_US)) (event_day p).
Definition day_group (live : list PartRef) (day : Z) : list PartRef :=
  List.filter (fun p => day_of_part p =? day) (day_parts live).

Definition hour_end_ms (hour : Z) : Z := (hour + 1) * (HOUR_US / 1000).
Definition day_end_ms (day : Z) : Z := (day + 1) * (DAY_US / 1000).

(** The [settled] closure of an hour. *)
Definition settled (parts : list PartRef) (now_ms : Z) (policy : MergePolicy) : bool :=
  let unmerged := List.filter (fun p => negb (at_level Hour p)) parts in
  let newest := foldr Z.max i64_min (created <$> unmerged) in
  let oldest := foldr Z.min i64_max (created <$> unmerged) in
  (length unmerged =? 0)%nat
  || (sealed_remerge_debounce_ms policy <=? wrap_i64 (now_ms - newest))
  || (sealed_remerge_max_defer_ms policy <=? wrap_i64 (now_ms - oldest)).

(** The merge due in one event hour, if any. *)
Definition plan_hour (now_ms : Z) (policy : MergePolicy) (history_open : bool) (hour : Z) (parts : list PartRef) :
    option PlannedMerge :=
  let sealed := wrap_i64 (hour_end_ms hour + hour_seal_ms policy) <=? now_ms in
  let unmerged := length (List.filter (fun p => negb (at_level Hour p)) parts) in
  let hour_parts := length (List.filter (at_level Hour) parts) in
  let direct := history_open && sealed && unmerged_quiet parts now_ms policy in
  let fragmented := hour_is_fragmented (length parts) in
  let l0 := List.filter (at_level L0) parts in
  if sealed && ((0 <? unmerged)%nat || (1 <? hour_parts)%nat) && (settled parts now_ms policy || fragmented)
     && (direct || fragmented || (length l0 <? minute_min_l0_parts policy)%nat)
  then Some {| output_level := Hour; pm_event_hour := hour; inputs := parts |}
  else if (2 <=? length l0)%nat
          && ((minute_min_l0_parts policy <=? length l0)%nat
              || (minute_max_l0_age_ms policy <=? wrap_i64 (now_ms - default now_ms (min_list (created <$> l0)))))
       then Some {| output_level := Minute; pm_event_hour := hour; inputs := l0 |}
       else None.

(** The merge due in one day, if any. *)
Definition plan_day (live : list PartRef) (now_ms : Z) (policy : MergePolicy) (day : Z) : option PlannedMerge :=
  let hours := List.filter (fun hour => event_day_of (hour * HOUR_US) =? day) (hour_keys live) in
  let prior_days := day_group live day in
  if now_ms <? wrap_i64 (day_end_ms day + day_seal_ms policy) then None
  else if negb (forallb (fun hour => match hour_group live hour with [p] => at_level Hour p | _ => false end) hours)
          || (match hours with [] => true | _ => false end && (length prior_days <=? 1)%nat)
       then None
       else Some {| output_level := Day; pm_event_hour := wrap_i32 (day * 24);
                    inputs := prior_days ++ (hours ≫= hour_group live) |}.

Definition day_keys (live : list PartRef) : list Z :=
  sorted_keys (((fun hour => event_day_of (hour * HOUR_US)) <$> hour_keys live) ++ (day_of_part <$> day_parts live)).

Definition plan_merges_uncapped (live : list PartRef) (now_ms : Z) (policy : MergePolicy) (history_open : bool) :
    list PlannedMerge :=
  let planned := omap (fun hour => plan_hour now_ms policy history_open hour (hour_group live hour)) (hour_keys live) in
  if day_merges policy then planned ++ omap (plan_day live now_ms policy) (day_keys live) else planned.

(** ** The size cap *)

Definition time_leb (a b : PartRef) : bool :=
  (min_time_us a <? min_time_us b) || ((min_time_us a =? min_time_us b) && (max_time_us a <=? max_time_us b)).

(** Chunk [parts] so that each emitted chunk fits; a chunk of one is dropped. *)
Fixpoint cap_chunks (fits : list PartRef -> bool) (chunk parts : list PartRef) : list (list PartRef) :=
  match parts with
  | [] => if (2 <=? length chunk)%nat then [chunk] else []
  | part :: rest =>
      if fits (chunk ++ [part]) then cap_chunks fits (chunk ++ [part]) rest
      else (if (2 <=? length chunk)%nat then [chunk] else []) ++ cap_chunks fits [part] rest
  end.

(** What becomes of one planned merge under the cap. *)
Definition cap_merge (cap now_ms : Z) (policy : MergePolicy) (history_open : bool) (merge : PlannedMerge) : list PlannedMerge :=
  let fits := fun l => estimated_part_bytes l <=? cap in
  if fits (inputs merge) then [merge]
  else if bool_decide (output_level merge = Day) then []
  else
    let direct := history_open && bool_decide (output_level merge = Hour) && unmerged_quiet (inputs merge) now_ms policy in
    let out := if direct then Hour else Minute in
    let chunked := if direct then is_unmerged else at_level L0 in
    (fun chunk => {| output_level := out; pm_event_hour := pm_event_hour merge; inputs := chunk |})
      <$> cap_chunks fits [] (sort_by time_leb (List.filter chunked (inputs merge))).

(** A minute merge as jobs of at most [MAX_MINUTE_MERGE_INPUTS] inputs. *)
Definition split_minute (merge : PlannedMerge) : list PlannedMerge :=
  if bool_decide (output_level merge = Minute) then
    (fun c => {| output_level := Minute; pm_event_hour := pm_event_hour merge; inputs := c |})
      <$> List.filter (fun c => (2 <=? length c)%nat) (chunks MAX_MINUTE_MERGE_INPUTS (inputs merge))
  else [merge].

(** [plan_merges_with] *)
Definition plan_merges_with (live : list PartRef) (now_ms : Z) (policy : MergePolicy) (history_open : bool) : list PlannedMerge :=
  let planned := plan_merges_uncapped live now_ms policy history_open in
  (match max_part_bytes policy with
   | None => planned
   | Some cap => planned ≫= cap_merge cap now_ms policy history_open
   end) ≫= split_minute.

Definition plan_merges (live : list PartRef) (now_ms : Z) (policy : MergePolicy) : list PlannedMerge :=
  plan_merges_with live now_ms policy true.

Definition split_leb (a b : PartRef) : bool :=
  (min_time_us a <? min_time_us b)
  || ((min_time_us a =? min_time_us b)
      && ((max_time_us a <? max_time_us b)
          || ((max_time_us a =? max_time_us b) && pid_leb (part_id a) (part_id b)))).

(** [split_merge]: time-ordered chunks of at most [max_inputs] unmerged inputs. *)
Definition split_merge (merge : PlannedMerge) (max_inputs : nat) : list PlannedMerge :=
  if bool_decide (output_level merge = Day) then [merge]
  else
    let unmerged := sort_by split_leb (List.filter is_unmerged (inputs merge)) in
    (fun c => {| output_level := output_level merge; pm_event_hour := pm_event_hour merge; inputs := c |})
      <$> List.filter (fun c => (2 <=? length c)%nat) (chunks (max_inputs `max` 2) unmerged).

(** ** The overdue signal *)

(** When the L0 parts of one hour are due. *)
Definition l0_due (policy : MergePolicy) (hour : Z) (parts : list PartRef) : option Z :=
  let l0 := sort_by Z.leb (created <$> List.filter (at_level L0) parts) in
  match l0 with
  | [] => None
  | oldest :: second :: _ =>
      let by_age := sat_i64 (oldest + minute_max_l0_age_ms policy) in
      let by_count := default i64_max (l0 !! (minute_min_l0_parts policy `max` 2 - 1)%nat) in
      Some (Z.max second (Z.min by_age by_count))
  | [_] =>
      let unmerged := created <$> List.filter is_unmerged parts in
      let newest := foldr Z.max i64_min unmerged in
      let oldest := foldr Z.min i64_max unmerged in
      let settled := Z.min (sat_i64 (newest + sealed_remerge_debounce_ms policy)) (sat_i64 (oldest + sealed_remerge_max_defer_ms policy)) in
      Some (Z.max (sat_i64 (hour_end_ms hour + hour_seal_ms policy)) settled)
  end.

(** [l0_merge_overdue_ms] *)
Definition l0_merge_overdue_ms (live : list PartRef) (now_ms : Z) (policy : MergePolicy) : Z :=
  let unsorted := List.filter (fun p => at_level L0 p && negb (sorted p)) live in
  let worst := fold_left (fun worst p => Z.max worst (sat_i64 (now_ms - sat_i64 (created p + hour_seal_ms policy)))) unsorted 0 in
  fold_left (fun worst hour =>
    match l0_due policy hour (hour_group live hour) with
    | Some due => Z.max worst (sat_i64 (now_ms - due))
    | None => worst
    end) (hour_keys live) worst.

(** ** Sub-multisets: what a plan may take *)

(** Grouping by a key and binding is binding over the elements. *)
Lemma group_bind_one {A B} (f : A -> Z) (G : Z -> A -> list B) (x : A) (g : Z -> list B) ds :
  NoDup ds -> f x ∈ ds ->
  (ds ≫= fun d => (if f x =? d then G d x else []) ++ g d) ≡ₚ G (f x) x ++ (ds ≫= g).
Proof.
  induction ds as [|d ds IH]; intros Hn Hx; [by apply elem_of_nil in Hx|].
  apply NoDup_cons in Hn as [Hd Hn]. rewrite !bind_cons.
  destruct (Z.eqb_spec (f x) d) as [E|E].
  - subst d. rewrite <- (assoc_L (++)). f_equiv. f_equiv.
    clear IH Hx Hn. induction ds as [|d ds IH]; [done|]. rewrite !bind_cons.
    apply not_elem_of_cons in Hd as [Hd1 Hd2]. rewrite (proj2 (Z.eqb_neq _ _) Hd1). cbn. by rewrite IH.
  - apply elem_of_cons in Hx as [?|Hx]; [done|]. cbn [app]. rewrite (IH Hn Hx). by rewrite !(assoc_L (++)), (comm (++) (g d)).
Qed.

Lemma group_bind {A B} (f : A -> Z) (G : Z -> A -> list B) ds hs :
  NoDup ds -> (forall h, h ∈ hs -> f h ∈ ds) ->
  (ds ≫= fun d => List.filter (fun h => f h =? d) hs ≫= G d) ≡ₚ hs ≫= fun h => G (f h) h.
Proof.
  intros Hn. induction hs as [|x hs IH]; intros Hh.
  { clear. induction ds as [|d ds IH]; [done|]. rewrite bind_cons. cbn. exact IH. }
  rewrite bind_cons, <- IH by (intros h ?; apply Hh; by constructor).
  rewrite <- (group_bind_one f G x (fun d => List.filter (fun h => f h =? d) hs ≫= G d) ds Hn) by (apply Hh; constructor).
  clear. induction ds as [|d ds IH]; [done|]. rewrite !bind_cons, IH. cbn. by destruct (f x =? d).
Qed.

Lemma bind_submseteq {A B} (f g : A -> list B) l : (forall x, x ∈ l -> f x ⊆+ g x) -> l ≫= f ⊆+ l ≫= g.
Proof.
  induction l as [|x l IH]; intros Hf; [done|]. rewrite !bind_cons.
  apply submseteq_app; [apply Hf; constructor|]. apply IH. intros y ?. apply Hf. by constructor.
Qed.

Lemma bind_bind {A B C} (f : A -> list B) (g : B -> list C) l : (l ≫= f) ≫= g = l ≫= fun x => f x ≫= g.
Proof. induction l as [|x l IH]; [done|]. by rewrite !bind_cons, bind_app, IH. Qed.

Lemma bind_app_perm {A B} (f g : A -> list B) l : (l ≫= f) ++ (l ≫= g) ≡ₚ l ≫= fun x => f x ++ g x.
Proof.
  induction l as [|x l IH]; [done|]. rewrite !bind_cons, <- IH. rewrite <- !(assoc_L (++)). f_equiv.
  by rewrite !(assoc_L (++)), (comm (++) (l ≫= f)).
Qed.

Lemma omap_bind {A B C} (f : A -> option B) (g : B -> list C) l :
  omap f l ≫= g = l ≫= fun x => match f x with Some y => g y | None => [] end.
Proof. induction l as [|x l IH]; [done|]. rewrite bind_cons. cbn. destruct (f x); [by rewrite bind_cons, IH|done]. Qed.

Lemma filter_submseteq {A} (p : A -> bool) l : List.filter p l ⊆+ l.
Proof.
  induction l as [|x l IH]; [done|]. cbn. destruct (p x); [by apply submseteq_skip|by apply submseteq_cons].
Qed.

Lemma filter_partition {A} (p : A -> bool) l : List.filter p l ++ List.filter (fun x => negb (p x)) l ≡ₚ l.
Proof.
  induction l as [|x l IH]; [done|]. cbn. destruct (p x); cbn; [by rewrite IH|].
  by rewrite <- Permutation_middle, IH.
Qed.

Lemma filter_filter {A} (p q : A -> bool) l : List.filter p (List.filter q l) = List.filter (fun x => q x && p x) l.
Proof. induction l as [|x l IH]; [done|]. cbn. destruct (q x); cbn; [destruct (p x)|]; by rewrite IH. Qed.

Lemma sorted_keys_spec l : NoDup (sorted_keys l) /\ forall x, x ∈ sorted_keys l <-> x ∈ l.
Proof.
  unfold sorted_keys. split; [apply NoDup_sort_by, NoDup_remove_dups|].
  intros x. by rewrite elem_of_sort_by, elem_of_remove_dups.
Qed.

(** ** What the uncapped plan takes from the live parts *)

Definition opt_inputs (o : option PlannedMerge) : list PartRef := match o with Some m => inputs m | None => [] end.

Lemma plan_hour_inputs now_ms policy open hour parts : opt_inputs (plan_hour now_ms policy open hour parts) ⊆+ parts.
Proof. unfold plan_hour. case_match; [done|]. case_match; cbn; [apply filter_submseteq|apply submseteq_nil_l]. Qed.

Definition day_of_hour (hour : Z) : Z := event_day_of (hour * HOUR_US).
Definition day_taken (live : list PartRef) (now_ms : Z) (policy : MergePolicy) (day : Z) : bool :=
  bool_decide (is_Some (plan_day live now_ms policy day)).

Lemma plan_day_inputs live now_ms policy day :
  opt_inputs (plan_day live now_ms policy day) =
  if day_taken live now_ms policy day
  then day_group live day ++ (List.filter (fun hour => day_of_hour hour =? day) (hour_keys live) ≫= hour_group live) else [].
Proof.
  unfold day_taken. destruct (plan_day live now_ms policy day) as [m|] eqn:E; [|done].
  rewrite bool_decide_eq_true_2 by (by eexists). unfold plan_day in E.
  destruct (now_ms <? _); [done|]. destruct (_ || _); [done|]. injection E as <-. done.
Qed.

(** A day only takes hours in which no hour or minute merge is planned. *)
Lemma day_taken_hour live now_ms policy open hour :
  hour ∈ hour_keys live -> day_taken live now_ms policy (day_of_hour hour) = true ->
  plan_hour now_ms policy open hour (hour_group live hour) = None.
Proof.
  intros Hk Ht. unfold day_taken in Ht. apply bool_decide_eq_true in Ht as [m Hm]. unfold plan_day in Hm.
  destruct (now_ms <? _); [done|]. destruct (_ || _) eqn:E; [done|]. apply orb_false_iff in E as [E _].
  apply negb_false_iff in E. rewrite forallb_forall in E.
  assert (match hour_group live hour with [p] => at_level Hour p | _ => false end = true) as Hp.
  { apply E. apply filter_In. split; [by apply list_elem_of_In|]. apply Z.eqb_refl. }
  destruct (hour_group live hour) as [|p [|]]; [done| |done]. unfold at_level in Hp. apply bool_decide_eq_true in Hp.
  unfold plan_hour. cbn [List.filter]. unfold at_level. rewrite Hp. cbn. rewrite andb_false_r. done.
Qed.

Lemma sorted_parts_submseteq live : hourly_parts live ++ day_parts live ⊆+ live.
Proof.
  transitivity (List.filter sorted live); [|apply filter_submseteq]. apply Permutation_submseteq.
  rewrite <- (filter_partition (at_level Day) (List.filter sorted live)), !filter_filter.
  unfold hourly_parts, day_parts. apply Permutation_app_comm.
Qed.

Lemma bind_singleton {A} (l : list A) : (l ≫= fun p => [p]) = l.
Proof. induction l as [|x l IH]; [done|]. by rewrite bind_cons, IH. Qed.

(** The groups of a key partition the elements. *)
Lemma groups_perm {A} (f : A -> Z) ks (l : list A) :
  NoDup ks -> (forall x, x ∈ l -> f x ∈ ks) -> (ks ≫= fun k => List.filter (fun x => f x =? k) l) ≡ₚ l.
Proof.
  intros Hn Hk. pose proof (group_bind f (fun _ x => [x]) ks l Hn Hk) as Hg. cbn beta in Hg. rewrite bind_singleton in Hg.
  etransitivity; [|exact Hg]. clear. induction ks as [|k ks IH]; [done|]. by rewrite !bind_cons, IH, bind_singleton.
Qed.

Lemma hour_groups_perm live : hour_keys live ≫= hour_group live ≡ₚ hourly_parts live.
Proof.
  destruct (sorted_keys_spec (event_hour <$> hourly_parts live)) as [Hn Hk].
  apply groups_perm; [done|]. intros p ?. apply Hk. by apply list_elem_of_fmap_2.
Qed.

Lemma uncapped_submseteq live now_ms policy open :
  plan_merges_uncapped live now_ms policy open ≫= inputs ⊆+ hourly_parts live ++ day_parts live.
Proof.
  transitivity ((hour_keys live ≫= hour_group live) ++ day_parts live).
  2: { apply Permutation_submseteq. by rewrite hour_groups_perm. }
  unfold plan_merges_uncapped.
  assert (omap (fun hour => plan_hour now_ms policy open hour (hour_group live hour)) (hour_keys live) ≫= inputs
    = hour_keys live ≫= fun hour => opt_inputs (plan_hour now_ms policy open hour (hour_group live hour))) as Eh
    by apply omap_bind.
  destruct (day_merges policy).
  2: { rewrite Eh. apply submseteq_inserts_r, bind_submseteq. intros h _. apply plan_hour_inputs. }
  rewrite bind_app, Eh, omap_bind.
  assert ((day_keys live ≫= fun day => match plan_day live now_ms policy day with Some m => inputs m | None => [] end)
    ⊆+ (hour_keys live ≫= fun hour => if day_taken live now_ms policy (day_of_hour hour) then hour_group live hour else [])
       ++ day_parts live) as Hd.
  { destruct (sorted_keys_spec (((fun hour => event_day_of (hour * HOUR_US)) <$> hour_keys live) ++ (day_of_part <$> day_parts live))) as [Hn Hk].
    fold (day_keys live) in Hn, Hk.
    rewrite <- (groups_perm day_of_part (day_keys live) (day_parts live)) by
      (done || (intros p ?; apply Hk, elem_of_app; right; by apply list_elem_of_fmap_2)).
    rewrite <- (group_bind day_of_hour (fun d hour => if day_taken live now_ms policy d then hour_group live hour else [])
      (day_keys live) (hour_keys live)) by (done || (intros h ?; apply Hk, elem_of_app; left;
      by apply (list_elem_of_fmap_2 (fun hour => event_day_of (hour * HOUR_US))))).
    rewrite bind_app_perm. apply bind_submseteq. intros d _. fold (opt_inputs (plan_day live now_ms policy d)).
    rewrite plan_day_inputs. destruct (day_taken live now_ms policy d); [|apply submseteq_nil_l].
    rewrite Permutation_app_comm. done. }
  etransitivity; [apply submseteq_skips_l, Hd|]. rewrite (assoc_L (++)). apply submseteq_skips_r. rewrite bind_app_perm. apply bind_submseteq. intros hour Hh.
  destruct (day_taken live now_ms policy (day_of_hour hour)) eqn:E.
  - by rewrite (day_taken_hour _ _ _ _ _ Hh E).
  - rewrite app_nil_r. apply plan_hour_inputs.
Qed.

(** ** The cap and the minute split *)

Lemma cap_chunks_submseteq fits chunk parts : concat (cap_chunks fits chunk parts) ⊆+ chunk ++ parts.
Proof.
  revert chunk. induction parts as [|p parts IH]; intros chunk; cbn [cap_chunks].
  { case_match; cbn; [done|apply submseteq_nil_l]. }
  destruct (fits (chunk ++ [p])).
  - etransitivity; [apply IH|]. by rewrite <- (assoc_L (++)).
  - rewrite concat_app. apply submseteq_app; [|apply (IH [p])].
    case_match; cbn; [by rewrite app_nil_r|apply submseteq_nil_l].
Qed.

Lemma cap_chunks_fit fits chunk parts c :
  (fits chunk = true \/ (length chunk <= 1)%nat) -> c ∈ cap_chunks fits chunk parts -> fits c = true /\ (2 <= length c)%nat.
Proof.
  revert chunk. induction parts as [|p parts IH]; intros chunk Hf; cbn [cap_chunks].
  { destruct (Nat.leb_spec 2 (length chunk)); [|by intros ?%elem_of_nil].
    intros ->%list_elem_of_singleton. destruct Hf; [done|lia]. }
  destruct (fits (chunk ++ [p])) eqn:E; [apply IH; by left|].
  rewrite elem_of_app. intros [Hc|Hc]; [|by apply (IH [p]); [right; cbn; lia|]].
  destruct (Nat.leb_spec 2 (length chunk)); [|by apply elem_of_nil in Hc].
  apply list_elem_of_singleton in Hc as ->. destruct Hf; [done|lia].
Qed.

Lemma bind_fmap_inputs {A} (g : A -> PlannedMerge) (h : A -> list PartRef) l :
  (forall x, inputs (g x) = h x) -> (g <$> l) ≫= inputs = l ≫= h.
Proof. intros Hg. induction l as [|x l IH]; [done|]. rewrite fmap_cons, !bind_cons, IH. by rewrite Hg. Qed.

Lemma bind_concat {A} (l : list (list A)) : (l ≫= fun c => c) = concat l.
Proof. induction l as [|c l IH]; [done|]. rewrite bind_cons, IH. done. Qed.

Lemma cap_merge_submseteq cap now_ms policy open m : cap_merge cap now_ms policy open m ≫= inputs ⊆+ inputs m.
Proof.
  unfold cap_merge. case_match; [by rewrite bind_cons; cbn; rewrite app_nil_r|].
  case_match; [apply submseteq_nil_l|].
  rewrite (bind_fmap_inputs _ (fun c => c)) by done. rewrite bind_concat.
  etransitivity; [apply cap_chunks_submseteq|]. cbn [app].
  etransitivity; [apply Permutation_submseteq, sort_by_perm|]. apply filter_submseteq.
Qed.

Lemma concat_filter_submseteq {A} (p : list A -> bool) l : concat (List.filter p l) ⊆+ concat l.
Proof.
  induction l as [|c l IH]; [done|]. cbn. destruct (p c); cbn; [by apply submseteq_skips_l|].
  by apply submseteq_inserts_l.
Qed.

Lemma elem_of_concat_submseteq {A} (c : list A) l : c ∈ l -> c ⊆+ concat l.
Proof. intros (l1 & l2 & ->)%list_elem_of_split. rewrite concat_app. cbn. by apply submseteq_inserts_l, submseteq_inserts_r. Qed.

Lemma split_minute_submseteq m : split_minute m ≫= inputs ⊆+ inputs m.
Proof.
  unfold split_minute. case_match; [|by rewrite bind_cons; cbn; rewrite app_nil_r].
  rewrite (bind_fmap_inputs _ (fun c => c)) by done. rewrite bind_concat.
  etransitivity; [apply concat_filter_submseteq|]. by rewrite chunks_concat by (unfold MAX_MINUTE_MERGE_INPUTS; lia).
Qed.

(** The capped plan, before the minute split. *)
Definition capped (live : list PartRef) (now_ms : Z) (policy : MergePolicy) (history_open : bool) : list PlannedMerge :=
  match max_part_bytes policy with
  | None => plan_merges_uncapped live now_ms policy history_open
  | Some cap => plan_merges_uncapped live now_ms policy history_open ≫= cap_merge cap now_ms policy history_open
  end.

Lemma capped_submseteq live now_ms policy open : capped live now_ms policy open ≫= inputs ⊆+ hourly_parts live ++ day_parts live.
Proof.
  unfold capped. destruct (max_part_bytes policy); [|apply uncapped_submseteq]. rewrite bind_bind.
  etransitivity; [|apply (uncapped_submseteq live now_ms policy open)].
  apply bind_submseteq. intros m _. apply cap_merge_submseteq.
Qed.

Lemma plan_submseteq live now_ms policy open :
  plan_merges_with live now_ms policy open ≫= inputs ⊆+ hourly_parts live ++ day_parts live.
Proof.
  unfold plan_merges_with. fold (capped live now_ms policy open). rewrite bind_bind.
  etransitivity; [apply bind_submseteq; intros m _; apply split_minute_submseteq|].
  apply (capped_submseteq live now_ms policy open).
Qed.

Lemma elem_of_bind_submseteq {A B} (f : A -> list B) x l : x ∈ l -> f x ⊆+ l ≫= f.
Proof. intros (l1 & l2 & ->)%list_elem_of_split. rewrite bind_app, bind_cons. by apply submseteq_inserts_l, submseteq_inserts_r. Qed.

(** ** Shape of a planned merge *)

Definition merge_shape (m : PlannedMerge) : Prop :=
  match output_level m with
  | L0 => False
  | Minute => Forall (fun p => level p = L0 /\ event_hour p = pm_event_hour m) (inputs m)
  | Hour => inputs m <> [] /\ Forall (fun p => level p <> Day /\ event_hour p = pm_event_hour m) (inputs m)
  | Day => Forall (fun p => level p = Day \/ level p = Hour) (inputs m)
  end.

Lemma at_level_spec l p : at_level l p = true <-> level p = l.
Proof. unfold at_level. apply bool_decide_eq_true. Qed.

Lemma hour_group_elem live hour p :
  p ∈ hour_group live hour -> p ∈ live /\ sorted p = true /\ level p <> Day /\ event_hour p = hour.
Proof.
  intros Hp. apply list_elem_of_In, filter_In in Hp as [Hp He]. apply filter_In in Hp as [Hp Hs].
  apply andb_true_iff in Hs as [Hs Hd]. apply Z.eqb_eq in He. apply list_elem_of_In in Hp.
  split; [done|]. split; [done|]. split; [|done]. intros E. apply at_level_spec in E. by rewrite E in Hd.
Qed.

Lemma plan_hour_shape live now_ms policy open hour m :
  plan_hour now_ms policy open hour (hour_group live hour) = Some m -> merge_shape m.
Proof.
  unfold plan_hour. destruct (_ && _) eqn:E.
  - intros [= <-]. unfold merge_shape; cbn. split.
    + intros En. rewrite En in E. cbn in E. by rewrite andb_false_r in E.
    + apply Forall_forall. intros p Hp. by apply hour_group_elem in Hp as (_ & _ & ? & ?).
  - clear E. destruct (_ && _); [|done]. intros [= <-]. unfold merge_shape; cbn. apply Forall_forall.
    intros p Hp. apply list_elem_of_In, filter_In in Hp as [Hp Hl]. apply list_elem_of_In in Hp.
    apply hour_group_elem in Hp as (_ & _ & _ & ?). by apply at_level_spec in Hl.
Qed.

Lemma plan_day_shape live now_ms policy day m : plan_day live now_ms policy day = Some m -> merge_shape m.
Proof.
  unfold plan_day. destruct (now_ms <? _); [done|]. destruct (_ || _) eqn:E; [done|].
  apply orb_false_iff in E as [E _]. apply negb_false_iff in E. rewrite forallb_forall in E.
  intros [= <-]. unfold merge_shape; cbn. apply Forall_app. split; apply Forall_forall.
  - intros p Hp. apply list_elem_of_In, filter_In in Hp as [Hp _]. apply filter_In in Hp as [_ Hp].
    apply andb_true_iff in Hp as [_ Hp]. left. by apply at_level_spec.
  - intros p (hour & Hp & Hh)%list_elem_of_bind. apply list_elem_of_In, E in Hh.
    destruct (hour_group live hour) as [|q [|]]; [done| |done]. apply list_elem_of_singleton in Hp as ->.
    right. by apply at_level_spec.
Qed.

Lemma uncapped_shape live now_ms policy open m : m ∈ plan_merges_uncapped live now_ms policy open -> merge_shape m.
Proof.
  unfold plan_merges_uncapped.
  assert (m ∈ omap (fun hour => plan_hour now_ms policy open hour (hour_group live hour)) (hour_keys live) -> merge_shape m) as Hh.
  { intros (hour & _ & Hm)%list_elem_of_omap. by eapply plan_hour_shape. }
  destruct (day_merges policy); [|done]. rewrite elem_of_app. intros [?|(day & _ & Hm)%list_elem_of_omap]; [by apply Hh|].
  by eapply plan_day_shape.
Qed.

Lemma filter_shape (f : PartRef -> bool) (P : PartRef -> Prop) l :
  Forall P l -> Forall (fun p => P p /\ f p = true) (List.filter f l).
Proof.
  rewrite !Forall_forall. intros Hl p Hp. apply list_elem_of_In, filter_In in Hp as [Hp ?]. apply list_elem_of_In in Hp. auto.
Qed.

(** Chunks cut from a merge under the cap. *)
Lemma cap_merge_shape cap now_ms policy open m m' : merge_shape m -> m' ∈ cap_merge cap now_ms policy open m -> merge_shape m'.
Proof.
  intros Hm. unfold cap_merge. destruct (estimated_part_bytes (inputs m) <=? cap); [by intros ->%list_elem_of_singleton|].
  destruct (bool_decide_reflect (output_level m = Day)) as [|Hd]; [by intros ?%elem_of_nil|].
  intros (chunk & -> & Hc)%list_elem_of_fmap. set (direct := open && _ && _) in *.
  assert (Forall (fun p => level p <> Day /\ event_hour p = pm_event_hour m) (inputs m)) as Hall.
  { unfold merge_shape in Hm. destruct (output_level m) eqn:El; [done| |by destruct Hm|done].
    eapply Forall_impl; [exact Hm|]. cbn. intros p [-> ?]. done. }
  pose proof (filter_shape (if direct then is_unmerged else at_level L0) _ _ Hall) as Hf.
  assert (chunk ⊆+ List.filter (if direct then is_unmerged else at_level L0) (inputs m)) as Hs.
  { etransitivity; [|apply Permutation_submseteq, sort_by_perm]. etransitivity; [|apply (cap_chunks_submseteq (fun l => estimated_part_bytes l <=? cap) [])].
    by apply elem_of_concat_submseteq. }
  apply cap_chunks_fit in Hc as [_ Hlen]; [|right; cbn; lia]. apply (submseteq_Forall _ _ _ Hs) in Hf.
  unfold merge_shape. destruct direct; cbn.
  - split; [intros ->; cbn in Hlen; lia|]. eapply Forall_impl; [exact Hf|]. cbn. tauto.
  - eapply Forall_impl; [exact Hf|]. cbn. intros p [[_ ?] ?%at_level_spec]. done.
Qed.

Lemma capped_shape live now_ms policy open m : m ∈ capped live now_ms policy open -> merge_shape m.
Proof.
  unfold capped. destruct (max_part_bytes policy); [|apply uncapped_shape].
  intros (u & Hm & Hu)%list_elem_of_bind. eapply cap_merge_shape; [|exact Hm]. by eapply uncapped_shape.
Qed.

(** A minute job keeps its merge's shape and holds 2 to [MAX_MINUTE_MERGE_INPUTS] parts. *)
Lemma split_minute_elem m m' :
  m' ∈ split_minute m ->
  output_level m' = output_level m /\ pm_event_hour m' = pm_event_hour m /\ inputs m' ⊆+ inputs m
  /\ (output_level m = Minute -> (2 <= length (inputs m') <= MAX_MINUTE_MERGE_INPUTS)%nat)
  /\ (output_level m <> Minute -> m' = m).
Proof.
  intros Hm. unfold split_minute in Hm. destruct (bool_decide_reflect (output_level m = Minute)) as [E|E].
  - apply list_elem_of_fmap in Hm as (c & -> & Hc). cbn [output_level pm_event_hour inputs].
    apply list_elem_of_In, filter_In in Hc as [Hc Hl]. apply list_elem_of_In in Hc. apply Nat.leb_le in Hl.
    split; [done|]. split; [done|]. split.
    { etransitivity; [by apply elem_of_concat_submseteq|]. by rewrite chunks_concat by (unfold MAX_MINUTE_MERGE_INPUTS; lia). }
    split; [|done]. intros _. apply chunks_size in Hc; [lia|unfold MAX_MINUTE_MERGE_INPUTS; lia].
  - apply list_elem_of_singleton in Hm as ->. by repeat split.
Qed.

Lemma split_minute_shape m m' : merge_shape m -> m' ∈ split_minute m -> merge_shape m'.
Proof.
  intros Hm (El & Eh & Hs & _ & Heq)%split_minute_elem. unfold merge_shape in *. rewrite El, Eh in *.
  destruct (output_level m) eqn:E; [done|by eapply submseteq_Forall| |]; rewrite Heq by done; exact Hm.
Qed.

Lemma plan_elem live now_ms policy open m' :
  m' ∈ plan_merges_with live now_ms policy open <-> exists m, m ∈ capped live now_ms policy open /\ m' ∈ split_minute m.
Proof. unfold plan_merges_with. rewrite list_elem_of_bind. fold (capped live now_ms policy open). naive_solver. Qed.

Lemma planned_sorted live now_ms policy open m : m ∈ plan_merges_with live now_ms policy open -> Forall (fun p => sorted p = true) (inputs m).
Proof.
  intros Hm. eapply submseteq_Forall; [etransitivity; [|apply (plan_submseteq live now_ms policy open)]|].
  - exact (elem_of_bind_submseteq inputs _ _ Hm).
  - apply Forall_forall. intros p [Hp|Hp]%elem_of_app; apply list_elem_of_In, filter_In in Hp as [_ Hp];
      by apply andb_true_iff in Hp as [? _].
Qed.

(** C14: whatever the live set, clock, policy and lane, the plan can be executed: all inputs of all
    planned merges together are a sub-multiset of the live parts (so no part is an input of two merges,
    and every merge commits against the live set whatever the order they run in); every input is
    sorted; a minute merge takes 2 to 24 L0 parts of one event hour, an hour merge takes parts of its
    hour below the day level and is never empty, and a day merge takes only hour and day parts. *)
Theorem plan_executable live now_ms policy history_open :
  plan_merges_with live now_ms policy history_open ≫= inputs ⊆+ live
  /\ Forall (fun m =>
       merge_shape m /\ Forall (fun p => sorted p = true) (inputs m)
       /\ (output_level m = Minute -> (2 <= length (inputs m) <= MAX_MINUTE_MERGE_INPUTS)%nat))
     (plan_merges_with live now_ms policy history_open).
Proof.
  pose proof (plan_submseteq live now_ms policy history_open) as Hs.
  split; [etransitivity; [exact Hs|apply sorted_parts_submseteq]|].
  apply Forall_forall. intros m' Hm'. pose proof Hm' as (m & Hm & Hsp)%plan_elem.
  split; [by eapply split_minute_shape, Hsp; eapply capped_shape|]. split; [by eapply planned_sorted|].
  apply split_minute_elem in Hsp as (El & _ & _ & Hn & _). rewrite El. exact Hn.
Qed.

(** ** The size cap holds of every output *)

Lemma estimated_mono l k :
  l ⊆+ k -> Forall (fun p => 0 <= data_bytes p) k -> zsum (data_bytes <$> k) <= u64_max ->
  estimated_part_bytes l <= estimated_part_bytes k.
Proof.
  intros Hs Hk Hb. pose proof (submseteq_Forall _ _ _ Hs Hk) as Hl.
  apply (fmap_submseteq data_bytes) in Hs. apply Forall_fmap in Hk, Hl.
  pose proof (zsum_submseteq _ _ Hs Hk). unfold estimated_part_bytes.
  rewrite !sum_u64_exact by (done || lia).
  assert (sat_u64 (zsum (data_bytes <$> l) * 35) / 100 <= sat_u64 (zsum (data_bytes <$> k) * 35) / 100)
    by (apply Z.div_le_mono; unfold sat_u64; lia).
  unfold sat_u64 in *. lia.
Qed.

Lemma capped_fits live now_ms policy open cap m :
  max_part_bytes policy = Some cap -> m ∈ capped live now_ms policy open -> estimated_part_bytes (inputs m) <= cap.
Proof.
  intros Hc. unfold capped. rewrite Hc. intros (u & Hm & _)%list_elem_of_bind. unfold cap_merge in Hm.
  destruct (Z.leb_spec (estimated_part_bytes (inputs u)) cap); [by apply list_elem_of_singleton in Hm as ->|].
  destruct (bool_decide _); [by apply elem_of_nil in Hm|].
  apply list_elem_of_fmap in Hm as (c & -> & Hm). apply cap_chunks_fit in Hm as [Hm _]; [|right; cbn; lia].
  by apply Z.leb_le.
Qed.

(** With a size cap every planned merge's estimated output stays within it, the jobs a minute merge
    is split into included, as long as the live parts' sizes are non-negative and sum within [u64]
    (the sum [estimated_part_bytes] takes wraps beyond that). *)
Theorem plan_respects_cap live now_ms policy history_open cap m :
  max_part_bytes policy = Some cap ->
  Forall (fun p => 0 <= data_bytes p) live -> zsum (data_bytes <$> live) <= u64_max ->
  m ∈ plan_merges_with live now_ms policy history_open -> estimated_part_bytes (inputs m) <= cap.
Proof.
  intros Hc Hl Hb (u & Hu & (_ & _ & Hs & _ & _)%split_minute_elem)%plan_elem.
  assert (inputs u ⊆+ live) as Hul.
  { etransitivity; [|apply sorted_parts_submseteq]. etransitivity; [|apply (capped_submseteq live now_ms policy history_open)].
    exact (elem_of_bind_submseteq inputs _ _ Hu). }
  etransitivity; [apply (estimated_mono _ _ Hs)|by eapply capped_fits].
  - by eapply submseteq_Forall.
  - etransitivity; [|exact Hb]. apply zsum_submseteq; [by apply fmap_submseteq|by apply Forall_fmap].
Qed.

(** ** An overdue L0 part is planned *)

(** A clock value that no sum of two of them overflows. *)
Definition small_ms (z : Z) : Prop := 0 <= z <= 2 ^ 60.

Record planner_in_range (live : list PartRef) (now_ms : Z) (policy : MergePolicy) : Prop := {
  rng_now : small_ms now_ms;
  rng_hour : forall p, p ∈ live -> - i32_max - 1 <= event_hour p <= i32_max;
  rng_age : small_ms (minute_max_l0_age_ms policy);
  rng_seal : small_ms (hour_seal_ms policy);
  rng_debounce : small_ms (sealed_remerge_debounce_ms policy);
  rng_defer : small_ms (sealed_remerge_max_defer_ms policy) }.

Lemma fold_left_max_pos {A} (f : A -> option Z) l a :
  0 < fold_left (fun worst x => match f x with Some d => Z.max worst d | None => worst end) l a ->
  0 < a \/ exists x d, x ∈ l /\ f x = Some d /\ 0 < d.
Proof.
  revert a. induction l as [|x l IH]; intros a; cbn; [by left|]. intros [Ha|(y & d & Hy & ? & ?)]%IH.
  - destruct (f x) as [d|] eqn:E; [|by left]. destruct (Z.lt_ge_cases 0 a); [by left|]. right. exists x, d.
    split; [constructor|]. split; [done|lia].
  - right. exists y, d. split; [by constructor|done].
Qed.

(** An unsorted L0 part past the sealing time: no merge takes it. *)
Definition unsorted_due (now_ms : Z) (policy : MergePolicy) (p : PartRef) : Prop :=
  level p = L0 /\ sorted p = false /\ sat_i64 (created p + hour_seal_ms policy) < now_ms.

Lemma overdue_hour live now_ms policy :
  small_ms now_ms -> 0 < l0_merge_overdue_ms live now_ms policy ->
  (exists p, p ∈ live /\ unsorted_due now_ms policy p)
  \/ exists hour due, hour ∈ hour_keys live /\ l0_due policy hour (hour_group live hour) = Some due /\ due < now_ms.
Proof.
  intros Hnow. unfold l0_merge_overdue_ms. set (unsorted := List.filter _ live).
  set (worst := fold_left _ unsorted 0).
  assert (forall l a, fold_left (fun worst hour => match l0_due policy hour (hour_group live hour) with
      | Some due => Z.max worst (sat_i64 (now_ms - due)) | None => worst end) l a
    = fold_left (fun worst hour => match (due ← l0_due policy hour (hour_group live hour); Some (sat_i64 (now_ms - due))) with
      | Some due => Z.max worst due | None => worst end) l a) as ->.
  { induction l as [|h l IH]; intros a; [done|]. cbn. rewrite IH. by destruct (l0_due _ _ _). }
  intros [Hw|(hour & d & Hh & Hd & Hpos)]%fold_left_max_pos; [left|right].
  - unfold worst in Hw. apply (fold_left_max_pos (fun p => Some (sat_i64 (now_ms - sat_i64 (created p + hour_seal_ms policy))))) in Hw as [?|(p & d & Hp & [= <-] & Hpos)]; [lia|].
    apply list_elem_of_In, filter_In in Hp as [Hp [Hl Hs]%andb_true_iff]. exists p. split; [by apply list_elem_of_In|].
    split_and!; [by apply at_level_spec|by apply negb_true_iff|]. unfold sat_i64, i64_min, i64_max in *. lia.
  - apply bind_Some in Hd as (due & Hdue & [= <-]). exists hour, due. split; [done|]. split; [done|].
    unfold sat_i64, i64_min, i64_max in Hpos. lia.
Qed.

(** The running extremes of a non-empty list are its members. *)
Lemma unmerged_extremes (l : list Z) x :
  x ∈ l -> (forall y, y ∈ l -> in_i64 y) -> foldr Z.max i64_min l ∈ l /\ foldr Z.min i64_max l ∈ l.
Proof.
  intros Hx Hl. enough (forall k, (forall y, y ∈ k -> in_i64 y) ->
    (k = [] \/ foldr Z.max i64_min k ∈ k) /\ (k = [] \/ foldr Z.min i64_max k ∈ k)) as Hk.
  { destruct (Hk l Hl) as [Ha Hb]. split; [destruct Ha as [->|?]|destruct Hb as [->|?]]; try done; by apply elem_of_nil in Hx. }
  clear. induction k as [|z k IH]; intros Hk; [split; by left|]. cbn.
  assert (in_i64 z) as Hz by (apply Hk; constructor). unfold in_i64 in Hz.
  destruct IH as [Ha Hb]; [intros y ?; apply Hk; by constructor|].
  split; right; rewrite elem_of_cons.
  - destruct Ha as [->|Ha]; [left; cbn; lia|]. destruct (Z.max_spec z (foldr Z.max i64_min k)) as [[_ ->]|[_ ->]]; auto.
  - destruct Hb as [->|Hb]; [left; cbn; lia|]. destruct (Z.min_spec z (foldr Z.min i64_max k)) as [[_ ->]|[_ ->]]; auto.
Qed.

(** The 13 digits of a part id are a clock value. *)
Lemma created_in_range (f : PartRef -> bool) (l : list PartRef) c : c ∈ created <$> List.filter f l -> small_ms c.
Proof.
  intros (p & -> & _)%list_elem_of_fmap. pose proof (created_unix_ms_range (part_id p)). unfold created, small_ms. lia.
Qed.

Section overdue_hour_plan.
Context (live : list PartRef) (now_ms : Z) (policy : MergePolicy) (Hr : planner_in_range live now_ms policy).
Context (hour : Z) (parts : list PartRef).
Context (Hparts : forall p, p ∈ parts -> p ∈ live /\ level p <> Day /\ event_hour p = hour).

(** The hour branch of [plan_hour] takes every part; its minute branch the L0 parts. *)
Lemma plan_hour_takes_l0 open p :
  p ∈ parts -> level p = L0 -> (2 <= length (List.filter (at_level L0) parts))%nat ->
  ((minute_min_l0_parts policy <=? length (List.filter (at_level L0) parts))%nat
   || (minute_max_l0_age_ms policy
       <=? wrap_i64 (now_ms - default now_ms (min_list (created <$> List.filter (at_level L0) parts))))) = true ->
  exists m, plan_hour now_ms policy open hour parts = Some m /\ p ∈ inputs m.
Proof using.
  intros Hp Hlev Hlen Hdue. unfold plan_hour. case_match; [by eexists|].
  rewrite (proj2 (Nat.leb_le _ _) Hlen), Hdue. cbn [andb]. eexists. split; [done|]. cbn [inputs].
  apply list_elem_of_In, filter_In. split; [by apply list_elem_of_In|]. by apply at_level_spec.
Qed.

Lemma unmerged_filter : List.filter is_unmerged parts = List.filter (fun p => negb (at_level Hour p)) parts.
Proof using Hparts.
  apply filter_ext_in. intros p Hp%list_elem_of_In. destruct (Hparts p Hp) as (_ & Hd & _).
  unfold is_unmerged, at_level. destruct (level p); done.
Qed.

Lemma l0_pair_planned p :
  p ∈ parts -> level p = L0 -> (2 <= length (List.filter (at_level L0) parts))%nat ->
  (exists due, l0_due policy hour parts = Some due /\ due < now_ms) ->
  exists m, plan_hour now_ms policy true hour parts = Some m /\ p ∈ inputs m.
Proof using Hr Hparts.
  intros Hp Hlev Hlen (due & Hdue & Hlt). apply plan_hour_takes_l0; [done..|].
  unfold l0_due in Hdue. set (l0 := created <$> List.filter (at_level L0) parts) in *.
  assert (length (sort_by Z.leb l0) = length (List.filter (at_level L0) parts)) as El
    by (unfold l0; by rewrite length_sort_by, length_fmap).
  pose proof (fun c => elem_of_sort_by Z.leb l0 c) as Hin.
  destruct (sort_by Z.leb l0) as [|oldest [|second rest]] eqn:Es; [cbn in El; lia..|].
  injection Hdue as <-. apply orb_true_iff.
  assert (small_ms oldest) as Ho by (apply (created_in_range (at_level L0) parts), Hin; constructor).
  pose proof (rng_now _ _ _ Hr) as Hnow. pose proof (rng_age _ _ _ Hr) as Hage. unfold small_ms in *.
  rewrite sat_i64_id in Hlt by (unfold in_i64, i64_min, i64_max; lia).
  destruct ((oldest :: second :: rest) !! _) as [c|] eqn:Ec; unfold from_option, id in Hlt.
  - left. apply Nat.leb_le. apply lookup_lt_Some in Ec. lia.
  - right. unfold i64_max in Hlt. apply Z.leb_le. destruct (min_list l0) as [mn|] eqn:Em.
    + assert (mn <= oldest) by (eapply min_list_lb; [done|]; apply Hin; constructor).
      assert (small_ms mn) as Hmn by (apply (created_in_range (at_level L0) parts); by apply min_list_elem). unfold small_ms in *.
      unfold from_option, id. rewrite wrap_i64_id by (unfold in_i64, i64_min, i64_max; lia). lia.
    + destruct l0; [|done]. by cbn in Es.
Qed.

Lemma lone_l0_planned p :
  p ∈ parts -> level p = L0 -> length (List.filter (at_level L0) parts) = 1%nat -> (1 < minute_min_l0_parts policy)%nat ->
  (exists due, l0_due policy hour parts = Some due /\ due < now_ms) ->
  exists m, plan_hour now_ms policy true hour parts = Some m /\ p ∈ inputs m.
Proof using Hr Hparts.
  intros Hp Hlev Hlen Hmin (due & Hdue & Hlt). unfold l0_due in Hdue.
  assert (length (sort_by Z.leb (created <$> List.filter (at_level L0) parts)) = 1%nat) as El
    by (by rewrite length_sort_by, length_fmap).
  destruct (sort_by Z.leb _) as [|c [|? ?]]; [done| |done]. injection Hdue as <-. rewrite unmerged_filter in Hlt.
  destruct (Hparts p Hp) as (Hlive & _ & Hh).
  pose proof (rng_now _ _ _ Hr) as Hnow. pose proof (rng_seal _ _ _ Hr) as Hseal.
  pose proof (rng_debounce _ _ _ Hr) as Hdeb. pose proof (rng_defer _ _ _ Hr) as Hdef.
  pose proof (rng_hour _ _ _ Hr p Hlive) as Hhr. rewrite Hh in Hhr.
  assert (- 2 ^ 60 <= hour_end_ms hour <= 2 ^ 60) as Hend.
  { unfold hour_end_ms, i32_max, HOUR_US in *. change (3600000000 / 1000) with 3600000. lia. }
  assert (created p ∈ created <$> List.filter (fun p => negb (at_level Hour p)) parts) as Hc.
  { apply list_elem_of_fmap_2, list_elem_of_In, filter_In. split; [by apply list_elem_of_In|]. unfold at_level. by rewrite Hlev. }
  assert (settled parts now_ms policy = true) as Hs.
  { destruct (unmerged_extremes _ _ Hc) as [Hmx Hmn].
    { intros y Hy%created_in_range. unfold small_ms, in_i64, i64_min, i64_max in *. lia. }
    unfold settled.
    set (mx := foldr Z.max _ _) in *. set (mn := foldr Z.min _ _) in *. apply created_in_range in Hmx, Hmn.
    unfold small_ms in *. unfold sat_i64 in Hlt. rewrite !wrap_i64_id by (unfold in_i64, i64_min, i64_max; lia).
    unfold i64_min, i64_max in Hlt. lia. }
  unfold plan_hour. rewrite Hs, Hlen. unfold small_ms in *.
  rewrite wrap_i64_id by (unfold in_i64, i64_min, i64_max; lia).
  assert ((hour_end_ms hour + hour_seal_ms policy <=? now_ms) = true) as ->.
  { apply Z.leb_le. unfold sat_i64, i64_min, i64_max in Hlt. lia. }
  assert ((0 <? length (List.filter (fun p => negb (at_level Hour p)) parts))%nat = true) as ->.
  { apply Nat.ltb_lt. rewrite <- (length_fmap created). destruct (created <$> _); [by apply elem_of_nil in Hc|cbn; lia]. }
  rewrite (proj2 (Nat.ltb_lt _ _) Hmin), !orb_true_r. cbn [andb orb]. by eexists.
Qed.
End overdue_hour_plan.

Lemma uncapped_hour live now_ms policy open hour m :
  hour ∈ hour_keys live -> plan_hour now_ms policy open hour (hour_group live hour) = Some m ->
  m ∈ plan_merges_uncapped live now_ms policy open.
Proof.
  intros Hh Hm. unfold plan_merges_uncapped.
  assert (m ∈ omap (fun hour => plan_hour now_ms policy open hour (hour_group live hour)) (hour_keys live))
    by (apply list_elem_of_omap; eauto).
  destruct (day_merges policy); [apply elem_of_app; by left|done].
Qed.

(** Splitting a merge of two or more inputs leaves a job to run. *)
Lemma split_minute_nonempty m :
  (output_level m = Minute -> (2 <= length (inputs m))%nat) -> exists m', m' ∈ split_minute m.
Proof.
  intros Hm. unfold split_minute. destruct (bool_decide_reflect (output_level m = Minute)) as [E|E]; [|exists m; constructor].
  specialize (Hm E). destruct (inputs m) as [|a [|b l]] eqn:Ei; [cbn in Hm; lia..|].
  eexists. apply list_elem_of_fmap_2, list_elem_of_In, filter_In. split; [by left|]. reflexivity.
Qed.

(** C25: what a positive overdue signal means. With no size cap, clocks and policy values that do
    not overflow and a minute merge needing more than one part: when [l0_merge_overdue_ms] is
    positive, [plan_merges] plans a merge, at this very moment, that takes an L0 part, or a live L0
    part is unsorted and past its sealing time, and no merge takes that one. *)
Theorem overdue_is_planned live now_ms policy :
  planner_in_range live now_ms policy -> max_part_bytes policy = None -> (1 < minute_min_l0_parts policy)%nat ->
  0 < l0_merge_overdue_ms live now_ms policy ->
  (exists m p, m ∈ plan_merges live now_ms policy /\ p ∈ inputs m /\ level p = L0)
  \/ exists p, p ∈ live /\ unsorted_due now_ms policy p /\ forall m, m ∈ plan_merges live now_ms policy -> p ∉ inputs m.
Proof.
  intros Hr Hcap Hmin [(p & Hp & Hu)|(hour & due & Hh & Hdue & Hlt)]%overdue_hour; [|left|apply (rng_now _ _ _ Hr)].
  { right. exists p. split_and!; [done|done|]. intros m Hm Hin. destruct Hu as (_ & Hs & _). apply planned_sorted in Hm. rewrite Forall_forall in Hm. by rewrite (Hm p Hin) in Hs. }
  set (parts := hour_group live hour) in *.
  assert (forall q, q ∈ parts -> q ∈ live /\ level q <> Day /\ event_hour q = hour) as Hparts.
  { intros q Hq%hour_group_elem. naive_solver. }
  assert (exists p, p ∈ parts /\ level p = L0) as (p & Hp & Hlev).
  { unfold l0_due in Hdue. destruct (List.filter (at_level L0) parts) as [|p l] eqn:E; [done|].
    exists p. assert (p ∈ List.filter (at_level L0) parts) as Hp by (rewrite E; constructor).
    apply list_elem_of_In, filter_In in Hp as [Hp Hl]. apply list_elem_of_In in Hp. by apply at_level_spec in Hl. }
  assert (exists m, plan_hour now_ms policy true hour parts = Some m /\ p ∈ inputs m) as (m & Hm & Hpm).
  { destruct (List.filter (at_level L0) parts) as [|a [|b l]] eqn:E.
    - apply (l0_pair_planned live now_ms policy); eauto; unfold l0_due in Hdue; by rewrite E in Hdue.
    - apply (lone_l0_planned live now_ms policy); eauto. by rewrite E.
    - apply (l0_pair_planned live now_ms policy); eauto. rewrite E. cbn. lia. }
  destruct (split_minute_nonempty m) as [m' Hm'].
  { unfold plan_hour in Hm. destruct (_ && _); [by injection Hm as <-|].
    destruct (_ && _) eqn:E; [|done]. apply andb_true_iff in E as [E _]. injection Hm as <-. intros _. by apply Nat.leb_le. }
  assert (m ∈ capped live now_ms policy true) as Hcm by (unfold capped; rewrite Hcap; by eapply uncapped_hour).
  pose proof (capped_shape _ _ _ _ _ Hcm) as Hshape. exists m'.
  assert (m' ∈ plan_merges live now_ms policy) as Hin by (apply plan_elem; eauto).
  apply split_minute_elem in Hm' as (El & _ & Hsub & Hlen & Heq).
  destruct (decide (output_level m = Minute)) as [E|E].
  - specialize (Hlen E). destruct (inputs m') as [|q l] eqn:Ei; [cbn in Hlen; lia|]. exists q. split; [done|].
    split; [constructor|]. unfold merge_shape in Hshape. rewrite E, Forall_forall in Hshape.
    apply Hshape. eapply elem_of_submseteq; [constructor|exact Hsub].
  - rewrite (Heq E) in Hin |- *. by exists p.
Qed.

(** ** [split_merge] *)

Section kept_chunks.
Context {A : Type}.
Implicit Types l : list A.
Definition kept (c : list A) : bool := (2 <=? length c)%nat.

(** Of chunks of two or more, only a last chunk of one element is too small to keep. *)
Lemma kept_chunks_aux fuel n l :
  (2 <= n)%nat -> (length l <= fuel)%nat ->
  exists lone, concat (List.filter kept (chunks_aux fuel n l)) ++ lone = l /\ (length lone <= 1)%nat.
Proof.
  intros Hn. revert l. induction fuel as [|fuel IH]; intros l Hl; [destruct l; [|cbn in Hl; lia]; exists []; cbn; split; [done|lia]|].
  destruct l as [|x [|y l]]; [exists []; cbn; split; [done|lia]| |].
  - exists [x]. cbn [chunks_aux]. rewrite take_ge, drop_ge by (cbn; lia). split; [|cbn; lia]. by destruct fuel.
  - destruct (IH (drop n (x :: y :: l))) as (lone & E & Hlone); [rewrite length_drop; cbn in *; lia|].
    exists lone. split; [|done]. cbn [chunks_aux List.filter].
    assert (kept (take n (x :: y :: l)) = true) as -> by (apply Nat.leb_le; rewrite length_take; cbn; lia).
    cbn [concat]. by rewrite <- (assoc_L (++)), E, take_drop.
Qed.

Lemma kept_chunks n l :
  (2 <= n)%nat -> exists lone, concat (List.filter kept (chunks n l)) ++ lone = l /\ (length lone <= 1)%nat.
Proof. intros. by apply kept_chunks_aux. Qed.
End kept_chunks.

Lemma split_leb_total a b : split_leb a b = true \/ split_leb b a = true.
Proof. unfold split_leb. destruct (pid_leb_total (part_id a) (part_id b)) as [->| ->]; lia. Qed.

Lemma split_leb_trans a b c : split_leb a b = true -> split_leb b c = true -> split_leb a c = true.
Proof.
  unfold split_leb. rewrite !orb_true_iff, !andb_true_iff, !orb_true_iff, !andb_true_iff, !Z.ltb_lt, !Z.eqb_eq.
  intros [?|[? [?|[? H1]]]] [?|[? [?|[? H2]]]]; try lia.
  right. split; [lia|]. right. split; [lia|]. by eapply pid_leb_trans.
Qed.

Lemma StronglySorted_app_l {A} (R : A -> A -> Prop) l k : StronglySorted R (l ++ k) -> StronglySorted R l.
Proof.
  induction l as [|x l IH]; [constructor|]. cbn. intros H%StronglySorted_inv. destruct H as [Hs Hx].
  constructor; [by apply IH|]. by apply Forall_app in Hx as [? _].
Qed.

(** A merge too large for its memory is split into strictly smaller jobs: each keeps the merge's
    level and hour and takes 2 to [max_inputs] (at least 2) of the unmerged inputs; laid end to end
    the jobs are consecutive in time order and cover every unmerged input but at most one. *)
Theorem split_merge_covers merge max_inputs :
  output_level merge <> Day ->
  Forall (fun m => output_level m = output_level merge /\ pm_event_hour m = pm_event_hour merge
      /\ (2 <= length (inputs m) <= max_inputs `max` 2)%nat /\ Forall (fun p => is_unmerged p = true) (inputs m))
    (split_merge merge max_inputs)
  /\ StronglySorted (fun a b => split_leb a b = true) (split_merge merge max_inputs ≫= inputs)
  /\ exists lone, (split_merge merge max_inputs ≫= inputs) ++ lone ≡ₚ List.filter is_unmerged (inputs merge)
      /\ (length lone <= 1)%nat.
Proof.
  intros Hd. unfold split_merge. rewrite bool_decide_eq_false_2 by done.
  set (u := sort_by split_leb _). change (fun c => (2 <=? length c)%nat) with (@kept PartRef).
  assert (u ≡ₚ List.filter is_unmerged (inputs merge)) as Hu by apply sort_by_perm.
  destruct (kept_chunks (max_inputs `max` 2) u) as (lone & El & Hl); [lia|].
  rewrite (bind_fmap_inputs _ (fun c => c)), bind_concat by done. split; [|split].
  - apply Forall_forall. intros m (c & -> & Hc)%list_elem_of_fmap. cbn [output_level pm_event_hour inputs].
    apply list_elem_of_In, filter_In in Hc as [Hc Hk]. apply list_elem_of_In in Hc. apply Nat.leb_le in Hk.
    assert (0 < max_inputs `max` 2)%nat as Hpos by lia. pose proof (chunks_size _ _ _ Hpos Hc). do 2 (split; [done|]). split; [lia|].
    apply elem_of_concat_submseteq in Hc. rewrite chunks_concat in Hc by lia.
    eapply submseteq_Forall; [exact Hc|]. rewrite Hu. apply Forall_forall. intros p Hp.
    by apply list_elem_of_In, filter_In in Hp as [_ ?].
  - apply (StronglySorted_app_l _ _ lone). rewrite El. apply sort_by_sorted; [apply split_leb_total|apply split_leb_trans].
  - exists lone. by rewrite El.
Qed.

(** ** A lone late part beside a full hour part *)

(** Under the default policy an L0 part beside an hour part that together exceed the size cap is
    never planned, at any time, while [l0_merge_overdue_ms] reports it as overdue from the moment the
    hour is sealed and settled, and grows with the clock for ever. *)
Theorem lone_l0_beyond_cap h p now_ms :
  level h = Hour -> level p = L0 -> event_hour h = event_hour p -> sorted h = true -> sorted p = true ->
  INTERIM_MAX_PART_BYTES < estimated_part_bytes [h; p] ->
  plan_merges [h; p] now_ms MergePolicy_default = []
  /\ l0_merge_overdue_ms [h; p] now_ms MergePolicy_default
     = Z.max 0 (sat_i64 (now_ms - Z.max (sat_i64 (hour_end_ms (event_hour p) + 10 * 60000))
                                        (Z.min (sat_i64 (created p + 5 * 60000)) (sat_i64 (created p + 30 * 60000))))).
Proof.
  intros Hh Hp He Sh Sp Hbig.
  assert (hourly_parts [h; p] = [h; p]) as Hhp
    by (unfold hourly_parts, at_level; cbn; by rewrite Sh, Sp, Hh, Hp).
  assert (hour_keys [h; p] = [event_hour p]) as Hk
    by (unfold hour_keys, sorted_keys; rewrite Hhp; cbn; rewrite He; destruct (decide_rel _ _ _) as [|Hn]; [done|destruct Hn; constructor]).
  assert (hour_group [h; p] (event_hour p) = [h; p]) as Hg
    by (unfold hour_group; rewrite Hhp; cbn; by rewrite He, Z.eqb_refl).
  split.
  - unfold plan_merges, plan_merges_with, plan_merges_uncapped. rewrite Hk. cbn [omap list_omap day_merges max_part_bytes MergePolicy_default].
    rewrite Hg. destruct (plan_hour _ _ _ _ _) as [m|] eqn:Em; [|done]. unfold plan_hour in Em.
    assert (at_level L0 h = false /\ at_level L0 p = true) as [E1 E2] by (unfold at_level; by rewrite Hh, Hp).
    cbn [List.filter] in Em. rewrite E1, E2 in Em. destruct (_ && _); [|done]. injection Em as <-.
    rewrite bind_cons. unfold cap_merge at 1. cbn [inputs output_level]. destruct (Z.leb_spec (estimated_part_bytes [h; p]) INTERIM_MAX_PART_BYTES); [lia|].
    rewrite bool_decide_eq_false_2 by done.
    set (direct := _ && _). assert (List.filter (if direct then is_unmerged else at_level L0) [h; p] = [p]) as ->
      by (destruct direct; cbn [List.filter]; unfold is_unmerged, at_level; by rewrite Hh, Hp).
    cbn [sort_by foldr insert_by cap_chunks app]. by destruct (_ <=? _).
  - assert (List.filter (at_level L0) [h; p] = [p] /\ List.filter is_unmerged [h; p] = [p]) as [E0 Eu]
      by (cbn; unfold is_unmerged, at_level; by rewrite Hh, Hp).
    assert (List.filter (fun q => at_level L0 q && negb (sorted q)) [h; p] = []) as En by (cbn; by rewrite Sh, Sp, !andb_false_r).
    assert (foldr Z.max i64_min [created p] = created p /\ foldr Z.min i64_max [created p] = created p) as [Emx Emn]
      by (pose proof (created_unix_ms_range (part_id p)); cbn; unfold created, i64_min, i64_max in *; lia).
    unfold l0_merge_overdue_ms. rewrite Hk, En. cbn [fold_left]. rewrite Hg. unfold l0_due. rewrite E0, Eu.
    change (sort_by Z.leb (created <$> [p])) with [created p]. change (created <$> [p]) with [created p].
    rewrite Emx, Emn. reflexivity.
Qed.

(** ** Concrete plans *)

Module PlanExample.

Definition digest : string := "0000000000000000000000000000000000000000000000000000000000000000".
Definition part (id : PartId) (l : Level) (hour bytes : Z) : PartRef :=
  {| request_hours := None; part_id := id; level := l; event_hour := hour; event_day := None; rows := 10;
     min_time_us := hour * HOUR_US; max_time_us := hour * HOUR_US + 9; schema_fingerprint := digest;
     provenance_sha256 := digest; merkle_root := digest; sorted := true; data_bytes := bytes;
     row_groups := 1; data_files := 1 |}.
Definition id1 : PartId := mk_part_id "0000000000100-00112233445566aa" eq_refl.
Definition id2 : PartId := mk_part_id "0000000000200-00112233445566bb" eq_refl.
Definition id3 : PartId := mk_part_id "0000000000300-00112233445566cc" eq_refl.

(** Three L0 parts of hour 0. *)
Definition l0s : list PartRef := [part id1 L0 0 1000; part id2 L0 0 1000; part id3 L0 0 1000].
(** A full hour part and a late L0 part. *)
Definition full : PartRef := part id1 Hour 0 INTERIM_MAX_PART_BYTES.
Definition late : PartRef := part id2 L0 0 1000.

Definition uncapped_policy : MergePolicy := {|
  minute_min_l0_parts := 12; minute_max_l0_age_ms := 60000; hour_seal_ms := 600000; day_seal_ms := 7200000;
  supersede_grace_ms := 3600000; orphan_age_ms := 176400000; max_part_bytes := None; day_merges := false;
  sealed_remerge_debounce_ms := 300000; sealed_remerge_max_defer_ms := 1800000 |}.
Definition minute_job : PlannedMerge := {| output_level := Minute; pm_event_hour := 0; inputs := l0s |}.
End PlanExample.
Import PlanExample.

Lemma plan_respects_cap_witness : estimated_part_bytes (inputs minute_job) <= INTERIM_MAX_PART_BYTES.
Proof.
  apply (plan_respects_cap l0s 70000 MergePolicy_default true).
  - reflexivity.
  - do 3 (apply Forall_cons; split; [cbn; lia|]). by apply Forall_nil.
  - vm_compute. discriminate.
  - vm_compute. constructor.
Defined.

Lemma overdue_is_planned_witness :
  (exists m p, m ∈ plan_merges l0s 70000 uncapped_policy /\ p ∈ inputs m /\ level p = L0)
  \/ exists p, p ∈ l0s /\ unsorted_due 70000 uncapped_policy p /\ forall m, m ∈ plan_merges l0s 70000 uncapped_policy -> p ∉ inputs m.
Proof.
  apply overdue_is_planned.
  - constructor; unfold small_ms, uncapped_policy; cbn [minute_max_l0_age_ms hour_seal_ms sealed_remerge_debounce_ms sealed_remerge_max_defer_ms]; try lia.
    intros p Hp. unfold l0s in Hp.
    do 3 (apply elem_of_cons in Hp as [->|Hp]; [unfold part, i32_max; cbn [event_hour]; lia|]). by apply elem_of_nil in Hp.
  - reflexivity.
  - cbn. lia.
  - reflexivity.
Defined.

Lemma split_merge_covers_witness :
  exists lone, (split_merge minute_job 2 ≫= inputs) ++ lone ≡ₚ List.filter is_unmerged l0s /\ (length lone <= 1)%nat.
Proof. apply (split_merge_covers minute_job 2). discriminate. Defined.

Lemma lone_l0_beyond_cap_witness :
  plan_merges [full; late] 100000000 MergePolicy_default = []
  /\ l0_merge_overdue_ms [full; late] 100000000 MergePolicy_default = 95800000.
Proof. apply (lone_l0_beyond_cap full late 100000000); reflexivity. Defined.
