(* ===== verification/Merkle.v ===== *)
(** * Merkle: the streaming Merkle root of a part

    [parts/provenance.rs], section "Merkle root": [leaf_hash], [node_hash] and
    [MerkleBuilder], against the recursive Merkle Tree Hash of RFC 6962. SHA-256 is a
    parameter that returns 32 bytes. *)
From S2P Require Import Prelude.

(** [u32::to_be_bytes] of [n as u32]. *)
Definition be_byte (n : Z) (k : Z) : ascii := ascii_of_N (Z.to_N (n / 256 ^ k mod 256)).
Definition u32_be (n : Z) : string :=
  String (be_byte n 3) (String (be_byte n 2) (String (be_byte n 1) (String (be_byte n 0) EmptyString))).

Definition zero_byte : ascii := ascii_of_N 0.
Definition one_byte : ascii := ascii_of_N 1.

Section merkle.
Context (sha256 : string -> string).

(** A leaf: [SHA-256(0x00 || u32_be(len(uid)) || uid || row_digest)]. *)
Definition leaf_input (uid row_digest : string) : string := String zero_byte (u32_be (str_len uid) +:+ uid +:+ row_digest).
Definition leaf_hash (uid row_digest : string) : string := sha256 (leaf_input uid row_digest).
(** An inner node: [SHA-256(0x01 || left || right)]. *)
Definition node_input (left right : string) : string := String one_byte (left +:+ right).
Definition node_hash (left right : string) : string := sha256 (node_input left right).

(** The stack of perfect subtrees, the last pushed (the end of the [Vec]) first. *)
Record MerkleBuilder := { stack : list (nat * string); leaves : Z }.
Definition MerkleBuilder_new : MerkleBuilder := {| stack := []; leaves := 0 |}.

(** The loop of [push_leaf]: subtrees of one height combine. *)
Fixpoint carry (stack : list (nat * string)) (current : nat * string) : list (nat * string) :=
  match stack with
  | (height, left_hash) :: rest =>
      if (height =? current.1)%nat then carry rest (S height, node_hash left_hash current.2)
      else current :: stack
  | [] => [current]
  end.

Definition push_leaf (self : MerkleBuilder) (leaf : string) : MerkleBuilder :=
  {| stack := carry (stack self) (0%nat, leaf); leaves := wrap_u64 (leaves self + 1) |}.
Definition push_row (self : MerkleBuilder) (uid row_digest : string) : MerkleBuilder :=
  push_leaf self (leaf_hash uid row_digest).

(** The root: the subtrees joined from the right. *)
Definition root (self : MerkleBuilder) : option string :=
  match stack self with
  | [] => None
  | (_, top) :: rest => Some (fold_left (fun acc t => node_hash t.2 acc) rest top)
  end.

Definition push_leaves (ls : list string) : MerkleBuilder := fold_left push_leaf ls MerkleBuilder_new.
Definition push_rows (rs : list (string * string)) : MerkleBuilder :=
  fold_left (fun b r => push_row b r.1 r.2) rs MerkleBuilder_new.

(** ** RFC 6962: the Merkle Tree Hash of a list of leaves

    A list of [n >= 2] leaves splits at the largest power of two below [n]. [length l]
    levels of recursion are enough, since both halves are non-empty. *)
Definition split_at (n : nat) : nat := (2 ^ Nat.log2 (n - 1))%nat.
Fixpoint mth_aux (fuel : nat) (l : list string) : string :=
  match fuel, l with
  | S fuel, _ :: _ :: _ =>
      node_hash (mth_aux fuel (take (split_at (length l)) l)) (mth_aux fuel (drop (split_at (length l)) l))
  | _, leaf :: _ => leaf
  | _, [] => EmptyString
  end.
Definition mth (l : list string) : string := mth_aux (length l) l.

Lemma pow2_pos h : (1 <= 2 ^ h)%nat.
Proof. assert (2 ^ h <> 0)%nat by (by apply Nat.pow_nonzero). lia. Qed.

Lemma split_at_bounds n : (2 <= n)%nat -> (1 <= split_at n < n)%nat.
Proof.
  intros Hn. unfold split_at. destruct (Nat.log2_spec (n - 1)) as [H1 H2]; [lia|].
  split; [apply pow2_pos|lia].
Qed.

Lemma mth_aux_step fuel a b l :
  let k := split_at (length (a :: b :: l)) in
  mth_aux (S fuel) (a :: b :: l) = node_hash (mth_aux fuel (take k (a :: b :: l))) (mth_aux fuel (drop k (a :: b :: l))).
Proof. reflexivity. Qed.

Lemma mth_aux_fuel fuel fuel' l : (length l <= fuel)%nat -> (length l <= fuel')%nat -> mth_aux fuel l = mth_aux fuel' l.
Proof.
  revert fuel' l. induction fuel as [|fuel IH]; intros fuel' [|a [|b l]] H1 H2; try (cbn in *; lia || by destruct fuel').
  destruct fuel' as [|fuel']; [cbn in H2; lia|]. rewrite !mth_aux_step.
  set (k := split_at _). assert (1 <= k < length (a :: b :: l))%nat by (apply split_at_bounds; cbn; lia).
  f_equal; apply IH; rewrite ?length_take, ?length_drop; cbn [length] in *; lia.
Qed.

Lemma mth_single leaf : mth [leaf] = leaf.
Proof. done. Qed.

Lemma mth_split l :
  (2 <= length l)%nat -> mth l = node_hash (mth (take (split_at (length l)) l)) (mth (drop (split_at (length l)) l)).
Proof.
  intros Hl. destruct l as [|a [|b l]]; [cbn in Hl; lia..|]. unfold mth at 1. change (length (a :: b :: l)) with (S (S (length l))) at 1.
  rewrite mth_aux_step.
  set (k := split_at _). assert (1 <= k < length (a :: b :: l))%nat by (apply split_at_bounds; cbn; lia).
  f_equal; apply mth_aux_fuel; rewrite ?length_take, ?length_drop; cbn [length] in *; lia.
Qed.

(** Two parts join when the left one is a full power of two and the right one no larger. *)
Lemma mth_join a b h :
  length a = (2 ^ h)%nat -> (1 <= length b <= 2 ^ h)%nat -> mth (a ++ b) = node_hash (mth a) (mth b).
Proof.
  intros Ha Hb. rewrite mth_split by (rewrite length_app; lia).
  assert (split_at (length (a ++ b)) = length a) as ->.
  { unfold split_at. rewrite length_app, Ha. f_equal. apply Nat.log2_unique; [lia|].
    rewrite Nat.pow_succ_r'. lia. }
  by rewrite take_app_length, drop_app_length.
Qed.

(** ** The stack holds the binary digits of the leaf count *)

(** [holds st ls]: the subtrees of [st] cover [ls]; heights grow towards the bottom. *)
Inductive holds : list (nat * string) -> list string -> Prop :=
| holds_nil : holds [] []
| holds_cons h st ls seg :
    length seg = (2 ^ h)%nat -> Forall (fun t => (h < t.1)%nat) st -> holds st ls ->
    holds ((h, mth seg) :: st) (ls ++ seg).

Lemma carry_holds st ls h seg :
  length seg = (2 ^ h)%nat -> Forall (fun t => (h <= t.1)%nat) st -> holds st ls ->
  holds (carry st (h, mth seg)) (ls ++ seg).
Proof.
  intros Hseg Hle Hst. revert h seg Hseg Hle. induction Hst as [|h0 st ls seg0 Hl0 Hlt Hst IH]; intros h seg Hseg Hle; cbn [carry fst snd].
  - apply (holds_cons h [] [] seg); [done|constructor|constructor].
  - apply Forall_cons in Hle as [Hle Hrest]. cbn in Hle. destruct (Nat.eqb_spec h0 h) as [->|Hne].
    + pose proof (pow2_pos h). rewrite <- (mth_join seg0 seg h) by lia. rewrite <- (assoc_L (++)). apply IH.
      * rewrite length_app, Nat.pow_succ_r'. lia.
      * eapply Forall_impl; [exact Hlt|]. cbn. lia.
    + apply holds_cons; [done| |by apply holds_cons].
      constructor; [cbn; lia|]. eapply Forall_impl; [exact Hlt|]. cbn. intros. lia.
Qed.

Lemma push_leaves_holds ls : holds (stack (push_leaves ls)) ls.
Proof.
  induction ls as [|leaf ls IH] using rev_ind; [constructor|].
  unfold push_leaves in *. rewrite fold_left_app. cbn [fold_left push_leaf stack].
  rewrite <- (mth_single leaf) at 1. apply carry_holds; [done| |exact IH].
  apply Forall_forall. intros; lia.
Qed.

(** Everything above a subtree is shorter than it. *)
Lemma root_join st ls acc seg :
  holds st ls -> (1 <= length seg)%nat -> acc = mth seg -> Forall (fun t => (length seg <= 2 ^ t.1)%nat) st ->
  fold_left (fun acc t => node_hash t.2 acc) st acc = mth (ls ++ seg).
Proof.
  intros Hst. revert acc seg. induction Hst as [|h st ls seg0 Hl0 Hlt Hst IH]; intros acc seg Hseg -> Hle; [done|].
  cbn [fold_left snd]. apply Forall_cons in Hle as [Hle _]. cbn in Hle.
  rewrite <- (mth_join seg0 seg h) by lia. rewrite <- (assoc_L (++)). apply IH; [rewrite length_app; lia|done|].
  eapply Forall_impl; [exact Hlt|]. cbn. intros t Ht. rewrite length_app.
  assert (2 ^ S h <= 2 ^ t.1)%nat by (apply Nat.pow_le_mono_r; lia). rewrite Nat.pow_succ_r' in *. lia.
Qed.

(** Distinct heights: a stack of [k] subtrees covers at least [2^k - 1] leaves. *)
Lemma holds_length st ls h :
  holds st ls -> Forall (fun t => (h <= t.1)%nat) st -> (2 ^ (h + length st) <= length ls + 2 ^ h)%nat.
Proof.
  intros Hst. revert h. induction Hst as [|h0 st ls seg Hl Hlt Hst IH]; intros h Hle; [rewrite Nat.add_0_r; cbn; lia|].
  apply Forall_cons in Hle as [Hle _]. cbn in Hle. specialize (IH (S h0)). rewrite length_app, Hl. cbn [length].
  assert (2 ^ (S h0 + length st) <= length ls + 2 ^ S h0)%nat as H' by (apply IH; exact Hlt).
  assert (2 ^ h <= 2 ^ h0)%nat by (apply Nat.pow_le_mono_r; lia). pose proof (pow2_pos (S (length st))).
  rewrite Nat.add_succ_comm, Nat.pow_add_r in H'. rewrite Nat.pow_add_r. rewrite (Nat.pow_succ_r' 2 h0) in H'. nia.
Qed.

(** ** Binding *)

Context (sha256_length : forall bytes, String.length (sha256 bytes) = 32%nat).

Definition row_leaves (rs : list (string * string)) : list string := (fun r => leaf_hash r.1 r.2) <$> rs.

(** [hashed rs x]: [x] is one of the byte strings hashed on the way to the root of [rs], a leaf
    or an inner node of its tree. *)
Inductive hashed : list (string * string) -> string -> Prop :=
| hashed_leaf r : hashed [r] (leaf_input r.1 r.2)
| hashed_node a b : length a = split_at (length (a ++ b)) -> b <> [] -> hashed (a ++ b) (node_input (mth (row_leaves a)) (mth (row_leaves b)))
| hashed_left a b x : length a = split_at (length (a ++ b)) -> b <> [] -> hashed a x -> hashed (a ++ b) x
| hashed_right a b x : length a = split_at (length (a ++ b)) -> b <> [] -> hashed b x -> hashed (a ++ b) x.
#[local] Hint Constructors hashed : core.

(** A collision between the two trees: a byte string of each, different, with one digest. *)
Definition trees_collide (rs1 rs2 : list (string * string)) : Prop :=
  exists x y, hashed rs1 x /\ hashed rs2 y /\ x <> y /\ sha256 x = sha256 y.
Lemma hashed_inj rs1 rs2 x y : hashed rs1 x -> hashed rs2 y -> sha256 x = sha256 y -> x = y \/ trees_collide rs1 rs2.
Proof. intros H1 H2 E. destruct (decide (x = y)) as [->|Hne]; [by left|right]. by exists x, y. Qed.
Lemma collide_sub a b rs1 rs2 :
  (forall x, hashed a x -> hashed rs1 x) -> (forall x, hashed b x -> hashed rs2 x) -> trees_collide a b -> trees_collide rs1 rs2.
Proof. intros Ha Hb (x & y & Hx & Hy & H). exists x, y. auto. Qed.

(** What a row's leaf commits to: [u32_be] counts a uid shorter than 4 GiB exactly. *)
Definition row_ok (r : string * string) : Prop := str_len r.1 < 2 ^ 32.

Lemma u32_be_inj a b : 0 <= a < 2 ^ 32 -> 0 <= b < 2 ^ 32 -> u32_be a = u32_be b -> a = b.
Proof.
  intros Ha Hb E. unfold u32_be in E. injection E as E3 E2 E1 E0.
  assert (forall k, be_byte a k = be_byte b k -> a / 256 ^ k mod 256 = b / 256 ^ k mod 256) as Hk.
  { intros k Hk. apply (f_equal N_of_ascii) in Hk. unfold be_byte in Hk.
    pose proof (Z.mod_pos_bound (a / 256 ^ k) 256 ltac:(lia)). pose proof (Z.mod_pos_bound (b / 256 ^ k) 256 ltac:(lia)).
    rewrite !N_ascii_embedding in Hk by lia. lia. }
  apply Hk in E3, E2, E1, E0. clear Hk. change (256 ^ 3) with (2 ^ 24) in *. change (256 ^ 2) with (2 ^ 16) in *.
  change (256 ^ 1) with (2 ^ 8) in *. change (256 ^ 0) with 1 in *. cbn [Z.pow] in *. Z.div_mod_to_equations. lia.
Qed.

Lemma leaf_input_inj r1 r2 : row_ok r1 -> row_ok r2 -> leaf_input r1.1 r1.2 = leaf_input r2.1 r2.2 -> r1 = r2.
Proof.
  destruct r1 as [u1 d1], r2 as [u2 d2]. unfold row_ok. cbn [fst snd]. intros Hu1 Hu2 E.
  apply (f_equal (str_drop 1)) in E. change (u32_be (str_len u1) +:+ (u1 +:+ d1) = u32_be (str_len u2) +:+ (u2 +:+ d2)) in E.
  apply str_app_inv_len in E as [El E]; [|done].
  apply u32_be_inj in El; [|unfold str_len in *; lia..]. apply str_app_inv_len in E as [-> ->]; [done|].
  unfold str_len in El. lia.
Qed.
Lemma node_input_inj a1 b1 a2 b2 : String.length a1 = String.length a2 -> node_input a1 b1 = node_input a2 b2 -> a1 = a2 /\ b1 = b2.
Proof. intros Hl E. apply (f_equal (str_drop 1)) in E. change (a1 +:+ b1 = a2 +:+ b2) in E. by apply str_app_inv_len. Qed.

Lemma mth_length rs : rs <> [] -> String.length (mth (row_leaves rs)) = 32%nat.
Proof using sha256_length.
  intros Hrs. destruct rs as [|r [|r' rs]]; [done|apply sha256_length|].
  rewrite mth_split by (cbn; lia). apply sha256_length.
Qed.

(** The tree of some rows: one leaf, or two subtrees under a node. *)
Lemma mth_cases rs :
  rs <> [] ->
  (exists r, rs = [r] /\ mth (row_leaves rs) = leaf_hash r.1 r.2)
  \/ exists a b, rs = a ++ b /\ a <> [] /\ b <> [] /\ length a = split_at (length (a ++ b))
       /\ mth (row_leaves rs) = node_hash (mth (row_leaves a)) (mth (row_leaves b)).
Proof.
  intros Hrs. destruct rs as [|r [|r' rs]]; [done|left; by exists r|right].
  set (l := r :: r' :: rs). set (k := split_at (length l)).
  assert (1 <= k < length l)%nat as Hk by (apply split_at_bounds; cbn; lia).
  exists (take k l), (drop k l). rewrite take_drop. split_and!; [done|..].
  - intros E. apply (f_equal length) in E. rewrite length_take in E. cbn [length] in E. lia.
  - intros E. apply (f_equal length) in E. rewrite length_drop in E. cbn [length] in E. lia.
  - rewrite length_take. fold k. lia.
  - rewrite mth_split by (unfold row_leaves; rewrite length_fmap; cbn; lia). unfold row_leaves.
    rewrite length_fmap. fold k. by rewrite fmap_take, fmap_drop.
Qed.

Lemma mth_binds rs1 rs2 :
  rs1 <> [] -> rs2 <> [] -> Forall row_ok rs1 -> Forall row_ok rs2 ->
  mth (row_leaves rs1) = mth (row_leaves rs2) -> rs1 = rs2 \/ trees_collide rs1 rs2.
Proof using sha256_length.
  remember (length rs1) as n eqn:En. revert rs1 rs2 En.
  induction (lt_wf n) as [n _ IH]. intros rs1 rs2 -> N1 N2 O1 O2 E.
  destruct (mth_cases rs1 N1) as [(r1 & -> & E1)|(a1 & b1 & -> & A1 & B1 & L1 & E1)], (mth_cases rs2 N2) as [(r2 & -> & E2)|(a2 & b2 & -> & A2 & B2 & L2 & E2)];
    rewrite E1, E2 in E; (eapply hashed_inj in E; [|by eauto..]); destruct E as [E|?]; [|by right| |by right| |by right| |by right].
  - apply Forall_cons in O1 as [O1 _], O2 as [O2 _]. left. f_equal. by apply leaf_input_inj.
  - discriminate E.
  - discriminate E.
  - apply Forall_app in O1 as [Oa1 Ob1], O2 as [Oa2 Ob2]. apply node_input_inj in E as [Ea Eb]; [|by rewrite !mth_length].
    rewrite length_app in IH. assert (0 < length a1 /\ 0 < length b1)%nat as [La Lb] by (destruct a1, b1; cbn; try done; lia).
    destruct (IH (length a1) ltac:(lia) a1 a2 eq_refl A1 A2 Oa1 Oa2 Ea) as [Ha|Hc]; [|right; apply (collide_sub a1 a2); auto].
    destruct (IH (length b1) ltac:(lia) b1 b2 eq_refl B1 B2 Ob1 Ob2 Eb) as [Hb|Hc]; [left; by rewrite Ha, Hb|right; apply (collide_sub b1 b2); auto].
Qed.
End merkle.

Lemma builder_root sha256 ls :
  root sha256 (push_leaves sha256 ls) = (match ls with [] => None | _ => Some (mth sha256 ls) end)
  /\ (2 ^ length (stack (push_leaves sha256 ls)) <= length ls + 1)%nat.
Proof.
  pose proof (push_leaves_holds sha256 ls) as Hh. split.
  - unfold root. destruct Hh as [|h st ls seg Hl Hlt Hst]; [done|]. pose proof (pow2_pos h).
    rewrite (root_join sha256 st ls _ seg Hst); [|lia|done|].
    + destruct seg; [cbn in Hl; lia|]. by destruct ls.
    + eapply Forall_impl; [exact Hlt|]. cbn. intros t Ht. rewrite Hl. apply Nat.pow_le_mono_r; lia.
  - apply (holds_length _ _ _ 0) in Hh; [cbn in Hh; lia|]. apply Forall_forall. intros; lia.
Qed.

(** The streaming builder computes RFC 6962's Merkle Tree Hash of the leaves pushed, in order, for
    every number of leaves (none for an empty tree), and its stack of subtree hashes never holds
    more than [log2 (n + 1)] of them. *)
Theorem merkle_root_is_mth sha256 ls :
  root sha256 (push_leaves sha256 ls) = (match ls with [] => None | _ => Some (mth sha256 ls) end)
  /\ (2 ^ length (stack (push_leaves sha256 ls)) <= length ls + 1)%nat.
Proof. apply builder_root. Qed.

(** C21: the Merkle root binds the rows: two non-empty parts with one root hold the same (uid, row
    digest) sequence, of the same length and order, or the two trees themselves contain a SHA-256
    collision: a leaf or inner node hashed for the one and a different one hashed for the other,
    with the same digest. The digests have 32 bytes and the uids are shorter than 4 GiB, which the
    length prefix counts exactly; the row digests are any bytes. *)
Theorem merkle_root_binds sha256 rs1 rs2 r :
  (forall bytes, String.length (sha256 bytes) = 32%nat) -> Forall row_ok rs1 -> Forall row_ok rs2 ->
  root sha256 (push_rows sha256 rs1) = Some r -> root sha256 (push_rows sha256 rs2) = Some r ->
  rs1 = rs2 \/ trees_collide sha256 rs1 rs2.
Proof.
  intros Hlen O1 O2.
  assert (forall rs, push_rows sha256 rs = push_leaves sha256 (row_leaves sha256 rs)) as Hp.
  { intros rs. unfold push_rows, push_leaves. generalize (MerkleBuilder_new). unfold row_leaves.
    induction rs as [|x rs IH]; intros b; [done|]. cbn. by rewrite IH. }
  assert (forall rs, root sha256 (push_rows sha256 rs) = Some r -> rs <> [] /\ mth sha256 (row_leaves sha256 rs) = r) as Hr.
  { intros rs. rewrite Hp, (proj1 (builder_root sha256 _)). destruct rs; [done|]. by intros [= <-]. }
  intros [N1 E1]%Hr [N2 E2]%Hr. apply mth_binds; [done..|]. by rewrite E1, E2.
Qed.

Module MerkleExample.
(** Thirty-two bytes of the input, zero bytes after its end. *)
Fixpoint pad (n : nat) (s : string) : string :=
  match n with
  | O => EmptyString
  | S n => match s with EmptyString => String zero_byte (pad n EmptyString) | String c s => String c (pad n s) end
  end.
Definition digest (s : string) : string := pad 32 s.

Lemma digest_length s : String.length (digest s) = 32%nat.
Proof. unfold digest. generalize 32%nat. intros n. revert s. induction n as [|n IH]; intros [|c s]; cbn; auto. Qed.

Definition rows3 : list (string * string) := [("uid-1", digest "a"); ("uid-2", digest "b"); ("uid-3", digest "c")].
Definition root3 : string := default EmptyString (root digest (push_rows digest rows3)).
End MerkleExample.

Lemma merkle_root_binds_witness :
  MerkleExample.rows3 = MerkleExample.rows3 \/ trees_collide MerkleExample.digest MerkleExample.rows3 MerkleExample.rows3.
Proof.
  apply (merkle_root_binds MerkleExample.digest _ _ MerkleExample.root3).
  - apply MerkleExample.digest_length.
  - unfold MerkleExample.rows3. repeat (constructor; [vm_compute; reflexivity|]). constructor.
  - unfold MerkleExample.rows3. repeat (constructor; [vm_compute; reflexivity|]). constructor.
  - reflexivity.
  - reflexivity.
Defined.
