(* ===== verification/TokenCounts.v ===== *)
(** * TokenCounts: exact per-minute counts of a row group's dense keyword tokens

    Models [parts/token_counts.rs]: ClickHouse's tokenizer over lowered bytes, the builder
    that counts each row once per token, the front-coded table with its restart points, the
    lookup, and the table's bytes. The main theorem is end to end: what [counts_lookup] answers of
    the table that [cb_finish] built is the true count of every minute. *)
From S2P Require Import Prelude Bytes.

Definition COUNT_THRESHOLD : Z := 16.
Definition COUNT_TOKEN_MAX_BYTES : Z := 128.
Definition DISTINCT_CAP : Z := 1000000.
Definition RESTART_INTERVAL : nat := 32.
Definition MINUTE_US : Z := 60000000.

(** ** Tokens *)

(** [ch_tokens]: [scratch] is the token so far. *)
Fixpoint ch_loop (scratch text : Bytes) : list Bytes :=
  match text with
  | [] => match scratch with [] => [] | _ => [scratch] end
  | byte :: text =>
      if ascii_alphanumeric byte || (128 <=? byte) then ch_loop (scratch ++ [to_ascii_lowercase byte]) text
      else match scratch with [] => ch_loop [] text | _ => scratch :: ch_loop [] text end
  end.
Definition ch_tokens (text : Bytes) : list Bytes := ch_loop [] text.

(** [single_token] *)
Definition single_token (needle : Bytes) : option Bytes :=
  let lowered := lower_all needle in
  if negb (bool_decide (lowered = [])) && (Z.of_nat (length lowered) <=? COUNT_TOKEN_MAX_BYTES) && forallb ascii_alphanumeric lowered
  then Some lowered else None.

(** ** Counting *)

Record Acc := { acc_rows : Z; last_row : Z; acc_first : Z * Z; acc_rest : list (Z * Z) }.

Definition Acc_new (row minute : Z) : Acc := {| acc_rows := 1; last_row := row; acc_first := (minute, 1); acc_rest := [] |}.

(** One more row in an entry. *)
Definition bump (e : Z * Z) : Z * Z := (e.1, wrap_u32 (e.2 + 1)).
(** The [binary_search_by_key] arm over the sorted later minutes: count, or insert. *)
Fixpoint count_minute (minute : Z) (l : list (Z * Z)) : list (Z * Z) :=
  match l with
  | [] => [(minute, 1)]
  | e :: l' =>
      if e.1 =? minute then bump e :: l'
      else if minute <? e.1 then (minute, 1) :: l
      else e :: count_minute minute l'
  end.

(** [Acc::add] *)
Definition acc_minutes (minute : Z) (a : Acc) : (Z * Z) * list (Z * Z) :=
  let others :=
    if minute <? (acc_first a).1 then ((minute, 1), acc_first a :: acc_rest a)
    else if minute =? (acc_first a).1 then (bump (acc_first a), acc_rest a)
    else (acc_first a, count_minute minute (acc_rest a)) in
  match last (acc_rest a) with
  | Some e => if e.1 =? minute then (acc_first a, alter bump (Nat.pred (length (acc_rest a))) (acc_rest a)) else others
  | None => if (acc_first a).1 =? minute then (bump (acc_first a), acc_rest a) else others
  end.
Definition acc_add (row minute : Z) (a : Acc) : Acc :=
  if last_row a =? row then a else
  let '(f, r) := acc_minutes minute a in
  {| acc_rows := wrap_u32 (acc_rows a + 1); last_row := row; acc_first := f; acc_rest := r |}.

(** [Acc::minutes] *)
Definition acc_all (a : Acc) : list (Z * Z) := acc_first a :: acc_rest a.

Record CountBuilder := {
  cb_tokens : gmap Bytes Acc; cb_rows : Z; cb_minute : Z; cb_min_time_us : Z; cb_max_time_us : Z }.

(** [CountBuilder::new] *)
Definition CountBuilder_new : CountBuilder :=
  {| cb_tokens := ∅; cb_rows := 0; cb_minute := 0; cb_min_time_us := i64_max; cb_max_time_us := i64_min |}.

(** [CountBuilder::start_row] *)
Definition cb_start_row (time_us : Z) (b : CountBuilder) : CountBuilder :=
  {| cb_tokens := cb_tokens b; cb_rows := wrap_u32 (cb_rows b + 1); cb_minute := time_us / MINUTE_US;
     cb_min_time_us := Z.min (cb_min_time_us b) time_us; cb_max_time_us := Z.max (cb_max_time_us b) time_us |}.

(** The closure of [CountBuilder::add_text]. *)
Definition count_token (row minute : Z) (tokens : gmap Bytes Acc) (token : Bytes) : gmap Bytes Acc :=
  if COUNT_TOKEN_MAX_BYTES <? Z.of_nat (length token) then tokens else
  match tokens !! token with
  | Some acc => <[token := acc_add row minute acc]> tokens
  | None => if Z.of_nat (size tokens) <? DISTINCT_CAP then <[token := Acc_new row minute]> tokens else tokens
  end.

(** [CountBuilder::add_text] *)
Definition cb_add_text (text : Bytes) (b : CountBuilder) : CountBuilder :=
  {| cb_tokens := foldl (count_token (cb_rows b) (cb_minute b)) (cb_tokens b) (ch_tokens text);
     cb_rows := cb_rows b; cb_minute := cb_minute b; cb_min_time_us := cb_min_time_us b; cb_max_time_us := cb_max_time_us b |}.

(** ** The table *)

Record TokenCounts := {
  threshold : Z; tc_rows : Z; min_time_us : Z; max_time_us : Z; base_minute : Z; tc_tokens : Z; restarts : list Z; entries : Bytes }.

(** [shared_prefix] *)
Fixpoint shared_prefix (a b : Bytes) : nat :=
  match a, b with
  | x :: a, y :: b => if x =? y then S (shared_prefix a b) else O
  | _, _ => O
  end.

(** The minutes of an entry, each as its distance from the one before. *)
Fixpoint put_minutes (at_minute : Z) (l : list (Z * Z)) : Bytes :=
  match l with
  | [] => []
  | (minute, count) :: l => put_varint (wrap_u64 (minute - at_minute)) ++ put_varint count ++ put_minutes minute l
  end.

(** One entry: the shared prefix, the rest of the token, its minutes. *)
Definition put_entry (base : Z) (shared : nat) (e : Bytes * list (Z * Z)) : Bytes :=
  put_varint (Z.of_nat shared) ++ put_varint (Z.of_nat (length e.1 - shared)) ++ drop shared e.1
  ++ put_varint (Z.of_nat (length e.2)) ++ put_minutes base e.2.

(** The loop of [CountBuilder::finish] over the sorted listed tokens. *)
Fixpoint put_entries (base : Z) (index : nat) (previous : Bytes) (out : Bytes) (starts : list Z) (l : list (Bytes * list (Z * Z))) : Bytes * list Z :=
  match l with
  | [] => (out, starts)
  | e :: l =>
      let restart := (index mod RESTART_INTERVAL =? 0)%nat in
      let starts := if restart then starts ++ [wrap_u32 (Z.of_nat (length out))] else starts in
      let shared := if restart then O else shared_prefix previous e.1 in
      put_entries base (S index) e.1 (out ++ put_entry base shared e) starts l
  end.

Definition token_leb (a b : Bytes * list (Z * Z)) : bool := bytes_leb a.1 b.1.
Definition listed (b : CountBuilder) : list (Bytes * list (Z * Z)) :=
  sort_by token_leb ((fun e => (e.1, acc_all e.2)) <$> filter (fun e => COUNT_THRESHOLD <= acc_rows e.2) (map_to_list (cb_tokens b))).

(** [CountBuilder::finish] *)
Definition cb_finish (b : CountBuilder) : TokenCounts :=
  let '(mn, mx) := if cb_rows b =? 0 then (0, 0) else (cb_min_time_us b, cb_max_time_us b) in
  let base := mn / MINUTE_US in
  let '(es, rs) := put_entries base 0 [] [] [] (listed b) in
  {| threshold := COUNT_THRESHOLD; tc_rows := cb_rows b; min_time_us := mn; max_time_us := mx; base_minute := base;
     tc_tokens := wrap_u32 (Z.of_nat (length (listed b))); restarts := rs; entries := es |}.

(** ** Lookup *)

(** [full_at]: the whole token stored at a restart. *)
Definition full_at (c : TokenCounts) (restart : Z) : result IndexError Bytes :=
  '(shared, r) ← get_varint (drop (Z.to_nat restart) (entries c));
  _ ← ensure (shared =? 0) (Invalid "restart token is front-coded");
  '(len, r) ← get_varint r;
  '(bs, _) ← cursor_take len r;
  Ok bs.

(** The last restart whose token is at most the needle; [high - low] shrinks. *)
Fixpoint find_restart (fuel : nat) (c : TokenCounts) (token : Bytes) (low high : nat) : result IndexError nat :=
  match fuel with
  | O => Ok low
  | S fuel =>
      if (1 <? high - low)%nat then
        let mid := ((low + high) / 2)%nat in
        full ← full_at c (nth mid (restarts c) 0);
        if bytes_leb full token then find_restart fuel c token mid high else find_restart fuel c token low mid
      else Ok low
  end.

Fixpoint skip_varints (n : nat) (r : Bytes) : result IndexError Bytes :=
  match n with O => Ok r | S n => '(_, r) ← get_varint r; skip_varints n r end.

(** The minutes of the entry found. *)
Fixpoint get_minutes (n : nat) (minute : Z) (r : Bytes) : result IndexError (list (Z * Z)) :=
  match n with
  | O => Ok []
  | S n =>
      '(delta, r) ← get_varint r;
      let next := minute + wrap_i64 delta in
      _ ← ensure ((i64_min <=? next) && (next <=? i64_max)) (Invalid "token count minute overflows");
      '(count, r) ← get_varint r;
      _ ← ensure (count <=? u32_max) (Invalid "out of range integral type conversion attempted");
      out ← get_minutes n next r;
      Ok ((next, count) :: out)
  end.

Definition sum_counts (l : list (Z * Z)) : Z := foldr (fun e s => e.2 + s) 0 l.

(** The scan from a restart to the next one; each entry takes bytes, so the length of the
    entries is enough fuel. *)
Fixpoint scan (fuel : nat) (c : TokenCounts) (token : Bytes) (stop : Z) (current r : Bytes) : result IndexError (option (list (Z * Z))) :=
  match fuel with
  | O => Ok None
  | S fuel =>
      if Z.of_nat (length (entries c) - length r) <? stop then
        '(shared, r) ← get_varint r;
        '(len, r) ← get_varint r;
        _ ← ensure (shared <=? Z.of_nat (length current)) (Invalid "token counts front coding is invalid");
        '(bs, r) ← cursor_take len r;
        let current := take (Z.to_nat shared) current ++ bs in
        '(n, r) ← get_varint r;
        _ ← ensure (n <=? tc_rows c) (Invalid "token counts list more minutes than rows");
        if bool_decide (current = token) then
          out ← get_minutes (Z.to_nat n) (base_minute c) r;
          _ ← ensure (sum_counts out <=? tc_rows c) (Invalid "token counts exceed the group's rows");
          Ok (Some out)
        else if bytes_leb current token then r ← skip_varints (Z.to_nat (n * 2)) r; scan fuel c token stop current r
        else Ok None
      else Ok None
  end.

(** [TokenCounts::lookup] *)
Definition counts_lookup (c : TokenCounts) (token : Bytes) : result IndexError (option (list (Z * Z))) :=
  if (length (restarts c) =? 0)%nat then Ok None else
  low ← find_restart (length (restarts c)) c token 0 (length (restarts c));
  let stop := match restarts c !! S low with Some next => next | None => Z.of_nat (length (entries c)) end in
  scan (S (length (entries c))) c token stop [] (drop (Z.to_nat (nth low (restarts c) 0)) (entries c)).

(** ** Bytes *)

(** The body of the section; [i64::to_le_bytes] is that of the same bits. *)
Definition tc_body (c : TokenCounts) (restart_count entries_len : Z) : Bytes :=
  le_bytes 4 (threshold c) ++ le_bytes 4 (tc_rows c) ++ le_bytes 8 (wrap_u64 (min_time_us c)) ++ le_bytes 8 (wrap_u64 (max_time_us c))
  ++ le_bytes 8 (wrap_u64 (base_minute c)) ++ le_bytes 4 (tc_tokens c) ++ le_bytes 4 restart_count ++ concat (le_bytes 4 <$> restarts c)
  ++ le_bytes 4 entries_len ++ entries c.
(** [TokenCounts::encode] *)
Definition tc_encode (c : TokenCounts) : result IndexError Bytes :=
  restart_count ← to_u32 (Z.of_nat (length (restarts c)));
  entries_len ← to_u32 (Z.of_nat (length (entries c)));
  let body := tc_body c restart_count entries_len in
  body_len ← to_u32 (Z.of_nat (length body));
  Ok (le_bytes 4 body_len ++ body).

(** [TokenCounts::decode] *)
Definition tc_decode (group_rows : Z) (cur : Bytes) : result IndexError (TokenCounts * Bytes) :=
  '(len, cur) ← cursor_le 4 cur;
  '(body, cur) ← cursor_take len cur;
  '(thr, i) ← cursor_le 4 body;
  '(rws, i) ← cursor_le 4 i;
  _ ← ensure (rws =? group_rows) (Invalid "token counts disagree with the group's rows");
  '(mn, i) ← cursor_le 8 i;
  '(mx, i) ← cursor_le 8 i;
  '(base, i) ← cursor_le 8 i;
  let '(mn, mx, base) := (wrap_i64 mn, wrap_i64 mx, wrap_i64 base) in
  _ ← ensure ((rws =? 0) || ((mn <=? mx) && (base =? mn / MINUTE_US))) (Invalid "token count times are invalid");
  '(toks, i) ← cursor_le 4 i;
  '(restart_count, i) ← cursor_le 4 i;
  _ ← ensure (restart_count =? (toks + (Z.of_nat RESTART_INTERVAL - 1)) / Z.of_nat RESTART_INTERVAL) (Invalid "token count restarts are invalid");
  '(rs, i) ← cursor_take (restart_count * 4) i;
  let rs := of_le <$> chunks 4 rs in
  '(entries_len, i) ← cursor_le 4 i;
  '(es, i) ← cursor_take entries_len i;
  _ ← ensure (bool_decide (i = [])) (Invalid "token counts have trailing bytes");
  _ ← ensure (match rs with x :: _ => x =? 0 | [] => true end && increasing rs
              && match last rs with Some x => x <? Z.of_nat (length es) | None => true end) (Invalid "token count restarts are out of order");
  Ok ({| threshold := thr; tc_rows := rws; min_time_us := mn; max_time_us := mx; base_minute := base; tc_tokens := toks; restarts := rs; entries := es |}, cur).

(** * Counting is exact *)

(** ** One token *)

Definition by_minute (a b : Z * Z) : Prop := a.1 < b.1.
Definition occurrences (m : Z) (ms : list Z) : Z := Z.of_nat (length (filter (fun x => x = m) ms)).

(** [l] is the histogram of [ms]: every minute that occurs, once, in order, with its count. *)
Record histogram (ms : list Z) (l : list (Z * Z)) : Prop := {
  hist_sorted : StronglySorted by_minute l;
  hist_counts : forall m n, (m, n) ∈ l <-> n = occurrences m ms /\ 0 < n }.

Lemma count_minute_elem m l :
  StronglySorted by_minute l -> forall m' n, (m', n) ∈ count_minute m l <->
    (m' <> m /\ (m', n) ∈ l) \/ (m' = m /\ ((exists n0, (m, n0) ∈ l /\ n = wrap_u32 (n0 + 1)) \/ ((m ∉ l.*1) /\ n = 1))).
Proof.
  induction 1 as [|[a c] l Hs IH Hl]; intros m' n; cbn [count_minute].
  { rewrite list_elem_of_singleton. set_solver. }
  rewrite Forall_forall in Hl. unfold by_minute in Hl. cbn [fst] in *.
  assert (Hgt : forall x y, (x, y) ∈ l -> a < x) by (intros x y Hx; apply (Hl (x, y) Hx)).
  assert (Hfst : forall x, x ∈ l.*1 -> a < x) by (intros x ([x' y'] & -> & Hx)%list_elem_of_fmap; eauto).
  destruct (Z.eqb_spec a m) as [->|Hne].
  - rewrite !elem_of_cons. split.
    + intros [[= -> ->]|Hin]; [right; split; [done|]; left; exists c; split; [by left|done]|].
      left. split; [|by right]. apply Hgt in Hin. lia.
    + intros [[Hm [[= -> ->]|Hin]]|[-> [(n0 & Hin & ->)|[Hnin _]]]]; [done|by right| |].
      * apply elem_of_cons in Hin as [[= ->]|Hin]; [by left|]. apply Hgt in Hin. lia.
      * destruct Hnin. left.
  - destruct (Z.ltb_spec m a).
    + rewrite !elem_of_cons. split.
      * intros [[= -> ->]|Hin]; [right; split; [done|]; right; split; [|done]|left; split; [|set_solver]].
        { cbn. rewrite not_elem_of_cons. split; [lia|]. intros ?%Hfst. lia. }
        { destruct Hin as [[= -> ->]|?%Hgt]; lia. }
      * intros [[Hm Hin]|[-> [(n0 & Hin & _)|[_ ->]]]]; [by right| |by left].
        apply elem_of_cons in Hin as [[= -> ->]|?%Hgt]; lia.
    + rewrite elem_of_cons, IH. clear IH. split.
      * intros [[= -> ->]|[[Hm Hin]|[-> [(n0 & Hin & ->)|[Hnin ->]]]]].
        { left. split; [lia|by left]. }
        { left. split; [done|by right]. }
        { right. split; [done|]. left. exists n0. split; [by right|done]. }
        { right. split; [done|]. right. split; [|done]. cbn. rewrite not_elem_of_cons. split; [lia|done]. }
      * intros [[Hm Hin]|[-> [(n0 & Hin & ->)|[Hnin ->]]]].
        { apply elem_of_cons in Hin as [[= -> ->]|Hin]; [by left|]. right. left. done. }
        { apply elem_of_cons in Hin as [[= -> ->]|Hin]; [lia|]. right. right. split; [done|]. left. eauto. }
        { right. right. split; [done|]. right. split; [|done]. cbn in Hnin. rewrite not_elem_of_cons in Hnin. naive_solver. }
Qed.

Lemma count_minute_sorted m l : StronglySorted by_minute l -> StronglySorted by_minute (count_minute m l).
Proof.
  induction 1 as [|[a c] l Hs IH Hl]; cbn [count_minute]; [by repeat constructor|]. cbn [fst].
  destruct (Z.eqb_spec a m) as [->|Hne]; [by constructor|].
  rewrite Forall_forall in Hl. unfold by_minute in Hl. cbn [fst] in Hl.
  destruct (Z.ltb_spec m a); (constructor; [by try constructor; try apply Forall_forall|]);
    apply Forall_forall; intros [x y] Hx; unfold by_minute; cbn.
  - apply elem_of_cons in Hx as [[= -> ->]|Hx]; [lia|]. apply (Hl (x, y)) in Hx. cbn in Hx. lia.
  - apply count_minute_elem in Hx as [[_ Hx]|[-> _]]; [apply (Hl (x, y) Hx)|lia|done].
Qed.

Lemma occurrences_app m ms m' : occurrences m (ms ++ [m']) = occurrences m ms + (if decide (m' = m) then 1 else 0).
Proof. unfold occurrences. rewrite filter_app, length_app. cbn. case_decide; cbn; lia. Qed.

Lemma occurrences_le m ms : 0 <= occurrences m ms <= Z.of_nat (length ms).
Proof. unfold occurrences. pose proof (length_filter (fun x => x = m) ms). lia. Qed.

(** Counting one more minute. *)
Lemma count_minute_histogram m ms l :
  Z.of_nat (length ms) < u32_max -> histogram ms l -> histogram (ms ++ [m]) (count_minute m l).
Proof.
  intros Hlen [Hs Hc]. split; [by apply count_minute_sorted|]. intros m' n.
  rewrite count_minute_elem, occurrences_app by done. pose proof (occurrences_le m' ms).
  assert (Hin : m ∈ l.*1 <-> 0 < occurrences m ms).
  { split.
    - intros ([x y] & -> & Hxy%Hc)%list_elem_of_fmap. cbn in *. lia.
    - intros Ho. apply list_elem_of_fmap. exists (m, occurrences m ms). split; [done|]. by apply Hc. }
  case_decide as Hm; subst.
  - split.
    + intros [[? _]|[_ [(n0 & [-> ?]%Hc & ->)|[Hn ->]]]]; [done| |].
      * rewrite wrap_u32_id by (unfold in_u32; lia). lia.
      * rewrite Hin in Hn. pose proof (occurrences_le m' ms). lia.
    + intros [-> ?]. right. split; [done|]. destruct (Z.eq_dec (occurrences m' ms) 0) as [Hz|Hz].
      * right. rewrite Hin, Hz. split; lia.
      * left. exists (occurrences m' ms). split; [apply Hc; lia|]. rewrite wrap_u32_id by (unfold in_u32; lia). done.
  - rewrite Z.add_0_r, Hc. naive_solver.
Qed.

(** [Acc::add]'s cases are one insertion into the sorted minutes. *)
Lemma acc_minutes_spec minute a :
  StronglySorted by_minute (acc_all a) ->
  (acc_minutes minute a).1 :: (acc_minutes minute a).2 = count_minute minute (acc_all a).
Proof.
  unfold acc_all. intros Hs. destruct a as [rs lr [f c] r]. cbn in *. unfold acc_minutes; cbn.
  inversion Hs as [|? ? Hr Hf]; subst. rewrite Forall_forall in Hf. unfold by_minute in Hf; cbn in Hf.
  assert (Hothers : forall X, X = (if minute <? f then ((minute, 1), (f, c) :: r) else if minute =? f then (bump (f, c), r) else ((f, c), count_minute minute r))
     -> X.1 :: X.2 = (if f =? minute then bump (f, c) :: r else if minute <? f then (minute, 1) :: (f, c) :: r else (f, c) :: count_minute minute r)).
  { intros X ->. destruct (Z.eqb_spec f minute) as [->|]; [by rewrite Z.ltb_irrefl, Z.eqb_refl|].
    destruct (minute <? f); [done|]. by destruct (Z.eqb_spec minute f); [lia|]. }
  destruct (last r) as [[l n]|] eqn:Hlast; cbn.
  - destruct (Z.eqb_spec l minute) as [->|]; [|by apply Hothers].
    apply last_Some in Hlast as [r' ->].
    assert (Hlt : f < minute) by (apply (Hf (minute, n)); set_solver).
    destruct (Z.eqb_spec f minute); [lia|]. destruct (Z.ltb_spec minute f); [lia|]. cbn. f_equal.
    rewrite length_app, Nat.add_comm; cbn. rewrite <- (Nat.add_0_r (length r')) at 1. rewrite alter_app_r. cbn.
    clear -Hr. induction r' as [|[x y] r' IH]; cbn in *; [by rewrite Z.eqb_refl|].
    inversion Hr as [|? ? Hr' Hx]; subst. rewrite Forall_forall in Hx. specialize (Hx (minute, n)). unfold by_minute in Hx. cbn in Hx.
    assert (x < minute) by (apply Hx; set_solver). destruct (Z.eqb_spec x minute); [lia|]. destruct (Z.ltb_spec minute x); [lia|].
    f_equal. auto.
  - destruct (Z.eqb_spec f minute) as [->|]; [done|].
    pose proof (Hothers _ eq_refl) as Ho. by destruct (Z.eqb_spec f minute); [lia|].
Qed.

(** ** All tokens of a group *)

(** A row: its event time and the values of its body columns. *)
Definition Row : Type := Z * list Bytes.
Definition row_tokens (r : Row) : list Bytes := concat (ch_tokens <$> r.2).
(** What the writer does with a group's rows. *)
Definition build_row (b : CountBuilder) (r : Row) : CountBuilder := foldl (fun b text => cb_add_text text b) (cb_start_row r.1 b) r.2.
Definition build (rows : list Row) : CountBuilder := foldl build_row CountBuilder_new rows.

(** The minutes of the rows that hold a token, and those of the row under way. *)
Definition minutes_of (t : Bytes) (rows : list Row) : list Z := (fun r => r.1 / MINUTE_US) <$> filter (fun r => t ∈ row_tokens r) rows.
Definition seen_minutes (t : Bytes) (done : list Row) (cur : list Bytes) (minute : Z) : list Z :=
  minutes_of t done ++ (if decide (t ∈ cur) then [minute] else []).

Record tracked (done : list Row) (cur : list Bytes) (minute : Z) (t : Bytes) (a : Acc) : Prop := {
  tr_hist : histogram (seen_minutes t done cur minute) (acc_all a);
  tr_rows : acc_rows a = Z.of_nat (length (seen_minutes t done cur minute));
  tr_last : last_row a = Z.of_nat (length done) + 1 <-> t ∈ cur;
  tr_bound : last_row a <= Z.of_nat (length done) + 1;
  tr_len : Z.of_nat (length t) <= COUNT_TOKEN_MAX_BYTES }.

Record counted (done : list Row) (cur : list Bytes) (minute : Z) (tokens : gmap Bytes Acc) : Prop := {
  co_tracked : forall t a, tokens !! t = Some a -> tracked done cur minute t a;
  co_missing : forall t, tokens !! t = None -> Z.of_nat (length t) <= COUNT_TOKEN_MAX_BYTES ->
    seen_minutes t done cur minute = [] \/ DISTINCT_CAP <= Z.of_nat (size tokens) }.

Lemma minutes_of_length t rows : (length (minutes_of t rows) <= length rows)%nat.
Proof. unfold minutes_of. rewrite length_fmap. apply length_filter. Qed.

Lemma seen_minutes_app t done cur minute t' :
  seen_minutes t done (cur ++ [t']) minute
  = if decide (t' = t /\ t ∉ cur) then seen_minutes t done cur minute ++ [minute] else seen_minutes t done cur minute.
Proof.
  unfold seen_minutes. repeat case_decide; rewrite ?app_nil_r, <- ?app_assoc; try done; set_solver.
Qed.

Lemma acc_new_tracked done cur minute t :
  seen_minutes t done cur minute = [] -> Z.of_nat (length t) <= COUNT_TOKEN_MAX_BYTES ->
  tracked done (cur ++ [t]) minute t (Acc_new (Z.of_nat (length done) + 1) minute).
Proof.
  intros Hnil Hlen. assert (t ∉ cur) by (unfold seen_minutes in Hnil; case_decide; [by destruct (minutes_of t done)|done]).
  assert (Hs : seen_minutes t done (cur ++ [t]) minute = [minute]) by (rewrite seen_minutes_app, Hnil; by case_decide; [|naive_solver]).
  split; rewrite ?Hs; [|done|split; [set_solver|done]|cbn; lia|done].
  change (acc_all _) with [(minute, 1)]. split; cbn; [by repeat constructor|]. intros m n. rewrite list_elem_of_singleton. unfold occurrences. cbn.
  case_decide; subst; cbn; split; [intros [= ->]; lia|intros [-> _]; done|intros [= <- ->]; done|lia].
Qed.

Lemma acc_add_tracked done cur minute t a :
  Z.of_nat (length done) < u32_max ->
  tracked done cur minute t a -> tracked done (cur ++ [t]) minute t (acc_add (Z.of_nat (length done) + 1) minute a).
Proof.
  intros Hlen [Hh Hr Hl Hb Ht]. unfold acc_add. rewrite <- Z.eqb_eq in Hl. pose proof (minutes_of_length t done).
  destruct (last_row a =? Z.of_nat (length done) + 1) eqn:E.
  - assert (t ∈ cur) by naive_solver. apply Z.eqb_eq in E.
    assert (Hs : seen_minutes t done (cur ++ [t]) minute = seen_minutes t done cur minute) by (rewrite seen_minutes_app; by case_decide; [naive_solver|]).
    split; rewrite ?Hs; [done..| |done|done]. split; [set_solver|done].
  - assert (t ∉ cur) by naive_solver.
    assert (Hs : seen_minutes t done (cur ++ [t]) minute = seen_minutes t done cur minute ++ [minute]) by (rewrite seen_minutes_app; by case_decide; [|naive_solver]).
    assert (Hsl : (length (seen_minutes t done cur minute) <= length done)%nat).
    { unfold seen_minutes. case_decide; [done|]. by rewrite app_nil_r. }
    pose proof (acc_minutes_spec minute a (hist_sorted _ _ Hh)) as Hm. destruct (acc_minutes minute a) as [f r]. cbn [fst snd] in Hm.
    split; rewrite ?Hs; cbn; [|rewrite length_app, Hr; cbn; rewrite wrap_u32_id by (unfold in_u32; lia); lia|split; [set_solver|done]|lia|done].
    unfold acc_all at 1; cbn. rewrite Hm. apply count_minute_histogram; [lia|done].
Qed.

(** The tokens other than the one just met are as they were. *)
Lemma tracked_other done cur minute t a t' : t <> t' -> tracked done cur minute t a -> tracked done (cur ++ [t']) minute t a.
Proof.
  intros Hne [Hh Hr Hl Hb Ht].
  assert (Hs : seen_minutes t done (cur ++ [t']) minute = seen_minutes t done cur minute) by (rewrite seen_minutes_app; by case_decide; [naive_solver|]).
  split; rewrite ?Hs; [done..| |done|done]. rewrite Hl. set_solver.
Qed.

Lemma seen_other t done cur minute t' : t <> t' -> seen_minutes t done (cur ++ [t']) minute = seen_minutes t done cur minute.
Proof. intros. rewrite seen_minutes_app. case_decide; [naive_solver|done]. Qed.

Lemma count_token_counted done cur minute tokens t :
  Z.of_nat (length done) < u32_max -> counted done cur minute tokens ->
  counted done (cur ++ [t]) minute (count_token (Z.of_nat (length done) + 1) minute tokens t).
Proof.
  intros Hlen [Ht Hm]. unfold count_token. destruct (Z.ltb_spec COUNT_TOKEN_MAX_BYTES (Z.of_nat (length t))) as [Hlong|Hshort].
  { split.
    - intros t' a Ha%Ht. apply tracked_other; [|done]. intros ->. pose proof (tr_len _ _ _ _ _ Ha). lia.
    - intros t' Hn Hl. rewrite seen_other by (intros ->; lia). auto. }
  destruct (tokens !! t) as [a|] eqn:Ea; [|destruct (Z.ltb_spec (Z.of_nat (size tokens)) DISTINCT_CAP)].
  - split.
    + intros t' a' [[<- <-]|[Hne Ha]]%lookup_insert_Some; [by apply acc_add_tracked, Ht|by apply tracked_other; auto].
    + intros t' [Hn Hne]%lookup_insert_None Hl. rewrite seen_other by done.
      rewrite map_size_insert_Some by done. auto.
  - destruct (Hm t Ea Hshort) as [Hnil|]; [|lia]. split.
    + intros t' a' [[<- <-]|[Hne Ha]]%lookup_insert_Some; [by apply acc_new_tracked|by apply tracked_other; auto].
    + intros t' [Hn Hne]%lookup_insert_None Hl. rewrite seen_other by done.
      rewrite map_size_insert_None by done. destruct (Hm t' Hn Hl); [auto|right; lia].
  - split.
    + intros t' a Ha. apply tracked_other; [|by apply Ht]. congruence.
    + intros t' Hn Hl. right. lia.
Qed.

Lemma count_tokens_counted done minute ts : forall cur tokens,
  Z.of_nat (length done) < u32_max -> counted done cur minute tokens ->
  counted done (cur ++ ts) minute (foldl (count_token (Z.of_nat (length done) + 1) minute) tokens ts).
Proof.
  induction ts as [|t ts IH]; intros cur tokens Hlen Hc; cbn; [by rewrite app_nil_r|].
  change (t :: ts) with ([t] ++ ts). rewrite app_assoc. apply IH; [done|]. by apply count_token_counted.
Qed.

(** A finished row is one more row done. *)
Lemma row_done_counted done r minute tokens :
  counted done (row_tokens r) (r.1 / MINUTE_US) tokens -> counted (done ++ [r]) [] minute tokens.
Proof.
  assert (Hs : forall t, seen_minutes t (done ++ [r]) [] minute = seen_minutes t done (row_tokens r) (r.1 / MINUTE_US)).
  { intros t. unfold seen_minutes, minutes_of. rewrite app_nil_r, filter_app, fmap_app. f_equal. cbn. by repeat case_decide. }
  intros [Ht Hm]. split.
  - intros t a [Hh Hr Hl Hb Hlen]%Ht. split; rewrite ?Hs; [done..| | |done]; rewrite length_app; cbn; [|lia].
    split; [intros ?; lia|by intros ?%elem_of_nil].
  - intros t Hn Hlen. rewrite Hs. auto.
Qed.

(** The texts of a row, token by token. *)
Lemma add_texts_fields texts b :
  let b' := foldl (fun b text => cb_add_text text b) b texts in
  cb_tokens b' = foldl (count_token (cb_rows b) (cb_minute b)) (cb_tokens b) (concat (ch_tokens <$> texts))
  /\ cb_rows b' = cb_rows b /\ cb_min_time_us b' = cb_min_time_us b /\ cb_max_time_us b' = cb_max_time_us b.
Proof.
  cbv zeta. revert b; induction texts as [|t texts IH]; intros b; cbn; [done|].
  destruct (IH (cb_add_text t b)) as (-> & -> & -> & ->). cbn. by rewrite foldl_app.
Qed.

Lemma build_app rows r : build (rows ++ [r]) = build_row (build rows) r.
Proof. unfold build. by rewrite foldl_app. Qed.

(** What the builder holds after [rows]. *)
Lemma build_counted rows :
  Z.of_nat (length rows) <= u32_max ->
  cb_rows (build rows) = Z.of_nat (length rows) /\ counted rows [] 0 (cb_tokens (build rows))
  /\ Forall (fun r : Row => cb_min_time_us (build rows) <= r.1) rows /\ (forall m, m <= i64_max -> Forall (fun r : Row => m <= r.1) rows -> m <= cb_min_time_us (build rows)).
Proof.
  induction rows as [|r rows IH] using rev_ind; intros Hlen.
  - split_and!; [done| |constructor|done]. split; [intros t a Ha; done|by left].
  - rewrite length_app in Hlen; cbn in Hlen. destruct IH as (Hr & Hc & Hmin & Hlb); [lia|].
    rewrite build_app. unfold build_row. destruct (add_texts_fields r.2 (cb_start_row r.1 (build rows))) as (Hts & -> & -> & _). rewrite Hts.
    cbn [cb_rows cb_minute cb_tokens cb_min_time_us cb_start_row]. rewrite Hr, wrap_u32_id by (unfold in_u32; lia). split_and!.
    + rewrite length_app. cbn. lia.
    + apply row_done_counted. apply (count_tokens_counted rows _ _ []); [lia|].
      destruct Hc as [Ht Hm]. split.
      * intros t a [Hh Hrow Hl Hb Htl]%Ht. by split.
      * intros t Hn Hl. by apply Hm.
    + apply Forall_app_2; [|repeat constructor; lia]. eapply Forall_impl; [exact Hmin|]. cbn. lia.
    + intros m Hm [Hf Hx]%Forall_app. rewrite Forall_singleton in Hx. specialize (Hlb m Hm Hf). lia.
Qed.

(** * The table answers what was put in *)

Notation "'Entry'" := (Bytes * list (Z * Z))%type.

(** The value of a token in a list of entries. *)
Fixpoint assoc (t : Bytes) (l : list Entry) : option (list (Z * Z)) :=
  match l with [] => None | e :: l => if bool_decide (e.1 = t) then Some e.2 else assoc t l end.

Definition by_token (a b : Entry) : Prop := bytes_ltb a.1 b.1 = true.

(** What the decoder relies on of the minutes of an entry, after the minute [m]. *)
Fixpoint minutes_fit (m : Z) (l : list (Z * Z)) : Prop :=
  match l with [] => True | (x, n) :: l => m <= x /\ -2305843009213693952 <= x <= 2305843009213693952 /\ 0 <= n <= u32_max /\ minutes_fit x l end.
Record entry_fits (base rows : Z) (e : Entry) : Prop := {
  ef_minutes : minutes_fit base e.2;
  ef_count : Z.of_nat (length e.2) <= rows;
  ef_sum : sum_counts e.2 <= rows;
  ef_len : Z.of_nat (length e.1) <= COUNT_TOKEN_MAX_BYTES }.

(** ** Minutes *)

Lemma minute_delta m x : -2305843009213693952 <= m -> m <= x -> x <= 2305843009213693952 -> wrap_u64 (x - m) = x - m /\ in_u64 (x - m) /\ wrap_i64 (x - m) = x - m.
Proof.
  intros. assert (in_u64 (x - m)) by (unfold in_u64, u64_max; lia). split_and!; [by apply wrap_u64_id|done|].
  apply wrap_i64_id. unfold in_i64, i64_min, i64_max. lia.
Qed.

Lemma u32_in_u64 n : 0 <= n <= u32_max -> in_u64 n.
Proof. unfold in_u64, u32_max, u64_max. lia. Qed.

Lemma get_put_minutes l : forall m r, -2305843009213693952 <= m -> minutes_fit m l -> get_minutes (length l) m (put_minutes m l ++ r) = Ok l.
Proof.
  induction l as [|[x n] l IH]; intros m r Hm; cbn [minutes_fit length put_minutes get_minutes]; [done|].
  intros (Hle & Hx & Hn & Hl). destruct (minute_delta m x) as (Hw & Hu & Hi); [lia..|].
  rewrite <- !app_assoc, Hw, get_put_varint by done. cbn. rewrite Hi. replace (m + (x - m)) with x by lia.
  eapply bind_intro; [apply ensure_intro; unfold i64_min, i64_max; apply andb_true_iff; rewrite !Z.leb_le; lia|]; cbn beta.
  rewrite get_put_varint by (by apply u32_in_u64). cbn.
  eapply bind_intro; [apply ensure_intro; rewrite Z.leb_le; lia|]; cbn beta.
  eapply bind_intro; [by apply IH; [lia|]|]. done.
Qed.

Lemma skip_put_minutes l : forall m r, -2305843009213693952 <= m -> minutes_fit m l -> skip_varints (length l + length l) (put_minutes m l ++ r) = Ok r.
Proof.
  induction l as [|[x n] l IH]; intros m r Hm; cbn [minutes_fit length put_minutes]; [done|].
  intros (Hle & Hx & Hn & Hl). destruct (minute_delta m x) as (Hw & Hu & _); [lia..|].
  replace (S (length l) + S (length l))%nat with (S (S (length l + length l))) by lia. cbn [skip_varints].
  rewrite <- !app_assoc, Hw, get_put_varint by done. cbn [mbind result_bind].
  rewrite get_put_varint by (by apply u32_in_u64). cbn [mbind result_bind]. apply IH; [lia|done].
Qed.

(** ** One restart chunk *)

(** The bytes of consecutive entries after [previous]; [index] counts from a restart. *)
Definition shared_at (index : nat) (previous token : Bytes) : nat := if (index =? 0)%nat then O else shared_prefix previous token.
Fixpoint enc (base : Z) (index : nat) (previous : Bytes) (l : list Entry) : Bytes :=
  match l with
  | [] => []
  | e :: l => put_entry base (shared_at index previous e.1) e ++ enc base (S index) e.1 l
  end.

Lemma shared_prefix_spec a b : (shared_prefix a b <= length a)%nat /\ (shared_prefix a b <= length b)%nat /\ take (shared_prefix a b) a ++ drop (shared_prefix a b) b = b.
Proof.
  revert b; induction a as [|x a IH]; intros [|y b]; cbn; [repeat split; lia..|].
  destruct (Z.eqb_spec x y) as [->|]; cbn; [|repeat split; lia].
  destruct (IH b) as (? & ? & E). split_and!; [lia|lia|]. cbn. by rewrite E.
Qed.

Lemma shared_at_spec index previous current token :
  (index <> 0%nat -> current = previous) ->
  (shared_at index previous token <= length current)%nat /\ (shared_at index previous token <= length token)%nat
  /\ take (shared_at index previous token) current ++ drop (shared_at index previous token) token = token.
Proof.
  unfold shared_at. destruct (Nat.eqb_spec index 0); intros H; [cbn; split_and!; [lia|lia|done]|].
  rewrite H by done. apply shared_prefix_spec.
Qed.

Lemma put_entry_app base s e r :
  put_entry base s e ++ r = put_varint (Z.of_nat s) ++ put_varint (Z.of_nat (length e.1 - s)) ++ drop s e.1
    ++ put_varint (Z.of_nat (length e.2)) ++ put_minutes base e.2 ++ r.
Proof. unfold put_entry. by rewrite <- !app_assoc. Qed.

Lemma put_entry_nonempty base s e : put_entry base s e <> [].
Proof. unfold put_entry. pose proof (put_varint_nonempty (Z.of_nat s)). by destruct (put_varint (Z.of_nat s)). Qed.

Lemma nat_in_u64 n : (Z.of_nat n <= 1000000)%Z -> in_u64 (Z.of_nat n).
Proof. unfold in_u64, u64_max. lia. Qed.

Lemma assoc_none_greater t e l : StronglySorted by_token (e :: l) -> bytes_leb e.1 t = false -> assoc t (e :: l) = None.
Proof.
  intros Hs. revert e Hs; induction l as [|e' l IH]; intros e Hs He; cbn;
    (rewrite bool_decide_eq_false_2; [|intros <-; by rewrite bytes_leb_refl in He]); [done|].
  apply StronglySorted_inv in Hs as [Hs' [Hlt _]%Forall_cons]. apply (IH e' Hs').
  apply bytes_ltb_spec in Hlt as [Hle _]. destruct (bytes_leb e'.1 t) eqn:E; [|done].
  by rewrite (bytes_leb_trans _ _ _ Hle E) in He.
Qed.

Lemma enc_length base l : forall index previous, (length l <= length (enc base index previous l))%nat.
Proof.
  induction l as [|e l IH]; intros index previous; cbn [enc length]; [lia|]. rewrite length_app.
  pose proof (put_entry_nonempty base (shared_at index previous e.1) e) as Hne. specialize (IH (S index) e.1).
  destruct (put_entry base (shared_at index previous e.1) e); [done|]. cbn [length]. lia.
Qed.

(** The scan over the entries [l] of a chunk finds exactly the entry of [token]. *)
Lemma scan_spec c token base l : forall fuel index previous current pre tail,
  base_minute c = base -> -2305843009213693952 <= base -> tc_rows c <= u32_max ->
  entries c = pre ++ enc base index previous l ++ tail -> (length l < fuel)%nat ->
  (index <> 0%nat -> current = previous) -> StronglySorted by_token l -> Forall (entry_fits base (tc_rows c)) l ->
  scan fuel c token (Z.of_nat (length pre + length (enc base index previous l))) current (enc base index previous l ++ tail) = Ok (assoc token l).
Proof.
  induction l as [|e l IH]; intros fuel index previous current pre tail Hbase Hlow Hrows Hent Hfuel Hcur Hsort Hfit;
    (destruct fuel as [|fuel]; [lia|]).
  - cbn. rewrite Hent. cbn. rewrite length_app. destruct (Z.ltb_spec (Z.of_nat (length pre + length tail - length tail)) (Z.of_nat (length pre + 0))); [lia|done].
  - apply Forall_cons in Hfit as [[Hmin Hcnt Hsum Hlen] Hfit].
    destruct (shared_at_spec index previous current e.1 Hcur) as (Hs1 & Hs2 & Hs3).
    unfold COUNT_TOKEN_MAX_BYTES in Hlen. cbn [enc] in *. set (sh := shared_at index previous e.1) in *.
    assert (Hpos : (0 < length (put_entry base sh e))%nat).
    { pose proof (put_entry_nonempty base sh e). destruct (put_entry base sh e); [done|cbn; lia]. }
    cbn [scan]. rewrite Hent.
    destruct (Z.ltb_spec (Z.of_nat (length (pre ++ (put_entry base sh e ++ enc base (S index) e.1 l) ++ tail) - length ((put_entry base sh e ++ enc base (S index) e.1 l) ++ tail)))
      (Z.of_nat (length pre + length (put_entry base sh e ++ enc base (S index) e.1 l)))) as [_|Hbad]; [|rewrite !length_app in Hbad; lia].
    rewrite <- !app_assoc, (put_entry_app base sh e (enc base (S index) e.1 l ++ tail)).
    rewrite get_put_varint by (apply nat_in_u64; lia). cbn [mbind result_bind].
    rewrite get_put_varint by (apply nat_in_u64; lia). cbn [mbind result_bind].
    eapply bind_intro; [apply ensure_intro; rewrite Z.leb_le; lia|]; cbn beta.
    rewrite cursor_take_app by (by rewrite length_drop). cbn [mbind result_bind]. rewrite Nat2Z.id, Hs3.
    rewrite get_put_varint by (unfold in_u64, u64_max, u32_max in *; lia). cbn [mbind result_bind].
    eapply bind_intro; [apply ensure_intro; rewrite Z.leb_le; lia|]; cbn beta. cbn [assoc].
    case_bool_decide as Heq.
    + rewrite (bool_decide_eq_true_2 (e.1 = token)) by done. rewrite Nat2Z.id, Hbase. eapply bind_intro; [by apply get_put_minutes|].
      eapply bind_intro; [apply ensure_intro; rewrite Z.leb_le; lia|done].
    + rewrite (bool_decide_eq_false_2 (e.1 = token)) by done. destruct (bytes_leb e.1 token) eqn:Hle.
      * replace (Z.to_nat (Z.of_nat (length e.2) * 2)) with (length e.2 + length e.2)%nat by lia.
        rewrite skip_put_minutes by done. cbn [mbind result_bind].
        inversion Hsort; subst.
        rewrite <- (IH fuel (S index) e.1 e.1 (pre ++ put_entry (base_minute c) sh e) tail); [|first [done|by rewrite Hent, <- !app_assoc|cbn in *; lia]..].
        f_equal. rewrite !length_app. lia.
      * symmetry. f_equal. pose proof (assoc_none_greater token e l Hsort Hle) as Hn. cbn in Hn. by rewrite bool_decide_eq_false_2 in Hn.
Qed.

(** ** The whole table *)

Definition enc_chunk (base : Z) (l : list Entry) : Bytes := enc base 0 [] l.
Fixpoint starts_at (base : Z) (at_byte : nat) (cs : list (list Entry)) : list Z :=
  match cs with [] => [] | l :: cs => wrap_u32 (Z.of_nat at_byte) :: starts_at base (at_byte + length (enc_chunk base l)) cs end.

Lemma enc_first base previous l : enc base 0 previous l = enc_chunk base l.
Proof. by destruct l. Qed.

Lemma mod_succ_small i k : (i mod 32 = k -> k < 31 -> S i mod 32 = S k)%nat.
Proof. intros <- Hk. rewrite (Nat.div_mod_eq i 32) at 1. rewrite <- Nat.add_succ_r, Nat.mul_comm, Nat.add_comm, Nat.Div0.mod_add. apply Nat.mod_small. lia. Qed.

Lemma put_entries_in base l : forall index k previous out starts more,
  (index mod RESTART_INTERVAL = k)%nat -> (0 < k)%nat -> (k + length l <= RESTART_INTERVAL)%nat ->
  exists previous', put_entries base index previous out starts (l ++ more) = put_entries base (index + length l) previous' (out ++ enc base k previous l) starts more.
Proof.
  unfold RESTART_INTERVAL. induction l as [|e l IH]; intros index k previous out starts more Hk Hpos Hle; cbn [app length put_entries enc].
  { exists previous. by rewrite app_nil_r, Nat.add_0_r. }
  unfold shared_at, RESTART_INTERVAL. cbn [length] in Hle. rewrite Hk. destruct (Nat.eqb_spec k 0); [lia|].
  destruct (Nat.eq_dec k 31%nat) as [->|].
  - assert (l = []) as -> by (destruct l; [done|cbn in Hle; lia]). exists e.1. cbn. by rewrite app_nil_r, Nat.add_1_r.
  - destruct (IH (S index) (S k) e.1 (out ++ put_entry base (shared_prefix previous e.1) e) starts more) as [p' E]; [apply mod_succ_small; lia|lia|lia|].
    exists p'. rewrite E, <- app_assoc. f_equal. lia.
Qed.

Lemma put_entries_chunk base l index previous out starts more :
  (index mod RESTART_INTERVAL = 0)%nat -> (1 <= length l <= RESTART_INTERVAL)%nat ->
  exists previous', put_entries base index previous out starts (l ++ more)
    = put_entries base (index + length l) previous' (out ++ enc_chunk base l) (starts ++ [wrap_u32 (Z.of_nat (length out))]) more.
Proof.
  destruct l as [|e l]; intros Hi Hl; [cbn in Hl; lia|]. unfold enc_chunk. cbn [app put_entries enc]. rewrite Hi. cbn [Nat.eqb].
  unfold shared_at. cbn [Nat.eqb length] in *.
  destruct (put_entries_in base l (S index) 1 e.1 (out ++ put_entry base 0 e) (starts ++ [wrap_u32 (Z.of_nat (length out))]) more) as [p' E].
  - unfold RESTART_INTERVAL in *. apply mod_succ_small; [done|lia].
  - lia.
  - lia.
  - exists p'. rewrite E, <- app_assoc. f_equal. lia.
Qed.

Lemma put_entries_chunks base fuel : forall l index previous out starts,
  (l = [] \/ (index mod RESTART_INTERVAL = 0)%nat) -> (length l <= fuel)%nat ->
  put_entries base index previous out starts l
  = (out ++ concat (enc_chunk base <$> chunks_aux fuel RESTART_INTERVAL l), starts ++ starts_at base (length out) (chunks_aux fuel RESTART_INTERVAL l)).
Proof.
  induction fuel as [|fuel IH]; intros l index previous out starts Hi Hlen.
  { destruct l; [cbn; by rewrite !app_nil_r|cbn in Hlen; lia]. }
  destruct l as [|e l]; [cbn; by rewrite !app_nil_r|]. destruct Hi as [?|Hi]; [done|].
  cbn [chunks_aux]. set (cut := take RESTART_INTERVAL (e :: l)). set (more := drop RESTART_INTERVAL (e :: l)).
  assert (Hcut : (1 <= length cut <= RESTART_INTERVAL)%nat) by (unfold cut, RESTART_INTERVAL; rewrite length_take; cbn [length]; lia).
  assert (Hmore : (length more <= fuel)%nat) by (unfold more, RESTART_INTERVAL; rewrite length_drop; cbn in *; lia).
  destruct (put_entries_chunk base cut index previous out starts more Hi Hcut) as [p' E].
  rewrite <- (take_drop RESTART_INTERVAL (e :: l)) at 1. fold cut more. rewrite E, IH.
  - cbn. rewrite length_app, <- !app_assoc. done.
  - destruct (decide (more = [])) as [->|Hne]; [by left|]. right.
    assert (length cut = RESTART_INTERVAL) as ->.
    { unfold cut, more in *. rewrite length_take. destruct (Nat.le_gt_cases RESTART_INTERVAL (length (e :: l))); [lia|].
      by rewrite drop_ge in Hne by lia. }
    unfold RESTART_INTERVAL in *. rewrite <- (Nat.mul_1_l 32%nat) at 1. by rewrite Nat.Div0.mod_add.
  - done.
Qed.

(** The restart of chunk [j] is where its bytes start. *)
Lemma starts_at_lookup base cs : forall at_byte j, (j < length cs)%nat ->
  nth j (starts_at base at_byte cs) 0 = wrap_u32 (Z.of_nat (at_byte + length (concat (enc_chunk base <$> take j cs)))).
Proof.
  induction cs as [|l cs IH]; intros at_byte [|j] Hj; cbn in *; [lia|lia|do 2 f_equal; lia|].
  rewrite IH by lia. rewrite length_app. do 2 f_equal. lia.
Qed.

Lemma length_starts_at base cs at_byte : length (starts_at base at_byte cs) = length cs.
Proof. revert at_byte; induction cs; intros; cbn; auto. Qed.

(** The first token of a chunk. *)
Definition chunk_head (l : list Entry) : Bytes := from_option fst [] (head l).

Lemma full_at_chunk c base j cs (e : Entry) (l : list Entry) restart :
  entries c = concat (enc_chunk base <$> cs) -> cs !! j = Some (e :: l) -> restart = Z.of_nat (length (concat (enc_chunk base <$> take j cs))) ->
  Z.of_nat (length e.1) <= COUNT_TOKEN_MAX_BYTES -> full_at c restart = Ok e.1.
Proof.
  intros Hent Hj -> Hlen. unfold full_at, COUNT_TOKEN_MAX_BYTES in *. rewrite Hent, Nat2Z.id.
  rewrite <- (take_drop_middle _ _ _ Hj) at 2. rewrite fmap_app, concat_app, drop_app_length. cbn.
  unfold enc_chunk at 1. cbn [enc]. unfold shared_at. cbn [Nat.eqb]. rewrite <- !app_assoc, put_entry_app, Nat.sub_0_r, drop_0.
  rewrite get_put_varint by (apply nat_in_u64; lia). cbn. rewrite get_put_varint by (apply nat_in_u64; lia). cbn.
  rewrite cursor_take_app by done. done.
Qed.

Lemma find_restart_spec c token n (heads : nat -> Bytes) fuel : forall low high,
  (forall j, (j < n)%nat -> full_at c (nth j (restarts c) 0) = Ok (heads j)) ->
  (low < high <= n)%nat -> (high - low <= fuel)%nat ->
  low = 0%nat \/ bytes_leb (heads low) token = true -> high = n \/ bytes_leb (heads high) token = false ->
  exists low', find_restart fuel c token low high = Ok low' /\ (low' < n)%nat
    /\ (low' = 0%nat \/ bytes_leb (heads low') token = true) /\ (S low' = n \/ bytes_leb (heads (S low')) token = false).
Proof.
  induction fuel as [|fuel IH]; intros low high Hfull Hlh Hf Hlow Hhigh; [lia|]. cbn [find_restart].
  destruct (Nat.ltb_spec 1 (high - low)).
  - set (mid := ((low + high) / 2)%nat).
    assert (Hmid : (low < mid < high)%nat).
    { unfold mid. split; [apply Nat.div_le_lower_bound; lia|apply Nat.Div0.div_lt_upper_bound; lia]. }
    rewrite Hfull by lia. cbn [mbind result_bind].
    destruct (bytes_leb (heads mid) token) eqn:E; apply IH; auto; lia.
  - exists low. assert (high = S low) as -> by lia. split_and!; [done|lia|done|done].
Qed.

Lemma assoc_app t a b : assoc t (a ++ b) = match assoc t a with Some v => Some v | None => assoc t b end.
Proof. induction a as [|e a IH]; cbn; [done|]. by case_bool_decide. Qed.

Lemma assoc_none t l : (forall e, e ∈ l -> e.1 <> t) -> assoc t l = None.
Proof. induction l as [|e l IH]; intros H; cbn; [done|]. rewrite bool_decide_eq_false_2; [|apply H; left]. apply IH. intros e' He. apply H. by right. Qed.

Lemma assoc_elem t v l : StronglySorted by_token l -> assoc t l = Some v <-> (t, v) ∈ l.
Proof.
  induction 1 as [|[t' v'] l Hs IH Hl]; cbn; [set_solver|]. rewrite Forall_forall in Hl. rewrite elem_of_cons.
  case_bool_decide as E; cbn in E; subst; [|rewrite IH; naive_solver].
  split; [intros [= ->]; by left|]. intros [[= ->]|Hin]; [done|]. apply Hl in Hin. unfold by_token in Hin. cbn in Hin.
  by apply bytes_ltb_spec in Hin as [_ Hne].
Qed.

Lemma StronglySorted_app_inv (a b : list Entry) :
  StronglySorted by_token (a ++ b) -> StronglySorted by_token a /\ StronglySorted by_token b /\ forall x y, x ∈ a -> y ∈ b -> by_token x y.
Proof.
  induction a as [|x a IH]; cbn; intros Hs; [split_and!; [constructor|done|set_solver]|].
  apply StronglySorted_inv in Hs as [Hs Hx]. destruct (IH Hs) as (Ha & Hb & Hab). apply Forall_app in Hx as [Hxa Hxb].
  split_and!; [by constructor|done|]. intros x' y [->|?]%elem_of_cons Hy; [|auto]. rewrite Forall_forall in Hxb. auto.
Qed.

Lemma by_token_leb a b t : by_token a b -> bytes_leb b.1 t = true -> a.1 <> t.
Proof. unfold by_token. intros [Hle Hne]%bytes_ltb_spec Hb <-. apply Hne. by apply bytes_leb_antisym. Qed.

(** The chunk a needle belongs to holds its entry, if the table does. *)
Lemma assoc_chunk token cs j l :
  StronglySorted by_token (concat cs) -> Forall (fun l => l <> []) cs -> cs !! j = Some l ->
  j = 0%nat \/ bytes_leb (chunk_head l) token = true ->
  (forall l', cs !! S j = Some l' -> bytes_leb (chunk_head l') token = false) ->
  assoc token (concat cs) = assoc token l.
Proof.
  intros Hs Hne Hj Hlow Hhigh. rewrite <- (take_drop_middle _ _ _ Hj) in Hs |- *.
  rewrite concat_app in Hs |- *. cbn [concat] in *. rewrite !assoc_app.
  apply StronglySorted_app_inv in Hs as (_ & Hs & Hbefore). apply StronglySorted_app_inv in Hs as (_ & Hlater & _).
  rewrite (assoc_none token (concat (take j cs))).
  - destruct (assoc token l) as [v|] eqn:E; [done|].
    destruct (drop (S j) cs) as [|l' more] eqn:Hd; [done|].
    assert (Hj' : cs !! S j = Some l') by (by rewrite <- (Nat.add_0_r (S j)), <- lookup_drop, Hd).
    pose proof (Hhigh _ Hj') as Hgt. rewrite Forall_forall in Hne.
    destruct l' as [|e l']; [by destruct (Hne []); [by eapply list_elem_of_lookup_2|]|]. cbn in Hgt.
    by apply (assoc_none_greater token e (l' ++ concat more)).
  - intros e He. destruct Hlow as [->|Hle]; [by apply elem_of_nil in He|].
    rewrite Forall_forall in Hne. destruct l as [|e' l]; [by destruct (Hne []); [by eapply list_elem_of_lookup_2|]|].
    eapply (by_token_leb e e'); [|done]. apply Hbefore; [done|]. set_solver.
Qed.

Section Table.
Context (c : TokenCounts) (base : Z) (cs : list (list Entry)).
Hypothesis (Hent : entries c = concat (enc_chunk base <$> cs)) (Hres : restarts c = starts_at base 0 cs)
  (Hne : Forall (fun l => l <> []) cs) (Hsize : Z.of_nat (length (entries c)) <= u32_max).

(** The bytes before, of and after a chunk. *)
Lemma table_split j ch : cs !! j = Some ch ->
  entries c = concat (enc_chunk base <$> take j cs) ++ enc_chunk base ch ++ concat (enc_chunk base <$> drop (S j) cs).
Proof using Hent. intros Hj. rewrite Hent. rewrite <- (take_drop_middle _ _ _ Hj) at 1. by rewrite fmap_app, concat_app. Qed.

Lemma table_restart j : (j < length cs)%nat -> nth j (restarts c) 0 = Z.of_nat (length (concat (enc_chunk base <$> take j cs))).
Proof using Hent Hres Hsize.
  intros Hj. rewrite Hres, starts_at_lookup by done. cbn. apply wrap_u32_id.
  assert (length (concat (enc_chunk base <$> take j cs)) <= length (entries c))%nat; [|unfold in_u32; lia].
  rewrite Hent. rewrite <- (take_drop j cs) at 2. rewrite fmap_app, concat_app, length_app. lia.
Qed.

(** Where the scan of a chunk stops. *)
Lemma table_stop j ch : cs !! j = Some ch ->
  match restarts c !! S j with Some next => next | None => Z.of_nat (length (entries c)) end
  = Z.of_nat (length (concat (enc_chunk base <$> take j cs)) + length (enc_chunk base ch)).
Proof using Hent Hres Hsize.
  intros Hj. assert (Hlen : length (restarts c) = length cs) by (by rewrite Hres, length_starts_at).
  destruct (restarts c !! S j) as [next|] eqn:Hnext.
  - pose proof (lookup_lt_Some _ _ _ Hnext) as Hs. apply nth_lookup_Some with (d := 0) in Hnext. rewrite table_restart in Hnext by lia. subst next.
    rewrite (take_S_r _ _ _ Hj), fmap_app, concat_app, length_app. cbn. by rewrite app_nil_r.
  - apply lookup_ge_None in Hnext. rewrite (table_split j ch), drop_ge by (done || lia). rewrite !length_app. cbn. lia.
Qed.

Lemma table_full j : Forall (entry_fits base (tc_rows c)) (concat cs) -> (j < length cs)%nat ->
  full_at c (nth j (restarts c) 0) = Ok (from_option chunk_head [] (cs !! j)).
Proof using All.
  intros Hfit Hj. destruct (lookup_lt_is_Some_2 cs j Hj) as [ch Hch]. rewrite Hch. cbn. rewrite Forall_forall in Hne. rewrite Forall_forall in Hfit.
  destruct ch as [|e ch]; [by destruct (Hne []); [by eapply list_elem_of_lookup_2|]|].
  apply (full_at_chunk c base j cs e ch); [done|done|by apply table_restart|]. apply (ef_len base (tc_rows c)), Hfit.
  apply elem_of_concat. exists (e :: ch). split; [by left|by eapply list_elem_of_lookup_2].
Qed.

(** The lookup over the chunks. *)
Lemma table_lookup token :
  base_minute c = base -> -2305843009213693952 <= base -> tc_rows c <= u32_max ->
  StronglySorted by_token (concat cs) -> Forall (entry_fits base (tc_rows c)) (concat cs) ->
  counts_lookup c token = Ok (assoc token (concat cs)).
Proof using All.
  intros Hbase Hlow Hrows Hsort Hfit. assert (Hlen : length (restarts c) = length cs) by (by rewrite Hres, length_starts_at).
  unfold counts_lookup. destruct (Nat.eqb_spec (length (restarts c)) 0) as [H0|Hpos].
  { rewrite Hlen in H0. apply nil_length_inv in H0. by rewrite H0. }
  destruct (find_restart_spec c token (length cs) (fun j => from_option chunk_head [] (cs !! j)) (length (restarts c)) 0 (length (restarts c)))
    as (low & -> & Hlt & Hlo & Hhi); [by intros; apply table_full|lia|lia|by left|left; lia|].
  destruct (lookup_lt_is_Some_2 cs low Hlt) as [ch Hch]. rewrite Hch in Hlo. cbn [from_option] in Hlo. cbn [mbind result_bind].
  rewrite (table_stop low ch Hch), table_restart, Nat2Z.id by done. rewrite (table_split low ch Hch) at 2. rewrite drop_app_length.
  rewrite (assoc_chunk token cs low ch); [|done..|].
  - assert (Hlch : concat cs = concat (take low cs) ++ ch ++ concat (drop (S low) cs)) by (by rewrite <- (take_drop_middle _ _ _ Hch) at 1; rewrite concat_app).
    rewrite Hlch in Hsort, Hfit. apply Forall_app in Hfit as [_ [Hfit _]%Forall_app]. apply StronglySorted_app_inv in Hsort as (_ & [Hsort _]%StronglySorted_app_inv & _).
    apply (scan_spec c token base ch (S (length (entries c))) 0 [] []); [done..|by apply table_split| |done|done|done].
    rewrite (table_split low ch Hch), !length_app. pose proof (enc_length base ch 0 []). unfold enc_chunk. lia.
  - intros l' Hl'. destruct Hhi as [Hlast|Hgt]; [|by rewrite Hl' in Hgt]. apply lookup_lt_Some in Hl'. lia.
Qed.
End Table.

Lemma chunks_nonempty {A} fuel (l : list A) : Forall (fun l => l <> []) (chunks_aux fuel RESTART_INTERVAL l).
Proof.
  apply Forall_forall. intros ch Hin. apply chunks_aux_size in Hin; [|unfold RESTART_INTERVAL; lia]. by destruct ch; [cbn in Hin; lia|].
Qed.

(** [lookup] of a table of sorted entries is the value of the token in the list. *)
Lemma counts_lookup_spec c base l token :
  base_minute c = base -> -2305843009213693952 <= base -> tc_rows c <= u32_max ->
  put_entries base 0 [] [] [] l = (entries c, restarts c) -> Z.of_nat (length (entries c)) <= u32_max ->
  StronglySorted by_token l -> Forall (entry_fits base (tc_rows c)) l ->
  counts_lookup c token = Ok (assoc token l).
Proof.
  intros Hbase Hlow Hrows Hput Hsize Hsort Hfit.
  rewrite (put_entries_chunks base (length l)) in Hput by (try (right; apply Nat.Div0.mod_0_l); lia).
  injection Hput as Hent Hres. cbn in Hent, Hres.
  rewrite <- (chunks_aux_concat (length l) RESTART_INTERVAL l) in Hsort, Hfit |- * by (unfold RESTART_INTERVAL; lia).
  apply (table_lookup c base); [done|done|apply chunks_nonempty|done..].
Qed.

(** ** Listed tokens fit the table *)

Lemma occurrences_pos m ms : 0 < occurrences m ms <-> m ∈ ms.
Proof.
  unfold occurrences. split.
  - destruct (filter (fun x => x = m) ms) as [|x l] eqn:E; [cbn; lia|]. intros _.
    assert (x ∈ filter (fun x => x = m) ms) as [<- ?]%list_elem_of_filter by (rewrite E; left). done.
  - intros Hin. destruct (filter (fun x => x = m) ms) as [|x l] eqn:E; [|cbn; lia].
    assert (m ∈ filter (fun x => x = m) ms) as Hm by (by apply list_elem_of_filter). rewrite E in Hm. by apply elem_of_nil in Hm.
Qed.

Lemma partition_length m ms : Z.of_nat (length ms) = occurrences m ms + Z.of_nat (length (filter (fun x => x <> m) ms)).
Proof. unfold occurrences. induction ms as [|x ms IH]; [done|]. rewrite !filter_cons. repeat case_decide; cbn; try lia; done. Qed.

Lemma occurrences_filter m m' ms : occurrences m' (filter (fun x => x <> m) ms) = if decide (m' = m) then 0 else occurrences m' ms.
Proof.
  unfold occurrences. induction ms as [|x ms IH]; [by case_decide|]. rewrite !filter_cons.
  repeat case_decide; subst; rewrite ?filter_cons; repeat case_decide; subst; cbn in *; try done; lia.
Qed.

(** A histogram adds up. *)
Lemma histogram_sum l : forall ms, histogram ms l -> sum_counts l = Z.of_nat (length ms).
Proof.
  induction l as [|[m n] l IH]; intros ms [Hs Hc]; [|change (sum_counts ((m, n) :: l)) with (n + sum_counts l)].
  - destruct ms as [|x ms]; [done|]. assert (Hx : (x, occurrences x (x :: ms)) ∈ ([] : list (Z * Z))).
    { apply Hc. split; [done|]. apply occurrences_pos. left. } by apply elem_of_nil in Hx.
  - apply StronglySorted_inv in Hs as [Hs Hm]. rewrite Forall_forall in Hm.
    assert (Hn : n = occurrences m ms /\ 0 < n) by (apply Hc; left).
    rewrite (IH (filter (fun x => x <> m) ms)); [rewrite (partition_length m ms); lia|].
    split; [done|]. intros m' n'. rewrite occurrences_filter. specialize (Hc m' n'). rewrite elem_of_cons in Hc.
    case_decide as E; subst; [|naive_solver]. split; [|lia]. intros Hin. apply Hm in Hin. unfold by_minute in Hin. cbn in Hin. lia.
Qed.

Lemma histogram_length ms l : histogram ms l -> (length l <= length ms)%nat.
Proof.
  intros Hh. pose proof (histogram_sum _ _ Hh) as Hsum. destruct Hh as [_ Hc].
  assert (Hpos : Forall (fun e => 1 <= e.2) l) by (apply Forall_forall; intros [m n] Hin; apply Hc in Hin; cbn; lia).
  assert (Z.of_nat (length l) <= sum_counts l); [|lia]. clear -Hpos. unfold sum_counts. induction Hpos; cbn in *; lia.
Qed.

Lemma histogram_fits base ms l :
  Z.of_nat (length ms) <= u32_max -> Forall (fun m => base <= m /\ -2305843009213693952 <= m <= 2305843009213693952) ms ->
  histogram ms l -> minutes_fit base l.
Proof.
  intros Hlen Hms [Hs Hc]. rewrite Forall_forall in Hms.
  assert (Hall : Forall (fun e => base <= e.1 /\ -2305843009213693952 <= e.1 <= 2305843009213693952 /\ 0 <= e.2 <= u32_max) l).
  { apply Forall_forall. intros [m n] [-> Hn]%Hc. cbn. pose proof (occurrences_le m ms). apply occurrences_pos, Hms in Hn. lia. }
  clear Hc Hms Hlen. revert base Hall. induction Hs as [|[m n] l Hs IH Hm]; intros base Hall; cbn; [done|].
  apply Forall_cons in Hall as [Hmn Hall]. cbn in Hmn. split_and!; [lia..|]. apply IH.
  rewrite Forall_forall in Hall, Hm |- *. intros [x y] Hin. specialize (Hall _ Hin). apply Hm in Hin. unfold by_minute in Hin. cbn in *. lia.
Qed.

Lemma listed_elem b t v : (t, v) ∈ listed b <-> exists a, cb_tokens b !! t = Some a /\ COUNT_THRESHOLD <= acc_rows a /\ v = acc_all a.
Proof.
  unfold listed. rewrite elem_of_sort_by, list_elem_of_fmap. split.
  - intros ([t' a] & [= -> ->] & [Ha Hin]%list_elem_of_filter). apply elem_of_map_to_list in Hin. eauto.
  - intros (a & Ha & Hr & ->). exists (t, a). split; [done|]. apply list_elem_of_filter. split; [done|]. by apply elem_of_map_to_list.
Qed.

Lemma sorted_strict l : NoDup l.*1 -> StronglySorted (fun a b => token_leb a b = true) l -> StronglySorted by_token l.
Proof.
  intros Hnd Hs. induction Hs as [|e l Hs IH He]; [constructor|]. cbn in Hnd. apply NoDup_cons in Hnd as [Hnin Hnd].
  constructor; [auto|]. rewrite Forall_forall in He |- *. intros e' Hin. apply bytes_ltb_spec. split; [by apply He|].
  intros E. apply Hnin. rewrite E. by apply list_elem_of_fmap_2.
Qed.

Lemma listed_sorted b : StronglySorted by_token (listed b).
Proof.
  apply sorted_strict.
  - unfold listed. rewrite (sort_by_perm token_leb), <- list_fmap_compose.
    apply (NoDup_fmap_fst (filter (fun e : Bytes * Acc => COUNT_THRESHOLD <= acc_rows e.2) (map_to_list (cb_tokens b)))).
    + intros t a a' [_ ?%elem_of_map_to_list]%list_elem_of_filter [_ ?%elem_of_map_to_list]%list_elem_of_filter. congruence.
    + apply NoDup_filter, NoDup_map_to_list.
  - apply sort_by_sorted; unfold token_leb; intros; [apply bytes_leb_total|by eapply bytes_leb_trans].
Qed.

(** ** End to end *)

(** The distinct tokens of a group. *)
Definition group_tokens (rows : list Row) : gset Bytes := list_to_set (concat (row_tokens <$> rows)).

Lemma tracked_group_tokens rows t a : tracked rows [] 0 t a -> t ∈ group_tokens rows.
Proof.
  intros [[_ Hc] _ _ _ _]. unfold seen_minutes in Hc. cbn in Hc. rewrite app_nil_r in Hc.
  destruct (acc_first a) as [m n] eqn:E. assert (Hin : (m, n) ∈ acc_all a) by (unfold acc_all; rewrite E; left).
  apply Hc in Hin as [-> Hpos]. apply occurrences_pos in Hpos. unfold minutes_of in Hpos.
  apply list_elem_of_fmap in Hpos as (r & _ & [Ht Hr]%list_elem_of_filter).
  apply elem_of_list_to_set, elem_of_concat. exists (row_tokens r). split; [done|]. by apply list_elem_of_fmap_2.
Qed.

Lemma tracked_size rows tokens : counted rows [] 0 tokens -> (size tokens <= size (group_tokens rows))%nat.
Proof.
  intros [Ht _]. rewrite <- (size_dom (D := gset Bytes)). apply subseteq_size. intros t [a Ha]%elem_of_dom.
  by eapply tracked_group_tokens, Ht.
Qed.

Lemma minute_range t : in_i64 t -> -2305843009213693952 <= t / MINUTE_US <= 2305843009213693952.
Proof.
  unfold in_i64, i64_min, i64_max, MINUTE_US. intros.
  split; [apply Z.div_le_lower_bound; lia|apply Z.div_le_upper_bound; lia].
Qed.

Lemma minutes_of_bound (P : Z -> Prop) t rows : Forall (fun r : Row => P (r.1 / MINUTE_US)) rows -> Forall P (minutes_of t rows).
Proof.
  rewrite !Forall_forall. intros H m (r & -> & [_ Hr]%list_elem_of_filter)%list_elem_of_fmap. by apply H.
Qed.

(** The listed entries of a group fit the table. *)
Lemma listed_fits rows base :
  Z.of_nat (length rows) <= u32_max -> Forall (fun r : Row => in_i64 r.1) rows -> Forall (fun r : Row => base <= r.1 / MINUTE_US) rows ->
  Forall (entry_fits base (Z.of_nat (length rows))) (listed (build rows)).
Proof.
  intros Hlen Htimes Hbase. destruct (build_counted rows Hlen) as (_ & [Ht _] & _).
  apply Forall_forall. intros [t v] (a & Ha & _ & ->)%listed_elem. destruct (Ht t a Ha) as [Hh _ _ _ Htl].
  assert (Hs : seen_minutes t rows [] 0 = minutes_of t rows) by (unfold seen_minutes; cbn; by rewrite app_nil_r). rewrite Hs in Hh.
  pose proof (minutes_of_length t rows) as Hml. pose proof (histogram_length _ _ Hh) as Hhl. pose proof (histogram_sum _ _ Hh) as Hsum.
  split; cbn [fst snd]; [|lia|lia|done].
  apply (histogram_fits _ (minutes_of t rows)); [lia| |done].
  apply minutes_of_bound. rewrite Forall_forall in Htimes, Hbase |- *. intros r Hr.
  split; [by apply Hbase|]. by apply minute_range, Htimes.
Qed.

(** C29: The counts table is exact: of the table built from a group's rows, looking up a token
    never fails; an answer is the histogram of the minutes of exactly the rows that hold the
    token in a body column (each once), and only tokens of at least 16 such rows are
    answered; no answer means fewer rows, a token over 128 bytes, or a group with a million
    distinct tokens. *)
Theorem counts_exact rows token :
  Z.of_nat (length rows) <= u32_max -> Forall (fun r : Row => in_i64 r.1) rows ->
  Z.of_nat (length (entries (cb_finish (build rows)))) <= u32_max ->
  match counts_lookup (cb_finish (build rows)) token with
  | Ok (Some out) => histogram (minutes_of token rows) out /\ COUNT_THRESHOLD <= Z.of_nat (length (minutes_of token rows))
  | Ok None => Z.of_nat (length (minutes_of token rows)) < COUNT_THRESHOLD \/ COUNT_TOKEN_MAX_BYTES < Z.of_nat (length token)
               \/ DISTINCT_CAP <= Z.of_nat (size (group_tokens rows))
  | Err _ => False
  end.
Proof.
  intros Hlen Htimes Hsize. destruct (build_counted rows Hlen) as (Hr & Hc & Hmin & Hlb).
  set (mn := (if cb_rows (build rows) =? 0 then (0, 0) else (cb_min_time_us (build rows), cb_max_time_us (build rows))).1).
  assert (Hmn : -2305843009213693952 <= mn / MINUTE_US /\ Forall (fun r : Row => mn / MINUTE_US <= r.1 / MINUTE_US) rows).
  { unfold mn. rewrite Hr. destruct rows as [|r rows]; [by split|]. destruct (Z.eqb_spec (Z.of_nat (length (r :: rows))) 0); [cbn in *; lia|]. cbn [fst].
    split; [apply minute_range; split|].
    - apply Hlb; [done|]. eapply Forall_impl; [exact Htimes|]. by intros x [? _].
    - apply Forall_cons in Hmin as [? _], Htimes as [[_ ?] _]. lia.
    - eapply Forall_impl; [exact Hmin|]. intros x Hx. by apply Z.div_le_mono. }
  destruct Hmn as [Hlow Hbase].
  assert (E : counts_lookup (cb_finish (build rows)) token = Ok (assoc token (listed (build rows)))).
  { assert (Hf : tc_rows (cb_finish (build rows)) = Z.of_nat (length rows) /\ base_minute (cb_finish (build rows)) = mn / MINUTE_US
      /\ put_entries (mn / MINUTE_US) 0 [] [] [] (listed (build rows)) = (entries (cb_finish (build rows)), restarts (cb_finish (build rows)))).
    { unfold cb_finish, mn. rewrite Hr. destruct (Z.of_nat (length rows) =? 0); cbn [fst]; by destruct (put_entries _ _ _ _ _ _). }
    destruct Hf as (Hf1 & Hf2 & Hf3).
    apply (counts_lookup_spec _ (mn / MINUTE_US)); rewrite ?Hf1; [done..|apply listed_sorted|by apply listed_fits]. }
  rewrite E. clear E. destruct Hc as [Ht Hm].
  assert (Hs : forall t, seen_minutes t rows [] 0 = minutes_of t rows) by (intros t; unfold seen_minutes; cbn; by rewrite app_nil_r).
  destruct (assoc token (listed (build rows))) as [out|] eqn:Ho.
  - apply assoc_elem, listed_elem in Ho as (a & Ha & Hthr & ->); [|apply listed_sorted]. destruct (Ht token a Ha) as [Hh Hrow _ _ _].
    rewrite Hs in Hh, Hrow. split; [done|]. lia.
  - destruct (cb_tokens (build rows) !! token) as [a|] eqn:Ha.
    + left. destruct (Z.le_gt_cases COUNT_THRESHOLD (acc_rows a)) as [Hthr|Hlt].
      * assert (Hin : (token, acc_all a) ∈ listed (build rows)) by (apply listed_elem; eauto).
        apply assoc_elem in Hin; [congruence|apply listed_sorted].
      * destruct (Ht token a Ha) as [_ Hrow _ _ _]. rewrite Hs in Hrow. lia.
    + destruct (Z.le_gt_cases (Z.of_nat (length token)) COUNT_TOKEN_MAX_BYTES) as [Hl|Hl]; [|by right; left].
      destruct (Hm token Ha Hl) as [Hnil|Hcap]; [left|right; right].
      * rewrite Hs in Hnil. rewrite Hnil. done.
      * assert (Hsz : (size (cb_tokens (build rows)) <= size (group_tokens rows))%nat) by (by apply tracked_size). lia.
Qed.

(** * The bytes of the table read back *)

(** What [decode] demands of a table. *)
Record table_ok (c : TokenCounts) : Prop := {
  tb_threshold : in_u32 (threshold c);
  tb_rows : in_u32 (tc_rows c);
  tb_times : in_i64 (min_time_us c) /\ in_i64 (max_time_us c) /\ in_i64 (base_minute c);
  tb_base : tc_rows c = 0 \/ min_time_us c <= max_time_us c /\ base_minute c = min_time_us c / MINUTE_US;
  tb_tokens : in_u32 (tc_tokens c);
  tb_count : Z.of_nat (length (restarts c)) = (tc_tokens c + (Z.of_nat RESTART_INTERVAL - 1)) / Z.of_nat RESTART_INTERVAL;
  tb_restarts : Forall in_u32 (restarts c);
  tb_order : match restarts c with x :: _ => x =? 0 | [] => true end && increasing (restarts c)
             && match last (restarts c) with Some x => x <? Z.of_nat (length (entries c)) | None => true end = true }.

Lemma tc_roundtrip c bs more : table_ok c -> tc_encode c = Ok bs -> tc_decode (tc_rows c) (bs ++ more) = Ok (c, more).
Proof.
  intros [Hthr Hrows (Hmn & Hmx & Hb) Hbase Htok Hcount Hrs Hord] He. unfold tc_encode in He.
  apply bind_ok_inv in He as (n1 & H1 & He). apply to_u32_inv in H1 as [-> H1]; [|lia].
  apply bind_ok_inv in He as (n2 & H2 & He). apply to_u32_inv in H2 as [-> H2]; [|lia].
  apply bind_ok_inv in He as (n3 & H3 & He). apply to_u32_inv in H3 as [-> H3]; [|lia]. apply Ok_inj in He as <-.
  unfold tc_decode. rewrite <- app_assoc. read_field. read_field; [done|]. unfold tc_body.
  do 2 read_field. pass_check; [apply Z.eqb_refl|]. do 3 read_field. rewrite !i64_bits by done.
  pass_check. { apply orb_true_iff. destruct Hbase as [->|[? ->]]; [by left|right]. rewrite Z.eqb_refl, andb_true_r. by apply Z.leb_le. }
  do 2 read_field. pass_check; [by apply Z.eqb_eq|]. read_field; [rewrite length_concat_le; lia|].
  rewrite (le_list_roundtrip 4); [|lia|by eapply Forall_impl; [exact Hrs|apply u32_range]]. read_field. eapply bind_intro; [by apply cursor_take_all|]; cbv beta iota.
  pass_check; [by apply bool_decide_eq_true_2|]. pass_check; [done|]. by destruct c.
Qed.

Lemma length_chunks_aux {A} fuel (l : list A) : (length l <= fuel)%nat ->
  Z.of_nat (length (chunks_aux fuel RESTART_INTERVAL l)) = (Z.of_nat (length l) + (Z.of_nat RESTART_INTERVAL - 1)) / Z.of_nat RESTART_INTERVAL.
Proof.
  change (Z.of_nat RESTART_INTERVAL) with 32. revert l; induction fuel as [|fuel IH]; intros l Hl; [by destruct l; [|cbn in Hl; lia]|].
  destruct l as [|x l]; [done|]. cbn [chunks_aux length]. rewrite Nat2Z.inj_succ, IH; rewrite length_drop; unfold RESTART_INTERVAL; cbn [length] in *; [|lia].
  destruct (Nat.le_gt_cases 32 (S (length l))).
  - replace (Z.of_nat (S (length l)) + (32 - 1)) with ((Z.of_nat (S (length l) - 32) + (32 - 1)) + 1 * 32) by lia. rewrite Z.div_add by lia. lia.
  - replace (S (length l) - 32)%nat with 0%nat by lia. rewrite (Z.div_small (Z.of_nat 0 + (32 - 1))) by lia.
    apply (Z.div_unique _ 32 _ (Z.of_nat (S (length l)) - 1)); lia.
Qed.

Lemma enc_chunk_nonempty base l : l <> [] -> (0 < length (enc_chunk base l))%nat.
Proof. intros Hl. pose proof (enc_length base l 0 []). unfold enc_chunk. destruct l; [done|cbn [length] in *; lia]. Qed.

Lemma starts_at_order base cs : forall at_byte,
  Forall (fun l => l <> []) cs -> Z.of_nat (at_byte + length (concat (enc_chunk base <$> cs))) <= u32_max ->
  Forall in_u32 (starts_at base at_byte cs) /\ increasing (starts_at base at_byte cs) = true
  /\ (forall x, head (starts_at base at_byte cs) = Some x -> x = Z.of_nat at_byte)
  /\ (forall x, last (starts_at base at_byte cs) = Some x -> x < Z.of_nat (at_byte + length (concat (enc_chunk base <$> cs)))).
Proof.
  induction cs as [|l cs IH]; intros at_byte Hne Hsz; cbn [starts_at]; [done|].
  apply Forall_cons in Hne as [Hl Hne]. pose proof (enc_chunk_nonempty base l Hl) as Hpos.
  cbn [fmap list_fmap concat] in Hsz |- *. rewrite length_app in Hsz |- *.
  destruct (IH (at_byte + length (enc_chunk base l))%nat Hne) as (Hu & Hi & Hh & Hla); [unfold fmap in *; lia|].
  assert (Hw : wrap_u32 (Z.of_nat at_byte) = Z.of_nat at_byte) by (apply wrap_u32_id; unfold in_u32; lia). rewrite Hw.
  destruct (starts_at base (at_byte + length (enc_chunk base l)) cs) as [|y ys] eqn:E.
  - split_and!; [by repeat constructor; unfold in_u32; lia|done|by intros ? [= <-]|]. intros x [= <-]. lia.
  - specialize (Hh y eq_refl). split_and!.
    + constructor; [unfold in_u32; lia|done].
    + cbn. cbn in Hi. rewrite Hi, andb_true_r. apply Z.ltb_lt. lia.
    + by intros ? [= <-].
    + intros x Hx. rewrite last_cons_cons in Hx. specialize (Hla x Hx). unfold fmap in *. lia.
Qed.

Lemma build_times rows : Forall (fun r : Row => in_i64 r.1) rows ->
  rows = [] /\ cb_min_time_us (build rows) = i64_max /\ cb_max_time_us (build rows) = i64_min
  \/ in_i64 (cb_min_time_us (build rows)) /\ in_i64 (cb_max_time_us (build rows)) /\ cb_min_time_us (build rows) <= cb_max_time_us (build rows).
Proof.
  induction rows as [|r rows IH] using rev_ind; intros Ht; [by left|]. right.
  apply Forall_app in Ht as [Ht Hr]. rewrite Forall_singleton in Hr. specialize (IH Ht).
  rewrite build_app. unfold build_row. destruct (add_texts_fields r.2 (cb_start_row r.1 (build rows))) as (_ & _ & -> & ->). cbn.
  unfold in_i64, i64_min, i64_max in *. lia.
Qed.

Lemma finish_table_ok rows :
  Z.of_nat (length rows) <= u32_max -> Forall (fun r : Row => in_i64 r.1) rows ->
  Z.of_nat (length (entries (cb_finish (build rows)))) <= u32_max -> table_ok (cb_finish (build rows)).
Proof.
  intros Hlen Htimes Hsize. destruct (build_counted rows Hlen) as (Hr & _). unfold cb_finish in *. rewrite Hr in *.
  set (mm := if Z.of_nat (length rows) =? 0 then (0, 0) else (cb_min_time_us (build rows), cb_max_time_us (build rows))) in *.
  assert (Hmm : in_i64 mm.1 /\ in_i64 mm.2 /\ mm.1 <= mm.2).
  { unfold mm. destruct (build_times rows Htimes) as [[-> _]|?]; [done|]. by destruct (Z.of_nat (length rows) =? 0). }
  destruct mm as [mn mx]. cbn [fst snd] in Hmm. set (l := listed (build rows)) in *.
  rewrite (put_entries_chunks _ (length l)) in Hsize |- * by (try (right; apply Nat.Div0.mod_0_l); lia).
  set (cs := chunks_aux (length l) RESTART_INTERVAL l) in *. cbn [app entries length] in *.
  assert (Hne : Forall (fun l => l <> []) cs) by apply chunks_nonempty.
  destruct (starts_at_order (mn / MINUTE_US) cs 0 Hne) as (Hu & Hi & Hh & Hla); [done|].
  assert (Hll : Z.of_nat (length l) <= u32_max).
  { assert (length l <= length (concat (enc_chunk (mn / MINUTE_US) <$> cs)))%nat; [|lia].
    rewrite <- (chunks_aux_concat (length l) RESTART_INTERVAL l) at 1 by (unfold RESTART_INTERVAL; lia). fold cs.
    clear. induction cs as [|ch cs IH]; cbn [fmap list_fmap concat]; [done|]. rewrite !length_app.
    pose proof (enc_length (mn / MINUTE_US) ch 0 []) as He. change (enc (mn / MINUTE_US) 0 [] ch) with (enc_chunk (mn / MINUTE_US) ch) in He. unfold fmap in *. lia. }
  split; cbn [threshold tc_rows min_time_us max_time_us base_minute tc_tokens restarts entries].
  - done.
  - unfold in_u32. lia.
  - split_and!; [apply Hmm..|]. destruct Hmm as [Hmn _]. apply minute_range in Hmn. unfold in_i64, i64_min, i64_max. lia.
  - right. split; [apply Hmm|done].
  - rewrite wrap_u32_id; unfold in_u32; lia.
  - rewrite length_starts_at, wrap_u32_id by (unfold in_u32; lia). by apply length_chunks_aux.
  - done.
  - rewrite Hi, andb_true_r. apply andb_true_iff. split.
    + destruct (starts_at _ _ _) as [|x xs]; [done|]. apply Z.eqb_eq, (Hh x eq_refl).
    + destruct (last (starts_at _ _ _)) as [x|]; [|done]. apply Z.ltb_lt, (Hla x eq_refl).
Qed.

Lemma counts_build_roundtrip rows bs more :
  Z.of_nat (length rows) <= u32_max -> Forall (fun r : Row => in_i64 r.1) rows -> tc_encode (cb_finish (build rows)) = Ok bs ->
  tc_decode (Z.of_nat (length rows)) (bs ++ more) = Ok (cb_finish (build rows), more).
Proof.
  intros Hlen Htimes He.
  assert (Hrows : tc_rows (cb_finish (build rows)) = Z.of_nat (length rows)).
  { destruct (build_counted rows Hlen) as (Hr & _). unfold cb_finish. rewrite Hr. by repeat case_match. }
  rewrite <- Hrows. apply tc_roundtrip; [|done]. apply finish_table_ok; [done..|].
  unfold tc_encode in He. apply bind_ok_inv in He as (n1 & _ & He). apply bind_ok_inv in He as (n2 & H2 & _).
  apply to_u32_inv in H2 as [_ H2]; [|lia]. apply H2.
Qed.

(** The section of the index file that stores a group's counts reads back as the table it
    was written from, for any rows, and nothing after the section is read. *)
Theorem counts_roundtrip rows bs more :
  Z.of_nat (length rows) <= u32_max -> Forall (fun r : Row => in_i64 r.1) rows -> tc_encode (cb_finish (build rows)) = Ok bs ->
  tc_decode (Z.of_nat (length rows)) (bs ++ more) = Ok (cb_finish (build rows), more).
Proof. apply counts_build_roundtrip. Qed.

(** * Examples *)

Module CountsExample.
(** Twenty rows over two minutes whose message holds [ab] and [cd]; one holds [ef]. *)
Definition ab : Bytes := [97; 98].
Definition row (i : nat) : Row := (Z.of_nat i * 5000000, [[65; 66; 46; 99; 100]; if (i =? 3)%nat then [101; 102] else [97; 98]]).
Definition rows : list Row := row <$> seq 0 20.
End CountsExample.

Lemma counts_exact_witness :
  counts_lookup (cb_finish (build CountsExample.rows)) CountsExample.ab = Ok (Some [(0, 12); (1, 8)])
  /\ histogram (minutes_of CountsExample.ab CountsExample.rows) [(0, 12); (1, 8)].
Proof.
  assert (E : counts_lookup (cb_finish (build CountsExample.rows)) CountsExample.ab = Ok (Some [(0, 12); (1, 8)])) by (vm_compute; reflexivity).
  split; [exact E|]. pose proof (counts_exact CountsExample.rows CountsExample.ab) as H. rewrite E in H.
  apply H; [by vm_compute|by apply (bool_decide_unpack _); vm_compute|by vm_compute].
Defined.

Lemma counts_roundtrip_witness :
  let bs := unwrap [] (tc_encode (cb_finish (build CountsExample.rows))) in
  tc_decode 20 (bs ++ [7]) = Ok (cb_finish (build CountsExample.rows), [7]).
Proof.
  intros bs. apply (counts_roundtrip CountsExample.rows bs [7]); [by vm_compute|by apply (bool_decide_unpack _); vm_compute|].
  apply unwrap_ok. vm_compute. reflexivity.
Defined.
