(* ===== verification/BlockIndex.v ===== *)
(** * BlockIndex: which blocks of a row group may hold a token

    Models [parts/block_index.rs]: 64-bit keys of tokens and (token, block) pairs, key sets,
    the builder that collects a group's pairs and block times, the query, and the bytes of
    the section. The fuse filters ([xorf]) and the hash ([twox_hash]) are parameters; of a
    filter the code relies only on its having no false negatives. *)
From S2P Require Import Prelude Bytes.

Definition BLOCK_ROWS : Z := 1024.
Definition COMMON_DIVISOR : Z := 4.
Definition EXACT_MAX : Z := 512.
Definition PAIR_CAP : Z := 16000000.
Definition KEY_SEED : Z := 7953759841736419633.

(** ** Hash and filters *)

(** [twox_hash::XxHash64]: the hash of bytes under a seed. *)
Class XxHash := xxhash64 : Z -> Bytes -> Z.

(** [xorf::Descriptor], [BinaryFuse8] and [BinaryFuse16] *)
Record Descriptor := { d_seed : Z; segment_length : Z; segment_length_mask : Z; segment_count_length : Z }.
Record BinaryFuse := { fu_descriptor : Descriptor; fingerprints : list Z }.

Class Xorf := {
  fuse8_try_from : list Z -> option BinaryFuse;
  fuse8_contains : BinaryFuse -> Z -> bool;
  fuse16_try_from : list Z -> option BinaryFuse;
  fuse16_contains : BinaryFuse -> Z -> bool }.
(** A filter built from keys contains them. *)
Class XorfLaws `{Xorf} := {
  fuse8_complete keys f k : fuse8_try_from keys = Some f -> k ∈ keys -> fuse8_contains f k = true;
  fuse16_complete keys f k : fuse16_try_from keys = Some f -> k ∈ keys -> fuse16_contains f k = true }.

Section Index.
Context `{XxHash, Xorf}.

(** [token_key] *)
Definition token_key (token : Bytes) : Z := xxhash64 KEY_SEED token.

(** [pair_key]: the splitmix64 finalizer. *)
Definition block_pair_key (token_key block : Z) : Z :=
  let z := Z.lxor token_key (wrap_u64 ((block + 1) * 11400714819323198485)) in
  let z := wrap_u64 (Z.lxor z (Z.shiftr z 30) * 13787848793156543929) in
  let z := wrap_u64 (Z.lxor z (Z.shiftr z 27) * 10723151780598845931) in
  Z.lxor z (Z.shiftr z 31).

Inductive KeySet := KEmpty | KAll | KExact (keys : list Z) | KFuse8 (f : BinaryFuse) | KFuse16 (f : BinaryFuse).

(** [KeySet::build] *)
Definition keyset_build (keys : list Z) (wide : bool) : KeySet :=
  let keys := dedup (sort_by Z.leb keys) in
  if bool_decide (keys = []) then KEmpty else
  if Z.of_nat (length keys) <=? EXACT_MAX then KExact keys else
  match (if wide then KFuse16 <$> fuse16_try_from keys else KFuse8 <$> fuse8_try_from keys) with
  | Some s => s
  | None => KAll
  end.

(** [KeySet::contains]; an exact set is sorted, so the binary search is membership. *)
Definition keyset_contains (s : KeySet) (key : Z) : bool :=
  match s with
  | KEmpty => false
  | KAll => true
  | KExact keys => bool_decide (key ∈ keys)
  | KFuse8 f => fuse8_contains f key
  | KFuse16 f => fuse16_contains f key
  end.

(** [times] holds the exact event-time range of every block. *)
Record BlockIndex := { block_rows : Z; times : list (Z * Z); common : KeySet; fine : KeySet }.

Definition blocks (i : BlockIndex) : nat := length (times i).

(** The loop of [blocks_with_all]. *)
Fixpoint blocks_loop (i : BlockIndex) (tokens : list Bytes) (keep : option (list bool)) : option (list bool) :=
  match tokens with
  | [] => keep
  | token :: tokens =>
      let key := token_key token in
      if keyset_contains (common i) key then blocks_loop i tokens keep else
      let found := (fun block => keyset_contains (fine i) (block_pair_key key (Z.of_nat block))) <$> seq 0 (blocks i) in
      blocks_loop i tokens (Some (match keep with None => found | Some prior => zip_with andb prior found end))
  end.
(** [BlockIndex::blocks_with_all] *)
Definition blocks_with_all (i : BlockIndex) (tokens : list Bytes) : option (list bool) :=
  if bool_decide (tokens = []) || match fine i with KAll => true | _ => false end then None
  else blocks_loop i tokens None.

(** [BlockIndex::block_rows_range] *)
Definition block_rows_range (i : BlockIndex) (block rows : Z) : Z * Z :=
  let start := Z.min (wrap_u64 (block * block_rows i)) rows in (start, Z.min (wrap_u64 (start + block_rows i)) rows).

(** ** Building *)

Record BlockBuilder := {
  bb_block_rows : Z; rows_in_block : Z; current : gset Z; bb_pairs : list (Z * Z); bb_times : list (Z * Z); bb_overflow : bool }.

(** [BlockBuilder::new] *)
Definition BlockBuilder_new (block_rows : Z) : BlockBuilder :=
  {| bb_block_rows := block_rows; rows_in_block := 0; current := ∅; bb_pairs := []; bb_times := []; bb_overflow := false |}.

(** [BlockBuilder::seal_block] *)
Definition seal_block (b : BlockBuilder) : BlockBuilder :=
  match bb_times b with
  | [] => b
  | _ =>
      let block := wrap_u32 (Z.of_nat (length (bb_times b)) - 1) in
      let over := negb (bb_overflow b) && (PAIR_CAP <? Z.of_nat (length (bb_pairs b) + size (current b))) in
      let overflow := bb_overflow b || over in
      let pairs := if over then [] else bb_pairs b in
      {| bb_block_rows := bb_block_rows b; rows_in_block := rows_in_block b; current := ∅;
         bb_pairs := if overflow then pairs else pairs ++ ((fun key => (key, block)) <$> elements (current b));
         bb_times := bb_times b; bb_overflow := overflow |}
  end.

(** Widen the last block's time range. *)
Definition note_time (time_us : Z) (r : Z * Z) : Z * Z := (Z.min r.1 time_us, Z.max r.2 time_us).

(** [BlockBuilder::start_row] *)
Definition block_start_row (time_us : Z) (b : BlockBuilder) : BlockBuilder :=
  let b :=
    if bool_decide (bb_times b = []) || (rows_in_block b =? bb_block_rows b) then
      let b := seal_block b in
      {| bb_block_rows := bb_block_rows b; rows_in_block := 0; current := current b; bb_pairs := bb_pairs b;
         bb_times := bb_times b ++ [(time_us, time_us)]; bb_overflow := bb_overflow b |}
    else b in
  {| bb_block_rows := bb_block_rows b; rows_in_block := wrap_u32 (rows_in_block b + 1); current := current b; bb_pairs := bb_pairs b;
     bb_times := alter (note_time time_us) (Nat.pred (length (bb_times b))) (bb_times b); bb_overflow := bb_overflow b |}.

(** [BlockBuilder::add_token] *)
Definition add_token (token : Bytes) (b : BlockBuilder) : BlockBuilder :=
  if bb_overflow b then b else
  {| bb_block_rows := bb_block_rows b; rows_in_block := rows_in_block b; current := {[token_key token]} ∪ current b;
     bb_pairs := bb_pairs b; bb_times := bb_times b; bb_overflow := bb_overflow b |}.

(** [pairs.sort_unstable()] *)
Definition pair_leb (a b : Z * Z) : bool := (a.1 <? b.1) || ((a.1 =? b.1) && (a.2 <=? b.2)).

(** The pairs of the first token. *)
Fixpoint take_key (key : Z) (l : list (Z * Z)) : list (Z * Z) * list (Z * Z) :=
  match l with
  | e :: l' => if e.1 =? key then let '(a, b) := take_key key l' in (e :: a, b) else ([], l)
  | [] => ([], [])
  end.
(** The grouping loop of [finish]; each round takes at least one pair. *)
Fixpoint split_keys (fuel : nat) (nblocks : Z) (l : list (Z * Z)) (cm fn : list Z) : list Z * list Z :=
  match fuel, l with
  | S fuel, (key, _) :: _ =>
      let '(run, more) := take_key key l in
      if (nblocks / COMMON_DIVISOR <? Z.of_nat (length run)) && (COMMON_DIVISOR <=? nblocks)
      then split_keys fuel nblocks more (cm ++ [key]) fn
      else split_keys fuel nblocks more cm (fn ++ ((fun e => block_pair_key e.1 e.2) <$> run))
  | _, _ => (cm, fn)
  end.

(** [BlockBuilder::finish] *)
Definition block_finish (b : BlockBuilder) : BlockIndex :=
  let b := seal_block b in
  if bb_overflow b then {| block_rows := bb_block_rows b; times := bb_times b; common := KEmpty; fine := KAll |} else
  let pairs := sort_by pair_leb (bb_pairs b) in
  let '(cm, fn) := split_keys (length pairs) (Z.of_nat (length (bb_times b))) pairs [] [] in
  {| block_rows := bb_block_rows b; times := bb_times b; common := keyset_build cm true; fine := keyset_build fn false |}.

(** A row of a group: its event time and the tokens added for it. *)
Notation "'BRow'" := (Z * list Bytes)%type.
Definition block_row (b : BlockBuilder) (r : BRow) : BlockBuilder := foldl (fun b t => add_token t b) (block_start_row r.1 b) r.2.
Definition block_build (n : Z) (rows : list BRow) : BlockBuilder := foldl block_row (BlockBuilder_new n) rows.

(** ** Bytes *)

Definition TAG_EMPTY : Z := 0.
Definition TAG_ALL : Z := 1.
Definition TAG_EXACT : Z := 2.
Definition TAG_FUSE8 : Z := 3.
Definition TAG_FUSE16 : Z := 4.

(** [encode_descriptor] *)
Definition encode_descriptor (d : Descriptor) : Bytes :=
  le_bytes 8 (d_seed d) ++ le_bytes 4 (segment_length d) ++ le_bytes 4 (segment_length_mask d) ++ le_bytes 4 (segment_count_length d).

(** [u32::is_power_of_two] *)
Definition is_power_of_two (z : Z) : bool := (0 <? z) && (Z.land z (z - 1) =? 0).
Definition descriptor_valid (d : Descriptor) : bool :=
  is_power_of_two (segment_length d) && (segment_length_mask d =? segment_length d - 1)
  && (0 <? segment_count_length d) && (segment_count_length d mod segment_length d =? 0).

(** [decode_descriptor] *)
Definition decode_descriptor (cur : Bytes) : result IndexError (Descriptor * Bytes) :=
  '(seed, cur) ← cursor_le 8 cur;
  '(len, cur) ← cursor_le 4 cur;
  '(mask, cur) ← cursor_le 4 cur;
  '(count, cur) ← cursor_le 4 cur;
  let d := {| d_seed := seed; segment_length := len; segment_length_mask := mask; segment_count_length := count |} in
  _ ← ensure (descriptor_valid d) (Invalid "fuse filter descriptor is invalid");
  Ok (d, cur).

(** [KeySet::encode]; [k] bytes per fingerprint. *)
Definition encode_fuse (tag : Z) (k : nat) (f : BinaryFuse) : result IndexError Bytes :=
  n ← to_u32 (Z.of_nat (length (fingerprints f)));
  Ok ([tag] ++ encode_descriptor (fu_descriptor f) ++ le_bytes 4 n ++ concat (le_bytes k <$> fingerprints f)).
Definition keyset_encode (s : KeySet) : result IndexError Bytes :=
  match s with
  | KEmpty => Ok [TAG_EMPTY]
  | KAll => Ok [TAG_ALL]
  | KExact keys => n ← to_u32 (Z.of_nat (length keys)); Ok ([TAG_EXACT] ++ le_bytes 4 n ++ concat (le_bytes 8 <$> keys))
  | KFuse8 f => encode_fuse TAG_FUSE8 1 f
  | KFuse16 f => encode_fuse TAG_FUSE16 2 f
  end.

(** Every probe index of a filter is below this. *)
Definition fuse_needed (d : Descriptor) : Z := segment_count_length d + 2 * segment_length d.
(** The fuse arms of [KeySet::decode]. *)
Definition decode_fuse (k : nat) (cur : Bytes) : result IndexError (BinaryFuse * Bytes) :=
  '(d, cur) ← decode_descriptor cur;
  '(n, cur) ← cursor_le 4 cur;
  _ ← ensure (fuse_needed d <=? n) (Invalid "fuse filter is shorter than its descriptor");
  '(bs, cur) ← cursor_take (n * Z.of_nat k) cur;
  Ok ({| fu_descriptor := d; fingerprints := of_le <$> chunks k bs |}, cur).
(** [KeySet::decode] *)
Definition keyset_decode (cur : Bytes) : result IndexError (KeySet * Bytes) :=
  '(tag, cur) ← cursor_le 1 cur;
  if tag =? TAG_EMPTY then Ok (KEmpty, cur) else
  if tag =? TAG_ALL then Ok (KAll, cur) else
  if tag =? TAG_EXACT then
    '(n, cur) ← cursor_le 4 cur;
    '(bs, cur) ← cursor_take (n * 8) cur;
    let keys := of_le <$> chunks 8 bs in
    _ ← ensure (increasing keys) (Invalid "exact key set is not sorted");
    Ok (KExact keys, cur) else
  if tag =? TAG_FUSE8 then '(f, cur) ← decode_fuse 1 cur; Ok (KFuse8 f, cur) else
  if tag =? TAG_FUSE16 then '(f, cur) ← decode_fuse 2 cur; Ok (KFuse16 f, cur) else
  Err (Invalid "unknown key set tag").

(** A time range on disk. *)
Definition encode_time (p : Z * Z) : Bytes := le_bytes 8 (wrap_u64 p.1) ++ le_bytes 8 (wrap_u64 p.2).
(** [BlockIndex::encode] *)
Definition block_encode (i : BlockIndex) : result IndexError Bytes :=
  n ← to_u32 (Z.of_nat (length (times i)));
  cm ← keyset_encode (common i);
  fn ← keyset_encode (fine i);
  Ok (le_bytes 4 n ++ concat (encode_time <$> times i) ++ cm ++ fn).

Fixpoint decode_times (n : nat) (cur : Bytes) : result IndexError (list (Z * Z) * Bytes) :=
  match n with
  | O => Ok ([], cur)
  | S n =>
      '(mn, cur) ← cursor_le 8 cur;
      '(mx, cur) ← cursor_le 8 cur;
      _ ← ensure (wrap_i64 mn <=? wrap_i64 mx) (Invalid "block time range is inverted");
      '(l, cur) ← decode_times n cur;
      Ok ((wrap_i64 mn, wrap_i64 mx) :: l, cur)
  end.
(** [BlockIndex::decode] *)
Definition block_decode (n rows : Z) (cur : Bytes) : result IndexError (BlockIndex * Bytes) :=
  '(nblocks, cur) ← cursor_le 4 cur;
  _ ← ensure (nblocks =? (rows + (n - 1)) / n) (Invalid "block index does not cover the group");
  '(ts, cur) ← decode_times (Z.to_nat nblocks) cur;
  '(cm, cur) ← keyset_decode cur;
  '(fn, cur) ← keyset_decode cur;
  Ok ({| block_rows := n; times := ts; common := cm; fine := fn |}, cur).

(** * No false negatives *)

Lemma elem_of_take_key key l e : e ∈ l -> e ∈ (take_key key l).1 \/ e ∈ (take_key key l).2.
Proof.
  induction l as [|x l IH]; cbn; [set_solver|]. destruct (x.1 =? key); [|by right].
  destruct (take_key key l) as [a b]. cbn in *. set_solver.
Qed.

Lemma take_key_length key l : (length (take_key key l).2 <= length l)%nat.
Proof. induction l as [|x l IH]; cbn; [done|]. destruct (x.1 =? key); [|done]. destruct (take_key key l). cbn in *. lia. Qed.

Lemma take_key_same key l e : e ∈ (take_key key l).1 -> e.1 = key.
Proof.
  induction l as [|x l IH]; cbn; [set_solver|]. destruct (Z.eqb_spec x.1 key); [|set_solver].
  destruct (take_key key l). cbn in *. set_solver.
Qed.

(** Every pair ends in one of the two sets. *)
Lemma split_keys_complete fuel : forall nblocks l cm fn, (length l <= fuel)%nat ->
  let '(cm', fn') := split_keys fuel nblocks l cm fn in
  cm ⊆ cm' /\ fn ⊆ fn' /\ forall e, e ∈ l -> e.1 ∈ cm' \/ block_pair_key e.1 e.2 ∈ fn'.
Proof.
  induction fuel as [|fuel IH]; intros nblocks l cm fn Hl; [destruct l; [cbn; set_solver|cbn in Hl; lia]|].
  destruct l as [|[key b] l]; cbn [split_keys]; [set_solver|].
  destruct (take_key key ((key, b) :: l)) as [run more] eqn:E.
  assert (Hmore : (length more <= fuel)%nat).
  { cbn in E. rewrite Z.eqb_refl in E. pose proof (take_key_length key l). destruct (take_key key l). simplify_eq/=. lia. }
  assert (Hrun : forall e, e ∈ (key, b) :: l -> e ∈ run /\ e.1 = key \/ e ∈ more).
  { intros e He. apply (elem_of_take_key key) in He. rewrite E in He. destruct He as [He|He]; [left; split; [done|]|by right].
    apply (take_key_same key ((key, b) :: l)). by rewrite E. }
  destruct (_ && _).
  - specialize (IH nblocks more (cm ++ [key]) fn Hmore). destruct (split_keys _ _ _ _ _) as [cm' fn']. destruct IH as (Hc & Hf & He).
    split_and!; [set_solver|done|]. intros e [[_ ->]|Hm]%Hrun; [left; set_solver|auto].
  - specialize (IH nblocks more cm (fn ++ ((fun e => block_pair_key e.1 e.2) <$> run)) Hmore).
    destruct (split_keys _ _ _ _ _) as [cm' fn']. destruct IH as (Hc & Hf & He).
    split_and!; [done|set_solver|]. intros e [[Hr _]|Hm]%Hrun; [right|auto].
    apply Hf, elem_of_app. right. apply list_elem_of_fmap. eauto.
Qed.

(** ** The builder *)

Record bb_inv (n : Z) (rows : list BRow) (b : BlockBuilder) : Prop := {
  bi_rows : bb_block_rows b = n;
  bi_len : match length (bb_times b) with
           | O => rows = []
           | S q => Z.of_nat (length rows) = n * Z.of_nat q + rows_in_block b /\ 1 <= rows_in_block b <= n
           end;
  bi_tokens : bb_overflow b = false -> forall i r t, rows !! i = Some r -> t ∈ r.2 ->
    (Z.of_nat i / n = Z.of_nat (length (bb_times b)) - 1 /\ token_key t ∈ current b) \/ (token_key t, Z.of_nat i / n) ∈ bb_pairs b;
  bi_times : forall i r, rows !! i = Some r -> exists p, bb_times b !! Z.to_nat (Z.of_nat i / n) = Some p /\ p.1 <= r.1 <= p.2 }.

(** The block of a row is among those opened. *)
Lemma row_block n rows b i : 0 < n -> bb_inv n rows b -> (i < length rows)%nat -> 0 <= Z.of_nat i / n < Z.of_nat (length (bb_times b)).
Proof.
  intros Hn [_ Hlen _ _] Hi. split; [apply Z.div_pos; lia|]. destruct (length (bb_times b)) as [|q]; [subst rows; cbn in Hi; lia|].
  apply Z.div_lt_upper_bound; [lia|]. nia.
Qed.

Lemma seal_fields b : bb_block_rows (seal_block b) = bb_block_rows b /\ bb_times (seal_block b) = bb_times b /\ rows_in_block (seal_block b) = rows_in_block b.
Proof. unfold seal_block. by destruct (bb_times b) eqn:E; rewrite ?E. Qed.

(** Sealing moves the open block's tokens to the pairs. *)
Lemma seal_complete n rows b : 0 < n -> Z.of_nat (length rows) <= u32_max -> bb_inv n rows b -> bb_overflow (seal_block b) = false ->
  forall i r t, rows !! i = Some r -> t ∈ r.2 -> (token_key t, Z.of_nat i / n) ∈ bb_pairs (seal_block b).
Proof.
  intros Hn Hsz Hinv Hov i r t Hi Ht. pose proof (row_block n rows b i Hn Hinv (lookup_lt_Some _ _ _ Hi)) as Hb.
  destruct Hinv as [_ Hlen Htok _]. unfold seal_block in *. destruct (bb_times b) as [|p ps] eqn:E; [cbn in Hb; lia|]. rewrite <- E in *. clear E p ps.
  cbn in Hov |- *. apply orb_false_iff in Hov as [Ho Hover]. rewrite Hover, Ho. cbn.
  destruct (Htok Ho i r t Hi Ht) as [[Hq Hc]|Hp]; apply elem_of_app; [right|by left].
  apply list_elem_of_fmap. exists (token_key t). split; [|by apply elem_of_elements]. f_equal. rewrite Hq.
  symmetry. apply wrap_u32_id. destruct (length (bb_times b)) as [|q]; [subst; done|]. unfold in_u32. nia.
Qed.

(** The last row is in the open block. *)
Lemma last_row_block n rows r b : 0 < n -> bb_inv n (rows ++ [r]) b -> Z.of_nat (length rows) / n = Z.of_nat (length (bb_times b)) - 1.
Proof.
  intros Hn [_ Hlen _ _]. rewrite length_app in Hlen. destruct (length (bb_times b)) as [|q]; [by destruct rows|]. cbn in Hlen.
  symmetry. apply (Z.div_unique _ n _ (rows_in_block b - 1)); nia.
Qed.

Lemma snoc_row_lookup {A} (rows : list A) x i r : (rows ++ [x]) !! i = Some r -> rows !! i = Some r \/ i = length rows /\ r = x.
Proof. intros [?|[Hge Hi]]%lookup_app_Some; [by left|right]. apply list_lookup_singleton_Some in Hi as [? <-]. split; [lia|done]. Qed.

(** Opening the first or a further block. *)
Lemma new_block_inv n rows time b :
  0 < n -> Z.of_nat (length rows) < u32_max -> bb_inv n rows b -> bb_times b = [] \/ rows_in_block b = n ->
  bb_inv n (rows ++ [(time, [])]) {| bb_block_rows := bb_block_rows (seal_block b); rows_in_block := 1; current := current (seal_block b);
    bb_pairs := bb_pairs (seal_block b); bb_times := bb_times (seal_block b) ++ [(time, time)]; bb_overflow := bb_overflow (seal_block b) |}.
Proof.
  intros Hn Hsz Hinv Hfull. destruct (seal_fields b) as (Hr & Ht & _).
  assert (Hq : Z.of_nat (length rows) = n * Z.of_nat (length (bb_times b))).
  { destruct Hinv as [_ Hlen _ _]. destruct (length (bb_times b)) as [|q] eqn:E; [subst; cbn; lia|].
    destruct Hfull as [Hf|Hf]; [by rewrite Hf in E|]. rewrite Hf in Hlen. lia. }
  split; cbn.
  - rewrite Hr. apply (bi_rows _ _ _ Hinv).
  - rewrite Ht, length_app, length_app; cbn. rewrite Nat.add_1_r. lia.
  - intros Hov i r t Hi Hin. apply snoc_row_lookup in Hi as [Hi|[-> ->]]; [right|by apply elem_of_nil in Hin].
    by apply (seal_complete n rows b) with r; try lia.
  - intros i r Hi. rewrite Ht. apply snoc_row_lookup in Hi as [Hi|[-> ->]].
    + destruct (bi_times _ _ _ Hinv i r Hi) as (p & Hp & Hle). exists p. split; [|done]. by apply lookup_app_l_Some.
    + exists (time, time). cbn. split; [|lia]. rewrite Hq, Z.mul_comm, Z.div_mul, Nat2Z.id by lia. by rewrite lookup_app_r, Nat.sub_diag by lia.
Qed.

Lemma start_row_inv n rows time b :
  0 < n <= u32_max -> Z.of_nat (length rows) < u32_max -> bb_inv n rows b -> bb_inv n (rows ++ [(time, [])]) (block_start_row time b).
Proof.
  intros Hn Hsz Hinv. unfold block_start_row. rewrite (bi_rows _ _ _ Hinv).
  destruct (bool_decide (bb_times b = []) || (rows_in_block b =? n)) eqn:E.
  - pose proof (new_block_inv n rows time b ltac:(lia) Hsz Hinv) as Hnew. cbn.
    assert (Hfull : bb_times b = [] \/ rows_in_block b = n) by (apply orb_true_iff in E as [?%bool_decide_eq_true|?%Z.eqb_eq]; auto).
    specialize (Hnew Hfull). rewrite length_app. cbn. rewrite Nat.add_1_r. cbn.
    rewrite <- (Nat.add_0_r (length (bb_times (seal_block b)))) at 1. rewrite alter_app_r. cbn. unfold note_time; cbn. by rewrite Z.min_id, Z.max_id.
  - apply orb_false_iff in E as [Hne%bool_decide_eq_false Hrib%Z.eqb_neq].
    destruct Hinv as [Hr Hlen Htok Htimes]. destruct (length (bb_times b)) as [|q] eqn:Hq; [by apply nil_length_inv in Hq|].
    split; cbn; rewrite ?length_alter, ?Hq.
    + done.
    + rewrite length_app, wrap_u32_id by (unfold in_u32; lia). cbn. lia.
    + intros Hov i r t Hi Hin. apply snoc_row_lookup in Hi as [Hi|[-> ->]]; [by apply (Htok Hov i r t)|by apply elem_of_nil in Hin].
    + assert (Hwide : forall j p, bb_times b !! j = Some p -> exists p', alter (note_time time) q (bb_times b) !! j = Some p' /\ p'.1 <= p.1 /\ p.2 <= p'.2 /\ (j = q -> p'.1 <= time <= p'.2)).
      { intros j p Hp. destruct (decide (j = q)) as [->|Hj].
        - exists (note_time time p). rewrite list_lookup_alter_eq, Hp. cbn. split; [done|lia].
        - exists p. rewrite list_lookup_alter_ne by done. split; [done|]. lia. }
      cbn. intros i r Hi. apply snoc_row_lookup in Hi as [Hi|[-> ->]].
      * destruct (Htimes i r Hi) as (p & Hp & Hle). destruct (Hwide _ _ Hp) as (p' & ? & ? & ? & _). exists p'. split; [done|lia].
      * assert (Hblock : Z.of_nat (length rows) / n = Z.of_nat q) by (symmetry; apply (Z.div_unique _ n _ (rows_in_block b)); lia).
        rewrite Hblock, Nat2Z.id. destruct (lookup_lt_is_Some_2 (bb_times b) q) as [p Hp]; [lia|].
        destruct (Hwide _ _ Hp) as (p' & ? & _ & _ & Ht). exists p'. split; [done|by apply Ht].
Qed.

Lemma add_token_inv n rows time ts t b : 0 < n -> bb_inv n (rows ++ [(time, ts)]) b -> bb_inv n (rows ++ [(time, ts ++ [t])]) (add_token t b).
Proof.
  intros Hn Hinv. pose proof (last_row_block n rows _ b Hn Hinv) as Hlast. destruct Hinv as [Hr Hlen Htok Htimes].
  assert (Hold : forall i r, (rows ++ [(time, ts ++ [t])]) !! i = Some r ->
    exists r', (rows ++ [(time, ts)]) !! i = Some r' /\ r.1 = r'.1 /\ (r.2 = r'.2 \/ i = length rows /\ r.2 = r'.2 ++ [t])).
  { intros i r Hi. apply snoc_row_lookup in Hi as [Hi|[-> ->]]; [exists r; split; [by apply lookup_app_l_Some|auto]|].
    exists (time, ts). rewrite lookup_app_r, Nat.sub_diag by lia. auto. }
  assert (Hlen' : match length (bb_times b) with O => rows ++ [(time, ts ++ [t])] = []
    | S q => Z.of_nat (length (rows ++ [(time, ts ++ [t])])) = n * Z.of_nat q + rows_in_block b /\ 1 <= rows_in_block b <= n end).
  { rewrite length_app in Hlen |- *. destruct (length (bb_times b)); [by destruct rows|done]. }
  unfold add_token. destruct (bb_overflow b) eqn:Hov; (split; cbn; [done|done| |]).
  - congruence.
  - intros i r (r' & Hi & -> & _)%Hold. by apply Htimes.
  - intros _ i r u Hi Hu. destruct (Hold i r Hi) as (r' & Hi' & _ & [E|[-> E]]); rewrite E in Hu.
    + destruct (Htok eq_refl i r' u Hi' Hu) as [[? ?]|?]; [left; set_solver|by right].
    + apply elem_of_app in Hu as [Hu| ->%list_elem_of_singleton]; [|left; set_solver].
      destruct (Htok eq_refl _ r' u Hi' Hu) as [[? ?]|?]; [left; set_solver|by right].
  - intros i r (r' & Hi & -> & _)%Hold. by apply Htimes.
Qed.

Lemma build_inv n rows : 0 < n <= u32_max -> Z.of_nat (length rows) <= u32_max -> bb_inv n rows (block_build n rows).
Proof.
  intros Hn. induction rows as [|[time ts] rows IH] using rev_ind; intros Hsz; [by split|].
  rewrite length_app in Hsz; cbn in Hsz. unfold block_build in *. rewrite foldl_app. cbn. unfold block_row; cbn.
  assert (Hgen : forall us vs b, bb_inv n (rows ++ [(time, us)]) b -> bb_inv n (rows ++ [(time, us ++ vs)]) (foldl (fun b t => add_token t b) b vs)).
  { intros us vs. revert us. induction vs as [|v vs IHv]; intros us b Hb; cbn; [by rewrite app_nil_r|].
    change (v :: vs) with ([v] ++ vs). rewrite app_assoc. apply IHv. by apply add_token_inv; [lia|]. }
  apply (Hgen [] ts). apply start_row_inv; [done|lia|]. apply IH. lia.
Qed.

(** ** Queries *)

Context `{!XorfLaws}.

Lemma keyset_build_complete keys wide k : k ∈ keys -> keyset_contains (keyset_build keys wide) k = true.
Proof.
  intros Hk. assert (Hk' : k ∈ dedup (sort_by Z.leb keys)) by (by apply elem_of_dedup, elem_of_sort_by).
  unfold keyset_build. set (l := dedup (sort_by Z.leb keys)) in *. case_bool_decide as Hnil; [rewrite Hnil in Hk'; by apply elem_of_nil in Hk'|].
  destruct (_ <=? _); [by apply bool_decide_eq_true_2|]. destruct wide.
  - destruct (fuse16_try_from l) as [f|] eqn:E; cbn; [by eapply fuse16_complete|done].
  - destruct (fuse8_try_from l) as [f|] eqn:E; cbn; [by eapply fuse8_complete|done].
Qed.

(** A block that holds each token of a list survives the query. *)
Lemma blocks_loop_complete ix b tokens : (b < blocks ix)%nat ->
  (forall t, t ∈ tokens -> keyset_contains (common ix) (token_key t) = true \/ keyset_contains (fine ix) (block_pair_key (token_key t) (Z.of_nat b)) = true) ->
  forall keep keep', blocks_loop ix tokens keep = Some keep' -> (forall l, keep = Some l -> l !! b = Some true) -> keep' !! b = Some true.
Proof.
  intros Hb. induction tokens as [|t tokens IH]; intros Hin keep keep' Hl Hkeep; cbn in Hl; [by apply Hkeep|].
  assert (Hrest : forall t, t ∈ tokens -> keyset_contains (common ix) (token_key t) = true \/ keyset_contains (fine ix) (block_pair_key (token_key t) (Z.of_nat b)) = true) by (intros; apply Hin; by right).
  destruct (keyset_contains (common ix) (token_key t)) eqn:Hc; [by apply (IH Hrest keep keep')|].
  destruct (Hin t ltac:(left)) as [|Hf]; [congruence|].
  eapply (IH Hrest); [exact Hl|]. intros l [= <-].
  assert (Hfound : ((fun block => keyset_contains (fine ix) (block_pair_key (token_key t) (Z.of_nat block))) <$> seq 0 (blocks ix)) !! b = Some true)
    by (rewrite list_lookup_fmap, lookup_seq_lt by done; cbn; by rewrite Hf).
  destruct keep as [prior|]; [|done]. apply lookup_zip_with_Some. exists true, true. auto.
Qed.

Lemma finish_fields n rows : 0 < n <= u32_max -> Z.of_nat (length rows) <= u32_max ->
  times (block_finish (block_build n rows)) = bb_times (block_build n rows) /\ block_rows (block_finish (block_build n rows)) = n.
Proof.
  intros Hn Hsz. destruct (seal_fields (block_build n rows)) as (Hr & Ht & _). rewrite (bi_rows _ _ _ (build_inv n rows Hn Hsz)) in Hr.
  unfold block_finish. destruct (bb_overflow _); cbn; [by rewrite Ht, Hr|]. destruct (split_keys _ _ _ _ _). cbn. by rewrite Ht, Hr.
Qed.

(** Every token of a row is in its block's keys. *)
Lemma finish_complete n rows i r t : 0 < n <= u32_max -> Z.of_nat (length rows) <= u32_max -> rows !! i = Some r -> t ∈ r.2 ->
  let ix := block_finish (block_build n rows) in
  keyset_contains (common ix) (token_key t) = true \/ keyset_contains (fine ix) (block_pair_key (token_key t) (Z.of_nat i / n)) = true.
Proof.
  intros Hn Hsz Hi Ht ix. pose proof (build_inv n rows Hn Hsz) as Hinv.
  unfold ix, block_finish. destruct (bb_overflow (seal_block (block_build n rows))) eqn:Hov; [by right|].
  pose proof (seal_complete n rows _ ltac:(lia) Hsz Hinv Hov i r t Hi Ht) as Hp.
  set (pairs := sort_by pair_leb (bb_pairs (seal_block (block_build n rows)))).
  assert (Hp' : (token_key t, Z.of_nat i / n) ∈ pairs) by (by apply elem_of_sort_by).
  pose proof (split_keys_complete (length pairs) (Z.of_nat (length (bb_times (seal_block (block_build n rows))))) pairs [] [] ltac:(lia)) as Hs.
  destruct (split_keys _ _ _ _ _) as [cm fn]. destruct Hs as (_ & _ & Hs). cbn.
  destruct (Hs _ Hp') as [Hc|Hf]; [left|right]; by apply keyset_build_complete.
Qed.

Lemma block_build_complete n rows i r tokens :
  0 < n <= u32_max -> Z.of_nat (length rows) <= u32_max -> rows !! i = Some r -> Forall (fun t => t ∈ r.2) tokens ->
  let ix := block_finish (block_build n rows) in
  (forall keep, blocks_with_all ix tokens = Some keep -> keep !! Z.to_nat (Z.of_nat i / n) = Some true)
  /\ (exists range, times ix !! Z.to_nat (Z.of_nat i / n) = Some range /\ range.1 <= r.1 <= range.2)
  /\ (block_rows_range ix (Z.of_nat i / n) (Z.of_nat (length rows))).1 <= Z.of_nat i < (block_rows_range ix (Z.of_nat i / n) (Z.of_nat (length rows))).2.
Proof.
  intros Hn Hsz Hi Hall ix. pose proof (build_inv n rows Hn Hsz) as Hinv. destruct (finish_fields n rows Hn Hsz) as [Ht Hr]. fold ix in Ht, Hr.
  pose proof (lookup_lt_Some _ _ _ Hi) as Hlt. pose proof (row_block n rows _ i ltac:(lia) Hinv Hlt) as Hb. split; [|split].
  - intros keep. unfold blocks_with_all. destruct (_ || _); [done|]. intros Hk.
    eapply (blocks_loop_complete ix); [|intros t Hin|exact Hk|done].
    + unfold blocks. rewrite Ht. lia.
    + rewrite Z2Nat.id by lia. rewrite Forall_forall in Hall. by eapply finish_complete, Hall.
  - rewrite Ht. by apply (bi_times _ _ _ Hinv).
  - unfold block_rows_range. rewrite Hr. pose proof (Z.mul_div_le (Z.of_nat i) n) as Hd. pose proof (Z.mod_pos_bound (Z.of_nat i) n) as Hm.
    pose proof (Z.div_mod (Z.of_nat i) n) as Hdm. unfold u32_max in *. cbn [fst snd].
    rewrite (wrap_u64_id (Z.of_nat i / n * n)) by (unfold in_u64, u64_max; nia).
    rewrite (Z.min_l (Z.of_nat i / n * n)) by nia. rewrite (wrap_u64_id (Z.of_nat i / n * n + n)) by (unfold in_u64, u64_max; nia). nia.
Qed.

(** C30: The block index has no false negatives: whatever the rows and the filters (saturated,
    exact, failed or fuse), the block of a row that holds every token of a query survives
    [blocks_with_all]; the block's row range contains the row and its time range the row's
    event time. *)
Theorem block_index_complete n rows i r tokens :
  0 < n <= u32_max -> Z.of_nat (length rows) <= u32_max -> rows !! i = Some r -> Forall (fun t => t ∈ r.2) tokens ->
  let ix := block_finish (block_build n rows) in
  (forall keep, blocks_with_all ix tokens = Some keep -> keep !! Z.to_nat (Z.of_nat i / n) = Some true)
  /\ (exists range, times ix !! Z.to_nat (Z.of_nat i / n) = Some range /\ range.1 <= r.1 <= range.2)
  /\ (block_rows_range ix (Z.of_nat i / n) (Z.of_nat (length rows))).1 <= Z.of_nat i < (block_rows_range ix (Z.of_nat i / n) (Z.of_nat (length rows))).2.
Proof. apply block_build_complete. Qed.

(** * The bytes of the section read back *)

(** What the decoder demands of a filter whose fingerprints have [k] bytes. *)
Record fuse_ok (k : nat) (f : BinaryFuse) : Prop := {
  fo_valid : descriptor_valid (fu_descriptor f) = true;
  fo_seed : in_u64 (d_seed (fu_descriptor f));
  fo_u32 : in_u32 (segment_length (fu_descriptor f)) /\ in_u32 (segment_length_mask (fu_descriptor f)) /\ in_u32 (segment_count_length (fu_descriptor f));
  fo_needed : fuse_needed (fu_descriptor f) <= Z.of_nat (length (fingerprints f));
  fo_prints : Forall (fun z => 0 <= z < 256 ^ Z.of_nat k) (fingerprints f) }.
Definition keyset_ok (s : KeySet) : Prop :=
  match s with
  | KEmpty | KAll => True
  | KExact keys => increasing keys = true /\ Forall in_u64 keys
  | KFuse8 f => fuse_ok 1 f
  | KFuse16 f => fuse_ok 2 f
  end.

Lemma fuse_roundtrip tag k f bs more : (0 < k)%nat -> fuse_ok k f -> encode_fuse tag k f = Ok bs ->
  exists bs', bs = [tag] ++ bs' /\ decode_fuse k (bs' ++ more) = Ok (f, more).
Proof.
  intros Hk [Hv Hs (Hsl & Hsm & Hsc) Hn Hp] He. unfold encode_fuse in He. apply bind_ok_inv in He as (n & Hlen & He).
  apply to_u32_inv in Hlen as [-> Hlen]; [|lia]. apply Ok_inj in He as <-. eexists; split; [reflexivity|].
  unfold decode_fuse, encode_descriptor. rewrite <- !app_assoc.
  eapply bind_intro.
  { unfold decode_descriptor. do 4 read_field. pass_check; [|reflexivity]. by destruct (fu_descriptor f). }
  cbv beta iota. read_field. pass_check; [apply Z.leb_le; by destruct (fu_descriptor f)|].
  read_field; [rewrite length_concat_le; lia|]. rewrite le_list_roundtrip by done. by destruct f as [[]].
Qed.

Lemma cursor_tag tag more : is_byte tag -> cursor_le 1 ([tag] ++ more) = Ok (tag, more).
Proof. intros Ht. rewrite <- (cursor_le_app 1 tag more Ht). unfold is_byte in Ht. change (le_bytes 1 tag) with [tag mod 256]. by rewrite Z.mod_small. Qed.

Lemma keyset_roundtrip s bs more : keyset_ok s -> keyset_encode s = Ok bs -> keyset_decode (bs ++ more) = Ok (s, more).
Proof.
  intros Hok He. unfold keyset_decode. destruct s as [| |keys|f|f]; cbn [keyset_encode keyset_ok] in He, Hok.
  - apply Ok_inj in He as <-. by rewrite cursor_tag.
  - apply Ok_inj in He as <-. by rewrite cursor_tag.
  - destruct Hok as [Hi Hk]. apply bind_ok_inv in He as (n & Hn & He). apply to_u32_inv in Hn as [-> Hn]; [|lia]. apply Ok_inj in He as <-.
    rewrite <- !app_assoc. rewrite cursor_tag by done. cbn [mbind result_bind].
    cbn [Z.eqb TAG_EXACT TAG_EMPTY TAG_ALL]. read_field. read_field; [rewrite length_concat_le; lia|].
    rewrite le_list_roundtrip; [|lia|by eapply Forall_impl; [exact Hk|apply u64_range]]. by pass_check.
  - apply (fuse_roundtrip _ _ _ _ more) in He as (bs' & -> & Hd); [|lia|done]. rewrite <- app_assoc. rewrite cursor_tag by done. cbn [mbind result_bind]. cbn [Z.eqb TAG_FUSE8 TAG_EXACT TAG_EMPTY TAG_ALL]. by rewrite Hd.
  - apply (fuse_roundtrip _ _ _ _ more) in He as (bs' & -> & Hd); [|lia|done]. rewrite <- app_assoc. rewrite cursor_tag by done. cbn [mbind result_bind]. cbn [Z.eqb TAG_FUSE16 TAG_FUSE8 TAG_EXACT TAG_EMPTY TAG_ALL]. by rewrite Hd.
Qed.

Definition time_ok (p : Z * Z) : Prop := in_i64 p.1 /\ in_i64 p.2 /\ p.1 <= p.2.

Lemma times_roundtrip l more : Forall time_ok l -> decode_times (length l) (concat (encode_time <$> l) ++ more) = Ok (l, more).
Proof.
  induction 1 as [|[a b] l (Ha & Hb & Hab) _ IH]; cbn [length decode_times fmap list_fmap concat]; [done|]. unfold encode_time at 1.
  cbn [fst snd] in *. rewrite <- !app_assoc. do 2 read_field. rewrite !i64_bits by done. pass_check; [by apply Z.leb_le|].
  eapply bind_intro; [exact IH|]. done.
Qed.

Lemma block_roundtrip n rows ix bs more :
  block_rows ix = n -> Z.of_nat (length (times ix)) = (rows + (n - 1)) / n -> Forall time_ok (times ix) -> keyset_ok (common ix) -> keyset_ok (fine ix) ->
  block_encode ix = Ok bs -> block_decode n rows (bs ++ more) = Ok (ix, more).
Proof.
  intros Hn Hlen Ht Hc Hf He. unfold block_encode in He. apply bind_ok_inv in He as (k & Hk & He). apply to_u32_inv in Hk as [-> Hk]; [|lia].
  apply bind_ok_inv in He as (cm & Hcm & He). apply bind_ok_inv in He as (fn & Hfn & He). apply Ok_inj in He as <-.
  unfold block_decode. rewrite <- !app_assoc. read_field. pass_check; [by apply Z.eqb_eq|]. rewrite Nat2Z.id.
  eapply bind_intro; [by apply times_roundtrip|]. cbv beta iota. eapply bind_intro; [exact (keyset_roundtrip _ _ _ Hc Hcm)|]. cbv beta iota.
  eapply bind_intro; [exact (keyset_roundtrip _ _ _ Hf Hfn)|]. cbv beta iota. destruct ix. cbn in *. by subst.
Qed.

(** ** Built indexes *)

(** The hash is a [u64], and a filter that [xorf] built has a well-formed descriptor. *)
Class XxHashLaws := xxhash64_range seed bs : in_u64 (xxhash64 seed bs).
Class XorfShape := {
  fuse8_shape keys f : fuse8_try_from keys = Some f -> fuse_ok 1 f;
  fuse16_shape keys f : fuse16_try_from keys = Some f -> fuse_ok 2 f }.
Context `{!XxHashLaws, !XorfShape}.

Lemma lxor_u64 a b : in_u64 a -> in_u64 b -> in_u64 (Z.lxor a b).
Proof.
  unfold in_u64, u64_max. intros Ha Hb. assert (E : Z.lxor a b = Z.lxor a b mod 2 ^ 64).
  { apply Z.bits_inj'. intros i Hi. destruct (Z.lt_ge_cases i 64).
    - by rewrite Z.mod_pow2_bits_low.
    - rewrite Z.mod_pow2_bits_high by lia. rewrite Z.lxor_spec, !(testbit_above _ 64) by (try lia; change (2 ^ 64) with 18446744073709551616; lia). done. }
  rewrite E. pose proof (Z.mod_pos_bound (Z.lxor a b) (2 ^ 64)). change (2 ^ 64) with 18446744073709551616 in *. lia.
Qed.

Lemma wrap_in_u64 z : in_u64 (wrap_u64 z).
Proof. unfold in_u64, wrap_u64. pose proof (Z.mod_pos_bound z (u64_max + 1)). unfold u64_max in *. lia. Qed.

Lemma block_pair_key_u64 key block : in_u64 (block_pair_key key block).
Proof.
  unfold block_pair_key. cbv zeta. set (z := wrap_u64 _). assert (Hz : in_u64 z) by apply wrap_in_u64. apply lxor_u64; [done|].
  unfold in_u64 in *. rewrite Z.shiftr_div_pow2 by lia. pose proof (Z.div_pos z (2 ^ 31)). pose proof (Z.div_le_upper_bound z (2 ^ 31) z). lia.
Qed.

Lemma increasing_dedup l : StronglySorted (fun a b => (a <=? b) = true) l -> increasing (dedup l) = true /\ forall x, head (dedup l) = Some x -> head l = Some x.
Proof.
  induction 1 as [|x l Hs [IH IHh] Hx]; [done|]. destruct l as [|y l]; [done|].
  change (dedup (x :: y :: l)) with (if decide (x = y) then dedup (y :: l) else x :: dedup (y :: l)). case_decide as E; subst.
  - split; [done|]. intros z Hz. by apply IHh in Hz.
  - split; [|done]. destruct (dedup (y :: l)) as [|z zs] eqn:D; [done|]. cbn. cbn in IH. rewrite IH, andb_true_r.
    specialize (IHh z eq_refl). injection IHh as ->. apply Forall_cons in Hx as [Hxy%Z.leb_le _]. apply Z.ltb_lt. lia.
Qed.

Lemma keyset_build_ok keys wide : Forall in_u64 keys -> keyset_ok (keyset_build keys wide).
Proof.
  intros Hk. unfold keyset_build. case_bool_decide; [done|]. destruct (_ <=? _).
  - cbn. split; [apply increasing_dedup, sort_by_sorted; intros; rewrite ?Z.leb_le in *; lia|].
    rewrite Forall_forall in Hk |- *. intros x. rewrite elem_of_dedup, elem_of_sort_by. apply Hk.
  - destruct wide.
    + destruct (fuse16_try_from _) as [f|] eqn:E; cbn; [by eapply fuse16_shape|done].
    + destruct (fuse8_try_from _) as [f|] eqn:E; cbn; [by eapply fuse8_shape|done].
Qed.

Lemma split_keys_u64 fuel : forall nblocks l cm fn, Forall (fun e => in_u64 e.1) l -> Forall in_u64 cm -> Forall in_u64 fn ->
  Forall in_u64 (split_keys fuel nblocks l cm fn).1 /\ Forall in_u64 (split_keys fuel nblocks l cm fn).2.
Proof.
  induction fuel as [|fuel IH]; intros nblocks l cm fn Hl Hcm Hfn; [by destruct l as [|[]]|]. destruct l as [|[key b] l]; [done|]. cbn [split_keys].
  assert (Hmore : Forall (fun e => in_u64 e.1) (take_key key ((key, b) :: l)).2).
  { generalize dependent ((key, b) :: l). intros l'. induction 1 as [|x l' Hx Hl' IHl]; cbn; [done|]. destruct (x.1 =? key); [|by constructor]. by destruct (take_key key l'). }
  destruct (take_key key ((key, b) :: l)) as [run more]. apply Forall_cons in Hl as [Hkey _]. cbn in Hkey, Hmore.
  destruct (_ && _); apply IH; try done.
  - apply Forall_app_2; [done|]. by apply Forall_singleton.
  - apply Forall_app_2; [done|]. apply Forall_fmap, Forall_true. intros; apply block_pair_key_u64.
Qed.

(** Invariant of the builder's stored values. *)
Definition bb_ok (b : BlockBuilder) : Prop :=
  Forall time_ok (bb_times b) /\ Forall (fun e => in_u64 e.1) (bb_pairs b) /\ set_Forall in_u64 (current b).

Lemma seal_ok b : bb_ok b -> bb_ok (seal_block b).
Proof.
  intros (Ht & Hp & Hc). unfold seal_block. destruct (bb_times b) eqn:E; [unfold bb_ok; by rewrite E|]. rewrite <- E in *.
  split_and!; cbn; [done| |set_solver]. set (over := _ && _). destruct (bb_overflow b || over); [by destruct over|].
  apply Forall_app_2; [by destruct over|]. apply Forall_fmap, Forall_forall. intros k Hk%elem_of_elements. by apply Hc.
Qed.

Lemma add_token_ok t b : bb_ok b -> bb_ok (add_token t b).
Proof.
  intros (Ht & Hp & Hc). unfold add_token. destruct (bb_overflow b); [done|]. split_and!; cbn; [done|done|].
  apply set_Forall_union; [|done]. apply set_Forall_singleton. apply xxhash64_range.
Qed.

Lemma start_row_ok time b : in_i64 time -> bb_ok b -> bb_ok (block_start_row time b).
Proof.
  intros Hi Hb. assert (Halter : forall l k, Forall time_ok l -> Forall time_ok (alter (note_time time) k l)).
  { intros l k Hl. apply Forall_alter; [done|]. intros [x y] _ (Hx & Hy & Hxy). unfold time_ok, note_time, in_i64 in *. cbn in *. lia. }
  unfold block_start_row. destruct (_ || _); split_and!; cbn.
  - apply Halter, Forall_app_2; [apply seal_ok, Hb|]. apply Forall_singleton. unfold time_ok; cbn. split_and!; [done..|lia].
  - apply seal_ok, Hb.
  - apply seal_ok, Hb.
  - apply Halter, Hb.
  - apply Hb.
  - apply Hb.
Qed.

Lemma build_ok n rows : Forall (fun r : BRow => in_i64 r.1) rows -> bb_ok (block_build n rows).
Proof.
  induction rows as [|[time ts] rows IH] using rev_ind; intros Hr; [by split_and!|].
  apply Forall_app in Hr as [Hr Ht]. rewrite Forall_singleton in Ht. unfold block_build in *. rewrite foldl_app. cbn [foldl]. unfold block_row at 1. cbn [fst snd] in *.
  assert (Hb : bb_ok (block_start_row time (foldl block_row (BlockBuilder_new n) rows))) by (apply start_row_ok; auto).
  revert Hb. generalize (block_start_row time (foldl block_row (BlockBuilder_new n) rows)). induction ts as [|t ts IHt]; intros b Hb; cbn [foldl]; [done|].
  by apply IHt, add_token_ok.
Qed.

Lemma block_build_roundtrip n rows bs more :
  0 < n <= u32_max -> Z.of_nat (length rows) <= u32_max -> Forall (fun r : BRow => in_i64 r.1) rows ->
  block_encode (block_finish (block_build n rows)) = Ok bs ->
  block_decode n (Z.of_nat (length rows)) (bs ++ more) = Ok (block_finish (block_build n rows), more).
Proof.
  intros Hn Hsz Hr He. destruct (finish_fields n rows Hn Hsz) as [Ht Hrows]. pose proof (build_inv n rows Hn Hsz) as Hinv.
  destruct (seal_ok _ (build_ok n rows Hr)) as (Htimes & Hpairs & _). destruct (seal_fields (block_build n rows)) as (_ & Hst & _). rewrite Hst in Htimes.
  apply block_roundtrip; [done| |by rewrite Ht|..|done].
  - rewrite Ht. destruct Hinv as [_ Hlen _ _]. destruct (length (bb_times (block_build n rows))) as [|q]; [subst rows; cbn|].
    + symmetry. apply Z.div_small. lia.
    + apply (Z.div_unique _ n _ (rows_in_block (block_build n rows) - 1)); lia.
  - unfold block_finish. destruct (bb_overflow _); [done|]. set (pairs := sort_by pair_leb _).
    assert (Hp : Forall (fun e => in_u64 e.1) pairs) by (unfold pairs; by rewrite (sort_by_perm pair_leb)).
    pose proof (split_keys_u64 (length pairs) (Z.of_nat (length (bb_times (seal_block (block_build n rows))))) pairs [] [] Hp) as Hs.
    destruct (split_keys _ _ _ _ _). cbn in *. by apply keyset_build_ok, Hs.
  - unfold block_finish. destruct (bb_overflow _); [done|]. set (pairs := sort_by pair_leb _).
    assert (Hp : Forall (fun e => in_u64 e.1) pairs) by (unfold pairs; by rewrite (sort_by_perm pair_leb)).
    pose proof (split_keys_u64 (length pairs) (Z.of_nat (length (bb_times (seal_block (block_build n rows))))) pairs [] [] Hp) as Hs.
    destruct (split_keys _ _ _ _ _). cbn in *. by apply keyset_build_ok, Hs.
Qed.

(** The block section of the index file reads back: for any rows and filters, decoding the
    bytes of a built block index under its block size and row count gives the index, and
    nothing after the section is read. *)
Theorem block_index_roundtrip n rows bs more :
  0 < n <= u32_max -> Z.of_nat (length rows) <= u32_max -> Forall (fun r : BRow => in_i64 r.1) rows ->
  block_encode (block_finish (block_build n rows)) = Ok bs ->
  block_decode n (Z.of_nat (length rows)) (bs ++ more) = Ok (block_finish (block_build n rows), more).
Proof. apply block_build_roundtrip. Qed.
End Index.

(** * A concrete hash and filter *)

(** A polynomial hash, and filters that admit every key: the smallest well-formed descriptor
    with its three fingerprints. *)
Module PlainFilters.
#[export] Instance poly_hash : XxHash := fun seed bs => wrap_u64 (foldl (fun acc b => acc * 257 + b + 1) seed bs).
Definition open_filter : BinaryFuse :=
  {| fu_descriptor := {| d_seed := 7; segment_length := 1; segment_length_mask := 0; segment_count_length := 1 |}; fingerprints := [0; 0; 0] |}.
#[export] Instance open_filters : Xorf :=
  {| fuse8_try_from := fun _ => Some open_filter; fuse8_contains := fun _ _ => true;
     fuse16_try_from := fun _ => Some open_filter; fuse16_contains := fun _ _ => true |}.
#[export] Instance open_filters_laws : XorfLaws.
Proof. by split. Qed.
#[export] Instance poly_hash_laws : XxHashLaws.
Proof. intros seed bs. apply wrap_in_u64. Qed.
Lemma open_filter_ok k : (0 < k)%nat -> fuse_ok k open_filter.
Proof.
  intros Hk. split; cbn; [done|done|done|unfold fuse_needed; cbn; lia|].
  assert (0 < 256 ^ Z.of_nat k) by (apply Z.pow_pos_nonneg; lia). by rewrite !Forall_cons.
Qed.
#[export] Instance open_filters_shape : XorfShape.
Proof. split; intros keys f [= <-]; apply open_filter_ok; lia. Qed.

(** Five rows in blocks of two; the token [tok] is in row 3 only. *)
Definition tok : Bytes := [116; 111; 107].
Definition rows5 : list (Z * list Bytes) := [(10, [[97]]); (12, [[97]; [98]]); (9, [[98]]); (30, [tok; [97]]); (31, [])].

Lemma block_index_complete_witness :
  let ix := block_finish (block_build 2 rows5) in
  blocks_with_all ix [tok] = Some [false; true; false]
  /\ (forall keep, blocks_with_all ix [tok] = Some keep -> keep !! 1%nat = Some true)
  /\ (exists range, times ix !! 1%nat = Some range /\ range.1 <= 30 <= range.2)
  /\ (block_rows_range ix 1 5).1 <= 3 < (block_rows_range ix 1 5).2.
Proof.
  split; [vm_compute; reflexivity|].
  refine (block_index_complete 2 rows5 3 (30, [tok; [97]]) [tok] _ _ _ _); try done.
  constructor; [left|done].
Defined.

Lemma block_index_roundtrip_witness :
  exists bs, block_encode (block_finish (block_build 2 rows5)) = Ok bs
    /\ block_decode 2 5 (bs ++ [1; 2]) = Ok (block_finish (block_build 2 rows5), [1; 2]).
Proof.
  eexists. split; [vm_compute; reflexivity|].
  refine (block_index_roundtrip 2 rows5 _ [1; 2] _ _ _ _); [done|done| |vm_compute; reflexivity].
  apply (bool_decide_unpack _). vm_compute. exact I.
Defined.
End PlainFilters.
