(* ===== verification/TextTokens.v ===== *)
(** * TextTokens: the tokens, pairs and trigrams of a text

    Models the text functions of [parts/sidecar.rs] ([tokenize], [adjacent_pairs],
    [ascii_trigrams]) and of the standard library they call. A text ([&str]) is the list of
    its Unicode scalar values with the UTF-8 encoding spelled out; the tables of Unicode
    classes and case mappings are a parameter, of which the theorems use the ASCII part. *)
From S2P Require Import Prelude Bytes.

(** A text, as the list of its characters. *)
Abbreviation Text := (list Z) (only parsing).

(** ** UTF-8 *)

Definition utf8_char (c : Z) : Bytes :=
  if c <? 128 then [c] else
  if c <? 2048 then [192 + c / 64; 128 + c mod 64] else
  if c <? 65536 then [224 + c / 4096; 128 + c / 64 mod 64; 128 + c mod 64] else
  [240 + c / 262144; 128 + c / 4096 mod 64; 128 + c / 64 mod 64; 128 + c mod 64].
(** [str::as_bytes] *)
Definition utf8 (t : Text) : Bytes := concat (utf8_char <$> t).
Definition all_ascii (t : Text) : bool := forallb is_ascii t.
Definition is_scalar (c : Z) : Prop := 0 <= c < 1114112.

(** ** Unicode tables *)

Class Unicode := {
  is_alphanumeric : Z -> bool;
  is_uppercase : Z -> bool;
  is_whitespace : Z -> bool;
  char_lower : Z -> Text;
  is_cased : Z -> bool;
  is_case_ignorable : Z -> bool }.
(** What the tables say of ASCII. *)
Class UnicodeAscii `{Unicode} := {
  alphanumeric_ascii c : is_ascii c = true -> is_alphanumeric c = ascii_alphanumeric c;
  uppercase_ascii c : is_ascii c = true -> is_uppercase c = ascii_upper c;
  whitespace_ascii c : is_ascii c = true -> is_whitespace c = ((9 <=? c) && (c <=? 13)) || (c =? 32);
  lower_ascii c : is_ascii c = true -> char_lower c = [to_ascii_lowercase c] }.
Definition SIGMA : Z := 931.
Definition LONG_S : Z := 383.
Definition KELVIN : Z := 8490.
(** The two characters outside ASCII that fold to ASCII letters. *)
Class UnicodeFolds `{Unicode} := {
  lower_long_s : char_lower LONG_S = [LONG_S];
  lower_kelvin : char_lower KELVIN = [107] }.

Section Text.
Context `{Unicode}.

(** [case_ignorable_then_cased] of [alloc::str] *)
Fixpoint case_ignorable_then_cased (t : Text) : bool :=
  match t with c :: t => if is_case_ignorable c then case_ignorable_then_cased t else is_cased c | [] => false end.
(** [str::to_lowercase], with the final sigma; [before] is reversed. *)
Fixpoint lower_loop (before t : Text) : Text :=
  match t with
  | [] => []
  | c :: t =>
      (if c =? SIGMA then [if case_ignorable_then_cased before && negb (case_ignorable_then_cased t) then 962 else 963] else char_lower c)
        ++ lower_loop (c :: before) t
  end.
Definition to_lowercase (t : Text) : Text := lower_loop [] t.

(** [str::trim] *)
Fixpoint trim_start (t : Text) : Text := match t with c :: t' => if is_whitespace c then trim_start t' else t | [] => [] end.
Definition trim (t : Text) : Text := reverse (trim_start (reverse (trim_start t))).

(** [str::split] on a predicate. *)
Fixpoint split_on (sep : Z -> bool) (t : Text) : list Text :=
  match t with
  | [] => [[]]
  | c :: t =>
      if sep c then [] :: split_on sep t else
      match split_on sep t with
      | p :: ps => (c :: p) :: ps
      | [] => [[c]]
      end
  end.
(** The non-empty pieces between characters that are not alphanumeric. *)
Definition pieces (t : Text) : list Text := filter (fun p => p <> []) (split_on (fun c => negb (is_alphanumeric c)) t).

Definition TOKEN_MAX_BYTES : Z := 128.

(** The token of a piece, when it is one. *)
Definition piece_lower (p : Text) : Bytes :=
  if forallb (fun c => negb (is_uppercase c)) p then utf8 p else utf8 (to_lowercase p).
Definition piece_token (p : Text) : option Bytes :=
  let token := piece_lower p in if Z.of_nat (length token) <=? TOKEN_MAX_BYTES then Some token else None.
(** [tokenize] *)
Definition tokenize (t : Text) : list Bytes := omap piece_token (pieces t).

(** The loop of [adjacent_pairs]. *)
Fixpoint pairs_loop (previous : option Bytes) (ps : list Text) : list (Bytes * Bytes) :=
  match ps with
  | [] => []
  | p :: ps =>
      match piece_token p with
      | None => pairs_loop None ps
      | Some token => match previous with Some a => (a, token) :: pairs_loop (Some token) ps | None => pairs_loop (Some token) ps end
      end
  end.
(** [adjacent_pairs] *)
Definition adjacent_pairs (t : Text) : list (Bytes * Bytes) := pairs_loop None (pieces t).

(** Bytes of a trigram: ASCII, and neither a wildcard nor [%], [_] or a backslash. *)
Definition gram_byte (b : Z) : bool := is_ascii b && negb ((b =? 42) || (b =? 63) || (b =? 37) || (b =? 95) || (b =? 92)).
Fixpoint windows3 (bs : Bytes) : list Bytes :=
  match bs with a :: ((b :: c :: _) as bs') => [a; b; c] :: windows3 bs' | _ => [] end.
(** [ascii_trigrams] *)
Definition trigrams_of (bs : Bytes) : list Bytes := lower_all <$> filter (fun w => forallb gram_byte w = true) (windows3 bs).
Definition ascii_trigrams (t : Text) : list Bytes := trigrams_of (utf8 t).

(** [text.to_lowercase().replace('ſ', "s")] *)
Definition re2_folded (t : Text) : Text := (fun c => if c =? LONG_S then 115 else c) <$> to_lowercase t.

(** * Splitting *)

Lemma split_on_nonempty f t : split_on f t <> [].
Proof. destruct t as [|c t]; cbn; [done|]. destruct (f c); [done|]. by destruct (split_on f t). Qed.

Lemma split_on_sep f a c b : f c = true -> split_on f (a ++ c :: b) = split_on f a ++ split_on f b.
Proof.
  intros Hc. induction a as [|x a IH]; cbn; [by rewrite Hc|]. destruct (f x); [by rewrite IH|].
  rewrite IH. destruct (split_on f a) eqn:E; [by apply split_on_nonempty in E|]. done.
Qed.

Lemma split_on_word f p : Forall (fun c => f c = false) p -> split_on f p = [p].
Proof. induction 1 as [|c p Hc _ IH]; cbn; [done|]. by rewrite Hc, IH. Qed.

Lemma split_on_ext f g t : Forall (fun c => f c = g c) t -> split_on f t = split_on g t.
Proof. induction 1 as [|c t Hc _ IH]; cbn; [done|]. by rewrite Hc, IH. Qed.

(** The first piece and the text after its separator. *)
Lemma split_on_cons f t p ps : split_on f t = p :: ps -> (ps = [] /\ t = p) \/ exists c t', f c = true /\ t = p ++ c :: t' /\ split_on f t' = ps.
Proof.
  revert p; induction t as [|c t IH]; cbn; intros p E; [injection E as <- <-; by left|]. destruct (f c) eqn:Hc.
  - injection E as <- <-. right. by exists c, t.
  - destruct (split_on f t) as [|q qs] eqn:Et; [by apply split_on_nonempty in Et|]. injection E as <- <-.
    destruct (IH q eq_refl) as [[-> ->]|(d & t' & Hd & -> & Hs)]; [by left|]. right. by exists d, t'.
Qed.

Lemma pieces_nil : pieces [] = [].
Proof. done. Qed.

Lemma pieces_sep a c b : is_alphanumeric c = false -> pieces (a ++ c :: b) = pieces a ++ pieces b.
Proof. intros Hc. unfold pieces. rewrite split_on_sep by (by rewrite Hc). by rewrite filter_app. Qed.

Lemma pieces_sep_cons c t : is_alphanumeric c = false -> pieces (c :: t) = pieces t.
Proof. apply (pieces_sep [] c t). Qed.

Lemma pieces_word p : p <> [] -> Forall (fun c => is_alphanumeric c = true) p -> pieces p = [p].
Proof.
  intros Hne Hp. unfold pieces. rewrite split_on_word by (eapply Forall_impl; [exact Hp|]; intros c ->; done).
  by rewrite filter_cons_True.
Qed.

(** A cut between two texts where one of them has no alphanumeric character at the cut. *)
Definition cut (a b : Text) : Prop :=
  (forall c, last a = Some c -> is_alphanumeric c = false) \/ (forall c, head b = Some c -> is_alphanumeric c = false).

Lemma pieces_app a b : cut a b -> pieces (a ++ b) = pieces a ++ pieces b.
Proof.
  intros [Hc|Hc].
  - destruct a as [|x a _] using rev_ind; [done|]. rewrite <- app_assoc. cbn.
    assert (is_alphanumeric x = false) by (apply Hc; by rewrite last_snoc).
    rewrite !pieces_sep by done. by rewrite app_nil_r.
  - destruct b as [|x b]; [by rewrite !app_nil_r|]. assert (Hx : is_alphanumeric x = false) by (by apply Hc).
    by rewrite pieces_sep, pieces_sep_cons.
Qed.

(** The leading word and the pieces after it. *)
Fixpoint word (t : Text) : Text := match t with c :: t => if is_alphanumeric c then c :: word t else [] | [] => [] end.
Fixpoint past_word (t : Text) : Text := match t with c :: t' => if is_alphanumeric c then past_word t' else t | [] => [] end.

Lemma word_past t : t = word t ++ past_word t.
Proof. induction t as [|c t IH]; cbn; [done|]. destruct (is_alphanumeric c); [|done]. by rewrite <- app_comm_cons, <- IH. Qed.

Lemma pieces_word_past t : pieces t = (if decide (word t = []) then [] else [word t]) ++ pieces (past_word t).
Proof.
  assert (Hw : Forall (fun c => is_alphanumeric c = true) (word t)).
  { induction t as [|c t IH]; cbn; [constructor|]. destruct (is_alphanumeric c) eqn:E; [by constructor|constructor]. }
  assert (Hcut : cut (word t) (past_word t)).
  { right. clear Hw. induction t as [|c t IH]; cbn; [done|]. destruct (is_alphanumeric c) eqn:E; [done|]. by intros ? [= <-]. }
  rewrite (word_past t) at 1. rewrite pieces_app by done. case_decide as E; [by rewrite E|]. by rewrite pieces_word.
Qed.
End Text.

#[global] Arguments pieces {_} _ : simpl never.
#[global] Arguments utf8 _ : simpl never.

(** * ASCII words *)

Section Facts.
Context `{UnicodeAscii}.

(** Equal up to ASCII case. *)
Definition fold_eq (c d : Z) : Prop := to_ascii_lowercase c = to_ascii_lowercase d.

Lemma fold_ascii_char c d : is_ascii c = true -> fold_eq c d -> is_ascii d = true.
Proof. unfold fold_eq. ascii_solve. Qed.

Lemma fold_word c d : is_ascii c = true -> fold_eq c d -> is_alphanumeric c = is_alphanumeric d.
Proof. intros Hc Hd. rewrite !alphanumeric_ascii by (eauto using fold_ascii_char). by apply fold_alphanumeric. Qed.

Lemma fold_lower c d : fold_eq c d -> to_ascii_lowercase c = to_ascii_lowercase d.
Proof. done. Qed.

Lemma all_ascii_Forall t : all_ascii t = true <-> Forall (fun c => is_ascii c = true) t.
Proof. unfold all_ascii. rewrite forallb_forall, Forall_forall. by setoid_rewrite list_elem_of_In. Qed.

Lemma all_ascii_lower t u : lower_all t = lower_all u -> all_ascii t = true -> all_ascii u = true.
Proof.
  revert u; induction t as [|c t IH]; intros [|d u] Hl; try done. injection Hl as Hc Ht. cbn. rewrite !andb_true_iff. intros [? ?].
  split; [by apply (fold_ascii_char c)|by apply IH].
Qed.

Lemma utf8_app a b : utf8 (a ++ b) = utf8 a ++ utf8 b.
Proof. unfold utf8. by rewrite fmap_app, concat_app. Qed.
Lemma utf8_cons c t : utf8 (c :: t) = utf8_char c ++ utf8 t.
Proof. done. Qed.

Lemma utf8_char_ascii c : is_ascii c = true -> utf8_char c = [c].
Proof. unfold utf8_char, is_ascii. rewrite andb_true_iff. by intros [_ ->]. Qed.

Lemma utf8_ascii t : all_ascii t = true -> utf8 t = t.
Proof.
  rewrite all_ascii_Forall. induction 1 as [|c t Hc _ IH]; [done|]. by rewrite utf8_cons, utf8_char_ascii, IH.
Qed.

Lemma lower_loop_ascii before t : all_ascii t = true -> lower_loop before t = lower_all t.
Proof.
  rewrite all_ascii_Forall. intros Ht. revert before. induction Ht as [|c t Hc _ IH]; intros before; cbn; [done|].
  destruct (Z.eqb_spec c SIGMA) as [->|]; [done|]. rewrite lower_ascii, IH by done. done.
Qed.

Lemma no_upper_lower p : all_ascii p = true -> forallb (fun c => negb (is_uppercase c)) p = true -> lower_all p = p.
Proof.
  rewrite all_ascii_Forall. induction 1 as [|c p Hc _ IH]; cbn; [done|]. rewrite andb_true_iff. intros [Hu Hp].
  rewrite uppercase_ascii in Hu by done. f_equal; [|by apply IH]. unfold to_ascii_lowercase. by destruct (ascii_upper c).
Qed.

(** The token of an ASCII piece is the piece in lower case. *)
Lemma piece_lower_ascii p : all_ascii p = true -> piece_lower p = lower_all p.
Proof.
  intros Hp. unfold piece_lower. destruct (forallb _ p) eqn:E; [by rewrite utf8_ascii, no_upper_lower|].
  unfold to_lowercase. rewrite lower_loop_ascii by done. apply utf8_ascii. apply (all_ascii_lower p); [|done].
  unfold lower_all. rewrite <- list_fmap_compose. apply list_fmap_ext. intros. symmetry. apply lowercase_idemp.
Qed.

Lemma piece_token_fold p q : all_ascii p = true -> lower_all p = lower_all q -> piece_token p = piece_token q.
Proof.
  intros Hp Hl. unfold piece_token. rewrite !piece_lower_ascii by (eauto using all_ascii_lower). by rewrite Hl.
Qed.

(** ** Texts with the same words *)

(** Equal up to ASCII case, and up to which separators stand between words. *)
Inductive like : Text -> Text -> Prop :=
| like_nil : like [] []
| like_char c d w m : is_ascii c = true -> fold_eq c d -> like w m -> like (c :: w) (d :: m)
| like_seps s1 s2 w m : s1 <> [] -> s2 <> [] -> Forall (fun c => is_alphanumeric c = false) s1 -> Forall (fun c => is_alphanumeric c = false) s2 ->
    like w m -> like (s1 ++ w) (s2 ++ m).

Lemma pieces_seps s t : Forall (fun c => is_alphanumeric c = false) s -> pieces (s ++ t) = pieces t.
Proof. induction 1 as [|c s Hc _ IH]; cbn [app]; [done|]. by rewrite pieces_sep_cons. Qed.

Lemma word_seps s t : s <> [] -> Forall (fun c => is_alphanumeric c = false) s -> word (s ++ t) = [] /\ past_word (s ++ t) = s ++ t.
Proof. intros Hne Hs. destruct Hs as [|c s' Hc _]; [done|]. cbn. by rewrite Hc. Qed.

Lemma pieces_of_words t u :
  lower_all (word t) = lower_all (word u) -> lower_all <$> pieces (past_word t) = lower_all <$> pieces (past_word u) ->
  lower_all <$> pieces t = lower_all <$> pieces u.
Proof.
  intros Hw Hp. rewrite (pieces_word_past t), (pieces_word_past u), !fmap_app, Hp. f_equal.
  destruct (decide (word t = [])) as [E|E], (decide (word u = [])) as [F|F]; cbn; [done| | |by rewrite Hw].
  - rewrite E in Hw. symmetry in Hw. by apply fmap_nil_inv in Hw.
  - rewrite F in Hw. by apply fmap_nil_inv in Hw.
Qed.

Lemma like_words w m : like w m ->
  lower_all (word w) = lower_all (word m) /\ lower_all <$> pieces (past_word w) = lower_all <$> pieces (past_word m).
Proof.
  induction 1 as [|c d w m Hc Hcd Hl [IHw IHp]|s1 s2 w m H1 H2 Hs1 Hs2 Hl [IHw IHp]]; [done|..].
  - cbn. rewrite <- (fold_word c d) by done. destruct (is_alphanumeric c) eqn:E; cbn.
    + split; [by f_equal|done].
    + split; [done|]. rewrite !pieces_sep_cons by (by rewrite <- ?(fold_word c d)). by apply pieces_of_words.
  - destruct (word_seps s1 w) as [-> ->]; [done..|]. destruct (word_seps s2 m) as [-> ->]; [done..|].
    rewrite !pieces_seps by done. split; [done|by apply pieces_of_words].
Qed.

Lemma like_pieces w m : like w m -> lower_all <$> pieces w = lower_all <$> pieces m.
Proof. intros [? ?]%like_words. by apply pieces_of_words. Qed.

(** ** ASCII bytes of a text *)

Lemma utf8_char_high c : 128 <= c -> utf8_char c <> [] /\ Forall (fun b => 128 <= b) (utf8_char c).
Proof.
  intros Hc. unfold utf8_char. destruct (Z.ltb_spec c 128); [lia|].
  pose proof (Z.mod_pos_bound c 64). pose proof (Z.mod_pos_bound (c / 64) 64). pose proof (Z.mod_pos_bound (c / 4096) 64).
  pose proof (Z.div_pos c 64). pose proof (Z.div_pos c 4096). pose proof (Z.div_pos c 262144).
  destruct (c <? 2048); [|destruct (c <? 65536)]; (split; [done|]); repeat constructor; lia.
Qed.

Lemma is_ascii_range b : is_ascii b = true <-> 0 <= b < 128.
Proof. unfold is_ascii. rewrite andb_true_iff, Z.leb_le, Z.ltb_lt. done. Qed.

Lemma utf8_prefix t w b : Forall is_scalar t -> Forall (fun c => is_ascii c = true) w -> utf8 t = w ++ b -> exists t', t = w ++ t' /\ utf8 t' = b.
Proof.
  intros Ht Hw. revert t Ht. induction Hw as [|x w Hx _ IH]; intros t Ht E; [by exists t|].
  destruct Ht as [|c t Hc Ht]; [done|]. rewrite utf8_cons in E. apply is_ascii_range in Hx.
  destruct (Z.lt_ge_cases c 128) as [Ha|Ha].
  - rewrite utf8_char_ascii in E by (apply is_ascii_range; unfold is_scalar in Hc; lia). injection E as -> E.
    destruct (IH t Ht E) as (t' & -> & Ht'). by exists t'.
  - destruct (utf8_char_high c Ha) as [Hne Hh]. destruct Hh as [|y l Hy _]; [done|]. injection E as -> _. lia.
Qed.

(** ASCII bytes inside a text are characters of it. *)
Lemma utf8_infix t a w b : Forall is_scalar t -> w <> [] -> Forall (fun c => is_ascii c = true) w -> utf8 t = a ++ w ++ b ->
  exists a' b', t = a' ++ w ++ b' /\ utf8 a' = a /\ utf8 b' = b.
Proof.
  intros Ht Hne Hw. revert a. induction Ht as [|c t Hc Ht IH]; intros a E.
  - by destruct a, w.
  - destruct a as [|x a].
    { destruct (utf8_prefix (c :: t) w b) as (t' & E' & Ht'); [by constructor|done|done|]. exists [], t'. done. }
    rewrite utf8_cons in E. destruct (Z.lt_ge_cases c 128) as [Ha|Ha].
    + rewrite utf8_char_ascii in E by (apply is_ascii_range; unfold is_scalar in Hc; lia). injection E as <- E.
      destruct (IH a E) as (a' & b' & -> & <- & <-). exists (c :: a'), b'. split; [done|]. split; [|done].
      rewrite utf8_cons, utf8_char_ascii; [done|]. apply is_ascii_range. unfold is_scalar in Hc; lia.
    + destruct (utf8_char_high c Ha) as [_ Hh]. apply app_eq_inv in E as [(l & E1 & E2)|(l & E1 & E2)].
      * destruct l as [|y l]; [rewrite app_nil_r in E1|].
        { destruct (IH [] (eq_sym E2)) as (a' & b' & -> & Ha' & <-). exists (c :: a'), b'. split; [done|]. split; [|done]. by rewrite utf8_cons, Ha', app_nil_r, E1. }
        rewrite E1 in Hh. apply Forall_app in Hh as [_ Hh]. destruct w as [|z w]; [done|]. injection E2 as <- _.
        apply Forall_cons in Hh as [? _]. apply Forall_cons in Hw as [Hz%is_ascii_range _]. lia.
      * destruct (IH l E2) as (a' & b' & -> & Ha' & <-). exists (c :: a'), b'. split; [done|]. split; [|done]. by rewrite utf8_cons, Ha', E1.
Qed.

Lemma utf8_char_nonempty c t : utf8 (c :: t) <> [].
Proof. rewrite utf8_cons. unfold utf8_char. repeat case_match; done. Qed.

(** An ASCII byte at an edge of a text is the character at that edge. *)
Lemma utf8_last_ascii t x : Forall is_scalar t -> is_ascii x = true -> last (utf8 t) = Some x -> last t = Some x.
Proof.
  intros Ht Hx Hl. apply last_Some in Hl as [l El]. destruct (utf8_infix t l [x] []) as (a & b & -> & _ & Hb); [done|done|by constructor|done|].
  destruct b as [|c b]; [by rewrite app_nil_r, last_snoc|by destruct (utf8_char_nonempty c b)].
Qed.
Lemma utf8_head_ascii t x : Forall is_scalar t -> is_ascii x = true -> head (utf8 t) = Some x -> head t = Some x.
Proof.
  intros Ht Hx Hl. destruct (utf8 t) as [|y l] eqn:E; [done|]. injection Hl as ->. destruct (utf8_prefix t [x] l) as (t' & -> & _); [done|by constructor|done|done].
Qed.

(** ** Tokens, pairs and trigrams of a text that contains words *)

Lemma elem_of_tokenize t p token : p ∈ pieces t -> piece_token p = Some token -> token ∈ tokenize t.
Proof. intros. apply list_elem_of_omap. eauto. Qed.

(** A run of ASCII letters and digits between separators is a token. *)
Lemma word_token a w b : w <> [] -> Forall (fun c => ascii_alphanumeric c = true) w -> Z.of_nat (length w) <= TOKEN_MAX_BYTES -> cut a w -> cut w b ->
  lower_all w ∈ tokenize (a ++ w ++ b).
Proof.
  intros Hne Hw Hlen Ha Hb.
  assert (Hasc : Forall (fun c => is_ascii c = true) w) by (eapply Forall_impl; [exact Hw|]; intros; cbn in *; ascii_solve).
  assert (Hal : Forall (fun c => is_alphanumeric c = true) w).
  { rewrite Forall_forall in Hw, Hasc |- *. intros c Hc. rewrite alphanumeric_ascii; auto. }
  apply (elem_of_tokenize _ w).
  - assert (Hcut : cut a (w ++ b)) by (destruct Ha as [Ha|Ha]; [by left|right]; by destruct w).
    rewrite pieces_app, pieces_app, (pieces_word w) by done. set_solver.
  - unfold piece_token. rewrite piece_lower_ascii by (by apply all_ascii_Forall). unfold lower_all at 1. rewrite length_fmap.
    by rewrite (proj2 (Z.leb_le _ _) Hlen).
Qed.

(** Which pairs a list of pieces emits depends only on their tokens, and more pieces around
    them only add pairs. *)
Lemma pairs_loop_app prev ps qs x : x ∈ pairs_loop prev ps -> x ∈ pairs_loop prev (ps ++ qs).
Proof.
  revert prev; induction ps as [|p ps IH]; intros prev; cbn; [by intros ?%elem_of_nil|].
  destruct (piece_token p); [|apply IH]. destruct prev; [|apply IH]. rewrite !elem_of_cons. intros [?|?]; auto.
Qed.
Lemma pairs_loop_prev prev ps x : x ∈ pairs_loop None ps -> x ∈ pairs_loop prev ps.
Proof. destruct prev, ps as [|p ps]; cbn; [done| |done|done]. destruct (piece_token p); [by right|done]. Qed.
Lemma pairs_loop_skip prev a ps x : x ∈ pairs_loop None ps -> x ∈ pairs_loop prev (a ++ ps).
Proof.
  revert prev; induction a as [|p a IH]; intros prev Hx; cbn; [by apply pairs_loop_prev|].
  destruct (piece_token p); [|by apply IH]. destruct prev; [right|]; by apply IH.
Qed.
Lemma pairs_loop_tokens prev ps qs : piece_token <$> ps = piece_token <$> qs -> pairs_loop prev ps = pairs_loop prev qs.
Proof.
  revert prev qs; induction ps as [|p ps IH]; intros prev [|q qs] E; try done. injection E as Ep Es. cbn. rewrite <- Ep.
  destruct (piece_token p); [|by apply IH]. destruct prev; [f_equal|]; by apply IH.
Qed.

(** The words of [w] occur in [t], whole and in a row. *)
Definition holds_words (w t : Text) : Prop := exists a ps b, pieces t = a ++ ps ++ b /\ lower_all <$> ps = lower_all <$> pieces w.

Lemma fold_tokens ps qs : Forall (fun p => all_ascii p = true) ps -> lower_all <$> ps = lower_all <$> qs -> piece_token <$> ps = piece_token <$> qs.
Proof.
  intros Hps. revert qs. induction Hps as [|p ps Hp _ IH]; intros [|q qs] E; try done. cbn [fmap list_fmap] in E. injection E as Ep Es. cbn. f_equal; [|auto].
  by apply piece_token_fold.
Qed.

Lemma pieces_ascii w : all_ascii w = true -> Forall (fun p => all_ascii p = true) (pieces w).
Proof.
  intros Hw. apply Forall_forall. intros p [_ Hp]%list_elem_of_filter. apply all_ascii_Forall in Hw.
  revert p Hp. induction Hw as [|c w Hc _ IH]; cbn; [by intros p ->%list_elem_of_singleton|].
  intros p. destruct (negb (is_alphanumeric c)); [rewrite elem_of_cons; intros [->|]; auto|].
  destruct (split_on _ w) as [|q qs]; [intros ->%list_elem_of_singleton; cbn; by rewrite Hc|].
  rewrite elem_of_cons. intros [->|Hp]; [|apply IH; by right]. cbn. rewrite Hc. apply IH. by left.
Qed.

Lemma holds_words_tokens w t : all_ascii w = true -> holds_words w t ->
  (forall token, token ∈ tokenize w -> token ∈ tokenize t) /\ (forall x, x ∈ adjacent_pairs w -> x ∈ adjacent_pairs t).
Proof.
  intros Hw (a & ps & b & Ht & Hps).
  assert (Htok : piece_token <$> pieces w = piece_token <$> ps) by (apply fold_tokens; [by apply pieces_ascii|done]). split.
  - intros token (p & Hp & Hpt)%list_elem_of_omap. assert (Hin : Some token ∈ piece_token <$> ps).
    { rewrite <- Htok, <- Hpt. apply list_elem_of_fmap. eauto. }
    apply list_elem_of_fmap in Hin as (q & Hq & Hin). apply (elem_of_tokenize _ q); [rewrite Ht; set_solver|done].
  - intros x Hx. unfold adjacent_pairs in *. rewrite Ht. apply pairs_loop_skip, pairs_loop_app. by rewrite <- (pairs_loop_tokens _ _ _ Htok).
Qed.

Lemma windows3_inv bs w : w ∈ windows3 bs -> exists p q, bs = p ++ w ++ q /\ length w = 3%nat.
Proof.
  induction bs as [|x bs IH]; [by intros ?%elem_of_nil|]. destruct bs as [|y [|z bs]]; try by intros ?%elem_of_nil.
  cbn [windows3]. rewrite elem_of_cons. intros [->|Hw]; [by exists [], bs|].
  destruct (IH Hw) as (p & q & E & Hl). exists (x :: p), q. split; [|done]. by rewrite E.
Qed.

Lemma windows3_elem p w q : length w = 3%nat -> w ∈ windows3 (p ++ w ++ q).
Proof.
  intros Hl. destruct w as [|x [|y [|z [|]]]]; try done. induction p as [|c p IH]; [by left|].
  change ((c :: p) ++ [x; y; z] ++ q) with (c :: (p ++ [x; y; z] ++ q)). destruct (p ++ [x; y; z] ++ q) as [|d [|e l]] eqn:E; [by destruct p|by destruct p as [|? []]|]. by right.
Qed.

Lemma fold_gram c d : gram_byte c = true -> fold_eq c d -> gram_byte d = true.
Proof.
  unfold gram_byte. rewrite !andb_true_iff, !negb_true_iff, !orb_false_iff, !Z.eqb_neq. intros (Hc & Hn) Hd.
  split; [by apply (fold_ascii_char c)|]. unfold fold_eq in Hd. ascii_solve; split_and!; ascii_solve.
Qed.

(** A trigram is a window of ASCII characters, in either case. *)
Lemma trigram_inv v g : Forall is_scalar v -> g ∈ ascii_trigrams v ->
  exists a w b, v = a ++ w ++ b /\ length w = 3%nat /\ Forall (fun c => gram_byte c = true) w /\ g = lower_all w.
Proof.
  intros Hv (w & -> & [Hw Hin]%list_elem_of_filter)%list_elem_of_fmap. apply windows3_inv in Hin as (p & q & E & Hl).
  assert (Hf : Forall (fun c => gram_byte c = true) w) by (apply Forall_forall; intros c Hc; rewrite forallb_forall in Hw; by apply Hw, list_elem_of_In).
  destruct (utf8_infix v p w q) as (a & b & -> & _); [done|by destruct w| |done|eauto 8].
  eapply Forall_impl; [exact Hf|]. intros c. unfold gram_byte. rewrite andb_true_iff. tauto.
Qed.

Lemma trigram_intro a w b w0 : length w = 3%nat -> Forall (fun c => gram_byte c = true) w -> Forall2 fold_eq w w0 -> lower_all w ∈ ascii_trigrams (a ++ w0 ++ b).
Proof.
  intros Hl Hw H2.
  assert (Hw0 : Forall (fun c => gram_byte c = true) w0).
  { clear Hl. induction H2 as [|c d w w0 Hcd H2 IH]; [constructor|]. apply Forall_cons in Hw as [? ?]. constructor; [by apply (fold_gram c)|auto]. }
  assert (Hasc : all_ascii w0 = true) by (apply all_ascii_Forall; eapply Forall_impl; [exact Hw0|]; intros c; unfold gram_byte; rewrite andb_true_iff; tauto).
  assert (El : lower_all w = lower_all w0) by (unfold lower_all; clear -H2; induction H2; cbn; [done|]; f_equal; done).
  rewrite El. unfold ascii_trigrams, trigrams_of. apply list_elem_of_fmap. exists w0. split; [done|]. apply list_elem_of_filter. split.
  - apply forallb_forall. intros c Hc%list_elem_of_In. rewrite Forall_forall in Hw0. auto.
  - rewrite !utf8_app, (utf8_ascii w0) by done. apply windows3_elem. apply Forall2_length in H2. lia.
Qed.
End Facts.
