(* ===== verification/Keywords.v ===== *)
(** * Keywords: the SQL a bare keyword compiles to

    Models the bare-keyword predicates of [nanosiem-core]'s ClickHouse generator
    ([query/clickhouse_sql_gen/helpers.rs]): the choice of token search, term regex or
    [iLike], with the emitted regexes and patterns as syntax trees, and the documented
    meaning of [match], [iLike] and [hasAllTokens] on one text column. *)
From S2P Require Import Prelude Bytes TokenCounts TextTokens.

(** ** Patterns *)

Inductive LikeItem := LMany | LOne | LLit (c : Z).
(** [RStart] and [REnd] are the boundary alternatives [(?:^|edge)] and [(?:$|edge)]; [wide]
    says that the edge class admits characters outside ASCII. *)
Inductive RItem := RStart (wide : bool) | REnd (wide : bool) | RSpaces | RBackslashes | RLit (c : Z) | RNonSpaces | RNonSpace.
(** [icase]: the regex has the flag [(?i)]; without it each letter is a class of its two cases. *)
Inductive SqlPred := PILike (l : list LikeItem) | PMatch (icase : bool) (l : list RItem) | PHasAllTokens (needle : Text) | PAnd (a b : SqlPred).

(** [c == '*' || c == '?'] *)
Definition is_wild (c : Z) : bool := (c =? 42) || (c =? 63).
Definition has_wild (t : Text) : bool := existsb is_wild t.

(** [wildcard_to_like_pattern], escapes resolved *)
Definition like_item (c : Z) : LikeItem := if c =? 42 then LMany else if c =? 63 then LOne else LLit c.
Definition wildcard_to_like_pattern (t : Text) : list LikeItem := like_item <$> t.

Section Compile.
Context `{Unicode}.

Definition ascii_separator (c : Z) : bool := is_ascii c && negb (ascii_alphanumeric c).
(** A byte of a ClickHouse token. *)
Definition token_byte (b : Z) : bool := ascii_alphanumeric b || (128 <=? b).

(** The piece count of [keyword_term_regex]. *)
Fixpoint count_pieces (in_token : bool) (bs : Bytes) : nat :=
  match bs with
  | [] => O
  | b :: bs => ((if token_byte b && negb in_token then 1 else 0) + count_pieces (token_byte b) bs)%nat
  end.

(** The items between the boundaries: whitespace runs and backslashes stand for runs. *)
Fixpoint term_items (in_space : bool) (t : Text) : list RItem :=
  match t with
  | [] => []
  | c :: t =>
      if is_whitespace c then (if in_space then [] else [RSpaces]) ++ term_items true t
      else (if c =? 92 then RBackslashes else RLit c) :: term_items false t
  end.
Definition alnum_opt (c : option Z) : bool := from_option ascii_alphanumeric false c.
Definition term_regex (t : Text) : list RItem :=
  (if alnum_opt (head t) then [RStart false] else []) ++ term_items false t ++ (if alnum_opt (last t) then [REnd false] else []).
(** [keyword_term_regex] *)
Definition keyword_term_regex (lowered : Text) : option (list RItem) :=
  if (count_pieces false (utf8 lowered) <? 2)%nat then None else Some (term_regex (trim lowered)).
(** [keyword_term_regex_ascii_exact] *)
Definition keyword_term_regex_ascii_exact (lowered : Text) : option (list RItem) :=
  if negb (all_ascii lowered) then None else
  match keyword_term_regex lowered with None => None | Some _ => Some (term_regex (trim lowered)) end.

(** [trim_matches('*')] *)
Fixpoint drop_stars (t : Text) : Text := match t with c :: t' => if c =? 42 then drop_stars t' else t | [] => [] end.
Definition trim_stars (t : Text) : Text := reverse (drop_stars (reverse (drop_stars t))).
Definition wild_item (c : Z) : RItem := if c =? 42 then RNonSpaces else if c =? 63 then RNonSpace else RLit c.
Definition wild_opt (c : option Z) : bool := from_option is_wild false c.
Definition star_opt (c : option Z) : bool := from_option (fun c => c =? 42) false c.

(** [wildcard_keyword_predicate_for_column] *)
Definition wildcard_keyword_predicate (lowered : Text) : SqlPred :=
  let like := wildcard_to_like_pattern lowered in
  let needs_start := negb (wild_opt (head lowered)) && alnum_opt (head lowered) in
  let needs_end := negb (wild_opt (last lowered)) && alnum_opt (last lowered) in
  let body := trim_stars lowered in
  if negb needs_start && negb needs_end && negb (has_wild body) then PILike like else
  let guard_like := (if star_opt (head lowered) then [] else [LMany]) ++ like ++ (if star_opt (last lowered) then [] else [LMany]) in
  PAnd (PILike guard_like)
       (PMatch true ((if needs_start then [RStart true] else []) ++ (wild_item <$> body) ++ (if needs_end then [REnd true] else []))).

(** [bare_keyword_predicate_for_column]; [LLit] quotes every character of the substring form. *)
Definition bare_keyword_predicate (term_adjacency : bool) (kw : Text) : SqlPred :=
  let lowered := to_lowercase kw in
  if has_wild lowered then wildcard_keyword_predicate lowered else
  if forallb ascii_separator lowered then PILike ([LMany] ++ (LLit <$> lowered) ++ [LMany]) else
  match (if term_adjacency then keyword_term_regex_ascii_exact lowered else None) with
  | Some term => PMatch false term
  | None =>
      match (if term_adjacency then keyword_term_regex lowered else None) with
      | Some term => PAnd (PHasAllTokens lowered) (PMatch true term)
      | None => PHasAllTokens lowered
      end
  end.
End Compile.

(** ** Meaning *)

(** The case folding of [iLike] and of [(?i)]. *)
Class CaseFold := ci_eq : Z -> Z -> bool.

Section Meaning.
Context `{CaseFold}.

(** [iLike] *)
Fixpoint like_match (l : list LikeItem) : Text -> bool :=
  match l with
  | [] => fun t => match t with [] => true | _ => false end
  | LMany :: l => fix many (t : Text) := like_match l t || match t with _ :: t' => many t' | [] => false end
  | LOne :: l => fun t => match t with _ :: t => like_match l t | [] => false end
  | LLit c :: l => fun t => match t with d :: t => ci_eq c d && like_match l t | [] => false end
  end.

(** [\s] of RE2 *)
Definition re2_space (c : Z) : bool := (c =? 32) || (c =? 9) || (c =? 10) || (c =? 12) || (c =? 13).
Definition edge (wide : bool) (c : Z) : bool := negb (ascii_alphanumeric c) && (wide || is_ascii c).
Definition lit_eq (icase : bool) (c d : Z) : bool := (to_ascii_lowercase c =? to_ascii_lowercase d) || (icase && ci_eq c d).

(** A regex matches a prefix of [t]; [at_start] says that [t] is the whole text. *)
Fixpoint rmatch (icase : bool) (l : list RItem) : bool -> Text -> bool :=
  match l with
  | [] => fun _ _ => true
  | RStart wide :: l => fun at_start t => (at_start && rmatch icase l at_start t) || match t with c :: t => edge wide c && rmatch icase l false t | [] => false end
  | REnd wide :: l => fun at_start t => match t with c :: t => edge wide c && rmatch icase l false t | [] => rmatch icase l at_start [] end
  | RSpaces :: l => fun _ => fix plus (t : Text) := match t with c :: t => re2_space c && (rmatch icase l false t || plus t) | [] => false end
  | RBackslashes :: l => fun _ => fix plus (t : Text) := match t with c :: t => (c =? 92) && (rmatch icase l false t || plus t) | [] => false end
  | RLit c :: l => fun _ t => match t with d :: t => lit_eq icase c d && rmatch icase l false t | [] => false end
  | RNonSpaces :: l => fix star (at_start : bool) (t : Text) := rmatch icase l at_start t || match t with c :: t => negb (re2_space c) && star false t | [] => false end
  | RNonSpace :: l => fun _ t => match t with c :: t => negb (re2_space c) && rmatch icase l false t | [] => false end
  end.
(** [match(col, regex)]: anywhere in the text *)
Fixpoint re_search (icase : bool) (l : list RItem) (at_start : bool) (t : Text) : bool :=
  rmatch icase l at_start t || match t with _ :: t => re_search icase l false t | [] => false end.

(** [hasAllTokens(lower(col), needle)] *)
Definition has_all_tokens (needle t : Text) : bool := forallb (fun token => bool_decide (token ∈ ch_tokens (utf8 t))) (ch_tokens (utf8 needle)).

(** One column satisfies the predicate. *)
Fixpoint sql_holds (p : SqlPred) (t : Text) : bool :=
  match p with
  | PILike l => like_match l t
  | PMatch icase l => re_search icase l true t
  | PHasAllTokens needle => has_all_tokens needle t
  | PAnd a b => sql_holds a t && sql_holds b t
  end.
End Meaning.

(** * What a match implies of the text *)

Section Facts.
Context `{UnicodeAscii, CaseFold}.

Lemma lit_eq_exact c d : lit_eq false c d = true <-> fold_eq c d.
Proof. unfold lit_eq. by rewrite orb_false_r, Z.eqb_eq. Qed.

Lemma separator_not_word c : ascii_separator c = true -> is_alphanumeric c = false.
Proof. unfold ascii_separator. rewrite andb_true_iff, negb_true_iff. intros [Ha Hn]. by rewrite alphanumeric_ascii. Qed.

Lemma edge_not_word c : edge false c = true -> is_alphanumeric c = false.
Proof. unfold edge. cbn. rewrite andb_true_iff, negb_true_iff. intros [Hn Ha]. by rewrite alphanumeric_ascii. Qed.

Lemma space_not_word c : re2_space c = true -> is_alphanumeric c = false.
Proof.
  intros Hc. unfold re2_space in Hc. rewrite !orb_true_iff, !Z.eqb_eq in Hc.
  rewrite alphanumeric_ascii; destruct Hc as [[[[->| ->]| ->]| ->]| ->]; done.
Qed.

Lemma whitespace_not_word c : is_ascii c = true -> is_whitespace c = true -> is_alphanumeric c = false.
Proof. intros Hc. rewrite whitespace_ascii, alphanumeric_ascii by done. rewrite orb_true_iff, Z.eqb_eq. intros [Hw| ->]; [ascii_solve|done]. Qed.

(** A run of one or more characters of a class, then the rest of the regex. *)
Lemma plus_inv (f : Z -> bool) (k : Text -> bool) t :
  (fix plus (t : Text) := match t with c :: t => f c && (k t || plus t) | [] => false end) t = true ->
  exists s u, t = s ++ u /\ s <> [] /\ Forall (fun c => f c = true) s /\ k u = true.
Proof.
  induction t as [|c t IH]; [done|]. rewrite andb_true_iff, orb_true_iff. intros [Hc [Hk|Hp]].
  - exists [c], t. split_and!; [done|done|by constructor|done].
  - destruct (IH Hp) as (s & u & -> & _ & Hs & Hu). exists (c :: s), u. split_and!; [done|done|by constructor|done].
Qed.

(** The whitespace at the front of a needle. *)
Lemma term_items_space w : all_ascii w = true ->
  exists ws w', w = ws ++ w' /\ Forall (fun c => is_alphanumeric c = false) ws /\ term_items true w = term_items false w' /\ all_ascii w' = true.
Proof.
  induction w as [|c w IH]; intros Hw; [by exists [], []|]. cbn in Hw. apply andb_true_iff in Hw as [Hc Hw]. cbn.
  destruct (is_whitespace c) eqn:E.
  - destruct (IH Hw) as (ws & w' & -> & Hws & -> & Ha). exists (c :: ws), w'. split_and!; [done|constructor; [by apply whitespace_not_word|done]|done|done].
  - exists [], (c :: w). split_and!; [done|constructor|cbn; by rewrite E|cbn; by rewrite Hc].
Qed.

(** A match of the items of a needle is a text like the needle. *)
Lemma term_items_match n w l s t : (length w <= n)%nat -> all_ascii w = true -> rmatch false (term_items false w ++ l) s t = true ->
  exists m u s', t = m ++ u /\ like w m /\ rmatch false l s' u = true.
Proof.
  revert w s t; induction n as [|n IH]; intros w s t Hlen Hw Hm; (destruct w as [|c w]; [exists [], t, s; by split_and!; [|constructor|]|]); [cbn in Hlen; lia|].
  cbn in Hw. apply andb_true_iff in Hw as [Hc Hw]. cbn [term_items] in Hm. cbn in Hlen. destruct (is_whitespace c) eqn:E.
  - cbn in Hm. apply plus_inv in Hm as (sp & u & -> & Hne & Hsp & Hm).
    destruct (term_items_space w Hw) as (ws & w' & -> & Hws & Hi & Hw'). rewrite Hi in Hm.
    apply IH in Hm as (m & u' & s' & -> & Hl & Hm); [|rewrite length_app in Hlen; lia|done].
    exists (sp ++ m), u', s'. split_and!; [by rewrite app_assoc| |done]. apply (like_seps (c :: ws) sp w' m); [done|done|..|done].
    + constructor; [by apply whitespace_not_word|done].
    + eapply Forall_impl; [exact Hsp|]. intros; by apply space_not_word.
  - destruct (Z.eqb_spec c 92) as [->|Hb]; cbn in Hm.
    + apply plus_inv in Hm as (sp & u & -> & Hne & Hsp & Hm). apply IH in Hm as (m & u' & s' & -> & Hl & Hm); [|lia|done].
      exists (sp ++ m), u', s'. split_and!; [by rewrite app_assoc| |done]. apply (like_seps [92] sp w m); [done|done|..|done].
      * constructor; [by rewrite alphanumeric_ascii|constructor].
      * eapply Forall_impl; [exact Hsp|]. intros d ->%Z.eqb_eq. by rewrite alphanumeric_ascii.
    + destruct t as [|d t]; [done|]. apply andb_true_iff in Hm as [Hd%lit_eq_exact Hm]. apply IH in Hm as (m & u & s' & -> & Hl & Hm); [|lia|done].
      exists (d :: m), u, s'. split_and!; [done| |done]. by constructor.
Qed.

Lemma like_nil_inv w m : like w m -> (w = [] <-> m = []).
Proof. intros [|? ? ? ? ? ?|[] [] ? ? ? ?]; cbn; split; congruence. Qed.

Lemma like_head w m : like w m -> (forall c, head w = Some c -> is_alphanumeric c = false) -> forall d, head m = Some d -> is_alphanumeric d = false.
Proof.
  intros [|c d w' m' Hc Hcd _|s1 s2 w' m' Hn1 Hn2 Hs1 Hs2 _]; cbn; [done|..].
  - intros Hw ? [= <-]. rewrite <- (fold_word c d) by done. by apply Hw.
  - destruct s2 as [|x s2]; [done|]. intros _ ? [= <-]. by apply Forall_cons in Hs2 as [? _].
Qed.

Lemma like_last w m : like w m -> (forall c, last w = Some c -> is_alphanumeric c = false) -> forall d, last m = Some d -> is_alphanumeric d = false.
Proof.
  assert (Hlast : forall (s m : Text) d, m <> [] -> last (s ++ m) = Some d -> last m = Some d).
  { intros s m' d Hne. rewrite last_app. destruct (last m') eqn:E; [done|]. by apply last_None in E. }
  induction 1 as [|c d w m Hc Hcd Hl IH|s1 s2 w m Hn1 Hn2 Hs1 Hs2 Hl IH]; [done|..].
  - destruct (decide (w = [])) as [->|Hw].
    + pose proof (proj1 (like_nil_inv _ _ Hl) eq_refl) as ->. cbn. intros Hlast' ? [= <-]. rewrite <- (fold_word c d) by done. by apply Hlast'.
    + intros Hcw x Hx. apply (IH); [|apply (Hlast [d] m); [by rewrite <- like_nil_inv|done]]. intros y Hy. apply Hcw. by rewrite last_cons, Hy.
  - intros Hcw x Hx. destruct (decide (w = [])) as [->|Hw].
    + pose proof (proj1 (like_nil_inv _ _ Hl) eq_refl) as ->. rewrite app_nil_r in Hx. rewrite Forall_forall in Hs2. apply Hs2. by apply last_Some_elem_of.
    + apply IH; [|apply (Hlast s2 m); [by rewrite <- (like_nil_inv _ _ Hl)|done]]. intros y Hy. apply Hcw. by rewrite last_app, Hy.
Qed.

(** ** The term regex *)

Lemma re_search_inv icase l s t : re_search icase l s t = true -> exists a u, t = a ++ u /\ rmatch icase l (s && bool_decide (a = [])) u = true.
Proof.
  revert s; induction t as [|c t IH]; intros s; cbn; rewrite orb_true_iff.
  - intros [Hm|]; [|done]. exists [], []. cbn. by rewrite andb_true_r.
  - intros [Hm|Hm]; [exists [], (c :: t); cbn; by rewrite andb_true_r|].
    destruct (IH false Hm) as (a & u & -> & Hu). exists (c :: a), u. cbn. by rewrite andb_false_r.
Qed.

Lemma term_start_match w l s t : rmatch false ((if alnum_opt (head w) then [RStart false] else []) ++ l) s t = true ->
  exists e u s', t = e ++ u /\ rmatch false l s' u = true /\
    (alnum_opt (head w) = true -> (s = true /\ e = []) \/ exists c, e = [c] /\ is_alphanumeric c = false) /\ (alnum_opt (head w) = false -> e = []).
Proof.
  destruct (alnum_opt (head w)); [|intros; by exists [], t, s]. cbn. rewrite orb_true_iff, andb_true_iff. intros [[-> Hm]|Hm].
  - exists [], t, true. split_and!; auto.
  - destruct t as [|c t]; [done|]. apply andb_true_iff in Hm as [Hc%edge_not_word Hm]. exists [c], t, false. split_and!; [done|done| |done]. eauto.
Qed.

Lemma term_end_match w s t : rmatch false (if alnum_opt (last w) then [REnd false] else []) s t = true ->
  alnum_opt (last w) = true -> forall c, head t = Some c -> is_alphanumeric c = false.
Proof. destruct (alnum_opt (last w)); [|done]. cbn. destruct t as [|d t]; [done|]. rewrite andb_true_iff. intros [Hd%edge_not_word _] _ c [= <-]. done. Qed.

Lemma alnum_opt_ascii w c : all_ascii w = true -> c ∈ w -> ascii_alphanumeric c = false -> is_alphanumeric c = false.
Proof. rewrite all_ascii_Forall, Forall_forall. intros Hw Hc Hn. rewrite alphanumeric_ascii; auto. Qed.

(** The words of a needle that the term regex finds are words of the text, in a row. *)
Lemma term_holds_words w t : all_ascii w = true -> re_search false (term_regex w) true t = true -> holds_words w t.
Proof.
  intros Hw Hm. destruct (decide (w = [])) as [->|Hne]; [exists (pieces t), [], []; by rewrite app_nil_r|].
  apply re_search_inv in Hm as (a & u & -> & Hm). unfold term_regex in Hm.
  apply term_start_match in Hm as (e & v & s' & -> & Hm & Hstart & Hnostart).
  apply (term_items_match (length w)) in Hm as (m & r & s'' & -> & Hl & Hm); [|done|done].
  assert (Hbefore : cut (a ++ e) m).
  { destruct (alnum_opt (head w)) eqn:E.
    - left. destruct (Hstart eq_refl) as [[Hs ->]|(c & -> & Hc)].
      + apply bool_decide_eq_true in Hs as ->. done.
      + intros d. rewrite last_snoc. by intros [= <-].
    - right. apply (like_head w); [done|]. intros c Hc. apply (alnum_opt_ascii w); [done|by apply head_Some_elem_of|by rewrite Hc in E]. }
  assert (Hafter : cut m r).
  { destruct (alnum_opt (last w)) eqn:E; [right|left].
    - apply (term_end_match w s''); by rewrite E.
    - apply (like_last w); [done|]. intros c Hc. apply (alnum_opt_ascii w); [done|by apply last_Some_elem_of|by rewrite Hc in E]. }
  assert (Hbefore' : cut (a ++ e) (m ++ r)).
  { destruct Hbefore as [?|Hb]; [by left|right]. destruct m as [|x m]; [|done]. by pose proof (proj2 (like_nil_inv _ _ Hl) eq_refl). }
  exists (pieces (a ++ e)), (pieces m), (pieces r). split; [|symmetry; by apply like_pieces].
  by rewrite app_assoc, (pieces_app (a ++ e)), (pieces_app m).
Qed.

(** A needle without whitespace or backslashes occurs letter by letter. *)
Lemma term_occurrence w t : all_ascii w = true -> forallb (fun c => negb (is_whitespace c || (c =? 92))) w = true -> re_search false (term_regex w) true t = true ->
  exists a m b, t = a ++ m ++ b /\ Forall2 fold_eq w m /\ (alnum_opt (head w) = true -> forall c, last a = Some c -> is_alphanumeric c = false) /\
    (alnum_opt (last w) = true -> forall c, head b = Some c -> is_alphanumeric c = false).
Proof.
  intros Hw Hplain Hm. apply re_search_inv in Hm as (a & u & -> & Hm). unfold term_regex in Hm.
  apply term_start_match in Hm as (e & v & s' & -> & Hm & Hstart & Hnostart).
  assert (Hitems : term_items false w = RLit <$> w).
  { clear -Hplain. induction w as [|c w IH]; cbn in *; [done|]. apply andb_true_iff in Hplain as [Hc Hw]. rewrite negb_true_iff, orb_false_iff in Hc. destruct Hc as [-> ->]. by rewrite IH. }
  rewrite Hitems in Hm. assert (Hlits : exists m r s'', v = m ++ r /\ Forall2 fold_eq w m /\ rmatch false (if alnum_opt (last w) then [REnd false] else []) s'' r = true).
  { clear Hitems Hplain Hw Hstart Hnostart. revert s' v Hm. generalize (if alnum_opt (last w) then [REnd false] else []). intros l. induction w as [|c w IH]; intros s' v Hm; [by exists [], v, s'|].
    cbn in Hm. destruct v as [|d v]; [done|]. apply andb_true_iff in Hm as [Hd%lit_eq_exact Hm]. apply IH in Hm as (m & r & s'' & -> & Hf & Hr). exists (d :: m), r, s''. split_and!; [done|by constructor|done]. }
  destruct Hlits as (m & r & s'' & -> & Hf & Hr). exists (a ++ e), m, r. split_and!; [by rewrite <- app_assoc|done| |by apply (term_end_match w s'')].
  intros Hal. destruct (Hstart Hal) as [[Hs ->]|(c & -> & Hc)].
  - apply bool_decide_eq_true in Hs as ->. done.
  - intros d. rewrite last_snoc. by intros [= <-].
Qed.

(** ** Trimming *)

Lemma trim_start_inv t : exists ws, t = ws ++ trim_start t /\ Forall (fun c => is_whitespace c = true) ws.
Proof.
  induction t as [|c t (ws & E & Hws)]; [by exists []|]. cbn. destruct (is_whitespace c) eqn:Hc; [|by exists []].
  exists (c :: ws). split; [by rewrite <- app_comm_cons, <- E|by constructor].
Qed.

Lemma trim_inv t : exists a b, t = a ++ trim t ++ b /\ Forall (fun c => is_whitespace c = true) a /\ Forall (fun c => is_whitespace c = true) b.
Proof.
  unfold trim. destruct (trim_start_inv t) as (a & E & Ha). destruct (trim_start_inv (reverse (trim_start t))) as (b & F & Hb).
  exists a, (reverse b). split_and!; [|done|by apply Forall_reverse]. rewrite <- reverse_app, <- F, reverse_involutive. done.
Qed.

Lemma pieces_seps_r t s : Forall (fun c => is_alphanumeric c = false) s -> pieces (t ++ s) = pieces t.
Proof.
  intros Hs. rewrite pieces_app; [|right; intros c Hc; rewrite Forall_forall in Hs; by apply Hs, head_Some_elem_of].
  rewrite <- (app_nil_r s), pieces_seps by done. by rewrite app_nil_r.
Qed.

Lemma trim_pieces t : all_ascii t = true -> pieces (trim t) = pieces t /\ all_ascii (trim t) = true.
Proof.
  intros Ht. destruct (trim_inv t) as (a & b & E & Ha & Hb). rewrite E in Ht. apply all_ascii_Forall in Ht. rewrite !Forall_app in Ht. destruct Ht as (Hta & Htt & Htb).
  assert (Hsep : forall s, Forall (fun c => is_ascii c = true) s -> Forall (fun c => is_whitespace c = true) s -> Forall (fun c => is_alphanumeric c = false) s).
  { intros s. rewrite !Forall_forall. intros H2 H3 c Hc. apply whitespace_not_word; auto. }
  split; [|by apply all_ascii_Forall]. rewrite E at 2. by rewrite pieces_seps, pieces_seps_r by auto.
Qed.

(** ** Token search *)

(** A token of the bytes is a run between ASCII separators. *)
Lemma ch_loop_inv w0 bs token : token ∈ ch_loop (lower_all w0) bs -> Forall (fun b => token_byte b = true) w0 ->
  exists a w b, w0 ++ bs = a ++ w ++ b /\ token = lower_all w /\ w <> [] /\ Forall (fun b => token_byte b = true) w /\
    (a = [] \/ exists a' x, a = a' ++ [x] /\ token_byte x = false) /\ (forall x, head b = Some x -> token_byte x = false).
Proof.
  revert w0; induction bs as [|x bs IH]; intros w0 Hin Hw0; cbn in Hin.
  - destruct w0 as [|y w0]; cbn in Hin; [by apply elem_of_nil in Hin|]. apply list_elem_of_singleton in Hin as ->. exists [], (y :: w0), []. split_and!; [by rewrite app_nil_r|done..|by left|done].
  - fold (token_byte x) in Hin. destruct (token_byte x) eqn:E.
    + replace (lower_all w0 ++ [to_ascii_lowercase x]) with (lower_all (w0 ++ [x])) in Hin by (unfold lower_all; by rewrite fmap_app).
      apply IH in Hin as (a & w & b & Eq & ?); [|by apply Forall_app_2; [|constructor]]. exists a, w, b. split; [|done]. by rewrite <- Eq, <- app_assoc.
    + assert (Hrest : token ∈ ch_loop [] bs -> exists a w b, w0 ++ x :: bs = a ++ w ++ b /\ token = lower_all w /\ w <> [] /\ Forall (fun b => token_byte b = true) w /\
        (a = [] \/ exists a' y, a = a' ++ [y] /\ token_byte y = false) /\ (forall y, head b = Some y -> token_byte y = false)).
      { intros Hr. apply (IH []) in Hr as (a & w & b & Eq & Ht & Hne & Hw & Ha & Hb); [|constructor]. cbn in Eq. exists (w0 ++ x :: a), w, b. split_and!; [|done..| |done].
        - by rewrite Eq, <- app_assoc.
        - right. destruct Ha as [->|(a' & y & -> & Hy)]; [by exists w0, x|exists (w0 ++ x :: a'), y]. by rewrite <- app_assoc. }
      destruct w0 as [|y w0]; [by apply Hrest|]. cbn in Hin. apply elem_of_cons in Hin as [->|Hin]; [|by apply Hrest].
      exists [], (y :: w0), (x :: bs). split_and!; auto. by intros z [= <-].
Qed.

Lemma token_byte_ascii b : is_byte b -> token_byte b = false -> is_ascii b = true /\ is_alphanumeric b = false.
Proof.
  unfold token_byte, is_byte. rewrite orb_false_iff, Z.leb_gt. intros Hb [Hn Hlt].
  assert (Ha : is_ascii b = true) by (apply is_ascii_range; lia). split; [done|]. by rewrite alphanumeric_ascii.
Qed.

Lemma utf8_char_byte c : is_scalar c -> Forall is_byte (utf8_char c).
Proof.
  unfold is_scalar, utf8_char, is_byte. intros Hc.
  pose proof (Z.mod_pos_bound c 64). pose proof (Z.mod_pos_bound (c / 64) 64). pose proof (Z.mod_pos_bound (c / 4096) 64).
  pose proof (Z.div_pos c 64). pose proof (Z.div_pos c 4096). pose proof (Z.div_pos c 262144).
  destruct (Z.ltb_spec c 128); [repeat constructor; lia|]. destruct (Z.ltb_spec c 2048); [|destruct (Z.ltb_spec c 65536)].
  - pose proof (Z.div_lt_upper_bound c 64 32). repeat constructor; lia.
  - pose proof (Z.div_lt_upper_bound c 4096 16). repeat constructor; lia.
  - pose proof (Z.div_lt_upper_bound c 262144 5). repeat constructor; lia.
Qed.
Lemma utf8_byte t : Forall is_scalar t -> Forall is_byte (utf8 t).
Proof. induction 1 as [|c t Hc _ IH]; [constructor|]. rewrite utf8_cons. apply Forall_app_2; [by apply utf8_char_byte|done]. Qed.

(** A token in ASCII that [hasAllTokens] finds is a word of the text. *)
Lemma token_word w t : Forall is_scalar t -> all_ascii w = true -> lower_all w ∈ ch_tokens (utf8 t) ->
  exists p, p ∈ pieces t /\ lower_all p = lower_all w.
Proof.
  intros Ht Hw Hin. apply (ch_loop_inv []) in Hin as (a & p & b & E & Hl & Hne & Hp & Ha & Hb); [|constructor]. cbn in E.
  assert (Hpa : all_ascii p = true) by (by apply (all_ascii_lower w)). apply all_ascii_Forall in Hpa as Hpf.
  pose proof (utf8_byte t Ht) as Hbytes. destruct (utf8_infix t a p b Ht Hne Hpf E) as (ta & tb & -> & Hta & Htb).
  rewrite E, !Forall_app in Hbytes. destruct Hbytes as (Hba & _ & Hbb). rewrite !Forall_app in Ht. destruct Ht as (Hsa & _ & Hsb).
  exists p. split; [|done].
  assert (Hal : Forall (fun c => is_alphanumeric c = true) p).
  { rewrite Forall_forall in Hpf, Hp |- *. intros c Hc. rewrite alphanumeric_ascii by auto. specialize (Hp c Hc). specialize (Hpf c Hc).
    unfold token_byte in Hp. rewrite orb_true_iff, Z.leb_le in Hp. apply is_ascii_range in Hpf. destruct Hp; [done|lia]. }
  assert (Hca : cut ta (p ++ tb)).
  { left. destruct Ha as [->|(a' & x & -> & Hx)].
    - intros c Hc. apply last_Some in Hc as [l ->]. rewrite utf8_app in Hta. apply app_eq_nil in Hta as [_ Hta]. rewrite utf8_cons in Hta. apply app_eq_nil in Hta as [Hc _].
      revert Hc. unfold utf8_char. repeat case_match; done.
    - apply Forall_app in Hba as [_ Hbx]. rewrite Forall_singleton in Hbx. destruct (token_byte_ascii x Hbx Hx) as [Hxa Hxw].
      destruct (utf8_infix ta a' [x] []) as (l1 & l2 & -> & _ & Hl2); [done|done|by constructor|done|]. destruct l2 as [|y l2]; [|].
      + intros c. rewrite app_nil_r, last_snoc. by intros [= <-].
      + exfalso. rewrite utf8_cons in Hl2. apply app_eq_nil in Hl2 as [Hy _]. revert Hy. unfold utf8_char. repeat case_match; done. }
  assert (Hcb : cut p tb).
  { right. intros c Hc. destruct tb as [|y tb]; [done|]. injection Hc as ->. apply Forall_cons in Hsb as [Hsc Hsb]. rewrite utf8_cons in Htb.
    destruct (Z.lt_ge_cases c 128) as [Hlt|Hge].
    - assert (Hasc : is_ascii c = true) by (apply is_ascii_range; unfold is_scalar in Hsc; lia). rewrite utf8_char_ascii in Htb by done. subst b. rewrite alphanumeric_ascii by done.
      specialize (Hb c eq_refl). unfold token_byte in Hb. by apply orb_false_iff in Hb as [? _].
    - destruct (utf8_char_high c Hge) as [Hcn Hh]. destruct Hh as [|z l Hz _]; [done|]. subst b. specialize (Hb z eq_refl). unfold token_byte in Hb.
      rewrite orb_false_iff, Z.leb_gt in Hb. lia. }
  rewrite (pieces_app ta), (pieces_app p), (pieces_word p) by done. set_solver.
Qed.

(** ** Plain keywords *)

Lemma token_byte_word c : is_ascii c = true -> token_byte c = is_alphanumeric c.
Proof. intros Hc. rewrite alphanumeric_ascii by done. unfold token_byte. apply is_ascii_range in Hc. destruct (Z.leb_spec 128 c); [lia|]. apply orb_false_r. Qed.

Lemma count_pieces_ascii w : all_ascii w = true ->
  count_pieces false w = length (pieces w) /\ count_pieces true w = length (pieces (past_word w)).
Proof.
  induction w as [|c w IH]; [done|]. cbn [all_ascii forallb]. rewrite andb_true_iff. intros [Hc [IHf IHt]%IH]. cbn [count_pieces past_word].
  rewrite token_byte_word by done. rewrite (pieces_word_past (c :: w)). cbn [word past_word]. destruct (is_alphanumeric c) eqn:E; cbn [andb negb].
  - rewrite decide_False by done. cbn. by rewrite IHt.
  - rewrite decide_True by done. cbn [app]. by rewrite pieces_sep_cons.
Qed.

Lemma lower_word (u : Text) : (if decide (lower_all u = []) then [] else [lower_all u]) = lower_all <$> (if decide (u = []) then [] else [u]).
Proof. destruct u; [by rewrite !decide_True|by rewrite !decide_False]. Qed.

Lemma ch_loop_ascii w s : all_ascii w = true ->
  ch_loop s w = (if decide (s ++ lower_all (word w) = []) then [] else [s ++ lower_all (word w)]) ++ (lower_all <$> pieces (past_word w)).
Proof.
  revert s; induction w as [|c w IH]; intros s.
  { intros _. cbn [ch_loop word lower_all fmap list_fmap past_word]. rewrite !app_nil_r. destruct s; [by rewrite decide_True|by rewrite decide_False]. }
  cbn [all_ascii forallb]. rewrite andb_true_iff. intros [Hc Hw].
  cbn [ch_loop word past_word]. fold (token_byte c). rewrite token_byte_word by done. destruct (is_alphanumeric c) eqn:E.
  - rewrite IH by done. cbn [lower_all fmap list_fmap]. by rewrite <- !app_assoc.
  - rewrite pieces_sep_cons by done. assert (Hp : ch_loop [] w = lower_all <$> pieces w).
    { rewrite (IH [] Hw), (pieces_word_past w), fmap_app. f_equal. apply lower_word. }
    cbn [lower_all fmap list_fmap]. rewrite app_nil_r, Hp. destruct s; [by rewrite decide_True|by rewrite decide_False].
Qed.

Lemma ch_tokens_ascii w : all_ascii w = true -> ch_tokens w = lower_all <$> pieces w.
Proof.
  intros Hw. unfold ch_tokens. rewrite ch_loop_ascii by done. rewrite (pieces_word_past w), fmap_app. f_equal. apply lower_word.
Qed.

Lemma like_lower w : all_ascii w = true -> like w (lower_all w).
Proof.
  rewrite all_ascii_Forall. induction 1 as [|c w Hc _ IH]; cbn; [constructor|]. constructor; [done|unfold fold_eq; by rewrite lowercase_idemp|done].
Qed.

Lemma all_ascii_lower_all w : all_ascii w = true -> all_ascii (lower_all w) = true.
Proof. apply all_ascii_lower. unfold lower_all. rewrite <- list_fmap_compose. apply list_fmap_ext. intros. symmetry. apply lowercase_idemp. Qed.

Lemma has_wild_lower w : has_wild (lower_all w) = has_wild w.
Proof. induction w as [|c w IH]; cbn; [done|]. unfold has_wild in *. cbn. rewrite <- IH. f_equal. unfold is_wild. ascii_solve; destruct (Z.eqb_spec c 42), (Z.eqb_spec c 63), (Z.eqb_spec (c + 32) 42), (Z.eqb_spec (c + 32) 63); lia || done. Qed.

Lemma is_whitespace_lower c : is_ascii c = true -> is_whitespace (to_ascii_lowercase c) = is_whitespace c.
Proof.
  intros Hc. assert (Hl : is_ascii (to_ascii_lowercase c) = true) by (apply (fold_ascii_char c); [done|unfold fold_eq; by rewrite lowercase_idemp]).
  rewrite (whitespace_ascii c), (whitespace_ascii (to_ascii_lowercase c)) by done. ascii_solve; try done; lia.
Qed.

Lemma trim_start_lower w : all_ascii w = true -> trim_start (lower_all w) = lower_all (trim_start w) /\ all_ascii (trim_start w) = true.
Proof.
  induction w as [|c w IH]; [done|]. cbn [all_ascii forallb]. rewrite andb_true_iff. intros [Hc Hw]. cbn [lower_all fmap list_fmap trim_start]. rewrite is_whitespace_lower by done.
  destruct (is_whitespace c); [by apply IH|]. split; [done|]. cbn. by rewrite Hc.
Qed.

Lemma trim_lower w : all_ascii w = true -> trim (lower_all w) = lower_all (trim w).
Proof.
  intros Hw. unfold trim. destruct (trim_start_lower w Hw) as [-> Ha].
  assert (Hr : reverse (lower_all (trim_start w)) = lower_all (reverse (trim_start w))) by (unfold lower_all; by rewrite fmap_reverse).
  rewrite Hr. destruct (trim_start_lower (reverse (trim_start w))) as [-> _]; [|unfold lower_all; by rewrite fmap_reverse].
  apply all_ascii_Forall. apply all_ascii_Forall in Ha. by apply Forall_reverse.
Qed.

(** The predicate of an ASCII keyword of two or more words is its term regex. *)
Lemma bare_term v t : all_ascii v = true -> has_wild v = false -> (2 <= length (pieces v))%nat ->
  sql_holds (bare_keyword_predicate true v) t = true -> re_search false (term_regex (lower_all (trim v))) true t = true.
Proof.
  intros Hv Hwild Hp. unfold bare_keyword_predicate, to_lowercase. rewrite lower_loop_ascii by done. rewrite has_wild_lower, Hwild.
  assert (Hw : all_ascii (lower_all v) = true) by (by apply all_ascii_lower_all).
  assert (Hl : length (pieces (lower_all v)) = length (pieces v)).
  { pose proof (like_pieces _ _ (like_lower v Hv)) as E. apply (f_equal length) in E. by rewrite !length_fmap in E. }
  destruct (forallb ascii_separator (lower_all v)) eqn:Hsep.
  { exfalso. rewrite <- (app_nil_r (lower_all v)), pieces_seps in Hl; [change (length (pieces [])) with O in Hl; lia|]. apply Forall_forall. intros c Hc. rewrite forallb_forall in Hsep.
    apply separator_not_word, Hsep. by apply list_elem_of_In. }
  unfold keyword_term_regex_ascii_exact, keyword_term_regex. rewrite Hw, utf8_ascii by done. cbn [negb]. destruct (count_pieces_ascii _ Hw) as [-> _]. rewrite Hl.
  rewrite (proj2 (Nat.ltb_ge _ _)) by lia. by rewrite trim_lower.
Qed.

(** Every word of an ASCII keyword that its predicate finds in a column is a whole token
    there, and the words follow one another. *)
Lemma bare_keyword_words v t : all_ascii v = true -> has_wild v = false -> Forall is_scalar t ->
  sql_holds (bare_keyword_predicate true v) t = true -> holds_words v t.
Proof.
  intros Hv Hwild Ht. unfold bare_keyword_predicate, to_lowercase. rewrite lower_loop_ascii by done. set (w := lower_all v).
  assert (Hw : all_ascii w = true) by (by apply all_ascii_lower_all). assert (Hl : lower_all <$> pieces v = lower_all <$> pieces w) by (by apply like_pieces, like_lower).
  assert (Hvw : holds_words w t -> holds_words v t) by (intros (a & ps & b & ? & Hps); exists a, ps, b; by rewrite Hl).
  intros Hs. apply Hvw. clear Hvw Hl. replace (has_wild w) with false in Hs by (symmetry; unfold w; by rewrite has_wild_lower). clearbody w. clear v Hv Hwild.
  destruct (forallb ascii_separator w) eqn:Hsep.
  { exists (pieces t), [], []. rewrite app_nil_r. split; [done|]. rewrite <- (app_nil_r w), pieces_seps; [done|].
    apply Forall_forall. intros c Hc. rewrite forallb_forall in Hsep. apply separator_not_word, Hsep. by apply list_elem_of_In. }
  unfold keyword_term_regex_ascii_exact, keyword_term_regex in Hs. rewrite Hw, utf8_ascii in Hs by done. cbn [negb] in Hs.
  destruct (count_pieces_ascii w Hw) as [Hcount _]. rewrite Hcount in Hs. destruct (Nat.ltb_spec (length (pieces w)) 2) as [Hlt|_].
  - cbn in Hs. unfold has_all_tokens in Hs. rewrite (utf8_ascii w), (ch_tokens_ascii w) in Hs by done.
    destruct (pieces w) as [|p [|q ps]] eqn:Hp; [exists (pieces t), [], []; split; [by rewrite !app_nil_r|by rewrite Hp]| |cbn in Hlt; lia].
    cbn in Hs. rewrite andb_true_r in Hs. apply bool_decide_eq_true in Hs. pose proof (pieces_ascii w Hw) as Hpa. rewrite Hp, Forall_singleton in Hpa.
    destruct (token_word p t Ht Hpa Hs) as (q & Hq & Hqp). apply list_elem_of_split in Hq as (a & b & Hab). exists a, [q], b. rewrite Hp. cbn. by rewrite Hqp.
  - cbn in Hs. destruct (trim_pieces w Hw) as [Htrim Hta]. apply term_holds_words in Hs as (a & ps & b & ? & Hps); [|done]. exists a, ps, b. by rewrite <- Htrim.
Qed.

(** ** Wildcards and substrings *)

(** The value occurs in the text, [*] and [?] standing for any characters. *)
Definition contains (v t : Text) : bool := like_match ([LMany] ++ wildcard_to_like_pattern (to_lowercase v) ++ [LMany]) t.

Lemma many_inv l t : like_match (LMany :: l) t = true <-> exists a b, t = a ++ b /\ like_match l b = true.
Proof.
  split.
  - induction t as [|c t IH]; cbn; rewrite orb_true_iff.
    + intros [Hm|]; [|done]. by exists [], [].
    + intros [Hm|Hm]; [by exists [], (c :: t)|]. destruct (IH Hm) as (a & b & -> & Hb). by exists (c :: a), b.
  - intros (a & b & -> & Hb). induction a as [|c a IH]; [|cbn; rewrite orb_true_iff; right; exact IH]. destruct b; cbn; by rewrite ?Hb.
Qed.

Lemma like_match_app l1 l2 t : like_match (l1 ++ l2) t = true <-> exists a b, t = a ++ b /\ like_match l1 a = true /\ like_match l2 b = true.
Proof.
  revert t; induction l1 as [|i l1 IH]; intros t.
  - split; [by exists [], t|]. intros (a & b & -> & Ha & Hb). by destruct a.
  - destruct i as [| |c].
    + cbn [app]. rewrite many_inv. split.
      * intros (a & b & -> & (b1 & b2 & -> & H1' & H2')%IH). exists (a ++ b1), b2. rewrite many_inv. split_and!; [by rewrite app_assoc|eauto|done].
      * intros (a & b & -> & (a1 & a2 & -> & Ha)%many_inv & Hb). exists a1, (a2 ++ b). rewrite IH. split; [by rewrite app_assoc|eauto].
    + cbn. destruct t as [|d t]; [split; [done|]; by intros ([] & [] & ? & ? & ?)|]. rewrite IH. split.
      * intros (a & b & -> & Ha & Hb). by exists (d :: a), b.
      * intros ([|x a] & b & E & Ha & Hb); [done|]. injection E as -> ->. eauto.
    + cbn. destruct t as [|d t]; [split; [done|]; by intros ([] & [] & ? & ? & ?)|]. rewrite andb_true_iff, IH. split.
      * intros (Hc & a & b & -> & Ha & Hb). exists (d :: a), b. by rewrite Hc.
      * intros ([|x a] & b & E & Ha & Hb); [done|]. injection E as -> ->. apply andb_true_iff in Ha as [? ?]. eauto 6.
Qed.

Lemma many_all t : like_match [LMany] t = true.
Proof. apply many_inv. exists t, []. by rewrite app_nil_r. Qed.

Lemma like_infix l t : like_match ([LMany] ++ l ++ [LMany]) t = true <-> exists a m b, t = a ++ m ++ b /\ like_match l m = true.
Proof.
  rewrite like_match_app. setoid_rewrite like_match_app. split.
  - intros (a & ? & -> & _ & m & b & -> & Hm & _). eauto.
  - intros (a & m & b & -> & Hm). exists a, (m ++ b). split_and!; [done|apply many_all|]. exists m, b. split_and!; [done|done|apply many_all].
Qed.

(** A guard that is open on both sides, or whose needle is, lets any text around the needle. *)
Lemma wildcard_contains w t : sql_holds (wildcard_keyword_predicate w) t = true -> like_match ([LMany] ++ wildcard_to_like_pattern w ++ [LMany]) t = true.
Proof.
  unfold wildcard_keyword_predicate. cbv zeta. destruct (_ && _ && _); cbn [sql_holds].
  - intros Hm. apply like_infix. exists [], t, []. by rewrite app_nil_r.
  - rewrite andb_true_iff. intros [(a & b & -> & _ & (m & c & -> & Hm & _)%like_match_app)%like_match_app _]. apply like_infix. eauto.
Qed.

(** ASCII characters keep their places in the lower-case text. *)
Lemma lower_loop_prefix before w b : all_ascii w = true -> exists y, lower_loop before (w ++ b) = lower_all w ++ y.
Proof.
  rewrite all_ascii_Forall. intros Hw. revert before. induction Hw as [|c w Hc _ IH]; intros before; [by eexists|].
  cbn [app lower_loop]. destruct (Z.eqb_spec c SIGMA) as [->|_]; [done|]. destruct (IH (c :: before)) as [y ->]. rewrite lower_ascii by done. by exists y.
Qed.
Lemma lower_loop_infix before a w b : all_ascii w = true -> exists x y, lower_loop before (a ++ w ++ b) = x ++ lower_all w ++ y.
Proof.
  intros Hw. revert before; induction a as [|c a IH]; intros before.
  - destruct (lower_loop_prefix before w b Hw) as [y Hy]. exists [], y. done.
  - cbn [app lower_loop]. destruct (IH (c :: before)) as (x & y & ->). eexists (_ ++ x), y. by rewrite <- app_assoc.
Qed.

Lemma has_wild_infix v : has_wild v = true -> has_wild (to_lowercase v) = true.
Proof.
  intros Hv. unfold has_wild in Hv. apply existsb_exists in Hv as (c & Hin%list_elem_of_In & Hc). apply list_elem_of_split in Hin as (a & b & ->).
  assert (Hca : all_ascii [c] = true) by (unfold is_wild in Hc; rewrite orb_true_iff, !Z.eqb_eq in Hc; destruct Hc as [->| ->]; done).
  destruct (lower_loop_infix [] a [c] b Hca) as (x & y & E). unfold to_lowercase. cbn [app] in E. rewrite E.
  unfold has_wild. rewrite !existsb_app. replace (existsb is_wild (lower_all [c])) with true; [by rewrite orb_true_r|].
  unfold is_wild in *. rewrite orb_true_iff, !Z.eqb_eq in Hc. by destruct Hc as [->| ->].
Qed.

Lemma bare_wildcard_contains adjacency v t : has_wild v = true -> sql_holds (bare_keyword_predicate adjacency v) t = true -> contains v t = true.
Proof. intros Hv. unfold bare_keyword_predicate. rewrite has_wild_infix by done. apply wildcard_contains. Qed.

Lemma like_lits w m : like_match (LLit <$> w) m = true -> Forall2 (fun c d => ci_eq c d = true) w m.
Proof.
  revert m; induction w as [|c w IH]; intros [|d m]; cbn; try done. rewrite andb_true_iff. intros [? ?]. constructor; auto.
Qed.

Lemma like_item_lits w : has_wild w = false -> wildcard_to_like_pattern w = LLit <$> w.
Proof.
  unfold has_wild, wildcard_to_like_pattern. induction w as [|c w IH]; cbn; [done|]. rewrite orb_false_iff. intros [Hc Hw]. rewrite IH by done. f_equal.
  unfold is_wild in Hc. rewrite orb_false_iff in Hc. unfold like_item. by destruct Hc as [-> ->].
Qed.

(** The simple folding of RE2 on an ASCII character: its other case, and outside ASCII the long s
    for s and the Kelvin sign for k. *)
Class SimpleFolding := ci_ascii c d : is_ascii c = true -> ci_eq c d = true ->
  fold_eq c d \/ (to_ascii_lowercase c = 115 /\ d = LONG_S) \/ (to_ascii_lowercase c = 107 /\ d = KELVIN).
Context `{!SimpleFolding}.
(** A text without the two characters that fold into ASCII. *)
Definition plain_text (t : Text) : Prop := (LONG_S ∉ t) /\ (KELVIN ∉ t).

Lemma ci_folds w u : all_ascii w = true -> plain_text u -> Forall2 (fun c d => ci_eq c d = true) (lower_all w) u -> Forall2 fold_eq w u.
Proof.
  rewrite all_ascii_Forall. intros Hw. revert u. induction Hw as [|c w Hc _ IH]; intros u [Hs Hk] Hu.
  - cbn in Hu. apply Forall2_nil_inv_l in Hu as ->. constructor.
  - cbn in Hu. apply Forall2_cons_inv_l in Hu as (d & u' & Hd & Hu & ->). rewrite not_elem_of_cons in Hs, Hk. destruct Hs as [Hs Hs'], Hk as [Hk Hk'].
    constructor; [|by apply IH]. unfold fold_eq. rewrite <- (lowercase_idemp c).
    destruct (ci_ascii (to_ascii_lowercase c) d) as [?|[[_ ?]|[_ ?]]]; [|done|done|congruence..]. by apply (fold_ascii_char c); [|unfold fold_eq; rewrite lowercase_idemp].
Qed.

(** ASCII characters of a value occur in a row in any text that contains the value. *)
Lemma contains_window a w b t : all_ascii w = true -> has_wild w = false -> plain_text t -> contains (a ++ w ++ b) t = true ->
  exists p u q, t = p ++ u ++ q /\ Forall2 fold_eq w u.
Proof.
  intros Hw Hwild [Hs Hk] Hc. apply like_infix in Hc as (p & m & q & -> & Hm). unfold to_lowercase in Hm.
  destruct (lower_loop_infix [] a w b Hw) as (x & y & E). rewrite E in Hm. unfold wildcard_to_like_pattern in Hm. rewrite !fmap_app in Hm.
  apply like_match_app in Hm as (m1 & m2 & -> & _ & Hm). apply like_match_app in Hm as (u & m3 & -> & Hu & _).
  change (like_item <$> lower_all w) with (wildcard_to_like_pattern (lower_all w)) in Hu. rewrite like_item_lits in Hu by (by rewrite has_wild_lower).
  apply like_lits in Hu. exists (p ++ m1), u, (m3 ++ q). split; [by rewrite <- !app_assoc|].
  apply ci_folds; [done| |done]. split; set_solver.
Qed.
End Facts.
