(* ===== verification/Addresses.v ===== *)
(** * Addresses: the whole IP addresses of a text

    Models [address_tokens] and [address_needle] of [parts/sidecar.rs]: every IPv4 address of
    four chained digit runs and every IPv6 address on the edges of a run of hex digits and
    colons, as one token each. [Ipv6Addr]'s parser is a parameter with the shape of the
    textual form as its law. *)
From S2P Require Import Prelude Bytes TextTokens.

Definition DOT : Z := 46.
Definition COLON : Z := 58.
Definition is_hexdigit (b : Z) : bool := ascii_digit b || ((97 <=? b) && (b <=? 102)) || ((65 <=? b) && (b <=? 70)).
(** [is_hex_or_colon] *)
Definition is_hex_or_colon (b : Z) : bool := is_hexdigit b || (b =? COLON).

(** [text[first..end]] *)
Definition slice (first last : nat) (bs : list Z) : Bytes := take (last - first) (drop first bs).
Fixpoint run_length (f : Z -> bool) (bs : list Z) : nat := match bs with b :: bs => if f b then S (run_length f bs) else O | [] => O end.
Definition count_colons (bs : list Z) : nat := length (filter (fun b => b = COLON) bs).
(** The starts of [::]. *)
Fixpoint count_doubles (bs : list Z) : nat :=
  match bs with a :: ((b :: _) as bs') => Nat.add (if (a =? COLON) && (b =? COLON) then 1 else 0) (count_doubles bs') | _ => O end.

(** A scan emits tokens in order; [None] is a scan that ran out of rounds. *)
Definition emit (tokens : list Bytes) (rest : option (list Bytes)) : option (list Bytes) := app tokens <$> rest.

(** ** IPv4 *)

(** [ipv4_octet] *)
Definition ipv4_octet (piece : Bytes) : bool :=
  (1 <=? length piece)%nat && (length piece <=? 3)%nat && forallb ascii_digit piece
  && (foldl (fun n b => n * 10 + (b - 48)) 0 piece <=? 255).
(** [is_ipv4_address] *)
Definition is_ipv4_address (text : Bytes) : bool :=
  let ps := split_on (fun b => b =? DOT) text in forallb ipv4_octet ps && (length ps =? 4)%nat.

(** [chain]: the last four octets, by their number modulo four; [chained]: how many joined
    octets end here. Each round consumes a byte, so the length is fuel enough. *)
Fixpoint v4_loop (fuel : nat) (bs : list Z) (at_byte : nat) (chain : list (nat * nat)) (chained : nat) : option (list Bytes) :=
  match fuel with
  | O => None
  | S fuel =>
      match bs !! at_byte with
      | None => Some []
      | Some b =>
          if negb (ascii_digit b) then v4_loop fuel bs (S at_byte) chain chained else
          let start := at_byte in
          let at_byte := (start + run_length ascii_digit (drop start bs))%nat in
          let joined := (0 <? chained)%nat && (1 <=? start)%nat && bool_decide (bs !! (start - 1)%nat = Some DOT)
                        && (snd (chain !!! ((chained - 1) mod 4)%nat) + 1 =? start)%nat in
          let chained := if joined then chained else O in
          if ipv4_octet (slice start at_byte bs) then
            let chain := <[(chained mod 4)%nat := (start, at_byte)]> chain in
            let chained := S chained in
            emit (if (4 <=? chained)%nat then [slice (fst (chain !!! ((chained - 4) mod 4)%nat)) at_byte bs] else [])
              (v4_loop fuel bs at_byte chain chained)
          else v4_loop fuel bs at_byte chain O
      end
  end.
Definition v4_tokens (bs : list Z) : list Bytes := default [] (v4_loop (S (length bs)) bs 0 [(0, 0); (0, 0); (0, 0); (0, 0)]%nat O).

(** ** IPv6 *)

(** [str::parse::<Ipv6Addr>] succeeds. *)
Class Ipv6Parser := ipv6_parses : Bytes -> bool.

Section Addresses.
Context `{Ipv6Parser}.

(** [is_ipv6_address] *)
Definition is_ipv6_address (text : Bytes) : bool := (2 <=? count_colons text)%nat && ipv6_parses text.

Definition edge_start (run : list Z) (i : nat) : bool :=
  (i =? 0)%nat || bool_decide (run !! (i - 1)%nat = Some COLON) || bool_decide (run !! i = Some COLON).
Definition edge_end (run : list Z) (j : nat) : bool :=
  (j =? length run)%nat || bool_decide (run !! j = Some COLON) || bool_decide (run !! (j - 1)%nat = Some COLON).
(** The colons and the starts of [::] before each byte. *)
Definition colons_before (run : list Z) (k : nat) : nat := count_colons (take k run).
Definition doubles_before (run : list Z) (k : nat) : nat := count_doubles (take (S k) run).

(** The windows of one start, over the ends in order; more than eight colons end the loop. *)
Fixpoint v6_ends (run : list Z) (i : nat) (ends : list nat) : list Bytes :=
  match ends with
  | [] => []
  | j :: ends =>
      let colons := (colons_before run j - colons_before run i)%nat in
      let doubles := (doubles_before run (j - 1) - doubles_before run i)%nat in
      if (8 <? colons)%nat then [] else
      if negb (((doubles =? 0)%nat && (colons =? 7)%nat) || (doubles =? 1)%nat) then v6_ends run i ends else
      let candidate := slice i j run in
      (if is_ipv6_address candidate then [lower_all candidate] else []) ++ v6_ends run i ends
  end.
(** One run of hex digits and colons. *)
Definition v6_run (run : list Z) : list Bytes :=
  let colons := count_colons run in
  if (colons <? 2)%nat || ((colons <? 7)%nat && (count_doubles run =? 0)%nat) then [] else
  concat ((fun i => v6_ends run i (filter (fun j => edge_end run j = true) (seq (i + 2) (S (Nat.min (length run) (i + 39)) - (i + 2)))))
    <$> filter (fun i => edge_start run i = true) (seq 0 (length run))).
(** The maximal runs of a text; each round consumes a byte. *)
Fixpoint v6_loop (fuel : nat) (bs : list Z) : option (list Bytes) :=
  match fuel, bs with
  | _, [] => Some []
  | O, _ => None
  | S fuel, b :: bs' =>
      if negb (is_hex_or_colon b) then v6_loop fuel bs' else
      let n := run_length is_hex_or_colon bs in emit (v6_run (take n bs)) (v6_loop fuel (drop n bs))
  end.
Definition v6_tokens (bs : list Z) : list Bytes := default [] (v6_loop (length bs) bs).

(** [address_tokens] *)
Definition address_tokens (t : Text) : list Bytes := v4_tokens (utf8 t) ++ v6_tokens (utf8 t).

(** [address_needle] *)
Definition address_needle `{Unicode} (value : Text) : option Bytes :=
  let trimmed := utf8 (trim value) in
  if is_ipv4_address trimmed || (forallb is_hex_or_colon trimmed && is_ipv6_address trimmed) then Some (lower_all trimmed) else None.
End Addresses.

(** ** The tokens of a scan *)

Definition emits (x : Bytes) (o : option (list Bytes)) : Prop := exists l, o = Some l /\ x ∈ l.
Lemma emits_left x l o : x ∈ l -> is_Some o -> emits x (emit l o).
Proof. intros Hx [k ->]. exists (l ++ k). split; [done|]. apply elem_of_app. by left. Qed.
Lemma emits_right x l o : emits x o -> emits x (emit l o).
Proof. intros (k & -> & Hx). exists (l ++ k). split; [done|]. apply elem_of_app. by right. Qed.
Lemma elem_emit x l o : x ∈ default [] (emit l o) -> x ∈ l \/ x ∈ default [] o.
Proof. destruct o as [k|]; cbn; [apply elem_of_app|by intros ?%elem_of_nil]. Qed.
Lemma emits_default x o : emits x o -> x ∈ default [] o.
Proof. by intros (l & -> & Hx). Qed.
Lemma emit_some l o : is_Some o -> is_Some (emit l o).
Proof. intros [k ->]. by eexists. Qed.

Lemma run_length_pos f b bs : f b = true -> (0 < run_length f (b :: bs))%nat.
Proof. intros Hb. cbn. rewrite Hb. lia. Qed.

(** The scans end: a round consumes at least a byte. *)
Lemma v4_ends fuel bs at_byte chain chained : (length bs < fuel + at_byte)%nat -> (at_byte <= length bs)%nat -> is_Some (v4_loop fuel bs at_byte chain chained).
Proof.
  revert at_byte chain chained; induction fuel as [|fuel IH]; intros at_byte chain chained H1 H2; [lia|].
  cbn [v4_loop]. destruct (bs !! at_byte) as [b|] eqn:Hb; [|by eexists]. pose proof (lookup_lt_Some _ _ _ Hb) as Hlt.
  destruct (ascii_digit b) eqn:Hd; cbn [negb]; [|apply IH; lia]. assert (Hn : (0 < run_length ascii_digit (drop at_byte bs) <= length bs - at_byte)%nat).
  { rewrite <- length_drop. split; [rewrite (drop_S _ b) by done; by apply run_length_pos|]. generalize (drop at_byte bs). clear. intros l. induction l as [|c l IH]; cbn; [done|]. destruct (ascii_digit c); lia. }
  set (n := run_length _ _) in *. clearbody n. destruct (ipv4_octet _); [apply emit_some|]; apply IH; lia.
Qed.
Lemma v6_ends_loop `{Ipv6Parser} fuel bs : (length bs <= fuel)%nat -> is_Some (v6_loop fuel bs).
Proof.
  revert bs; induction fuel as [|fuel IH]; intros bs; (destruct bs as [|b bs]; [by eexists|]); [cbn; lia|]. intros Hl. cbn [v6_loop].
  destruct (is_hex_or_colon b) eqn:Hb; cbn [negb]; [|apply IH; cbn in Hl; lia]. pose proof (run_length_pos is_hex_or_colon b bs Hb) as Hn. set (n := run_length _ _) in *. clearbody n.
  apply emit_some, IH. rewrite length_drop. cbn in *. lia.
Qed.

(** * Every IPv4 address is emitted *)

Lemma run_length_word f (w b : list Z) : Forall (fun c => f c = true) w -> (forall c, head b = Some c -> f c = false) -> run_length f (w ++ b) = length w.
Proof.
  intros Hw Hb. induction Hw as [|c w Hc _ IH]; cbn; [|by rewrite Hc, IH]. destruct b as [|c b]; [done|]. cbn. by rewrite (Hb c eq_refl).
Qed.

Lemma run_length_le f bs : (run_length f bs <= length bs)%nat.
Proof. induction bs as [|b bs IH]; cbn; [done|]. destruct (f b); lia. Qed.

Lemma run_length_lookup f bs i : (i < run_length f bs)%nat -> exists c, bs !! i = Some c /\ f c = true.
Proof. revert i; induction bs as [|b bs IH]; intros i; cbn; [lia|]. destruct (f b) eqn:E; [|lia]. destruct i as [|i]; [by exists b|]. intros Hi. apply IH. lia. Qed.

Lemma slice_mid (a w b : list Z) : slice (length a) (length a + length w) (a ++ w ++ b) = w.
Proof. unfold slice. rewrite drop_app_length, Nat.add_comm, Nat.add_sub. apply take_app_length. Qed.

Lemma octet_digits w : ipv4_octet w = true -> Forall (fun c => ascii_digit c = true) w /\ (0 < length w)%nat.
Proof.
  unfold ipv4_octet. rewrite !andb_true_iff, forallb_forall, Nat.leb_le. intros [[[Hl _] Hd] _]. split; [|lia]. apply Forall_forall. intros c Hc. by apply Hd, list_elem_of_In.
Qed.

(** Whether a run that starts at [s] continues the chain. *)
Definition is_joined (bs : list Z) (s chained : nat) (chain : list (nat * nat)) : bool :=
  (0 <? chained)%nat && (1 <=? s)%nat && bool_decide (bs !! (s - 1)%nat = Some DOT) && (snd (chain !!! ((chained - 1) mod 4)%nat) + 1 =? s)%nat.

Lemma v4_octet_step fuel bs s e c0 d chain chained : bs !! s = Some d -> ascii_digit d = true -> (s + run_length ascii_digit (drop s bs))%nat = e ->
  ipv4_octet (slice s e bs) = true -> (if is_joined bs s chained chain then chained else O) = c0 ->
  v4_loop (S fuel) bs s chain chained
  = emit (if (4 <=? S c0)%nat then [slice (fst (<[(c0 mod 4)%nat := (s, e)]> chain !!! ((S c0 - 4) mod 4)%nat)) e bs] else [])
      (v4_loop fuel bs e (<[(c0 mod 4)%nat := (s, e)]> chain) (S c0)).
Proof. intros Hs Hd He Ho <-. cbn [v4_loop]. rewrite Hs, Hd. cbn [negb]. rewrite He, Ho. reflexivity. Qed.

Lemma v4_skip fuel bs s chain chained c : bs !! s = Some c -> ascii_digit c = false -> v4_loop (S fuel) bs s chain chained = v4_loop fuel bs (S s) chain chained.
Proof. intros Hs Hc. cbn. by rewrite Hs, Hc. Qed.

(** The scan reaches every start of a digit run. *)
Lemma v4_reach fuel bs s p chain chained : (s <= p <= length bs)%nat -> (length bs < fuel + s)%nat -> length chain = 4%nat ->
  (p = 0%nat \/ exists c, bs !! (p - 1)%nat = Some c /\ ascii_digit c = false) ->
  exists fuel' chain' chained', (length bs < fuel' + p)%nat /\ length chain' = 4%nat /\
    forall x, emits x (v4_loop fuel' bs p chain' chained') -> emits x (v4_loop fuel bs s chain chained).
Proof.
  revert s chain chained; induction fuel as [|fuel IH]; intros s chain chained Hsp Hf Hch Hp; [lia|].
  destruct (decide (s = p)) as [->|Hne]; [by exists (S fuel), chain, chained|].
  destruct (lookup_lt_is_Some_2 bs s) as [b Hb]; [lia|]. destruct (ascii_digit b) eqn:Hd.
  - set (e := (s + run_length ascii_digit (drop s bs))%nat).
    assert (He : (s < e <= p)%nat).
    { assert (Hpos : (0 < run_length ascii_digit (drop s bs))%nat).
      { destruct (drop s bs) as [|x l] eqn:E; [apply (f_equal length) in E; rewrite length_drop in E; cbn in E; lia|]. cbn.
        assert (x = b) as -> by (pose proof (lookup_drop bs s 0) as Hl; rewrite E, Nat.add_0_r, Hb in Hl; by injection Hl). rewrite Hd. lia. }
      split; [unfold e; lia|]. destruct (Nat.le_gt_cases e p) as [|Hgt]; [done|exfalso]. destruct Hp as [->|(c & Hc & Hcd)]; [lia|].
      destruct (run_length_lookup ascii_digit (drop s bs) (p - 1 - s)) as (c' & Hc' & Hcd'); [unfold e in Hgt; lia|]. rewrite lookup_drop in Hc'. replace (s + (p - 1 - s))%nat with (p - 1)%nat in Hc' by lia. congruence. }
    cbn [v4_loop]. rewrite Hb, Hd. cbn [negb]. fold e. destruct (ipv4_octet _).
    + match goal with |- context [emit _ (v4_loop fuel bs e ?ch ?cc)] => destruct (IH e ch cc) as (f' & ch' & c' & ? & ? & Hin) end; [lia|lia|by rewrite length_insert|done|].
      exists f', ch', c'. split_and!; [done|done|]. intros x Hx. by apply emits_right, Hin.
    + destruct (IH e chain 0%nat) as (f' & ch' & c' & ? & ? & Hin); [lia|lia|done|done|]. exists f', ch', c'. split_and!; auto.
  - destruct (IH (S s) chain chained) as (f' & ch' & c' & ? & ? & Hin); [lia|lia|done|done|]. exists f', ch', c'. split_and!; [done|done|]. intros x Hx. rewrite (v4_skip fuel bs s chain chained b) by done. by apply Hin.
Qed.

Lemma octet_at (a w b : list Z) : ipv4_octet w = true -> (forall c, head b = Some c -> ascii_digit c = false) ->
  exists d, (a ++ w ++ b) !! length a = Some d /\ ascii_digit d = true /\
    (length a + run_length ascii_digit (drop (length a) (a ++ w ++ b)))%nat = (length a + length w)%nat /\
    ipv4_octet (slice (length a) (length a + length w) (a ++ w ++ b)) = true.
Proof.
  intros Hw Hb. destruct (octet_digits w Hw) as [Hd Hpos]. destruct w as [|d w]; [cbn in Hpos; lia|]. exists d.
  rewrite lookup_app_r, Nat.sub_diag by lia. rewrite drop_app_length, run_length_word, slice_mid by done. apply Forall_cons in Hd as [? _]. done.
Qed.

(** An octet joined by a dot to the last one. *)
Lemma v4_next fuel bs (a w b : list Z) e0 e chain c s : bs = a ++ DOT :: w ++ b -> e0 = length a -> e = (e0 + 1 + length w)%nat ->
  ipv4_octet w = true -> (forall x, head b = Some x -> ascii_digit x = false) -> (0 < c)%nat -> chain !!! ((c - 1) mod 4)%nat = (s, e0) ->
  let chain' := <[(c mod 4)%nat := (S e0, e)]> chain in
  v4_loop (S (S fuel)) bs e0 chain c
  = emit (if (4 <=? S c)%nat then [slice (fst (chain' !!! ((S c - 4) mod 4)%nat)) e bs] else []) (v4_loop fuel bs e chain' (S c)).
Proof.
  intros Hbs -> -> Hw Hb Hc Hlast chain'. destruct (octet_at (a ++ [DOT]) w b Hw Hb) as (d & Hd & Hdd & Hrun & Hoct).
  rewrite length_app in Hd, Hrun, Hoct. cbn [length] in Hd, Hrun, Hoct. rewrite <- app_assoc in Hd, Hrun, Hoct. cbn [app] in Hd, Hrun, Hoct. rewrite <- Hbs in Hd, Hrun, Hoct.
  assert (Hat : bs !! length a = Some DOT) by (rewrite Hbs, lookup_app_r, Nat.sub_diag by lia; done).
  rewrite (v4_skip _ bs (length a) chain c DOT) by done.
  unfold chain'. replace (S (length a)) with (length a + 1)%nat by lia. apply (v4_octet_step fuel bs (length a + 1) _ c d); [done|done|done|done|].
  unfold is_joined. rewrite Hlast. cbn [snd]. replace (length a + 1 - 1)%nat with (length a) by lia.
  rewrite (proj2 (Nat.ltb_lt _ _) Hc), (proj2 (Nat.leb_le 1 (length a + 1))) by lia. rewrite bool_decide_true by done.
  by rewrite (proj2 (Nat.eqb_eq _ _)) by lia.
Qed.

Lemma chain_insert (chain : list (nat * nat)) i x : length chain = 4%nat -> <[(i mod 4)%nat := x]> chain !!! (i mod 4)%nat = x.
Proof. intros Hl. apply list_lookup_total_insert_eq. rewrite Hl. by apply Nat.mod_upper_bound. Qed.

Lemma mod4_ne i k : (0 < k < 4)%nat -> (i mod 4 <> (i + k) mod 4)%nat.
Proof. intros Hk E. pose proof (Nat.div_mod_eq i 4). pose proof (Nat.div_mod_eq (i + k) 4). lia. Qed.

Lemma v4_complete (a o1 o2 o3 o4 b : list Z) :
  Forall (fun o => ipv4_octet o = true) [o1; o2; o3; o4] -> (forall c, last a = Some c -> ascii_digit c = false) -> (forall c, head b = Some c -> ascii_digit c = false) ->
  let w := o1 ++ DOT :: o2 ++ DOT :: o3 ++ DOT :: o4 in w ∈ v4_tokens (a ++ w ++ b).
Proof.
  rewrite !Forall_cons. intros (H1 & H2 & H3 & H4 & _) Ha Hb w. set (bs := a ++ w ++ b). unfold v4_tokens.
  destruct (v4_reach (S (length bs)) bs 0 (length a) [(0, 0); (0, 0); (0, 0); (0, 0)]%nat 0) as (fuel & chain & chained & Hfuel & Hch & Hin).
  { split; [lia|]. unfold bs. rewrite length_app. lia. } { lia. } { done. }
  { destruct a as [|x a' _] using rev_ind; [by left|right]. exists x. rewrite last_snoc in Ha. split; [|by apply Ha]. unfold bs. rewrite length_app, Nat.add_sub, <- app_assoc, lookup_app_r, Nat.sub_diag by lia. done. }
  apply emits_default, Hin. clear Hin. assert (Hlen : (length o1 + length o2 + length o3 + length o4 + 3 = length w)%nat) by (unfold w; repeat (rewrite length_app; cbn [length]); lia).
  destruct (octet_digits o1 H1) as [_ ?], (octet_digits o2 H2) as [_ ?], (octet_digits o3 H3) as [_ ?], (octet_digits o4 H4) as [_ ?].
  assert (Hbs : length bs = (length a + length w + length b)%nat) by (unfold bs; rewrite !length_app; lia).
  do 7 (destruct fuel as [|fuel]; [lia|]).
  assert (Hdot : forall (t : list Z) c, head (DOT :: t) = Some c -> ascii_digit c = false) by (by intros t c [= <-]).
  destruct (octet_at a o1 (DOT :: o2 ++ DOT :: o3 ++ DOT :: o4 ++ b) H1 (Hdot _)) as (d & Hd & Hdd & Hrun & Hoct).
  assert (E1 : bs = a ++ o1 ++ DOT :: o2 ++ DOT :: o3 ++ DOT :: o4 ++ b) by (unfold bs, w; by rewrite <- !app_assoc; cbn; rewrite <- !app_assoc; cbn; rewrite <- !app_assoc).
  rewrite <- E1 in Hd, Hrun, Hoct. set (e1 := (length a + length o1)%nat) in *. set (e2 := (e1 + 1 + length o2)%nat). set (e3 := (e2 + 1 + length o3)%nat). set (e4 := (e3 + 1 + length o4)%nat).
  set (c0 := if is_joined bs (length a) chained chain then chained else O).
  rewrite (v4_octet_step _ bs (length a) e1 c0 d) by done. apply emits_right.
  set (chain1 := <[(c0 mod 4)%nat := _]> chain). assert (Hl1 : length chain1 = 4%nat) by (unfold chain1; by rewrite length_insert).
  rewrite (v4_next _ bs (a ++ o1) o2 (DOT :: o3 ++ DOT :: o4 ++ b) e1 e2 chain1 (S c0) (length a));
    [|by rewrite E1, <- app_assoc|by rewrite length_app|done|done|by apply Hdot|lia|replace (S c0 - 1)%nat with c0 by lia; unfold chain1; by rewrite chain_insert].
  apply emits_right. set (chain2 := <[(S c0 mod 4)%nat := _]> chain1). assert (Hl2 : length chain2 = 4%nat) by (unfold chain2; by rewrite length_insert).
  rewrite (v4_next _ bs (a ++ o1 ++ DOT :: o2) o3 (DOT :: o4 ++ b) e2 e3 chain2 (S (S c0)) (S e1));
    [|by rewrite E1, <- !app_assoc|rewrite !length_app; cbn [length]; unfold e2, e1; lia|done|done|by apply Hdot|lia|replace (S (S c0) - 1)%nat with (S c0) by lia; unfold chain2; by rewrite chain_insert].
  apply emits_right. set (chain3 := <[(S (S c0) mod 4)%nat := _]> chain2). assert (Hl3 : length chain3 = 4%nat) by (unfold chain3; by rewrite length_insert).
  rewrite (v4_next _ bs (a ++ o1 ++ DOT :: o2 ++ DOT :: o3) o4 b e3 e4 chain3 (S (S (S c0))) (S e2));
    [|by rewrite E1, <- !app_assoc; cbn; rewrite <- !app_assoc|rewrite !length_app; cbn [length]; rewrite !length_app; cbn [length]; unfold e3, e2, e1; lia|done|done|done|lia|replace (S (S (S c0)) - 1)%nat with (S (S c0)) by lia; unfold chain3; by rewrite chain_insert].
  apply emits_left; [|apply v4_ends; unfold e4, e3, e2, e1; lia]. rewrite (proj2 (Nat.leb_le 4 _)) by lia. apply list_elem_of_singleton. replace (S (S (S (S c0))) - 4)%nat with c0 by lia.
  assert (Hfirst : <[(S (S (S c0)) mod 4)%nat := (S e3, e4)]> chain3 !!! (c0 mod 4)%nat = (length a, e1)).
  { pose proof (mod4_ne c0 1 ltac:(lia)) as N1. pose proof (mod4_ne c0 2 ltac:(lia)) as N2. pose proof (mod4_ne c0 3 ltac:(lia)) as N3.
    rewrite list_lookup_total_insert_ne by (replace (S (S (S c0))) with (c0 + 3)%nat by lia; lia). unfold chain3. rewrite list_lookup_total_insert_ne by (replace (S (S c0)) with (c0 + 2)%nat by lia; lia).
    unfold chain2. rewrite list_lookup_total_insert_ne by (replace (S c0) with (c0 + 1)%nat by lia; lia). by apply chain_insert. }
  rewrite Hfirst. cbn [fst]. unfold bs. replace e4 with (length a + length w)%nat by (unfold e4, e3, e2, e1; lia). symmetry. apply slice_mid.
Qed.

(** * Every IPv6 address on its edges is emitted *)

(** The textual form of an address in hex digits and colons: at most eight colons, seven of
    them or one [::], in at most 39 bytes; the parser ignores case. *)
Class Ipv6Laws `{Ipv6Parser} := {
  ipv6_shape s : forallb is_hex_or_colon s = true -> ipv6_parses s = true ->
    (length s <= 39)%nat /\ (count_colons s <= 8)%nat /\ ((count_doubles s = 0%nat /\ count_colons s = 7%nat) \/ count_doubles s = 1%nat);
  ipv6_case s u : lower_all s = lower_all u -> ipv6_parses s = ipv6_parses u }.

Lemma count_colons_app a b : count_colons (a ++ b) = (count_colons a + count_colons b)%nat.
Proof. unfold count_colons. by rewrite filter_app, length_app. Qed.

Lemma count_colons_length w : (count_colons w <= length w)%nat.
Proof. apply length_filter. Qed.

Lemma count_doubles_join x h w : count_doubles (x ++ h :: w) = (count_doubles (x ++ [h]) + count_doubles (h :: w))%nat.
Proof.
  induction x as [|c x IH]; [cbn; lia|]. cbn [app]. destruct x as [|d x]; cbn [app] in *.
  - cbn [count_doubles]. destruct w; cbn; lia.
  - change (count_doubles (c :: d :: x ++ h :: w)) with (Nat.add (if (c =? COLON) && (d =? COLON) then 1 else 0) (count_doubles (d :: x ++ h :: w))).
    change (count_doubles (c :: d :: x ++ [h])) with (Nat.add (if (c =? COLON) && (d =? COLON) then 1 else 0) (count_doubles (d :: x ++ [h]))). rewrite IH. lia.
Qed.

Lemma count_doubles_prefix w y : (count_doubles w <= count_doubles (w ++ y))%nat.
Proof.
  induction w as [|c w IH]; [cbn; lia|]. destruct w as [|d w]; [cbn; lia|]. cbn [app] in *.
  change (count_doubles (c :: d :: w ++ y)) with (Nat.add (if (c =? COLON) && (d =? COLON) then 1 else 0) (count_doubles (d :: w ++ y))).
  change (count_doubles (c :: d :: w)) with (Nat.add (if (c =? COLON) && (d =? COLON) then 1 else 0) (count_doubles (d :: w))). lia.
Qed.

Section Complete6.
Context `{Ipv6Laws}.

(** Edges: the neighbour is outside the run or a colon, or the address has a colon there. *)
Definition open_edge (neighbour inside : option Z) : Prop :=
  match neighbour with None => True | Some c => is_hex_or_colon c = false \/ c = COLON \/ inside = Some COLON end.

Lemma v6_ends_in run i j k n : (k <= j < k + n)%nat -> edge_end run j = true -> (colons_before run j - colons_before run i <= 8)%nat ->
  ((doubles_before run (j - 1) - doubles_before run i = 0 /\ colons_before run j - colons_before run i = 7) \/ doubles_before run (j - 1) - doubles_before run i = 1)%nat ->
  is_ipv6_address (slice i j run) = true -> lower_all (slice i j run) ∈ v6_ends run i (filter (fun j => edge_end run j = true) (seq k n)).
Proof.
  intros Hj He Hc Hd Hp. revert k Hj. induction n as [|n IH]; intros k Hj; [lia|]. cbn [seq]. rewrite filter_cons.
  destruct (decide (k = j)) as [->|Hne].
  - rewrite decide_True by done. cbn [v6_ends]. rewrite (proj2 (Nat.ltb_ge _ _) Hc).
    replace (_ || _) with true; [cbn [negb]; rewrite Hp; by left|]. symmetry. apply orb_true_iff. rewrite andb_true_iff, !Nat.eqb_eq. done.
  - specialize (IH (S k) ltac:(lia)). case_decide; [|done]. cbn [v6_ends].
    assert (Hmono : (colons_before run k <= colons_before run j)%nat).
    { unfold colons_before. replace j with (k + (j - k))%nat by lia. rewrite <- take_take_drop, count_colons_app. lia. }
    rewrite (proj2 (Nat.ltb_ge _ _)) by lia. destruct (negb _); [done|]. apply elem_of_app. by right.
Qed.

Lemma v6_run_in (x w y : list Z) : forallb is_hex_or_colon w = true -> is_ipv6_address w = true ->
  (x = [] \/ last x = Some COLON \/ head w = Some COLON) -> (y = [] \/ head y = Some COLON \/ last w = Some COLON) -> lower_all w ∈ v6_run (x ++ w ++ y).
Proof.
  intros Hhex Hip Hx Hy. unfold is_ipv6_address in Hip. pose proof Hip as Hip'. apply andb_true_iff in Hip as [H2%Nat.leb_le Hparse].
  destruct (ipv6_shape w Hhex Hparse) as (Hlen & Hcol & Hshape). pose proof (count_colons_length w) as Hlw.
  destruct w as [|h w']; [cbn in H2; lia|]. set (w := h :: w') in *. set (run := x ++ w ++ y).
  assert (Hdrun : (count_doubles w <= count_doubles run)%nat).
  { unfold run, w. cbn [app]. rewrite count_doubles_join. pose proof (count_doubles_prefix (h :: w') y). cbn [app] in *. lia. }
  assert (Hcrun : (count_colons w <= count_colons run)%nat) by (unfold run; rewrite !count_colons_app; lia).
  unfold v6_run. replace (_ || _) with false.
  2:{ symmetry. apply orb_false_iff. split; [apply Nat.ltb_ge; lia|]. apply andb_false_iff. rewrite Nat.ltb_ge, Nat.eqb_neq. lia. }
  set (i := length x). set (j := (length x + length w)%nat).
  assert (Htake : take j run = x ++ w) by (unfold j, run; rewrite app_assoc; apply take_app_length'; by rewrite length_app).
  assert (Hci : colons_before run i = count_colons x) by (unfold colons_before, run, i; by rewrite take_app_length).
  assert (Hcj : colons_before run j = (count_colons x + count_colons w)%nat) by (unfold colons_before; by rewrite Htake, count_colons_app).
  assert (Hdi : doubles_before run i = count_doubles (x ++ [h])).
  { unfold doubles_before, run, w, i. replace (S (length x)) with (length (x ++ [h])) by (rewrite length_app; cbn; lia). cbn [app].
    replace (x ++ h :: w' ++ y) with ((x ++ [h]) ++ w' ++ y) by (by rewrite <- app_assoc). by rewrite take_app_length. }
  assert (Hdj : doubles_before run (j - 1) = (count_doubles (x ++ [h]) + count_doubles w)%nat).
  { unfold doubles_before. replace (S (j - 1)) with j by (unfold j, w; cbn; lia). rewrite Htake. unfold w. apply count_doubles_join. }
  assert (Hslice : slice i j run = w) by apply slice_mid.
  apply elem_of_concat. exists (v6_ends run i (filter (fun j => edge_end run j = true) (seq (i + 2) (S (Nat.min (length run) (i + 39)) - (i + 2))))). split.
  - rewrite <- Hslice. apply v6_ends_in; rewrite ?Hci, ?Hcj, ?Hdi, ?Hdj, ?Hslice; [| |lia|lia|done].
    + assert (length run = (length x + length w + length y)%nat) by (unfold run; rewrite !length_app; lia). unfold j, i. lia.
    + unfold edge_end. rewrite !orb_true_iff, Nat.eqb_eq. rewrite !bool_decide_eq_true. destruct Hy as [->|[Hy|Hy]].
      * left; left. unfold j, run. rewrite app_nil_r, length_app. done.
      * left; right. unfold j, run. rewrite app_assoc, lookup_app_r by (rewrite length_app; lia). rewrite length_app, Nat.sub_diag. destruct y; [done|]. by injection Hy as ->.
      * right. unfold j, run. rewrite app_assoc, lookup_app_l by (rewrite length_app; unfold w; cbn; lia). rewrite lookup_app_r by (unfold w; cbn; lia).
        rewrite last_lookup in Hy. rewrite <- Hy. f_equal. lia.
  - apply list_elem_of_fmap. exists i. split; [done|]. apply list_elem_of_filter. split; [|apply elem_of_seq; unfold i, run, w; rewrite length_app; cbn; lia].
    unfold edge_start. rewrite !orb_true_iff, Nat.eqb_eq, !bool_decide_eq_true. destruct Hx as [->|[Hx|Hx]].
    + left; left. done.
    + left; right. destruct x as [|c x _] using rev_ind; [done|]. rewrite last_snoc in Hx. injection Hx as ->. unfold i, run. rewrite length_app, Nat.add_sub, <- app_assoc, lookup_app_r, Nat.sub_diag by lia. done.
    + right. unfold i, run. rewrite lookup_app_r, Nat.sub_diag by lia. unfold w in *. by injection Hx as ->.
Qed.

(** The scan reaches the run after any text that ends outside a run. *)
Lemma v6_reach fuel pre rest : (length (pre ++ rest) <= fuel)%nat -> (forall c, last pre = Some c -> is_hex_or_colon c = false) ->
  exists fuel', (length rest <= fuel')%nat /\ forall x, emits x (v6_loop fuel' rest) -> emits x (v6_loop fuel (pre ++ rest)).
Proof.
  revert pre; induction fuel as [|fuel IH]; intros pre Hf Hlast.
  { destruct pre; [|cbn in Hf; lia]. by exists 0%nat. }
  destruct pre as [|c pre]; [by exists (S fuel)|]. cbn [app v6_loop]. destruct (is_hex_or_colon c) eqn:Hc; cbn [negb].
  - set (n := run_length is_hex_or_colon (c :: pre ++ rest)).
    assert (Hn : (n < S (length pre))%nat).
    { destruct (last (c :: pre)) as [d|] eqn:El; [|by apply last_None in El]. specialize (Hlast d eq_refl). destruct (Nat.le_gt_cases (S (length pre)) n) as [Hle|]; [exfalso|done].
      destruct (run_length_lookup is_hex_or_colon (c :: pre ++ rest) (length pre)) as (d' & Hd' & Hdh); [fold n; lia|]. rewrite last_lookup in El. cbn [length Nat.pred] in El.
      change (c :: pre ++ rest) with ((c :: pre) ++ rest) in Hd'. rewrite lookup_app_l in Hd' by (cbn; lia). congruence. }
    assert (Hpos : (0 < n)%nat) by (unfold n; cbn; rewrite Hc; lia).
    clearbody n. change (c :: pre ++ rest) with ((c :: pre) ++ rest). rewrite drop_app_le by (cbn; lia).
    destruct (IH (drop n (c :: pre))) as (f' & Hf' & Hin).
    + rewrite length_app, length_drop. cbn in Hf. rewrite length_app in Hf. cbn. lia.
    + intros d Hd. apply Hlast. by rewrite <- (take_drop n (c :: pre)), last_app, Hd.
    + exists f'. split; [done|]. intros x Hx. by apply emits_right, Hin.
  - destruct (IH pre) as (f' & Hf' & Hin); [cbn in Hf; lia| |by exists f'].
    intros d Hd. apply Hlast. rewrite last_cons, Hd. done.
Qed.

Lemma v6_loop_run fuel run post : run <> [] -> (length (run ++ post) <= fuel)%nat -> forallb is_hex_or_colon run = true -> (forall c, head post = Some c -> is_hex_or_colon c = false) ->
  forall x, x ∈ v6_run run -> emits x (v6_loop fuel (run ++ post)).
Proof.
  intros Hne Hf Hr Hp x Hx. assert (HrF : Forall (fun c => is_hex_or_colon c = true) run) by (apply Forall_forall; intros c Hc; rewrite forallb_forall in Hr; by apply Hr, list_elem_of_In).
  pose proof (run_length_word is_hex_or_colon run post HrF Hp) as Hn. destruct run as [|c run]; [done|]. destruct fuel as [|fuel]; [cbn in Hf; lia|]. cbn [app v6_loop].
  apply Forall_cons in HrF as [Hc _]. rewrite Hc. cbn [negb]. cbn [app] in Hn. rewrite Hn. apply emits_left.
  - change (c :: run ++ post) with ((c :: run) ++ post). by rewrite take_app_length.
  - apply v6_ends_loop. change (c :: run ++ post) with ((c :: run) ++ post). rewrite drop_app_length. cbn in Hf. rewrite length_app in Hf. lia.
Qed.

(** The maximal run around a word. *)
Lemma run_suffix (a : list Z) : exists pre x, a = pre ++ x /\ forallb is_hex_or_colon x = true /\ forall c, last pre = Some c -> is_hex_or_colon c = false.
Proof.
  induction a as [|c a (pre & x & -> & Hx & Hp)] using rev_ind; [by exists [], []|]. destruct (is_hex_or_colon c) eqn:E.
  - exists pre, (x ++ [c]). split_and!; [by rewrite app_assoc|rewrite forallb_app; cbn; by rewrite Hx, E|done].
  - exists ((pre ++ x) ++ [c]), []. split_and!; [by rewrite app_nil_r|done|]. intros d. rewrite last_snoc. by intros [= <-].
Qed.
Lemma run_prefix (b : list Z) : exists y post, b = y ++ post /\ forallb is_hex_or_colon y = true /\ forall c, head post = Some c -> is_hex_or_colon c = false.
Proof.
  induction b as [|c b (y & post & -> & Hy & Hp)]; [by exists [], []|]. destruct (is_hex_or_colon c) eqn:E.
  - exists (c :: y), post. split_and!; [done|cbn; by rewrite E|done].
  - exists [], (c :: y ++ post). split_and!; [done|done|]. by intros d [= <-].
Qed.

Lemma v6_complete (a w b : list Z) : forallb is_hex_or_colon w = true -> is_ipv6_address w = true ->
  open_edge (last a) (head w) -> open_edge (head b) (last w) -> lower_all w ∈ v6_tokens (a ++ w ++ b).
Proof.
  intros Hw Hip Ha Hb. destruct (run_suffix a) as (pre & x & -> & Hx & Hpre). destruct (run_prefix b) as (y & post & -> & Hy & Hpost).
  assert (Hrun : lower_all w ∈ v6_run (x ++ w ++ y)).
  { apply v6_run_in; [done|done| |].
    - destruct x as [|c x _] using rev_ind; [by left|right]. rewrite app_assoc, last_snoc in Ha. cbn in Ha. rewrite forallb_app in Hx. cbn in Hx. rewrite last_snoc.
      apply andb_true_iff in Hx as [_ Hx]. rewrite andb_true_r in Hx. destruct Ha as [?|[->|?]]; [congruence|by left|by right].
    - destruct y as [|c y]; [by left|right]. cbn in Hb, Hy. apply andb_true_iff in Hy as [Hy _]. cbn. destruct Hb as [?|[->|?]]; [congruence|by left|by right]. }
  assert (Hne : x ++ w ++ y <> []).
  { destruct w; [|by destruct x]. unfold is_ipv6_address in Hip. by cbn in Hip. }
  unfold v6_tokens. replace ((pre ++ x) ++ w ++ y ++ post) with (pre ++ (x ++ w ++ y) ++ post) by (by rewrite <- !app_assoc).
  destruct (v6_reach (length (pre ++ (x ++ w ++ y) ++ post)) pre ((x ++ w ++ y) ++ post)) as (fuel & Hf & Hin); [done|done|].
  apply emits_default, Hin, v6_loop_run; [done|done| |done|done]. rewrite !forallb_app. by rewrite Hx, Hw, Hy.
Qed.
End Complete6.
