(* ===== verification/TokenIndex.v ===== *)
(** * TokenIndex: the token index of a part

    Models the rest of [parts/sidecar.rs]'s token index ([tokens.nti]): the builder of one
    row group's filters with its six layouts, the group it finishes into, its queries, and
    the bytes of the file. The split-block bloom filter ([parquet]'s [Sbbf]), SHA-256 and
    the floating-point filter size are parameters. *)
From S2P Require Import Prelude Bytes TokenCounts BlockIndex TextTokens Addresses.

(** ** Bloom filters *)

Class Sbbf := {
  sbbf : Type;
  sbbf_new : Bytes -> sbbf;
  sbbf_with_bytes : Z -> sbbf;
  sbbf_with_ndv : Z -> result IndexError sbbf;
  sbbf_insert : Bytes -> sbbf -> sbbf;
  sbbf_check : sbbf -> Bytes -> bool;
  sbbf_bitset : sbbf -> Bytes }.
(** A filter holds what was inserted; its bitset is the filter; all ones hold everything. A
    bitset has the size asked for: that of the given bytes, the power of two of [with_bytes],
    and at least 64 bytes for 64 values at one percent. *)
Class SbbfLaws `{Sbbf} := {
  check_insert f x : sbbf_bitset f <> [] -> sbbf_check (sbbf_insert x f) x = true;
  check_insert_mono f x y : sbbf_bitset f <> [] -> sbbf_check f y = true -> sbbf_check (sbbf_insert x f) y = true;
  check_bitset f x : sbbf_bitset f <> [] -> sbbf_check (sbbf_new (sbbf_bitset f)) x = sbbf_check f x;
  check_ones x : sbbf_check (sbbf_new (replicate 32 255)) x = true;
  bits_insert f x : length (sbbf_bitset (sbbf_insert x f)) = length (sbbf_bitset f);
  length_new bs : (length bs mod 32 = 0)%nat -> length (sbbf_bitset (sbbf_new bs)) = length bs;
  length_with_bytes n : is_power_of_two n = true -> 32 <= n <= 134217728 -> Z.of_nat (length (sbbf_bitset (sbbf_with_bytes n))) = n;
  with_ndv_total n : exists f, sbbf_with_ndv n = Ok f;
  length_with_ndv n f : 64 <= n -> sbbf_with_ndv n = Ok f -> (64 <= length (sbbf_bitset f))%nat /\ (length (sbbf_bitset f) mod 32 = 0)%nat }.

(** [(-8 * pairs / ln(1 - 0.01^(1/8)) / 8) as usize]: the filter bytes of one percent. *)
Class FilterSize := one_percent_bytes : Z -> Z.
(** [Sha256::digest] *)
Class Sha256 := sha256 : Bytes -> Bytes.
Class Sha256Laws `{Sha256} := sha256_length bs : length (sha256 bs) = 32%nat.

(** The bytes of an ASCII string. *)
Definition str_bytes (s : string) : Bytes := (fun c => Z.of_N (Strings.Ascii.N_of_ascii c)) <$> String.list_ascii_of_string s.

Definition TRIGRAM_FILTER_BYTES : Z := 32768.
Definition PAIR_FILTER_MAX_BYTES : Z := 524288.
Definition PAIR_DISTINCT_CAP : Z := 2000000.
Definition TOKEN_FILTER_MAX_BYTES : Z := 4194304.
Definition TOKEN_DISTINCT_CAP : Z := 1000000.
Definition PAIR_SEED : Z := 5638874311000410450.
Definition TOKENIZER : Bytes := str_bytes "nano_split_lower_v1".

(** [usize::next_power_of_two] *)
Definition next_power_of_two (n : Z) : Z := 2 ^ Z.log2_up n.

Section TokenIndex.
Context `{Unicode, XxHash, Xorf, Sbbf, FilterSize, Ipv6Parser}.

(** [pair_filter_bytes] *)
Definition pair_filter_bytes (pairs : Z) : Z :=
  let bytes := one_percent_bytes pairs in
  let floor := if is_power_of_two bytes then bytes else next_power_of_two bytes / 2 in
  Z.min (Z.max floor 32) PAIR_FILTER_MAX_BYTES.

(** [pair_key] *)
Definition pair_key (a b : Bytes) : Bytes := le_bytes 8 (xxhash64 PAIR_SEED (a ++ [31] ++ b)).

(** ** Groups *)

Record PairBloom := { pb_pairs : Z; pb_bitset : Bytes }.
Record TokenGroup := {
  tg_rows : Z; tg_tokens : Z; bitset : Bytes; saturated : bool; tg_blocks : option BlockIndex; tg_counts : option TokenCounts;
  tg_trigrams : option Bytes; tg_pairs : option PairBloom; tg_addresses : bool }.

(** [TokenGroup::may_contain_all] *)
Definition may_contain_all (g : TokenGroup) (tokens : list Bytes) : bool :=
  match bitset g with
  | [] => bool_decide (tokens = [])
  | _ => forallb (sbbf_check (sbbf_new (bitset g))) tokens
  end.
(** [PairBloom::may_contain_all] *)
Definition pairs_contain_all (p : PairBloom) (pairs : list Bytes) : bool :=
  match pb_bitset p with
  | [] => bool_decide (pairs = [])
  | _ => forallb (sbbf_check (sbbf_new (pb_bitset p))) pairs
  end.

(** ** Building *)

Record TokenGroupBuilder := {
  b_rows : Z; b_tokens : gset Bytes; b_overflow : bool; b_blocks : option BlockBuilder; b_counts : option CountBuilder;
  b_trigrams : option sbbf; b_pairs : option (gset Z); b_pairs_overflow : bool; b_addresses : bool }.

(** [TokenGroupBuilder::new] *)
Definition TokenGroupBuilder_new : TokenGroupBuilder :=
  {| b_rows := 0; b_tokens := ∅; b_overflow := false; b_blocks := None; b_counts := None; b_trigrams := None; b_pairs := None;
     b_pairs_overflow := false; b_addresses := false |}.
(** [with_blocks] *)
Definition with_blocks (block_rows : Z) : TokenGroupBuilder :=
  {| b_rows := 0; b_tokens := ∅; b_overflow := false; b_blocks := Some (BlockBuilder_new block_rows); b_counts := None; b_trigrams := None;
     b_pairs := None; b_pairs_overflow := false; b_addresses := false |}.
(** [with_blocks_and_counts] *)
Definition with_blocks_and_counts (block_rows : Z) : TokenGroupBuilder :=
  {| b_rows := 0; b_tokens := ∅; b_overflow := false; b_blocks := Some (BlockBuilder_new block_rows); b_counts := Some CountBuilder_new;
     b_trigrams := None; b_pairs := None; b_pairs_overflow := false; b_addresses := false |}.
(** [with_trigrams] *)
Definition with_trigrams (block_rows : Z) : TokenGroupBuilder :=
  let b := with_blocks_and_counts block_rows in
  {| b_rows := b_rows b; b_tokens := b_tokens b; b_overflow := b_overflow b; b_blocks := b_blocks b; b_counts := b_counts b;
     b_trigrams := Some (sbbf_new (replicate (Z.to_nat TRIGRAM_FILTER_BYTES) 0)); b_pairs := b_pairs b; b_pairs_overflow := b_pairs_overflow b;
     b_addresses := b_addresses b |}.
(** [with_pairs] *)
Definition with_pairs (block_rows : Z) : TokenGroupBuilder :=
  let b := with_trigrams block_rows in
  {| b_rows := b_rows b; b_tokens := b_tokens b; b_overflow := b_overflow b; b_blocks := b_blocks b; b_counts := b_counts b;
     b_trigrams := b_trigrams b; b_pairs := Some ∅; b_pairs_overflow := b_pairs_overflow b; b_addresses := b_addresses b |}.
(** [with_addresses] *)
Definition with_addresses (block_rows : Z) : TokenGroupBuilder :=
  let b := with_pairs block_rows in
  {| b_rows := b_rows b; b_tokens := b_tokens b; b_overflow := b_overflow b; b_blocks := b_blocks b; b_counts := b_counts b;
     b_trigrams := b_trigrams b; b_pairs := b_pairs b; b_pairs_overflow := b_pairs_overflow b; b_addresses := true |}.
(** [for_writer]; the flags are the switches of the writer's environment. *)
Definition for_writer (counts trigrams pairs addresses : bool) (block_rows : option Z) : TokenGroupBuilder :=
  match block_rows with
  | None => TokenGroupBuilder_new
  | Some n =>
      if counts && trigrams && pairs && addresses then with_addresses n else
      if counts && trigrams && pairs then with_pairs n else
      if counts && trigrams then with_trigrams n else
      if counts then with_blocks_and_counts n else with_blocks n
  end.

(** [add_row] *)
Definition add_row (b : TokenGroupBuilder) : TokenGroupBuilder :=
  {| b_rows := wrap_u64 (b_rows b + 1); b_tokens := b_tokens b; b_overflow := b_overflow b; b_blocks := b_blocks b; b_counts := b_counts b;
     b_trigrams := b_trigrams b; b_pairs := b_pairs b; b_pairs_overflow := b_pairs_overflow b; b_addresses := b_addresses b |}.
(** [add_row_at] *)
Definition add_row_at (time_us : Z) (b : TokenGroupBuilder) : TokenGroupBuilder :=
  {| b_rows := wrap_u64 (b_rows b + 1); b_tokens := b_tokens b; b_overflow := b_overflow b; b_blocks := block_start_row time_us <$> b_blocks b;
     b_counts := cb_start_row time_us <$> b_counts b; b_trigrams := b_trigrams b; b_pairs := b_pairs b; b_pairs_overflow := b_pairs_overflow b;
     b_addresses := b_addresses b |}.
(** [add_body] *)
Definition add_body (t : Text) (b : TokenGroupBuilder) : TokenGroupBuilder :=
  {| b_rows := b_rows b; b_tokens := b_tokens b; b_overflow := b_overflow b; b_blocks := b_blocks b; b_counts := cb_add_text (utf8 t) <$> b_counts b;
     b_trigrams := b_trigrams b; b_pairs := b_pairs b; b_pairs_overflow := b_pairs_overflow b; b_addresses := b_addresses b |}.

(** The texts the trigrams and pairs of [t] are taken from. *)
Definition folded_texts (t : Text) : list Text := if all_ascii t then [t] else [t; re2_folded t].
Definition add_trigrams (t : Text) (f : sbbf) : sbbf :=
  foldl (fun f gram => sbbf_insert gram f) f (concat (ascii_trigrams <$> folded_texts t)).
(** The closure [add] of the pairs. *)
Definition add_pair (s : gset Z * bool) (p : Bytes * Bytes) : gset Z * bool :=
  if Z.of_nat (size s.1) <? PAIR_DISTINCT_CAP then ({[of_le (pair_key p.1 p.2)]} ∪ s.1, s.2) else (s.1, true).
Definition add_pairs (t : Text) (s : gset Z * bool) : gset Z * bool := foldl add_pair s (concat (adjacent_pairs <$> folded_texts t)).
(** The closure [add] of the tokens, on the token set. *)
Definition remember_token (s : gset Bytes * bool) (token : Bytes) : gset Bytes * bool :=
  if Z.of_nat (size s.1) <? TOKEN_DISTINCT_CAP then ({[token]} ∪ s.1, s.2) else (s.1, true).
(** The tokens [add_text] adds. *)
Definition text_tokens (addresses : bool) (t : Text) : list Bytes := tokenize t ++ if addresses then address_tokens t else [].

(** [add_text] *)
Definition add_text (t : Text) (b : TokenGroupBuilder) : TokenGroupBuilder :=
  let ps := (fun s => add_pairs t (s, b_pairs_overflow b)) <$> b_pairs b in
  let tokens := text_tokens (b_addresses b) t in
  let ts := foldl remember_token (b_tokens b, b_overflow b) tokens in
  {| b_rows := b_rows b; b_tokens := ts.1; b_overflow := ts.2;
     b_blocks := (fun bb => foldl (fun bb token => add_token token bb) bb tokens) <$> b_blocks b;
     b_counts := b_counts b; b_trigrams := add_trigrams t <$> b_trigrams b;
     b_pairs := fst <$> ps; b_pairs_overflow := from_option snd (b_pairs_overflow b) ps; b_addresses := b_addresses b |}.

(** The pair bloom of [finish]. *)
Definition finish_pairs (pairs : gset Z) (overflow : bool) : PairBloom :=
  if overflow then {| pb_pairs := 0; pb_bitset := replicate 32 255 |} else
  if bool_decide (pairs = ∅) then {| pb_pairs := 0; pb_bitset := [] |} else
  {| pb_pairs := Z.of_nat (size pairs);
     pb_bitset := sbbf_bitset (foldl (fun f p => sbbf_insert (le_bytes 8 p) f) (sbbf_with_bytes (pair_filter_bytes (Z.of_nat (size pairs)))) (elements pairs)) |}.
(** [u64::div_ceil] *)
Definition div_ceil (a b : Z) : Z := (a + (b - 1)) / b.

(** [finish] *)
Definition group_finish (b : TokenGroupBuilder) : result IndexError TokenGroup :=
  let trigrams := sbbf_bitset <$> b_trigrams b in
  let blocks := block_finish <$> b_blocks b in
  _ ← ensure (from_option (fun i => Z.of_nat (length (times i)) =? div_ceil (b_rows b) (block_rows i)) true blocks) (Invalid "block index does not cover its rows");
  let counts := cb_finish <$> b_counts b in
  _ ← ensure (from_option (fun c => tc_rows c =? b_rows b) true counts) (Invalid "token counts do not cover the group's rows");
  let pairs := (fun s => finish_pairs s (b_pairs_overflow b)) <$> b_pairs b in
  if bool_decide (b_tokens b = ∅) then
    Ok {| tg_rows := b_rows b; tg_tokens := 0; bitset := []; saturated := false; tg_blocks := blocks; tg_counts := counts; tg_trigrams := trigrams;
          tg_pairs := pairs; tg_addresses := b_addresses b |} else
  let distinct := Z.of_nat (size (b_tokens b)) in
  filter ← sbbf_with_ndv (Z.max distinct 64);
  let bits := sbbf_bitset (foldl (fun f token => sbbf_insert token f) filter (elements (b_tokens b))) in
  let sat := b_overflow b || (TOKEN_FILTER_MAX_BYTES <? Z.of_nat (length bits)) in
  Ok {| tg_rows := b_rows b; tg_tokens := distinct; bitset := if sat then replicate 32 255 else bits; saturated := sat; tg_blocks := blocks;
        tg_counts := counts; tg_trigrams := trigrams; tg_pairs := pairs; tg_addresses := b_addresses b |}.

(** ** The file *)

Context `{Sha256}.

(** [NANOTKI1] to [NANOTKI6] *)
Definition magic (version : Z) : Bytes := str_bytes "NANOTKI" ++ [48 + version].
Definition count_groups (f : TokenGroup -> bool) (groups : list TokenGroup) : nat := length (filter (fun g => f g = true) groups).

(** The layout of the groups, and the checks that they share it. *)
Definition index_version (groups : list TokenGroup) : result IndexError (option Z * Z) :=
  let all := length groups in
  let with_blocks := count_groups (fun g => is_some (tg_blocks g)) groups in
  _ ← ensure ((with_blocks =? 0)%nat || (with_blocks =? all)%nat) (Invalid "token groups mix v1 and v2");
  let with_counts := count_groups (fun g => is_some (tg_counts g)) groups in
  _ ← ensure ((with_counts =? 0)%nat || ((with_counts =? all)%nat && (with_blocks =? all)%nat)) (Invalid "token groups mix v2 and v3");
  let v3 := (0 <? with_counts)%nat in
  let with_trigrams := count_groups (fun g => is_some (tg_trigrams g)) groups in
  _ ← ensure ((with_trigrams =? 0)%nat || ((with_trigrams =? all)%nat && v3)) (Invalid "token groups mix v3 and v4");
  let v4 := (0 <? with_trigrams)%nat in
  let with_pairs := count_groups (fun g => is_some (tg_pairs g)) groups in
  _ ← ensure ((with_pairs =? 0)%nat || ((with_pairs =? all)%nat && v4)) (Invalid "token groups mix v4 and v5");
  let v5 := (0 <? with_pairs)%nat in
  let with_addresses := count_groups tg_addresses groups in
  _ ← ensure ((with_addresses =? 0)%nat || ((with_addresses =? all)%nat && v5)) (Invalid "token groups mix v5 and v6");
  let v6 := (0 <? with_addresses)%nat in
  let rows := head groups ≫= fun g => block_rows <$> tg_blocks g in
  _ ← ensure (forallb (fun g => bool_decide (block_rows <$> tg_blocks g = rows)) groups) (Invalid "token groups disagree on block rows");
  Ok (rows, match rows with None => 1 | Some _ => if v6 then 6 else if v5 then 5 else if v4 then 4 else if v3 then 3 else 2 end).

(** An optional section of a group. *)
Definition encode_opt {A} (f : A -> result IndexError Bytes) (o : option A) : result IndexError Bytes :=
  match o with Some a => f a | None => Ok [] end.
Definition encode_trigrams (grams : Bytes) : result IndexError Bytes :=
  _ ← ensure (Z.of_nat (length grams) =? TRIGRAM_FILTER_BYTES) (Invalid "invalid trigram bloom size"); Ok grams.
Definition encode_pairs (p : PairBloom) : result IndexError Bytes :=
  _ ← ensure ((length (pb_bitset p) mod 32 =? 0)%nat && (Z.of_nat (length (pb_bitset p)) <=? PAIR_FILTER_MAX_BYTES)) (Invalid "invalid pair bloom size");
  len ← to_u32 (Z.of_nat (length (pb_bitset p)));
  Ok (le_bytes 8 (pb_pairs p) ++ le_bytes 4 len ++ pb_bitset p).
Definition encode_group (g : TokenGroup) : result IndexError Bytes :=
  _ ← ensure (length (bitset g) mod 32 =? 0)%nat (Invalid "token filter bitset is not a whole number of blocks");
  len ← to_u32 (Z.of_nat (length (bitset g)));
  blocks ← encode_opt block_encode (tg_blocks g);
  counts ← encode_opt tc_encode (tg_counts g);
  grams ← encode_opt encode_trigrams (tg_trigrams g);
  pairs ← encode_opt encode_pairs (tg_pairs g);
  Ok (le_bytes 8 (tg_rows g) ++ le_bytes 8 (tg_tokens g) ++ le_bytes 4 len ++ bitset g ++ blocks ++ counts ++ grams ++ pairs).
Fixpoint encode_groups (groups : list TokenGroup) : result IndexError Bytes :=
  match groups with
  | [] => Ok []
  | g :: groups => a ← encode_group g; b ← encode_groups groups; Ok (a ++ b)
  end.

(** [encode_token_index] *)
Definition encode_token_index (groups : list TokenGroup) : result IndexError Bytes :=
  '(rows, version) ← index_version groups;
  n ← to_u32 (Z.of_nat (length groups));
  body ← encode_groups groups;
  let out := magic version ++ le_bytes 4 version ++ le_bytes 2 (Z.of_nat (length TOKENIZER)) ++ TOKENIZER
             ++ from_option (le_bytes 4) [] rows ++ le_bytes 4 n ++ body in
  Ok (out ++ sha256 out).

Definition magic_version (m : Bytes) : option Z := List.find (fun v => bool_decide (m = magic v)) [1; 2; 3; 4; 5; 6].

(** An optional section, present from a version on. *)
Definition decode_opt {A} (present : bool) (f : Bytes -> result IndexError (A * Bytes)) (cur : Bytes) : result IndexError (option A * Bytes) :=
  if present then '(a, cur) ← f cur; Ok (Some a, cur) else Ok (None, cur).
Definition decode_pairs (cur : Bytes) : result IndexError (PairBloom * Bytes) :=
  '(pairs, cur) ← cursor_le 8 cur;
  '(len, cur) ← cursor_le 4 cur;
  _ ← ensure ((len mod 32 =? 0) && (len <=? PAIR_FILTER_MAX_BYTES)) (Invalid "pair filter length is invalid");
  '(bits, cur) ← cursor_take len cur;
  Ok ({| pb_pairs := pairs; pb_bitset := bits |}, cur).
Definition all_ones (bits : Bytes) : bool := (length bits =? 32)%nat && forallb (fun b => b =? 255) bits.
Definition decode_group (version : Z) (rows_per_block : option Z) (cur : Bytes) : result IndexError (TokenGroup * Bytes) :=
  '(rows, cur) ← cursor_le 8 cur;
  '(tokens, cur) ← cursor_le 8 cur;
  '(len, cur) ← cursor_le 4 cur;
  _ ← ensure ((len mod 32 =? 0) && (len <=? TOKEN_FILTER_MAX_BYTES)) (Invalid "token filter length is invalid");
  '(bits, cur) ← cursor_take len cur;
  '(blocks, cur) ← decode_opt (is_some rows_per_block) (block_decode (default 0 rows_per_block) rows) cur;
  '(counts, cur) ← decode_opt (3 <=? version) (tc_decode rows) cur;
  '(grams, cur) ← decode_opt (4 <=? version) (cursor_take TRIGRAM_FILTER_BYTES) cur;
  '(pairs, cur) ← decode_opt (5 <=? version) decode_pairs cur;
  Ok ({| tg_rows := rows; tg_tokens := tokens; bitset := bits; saturated := all_ones bits; tg_blocks := blocks; tg_counts := counts;
         tg_trigrams := grams; tg_pairs := pairs; tg_addresses := 6 <=? version |}, cur).
Fixpoint decode_groups (n : nat) (version : Z) (rows_per_block : option Z) (cur : Bytes) : result IndexError (list TokenGroup * Bytes) :=
  match n with
  | O => Ok ([], cur)
  | S n => '(g, cur) ← decode_group version rows_per_block cur; '(gs, cur) ← decode_groups n version rows_per_block cur; Ok (g :: gs, cur)
  end.

(** [decode_token_index_body] *)
Definition decode_token_index_body (body : Bytes) : result IndexError (list TokenGroup) :=
  '(m, cur) ← cursor_take 8 body;
  version ← of_option (magic_version m) (Invalid "token index magic is wrong");
  '(v, cur) ← cursor_le 4 cur;
  _ ← ensure (v =? version) (Invalid "token index version is unsupported");
  '(len, cur) ← cursor_le 2 cur;
  '(tokenizer, cur) ← cursor_take len cur;
  _ ← ensure (bool_decide (tokenizer = TOKENIZER)) (Invalid "token index tokenizer is unsupported");
  '(rows, cur) ← decode_opt (2 <=? version) (fun cur =>
    '(n, cur) ← cursor_le 4 cur; _ ← ensure (0 <? n) (Invalid "token index block rows is zero"); Ok (n, cur)) cur;
  '(n, cur) ← cursor_le 4 cur;
  '(groups, cur) ← decode_groups (Z.to_nat n) version rows cur;
  _ ← ensure (bool_decide (cur = [])) (Invalid "token index has trailing bytes");
  Ok groups.
(** [decode_token_index] *)
Definition decode_token_index (bytes : Bytes) : result IndexError (list TokenGroup) :=
  _ ← ensure (50 <=? Z.of_nat (length bytes)) (Invalid "token index is truncated");
  let body := take (length bytes - 32) bytes in
  _ ← ensure (bool_decide (sha256 body = drop (length bytes - 32) bytes)) (Invalid "token index trailer does not match");
  decode_token_index_body body.
(** [decode_leased_token_index] *)
Definition decode_leased_token_index (bytes : Bytes) : result IndexError (list TokenGroup) :=
  _ ← ensure (50 <=? Z.of_nat (length bytes)) (Invalid "token index is truncated");
  decode_token_index_body (take (length bytes - 32) bytes).

(** * The file reads back *)

(** A section that is decoded from what it encodes, and from nothing after. *)
Definition reads_back {A} (enc : A -> result IndexError Bytes) (dec : Bytes -> result IndexError (A * Bytes)) (a : A) : Prop :=
  forall bs more, enc a = Ok bs -> dec (bs ++ more) = Ok (a, more).

(** What the decoder checks of a group. *)
Record group_ok (g : TokenGroup) : Prop := {
  go_rows : in_u64 (tg_rows g);
  go_tokens : in_u64 (tg_tokens g);
  go_bits : Z.of_nat (length (bitset g)) <= TOKEN_FILTER_MAX_BYTES;
  go_saturated : saturated g = all_ones (bitset g);
  go_blocks ix : tg_blocks g = Some ix -> 0 < block_rows ix <= u32_max /\ reads_back block_encode (block_decode (block_rows ix) (tg_rows g)) ix;
  go_counts c : tg_counts g = Some c -> reads_back tc_encode (tc_decode (tg_rows g)) c;
  go_pairs p : tg_pairs g = Some p -> in_u64 (pb_pairs p) }.

(** The groups of a file have exactly the sections of its version. *)
Record has_layout (rows : option Z) (version : Z) (g : TokenGroup) : Prop := {
  hl_blocks : block_rows <$> tg_blocks g = rows;
  hl_rows : is_some rows = (2 <=? version);
  hl_counts : is_some (tg_counts g) = (3 <=? version);
  hl_trigrams : is_some (tg_trigrams g) = (4 <=? version);
  hl_pairs : is_some (tg_pairs g) = (5 <=? version);
  hl_addresses : tg_addresses g = (6 <=? version) }.

Lemma count_groups_all f groups g : count_groups f groups = 0%nat \/ count_groups f groups = length groups -> g ∈ groups -> f g = (0 <? count_groups f groups)%nat.
Proof.
  intros Hc Hg. assert (Hin : f g = true <-> (0 < count_groups f groups)%nat).
  { unfold count_groups. split.
    - intros Hf. destruct (filter (fun g => f g = true) groups) eqn:E; [|cbn; lia]. assert (Hi : g ∈ filter (fun g => f g = true) groups) by (by apply list_elem_of_filter).
      rewrite E in Hi. by apply elem_of_nil in Hi.
    - intros Hpos. destruct Hc as [Hc|Hc]; [unfold count_groups in Hc; lia|]. unfold count_groups in Hc. clear Hpos. revert g Hg. induction groups as [|x groups IH]; intros g Hg; [by apply elem_of_nil in Hg|].
      rewrite filter_cons in Hc. destruct (decide (f x = true)) as [Hx|]; [|pose proof (length_filter (fun g => f g = true) groups); cbn in Hc; lia].
      apply elem_of_cons in Hg as [->|Hg]; [done|]. apply IH; [cbn in Hc; lia|done]. }
  destruct (Nat.ltb_spec 0 (count_groups f groups)) as [Hp|Hp]; [by apply Hin|]. destruct (f g); [|done]. exfalso. assert ((0 < count_groups f groups)%nat) by (by apply Hin). lia.
Qed.

Lemma index_version_layout groups rows version : index_version groups = Ok (rows, version) ->
  1 <= version <= 6 /\ is_some rows = (2 <=? version) /\ Forall (has_layout rows version) groups /\ (groups = [] -> rows = None).
Proof.
  unfold index_version. intros Hv. repeat (apply bind_ok_inv in Hv as ([] & Hc & Hv); apply ensure_ok_inv in Hc; let C := fresh "C" in rename Hc into C).
  apply Ok_inj in Hv. injection Hv as Hr Hver. destruct groups as [|g0 gs]; [cbn in Hr, Hver; subst; by split_and!|].
  cbn [head mbind option_bind] in Hr, Hver, C4. set (groups := g0 :: gs) in *. assert (Hlen : (0 < length groups)%nat) by (cbn; lia).
  repeat match goal with C : (_ || _) = true |- _ => rewrite orb_true_iff, ?andb_true_iff, !Nat.eqb_eq, ?Nat.ltb_lt in C end.
  pose proof (count_groups_all (fun g => is_some (tg_blocks g)) groups) as F0. pose proof (count_groups_all (fun g => is_some (tg_counts g)) groups) as F1.
  pose proof (count_groups_all (fun g => is_some (tg_trigrams g)) groups) as F2. pose proof (count_groups_all (fun g => is_some (tg_pairs g)) groups) as F3.
  pose proof (count_groups_all tg_addresses groups) as F4. cbn beta in F0, F1, F2, F3. specialize (F0 g0 C ltac:(left)).
  assert (F1' : forall g, g ∈ groups -> is_some (tg_counts g) = (0 <? count_groups (fun g => is_some (tg_counts g)) groups)%nat) by (intros; apply F1; tauto).
  assert (F2' : forall g, g ∈ groups -> is_some (tg_trigrams g) = (0 <? count_groups (fun g => is_some (tg_trigrams g)) groups)%nat) by (intros; apply F2; tauto).
  assert (F3' : forall g, g ∈ groups -> is_some (tg_pairs g) = (0 <? count_groups (fun g => is_some (tg_pairs g)) groups)%nat) by (intros; apply F3; tauto).
  assert (F4' : forall g, g ∈ groups -> tg_addresses g = (0 <? count_groups tg_addresses groups)%nat) by (intros; apply F4; tauto).
  clear F1 F2 F3 F4.
  assert (Hsome : is_some rows = is_some (tg_blocks g0)) by (rewrite <- Hr; by destruct (tg_blocks g0)). rewrite F0 in Hsome.
  assert (Hblocks : forall g, g ∈ groups -> block_rows <$> tg_blocks g = rows).
  { intros g Hg. rewrite forallb_forall in C4. apply list_elem_of_In in Hg. apply C4 in Hg. apply bool_decide_eq_true in Hg. by rewrite Hg. }
  rewrite Hr in Hver. clear F0 C4 Hr.

  set (nb := count_groups (fun g => is_some (tg_blocks g)) groups) in *. set (nc := count_groups (fun g => is_some (tg_counts g)) groups) in *.
  set (nt := count_groups (fun g => is_some (tg_trigrams g)) groups) in *. set (np := count_groups (fun g => is_some (tg_pairs g)) groups) in *.
  set (na := count_groups tg_addresses groups) in *. clearbody nb nc nt np na.
  assert (Hgoal : 1 <= version <= 6 /\ is_some rows = (2 <=? version) /\ (0 <? nc)%nat = (3 <=? version) /\ (0 <? nt)%nat = (4 <=? version)
    /\ (0 <? np)%nat = (5 <=? version) /\ (0 <? na)%nat = (6 <=? version)).
  { clear Hblocks F1' F2' F3' F4'. rewrite Hsome. destruct rows as [z|]; cbn [is_some] in Hsome; symmetry in Hsome.
    - apply Nat.ltb_lt in Hsome. rewrite (proj2 (Nat.ltb_lt _ _) Hsome).
      destruct (Nat.ltb_spec 0 na), (Nat.ltb_spec 0 np), (Nat.ltb_spec 0 nt), (Nat.ltb_spec 0 nc); try lia; subst version; done.
    - apply Nat.ltb_ge in Hsome. rewrite (proj2 (Nat.ltb_ge _ _) Hsome). destruct (Nat.ltb_spec 0 na), (Nat.ltb_spec 0 np), (Nat.ltb_spec 0 nt), (Nat.ltb_spec 0 nc); try lia; subst version; done. }
  destruct Hgoal as (Hrange & Hrows & Hg1 & Hg2 & Hg3 & Hg4). split_and!; [lia|lia|done| |done]. apply Forall_forall. intros g Hg. split; [by apply Hblocks|done|..].
  - by rewrite <- Hg1, F1'.
  - by rewrite <- Hg2, F2'.
  - by rewrite <- Hg3, F3'.
  - by rewrite <- Hg4, F4'.
Qed.

Lemma opt_reads_back {A} (enc : A -> result IndexError Bytes) dec present (o : option A) bs more :
  is_some o = present -> (forall a, o = Some a -> reads_back enc dec a) -> encode_opt enc o = Ok bs -> decode_opt present dec (bs ++ more) = Ok (o, more).
Proof.
  intros <- Hr He. destruct o as [a|]; cbn in He |- *; [|by injection He as <-]. by rewrite (Hr a eq_refl bs more He).
Qed.

Lemma trigrams_read_back grams : reads_back encode_trigrams (cursor_take TRIGRAM_FILTER_BYTES) grams.
Proof. intros bs more He. apply bind_ok_inv in He as ([] & Hc%ensure_ok_inv%Z.eqb_eq & He). apply Ok_inj in He as <-. by apply cursor_take_app. Qed.

Lemma mod32 n : (n mod 32 =? 0)%nat = true <-> Z.of_nat n mod 32 = 0.
Proof. rewrite Nat.eqb_eq. change 32 with (Z.of_nat 32). rewrite <- Nat2Z.inj_mod. lia. Qed.

Lemma pairs_read_back p : in_u64 (pb_pairs p) -> reads_back encode_pairs decode_pairs p.
Proof.
  intros Hp bs more He. apply bind_ok_inv in He as ([] & [Hm Hl]%ensure_ok_inv%andb_true_iff & He). apply mod32 in Hm.
  apply bind_ok_inv in He as (len & [-> Hlen]%to_u32_inv & He); [|lia]. apply Ok_inj in He as <-. unfold decode_pairs. rewrite <- !app_assoc. do 2 read_field.
  pass_check; [by rewrite (proj2 (Z.eqb_eq _ _) Hm), Hl|]. read_field; [done|]. by destruct p.
Qed.

Lemma group_reads_back rows version g : has_layout rows version g -> group_ok g -> reads_back encode_group (decode_group version rows) g.
Proof.
  intros [Hb Hr Hc Ht Hp Ha] [Or Ot Obits Osat Ob Oc Op] bs more He.
  apply bind_ok_inv in He as ([] & Hm%ensure_ok_inv%mod32 & He). apply bind_ok_inv in He as (len & [-> Hlen]%to_u32_inv & He); [|lia].
  apply bind_ok_inv in He as (bb & Hbb & He). apply bind_ok_inv in He as (bc & Hbc & He). apply bind_ok_inv in He as (bt & Hbt & He). apply bind_ok_inv in He as (bp & Hbp & He).
  apply Ok_inj in He as <-. unfold decode_group. rewrite <- !app_assoc. do 3 read_field.
  pass_check; [by rewrite (proj2 (Z.eqb_eq _ _) Hm), (proj2 (Z.leb_le _ _) Obits)|]. read_field; [done|].
  eapply bind_intro.
  { apply (opt_reads_back block_encode) with (o := tg_blocks g); [by rewrite <- Hb; destruct (tg_blocks g)| |done].
    intros ix Hix. rewrite <- Hb, Hix. cbn. by apply Ob. }
  cbv beta iota. eapply bind_intro; [apply (opt_reads_back tc_encode) with (o := tg_counts g); [done|done|done]|]. cbv beta iota.
  eapply bind_intro; [apply (opt_reads_back encode_trigrams) with (o := tg_trigrams g); [done| |done]; intros; apply trigrams_read_back|]. cbv beta iota.
  eapply bind_intro; [apply (opt_reads_back encode_pairs) with (o := tg_pairs g); [done| |done]; intros p Hp'; by apply pairs_read_back, Op|]. cbv beta iota.
  rewrite <- Ha, <- Osat. by destruct g.
Qed.

Lemma groups_read_back rows version groups bs more : Forall (has_layout rows version) groups -> Forall group_ok groups ->
  encode_groups groups = Ok bs -> decode_groups (length groups) version rows (bs ++ more) = Ok (groups, more).
Proof.
  intros Hl Ho. revert bs. induction groups as [|g groups IH]; intros bs He; [by injection He as <-|].
  apply Forall_cons in Hl as [Hg Hl]. apply Forall_cons in Ho as [Og Ho]. cbn [encode_groups] in He.
  apply bind_ok_inv in He as (a & Ha & He). apply bind_ok_inv in He as (b & Hb & He). apply Ok_inj in He as <-. cbn [length decode_groups]. rewrite <- app_assoc.
  eapply bind_intro; [exact (group_reads_back rows version g Hg Og a _ Ha)|]. cbv beta iota. eapply bind_intro; [exact (IH Hl Ho b Hb)|]. done.
Qed.

Lemma magic_versions version : 1 <= version <= 6 -> magic_version (magic version) = Some version /\ length (magic version) = 8%nat.
Proof. intros Hv. assert (version = 1 \/ version = 2 \/ version = 3 \/ version = 4 \/ version = 5 \/ version = 6) as Hd by lia. destruct_or! Hd; subst; by vm_compute. Qed.

Context `{!Sha256Laws}.

(** The body of an encoded index decodes to its groups. *)
Lemma index_reads_back groups bs : Forall group_ok groups -> encode_token_index groups = Ok bs ->
  exists body, bs = body ++ sha256 body /\ (18 <= length body)%nat /\ decode_token_index_body body = Ok groups.
Proof.
  intros Ho He. apply bind_ok_inv in He as ([rows version] & Hv & He). apply index_version_layout in Hv as (Hver & Hsome & Hl & Hnil).
  apply bind_ok_inv in He as (n & [-> Hn]%to_u32_inv & He); [|lia]. apply bind_ok_inv in He as (body & Hbody & He). apply Ok_inj in He as <-.
  eexists. split; [reflexivity|]. destruct (magic_versions version Hver) as [Hmv Hml]. split; [rewrite !length_app, Hml, !length_le_bytes; cbn; lia|].
  assert (Hv32 : in_u32 version) by (unfold in_u32, u32_max; lia).
  unfold decode_token_index_body. eapply bind_intro; [by apply cursor_take_app; rewrite Hml|]. cbv beta iota. eapply bind_intro; [by apply of_option_intro|]. cbv beta iota.
  read_field. pass_check; [by apply Z.eqb_refl|]. eapply bind_intro; [by apply cursor_le_app; vm_compute|]. cbv beta iota.
  eapply bind_intro; [by apply cursor_take_app|]. cbv beta iota. pass_check; [by apply bool_decide_eq_true|].
  eapply bind_intro.
  { instantiate (1 := (rows, le_bytes 4 (Z.of_nat (length groups)) ++ body)). rewrite <- Hsome. destruct rows as [z|]; [|done]. unfold decode_opt. cbn [is_some from_option].
    destruct groups as [|g groups]; [by specialize (Hnil eq_refl)|]. apply Forall_cons in Hl as [[Hb _ _ _ _ _] _]. apply Forall_cons in Ho as [[_ _ _ _ Ob _ _] _].
    destruct (tg_blocks g) as [ix|]; [|done]. injection Hb as <-. destruct (Ob ix eq_refl) as [Hz _]. assert (Hz32 : in_u32 (block_rows ix)) by (unfold in_u32; lia).
    apply (bind_intro _ _ (block_rows ix, le_bytes 4 (Z.of_nat (length (g :: groups))) ++ body)); [|done]. read_field. by pass_check; [apply Z.ltb_lt; lia|]. }
  cbv beta iota. read_field. rewrite Nat2Z.id. eapply bind_intro; [rewrite <- (app_nil_r body); by apply groups_read_back|]. cbv beta iota.
  by pass_check; [apply bool_decide_eq_true|].
Qed.

Lemma index_file_roundtrip groups bs : Forall group_ok groups -> encode_token_index groups = Ok bs ->
  decode_token_index bs = Ok groups /\ decode_leased_token_index bs = Ok groups.
Proof.
  intros Ho He. destruct (index_reads_back groups bs Ho He) as (body & -> & Hlen & Hd). pose proof (sha256_length body) as Hs.
  assert (Htake : take (length (body ++ sha256 body) - 32) (body ++ sha256 body) = body) by (rewrite length_app, Hs, Nat.add_sub; by rewrite take_app_length).
  assert (Hdrop : drop (length (body ++ sha256 body) - 32) (body ++ sha256 body) = sha256 body) by (rewrite length_app, Hs, Nat.add_sub; by rewrite drop_app_length).
  assert (Hsize : (50 <=? Z.of_nat (length (body ++ sha256 body))) = true) by (apply Z.leb_le; rewrite length_app, Hs; lia).
  unfold decode_token_index, decode_leased_token_index. rewrite Hsize, Htake, Hdrop, bool_decide_true by done. by rewrite Hd.
Qed.

(** * Built groups *)

(** A row: its event time and its indexed fields, with whether a field is a keyword body. *)
Notation "'GRow'" := (Z * list (bool * list Z))%type.
Definition add_field (b : TokenGroupBuilder) (f : bool * Text) : TokenGroupBuilder := let b := add_text f.2 b in if f.1 then add_body f.2 b else b.
Definition group_row (b : TokenGroupBuilder) (r : GRow) : TokenGroupBuilder := foldl add_field (add_row_at r.1 b) r.2.
Definition group_build (b : TokenGroupBuilder) (rows : list GRow) : TokenGroupBuilder := foldl group_row b rows.

Definition row_texts (r : GRow) : list Text := snd <$> r.2.
Definition row_tokens (addresses : bool) (r : GRow) : list Bytes := concat (text_tokens addresses <$> row_texts r).
(** What the block index and the counts see of a row. *)
Definition block_row_of (addresses : bool) (r : GRow) : Z * list Bytes := (r.1, row_tokens addresses r).
Definition count_row_of (r : GRow) : Z * list Bytes := (r.1, (fun f => utf8 f.2) <$> filter (fun f => f.1 = true) r.2).
Definition add_tokens (bb : BlockBuilder) (tokens : list Bytes) : BlockBuilder := foldl (fun bb token => add_token token bb) bb tokens.

Lemma add_field_fields b f : b_addresses (add_field b f) = b_addresses b /\ b_rows (add_field b f) = b_rows b.
Proof. unfold add_field. by destruct f as [[] t]. Qed.

Lemma fields_fields b fs : b_addresses (foldl add_field b fs) = b_addresses b /\ b_rows (foldl add_field b fs) = b_rows b.
Proof. revert b; induction fs as [|f fs IH]; intros b; cbn; [done|]. destruct (IH (add_field b f)) as [-> ->]. apply add_field_fields. Qed.

Lemma rows_addresses b rows : b_addresses (group_build b rows) = b_addresses b.
Proof. revert b; induction rows as [|r rows IH]; intros b; cbn; [done|]. rewrite IH. unfold group_row. by rewrite (proj1 (fields_fields _ _)). Qed.

Lemma rows_rows b rows : b_rows b + Z.of_nat (length rows) <= u64_max -> 0 <= b_rows b -> b_rows (group_build b rows) = b_rows b + Z.of_nat (length rows).
Proof.
  revert b; induction rows as [|r rows IH]; intros b Hl Hb; cbn; [lia|]. cbn in Hl.
  assert (Hr : b_rows (group_row b r) = b_rows b + 1).
  { unfold group_row. rewrite (proj2 (fields_fields _ _)). cbn. apply wrap_u64_id. unfold in_u64. lia. }
  fold (group_build (group_row b r) rows). rewrite IH, Hr; lia.
Qed.

Lemma fields_blocks b fs : b_blocks (foldl add_field b fs) = (fun bb => add_tokens bb (concat (text_tokens (b_addresses b) <$> fs.*2))) <$> b_blocks b.
Proof.
  revert b; induction fs as [|f fs IH]; intros b; cbn; [by destruct (b_blocks b)|]. rewrite IH, (proj1 (add_field_fields b f)).
  unfold add_field. destruct f as [[] t]; cbn; (destruct (b_blocks b) as [bb|]; [|done]); cbn; f_equal; unfold add_tokens; by rewrite foldl_app.
Qed.

Lemma rows_blocks b rows : b_blocks (group_build b rows) = (fun bb => foldl block_row bb (block_row_of (b_addresses b) <$> rows)) <$> b_blocks b.
Proof.
  revert b; induction rows as [|r rows IH]; intros b; cbn; [by destruct (b_blocks b)|]. fold (group_build (group_row b r) rows). rewrite IH.
  assert (Ha : b_addresses (group_row b r) = b_addresses b) by (unfold group_row; by rewrite (proj1 (fields_fields _ _))). rewrite Ha. unfold group_row.
  rewrite fields_blocks. cbn. by destruct (b_blocks b).
Qed.

Lemma fields_counts b fs : b_counts (foldl add_field b fs) = (fun cb => foldl (fun cb t => cb_add_text t cb) cb ((fun f => utf8 f.2) <$> filter (fun f => f.1 = true) fs)) <$> b_counts b.
Proof.
  revert b; induction fs as [|[body t] fs IH]; intros b; cbn [foldl]; [by cbn; destruct (b_counts b)|]. rewrite IH, filter_cons. unfold add_field.
  destruct body; cbn [fst snd]; [rewrite decide_True by done|rewrite decide_False by done]; cbn; by destruct (b_counts b).
Qed.

Lemma rows_counts b rows : b_counts (group_build b rows) = (fun cb => foldl build_row cb (count_row_of <$> rows)) <$> b_counts b.
Proof.
  revert b; induction rows as [|r rows IH]; intros b; cbn; [by destruct (b_counts b)|]. fold (group_build (group_row b r) rows). rewrite IH. unfold group_row.
  rewrite fields_counts. cbn. by destruct (b_counts b).
Qed.

Lemma fields_tokens b fs : (b_tokens (foldl add_field b fs), b_overflow (foldl add_field b fs)) = foldl remember_token (b_tokens b, b_overflow b) (concat (text_tokens (b_addresses b) <$> fs.*2)).
Proof.
  revert b; induction fs as [|f fs IH]; intros b; cbn; [done|]. rewrite IH, (proj1 (add_field_fields b f)), foldl_app.
  unfold add_field. destruct f as [[] t]; cbn; by rewrite <- surjective_pairing.
Qed.

Lemma rows_tokens b rows : (b_tokens (group_build b rows), b_overflow (group_build b rows)) = foldl remember_token (b_tokens b, b_overflow b) (concat (row_tokens (b_addresses b) <$> rows)).
Proof.
  revert b; induction rows as [|r rows IH]; intros b; cbn; [done|]. fold (group_build (group_row b r) rows). rewrite IH, foldl_app.
  assert (Ha : b_addresses (group_row b r) = b_addresses b) by (unfold group_row; by rewrite (proj1 (fields_fields _ _))). rewrite Ha. unfold group_row. by rewrite fields_tokens.
Qed.

Lemma fields_trigrams b fs : b_trigrams (foldl add_field b fs) = (fun f => foldl (fun f t => add_trigrams t f) f fs.*2) <$> b_trigrams b.
Proof.
  revert b; induction fs as [|f fs IH]; intros b; cbn; [by destruct (b_trigrams b)|]. rewrite IH. unfold add_field. destruct f as [[] t]; cbn; by destruct (b_trigrams b).
Qed.
Lemma rows_trigrams b rows : b_trigrams (group_build b rows) = (fun f => foldl (fun f t => add_trigrams t f) f (concat (row_texts <$> rows))) <$> b_trigrams b.
Proof.
  revert b; induction rows as [|r rows IH]; intros b; cbn; [by destruct (b_trigrams b)|]. fold (group_build (group_row b r) rows). rewrite IH. unfold group_row. rewrite fields_trigrams.
  cbn. destruct (b_trigrams b); cbn; [|done]. by rewrite foldl_app.
Qed.

(** The pair set and its overflow flag. *)
Definition pairs_state (b : TokenGroupBuilder) : option (gset Z * bool) := (fun s => (s, b_pairs_overflow b)) <$> b_pairs b.
Lemma fields_pairs b fs : pairs_state (foldl add_field b fs) = (fun s => foldl (fun s t => add_pairs t s) s fs.*2) <$> pairs_state b.
Proof.
  revert b; induction fs as [|f fs IH]; intros b; cbn; [by destruct (pairs_state b)|]. rewrite IH.
  assert (Hp : pairs_state (add_field b f) = add_pairs f.2 <$> pairs_state b).
  { unfold pairs_state, add_field. destruct f as [[] t]; cbn; (destruct (b_pairs b) as [s|]; [|done]); cbn; by destruct (add_pairs t _). }
  rewrite Hp. by destruct (pairs_state b).
Qed.
Lemma rows_pairs b rows : pairs_state (group_build b rows) = (fun s => foldl (fun s t => add_pairs t s) s (concat (row_texts <$> rows))) <$> pairs_state b.
Proof.
  revert b; induction rows as [|r rows IH]; intros b; cbn; [by destruct (pairs_state b)|]. fold (group_build (group_row b r) rows). rewrite IH. unfold group_row. rewrite fields_pairs.
  change (pairs_state (add_row_at r.1 b)) with (pairs_state b). destruct (pairs_state b); cbn; [|done]. by rewrite foldl_app.
Qed.

(** ** Sets with a cap *)

Lemma remember_complete l s : let s' := foldl remember_token s l in
  (s.2 = true -> s'.2 = true) /\ s.1 ⊆ s'.1 /\ (s'.2 = false -> forall x, x ∈ l -> x ∈ s'.1) /\ (l <> [] -> s'.1 <> ∅).
Proof.
  revert s; induction l as [|x l IH]; intros s; cbn; [split_and!; [done|done|by intros _ x ?%elem_of_nil|done]|].
  destruct (IH (remember_token s x)) as (IHo & IHs & IHx & _). unfold remember_token in *. destruct (Z.ltb_spec (Z.of_nat (size s.1)) TOKEN_DISTINCT_CAP) as [Hlt|Hge]; cbn in *.
  - split_and!; [done|set_solver| |set_solver]. intros Hf y [->|Hy]%elem_of_cons; [set_solver|auto].
  - split_and!; [auto|done| |].
    + intros Hf. exfalso. rewrite IHo in Hf by done. done.
    + intros _ E. assert (Hs : s.1 = ∅) by set_solver. rewrite Hs, size_empty in Hge. unfold TOKEN_DISTINCT_CAP in Hge. lia.
Qed.

Definition pair_id (p : Bytes * Bytes) : Z := of_le (pair_key p.1 p.2).
Lemma add_pairs_complete l s : let s' := foldl add_pair s l in
  (s.2 = true -> s'.2 = true) /\ s.1 ⊆ s'.1 /\ (s'.2 = false -> forall x, x ∈ l -> pair_id x ∈ s'.1).
Proof.
  revert s; induction l as [|x l IH]; intros s; cbn; [split_and!; [done|done|by intros _ x ?%elem_of_nil]|].
  destruct (IH (add_pair s x)) as (IHo & IHs & IHx). unfold add_pair in *. destruct (Z.ltb_spec (Z.of_nat (size s.1)) PAIR_DISTINCT_CAP) as [Hlt|Hge]; cbn in *.
  - split_and!; [done|set_solver|]. intros Hf y [->|Hy]%elem_of_cons; [unfold pair_id; set_solver|auto].
  - split_and!; [auto|done|]. intros Hf. exfalso. rewrite IHo in Hf by done. done.
Qed.
Lemma texts_pairs_complete ts s : let s' := foldl (fun s t => add_pairs t s) s ts in
  (s.2 = true -> s'.2 = true) /\ s.1 ⊆ s'.1 /\ (s'.2 = false -> forall t u x, t ∈ ts -> u ∈ folded_texts t -> x ∈ adjacent_pairs u -> pair_id x ∈ s'.1).
Proof.
  revert s; induction ts as [|t ts IH]; intros s; cbn; [split_and!; [done|done|by intros _ t u x ?%elem_of_nil]|].
  destruct (IH (add_pairs t s)) as (IHo & IHs & IHx). destruct (add_pairs_complete (concat (adjacent_pairs <$> folded_texts t)) s) as (Ho & Hs & Hx).
  fold (add_pairs t s) in Ho, Hs, Hx. split_and!; [auto|set_solver|]. intros Hf t' u x [->|Ht]%elem_of_cons Hu Hin; [|by eapply IHx].
  apply IHs. apply Hx; [by destruct (add_pairs t s).2; [rewrite IHo in Hf|]|]. apply elem_of_concat. exists (adjacent_pairs u). split; [done|]. apply list_elem_of_fmap. eauto.
Qed.

(** ** Filters *)

Context `{!SbbfLaws}.

Lemma inserts_complete {A} (key : A -> Bytes) l f : sbbf_bitset f <> [] -> let f' := foldl (fun f x => sbbf_insert (key x) f) f l in
  length (sbbf_bitset f') = length (sbbf_bitset f) /\ (forall y, sbbf_check f y = true -> sbbf_check f' y = true) /\ (forall x, x ∈ l -> sbbf_check f' (key x) = true).
Proof.
  revert f; induction l as [|x l IH]; intros f Hf; cbn; [split_and!; [done|done|by intros x ?%elem_of_nil]|].
  assert (Hf' : sbbf_bitset (sbbf_insert (key x) f) <> []) by (intros E; apply (f_equal length) in E; rewrite bits_insert in E; by destruct (sbbf_bitset f)).
  destruct (IH _ Hf') as (IHl & IHy & IHx). split_and!; [by rewrite IHl, bits_insert| |].
  - intros y Hy. by apply IHy, check_insert_mono.
  - intros y [->|Hy]%elem_of_cons; [by apply IHy, check_insert|auto].
Qed.

Lemma texts_trigrams_complete ts f : sbbf_bitset f <> [] -> let f' := foldl (fun f t => add_trigrams t f) f ts in
  length (sbbf_bitset f') = length (sbbf_bitset f) /\ (forall y, sbbf_check f y = true -> sbbf_check f' y = true) /\
  (forall t u gram, t ∈ ts -> u ∈ folded_texts t -> gram ∈ ascii_trigrams u -> sbbf_check f' gram = true).
Proof.
  revert f; induction ts as [|t ts IH]; intros f Hf; cbn; [split_and!; [done|done|by intros t u g ?%elem_of_nil]|].
  destruct (inserts_complete (fun g => g) (concat (ascii_trigrams <$> folded_texts t)) f Hf) as (Hl & Hy & Hx). fold (add_trigrams t f) in Hl, Hy, Hx.
  assert (Hf' : sbbf_bitset (add_trigrams t f) <> []) by (intros E; apply (f_equal length) in E; rewrite Hl in E; by destruct (sbbf_bitset f)).
  destruct (IH _ Hf') as (IHl & IHy & IHx). split_and!; [by rewrite IHl| |].
  - intros y Hc. by apply IHy, Hy.
  - intros t' u gram [->|Ht]%elem_of_cons Hu Hg; [|by eapply IHx]. apply IHy, Hx. apply elem_of_concat. exists (ascii_trigrams u). split; [done|]. apply list_elem_of_fmap. eauto.
Qed.

(** The size of a pair filter is one that [Sbbf] takes as it is. *)
Lemma pow2_is_power k : 0 <= k -> is_power_of_two (2 ^ k) = true.
Proof.
  intros Hk. unfold is_power_of_two. pose proof (Z.pow_pos_nonneg 2 k ltac:(lia) Hk). rewrite (proj2 (Z.ltb_lt _ _)) by lia. apply Z.eqb_eq.
  replace (2 ^ k - 1) with (Z.ones k) by (rewrite Z.ones_equiv; lia). rewrite Z.land_ones by lia. by rewrite Z.mod_same by lia.
Qed.

Lemma is_power_inv z : is_power_of_two z = true -> z = 2 ^ Z.log2 z.
Proof.
  unfold is_power_of_two. rewrite andb_true_iff, Z.ltb_lt, Z.eqb_eq. intros [Hz Hl]. pose proof (Z.log2_spec z Hz) as [H1' H2']. pose proof (Z.log2_nonneg z).
  destruct (Z.eq_dec z (2 ^ Z.log2 z)) as [|Hne]; [done|exfalso].
  assert (Hb : Z.testbit (Z.land z (z - 1)) (Z.log2 z) = true).
  { rewrite Z.land_spec, Z.bit_log2 by done. assert (Hlog : Z.log2 (z - 1) = Z.log2 z) by (apply Z.log2_unique; lia).
    rewrite <- Hlog at 1. apply Z.bit_log2. lia. }
  rewrite Hl, Z.bits_0 in Hb. done.
Qed.

Lemma pair_filter_size n : is_power_of_two (pair_filter_bytes n) = true /\ 32 <= pair_filter_bytes n <= PAIR_FILTER_MAX_BYTES.
Proof.
  unfold pair_filter_bytes. set (bytes := one_percent_bytes n). set (floor := if is_power_of_two bytes then bytes else next_power_of_two bytes / 2).
  assert (Hf : floor <= 0 \/ exists k, 0 <= k /\ floor = 2 ^ k).
  { unfold floor. destruct (is_power_of_two bytes) eqn:E; [right; exists (Z.log2 bytes); split; [apply Z.log2_nonneg|by apply is_power_inv]|].
    unfold next_power_of_two. destruct (Z.le_gt_cases (Z.log2_up bytes) 0) as [Hz|Hz].
    - left. pose proof (Z.log2_up_nonneg bytes). replace (Z.log2_up bytes) with 0 by lia. done.
    - right. exists (Z.log2_up bytes - 1). split; [lia|]. rewrite <- (Z.sub_add 1 (Z.log2_up bytes)) at 1. rewrite Z.pow_add_r by lia. by rewrite Z.div_mul. }
  unfold PAIR_FILTER_MAX_BYTES. split; [|lia]. destruct (Z.le_gt_cases floor 32) as [H32|H32]; [by rewrite Z.max_r, Z.min_l by lia|]. rewrite Z.max_l by lia.
  destruct (Z.le_gt_cases floor 524288); [rewrite Z.min_l by lia|by rewrite Z.min_r by lia]. destruct Hf as [|(k & Hk & ->)]; [lia|]. by apply pow2_is_power.
Qed.

Lemma length_nonempty (bs : Bytes) n : (0 < n)%nat -> length bs = n -> bs <> [].
Proof. intros Hn Hl ->. cbn in Hl. lia. Qed.

Lemma finish_pairs_bits pairs overflow :
  let bits := pb_bitset (finish_pairs pairs overflow) in (length bits mod 32 = 0)%nat /\ Z.of_nat (length bits) <= PAIR_FILTER_MAX_BYTES.
Proof.
  unfold finish_pairs. destruct overflow; [done|]. case_bool_decide; [done|]. cbn [pb_bitset]. destruct (pair_filter_size (Z.of_nat (size pairs))) as [Hp Hs]. pose proof Hs as Hs'. unfold PAIR_FILTER_MAX_BYTES in Hs'.
  pose proof (length_with_bytes _ Hp ltac:(lia)) as Hl. set (f := sbbf_with_bytes _) in *.
  assert (Hne : sbbf_bitset f <> []) by (intros E; rewrite E in Hl; cbn in Hl; lia).
  destruct (inserts_complete (le_bytes 8) (elements pairs) f Hne) as (-> & _). split; [|lia].
  apply is_power_inv in Hp. apply Nat2Z.inj. rewrite Nat2Z.inj_mod, Hl, Hp. change (Z.of_nat 32) with (2 ^ 5).
  pose proof (Z.log2_le_mono _ _ (proj1 Hs)) as Hlog. change (Z.log2 32) with 5 in Hlog.
  rewrite <- (Z.sub_add 5 (Z.log2 _)), Z.pow_add_r by lia. by rewrite Z.mod_mul.
Qed.

Lemma finish_pairs_complete pairs overflow keys :
  (overflow = false -> forall key, key ∈ keys -> exists id, id ∈ pairs /\ key = le_bytes 8 id) -> pairs_contain_all (finish_pairs pairs overflow) keys = true.
Proof.
  intros Hk. unfold pairs_contain_all, finish_pairs. destruct overflow; cbn [pb_bitset].
  { change (forallb (sbbf_check (sbbf_new (replicate 32 255))) keys = true). apply forallb_forall. intros; apply check_ones. }
  specialize (Hk eq_refl). case_bool_decide as He; cbn [pb_bitset].
  { destruct keys as [|key keys]; [done|]. destruct (Hk key ltac:(left)) as (id & Hid & _). set_solver. }
  destruct (pair_filter_size (Z.of_nat (size pairs))) as [Hp Hs]. pose proof Hs as Hs'. unfold PAIR_FILTER_MAX_BYTES in Hs'.
  pose proof (length_with_bytes _ Hp ltac:(lia)) as Hl. set (f := sbbf_with_bytes _) in *.
  assert (Hne : sbbf_bitset f <> []) by (intros E; rewrite E in Hl; cbn in Hl; lia).
  destruct (inserts_complete (le_bytes 8) (elements pairs) f Hne) as (Hlen & _ & Hx). set (f' := foldl _ _ _) in *.
  assert (Hne' : sbbf_bitset f' <> []) by (apply (length_nonempty _ (length (sbbf_bitset f))); [destruct (sbbf_bitset f); [done|cbn; lia]|done]).
  destruct (sbbf_bitset f') eqn:E; [done|]. rewrite <- E. apply forallb_forall. intros key Hin%list_elem_of_In. rewrite check_bitset by (by rewrite E).
  destruct (Hk key Hin) as (id & Hid & ->). apply Hx. by apply elem_of_elements.
Qed.

(** ** A built group covers its rows *)

(** A builder of the writer before its first row. *)
Record fresh (n : option Z) (b : TokenGroupBuilder) : Prop := {
  fr_rows : b_rows b = 0;
  fr_tokens : b_tokens b = ∅ /\ b_overflow b = false;
  fr_blocks : b_blocks b = BlockBuilder_new <$> n;
  fr_counts : b_counts b = None \/ b_counts b = Some CountBuilder_new;
  fr_trigrams : b_trigrams b = None \/ b_trigrams b = Some (sbbf_new (replicate (Z.to_nat TRIGRAM_FILTER_BYTES) 0));
  fr_pairs : pairs_state b = None \/ pairs_state b = Some (∅, false) }.

Lemma for_writer_fresh counts trigrams pairs addresses n : fresh n (for_writer counts trigrams pairs addresses n).
Proof.
  destruct n as [n|]; [|split; cbn; auto]. unfold for_writer.
  destruct (counts && trigrams && pairs && addresses); [split; cbn; auto|]. destruct (counts && trigrams && pairs); [split; cbn; auto|].
  destruct (counts && trigrams); [split; cbn; auto|]. destruct counts; split; cbn; auto.
Qed.

(** No false negatives of a group's filters. *)
Record group_covers (n : option Z) (rows : list GRow) (g : TokenGroup) : Prop := {
  gc_rows : tg_rows g = Z.of_nat (length rows);
  gc_tokens tokens : (forall x, x ∈ tokens -> exists r, r ∈ rows /\ x ∈ row_tokens (tg_addresses g) r) -> may_contain_all g tokens = true;
  gc_blocks : tg_blocks g = (fun n => block_finish (block_build n (block_row_of (tg_addresses g) <$> rows))) <$> n;
  gc_trigrams bits r t u gram : tg_trigrams g = Some bits -> r ∈ rows -> t ∈ row_texts r -> u ∈ folded_texts t -> gram ∈ ascii_trigrams u ->
    sbbf_check (sbbf_new bits) gram = true;
  gc_pairs p keys : tg_pairs g = Some p ->
    (forall key, key ∈ keys -> exists r t u x, r ∈ rows /\ t ∈ row_texts r /\ u ∈ folded_texts t /\ x ∈ adjacent_pairs u /\ key = pair_key x.1 x.2) ->
    pairs_contain_all p keys = true }.

Lemma pair_key_id x : le_bytes 8 (pair_id x) = pair_key x.1 x.2.
Proof. unfold pair_id, pair_key. rewrite <- (length_le_bytes 8 (xxhash64 PAIR_SEED (x.1 ++ [31] ++ x.2))) at 1. apply le_of_bytes, le_bytes_byte. Qed.

Lemma built_pairs n b rows p keys : fresh n b -> (fun s => finish_pairs s.1 s.2) <$> pairs_state (group_build b rows) = Some p ->
  (forall key, key ∈ keys -> exists r t u x, r ∈ rows /\ t ∈ row_texts r /\ u ∈ folded_texts t /\ x ∈ adjacent_pairs u /\ key = pair_key x.1 x.2) ->
  pairs_contain_all p keys = true.
Proof.
  intros [_ _ _ _ _ Hp] E Hk. rewrite rows_pairs in E. destruct Hp as [Hp|Hp]; rewrite Hp in E; [done|]. cbn in E. injection E as <-. apply finish_pairs_complete.
  intros Hov key Hkey. destruct (Hk key Hkey) as (r & t & u & x & Hr & Ht & Hu & Hx & ->).
  destruct (texts_pairs_complete (concat (row_texts <$> rows)) (∅, false)) as (_ & _ & Hc). exists (pair_id x). split; [|by rewrite pair_key_id].
  apply (Hc Hov t u x); [|done|done]. apply elem_of_concat. exists (row_texts r). split; [done|]. apply list_elem_of_fmap. eauto.
Qed.

Lemma zeros_trigrams N rows bits : (N mod 32 = 0)%nat -> (0 < N)%nat -> sbbf_bitset (foldl (fun f t => add_trigrams t f) (sbbf_new (replicate N 0)) (concat (row_texts <$> rows))) = bits ->
  length bits = N /\
  (forall r t u gram, r ∈ rows -> t ∈ row_texts r -> u ∈ folded_texts t -> gram ∈ ascii_trigrams u -> sbbf_check (sbbf_new bits) gram = true).
Proof.
  intros HN Hpos <-. pose proof (length_new (replicate N 0)) as Hl. rewrite length_replicate in Hl. specialize (Hl HN).
  set (f := sbbf_new _) in *. assert (Hne : sbbf_bitset f <> []) by (by apply (length_nonempty _ N)).
  destruct (texts_trigrams_complete (concat (row_texts <$> rows)) f Hne) as (Hlen & _ & Hx). set (f' := foldl _ _ _) in *. split; [by rewrite Hlen|].
  intros r t u gram Hr Ht Hu Hg. rewrite check_bitset by (apply (length_nonempty _ N); [done|by rewrite Hlen]).
  eapply Hx; [|done|done]. apply elem_of_concat. exists (row_texts r). split; [done|]. apply list_elem_of_fmap. eauto.
Qed.

Lemma fmap_twice {A B C} (g : B -> C) (h : A -> B) (o : option A) x y : o = Some x -> g <$> (h <$> o) = Some y -> g (h x) = y.
Proof. intros ->. by intros [= <-]. Qed.
Lemma fmap_twice_none {A B C} (g : B -> C) (h : A -> B) (o : option A) y : o = None -> g <$> (h <$> o) = Some y -> False.
Proof. by intros ->. Qed.

Lemma trigram_blocks : (Z.to_nat TRIGRAM_FILTER_BYTES mod 32 = 0)%nat /\ (0 < Z.to_nat TRIGRAM_FILTER_BYTES)%nat.
Proof. split; [apply Nat2Z.inj; rewrite Nat2Z.inj_mod, Z2Nat.id by done; reflexivity|unfold TRIGRAM_FILTER_BYTES; lia]. Qed.

Lemma built_trigrams n b rows bits : fresh n b -> sbbf_bitset <$> b_trigrams (group_build b rows) = Some bits ->
  forall r t u gram, r ∈ rows -> t ∈ row_texts r -> u ∈ folded_texts t -> gram ∈ ascii_trigrams u -> sbbf_check (sbbf_new bits) gram = true.
Proof.
  intros [_ _ _ _ Hf _] E. rewrite rows_trigrams in E. destruct Hf as [Hf|Hf]; [by destruct (fmap_twice_none _ _ _ _ Hf E)|]. apply (fmap_twice _ _ _ _ _ Hf) in E. clear Hf.
  destruct trigram_blocks as [Hm Hpos]. exact (proj2 (zeros_trigrams _ rows bits Hm Hpos E)).
Qed.

Lemma finish_inv b g : group_finish b = Ok g ->
  tg_rows g = b_rows b /\ tg_blocks g = block_finish <$> b_blocks b /\ tg_counts g = cb_finish <$> b_counts b /\ tg_trigrams g = sbbf_bitset <$> b_trigrams b /\
  tg_pairs g = (fun s => finish_pairs s.1 s.2) <$> pairs_state b /\ tg_addresses g = b_addresses b /\
  ((b_tokens b = ∅ /\ tg_tokens g = 0 /\ bitset g = [] /\ saturated g = false) \/
   (b_tokens b <> ∅ /\ tg_tokens g = Z.of_nat (size (b_tokens b)) /\
    exists f, sbbf_with_ndv (Z.max (Z.of_nat (size (b_tokens b))) 64) = Ok f /\
      let bits := sbbf_bitset (foldl (fun f token => sbbf_insert token f) f (elements (b_tokens b))) in
      saturated g = b_overflow b || (TOKEN_FILTER_MAX_BYTES <? Z.of_nat (length bits)) /\ bitset g = if saturated g then replicate 32 255 else bits)).
Proof.
  unfold group_finish. intros Hg. apply bind_ok_inv in Hg as ([] & _ & Hg). apply bind_ok_inv in Hg as ([] & _ & Hg).
  assert (Hp : (fun s => finish_pairs s (b_pairs_overflow b)) <$> b_pairs b = (fun s => finish_pairs s.1 s.2) <$> pairs_state b) by (unfold pairs_state; by destruct (b_pairs b)).
  case_bool_decide as He.
  - apply Ok_inj in Hg as <-. cbn. split_and!; try done. by left.
  - apply bind_ok_inv in Hg as (f & Hf & Hg). apply Ok_inj in Hg as <-. cbn [tg_rows tg_blocks tg_counts tg_trigrams tg_pairs tg_addresses tg_tokens bitset saturated].
    split_and!; try done. right. split_and!; [done|done|]. by exists f.
Qed.

Lemma with_ndv_bits b f : sbbf_with_ndv (Z.max (Z.of_nat (size (b_tokens b))) 64) = Ok f ->
  let f' := foldl (fun f token => sbbf_insert token f) f (elements (b_tokens b)) in
  (64 <= length (sbbf_bitset f'))%nat /\ (length (sbbf_bitset f') mod 32 = 0)%nat /\ forall x, x ∈ b_tokens b -> sbbf_check f' x = true.
Proof.
  intros Hf. cbv zeta. destruct (length_with_ndv (Z.max (Z.of_nat (size (b_tokens b))) 64) f ltac:(lia) Hf) as [H64 Hm].
  assert (Hne : sbbf_bitset f <> []) by (apply (length_nonempty _ (length (sbbf_bitset f))); [lia|done]).
  destruct (inserts_complete (fun x => x) (elements (b_tokens b)) f Hne) as (-> & _ & Hx). split_and!; [done|done|]. intros x Hin. apply Hx. by apply elem_of_elements.
Qed.

Lemma finish_tokens b g tokens : group_finish b = Ok g -> (b_overflow b = false -> forall x, x ∈ tokens -> x ∈ b_tokens b) -> (tokens <> [] -> b_tokens b <> ∅) ->
  may_contain_all g tokens = true.
Proof.
  intros (_ & _ & _ & _ & _ & _ & Hb)%finish_inv Hin Hne. unfold may_contain_all. destruct Hb as [(He & _ & -> & _)|(He & _ & f & Hf & Hs & Hb)].
  - destruct tokens; [done|]. exfalso. by apply Hne.
  - apply with_ndv_bits in Hf as (H64 & _ & Hx). destruct (saturated g) eqn:Hsat; rewrite Hb.
    + change (forallb (sbbf_check (sbbf_new (replicate 32 255))) tokens = true). apply forallb_forall. intros; apply check_ones.
    + cbv zeta in *. set (f' := foldl _ _ _) in *. destruct (sbbf_bitset f') eqn:E; [cbn in H64; lia|]. rewrite <- E. apply forallb_forall. intros x Hx'%list_elem_of_In.
      rewrite check_bitset by (by rewrite E). apply Hx. symmetry in Hs. apply orb_false_iff in Hs as [Hs _]. auto.
Qed.

Lemma built_covers n b rows g : fresh n b -> Z.of_nat (length rows) <= u64_max -> group_finish (group_build b rows) = Ok g -> group_covers n rows g.
Proof.
  intros Hfresh Hlen Hg. pose proof (finish_inv _ _ Hg) as (Hr & Hb & _ & Ht & Hp & Ha & _). rewrite rows_addresses in Ha. destruct Hfresh as [F1 [F2 F2'] F3 F4 F5 F6] eqn:Hfr. split.
  - rewrite Hr, rows_rows; lia.
  - intros tokens Htok. apply (finish_tokens _ _ _ Hg).
    + intros Hov x Hx. destruct (Htok x Hx) as (r & Hin & Hxr). pose proof (rows_tokens b rows) as E. rewrite F2, F2' in E.
      destruct (remember_complete (concat (row_tokens (b_addresses b) <$> rows)) (∅, false)) as (_ & _ & Hc & _). rewrite <- E in Hc. apply Hc; [done|].
      apply elem_of_concat. exists (row_tokens (b_addresses b) r). rewrite Ha in Hxr. split; [done|]. apply list_elem_of_fmap. eauto.
    + intros Hne. destruct tokens as [|x tokens]; [done|]. destruct (Htok x ltac:(left)) as (r & Hin & Hxr). pose proof (rows_tokens b rows) as E. rewrite F2, F2' in E.
      destruct (remember_complete (concat (row_tokens (b_addresses b) <$> rows)) (∅, false)) as (_ & _ & _ & Hc). rewrite <- E in Hc. apply Hc. rewrite Ha in Hxr.
      intros En. assert (Hi : x ∈ concat (row_tokens (b_addresses b) <$> rows)) by (apply elem_of_concat; exists (row_tokens (b_addresses b) r); split; [done|]; apply list_elem_of_fmap; eauto).
      rewrite En in Hi. by apply elem_of_nil in Hi.
  - rewrite Hb, rows_blocks, Ha, F3. by destruct n.
  - intros bits r t u gram E. rewrite Ht in E. by apply (built_trigrams n b rows bits Hfresh E).
  - intros p keys E. rewrite Hp in E. by apply (built_pairs n b rows p keys Hfresh E).
Qed.

(** ** A built group is one the decoder accepts *)

Lemma remember_size l s : Z.of_nat (size s.1) <= TOKEN_DISTINCT_CAP -> Z.of_nat (size (foldl remember_token s l).1) <= TOKEN_DISTINCT_CAP.
Proof.
  revert s; induction l as [|x l IH]; intros s Hs; cbn; [done|]. apply IH. unfold remember_token. destruct (Z.ltb_spec (Z.of_nat (size s.1)) TOKEN_DISTINCT_CAP); cbn; [|done].
  destruct (decide (x ∈ s.1)); [by rewrite subseteq_union_1_L by set_solver|]. rewrite size_union by set_solver. rewrite size_singleton. lia.
Qed.
Lemma add_pair_size l s : Z.of_nat (size s.1) <= PAIR_DISTINCT_CAP -> Z.of_nat (size (foldl add_pair s l).1) <= PAIR_DISTINCT_CAP.
Proof.
  revert s; induction l as [|x l IH]; intros s Hs; cbn; [done|]. apply IH. unfold add_pair. destruct (Z.ltb_spec (Z.of_nat (size s.1)) PAIR_DISTINCT_CAP); cbn; [|done].
  destruct (decide (of_le (pair_key x.1 x.2) ∈ s.1)); [by rewrite subseteq_union_1_L by set_solver|]. rewrite size_union by set_solver. rewrite size_singleton. lia.
Qed.
Lemma texts_pairs_size ts s : Z.of_nat (size s.1) <= PAIR_DISTINCT_CAP -> Z.of_nat (size (foldl (fun s t => add_pairs t s) s ts).1) <= PAIR_DISTINCT_CAP.
Proof. revert s; induction ts as [|t ts IH]; intros s Hs; cbn; [done|]. apply IH. by apply add_pair_size. Qed.

Context `{!XorfLaws, !XxHashLaws, !XorfShape}.

(** Rows a group takes: a [u32] count of them, with times that are [i64]. *)
Definition rows_ok (rows : list GRow) : Prop := Z.of_nat (length rows) <= u32_max /\ Forall (fun r : GRow => in_i64 r.1) rows.
Definition block_rows_ok (n : option Z) : Prop := forall k, n = Some k -> 0 < k <= u32_max.

Lemma block_rows_map addresses rows : Forall (fun r : GRow => in_i64 r.1) rows -> Forall (fun r : Z * list Bytes => in_i64 r.1) (block_row_of addresses <$> rows).
Proof. intros Hr. by apply Forall_fmap. Qed.
Lemma count_rows_map rows : Forall (fun r : GRow => in_i64 r.1) rows -> Forall (fun r : Z * list Bytes => in_i64 r.1) (count_row_of <$> rows).
Proof. intros Hr. by apply Forall_fmap. Qed.

Lemma built_counts n b rows c : fresh n b -> cb_finish <$> b_counts (group_build b rows) = Some c -> c = cb_finish (build (count_row_of <$> rows)).
Proof. intros [_ _ _ F _ _]. rewrite rows_counts. destruct F as [->| ->]; [done|]. by intros [= <-]. Qed.

Lemma built_ok n b rows g : fresh n b -> block_rows_ok n -> rows_ok rows -> group_finish (group_build b rows) = Ok g -> group_ok g.
Proof.
  intros Hfresh Hn [Hlen Htimes] Hg. pose proof (finish_inv _ _ Hg) as (Hr & Hb & Hc & _ & Hp & _ & Hbits). pose proof Hfresh as [F1 [F2 F2'] F3 _ _ F6].
  assert (Hrows : tg_rows g = Z.of_nat (length rows)) by (rewrite Hr, rows_rows, F1; unfold u32_max, u64_max in *; lia).
  assert (Hsize : Z.of_nat (size (b_tokens (group_build b rows))) <= TOKEN_DISTINCT_CAP).
  { pose proof (rows_tokens b rows) as E. rewrite F2, F2' in E. apply (f_equal fst) in E. cbn in E. rewrite E. apply remember_size. cbn. rewrite size_empty. done. }
  unfold TOKEN_DISTINCT_CAP in Hsize. split.
  - rewrite Hrows. unfold in_u64, u32_max, u64_max in *. lia.
  - destruct Hbits as [(_ & -> & _)|(_ & -> & _)]; unfold in_u64, u64_max; lia.
  - destruct Hbits as [(_ & _ & -> & _)|(_ & _ & f & Hf & Hs & ->)]; [done|]. cbv zeta in *. destruct (saturated g); [done|].
    symmetry in Hs. apply orb_false_iff in Hs as [_ Hs]. by apply Z.ltb_ge in Hs.
  - destruct Hbits as [(_ & _ & -> & ->)|(_ & _ & f & Hf & _ & ->)]; [done|]. cbv zeta. apply with_ndv_bits in Hf as (H64 & _). cbv zeta in H64. destruct (saturated g); [done|].
    unfold all_ones. symmetry. apply andb_false_iff. left. apply Nat.eqb_neq. lia.
  - intros ix Hix. rewrite Hb, rows_blocks, F3 in Hix. destruct n as [k|]; [|done]. injection Hix as <-. specialize (Hn k eq_refl).
    pose proof (finish_fields k (block_row_of (b_addresses b) <$> rows) Hn ltac:(rewrite length_fmap; lia)) as [_ Hk]. unfold block_build in Hk. rewrite Hk. split; [lia|].
    intros bs more He. rewrite Hrows. pose proof (block_build_roundtrip k (block_row_of (b_addresses b) <$> rows) bs more Hn) as Hrt. rewrite length_fmap in Hrt.
    apply Hrt; [done|by apply block_rows_map|done].
  - intros c E. rewrite Hc in E. apply (built_counts n) in E as ->; [|done]. intros bs more He. rewrite Hrows.
    pose proof (counts_build_roundtrip (count_row_of <$> rows) bs more) as Hrt. rewrite length_fmap in Hrt. apply Hrt; [done|by apply count_rows_map|done].
  - intros p E. rewrite Hp, rows_pairs in E. destruct F6 as [F6|F6]; rewrite F6 in E; [done|]. injection E as <-.
    pose proof (texts_pairs_size (concat (row_texts <$> rows)) (∅, false)) as Hps. cbn in Hps. specialize (Hps ltac:(done)). unfold finish_pairs, PAIR_DISTINCT_CAP in *.
    destruct (foldl _ _ _) as [ps ov]. cbn in *. destruct ov; [done|]. case_bool_decide; [done|]. cbn. unfold in_u64, u64_max. lia.
Qed.

(** Finishing succeeds: the sections cover the rows. *)
Lemma built_finishes n b rows : fresh n b -> block_rows_ok n -> rows_ok rows -> exists g, group_finish (group_build b rows) = Ok g.
Proof.
  intros Hfresh Hn [Hlen Htimes]. pose proof Hfresh as [F1 _ F3 F4 _ _].
  assert (Hrows : b_rows (group_build b rows) = Z.of_nat (length rows)) by (rewrite rows_rows, F1; unfold u32_max, u64_max in *; lia).
  assert (Hblocks : from_option (fun i => Z.of_nat (length (times i)) =? div_ceil (b_rows (group_build b rows)) (block_rows i)) true (block_finish <$> b_blocks (group_build b rows)) = true).
  { rewrite rows_blocks, F3. destruct n as [k|]; [|done]. cbn. specialize (Hn k eq_refl). set (brows := block_row_of (b_addresses b) <$> rows).
    assert (Hbl : Z.of_nat (length brows) <= u32_max) by (unfold brows; by rewrite length_fmap). destruct (finish_fields k brows Hn Hbl) as [Ht Hk]. fold (block_build k brows).
    rewrite Ht, Hk, Hrows. apply Z.eqb_eq. replace (length rows) with (length brows) by (unfold brows; by rewrite length_fmap).
    destruct (build_inv k brows Hn Hbl) as [_ Hl _ _]. unfold div_ceil. destruct (length (bb_times (block_build k brows))) as [|q]; [rewrite Hl; symmetry; apply Z.div_small; cbn; lia|].
    apply (Z.div_unique _ k _ (rows_in_block (block_build k brows) - 1)); lia. }
  assert (Hcounts : from_option (fun c => tc_rows c =? b_rows (group_build b rows)) true (cb_finish <$> b_counts (group_build b rows)) = true).
  { rewrite Hrows, rows_counts. destruct F4 as [->| ->]; [done|]. cbn. fold (build (count_row_of <$> rows)). apply Z.eqb_eq.
    destruct (build_counted (count_row_of <$> rows)) as (Hr & _); [by rewrite length_fmap|]. rewrite length_fmap in Hr. unfold cb_finish. rewrite Hr. by repeat case_match. }
  destruct (with_ndv_total (Z.max (Z.of_nat (size (b_tokens (group_build b rows)))) 64)) as [f Hf].
  unfold group_finish. rewrite Hblocks, Hcounts. cbn [ensure mbind result_bind]. case_bool_decide; [eauto|]. rewrite Hf. cbn [mbind result_bind]. eauto.
Qed.

(** C31: The token index file reads back: for rows of any texts, the writer's builder of any
    layout (v1 to v6) finishes every group, and a file encoded from the groups decodes to
    them, through the reader that checks the trailer and through the leased one. *)
Theorem token_index_roundtrip counts trigrams pairs addresses n (rowss : list (list GRow)) :
  block_rows_ok n -> Forall rows_ok rowss ->
  exists groups, Forall2 (fun rows g => group_finish (group_build (for_writer counts trigrams pairs addresses n) rows) = Ok g) rowss groups /\
    forall bs, encode_token_index groups = Ok bs -> decode_token_index bs = Ok groups /\ decode_leased_token_index bs = Ok groups.
Proof.
  intros Hn Hrows. set (b := for_writer counts trigrams pairs addresses n). pose proof (for_writer_fresh counts trigrams pairs addresses n : fresh n b) as Hf.
  assert (Hg : exists groups, Forall2 (fun rows g => group_finish (group_build b rows) = Ok g /\ group_ok g) rowss groups).
  { induction Hrows as [|rows rowss Hr _ [groups IH]]; [by exists []|]. destruct (built_finishes n b rows Hf Hn Hr) as [g Hg].
    exists (g :: groups). constructor; [|done]. split; [done|by apply (built_ok n b rows)]. }
  destruct Hg as [groups Hg]. exists groups. split; [eapply Forall2_impl; [exact Hg|]; by intros ? ? [? _]|].
  intros bs He. apply index_file_roundtrip; [|done]. clear -Hg. induction Hg as [|rows g rowss groups [_ Hok] _ IH]; constructor; done.
Qed.
End TokenIndex.

(** * Concrete tables, filters and digests *)

(** Every character outside ASCII is a letter without case, the Kelvin sign apart. *)
Module PlainText.
#[export] Instance tables : Unicode :=
  {| is_alphanumeric c := ascii_alphanumeric c || (128 <=? c); is_uppercase c := ascii_upper c || (c =? KELVIN);
     is_whitespace c := ((9 <=? c) && (c <=? 13)) || (c =? 32); char_lower c := if c =? KELVIN then [107] else [to_ascii_lowercase c];
     is_cased c := ascii_alphabetic c; is_case_ignorable c := false |}.
#[export] Instance tables_ascii : UnicodeAscii.
Proof.
  split; intros c Hc; apply is_ascii_range in Hc; cbn.
  - destruct (Z.leb_spec 128 c); [lia|]. apply orb_false_r.
  - destruct (Z.eqb_spec c KELVIN); [unfold KELVIN in *; lia|]. apply orb_false_r.
  - done.
  - destruct (Z.eqb_spec c KELVIN); [unfold KELVIN in *; lia|done].
Qed.
#[export] Instance tables_folds : UnicodeFolds.
Proof. by split. Qed.
End PlainText.

(** A bloom filter with one probe: the byte at the sum of the key. *)
Module PlainBloom.
Definition slot (x f : list Z) : nat := Nat.modulo (Z.to_nat (foldl Z.add 0 x)) (length f).
Definition mark (x f : list Z) : list Z := <[slot x f := 255]> f.
#[export] Instance one_probe : Sbbf :=
  {| sbbf := list Z; sbbf_new bs := bs; sbbf_with_bytes n := replicate (Z.to_nat n) 0; sbbf_with_ndv n := Ok (replicate 128 0);
     sbbf_insert x f := mark x f; sbbf_check f x := bool_decide (f !! slot x f = Some 255); sbbf_bitset f := f |}.
Lemma slot_bound x (f : list Z) : f <> [] -> (slot x f < length f)%nat.
Proof. intros Hf. apply Nat.mod_upper_bound. by destruct f. Qed.
Lemma slot_mark x y f : slot x (mark y f) = slot x f.
Proof. unfold mark. unfold slot at 1. rewrite length_insert. done. Qed.
Lemma slot_ones x : (replicate 32 255 : list Z) !! slot x (replicate 32 255) = Some 255.
Proof. apply lookup_replicate_2. pose proof (slot_bound x (replicate 32 255) ltac:(done)) as Hs. by rewrite length_replicate in Hs. Qed.
#[export] Instance one_probe_laws : SbbfLaws.
Proof.
  split; cbn.
  - intros f x Hf. apply bool_decide_eq_true. rewrite slot_mark. unfold mark. apply list_lookup_insert_eq. by apply slot_bound.
  - intros f x y Hf Hy%bool_decide_eq_true. apply bool_decide_eq_true. rewrite slot_mark. unfold mark.
    destruct (decide (slot x f = slot y f)) as [->|Hne]; [apply list_lookup_insert_eq; by apply slot_bound|by rewrite list_lookup_insert_ne].
  - done.
  - intros x. apply bool_decide_eq_true, slot_ones.
  - intros f x. apply length_insert.
  - done.
  - intros n _ Hn. rewrite length_replicate. lia.
  - intros n. by eexists.
  - intros n f _ [= <-]. split; [cbn; lia|done].
Qed.
#[export] Instance ten_bytes : FilterSize := fun pairs => pairs * 10.
#[export] Instance checksum : Sha256 := fun bs => le_bytes 32 (foldl (fun a b => a * 257 + b) 1 bs).
#[export] Instance checksum_laws : Sha256Laws.
Proof. intros bs. apply length_le_bytes. Qed.
#[export] Instance one_double : Ipv6Parser := fun bs => (count_doubles bs =? 1)%nat && (count_colons bs <=? 8)%nat && (length bs <=? 39)%nat.
End PlainBloom.

Module IndexExample.
Export PlainFilters PlainText PlainBloom.
Definition text (s : string) : Text := str_bytes s.
Definition rows_a : list (Z * list (bool * list Z)) :=
  [(60000000, [(true, text "Failed password for root from 10.1.4.20"); (false, text "sshd")]); (61000000, [(true, text "session opened")])].
Definition rows_b : list (Z * list (bool * list Z)) := [(125000000, [(true, text "GET /index.html 200")])].
Definition flatten (r : result IndexError TokenGroup) : list TokenGroup := match r with Ok g => [g] | Err _ => [] end.
Definition groups_ab : list TokenGroup :=
  flatten (group_finish (group_build (for_writer true false false false (Some 2)) rows_a)) ++ flatten (group_finish (group_build (for_writer true false false false (Some 2)) rows_b)).
End IndexExample.

Import IndexExample.
Lemma token_index_roundtrip_witness :
  exists groups, Forall2 (fun rows g => group_finish (group_build (for_writer true false false false (Some 2)) rows) = Ok g) [rows_a; rows_b] groups /\
    forall bs, encode_token_index groups = Ok bs -> decode_token_index bs = Ok groups /\ decode_leased_token_index bs = Ok groups.
Proof.
  refine (token_index_roundtrip true false false false (Some 2) [rows_a; rows_b] _ _).
  - intros k [= <-]. unfold u32_max. lia.
  - repeat (apply Forall_cons; split; [split; [done|apply (bool_decide_unpack _); vm_compute; exact I]|]). constructor.
Defined.
(** The groups of the example encode, to 645 bytes. *)
Example groups_ab_encode : match encode_token_index groups_ab with Ok bs => length bs = 645%nat | Err _ => False end.
Proof. vm_compute. reflexivity. Qed.
