(* ===== verification/Prune.v ===== *)
(** * Prune: which row groups and blocks a keyword search reads

    Models the keyword half of [part_query/prune.rs]: the tokens, pairs, trigrams and
    addresses a candidate hint requires, the decision per row group and per block, and the
    evidence of a file. The theorem shows that no row a search matches is dropped. *)
From S2P Require Import Prelude Bytes TokenCounts BlockIndex TextTokens Keywords Addresses TokenIndex.

(** [planner::CandidateHint] *)
Inductive CandidateHint :=
| Entity (source_path : string) (value : list Z)
| SourceFamily (value : list Z)
| Class_ (value : Z)
| Keyword (mode : string) (value : list Z)
| Any (alternatives : list CandidateHint).

(** Induction that reaches the alternatives. *)
Lemma hint_induction (P : CandidateHint -> Prop) :
  (forall p v, P (Entity p v)) -> (forall v, P (SourceFamily v)) -> (forall z, P (Class_ z)) -> (forall m v, P (Keyword m v)) ->
  (forall l, Forall P l -> P (Any l)) -> forall h, P h.
Proof.
  intros He Hs Hc Hk Ha. fix IH 1. intros [p v|v|z|m v|l]; [apply He|apply Hs|apply Hc|apply Hk|]. apply Ha.
  induction l as [|h l IHl]; constructor; [apply IH|exact IHl].
Qed.

Definition mode_is (mode : string) (s : string) : bool := String.eqb mode s.

(** [is_hash_array] *)
Definition is_hash_array (path : string) : bool :=
  mode_is path "file.hashes.value" || mode_is path "process.file.hashes.value" || mode_is path "actor.process.file.hashes.value".

Section Prune.
Context `{Unicode, XxHash, Xorf, Sbbf, FilterSize, Ipv6Parser, Sha256}.

(** ** What a keyword requires *)

(** [boundary] and [separator] of [interior_tokens] *)
Definition boundary (b : Z) : bool := is_ascii b && negb (ascii_alphanumeric b) && negb (is_wild b).

(** The scan of [interior_tokens]: [prev] is the byte before [bs]; each round consumes a byte. *)
Fixpoint interior_loop (fuel : nat) (prev : option Z) (bs : Bytes) : option (list Bytes) :=
  match fuel, bs with
  | _, [] => Some []
  | O, _ => None
  | S fuel, b :: bs' =>
      if ascii_separator b then interior_loop fuel (Some b) bs' else
      let n := run_length (fun b => negb (ascii_separator b)) bs in
      let piece := take n bs in
      let rest := drop n bs in
      let whole := from_option boundary false prev && from_option boundary false (head rest)
                   && forallb ascii_alphanumeric piece && (Z.of_nat (length piece) <=? TOKEN_MAX_BYTES) in
      emit (if whole then [lower_all piece] else []) (interior_loop fuel (last piece) rest)
  end.
(** [interior_tokens] *)
Definition interior_tokens (value : Text) : list Bytes :=
  let bs := utf8 value in sort_bytes (default [] (interior_loop (length bs) None bs)).

(** The loop of [query_tokens]. *)
Fixpoint query_loop (ps : list Text) : option (list Bytes) :=
  match ps with
  | [] => Some []
  | p :: ps =>
      let lower := utf8 (to_lowercase p) in
      if TOKEN_MAX_BYTES <? Z.of_nat (length lower) then None else cons lower <$> query_loop ps
  end.
(** [query_tokens] *)
Definition query_tokens (value : Text) : option (list Bytes) := sort_bytes <$> query_loop (pieces (trim value)).

(** [required_tokens] *)
Definition required_tokens (mode : string) (value : Text) : option (list Bytes) :=
  if mode_is mode "token" && negb (has_wild value) then query_tokens value else
  if mode_is mode "token" || mode_is mode "contains" || mode_is mode "regex_guard" then Some (interior_tokens value) else None.
(** [required_pairs] *)
Definition required_pairs (mode : string) (value : Text) : list Bytes :=
  if negb (mode_is mode "token") || has_wild value || negb (all_ascii value) then [] else
  sort_bytes ((fun p => pair_key p.1 p.2) <$> adjacent_pairs (trim value)).
(** [required_address] *)
Definition required_address (mode : string) (value : Text) : option Bytes :=
  if negb (mode_is mode "token") || has_wild value then None else
  match address_needle value with
  | None => None
  | Some address =>
      if (2 <=? length (filter (fun p => p <> []) (split_on (fun b => negb (ascii_alphanumeric b)) address)))%nat then Some address else None
  end.
(** [required_trigrams] *)
Definition required_trigrams (mode : string) (value : Text) : list Bytes :=
  if negb (mode_is mode "contains" || mode_is mode "regex_guard") && negb (mode_is mode "token" && has_wild value) then [] else
  sort_bytes (ascii_trigrams value).

(** ** Row groups *)

(** [GroupBlooms for TokenGroup] *)
Definition trigrams_may_contain_all (g : TokenGroup) (grams : list Bytes) : option bool :=
  (fun bits => forallb (sbbf_check (sbbf_new bits)) grams) <$> tg_trigrams g.
Definition pairs_may_contain_all (g : TokenGroup) (pairs : list Bytes) : option bool := (fun p => pairs_contain_all p pairs) <$> tg_pairs g.

(** The [Keyword] arm of [token_hint]. *)
Definition keyword_hint (g : TokenGroup) (mode : string) (value : Text) : bool :=
  if tg_addresses g && from_option (fun address => negb (may_contain_all g [address])) false (required_address mode value) then false else
  if negb (from_option (may_contain_all g) true (required_tokens mode value)) then false else
  let pairs := required_pairs mode value in
  if negb (bool_decide (pairs = [])) && bool_decide (pairs_may_contain_all g pairs = Some false) then false else
  let grams := required_trigrams mode value in
  bool_decide (grams = []) || negb (bool_decide (trigrams_may_contain_all g grams = Some false)).
(** [token_hint] *)
Fixpoint token_hint (g : TokenGroup) (hint : CandidateHint) : bool :=
  match hint with
  | Entity source_path value =>
      if is_hash_array source_path then from_option (fun tokens => bool_decide (tokens = []) || may_contain_all g tokens) true (query_tokens value) else true
  | Keyword mode value => keyword_hint g mode value
  | Any alternatives => match alternatives with [] => true | _ => existsb (token_hint g) alternatives end
  | SourceFamily _ | Class_ _ => true
  end.

(** ** Blocks *)

(** [and_blocks] *)
Definition and_blocks (a b : option (list bool)) : option (list bool) :=
  match a, b with
  | None, other | other, None => other
  | Some a, Some b => Some (zip_with andb a b)
  end.
Definition nonempty {A} (l : list A) : bool := match l with [] => false | _ => true end.
(** The loop of the [Any] arm. *)
Definition union_blocks (f : CandidateHint -> option (list bool)) : list CandidateHint -> list bool -> option (list bool) :=
  fix go (l : list CandidateHint) (union : list bool) : option (list bool) :=
    match l with
    | [] => Some union
    | h :: l => match f h with None => None | Some b => go l (zip_with orb union b ++ drop (length b) union) end
    end.
(** [block_hint] *)
Fixpoint block_hint (index : BlockIndex) (addresses : bool) (hint : CandidateHint) : option (list bool) :=
  match hint with
  | Keyword mode value =>
      let tokens := default [] (required_tokens mode value) in
      let tokens := match required_address mode value with Some address => if addresses then tokens ++ [address] else tokens | None => tokens end in
      if nonempty tokens then blocks_with_all index tokens else None
  | Entity source_path value =>
      if is_hash_array source_path then
        match query_tokens value with Some tokens => if nonempty tokens then blocks_with_all index tokens else None | None => None end
      else None
  | Any alternatives =>
      match alternatives with
      | [] => None
      | _ => union_blocks (block_hint index addresses) alternatives (replicate (blocks index) false)
      end
  | SourceFamily _ | Class_ _ => None
  end.

(** A run of candidate rows with the times of its blocks. *)
Notation "'Run'" := (Z * Z * (Z * Z))%type.
(** The [match runs.last_mut()] of [fine_blocks]; the runs are kept in reverse. *)
Definition push_run (runs : list Run) (r : Run) : list Run :=
  match runs with
  | (start, stop, (mn, mx)) :: rest =>
      if stop =? r.1.1 then (start, r.1.2, (Z.min mn r.2.1, Z.max mx r.2.2)) :: rest else r :: runs
  | [] => [r]
  end.
(** The rows of the kept blocks of one group. *)
Definition block_runs (index : BlockIndex) (rows : Z) (keep : list bool) : list Run :=
  reverse (foldl (fun runs block =>
    let '(start, stop) := block_rows_range index (Z.of_nat block) rows in push_run runs (start, stop, default (0, 0) (times index !! block)))
    [] (filter (fun block => keep !! block = Some true) (seq 0 (length keep)))).
(** One group of [fine_blocks]. *)
Definition group_runs (g : TokenGroup) (index : BlockIndex) (hints : list CandidateHint) : option (list Run) :=
  match foldl (fun acc hint => and_blocks acc (block_hint index (tg_addresses g) hint)) None hints with
  | None => None
  | Some keep =>
      let kept := length (filter (fun k => k = true) keep) in
      if Z.of_nat (length keep) <? Z.of_nat kept * COMMON_DIVISOR then None else Some (block_runs index (tg_rows g) keep)
  end.
(** [fine_blocks] *)
Definition fine_blocks (groups : list TokenGroup) (hints : list CandidateHint) : option (list (option (list Run))) :=
  if existsb (fun g => negb (is_some (tg_blocks g))) groups then None else
  Some ((fun g => tg_blocks g ≫= fun index => group_runs g index hints) <$> groups).

(** ** A file *)

(** [uses_tokens] *)
Fixpoint uses_token (hint : CandidateHint) : bool :=
  match hint with
  | Keyword mode value => from_option nonempty false (required_tokens mode value) || nonempty (required_trigrams mode value)
  | Any alternatives => existsb uses_token alternatives
  | Entity source_path _ => is_hash_array source_path
  | SourceFamily _ | Class_ _ => false
  end.
Definition uses_tokens (hints : list CandidateHint) : bool := existsb uses_token hints.

(** The mask of the groups: an excluded group stays excluded. *)
Definition token_keep (groups : list TokenGroup) (hints : list CandidateHint) : list bool :=
  foldl (fun mask hint => zip_with (fun (keep : bool) g => if keep then token_hint g hint else keep) mask groups) (replicate (length groups) true) hints.
(** [token_mask] *)
Definition token_mask (index_bytes : option Bytes) (expected_groups : nat) (hints : list CandidateHint) : option (list bool) :=
  if negb (uses_tokens hints) then None else
  match index_bytes with
  | None => None
  | Some bs =>
      match decode_token_index bs with
      | Err _ => None
      | Ok groups => if (length groups =? expected_groups)%nat then Some (token_keep groups hints) else None
      end
  end.
(** [token_evidence_of] *)
Definition token_evidence_of (groups : list TokenGroup) (expected_groups : nat) (hints : list CandidateHint) : option (list bool) * option (list (option (list Run))) :=
  if negb (uses_tokens hints) || negb (length groups =? expected_groups)%nat then (None, None) else
  let mask := token_keep groups hints in
  let fine := fine_blocks groups hints in
  (Some (match fine with
         | None => mask
         | Some fine => zip_with (fun (keep : bool) runs => match runs with Some [] => false | _ => keep end) mask fine ++ drop (length fine) mask
         end), fine).
(** [token_evidence], [leased_token_evidence] *)
Definition evidence_with (decode : Bytes -> result IndexError (list TokenGroup)) (index_bytes : option Bytes) (expected_groups : nat) (hints : list CandidateHint)
    : option (list bool) * option (list (option (list Run))) :=
  if negb (uses_tokens hints) then (None, None) else
  match index_bytes with
  | None => (None, None)
  | Some bs => match decode bs with Err _ => (None, None) | Ok groups => token_evidence_of groups expected_groups hints end
  end.
Definition token_evidence := evidence_with decode_token_index.
Definition leased_token_evidence := evidence_with decode_leased_token_index.
End Prune.

(** * The scans end *)

Lemma interior_ends fuel prev bs : (length bs <= fuel)%nat -> is_Some (interior_loop fuel prev bs).
Proof.
  revert prev bs; induction fuel as [|fuel IH]; intros prev bs; (destruct bs as [|b bs]; [by eexists|]); [cbn; lia|]. intros Hl. cbn [interior_loop].
  destruct (ascii_separator b) eqn:Hb; [apply IH; cbn in Hl; lia|]. pose proof (run_length_pos (fun b => negb (ascii_separator b)) b bs ltac:(by cbn; rewrite Hb)) as Hn. set (n := run_length _ _) in *. clearbody n.
  apply emit_some, IH. rewrite length_drop. cbn in *. lia.
Qed.

(** C32: The scans of a text end. On any bytes the scan for the interior tokens of a needle and
    the IPv6 scan reach the end of the input within as many rounds as it has bytes, and the IPv4
    scan within one more, and these runs give the tokens that are used; a scan cut short by its
    bound of rounds would be [None]. *)
Theorem scans_terminate `{Ipv6Parser} (bs : Bytes) (t : Text) :
  is_Some (interior_loop (length bs) None bs)
  /\ (exists l, interior_loop (length (utf8 t)) None (utf8 t) = Some l /\ interior_tokens t = sort_bytes l)
  /\ v4_loop (S (length bs)) bs 0 [(0, 0); (0, 0); (0, 0); (0, 0)]%nat O = Some (v4_tokens bs)
  /\ v6_loop (length bs) bs = Some (v6_tokens bs).
Proof.
  split; [by apply interior_ends|]. split; [|split].
  - destruct (interior_ends (length (utf8 t)) None (utf8 t)) as [l E]; [done|]. exists l. split; [done|]. unfold interior_tokens. by rewrite E.
  - unfold v4_tokens. destruct (v4_ends (S (length bs)) bs 0 [(0, 0); (0, 0); (0, 0); (0, 0)]%nat O) as [l ->]; [lia|lia|done].
  - unfold v6_tokens. destruct (v6_ends_loop (length bs) bs) as [l ->]; done.
Qed.

(** * Required evidence is there *)

Section Facts.
Context `{Unicode, !UnicodeAscii, XxHash, Xorf, Sbbf, FilterSize, Ipv6Parser, CaseFold}.

(** The keyword's SQL holds of a text. *)
Definition keyword_matches (mode : string) (value t : Text) : bool :=
  if mode_is mode "token" && negb (has_wild value) then sql_holds (bare_keyword_predicate true value) t else contains value t.

Lemma run_length_take f bs : Forall (fun b => f b = true) (take (run_length f bs) bs) /\ (forall b, head (drop (run_length f bs) bs) = Some b -> f b = false).
Proof. induction bs as [|b bs [IH1 IH2]]; cbn; [done|]. destruct (f b) eqn:E; cbn; [split; [by constructor|done]|]. split; [constructor|]. by intros ? [= <-]. Qed.

Definition opt_list {A} (o : option A) : list A := match o with Some a => [a] | None => [] end.

(** An interior token is a run of letters and digits between two boundary bytes. *)
Lemma interior_inv fuel prev bs token : token ∈ default [] (interior_loop fuel prev bs) ->
  exists a x w y b, opt_list prev ++ bs = a ++ ([x] ++ w ++ [y]) ++ b /\ boundary x = true /\ boundary y = true /\
    w <> [] /\ forallb ascii_alphanumeric w = true /\ Z.of_nat (length w) <= TOKEN_MAX_BYTES /\ token = lower_all w.
Proof.
  revert prev bs; induction fuel as [|fuel IH]; intros prev bs Hin; (destruct bs as [|b bs]; [by apply elem_of_nil in Hin|]); [by apply elem_of_nil in Hin|].
  cbn [interior_loop] in Hin. destruct (ascii_separator b) eqn:Hb.
  - apply IH in Hin as (a & x & w & y & c & E & Hrest). exists (opt_list prev ++ a), x, w, y, c. split; [|done].
    rewrite <- app_assoc. f_equal. exact E.
  - set (n := run_length _ _) in *. pose proof (take_drop n (b :: bs)) as Hsplit. set (piece := take n (b :: bs)) in *. set (rest := drop n (b :: bs)) in *.
    assert (Hne : piece <> []) by (unfold piece, n; cbn; by rewrite Hb). clearbody piece rest. apply elem_emit in Hin as [Hin|Hin].
    + destruct (_ && _) eqn:Hw; [|by apply elem_of_nil in Hin]. apply list_elem_of_singleton in Hin as ->.
      rewrite !andb_true_iff in Hw. destruct Hw as [[[Hp Hr] Ha] Hl%Z.leb_le]. destruct prev as [x|]; [|done]. destruct rest as [|y rest'] eqn:Er; [done|].
      exists [], x, piece, y, rest'. split_and!; try done. cbn. by rewrite <- Hsplit, <- app_assoc.
    + apply IH in Hin as (a & x & w & y & c & E & Hrest). destruct (last piece) as [l|] eqn:El; [|by apply last_None in El].
      apply last_Some in El as [p Ep]. exists (opt_list prev ++ p ++ a), x, w, y, c. split; [|done]. rewrite <- !app_assoc in E. rewrite <- Hsplit, Ep, <- !app_assoc. exact (f_equal (fun l => opt_list prev ++ p ++ l) E).
Qed.

Lemma boundary_ascii x : boundary x = true -> is_ascii x = true /\ is_wild x = false /\ ascii_alphanumeric x = false.
Proof. unfold boundary. rewrite !andb_true_iff, !negb_true_iff. tauto. Qed.

Lemma alnum_ascii w : forallb ascii_alphanumeric w = true -> all_ascii w = true /\ has_wild w = false.
Proof.
  unfold all_ascii, has_wild. induction w as [|c w IH]; cbn; [done|]. rewrite !andb_true_iff, orb_false_iff. intros [Hc Hw]. destruct (IH Hw) as [-> ->].
  unfold is_wild. split; (split; [|done]); [ascii_solve|]. destruct (Z.eqb_spec c 42), (Z.eqb_spec c 63); subst; done.
Qed.

Context `{!SimpleFolding}.

Lemma interior_sound v t token : Forall is_scalar v -> plain_text t -> contains v t = true -> token ∈ interior_tokens v -> token ∈ tokenize t.
Proof.
  intros Hv Hplain Hc Ht. unfold interior_tokens in Ht. rewrite elem_of_sort_bytes in Ht. apply interior_inv in Ht as (a & x & w & y & b & E & Hx & Hy & Hne & Hw & Hlen & ->). cbn in E.
  destruct (boundary_ascii x Hx) as (Hxa & Hxw & Hxn). destruct (boundary_ascii y Hy) as (Hya & Hyw & Hyn). destruct (alnum_ascii w Hw) as [Hwa Hww].
  assert (Hwin : all_ascii ([x] ++ w ++ [y]) = true) by (unfold all_ascii in *; rewrite !forallb_app; cbn; by rewrite Hxa, Hwa, Hya).
  assert (Hwild : has_wild ([x] ++ w ++ [y]) = false) by (unfold has_wild in *; rewrite !existsb_app; cbn; by rewrite Hxw, Hww, Hyw).
  destruct (utf8_infix v a ([x] ++ w ++ [y]) b) as (va & vb & -> & _); [done|done|by apply all_ascii_Forall|done|].
  destruct (contains_window va ([x] ++ w ++ [y]) vb t Hwin Hwild Hplain Hc) as (p & u & q & -> & Hu).
  apply Forall2_cons_inv_l in Hu as (x' & u' & Hxx & Hu & ->). apply Forall2_app_inv_l in Hu as (w' & y'' & Hww' & Hyy & ->). apply Forall2_cons_inv_l in Hyy as (y' & nil' & Hyy & Hnil & ->).
  apply Forall2_nil_inv_l in Hnil as ->.
  assert (Hlow : lower_all w = lower_all w') by (clear -Hww'; unfold lower_all; induction Hww'; cbn; [done|]; f_equal; done). rewrite Hlow.
  assert (Hx' : is_alphanumeric x' = false) by (rewrite <- (fold_word x x'), alphanumeric_ascii by done; done).
  assert (Hy' : is_alphanumeric y' = false) by (rewrite <- (fold_word y y'), alphanumeric_ascii by done; done).
  replace (p ++ (x' :: w' ++ [y']) ++ q) with ((p ++ [x']) ++ w' ++ (y' :: q)) by (by rewrite <- !app_assoc; cbn; rewrite <- app_assoc).
  pose proof (Forall2_length _ _ _ Hww') as Hl. apply word_token.
  - by destruct w, w'.
  - clear -Hw Hww'. induction Hww' as [|c d w w' Hcd Hww' IH]; [constructor|]. cbn in Hw. apply andb_true_iff in Hw as [Hc Hw]. constructor; [|auto]. by rewrite <- (fold_alphanumeric c d).
  - lia.
  - left. intros c. rewrite last_snoc. by intros [= <-].
  - right. by intros c [= <-].
Qed.

Lemma trigram_sound v t gram : Forall is_scalar v -> plain_text t -> contains v t = true -> gram ∈ ascii_trigrams v -> gram ∈ ascii_trigrams t.
Proof.
  intros Hv Hplain Hc (a & w & b & -> & Hl & Hw & ->)%trigram_inv; [|done].
  assert (Hwin : all_ascii w = true /\ has_wild w = false).
  { clear -Hw. unfold all_ascii, has_wild. induction Hw as [|c w Hc _ [IH1 IH2]]; cbn; [done|]. rewrite IH1, IH2. unfold gram_byte in Hc.
    rewrite !andb_true_iff, negb_true_iff, !orb_false_iff in Hc. destruct Hc as (-> & [[[H1 H2] _] _] & _). unfold is_wild. by rewrite H1, H2. }
  destruct (contains_window a w b t) as (p & u & q & -> & Hu); [tauto..|done|done|]. by apply trigram_intro.
Qed.

Lemma query_loop_inv ps tokens : Forall (fun p => all_ascii p = true) ps -> query_loop ps = Some tokens ->
  forall token, token ∈ tokens -> exists p, p ∈ ps /\ piece_token p = Some token.
Proof.
  intros Hps. revert tokens. induction Hps as [|p ps Hp _ IH]; intros tokens Hq token Hin; cbn in Hq; [injection Hq as <-; by apply elem_of_nil in Hin|].
  destruct (Z.ltb_spec TOKEN_MAX_BYTES (Z.of_nat (length (utf8 (to_lowercase p))))) as [|Hle]; [done|].
  destruct (query_loop ps) as [ts|]; [|done]. injection Hq as <-. apply elem_of_cons in Hin as [->|Hin].
  - exists p. split; [by left|]. unfold to_lowercase in *. rewrite lower_loop_ascii in Hle |- * by done. rewrite utf8_ascii in Hle |- * by (by apply all_ascii_lower_all).
    unfold piece_token. rewrite piece_lower_ascii by done. by rewrite (proj2 (Z.leb_le _ _) Hle).
  - destruct (IH ts eq_refl token Hin) as (q & Hq & Hqt). exists q. split; [by right|done].
Qed.

Lemma query_sound v t tokens token : all_ascii v = true -> holds_words v t -> query_tokens v = Some tokens -> token ∈ tokens -> token ∈ tokenize t.
Proof.
  intros Hv Hh Hq Hin. unfold query_tokens in Hq. destruct (trim_pieces v Hv) as [Htrim _]. rewrite Htrim in Hq. destruct (query_loop (pieces v)) as [ts|] eqn:E; [|done].
  injection Hq as <-. rewrite elem_of_sort_bytes in Hin. destruct (query_loop_inv _ _ (pieces_ascii v Hv) E token Hin) as (p & Hp & Hpt).
  apply (proj1 (holds_words_tokens v t Hv Hh)). by apply (elem_of_tokenize v p).
Qed.

Lemma required_pairs_sound v t key : all_ascii v = true -> holds_words v t -> key ∈ required_pairs "token" v ->
  exists x, x ∈ adjacent_pairs t /\ key = pair_key x.1 x.2.
Proof.
  intros Hv Hh. unfold required_pairs. destruct (_ || _); [by intros ?%elem_of_nil|]. rewrite elem_of_sort_bytes. intros (x & -> & Hx)%list_elem_of_fmap.
  exists x. split; [|done]. apply (proj2 (holds_words_tokens v t Hv Hh)). unfold adjacent_pairs in *. by rewrite (proj1 (trim_pieces v Hv)) in Hx.
Qed.

(** ** Addresses *)

Lemma ascii_pieces w : all_ascii w = true -> pieces w = filter (fun p => p <> []) (split_on (fun b => negb (ascii_alphanumeric b)) w).
Proof.
  intros Hw. unfold pieces. f_equal. apply split_on_ext. apply all_ascii_Forall in Hw. eapply Forall_impl; [exact Hw|]. intros c Hc. cbn in *. by rewrite alphanumeric_ascii.
Qed.

Lemma ipv4_inv u : is_ipv4_address u = true -> exists o1 o2 o3 o4, u = o1 ++ DOT :: o2 ++ DOT :: o3 ++ DOT :: o4 /\ Forall (fun o => ipv4_octet o = true) [o1; o2; o3; o4].
Proof.
  unfold is_ipv4_address. rewrite andb_true_iff, Nat.eqb_eq, forallb_forall. intros [Ho Hl].
  destruct (split_on _ u) as [|o1 [|o2 [|o3 [|o4 [|]]]]] eqn:E; try done. exists o1, o2, o3, o4.
  apply split_on_cons in E as [[? _]|(c1 & t1 & ->%Z.eqb_eq & -> & E)]; [done|]. apply split_on_cons in E as [[? _]|(c2 & t2 & ->%Z.eqb_eq & -> & E)]; [done|].
  apply split_on_cons in E as [[? _]|(c3 & t3 & ->%Z.eqb_eq & -> & E)]; [done|]. apply split_on_cons in E as [[_ ->]|(c4 & t4 & _ & _ & E)]; [|by apply split_on_nonempty in E].
  split; [done|]. apply Forall_forall. intros o Hin. by apply Ho, list_elem_of_In.
Qed.

Definition ipv4_char (c : Z) : bool := ascii_digit c || (c =? DOT).
Lemma ipv4_chars u : is_ipv4_address u = true -> Forall (fun c => ipv4_char c = true) u /\ exists c, head u = Some c /\ ascii_digit c = true /\ exists d, last u = Some d /\ ascii_digit d = true.
Proof.
  intros (o1 & o2 & o3 & o4 & -> & Ho)%ipv4_inv. rewrite !Forall_cons in Ho. destruct Ho as ([H1' P1]%octet_digits & [H2' P2]%octet_digits & [H3' P3]%octet_digits & [H4' P4]%octet_digits & _).
  assert (Himp : forall o, Forall (fun c => ascii_digit c = true) o -> Forall (fun c => ipv4_char c = true) o).
  { intros o Hd. eapply Forall_impl; [exact Hd|]. intros c Hc. unfold ipv4_char. cbn in Hc. by rewrite Hc. }
  split; [repeat first [apply Forall_app_2|apply Forall_cons_2]; auto|].
  destruct o1 as [|c o1]; [cbn in P1; lia|]. exists c. apply Forall_cons in H1' as [? _]. split_and!; [done|done|].
  destruct (last o4) as [d|] eqn:E; [|apply last_None in E as ->; cbn in P4; lia]. exists d. split; [|rewrite Forall_forall in H4'; by apply H4', last_Some_elem_of].
  rewrite !last_app, !last_cons, !last_app, !last_cons, !last_app, !last_cons, E. done.
Qed.

Lemma Forall2_fold_lower w m : Forall2 fold_eq w m -> lower_all w = lower_all m.
Proof. unfold lower_all. induction 1; cbn; [done|]. f_equal; done. Qed.

Lemma digit_word c : ascii_digit c = true -> is_ascii c = true /\ ascii_alphanumeric c = true /\ ascii_alphabetic c = false /\ to_ascii_lowercase c = c.
Proof. ascii_solve. Qed.

Lemma ipv4_sound u a m b : Forall is_scalar a -> Forall is_scalar b -> is_ipv4_address u = true -> Forall2 fold_eq u m ->
  (forall c, last a = Some c -> is_alphanumeric c = false) -> (forall c, head b = Some c -> is_alphanumeric c = false) -> u ∈ v4_tokens (utf8 (a ++ m ++ b)).
Proof.
  intros Ha Hb Hip Hm Hl Hr. destruct (ipv4_chars u Hip) as [Hc _]. assert (m = u) as ->.
  { clear -Hm Hc. induction Hm as [|c d u m Hcd Hm IH]; [done|]. apply Forall_cons in Hc as [Hc1 Hc]. f_equal; [|by apply IH]. apply (fold_other c); [|done].
    unfold ipv4_char, DOT in Hc1. rewrite orb_true_iff, Z.eqb_eq in Hc1. destruct Hc1 as [Hd| ->]; [by apply digit_word in Hd as (_ & _ & ? & _)|done]. }
  assert (Hasc : all_ascii u = true).
  { apply all_ascii_Forall. eapply Forall_impl; [exact Hc|]. intros c. cbn. unfold ipv4_char, DOT. rewrite orb_true_iff, Z.eqb_eq. intros [Hd| ->]; [by apply digit_word in Hd as (? & _)|done]. }
  rewrite !utf8_app, (utf8_ascii u) by done. apply ipv4_inv in Hip as (o1 & o2 & o3 & o4 & -> & Ho). apply v4_complete; [done| |].
  - intros c Hx. destruct (ascii_digit c) eqn:E; [|done]. apply digit_word in E as (Hxa & Hxw & _). apply utf8_last_ascii in Hx; [|done|done]. apply Hl in Hx. rewrite alphanumeric_ascii in Hx by done. congruence.
  - intros c Hx. destruct (ascii_digit c) eqn:E; [|done]. apply digit_word in E as (Hxa & Hxw & _). apply utf8_head_ascii in Hx; [|done|done]. apply Hr in Hx. rewrite alphanumeric_ascii in Hx by done. congruence.
Qed.

Lemma hex_colon_fold c d : fold_eq c d -> is_hex_or_colon c = is_hex_or_colon d /\ ((c =? COLON) = (d =? COLON)).
Proof.
  unfold fold_eq, is_hex_or_colon, is_hexdigit, COLON. intros Hf. destruct (ascii_alphabetic c) eqn:E.
  - ascii_solve; destruct (Z.eqb_spec c 58), (Z.eqb_spec d 58); try lia; split; try done; rewrite ?orb_false_r, ?orb_true_r; try done; ascii_solve.
  - by rewrite (fold_other c d E Hf).
Qed.

Lemma hex_colon_char c : is_hex_or_colon c = true -> is_ascii c = true /\ (c = COLON \/ ascii_alphanumeric c = true).
Proof. unfold is_hex_or_colon, is_hexdigit, COLON. rewrite orb_true_iff, Z.eqb_eq. intros [Hx| ->]; [|auto]. split; [ascii_solve|right; ascii_solve]. Qed.

Lemma fold_v6 w m : Forall2 fold_eq w m -> forallb is_hex_or_colon w = forallb is_hex_or_colon m /\ count_colons w = count_colons m.
Proof.
  unfold count_colons. induction 1 as [|c d w m Hcd _ [IH1 IH2]]; [done|]. destruct (hex_colon_fold c d Hcd) as [Hh Hc]. cbn [forallb]. rewrite Hh, IH1. split; [done|].
  rewrite !filter_cons. destruct (Z.eqb_spec c COLON), (Z.eqb_spec d COLON); try done; [rewrite !decide_True by done; cbn; by rewrite IH2|by rewrite !decide_False by done].
Qed.

Context `{!Ipv6Laws}.

Lemma ipv6_sound u a m b : Forall is_scalar a -> Forall is_scalar b -> forallb is_hex_or_colon u = true -> is_ipv6_address u = true -> Forall2 fold_eq u m ->
  (alnum_opt (head u) = true -> forall c, last a = Some c -> is_alphanumeric c = false) -> (alnum_opt (last u) = true -> forall c, head b = Some c -> is_alphanumeric c = false) ->
  lower_all u ∈ v6_tokens (utf8 (a ++ m ++ b)).
Proof.
  intros Ha Hb Hhex Hip Hm Hl Hr. destruct (fold_v6 u m Hm) as [Eh Ec]. rewrite (Forall2_fold_lower u m Hm).
  assert (Hasc : all_ascii m = true).
  { rewrite Eh in Hhex. unfold all_ascii. apply forallb_forall. intros c Hc. rewrite forallb_forall in Hhex. by apply hex_colon_char, Hhex. }
  rewrite !utf8_app, (utf8_ascii m) by done. apply v6_complete; [by rewrite <- Eh| | |].
  - unfold is_ipv6_address in *. rewrite <- Ec, <- (ipv6_case u m); [done|]. by apply Forall2_fold_lower.
  - destruct (last (utf8 a)) as [x|] eqn:Ex; [|done]. destruct (is_hex_or_colon x) eqn:Hx; [right|by left]. destruct (hex_colon_char x Hx) as [Hxa [->|Hxw]]; [by left|right].
    destruct Hm as [|c d u m Hcd Hm]; [by vm_compute in Hip|]. cbn. apply utf8_last_ascii in Ex; [|done|done]. cbn in Hhex. apply andb_true_iff in Hhex as [Hc _].
    destruct (hex_colon_char c Hc) as [_ [->|Hcw]]; [by rewrite (fold_other COLON d)|]. exfalso. apply (Hl Hcw) in Ex. rewrite alphanumeric_ascii in Ex by done. congruence.
  - destruct (head (utf8 b)) as [x|] eqn:Ex; [|done]. destruct (is_hex_or_colon x) eqn:Hx; [right|by left]. destruct (hex_colon_char x Hx) as [Hxa [->|Hxw]]; [by left|right].
    apply utf8_head_ascii in Ex; [|done|done]. destruct u as [|d u' _] using rev_ind; [by vm_compute in Hip|]. rewrite last_snoc in Hr.
    apply Forall2_app_inv_l in Hm as (m' & k & _ & Hk & ->). apply Forall2_cons_inv_l in Hk as (e & k' & Hde & Hnil & ->). apply Forall2_nil_inv_l in Hnil as ->. rewrite last_snoc.
    rewrite forallb_app in Hhex. apply andb_true_iff in Hhex as [_ Hd]. cbn in Hd. rewrite andb_true_r in Hd. destruct (hex_colon_char d Hd) as [_ [->|Hdw]]; [by rewrite (fold_other COLON e)|].
    exfalso. apply (Hr Hdw) in Ex. rewrite alphanumeric_ascii in Ex by done. congruence.
Qed.

Lemma like_count (w m : Text) : like w m -> length (pieces w) = length (pieces m).
Proof. intros E%like_pieces. apply (f_equal length) in E. by rewrite !length_fmap in E. Qed.

(** The address a keyword requires is an address token of every text its predicate finds. *)
Lemma address_sound v t addr : all_ascii v = true -> Forall is_scalar t -> required_address "token" v = Some addr -> sql_holds (bare_keyword_predicate true v) t = true ->
  addr ∈ address_tokens t.
Proof.
  intros Hv Ht. unfold required_address. cbn [mode_is]. destruct (has_wild v) eqn:Hwild; [done|]. change (negb (mode_is "token" "token") || false) with false. cbv iota. unfold address_needle.
  destruct (trim_pieces v Hv) as [Htp Hta]. rewrite (utf8_ascii (trim v)) by done. set (u := trim v) in *. destruct (_ || _) eqn:Hip; [|done].
  destruct (Nat.leb_spec 2 (length (filter (fun p => p <> []) (split_on (fun b => negb (ascii_alphanumeric b)) (lower_all u))))) as [Hlen|]; [|done]. intros [= <-] Hs.
  assert (Hp : (2 <= length (pieces v))%nat).
  { rewrite <- Htp, (like_count u (lower_all u)), ascii_pieces by (by apply all_ascii_lower_all || by apply like_lower). exact Hlen. }
  pose proof (bare_term v t Hv Hwild Hp Hs) as Hterm. fold u in Hterm. clear Hs Hlen Hp Htp.
  assert (Hchars : Forall (fun c => ipv4_char c || is_hex_or_colon c = true) u).
  { apply orb_true_iff in Hip as [Hv4|Hv6].
    - destruct (ipv4_chars u Hv4) as [Hc _]. eapply Forall_impl; [exact Hc|]. cbn. intros c ->. done.
    - apply andb_true_iff in Hv6 as [Hv6 _]. apply Forall_forall. intros c Hc%list_elem_of_In. rewrite forallb_forall in Hv6. rewrite (Hv6 c Hc). apply orb_true_r. }
  apply term_occurrence in Hterm as (a & m & b & -> & Hm & Hl & Hr); [|by apply all_ascii_lower_all|].
  2:{ apply forallb_forall. intros c Hc%list_elem_of_In. unfold lower_all in Hc. apply list_elem_of_fmap in Hc as (x & -> & Hx). rewrite Forall_forall in Hchars. specialize (Hchars x Hx).
      assert (Hxa : is_ascii x = true) by (apply all_ascii_Forall in Hta; rewrite Forall_forall in Hta; auto).
      rewrite is_whitespace_lower, whitespace_ascii by done. clear -Hchars. unfold ipv4_char, is_hex_or_colon, is_hexdigit, DOT, COLON in Hchars.
      rewrite !orb_true_iff, !Z.eqb_eq in Hchars. apply negb_true_iff. destruct Hchars as [[Hd| ->]|[Hd| ->]]; [|done| |done].
      - destruct (digit_word x Hd) as (_ & _ & _ & ->). ascii_solve; destruct (Z.eqb_spec x 32), (Z.eqb_spec x 92), (Z.leb_spec 9 x), (Z.leb_spec x 13); try lia; done.
      - ascii_solve; repeat match goal with |- context [?p =? ?q] => destruct (Z.eqb_spec p q) end; try lia; done. }
  rewrite !Forall_app in Ht. destruct Ht as (Hta' & _ & Htb). unfold address_tokens. apply elem_of_app.
  assert (Hfold : Forall2 fold_eq u m).
  { unfold lower_all in Hm. rewrite Forall2_fmap_l in Hm. eapply Forall2_impl; [exact Hm|]. intros c d Hcd. cbn in Hcd; unfold fold_eq in *; by rewrite lowercase_idemp in Hcd. }
  assert (Hh : alnum_opt (head (lower_all u)) = alnum_opt (head u)) by (destruct u as [|c u']; [done|]; cbn; apply fold_alphanumeric, lowercase_idemp).
  assert (Hh' : alnum_opt (last (lower_all u)) = alnum_opt (last u)) by (unfold lower_all; rewrite fmap_last; destruct (last u); [|done]; cbn; apply fold_alphanumeric, lowercase_idemp).
  rewrite Hh in Hl. rewrite Hh' in Hr. apply orb_true_iff in Hip as [Hv4|Hv6].
  - left. destruct (ipv4_chars u Hv4) as (Hc & c & Hcu & Hcd & d & Hdu & Hdd). rewrite Hcu in Hl. rewrite Hdu in Hr. cbn in Hl, Hr.
    apply digit_word in Hcd as (_ & Hcw & _). apply digit_word in Hdd as (_ & Hdw & _). replace (lower_all u) with u.
    + apply ipv4_sound; auto.
    + clear -Hc. unfold lower_all. induction Hc as [|c u Hc _ IH]; [done|]. cbn. f_equal; [|done]. unfold ipv4_char, DOT in Hc. rewrite orb_true_iff, Z.eqb_eq in Hc.
      destruct Hc as [Hd| ->]; [by apply digit_word in Hd as (_ & _ & _ & ->)|done].
  - right. apply andb_true_iff in Hv6 as [Hv6 Hv6b]. by apply ipv6_sound.
Qed.
End Facts.
