(* ===== verification/PruneSafety.v ===== *)
(** * PruneSafety: keyword pruning keeps every row a search matches

    The composition of the token index ([TokenIndex]), the keyword SQL ([Keywords]) and the
    pruning decisions ([Prune]): whatever rows a writer indexes, the evidence read back from
    the bytes of the file excludes no row group and no block that holds a matching row. *)
From S2P Require Import Prelude Bytes TokenCounts BlockIndex TextTokens Keywords Addresses TokenIndex Prune.

(** ** What a hint says of a row *)

Section Matches.
Context `{Unicode, CaseFold}.

(** A keyword holds of a row when its SQL holds of one of the row's texts; a hash when a text
    equals it up to ASCII case; alternatives when one of them holds. The other hints are not
    decided by the token index. *)
Fixpoint hint_matches (texts : list Text) (hint : CandidateHint) : Prop :=
  match hint with
  | Keyword mode value => exists t, t ∈ texts /\ keyword_matches mode value t = true
  | Entity source_path value => is_hash_array source_path = true -> exists t, t ∈ texts /\ lower_all t = lower_all value
  | Any alternatives => alternatives = [] \/ foldr (fun h P => hint_matches texts h \/ P) False alternatives
  | SourceFamily _ | Class_ _ => True
  end.
(** Values are texts; a plain token and a hash are in ASCII. *)
Fixpoint hint_ok (hint : CandidateHint) : Prop :=
  match hint with
  | Keyword mode value => Forall is_scalar value /\ (mode = "token" -> has_wild value = false -> all_ascii value = true)
  | Entity source_path value => is_hash_array source_path = true -> all_ascii value = true
  | Any alternatives => foldr (fun h P => hint_ok h /\ P) True alternatives
  | SourceFamily _ | Class_ _ => True
  end.
Lemma any_ok l : foldr (fun h P => hint_ok h /\ P) True l <-> Forall hint_ok l.
Proof. induction l as [|h l IH]; cbn; [by split|]. by rewrite IH, Forall_cons. Qed.
Lemma any_matches texts l : foldr (fun h P => hint_matches texts h \/ P) False l <-> Exists (hint_matches texts) l.
Proof. induction l as [|h l IH]; cbn; [by rewrite Exists_nil|]. by rewrite IH, Exists_cons. Qed.

(** A text of the index: scalar values, none of them a long s or a Kelvin sign. *)
Definition text_ok (t : Text) : Prop := Forall is_scalar t /\ plain_text t.
End Matches.

Section Keeps.
Context `{Unicode, !UnicodeAscii, XxHash, Xorf, Sbbf, FilterSize, Ipv6Parser, CaseFold, !SimpleFolding, !Ipv6Laws}.

(** ** What a keyword requires is in the text *)

Record evidence_in (mode : string) (v t : Text) : Prop := {
  ei_tokens tokens x : required_tokens mode v = Some tokens -> x ∈ tokens -> x ∈ tokenize t;
  ei_address a : required_address mode v = Some a -> a ∈ address_tokens t;
  ei_pairs key : key ∈ required_pairs mode v -> exists x, x ∈ adjacent_pairs t /\ key = pair_key x.1 x.2;
  ei_trigrams gram : gram ∈ required_trigrams mode v -> gram ∈ ascii_trigrams t }.

Lemma plain_evidence v t : all_ascii v = true -> has_wild v = false -> Forall is_scalar t -> sql_holds (bare_keyword_predicate true v) t = true -> evidence_in "token" v t.
Proof.
  intros Hv Hwild Ht Hs. pose proof (bare_keyword_words v t Hv Hwild Ht Hs) as Hw. split.
  - intros tokens x. unfold required_tokens. rewrite Hwild. apply query_sound; done.
  - intros a Ha. by apply (address_sound v).
  - intros key. by apply required_pairs_sound.
  - intros gram. unfold required_trigrams. rewrite Hwild. by intros ?%elem_of_nil.
Qed.

Lemma contains_evidence mode v t : Forall is_scalar v -> (mode_is mode "token" && negb (has_wild v)) = false -> plain_text t -> contains v t = true -> evidence_in mode v t.
Proof.
  intros Hv Hmode Hplain Hc. assert (Hno : negb (mode_is mode "token") || has_wild v = true) by (by destruct (mode_is mode "token"), (has_wild v)). split.
  - intros tokens x. unfold required_tokens. rewrite Hmode. destruct (_ || _ || _); [|done]. intros E. apply (inj Some) in E as <-. by apply interior_sound.
  - intros a. unfold required_address. by rewrite Hno.
  - intros key. unfold required_pairs. rewrite Hno. by intros ?%elem_of_nil.
  - intros gram. unfold required_trigrams. destruct (negb (_ || _) && negb _); [by intros ?%elem_of_nil|]. rewrite elem_of_sort_bytes. by apply trigram_sound.
Qed.

Lemma keyword_evidence mode v t : hint_ok (Keyword mode v) -> text_ok t -> keyword_matches mode v t = true -> evidence_in mode v t.
Proof.
  intros [Hv Hplain] [Ht Hpt]. unfold keyword_matches. destruct (mode_is mode "token" && negb (has_wild v)) eqn:E.
  - apply andb_true_iff in E as [->%String.eqb_eq Hw%negb_true_iff]. intros Hs. apply plain_evidence; auto.
  - by apply contains_evidence.
Qed.

(** The tokens of a hash are tokens of every text that equals it up to case. *)
Lemma hash_evidence v t tokens x : all_ascii v = true -> lower_all t = lower_all v -> query_tokens v = Some tokens -> x ∈ tokens -> x ∈ tokenize t.
Proof.
  intros Hv Hl. apply query_sound; [done|]. exists [], (pieces t), []. split; [by rewrite app_nil_r|]. symmetry. apply like_pieces.
  revert t Hl. induction v as [|c v IH]; intros [|d t] Hl; try done; [constructor|]. injection Hl as Hc Hl. cbn in Hv. apply andb_true_iff in Hv as [? ?]. constructor; [done|unfold fold_eq; done|auto].
Qed.

(** A keyword that is one IP address finds its rows by a single token: every text the exact
    term predicate matches has the address, in lower case, among the address tokens the index
    holds of it; for IPv4 with digit-free neighbours, for IPv6 on the colon edges of its run. *)
Theorem address_keyword_indexed v t addr : all_ascii v = true -> Forall is_scalar t -> required_address "token" v = Some addr ->
  sql_holds (bare_keyword_predicate true v) t = true -> addr ∈ text_tokens true t.
Proof. intros Hv Ht Ha Hs. unfold text_tokens. apply elem_of_app. right. by apply (address_sound v). Qed.

(** ** Row groups *)

Context `{!SbbfLaws}.

Lemma row_token addresses r t x : t ∈ row_texts r -> x ∈ text_tokens addresses t -> x ∈ row_tokens addresses r.
Proof. intros Ht Hx. unfold row_tokens. apply elem_of_concat. exists (text_tokens addresses t). split; [done|]. apply list_elem_of_fmap. eauto. Qed.
Lemma tokenize_row addresses r t x : t ∈ row_texts r -> x ∈ tokenize t -> x ∈ row_tokens addresses r.
Proof. intros Ht Hx. eapply row_token; [done|]. unfold text_tokens. apply elem_of_app. by left. Qed.
Lemma address_row r t x : t ∈ row_texts r -> x ∈ address_tokens t -> x ∈ row_tokens true r.
Proof. intros Ht Hx. eapply row_token; [done|]. unfold text_tokens. apply elem_of_app. by right. Qed.
Lemma self_folded (t : Text) : t ∈ folded_texts t.
Proof. unfold folded_texts. destruct (all_ascii t); left. Qed.

Section Group.
Context (n : option Z) (rows : list (Z * list (bool * list Z))) (g : TokenGroup) (Hg : group_covers n rows g).
Context (r : Z * list (bool * list Z)) (Hr : r ∈ rows) (Htexts : Forall text_ok (row_texts r)).

Lemma covered_tokens tokens : (forall x, x ∈ tokens -> x ∈ row_tokens (tg_addresses g) r) -> may_contain_all g tokens = true.
Proof. intros Hx. apply (gc_tokens _ _ _ Hg). eauto. Qed.

Lemma keyword_hint_keeps mode v t : t ∈ row_texts r -> evidence_in mode v t -> keyword_hint g mode v = true.
Proof.
  intros Ht [Et Ea Ep Eg]. unfold keyword_hint.
  assert (Haddr : tg_addresses g && from_option (fun a => negb (may_contain_all g [a])) false (required_address mode v) = false).
  { destruct (tg_addresses g) eqn:Hga; [|done]. destruct (required_address mode v) as [a|]; [|done]. cbn. rewrite covered_tokens; [done|].
    intros x ->%list_elem_of_singleton. rewrite Hga. apply (address_row r t); auto. }
  rewrite Haddr. assert (Htok : from_option (may_contain_all g) true (required_tokens mode v) = true).
  { destruct (required_tokens mode v) as [tokens|]; [|done]. cbn. apply covered_tokens. intros x Hx. apply (tokenize_row _ _ t); eauto. }
  rewrite Htok. cbn [negb]. unfold pairs_may_contain_all, trigrams_may_contain_all.
  assert (Hpairs : (fun p => pairs_contain_all p (required_pairs mode v)) <$> tg_pairs g <> Some false).
  { destruct (tg_pairs g) as [p|] eqn:Hp; [|done]. cbn. rewrite (gc_pairs _ _ _ Hg p _ Hp); [done|]. intros key (x & Hx & ->)%Ep. exists r, t, t, x. split_and!; auto using self_folded. }
  rewrite (bool_decide_false _ Hpairs), andb_false_r.
  assert (Hgrams : (fun bits => forallb (sbbf_check (sbbf_new bits)) (required_trigrams mode v)) <$> tg_trigrams g <> Some false).
  { destruct (tg_trigrams g) as [bits|] eqn:Hb; [|done]. cbn. replace (forallb _ _) with true; [done|]. symmetry. apply forallb_forall. intros gram Hin%list_elem_of_In.
    apply (gc_trigrams _ _ _ Hg bits r t t gram); auto using self_folded. }
  rewrite (bool_decide_false _ Hgrams). apply orb_true_r.
Qed.

Lemma token_hint_keeps hint : hint_ok hint -> hint_matches (row_texts r) hint -> token_hint g hint = true.
Proof.
  induction hint as [p v|v|z|m v|l IH] using hint_induction; cbn [hint_ok hint_matches token_hint]; intros Hok Hm; try done.
  - destruct (is_hash_array p); [|done]. destruct (Hm eq_refl) as (t & Ht & Hl). destruct (query_tokens v) as [tokens|] eqn:E; [|done]. cbn. rewrite covered_tokens; [apply orb_true_r|].
    intros x Hx. apply (tokenize_row _ _ t); [done|]. by eapply hash_evidence; eauto.
  - destruct Hm as (t & Ht & Hk). apply (keyword_hint_keeps m v t); [done|]. apply keyword_evidence; [done| |done]. rewrite Forall_forall in Htexts. auto.
  - destruct Hm as [->|Hm]; [done|]. rewrite any_matches in Hm. rewrite any_ok in Hok. destruct l as [|h0 l0]; [done|]. apply existsb_exists.
    apply Exists_exists in Hm as (h & Hin & Hm). exists h. split; [by apply list_elem_of_In|]. rewrite Forall_forall in IH, Hok. auto.
Qed.
End Group.

(** ** Blocks *)

Context `{!XorfLaws}.

Lemma zip_keep (a b : list bool) blk x y : a !! blk = Some x -> b !! blk = Some y -> zip_with andb a b !! blk = Some (x && y).
Proof. intros Ha Hb. by rewrite lookup_zip_with, Ha, Hb. Qed.

Lemma and_blocks_keeps a b blk : (forall k, a = Some k -> k !! blk = Some true) -> (forall k, b = Some k -> k !! blk = Some true) ->
  forall k, and_blocks a b = Some k -> k !! blk = Some true.
Proof.
  intros Ha Hb k. destruct a as [a|], b as [b|]; cbn; intros [= <-]; [|by apply Ha|by apply Hb]. rewrite (zip_keep a b blk true true); auto.
Qed.

Lemma hints_keep (f : CandidateHint -> option (list bool)) hints acc blk : (forall k, acc = Some k -> k !! blk = Some true) ->
  (forall h k, h ∈ hints -> f h = Some k -> k !! blk = Some true) -> forall k, foldl (fun acc h => and_blocks acc (f h)) acc hints = Some k -> k !! blk = Some true.
Proof.
  revert acc; induction hints as [|h hints IH]; intros acc Hacc Hf; cbn; [done|]. apply IH; [|intros; eapply Hf; [by right|done]].
  apply and_blocks_keeps; [done|]. intros k. apply Hf. by left.
Qed.

(** A union keeps a block that one of its alternatives keeps. *)
Lemma union_step (u b : list bool) blk x : u !! blk = Some x -> exists y, (zip_with orb u b ++ drop (length b) u) !! blk = Some y /\ (x = true -> y = true) /\ (b !! blk = Some true -> y = true).
Proof.
  intros Hu. destruct (b !! blk) as [z|] eqn:Hb.
  - exists (x || z). rewrite lookup_app_l, lookup_zip_with, Hu, Hb by (rewrite length_zip_with; apply lookup_lt_Some in Hu, Hb; lia). split_and!; [done|by intros ->|]. intros [= ->]. apply orb_true_r.
  - exists x. split_and!; [|done|done]. apply lookup_ge_None in Hb. pose proof (lookup_lt_Some _ _ _ Hu). rewrite lookup_app_r by (rewrite length_zip_with; lia).
    rewrite length_zip_with, lookup_drop. rewrite <- Hu. f_equal. lia.
Qed.
Lemma union_keeps (f : CandidateHint -> option (list bool)) l u blk x k : u !! blk = Some x -> union_blocks f l u = Some k ->
  (x = true \/ exists h, h ∈ l /\ forall b, f h = Some b -> b !! blk = Some true) -> k !! blk = Some true.
Proof.
  revert u x; induction l as [|h l IH]; intros u x Hu Hk Hex; cbn in Hk.
  - injection Hk as <-. destruct Hex as [->|(h & Hh & _)]; [done|by apply elem_of_nil in Hh].
  - destruct (f h) as [b|] eqn:Hb; [|done]. destruct (union_step u b blk x Hu) as (y & Hy & Hxy & Hby). apply (IH _ y Hy Hk).
    destruct Hex as [Hx|(h' & [->|Hin]%elem_of_cons & Hh)]; [left; auto| |right; eauto]. left. apply Hby. by apply Hh.
Qed.

Section Blocks.
Context (n : Z) (addresses : bool) (rows : list (Z * list (bool * list Z))) (Hn : 0 < n <= u32_max) (Hlen : Z.of_nat (length rows) <= u32_max).
Context (i : nat) (r : Z * list (bool * list Z)) (Hi : rows !! i = Some r) (Htexts : Forall text_ok (row_texts r)).
Let index := block_finish (block_build n (block_row_of addresses <$> rows)).
Let blk := Z.to_nat (Z.of_nat i / n).

Lemma row_in_block tokens : Forall (fun t => t ∈ row_tokens addresses r) tokens ->
  (forall keep, blocks_with_all index tokens = Some keep -> keep !! blk = Some true) /\
  (exists range, times index !! blk = Some range /\ range.1 <= r.1 <= range.2) /\
  (block_rows_range index (Z.of_nat blk) (Z.of_nat (length rows))).1 <= Z.of_nat i < (block_rows_range index (Z.of_nat blk) (Z.of_nat (length rows))).2.
Proof.
  intros Ht. destruct (block_build_complete n (block_row_of addresses <$> rows) i (block_row_of addresses r) tokens) as (H1' & H2' & H3'); [done|by rewrite length_fmap| |done|].
  { by rewrite list_lookup_fmap, Hi. }
  rewrite length_fmap in H3'. unfold blk at 3 4. assert (0 <= Z.of_nat i / n) by (apply Z.div_pos; lia). rewrite Z2Nat.id by done. done.
Qed.

Lemma block_hint_keeps hint : hint_ok hint -> hint_matches (row_texts r) hint -> forall keep, block_hint index addresses hint = Some keep -> keep !! blk = Some true.
Proof.
  induction hint as [p v|v|z|m v|l IH] using hint_induction; cbn [hint_ok hint_matches block_hint]; intros Hok Hm keep; try done.
  - destruct (is_hash_array p); [|done]. destruct (Hm eq_refl) as (t & Ht & Hl). destruct (query_tokens v) as [tokens|] eqn:E; [|done]. destruct (nonempty tokens); [|done].
    apply row_in_block. apply Forall_forall. intros x Hx. apply (tokenize_row _ _ t); [done|]. by eapply hash_evidence; eauto.
  - destruct Hm as (t & Ht & Hk). assert (Hts : text_ok t) by (rewrite Forall_forall in Htexts; auto). destruct (keyword_evidence m v t Hok Hts Hk) as [Et Ea _ _].
    match goal with |- context [nonempty ?ts] => assert (Hall : Forall (fun x => x ∈ row_tokens addresses r) ts) end; [|destruct (nonempty _); [|done]; by apply row_in_block].
    assert (Hreq : Forall (fun x => x ∈ row_tokens addresses r) (default [] (required_tokens m v))).
    { apply Forall_forall. intros x Hx. destruct (required_tokens m v) as [ts|]; [|by apply elem_of_nil in Hx]. apply (tokenize_row _ _ t); eauto. }
    destruct (required_address m v) as [a|]; [|done]. destruct addresses eqn:Ha; [|done]. apply Forall_app_2; [done|]. constructor; [|constructor]. apply (address_row r t); auto.
  - destruct l as [|h0 l0]; [done|]. destruct Hm as [|Hm]; [done|]. rewrite any_matches in Hm. rewrite any_ok in Hok. destruct (row_in_block [] ltac:(constructor)) as (_ & (range & Hrange & _) & _).
    intros Hu. eapply (union_keeps _ _ _ blk false); [|exact Hu|].
    + apply lookup_replicate_2. unfold blocks. by apply lookup_lt_Some in Hrange.
    + right. apply Exists_exists in Hm as (h & Hin & Hm). exists h. split; [done|]. rewrite Forall_forall in IH, Hok. apply IH; auto.
Qed.

(** ** Runs of rows *)

Notation "'Run'" := (Z * Z * (Z * Z))%type.
Definition holds_row (run : Run) (row time : Z) : Prop := run.1.1 <= row < run.1.2 /\ run.2.1 <= time <= run.2.2.

Lemma push_run_keeps (runs : list Run) (r0 : Run) row time : r0.1.1 <= r0.1.2 -> Forall (fun run : Run => run.1.1 <= run.1.2) runs ->
  Forall (fun run : Run => run.1.1 <= run.1.2) (push_run runs r0) /\
  (holds_row r0 row time \/ Exists (fun run => holds_row run row time) runs -> Exists (fun run => holds_row run row time) (push_run runs r0)).
Proof.
  intros Hr0 Hruns. destruct r0 as [[s0 e0] [mn0 mx0]]. destruct runs as [|[[s e] [mn mx]] rest]; cbn [push_run fst snd] in *.
  - split; [by repeat constructor|]. intros [?|?%Exists_nil]; [by constructor|done].
  - apply Forall_cons in Hruns as [Hse Hrest]. cbn in Hse. destruct (Z.eqb_spec e s0) as [->|Hne].
    + split; [constructor; [cbn; lia|done]|]. rewrite !Exists_cons. unfold holds_row. cbn. intros [?|[?|?]]; [left; lia|left; lia|by right].
    + split; [by repeat constructor|]. rewrite !Exists_cons. tauto.
Qed.

Lemma range_ordered b : (block_rows_range index b (Z.of_nat (length rows))).1 <= (block_rows_range index b (Z.of_nat (length rows))).2.
Proof.
  destruct (finish_fields n (block_row_of addresses <$> rows) Hn ltac:(rewrite length_fmap; lia)) as [_ Hr]. fold index in Hr. unfold block_rows_range. cbn [fst snd]. rewrite Hr.
  assert (0 <= wrap_u64 (b * n)) by (apply wrap_in_u64). unfold u32_max in *. rewrite (wrap_u64_id (_ + n)) by (unfold in_u64, u64_max; lia). lia.
Qed.

Lemma block_runs_keep keep : keep !! blk = Some true -> exists run, run ∈ block_runs index (Z.of_nat (length rows)) keep /\ holds_row run (Z.of_nat i) r.1.
Proof.
  intros Hk. unfold block_runs. assert (Hin : blk ∈ filter (fun b => keep !! b = Some true) (seq 0 (length keep))).
  { apply list_elem_of_filter. split; [done|]. apply elem_of_seq. apply lookup_lt_Some in Hk. lia. }
  revert Hin. generalize (filter (fun b => keep !! b = Some true) (seq 0 (length keep))). intros bs Hin.
  set (step := fun (runs : list Run) b => _). assert (Hgen : forall runs, Forall (fun run : Run => run.1.1 <= run.1.2) runs ->
    Exists (fun run => holds_row run (Z.of_nat i) r.1) runs \/ blk ∈ bs -> Exists (fun run => holds_row run (Z.of_nat i) r.1) (foldl step runs bs)).
  { clear Hin. induction bs as [|b bs IH]; intros runs Hruns Hex; cbn [foldl]; [by destruct Hex as [?|?%elem_of_nil]|].
    pose proof (range_ordered (Z.of_nat b)) as Hord. destruct (block_rows_range index (Z.of_nat b) (Z.of_nat (length rows))) as [s e] eqn:Er. cbn in Hord.
    replace (step runs b) with (push_run runs (s, e, default (0, 0) (times index !! b))) by (unfold step; by rewrite Er).
    destruct (push_run_keeps runs (s, e, default (0, 0) (times index !! b)) (Z.of_nat i) r.1 Hord Hruns) as [Hf Hp]. apply IH; [done|].
    destruct Hex as [Hex|[<-|Hin]%elem_of_cons]; [left; auto| |by right]. left. apply Hp. left.
    destruct (row_in_block [] ltac:(constructor)) as (_ & (range & Hrange & Ht) & Hrow). rewrite Er in Hrow. unfold holds_row. cbn [fst snd]. rewrite Hrange. cbn. split; [exact Hrow|exact Ht]. }
  specialize (Hgen [] ltac:(constructor) (or_intror Hin)). apply Exists_exists in Hgen as (run & Hrun & Hh). exists run. split; [by apply elem_of_reverse|done].
Qed.
End Blocks.

(** ** Files *)

Lemma token_keep_lookup groups hints k g : groups !! k = Some g -> Forall (fun h => token_hint g h = true) hints -> token_keep groups hints !! k = Some true.
Proof.
  intros Hg Hh. unfold token_keep. assert (Hgen : forall mask, mask !! k = Some true ->
    foldl (fun mask hint => zip_with (fun (keep : bool) g => if keep then token_hint g hint else keep) mask groups) mask hints !! k = Some true).
  { induction Hh as [|h hints Hh _ IH]; intros mask Hm; cbn; [done|]. apply IH. rewrite lookup_zip_with, Hm, Hg. cbn. by rewrite Hh. }
  apply Hgen. apply lookup_replicate_2. by apply lookup_lt_Some in Hg.
Qed.

(** What the evidence of a file must not exclude. *)
Definition row_kept (ev : option (list bool) * option (list (option (list (Z * Z * (Z * Z)))))) (k i : nat) (time : Z) : Prop :=
  (forall mask, ev.1 = Some mask -> mask !! k = Some true) /\
  (forall fine runs, ev.2 = Some fine -> fine !! k = Some (Some runs) -> exists run, run ∈ runs /\ holds_row run (Z.of_nat i) time).

Section File.
Context (n : option Z) (rows : list (Z * list (bool * list Z))) (g : TokenGroup) (Hg : group_covers n rows g) (Hn : block_rows_ok n) (Hlen : Z.of_nat (length rows) <= u32_max).
Context (i : nat) (r : Z * list (bool * list Z)) (Hi : rows !! i = Some r) (Htexts : Forall text_ok (row_texts r)).
Context (hints : list CandidateHint) (Hok : Forall hint_ok hints) (Hm : Forall (hint_matches (row_texts r)) hints).

Lemma group_runs_keep index runs : tg_blocks g = Some index -> group_runs g index hints = Some runs -> exists run, run ∈ runs /\ holds_row run (Z.of_nat i) r.1.
Proof.
  intros Hix. rewrite (gc_blocks _ _ _ Hg) in Hix. destruct n as [nb|]; [|done]. injection Hix as <-. specialize (Hn nb eq_refl). unfold group_runs. rewrite (gc_rows _ _ _ Hg).
  destruct (foldl _ None hints) as [keep|] eqn:Hk; [|done]. destruct (_ <? _); [done|]. intros [= <-]. apply (block_runs_keep nb (tg_addresses g) rows Hn Hlen i r Hi).
  revert Hk. apply hints_keep; [done|]. intros h k Hh. rewrite Forall_forall in Hok, Hm. apply (block_hint_keeps nb (tg_addresses g) rows Hn Hlen i r Hi Htexts); auto.
Qed.

Lemma fine_blocks_keep groups k fine runs : groups !! k = Some g -> fine_blocks groups hints = Some fine -> fine !! k = Some (Some runs) ->
  exists run, run ∈ runs /\ holds_row run (Z.of_nat i) r.1.
Proof.
  intros Hk. unfold fine_blocks. destruct (existsb _ _); [done|]. intros [= <-]. rewrite list_lookup_fmap, Hk. cbn. destruct (tg_blocks g) as [index|] eqn:Hix; [|done]. cbn. intros [= Hr]. by apply (group_runs_keep index).
Qed.

Lemma evidence_keeps groups k expected : groups !! k = Some g -> row_kept (token_evidence_of groups expected hints) k i r.1.
Proof.
  intros Hk. unfold token_evidence_of. destruct (_ || _); [split; done|]. split; cbn [fst snd]; [|intros fine runs; by apply fine_blocks_keep].
  intros mask [= <-]. assert (Hkeep : token_keep groups hints !! k = Some true).
  { apply (token_keep_lookup _ _ _ g Hk). apply Forall_forall. intros h Hh. rewrite Forall_forall in Hok, Hm. apply (token_hint_keeps n rows g Hg r); auto. by apply list_elem_of_lookup_2 in Hi. }
  destruct (fine_blocks groups hints) as [fine|] eqn:Hf; [|done]. assert (Hlf : length fine = length groups).
  { unfold fine_blocks in Hf. destruct (existsb _ _); [done|]. injection Hf as <-. by rewrite length_fmap. }
  destruct (lookup_lt_is_Some_2 fine k) as [o Ho]; [rewrite Hlf; by apply lookup_lt_Some in Hk|].
  rewrite lookup_app_l by (rewrite length_zip_with; apply lookup_lt_Some in Ho, Hkeep; lia). rewrite lookup_zip_with, Hkeep, Ho. cbn.
  destruct o as [[|run runs]|]; [|done|done]. destruct (fine_blocks_keep groups k fine [] Hk Hf Ho) as (run & Hrun & _). by apply elem_of_nil in Hrun.
Qed.
End File.

Context `{Sha256, !Sha256Laws, !XxHashLaws, !XorfShape}.

(** C5: No row a search matches is pruned, for hints whose plain tokens and hashes are in ASCII
    and rows whose texts hold neither a long s (U+017F) nor a Kelvin sign (U+212A), the two
    characters that the search folds into ASCII. Rows are indexed by the writer's builder in any
    layout, the groups are encoded, and the file is read back by either reader. If such a row of
    the [k]-th group satisfies every hint (a keyword by its SQL on one of the row's texts, for
    every mode), the mask keeps the group, and where the evidence narrows the group to runs of
    rows, one run holds the row and its time. [long_s_pruned] and [dotted_i_pruned] below show
    that rows outside the two conditions can be lost. *)
Theorem pruning_keeps_matches counts trigrams pairs addresses n rowss groups bs hints k i rows r ev :
  block_rows_ok n -> Forall rows_ok rowss ->
  Forall2 (fun rows g => group_finish (group_build (for_writer counts trigrams pairs addresses n) rows) = Ok g) rowss groups -> encode_token_index groups = Ok bs ->
  rowss !! k = Some rows -> rows !! i = Some r -> Forall text_ok (row_texts r) ->
  Forall hint_ok hints -> Forall (hint_matches (row_texts r)) hints ->
  ev ∈ [token_evidence (Some bs) (length rowss) hints; leased_token_evidence (Some bs) (length rowss) hints] -> row_kept ev k i r.1.
Proof.
  intros Hn Hrows Hbuilt Henc Hk Hi Htexts Hok Hm Hev. pose proof (for_writer_fresh counts trigrams pairs addresses n) as Hfresh.
  assert (Hgroups : Forall group_ok groups).
  { clear Hk Henc Hev. induction Hbuilt as [|rows0 g0 rowss groups Hg0 _ IH]; [constructor|]. apply Forall_cons in Hrows as [Hr0 Hrs]. constructor; [by eapply built_ok|auto]. }
  destruct (index_file_roundtrip groups bs Hgroups Henc) as [Hd Hl]. destruct (Forall2_lookup_l _ _ _ _ _ Hbuilt Hk) as (g & Hgk & Hg).
  assert (Hr : rows_ok rows) by (rewrite Forall_forall in Hrows; apply Hrows; by apply list_elem_of_lookup_2 in Hk). destruct Hr as [Hlen _].
  assert (Hcov : group_covers n rows g) by (apply (built_covers _ _ _ _ Hfresh); [unfold u32_max, u64_max in *; lia|done]).
  assert (Heq : ev = (None, None) \/ ev = token_evidence_of groups (length rowss) hints).
  { unfold token_evidence, leased_token_evidence, evidence_with in Hev. rewrite Hd, Hl in Hev. destruct (negb (uses_tokens hints)); rewrite !elem_of_cons in Hev; destruct_or! Hev; auto; by apply elem_of_nil in Hev. }
  destruct Heq as [->| ->]; [split; done|]. by apply (evidence_keeps n rows g).
Qed.
End Keeps.

(** * A search over the example file *)

Module PruneExample.
Export IndexExample.
(** The simple folding of RE2: long s and the Kelvin sign are letters of ASCII. *)
Definition re2_fold (c : Z) : Z := if c =? LONG_S then 115 else if c =? KELVIN then 107 else to_ascii_lowercase c.
#[export] Instance re2_folding : CaseFold := fun c d => re2_fold c =? re2_fold d.
#[export] Instance re2_simple : SimpleFolding.
Proof.
  intros c d Hc E. apply Z.eqb_eq in E. apply is_ascii_range in Hc. unfold re2_fold, LONG_S, KELVIN in *. rewrite !(proj2 (Z.eqb_neq c _)) in E by lia.
  destruct (Z.eqb_spec d 383) as [->|]; [auto|]. destruct (Z.eqb_spec d 8490) as [->|]; [auto|by left].
Qed.
Lemma doubles_case s u : lower_all s = lower_all u -> count_doubles s = count_doubles u /\ count_colons s = count_colons u /\ length s = length u.
Proof.
  intros E. assert (Hf : Forall2 fold_eq s u) by (revert u E; induction s as [|c s IH]; intros [|d u] E; try done; injection E as Ec E; constructor; [exact Ec|auto]).
  split; [|split; [by apply fold_v6|by apply Forall2_length in Hf]]. induction Hf as [|c d s u Hcd Hf IH]; [done|]. injection E as _ E. specialize (IH E).
  destruct Hf as [|c' d' s' u' Hcd' Hf]; [done|]. cbn [count_doubles] in *. rewrite (proj2 (hex_colon_fold c d Hcd)), (proj2 (hex_colon_fold c' d' Hcd')). f_equal. rewrite (proj2 (hex_colon_fold c' d' Hcd')) in IH. exact IH.
Qed.
#[export] Instance one_double_laws : Ipv6Laws.
Proof.
  split.
  - intros s _ Hs. unfold ipv6_parses, one_double in Hs. rewrite !andb_true_iff, Nat.eqb_eq, !Nat.leb_le in Hs. tauto.
  - intros s u E. unfold ipv6_parses, one_double. by destruct (doubles_case s u E) as (-> & -> & ->).
Qed.
Definition hints_ab : list CandidateHint := [Keyword "token" (text "PASSWORD for"); Any [Keyword "contains" (text " from 10"); Class_ 3]].
Definition evidence_ab : option (list bool) * option (list (option (list (Z * Z * (Z * Z))))) :=
  match encode_token_index groups_ab with Ok bs => token_evidence (Some bs) 2 hints_ab | Err _ => (None, None) end.
Lemma evidence_ab_file : exists bs, encode_token_index groups_ab = Ok bs /\ evidence_ab = token_evidence (Some bs) 2 hints_ab.
Proof.
  unfold evidence_ab. pose proof groups_ab_encode as He. revert He. generalize (encode_token_index groups_ab). intros [bs|e] He; [exists bs; split; reflexivity|destruct He].
Qed.
Lemma ascii_scalar (t : Text) : all_ascii t = true -> Forall is_scalar t.
Proof. rewrite all_ascii_Forall. intros Ht. eapply Forall_impl; [exact Ht|]. intros c Hc%is_ascii_range. unfold is_scalar. lia. Qed.
Lemma ascii_text (t : Text) : all_ascii t = true -> text_ok t.
Proof.
  intros Ht. split; [by apply ascii_scalar|]. rewrite all_ascii_Forall, Forall_forall in Ht.
  split; intros Hin%Ht; vm_compute in Hin; discriminate.
Qed.
Definition row_0 : Z * list (bool * list Z) := (60000000, [(true, text "Failed password for root from 10.1.4.20"); (false, text "sshd")]).
Lemma groups_flatten {A} (f : A -> result IndexError TokenGroup) a b :
  (match f a, f b with Ok _, Ok _ => True | _, _ => False end) -> Forall2 (fun x g => f x = Ok g) [a; b] (flatten (f a) ++ flatten (f b)).
Proof. destruct (f a) as [ga|] eqn:Ea, (f b) as [gb|] eqn:Eb; intros []. constructor; [done|]. constructor; [done|constructor]. Qed.
Lemma groups_ab_built : Forall2 (fun rows g => group_finish (group_build (for_writer true false false false (Some 2)) rows) = Ok g) [rows_a; rows_b] groups_ab.
Proof. apply (groups_flatten (fun rows => group_finish (group_build (for_writer true false false false (Some 2)) rows))). vm_compute. exact I. Qed.
End PruneExample.

Import PruneExample.
Lemma pruning_keeps_matches_witness : row_kept evidence_ab 0 0 60000000.
Proof.
  destruct evidence_ab_file as (bs & E & Ev). rewrite Ev.
  refine (pruning_keeps_matches true false false false (Some 2) [rows_a; rows_b] groups_ab bs hints_ab 0 0 rows_a row_0 _ _ _ _ E eq_refl eq_refl _ _ _ _).
  - intros k [= <-]. unfold u32_max. lia.
  - repeat (apply Forall_cons; split; [split; [done|apply (bool_decide_unpack _); vm_compute; exact I]|]). constructor.
  - exact groups_ab_built.
  - repeat (apply Forall_cons; split; [apply ascii_text; vm_compute; reflexivity|]). constructor.
  - apply Forall_cons; split; [split; [apply ascii_scalar; vm_compute; reflexivity|intros _ _; vm_compute; reflexivity]|]. apply Forall_cons; split; [|constructor]. split; [split; [apply ascii_scalar; vm_compute; reflexivity|intros _ _; vm_compute; reflexivity]|split; exact I].
  - apply Forall_cons; split; [|apply Forall_cons; split; [|constructor]].
    + eexists. split; [left|]. vm_compute. reflexivity.
    + right. left. eexists. split; [left|]. vm_compute. reflexivity.
  - left.
Defined.
Lemma address_keyword_indexed_witness : text "10.1.4.20" ∈ text_tokens true (text "Failed password for root from 10.1.4.20").
Proof.
  refine (address_keyword_indexed (text "10.1.4.20") (text "Failed password for root from 10.1.4.20") _ _ _ _ _).
  - vm_compute. reflexivity.
  - apply ascii_scalar. vm_compute. reflexivity.
  - vm_compute. reflexivity.
  - vm_compute. reflexivity.
Defined.
(** The group without the words has no block that may hold them, and is excluded. *)
Example evidence_ab_mask : evidence_ab.1 = Some [true; false].
Proof. vm_compute. reflexivity. Qed.

(** * Where pruning and the SQL part *)

(** A needle that starts with a separator and ends with [*] compiles to an anchored pattern:
    it finds only values that start with the needle, not the needle anywhere. *)
Example leading_separator_anchored :
  sql_holds (wildcard_keyword_predicate (text "-enc*")) (text "powershell -enc aGk") = false /\
  sql_holds (wildcard_keyword_predicate (text "*-enc*")) (text "powershell -enc aGk") = true.
Proof. vm_compute. done. Qed.

(** Outside ASCII the evidence is not complete. *)
Module FoldingExample.
Definition long_s_row : list (Z * list (bool * list Z)) := [(0, [(true, text "run " ++ [LONG_S] ++ text "ys now")])].
(** The table rows of a dotted capital I and its dot. *)
Definition dotted_tables : Unicode :=
  {| is_alphanumeric c := ascii_alphanumeric c || ((128 <=? c) && negb (c =? 775)); is_uppercase c := ascii_upper c || (c =? 304);
     is_whitespace c := ((9 <=? c) && (c <=? 13)) || (c =? 32); char_lower c := if c =? 304 then [105; 775] else [to_ascii_lowercase c];
     is_cased c := ascii_alphabetic c; is_case_ignorable c := c =? 775 |}.
Definition dotted_text : Text := text "i" ++ [775] ++ text "stanbul".
Definition dotted_keyword : Text := [304] ++ text "stanbul".
End FoldingExample.
Import FoldingExample.

(** The folded candidates of a long s are in the trigram and pair filters, not in the token
    filter: a substring that folds to the text is pruned by its interior token. *)
Example long_s_pruned :
  contains (text " sys ") (text "run " ++ [LONG_S] ++ text "ys now") = true /\
  match group_finish (group_build (for_writer true false false false (Some 2)) long_s_row) with Ok g => token_hint g (Keyword "contains" (text " sys ")) = false | Err _ => False end.
Proof. vm_compute. done. Qed.

(** A keyword with a dotted capital I: the SQL finds its lower-case spelling, but the index
    splits that spelling at the combining dot and the query does not. *)
Example dotted_i_pruned :
  sql_holds (bare_keyword_predicate (H := dotted_tables) true dotted_keyword) dotted_text = true /\
  match group_finish (group_build (H := dotted_tables) (for_writer true false false false (Some 2)) [(0, [(true, dotted_text)])]) with
  | Ok g => token_hint (H := dotted_tables) g (Keyword "token" dotted_keyword) = false | Err _ => False end.
Proof. vm_compute. done. Qed.
