(* ===== verification/Spellings.v ===== *)
(** * Spellings: case spellings of a value, their ranges, and ranges of rows

    Models the value decisions of [part_query/prune.rs]: whether a case spelling of a value
    lies between the exact statistics of a row group ([spelling_in_range]), the bounded set
    of spellings a bloom filter is probed with ([spellings]), and the merging of kept row
    groups into row ranges ([kept_ranges], [kept_ranges_with_time]). *)
From S2P Require Import Prelude Bytes TextTokens.

(** The values equal to [v] up to ASCII case. *)
Definition spelling_of (v s : list Z) : Prop := lower_all s = lower_all v.

(** ** A spelling between two bounds *)

Definition low_step (low : bool) (bound : option Z) (choice : Z) : option bool :=
  match low, bound with
  | false, _ | true, None => Some false
  | true, Some b => if b <? choice then Some false else if choice =? b then Some true else None
  end.
Definition high_step (high : bool) (bound : option Z) (choice : Z) : option bool :=
  match high, bound with
  | false, _ => Some false
  | true, None => None
  | true, Some b => if choice <? b then Some false else if choice =? b then Some true else None
  end.
Definition case_choices (b : Z) : list Z := dedup [to_ascii_lowercase b; to_ascii_uppercase b].
(** One choice for one state: [next.push] unless it is there. *)
Definition push_state (mn mx : option Z) (low high : bool) (next : list (bool * bool)) (choice : Z) : list (bool * bool) :=
  match low_step low mn choice, high_step high mx choice with
  | Some l, Some h => if bool_decide ((l, h) ∈ next) then next else next ++ [(l, h)]
  | _, _ => next
  end.
(** The loop over the states of one byte; [None] is the early [return true]. *)
Fixpoint advance (mn mx : option Z) (choices : list Z) (states next : list (bool * bool)) : option (list (bool * bool)) :=
  match states with
  | [] => Some next
  | (low, high) :: states =>
      if negb low && negb high then None else advance mn mx choices states (foldl (push_state mn mx low high) next choices)
  end.
(** The loop over the bytes, with the bounds from the current index on. *)
Fixpoint spell_loop (fits : bool) (value mn mx : Bytes) (states : list (bool * bool)) : bool :=
  match value with
  | [] => existsb (fun s => negb s.1 || fits) states
  | b :: value =>
      match advance (head mn) (head mx) (case_choices b) states [] with
      | None => true
      | Some [] => false
      | Some next => spell_loop fits value (tail mn) (tail mx) next
      end
  end.
(** [spelling_in_range] *)
Definition spelling_in_range (value mn mx : Bytes) : bool := spell_loop (length mn <=? length value)%nat value mn mx [(true, true)].

(** A suffix of a spelling that continues a state. *)
Definition continues (value mn mx : Bytes) (s : bool * bool) : Prop :=
  exists t, spelling_of value t /\ (s.1 = true -> bytes_leb mn t = true) /\ (s.2 = true -> bytes_leb t mx = true).

Lemma elem_of_choices b c : c ∈ case_choices b <-> to_ascii_lowercase c = to_ascii_lowercase b.
Proof.
  unfold case_choices. rewrite elem_of_dedup, !elem_of_cons, elem_of_nil. split.
  - intros [->|[->|[]]]; [apply lowercase_idemp|]. ascii_solve.
  - intros E. destruct (Z.eq_dec c (to_ascii_lowercase b)) as [|Hne]; [by left|right; left]. ascii_solve.
Qed.

Lemma low_step_spec low mn c l t : low_step low (head mn) c = Some l -> ((low = true -> bytes_leb mn (c :: t) = true) <-> (l = true -> bytes_leb (tail mn) t = true)).
Proof.
  unfold low_step. destruct low; [|intros [= <-]; done]. destruct mn as [|b mn]; cbn [head tail]; [intros [= <-]; done|]. rewrite bytes_leb_cons.
  destruct (Z.ltb_spec b c); [intros [= <-]; split; [done|intros _ _; by left]|]. destruct (Z.eqb_spec c b) as [->|]; [|done]. intros [= <-].
  split; intros Hl _; specialize (Hl eq_refl); [destruct Hl as [?|[_ ?]]; [lia|done]|by right].
Qed.
Lemma low_step_none low mn c t : low_step low (head mn) c = None -> low = true /\ bytes_leb mn (c :: t) = false.
Proof.
  unfold low_step. destruct low; [|done]. destruct mn as [|b mn]; cbn [head]; [done|]. destruct (Z.ltb_spec b c); [done|]. destruct (Z.eqb_spec c b) as [|Hne]; [done|]. intros _. split; [done|].
  apply not_true_iff_false. rewrite bytes_leb_cons. lia.
Qed.
Lemma high_step_spec high mx c h t : high_step high (head mx) c = Some h -> ((high = true -> bytes_leb (c :: t) mx = true) <-> (h = true -> bytes_leb t (tail mx) = true)).
Proof.
  unfold high_step. destruct high; [|intros [= <-]; done]. destruct mx as [|b mx]; cbn [head tail]; [done|]. rewrite bytes_leb_cons.
  destruct (Z.ltb_spec c b); [intros [= <-]; split; [done|intros _ _; by left]|]. destruct (Z.eqb_spec c b) as [->|]; [|done]. intros [= <-].
  split; intros Hl _; specialize (Hl eq_refl); [destruct Hl as [?|[_ ?]]; [lia|done]|by right].
Qed.
Lemma high_step_none high mx c t : high_step high (head mx) c = None -> high = true /\ bytes_leb (c :: t) mx = false.
Proof.
  unfold high_step. destruct high; [|done]. destruct mx as [|b mx]; cbn [head]; [done|]. destruct (Z.ltb_spec c b); [done|]. destruct (Z.eqb_spec c b) as [|Hne]; [done|]. intros _. split; [done|].
  apply not_true_iff_false. rewrite bytes_leb_cons. lia.
Qed.

(** A state of a longer value continues exactly through one of the choices. *)
Lemma continues_cons b value mn mx low high : continues (b :: value) mn mx (low, high) <->
  exists c l h, c ∈ case_choices b /\ low_step low (head mn) c = Some l /\ high_step high (head mx) c = Some h /\ continues value (tail mn) (tail mx) (l, h).
Proof.
  unfold continues, spelling_of. cbn [fst snd]. split.
  - intros (t & Ht & Hlow & Hhigh). destruct t as [|c t]; [done|]. cbn in Ht. injection Ht as Hc Ht. exists c.
    destruct (low_step low (head mn) c) as [l|] eqn:El; [|destruct (low_step_none low mn c t El) as [-> Hf]; by rewrite Hlow in Hf].
    destruct (high_step high (head mx) c) as [h|] eqn:Eh; [|destruct (high_step_none high mx c t Eh) as [-> Hf]; by rewrite Hhigh in Hf].
    exists l, h. split_and!; [by apply elem_of_choices|done|done|]. exists t. split_and!; [done|by apply (low_step_spec low mn c l t El)|by apply (high_step_spec high mx c h t Eh)].
  - intros (c & l & h & Hc%elem_of_choices & El & Eh & t & Ht & Hl & Hh). exists (c :: t). split_and!; [unfold lower_all in *; cbn; f_equal; done| |].
    + by apply (low_step_spec low mn c l t El).
    + by apply (high_step_spec high mx c h t Eh).
Qed.

Lemma push_states_spec mn mx low high choices next s : s ∈ foldl (push_state mn mx low high) next choices <->
  s ∈ next \/ exists c, c ∈ choices /\ low_step low mn c = Some s.1 /\ high_step high mx c = Some s.2.
Proof.
  revert next; induction choices as [|c choices IH]; intros next; cbn [foldl].
  { split; [by left|]. intros [?|(c & ?%elem_of_nil & _)]; done. }
  rewrite IH. assert (Hp : s ∈ push_state mn mx low high next c <-> s ∈ next \/ (low_step low mn c = Some s.1 /\ high_step high mx c = Some s.2)).
  { unfold push_state. destruct s as [l h]. cbn [fst snd]. destruct (low_step low mn c) as [l'|], (high_step high mx c) as [h'|]; try (split; [by left|]; intros [?|[? ?]]; done).
    case_bool_decide as Hin.
    - split; [by left|]. intros [?|[[= <-] [= <-]]]; done.
    - rewrite elem_of_app, list_elem_of_singleton. split; [intros [?|[= -> ->]]; auto|]. intros [?|[[= <-] [= <-]]]; auto. }
  rewrite Hp. setoid_rewrite elem_of_cons. split.
  - intros [[?|?]|(d & ? & ?)]; [by left|right; exists c; auto|right; exists d; auto].
  - intros [?|(d & [->|?] & ?)]; [by left; left|by left; right|right; eauto].
Qed.

Lemma advance_spec mn mx b states next :
  match advance (head mn) (head mx) (case_choices b) states next with
  | None => (false, false) ∈ states
  | Some next' => forall s, s ∈ next' <-> s ∈ next \/ exists st c, st ∈ states /\ c ∈ case_choices b /\ low_step st.1 (head mn) c = Some s.1 /\ high_step st.2 (head mx) c = Some s.2
  end.
Proof.
  revert next; induction states as [|[low high] states IH]; intros next; cbn [advance].
  { intros s. split; [by left|]. intros [?|(st & c & ?%elem_of_nil & _)]; done. }
  destruct (negb low && negb high) eqn:E; [destruct low, high; try done; by left|]. specialize (IH (foldl (push_state (head mn) (head mx) low high) next (case_choices b))).
  destruct (advance _ _ _ states _) as [next'|]; [|by right]. intros s. rewrite IH, push_states_spec. split.
  - intros [[?|(c & Hc & Hl & Hh)]|(st & c & Hst & ?)]; [by left|right; exists (low, high), c; split; [left|auto]|right; exists st, c; split; [by right|auto]].
  - intros [?|(st & c & [->|Hst]%elem_of_cons & Hc & Hl & Hh)]; [by left; left|left; right; eauto|right; exists st, c; auto].
Qed.

Lemma spell_loop_spec fits value mn mx states : fits = (length mn <=? length value)%nat ->
  spell_loop fits value mn mx states = true <-> exists s, s ∈ states /\ continues value mn mx s.
Proof.
  intros ->. revert mn mx states. induction value as [|b value IH]; intros mn mx states; cbn [spell_loop].
  - rewrite existsb_exists. setoid_rewrite <- list_elem_of_In. split.
    + intros ([low high] & Hin & Hs). exists (low, high). split; [done|]. exists []. cbn [fst snd] in *. split_and!; [done| |by destruct mx].
      intros ->. by destruct mn.
    + intros ([low high] & Hin & t & Ht & Hl & Hh). exists (low, high). split; [done|]. cbn [fst snd] in *. destruct t; [|done]. destruct low; [|done]. specialize (Hl eq_refl). by destruct mn.
  - pose proof (advance_spec mn mx b states []) as Ha. destruct (advance _ _ _ states []) as [next|].
    + assert (Hiff : (exists s, s ∈ states /\ continues (b :: value) mn mx s) <-> exists s, s ∈ next /\ continues value (tail mn) (tail mx) s).
      { split.
        - intros ([low high] & Hin & (c & l & h & Hc & El & Eh & Ht)%continues_cons). exists (l, h). split; [|done]. apply Ha. right. exists (low, high), c. auto.
        - intros ([l h] & [?%elem_of_nil|([low high] & c & Hst & Hc & El & Eh)]%Ha & Ht); [done|]. exists (low, high). split; [done|]. apply continues_cons. eauto 10. }
      rewrite Hiff. destruct next as [|s next]; [split; [done|]; by intros (s & ?%elem_of_nil & _)|].
      replace (length mn <=? length (b :: value))%nat with (length (tail mn) <=? length value)%nat by (destruct mn; [done|]; cbn; by destruct value). apply IH.
    + split; [|done]. intros _. exists (false, false). split; [done|]. exists (b :: value). split_and!; done.
Qed.

Lemma spelling_range_iff value mn mx :
  spelling_in_range value mn mx = true <-> exists s, lower_all s = lower_all value /\ bytes_leb mn s = true /\ bytes_leb s mx = true.
Proof.
  unfold spelling_in_range. rewrite spell_loop_spec by done. split.
  - intros (s & ->%list_elem_of_singleton & t & Ht & Hl & Hh). exists t. auto.
  - intros (t & Ht & Hl & Hh). exists (true, true). split; [by left|]. exists t. auto.
Qed.

(** The walk over a row group's exact statistics is exact: it accepts exactly when some
    spelling of the value, up to ASCII case, lies between the two bounds in byte order. *)
Theorem spelling_in_range_exact value mn mx :
  spelling_in_range value mn mx = true <-> exists s, lower_all s = lower_all value /\ bytes_leb mn s = true /\ bytes_leb s mx = true.
Proof. apply spelling_range_iff. Qed.

(** ** The spellings a filter is probed with *)

(** The loop of [spellings]. *)
Fixpoint spell_all (index : nat) (value : list Z) (values : list (list Z)) : list (list Z) :=
  match value with
  | [] => values
  | b :: value =>
      spell_all (S index) value
        (if ascii_alphabetic b then values ++ ((fun s : list Z => <[index := to_ascii_uppercase b]> s) <$> values) else values)
  end.
(** [spellings]: none past eight letters. *)
Definition spellings (value : Text) : option (list (list Z)) :=
  if negb (all_ascii value) || (8 <? length (filter (fun b => ascii_alphabetic b = true) (utf8 value)))%nat then None
  else Some (spell_all 0 (utf8 value) [lower_all (utf8 value)]).
(** [INGEST_LOWERCASED_BLOOM_PATHS] *)
Definition INGEST_LOWERCASED_BLOOM_PATHS : list string :=
  ["src_endpoint.ip"; "dst_endpoint.ip"; "src_endpoint.hostname"; "dst_endpoint.hostname"; "device.hostname"; "src_endpoint.mac"; "dst_endpoint.mac"].
(** [spellings_for] *)
Definition spellings_for (path : string) (value : Text) : option (list (list Z)) :=
  if bool_decide (path ∈ INGEST_LOWERCASED_BLOOM_PATHS) then (if all_ascii value then Some [lower_all (utf8 value)] else None) else spellings value.

(** After the first [i] bytes: every spelling whose other letters are in lower case. *)
Definition spelled (v : list Z) (i : nat) (values : list (list Z)) : Prop :=
  forall s, s ∈ values <-> spelling_of v s /\ drop i s = lower_all (drop i v).

Lemma lower_lookup (v : list Z) i : (lower_all v : list Z) !! i = to_ascii_lowercase <$> v !! i.
Proof. apply list_lookup_fmap. Qed.
Lemma lower_drop (v : list Z) i : lower_all (drop i v) = drop i (lower_all v : list Z).
Proof. unfold lower_all. by rewrite fmap_drop. Qed.

Lemma spelled_lower (v s : list Z) i b : spelling_of v s -> v !! i = Some b -> exists c : Z, s !! i = Some c /\ c ∈ case_choices b.
Proof.
  intros Hs Hv. apply (f_equal (fun l : list Z => l !! i)) in Hs. rewrite !lower_lookup, Hv in Hs. destruct (s !! i) as [c|]; [|done]. injection Hs as Hs. exists c. split; [done|by apply elem_of_choices].
Qed.

Lemma spelled_step (v : list Z) i b values : v !! i = Some b -> spelled v i values ->
  spelled v (S i) (if ascii_alphabetic b then values ++ ((fun s : list Z => <[i := to_ascii_uppercase b]> s) <$> values) else values).
Proof.
  intros Hb Hv s. unfold spelled in Hv.
  assert (Hdrop : forall u : list Z, u !! i = Some (to_ascii_lowercase b) -> (drop i u = lower_all (drop i v) <-> drop (S i) u = lower_all (drop (S i) v))).
  { intros u Hu. rewrite (drop_S u _ i Hu), (drop_S v b i Hb). unfold lower_all. cbn. split; [congruence|]. intros ->. done. }
  assert (Hat : forall u : list Z, drop i u = lower_all (drop i v) -> u !! i = Some (to_ascii_lowercase b)).
  { intros u Hu. apply (f_equal (fun l : list Z => l !! 0%nat)) in Hu. rewrite lower_drop, !lookup_drop, Nat.add_0_r, lower_lookup, Hb in Hu. done. }
  destruct (ascii_alphabetic b) eqn:Hal.
  - rewrite elem_of_app, Hv, list_elem_of_fmap. split.
    + intros [[Hs Hd]|(u & -> & [Hs Hd]%Hv)]; [split; [done|]; by apply Hdrop; [apply Hat|]|].
      pose proof (Hat u Hd) as Hu. pose proof (lookup_lt_Some _ _ _ Hu) as Hlt. split.
      * unfold spelling_of, lower_all in *. rewrite list_fmap_insert, <- Hs. apply list_insert_id. rewrite list_lookup_fmap, Hu. cbn. f_equal. ascii_solve.
      * rewrite drop_insert_lt by lia. by apply Hdrop.
    + intros [Hs Hd]. destruct (spelled_lower v s i b Hs Hb) as (c & Hc & Hch). pose proof (lookup_lt_Some _ _ _ Hc) as Hlt.
      unfold case_choices in Hch. rewrite elem_of_dedup, !elem_of_cons, elem_of_nil in Hch. destruct Hch as [->|[->|[]]]; [left; split; [done|by apply Hdrop]|right].
      exists (<[i := to_ascii_lowercase b]> s). split; [by rewrite list_insert_insert_eq, list_insert_id|]. apply Hv. split.
      * unfold spelling_of, lower_all in *. rewrite list_fmap_insert, <- Hs. apply list_insert_id. rewrite list_lookup_fmap, Hc. cbn. f_equal. ascii_solve.
      * apply Hdrop; [by apply list_lookup_insert_eq|]. by rewrite drop_insert_lt by lia.
  - rewrite Hv. split; intros [Hs Hd]; (split; [done|]).
    + by apply Hdrop; [apply Hat|].
    + apply Hdrop; [|done]. destruct (spelled_lower v s i b Hs Hb) as (c & Hc & Hch%elem_of_choices). rewrite Hc. f_equal. ascii_solve.
Qed.

Lemma spell_all_spec (v : list Z) i rest values : drop i v = rest -> spelled v i values -> forall s, s ∈ spell_all i rest values <-> spelling_of v s.
Proof.
  revert i values; induction rest as [|b rest IH]; intros i values Hr Hv s; cbn [spell_all].
  - unfold spelled in Hv. rewrite Hv, Hr. split; [tauto|]. intros Hs. split; [done|]. unfold spelling_of in Hs. apply (f_equal length) in Hs. unfold lower_all in Hs. rewrite !length_fmap in Hs.
    apply (f_equal length) in Hr. rewrite length_drop in Hr. cbn in Hr. apply drop_ge. lia.
  - assert (Hb : v !! i = Some b) by (rewrite <- (Nat.add_0_r i), <- lookup_drop, Hr; done). apply IH; [|by apply spelled_step].
    by rewrite <- Nat.add_1_r, <- drop_drop, Hr.
Qed.

Lemma spellings_spec value l : spellings value = Some l -> forall s, s ∈ l <-> spelling_of (utf8 value) s.
Proof.
  unfold spellings. destruct (_ || _); [done|]. intros [= <-]. apply spell_all_spec; [done|]. intros s. rewrite list_elem_of_singleton, !drop_0. split; [intros ->|by intros [_ ?]].
  split; [|done]. unfold spelling_of, lower_all. rewrite <- list_fmap_compose. apply list_fmap_ext. intros. cbn. apply lowercase_idemp.
Qed.

(** ** Ranges of rows *)

(** The [match out.last_mut()] of [kept_ranges]; the ranges are kept in reverse. *)
Definition push_range (out : list (Z * Z)) (r : Z * Z) : list (Z * Z) :=
  match out with
  | (start, stop) :: rest => if stop =? r.1 then (start, r.2) :: rest else r :: out
  | [] => [r]
  end.
(** [kept_ranges] *)
Definition kept_ranges (mask : list bool) (ranges : list (Z * Z)) : list (Z * Z) :=
  reverse (foldl (fun out (kr : bool * (Z * Z)) => if kr.1 then push_range out kr.2 else out) [] (zip mask ranges)).

Abbreviation TRange := (Z * Z * option (Z * Z))%type.
Definition merge_times (a b : option (Z * Z)) : option (Z * Z) :=
  match a, b with Some (a, b), Some (c, d) => Some (Z.min a c, Z.max b d) | _, _ => None end.
Definition push_trange (out : list TRange) (r : TRange) : list TRange :=
  match out with
  | (start, stop, time) :: rest => if stop =? r.1.1 then (start, r.1.2, merge_times time r.2) :: rest else r :: out
  | [] => [r]
  end.
(** [kept_ranges_with_time]: times that do not fit the ranges are ignored. *)
Definition kept_ranges_with_time (mask : list bool) (ranges : list (Z * Z)) (times : option (list (Z * Z))) : list TRange :=
  let times := match times with Some ts => if (length ts =? length ranges)%nat then Some ts else None | None => None end in
  reverse (foldl (fun out (e : nat * (bool * (Z * Z))) =>
    if e.2.1 then push_trange out (e.2.2, (fun ts : list (Z * Z) => ts !!! e.1) <$> times) else out) [] (zip (seq 0 (length mask)) (zip mask ranges))).

Definition in_range (n : Z) (r : Z * Z) : Prop := r.1 <= n < r.2.

Lemma push_range_spec out r n : r.1 <= r.2 -> Forall (fun r : Z * Z => r.1 <= r.2) out ->
  Forall (fun r : Z * Z => r.1 <= r.2) (push_range out r) /\ (Exists (in_range n) (push_range out r) <-> in_range n r \/ Exists (in_range n) out).
Proof.
  intros Hr Hout. destruct r as [s e]. destruct out as [|[a b] rest]; cbn [push_range fst snd] in *.
  - split; [by repeat constructor|]. by rewrite Exists_cons.
  - apply Forall_cons in Hout as [Hab Hrest]. cbn in Hab. destruct (Z.eqb_spec b s) as [->|Hne].
    + split; [constructor; [cbn; lia|done]|]. rewrite !Exists_cons. unfold in_range. cbn. intuition lia.
    + split; [by repeat constructor|]. by rewrite !Exists_cons.
Qed.

Lemma kept_fold n l out : Forall (fun e : bool * (Z * Z) => e.2.1 <= e.2.2) l -> Forall (fun r : Z * Z => r.1 <= r.2) out ->
  Exists (in_range n) (foldl (fun out (kr : bool * (Z * Z)) => if kr.1 then push_range out kr.2 else out) out l)
  <-> Exists (in_range n) out \/ Exists (fun e : bool * (Z * Z) => e.1 = true /\ in_range n e.2) l.
Proof.
  intros Hl. revert out. induction Hl as [|[k r] l Hr _ IH]; intros out Hout; cbn [foldl]; [rewrite Exists_nil; tauto|]. rewrite Exists_cons. cbn [fst snd] in *. destruct k.
  - destruct (push_range_spec out r n Hr Hout) as [Hf Hp]. rewrite IH by done. rewrite Hp. intuition.
  - rewrite IH by done. intuition congruence.
Qed.

Lemma ranges_zip mask (ranges : list (Z * Z)) : Forall (fun r : Z * Z => r.1 <= r.2) ranges -> Forall (fun e : bool * (Z * Z) => e.2.1 <= e.2.2) (zip mask ranges).
Proof. rewrite !Forall_forall. intros Hr [k r] Hin%elem_of_zip_r. by apply Hr. Qed.

Lemma kept_ranges_iff mask ranges n : Forall (fun r : Z * Z => r.1 <= r.2) ranges ->
  Exists (in_range n) (kept_ranges mask ranges) <-> exists k r, mask !! k = Some true /\ ranges !! k = Some r /\ in_range n r.
Proof.
  intros Hr. unfold kept_ranges. rewrite Exists_exists. setoid_rewrite elem_of_reverse. rewrite <- Exists_exists. rewrite kept_fold; [|by apply ranges_zip|constructor]. rewrite Exists_nil, Exists_exists.
  split.
  - intros [[]|([k r] & (i & Hi)%list_elem_of_lookup & Hk & Hn)]. cbn in *. subst. apply lookup_zip_Some in Hi as [? ?]. eauto.
  - intros (k & r & Hm & Hrk & Hn). right. exists (true, r). split; [|done]. apply list_elem_of_lookup. exists k. apply lookup_zip_Some. done.
Qed.

(** Merging adjacent kept row groups neither loses nor adds a row: a row number is in one
    of the merged ranges exactly when it is in the range of a kept row group. *)
Theorem kept_ranges_exact mask ranges n : Forall (fun r : Z * Z => r.1 <= r.2) ranges ->
  Exists (in_range n) (kept_ranges mask ranges) <-> exists k r, mask !! k = Some true /\ ranges !! k = Some r /\ in_range n r.
Proof. apply kept_ranges_iff. Qed.
Lemma kept_ranges_exact_witness :
  Exists (in_range 12) (kept_ranges [true; false; true; true] [(0, 5); (5, 9); (9, 11); (11, 20)]) <->
  exists k r, [true; false; true; true] !! k = Some true /\ [(0, 5); (5, 9); (9, 11); (11, 20)] !! k = Some r /\ in_range 12 r.
Proof. apply kept_ranges_exact. repeat constructor; cbn; lia. Defined.
Example kept_ranges_merged : kept_ranges [true; false; true; true] [(0, 5); (5, 9); (9, 11); (11, 20)] = [(0, 5); (9, 20)].
Proof. reflexivity. Qed.

(** A range with a time bounds the times of its rows. *)
Definition holds_at (n t : Z) (r : TRange) : Prop := in_range n r.1 /\ forall x, r.2 = Some x -> x.1 <= t <= x.2.

Lemma push_trange_keeps out (r : TRange) n t : r.1.1 <= r.1.2 -> Forall (fun r : TRange => r.1.1 <= r.1.2) out ->
  Forall (fun r : TRange => r.1.1 <= r.1.2) (push_trange out r) /\ (holds_at n t r \/ Exists (holds_at n t) out -> Exists (holds_at n t) (push_trange out r)).
Proof.
  intros Hr Hout. destruct r as [[s e] tm]. destruct out as [|[[a b] tm'] rest]; cbn [push_trange fst snd] in *.
  - split; [by repeat constructor|]. rewrite Exists_cons. tauto.
  - apply Forall_cons in Hout as [Hab Hrest]. cbn in Hab. destruct (Z.eqb_spec b s) as [->|Hne]; [|split; [by repeat constructor|rewrite !Exists_cons; tauto]].
    split; [constructor; [cbn; lia|done]|]. rewrite !Exists_cons. unfold holds_at, in_range. cbn [fst snd].
    intros [[Hn Ht]|[[Hn Ht]|?]]; [left|left|by right]; (split; [lia|]); intros x Hx; destruct tm' as [[c d]|], tm as [[c' d']|]; try done; injection Hx as <-; specialize (Ht _ eq_refl); cbn in *; lia.
Qed.

Lemma ranges_with_time_keep mask ranges times k r n t : Forall (fun r : Z * Z => r.1 <= r.2) ranges -> mask !! k = Some true -> ranges !! k = Some r -> in_range n r ->
  (forall ts b, times = Some ts -> ts !! k = Some b -> b.1 <= t <= b.2) -> Exists (holds_at n t) (kept_ranges_with_time mask ranges times).
Proof.
  intros Hr Hm Hrk Hn Ht. unfold kept_ranges_with_time. set (times' := match times with Some ts => _ | None => None end).
  assert (Ht' : forall ts, times' = Some ts -> length ts = length ranges /\ forall b, ts !! k = Some b -> b.1 <= t <= b.2).
  { intros ts. unfold times'. destruct times as [ts'|]; [|done]. destruct (Nat.eqb_spec (length ts') (length ranges)); [|done]. intros [= <-]. split; [done|]. intros b. by apply Ht. }
  clearbody times'. rewrite Exists_exists. setoid_rewrite elem_of_reverse. rewrite <- Exists_exists.
  assert (Hin : (k, (true, r)) ∈ zip (seq 0 (length mask)) (zip mask ranges)).
  { apply list_elem_of_lookup. exists k. apply lookup_zip_Some. split; [apply lookup_seq; split; [lia|by apply lookup_lt_Some in Hm]|]. by apply lookup_zip_Some. }
  assert (Hall : Forall (fun e : nat * (bool * (Z * Z)) => e.2.2.1 <= e.2.2.2) (zip (seq 0 (length mask)) (zip mask ranges))).
  { pose proof (ranges_zip mask ranges Hr) as Hz. apply Forall_forall. intros [i e] Hi%elem_of_zip_r. rewrite Forall_forall in Hz. by apply (Hz e). }
  revert Hin Hall. generalize (zip (seq 0 (length mask)) (zip mask ranges)). intros l Hin Hall.
  set (step := fun (out : list TRange) (e : nat * (bool * (Z * Z))) => _). assert (Hgen : forall out, Forall (fun r : TRange => r.1.1 <= r.1.2) out ->
    Exists (holds_at n t) out \/ (k, (true, r)) ∈ l -> Exists (holds_at n t) (foldl step out l)).
  { clear Hin. induction Hall as [|[i [kp r0]] l Hr0 _ IH]; intros out Hout Hex; cbn [foldl]; [by destruct Hex as [?|?%elem_of_nil]|]. cbn [fst snd] in Hr0. unfold step at 2. cbn [fst snd]. destruct kp.
    - match goal with |- context [push_trange out ?x] => destruct (push_trange_keeps out x n t Hr0 Hout) as [Hf Hp] end. apply IH; [done|].
      destruct Hex as [?|[[= <- <-]|?]%elem_of_cons]; [left; auto| |by right]. left. apply Hp. left. split; [done|]. cbn [snd]. intros x Hx. destruct times' as [ts|]; [|done]. injection Hx as <-.
      destruct (Ht' ts eq_refl) as [Hl Hb]. destruct (lookup_lt_is_Some_2 ts k) as [b Hbk]; [rewrite Hl; by apply lookup_lt_Some in Hrk|]. rewrite (list_lookup_total_correct _ _ _ Hbk). by apply Hb.
    - apply IH; [done|]. destruct Hex as [?|[?|?]%elem_of_cons]; [by left|done|by right]. }
  apply Hgen; [constructor|by right].
Qed.
