(* ===== verification/FilePrune.v ===== *)
(** * FilePrune: what a data file's footer lets a search skip

    Models the file half of [part_query/prune.rs]: the compact summary of a Parquet footer
    ([FileSummary]), the source-family, class, entity and indicator decisions on a row group,
    their combination with the token index, and the evidence of a file. The Parquet metadata
    is plain data; reading a bloom filter from the file is a parameter. *)
From S2P Require Import Prelude Bytes TokenCounts BlockIndex TextTokens Keywords Addresses TokenIndex Prune PruneSafety Spellings.

(** ** Parquet metadata *)

(** [parquet::file::statistics::Statistics]: optional bounds with their exactness. *)
Inductive Statistics :=
| SInt32 (mn mx : option Z) (mn_exact mx_exact : bool)
| SInt64 (mn mx : option Z) (mn_exact mx_exact : bool)
| SByteArray (mn mx : option Bytes) (mn_exact mx_exact : bool)
| SOther.
Record ColumnChunk := { cc_stats : option Statistics; bloom_offset : option Z; bloom_length : option Z; compressed_size : Z }.
#[export] Instance column_chunk_inhabited : Inhabited ColumnChunk := populate {| cc_stats := None; bloom_offset := None; bloom_length := None; compressed_size := 0 |}.
(** A leaf column: its path, its repetition level, whether its logical type is a signed
    integer ([class_has_integer_type]). *)
Record Column := { col_parts : list string; max_rep_level : Z; integer_type : bool }.
Record RowGroup := { num_rows : Z; rg_columns : list ColumnChunk }.
Record Footer := { ft_columns : list Column; ft_groups : list RowGroup; ft_marker : bool }.
Definition path_string (c : Column) : string := String.concat "." (col_parts c).

(** ** Indicators (nanosiem-core, search/lake_indicators.rs) *)

Inductive Kind := Domain.
#[export] Instance kind_eq_dec : EqDecision Kind.
Proof. solve_decision. Defined.
(** [Kind::column], [Kind::of_column] *)
Definition kind_column (k : Kind) : string := match k with Domain => "nano_ioc_domains" end.
Definition of_column (column : string) : option Kind := if String.eqb column (kind_column Domain) then Some Domain else None.
Definition ends_with (suffix s : string) : bool := match strip_suffix suffix s with Some _ => true | None => false end.
(** [classify] *)
Definition classify (path : string) : option Kind :=
  match rev (Prelude.split_on "."%char path) with
  | [] => None
  | last :: rest =>
      let parent := match rest with p :: _ => p | [] => "" end in
      if (String.eqb parent "query" || String.eqb parent "url") && String.eqb last "hostname" then Some Domain else
      if String.eqb last "domain" && ends_with "endpoint" parent then Some Domain else None
  end.
(** [probe] *)
Definition probe (value : Text) : option Bytes := if all_ascii value then Some (lower_all (utf8 value)) else None.

(** ** Summaries *)

Inductive BloomAt := Absent | At (offset length : Z) | Unlocated.
Record EntityGroup := { eg_min : option Bytes; eg_max : option Bytes; eg_bloom : BloomAt }.
Definition ENTITY_STAT_MAX_BYTES : nat := 128.
Definition keep_short (v : option Bytes) : option Bytes :=
  match v with Some v => if (length v <=? ENTITY_STAT_MAX_BYTES)%nat then Some v else None | None => None end.
(** [EntityGroup::of]; a negative offset or length does not convert. *)
Definition EntityGroup_of (c : ColumnChunk) : EntityGroup :=
  let '(mn, mx) := match cc_stats c with
                   | Some (SByteArray mn mx true true) => (keep_short mn, keep_short mx)
                   | _ => (None, None)
                   end in
  {| eg_min := mn; eg_max := mx;
     eg_bloom := match bloom_offset c, bloom_length c with
                 | None, _ => Absent
                 | Some offset, Some len => if (0 <=? offset) && (0 <=? len) then At offset len else Unlocated
                 | Some _, None => Unlocated
                 end |}.
Definition is_unlocated (g : EntityGroup) : bool := match eg_bloom g with Unlocated => true | _ => false end.

(** [leaf_event_path]: the LIST wrapper levels are dropped. *)
Fixpoint leaf_parts (skip_next : bool) (parts : list string) : list string :=
  match parts with
  | [] => []
  | part :: parts =>
      if skip_next then leaf_parts false parts else
      if String.eqb part "list" then leaf_parts true parts else part :: leaf_parts false parts
  end.
Definition leaf_event_path (parts : list string) : string := String.concat "." (leaf_parts false parts).
(** [leaf_absent]: no leaf is the path, above it or below it. *)
Definition leaf_related (path leaf : string) : bool :=
  String.eqb leaf path
  || from_option (starts_with ".") false (strip_prefix leaf path)
  || from_option (starts_with ".") false (strip_prefix path leaf).
Definition leaf_absent (leaves : list string) (path : string) : bool := negb (existsb (leaf_related path) leaves).

(** [indicator_leaf_kind] *)
Definition indicator_leaf_kind (parts : list string) : option Kind :=
  match parts with
  | [column; l; i] => if String.eqb l "list" && String.eqb i "item" then of_column column else None
  | _ => None
  end.

(** [class_bounds] *)
Definition ordered (mn mx : option Z) : option (Z * Z) :=
  match mn, mx with Some mn, Some mx => if mn <=? mx then Some (mn, mx) else None | _, _ => None end.
Definition class_bounds (s : option Statistics) : option (Z * Z) :=
  match s with
  | Some (SInt32 mn mx true true) | Some (SInt64 mn mx true true) => ordered mn mx
  | _ => None
  end.
(** The time statistics of a group. *)
Definition time_bounds_of (s : option Statistics) : option (Z * Z) :=
  match s with
  | Some (SInt64 (Some mn) (Some mx) true true) => Some (mn, mx)
  | _ => None
  end.

(** *** The compressed bytes of the leaves *)

(** [ColumnBytes]: the interned leaf paths and the flat, column-major byte counts. *)
Record ColumnBytes := { cb_paths : option (list string); cb_bytes : list Z }.
(** [ColumnBytes::new]: a ragged inventory is dropped. *)
Definition ColumnBytes_new (columns : list (string * list Z)) : ColumnBytes :=
  match columns with
  | [] => {| cb_paths := None; cb_bytes := [] |}
  | (_, first) :: _ =>
      if existsb (fun c => negb (length c.2 =? length first)%nat) columns then {| cb_paths := None; cb_bytes := [] |}
      else {| cb_paths := Some columns.*1; cb_bytes := mjoin columns.*2 |}
  end.
(** [paths] *)
Definition paths (c : ColumnBytes) : list string := default [] (cb_paths c).
(** [is_empty] *)
Definition cb_is_empty (c : ColumnBytes) : bool := bool_decide (paths c = []).
(** [iter]: the slice of each path. *)
Definition cb_iter (c : ColumnBytes) : list (string * list Z) :=
  let ps := paths c in
  let groups := if bool_decide (ps = []) then O else (length (cb_bytes c) / length ps)%nat in
  imap (fun i path => (path, take groups (drop (i * groups) (cb_bytes c)))) ps.
Lemma cb_iter_paths c : (cb_iter c).*1 = paths c.
Proof. unfold cb_iter. rewrite fmap_imap. rewrite <- (list_fmap_id (paths c)) at 2. rewrite <- imap_const. by apply imap_ext. Qed.
(** Columns with a count per group keep their paths and slices. *)
Lemma ColumnBytes_paths columns n : Forall (fun c : string * list Z => length c.2 = n) columns -> paths (ColumnBytes_new columns) = columns.*1.
Proof.
  destruct columns as [|[p first] columns]; [done|]. intros Hn. unfold ColumnBytes_new. destruct (existsb _ _) eqn:E; [|done]. exfalso.
  apply existsb_exists in E as (c & Hc & Hl). rewrite Forall_forall in Hn. apply negb_true_iff, Nat.eqb_neq in Hl.
  pose proof (Hn (p, first) (list_elem_of_here _ _)) as H1. cbn in H1. rewrite (Hn c) in Hl; [lia|]. by apply list_elem_of_In.
Qed.

Record FileSummary := {
  ranges : list (Z * Z);
  group_times : option (list (option (Z * Z)));
  entities : list (string * list EntityGroup);
  entities_located : bool;
  column_bytes : ColumnBytes;
  source_family : list EntityGroup;
  class_groups : list (option (Z * Z));
  indicators : bool }.

(** [iter().position(..)] *)
Definition position {A} (f : A -> bool) : list A -> nat -> option nat :=
  fix go (l : list A) (i : nat) := match l with [] => None | x :: l => if f x then Some i else go l (S i) end.
(** The chunk of a column in each row group. *)
Definition column_chunks (f : Footer) (index : nat) : list ColumnChunk := (fun g => rg_columns g !!! index) <$> ft_groups f.
Definition SOURCE_FAMILY_PATH : string := "metadata.log_source".
Definition CLASS_PATH : string := "class_uid".
Definition TIME_COLUMN : string := "time".
(** [BLOOM_PATHS]: [tail_predicate::IDENTITY_PATHS] *)
Definition BLOOM_PATHS : list string :=
  ["user.name"; "user.uid"; "actor.user.name"; "actor.user.uid"; "src_endpoint.ip"; "dst_endpoint.ip"; "src_endpoint.hostname"; "dst_endpoint.hostname";
   "device.hostname"; "src_endpoint.mac"; "dst_endpoint.mac"; "process.name"; "process.uid"; "file_hash"; "process_hash"; "file.hashes.value";
   "process.file.hashes.value"; "actor.process.file.hashes.value"; "actor.process.name"; "actor.process.uid"; "metadata.uid"; "device.ip"; "device.uid";
   "user.email_addr"; "actor.user.email_addr"; "actor.process.user.name"].

(** The ranges of the groups; [None] when a row count is negative or the sum leaves [u64]. *)
Fixpoint group_ranges (start : Z) (groups : list RowGroup) : option (list (Z * Z)) :=
  match groups with
  | [] => Some []
  | g :: groups =>
      if (num_rows g <? 0) || (u64_max <? start + num_rows g) then None else cons (start, start + num_rows g) <$> group_ranges (start + num_rows g) groups
  end.
(** The name a column's evidence is kept under. *)
Definition entity_name (f : Footer) (c : Column) : option string :=
  match (if ft_marker f && (max_rep_level c =? 1) then indicator_leaf_kind (col_parts c) else None) with
  | Some kind => Some (kind_column kind)
  | None => if negb (max_rep_level c =? 0) || negb (bool_decide (path_string c ∈ BLOOM_PATHS)) then None else Some (path_string c)
  end.
Definition entity_columns (f : Footer) : list (string * list EntityGroup) :=
  omap (fun ic : nat * Column => (fun name => (name, EntityGroup_of <$> column_chunks f ic.1)) <$> entity_name f ic.2)
    (zip (seq 0 (length (ft_columns f))) (ft_columns f)).
(** [u32::try_from(..).unwrap_or(u32::MAX)] *)
Definition sat_u32 (n : Z) : Z := if (n <? 0) || (u32_max <? n) then u32_max else n.
Definition inventory (f : Footer) : list (string * list Z) :=
  imap (fun i c => (leaf_event_path (col_parts c), (fun ch => sat_u32 (compressed_size ch)) <$> column_chunks f i)) (ft_columns f).
Lemma inventory_paths f : paths (ColumnBytes_new (inventory f)) = (fun c => leaf_event_path (col_parts c)) <$> ft_columns f.
Proof.
  rewrite (ColumnBytes_paths _ (length (ft_groups f))).
  - unfold inventory. rewrite fmap_imap. rewrite <- (imap_const (fun c => leaf_event_path (col_parts c))). by apply imap_ext.
  - apply Forall_forall. intros c Hc. unfold inventory in Hc. apply elem_of_lookup_imap in Hc as (i & d & -> & _). unfold column_chunks. cbn. by rewrite !length_fmap.
Qed.
(** [FileSummary::of] *)
Definition FileSummary_of (f : Footer) : option FileSummary :=
  match group_ranges 0 (ft_groups f) with
  | None => None
  | Some rs =>
      let columns := ft_columns f in
      Some {| ranges := rs;
              group_times := (fun i => (fun c => time_bounds_of (cc_stats c)) <$> column_chunks f i) <$> position (fun c => String.eqb (path_string c) TIME_COLUMN) columns 0;
              entities := entity_columns f;
              entities_located := forallb (fun e => forallb (fun g => negb (is_unlocated g)) e.2) (entity_columns f);
              column_bytes := ColumnBytes_new (inventory f);
              source_family := from_option (fun i => EntityGroup_of <$> column_chunks f i) []
                                 (position (fun c => (max_rep_level c =? 0) && String.eqb (path_string c) SOURCE_FAMILY_PATH) columns 0);
              class_groups := from_option (fun i => (fun c => class_bounds (cc_stats c)) <$> column_chunks f i) []
                                (position (fun c => (max_rep_level c =? 0) && String.eqb (path_string c) CLASS_PATH && integer_type c) columns 0);
              indicators := ft_marker f |}
  end.

(** ** Families and classes *)

(** [eq_ignore_ascii_case] *)
Definition eq_ignore_ascii_case (a b : Bytes) : bool := bool_decide (lower_all a = lower_all b).

(** [source_family_hint], [source_family_may_match] *)
Fixpoint source_family_hint (log_sources : list Text) (hint : CandidateHint) : bool :=
  match hint with
  | SourceFamily value =>
      if negb (all_ascii value) || existsb (fun s => negb (all_ascii s)) log_sources then true
      else existsb (fun s => eq_ignore_ascii_case (utf8 s) (utf8 value)) log_sources
  | Any alternatives => match alternatives with [] => true | _ => existsb (source_family_hint log_sources) alternatives end
  | _ => true
  end.
Definition source_family_may_match (log_sources : option (list Text)) (hints : list CandidateHint) : bool :=
  match log_sources with None => true | Some l => forallb (source_family_hint l) hints end.
(** [class_hint], [class_may_match], [file_family_may_match] *)
Fixpoint class_hint (class_id : Z) (hint : CandidateHint) : bool :=
  match hint with
  | Class_ value => value =? class_id
  | Any alternatives => match alternatives with [] => true | _ => existsb (class_hint class_id) alternatives end
  | _ => true
  end.
Definition class_may_match (class_id : option Z) (hints : list CandidateHint) : bool :=
  match class_id with None => true | Some c => forallb (class_hint c) hints end.
Definition file_family_may_match (log_sources : option (list Text)) (class_id : option Z) (hints : list CandidateHint) : bool :=
  source_family_may_match log_sources hints && class_may_match class_id hints.

(** [uses_source_family], [uses_class], [uses_entities], [needs_combined] *)
Fixpoint uses_family (hint : CandidateHint) : bool :=
  match hint with SourceFamily _ => true | Any alternatives => existsb uses_family alternatives | _ => false end.
Definition uses_source_family (hints : list CandidateHint) : bool := existsb uses_family hints.
Fixpoint uses_class_hint (hint : CandidateHint) : bool :=
  match hint with Class_ _ => true | Any alternatives => existsb uses_class_hint alternatives | _ => false end.
Definition uses_class (hints : list CandidateHint) : bool := existsb uses_class_hint hints.
Fixpoint uses_entity (hint : CandidateHint) : bool :=
  match hint with Entity _ _ => true | Any alternatives => existsb uses_entity alternatives | _ => false end.
Definition uses_entities (hints : list CandidateHint) : bool := existsb uses_entity hints.

(** [family_range_may_match], [family_range_hint] *)
Definition family_range_may_match (g : EntityGroup) (value : Text) : bool :=
  match eg_min g, eg_max g with
  | Some mn, Some mx => if negb (all_ascii value) then true else spelling_in_range (utf8 value) mn mx
  | _, _ => true
  end.
Fixpoint family_range_hint (g : EntityGroup) (hint : CandidateHint) : bool :=
  match hint with
  | SourceFamily value => family_range_may_match g value
  | Any alternatives => match alternatives with [] => true | _ => existsb (family_range_hint g) alternatives end
  | _ => true
  end.
(** [class_range_hint] *)
Fixpoint class_range_hint (bounds : option (Z * Z)) (hint : CandidateHint) : bool :=
  match hint with
  | Class_ value => match bounds with None => true | Some (mn, mx) => (mn <=? value) && (value <=? mx) end
  | Any alternatives => match alternatives with [] => true | _ => existsb (class_range_hint bounds) alternatives end
  | _ => true
  end.

(** [FileSummary::source_family_mask] *)
Definition source_family_mask (s : FileSummary) (hints : list CandidateHint) : option (list bool) :=
  if negb (uses_source_family hints) || negb (length (source_family s) =? length (ranges s))%nat then None
  else Some ((fun g => forallb (family_range_hint g) hints) <$> source_family s).
(** [FileSummary::class_mask]: every group or no evidence *)
Definition class_mask (s : FileSummary) (hints : list CandidateHint) : option (list bool) :=
  if negb (uses_class hints) || negb (length (class_groups s) =? length (ranges s))%nat || bool_decide (ranges s = []) then None else
  if forallb (fun b => negb (forallb (class_range_hint b) hints)) (class_groups s) then Some (replicate (length (ranges s)) false) else None.
(** [FileSummary::entity], [FileSummary::lacks_leaf] *)
Definition entity (s : FileSummary) (path : string) : option (list EntityGroup) := snd <$> List.find (fun e => String.eqb e.1 path) (entities s).
Definition lacks_leaf (s : FileSummary) (path : string) : bool := 
  negb (cb_is_empty (column_bytes s)) && leaf_absent (cb_iter (column_bytes s)).*1 path.

(** [Membership::touches]: a bucket at or after the bucket of [min_us], up to [max_us]. *)
Definition COUNT_ROLLUP_BUCKET_US : Z := 300000000.
Definition touches (buckets : gset Z) (min_us max_us : Z) : bool :=
  let first := wrap_i64 (min_us / COUNT_ROLLUP_BUCKET_US * COUNT_ROLLUP_BUCKET_US) in
  existsb (fun b => (first <=? b) && (b <=? max_us)) (elements buckets).
(** [FileSummary::time_mask], [FileSummary::time_bounds] *)
Definition time_mask (s : FileSummary) (buckets : gset Z) : option (list bool) :=
  (fun ts : list (option (Z * Z)) => (fun b : option (Z * Z) => match b with None => true | Some (mn, mx) => touches buckets mn mx end) <$> ts) <$> group_times s.
Definition time_bounds (s : FileSummary) : option (list (Z * Z)) := group_times s ≫= mapM (fun b => b).

(** [and] *)
Definition and_masks (left right : option (list bool)) : option (list bool) :=
  match left, right with
  | None, other | other, None => other
  | Some a, Some b => if (length a =? length b)%nat then Some (zip_with andb a b) else None
  end.

(** ** Entity evidence *)

Section Evidence.
Context `{Unicode, XxHash, Xorf, Sbbf, FilterSize, Ipv6Parser}.

(** Where the entity evidence comes from: the opened footer with a reader of a chunk's
    filter, the summary with a reader at an offset, or the summary with parsed filters. *)
Inductive Blooms :=
| BFooter (footer : Footer) (chunk_bloom : nat -> nat -> option sbbf)
| BSummary (summary : FileSummary) (read_at : Z -> Z -> option sbbf)
| BParsed (summary : FileSummary) (parsed : list (string * list (option sbbf))).

Definition MAX_BLOOM_READ : Z := 67108864.
(** [read_bloom_at] *)
Definition read_bloom_at (read_at : Z -> Z -> option sbbf) (offset len : Z) : option sbbf := if MAX_BLOOM_READ <? len then None else read_at offset len.

Definition at_least (mn : option Bytes) (v : Bytes) : bool := match mn with None => true | Some mn => bytes_leb mn v end.
Definition at_most (mx : option Bytes) (v : Bytes) : bool := match mx with None => true | Some mx => bytes_leb v mx end.
Definition is_absent (g : EntityGroup) : bool := match eg_bloom g with Absent => true | _ => false end.
Definition bloom_may_hold (bloom : option sbbf) (v : Bytes) : bool := match bloom with None => true | Some f => sbbf_check f v end.

(** [may_contain]: the decision over a group's statistics and filter *)
Definition group_may_contain (g : EntityGroup) (path : string) (value : Text) (bloom : option sbbf) : option bool :=
  if match eg_min g, eg_max g with
     | Some mn, Some mx => bool_decide (mn = mx) && all_ascii mn && negb (eq_ignore_ascii_case mn (utf8 value))
     | _, _ => false
     end then Some false else
  match spellings_for path value with
  | None => None
  | Some variants =>
      match filter (fun v => at_least (eg_min g) v && at_most (eg_max g) v = true) variants with
      | [] => Some false
      | remaining => if is_absent g then Some true else Some (existsb (bloom_may_hold bloom) remaining)
      end
  end.
(** [indicator_contains] *)
Definition indicator_contains (g : EntityGroup) (probe : Bytes) (bloom : option sbbf) : option bool :=
  if from_option (bytes_ltb probe) false (eg_min g) || from_option (fun mx => bytes_ltb mx probe) false (eg_max g) then Some false else
  if is_absent g then Some true else Some (bloom_may_hold bloom probe).

(** The filter of a group of the summary. *)
Definition summary_bloom (read_at : Z -> Z -> option sbbf) (g : EntityGroup) : option sbbf :=
  match eg_bloom g with At offset len => read_bloom_at read_at offset len | _ => None end.
Definition parsed_bloom (parsed : list (string * list (option sbbf))) (path : string) (group : nat) : option sbbf :=
  match List.find (fun e => String.eqb e.1 path) parsed with Some e => default None (e.2 !! group) | None => None end.
Definition footer_column (f : Footer) (p : Column -> bool) : option nat := position p (ft_columns f) 0.

(** [Blooms::may_contain] *)
Definition summary_contains (s : FileSummary) (group : nat) (path : string) (value : Text) (bloom : EntityGroup -> option sbbf) : option bool :=
  match entity s path with
  | None => if lacks_leaf s path then Some false else None
  | Some groups => match groups !! group with None => None | Some g => group_may_contain g path value (bloom g) end
  end.
Definition blooms_may_contain (b : Blooms) (group : nat) (path : string) (value : Text) : option bool :=
  if negb (bool_decide (path ∈ BLOOM_PATHS)) || negb (all_ascii value) then None else
  match b with
  | BFooter f chunk_bloom =>
      match footer_column f (fun c => String.eqb (path_string c) path && (max_rep_level c =? 0)) with
      | None =>
          let leaves := (fun c => leaf_event_path (col_parts c)) <$> ft_columns f in
          if negb (bool_decide (leaves = [])) && leaf_absent leaves path then Some false else None
      | Some i => group_may_contain (EntityGroup_of (column_chunks f i !!! group)) path value (chunk_bloom i group)
      end
  | BSummary s read_at => summary_contains s group path value (summary_bloom read_at)
  | BParsed s parsed => summary_contains s group path value (fun _ => parsed_bloom parsed path group)
  end.
(** [Blooms::indicator_may_contain] *)
Definition summary_indicator (s : FileSummary) (group : nat) (kind : Kind) (probe : Bytes) (bloom : EntityGroup -> option sbbf) : option bool :=
  if negb (indicators s) then None else
  match entity s (kind_column kind) with
  | None => None
  | Some groups => match groups !! group with None => None | Some g => indicator_contains g probe (bloom g) end
  end.
Definition indicator_may_contain (b : Blooms) (group : nat) (kind : Kind) (value : Text) : option bool :=
  match probe value with
  | None => None
  | Some p =>
      match b with
      | BFooter f chunk_bloom =>
          if negb (ft_marker f) then None else
          match footer_column f (fun c => (max_rep_level c =? 1) && bool_decide (indicator_leaf_kind (col_parts c) = Some kind)) with
          | None => None
          | Some i => indicator_contains (EntityGroup_of (column_chunks f i !!! group)) p (chunk_bloom i group)
          end
      | BSummary s read_at => summary_indicator s group kind p (summary_bloom read_at)
      | BParsed s parsed => summary_indicator s group kind p (fun _ => parsed_bloom parsed (kind_column kind) group)
      end
  end.
(** [Blooms::entity_keep] *)
Definition entity_keep (b : Blooms) (group : nat) (path : string) (value : Text) : bool :=
  if bool_decide (blooms_may_contain b group path value = Some false) then false else
  match classify path with None => true | Some kind => negb (bool_decide (indicator_may_contain b group kind value = Some false)) end.

(** [combined_hint], [entity_hint] *)
Fixpoint combined_hint (bloom : option Blooms) (group : nat) (tokens : option TokenGroup) (hint : CandidateHint) : bool :=
  match hint with
  | Entity source_path value =>
      from_option (fun b => entity_keep b group source_path value) true bloom && from_option (fun g => token_hint g hint) true tokens
  | SourceFamily _ | Class_ _ => true
  | Keyword _ _ => from_option (fun g => token_hint g hint) true tokens
  | Any alternatives => match alternatives with [] => true | _ => existsb (combined_hint bloom group tokens) alternatives end
  end.
Fixpoint entity_hint (bloom : Blooms) (group : nat) (hint : CandidateHint) : bool :=
  match hint with
  | Entity source_path value => entity_keep bloom group source_path value
  | Any alternatives => match alternatives with [] => true | _ => existsb (entity_hint bloom group) alternatives end
  | SourceFamily _ | Class_ _ | Keyword _ _ => true
  end.

(** The masks of [FileMetadataCache::evidence_of_tokens], over the file's summary and the
    evidence its caches give. *)
Definition hint_mask (s : FileSummary) (evidence : option Blooms) (tokens : option (list TokenGroup)) (combined : bool) (hints : list CandidateHint) : option (list bool) :=
  let groups := length (ranges s) in
  let base :=
    if combined && (uses_entities hints || uses_tokens hints) then
      let tokens := match tokens with Some ts => if (length ts =? groups)%nat then Some ts else None | None => None end in
      Some ((fun group => forallb (combined_hint evidence group (tokens ≫= fun ts => ts !! group)) hints) <$> seq 0 groups)
    else (fun b => (fun group => forallb (entity_hint b group) hints) <$> seq 0 groups) <$> evidence in
  and_masks (and_masks base (source_family_mask s hints)) (class_mask s hints).
(** The four answers. *)
Definition evidence_masks (s : FileSummary) (evidence : option Blooms) (tokens : option (list TokenGroup)) (combined : bool) (hints : list CandidateHint) (buckets : option (gset Z))
    : option (list bool) * option (list bool) * list (Z * Z) * option (list (Z * Z)) :=
  (hint_mask s evidence tokens combined hints, buckets ≫= time_mask s, ranges s, time_bounds s).
End Evidence.
