(* ===== verification/FilePruneSafety.v ===== *)
(** * FilePruneSafety: a file's evidence keeps every row a search matches

    The row-group decisions of [FilePrune] against the rows of a file: whatever evidence is
    at hand (opened footer, summary, parsed filters, token index, signed families), no hint
    excludes a group that holds a row the search matches, and the rows that are read after
    merging the kept groups include it. *)
From S2P Require Import Prelude Bytes TokenCounts BlockIndex TextTokens Keywords Addresses TokenIndex Prune PruneSafety Spellings FilePrune.

(** ** Rows *)

(** A stored row: its time and class, its string values per leaf column, and the texts the
    token index holds of it. *)
Record StoredRow := { sr_time : Z; sr_class : option Z; sr_cells : nat -> list Bytes; sr_texts : list (list Z) }.
(** The values of the row at a dotted event path. *)
Definition at_path (f : Footer) (r : StoredRow) (path : string) (s : Bytes) : Prop :=
  exists i c, ft_columns f !! i = Some c /\ leaf_event_path (col_parts c) = path /\ s ∈ sr_cells r i.

(** A leaf has one column, and only LIST levels are called [list]. *)
Record schema_ok (f : Footer) : Prop := {
  so_unique i j c d : ft_columns f !! i = Some c -> ft_columns f !! j = Some d -> leaf_event_path (col_parts c) = leaf_event_path (col_parts d) -> i = j;
  so_flat c : c ∈ ft_columns f -> max_rep_level c = 0 -> Forall (fun p => p <> "list") (col_parts c) }.

(** Exact statistics bound the values of the group. *)
Definition chunk_bounds (c : ColumnChunk) (s : Bytes) : Prop :=
  match cc_stats c with Some (SByteArray mn mx true true) => at_least mn s = true /\ at_most mx s = true | _ => True end.
Definition int_bounds (s : option Statistics) (v : Z) : Prop :=
  match s with
  | Some (SInt32 (Some mn) (Some mx) true true) | Some (SInt64 (Some mn) (Some mx) true true) => mn <= v <= mx
  | _ => True
  end.
(** What a footer says of a row of its [k]-th group. *)
Record describes (f : Footer) (k : nat) (r : StoredRow) : Prop := {
  de_bounds i s : s ∈ sr_cells r i -> chunk_bounds (column_chunks f i !!! k) s;
  de_class i c v : ft_columns f !! i = Some c -> path_string c = CLASS_PATH -> sr_class r = Some v -> int_bounds (cc_stats (column_chunks f i !!! k)) v;
  de_time i c : ft_columns f !! i = Some c -> path_string c = TIME_COLUMN -> int_bounds (cc_stats (column_chunks f i !!! k)) (sr_time r);
  de_indicator i c kind p s : ft_marker f = true -> ft_columns f !! i = Some c -> max_rep_level c = 1 -> indicator_leaf_kind (col_parts c) = Some kind ->
    at_path f r p s -> classify p = Some kind -> lower_all s ∈ sr_cells r i }.

(** ** Positions *)

Lemma position_spec {A} (f : A -> bool) l i j : position f l i = Some j -> exists k x, j = (i + k)%nat /\ l !! k = Some x /\ f x = true.
Proof.
  revert i; induction l as [|x l IH]; intros i; cbn; [done|]. destruct (f x) eqn:E.
  - intros [= <-]. exists 0%nat, x. split_and!; [lia|done|done].
  - intros (k & y & -> & Hk & Hy)%IH. exists (S k), y. split_and!; [lia|done|done].
Qed.
Lemma position_0 {A} (f : A -> bool) l j : position f l 0 = Some j -> exists x, l !! j = Some x /\ f x = true.
Proof. intros (k & x & -> & ? & ?)%position_spec. eauto. Qed.

Lemma leaf_parts_plain parts : Forall (fun p => p <> "list") parts -> leaf_parts false parts = parts.
Proof. induction 1 as [|p parts Hp _ IH]; cbn; [done|]. destruct (String.eqb_spec p "list"); [done|]. by rewrite IH. Qed.

Lemma column_chunk_lookup f i k : (k < length (ft_groups f))%nat -> column_chunks f i !! k = Some (column_chunks f i !!! k).
Proof. intros Hk. apply list_lookup_lookup_total_lt. unfold column_chunks. by rewrite length_fmap. Qed.

Section Safe.
Context (f : Footer) (Hschema : schema_ok f).

Lemma flat_leaf i c : ft_columns f !! i = Some c -> max_rep_level c = 0 -> leaf_event_path (col_parts c) = path_string c.
Proof. intros Hc Hr. unfold leaf_event_path, path_string. rewrite leaf_parts_plain; [done|]. apply (so_flat f Hschema); [by apply list_elem_of_lookup_2 in Hc|done]. Qed.

(** The values at a flat column's path are in that column. *)
Lemma flat_values r i c s : ft_columns f !! i = Some c -> max_rep_level c = 0 -> at_path f r (path_string c) s -> s ∈ sr_cells r i.
Proof.
  intros Hc Hr (j & d & Hd & Hp & Hs). assert (i = j) as -> by (apply (so_unique f Hschema i j c d); [done|done|by rewrite Hp, (flat_leaf i c)]). done.
Qed.

Lemma summary_fields s : FileSummary_of f = Some s -> group_ranges 0 (ft_groups f) = Some (ranges s) /\ entities s = entity_columns f /\
  paths (column_bytes s) = (fun c => leaf_event_path (col_parts c)) <$> ft_columns f /\ indicators s = ft_marker f.
Proof. unfold FileSummary_of. destruct (group_ranges 0 (ft_groups f)); [|done]. intros [= <-]. cbn -[inventory]. by rewrite inventory_paths. Qed.

Lemma group_ranges_spec start groups rs : group_ranges start groups = Some rs -> length rs = length groups /\ Forall (fun r : Z * Z => r.1 <= r.2) rs.
Proof.
  revert start rs; induction groups as [|g groups IH]; intros start rs; cbn; [by intros [= <-]|]. destruct (Z.ltb_spec (num_rows g) 0); [done|]. destruct (Z.ltb_spec u64_max (start + num_rows g)); [done|]. cbn.
  destruct (group_ranges (start + num_rows g) groups) as [rest|] eqn:E; [|done]. intros [= <-]. destruct (IH _ _ E) as [Hl Hf]. cbn. split; [by rewrite Hl|]. constructor; [cbn; lia|done].
Qed.

(** The evidence of a path is the evidence of its column. *)
Lemma entity_column s path groups : FileSummary_of f = Some s -> entity s path = Some groups ->
  exists i c, ft_columns f !! i = Some c /\ entity_name f c = Some path /\ groups = EntityGroup_of <$> column_chunks f i.
Proof.
  intros (_ & He & _ & _)%summary_fields. unfold entity. rewrite He. destruct (List.find _ _) as [[name gs]|] eqn:Hf; [|done]. intros [= <-]. apply List.find_some in Hf as [Hin Hn]. cbn in Hn. apply String.eqb_eq in Hn as ->.
  apply list_elem_of_In in Hin. unfold entity_columns in Hin. apply list_elem_of_omap in Hin as ([i c] & Hin & Hname). cbn in Hname. destruct (entity_name f c) as [nm|] eqn:En; [|done]. injection Hname as -> <-.
  apply list_elem_of_lookup in Hin as [j Hj]. apply lookup_zip_Some in Hj as [Hi Hc]. apply lookup_seq in Hi as [-> _]. cbn in Hc. eauto.
Qed.

Lemma indicator_not_bloom kind : kind_column kind ∉ BLOOM_PATHS.
Proof. destruct kind. apply (bool_decide_eq_false (kind_column Domain ∈ BLOOM_PATHS)). vm_compute. reflexivity. Qed.

Lemma bloom_path_flat c path : path ∈ BLOOM_PATHS -> entity_name f c = Some path -> max_rep_level c = 0 /\ path_string c = path.
Proof.
  intros Hp. unfold entity_name. destruct (if ft_marker f && _ then _ else _) as [[]|].
  - intros [= <-]. by destruct (indicator_not_bloom Domain).
  - destruct (Z.eqb_spec (max_rep_level c) 0); [|done]. cbn. case_bool_decide; [|done]. by intros [= <-].
Qed.
Lemma indicator_column c kind : entity_name f c = Some (kind_column kind) -> ft_marker f = true /\ max_rep_level c = 1 /\ indicator_leaf_kind (col_parts c) = Some kind.
Proof.
  unfold entity_name. destruct (ft_marker f && _) eqn:E.
  - apply andb_true_iff in E as [-> Hr%Z.eqb_eq]. destruct (indicator_leaf_kind (col_parts c)) as [[]|]; [intros _; by destruct kind|]. rewrite Hr. done.
  - destruct (Z.eqb_spec (max_rep_level c) 0); [|done]. cbn. case_bool_decide as Hb; [|done]. intros [= Hp]. rewrite Hp in Hb. by destruct (indicator_not_bloom kind).
Qed.

Lemma entity_bounds c s : chunk_bounds c s -> at_least (eg_min (EntityGroup_of c)) s = true /\ at_most (eg_max (EntityGroup_of c)) s = true.
Proof.
  unfold chunk_bounds, EntityGroup_of. destruct (cc_stats c) as [[]|]; cbn; try done. destruct mn_exact, mx_exact; cbn; try done. intros [Hl Hh].
  unfold keep_short. split; repeat case_match; done.
Qed.

Lemma has_leaf r path s : at_path f r path s -> leaf_absent ((fun c => leaf_event_path (col_parts c)) <$> ft_columns f) path = false.
Proof.
  intros (i & c & Hc & Hp & _). unfold leaf_absent. apply negb_false_iff, existsb_exists. exists path. split; [|unfold leaf_related; by rewrite String.eqb_refl].
  apply list_elem_of_In, list_elem_of_fmap. exists c. split; [done|]. by apply list_elem_of_lookup_2 in Hc.
Qed.

(** ** What a search asks of a row *)

Section Row.
Context `{Unicode, !UnicodeAscii, XxHash, Xorf, Sbbf, FilterSize, Ipv6Parser, CaseFold, !SimpleFolding, !Ipv6Laws, !SbbfLaws}.

(** The SQL equality of an entity: raw against the lower-case literal where ingest lowers the
    column, else up to ASCII case. *)
Definition equals_at (path : string) (v : Text) (s : Bytes) : Prop :=
  if bool_decide (path ∈ INGEST_LOWERCASED_BLOOM_PATHS) then s = lower_all (utf8 v) else lower_all s = lower_all (utf8 v).
Fixpoint row_matches (r : StoredRow) (hint : CandidateHint) : Prop :=
  match hint with
  | Entity path v => (exists s, at_path f r path s /\ equals_at path v s) /\ hint_matches (sr_texts r) hint
  | SourceFamily v => exists s, at_path f r SOURCE_FAMILY_PATH s /\ lower_all s = lower_all (utf8 v)
  | Class_ v => sr_class r = Some v
  | Keyword _ _ => hint_matches (sr_texts r) hint
  | Any l => l = [] \/ foldr (fun h P => row_matches r h \/ P) False l
  end.
Lemma any_row_matches r l : foldr (fun h P => row_matches r h \/ P) False l <-> Exists (row_matches r) l.
Proof. induction l as [|h l IH]; cbn; [by rewrite Exists_nil|]. by rewrite IH, Exists_cons. Qed.

(** A decision that keeps the row for each alternative keeps it for all of them. *)
Lemma any_keeps (keep : CandidateHint -> bool) r l : Forall (fun h => row_matches r h -> keep h = true) l -> row_matches r (Any l) -> (match l with [] => true | _ => existsb keep l end) = true.
Proof.
  intros IH Hm. destruct l as [|h0 l0]; [done|]. destruct Hm as [|Hm]; [done|]. rewrite any_row_matches in Hm. apply Exists_exists in Hm as (h & Hin & Hm).
  apply existsb_exists. exists h. split; [by apply list_elem_of_In|]. rewrite Forall_forall in IH. auto.
Qed.

(** A row that matches satisfies the part of the hint the token index decides. *)
Lemma row_hint_matches r hint : row_matches r hint -> hint_matches (sr_texts r) hint.
Proof.
  induction hint as [p v|v|z|m v|l IH] using hint_induction; cbn [row_matches hint_matches]; try tauto.
  intros [->|Hm]; [by left|right]. rewrite any_row_matches in Hm. apply any_matches. rewrite Exists_exists in Hm |- *. destruct Hm as (h & Hin & Hm). rewrite Forall_forall in IH. eauto.
Qed.

Lemma equals_folds path v s : equals_at path v s -> lower_all s = lower_all (utf8 v).
Proof. unfold equals_at. case_bool_decide; [|done]. intros ->. unfold lower_all. rewrite <- list_fmap_compose. apply list_fmap_ext. intros. cbn. apply lowercase_idemp. Qed.

Lemma spellings_for_spec path v s l : equals_at path v s -> spellings_for path v = Some l -> s ∈ l.
Proof.
  unfold equals_at, spellings_for. case_bool_decide.
  - destruct (all_ascii v); [|done]. intros -> [= <-]. by left.
  - intros Hs Hl. by apply (spellings_spec v l Hl).
Qed.

Lemma group_contains_sound g path v s bloom : equals_at path v s -> at_least (eg_min g) s = true -> at_most (eg_max g) s = true -> bloom_may_hold bloom s = true ->
  group_may_contain g path v bloom <> Some false.
Proof.
  intros Hs Hl Hh Hb. unfold group_may_contain. destruct (match eg_min g, eg_max g with Some mn, Some mx => _ | _, _ => false end) eqn:Hconst.
  { exfalso. destruct (eg_min g) as [mn|], (eg_max g) as [mx|]; try done. rewrite !andb_true_iff, bool_decide_eq_true, negb_true_iff in Hconst. destruct Hconst as [[<- _] Hne].
    cbn in Hl, Hh. rewrite (bytes_leb_antisym mn s Hl Hh) in Hne. unfold eq_ignore_ascii_case in Hne. apply bool_decide_eq_false in Hne. by apply Hne, (equals_folds path). }
  destruct (spellings_for path v) as [l|] eqn:El; [|done]. pose proof (spellings_for_spec path v s l Hs El) as Hin.
  assert (Hf : s ∈ filter (fun x => at_least (eg_min g) x && at_most (eg_max g) x = true) l) by (apply list_elem_of_filter; by rewrite Hl, Hh).
  destruct (filter _ l) as [|x xs] eqn:Ex; [by apply elem_of_nil in Hf|]. destruct (is_absent g); [done|]. replace (existsb _ _) with true; [done|]. symmetry. apply existsb_exists. exists s. split; [by apply list_elem_of_In|done].
Qed.

Lemma indicator_sound g p bloom : at_least (eg_min g) p = true -> at_most (eg_max g) p = true -> bloom_may_hold bloom p = true -> indicator_contains g p bloom <> Some false.
Proof.
  intros Hl Hh Hb. unfold indicator_contains. replace (_ || _) with false; [destruct (is_absent g); [done|by rewrite Hb]|]. symmetry. apply orb_false_iff.
  split; [destruct (eg_min g) as [mn|]; [|done]|destruct (eg_max g) as [mx|]; [|done]]; cbn in *; unfold bytes_ltb; by rewrite ?Hl, ?Hh.
Qed.

(** ** Entity evidence *)

(** The evidence is of this file, and a filter it reads for a group holds the values of the
    group's rows. *)
Definition blooms_hold (k : nat) (r : StoredRow) (b : Blooms) : Prop :=
  match b with
  | BFooter f' chunk_bloom => f' = f /\ forall i bl s, chunk_bloom i k = Some bl -> s ∈ sr_cells r i -> sbbf_check bl s = true
  | BSummary sm read_at => FileSummary_of f = Some sm /\
      forall i o l bl s, eg_bloom (EntityGroup_of (column_chunks f i !!! k)) = At o l -> read_at o l = Some bl -> s ∈ sr_cells r i -> sbbf_check bl s = true
  | BParsed sm parsed => FileSummary_of f = Some sm /\
      forall i c name bl s, ft_columns f !! i = Some c -> entity_name f c = Some name -> parsed_bloom parsed name k = Some bl -> s ∈ sr_cells r i -> sbbf_check bl s = true
  end.

Context (k : nat) (r : StoredRow) (Hd : describes f k r) (Hk : (k < length (ft_groups f))%nat).

(** The filter the evidence gives for a column's group. *)
Lemma column_sound i (P : EntityGroup -> option sbbf -> option bool) s bloom :
  s ∈ sr_cells r i -> (forall bl, bloom = Some bl -> sbbf_check bl s = true) ->
  (forall g, at_least (eg_min g) s = true -> at_most (eg_max g) s = true -> bloom_may_hold bloom s = true -> P g bloom <> Some false) ->
  P (EntityGroup_of (column_chunks f i !!! k)) bloom <> Some false.
Proof.
  intros Hs Hb HP. destruct (entity_bounds _ s (de_bounds f k r Hd i s Hs)) as [Hl Hh]. apply HP; [done|done|]. unfold bloom_may_hold. destruct bloom; auto.
Qed.

Lemma summary_group sm path gs : FileSummary_of f = Some sm -> entity sm path = Some gs ->
  exists i c, ft_columns f !! i = Some c /\ entity_name f c = Some path /\ gs !! k = Some (EntityGroup_of (column_chunks f i !!! k)).
Proof.
  intros Hs (i & c & Hc & Hn & ->)%(entity_column sm path gs); [|done]. exists i, c. split_and!; [done|done|]. by rewrite list_lookup_fmap, (column_chunk_lookup f i k Hk).
Qed.

(** The filter of a summary or of the parsed cache. *)
Lemma summary_bloom_holds (read_at : Z -> Z -> option sbbf) i s bl :
  (forall i o l bl s, eg_bloom (EntityGroup_of (column_chunks f i !!! k)) = At o l -> read_at o l = Some bl -> s ∈ sr_cells r i -> sbbf_check bl s = true) ->
  summary_bloom read_at (EntityGroup_of (column_chunks f i !!! k)) = Some bl -> s ∈ sr_cells r i -> sbbf_check bl s = true.
Proof.
  intros Hr. unfold summary_bloom, read_bloom_at. destruct (eg_bloom _) as [|o l|] eqn:E; try done. destruct (_ <? _); [done|]. intros Hb Hs. by apply (Hr i o l).
Qed.

Lemma entity_sound b path v s : blooms_hold k r b -> at_path f r path s -> equals_at path v s -> blooms_may_contain b k path v <> Some false.
Proof.
  intros Hb Hp Hs. unfold blooms_may_contain. destruct (bool_decide (path ∈ BLOOM_PATHS)) eqn:Hbl; [|done]. apply bool_decide_eq_true in Hbl. destruct (all_ascii v); [|done]. cbn [negb orb].
  destruct b as [f' cb|sm ra|sm parsed].
  - destruct Hb as [-> Hb]. destruct (footer_column f _) as [i|] eqn:Ei.
    + apply position_0 in Ei as (c & Hc & E). apply andb_true_iff in E as [<-%String.eqb_eq Hr%Z.eqb_eq]. pose proof (flat_values r i c s Hc Hr Hp) as Hin.
      apply (column_sound i (fun g bl => group_may_contain g (path_string c) v bl) s); [done|intros bl Hbl'; by apply (Hb i)|]. intros g. by apply group_contains_sound.
    + rewrite (has_leaf r path s Hp), andb_false_r. done.
  - destruct Hb as [Hsm Hb]. unfold summary_contains. destruct (entity sm path) as [gs|] eqn:Eg.
    + destruct (summary_group sm path gs Hsm Eg) as (i & c & Hc & Hn & ->). destruct (bloom_path_flat c path Hbl Hn) as [Hr <-]. pose proof (flat_values r i c s Hc Hr Hp) as Hin.
      apply (column_sound i (fun g bl => group_may_contain g (path_string c) v bl) s); [done|intros bl Hbl'; by apply (summary_bloom_holds ra i)|]. intros g. by apply group_contains_sound.
    + unfold lacks_leaf. rewrite cb_iter_paths. destruct (summary_fields sm Hsm) as (_ & _ & -> & _). by rewrite (has_leaf r path s Hp), andb_false_r.
  - destruct Hb as [Hsm Hb]. unfold summary_contains. destruct (entity sm path) as [gs|] eqn:Eg.
    + destruct (summary_group sm path gs Hsm Eg) as (i & c & Hc & Hn & ->). pose proof Hn as Hn'. destruct (bloom_path_flat c path Hbl Hn) as [Hr <-]. pose proof (flat_values r i c s Hc Hr Hp) as Hin.
      apply (column_sound i (fun g bl => group_may_contain g (path_string c) v bl) s); [done|intros bl Hbl'; by apply (Hb i c (path_string c))|]. intros g. by apply group_contains_sound.
    + unfold lacks_leaf. rewrite cb_iter_paths. destruct (summary_fields sm Hsm) as (_ & _ & -> & _). by rewrite (has_leaf r path s Hp), andb_false_r.
Qed.

Lemma indicator_keeps b path kind v s : blooms_hold k r b -> at_path f r path s -> equals_at path v s -> classify path = Some kind -> indicator_may_contain b k kind v <> Some false.
Proof.
  intros Hb Hp Hs Hcl. unfold indicator_may_contain, probe. destruct (all_ascii v); [|done]. rewrite <- (equals_folds path v s Hs).
  destruct b as [f' cb|sm ra|sm parsed].
  - destruct Hb as [-> Hb]. destruct (ft_marker f) eqn:Hmk; [|done]. cbn [negb]. destruct (footer_column f _) as [i|] eqn:Ei; [|done].
    apply position_0 in Ei as (c & Hc & E). apply andb_true_iff in E as [Hr%Z.eqb_eq Hkd%bool_decide_eq_true]. pose proof (de_indicator f k r Hd i c kind path s Hmk Hc Hr Hkd Hp Hcl) as Hin.
    apply (column_sound i (fun g bl => indicator_contains g (lower_all s) bl) (lower_all s)); [done|intros bl Hbl'; by apply (Hb i)|]. intros g. by apply indicator_sound.
  - destruct Hb as [Hsm Hb]. unfold summary_indicator. destruct (indicators sm); [|done]. cbn [negb]. destruct (entity sm (kind_column kind)) as [gs|] eqn:Eg; [|done].
    destruct (summary_group sm _ gs Hsm Eg) as (i & c & Hc & Hn & ->). destruct (indicator_column c kind Hn) as (Hmk & Hr & Hkd). pose proof (de_indicator f k r Hd i c kind path s Hmk Hc Hr Hkd Hp Hcl) as Hin.
    apply (column_sound i (fun g bl => indicator_contains g (lower_all s) bl) (lower_all s)); [done|intros bl Hbl'; by apply (summary_bloom_holds ra i)|]. intros g. by apply indicator_sound.
  - destruct Hb as [Hsm Hb]. unfold summary_indicator. destruct (indicators sm); [|done]. cbn [negb]. destruct (entity sm (kind_column kind)) as [gs|] eqn:Eg; [|done].
    destruct (summary_group sm _ gs Hsm Eg) as (i & c & Hc & Hn & ->). pose proof Hn as Hn'. destruct (indicator_column c kind Hn) as (Hmk & Hr & Hkd). pose proof (de_indicator f k r Hd i c kind path s Hmk Hc Hr Hkd Hp Hcl) as Hin.
    apply (column_sound i (fun g bl => indicator_contains g (lower_all s) bl) (lower_all s)); [done|intros bl Hbl'; by apply (Hb i c (kind_column kind))|]. intros g. by apply indicator_sound.
Qed.

Lemma entity_keep_sound b path v s : blooms_hold k r b -> at_path f r path s -> equals_at path v s -> entity_keep b k path v = true.
Proof.
  intros Hb Hp Hs. unfold entity_keep. rewrite (bool_decide_false _ (entity_sound b path v s Hb Hp Hs)). destruct (classify path) as [kind|] eqn:Hc; [|done].
  by rewrite (bool_decide_false _ (indicator_keeps b path kind v s Hb Hp Hs Hc)).
Qed.

(** ** Hints *)

Lemma entity_hint_keeps b hint : blooms_hold k r b -> row_matches r hint -> entity_hint b k hint = true.
Proof.
  intros Hb. induction hint as [p v|v|z|m v|l IH] using hint_induction; cbn [row_matches entity_hint]; try done.
  - intros [(s & Hp & Hs) _]. by apply (entity_keep_sound b p v s).
  - by apply (any_keeps _ r).
Qed.

(** The token group of the row's row group, when there is one, covers the row. *)
Definition tokens_hold (tokens : option TokenGroup) : Prop := forall g, tokens = Some g -> exists n rows tr, group_covers n rows g /\ tr ∈ rows /\ row_texts tr = sr_texts r.
Context (Htexts : Forall text_ok (sr_texts r)).

Lemma tokens_keep tokens hint : tokens_hold tokens -> hint_ok hint -> hint_matches (sr_texts r) hint -> from_option (fun g => token_hint g hint) true tokens = true.
Proof.
  intros Ht Hok Hm. destruct tokens as [g|]; [|done]. destruct (Ht g eq_refl) as (n & rows & tr & Hg & Htr & Hx). cbn. rewrite <- Hx in Hm, Htexts. by apply (token_hint_keeps n rows g Hg tr).
Qed.

Lemma combined_hint_keeps bloom tokens hint : (forall b, bloom = Some b -> blooms_hold k r b) -> tokens_hold tokens -> hint_ok hint -> row_matches r hint -> combined_hint bloom k tokens hint = true.
Proof.
  intros Hb Ht. induction hint as [p v|v|z|m v|l IH] using hint_induction; intros Hok Hm; try done.
  - cbn [combined_hint]. rewrite (tokens_keep tokens (Entity p v) Ht Hok (row_hint_matches r (Entity p v) Hm)), andb_true_r. destruct Hm as [(s & Hp & Hs) _]. destruct bloom as [b|]; [|done]. cbn. apply (entity_keep_sound b p v s); auto.
  - cbn [combined_hint]. by apply tokens_keep.
  - cbn [combined_hint]. apply (any_keeps _ r); [|done]. cbn [hint_ok] in Hok. rewrite any_ok in Hok. rewrite Forall_forall in IH, Hok |- *. auto.
Qed.

Lemma family_hint_keeps g hint : (forall s, at_path f r SOURCE_FAMILY_PATH s -> at_least (eg_min g) s = true /\ at_most (eg_max g) s = true) -> row_matches r hint -> family_range_hint g hint = true.
Proof.
  intros Hg. induction hint as [p v|v|z|m v|l IH] using hint_induction; cbn [row_matches family_range_hint]; try done.
  - intros (s & Hp & Hs). destruct (Hg s Hp) as [Hl Hh]. unfold family_range_may_match. destruct (eg_min g) as [mn|], (eg_max g) as [mx|]; try done. destruct (all_ascii v); [|done]. cbn [negb]. apply spelling_range_iff. exists s. done.
  - by apply (any_keeps _ r).
Qed.

Lemma class_hint_keeps bounds hint : (forall mn mx v, bounds = Some (mn, mx) -> sr_class r = Some v -> mn <= v <= mx) -> row_matches r hint -> class_range_hint bounds hint = true.
Proof.
  intros Hb. induction hint as [p v|v|z|m v|l IH] using hint_induction; cbn [row_matches class_range_hint]; try done.
  - intros Hc. destruct bounds as [[mn mx]|]; [|done]. specialize (Hb mn mx z eq_refl Hc). rewrite andb_true_iff, !Z.leb_le. lia.
  - by apply (any_keeps _ r).
Qed.

(** ** Masks *)

Lemma and_masks_keep a b : (forall m, a = Some m -> m !! k = Some true) -> (forall m, b = Some m -> m !! k = Some true) -> forall m, and_masks a b = Some m -> m !! k = Some true.
Proof.
  intros Ha Hb m. unfold and_masks. destruct a as [a|], b as [b|]; try (intros [= <-]; auto). destruct (length a =? length b)%nat; [|done]. intros [= <-]. rewrite (zip_keep a b k true true); auto.
Qed.

Context (s : FileSummary) (Hs : FileSummary_of f = Some s).

Lemma summary_length : length (ranges s) = length (ft_groups f) /\ Forall (fun r : Z * Z => r.1 <= r.2) (ranges s).
Proof. destruct (summary_fields s Hs) as (Hr & _). by apply (group_ranges_spec 0). Qed.

Lemma seq_mask (P : nat -> bool) : P k = true -> (P <$> seq 0 (length (ranges s))) !! k = Some true.
Proof. intros HP. rewrite list_lookup_fmap, lookup_seq_lt by (destruct summary_length as [-> _]; done). cbn. by rewrite HP. Qed.

Lemma family_mask_keeps hints m : Forall (row_matches r) hints -> source_family_mask s hints = Some m -> m !! k = Some true.
Proof.
  intros Hm. unfold source_family_mask. destruct (_ || _) eqn:E; [done|]. intros [= <-]. apply orb_false_iff in E as [_ Hl%negb_false_iff%Nat.eqb_eq].
  assert (Hsf : source_family s = from_option (fun i => EntityGroup_of <$> column_chunks f i) [] (position (fun c => (max_rep_level c =? 0) && String.eqb (path_string c) SOURCE_FAMILY_PATH) (ft_columns f) 0)).
  { revert Hs. unfold FileSummary_of. destruct (group_ranges 0 (ft_groups f)); [|done]. by intros [= <-]. }
  rewrite Hsf. destruct (position _ _ _) as [i|] eqn:Ei.
  - apply position_0 in Ei as (c & Hc & [Hr%Z.eqb_eq Hp%String.eqb_eq]%andb_true_iff). cbn. rewrite !list_lookup_fmap, (column_chunk_lookup f i k Hk). cbn. f_equal. apply forallb_forall. intros h Hh%list_elem_of_In.
    rewrite Forall_forall in Hm. apply family_hint_keeps; [|by apply Hm]. intros x Hx. apply entity_bounds. apply (de_bounds f k r Hd). rewrite <- Hp in Hx. by apply (flat_values r i c).
  - rewrite Hsf in Hl. cbn in Hl. destruct summary_length as [Hl' _]. exfalso. lia.
Qed.

Lemma class_mask_keeps hints : Forall (row_matches r) hints -> class_mask s hints = None.
Proof.
  intros Hm. unfold class_mask. destruct (_ || _) eqn:E; [done|]. apply orb_false_iff in E as [[_ Hl%negb_false_iff%Nat.eqb_eq]%orb_false_iff _].
  destruct (forallb _ _) eqn:Hall; [exfalso|done]. rewrite forallb_forall in Hall.
  assert (Hcg : class_groups s = from_option (fun i => (fun c => class_bounds (cc_stats c)) <$> column_chunks f i) [] (position (fun c => (max_rep_level c =? 0) && String.eqb (path_string c) CLASS_PATH && integer_type c) (ft_columns f) 0)).
  { revert Hs. unfold FileSummary_of. destruct (group_ranges 0 (ft_groups f)); [|done]. by intros [= <-]. }
  rewrite Hcg in Hl, Hall. destruct (position _ _ _) as [i|] eqn:Ei; [|cbn in Hl; destruct summary_length as [Hl' _]; lia]. cbn [from_option] in Hall.
  apply position_0 in Ei as (c & Hc & E). rewrite !andb_true_iff in E. destruct E as [[Hr%Z.eqb_eq Hp%String.eqb_eq] _].
  set (b := class_bounds (cc_stats (column_chunks f i !!! k))). assert (Hin : b ∈ (fun c => class_bounds (cc_stats c)) <$> column_chunks f i).
  { apply list_elem_of_fmap. exists (column_chunks f i !!! k). split; [done|]. eapply list_elem_of_lookup_2. by apply column_chunk_lookup. }
  apply list_elem_of_In, Hall in Hin. apply negb_true_iff in Hin. apply not_true_iff_false in Hin. apply Hin. apply forallb_forall. intros h Hh%list_elem_of_In. rewrite Forall_forall in Hm.
  apply class_hint_keeps; [|by apply Hm]. intros mn mx v Hb Hv. pose proof (de_class f k r Hd i c v Hc Hp Hv) as Hi. unfold b, class_bounds, ordered in Hb. unfold int_bounds in Hi. repeat case_match; try done; by injection Hb as <- <-.
Qed.

Lemma hint_mask_keeps evidence tokens combined hints m : (forall b, evidence = Some b -> blooms_hold k r b) ->
  (forall ts, tokens = Some ts -> tokens_hold (ts !! k)) -> Forall hint_ok hints -> Forall (row_matches r) hints ->
  hint_mask s evidence tokens combined hints = Some m -> m !! k = Some true.
Proof.
  intros Hb Ht Hok Hm. unfold hint_mask. cbv zeta. rewrite Forall_forall in Hok. pose proof Hm as Hm'. rewrite Forall_forall in Hm'. apply and_masks_keep; [|rewrite class_mask_keeps by done; done]. apply and_masks_keep; [|intros m2; by apply family_mask_keeps].
  intros m'. destruct (combined && _).
  - intros [= <-]. apply (seq_mask (fun g => forallb (combined_hint evidence g _) hints)). apply forallb_forall. intros h Hh%list_elem_of_In. apply combined_hint_keeps; [done| |by apply Hok|by apply Hm'].
    destruct tokens as [ts|]; [|done]. destruct (length ts =? _)%nat; [|done]. by apply Ht.
  - destruct evidence as [b|]; [|done]. intros [= <-]. apply (seq_mask (fun g => forallb (entity_hint b g) hints)). apply forallb_forall. intros h Hh%list_elem_of_In. apply entity_hint_keeps; auto.
Qed.

(** ** Times *)

Lemma time_bounds_row b : time_bounds_of (cc_stats b) = None \/ exists mn mx, cc_stats b = Some (SInt64 (Some mn) (Some mx) true true) /\ time_bounds_of (cc_stats b) = Some (mn, mx).
Proof. unfold time_bounds_of. destruct (cc_stats b) as [st|]; [|by left]. destruct st as [|mn mx e1 e2| |]; try by left. destruct mn, mx, e1, e2; eauto. Qed.

Lemma group_time ts b : group_times s = Some ts -> ts !! k = Some (Some b) -> b.1 <= sr_time r <= b.2.
Proof.
  intros Hts Hb. assert (Hgt : group_times s = (fun i => (fun c => time_bounds_of (cc_stats c)) <$> column_chunks f i) <$> position (fun c => String.eqb (path_string c) TIME_COLUMN) (ft_columns f) 0).
  { revert Hs. unfold FileSummary_of. destruct (group_ranges 0 (ft_groups f)); [|done]. by intros [= <-]. }
  rewrite Hgt in Hts. destruct (position _ _ _) as [i|] eqn:Ei; [|done]. apply position_0 in Ei as (c & Hc & Hp%String.eqb_eq). injection Hts as <-.
  rewrite list_lookup_fmap, (column_chunk_lookup f i k Hk) in Hb. injection Hb as Hb. pose proof (de_time f k r Hd i c Hc Hp) as Ht.
  destruct (time_bounds_row (column_chunks f i !!! k)) as [E|(mn & mx & E & E')]; [congruence|]. rewrite E' in Hb. injection Hb as <-. rewrite E in Ht. exact Ht.
Qed.

Lemma bounds_time bs b : time_bounds s = Some bs -> bs !! k = Some b -> b.1 <= sr_time r <= b.2.
Proof.
  unfold time_bounds. destruct (group_times s) as [ts|] eqn:Hts; [|done]. cbn. intros Hm Hb. apply (group_time ts b Hts). apply mapM_Some in Hm. destruct (Forall2_lookup_r _ _ _ _ _ Hm Hb) as (x & Hx & ->). done.
Qed.

Definition bucket_of (t : Z) : Z := t / COUNT_ROLLUP_BUCKET_US * COUNT_ROLLUP_BUCKET_US.
Lemma touches_bucket buckets mn mx t : in_i64 (bucket_of mn) -> mn <= t <= mx -> bucket_of t ∈ buckets -> touches buckets mn mx = true.
Proof.
  intros Hin Ht Hb. unfold touches. fold (bucket_of mn). rewrite wrap_i64_id by done. apply existsb_exists. exists (bucket_of t). split; [by apply list_elem_of_In, elem_of_elements|].
  unfold bucket_of, COUNT_ROLLUP_BUCKET_US. rewrite andb_true_iff, !Z.leb_le. pose proof (Z.div_le_mono mn t 300000000 ltac:(lia) ltac:(lia)). pose proof (Z.mul_div_le t 300000000 ltac:(lia)). lia.
Qed.

Lemma time_mask_keeps buckets m : bucket_of (sr_time r) ∈ buckets -> (forall ts b, group_times s = Some ts -> ts !! k = Some (Some b) -> in_i64 (bucket_of b.1)) -> time_mask s buckets = Some m -> m !! k = Some true.
Proof.
  intros Hb Hin. unfold time_mask. destruct (group_times s) as [ts|] eqn:Hts; [|done]. intros [= <-]. assert (Hl : length ts = length (ft_groups f)).
  { revert Hs Hts. unfold FileSummary_of. destruct (group_ranges 0 (ft_groups f)); [|done]. intros [= <-]. cbn. destruct (position _ _ _); [|done]. intros [= <-]. unfold column_chunks. by rewrite !length_fmap. }
  destruct (lookup_lt_is_Some_2 ts k) as [b Hbk]; [lia|]. rewrite list_lookup_fmap, Hbk. cbn. f_equal. destruct b as [[mn mx]|]; [|done]. apply (touches_bucket buckets mn mx (sr_time r)); [by apply (Hin ts (mn, mx))|by apply (group_time ts (mn, mx))|done].
Qed.

(** ** Signed families *)

Lemma signed_family_keeps log_sources class_id hints :
  (forall l x, log_sources = Some l -> at_path f r SOURCE_FAMILY_PATH x -> exists label, label ∈ l /\ utf8 label = x) -> (forall c, class_id = Some c -> sr_class r = Some c) ->
  Forall (row_matches r) hints -> file_family_may_match log_sources class_id hints = true.
Proof.
  intros Hl Hc Hm. unfold file_family_may_match. apply andb_true_iff. rewrite Forall_forall in Hm. split.
  - unfold source_family_may_match. destruct log_sources as [l|]; [|done]. apply forallb_forall. intros h Hh%list_elem_of_In. specialize (Hm h Hh). clear Hh. revert Hm.
    induction h as [p v|v|z|m v|alts IH] using hint_induction; try done; [|by apply (any_keeps _ r)]. cbn. intros (x & Hx & Hlow). destruct (_ || _); [done|].
    destruct (Hl l x eq_refl Hx) as (label & Hin & <-). apply existsb_exists. exists label. split; [by apply list_elem_of_In|]. by apply bool_decide_eq_true.
  - unfold class_may_match. destruct class_id as [c|]; [|done]. apply forallb_forall. intros h Hh%list_elem_of_In. specialize (Hm h Hh). clear Hh. revert Hm.
    induction h as [p v|v|z|m v|alts IH] using hint_induction; try done; [|by apply (any_keeps _ r)]. cbn. intros Hz. rewrite (Hc c eq_refl) in Hz. injection Hz as ->. apply Z.eqb_refl.
Qed.
End Row.
End Safe.

Section Theorem_.
Context `{Unicode, !UnicodeAscii, XxHash, Xorf, Sbbf, FilterSize, Ipv6Parser, CaseFold, !SimpleFolding, !Ipv6Laws, !SbbfLaws}.

(** The masks of a file's evidence keep the row. *)
Lemma masks_keep f s k rng n r evidence tokens combined hints buckets :
  schema_ok f -> FileSummary_of f = Some s -> describes f k r -> ranges s !! k = Some rng -> in_range n rng ->
  (forall b, evidence = Some b -> blooms_hold f k r b) -> (forall ts, tokens = Some ts -> tokens_hold r (ts !! k)) ->
  Forall text_ok (sr_texts r) -> Forall hint_ok hints -> Forall (row_matches f r) hints ->
  (forall bs, buckets = Some bs -> bucket_of (sr_time r) ∈ bs) -> (forall ts b, group_times s = Some ts -> ts !! k = Some (Some b) -> in_i64 (bucket_of b.1)) ->
  let '(mask, tmask, rs, times) := evidence_masks s evidence tokens combined hints buckets in
  forall m, and_masks mask tmask = Some m -> Exists (in_range n) (kept_ranges m rs) /\ Exists (holds_at n (sr_time r)) (kept_ranges_with_time m rs times).
Proof.
  intros Hf Hs Hd Hk Hn Hb Ht Htexts Hok Hm Hbk Hin.
  destruct (summary_length f s Hs) as [Hlen Hord]. assert (Hkf : (k < length (ft_groups f))%nat) by (rewrite <- Hlen; by apply lookup_lt_Some in Hk).
  unfold evidence_masks. intros m Hmask. assert (Hkeep : m !! k = Some true).
  { revert m Hmask. apply (and_masks_keep k).
    - intros m Hmask. by apply (hint_mask_keeps f Hf k r Hd Hkf Htexts s Hs evidence tokens combined hints).
    - intros m. destruct buckets as [bs|]; [|done]. cbn. apply (time_mask_keeps f k r Hd Hkf s Hs); auto. }
  split; [apply kept_ranges_iff; eauto|]. apply (ranges_with_time_keep m (ranges s) (time_bounds s) k rng); [done..|]. intros ts b. by apply (bounds_time f k r Hd Hkf s Hs).
Qed.

(** C7: No row a search matches is skipped by the evidence of its data file, for hints whose plain
    tokens and hashes are in ASCII and rows whose texts hold neither a long s nor a Kelvin sign
    (the conditions of [pruning_keeps_matches]). Such a row of the [k]-th row group satisfies
    every hint (entities by the SQL's equality, keywords by their SQL, the source family, the
    class). Whether the entity filters come from the opened
    footer, from the summary or from the parsed cache, with or without the token index, with
    or without time buckets: the signed family keeps the file, and after intersecting the
    masks and merging the kept groups, one of the ranges that are read holds the row, with
    the row's time within the range's time. *)
Theorem file_pruning_keeps_matches f s k rng n r evidence tokens combined hints buckets log_sources class_id :
  schema_ok f -> FileSummary_of f = Some s -> describes f k r -> ranges s !! k = Some rng -> in_range n rng ->
  (forall b, evidence = Some b -> blooms_hold f k r b) -> (forall ts, tokens = Some ts -> tokens_hold r (ts !! k)) ->
  Forall text_ok (sr_texts r) -> Forall hint_ok hints -> Forall (row_matches f r) hints ->
  (forall bs, buckets = Some bs -> bucket_of (sr_time r) ∈ bs) -> (forall ts b, group_times s = Some ts -> ts !! k = Some (Some b) -> in_i64 (bucket_of b.1)) ->
  (forall l x, log_sources = Some l -> at_path f r SOURCE_FAMILY_PATH x -> exists label, label ∈ l /\ utf8 label = x) -> (forall c, class_id = Some c -> sr_class r = Some c) ->
  file_family_may_match log_sources class_id hints = true /\
  let '(mask, tmask, rs, times) := evidence_masks s evidence tokens combined hints buckets in
  forall m, and_masks mask tmask = Some m -> Exists (in_range n) (kept_ranges m rs) /\ Exists (holds_at n (sr_time r)) (kept_ranges_with_time m rs times).
Proof.
  intros Hf Hs Hd Hk Hn Hb Ht Htexts Hok Hm Hbk Hin Hl Hc. split; [by apply (signed_family_keeps f r)|]. by apply (masks_keep f s k rng n r).
Qed.
End Theorem_.

(** * The summary answers like the footer *)

Lemma position_ext {A} (f g : A -> bool) l i : (forall x, f x = g x) -> position f l i = position g l i.
Proof. intros E. revert i; induction l as [|x l IH]; intros i; cbn; [done|]. by rewrite E, IH. Qed.

Lemma find_position {A B} (name : A -> option string) (g : nat -> B) path l i :
  snd <$> List.find (fun e => String.eqb e.1 path) (omap (fun ic : nat * A => (fun n => (n, g ic.1)) <$> name ic.2) (zip (seq i (length l)) l))
  = g <$> position (fun x => bool_decide (name x = Some path)) l i.
Proof.
  revert i; induction l as [|x l IH]; intros i; cbn; [done|]. destruct (name x) as [n|] eqn:E; cbn.
  - destruct (String.eqb_spec n path) as [->|Hne]; [by rewrite bool_decide_true|]. rewrite bool_decide_false by congruence. apply IH.
  - rewrite bool_decide_false by done. apply IH.
Qed.

(** Evidence that decides every path and indicator alike decides every hint alike. *)
Lemma hints_ext `{Unicode, XxHash, Xorf, Sbbf, FilterSize, Ipv6Parser} b1 b2 k tokens hint :
  (forall p v, blooms_may_contain b1 k p v = blooms_may_contain b2 k p v) -> (forall kind v, indicator_may_contain b1 k kind v = indicator_may_contain b2 k kind v) ->
  entity_hint b1 k hint = entity_hint b2 k hint /\ combined_hint (Some b1) k tokens hint = combined_hint (Some b2) k tokens hint.
Proof.
  intros Hc Hi. assert (He : forall p v, entity_keep b1 k p v = entity_keep b2 k p v).
  { intros p v. unfold entity_keep. rewrite Hc. destruct (classify p); [|done]. by rewrite Hi. }
  induction hint as [p v|v|z|m v|l IH] using hint_induction; cbn [entity_hint combined_hint]; try done.
  - cbn [from_option]. by rewrite He.
  - split; (destruct l as [|h l]; [done|]).
    + induction IH as [|x l' [Hx _] _ IHl]; cbn; [done|]. by rewrite Hx, IHl.
    + induction IH as [|x l' [_ Hx] _ IHl]; cbn; [done|]. by rewrite Hx, IHl.
Qed.

Section Same.
Context `{Unicode, XxHash, Xorf, Sbbf, FilterSize, Ipv6Parser} (f : Footer) (s : FileSummary) (Hs : FileSummary_of f = Some s) (k : nat) (Hk : (k < length (ft_groups f))%nat).
Context (chunk_bloom : nat -> nat -> option sbbf) (read_at : Z -> Z -> option sbbf).
Context (Hsame : forall i, chunk_bloom i k = summary_bloom read_at (EntityGroup_of (column_chunks f i !!! k))).

Lemma entity_position path : entity s path = (fun i => EntityGroup_of <$> column_chunks f i) <$> position (fun c => bool_decide (entity_name f c = Some path)) (ft_columns f) 0.
Proof. destruct (summary_fields f s Hs) as (_ & He & _ & _). unfold entity. rewrite He. unfold entity_columns. apply (find_position (entity_name f) (fun i => EntityGroup_of <$> column_chunks f i)). Qed.

Lemma flat_name c path : path ∈ BLOOM_PATHS -> bool_decide (entity_name f c = Some path) = String.eqb (path_string c) path && (max_rep_level c =? 0).
Proof.
  intros Hp. apply eq_bool_prop_intro. rewrite bool_decide_spec, andb_True. split.
  - intros [Hr Hn]%(bloom_path_flat f c path Hp). rewrite Hr, Hn, String.eqb_refl. done.
  - intros [E%Is_true_true%String.eqb_eq Hr%Is_true_true%Z.eqb_eq]. unfold entity_name. rewrite Hr, E. rewrite (bool_decide_true _ Hp), andb_false_r. done.
Qed.
Lemma indicator_name c kind : ft_marker f = true -> bool_decide (entity_name f c = Some (kind_column kind)) = (max_rep_level c =? 1) && bool_decide (indicator_leaf_kind (col_parts c) = Some kind).
Proof.
  intros Hm. apply eq_bool_prop_intro. rewrite bool_decide_spec, andb_True, bool_decide_spec. split.
  - intros (_ & Hr & Hn)%(indicator_column f c kind). by rewrite Hr, Hn.
  - intros [Hr Hn]. unfold entity_name. rewrite Hm. apply Is_true_true in Hr. rewrite Hr. cbn. by rewrite Hn.
Qed.

Lemma summary_contains_same path v : blooms_may_contain (BSummary s read_at) k path v = blooms_may_contain (BFooter f chunk_bloom) k path v.
Proof.
  unfold blooms_may_contain. destruct (bool_decide (path ∈ BLOOM_PATHS)) eqn:Hp; [|done]. apply bool_decide_eq_true in Hp. destruct (all_ascii v); [|done]. cbn [negb orb].
  unfold summary_contains, footer_column. rewrite entity_position. rewrite (position_ext _ _ (ft_columns f) 0 (fun c => flat_name c path Hp)). destruct (position _ _ _) as [i|]; cbn [fmap option_fmap option_map].
  - rewrite list_lookup_fmap, (column_chunk_lookup f i k Hk). cbn. by rewrite Hsame.
  - unfold lacks_leaf, cb_is_empty. rewrite cb_iter_paths. by destruct (summary_fields f s Hs) as (_ & _ & -> & _).
Qed.
Lemma summary_indicator_same kind v : indicator_may_contain (BSummary s read_at) k kind v = indicator_may_contain (BFooter f chunk_bloom) k kind v.
Proof.
  unfold indicator_may_contain. destruct (probe v) as [p|]; [|done]. unfold summary_indicator, footer_column. destruct (summary_fields f s Hs) as (_ & _ & _ & ->). destruct (ft_marker f) eqn:Hm; [|done]. cbn [negb].
  rewrite entity_position. rewrite (position_ext _ _ (ft_columns f) 0 (fun c => indicator_name c kind Hm)). destruct (position _ _ _) as [i|]; cbn [fmap option_fmap option_map]; [|done].
  rewrite list_lookup_fmap, (column_chunk_lookup f i k Hk). cbn. by rewrite Hsame.
Qed.

(** The compact summary of a footer answers exactly like the opened footer: where a filter
    read at its recorded place is the filter of the chunk, every hint gets the same decision
    on every row group, alone or combined with the token index. *)
Theorem summary_answers_like_footer tokens hint :
  entity_hint (BSummary s read_at) k hint = entity_hint (BFooter f chunk_bloom) k hint /\
  combined_hint (Some (BSummary s read_at)) k tokens hint = combined_hint (Some (BFooter f chunk_bloom)) k tokens hint.
Proof. apply hints_ext; [apply summary_contains_same|apply summary_indicator_same]. Qed.
End Same.

(** * A search over an example file *)

Module FileExample.
Export PruneExample.
Definition chunk (st : option Statistics) (place : option (Z * Z)) : ColumnChunk :=
  {| cc_stats := st; bloom_offset := fst <$> place; bloom_length := snd <$> place; compressed_size := 100 |}.
Definition one (s : string) : option Statistics := Some (SByteArray (Some (str_bytes s)) (Some (str_bytes s)) true true).
Definition flat (parts : list string) : Column := {| col_parts := parts; max_rep_level := 0; integer_type := bool_decide (parts = ["class_uid"]) |}.
Definition footer_ab : Footer :=
  {| ft_columns := [flat ["time"]; flat ["metadata"; "log_source"]; flat ["class_uid"]; flat ["src_endpoint"; "hostname"];
                    {| col_parts := ["nano_ioc_domains"; "list"; "item"]; max_rep_level := 1; integer_type := false |}; flat ["query"; "hostname"]];
     ft_groups :=
       [{| num_rows := 2; rg_columns := [chunk (Some (SInt64 (Some 60000000) (Some 61000000) true true)) None; chunk (one "linux_auth") None;
                                         chunk (Some (SInt32 (Some 3002) (Some 4001) true true)) None; chunk (one "ws-1") (Some (1000, 64)); chunk (one "evil.example") (Some (1064, 64)); chunk None None] |};
        {| num_rows := 3; rg_columns := [chunk (Some (SInt64 (Some 125000000) (Some 125000000) true true)) None; chunk (one "nginx") None; chunk None None; chunk (one "web-2") (Some (2000, 64)); chunk None None; chunk None None] |}];
     ft_marker := true |}.
Definition summary_ab : FileSummary := default {| ranges := []; group_times := None; entities := []; entities_located := true; column_bytes := ColumnBytes_new []; source_family := []; class_groups := []; indicators := false |} (FileSummary_of footer_ab).
Definition cells_ab (i : nat) : list Bytes :=
  match i with 1%nat => [str_bytes "linux_auth"] | 3%nat => [str_bytes "ws-1"] | 4%nat => [str_bytes "evil.example"] | 5%nat => [str_bytes "Evil.Example"] | _ => [] end.
Definition row_ab : StoredRow := {| sr_time := 60000000; sr_class := Some 4001; sr_cells := cells_ab; sr_texts := row_texts row_0 |}.
Definition filters_ab (offset len : Z) : option sbbf :=
  if offset =? 1000 then Some (sbbf_insert (str_bytes "ws-1") (sbbf_new (replicate 64 0))) else
  if offset =? 1064 then Some (sbbf_insert (str_bytes "evil.example") (sbbf_new (replicate 64 0))) else None.
Definition hints_file : list CandidateHint :=
  [SourceFamily (text "LINUX_auth"); Class_ 4001; Entity "src_endpoint.hostname" (text "WS-1"); Entity "query.hostname" (text "evil.EXAMPLE");
   Any [Keyword "token" (text "PASSWORD for"); Class_ 9]].

Lemma schema_ab : schema_ok footer_ab.
Proof.
  split.
  - intros i j c d Hi Hj. assert (i < 6)%nat by (by apply lookup_lt_Some in Hi). assert (j < 6)%nat by (by apply lookup_lt_Some in Hj).
    do 6 (destruct i as [|i]; [injection Hi as <-; do 6 (destruct j as [|j]; [injection Hj as <-; vm_compute; (reflexivity || discriminate)|]); lia|]). lia.
  - intros c Hc. unfold footer_ab in Hc. cbn [ft_columns] in Hc. repeat (apply elem_of_cons in Hc as [->|Hc]; [intros; repeat constructor; discriminate|]). by apply elem_of_nil in Hc.
Qed.
Lemma cells_cases i s : s ∈ cells_ab i -> (i = 1 /\ s = str_bytes "linux_auth" \/ i = 3 /\ s = str_bytes "ws-1" \/ i = 4 /\ s = str_bytes "evil.example" \/ i = 5 /\ s = str_bytes "Evil.Example")%nat.
Proof. destruct i as [|[|[|[|[|[|i]]]]]]; cbn [cells_ab]; intros Hs; try (by apply elem_of_nil in Hs); apply list_elem_of_singleton in Hs; tauto. Qed.
Lemma describes_ab : describes footer_ab 0 row_ab.
Proof.
  split.
  - intros i s Hs%cells_cases. destruct Hs as [[-> ->]|[[-> ->]|[[-> ->]|[-> ->]]]]; vm_compute; auto.
  - intros i c v Hi Hp. assert (i < 6)%nat by (by apply lookup_lt_Some in Hi). intros [= <-].
    do 6 (destruct i as [|i]; [injection Hi as <-; vm_compute in Hp; first [discriminate Hp|vm_compute; split; discriminate]|]). lia.
  - intros i c Hi Hp. assert (i < 6)%nat by (by apply lookup_lt_Some in Hi).
    do 6 (destruct i as [|i]; [injection Hi as <-; vm_compute in Hp; first [discriminate Hp|vm_compute; split; discriminate]|]). lia.
  - intros i c kind p s _ Hi Hr Hk (j & d & Hj & Hp & Hs%cells_cases) Hc. assert (i = 4%nat) as ->.
    { assert (i < 6)%nat by (by apply lookup_lt_Some in Hi). do 6 (destruct i as [|i]; [injection Hi as <-; first [reflexivity|discriminate Hr]|]). lia. }
    destruct Hs as [[-> ->]|[[-> ->]|[[-> ->]|[-> ->]]]]; injection Hj as <-; subst p; vm_compute in Hc; try discriminate Hc. vm_compute. left.
Qed.
Lemma filters_ab_hold : blooms_hold footer_ab 0 row_ab (BSummary summary_ab filters_ab).
Proof.
  split; [vm_compute; reflexivity|]. intros i o l bl s Ho Hb Hs%cells_cases. destruct Hs as [[-> ->]|[[-> ->]|[[-> ->]|[-> ->]]]]; vm_compute in Ho; try discriminate Ho; injection Ho as <- <-; injection Hb as <-; vm_compute; reflexivity.
Qed.
Lemma tokens_ab_hold : tokens_hold row_ab (groups_ab !! 0%nat).
Proof.
  intros g Hg.
  destruct (Forall2_lookup_r _ _ _ _ _ groups_ab_built Hg) as (rows & [= <-] & Hfin). exists (Some 2), rows_a, row_0. split_and!; [|left|done].
  apply (built_covers _ _ _ _ (for_writer_fresh true false false false (Some 2))); [unfold u64_max; cbn; lia|done].
Qed.
Lemma texts_ab_scalar : Forall text_ok (sr_texts row_ab).
Proof. repeat (apply Forall_cons; split; [apply ascii_text; vm_compute; reflexivity|]). constructor. Qed.
Lemma hints_file_ok : Forall hint_ok hints_file.
Proof. repeat (apply Forall_cons; split; [first [exact I|intros Hh; vm_compute in Hh; discriminate Hh|split; [split; [apply ascii_scalar; vm_compute; reflexivity|intros _ _; vm_compute; reflexivity]|split; exact I]]|]). constructor. Qed.
Lemma hints_file_match : Forall (row_matches footer_ab row_ab) hints_file.
Proof.
  apply Forall_cons; split; [exists (str_bytes "linux_auth"); split; [exists 1%nat, (flat ["metadata"; "log_source"]); split_and!; [reflexivity|vm_compute; reflexivity|left]|vm_compute; reflexivity]|].
  apply Forall_cons; split; [reflexivity|].
  apply Forall_cons; split; [split; [exists (str_bytes "ws-1"); split; [exists 3%nat, (flat ["src_endpoint"; "hostname"]); split_and!; [reflexivity|vm_compute; reflexivity|left]|vm_compute; reflexivity]|intros Hh; vm_compute in Hh; discriminate Hh]|].
  apply Forall_cons; split; [split; [exists (str_bytes "Evil.Example"); split; [exists 5%nat, (flat ["query"; "hostname"]); split_and!; [reflexivity|vm_compute; reflexivity|left]|vm_compute; reflexivity]|intros Hh; vm_compute in Hh; discriminate Hh]|].
  apply Forall_cons; split; [right; left; eexists; split; [left|vm_compute; reflexivity]|constructor].
Qed.
End FileExample.

Import FileExample.
Lemma file_pruning_keeps_matches_witness :
  file_family_may_match (Some [text "nginx"; text "linux_auth"]) (Some 4001) hints_file = true /\
  let '(mask, tmask, rs, times) := evidence_masks summary_ab (Some (BSummary summary_ab filters_ab)) (Some groups_ab) true hints_file (Some {[0]}) in
  forall m, and_masks mask tmask = Some m -> Exists (in_range 0) (kept_ranges m rs) /\ Exists (holds_at 0 60000000) (kept_ranges_with_time m rs times).
Proof.
  refine (file_pruning_keeps_matches footer_ab summary_ab 0 (0, 2) 0 row_ab (Some (BSummary summary_ab filters_ab)) (Some groups_ab) true hints_file (Some {[0]}) (Some [text "nginx"; text "linux_auth"]) (Some 4001)
    schema_ab _ describes_ab _ _ _ _ _ _ _ _ _ _ _).
  - vm_compute. reflexivity.
  - vm_compute. reflexivity.
  - vm_compute. split; [discriminate|reflexivity].
  - intros b Hb. injection Hb as <-. exact filters_ab_hold.
  - intros ts Hts. apply (inj Some) in Hts. rewrite <- Hts. exact tokens_ab_hold.
  - exact texts_ab_scalar.
  - exact hints_file_ok.
  - exact hints_file_match.
  - intros bs Hbs. injection Hbs as <-. apply elem_of_singleton. vm_compute. reflexivity.
  - intros ts b Hts. vm_compute in Hts. injection Hts as <-. intros Hb. injection Hb as <-. vm_compute. split; discriminate.
  - intros l x Hl (j & d & Hj & Hp & Hs%cells_cases). injection Hl as <-. destruct Hs as [[-> ->]|[[-> ->]|[[-> ->]|[-> ->]]]]; injection Hj as <-; vm_compute in Hp; try discriminate Hp. exists (text "linux_auth"). split; [right; left|vm_compute; reflexivity].
  - intros c Hc. injection Hc as <-. reflexivity.
Defined.
(** The other group is skipped: its source, its host and its words do not match. *)
Example file_mask_ab : hint_mask summary_ab (Some (BSummary summary_ab filters_ab)) (Some groups_ab) true hints_file = Some [true; false].
Proof. vm_compute. reflexivity. Qed.

Lemma summary_answers_like_footer_witness :
  entity_hint (BSummary summary_ab filters_ab) 1 (Entity "src_endpoint.hostname" (text "ws-1")) = entity_hint (BFooter footer_ab (fun i k => summary_bloom filters_ab (EntityGroup_of (column_chunks footer_ab i !!! k)))) 1 (Entity "src_endpoint.hostname" (text "ws-1")) /\
  combined_hint (Some (BSummary summary_ab filters_ab)) 1 None (Entity "src_endpoint.hostname" (text "ws-1")) = combined_hint (Some (BFooter footer_ab (fun i k => summary_bloom filters_ab (EntityGroup_of (column_chunks footer_ab i !!! k))))) 1 None (Entity "src_endpoint.hostname" (text "ws-1")).
Proof.
  refine (summary_answers_like_footer footer_ab summary_ab _ 1 _ _ filters_ab _ None (Entity "src_endpoint.hostname" (text "ws-1"))).
  - vm_compute. reflexivity.
  - cbn. lia.
  - intros i. reflexivity.
Defined.
