(* ===== verification/SummaryCache.v ===== *)
(** * SummaryCache: the bounded cache of footer summaries

    Models [SummaryCache] of [part_query/prune.rs] with the resident-byte accounting of a
    summary. Path lists are interned, so two resident summaries share a list exactly when
    their lists are equal: a list stands for its identity. The counts the accounting adds up
    are sizes of resident objects; the cache's own sums saturate as the source writes. *)
From S2P Require Import Prelude Bytes FilePrune.

(** ** Resident bytes *)

Definition blen (v : option Bytes) : Z := match v with Some v => Z.of_nat (length v) | None => 0 end.
(** [EntityGroup::bytes] *)
Definition eg_bytes (g : EntityGroup) : Z := 48 + blen (eg_min g) + blen (eg_max g).
(** [ColumnBytes::owned_bytes] *)
Definition owned_bytes (c : ColumnBytes) : Z := 40 + Z.of_nat (length (cb_bytes c)) * 4.
(** [ColumnBytes::shared]: the identity of the path list and its bytes. *)
Definition list_bytes (ps : list string) : Z := 32 + zsum ((fun p => str_len p + 16) <$> ps).
Definition shared (c : ColumnBytes) : option (list string * Z) := (fun ps => (ps, list_bytes ps)) <$> cb_paths c.
(** [FileSummary::bytes] *)
Definition summary_bytes (s : FileSummary) : Z :=
  96 + Z.of_nat (length (ranges s)) * 16
  + match group_times s with Some ts => Z.of_nat (length ts) * 24 | None => 0 end
  + zsum ((fun e => str_len e.1 + 24 + zsum (eg_bytes <$> e.2)) <$> entities s)
  + owned_bytes (column_bytes s) + zsum (eg_bytes <$> source_family s) + Z.of_nat (length (class_groups s)) * 24.

(** ** The cache *)

Definition MAX_FILE_SUMMARIES : Z := 16384.
Definition MAX_SUMMARY_BYTES : Z := 67108864.

Record SummaryCache := SC {
  sc_map : gmap string (Z * FileSummary);
  sc_tick : Z;
  sc_bytes : Z;
  sc_shared : gmap (list string) (Z * Z) }.
Definition SummaryCache_default : SummaryCache := SC ∅ 0 0 ∅.

(** [charge] *)
Definition charge (c : SummaryCache) (s : FileSummary) : SummaryCache :=
  let bytes := sat_u64 (sc_bytes c + summary_bytes s) in
  match shared (column_bytes s) with
  | None => SC (sc_map c) (sc_tick c) bytes (sc_shared c)
  | Some (identity, b) =>
      let entry := default (0, b) (sc_shared c !! identity) in
      SC (sc_map c) (sc_tick c) (if entry.1 =? 0 then sat_u64 (bytes + b) else bytes) (<[identity := (entry.1 + 1, entry.2)]> (sc_shared c))
  end.
(** [discharge] *)
Definition discharge (c : SummaryCache) (s : FileSummary) : SummaryCache :=
  let bytes := sat_u64 (sc_bytes c - summary_bytes s) in
  match shared (column_bytes s) with
  | None => SC (sc_map c) (sc_tick c) bytes (sc_shared c)
  | Some (identity, _) =>
      match sc_shared c !! identity with
      | None => SC (sc_map c) (sc_tick c) bytes (sc_shared c)
      | Some entry =>
          if entry.1 - 1 =? 0 then SC (sc_map c) (sc_tick c) (sat_u64 (bytes - entry.2)) (delete identity (sc_shared c))
          else SC (sc_map c) (sc_tick c) bytes (<[identity := (entry.1 - 1, entry.2)]> (sc_shared c))
      end
  end.
(** [cost] *)
Definition cost (c : SummaryCache) (s : FileSummary) : Z :=
  summary_bytes s + match shared (column_bytes s) with
                    | Some (identity, b) => if bool_decide (is_Some (sc_shared c !! identity)) then 0 else b
                    | None => 0
                    end.
(** [get] *)
Definition cache_get (key : string) (c : SummaryCache) : option FileSummary * SummaryCache :=
  let tick := wrap_u64 (sc_tick c + 1) in
  match sc_map c !! key with
  | Some (_, s) => (Some s, SC (<[key := (tick, s)]> (sc_map c)) tick (sc_bytes c) (sc_shared c))
  | None => (None, SC (sc_map c) tick (sc_bytes c) (sc_shared c))
  end.

(** The eviction of a round: the least recently used eighth, at least one. *)
Definition threshold (m : gmap string (Z * FileSummary)) : Z :=
  let ages := (map_to_list m).*2.*1 in sort_by Z.leb ages !!! (length ages / 8)%nat.
Definition evict (c : SummaryCache) : SummaryCache :=
  let t := threshold (sc_map c) in
  let m := filter (fun e : string * (Z * FileSummary) => t < e.2.1) (sc_map c) in
  foldl charge (SC m (sc_tick c) 0 ∅) (map_to_list m).*2.*2.
Definition over (s : FileSummary) (c : SummaryCache) : bool :=
  ((MAX_FILE_SUMMARIES <=? Z.of_nat (size (sc_map c))) || (MAX_SUMMARY_BYTES <? sat_u64 (sc_bytes c + cost c s))) && negb (bool_decide (sc_map c = ∅)).
Fixpoint make_room (fuel : nat) (s : FileSummary) (c : SummaryCache) : SummaryCache :=
  match fuel with
  | O => c
  | S fuel => if over s c then make_room fuel s (evict c) else c
  end.
(** The entry a key had is taken out first. *)
Definition without (key : string) (c : SummaryCache) : SummaryCache :=
  let tick := wrap_u64 (sc_tick c + 1) in
  match sc_map c !! key with
  | Some (_, previous) => discharge (SC (delete key (sc_map c)) tick (sc_bytes c) (sc_shared c)) previous
  | None => SC (sc_map c) tick (sc_bytes c) (sc_shared c)
  end.
(** [insert] *)
Definition cache_insert (key : string) (s : FileSummary) (c : SummaryCache) : SummaryCache :=
  let c := without key c in
  if MAX_SUMMARY_BYTES <? cost c s then c else
  let c := charge (make_room (size (sc_map c)) s c) s in
  let previous := sc_map c !! key in
  let c := SC (<[key := (sc_tick c, s)]> (sc_map c)) (sc_tick c) (sc_bytes c) (sc_shared c) in
  match previous with Some (_, p) => discharge c p | None => c end.

Inductive SummaryOp := SGet (key : string) | SInsert (key : string) (s : FileSummary).
Definition run_op (c : SummaryCache) (o : SummaryOp) : SummaryCache :=
  match o with SGet key => (cache_get key c).2 | SInsert key s => cache_insert key s c end.

(** ** What the accounting stands for *)

Definition path_list (s : FileSummary) : option (list string) := cb_paths (column_bytes s).
Definition uses (ps : list string) (l : list FileSummary) : Z := Z.of_nat (length (filter (fun s => path_list s = Some ps) l)).
Definition lists (l : list FileSummary) : gset (list string) := list_to_set (omap path_list l).
Definition lists_bytes (X : gset (list string)) : Z := zsum (list_bytes <$> elements X).
(** Each summary's own bytes, and each distinct path list once. *)
Definition total (l : list FileSummary) : Z := zsum (summary_bytes <$> l) + lists_bytes (lists l).
Definition residents (m : gmap string (Z * FileSummary)) : list FileSummary := (map_to_list m).*2.*2.
Record accounted (l : list FileSummary) (c : SummaryCache) : Prop := {
  ac_bytes : sc_bytes c = total l;
  ac_shared ps : sc_shared c !! ps = if uses ps l =? 0 then None else Some (uses ps l, list_bytes ps) }.

#[local] Instance total_proper : Proper ((≡ₚ) ==> (=)) total.
Proof. intros l k E. unfold total, lists. f_equal; [apply zsum_perm; by rewrite E|]. f_equal. apply set_eq. intros x. rewrite !elem_of_list_to_set. by rewrite E. Qed.
Lemma uses_perm ps l k : l ≡ₚ k -> uses ps l = uses ps k.
Proof. intros E. unfold uses. by rewrite E. Qed.
Lemma accounted_perm l k c : l ≡ₚ k -> accounted l c -> accounted k c.
Proof. intros E [Hb Hs]. constructor; [by rewrite <- E|]. intros ps. by rewrite <- (uses_perm ps l k E). Qed.

Lemma list_bytes_nonneg ps : 0 <= list_bytes ps.
Proof. unfold list_bytes. pose proof (zsum_nonneg ((fun p => str_len p + 16) <$> ps)) as Hs. assert (0 <= zsum ((fun p => str_len p + 16) <$> ps)); [|lia]. apply Hs, Forall_fmap, Forall_true. intros p. cbn. unfold str_len. lia. Qed.
Lemma eg_bytes_nonneg g : 0 <= eg_bytes g.
Proof. unfold eg_bytes, blen. destruct (eg_min g), (eg_max g); lia. Qed.
Lemma summary_bytes_nonneg s : 0 <= summary_bytes s.
Proof.
  unfold summary_bytes, owned_bytes. assert (H1 : 0 <= zsum ((fun e => str_len e.1 + 24 + zsum (eg_bytes <$> e.2)) <$> entities s)).
  { apply zsum_nonneg, Forall_fmap, Forall_true. intros e. cbn. unfold str_len. assert (0 <= zsum (eg_bytes <$> e.2)); [|lia]. apply zsum_nonneg, Forall_fmap, Forall_true, eg_bytes_nonneg. }
  assert (H2 : 0 <= zsum (eg_bytes <$> source_family s)) by apply zsum_nonneg, Forall_fmap, Forall_true, eg_bytes_nonneg.
  destruct (group_times s); lia.
Qed.

Lemma lists_bytes_add ps X : ps ∉ X -> lists_bytes ({[ps]} ∪ X) = list_bytes ps + lists_bytes X.
Proof. intros Hx. unfold lists_bytes. rewrite (zsum_perm _ (list_bytes <$> (ps :: elements X))); [done|]. by rewrite elements_union_singleton. Qed.
Lemma lists_bytes_mono X Y : X ⊆ Y -> lists_bytes X <= lists_bytes Y.
Proof. intros Hs. unfold lists_bytes. apply zsum_submseteq; [apply fmap_submseteq; by rewrite elements_submseteq|]. apply Forall_fmap, Forall_true, list_bytes_nonneg. Qed.

Lemma elem_of_lists ps l : ps ∈ lists l <-> uses ps l <> 0.
Proof.
  unfold lists, uses. rewrite elem_of_list_to_set, list_elem_of_omap. split.
  - intros (s & Hs & E). assert (Hin : s ∈ filter (fun s => path_list s = Some ps) l) by by apply list_elem_of_filter. destruct (filter _ l); [by apply not_elem_of_nil in Hin|done].
  - destruct (filter _ l) as [|s k] eqn:E; [done|]. intros _. exists s. assert (Hin : s ∈ filter (fun s => path_list s = Some ps) l) by (rewrite E; apply list_elem_of_here). apply list_elem_of_filter in Hin. tauto.
Qed.
Lemma uses_cons ps s l : uses ps (s :: l) = (if bool_decide (path_list s = Some ps) then 1 else 0) + uses ps l.
Proof. unfold uses. rewrite filter_cons. case_bool_decide; [rewrite decide_True by done; cbn; lia|by rewrite decide_False]. Qed.
Lemma uses_nonneg ps l : 0 <= uses ps l.
Proof. unfold uses. lia. Qed.

(** What a summary adds. *)
Lemma total_cons s l : total (s :: l) = total l + summary_bytes s + match path_list s with Some ps => if uses ps l =? 0 then list_bytes ps else 0 | None => 0 end.
Proof.
  unfold total. cbn [fmap list_fmap zsum foldr]. fold (zsum (summary_bytes <$> l)). assert (E : lists (s :: l) = match path_list s with Some ps => {[ps]} ∪ lists l | None => lists l end).
  { unfold lists. cbn. by destruct (path_list s). }
  rewrite E. destruct (path_list s) as [ps|]; [|lia]. destruct (Z.eqb_spec (uses ps l) 0) as [Hu|Hu].
  - rewrite lists_bytes_add by (rewrite elem_of_lists; lia). lia.
  - apply elem_of_lists in Hu. replace ({[ps]} ∪ lists l) with (lists l) by set_solver. lia.
Qed.
Lemma total_nonneg l : 0 <= total l.
Proof. unfold total. assert (0 <= zsum (summary_bytes <$> l)) by (apply zsum_nonneg, Forall_fmap, Forall_true, summary_bytes_nonneg). assert (0 <= lists_bytes (lists l)); [|lia]. apply zsum_nonneg, Forall_fmap, Forall_true, list_bytes_nonneg. Qed.
Lemma total_mono l k : l ⊆+ k -> total l <= total k.
Proof.
  intros Hs. unfold total. assert (zsum (summary_bytes <$> l) <= zsum (summary_bytes <$> k)) by (apply zsum_submseteq; [by apply fmap_submseteq|]; apply Forall_fmap, Forall_true, summary_bytes_nonneg).
  assert (lists_bytes (lists l) <= lists_bytes (lists k)); [|lia]. apply lists_bytes_mono. intros ps. unfold lists. rewrite !elem_of_list_to_set, !list_elem_of_omap. intros (s & Hin & E). exists s. split; [|done]. by apply (elem_of_submseteq l).
Qed.

(** ** Charging and discharging *)

Lemma accounted_empty m t : accounted [] (SC m t 0 ∅).
Proof. constructor; [done|]. intros ps. cbn. by rewrite lookup_empty. Qed.
(** The accounting does not look at the entries or the clock. *)
Lemma accounted_same l c d : sc_bytes c = sc_bytes d -> sc_shared c = sc_shared d -> accounted l c -> accounted l d.
Proof. intros Hb Hs [H1 H2]. constructor; [by rewrite <- Hb|]. intros ps. by rewrite <- Hs. Qed.

Lemma charge_accounts l c s : accounted l c -> total (s :: l) <= u64_max -> accounted (s :: l) (charge c s).
Proof.
  intros [Hb Hs] Hmax. pose proof (total_cons s l) as Ht. pose proof (total_nonneg l) as Hn. pose proof (summary_bytes_nonneg s) as Hn2. unfold charge, shared. fold (path_list s). destruct (path_list s) as [ps|] eqn:E; cbn.
  - pose proof (list_bytes_nonneg ps) as Hn3. rewrite Hb. constructor; cbn.
    + rewrite Hs. revert Ht. destruct (Z.eqb_spec (uses ps l) 0) as [Hu|Hu]; intros Ht; rewrite Ht in *; cbn [default fst].
      * cbn [Z.eqb]. rewrite (sat_u64_id (total l + summary_bytes s)) by (unfold in_u64; lia). rewrite sat_u64_id by (unfold in_u64; lia). lia.
      * cbn [id fst]. rewrite (proj2 (Z.eqb_neq _ _) Hu). rewrite sat_u64_id by (unfold in_u64; lia). lia.
    + intros qs. rewrite uses_cons, E. destruct (decide (ps = qs)) as [->|Hne].
      * rewrite lookup_insert_eq, bool_decide_true by done. pose proof (uses_nonneg qs l). rewrite (proj2 (Z.eqb_neq (1 + uses qs l) 0)) by lia. rewrite Hs. destruct (Z.eqb_spec (uses qs l) 0) as [Hu|Hu]; cbn; do 2 f_equal; lia.
      * rewrite lookup_insert_ne, bool_decide_false by congruence. apply Hs.
  - constructor; cbn; [rewrite Ht, Hb, sat_u64_id by (unfold in_u64; lia); lia|]. intros qs. rewrite uses_cons, E, bool_decide_false by done. apply Hs.
Qed.

Lemma discharge_accounts l c s : accounted (s :: l) c -> total (s :: l) <= u64_max -> accounted l (discharge c s).
Proof.
  intros [Hb Hs] Hmax. pose proof (total_cons s l) as Ht. pose proof (total_nonneg l) as Hn. pose proof (summary_bytes_nonneg s) as Hn2. unfold discharge, shared. fold (path_list s). destruct (path_list s) as [ps|] eqn:E; cbn.
  - pose proof (list_bytes_nonneg ps) as Hn3. pose proof (uses_nonneg ps l) as Hn4. pose proof (Hs ps) as Hps. rewrite uses_cons, E, bool_decide_true in Hps by done. rewrite (proj2 (Z.eqb_neq (1 + uses ps l) 0)) in Hps by lia. rewrite Hps. cbn [fst snd].
    assert (Hother : forall qs, ps <> qs -> sc_shared c !! qs = if uses qs l =? 0 then None else Some (uses qs l, list_bytes qs)).
    { intros qs Hne. rewrite Hs, uses_cons, E, bool_decide_false by congruence. done. }
    destruct (Z.eqb_spec (1 + uses ps l - 1) 0) as [Hu|Hu].
    + rewrite (proj2 (Z.eqb_eq (uses ps l) 0)) in Ht by lia. constructor; cbn; [rewrite Hb, Ht; rewrite (sat_u64_id (_ + _ + _ - summary_bytes s)) by (unfold in_u64; lia); rewrite sat_u64_id by (unfold in_u64; lia); lia|].
      intros qs. destruct (decide (ps = qs)) as [->|Hne]; [rewrite lookup_delete_eq; by rewrite (proj2 (Z.eqb_eq (uses qs l) 0)) by lia|]. rewrite lookup_delete_ne by done. by apply Hother.
    + rewrite (proj2 (Z.eqb_neq (uses ps l) 0)) in Ht by lia. constructor; cbn; [rewrite Hb, Ht, sat_u64_id by (unfold in_u64; lia); lia|].
      intros qs. destruct (decide (ps = qs)) as [->|Hne]; [|rewrite lookup_insert_ne by done; by apply Hother]. rewrite lookup_insert_eq, (proj2 (Z.eqb_neq (uses qs l) 0)) by lia. do 2 f_equal. lia.
  - constructor; cbn; [rewrite Hb, Ht, sat_u64_id by (unfold in_u64; lia); lia|]. intros qs. rewrite Hs, uses_cons, E, bool_decide_false by done. done.
Qed.

Lemma cost_spec l c s : accounted l c -> cost c s = total (s :: l) - total l.
Proof.
  intros [Hb Hs]. rewrite total_cons. unfold cost, shared. fold (path_list s). destruct (path_list s) as [ps|]; cbn; [|lia]. rewrite Hs. destruct (uses ps l =? 0); [rewrite bool_decide_false by (by intros [? ?])|rewrite bool_decide_true by done]; lia.
Qed.

Lemma charge_map c s : sc_map (charge c s) = sc_map c /\ sc_tick (charge c s) = sc_tick c.
Proof. unfold charge. by destruct (shared (column_bytes s)) as [[ps b]|]. Qed.
Lemma discharge_map c s : sc_map (discharge c s) = sc_map c /\ sc_tick (discharge c s) = sc_tick c.
Proof. unfold discharge. destruct (shared (column_bytes s)) as [[ps b]|]; [|done]. destruct (sc_shared c !! ps) as [e|]; [|done]. by destruct (e.1 - 1 =? 0). Qed.
Lemma charges_map c l : sc_map (foldl charge c l) = sc_map c /\ sc_tick (foldl charge c l) = sc_tick c.
Proof. revert c; induction l as [|s l IH]; intros c; cbn; [done|]. destruct (IH (charge c s)) as [-> ->]. apply charge_map. Qed.
Lemma charges_account l k c : accounted k c -> total (rev l ++ k) <= u64_max -> accounted (rev l ++ k) (foldl charge c l).
Proof.
  revert k c; induction l as [|s l IH]; intros k c Hc Hmax; cbn in *; [done|]. rewrite <- app_assoc in *. cbn in *. apply IH; [|done]. apply charge_accounts; [done|].
  etrans; [|exact Hmax]. apply total_mono, submseteq_inserts_l, reflexivity.
Qed.

(** ** A round of eviction *)

Lemma residents_sub m n : m ⊆ n -> residents m ⊆+ residents n.
Proof. intros Hs. unfold residents. by apply fmap_submseteq, fmap_submseteq, map_to_list_submseteq. Qed.

Lemma evict_map c : sc_map (evict c) = filter (fun e : string * (Z * FileSummary) => threshold (sc_map c) < e.2.1) (sc_map c) /\ sc_tick (evict c) = sc_tick c.
Proof. unfold evict. destruct (charges_map (SC (filter (fun e : string * (Z * FileSummary) => threshold (sc_map c) < e.2.1) (sc_map c)) (sc_tick c) 0 ∅) (map_to_list (filter (fun e : string * (Z * FileSummary) => threshold (sc_map c) < e.2.1) (sc_map c))).*2.*2) as [E1 E2]. by rewrite E1, E2. Qed.
Lemma evict_accounts c : total (residents (sc_map c)) <= u64_max -> accounted (residents (sc_map (evict c))) (evict c).
Proof.
  intros Hmax. rewrite (proj1 (evict_map c)). set (m := filter _ _). assert (Hsub : total (residents m) <= u64_max) by (etrans; [apply total_mono, residents_sub, map_filter_subseteq|done]).
  apply (accounted_perm (rev (residents m) ++ [])); [by rewrite app_nil_r, <- Permutation_rev|]. unfold evict. apply charges_account; [apply accounted_empty|]. by rewrite app_nil_r, <- Permutation_rev.
Qed.
(** The threshold is the age of a resident entry, so the round drops it. *)
Lemma threshold_resident m : m <> ∅ -> exists key e, m !! key = Some e /\ e.1 = threshold m.
Proof.
  intros Hm. unfold threshold. set (ages := (map_to_list m).*2.*1). assert (Hlen : (0 < length ages)%nat).
  { unfold ages. rewrite !length_fmap. destruct (map_to_list m) eqn:E; [by apply map_to_list_empty_iff in E|cbn; lia]. }
  assert (Hin : sort_by Z.leb ages !!! (length ages / 8)%nat ∈ ages).
  { rewrite <- (elem_of_sort_by Z.leb). apply list_elem_of_lookup_total_2. rewrite length_sort_by. apply Nat.div_lt; lia. }
  unfold ages in Hin at 3. apply list_elem_of_fmap in Hin as (e & He & ([key e2] & -> & Hin)%list_elem_of_fmap). apply elem_of_map_to_list in Hin. eauto.
Qed.
Lemma evict_shrinks c : sc_map c <> ∅ -> (size (sc_map (evict c)) < size (sc_map c))%nat.
Proof.
  intros Hm. rewrite (proj1 (evict_map c)). apply map_subset_size. split; [apply map_filter_subseteq|]. intros Hsub. destruct (threshold_resident _ Hm) as (key & e & Hk & He).
  apply (lookup_weaken _ _ _ _ Hk) in Hsub. apply map_lookup_filter_Some in Hsub as [_ Hlt]. cbn in Hlt. lia.
Qed.

(** Every entry that went is older than every entry that stayed. *)
Definition older_gone (m n : gmap string (Z * FileSummary)) : Prop :=
  forall k e k' e', m !! k = Some e -> n !! k = None -> n !! k' = Some e' -> e.1 < e'.1.

Lemma make_room_spec fuel s c : (size (sc_map c) <= fuel)%nat -> accounted (residents (sc_map c)) c -> total (residents (sc_map c)) <= u64_max ->
  let d := make_room fuel s c in
  accounted (residents (sc_map d)) d /\ sc_map d ⊆ sc_map c /\ sc_tick d = sc_tick c /\ over s d = false /\ older_gone (sc_map c) (sc_map d).
Proof.
  revert c; induction fuel as [|fuel IH]; intros c Hf Ha Hmax; cbn.
  - assert (E : sc_map c = ∅) by (apply map_size_empty_iff; lia). split_and!; [done..| |]; [unfold over; by rewrite E, andb_false_r|]. intros k e k' e' Hk Hn. congruence.
  - destruct (over s c) eqn:Ho; [|split_and!; [done..|]; intros k e k' e' Hk Hn; congruence]. assert (Hne : sc_map c <> ∅). { intros E. unfold over in Ho. by rewrite E, andb_false_r in Ho. }
    destruct (evict_map c) as [Hmap Htick]. assert (Hsub : sc_map (evict c) ⊆ sc_map c) by (rewrite Hmap; apply map_filter_subseteq).
    destruct (IH (evict c)) as (H1 & H2 & H3 & H4 & H5); [pose proof (evict_shrinks c Hne); lia|by apply evict_accounts|etrans; [by apply total_mono, residents_sub|done]|].
    split_and!; [done|by etrans|congruence|done|]. intros k e k' e' Hk Hn Hk'. destruct (sc_map (evict c) !! k) as [e2|] eqn:Hk2.
    + assert (e2 = e) as -> by (apply (lookup_weaken _ _ _ _ Hk2) in Hsub; congruence). by apply (H5 k e k' e').
    + apply (lookup_weaken _ _ _ _ Hk') in H2. rewrite Hmap in Hk2, H2. apply map_lookup_filter_Some in H2 as [_ Hlt]. apply map_lookup_filter_None in Hk2 as [Hk2|Hk2]; [congruence|]. specialize (Hk2 e Hk). cbn in *. lia.
Qed.

(** ** The invariant *)

(** The bytes are those of the resident summaries, and both limits hold. *)
Record cache_ok (c : SummaryCache) : Prop := {
  ok_accounted : accounted (residents (sc_map c)) c;
  ok_bytes : sc_bytes c <= MAX_SUMMARY_BYTES;
  ok_size : Z.of_nat (size (sc_map c)) <= MAX_FILE_SUMMARIES }.

Lemma residents_insert m key t s : m !! key = None -> residents (<[key := (t, s)]> m) ≡ₚ s :: residents m.
Proof. intros Hk. unfold residents. rewrite (map_to_list_insert m key (t, s) Hk). reflexivity. Qed.
Lemma residents_delete m key t s : m !! key = Some (t, s) -> residents m ≡ₚ s :: residents (delete key m).
Proof. intros Hk. rewrite <- (insert_id m key (t, s) Hk) at 1. rewrite <- insert_delete_eq. apply residents_insert, lookup_delete_eq. Qed.

Lemma get_ok key c : cache_ok c -> cache_ok (cache_get key c).2 /\ (cache_get key c).1 = snd <$> sc_map c !! key /\ (snd <$> sc_map (cache_get key c).2) = (snd <$> sc_map c).
Proof.
  intros [Ha Hb Hs]. unfold cache_get. destruct (sc_map c !! key) as [[t s]|] eqn:Hk; cbn; [|split_and!; [constructor; [by apply (accounted_same _ c)|done|done]|done|done]]. split_and!; [|done|].
  - constructor; cbn; [|done|].
    + apply (accounted_same _ c); [done..|]. apply (accounted_perm (residents (sc_map c))); [|done]. rewrite (residents_delete _ _ _ _ Hk). rewrite <- insert_delete_eq. symmetry. apply residents_insert, lookup_delete_eq.
    + rewrite map_size_insert_Some; [done|]. by rewrite Hk.
  - rewrite fmap_insert. cbn. apply insert_id. by rewrite lookup_fmap, Hk.
Qed.

Lemma without_ok key c : cache_ok c -> cache_ok (without key c) /\ sc_map (without key c) = delete key (sc_map c) /\ sc_tick (without key c) = wrap_u64 (sc_tick c + 1).
Proof.
  intros [Ha Hb Hs]. unfold without. destruct (sc_map c !! key) as [[t s]|] eqn:Hk; [|split_and!; cbn; [constructor; [by apply (accounted_same _ c)|done|done]|by rewrite delete_id|done]].
  set (c' := SC _ _ _ _). destruct (discharge_map c' s) as [Hm Ht]. rewrite Hm, Ht. split_and!; [|done|done]. assert (Hx : accounted (s :: residents (delete key (sc_map c))) c').
  { apply (accounted_same _ c); [done..|]. by apply (accounted_perm (residents (sc_map c))), Ha; apply residents_delete with t. }
  pose proof (ac_bytes _ _ Hx) as Hb'. cbn in Hb'. assert (Hd : accounted (residents (delete key (sc_map c))) (discharge c' s)) by (apply discharge_accounts; [done|]; unfold MAX_SUMMARY_BYTES, u64_max in *; lia).
  constructor; rewrite ?Hm; [done| |].
  - rewrite (ac_bytes _ _ Hd). etrans; [apply (total_mono _ (s :: residents (delete key (sc_map c))))|lia]. apply submseteq_cons, reflexivity.
  - cbn. etrans; [|exact Hs]. apply Nat2Z.inj_le. by apply map_subseteq_size, delete_subseteq.
Qed.

(** After the room is made the summary fits. *)
Lemma room_fits s c : accounted (residents (sc_map c)) c -> total (residents (sc_map c)) <= MAX_SUMMARY_BYTES -> summary_bytes s + from_option list_bytes 0 (path_list s) <= MAX_SUMMARY_BYTES ->
  over s c = false -> total (s :: residents (sc_map c)) <= MAX_SUMMARY_BYTES /\ Z.of_nat (size (sc_map c)) < MAX_FILE_SUMMARIES.
Proof.
  intros Ha Ht Hs Ho. pose proof (cost_spec _ _ s Ha) as Hc. destruct (decide (sc_map c = ∅)) as [E|E].
  - rewrite E. split; [|done]. assert (E0 : residents ∅ = []) by (unfold residents; by rewrite map_to_list_empty). rewrite E0, total_cons. change (total []) with 0. destruct (path_list s) as [ps|]; cbn in *; [change (uses ps []) with 0; cbn|]; lia.
  - unfold over in Ho. rewrite bool_decide_false in Ho by done. rewrite andb_true_r in Ho. apply orb_false_iff in Ho as [H1%Z.leb_gt H2%Z.ltb_ge]. split; [|done].
    rewrite (ac_bytes _ _ Ha), Hc in H2. pose proof (total_nonneg (s :: residents (sc_map c))). unfold sat_u64 in H2. unfold MAX_SUMMARY_BYTES, u64_max in *. lia.
Qed.

(** A summary that fits alone, or that no sharing can make fit. *)
Definition sized (s : FileSummary) : Prop := summary_bytes s + from_option list_bytes 0 (path_list s) <= MAX_SUMMARY_BYTES \/ MAX_SUMMARY_BYTES < summary_bytes s.

Lemma cost_bounds c s : summary_bytes s <= cost c s <= summary_bytes s + from_option list_bytes 0 (path_list s).
Proof. unfold cost, shared. fold (path_list s). destruct (path_list s) as [ps|]; cbn; [|lia]. pose proof (list_bytes_nonneg ps). case_bool_decide; lia. Qed.

(** An insertion that is not refused: the entry under its key joins what room was made
    among, with its bytes accounted for. *)
Lemma insert_core key s c : cache_ok c -> cost (without key c) s <= MAX_SUMMARY_BYTES -> summary_bytes s + from_option list_bytes 0 (path_list s) + MAX_SUMMARY_BYTES <= u64_max ->
  exists d, accounted (residents (sc_map d)) d /\ total (residents (sc_map d)) <= MAX_SUMMARY_BYTES /\ over s d = false /\
    sc_map d ⊆ delete key (sc_map c) /\ older_gone (delete key (sc_map c)) (sc_map d) /\ sc_map d !! key = None /\
    sc_map (cache_insert key s c) = <[key := (wrap_u64 (sc_tick c + 1), s)]> (sc_map d) /\ accounted (s :: residents (sc_map d)) (cache_insert key s c).
Proof.
  intros Hc Hle Hfit. destruct (without_ok key c Hc) as (Hw & Hm & Ht). unfold cache_insert. rewrite (proj2 (Z.ltb_ge _ (cost _ _))) by lia. destruct Hw as [Ha Hb Hsz]. pose proof (ac_bytes _ _ Ha) as Htot. rewrite Htot in Hb.
  destruct (make_room_spec (size (sc_map (without key c))) s (without key c)) as (Hra & Hrs & Hrt & Hro & Hrg); [lia|done|unfold MAX_SUMMARY_BYTES, u64_max in *; lia|].
  set (d := make_room _ _ _) in *. assert (Hdb : total (residents (sc_map d)) <= MAX_SUMMARY_BYTES) by (etrans; [by apply total_mono, residents_sub|done]).
  destruct (charge_map d s) as [Ecm Ect]. rewrite Ecm, Ect. assert (Hfresh : sc_map d !! key = None). { apply (lookup_weaken_None _ _ _ (lookup_delete_eq (sc_map c) key)). by rewrite <- Hm. }
  rewrite Hfresh. exists d. rewrite Hm in Hrs, Hrg. cbn. rewrite Hrt, Ht. split_and!; try done. apply (accounted_same _ (charge d s)); [done..|]. apply charge_accounts; [done|].
  pose proof (cost_spec _ _ s Hra). pose proof (cost_bounds d s). lia.
Qed.

(** What an insertion leaves: the entry under its key, and of the others the most recently
    used ones, or only the others when the summary is too large. *)
Lemma insert_spec key s c : cache_ok c -> sized s ->
  cache_ok (cache_insert key s c) /\
  if MAX_SUMMARY_BYTES <? summary_bytes s then sc_map (cache_insert key s c) = delete key (sc_map c)
  else exists kept, sc_map (cache_insert key s c) = <[key := (wrap_u64 (sc_tick c + 1), s)]> kept /\ kept ⊆ delete key (sc_map c) /\ older_gone (delete key (sc_map c)) kept.
Proof.
  intros Hc Hs. pose proof (cost_bounds (without key c) s) as Hcost. destruct Hs as [Hs|Hs].
  - destruct (insert_core key s c Hc) as (d & Hra & Hdb & Hro & Hsub & Hgone & Hfresh & Hmap & Hch); [lia|unfold MAX_SUMMARY_BYTES, u64_max in *; lia|]. destruct (room_fits s d Hra Hdb Hs Hro) as [Hfit Hroom].
    rewrite (proj2 (Z.ltb_ge _ (summary_bytes s))) by lia. split; [|eauto]. constructor; rewrite ?Hmap.
    + apply (accounted_perm (s :: residents (sc_map d))); [|done]. symmetry. by apply residents_insert.
    + by rewrite (ac_bytes _ _ Hch).
    + rewrite map_size_insert_None by done. lia.
  - destruct (without_ok key c Hc) as (Hw & Hm & _). unfold cache_insert. rewrite (proj2 (Z.ltb_lt _ (cost _ _))) by lia. by rewrite (proj2 (Z.ltb_lt _ (summary_bytes s))) by lia.
Qed.

Lemma default_ok : cache_ok SummaryCache_default.
Proof. constructor; [apply accounted_empty|done|done]. Qed.
Definition op_sized (o : SummaryOp) : Prop := match o with SGet _ => True | SInsert _ s => sized s end.
Lemma run_op_ok c o : cache_ok c -> op_sized o -> cache_ok (run_op c o).
Proof. intros Hc Ho. destruct o as [key|key s]; cbn; [by apply get_ok|by apply insert_spec]. Qed.
Lemma summary_run_ok ops c : cache_ok c -> Forall op_sized ops -> cache_ok (foldl run_op c ops).
Proof. intros Hc Ho. revert c Hc; induction Ho as [|o ops Ho _ IH]; intros c Hc; cbn; [done|]. apply IH. by apply run_op_ok. Qed.

(** The summary cache stays exact and bounded, and evicts the least recently used. After
    any lookups and insertions its byte count is the bytes of the resident summaries with
    each distinct path list counted once, at most 64 MiB, over at most 16,384 entries; the
    eviction rounds end. A further insertion is found under its key (or the key is absent
    when the summary alone is over the limit), every other key keeps its entry or loses it,
    and an entry that goes was used before every entry that stays. *)
Theorem summary_cache_bounded ops key s : Forall op_sized ops -> sized s ->
  let c := foldl run_op SummaryCache_default ops in
  let d := cache_insert key s c in
  cache_ok c /\ (cache_get key d).1 = (if MAX_SUMMARY_BYTES <? summary_bytes s then None else Some s) /\
  (forall k, k <> key -> sc_map d !! k = sc_map c !! k \/ sc_map d !! k = None) /\ older_gone (delete key (sc_map c)) (delete key (sc_map d)).
Proof.
  intros Hops Hs. cbn zeta. set (c := foldl _ _ _). assert (Hc : cache_ok c) by (apply summary_run_ok; [apply default_ok|done]). destruct (insert_spec key s c Hc Hs) as [Hd Hm]. split; [done|].
  rewrite (proj1 (proj2 (get_ok key _ Hd))). destruct (MAX_SUMMARY_BYTES <? summary_bytes s).
  - rewrite Hm, lookup_delete_eq. split_and!; [done| |].
    + intros k Hk. left. by rewrite lookup_delete_ne.
    + rewrite delete_delete_eq. intros k e k' e' Hk Hn. congruence.
  - destruct Hm as (kept & -> & Hsub & Hgone). rewrite lookup_insert_eq. split_and!; [done| |].
    + intros k Hk. rewrite lookup_insert_ne by done. destruct (kept !! k) as [e|] eqn:He; [|by right]. left. apply (lookup_weaken _ _ _ _ He) in Hsub. by rewrite lookup_delete_ne in Hsub.
    + assert (Hfresh : kept !! key = None) by (apply (lookup_weaken_None _ _ _ (lookup_delete_eq (sc_map c) key) Hsub)). by rewrite delete_insert_id.
Qed.

Module SummaryExample.
Definition summary_of_class (n : Z) (ps : list string) : FileSummary :=
  {| ranges := [(0, 10)]; group_times := None; entities := []; entities_located := true; column_bytes := {| cb_paths := Some ps; cb_bytes := [7] |};
     source_family := []; class_groups := replicate (Z.to_nat n) None; indicators := false |}.

Lemma summary_of_class_bytes n ps : 0 <= n -> summary_bytes (summary_of_class n ps) = 156 + 24 * n.
Proof. intros Hn. unfold summary_bytes, owned_bytes. cbn. rewrite length_replicate. lia. Qed.
Lemma list_bytes_replicate n : 0 <= n -> list_bytes (replicate (Z.to_nat n) EmptyString) = 32 + 16 * n.
Proof.
  intros Hn. unfold list_bytes. assert (E : forall k : nat, zsum ((fun p => str_len p + 16) <$> replicate k EmptyString) = 16 * Z.of_nat k); [|rewrite E; lia].
  induction k as [|k IH]; [done|]. cbn [replicate fmap list_fmap]. unfold zsum in *. cbn [foldr]. rewrite IH. unfold str_len. cbn [String.length]. lia.
Qed.
End SummaryExample.
Import SummaryExample.

Lemma summary_cache_bounded_witness :
  let ops := [SInsert "a" (summary_of_class 1 ["time"]); SInsert "b" (summary_of_class 2 ["time"; "class_uid"]); SGet "a"] in
  let s := summary_of_class 3 ["time"] in
  let c := foldl run_op SummaryCache_default ops in
  let d := cache_insert "c" s c in
  cache_ok c /\ (cache_get "c" d).1 = (if MAX_SUMMARY_BYTES <? summary_bytes s then None else Some s) /\
  (forall k, k <> "c" -> sc_map d !! k = sc_map c !! k \/ sc_map d !! k = None) /\ older_gone (delete "c" (sc_map c)) (delete "c" (sc_map d)).
Proof. apply summary_cache_bounded; [apply Forall_cons_2; [left; vm_compute; done|apply Forall_cons_2; [left; vm_compute; done|by apply Forall_singleton]]|left; vm_compute; done]. Defined.

(** The byte limit is checked against the cost with the path list shared: when making room
    drops every sharer, the list is charged in full and the limit does not hold. *)
Example summary_limit_exceeded :
  let ps := replicate (Z.to_nat 2097152) EmptyString in
  let c := cache_insert "b" (summary_of_class 1500000 ps) (cache_insert "a" (summary_of_class 1 ps) SummaryCache_default) in
  MAX_SUMMARY_BYTES < sc_bytes c.
Proof.
  cbn zeta. set (ps := replicate _ _). assert (Hl : list_bytes ps = 33554464) by (by apply list_bytes_replicate). set (s1 := summary_of_class 1 ps). set (s2 := summary_of_class 1500000 ps).
  assert (H1 : summary_bytes s1 = 180) by (by apply summary_of_class_bytes). assert (H2 : summary_bytes s2 = 36000156) by (by apply summary_of_class_bytes).
  assert (P1 : path_list s1 = Some ps) by done. assert (P2 : path_list s2 = Some ps) by done. clearbody ps s1 s2.
  assert (Hs1 : sized s1) by (left; rewrite P1; cbn; rewrite H1, Hl; done). destruct (insert_spec "a" s1 _ default_ok Hs1) as [Hc Hm]. set (c := cache_insert "a" s1 _) in *. rewrite H1 in Hm. cbn in Hm. destruct Hm as (kept & Hm & Hk & _).
  assert (kept = ∅) as ->. { change (sc_map SummaryCache_default) with (∅ : gmap string (Z * FileSummary)) in Hk. rewrite delete_empty in Hk. apply map_eq. intros k. rewrite lookup_empty. destruct (kept !! k) as [e|] eqn:E; [|done]. apply (lookup_weaken _ _ _ _ E) in Hk. by rewrite lookup_empty in Hk. }
  destruct (insert_core "b" s2 c Hc) as (d & _ & _ & Hover & Hsub & _ & _ & _ & Hacc).
  - destruct (without_ok "b" c Hc) as (Hw & Hwm & _). rewrite (cost_spec _ _ s2 (ok_accounted _ Hw)), total_cons, P2, H2, Hwm, Hm. rewrite delete_insert_ne, delete_empty by done.
    assert (Hr : forall t, residents (<["a" := (t, s1)]> ∅) ≡ₚ [s1]) by (intros t; rewrite residents_insert by done; unfold residents; by rewrite map_to_list_empty). rewrite (uses_perm ps _ _ (Hr _)), uses_cons, P1, bool_decide_true by done. change (uses ps []) with 0. change (1 + 0 =? 0) with false. cbv iota. unfold MAX_SUMMARY_BYTES. lia.
  - rewrite P2. cbn. rewrite H2, Hl. done.
  - rewrite (ac_bytes _ _ Hacc). pose proof (total_mono [s2] (s2 :: residents (sc_map d))) as Ht. assert (E2 : total [s2] = 36000156 + 33554464) by (rewrite total_cons, P2, H2, <- Hl; change (uses ps []) with 0; cbn; change (total []) with 0; lia).
    rewrite E2 in Ht. assert (36000156 + 33554464 <= total (s2 :: residents (sc_map d))) by (apply Ht, submseteq_skip, submseteq_nil_l). unfold MAX_SUMMARY_BYTES. lia.
Qed.
