(* ===== verification/BloomCache.v ===== *)
(** * BloomCache: the bounded LRU cache of parsed filters

    Models [ParsedBloomCache] of [part_query/prune.rs]: the parsed filters of a file under
    its signed digest, with an index from use ticks to digests that gives the eviction
    order. The order in which a hash map lists its keys is a parameter. *)
From S2P Require Import Prelude Bytes TokenIndex.

Section BloomCache.
Context `{Sbbf}.

(** [ParsedBlooms]: the filters of each path's row groups, and their bytes. *)
Record ParsedBlooms := { pb_fields : list (string * list (option sbbf)); pb_bytes : Z }.
(** [ParsedBloomCache] *)
Record BloomCache := BC {
  bc_entries : gmap string (Z * ParsedBlooms);
  bc_order : gmap Z string;
  bc_tick : Z;
  bc_bytes : Z }.
Definition BloomCache_default : BloomCache := BC ∅ ∅ 0 0.
Definition MAX_PARSED_BLOOM_BYTES : Z := 335544320.

(** [parsed_bloom_bytes] *)
Definition parsed_bloom_bytes (digest : string) (v : ParsedBlooms) : Z := sat_u64 (sat_u64 (pb_bytes v + str_len digest) + 96).

(** [touch] *)
Definition touch (digest : string) (c : BloomCache) : option ParsedBlooms * BloomCache :=
  let tick := wrap_u64 (bc_tick c + 1) in
  match bc_entries c !! digest with
  | None => (None, BC (bc_entries c) (bc_order c) tick (bc_bytes c))
  | Some (previous, value) =>
      let order := match bc_order c !! previous with
                   | Some key => <[tick := key]> (delete previous (bc_order c))
                   | None => bc_order c
                   end in
      (Some value, BC (<[digest := (tick, value)]> (bc_entries c)) order tick (bc_bytes c))
  end.
(** [get] *)
Definition bloom_get : string -> BloomCache -> option ParsedBlooms * BloomCache := touch.
(** [contains] *)
Definition bloom_contains (digest : string) (c : BloomCache) : bool := bool_decide (is_Some (bc_entries c !! digest)).
(** [resident_bytes] *)
Definition resident_bytes (digest : string) (c : BloomCache) : option Z := (fun e => parsed_bloom_bytes digest e.2) <$> bc_entries c !! digest.

(** [pop_first]: the entry of the least tick. *)
Definition pop_first (order : gmap Z string) : option (string * gmap Z string) :=
  match min_list (map_to_list order).*1 with
  | None => None
  | Some t => (fun key => (key, delete t order)) <$> order !! t
  end.
(** The loop of [insert] that makes room. *)
Fixpoint bloom_room (fuel : nat) (bytes limit : Z) (c : BloomCache) : BloomCache :=
  match fuel with
  | O => c
  | S fuel =>
      if sat_u64 (bc_bytes c + bytes) <=? limit then c else
      match pop_first (bc_order c) with
      | None => c
      | Some (key, order) =>
          match bc_entries c !! key with
          | Some (_, old) => bloom_room fuel bytes limit (BC (delete key (bc_entries c)) order (bc_tick c) (sat_u64 (bc_bytes c - parsed_bloom_bytes key old)))
          | None => bloom_room fuel bytes limit (BC (bc_entries c) order (bc_tick c) (bc_bytes c))
          end
      end
  end.
(** [insert] *)
Definition bloom_insert (digest : string) (value : ParsedBlooms) (limit : Z) (c : BloomCache) : bool * BloomCache :=
  let bytes := parsed_bloom_bytes digest value in
  if limit <? bytes then (false, c) else
  match touch digest c with
  | (Some _, c) => (true, c)
  | (None, c) =>
      let c := bloom_room (size (bc_order c)) bytes limit c in
      let tick := wrap_u64 (bc_tick c + 1) in
      (true, BC (<[digest := (tick, value)]> (bc_entries c)) (<[tick := digest]> (bc_order c)) tick (wrap_u64 (bc_bytes c + bytes)))
  end.

(** The keys of a hash map, in the order it iterates. *)
Context (keys_of : gmap string (Z * ParsedBlooms) -> list string).

(** [retain] *)
Definition retain (live : gset string) (c : BloomCache) : BloomCache :=
  let entries := filter (fun e : string * (Z * ParsedBlooms) => e.1 ∈ live) (bc_entries c) in
  BC entries (filter (fun e : Z * string => is_Some (entries !! e.2)) (bc_order c)) (bc_tick c)
     (sum_u64 ((fun d => from_option (fun e => parsed_bloom_bytes d e.2) 0 (entries !! d)) <$> keys_of entries)).

(** The rank of a digest: the last index at which the list names it, [usize::MAX] elsewhere. *)
Definition rank (newest_first : list string) (digest : string) : Z :=
  default u64_max (foldl (fun r e => if String.eqb e.2 digest then Some e.1 else r) None (imap (fun i d => (Z.of_nat i, d)) newest_first)).
Definition restamp (c : BloomCache) (digest : string) : BloomCache :=
  let tick := wrap_u64 (bc_tick c + 1) in
  BC (match bc_entries c !! digest with Some (_, v) => <[digest := (tick, v)]> (bc_entries c) | None => bc_entries c end) (<[tick := digest]> (bc_order c)) tick (bc_bytes c).
(** [order_oldest_first] *)
Definition order_oldest_first (newest_first : list string) (c : BloomCache) : BloomCache :=
  let digests := sort_by (fun a b => rank newest_first b <=? rank newest_first a) (keys_of (bc_entries c)) in
  foldl restamp (BC (bc_entries c) ∅ (bc_tick c) (bc_bytes c)) digests.

Inductive BloomOp := BGet (digest : string) | BInsert (digest : string) (value : ParsedBlooms) | BRetain (live : gset string) | BOrder (newest_first : list string).
Definition run_bloom (c : BloomCache) (o : BloomOp) : BloomCache :=
  match o with
  | BGet d => (bloom_get d c).2
  | BInsert d v => (bloom_insert d v MAX_PARSED_BLOOM_BYTES c).2
  | BRetain live => retain live c
  | BOrder newest => order_oldest_first newest c
  end.

(** ** The invariant *)

Definition bloom_total (m : gmap string (Z * ParsedBlooms)) : Z := zsum ((fun e => parsed_bloom_bytes e.1 e.2.2) <$> map_to_list m).

(** The order index and the use ticks are inverse, no tick is ahead of the clock, and the
    bytes are those of the entries. *)
Record bloom_ok (c : BloomCache) : Prop := {
  bk_linked t d : bc_order c !! t = Some d <-> exists v, bc_entries c !! d = Some (t, v);
  bk_ticks d t v : bc_entries c !! d = Some (t, v) -> 0 < t <= bc_tick c;
  bk_bytes : bc_bytes c = bloom_total (bc_entries c);
  bk_limit : bc_bytes c <= MAX_PARSED_BLOOM_BYTES }.

Lemma parsed_bytes_range d v : 96 <= parsed_bloom_bytes d v <= u64_max.
Proof. unfold parsed_bloom_bytes, sat_u64, u64_max. lia. Qed.
Lemma bloom_total_insert m d t v : m !! d = None -> bloom_total (<[d := (t, v)]> m) = parsed_bloom_bytes d v + bloom_total m.
Proof. intros Hd. unfold bloom_total. rewrite (zsum_perm _ ((fun e => parsed_bloom_bytes e.1 e.2.2) <$> ((d, (t, v)) :: map_to_list m))); [done|]. by rewrite map_to_list_insert. Qed.
Lemma bloom_total_delete m d t v : m !! d = Some (t, v) -> bloom_total m = parsed_bloom_bytes d v + bloom_total (delete d m).
Proof. intros Hd. rewrite <- (bloom_total_insert _ d t v) by apply lookup_delete_eq. by rewrite insert_delete_eq, insert_id. Qed.
Lemma bloom_total_update m d t t' v : m !! d = Some (t, v) -> bloom_total (<[d := (t', v)]> m) = bloom_total m.
Proof. intros Hd. rewrite (bloom_total_delete m d t v Hd). rewrite <- insert_delete_eq. apply bloom_total_insert, lookup_delete_eq. Qed.
Lemma bloom_total_nonneg m : 0 <= bloom_total m.
Proof. apply zsum_nonneg, Forall_fmap, Forall_true. intros [d [t v]]. cbn. pose proof (parsed_bytes_range d v). lia. Qed.
Lemma bloom_total_mono m n : m ⊆ n -> bloom_total m <= bloom_total n.
Proof.
  intros Hs. apply zsum_submseteq; [by apply fmap_submseteq, map_to_list_submseteq|]. apply Forall_fmap, Forall_true. intros [d [t v]]. cbn. pose proof (parsed_bytes_range d v). lia.
Qed.
(** An entry is charged at least 96 bytes. *)
Lemma bloom_total_size m : 96 * Z.of_nat (size m) <= bloom_total m.
Proof.
  unfold bloom_total. rewrite <- length_map_to_list. induction (map_to_list m) as [|[d [t v]] l IH]; cbn [length fmap list_fmap]; [done|]. unfold zsum in *. cbn [foldr fst snd]. pose proof (parsed_bytes_range d v). lia.
Qed.

Lemma default_bloom_ok : bloom_ok BloomCache_default.
Proof. constructor; cbn; [intros t d; split; [done|by intros [v Hv]]|done|done|done]. Qed.

(** A digest takes the next tick. *)
Lemma stamp_linked (c : BloomCache) d t v : bloom_ok c -> bc_entries c !! d = Some (t, v) -> bc_tick c < u64_max ->
  let tick := wrap_u64 (bc_tick c + 1) in
  bloom_ok (BC (<[d := (tick, v)]> (bc_entries c)) (<[tick := d]> (delete t (bc_order c))) tick (bc_bytes c)).
Proof.
  intros Hc Hd Hw. cbn zeta. destruct Hc as [Hl Ht Hb Hm]. pose proof (Ht d t v Hd) as Htd. rewrite wrap_u64_id by (unfold in_u64; lia). constructor; cbn.
  - intros t' d'. destruct (decide (t' = bc_tick c + 1)) as [->|Hne].
    + rewrite lookup_insert_eq. split; [intros [= <-]; exists v; by rewrite lookup_insert_eq|]. intros [v' Hv']. destruct (decide (d = d')) as [->|Hdd]; [done|]. rewrite lookup_insert_ne in Hv' by done. apply Ht in Hv'. lia.
    + rewrite lookup_insert_ne by done. destruct (decide (d = d')) as [<-|Hdd].
      * rewrite lookup_insert_eq. split; [|intros [v' Hv']; congruence]. intros Ho. apply lookup_delete_Some in Ho as [Htt Ho]. apply Hl in Ho as [v' Ho]. congruence.
      * rewrite lookup_insert_ne by done. rewrite lookup_delete_Some, Hl. split; [tauto|]. intros [v' Hv']. split; [|eauto]. intros ->. assert (bc_order c !! t' = Some d') by (apply Hl; eauto). assert (bc_order c !! t' = Some d) by (apply Hl; eauto). congruence.
  - intros d' t' v'. destruct (decide (d = d')) as [<-|Hdd]; [rewrite lookup_insert_eq; intros [= <- <-]; lia|]. rewrite lookup_insert_ne by done. intros Hv'%Ht. lia.
  - by rewrite (bloom_total_update _ d t).
  - done.
Qed.

Lemma bloom_tick_ok (c : BloomCache) : bloom_ok c -> bc_tick c < u64_max -> 0 <= bc_tick c -> bloom_ok (BC (bc_entries c) (bc_order c) (wrap_u64 (bc_tick c + 1)) (bc_bytes c)).
Proof. intros [Hl Ht Hb Hm] Hw Hn. rewrite wrap_u64_id by (unfold in_u64; lia). constructor; cbn; [done| |done|done]. intros d t v Hd%Ht. lia. Qed.

Lemma touch_ok digest c : bloom_ok c -> 0 <= bc_tick c < u64_max ->
  bloom_ok (touch digest c).2 /\ bc_tick (touch digest c).2 = bc_tick c + 1 /\ (touch digest c).1 = snd <$> bc_entries c !! digest /\ (snd <$> bc_entries (touch digest c).2) = snd <$> bc_entries c.
Proof.
  intros Hc Hw. unfold touch. assert (Hid : wrap_u64 (bc_tick c + 1) = bc_tick c + 1) by (apply wrap_u64_id; unfold in_u64; lia). destruct (bc_entries c !! digest) as [[t v]|] eqn:Hd; cbn.
  - assert (Ho : bc_order c !! t = Some digest) by (apply (bk_linked c Hc); eauto). rewrite Ho. split_and!; [apply stamp_linked; [done|done|lia]|done|done|]. rewrite fmap_insert. cbn. apply insert_id. by rewrite lookup_fmap, Hd.
  - split_and!; [apply bloom_tick_ok; [done|lia|lia]|done|done|done].
Qed.

Lemma pop_first_spec order : match pop_first order with
  | None => order = ∅
  | Some (key, rest) => exists t, order !! t = Some key /\ rest = delete t order /\ forall t' d, order !! t' = Some d -> t <= t'
  end.
Proof.
  unfold pop_first. destruct (min_list _) as [t|] eqn:Hm.
  - assert (Hin : t ∈ (map_to_list order).*1) by (by apply min_list_elem). apply list_elem_of_fmap in Hin as ([t' key] & -> & Hin). apply elem_of_map_to_list in Hin. cbn in *. rewrite Hin. cbn. exists t'. split_and!; [done|done|].
    intros t2 d Hd. apply (min_list_lb _ _ t2 Hm). apply list_elem_of_fmap. exists (t2, d). split; [done|]. by apply elem_of_map_to_list.
  - destruct (map_to_list order) as [|[t d] l] eqn:E; [by apply map_to_list_empty_iff|done].
Qed.

(** Every entry that went was used before every entry that stayed. *)
Definition lru_gone (m n : gmap string (Z * ParsedBlooms)) : Prop :=
  forall d e d' e', m !! d = Some e -> n !! d = None -> n !! d' = Some e' -> e.1 < e'.1.

(** Dropping the oldest entry. *)
Lemma drop_oldest (c : BloomCache) t key old : bloom_ok c -> bc_entries c !! key = Some (t, old) ->
  bloom_ok (BC (delete key (bc_entries c)) (delete t (bc_order c)) (bc_tick c) (sat_u64 (bc_bytes c - parsed_bloom_bytes key old))).
Proof.
  intros [Hl Ht Hb Hm] He. pose proof (bloom_total_delete _ _ _ _ He) as Hd. pose proof (bloom_total_nonneg (delete key (bc_entries c))). pose proof (parsed_bytes_range key old).
  assert (Hs : sat_u64 (bc_bytes c - parsed_bloom_bytes key old) = bloom_total (delete key (bc_entries c))) by (rewrite sat_u64_id; unfold in_u64, MAX_PARSED_BLOOM_BYTES, u64_max in *; lia).
  constructor; cbn; [| |done|lia].
  - intros t' d. rewrite lookup_delete_Some, Hl. split.
    + intros (Htt & v & Hv). exists v. rewrite lookup_delete_ne; [done|]. intros ->. congruence.
    + intros (v & Hv). apply lookup_delete_Some in Hv as [Hdd Hv]. split; [|eauto]. intros ->. assert (bc_order c !! t' = Some d) by (apply Hl; eauto). assert (bc_order c !! t' = Some key) by (apply Hl; eauto). congruence.
  - intros d t' v Hv. apply lookup_delete_Some in Hv as [_ Hv]. by apply (Ht d t' v).
Qed.

Lemma empty_order (c : BloomCache) : bloom_ok c -> bc_order c = ∅ -> bc_entries c = ∅ /\ bc_bytes c = 0.
Proof.
  intros Hc Ho. assert (He : bc_entries c = ∅); [|split; [done|]; rewrite (bk_bytes c Hc), He; unfold bloom_total; by rewrite map_to_list_empty].
  apply map_eq. intros d. rewrite lookup_empty. destruct (bc_entries c !! d) as [[t v]|] eqn:E; [|done]. assert (Ht : bc_order c !! t = Some d) by (apply (bk_linked c Hc); eauto). by rewrite Ho, lookup_empty in Ht.
Qed.

Lemma bloom_room_spec fuel bytes limit c : (size (bc_order c) <= fuel)%nat -> bloom_ok c -> 0 <= bytes <= limit ->
  let d := bloom_room fuel bytes limit c in
  bloom_ok d /\ bc_entries d ⊆ bc_entries c /\ bc_tick d = bc_tick c /\ sat_u64 (bc_bytes d + bytes) <= limit /\ lru_gone (bc_entries c) (bc_entries d).
Proof.
  revert c; induction fuel as [|fuel IH]; intros c Hf Hc Hbytes; cbn.
  - assert (Ho : bc_order c = ∅) by (apply map_size_empty_iff; lia). destruct (empty_order c Hc Ho) as [He Hb].
    split_and!; [done..| |]; [rewrite Hb; unfold sat_u64, u64_max; lia|]. intros d e d' e' Hd Hn. congruence.
  - destruct (Z.leb_spec (sat_u64 (bc_bytes c + bytes)) limit) as [Hle|Hgt]; [split_and!; [done..|]; intros d e d' e' Hd Hn; congruence|]. pose proof (pop_first_spec (bc_order c)) as Hp. destruct (pop_first (bc_order c)) as [[key rest]|].
    + destruct Hp as (t & Ht & -> & Hmin). pose proof Ht as Hk. apply (bk_linked c Hc) in Hk as [old Hk]. rewrite Hk. set (c' := BC _ _ _ _).
      destruct (IH c') as (H1 & H2 & H3 & H4 & H5); [cbn; rewrite map_size_delete_Some by done; lia|by apply drop_oldest|done|]. split_and!; [done|etrans; [exact H2|apply delete_subseteq]|done|done|].
      intros d e d' e' Hd Hn Hd'. destruct (decide (d = key)) as [->|Hne]; [|apply (H5 d e d' e'); [cbn; by rewrite lookup_delete_ne|done|done]].
      assert (e = (t, old)) as -> by congruence. apply (lookup_weaken _ _ _ _ Hd') in H2. cbn in H2. apply lookup_delete_Some in H2 as [Hdd H2]. destruct e' as [t' v']. assert (Ho' : bc_order c !! t' = Some d') by (apply (bk_linked c Hc); eauto).
      pose proof (Hmin _ _ Ho'). cbn. assert (t <> t') by congruence. lia.
    + exfalso. destruct (empty_order c Hc Hp) as [_ Hb]. rewrite Hb in Hgt. unfold sat_u64, u64_max in Hgt. lia.
Qed.

(** ** The operations *)

(** A new entry takes the next tick. *)
Lemma join_ok (c : BloomCache) digest v : bloom_ok c -> bc_entries c !! digest = None -> 0 <= bc_tick c < u64_max -> bc_bytes c + parsed_bloom_bytes digest v <= MAX_PARSED_BLOOM_BYTES ->
  let tick := wrap_u64 (bc_tick c + 1) in
  bloom_ok (BC (<[digest := (tick, v)]> (bc_entries c)) (<[tick := digest]> (bc_order c)) tick (wrap_u64 (bc_bytes c + parsed_bloom_bytes digest v))).
Proof.
  intros [Hl Ht2 Hb Hm] Hn Hw Hbytes. cbn zeta. pose proof (bloom_total_nonneg (bc_entries c)). pose proof (parsed_bytes_range digest v). rewrite (wrap_u64_id (bc_tick c + 1)) by (unfold in_u64; lia).
  rewrite wrap_u64_id by (unfold in_u64, MAX_PARSED_BLOOM_BYTES, u64_max in *; lia). constructor; cbn; [| |rewrite bloom_total_insert by done; lia|done].
  - intros t d. destruct (decide (t = bc_tick c + 1)) as [->|Hne].
    + rewrite lookup_insert_eq. split; [intros [= <-]; exists v; by rewrite lookup_insert_eq|]. intros [v' Hv']. destruct (decide (digest = d)) as [->|Hdd]; [done|]. rewrite lookup_insert_ne in Hv' by done. apply Ht2 in Hv'. lia.
    + rewrite lookup_insert_ne by done. rewrite Hl. destruct (decide (digest = d)) as [<-|Hdd]; [rewrite lookup_insert_eq; rewrite Hn; split; intros [? ?]; congruence|by rewrite lookup_insert_ne].
  - intros d t w. destruct (decide (digest = d)) as [<-|Hdd]; [rewrite lookup_insert_eq; intros [= <- <-]; lia|]. rewrite lookup_insert_ne by done. intros Hx%Ht2. lia.
Qed.

Lemma insert_ok digest v c : bloom_ok c -> 0 <= bc_tick c < u64_max - 1 ->
  let r := bloom_insert digest v MAX_PARSED_BLOOM_BYTES c in
  bloom_ok r.2 /\ bc_tick c <= bc_tick r.2 <= bc_tick c + 2 /\ r.1 = (parsed_bloom_bytes digest v <=? MAX_PARSED_BLOOM_BYTES) /\
  (r.1 = true -> snd <$> bc_entries r.2 !! digest = Some (default v (snd <$> bc_entries c !! digest))) /\
  (forall d, d <> digest -> bc_entries r.2 !! d = bc_entries c !! d \/ bc_entries r.2 !! d = None) /\ lru_gone (delete digest (bc_entries c)) (delete digest (bc_entries r.2)).
Proof.
  intros Hc Hw. cbn zeta. unfold bloom_insert. set (bytes := parsed_bloom_bytes digest v). pose proof (parsed_bytes_range digest v) as Hr. fold bytes in Hr. rewrite Z.leb_antisym.
  destruct (Z.ltb_spec MAX_PARSED_BLOOM_BYTES bytes) as [Hlt|Hle]; [cbn; split_and!; [done|lia|lia|done|done|auto|intros d e d' e'; congruence]|].
  destruct (touch_ok digest c Hc) as (Ht & Htick & Hv & Hsame); [lia|]. destruct (touch digest c) as [found c1] eqn:E. cbn [fst snd] in *.
  assert (Hother : forall d, d <> digest -> bc_entries c1 !! d = bc_entries c !! d).
  { intros d Hd. unfold touch in E. destruct (bc_entries c !! digest) as [[t w]|]; injection E as <- <-; cbn; [by rewrite lookup_insert_ne|done]. }
  destruct found as [w|]; cbn [fst snd].
  - split_and!; [done|lia|lia|done| | |].
    + intros _. rewrite <- Hv. cbn. rewrite <- lookup_fmap, Hsame, lookup_fmap. by rewrite <- Hv.
    + intros d Hd. left. by apply Hother.
    + intros d e d' e' Hd Hn. apply lookup_delete_Some in Hd as [Hd He]. rewrite lookup_delete_ne, Hother in Hn by done. congruence.
  - assert (Hnone : bc_entries c1 !! digest = None). { apply (f_equal (fun m => m !! digest)) in Hsame. rewrite !lookup_fmap, <- Hv in Hsame. by apply fmap_None in Hsame. }
    destruct (bloom_room_spec (size (bc_order c1)) bytes MAX_PARSED_BLOOM_BYTES c1) as (H1 & H2 & H3 & H4 & H5); [lia|done|lia|]. set (c2 := bloom_room _ _ _ _) in *.
    assert (Hn2 : bc_entries c2 !! digest = None) by (by apply (lookup_weaken_None _ _ _ Hnone)).
    assert (Hid : wrap_u64 (bc_tick c2 + 1) = bc_tick c2 + 1) by (apply wrap_u64_id; unfold in_u64; lia). 
    assert (Hb2 : 0 <= bc_bytes c2) by (rewrite (bk_bytes _ H1); apply bloom_total_nonneg).
    assert (Hbytes : bc_bytes c2 + bytes <= MAX_PARSED_BLOOM_BYTES) by (unfold sat_u64, MAX_PARSED_BLOOM_BYTES, u64_max in *; lia).
    cbn [bc_entries bc_tick]. split_and!; [|lia|lia|done| | |].
    + apply join_ok; [done|done|lia|done].
    + intros _. rewrite lookup_insert_eq, <- Hv. done.
    + intros d Hd. rewrite lookup_insert_ne by done. destruct (bc_entries c2 !! d) as [e|] eqn:Hd2; [|by right]. left. apply (lookup_weaken _ _ _ _ Hd2) in H2. rewrite <- H2. by apply Hother.
    + rewrite delete_insert_id by done. intros d e d' e' Hd Hn Hd'. apply lookup_delete_Some in Hd as [Hd He]. apply (H5 d e d' e'); [by rewrite Hother|done|done].
Qed.

Context (Hkeys : forall m, keys_of m ≡ₚ (map_to_list m).*1).

Lemma retain_ok live c : bloom_ok c -> bloom_ok (retain live c) /\ bc_entries (retain live c) = filter (fun e : string * (Z * ParsedBlooms) => e.1 ∈ live) (bc_entries c) /\ bc_tick (retain live c) = bc_tick c.
Proof.
  intros [Hl Ht Hb Hm]. split; [|done]. unfold retain. set (m := filter _ (bc_entries c)). assert (Hsub : m ⊆ bc_entries c) by apply map_filter_subseteq. pose proof (bloom_total_mono _ _ Hsub) as Hle.
  assert (Hsum : sum_u64 ((fun d => from_option (fun e => parsed_bloom_bytes d e.2) 0 (m !! d)) <$> keys_of m) = bloom_total m).
  { assert (E : zsum ((fun d => from_option (fun e => parsed_bloom_bytes d e.2) 0 (m !! d)) <$> keys_of m) = bloom_total m).
    { unfold bloom_total. apply zsum_perm. rewrite (Hkeys m), <- list_fmap_compose. apply Permutation_refl'. apply list_fmap_ext. intros i [d [t v]] He. cbn. apply list_elem_of_lookup_2, elem_of_map_to_list in He. by rewrite He. }
    rewrite sum_u64_exact, E; [done| |unfold MAX_PARSED_BLOOM_BYTES, u64_max in *; lia]. apply Forall_fmap, Forall_true. intros d. cbn. destruct (m !! d) as [[t v]|]; cbn; [pose proof (parsed_bytes_range d v)|]; lia. }
  constructor; cbn; fold m; [| |done|lia].
  - intros t d. rewrite map_lookup_filter_Some. cbn. rewrite Hl. split.
    + intros [[v Hv] [[t' v'] Hd]]. exists v'. pose proof (lookup_weaken _ _ _ _ Hd Hsub). congruence.
    + intros [v Hv]. split; [exists v; by apply (lookup_weaken _ _ _ _ Hv)|eauto].
  - intros d t v Hv. apply (Ht d t v). by apply (lookup_weaken _ _ _ _ Hv).
Qed.

(** A re-ranking under way: the digests already stamped, in order. *)
Record restamping (c0 : BloomCache) (stamped : list string) (c : BloomCache) : Prop := {
  rs_tick : bc_tick c = bc_tick c0 + Z.of_nat (length stamped);
  rs_bytes : bc_bytes c = bc_bytes c0;
  rs_values : (snd <$> bc_entries c) = snd <$> bc_entries c0;
  rs_stamp i d : stamped !! i = Some d -> exists v, bc_entries c !! d = Some (bc_tick c0 + 1 + Z.of_nat i, v);
  rs_linked t d : bc_order c !! t = Some d <-> exists i, stamped !! i = Some d /\ t = bc_tick c0 + 1 + Z.of_nat i }.

Lemma restamp_step c0 stamped c d : restamping c0 stamped c -> d ∉ stamped -> is_Some (bc_entries c0 !! d) -> 0 <= bc_tick c0 -> bc_tick c0 + Z.of_nat (length stamped) < u64_max ->
  restamping c0 (stamped ++ [d]) (restamp c d).
Proof.
  intros [Ht Hb Hv Hs Hl] Hd [e0 He0] Hn Hw. assert (Hid : wrap_u64 (bc_tick c + 1) = bc_tick c + 1) by (apply wrap_u64_id; unfold in_u64; lia).
  assert (He : exists t v, bc_entries c !! d = Some (t, v)). { pose proof (f_equal (fun m => m !! d) Hv) as E. cbn in E. rewrite !lookup_fmap, He0 in E. destruct (bc_entries c !! d) as [[t v]|]; [eauto|done]. }
  destruct He as (t & v & He). unfold restamp. rewrite He, Hid, Ht. constructor; cbn.
  - rewrite length_app. cbn. lia.
  - done.
  - rewrite fmap_insert. cbn. rewrite <- Hv. apply insert_id. by rewrite lookup_fmap, He.
  - intros i d' Hi. apply lookup_app_Some in Hi as [Hi|[Hlen Hi]].
    + rewrite lookup_insert_ne by (intros ->; by apply list_elem_of_lookup_2 in Hi). by apply Hs.
    + apply list_lookup_singleton_Some in Hi as [Hi <-]. exists v. rewrite lookup_insert_eq. do 2 f_equal. lia.
  - intros t' d'. destruct (decide (t' = bc_tick c0 + Z.of_nat (length stamped) + 1)) as [->|Hne].
    + rewrite lookup_insert_eq. split.
      * intros [= <-]. exists (length stamped). rewrite lookup_app_r by lia. rewrite Nat.sub_diag. split; [done|lia].
      * intros (i & Hi & E). apply lookup_app_Some in Hi as [Hi|[Hlen Hi]]; [apply lookup_lt_Some in Hi; lia|]. apply list_lookup_singleton_Some in Hi as [_ <-]. done.
    + rewrite lookup_insert_ne by done. rewrite Hl. split; intros (i & Hi & E); exists i.
      * split; [by apply lookup_app_l_Some|done].
      * apply lookup_app_Some in Hi as [Hi|[Hlen Hi]]; [done|]. apply list_lookup_singleton_Some in Hi as [? _]. lia.
Qed.

Lemma restamp_all c0 l stamped c : restamping c0 stamped c -> NoDup (stamped ++ l) -> (forall d, d ∈ l -> is_Some (bc_entries c0 !! d)) -> 0 <= bc_tick c0 ->
  bc_tick c0 + Z.of_nat (length (stamped ++ l)) <= u64_max -> restamping c0 (stamped ++ l) (foldl restamp c l).
Proof.
  revert stamped c; induction l as [|d l IH]; intros stamped c Hc Hnd Hin Hn Hw; cbn; [by rewrite app_nil_r|]. replace (stamped ++ d :: l) with ((stamped ++ [d]) ++ l) in * by (by rewrite <- app_assoc). rewrite !length_app in Hw. cbn in Hw. apply IH.
  - apply restamp_step; [done| |apply Hin; set_solver|done|lia]. apply NoDup_app in Hnd as [Hnd _]. apply NoDup_app in Hnd as (_ & Hnd & _). intros Hx. by apply (Hnd d Hx), list_elem_of_singleton.
  - done.
  - intros d' Hd'. apply Hin. set_solver.
  - done.
  - rewrite !length_app. cbn. lia.
Qed.

Definition oldest_first (newest_first : list string) (m : gmap string (Z * ParsedBlooms)) : list string := sort_by (fun a b => rank newest_first b <=? rank newest_first a) (keys_of m).
Lemma oldest_first_perm newest m : oldest_first newest m ≡ₚ (map_to_list m).*1.
Proof. unfold oldest_first. by rewrite sort_by_perm. Qed.

Lemma order_ok newest c : bloom_ok c -> 0 <= bc_tick c -> bc_tick c + Z.of_nat (size (bc_entries c)) <= u64_max ->
  let d := order_oldest_first newest c in
  bloom_ok d /\ bc_tick d = bc_tick c + Z.of_nat (size (bc_entries c)) /\ (snd <$> bc_entries d) = snd <$> bc_entries c /\
  (forall i k, oldest_first newest (bc_entries c) !! i = Some k -> exists v, bc_entries d !! k = Some (bc_tick c + 1 + Z.of_nat i, v)).
Proof.
  intros [Hl Ht Hb Hm] Hn Hw. cbn zeta. unfold order_oldest_first. fold (oldest_first newest (bc_entries c)). set (l := oldest_first _ _). assert (Hperm : l ≡ₚ (map_to_list (bc_entries c)).*1) by apply oldest_first_perm.
  assert (Hlen : length l = size (bc_entries c)) by (by rewrite Hperm, length_fmap, length_map_to_list). assert (Hin : forall d, d ∈ l <-> is_Some (bc_entries c !! d)).
  { intros d. rewrite Hperm, list_elem_of_fmap. split; [intros ([d' e] & -> & He%elem_of_map_to_list); eauto|]. intros [e He]. exists (d, e). split; [done|]. by apply elem_of_map_to_list. }
  destruct (restamp_all c l [] (BC (bc_entries c) ∅ (bc_tick c) (bc_bytes c))) as [Et Eb Ev Es El].
  - constructor; cbn; [lia|done|done|done|]. intros t d. rewrite lookup_empty. split; [done|]. by intros (i & ? & _).
  - cbn. rewrite Hperm. apply NoDup_fst_map_to_list.
  - intros d. apply Hin.
  - done.
  - cbn. lia.
  - cbn [app] in *. set (d := foldl restamp _ l) in *. split_and!; [|by rewrite Et, Hlen|done|done].
    assert (Hentry : forall k t v, bc_entries d !! k = Some (t, v) -> exists i, l !! i = Some k /\ t = bc_tick c + 1 + Z.of_nat i).
    { intros k t v Hk. assert (Hkl : k ∈ l). { apply Hin. pose proof (f_equal (fun m => m !! k) Ev) as E. cbn in E. rewrite !lookup_fmap, Hk in E. by destruct (bc_entries c !! k). }
      apply list_elem_of_lookup in Hkl as [i Hi]. exists i. split; [done|]. apply Es in Hi as [w Hi]. congruence. }
    constructor.
    + intros t k. rewrite El. split; [intros (i & Hi & ->); by apply Es|]. intros [v Hv]. by apply Hentry in Hv.
    + intros k t v Hv. apply Hentry in Hv as (i & Hi & ->). apply lookup_lt_Some in Hi. rewrite Et. lia.
    + rewrite Eb, Hb. assert (E : forall m : gmap string (Z * ParsedBlooms), bloom_total m = zsum ((fun e => parsed_bloom_bytes e.1 e.2) <$> map_to_list (snd <$> m))); [|by rewrite E, (E (bc_entries d)), Ev].
      intros m. unfold bloom_total. rewrite map_to_list_fmap, <- list_fmap_compose. done.
    + by rewrite Eb.
Qed.

Lemma bloom_size_bound c : bloom_ok c -> Z.of_nat (size (bc_entries c)) <= 3495253.
Proof. intros Hc. pose proof (bloom_total_size (bc_entries c)) as Hs. rewrite <- (bk_bytes c Hc) in Hs. pose proof (bk_limit c Hc). unfold MAX_PARSED_BLOOM_BYTES in *. lia. Qed.
(** The ticks one operation takes at most. *)
Definition TICKS : Z := 3495254.
Lemma run_bloom_ok c o : bloom_ok c -> 0 <= bc_tick c -> bc_tick c + TICKS < u64_max -> bloom_ok (run_bloom c o) /\ bc_tick c <= bc_tick (run_bloom c o) <= bc_tick c + TICKS.
Proof.
  intros Hc Hn Hw. unfold TICKS in *. destruct o as [d|d v|live|newest]; cbn [run_bloom].
  - destruct (touch_ok d c Hc) as (? & Ht & _); [lia|]. unfold bloom_get. split; [done|lia].
  - destruct (insert_ok d v c Hc) as (? & Ht & _); [lia|]. split; [done|lia].
  - destruct (retain_ok live c Hc) as (? & _ & ->). split; [done|lia].
  - pose proof (bloom_size_bound c Hc). destruct (order_ok newest c Hc) as (? & -> & _); [lia|lia|]. split; [done|lia].
Qed.
Lemma run_blooms_ok ops c : bloom_ok c -> 0 <= bc_tick c -> bc_tick c + TICKS * Z.of_nat (length ops) < u64_max ->
  bloom_ok (foldl run_bloom c ops) /\ bc_tick c <= bc_tick (foldl run_bloom c ops) <= bc_tick c + TICKS * Z.of_nat (length ops).
Proof.
  revert c; induction ops as [|o ops IH]; intros c Hc Hn Hw; cbn [foldl length] in *; [split; [done|lia]|]. assert (0 <= TICKS) by done. destruct (run_bloom_ok c o Hc Hn) as [Ho Ht]; [lia|]. destruct (IH (run_bloom c o) Ho) as [H1 H2]; [lia|lia|]. split; [done|lia].
Qed.

Lemma StronglySorted_lookup {A} (R : A -> A -> Prop) l i j x y : StronglySorted R l -> l !! i = Some x -> l !! j = Some y -> (i < j)%nat -> R x y.
Proof.
  intros Hs Hi Hj Hij. rewrite <- (take_drop_middle l i x Hi) in Hs. apply (StronglySorted_app_1_elem_of R (take i l ++ [x]) (drop (S i) l)).
  - by rewrite <- app_assoc.
  - set_solver.
  - apply (list_elem_of_lookup_2 _ (j - S i)). rewrite lookup_drop. rewrite <- Hj. f_equal. lia.
Qed.
(** Re-ranking gives the newer digest the later tick. *)
Lemma newest_last newest c d1 e1 d2 e2 : bloom_ok c -> 0 <= bc_tick c -> bc_tick c + Z.of_nat (size (bc_entries c)) <= u64_max ->
  bc_entries (order_oldest_first newest c) !! d1 = Some e1 -> bc_entries (order_oldest_first newest c) !! d2 = Some e2 -> rank newest d1 < rank newest d2 -> e2.1 < e1.1.
Proof.
  intros Hc Hn Hw H1 H2 Hr. destruct (order_ok newest c Hc Hn Hw) as (_ & _ & Hv & Hpos). set (l := oldest_first newest (bc_entries c)) in *.
  assert (Hin : forall k e, bc_entries (order_oldest_first newest c) !! k = Some e -> exists i, l !! i = Some k /\ e.1 = bc_tick c + 1 + Z.of_nat i).
  { intros k e Hk. assert (Hkl : k ∈ l). { unfold l. rewrite oldest_first_perm, list_elem_of_fmap. pose proof (f_equal (fun m => m !! k) Hv) as E. cbn in E. rewrite !lookup_fmap, Hk in E. destruct (bc_entries c !! k) as [x|] eqn:Ex; [|done]. exists (k, x). split; [done|]. by apply elem_of_map_to_list. }
    apply list_elem_of_lookup in Hkl as [i Hi]. exists i. split; [done|]. apply Hpos in Hi as [w Hi]. rewrite Hi in Hk. by injection Hk as <-. }
  destruct (Hin _ _ H1) as (i & Hi & ->). destruct (Hin _ _ H2) as (j & Hj & ->). assert (Hs : StronglySorted (fun a b => (rank newest b <=? rank newest a) = true) l).
  { apply sort_by_sorted; [intros x y; rewrite !Z.leb_le; lia|intros x y z; rewrite !Z.leb_le; lia]. }
  assert (j < i)%nat; [|lia]. destruct (decide (i = j)) as [->|Hne]; [assert (d1 = d2) as -> by congruence; lia|]. destruct (decide (j < i)%nat) as [|Hge]; [done|]. assert (Hij : (i < j)%nat) by lia.
  pose proof (StronglySorted_lookup _ _ _ _ _ _ Hs Hi Hj Hij) as Hle. apply Z.leb_le in Hle. lia.
Qed.

(** The cache of parsed filters stays exact, bounded and in use order. After any lookups,
    insertions, prunings of dead digests and re-rankings (up to [2^40] of them, so that the
    use clock does not wrap): the order index and the use ticks are inverse, and the byte
    count is the bytes of the entries, at most 320 MiB. An insertion is taken exactly when its
    own bytes fit, is then found, and drops only entries used before all it keeps; pruning
    leaves exactly the live digests; re-ranking changes no value and makes the newer digest
    the later to go. *)
Theorem bloom_cache_bounded ops digest v live newest : Z.of_nat (length ops) < 2 ^ 40 ->
  let c := foldl run_bloom BloomCache_default ops in
  let r := bloom_insert digest v MAX_PARSED_BLOOM_BYTES c in
  let o := order_oldest_first newest c in
  bloom_ok c /\ r.1 = (parsed_bloom_bytes digest v <=? MAX_PARSED_BLOOM_BYTES) /\
  (r.1 = true -> (bloom_get digest r.2).1 = Some (default v (snd <$> bc_entries c !! digest))) /\
  lru_gone (delete digest (bc_entries c)) (delete digest (bc_entries r.2)) /\
  (forall d, bloom_contains d (retain live c) = bloom_contains d c && bool_decide (d ∈ live)) /\
  (snd <$> bc_entries o) = snd <$> bc_entries c /\
  (forall d1 e1 d2 e2, bc_entries o !! d1 = Some e1 -> bc_entries o !! d2 = Some e2 -> rank newest d1 < rank newest d2 -> e2.1 < e1.1).
Proof.
  intros Hops. cbn zeta. destruct (run_blooms_ok ops BloomCache_default default_bloom_ok) as [Hc Ht]; [done|cbn; unfold TICKS, u64_max; lia|]. set (c := foldl _ _ _) in *. cbn in Ht. unfold TICKS in Ht.
  assert (Hw : bc_tick c < u64_max - 3495254) by (unfold u64_max; lia). destruct (insert_ok digest v c Hc) as (Hr & Hrt & Hr1 & Hget & _ & Hgone); [lia|].
  pose proof (bloom_size_bound c Hc) as Hsize.
  destruct (order_ok newest c Hc) as (_ & _ & Hv & _); [lia|lia|]. split_and!; [done|done| |done| |done|].
  - intros Hin. unfold bloom_get. destruct (touch_ok digest _ Hr) as (_ & _ & -> & _); [lia|]. by apply Hget.
  - intros d. destruct (retain_ok live c Hc) as (_ & E & _). unfold bloom_contains. rewrite E. apply eq_bool_prop_intro. rewrite andb_True, !bool_decide_spec. split.
    + intros [e He]. apply map_lookup_filter_Some in He as [He Hl]. eauto.
    + intros [[e He] Hl]. exists e. by apply map_lookup_filter_Some.
  - intros d1 e1 d2 e2. apply newest_last; [done|lia|lia].
Qed.
End BloomCache.

Module BloomExample.
Export PlainBloom.
Definition hash_keys (m : gmap string (Z * ParsedBlooms)) : list string := (map_to_list m).*1.
Definition parsed (n : Z) : ParsedBlooms := {| pb_fields := []; pb_bytes := n |}.
End BloomExample.
Import BloomExample.

Lemma bloom_cache_bounded_witness :
  let ops := [BInsert "a" (parsed 200000000); BInsert "b" (parsed 100000000); BGet "a"; BRetain {["a"; "b"; "c"]}; BOrder ["b"; "a"]] in
  let c := foldl (run_bloom hash_keys) BloomCache_default ops in
  let r := bloom_insert "c" (parsed 60000000) MAX_PARSED_BLOOM_BYTES c in
  let o := order_oldest_first hash_keys ["a"] c in
  bloom_ok c /\ r.1 = (parsed_bloom_bytes "c" (parsed 60000000) <=? MAX_PARSED_BLOOM_BYTES) /\
  (r.1 = true -> (bloom_get "c" r.2).1 = Some (default (parsed 60000000) (snd <$> bc_entries c !! "c"))) /\
  lru_gone (delete "c" (bc_entries c)) (delete "c" (bc_entries r.2)) /\
  (forall d, bloom_contains d (retain hash_keys {["a"]} c) = bloom_contains d c && bool_decide (d ∈ ({["a"]} : gset string))) /\
  (snd <$> bc_entries o) = snd <$> bc_entries c /\
  (forall d1 e1 d2 e2, bc_entries o !! d1 = Some e1 -> bc_entries o !! d2 = Some e2 -> rank ["a"] d1 < rank ["a"] d2 -> e2.1 < e1.1).
Proof. apply (bloom_cache_bounded hash_keys); [done|by vm_compute]. Defined.
