(* ===== verification/MetadataCache.v ===== *)
(** * MetadataCache: the evidence of a file through its caches

    Models [FileMetadataCache] of [part_query/prune.rs]: the opened footers, the summaries and
    the parsed filters of the data files, and the evidence a search draws through them. Disk
    reads may fail: each attempt takes its outcome from a list. *)
From S2P Require Import Prelude Bytes TokenCounts BlockIndex TextTokens Keywords Addresses TokenIndex Prune PruneSafety Spellings FilePrune FilePruneSafety SummaryCache BloomCache.

Definition MAX_OPEN_FOOTERS : nat := 256.
Definition MAX_OPEN_FOOTER_BYTES : Z := 67108864.

Section MetadataCache.
Context `{Unicode, XxHash, Xorf, Sbbf, FilterSize, Ipv6Parser, Sha256}.

(** ** Files and worlds *)

(** A data file: the footer its bytes parse to, that footer's size in memory, and the filter
    the bytes at a place or of a chunk parse to. *)
Record DataFile := {
  df_footer : option Footer;
  df_memory : Z;
  df_read_at : Z -> Z -> option sbbf;
  df_chunk_bloom : nat -> nat -> option sbbf }.
(** [OpenedFile] *)
Record OpenedFile := { op_file : DataFile; op_footer : Footer; op_summary : FileSummary }.
(** [FileMetadataCache] *)
Record FileMetadataCache := {
  fm_entries : list (string * OpenedFile);
  fm_summaries : SummaryCache;
  fm_blooms : BloomCache }.
(** The caches and the outcomes of the disk reads to come (success once the list is spent). *)
Record World := { w_cache : FileMetadataCache; w_io : list bool }.
Definition IOM (A : Type) : Type := World -> A * World.
#[export] Instance IOM_ret : MRet IOM := fun A a w => (a, w).
#[export] Instance IOM_bind : MBind IOM := fun A B k m w => let '(a, w) := m w in k a w.

Definition attempt : IOM bool := fun w =>
  match w_io w with [] => (true, w) | b :: io => (b, {| w_cache := w_cache w; w_io := io |}) end.
Definition on_summaries {A} (f : SummaryCache -> A * SummaryCache) : IOM A := fun w =>
  let c := w_cache w in let '(a, x) := f (fm_summaries c) in
  (a, {| w_cache := {| fm_entries := fm_entries c; fm_summaries := x; fm_blooms := fm_blooms c |}; w_io := w_io w |}).
Definition on_blooms {A} (f : BloomCache -> A * BloomCache) : IOM A := fun w =>
  let c := w_cache w in let '(a, x) := f (fm_blooms c) in
  (a, {| w_cache := {| fm_entries := fm_entries c; fm_summaries := fm_summaries c; fm_blooms := x |}; w_io := w_io w |}).
Definition on_entries {A} (f : list (string * OpenedFile) -> A * list (string * OpenedFile)) : IOM A := fun w =>
  let c := w_cache w in let '(a, x) := f (fm_entries c) in
  (a, {| w_cache := {| fm_entries := x; fm_summaries := fm_summaries c; fm_blooms := fm_blooms c |}; w_io := w_io w |}).

(** ** Footers and summaries *)

(** [metadata_key]: the digest, of a path that can be examined. *)
Definition metadata_key (digest : string) : IOM (option string) := ok ← attempt; mret (if ok : bool then Some digest else None).
(** [read] *)
Definition read_footer (file : DataFile) : IOM (option OpenedFile) :=
  ok ← attempt;
  mret (if ok : bool then
          f ← df_footer file; s ← FileSummary_of f; Some {| op_file := file; op_footer := f; op_summary := s |}
        else None).
Definition read_twice (file : DataFile) : IOM (option OpenedFile) :=
  o ← read_footer file;
  match o with Some o => mret (Some o) | None => read_footer file end.
(** [remember] *)
Definition remember (key : string) (s : FileSummary) : IOM unit := on_summaries (fun c => (tt, cache_insert key s c)).
(** [summary] *)
Definition summary (file : DataFile) (sha256 : string) : IOM (option FileSummary) :=
  key ← metadata_key sha256;
  match key with
  | None => mret None
  | Some key =>
      hit ← on_summaries (cache_get key);
      match hit with
      | Some s => mret (Some s)
      | None =>
          opened ← read_twice file;
          match opened with
          | None => mret None
          | Some o => _ ← remember key (op_summary o); mret (Some (op_summary o))
          end
      end
  end.

Definition footer_size (o : OpenedFile) : Z := df_memory (op_file o) + summary_bytes (op_summary o).
(** The loop of [open] that drops the oldest footers; [None] is the early return. *)
Fixpoint drop_footers (size bytes : Z) (entries : list (string * OpenedFile)) : option (list (string * OpenedFile)) :=
  if (MAX_OPEN_FOOTERS <=? length entries)%nat || (MAX_OPEN_FOOTER_BYTES <? sat_u64 (bytes + size)) then
    match entries with
    | [] => None
    | e :: rest => drop_footers size (sat_u64 (bytes - footer_size e.2)) rest
    end
  else Some entries.
(** The entry of a key moves to the back. *)
Definition take_entry (key : string) (entries : list (string * OpenedFile)) : option OpenedFile * list (string * OpenedFile) :=
  match position (fun e => String.eqb e.1 key) entries 0 with
  | Some i => match entries !! i with
              | Some e => (Some e.2, delete i entries ++ [e])
              | None => (None, entries)
              end
  | None => (None, entries)
  end.
Definition keep_entry (key : string) (opened : OpenedFile) (entries : list (string * OpenedFile)) : option OpenedFile * list (string * OpenedFile) :=
  match List.find (fun e => String.eqb e.1 key) entries with
  | Some e => (Some e.2, entries)
  | None =>
      let size := footer_size opened in
      if MAX_OPEN_FOOTER_BYTES <? size then (Some opened, entries) else
      let bytes := sum_u64 ((fun e => footer_size e.2) <$> entries) in
      match drop_footers size bytes entries with
      | Some entries => (Some opened, entries ++ [(key, opened)])
      | None => (None, [])
      end
  end.
(** [open] *)
Definition open_footer (file : DataFile) (sha256 : string) : IOM (option OpenedFile) :=
  key ← metadata_key sha256;
  match key with
  | None => mret None
  | Some key =>
      hit ← on_entries (take_entry key);
      match hit with
      | Some o => mret (Some o)
      | None =>
          opened ← read_twice file;
          match opened with
          | None => mret None
          | Some o => _ ← remember key (op_summary o); on_entries (keep_entry key o)
          end
      end
  end.

(** ** Filters *)

Definition bloom_estimate (s : FileSummary) : Z :=
  foldl (fun n e =>
    foldl (fun n g => match eg_bloom g with At _ len => sat_u64 (sat_u64 (n + len) + 64) | _ => n end)
      (sat_u64 (n + (str_len e.1 + 48 + Z.of_nat (length e.2) * 32))) e.2) 64 (entities s).
Definition bloom_bytes (s : FileSummary) : Z :=
  foldl (fun n e =>
    foldl (fun n g => match eg_bloom g with At _ len => sat_u64 (n + (len + 64)) | _ => n end)
      (sat_u64 (n + (str_len e.1 + 48 + Z.of_nat (length e.2) * 32))) e.2) 64 (entities s).
(** One read per located filter; a read that fails leaves the filter unknown. *)
Definition read_group (file : DataFile) (g : EntityGroup) : IOM (option sbbf) :=
  match eg_bloom g with
  | At offset len => ok ← attempt; mret (if ok : bool then read_bloom_at (df_read_at file) offset len else None)
  | _ => mret None
  end.
Fixpoint traverse {A B} (f : A -> IOM B) (l : list A) : IOM (list B) :=
  match l with [] => mret [] | a :: l => b ← f a; bs ← traverse f l; mret (b :: bs) end.
Definition read_fields (file : DataFile) (s : FileSummary) : IOM (list (string * list (option sbbf))) :=
  traverse (fun e => groups ← traverse (read_group file) e.2; mret (e.1, groups)) (entities s).
(** [prewarm_with_budget]: whether the filters are resident, and the budget left. *)
Definition prewarm_with_budget (file : DataFile) (digest : string) (remaining : Z) : IOM (bool * Z) :=
  resident ← on_blooms (fun c => (resident_bytes digest c, c));
  match resident with
  | Some bytes => mret (if remaining <? bytes then (false, remaining) else (true, remaining - bytes))
  | None =>
      sm ← summary file digest;
      match sm with
      | None => mret (false, remaining)
      | Some s =>
          if negb (entities_located s) then mret (false, remaining) else
          if remaining <? sat_u64 (bloom_estimate s + (str_len digest + 96)) then mret (false, remaining) else
          ok ← attempt;
          if negb ok then mret (false, remaining) else
          fields ← read_fields file s;
          let bytes := bloom_bytes s in
          inserted ← on_blooms (bloom_insert digest {| pb_fields := fields; pb_bytes := bytes |} MAX_PARSED_BLOOM_BYTES);
          mret (inserted, if inserted : bool then sat_u64 (remaining - (bytes + str_len digest + 96)) else remaining)
      end
  end.
(** [prewarm] *)
Definition prewarm (file : DataFile) (digest : string) : IOM bool := r ← prewarm_with_budget file digest MAX_PARSED_BLOOM_BYTES; mret r.1.

(** ** Evidence *)

Definition has_located (s : FileSummary) : bool := existsb (fun e => existsb (fun g => match eg_bloom g with At _ _ => true | _ => false end) e.2) (entities s).
(** The filters the caches have of a file, reading and keeping them when they can. *)
Definition parsed_of (file : DataFile) (sha256 : string) (s : FileSummary) : IOM (option ParsedBlooms) :=
  parsed ← on_blooms (bloom_get sha256);
  match parsed with
  | Some v => mret (Some v)
  | None =>
      if entities_located s && has_located s then
        ok ← prewarm file sha256;
        if ok : bool then on_blooms (bloom_get sha256) else mret None
      else mret None
  end.
(** The reads of a filter during the evaluation that do not fail. *)
Definition readable (lost : Z -> Z -> bool) (file : DataFile) (offset len : Z) : option sbbf := if lost offset len then None else df_read_at file offset len.
Definition chunk_readable (lost : nat -> nat -> bool) (file : DataFile) (column group : nat) : option sbbf := if lost column group then None else df_chunk_bloom file column group.

Definition Evidence : Type := option (list bool) * option (list bool) * list (Z * Z) * option (list (Z * Z)).
(** [evidence_of_tokens]; [lost] and [lost_chunk] say which filter reads fail while the hints
    are decided. *)
Definition evidence_of_tokens (lost : Z -> Z -> bool) (lost_chunk : nat -> nat -> bool) (file : DataFile) (sha256 : string) (hints : list CandidateHint)
    (tokens : option (list TokenGroup)) (combined cache_footer : bool) (buckets : option (gset Z)) : IOM (option Evidence) :=
  let blooms := uses_entities hints in
  sm ← summary file sha256;
  match sm with
  | None => mret None
  | Some s =>
      parsed ← (if blooms then parsed_of file sha256 s else mret None);
      let unparsed := blooms && negb (bool_decide (is_Some parsed)) in
      opened ← (if unparsed && negb (entities_located s) then
                  o ← (if cache_footer then open_footer file sha256 else read_footer file);
                  mret (Some <$> o)
                else mret (Some None));
      match opened with
      | None => mret None
      | Some opened =>
          ok ← (if unparsed then attempt else mret true);
          if negb ok then mret None else
          let evidence := match parsed, opened with
                          | Some v, _ => Some (BParsed s (pb_fields v))
                          | None, Some o => Some (BFooter (op_footer o) (chunk_readable lost_chunk file))
                          | None, None => if unparsed then Some (BSummary s (readable lost file)) else None
                          end in
          mret (Some (evidence_masks s evidence tokens combined hints buckets))
      end
  end.
(** [evidence] *)
Definition evidence (lost : Z -> Z -> bool) (lost_chunk : nat -> nat -> bool) (file : DataFile) (sha256 : string) (hints : list CandidateHint)
    (index_bytes : option Bytes) (combined cache_footer : bool) (buckets : option (gset Z)) : IOM (option Evidence) :=
  let tokens := if combined then match index_bytes with Some b => match decode_leased_token_index b with Ok ts => Some ts | Err _ => None end | None => None end else None in
  evidence_of_tokens lost lost_chunk file sha256 hints tokens combined cache_footer buckets.
End MetadataCache.
