(* ===== verification/MetadataSafety.v ===== *)
(** * MetadataSafety: the caches answer like the files

    What [MetadataCache] keeps under a digest is what the file of that digest holds, whatever
    was asked before and whichever disk reads failed; so its evidence excludes no match, and
    without failed reads it is the evidence of the opened footer itself. *)
From S2P Require Import Prelude Bytes TokenCounts BlockIndex TextTokens Keywords Addresses TokenIndex Prune PruneSafety Spellings FilePrune FilePruneSafety SummaryCache BloomCache MetadataCache.

(** ** What the two caches may hold *)

Lemma make_room_subseteq fuel s c : sc_map (make_room fuel s c) ⊆ sc_map c.
Proof.
  revert c; induction fuel as [|fuel IH]; intros c; cbn; [done|]. destruct (over s c); [|done]. etrans; [apply IH|]. rewrite (proj1 (evict_map c)). apply map_filter_subseteq.
Qed.
Lemma without_lookup key c k e : sc_map (without key c) !! k = Some e -> sc_map c !! k = Some e.
Proof.
  unfold without. destruct (sc_map c !! key) as [[t p]|]; [|done]. rewrite (proj1 (discharge_map _ _)). cbn. intros Hk. by apply lookup_delete_Some in Hk as [_ Hk].
Qed.
Lemma cache_insert_lookup key s c k e : sc_map (cache_insert key s c) !! k = Some e -> k = key /\ e.2 = s \/ sc_map c !! k = Some e.
Proof.
  unfold cache_insert. destruct (MAX_SUMMARY_BYTES <? cost (without key c) s); [right; by apply (without_lookup key)|]. set (d := make_room _ _ _).
  assert (Hd : forall k e, <[key := (sc_tick (charge d s), s)]> (sc_map (charge d s)) !! k = Some e -> k = key /\ e.2 = s \/ sc_map c !! k = Some e).
  { intros k' e'. rewrite lookup_insert_Some. intros [[<- <-]|[Hne Hk]]; [by left|right]. rewrite (proj1 (charge_map d s)) in Hk. apply (without_lookup key). by apply (lookup_weaken _ _ _ _ Hk), make_room_subseteq. }
  destruct (sc_map (charge d s) !! key) as [[t p]|]; [rewrite (proj1 (discharge_map _ _))|]; apply Hd.
Qed.
Lemma cache_get_lookup key c : (cache_get key c).1 = snd <$> sc_map c !! key /\ forall k e, sc_map (cache_get key c).2 !! k = Some e -> exists t, sc_map c !! k = Some (t, e.2).
Proof.
  unfold cache_get. destruct (sc_map c !! key) as [[t p]|] eqn:Hk; cbn; (split; [done|]); [|intros k [u q] He; eauto].
  intros k e. rewrite lookup_insert_Some. intros [[<- <-]|[_ He]]; [eauto|]. destruct e. eauto.
Qed.

Section Blooms.
Context `{Sbbf}.
Lemma bloom_get_lookup key c : (bloom_get key c).1 = snd <$> bc_entries c !! key /\ forall k e, bc_entries (bloom_get key c).2 !! k = Some e -> exists t, bc_entries c !! k = Some (t, e.2).
Proof.
  unfold bloom_get, touch. destruct (bc_entries c !! key) as [[t p]|] eqn:Hk; cbn; (split; [done|]); [|intros k [u q] He; eauto].
  intros k e. rewrite lookup_insert_Some. intros [[<- <-]|[_ He]]; [eauto|]. destruct e. eauto.
Qed.
Lemma bloom_room_subseteq fuel bytes limit c : bc_entries (bloom_room fuel bytes limit c) ⊆ bc_entries c.
Proof.
  revert c; induction fuel as [|fuel IH]; intros c; cbn; [done|]. destruct (_ <=? limit); [done|]. destruct (pop_first (bc_order c)) as [[key order]|]; [|done]. destruct (bc_entries c !! key) as [[t old]|]; [etrans; [apply IH|apply delete_subseteq]|apply (IH (BC _ _ _ _))].
Qed.
Lemma bloom_insert_lookup digest v limit c k e : bc_entries (bloom_insert digest v limit c).2 !! k = Some e -> k = digest /\ e.2 = v \/ exists t, bc_entries c !! k = Some (t, e.2).
Proof.
  unfold bloom_insert. destruct (limit <? _); [cbn; intros Hk; right; destruct e; eauto|]. pose proof (proj2 (bloom_get_lookup digest c)) as Ht. unfold bloom_get in Ht. destruct (touch digest c) as [[w|] c']; cbn in *; [intros Hk; right; by apply Ht|].
  rewrite lookup_insert_Some. intros [[<- <-]|[_ Hk]]; [by left|right]. apply Ht. by apply (lookup_weaken _ _ _ _ Hk), bloom_room_subseteq.
Qed.
End Blooms.

(** ** The files behind the digests *)

Section Files.
Context `{Unicode, XxHash, Xorf, Sbbf, FilterSize, Ipv6Parser, Sha256}.
(** The file of a digest: callers pass leases verified against the signed digest. *)
Context (content : string -> DataFile) (Hmemory : forall d, 0 <= df_memory (content d)).
(** Whether the disk never fails. *)
Context (exact : bool).

Definition sum_of (d : string) : option FileSummary := df_footer (content d) ≫= FileSummary_of.
(** A filter kept for a group: the one at its place, or unknown after a failed read. *)
Definition group_kept (d : string) (g : EntityGroup) (b : option sbbf) : Prop := b = summary_bloom (df_read_at (content d)) g \/ exact = false /\ b = None.
Definition fields_kept (d : string) (s : FileSummary) (fields : list (string * list (option sbbf))) : Prop :=
  Forall2 (fun e fld => e.1 = fld.1 /\ Forall2 (group_kept d) e.2 fld.2) (entities s) fields.
Definition opened_ok (d : string) (o : OpenedFile) : Prop :=
  op_file o = content d /\ df_footer (content d) = Some (op_footer o) /\ FileSummary_of (op_footer o) = Some (op_summary o).
Definition parsed_ok (d : string) (v : ParsedBlooms) : Prop := exists s, sum_of d = Some s /\ entities_located s = true /\ fields_kept d s (pb_fields v).

(** What is cached under a digest is of its file; the open footers are within their bounds. *)
Record caches_ok (c : FileMetadataCache) : Prop := {
  co_summary d e : sc_map (fm_summaries c) !! d = Some e -> sum_of d = Some e.2;
  co_bloom d e : bc_entries (fm_blooms c) !! d = Some e -> parsed_ok d e.2;
  co_opened : Forall (fun e => opened_ok e.1 e.2) (fm_entries c);
  co_footers : (length (fm_entries c) <= MAX_OPEN_FOOTERS)%nat;
  co_bytes : zsum ((fun e => footer_size e.2) <$> fm_entries c) <= MAX_OPEN_FOOTER_BYTES }.
Definition world_ok (w : World) : Prop := caches_ok (w_cache w) /\ (exact = true -> w_io w = []).
(** A program keeps the world right and returns what [Q] says. *)
Definition runs {A} (m : IOM A) (Q : A -> Prop) : Prop := forall w, world_ok w -> world_ok (m w).2 /\ Q (m w).1.

Lemma runs_ret {A} (a : A) (Q : A -> Prop) : Q a -> runs (mret a) Q.
Proof. intros Ha w Hw. done. Qed.
Lemma runs_bind {A B} (m : IOM A) (k : A -> IOM B) P Q : runs m P -> (forall a, P a -> runs (k a) Q) -> runs (m ≫= k) Q.
Proof. intros Hm Hk w Hw. destruct (Hm w Hw) as [Hm1 Hm2]. unfold mbind, IOM_bind. destruct (m w) as [a w2]. by apply (Hk a). Qed.
Lemma runs_mono {A} (m : IOM A) (P Q : A -> Prop) : runs m P -> (forall a, P a -> Q a) -> runs m Q.
Proof. intros Hm Hi w Hw. destruct (Hm w Hw). auto. Qed.

Lemma runs_attempt : runs attempt (fun b => exact = true -> b = true).
Proof.
  intros w [Hc Hio]. unfold attempt. destruct (w_io w) as [|b io] eqn:E; cbn; [split; [by split|done]|]. split; [split; [done|]|]; intros He; by specialize (Hio He).
Qed.
Lemma runs_summaries {A} (f : SummaryCache -> A * SummaryCache) (Q : A -> Prop) :
  (forall c, (forall d e, sc_map c !! d = Some e -> sum_of d = Some e.2) -> Q (f c).1 /\ forall d e, sc_map (f c).2 !! d = Some e -> sum_of d = Some e.2) -> runs (on_summaries f) Q.
Proof.
  intros Hf w [[Hs Hb Ho Hl Hz] Hio]. unfold on_summaries. destruct (Hf _ Hs) as [HQ Hs']. destruct (f (fm_summaries (w_cache w))) as [a x]. cbn in *. split; [|done]. by split.
Qed.
Lemma runs_blooms {A} (f : BloomCache -> A * BloomCache) (Q : A -> Prop) :
  (forall c, (forall d e, bc_entries c !! d = Some e -> parsed_ok d e.2) -> Q (f c).1 /\ forall d e, bc_entries (f c).2 !! d = Some e -> parsed_ok d e.2) -> runs (on_blooms f) Q.
Proof.
  intros Hf w [[Hs Hb Ho Hl Hz] Hio]. unfold on_blooms. destruct (Hf _ Hb) as [HQ Hb']. destruct (f (fm_blooms (w_cache w))) as [a x]. cbn in *. split; [|done]. by split.
Qed.
Definition entries_ok (l : list (string * OpenedFile)) : Prop :=
  Forall (fun e => opened_ok e.1 e.2) l /\ (length l <= MAX_OPEN_FOOTERS)%nat /\ zsum ((fun e => footer_size e.2) <$> l) <= MAX_OPEN_FOOTER_BYTES.
Lemma runs_entries {A} (f : list (string * OpenedFile) -> A * list (string * OpenedFile)) (Q : A -> Prop) :
  (forall l, entries_ok l -> Q (f l).1 /\ entries_ok (f l).2) -> runs (on_entries f) Q.
Proof.
  intros Hf w [[Hs Hb Ho Hl Hz] Hio]. unfold on_entries. destruct (Hf (fm_entries (w_cache w))) as [HQ (Hq1 & Hq2 & Hq3)]; [done|]. destruct (f (fm_entries (w_cache w))) as [a x]. cbn in *. split; [|done]. by split.
Qed.

(** ** Footers *)

Definition read_as (d : string) (o : option OpenedFile) : Prop := (forall x, o = Some x -> opened_ok d x) /\ (exact = true -> op_summary <$> o = sum_of d).

Lemma runs_key d : runs (metadata_key d) (fun k => (k = None \/ k = Some d) /\ (exact = true -> k = Some d)).
Proof. eapply runs_bind; [apply runs_attempt|]. intros b Hb. apply runs_ret. destruct b; split; auto. intros He. by specialize (Hb He). Qed.
Lemma runs_read d : runs (read_footer (content d)) (read_as d).
Proof.
  eapply runs_bind; [apply runs_attempt|]. intros b Hb. apply runs_ret. destruct b; [|split; [done|intros He; by specialize (Hb He)]]. unfold read_as, sum_of. destruct (df_footer (content d)) as [f|] eqn:Ef; cbn; [|done].
  destruct (FileSummary_of f) as [s|] eqn:Es; cbn; [|done]. split; [|done]. intros x [= <-]. by split_and!.
Qed.
Lemma runs_read_twice d : runs (read_twice (content d)) (read_as d).
Proof. eapply runs_bind; [apply runs_read|]. intros [o|] Ho; [by apply runs_ret|apply runs_read]. Qed.
Lemma opened_summary d o : opened_ok d o -> sum_of d = Some (op_summary o).
Proof. intros (_ & Hf & Hs). unfold sum_of. by rewrite Hf. Qed.
Lemma runs_remember d s : sum_of d = Some s -> runs (remember d s) (fun _ => True).
Proof. intros Hs. apply runs_summaries. intros c Hc. split; [done|]. intros k e Hk. apply cache_insert_lookup in Hk as [[-> ->]|Hk]; [done|by apply Hc]. Qed.
Lemma runs_cached d : runs (on_summaries (cache_get d)) (fun s => forall x, s = Some x -> sum_of d = Some x).
Proof.
  apply runs_summaries. intros c Hc. destruct (cache_get_lookup d c) as [-> Hget]. split.
  - intros x Hx. destruct (sc_map c !! d) as [e|] eqn:E; [|done]. injection Hx as <-. by apply Hc.
  - intros k e [t Hk]%Hget. by apply (Hc k (t, e.2)).
Qed.
Lemma runs_summary d : runs (summary (content d) d) (fun s => (forall x, s = Some x -> sum_of d = Some x) /\ (exact = true -> s = sum_of d)).
Proof.
  eapply runs_bind; [apply runs_key|]. intros k [Hk Hk2]. destruct Hk as [-> | ->]; [apply runs_ret; split; [done|intros He; by specialize (Hk2 He)]|].
  eapply runs_bind; [apply runs_cached|]. intros [s|] Hs; [apply runs_ret; split; [done|]; intros _; symmetry; by apply Hs|]. eapply runs_bind; [apply runs_read_twice|]. intros [o|] [Ho He].
  - pose proof (opened_summary d o (Ho o eq_refl)) as Hsum. eapply runs_bind; [by apply runs_remember|]. intros _ _. apply runs_ret. split; [by intros x [= <-]|done].
  - apply runs_ret. split; [done|]. exact He.
Qed.

Lemma footer_size_nonneg d o : opened_ok d o -> 0 <= footer_size o.
Proof. intros (Ho & _ & _). unfold footer_size. rewrite Ho. pose proof (Hmemory d). pose proof (summary_bytes_nonneg (op_summary o)). lia. Qed.
Lemma sizes_nonneg l : Forall (fun e => opened_ok e.1 e.2) l -> Forall (fun x => 0 <= x) ((fun e : string * OpenedFile => footer_size e.2) <$> l).
Proof. intros Hl. apply Forall_fmap. apply (Forall_impl _ _ _ Hl). intros [d o] Ho. by apply (footer_size_nonneg d). Qed.

(** The footers that must go leave room, and the early return is never taken. *)
Lemma drop_footers_spec size l : Forall (fun e => opened_ok e.1 e.2) l -> zsum ((fun e => footer_size e.2) <$> l) <= MAX_OPEN_FOOTER_BYTES -> 0 <= size <= MAX_OPEN_FOOTER_BYTES ->
  exists k, drop_footers size (zsum ((fun e => footer_size e.2) <$> l)) l = Some k /\ k `suffix_of` l /\ (length k < MAX_OPEN_FOOTERS)%nat /\ zsum ((fun e => footer_size e.2) <$> k) + size <= MAX_OPEN_FOOTER_BYTES.
Proof.
  intros Hl Hz Hs. induction Hl as [|[d o] l Ho Hl IH].
  - exists []. cbn in *. rewrite (proj2 (Z.ltb_ge _ _)) by (unfold sat_u64, u64_max; lia). split_and!; [done|done|unfold MAX_OPEN_FOOTERS; lia|lia].
  - pose proof (footer_size_nonneg d o Ho) as Hn. pose proof (zsum_nonneg _ (sizes_nonneg l Hl)) as Hzn. cbn [fmap list_fmap] in Hz |- *. unfold zsum in *. cbn [foldr snd] in *. fold (zsum ((fun e : string * OpenedFile => footer_size e.2) <$> l)) in *.
    cbn [drop_footers]. destruct (_ || _) eqn:E.
    + destruct IH as (k & Hk & Hsuf & Hlen & Hsum); [lia|]. exists k. split_and!; [|by apply suffix_cons_r|done|done]. cbn [snd].
      replace (sat_u64 _) with (zsum ((fun e : string * OpenedFile => footer_size e.2) <$> l)); [done|]. rewrite sat_u64_id; [lia|]. unfold in_u64, u64_max, MAX_OPEN_FOOTER_BYTES in *. lia.
    + apply orb_false_iff in E as [E1%Nat.leb_gt E2%Z.ltb_ge]. exists ((d, o) :: l). split_and!; [done|done|done|]. cbn [fmap list_fmap]. unfold zsum. cbn [foldr snd]. fold (zsum ((fun e : string * OpenedFile => footer_size e.2) <$> l)).
      unfold sat_u64, u64_max, MAX_OPEN_FOOTER_BYTES in *. lia.
Qed.

Lemma take_entry_spec d l : entries_ok l -> (forall o, (take_entry d l).1 = Some o -> opened_ok d o) /\ entries_ok (take_entry d l).2.
Proof.
  intros (Hl & Hlen & Hz). unfold take_entry. destruct (position _ l 0) as [i|] eqn:E; [|done]. apply position_0 in E as ([d2 o] & Hi & Hd). apply String.eqb_eq in Hd. cbn in Hd. subst d2. rewrite Hi. cbn.
  pose proof (proj1 (Forall_lookup _ l) Hl i _ Hi) as Ho. split; [by intros x [= <-]|]. assert (Hp : delete i l ++ [(d, o)] ≡ₚ l).
  { rewrite <- (take_drop_middle l i (d, o) Hi) at 2. rewrite delete_take_drop, <- app_assoc. apply Permutation_app_head. by rewrite Permutation_app_comm. }
  split_and!; [by rewrite Hp|by rewrite Hp|]. by rewrite (zsum_perm _ _ (fmap_Permutation _ _ _ Hp)).
Qed.
Lemma keep_entry_spec d o l : opened_ok d o -> entries_ok l -> (forall x, (keep_entry d o l).1 = Some x -> opened_ok d x) /\ is_Some (keep_entry d o l).1 /\ entries_ok (keep_entry d o l).2.
Proof.
  intros Ho Hok. destruct Hok as (Hl & Hlen & Hz). unfold keep_entry. destruct (List.find _ l) as [[d2 x]|] eqn:E.
  - apply find_some in E as [Hin Hd]. apply String.eqb_eq in Hd. cbn in Hd. subst d2. cbn. split_and!; [|done|done]. intros y [= <-]. rewrite Forall_forall in Hl. apply (Hl (d, x)). by apply list_elem_of_In.
  - pose proof (footer_size_nonneg d o Ho) as Hn. destruct (Z.ltb_spec MAX_OPEN_FOOTER_BYTES (footer_size o)) as [Hlt|Hle]; [split_and!; [by intros y [= <-]|done|done]|].
    rewrite sum_u64_exact; [|by apply sizes_nonneg|unfold MAX_OPEN_FOOTER_BYTES, u64_max in *; lia]. destruct (drop_footers_spec (footer_size o) l Hl Hz) as (k & -> & [k0 ->] & Hklen & Hksum); [done|].
    cbn. apply Forall_app in Hl as [_ Hk]. split_and!; [by intros y [= <-]|done|]. split_and!; [apply Forall_app; split; [done|by apply Forall_singleton]|rewrite length_app; cbn; lia|].
    rewrite fmap_app. cbn. rewrite (zsum_perm _ (footer_size o :: ((fun e => footer_size e.2) <$> k))) by (by rewrite Permutation_app_comm). unfold zsum in *. cbn. lia.
Qed.
Lemma runs_open d : runs (open_footer (content d) d) (read_as d).
Proof.
  eapply runs_bind; [apply runs_key|]. intros k [Hk Hk2]. destruct Hk as [-> | ->]; [apply runs_ret; split; [done|intros He; by specialize (Hk2 He)]|].
  eapply runs_bind; [apply (runs_entries _ (fun x => forall o, x = Some o -> opened_ok d o)); intros l Hl; by apply take_entry_spec|]. intros [o|] Ho.
  - apply runs_ret. split; [done|]. intros _. cbn. symmetry. apply opened_summary. by apply Ho.
  - eapply runs_bind; [apply runs_read_twice|]. intros [o|] [Hop He]; [|by apply runs_ret]. pose proof (Hop o eq_refl) as Hoo. eapply runs_bind; [apply runs_remember; by apply opened_summary|]. intros _ _.
    apply runs_entries. intros l Hl. destruct (keep_entry_spec d o l Hoo Hl) as (Hx1 & [x Hx2] & Hx3). split; [|done]. split; [done|]. intros _. rewrite Hx2. cbn. symmetry. apply opened_summary. by apply Hx1.
Qed.

(** ** Filters *)

Lemma runs_traverse {A B} (f : A -> IOM B) (R : A -> B -> Prop) l : (forall a, runs (f a) (R a)) -> runs (traverse f l) (Forall2 R l).
Proof.
  intros Hf. induction l as [|a l IH]; cbn [traverse]; [by apply runs_ret|]. eapply runs_bind; [apply Hf|]. intros b Hb. eapply runs_bind; [apply IH|]. intros bs Hbs. apply runs_ret. by constructor.
Qed.
Lemma runs_group d g : runs (read_group (content d) g) (group_kept d g).
Proof.
  unfold read_group, group_kept, summary_bloom. destruct (eg_bloom g) as [|o l|]; [by apply runs_ret; left| |by apply runs_ret; left]. eapply runs_bind; [apply runs_attempt|]. intros b Hb. apply runs_ret. destruct b; [by left|right].
  destruct exact; [by specialize (Hb eq_refl)|done].
Qed.
Lemma runs_fields d s : runs (read_fields (content d) s) (fields_kept d s).
Proof.
  apply (runs_traverse _ (fun e fld => e.1 = fld.1 /\ Forall2 (group_kept d) e.2 fld.2)). intros e. eapply runs_bind; [apply (runs_traverse _ (group_kept d)); apply runs_group|]. intros gs Hgs. by apply runs_ret.
Qed.
Lemma runs_insert d v : parsed_ok d v -> runs (on_blooms (bloom_insert d v MAX_PARSED_BLOOM_BYTES)) (fun _ => True).
Proof.
  intros Hv. apply runs_blooms. intros c Hc. split; [done|]. intros k e Hk. apply bloom_insert_lookup in Hk as [[-> ->]|[t Hk]]; [done|]. by apply (Hc k (t, e.2)).
Qed.
Lemma runs_got d : runs (on_blooms (bloom_get d)) (fun v => forall x, v = Some x -> parsed_ok d x).
Proof.
  apply runs_blooms. intros c Hc. destruct (bloom_get_lookup d c) as [-> Hget]. split.
  - intros x Hx. destruct (bc_entries c !! d) as [e|] eqn:E; [|done]. injection Hx as <-. by apply Hc.
  - intros k e [t Hk]%Hget. by apply (Hc k (t, e.2)).
Qed.
Lemma runs_prewarm d budget : runs (prewarm_with_budget (content d) d budget) (fun _ => True).
Proof.
  eapply runs_bind; [apply (runs_blooms _ (fun _ => True)); by intros c Hc|]. intros [b|] _; [by apply runs_ret|]. eapply runs_bind; [apply runs_summary|]. intros [s|] [Hs _]; [|by apply runs_ret].
  destruct (entities_located s) eqn:El; cbn [negb]; [|by apply runs_ret]. destruct (budget <? _); [by apply runs_ret|]. eapply runs_bind; [apply runs_attempt|]. intros [|] _; cbn [negb]; [|by apply runs_ret].
  eapply runs_bind; [apply runs_fields|]. intros fields Hf. eapply runs_bind; [apply runs_insert; exists s; split_and!; [by apply Hs|done|done]|]. intros i _. by apply runs_ret.
Qed.
Lemma runs_parsed d s : runs (parsed_of (content d) d s) (fun v => forall x, v = Some x -> parsed_ok d x).
Proof.
  eapply runs_bind; [apply runs_got|]. intros [v|] Hv; [by apply runs_ret|]. destruct (_ && _); [|by apply runs_ret]. eapply runs_bind; [eapply runs_bind; [apply runs_prewarm|intros [b rest] _; by apply (runs_ret b (fun _ => True))]|].
  intros [|] _; [apply runs_got|by apply runs_ret].
Qed.

(** ** Evidence *)

(** The evidence a call decides with is of the file. *)
Definition from_file (lost : Z -> Z -> bool) (lost_chunk : nat -> nat -> bool) (hints : list CandidateHint) (d : string) (s : FileSummary) (b : option Blooms) : Prop :=
  match b with
  | None => uses_entities hints = false
  | Some (BParsed s2 fields) => uses_entities hints = true /\ s2 = s /\ entities_located s = true /\ fields_kept d s fields
  | Some (BSummary s2 ra) => uses_entities hints = true /\ s2 = s /\ entities_located s = true /\ ra = readable lost (content d)
  | Some (BFooter f cb) => uses_entities hints = true /\ df_footer (content d) = Some f /\ cb = chunk_readable lost_chunk (content d)
  end.

Lemma runs_evidence lost lost_chunk d hints tokens combined cache_footer buckets :
  runs (evidence_of_tokens lost lost_chunk (content d) d hints tokens combined cache_footer buckets) (fun ev =>
    (forall e, ev = Some e -> exists s b, sum_of d = Some s /\ from_file lost lost_chunk hints d s b /\ e = evidence_masks s b tokens combined hints buckets) /\
    (exact = true -> is_Some (sum_of d) -> is_Some ev)).
Proof.
  eapply runs_bind; [apply runs_summary|]. intros sm [Hs Hse]. destruct sm as [s|]; [|apply runs_ret; split; [done|]; intros He; rewrite <- (Hse He); by intros [? ?]].
  pose proof (Hs s eq_refl) as Hsum. eapply (runs_bind _ _ (fun v => (forall x, v = Some x -> parsed_ok d x) /\ (uses_entities hints = false -> v = None))).
  { destruct (uses_entities hints); [eapply runs_mono; [apply runs_parsed|]; by intros v Hv|by apply runs_ret]. }
  intros parsed [Hp Hpn]. eapply (runs_bind _ _ (fun o => (exact = true -> is_Some o) /\ forall x, o = Some x ->
     match x with Some y => opened_ok d y /\ parsed = None /\ uses_entities hints = true | None => parsed = None -> uses_entities hints = true -> entities_located s = true end)).
  { destruct (uses_entities hints && negb (bool_decide (is_Some parsed)) && negb (entities_located s)) eqn:E.
    - apply andb_true_iff in E as [[E1 E2%negb_true_iff]%andb_true_iff _]. apply bool_decide_eq_false in E2. eapply (runs_bind _ _ (read_as d)); [destruct cache_footer; [apply runs_open|apply runs_read]|]. intros o [Ho Hoe]. apply runs_ret. split.
      + intros He. specialize (Hoe He). rewrite Hsum in Hoe. destruct o; [by eexists|done].
      + intros x Hx. destruct o as [o|]; [|done]. injection Hx as <-. split_and!; [by apply Ho| |done]. destruct parsed; [by destruct E2|done].
    - apply runs_ret. split; [by eexists|]. intros x [= <-] -> Hu. rewrite Hu in E. cbn in E. by destruct (entities_located s). }
  intros opened [Hoe Ho]. destruct opened as [opened|]; [|apply runs_ret; split; [done|]; intros He; by destruct (Hoe He)]. specialize (Ho opened eq_refl).
  eapply (runs_bind _ _ (fun ok => exact = true -> ok = true)); [destruct (_ && _); [apply runs_attempt|by apply runs_ret]|]. intros [|] Hok; cbn [negb]; [|apply runs_ret; split; [done|]; intros He; by specialize (Hok He)].
  apply runs_ret. split; [|by eexists]. intros e He. apply (inj Some) in He. subst e. eexists s, _. split; [done|]. split; [|reflexivity].
  destruct parsed as [v|]; [|destruct opened as [o|]].
  - destruct (Hp v eq_refl) as (s2 & Hs2 & Hl & Hf). assert (s2 = s) as -> by congruence. cbn. split_and!; [|done|done|done]. destruct (uses_entities hints) eqn:Hu; [done|]. by specialize (Hpn eq_refl).
  - destruct Ho as ((_ & Hf & _) & _ & Hu). cbn. done.
  - destruct (uses_entities hints) eqn:Hu; cbn; [|done]. split_and!; [done|done|by apply Ho|done].
Qed.

(** The kept filters of a path are those of its groups. *)
Lemma kept_lookup d s fields path gs k g : fields_kept d s fields -> entity s path = Some gs -> gs !! k = Some g -> group_kept d g (parsed_bloom fields path k).
Proof.
  intros Hf He Hg. unfold entity in He. unfold parsed_bloom, fields_kept in *. induction Hf as [|[p1 gs1] [p2 bs] es flds [Hp Hgs] Hf IH]; [done|]. cbn in *. subst p2. destruct (String.eqb p1 path).
  - injection He as <-. destruct (Forall2_lookup_l _ _ _ _ _ Hgs Hg) as (b & Hb & Hk). cbn. by rewrite Hb.
  - by apply IH.
Qed.
(** A name is one column's. *)
Lemma kept_elsewhere d s fields path k : fields_kept d s fields -> entity s path = None -> parsed_bloom fields path k = None.
Proof.
  intros Hf He. unfold entity in He. unfold parsed_bloom, fields_kept in *. induction Hf as [|[p1 gs1] [p2 bs] es flds [Hp Hgs] Hf IH]; [done|]. cbn in *. subst p2. destruct (String.eqb p1 path); [done|]. by apply IH.
Qed.
End Files.

Lemma indicator_leaf parts kind : indicator_leaf_kind parts = Some kind -> leaf_event_path parts = kind_column kind.
Proof.
  unfold indicator_leaf_kind. destruct parts as [|c [|l [|i [|x parts]]]]; try done. destruct (String.eqb_spec l "list") as [->|]; [|done]. destruct (String.eqb_spec i "item") as [->|]; [|done]. cbn. unfold of_column. destruct (String.eqb_spec c (kind_column Domain)) as [->|]; [|done]. destruct kind. intros _. reflexivity.
Qed.
Lemma entity_leaf f c name : schema_ok f -> c ∈ ft_columns f -> entity_name f c = Some name -> leaf_event_path (col_parts c) = name.
Proof.
  intros Hf Hc. unfold entity_name. destruct (if ft_marker f && _ then _ else _) as [kind|] eqn:E.
  - intros [= <-]. destruct (ft_marker f && _); [|done]. by apply indicator_leaf.
  - destruct (Z.eqb_spec (max_rep_level c) 0) as [Hr|]; [|done]. cbn. case_bool_decide; [|done]. intros [= <-]. apply list_elem_of_lookup in Hc as [i Hc]. by apply (flat_leaf f Hf i).
Qed.
Lemma entity_unique f i j c d name : schema_ok f -> ft_columns f !! i = Some c -> ft_columns f !! j = Some d -> entity_name f c = Some name -> entity_name f d = Some name -> i = j.
Proof.
  intros Hf Hi Hj Hc Hd. apply (so_unique f Hf i j c d Hi Hj). rewrite (entity_leaf f c name Hf), (entity_leaf f d name Hf); [done|by apply list_elem_of_lookup_2 in Hj|done|by apply list_elem_of_lookup_2 in Hi|done].
Qed.

(** ** Histories *)

Section Histories.
Context `{Unicode, XxHash, Xorf, Sbbf, FilterSize, Ipv6Parser, Sha256}.
Context (keys_of : gmap string (Z * ParsedBlooms) -> list string) (content : string -> DataFile).

(** The calls on a cache: evidence for a search, warming, pruning of dead digests and
    re-ranking. *)
Inductive MetadataOp :=
| MEvidence (lost : Z -> Z -> bool) (lost_chunk : nat -> nat -> bool) (digest : string) (hints : list CandidateHint) (tokens : option (list TokenGroup)) (combined cache_footer : bool) (buckets : option (gset Z))
| MPrewarm (digest : string) (budget : Z)
| MRetain (live : gset string)
| MOrder (newest_first : list string).
Definition run_metadata (o : MetadataOp) (w : World) : World :=
  match o with
  | MEvidence lost lost_chunk d hints tokens combined cache_footer buckets => (evidence_of_tokens lost lost_chunk (content d) d hints tokens combined cache_footer buckets w).2
  | MPrewarm d budget => (prewarm_with_budget (content d) d budget w).2
  | MRetain live => (on_blooms (fun c => (tt, retain keys_of live c)) w).2
  | MOrder newest => (on_blooms (fun c => (tt, order_oldest_first keys_of newest c)) w).2
  end.
Definition FileMetadataCache_default : FileMetadataCache := {| fm_entries := []; fm_summaries := SummaryCache_default; fm_blooms := BloomCache_default |}.
Definition after (io : list bool) (ops : list MetadataOp) : World := foldl (fun w o => run_metadata o w) {| w_cache := FileMetadataCache_default; w_io := io |} ops.

Lemma restamps_lookup l c d e : bc_entries (foldl restamp c l) !! d = Some e -> exists t, bc_entries c !! d = Some (t, e.2).
Proof.
  revert c; induction l as [|x l IH]; intros c; cbn; [destruct e; eauto|]. intros [t Ht]%IH. unfold restamp in Ht. cbn in Ht. destruct (bc_entries c !! x) as [[u v]|] eqn:E; [|eauto]. apply lookup_insert_Some in Ht as [[<- [= _ <-]]|[_ Ht]]; eauto.
Qed.

Context (Hmemory : forall d, 0 <= df_memory (content d)).
Lemma run_metadata_ok exact o w : world_ok content exact w -> world_ok content exact (run_metadata o w).
Proof.
  intros Hw. destruct o as [lost lc d hints tokens combined cf buckets|d budget|live|newest]; cbn [run_metadata].
  - by apply (runs_evidence content Hmemory exact).
  - by apply (runs_prewarm content exact).
  - apply (runs_blooms content exact _ (fun _ => True)); [|done]. intros c Hc. split; [done|]. intros d e Hd. cbn in Hd. apply map_lookup_filter_Some in Hd as [Hd _]. by apply Hc.
  - apply (runs_blooms content exact _ (fun _ => True)); [|done]. intros c Hc. split; [done|]. intros d e Hd. cbn in Hd. unfold order_oldest_first in Hd. apply restamps_lookup in Hd as [t Hd]. by apply (Hc d (t, e.2)).
Qed.
Lemma after_ok exact io ops : (exact = true -> io = []) -> world_ok content exact (after io ops).
Proof.
  intros Hio. unfold after. assert (Hw : world_ok content exact {| w_cache := FileMetadataCache_default; w_io := io |}) by (split; [split; cbn; try done; unfold MAX_OPEN_FOOTERS; lia|done]).
  revert Hw. generalize ({| w_cache := FileMetadataCache_default; w_io := io |}). induction ops as [|o ops IH]; intros w Hw; cbn; [done|]. apply IH. by apply run_metadata_ok.
Qed.

(** The filters of the file hold the values of the row. *)
Definition file_holds (f : Footer) (k : nat) (r : StoredRow) (file : DataFile) : Prop :=
  (forall i o l bl x, eg_bloom (EntityGroup_of (column_chunks f i !!! k)) = At o l -> df_read_at file o l = Some bl -> x ∈ sr_cells r i -> sbbf_check bl x = true) /\
  (forall i bl x, df_chunk_bloom file i k = Some bl -> x ∈ sr_cells r i -> sbbf_check bl x = true).

Lemma from_file_holds exact lost lost_chunk hints d f s k r b : schema_ok f -> df_footer (content d) = Some f -> FileSummary_of f = Some s -> (k < length (ft_groups f))%nat -> file_holds f k r (content d) ->
  from_file content exact lost lost_chunk hints d s (Some b) -> blooms_hold f k r b.
Proof.
  intros Hsch Hf Hs Hk [Hread Hchunk]. destruct b as [f2 cb|s2 ra|s2 fields]; cbn.
  - intros (_ & Hf2 & ->). split; [congruence|]. intros i bl x Hb. unfold chunk_readable in Hb. destruct (lost_chunk i k); [done|]. by apply Hchunk.
  - intros (_ & -> & _ & ->). split; [done|]. intros i o l bl x Ho Hb. unfold readable in Hb. destruct (lost o l); [done|]. by apply (Hread i o l).
  - intros (_ & -> & _ & Hfields). split; [done|]. intros i c name bl x Hc Hn Hb Hx. destruct (entity s name) as [gs|] eqn:Eg; [|by rewrite (kept_elsewhere content exact d s fields name k Hfields Eg) in Hb].
    destruct (entity_column f s name gs Hs Eg) as (j & c2 & Hc2 & Hn2 & ->). assert (j = i) as -> by (by apply (entity_unique f j i c2 c name)).
    assert (Hg : (EntityGroup_of <$> column_chunks f i) !! k = Some (EntityGroup_of (column_chunks f i !!! k))) by (by rewrite list_lookup_fmap, (column_chunk_lookup f i k Hk)).
    destruct (kept_lookup content exact d s fields name _ k _ Hfields Eg Hg) as [E|[_ E]]; rewrite E in Hb; [|done]. revert Hb. unfold summary_bloom, read_bloom_at. destruct (eg_bloom _) as [|o l|] eqn:Eb; try done. destruct (_ <? _); [done|]. intros Hb. by apply (Hread i o l).
Qed.

(** *** Without failed reads *)

(** Filters recorded at a place are the chunks' filters. *)
Definition file_consistent (f : Footer) (file : DataFile) : Prop :=
  forall i k, (k < length (ft_groups f))%nat -> df_chunk_bloom file i k = summary_bloom (df_read_at file) (EntityGroup_of (column_chunks f i !!! k)).

(** Kept filters decide like the places they were read from. *)
Lemma parsed_same d f s k fields : FileSummary_of f = Some s -> (k < length (ft_groups f))%nat -> fields_kept content true d s fields ->
  (forall p v, blooms_may_contain (BParsed s fields) k p v = blooms_may_contain (BSummary s (df_read_at (content d))) k p v) /\
  (forall kind v, indicator_may_contain (BParsed s fields) k kind v = indicator_may_contain (BSummary s (df_read_at (content d))) k kind v).
Proof.
  intros Hs Hk Hf. assert (Hb : forall path gs g, entity s path = Some gs -> gs !! k = Some g -> parsed_bloom fields path k = summary_bloom (df_read_at (content d)) g).
  { intros path gs g He Hg. by destruct (kept_lookup content true d s fields path gs k g Hf He Hg) as [E|[? _]]. }
  split.
  - intros p v. unfold blooms_may_contain, summary_contains. destruct (_ || _); [done|]. destruct (entity s p) as [gs|] eqn:He; [|done]. destruct (gs !! k) as [g|] eqn:Hg; [|done]. by rewrite (Hb p gs g).
  - intros kind v. unfold indicator_may_contain, summary_indicator. destruct (probe v); [|done]. destruct (negb _); [done|]. destruct (entity s (kind_column kind)) as [gs|] eqn:He; [|done]. destruct (gs !! k) as [g|] eqn:Hg; [|done]. by rewrite (Hb (kind_column kind) gs g).
Qed.

Lemma fmap_seq_ext {A} (g h : nat -> A) n : (forall i, (i < n)%nat -> g i = h i) -> g <$> seq 0 n = h <$> seq 0 n.
Proof. intros E. apply list_fmap_ext. intros i x Hx. apply lookup_seq in Hx as [-> Hi]. by apply E. Qed.
Lemma forallb_pointwise {A} (p q : A -> bool) l : (forall x, p x = q x) -> forallb p l = forallb q l.
Proof. intros E. induction l as [|x l IH]; cbn; [done|]. by rewrite E, IH. Qed.
(** Evidence that decides every group alike gives the same masks. *)
Lemma hint_mask_same f s b1 b2 tokens combined hints : FileSummary_of f = Some s ->
  (forall k, (k < length (ft_groups f))%nat -> (forall p v, blooms_may_contain b1 k p v = blooms_may_contain b2 k p v) /\ (forall kind v, indicator_may_contain b1 k kind v = indicator_may_contain b2 k kind v)) ->
  hint_mask s (Some b1) tokens combined hints = hint_mask s (Some b2) tokens combined hints.
Proof.
  intros Hs Hb. destruct (summary_length f s Hs) as [Hlen _]. unfold hint_mask. cbv zeta. do 2 f_equal. destruct (combined && _).
  - f_equal. apply fmap_seq_ext. intros k Hk. rewrite Hlen in Hk. destruct (Hb k Hk) as [H1' H2']. apply forallb_pointwise. intros h. by apply hints_ext.
  - cbn [fmap option_fmap option_map]. f_equal. apply fmap_seq_ext. intros k Hk. rewrite Hlen in Hk. destruct (Hb k Hk) as [H1' H2']. apply forallb_pointwise. intros h. by apply (hints_ext b1 b2 k None h).
Qed.
Lemma evidence_same lost lost_chunk hints d f s b tokens combined buckets : (forall o l, lost o l = false) -> (forall i k, lost_chunk i k = false) ->
  df_footer (content d) = Some f -> FileSummary_of f = Some s -> (entities_located s = true -> file_consistent f (content d)) -> from_file content true lost lost_chunk hints d s b ->
  evidence_masks s b tokens combined hints buckets = evidence_masks s (if uses_entities hints then Some (BFooter f (df_chunk_bloom (content d))) else None) tokens combined hints buckets.
Proof.
  intros Hl Hlc Hf Hs Hcons. unfold evidence_masks. destruct b as [[f2 cb|s2 ra|s2 fields]|]; cbn [from_file].
  - intros (-> & Hf2 & ->). assert (f2 = f) as -> by congruence. do 3 f_equal. apply (hint_mask_same f); [done|]. intros k Hk. unfold blooms_may_contain, indicator_may_contain, chunk_readable. split; intros; repeat case_match; by rewrite ?Hlc in *; simplify_eq.
  - intros (-> & -> & Hloc & ->). do 3 f_equal. apply (hint_mask_same f); [done|]. intros k Hk. assert (Hx : forall i, df_chunk_bloom (content d) i k = summary_bloom (readable lost (content d)) (EntityGroup_of (column_chunks f i !!! k))).
    { intros i. rewrite (Hcons Hloc i k Hk). unfold summary_bloom, read_bloom_at, readable. destruct (eg_bloom _); by rewrite ?Hl. }
    split; intros; [by apply (summary_contains_same f s Hs k Hk)|by apply (summary_indicator_same f s Hs k Hk)].
  - intros (-> & -> & Hloc & Hfields). do 3 f_equal. apply (hint_mask_same f); [done|]. intros k Hk. destruct (parsed_same d f s k fields Hs Hk Hfields) as [Hp1 Hp2].
    split; intros; [rewrite Hp1; apply (summary_contains_same f s Hs k Hk)|rewrite Hp2; apply (summary_indicator_same f s Hs k Hk)]; intros i; by apply Hcons.
  - by intros ->.
Qed.

(** C33: The metadata caches are transparent. Whatever was asked of them before (evidence for
    any searches, warming, pruning, re-ranking, evictions at the limits), when no disk read
    fails the evidence of a file is that of its opened footer read afresh: same masks, same
    ranges, same times, whether the answer comes from a summary, from parsed filters or from
    a cached footer. *)
Theorem cached_evidence_exact ops lost lost_chunk d f s hints tokens combined cache_footer buckets :
  df_footer (content d) = Some f -> FileSummary_of f = Some s -> (entities_located s = true -> file_consistent f (content d)) ->
  (forall o l, lost o l = false) -> (forall i k, lost_chunk i k = false) ->
  (evidence_of_tokens lost lost_chunk (content d) d hints tokens combined cache_footer buckets (after [] ops)).1 =
  Some (evidence_masks s (if uses_entities hints then Some (BFooter f (df_chunk_bloom (content d))) else None) tokens combined hints buckets).
Proof.
  intros Hf Hs Hcons Hl Hlc. destruct (runs_evidence content Hmemory true lost lost_chunk d hints tokens combined cache_footer buckets (after [] ops) (after_ok true [] ops (fun _ => eq_refl))) as (_ & Hev & Hsome).
  assert (Hsum : sum_of content d = Some s) by (unfold sum_of; by rewrite Hf). destruct (Hsome eq_refl) as [e He]; [by eexists|]. rewrite He. f_equal. destruct (Hev e He) as (s2 & b & Hs2 & Hb & ->). assert (s2 = s) as -> by congruence. by apply (evidence_same lost lost_chunk).
Qed.

(** *** With failed reads *)

Context `{!UnicodeAscii, CaseFold, !SimpleFolding, !Ipv6Laws, !SbbfLaws}.

(** C6: No history of the caches and no pattern of failed disk reads makes a search skip a
    match, for hints whose plain tokens and hashes are in ASCII and rows whose texts hold neither
    a long s nor a Kelvin sign (the conditions of [pruning_keeps_matches]). Such a row of the
    [k]-th group of the file satisfies every hint; whatever the caches
    were asked before and whichever reads failed then and fail now, when the call returns
    evidence, the ranges read after intersecting its masks hold the row, with the row's time
    within the range's time; and the cached footers stay within 256 files and 64 MiB. *)
Theorem cached_evidence_keeps_matches ops io lost lost_chunk d f s k rng n r hints tokens combined cache_footer buckets mask tmask rs times :
  df_footer (content d) = Some f -> schema_ok f -> FileSummary_of f = Some s -> describes f k r -> ranges s !! k = Some rng -> in_range n rng ->
  file_holds f k r (content d) -> (forall ts, tokens = Some ts -> tokens_hold r (ts !! k)) ->
  Forall text_ok (sr_texts r) -> Forall hint_ok hints -> Forall (row_matches f r) hints ->
  (forall bs, buckets = Some bs -> bucket_of (sr_time r) ∈ bs) -> (forall ts b, group_times s = Some ts -> ts !! k = Some (Some b) -> in_i64 (bucket_of b.1)) ->
  let w := after io ops in
  (evidence_of_tokens lost lost_chunk (content d) d hints tokens combined cache_footer buckets w).1 = Some (mask, tmask, rs, times) ->
  (forall m, and_masks mask tmask = Some m -> Exists (in_range n) (kept_ranges m rs) /\ Exists (holds_at n (sr_time r)) (kept_ranges_with_time m rs times)) /\
  (length (fm_entries (w_cache w)) <= MAX_OPEN_FOOTERS)%nat /\ zsum ((fun e => footer_size e.2) <$> fm_entries (w_cache w)) <= MAX_OPEN_FOOTER_BYTES.
Proof.
  intros Hf Hsch Hs Hd Hk Hn Hholds Ht Htexts Hok Hm Hbk Hin. cbn zeta. assert (Hw : world_ok content false (after io ops)) by (by apply after_ok). intros He. split; [|destruct Hw as [[_ _ _ Hx Hy] _]; done].
  destruct (runs_evidence content Hmemory false lost lost_chunk d hints tokens combined cache_footer buckets _ Hw) as (_ & Hev & _).
  destruct (Hev _ He) as (s2 & b & Hs2 & Hb & Hmasks). assert (s2 = s) as -> by (unfold sum_of in Hs2; rewrite Hf in Hs2; cbn in Hs2; congruence).
  assert (Hkf : (k < length (ft_groups f))%nat) by (destruct (summary_length f s Hs) as [<- _]; by apply lookup_lt_Some in Hk).
  pose proof (masks_keep f s k rng n r b tokens combined hints buckets Hsch Hs Hd Hk Hn) as Hkeep. rewrite <- Hmasks in Hkeep. apply Hkeep; try done.
  intros x ->. by apply (from_file_holds false lost lost_chunk hints d f s).
Qed.
End Histories.

(** ** An example *)

Module CacheExample.
Export FileExample BloomExample.
Definition file_ab : DataFile :=
  {| df_footer := Some footer_ab; df_memory := 4096; df_read_at := fun o _ => filters_ab o 0;
     df_chunk_bloom := fun i k => summary_bloom (fun o _ => filters_ab o 0) (EntityGroup_of (column_chunks footer_ab i !!! k)) |}.
Definition no_file : DataFile := {| df_footer := None; df_memory := 0; df_read_at := fun _ _ => None; df_chunk_bloom := fun _ _ => None |}.
Definition disk (d : string) : DataFile := if String.eqb d "ab" then file_ab else no_file.
Lemma disk_memory d : 0 <= df_memory (disk d).
Proof. unfold disk. by destruct (String.eqb d "ab"). Qed.
Definition never {A B : Type} (_ : A) (_ : B) : bool := false.
Definition past : list MetadataOp := [MPrewarm "ab" 1000000; MEvidence never never "ab" hints_file None false true None; MRetain {["ab"]}; MOrder ["ab"]].
Definition faults : list bool := [true; false; true; true; true; true; false; true].
Lemma file_ab_holds : file_holds footer_ab 0 row_ab (disk "ab").
Proof.
  split.
  - intros i o l bl s Ho Hb Hs%cells_cases. destruct Hs as [[-> ->]|[[-> ->]|[[-> ->]|[-> ->]]]]; vm_compute in Ho; try discriminate Ho; injection Ho as <- <-; injection Hb as <-; vm_compute; reflexivity.
  - intros i bl s Hb Hs%cells_cases. destruct Hs as [[-> ->]|[[-> ->]|[[-> ->]|[-> ->]]]]; vm_compute in Hb; try discriminate Hb; injection Hb as <-; vm_compute; reflexivity.
Qed.
End CacheExample.
Import CacheExample.

Lemma cached_evidence_exact_witness :
  (evidence_of_tokens never never (disk "ab") "ab" hints_file (Some groups_ab) true true (Some {[0]}) (after hash_keys disk [] past)).1 =
  Some (evidence_masks summary_ab (if uses_entities hints_file then Some (BFooter footer_ab (df_chunk_bloom (disk "ab"))) else None) (Some groups_ab) true hints_file (Some {[0]})).
Proof.
  refine (cached_evidence_exact hash_keys disk disk_memory past never never "ab" footer_ab summary_ab hints_file (Some groups_ab) true true (Some {[0]}) _ _ _ _ _).
  - reflexivity.
  - vm_compute. reflexivity.
  - intros _ i k _. reflexivity.
  - intros o l. reflexivity.
  - intros i k. reflexivity.
Defined.

Lemma cached_evidence_keeps_matches_witness :
  let w := after hash_keys disk faults past in
  (forall m, and_masks (Some [true; false]) (Some [true; true]) = Some m ->
     Exists (in_range 0) (kept_ranges m [(0, 2); (2, 5)]) /\ Exists (holds_at 0 60000000) (kept_ranges_with_time m [(0, 2); (2, 5)] (Some [(60000000, 61000000); (125000000, 125000000)]))) /\
  (length (fm_entries (w_cache w)) <= MAX_OPEN_FOOTERS)%nat /\ zsum ((fun e => footer_size e.2) <$> fm_entries (w_cache w)) <= MAX_OPEN_FOOTER_BYTES.
Proof.
  refine (cached_evidence_keeps_matches hash_keys disk disk_memory past faults never never "ab" footer_ab summary_ab 0 (0, 2) 0 row_ab hints_file (Some groups_ab) true true (Some {[0]}) _ _ _ _
    _ schema_ab _ describes_ab _ _ file_ab_holds _ _ hints_file_ok hints_file_match _ _ _).
  - reflexivity.
  - vm_compute. reflexivity.
  - vm_compute. reflexivity.
  - vm_compute. split; [discriminate|reflexivity].
  - intros ts Hts. apply (inj Some) in Hts. rewrite <- Hts. exact tokens_ab_hold.
  - exact texts_ab_scalar.
  - intros bs Hbs. injection Hbs as <-. apply elem_of_singleton. vm_compute. reflexivity.
  - intros ts b Hts. vm_compute in Hts. injection Hts as <-. intros Hb. injection Hb as <-. vm_compute. split; discriminate.
  - vm_compute. reflexivity.
Defined.
