(* ===== verification/Json.v ===== *)
(** * Json: canonical JSON

    [write_canonical_json] and [canonical_json_bytes] of [parts/provenance.rs], over
    [serde_json::Value]. How [serde_json] writes a string, an integer and a float is the
    class [JsonWriter]; that a string literal delimits itself and an integer is digits
    with an optional sign is [JsonLaws]. *)
From S2P Require Import Prelude EdgeLog.

(** [serde_json::Value]; an object is its entries in iteration order, their keys distinct.
    A number is an integer in the range of [i64] or [u64], or a float (its text). *)
#[warnings="-register-all"]
Inductive Json :=
| JNull | JBool (b : bool) | JInt (z : Z) | JFloat (text : string) | JString (s : string)
| JArray (vs : list Json) | JObject (m : list (string * Json)).

Section json_ind.
Context (P : Json -> Prop) (Hn : P JNull) (Hb : forall b, P (JBool b)) (Hi : forall z, P (JInt z))
  (Hf : forall t, P (JFloat t)) (Hs : forall s, P (JString s)).
Context (Ha : forall vs, Forall P vs -> P (JArray vs)) (Ho : forall m, Forall (fun kv => P kv.2) m -> P (JObject m)).
Fixpoint Json_rect' (v : Json) : P v :=
  match v with
  | JNull => Hn | JBool b => Hb b | JInt z => Hi z | JFloat t => Hf t | JString s => Hs s
  | JArray vs => Ha vs ((fix go vs : Forall P vs := match vs with [] => List.Forall_nil _ | v :: vs => List.Forall_cons _ _ _ (Json_rect' v) (go vs) end) vs)
  | JObject m => Ho m ((fix go m : Forall (fun kv => P kv.2) m :=
      match m with [] => List.Forall_nil _ | kv :: m => List.Forall_cons _ _ _ (Json_rect' kv.2) (go m) end) m)
  end.
End json_ind.

Class JsonWriter := { write_str : string -> string; write_int : Z -> string; write_float : string -> string }.

Definition quote : ascii := ascii_of_N 34.
Definition backslash : ascii := ascii_of_N 92.
(** Printable ASCII that JSON does not escape. *)
Definition is_plain (c : ascii) : bool :=
  (32 <=? byte_val c) && (byte_val c <? 127) && negb (Ascii.eqb c quote) && negb (Ascii.eqb c backslash).
Definition is_int_char (c : ascii) : bool := is_digit c || Ascii.eqb c "-".

Class JsonLaws (W : JsonWriter) : Prop := {
  (** a string literal starts with a quote and delimits itself *)
  write_str_quote : forall s, exists t, write_str s = String quote t;
  write_str_delim : forall s t x y, write_str s +:+ x = write_str t +:+ y -> s = t /\ x = y;
  (** an integer is digits with an optional sign, one spelling per integer *)
  write_int_chars : forall z, str_all is_int_char (write_int z) = true /\ write_int z <> EmptyString;
  write_int_inj : forall a b, write_int a = write_int b -> a = b;
  (** lengths: a string without control characters, quotes and backslashes is written as it is
      between two quotes; a non-negative integer takes its decimal digits *)
  write_str_plain : forall s, str_all is_plain s = true -> str_len (write_str s) = str_len s + 2;
  write_int_len : forall w z, 0 <= z < 10 ^ Z.of_nat (S w) -> str_len (write_int z) <= Z.of_nat (S w) }.

(** Order by key, bytewise. *)
Definition key_leb {A} (a b : string * A) : bool := String.leb a.1 b.1.
Definition sort_entries {A} (m : list (string * A)) : list (string * A) := sort_by key_leb m.

(** Items separated by commas. *)
Fixpoint comma_rest (l : list string) : string :=
  match l with [] => EmptyString | s :: l => String "," (s +:+ comma_rest l) end.
Definition comma_sep (l : list string) : string :=
  match l with [] => EmptyString | s :: l => s +:+ comma_rest l end.

(** The same value with the keys of every object in byte order. *)
Fixpoint sort_keys (v : Json) : Json :=
  match v with
  | JArray vs => JArray (sort_keys <$> vs)
  | JObject m => JObject (sort_entries ((fun kv => (kv.1, sort_keys kv.2)) <$> m))
  | _ => v
  end.

(** The check of [canonical_json_bytes]: safe integers only. [i64::abs] wraps in a release build. *)
Definition safe_int (z : Z) : bool :=
  ((i64_min <=? z) && (z <=? i64_max) && (wrap_i64 (Z.abs z) <=? MAX_SAFE_INTEGER))
  || ((0 <=? z) && (z <=? u64_max) && (z <=? MAX_SAFE_INTEGER)).
Fixpoint check (v : Json) : bool :=
  match v with
  | JInt z => safe_int z
  | JFloat _ => false
  | JArray vs => forallb check vs
  | JObject m => forallb (fun kv => check kv.2) m
  | _ => true
  end.

Inductive JsonError := UnsafeNumber.

Section writer.
Context `{W : JsonWriter}.

(** A scalar, as [serde_json::to_writer] writes it. *)
Definition write_scalar (v : Json) : string :=
  match v with
  | JNull => "null" | JBool true => "true" | JBool false => "false"
  | JInt z => write_int z | JFloat t => write_float t | JString s => write_str s
  | JArray _ | JObject _ => EmptyString
  end.

Definition member (kv : string * string) : string := write_str kv.1 +:+ String ":" kv.2.

(** [serde_json::to_vec]: compact, object entries in iteration order. *)
Fixpoint write_json (v : Json) : string :=
  match v with
  | JArray vs => String "[" (comma_sep (write_json <$> vs) +:+ "]")
  | JObject m => String "{" (comma_sep (member <$> ((fun kv => (kv.1, write_json kv.2)) <$> m)) +:+ "}")
  | _ => write_scalar v
  end.

(** [write_canonical_json]: object entries in byte order of their keys, at every level. *)
Fixpoint write_canonical_json (v : Json) : string :=
  match v with
  | JArray vs => String "[" (comma_sep (write_canonical_json <$> vs) +:+ "]")
  | JObject m => String "{" (comma_sep (member <$> sort_entries ((fun kv => (kv.1, write_canonical_json kv.2)) <$> m)) +:+ "}")
  | _ => write_scalar v
  end.

Definition canonical_json_bytes (v : Json) : result JsonError string :=
  if check v then Ok (write_canonical_json v) else Err UnsafeNumber.

(** ** Canonical writing is compact writing of the sorted value *)

Lemma sort_entries_map {A B} (f : A -> B) m :
  sort_entries ((fun kv => (kv.1, f kv.2)) <$> m) = (fun kv => (kv.1, f kv.2)) <$> sort_entries m.
Proof.
  assert (forall x l, insert_by key_leb (x.1, f x.2) ((fun kv => (kv.1, f kv.2)) <$> l) = (fun kv => (kv.1, f kv.2)) <$> insert_by key_leb x l) as Hi.
  { intros x l. induction l as [|y l IH]; [done|]. cbn. change (key_leb (x.1, f x.2) (y.1, f y.2)) with (key_leb x y).
    destruct (key_leb x y); [done|]. cbn. by rewrite IH. }
  unfold sort_entries, sort_by. induction m as [|x m IH]; [done|]. cbn. by rewrite IH, Hi.
Qed.

Lemma canonical_sorted v : write_canonical_json v = write_json (sort_keys v).
Proof.
  induction v as [| | | | |vs IH|m IH] using Json_rect'; try done; cbn [write_canonical_json write_json sort_keys].
  - rewrite <- list_fmap_compose. do 3 f_equal. apply Forall_fmap_ext_1. exact IH.
  - rewrite <- sort_entries_map, <- list_fmap_compose. do 5 f_equal. apply Forall_fmap_ext_1.
    eapply Forall_impl; [exact IH|]. intros [k w] E. cbn in *. by rewrite E.
Qed.

(** ** Unique decoding *)

Context {WL : JsonLaws W}.

(** What may follow a value: nothing, or a character no number contains. *)
Definition ends (x : string) : Prop :=
  match x with EmptyString => True | String c _ => c = ","%char \/ c = "]"%char \/ c = "}"%char end.

Fixpoint no_float (v : Json) : bool :=
  match v with
  | JFloat _ => false
  | JArray vs => forallb no_float vs
  | JObject m => forallb (fun kv => no_float kv.2) m
  | _ => true
  end.

(** Items that decode uniquely in front of [ends]. *)
Definition decodes {X} (ok : X -> bool) (p : X -> string) (x : X) : Prop :=
  forall w a b, ok x = true -> ok w = true -> ends a -> ends b -> p x +:+ a = p w +:+ b -> x = w /\ a = b.

Lemma comma_rest_ends l c a : ends (String c a) -> ends (comma_rest l +:+ String c a).
Proof. intros. destruct l; [done|]. cbn. by left. Qed.

Lemma comma_rest_decodes {X} (ok : X -> bool) (p : X -> string) xs ys c a b :
  Forall (decodes ok p) xs -> forallb ok xs = true -> forallb ok ys = true -> c <> ","%char -> ends (String c a) -> ends (String c b) ->
  comma_rest (p <$> xs) +:+ String c a = comma_rest (p <$> ys) +:+ String c b -> xs = ys /\ a = b.
Proof.
  intros Hd. revert ys. induction Hd as [|x xs Hx Hd IH]; intros [|y ys] Ox Oy Hc Ha Hb E.
  - by injection E.
  - cbn in E. injection E as -> _. done.
  - cbn in E. injection E as <- _. done.
  - cbn [fmap list_fmap comma_rest] in E. rewrite !str_app_cons, <- !str_app_assoc in E. injection E as E.
    cbn in Ox, Oy. apply andb_true_iff in Ox as [Ox Oxs], Oy as [Oy Oys].
    apply Hx in E as [-> E]; [|done|done|by apply comma_rest_ends..].
    by apply IH in E as [-> ->].
Qed.

Lemma comma_sep_decodes {X} (ok : X -> bool) (p : X -> string) xs ys c a b :
  Forall (decodes ok p) xs -> forallb ok xs = true -> forallb ok ys = true ->
  (forall x, ok x = true -> exists d t, p x = String d t /\ d <> c) -> c <> ","%char -> ends (String c a) -> ends (String c b) ->
  comma_sep (p <$> xs) +:+ String c a = comma_sep (p <$> ys) +:+ String c b -> xs = ys /\ a = b.
Proof.
  intros Hd Ox Oy Hh Hc Ha Hb E. destruct Hd as [|x xs Hx Hd], ys as [|y ys].
  - by injection E.
  - cbn in Oy. apply andb_true_iff in Oy as [Oy _]. destruct (Hh y Oy) as (d & t & Ep & Hd). cbn in E. rewrite Ep in E.
    injection E as -> _. done.
  - cbn in Ox. apply andb_true_iff in Ox as [Ox _]. destruct (Hh x Ox) as (d & t & Ep & Hd'). cbn in E. rewrite Ep in E.
    injection E as <- _. done.
  - cbn [fmap list_fmap comma_sep] in E. rewrite <- !str_app_assoc in E. cbn in Ox, Oy. apply andb_true_iff in Ox as [Ox Oxs], Oy as [Oy Oys].
    apply Hx in E as [-> E]; [|done|done|by apply comma_rest_ends..].
    by apply (comma_rest_decodes ok) in E as [-> ->].
Qed.

(** A maximal run of characters splits uniquely. *)
Lemma run_split p s t a b :
  str_all p s = true -> str_all p t = true -> (forall c r, a = String c r -> p c = false) -> (forall c r, b = String c r -> p c = false) ->
  s +:+ a = t +:+ b -> s = t /\ a = b.
Proof.
  revert t. induction s as [|c s IH]; intros [|d t] Hs Ht Ha Hb E.
  - done.
  - cbn in E, Ht. specialize (Ha _ _ E). by rewrite Ha in Ht.
  - cbn in E, Hs. symmetry in E. specialize (Hb _ _ E). by rewrite Hb in Hs.
  - rewrite !str_app_cons in E. injection E as <- E. cbn in Hs, Ht. apply andb_true_iff in Hs as [_ Hs], Ht as [_ Ht].
    by apply IH in E as [-> ->].
Qed.

Lemma ends_not_int x : ends x -> forall c r, x = String c r -> is_int_char c = false.
Proof. intros Hx c r ->. cbn in Hx. by destruct Hx as [->|[->| ->]]. Qed.

(** The first character tells the kind of a value. *)
Definition head_ok (v : Json) (c : ascii) : bool :=
  match v with
  | JNull => Ascii.eqb c "n" | JBool true => Ascii.eqb c "t" | JBool false => Ascii.eqb c "f"
  | JInt _ => is_int_char c | JFloat _ => false | JString _ => Ascii.eqb c quote
  | JArray _ => Ascii.eqb c "[" | JObject _ => Ascii.eqb c "{"
  end.

Lemma write_json_head v : no_float v = true -> exists c t, write_json v = String c t /\ head_ok v c = true.
Proof using WL.
  destruct v as [|b|z| |s|vs|m]; cbn [no_float write_json write_scalar head_ok]; intros Hv; try done.
  - by eexists _, _.
  - destruct b; by eexists _, _.
  - destruct (write_int_chars z) as [Hc Hne]. destruct (write_int z) as [|c t]; [done|].
    exists c, t. split; [done|]. by apply andb_true_iff in Hc as [? _].
  - destruct (write_str_quote s) as [t ->]. eexists _, _. split; [done|]. apply Ascii.eqb_refl.
  - by eexists _, _.
  - by eexists _, _.
Qed.

Lemma head_inj v w c : head_ok v c = true -> head_ok w c = true ->
  match v, w with
  | JNull, JNull | JInt _, JInt _ | JString _, JString _ | JArray _, JArray _ | JObject _, JObject _ => True
  | JBool a, JBool b => a = b
  | _, _ => False
  end.
Proof.
  destruct v as [|[]| | | | |], w as [|[]| | | | |]; cbn; try done;
    destruct c as [[][][][][][][][]]; cbn; done.
Qed.

Lemma value_head_not v c : no_float v = true -> c = "]"%char \/ c = "}"%char -> exists d t, write_json v = String d t /\ d <> c.
Proof using WL.
  intros Hv Hc. destruct (write_json_head v Hv) as (d & t & E & Hd). exists d, t. split; [done|]. intros ->.
  destruct v as [|[]| | | | |]; cbn in Hd; by destruct Hc as [->| ->].
Qed.

Definition write_member (kv : string * Json) : string := member (kv.1, write_json kv.2).

Lemma member_decodes kv :
  decodes no_float write_json kv.2 -> decodes (fun kv => no_float kv.2) write_member kv.
Proof using WL.
  destruct kv as [k v]. intros Hv [k' v'] a b O1 O2 Ha Hb E. cbn in *. unfold write_member, member in E. cbn in E.
  rewrite <- !str_app_assoc in E. apply write_str_delim in E as [-> E].
  rewrite !str_app_cons in E. injection E as E. by apply Hv in E as [-> ->].
Qed.

Lemma write_json_decodes v : decodes no_float write_json v.
Proof using WL.
  induction v as [|x|z|t|s|vs IH|m IH] using Json_rect'; intros w a b O1 O2 Ha Hb E;
    destruct (write_json_head _ O1) as (c & r & E1 & H1), (write_json_head _ O2) as (c' & r' & E2 & H2);
    (assert (c' = c) as -> by (rewrite E1, E2 in E; by injection E));
    pose proof (head_inj _ _ _ H1 H2) as Hk; clear c r r' E1 E2 H1 H2;
    destruct w as [|x'|z'|t'|s'|vs'|m']; try done; cbn [write_json write_scalar] in E.
  - cbn in E. by injection E.
  - subst x'. destruct x; cbn in E; by injection E.
  - apply (run_split is_int_char) in E as [E ->]; [|apply write_int_chars..|by apply ends_not_int|by apply ends_not_int].
    by apply write_int_inj in E as ->.
  - by apply write_str_delim in E as [-> ->].
  - rewrite !str_app_cons, <- !str_app_assoc in E. injection E as E.
    apply (comma_sep_decodes no_float write_json) in E as [-> ->]; try done.
    + intros x Hx. apply value_head_not; auto.
    + cbn; auto.
    + cbn; auto.
  - rewrite !str_app_cons, <- !str_app_assoc in E. injection E as E. rewrite <- !list_fmap_compose in E.
    change (member ∘ _) with write_member in E.
    apply (comma_sep_decodes (fun kv => no_float kv.2) write_member) in E as [-> ->]; try done.
    + eapply Forall_impl; [exact IH|]. intros kv. apply member_decodes.
    + intros [k x] _. unfold write_member, member. cbn. destruct (write_str_quote k) as [t ->]. by eexists _, _.
    + cbn; auto.
    + cbn; auto.
Qed.

Lemma check_no_float v : check v = true -> no_float v = true.
Proof using.
  induction v as [| | | | |vs IH|m IH] using Json_rect'; try done; cbn; rewrite !forallb_forall; intros Hc x Hx;
    pose proof (proj1 (Forall_forall _ _) IH x (proj2 (list_elem_of_In _ _) Hx)) as IHx; cbn in IHx; auto.
Qed.

Lemma sort_keys_no_float v : no_float v = true -> no_float (sort_keys v) = true.
Proof using.
  induction v as [| | | | |vs IH|m IH] using Json_rect'; try done; cbn [sort_keys no_float]; rewrite !forallb_forall; intros Hc x Hx;
    apply list_elem_of_In in Hx.
  - apply list_elem_of_fmap in Hx as (y & -> & Hy). rewrite Forall_forall in IH. apply IH; [done|]. apply Hc. by apply list_elem_of_In.
  - unfold sort_entries in Hx. rewrite elem_of_sort_by in Hx. apply list_elem_of_fmap in Hx as (y & -> & Hy).
    rewrite Forall_forall in IH. apply (IH y Hy). apply Hc. by apply list_elem_of_In.
Qed.

Lemma canonical_inj v w : check v = true -> check w = true -> write_canonical_json v = write_canonical_json w -> sort_keys v = sort_keys w.
Proof using WL.
  intros Hv Hw E. rewrite !canonical_sorted in E.
  apply (write_json_decodes (sort_keys v) (sort_keys w) EmptyString EmptyString); try done.
  - by apply sort_keys_no_float, check_no_float.
  - by apply sort_keys_no_float, check_no_float.
  - by rewrite E.
Qed.

Lemma canonical_json_inj v w b : canonical_json_bytes v = Ok b -> canonical_json_bytes w = Ok b -> sort_keys v = sort_keys w.
Proof using WL.
  unfold canonical_json_bytes. destruct (check v) eqn:Hv; [|done]. destruct (check w) eqn:Hw; [|done].
  intros [= Ev] [= Ew]. apply canonical_inj; [done..|]. by rewrite Ev, Ew.
Qed.
End writer.

(** ** Objects: fields, look-up, order *)

(** The value of a key. *)
Fixpoint get {A} (k : string) (m : list (string * A)) : option A :=
  match m with [] => None | (k', v) :: m => if String.eqb k' k then Some v else get k m end.

Lemma get_elem {A} k (v : A) m : NoDup m.*1 -> get k m = Some v <-> (k, v) ∈ m.
Proof.
  induction m as [|[k' v'] m IH]; intros Hn; [split; [done|by intros ?%elem_of_nil]|]. apply NoDup_cons in Hn as [Hk Hn].
  cbn. rewrite elem_of_cons. destruct (String.eqb_spec k' k) as [->|Hne].
  - split; [intros [= ->]; by left|]. intros [[= ->]|Hin]; [done|]. destruct Hk. by apply (list_elem_of_fmap_2 fst) in Hin.
  - rewrite IH by done. split; [by right|]. intros [[= -> _]|?]; done.
Qed.

Lemma get_perm {A} k (m m' : list (string * A)) : NoDup m.*1 -> m ≡ₚ m' -> get k m = get k m'.
Proof.
  intros Hn Hp. assert (NoDup m'.*1) as Hn' by (by rewrite <- Hp). apply option_eq. intros v.
  by rewrite !get_elem, Hp.
Qed.

(** Entries in another order sort alike: the keys are distinct. *)
Lemma sort_entries_perm {A} (m m' : list (string * A)) : NoDup m.*1 -> m ≡ₚ m' -> sort_entries m = sort_entries m'.
Proof.
  intros Hn Hp. apply (StronglySorted_unique_strong (fun a b => key_leb a b = true)).
  - intros [k v] [k' v'] H1 H2 L1 L2. unfold sort_entries in *. rewrite elem_of_sort_by in H1, H2. rewrite <- Hp in H2.
    unfold key_leb in *. cbn in *. assert (k = k') as <- by (by apply String.leb_antisym).
    apply (get_elem _ _ _ Hn) in H1, H2. congruence.
  - apply sort_by_sorted; unfold key_leb; [intros [] []; apply String.leb_total|intros [] [] []; apply str_leb_trans].
  - apply sort_by_sorted; unfold key_leb; [intros [] []; apply String.leb_total|intros [] [] []; apply str_leb_trans].
  - unfold sort_entries. by rewrite !sort_by_perm.
Qed.

Lemma sort_keys_get m m' k :
  NoDup m.*1 -> NoDup m'.*1 -> sort_keys (JObject m) = sort_keys (JObject m') -> sort_keys <$> get k m = sort_keys <$> get k m'.
Proof.
  assert (forall n, NoDup n.*1 -> sort_keys <$> get k n = get k (sort_entries ((fun kv => (kv.1, sort_keys kv.2)) <$> n))) as Hg.
  { intros n Hn. transitivity (get k ((fun kv => (kv.1, sort_keys kv.2)) <$> n)).
    - clear. induction n as [|[k' v] n IH]; [done|]. cbn. destruct (String.eqb k' k); [done|exact IH].
    - apply get_perm; [by rewrite <- list_fmap_compose|]. symmetry. apply sort_by_perm. }
  intros Hn Hn' E. cbn in E. injection E as E. by rewrite !Hg, E by done.
Qed.

(** The entries a derived serializer writes: an absent optional field is skipped. *)
Fixpoint fields (l : list (string * option Json)) : list (string * Json) :=
  match l with [] => [] | (k, Some v) :: l => (k, v) :: fields l | (_, None) :: l => fields l end.
Definition obj (l : list (string * option Json)) : Json := JObject (fields l).

Lemma fields_keys l k : k ∈ (fields l).*1 -> k ∈ l.*1.
Proof. induction l as [|[k' [v|]] l IH]; cbn; [done| |by right; auto]. rewrite !elem_of_cons. naive_solver. Qed.

Lemma fields_nodup l : NoDup l.*1 -> NoDup (fields l).*1.
Proof.
  induction l as [|[k [v|]] l IH]; cbn; [done| |]; intros [Hk Hn]%NoDup_cons; [|auto].
  constructor; [|auto]. intros ?%fields_keys. done.
Qed.

Lemma get_fields l k : NoDup l.*1 -> get k (fields l) = (get k l ≫= fun o => o).
Proof.
  induction l as [|[k' o] l IH]; intros Hn; [done|]. apply NoDup_cons in Hn as [Hk Hn]. specialize (IH Hn).
  cbn [get fields]. destruct (String.eqb_spec k' k) as [->|Hne]; destruct o as [v|]; cbn [get].
  - by rewrite String.eqb_refl.
  - cbn. destruct (get k (fields l)) as [v|] eqn:E; [|done]. apply get_elem in E; [|by apply fields_nodup].
    apply (list_elem_of_fmap_2 fst), fields_keys in E. done.
  - by rewrite (proj2 (String.eqb_neq _ _) Hne).
  - done.
Qed.

(** Two sorted objects agree on every field. *)
Lemma obj_field k l l' :
  NoDup l.*1 -> NoDup l'.*1 -> sort_keys (obj l) = sort_keys (obj l') ->
  sort_keys <$> (get k l ≫= fun o => o) = sort_keys <$> (get k l' ≫= fun o => o).
Proof. intros Hn Hn' E. rewrite <- !get_fields by done. by apply sort_keys_get; try apply fields_nodup. Qed.

(** ** Statements *)

(** Canonical JSON is exact: two accepted values have the same canonical bytes if and only if they are
    the same value up to the order of object keys, at every level of nesting. *)
Theorem canonical_json_exact `{W : JsonWriter} {WL : JsonLaws W} v w bv bw :
  canonical_json_bytes v = Ok bv -> canonical_json_bytes w = Ok bw -> bv = bw <-> sort_keys v = sort_keys w.
Proof.
  unfold canonical_json_bytes. destruct (check v) eqn:Hv; [|done]. destruct (check w) eqn:Hw; [|done].
  intros [= <-] [= <-]. split; [by apply canonical_inj|]. intros E. by rewrite !canonical_sorted, E.
Qed.

(** Which integers canonical JSON accepts: the JavaScript-safe ones, and [i64::MIN], whose absolute
    value wraps back to a negative number in a release build and so passes the bound. *)
Theorem canonical_int_accepted `{W : JsonWriter} z :
  is_ok (canonical_json_bytes (JInt z)) = true <-> Z.abs z <= MAX_SAFE_INTEGER \/ z = i64_min.
Proof.
  unfold canonical_json_bytes. cbn [check]. assert (safe_int z = true <-> Z.abs z <= MAX_SAFE_INTEGER \/ z = i64_min) as H.
  { unfold safe_int, wrap_i64, MAX_SAFE_INTEGER, i64_min, i64_max, u64_max.
    rewrite orb_true_iff, !andb_true_iff, !Z.leb_le.
    pose proof (Z.mod_pos_bound (Z.abs z - -9223372036854775808) (18446744073709551615 + 1) ltac:(lia)).
    pose proof (Z.div_mod (Z.abs z - -9223372036854775808) (18446744073709551615 + 1) ltac:(lia)). split; [|intros [?|?]]; lia. }
  rewrite <- H. by destruct (safe_int z).
Qed.

(** ** A concrete writer: quotes and backslashes escaped, decimal integers *)
Module ToyJson.
Fixpoint escape (s : string) : string :=
  match s with
  | EmptyString => EmptyString
  | String c s => if Ascii.eqb c quote || Ascii.eqb c backslash then String backslash (String c (escape s)) else String c (escape s)
  end.
Definition toy_str (s : string) : string := String quote (escape s +:+ String quote EmptyString).
Definition toy_int (z : Z) : string := if z <? 0 then String "-" (to_dec (- z)) else to_dec z.

#[export] Instance toy_writer : JsonWriter := {| write_str := toy_str; write_int := toy_int; write_float := fun t => t |}.

Lemma escape_delim s t x y : escape s +:+ String quote x = escape t +:+ String quote y -> s = t /\ x = y.
Proof.
  revert t. induction s as [|c s IH]; intros [|d t] E; cbn [escape] in E.
  - by injection E.
  - destruct (Ascii.eqb d quote || Ascii.eqb d backslash) eqn:Ed; rewrite str_app_cons in E; [by discriminate E|]. injection E as <- _.
    by rewrite Ascii.eqb_refl in Ed.
  - destruct (Ascii.eqb c quote || Ascii.eqb c backslash) eqn:Ec; rewrite str_app_cons in E; [by discriminate E|]. injection E as -> _.
    by rewrite Ascii.eqb_refl in Ec.
  - destruct (Ascii.eqb c quote || Ascii.eqb c backslash) eqn:Ec, (Ascii.eqb d quote || Ascii.eqb d backslash) eqn:Ed;
      rewrite !str_app_cons in E.
    + injection E as -> E. by apply IH in E as [-> ->].
    + injection E as <- E. by rewrite Ascii.eqb_refl, orb_true_r in Ed.
    + injection E as -> E. by rewrite Ascii.eqb_refl, orb_true_r in Ec.
    + injection E as -> E. by apply IH in E as [-> ->].
Qed.

#[export] Instance toy_writer_laws : JsonLaws toy_writer.
Proof.
  split.
  - intros s. by eexists.
  - intros s t x y E. cbn in E. unfold toy_str in E. rewrite !str_app_cons, <- !str_app_assoc in E. injection E as E.
    by apply escape_delim in E.
  - intros z. cbn. unfold toy_int. destruct (Z.ltb_spec z 0); (split; [|try done]).
    + cbn. unfold to_dec. eapply str_all_impl; [|apply fmt_pad_digits]. intros c Hc. unfold is_int_char. by rewrite Hc.
    + eapply str_all_impl; [|apply fmt_pad_digits]. intros c Hc. unfold is_int_char. by rewrite Hc.
    + destruct (to_dec_head z) as (c & t & -> & _); [lia|done].
  - intros a b. cbn. unfold toy_int. destruct (Z.ltb_spec a 0), (Z.ltb_spec b 0); intros E.
    + injection E as E. apply to_dec_inj in E; lia.
    + destruct (to_dec_head b) as (c & t & Eb & Hc); [lia|]. rewrite Eb in E. injection E as <- _. discriminate.
    + destruct (to_dec_head a) as (c & t & Ea & Hc); [lia|]. rewrite Ea in E. injection E as -> _. discriminate.
    + apply to_dec_inj in E; lia.
  - intros s Hs. cbn. unfold toy_str. assert (escape s = s) as ->.
    { induction s as [|c s IH]; [done|]. cbn [str_all] in Hs. apply andb_true_iff in Hs as [Hc Hs]. unfold is_plain in Hc.
      rewrite !andb_true_iff, !negb_true_iff in Hc. destruct Hc as [[_ Hq] Hb]. cbn [escape]. rewrite Hq, Hb. cbn [orb]. by rewrite IH. }
    change (String quote (s +:+ String quote "")) with (String quote "" +:+ (s +:+ String quote "")).
    rewrite !str_len_app. change (str_len (String quote "")) with 1. lia.
  - intros w z Hz. cbn. unfold toy_int. destruct (Z.ltb_spec z 0); [lia|]. unfold to_dec, fmt_pad, str_len. rewrite fixed_dec_length.
    pose proof (ndigits_aux_bound (Z.to_nat (Z.log2 z)) w z Hz). unfold ndigits. lia.
Qed.

Definition ab : Json := JObject [("a", JInt 1); ("b", JArray [JNull; JString "x"])].
Definition ba : Json := JObject [("b", JArray [JNull; JString "x"]); ("a", JInt 1)].
Definition bytes (v : Json) : string := unwrap EmptyString (canonical_json_bytes v).
End ToyJson.

Lemma canonical_json_exact_witness :
  ToyJson.bytes ToyJson.ab = ToyJson.bytes ToyJson.ba <-> sort_keys ToyJson.ab = sort_keys ToyJson.ba.
Proof. apply (canonical_json_exact (W := ToyJson.toy_writer) (WL := ToyJson.toy_writer_laws) ToyJson.ab ToyJson.ba); apply unwrap_ok; reflexivity. Defined.
