(* ===== verification/ProvenanceTypes.v ===== *)
(** * ProvenanceTypes: the signed provenance record and its JSON form

    The record types of [parts/provenance.rs] and, per type, the [serde_json::Value] its
    derived serializer produces ([ToValue]). [ToValueInj] says that the value determines
    the record, up to the order of object keys; every type of the record has an instance. *)
From S2P Require Import Prelude Format EdgeLog Json.

(** ** Types *)

Record HourDigest := {
  hd_event_hour : Z; hd_rows : Z; hd_min_time_us : Z; hd_max_time_us : Z; hd_merkle_root : string }.
Record FileDigest := { fd_name : string; fd_bytes : Z; fd_sha256 : string }.

(** One data file of a part, with its sidecars. *)
Record DataFileDigest := {
  df_name : string; df_bytes : Z; df_sha256 : string; df_rows : Z; df_row_groups : Z;
  df_min_time_us : Z; df_max_time_us : Z; df_log_sources : option (list string);
  df_uid_blooms : option FileDigest; df_entity_blooms : option FileDigest;
  df_parquet_ranges : option FileDigest; df_entity_locators : option FileDigest;
  df_class_id : option Z; df_tokens : FileDigest }.

Inductive PartialKind := Rollup | Prevalence | EntityRanges | Risk.
Record PartialDigest := { pd_kind : PartialKind; pd_name : string; pd_bytes : Z; pd_sha256 : string; pd_rows : Z }.
Record PartFiles := { pf_data : list DataFileDigest; pf_partials : list PartialDigest }.

Record InputPart := {
  ip_part_id : PartId; ip_level : Level; ip_provenance_sha256 : string; ip_rows : Z; ip_merkle_root : string }.
Record AdoptedObject := {
  ao_key : string; ao_bytes : Z; ao_sha256 : string; ao_rows : Z; ao_stamp_sha256 : string }.

(** The generation that vouches for adopted objects; [snapshot_id] is a full-range [u64]. *)
Record AdoptionAnchor := {
  an_generation_id : string; an_snapshot_id : N; an_bundle_identity_sha256 : string;
  an_object_stamp_manifest_sha256 : string; an_bundle_manifest_key : string;
  an_bundle_manifest_sha256 : string; an_signer_key_id : string }.

Inductive PartInputs :=
| Sources (sources : list SourceObject) (edge_log : option EdgeLogRange)
| Parts (parts : list InputPart)
| Adopted (anchor : AdoptionAnchor) (objects : list AdoptedObject).

Record Admission := {
  ad_ocsf_version : string; ad_admission_contract : string; ad_feed_pins : gmap string (option string) }.
Inductive DedupWindow := Exact | ExactAndParts.
Record DedupStats := { ds_rows_in : Z; ds_duplicates_dropped : Z; ds_window : DedupWindow }.
Record WriterInfo := { wi_role : string; wi_build : string }.

Record ProvenanceRecord := {
  pr_request_hours : option RequestHours; pr_format : string; pr_signer_key_id : string; pr_tenant_id : string;
  pr_part_id : PartId; pr_level : Level; pr_created_at_ms : Z; pr_event_hour : Z; pr_event_day : option Z;
  pr_rows : Z; pr_min_time_us : Z; pr_max_time_us : Z; pr_schema_fingerprint : string; pr_merkle_root : string;
  pr_hours : list HourDigest; pr_files : PartFiles; pr_inputs : PartInputs; pr_admission : option Admission;
  pr_lowercased_at_rest : list string; pr_dedup : DedupStats; pr_writer : WriterInfo }.

(** ** [serde_json::to_value] *)

Class ToValue (A : Type) := to_value : A -> Json.
Class ToValueInj (A : Type) `{ToValue A} : Prop :=
  to_value_inj : forall a b : A, sort_keys (to_value a) = sort_keys (to_value b) -> a = b.

(** How a field is written: always, unless absent, unless empty. *)
Definition req `{ToValue A} (a : A) : option Json := Some (to_value a).
Definition skip_none `{ToValue A} (a : option A) : option Json := to_value <$> a.
Definition skip_empty `{ToValue A} (l : list A) : option Json :=
  match l with [] => None | _ => Some (JArray (to_value <$> l)) end.

#[export] Instance value_Z : ToValue Z := JInt.
#[export] Instance value_string : ToValue string := JString.
#[export] Instance value_list `{ToValue A} : ToValue (list A) := fun l => JArray (to_value <$> l).
#[export] Instance value_option `{ToValue A} : ToValue (option A) :=
  fun o => match o with Some a => to_value a | None => JNull end.
#[export] Instance value_PartId : ToValue PartId := fun id => JString (pid_str id).
#[export] Instance value_Level : ToValue Level := fun l => JString (Level_code l).

#[export] Instance value_RequestHours : ToValue RequestHours := fun h => obj [("first", req (rh_first h)); ("last", req (rh_last h))].
#[export] Instance value_HourDigest : ToValue HourDigest := fun h => obj [
  ("event_hour", req (hd_event_hour h)); ("rows", req (hd_rows h)); ("min_time_us", req (hd_min_time_us h));
  ("max_time_us", req (hd_max_time_us h)); ("merkle_root", req (hd_merkle_root h))].
#[export] Instance value_FileDigest : ToValue FileDigest := fun f => obj [
  ("name", req (fd_name f)); ("bytes", req (fd_bytes f)); ("sha256", req (fd_sha256 f))].
#[export] Instance value_DataFileDigest : ToValue DataFileDigest := fun d => obj [
  ("name", req (df_name d)); ("bytes", req (df_bytes d)); ("sha256", req (df_sha256 d)); ("rows", req (df_rows d));
  ("row_groups", req (df_row_groups d)); ("min_time_us", req (df_min_time_us d)); ("max_time_us", req (df_max_time_us d));
  ("log_sources", skip_none (df_log_sources d)); ("uid_blooms", skip_none (df_uid_blooms d));
  ("entity_blooms", skip_none (df_entity_blooms d)); ("parquet_ranges", skip_none (df_parquet_ranges d));
  ("entity_locators", skip_none (df_entity_locators d)); ("class_id", skip_none (df_class_id d)); ("tokens", req (df_tokens d))].
#[export] Instance value_PartialKind : ToValue PartialKind := fun k =>
  JString match k with Rollup => "rollup" | Prevalence => "prevalence" | EntityRanges => "entity_ranges" | Risk => "risk" end.
#[export] Instance value_PartialDigest : ToValue PartialDigest := fun p => obj [
  ("kind", req (pd_kind p)); ("name", req (pd_name p)); ("bytes", req (pd_bytes p)); ("sha256", req (pd_sha256 p));
  ("rows", req (pd_rows p))].
#[export] Instance value_PartFiles : ToValue PartFiles := fun f => obj [("data", req (pf_data f)); ("partials", req (pf_partials f))].
#[export] Instance value_SourceObject : ToValue SourceObject := fun s => obj [
  ("key", req (so_key s)); ("version", req (so_version s)); ("bytes", req (so_bytes s)); ("sha256", req (so_sha256 s));
  ("rows", req (so_rows s)); ("edge_sha256", req (so_edge_sha256 s))].
#[export] Instance value_InputPart : ToValue InputPart := fun p => obj [
  ("part_id", req (ip_part_id p)); ("level", req (ip_level p)); ("provenance_sha256", req (ip_provenance_sha256 p));
  ("rows", req (ip_rows p)); ("merkle_root", req (ip_merkle_root p))].
#[export] Instance value_AdoptedObject : ToValue AdoptedObject := fun o => obj [
  ("key", req (ao_key o)); ("bytes", req (ao_bytes o)); ("sha256", req (ao_sha256 o)); ("rows", req (ao_rows o));
  ("stamp_sha256", req (ao_stamp_sha256 o))].
#[export] Instance value_EdgeSkipReason : ToValue EdgeSkipReason := fun _ => JString "consumed_without_rows".
#[export] Instance value_EdgeSkippedSegment : ToValue EdgeSkippedSegment := fun k => obj [
  ("seq", req (sk_seq k)); ("key", req (sk_key k)); ("sha256", req (sk_sha256 k)); ("length", req (sk_length k));
  ("reason", req (sk_reason k)); ("rows", req (sk_rows k)); ("rows_rejected", req (sk_rows_rejected k));
  ("rows_duplicate", req (sk_rows_duplicate k))].
#[export] Instance value_EdgeLogRange : ToValue EdgeLogRange := fun r => obj [
  ("log", req (el_log r)); ("contract", req (el_contract r)); ("first_seq", req (first_seq r));
  ("through_seq", req (through_seq r)); ("prev_chain", req (prev_chain r)); ("through_chain", req (through_chain r));
  ("skipped", skip_empty (skipped r)); ("rows_in", req (rows_in r)); ("rows_rejected", req (rows_rejected r));
  ("rows_duplicate", req (rows_duplicate r))].

(** [u64_decimal]: a decimal string, and its strict parser. *)
Module u64_decimal.
Definition serialize (value : N) : string := to_dec (Z.of_N value).
Definition parse (text : string) : option Z :=
  if (0 <? str_len text) && (str_len text <=? 20) && str_all is_digit text
     && (bool_decide (text = "0") || negb (bool_decide (str_get 0 text = Some "0"%char)))
  then parse_unsigned u64_max text else None.
End u64_decimal.

#[export] Instance value_u64_decimal : ToValue N := fun v => JString (u64_decimal.serialize v).
#[export] Instance value_AdoptionAnchor : ToValue AdoptionAnchor := fun a => obj [
  ("generation_id", req (an_generation_id a)); ("snapshot_id", req (an_snapshot_id a));
  ("bundle_identity_sha256", req (an_bundle_identity_sha256 a));
  ("object_stamp_manifest_sha256", req (an_object_stamp_manifest_sha256 a));
  ("bundle_manifest_key", req (an_bundle_manifest_key a)); ("bundle_manifest_sha256", req (an_bundle_manifest_sha256 a));
  ("signer_key_id", req (an_signer_key_id a))].
#[export] Instance value_PartInputs : ToValue PartInputs := fun i =>
  match i with
  | Sources sources edge_log => obj [("kind", Some (JString "sources")); ("sources", req sources); ("edge_log", skip_none edge_log)]
  | Parts parts => obj [("kind", Some (JString "parts")); ("parts", req parts)]
  | Adopted anchor objects => obj [("kind", Some (JString "adopted")); ("anchor", req anchor); ("objects", req objects)]
  end.
Definition pin_entry (kv : string * option string) : string * Json := (kv.1, to_value kv.2).
#[export] Instance value_pins : ToValue (gmap string (option string)) :=
  fun m => JObject (pin_entry <$> map_to_list m).
#[export] Instance value_Admission : ToValue Admission := fun a => obj [
  ("ocsf_version", req (ad_ocsf_version a)); ("admission_contract", req (ad_admission_contract a));
  ("feed_pins", req (ad_feed_pins a))].
#[export] Instance value_DedupWindow : ToValue DedupWindow := fun w =>
  JString match w with Exact => "exact" | ExactAndParts => "exact_and_parts" end.
#[export] Instance value_DedupStats : ToValue DedupStats := fun d => obj [
  ("rows_in", req (ds_rows_in d)); ("duplicates_dropped", req (ds_duplicates_dropped d)); ("window", req (ds_window d))].
#[export] Instance value_WriterInfo : ToValue WriterInfo := fun w => obj [("role", req (wi_role w)); ("build", req (wi_build w))].
#[export] Instance value_ProvenanceRecord : ToValue ProvenanceRecord := fun r => obj [
  ("request_hours", skip_none (pr_request_hours r)); ("format", req (pr_format r)); ("signer_key_id", req (pr_signer_key_id r));
  ("tenant_id", req (pr_tenant_id r)); ("part_id", req (pr_part_id r)); ("level", req (pr_level r));
  ("created_at_ms", req (pr_created_at_ms r)); ("event_hour", req (pr_event_hour r)); ("event_day", req (pr_event_day r));
  ("rows", req (pr_rows r)); ("min_time_us", req (pr_min_time_us r)); ("max_time_us", req (pr_max_time_us r));
  ("schema_fingerprint", req (pr_schema_fingerprint r)); ("merkle_root", req (pr_merkle_root r)); ("hours", req (pr_hours r));
  ("files", req (pr_files r)); ("inputs", req (pr_inputs r)); ("admission", req (pr_admission r));
  ("lowercased_at_rest", skip_empty (pr_lowercased_at_rest r)); ("dedup", req (pr_dedup r)); ("writer", req (pr_writer r))].

(** ** The value determines the record *)

Class NonNull (A : Type) `{ToValue A} : Prop := non_null : forall a : A, sort_keys (to_value a) <> JNull.

#[export] Instance nonnull_Z : NonNull Z. Proof. done. Qed.
#[export] Instance nonnull_string : NonNull string. Proof. done. Qed.
#[export] Instance nonnull_Admission : NonNull Admission. Proof. done. Qed.

#[export] Instance inj_Z : ToValueInj Z. Proof. intros a b. by injection 1. Qed.
#[export] Instance inj_string : ToValueInj string. Proof. intros a b. by injection 1. Qed.
#[export] Instance inj_PartId : ToValueInj PartId.
Proof. intros a b. injection 1. apply PartId_eq. Qed.
#[export] Instance inj_Level : ToValueInj Level. Proof. by intros [] []. Qed.
#[export] Instance inj_PartialKind : ToValueInj PartialKind. Proof. by intros [] []. Qed.
#[export] Instance inj_DedupWindow : ToValueInj DedupWindow. Proof. by intros [] []. Qed.
#[export] Instance inj_EdgeSkipReason : ToValueInj EdgeSkipReason. Proof. by intros [] []. Qed.

Lemma values_inj `{ToValueInj A} (l k : list A) : sort_keys <$> (to_value <$> l) = sort_keys <$> (to_value <$> k) -> l = k.
Proof.
  revert k. induction l as [|a l IH]; intros [|b k] E; try done. cbn in E. injection E as E1 E2.
  apply to_value_inj in E1 as ->. by apply IH in E2 as ->.
Qed.

#[export] Instance inj_list `{ToValueInj A} : ToValueInj (list A).
Proof. intros l k E. cbn in E. injection E as E. by apply values_inj. Qed.

#[export] Instance inj_option `{ToValueInj A, !NonNull A} : ToValueInj (option A).
Proof.
  intros [a|] [b|] E; cbn in E; [by apply to_value_inj in E as ->|by apply non_null in E|symmetry in E; by apply non_null in E|done].
Qed.

Lemma req_inj `{ToValueInj A} (a b : A) : sort_keys <$> req a = sort_keys <$> req b -> a = b.
Proof. intros E. cbn in E. injection E as E. by apply to_value_inj. Qed.

Lemma skip_none_inj `{ToValueInj A} (a b : option A) : sort_keys <$> skip_none a = sort_keys <$> skip_none b -> a = b.
Proof. destruct a, b; cbn; intros E; try done. injection E as E. by apply to_value_inj in E as ->. Qed.

Lemma skip_empty_inj `{ToValueInj A} (l k : list A) : sort_keys <$> skip_empty l = sort_keys <$> skip_empty k -> l = k.
Proof.
  intros E. destruct l as [|a l], k as [|b k]; try done. apply values_inj. cbn in E. injection E as E1 E2. cbn. by rewrite E1, E2.
Qed.

(** Field [k] of two objects that sort to the same value. *)
Lemma obj_get k l l' o o' :
  NoDup l.*1 -> NoDup l'.*1 -> get k l = Some o -> get k l' = Some o' -> sort_keys (obj l) = sort_keys (obj l') ->
  sort_keys <$> o = sort_keys <$> o'.
Proof. intros Hn Hn' E1 E2 E. apply (obj_field k) in E; [|done..]. by rewrite E1, E2 in E. Qed.

Ltac nodup_keys := apply (bool_decide_unpack _); vm_compute; exact I.
Ltac field_inj E k :=
  let F := fresh "F" in
  pose proof E as F; eapply (obj_get k) in F; [|nodup_keys|nodup_keys|reflexivity|reflexivity];
  first [apply req_inj in F | apply skip_none_inj in F | apply skip_empty_inj in F].
Ltac fields_inj E ks :=
  lazymatch ks with
  | nil => idtac
  | ?k :: ?r => field_inj E k; fields_inj E r
  end.
(** Two records of one type: compare every field named. *)
Ltac record_inj ks :=
  let a := fresh "a" in let b := fresh "b" in let E := fresh "E" in
  intros a b E; cbv [to_value] in E;
  lazymatch type of E with sort_keys (?f _) = _ => unfold f in E | _ => idtac end;
  fields_inj E ks; clear E; destruct a, b; cbn in *; subst; reflexivity.

#[export] Instance inj_RequestHours : ToValueInj RequestHours.
Proof. record_inj ["first"; "last"]. Qed.
#[export] Instance inj_HourDigest : ToValueInj HourDigest.
Proof. record_inj ["event_hour"; "rows"; "min_time_us"; "max_time_us"; "merkle_root"]. Qed.
#[export] Instance inj_FileDigest : ToValueInj FileDigest.
Proof. record_inj ["name"; "bytes"; "sha256"]. Qed.
#[export] Instance inj_DataFileDigest : ToValueInj DataFileDigest.
Proof. record_inj ["name"; "bytes"; "sha256"; "rows"; "row_groups"; "min_time_us"; "max_time_us"; "log_sources"; "uid_blooms"; "entity_blooms"; "parquet_ranges"; "entity_locators"; "class_id"; "tokens"]. Qed.
#[export] Instance inj_PartialDigest : ToValueInj PartialDigest.
Proof. record_inj ["kind"; "name"; "bytes"; "sha256"; "rows"]. Qed.
#[export] Instance inj_PartFiles : ToValueInj PartFiles.
Proof. record_inj ["data"; "partials"]. Qed.
#[export] Instance inj_SourceObject : ToValueInj SourceObject.
Proof. record_inj ["key"; "version"; "bytes"; "sha256"; "rows"; "edge_sha256"]. Qed.
#[export] Instance inj_InputPart : ToValueInj InputPart.
Proof. record_inj ["part_id"; "level"; "provenance_sha256"; "rows"; "merkle_root"]. Qed.
#[export] Instance inj_AdoptedObject : ToValueInj AdoptedObject.
Proof. record_inj ["key"; "bytes"; "sha256"; "rows"; "stamp_sha256"]. Qed.
#[export] Instance inj_EdgeSkippedSegment : ToValueInj EdgeSkippedSegment.
Proof. record_inj ["seq"; "key"; "sha256"; "length"; "reason"; "rows"; "rows_rejected"; "rows_duplicate"]. Qed.
#[export] Instance inj_EdgeLogRange : ToValueInj EdgeLogRange.
Proof. record_inj ["log"; "contract"; "first_seq"; "through_seq"; "prev_chain"; "through_chain"; "skipped"; "rows_in"; "rows_rejected"; "rows_duplicate"]. Qed.

#[export] Instance inj_u64_decimal : ToValueInj N.
Proof. intros a b. injection 1. intros E%to_dec_inj; lia. Qed.
#[export] Instance inj_AdoptionAnchor : ToValueInj AdoptionAnchor.
Proof. record_inj ["generation_id"; "snapshot_id"; "bundle_identity_sha256"; "object_stamp_manifest_sha256"; "bundle_manifest_key"; "bundle_manifest_sha256"; "signer_key_id"]. Qed.

(** The tag tells the variant; then the variant's fields. *)
#[export] Instance inj_PartInputs : ToValueInj PartInputs.
Proof.
  intros a b E. destruct a, b; cbv [to_value value_PartInputs] in E;
    try (eapply (obj_get "kind") in E; [|nodup_keys|nodup_keys|reflexivity|reflexivity]; discriminate E).
  - field_inj E "sources". field_inj E "edge_log". by subst.
  - field_inj E "parts". by subst.
  - field_inj E "anchor". field_inj E "objects". by subst.
Qed.

#[export] Instance inj_pins : ToValueInj (gmap string (option string)).
Proof.
  intros m m' E. apply map_eq. intros k.
  assert (forall n : gmap string (option string), NoDup (pin_entry <$> map_to_list n).*1) as Hn.
  { intros n. rewrite <- list_fmap_compose. change (fst ∘ pin_entry) with (@fst string (option string)). apply NoDup_fst_map_to_list. }
  assert (forall n : gmap string (option string), get k (pin_entry <$> map_to_list n) = to_value <$> n !! k) as Hg.
  { intros n. apply option_eq. intros v. rewrite get_elem, list_elem_of_fmap, fmap_Some by apply Hn. split.
    - intros ([k' o] & [= -> ->] & Hin%elem_of_map_to_list). eauto.
    - intros (o & Ho & ->). exists (k, o). split; [done|]. by apply elem_of_map_to_list. }
  apply (sort_keys_get _ _ k) in E; [|apply Hn..]. rewrite !Hg in E.
  destruct (m !! k) as [o|], (m' !! k) as [o'|]; try done. cbn in E. injection E as E.
  f_equal. by apply to_value_inj.
Qed.

#[export] Instance inj_Admission : ToValueInj Admission.
Proof. record_inj ["ocsf_version"; "admission_contract"; "feed_pins"]. Qed.
#[export] Instance inj_DedupStats : ToValueInj DedupStats.
Proof. record_inj ["rows_in"; "duplicates_dropped"; "window"]. Qed.
#[export] Instance inj_WriterInfo : ToValueInj WriterInfo.
Proof. record_inj ["role"; "build"]. Qed.
#[export] Instance inj_ProvenanceRecord : ToValueInj ProvenanceRecord.
Proof. record_inj ["request_hours"; "format"; "signer_key_id"; "tenant_id"; "part_id"; "level"; "created_at_ms"; "event_hour"; "event_day"; "rows"; "min_time_us"; "max_time_us"; "schema_fingerprint"; "merkle_root"; "hours"; "files"; "inputs"; "admission"; "lowercased_at_rest"; "dedup"; "writer"]. Qed.
