(* ===== verification/Provenance.v ===== *)
(** * Provenance: validating a part's record, and the part reference made from it

    [PartFiles] and [ProvenanceRecord] of [parts/provenance.rs] with their checks, canonical
    bytes and [u64_decimal]; [PartRef::check_record], [PartRef::from_record] and
    [check_add_edge_log] of [parts/part_log.rs]. *)
From S2P Require Import Prelude Platform Format EdgeLog PartTypes Json ProvenanceTypes.

Definition PROVENANCE_FORMAT : string := "nano.part.provenance.v1".
Definition SIGN_BATCH_MAX : nat := 16.
Definition ADMISSION_CONTRACT : string := "nano-bronze-admission-v2".
Definition LOWERCASED_AT_REST : list string := [
  "dst_endpoint.hostname"; "dst_endpoint.ip"; "dst_endpoint.mac"; "metadata.log_source";
  "src_endpoint.hostname"; "src_endpoint.ip"; "src_endpoint.mac"].
Definition MAX_PROVENANCE_BYTES : Z := 1024 * 1024.
(** [parquet_ranges::MAX_MANIFEST_BYTES] *)
Definition MAX_MANIFEST_BYTES : Z := 16 * 1024 * 1024.

Inductive ProvError :=
(* PartFiles::validate *)
| FileCount | AdoptedFileCount | FileOrder | LocatorName | EntityName | UidName | RangesManifest
| FileBounds | ClassWithoutSource | FileSources | FileTimeOrder | FileRowsOverflow | FileRowsSum | FileDigestOrSize
(* ProvenanceRecord::validate *)
| RequestHoursInvalid | TenantInvalid (e : FormatError) | FormatUnsupported | RowsOrTime | DigestMalformed | KeyIdMalformed
| LowercaseSet | LowercaseAttest | NoAdoptedObject | SourcesLevel | NoEventDay | DayHours | HourlyHours
| HourRowsSum | HoursOrder | EdgeLogInvalid (e : EdgeError) | AdoptedOne | AdoptedMismatch | AnchorDigest | AnchorIdentity | InputsLevel
(* references *)
| RefDiffers | AddWithoutSources | AddEdgeLogDiffers | NoPartInputs | SupersedesDiffer
(* canonical form *)
| NotCanonical (e : JsonError).

(** ** Files *)

Definition row_groups_u32 (l : list Z) : Z := fold_left (fun a b => (a + b) mod 4294967296) l 0.
Definition pf_row_groups (self : PartFiles) : Z := row_groups_u32 (df_row_groups <$> pf_data self).
Definition pf_data_bytes (self : PartFiles) : Z := sum_u64 (df_bytes <$> pf_data self).

(** Every (name, sha256, bytes) a reader must verify. *)
Definition file_entry (f : FileDigest) : string * string * Z := (fd_name f, fd_sha256 f, fd_bytes f).
Definition data_entries (d : DataFileDigest) : list (string * string * Z) :=
  [(df_name d, df_sha256 d, df_bytes d); file_entry (df_tokens d)]
  ++ (file_entry <$> option_list (df_parquet_ranges d)) ++ (file_entry <$> option_list (df_entity_locators d))
  ++ (file_entry <$> option_list (df_entity_blooms d)) ++ (file_entry <$> option_list (df_uid_blooms d)).
Definition pf_all (self : PartFiles) : list (string * string * Z) :=
  (pf_data self ≫= data_entries) ++ ((fun p => (pd_name p, pd_sha256 p, pd_bytes p)) <$> pf_partials self).

(** [is_some_and(|f| f.name != format!(...))] *)
Definition misnamed (f : option FileDigest) (name : string) : bool :=
  match f with Some f => negb (bool_decide (fd_name f = name)) | None => false end.
Definition indexed_json (stem : string) (index : Z) : string := stem +:+ "-" +:+ fmt_pad 5 index +:+ ".json".
(** [pair[0] >= pair[1]] of strings *)
Definition str_geb (a b : string) : bool := String.leb b a.

(** The checks of one data file; [prev] is the file before it. *)
Definition check_data_file (adopted_key : option string) (index : Z) (prev : option DataFileDigest) (data : DataFileDigest) : result ProvError unit :=
  let data_name_ok := match adopted_key with
    | Some key => bool_decide (df_name data = key)
    | None => bool_decide (df_name data = data_file_name index)
    end in
  _ ← ensure (data_name_ok && bool_decide (fd_name (df_tokens data) = tokens_file_name index)) FileOrder;
  _ ← ensure (negb (misnamed (df_entity_locators data) (indexed_json "locators" index))) LocatorName;
  _ ← ensure (negb (misnamed (df_entity_blooms data) (indexed_json "entities" index))) EntityName;
  _ ← ensure (negb (misnamed (df_uid_blooms data) (indexed_json "uids" index))) UidName;
  _ ← ensure (negb (match df_parquet_ranges data with
      | Some ranges => negb (bool_decide (fd_name ranges = indexed_json "ranges" index)) || (MAX_MANIFEST_BYTES <? fd_bytes ranges)
      | None => false
      end)) RangesManifest;
  _ ← ensure (negb ((df_rows data =? 0) || (df_row_groups data =? 0) || (df_max_time_us data <? df_min_time_us data))) FileBounds;
  _ ← ensure (negb (bool_decide (is_Some (df_class_id data)) && bool_decide (df_log_sources data = None))) ClassWithoutSource;
  _ ← ensure (negb (match df_log_sources data with
      | Some sources => bool_decide (sources = []) || any_pair str_geb sources
      | None => false
      end)) FileSources;
  ensure (negb (match prev with
      | Some prev => bool_decide (df_log_sources prev = df_log_sources data) && bool_decide (df_class_id prev = df_class_id data)
                     && (df_min_time_us data <? df_max_time_us prev)
      | None => false
      end)) FileTimeOrder.

(** The loop over the data files; returns the checked sum of their rows. *)
Fixpoint check_data_files (adopted_key : option string) (index : Z) (prev : option DataFileDigest) (total : Z) (l : list DataFileDigest) :
    result ProvError Z :=
  match l with
  | [] => Ok total
  | data :: l =>
      _ ← check_data_file adopted_key index prev data;
      total ← of_option (if total + df_rows data <=? u64_max then Some (total + df_rows data) else None) FileRowsOverflow;
      check_data_files adopted_key (index + 1) (Some data) total l
  end.

(** [PartFiles::validate] *)
Definition PartFiles_validate (self : PartFiles) (rows : Z) (adopted_key : option string) : result ProvError unit :=
  let n := Z.of_nat (length (pf_data self)) in
  _ ← ensure (negb ((n =? 0) || (MAX_DATA_FILES <? n))) FileCount;
  _ ← ensure (negb (bool_decide (is_Some adopted_key) && negb (n =? 1))) AdoptedFileCount;
  total ← check_data_files adopted_key 0 None 0 (pf_data self);
  _ ← ensure (total =? rows) FileRowsSum;
  ensure (forallb (fun '(_, sha, bytes) => is_sha256_hex sha && negb (bytes =? 0) && (bytes <=? MAX_OBJECT_BYTES)) (pf_all self)) FileDigestOrSize.

(** ** Keys and identifiers *)

(** [s.contains(pat)] *)
Fixpoint str_contains (pat s : string) : bool :=
  match strip_prefix pat s with
  | Some _ => true
  | None => match s with String _ s => str_contains pat s | EmptyString => false end
  end.

(** A bucket key an adopted object may have. *)
Definition is_adopted_object_key (key : string) : bool :=
  (0 <? str_len key) && (str_len key <=? 1024) && negb (str_contains "://" key)
  && negb (bool_decide (str_get 0 key = Some "/"%char)) && negb (has_control key)
  && forallb (fun segment => negb (bool_decide (segment = "") || bool_decide (segment = ".") || bool_decide (segment = ".."))) (split_on "/" key)
  && negb (bool_decide (take 2 (split_on "/" key) = ["lake"; "parts"])).

Definition is_alphanumeric (c : ascii) : bool :=
  is_digit c || ((65 <=? byte_val c) && (byte_val c <=? 90)) || ((97 <=? byte_val c) && (byte_val c <=? 122)).
(** Owner key ids: 8 to 128 of [A-Za-z0-9._:-]. *)
Definition valid_key_id (value : string) : bool :=
  (8 <=? str_len value) && (str_len value <=? 128)
  && str_all (fun c => is_alphanumeric c || Ascii.eqb c "." || Ascii.eqb c "_" || Ascii.eqb c ":" || Ascii.eqb c "-") value.

(** ** The record *)

Section record.
Context `{Platform}.

(** The inputs' own checks, by level and admission. *)
Definition check_inputs (self : ProvenanceRecord) : result ProvError unit :=
  match pr_inputs self, pr_level self, pr_admission self with
  | Sources (_ :: _ as sources) edge_log, L0, Some _ =>
      match edge_log with
      | Some range => match range_validate range (pr_tenant_id self) sources with Ok _ => Ok tt | Err e => Err (EdgeLogInvalid e) end
      | None => Ok tt
      end
  | Parts (_ :: _), (Minute | Hour | Day), None => Ok tt
  | Adopted anchor objects, (Hour | Day), None =>
      match objects, pf_data (pr_files self) with
      | [object], data :: _ =>
          _ ← ensure (bool_decide (ao_sha256 object = df_sha256 data) && (ao_bytes object =? df_bytes data)
                      && (ao_rows object =? pr_rows self) && is_adopted_object_key (ao_key object)
                      && is_sha256_hex (ao_sha256 object) && is_sha256_hex (ao_stamp_sha256 object)) AdoptedMismatch;
          _ ← ensure (forallb is_sha256_hex [an_bundle_identity_sha256 anchor; an_object_stamp_manifest_sha256 anchor;
                                             an_bundle_manifest_sha256 anchor]) AnchorDigest;
          ensure (negb ((str_len (an_generation_id anchor) =? 0) || (256 <? str_len (an_generation_id anchor))
                        || negb (is_adopted_object_key (an_bundle_manifest_key anchor)) || (an_snapshot_id anchor =? 0)%N
                        || negb (valid_key_id (an_signer_key_id anchor)))) AnchorIdentity
      | _, _ => Err AdoptedOne
      end
  | _, _, _ => Err InputsLevel
  end.

(** The binding of the record's hours to its level. *)
Definition check_hours (self : ProvenanceRecord) : result ProvError unit :=
  match pr_level self with
  | Day =>
      day ← of_option (pr_event_day self) NoEventDay;
      ensure (negb (negb (pr_event_hour self =? wrap_i32 (day * 24)) || bool_decide (pr_hours self = [])
                    || (24 <? Z.of_nat (length (pr_hours self))))) DayHours
  | _ =>
      ensure (match pr_hours self with
              | [h] => negb (bool_decide (is_Some (pr_event_day self))) && (hd_event_hour h =? pr_event_hour self)
              | _ => false
              end) HourlyHours
  end.

Definition l0_class_family (self : ProvenanceRecord) (file : DataFileDigest) : bool :=
  bool_decide (pr_level self = L0) && bool_decide (is_Some (df_class_id file))
  && match df_log_sources file with Some [_] => true | _ => false end.

(** [ProvenanceRecord::validate] *)
Definition record_validate (self : ProvenanceRecord) : result ProvError unit :=
  _ ← ensure (match pr_request_hours self with Some hours => hours_valid hours | None => true end) RequestHoursInvalid;
  _ ← match validate_tenant_uuid (pr_tenant_id self) with Ok u => Ok u | Err e => Err (TenantInvalid e) end;
  _ ← ensure (bool_decide (pr_format self = PROVENANCE_FORMAT)) FormatUnsupported;
  _ ← ensure (negb ((pr_rows self =? 0) || (pr_max_time_us self <? pr_min_time_us self))) RowsOrTime;
  _ ← ensure (forallb is_sha256_hex [pr_schema_fingerprint self; pr_merkle_root self]) DigestMalformed;
  _ ← ensure (valid_key_id (pr_signer_key_id self)) KeyIdMalformed;
  _ ← ensure (negb (any_pair str_geb (pr_lowercased_at_rest self)
                    || existsb (fun path => negb (bool_decide (path ∈ LOWERCASED_AT_REST))) (pr_lowercased_at_rest self))) LowercaseSet;
  _ ← ensure (match pr_admission self with
              | Some admission => negb (bool_decide (ad_admission_contract admission = ADMISSION_CONTRACT)
                                        && negb (bool_decide (pr_lowercased_at_rest self = LOWERCASED_AT_REST)))
              | None => true
              end) LowercaseAttest;
  adopted_key ← match pr_inputs self with
                | Adopted _ objects => match objects with o :: _ => Ok (Some (ao_key o)) | [] => Err NoAdoptedObject end
                | _ => Ok None
                end;
  _ ← PartFiles_validate (pr_files self) (pr_rows self) adopted_key;
  _ ← ensure (negb (negb (bool_decide (pr_level self = Minute) || bool_decide (pr_level self = Hour))
                    && existsb (fun file => bool_decide (is_Some (df_log_sources file)) && negb (l0_class_family self file)) (pf_data (pr_files self)))) SourcesLevel;
  _ ← check_hours self;
  _ ← ensure (sum_u64 (hd_rows <$> pr_hours self) =? pr_rows self) HourRowsSum;
  _ ← ensure (negb (any_pair (fun a b => hd_event_hour b <=? hd_event_hour a) (pr_hours self))) HoursOrder;
  check_inputs self.

Definition is_adopted (self : ProvenanceRecord) : bool := match pr_inputs self with Adopted _ _ => true | _ => false end.

(** Bucket key of data file [index]; [dir] is the part's directory. *)
Definition data_key (self : ProvenanceRecord) (dir : string) (index : nat) : option string :=
  data ← pf_data (pr_files self) !! index;
  Some (if is_adopted self then df_name data else part_file dir (df_name data)).

Context {W : JsonWriter}.

Definition canonical_bytes (self : ProvenanceRecord) : result ProvError string :=
  match canonical_json_bytes (to_value self) with Ok b => Ok b | Err e => Err (NotCanonical e) end.

(** [PROVENANCE_SIGNATURE_DOMAIN]: the tag and a zero byte. *)
Definition PROVENANCE_SIGNATURE_DOMAIN : string := "nano-lake-part-provenance-v1" +:+ String (ascii_of_N 0) EmptyString.
Definition signing_message (self : ProvenanceRecord) : result ProvError string :=
  bytes ← canonical_bytes self; Ok (PROVENANCE_SIGNATURE_DOMAIN +:+ bytes).

(** ** References *)

(** [PartRef::check_record]: the reference equals the signed record on every shared field. *)
Definition check_record (self : PartRef) (record : ProvenanceRecord) (sha : string) : result ProvError unit :=
  ensure (bool_decide (request_hours self = pr_request_hours record) && bool_decide (part_id self = pr_part_id record)
          && bool_decide (level self = pr_level record) && (event_hour self =? pr_event_hour record)
          && bool_decide (event_day self = pr_event_day record) && (rows self =? pr_rows record)
          && (min_time_us self =? pr_min_time_us record) && (max_time_us self =? pr_max_time_us record)
          && bool_decide (schema_fingerprint self = pr_schema_fingerprint record)
          && bool_decide (merkle_root self = pr_merkle_root record) && bool_decide (provenance_sha256 self = sha)
          && (data_files self =? Z.of_nat (length (pf_data (pr_files record))))
          && (row_groups self =? pf_row_groups (pr_files record))
          && (data_bytes self =? pf_data_bytes (pr_files record))) RefDiffers.

(** [PartRef::from_record] *)
Definition from_record (record : ProvenanceRecord) (sha : string) (is_sorted : bool) : PartRef := {|
  request_hours := pr_request_hours record; part_id := pr_part_id record; level := pr_level record;
  event_hour := pr_event_hour record; event_day := pr_event_day record; rows := pr_rows record;
  min_time_us := pr_min_time_us record; max_time_us := pr_max_time_us record;
  schema_fingerprint := pr_schema_fingerprint record; provenance_sha256 := sha; merkle_root := pr_merkle_root record;
  sorted := is_sorted; data_bytes := pf_data_bytes (pr_files record); row_groups := pf_row_groups (pr_files record);
  data_files := Z.of_nat (length (pf_data (pr_files record))) mod 4294967296 |}.

(** [check_add_edge_log]: every L0 record of an add carries the entry's range. *)
Definition check_add_edge_log (entry_edge_log : option EdgeLogRange) (record : ProvenanceRecord) : result ProvError unit :=
  match pr_inputs record with
  | Sources _ record_edge => ensure (bool_decide (record_edge = entry_edge_log)) AddEdgeLogDiffers
  | _ => Err AddWithoutSources
  end.

(** [check_supersedes]: a merge supersedes exactly its record's input parts. *)
Definition check_supersedes (supersedes : list PartId) (output : ProvenanceRecord) : result ProvError unit :=
  match pr_inputs output with
  | Parts parts => ensure (bool_decide (sort_by pid_leb (ip_part_id <$> parts) = sort_by pid_leb supersedes)) SupersedesDiffer
  | _ => Err NoPartInputs
  end.
End record.

(** ** What a validated file list guarantees *)

Lemma check_data_files_inv key i prev total l n :
  check_data_files key i prev total l = Ok n ->
  n = total + zsum (df_rows <$> l) /\ (l <> [] -> n <= u64_max)
  /\ forall k d, l !! k = Some d ->
       check_data_file key (i + Z.of_nat k) (match k with O => prev | S k => l !! k end) d = Ok tt.
Proof.
  revert i prev total. induction l as [|d l IH]; intros i prev total; cbn [check_data_files].
  { intros [= <-]. cbn. split; [lia|]. split; [done|]. done. }
  intros E. inv_ok. destruct (total + df_rows d <=? u64_max) eqn:Eb; [|done]. apply Z.leb_le in Eb.
  match goal with Hx : Some _ = Some _ |- _ => injection Hx as <- end.
  apply IH in E as (-> & Hle & Hk). cbn [fmap list_fmap zsum foldr]. fold (zsum (df_rows <$> l)).
  split; [unfold zsum; cbn; lia|]. split.
  { intros _. destruct l as [|d' l]; [cbn; lia|]. by apply Hle. }
  intros [|k] d' Hd'; cbn in Hd'.
  - injection Hd' as <-. rewrite Z.add_0_r. by match goal with u : unit |- _ => destruct u end.
  - apply Hk in Hd'. replace (i + Z.of_nat (S k)) with (i + 1 + Z.of_nat k) by lia. by destruct k.
Qed.

Lemma data_entry_in files d : d ∈ pf_data files -> (df_name d, df_sha256 d, df_bytes d) ∈ pf_all files.
Proof. intros Hd. apply elem_of_app. left. apply list_elem_of_bind. exists d. split; [constructor|done]. Qed.

Lemma files_validate_inv files rows key :
  PartFiles_validate files rows key = Ok tt ->
  (1 <= Z.of_nat (length (pf_data files)) <= MAX_DATA_FILES)
  /\ rows = zsum (df_rows <$> pf_data files)
  /\ (forall k d, pf_data files !! k = Some d ->
        check_data_file key (Z.of_nat k) (match k with O => None | S k => pf_data files !! k end) d = Ok tt)
  /\ Forall (fun e => is_sha256_hex e.1.2 = true /\ e.2 <> 0 /\ e.2 <= MAX_OBJECT_BYTES) (pf_all files).
Proof.
  unfold PartFiles_validate. intros E. inv_ok.
  match goal with Hx : check_data_files _ _ _ _ _ = Ok _ |- _ => apply check_data_files_inv in Hx as (-> & _ & Hk) end.
  repeat match goal with u : unit |- _ => destruct u end.
  match goal with Hx : negb ((_ =? 0) || _) = true |- _ => rename Hx into Hc end.
  apply negb_true_iff, orb_false_iff in Hc as [Hc0 Hc1]. split; [lia|].
  split; [match goal with Hx : (_ =? rows) = true |- _ => apply Z.eqb_eq in Hx end; lia|].
  split; [intros k d Hd; apply Hk in Hd; by rewrite Z.add_0_l in Hd|].
  rewrite Forall_forall. rewrite forallb_forall in E. intros [[name sha] bytes] He%list_elem_of_In. apply E in He. cbn.
  rewrite !andb_true_iff, negb_true_iff in He. destruct He as [[Hs Hb0] Hb1]. split; [done|lia].
Qed.

Section record_facts.
Context `{PL : PlatformLaws}.

(** Everything [record_validate] established that a reference needs. *)
Lemma record_validate_inv r :
  record_validate r = Ok tt ->
  (match pr_request_hours r with Some hours => hours_valid hours | None => true end) = true
  /\ pr_rows r <> 0 /\ pr_min_time_us r <= pr_max_time_us r
  /\ is_sha256_hex (pr_schema_fingerprint r) = true /\ is_sha256_hex (pr_merkle_root r) = true
  /\ validate_tenant_uuid (pr_tenant_id r) = Ok tt /\ valid_key_id (pr_signer_key_id r) = true
  /\ (exists key, PartFiles_validate (pr_files r) (pr_rows r) key = Ok tt)
  /\ check_hours r = Ok tt /\ check_inputs r = Ok tt.
Proof.
  unfold record_validate. intros E. inv_ok. repeat match goal with u : unit |- _ => destruct u end.
  match goal with Hx : negb ((pr_rows r =? 0) || _) = true |- _ => apply negb_true_iff, orb_false_iff in Hx as [Hr0 Hr1] end.
  match goal with Hx : forallb is_sha256_hex _ = true |- _ => cbn in Hx; apply andb_true_iff in Hx as [Hs1 Hs2]; apply andb_true_iff in Hs2 as [Hs2 _] end.
  match goal with Hx : match validate_tenant_uuid _ with _ => _ end = Ok _ |- _ => rename Hx into Ht end.
  destruct (validate_tenant_uuid (pr_tenant_id r)) as [[]|]; [|done].
  repeat split; eauto; lia.
Qed.

Lemma hours_day r : check_hours r = Ok tt -> bool_decide (pr_level r = Day) = bool_decide (is_Some (pr_event_day r)).
Proof.
  unfold check_hours. destruct (pr_level r); intros E; inv_ok; cbn.
  4: { match goal with Hx : pr_event_day r = Some _ |- _ => rewrite Hx end. by rewrite !bool_decide_eq_true_2 by (done || by eexists). }
  all: destruct (pr_hours r) as [|h [|]]; try done; apply andb_true_iff in E as [E _]; apply negb_true_iff in E; by rewrite E.
Qed.
End record_facts.

(** ** Statements *)

Lemma row_groups_exact l : Forall (fun x => 0 <= x) l -> zsum l < 4294967296 -> row_groups_u32 l = zsum l.
Proof.
  enough (forall a, Forall (fun x => 0 <= x) l -> 0 <= a -> a + zsum l < 4294967296 ->
    fold_left (fun a b => (a + b) mod 4294967296) l a = a + zsum l) as Hg.
  { intros Hl Hb. unfold row_groups_u32. rewrite Hg; [lia|done|lia|lia]. }
  intros a Hl. revert a. induction Hl as [|x l Hx Hl IH]; intros a Ha Hb; cbn in *; [lia|]. fold (zsum l) in *.
  pose proof (zsum_nonneg l Hl). rewrite Z.mod_small by lia. rewrite IH; lia.
Qed.

Lemma zsum_le_bound (c : Z) l : Forall (fun x => x <= c) l -> zsum l <= Z.of_nat (length l) * c.
Proof. induction 1 as [|x l Hx Hl IH]; unfold zsum in *; cbn [foldr length]; [lia|]. rewrite Nat2Z.inj_succ. lia. Qed.

Lemma zsum_ge_bound l x : Forall (fun x => 0 <= x) l -> x ∈ l -> x <= zsum l.
Proof.
  induction 1 as [|y l Hy Hl IH]; [by intros ?%elem_of_nil|]. unfold zsum in *. cbn.
  pose proof (zsum_nonneg l Hl). unfold zsum in *. intros [->|Hx%IH]%elem_of_cons; lia.
Qed.

Lemma data_file_name_inj i j : 0 <= i < 100000 -> 0 <= j < 100000 -> data_file_name i = data_file_name j -> i = j.
Proof.
  intros Hi Hj. unfold data_file_name. intros E%(inj (String.app "data-")). rewrite !fmt_pad_fixed in E by (cbn; lia).
  apply str_app_inv_len in E as [E _]; [|by rewrite !fixed_dec_length]. by apply fixed_dec_inj in E; [|cbn; lia..].
Qed.

(** A validated file list is exact: its rows are the sum of the files' rows, with no overflow; the
    total of the data bytes, a [u64] sum that wraps, does not wrap and is at most 1000 files of 2 GiB;
    and the data files of a written part have distinct names, the i-th one [data-i]. *)
Theorem validated_files_exact files rows key :
  Forall (fun d => 0 <= df_bytes d /\ 0 <= df_rows d) (pf_data files) ->
  PartFiles_validate files rows key = Ok tt ->
  rows = zsum (df_rows <$> pf_data files) /\ rows <= u64_max
  /\ pf_data_bytes files = zsum (df_bytes <$> pf_data files)
  /\ pf_data_bytes files <= MAX_DATA_FILES * MAX_OBJECT_BYTES
  /\ (key = None -> NoDup (df_name <$> pf_data files)).
Proof.
  intros Ht Hv. assert (rows <= u64_max) as Hmax.
  { unfold PartFiles_validate in Hv. inv_ok. match goal with Hx : check_data_files _ _ _ _ _ = Ok _ |- _ => apply check_data_files_inv in Hx as (_ & Hle & _) end.
    match goal with Hx : (_ =? rows) = true |- _ => apply Z.eqb_eq in Hx as <- end. apply Hle. intros E0.
    match goal with Hx : negb ((_ =? 0) || _) = true |- _ => by rewrite E0 in Hx end. }
  apply files_validate_inv in Hv as ([Hn1 Hn2] & -> & Hk & Hall).
  assert (Forall (fun x => x <= MAX_OBJECT_BYTES) (df_bytes <$> pf_data files)) as Hb.
  { apply Forall_fmap, Forall_forall. intros d Hd%data_entry_in. rewrite Forall_forall in Hall. by apply Hall in Hd as (_ & _ & ?). }
  apply zsum_le_bound in Hb. rewrite length_fmap in Hb.
  assert (pf_data_bytes files = zsum (df_bytes <$> pf_data files)) as Eb.
  { apply sum_u64_exact; [apply Forall_fmap; eapply Forall_impl; [exact Ht|]; cbn; tauto|].
    unfold MAX_OBJECT_BYTES, MAX_DATA_FILES, u64_max in *. nia. }
  split; [done|]. split; [done|]. split; [done|]. split; [rewrite Eb; unfold MAX_OBJECT_BYTES, MAX_DATA_FILES in *; nia|].
  intros ->. apply NoDup_alt. intros i j name Hi Hj. rewrite list_lookup_fmap in Hi, Hj.
  destruct (pf_data files !! i) as [di|] eqn:Ei; [|done]. destruct (pf_data files !! j) as [dj|] eqn:Ej; [|done].
  injection Hi as Ni. injection Hj as Nj. pose proof (lookup_lt_Some _ _ _ Ei). pose proof (lookup_lt_Some _ _ _ Ej).
  assert (forall k d, pf_data files !! k = Some d -> df_name d = data_file_name (Z.of_nat k)) as Hname.
  { intros k d Hd%Hk. unfold check_data_file in Hd. inv_ok.
    match goal with Hx : bool_decide (df_name d = _) && _ = true |- _ => apply andb_true_iff in Hx as [Hx _]; by apply bool_decide_eq_true in Hx end. }
  apply Hname in Ei, Ej. apply Nat2Z.inj. unfold MAX_DATA_FILES in *. apply data_file_name_inj; [lia..|]. congruence.
Qed.

(** The part reference made from a validated record is valid and is the only reference the record
    accepts: [check_record] succeeds on a reference exactly when it equals [from_record], its [sorted]
    flag aside (the row groups of the record's files within [u32], as the sum wraps). *)
Theorem record_reference `{PL : PlatformLaws} r sha p :
  record_validate r = Ok tt -> is_sha256_hex sha = true ->
  Forall (fun d => 0 <= df_row_groups d) (pf_data (pr_files r)) -> zsum (df_row_groups <$> pf_data (pr_files r)) < 4294967296 ->
  PartRef_validate (from_record r sha (sorted p)) = Ok tt
  /\ (check_record p r sha = Ok tt <-> p = from_record r sha (sorted p)).
Proof.
  intros Hv Hsha Hg Hs. pose proof Hv as (Hh & Hr & Ht & Hd1 & Hd2 & _ & _ & (key & Hf) & Hday & _)%record_validate_inv.
  apply files_validate_inv in Hf as ([Hn1 Hn2] & _ & Hk & _). unfold MAX_DATA_FILES in Hn2.
  assert (Z.of_nat (length (pf_data (pr_files r))) mod 4294967296 = Z.of_nat (length (pf_data (pr_files r)))) as En by (apply Z.mod_small; lia).
  assert (pf_row_groups (pr_files r) <> 0) as Hg0.
  { unfold pf_row_groups. rewrite row_groups_exact by (done || by apply Forall_fmap).
    destruct (pf_data (pr_files r)) as [|d l]; [done|]. specialize (Hk 0%nat d eq_refl). unfold check_data_file in Hk. inv_ok.
    match goal with Hx : negb ((_ =? 0) || (_ =? 0) || _) = true |- _ => apply negb_true_iff, orb_false_iff in Hx as [Hx _]; apply orb_false_iff in Hx as [_ Hx]; apply Z.eqb_neq in Hx end.
    apply Forall_cons in Hg as [Hg0 Hg]. apply Forall_fmap in Hg. pose proof (zsum_nonneg _ Hg). unfold zsum in *. cbn. lia. }
  split.
  - unfold PartRef_validate, from_record. cbn [request_hours rows max_time_us min_time_us row_groups data_files schema_fingerprint provenance_sha256 merkle_root level event_day].
    rewrite Hh, En. apply hours_day in Hday. rewrite Hday, eqb_reflx. cbn [ensure mbind result_bind forallb].
    rewrite Hd1, Hd2, Hsha. assert (negb ((pr_rows r =? 0) || (pr_max_time_us r <? pr_min_time_us r) || (pf_row_groups (pr_files r) =? 0)
      || (Z.of_nat (length (pf_data (pr_files r))) =? 0)) = true) as -> by lia. done.
  - unfold check_record. rewrite ensure_ok_inv, !andb_true_iff, !bool_decide_eq_true, !Z.eqb_eq. split.
    + intros E. destruct p; cbn in *. unfold from_record. rewrite En. f_equal; tauto.
    + intros ->. cbn. rewrite En. tauto.
Qed.

(** The canonical bytes determine the record: two records with the same canonical bytes, hence the
    same message to sign, are equal in every field, optional and nested ones included. *)
Theorem canonical_bytes_inj `{W : JsonWriter} {WL : JsonLaws W} a b bytes :
  canonical_bytes a = Ok bytes -> canonical_bytes b = Ok bytes -> a = b.
Proof.
  unfold canonical_bytes. intros Ea Eb. apply to_value_inj, (canonical_json_inj _ _ bytes).
  - destruct (canonical_json_bytes (to_value a)); [by injection Ea as ->|done].
  - destruct (canonical_json_bytes (to_value b)); [by injection Eb as ->|done].
Qed.

(** A [u64] identifier has exactly one spelling: the strict parser accepts a string exactly when it is
    the decimal string the serializer writes for the value it returns. *)
Theorem u64_decimal_unique text z :
  u64_decimal.parse text = Some z <-> in_u64 z /\ text = u64_decimal.serialize (Z.to_N z).
Proof.
  unfold u64_decimal.parse, u64_decimal.serialize. split.
  - destruct (_ && _) eqn:E; [|done]. rewrite !andb_true_iff in E. destruct E as [[[Hl Hl20] Hd] Hz].
    assert (text <> EmptyString) as Hne by (intros ->; discriminate Hl).
    destruct (Z.leb_spec (dec_val 0 text) u64_max) as [Hm|Hm].
    + rewrite parse_unsigned_digits by done. intros [= <-]. pose proof (dec_val_bound text Hd).
      split; [split; [lia|done]|]. rewrite Z2N.id by lia. symmetry. by apply to_dec_canonical.
    + intros E. unfold parse_unsigned in E. rewrite digits_no_plus, (proj2 (Z.leb_gt _ _) Hm), !andb_false_r in E by done. done.
  - intros [[Hz0 Hz1] ->]. rewrite Z2N.id by lia.
    pose proof (fmt_pad_digits 1 z) as Hd. fold (to_dec z) in Hd.
    assert (to_dec z <> EmptyString) as Hne by (intros E; apply (f_equal String.length) in E; unfold to_dec, fmt_pad in E; rewrite fixed_dec_length in E; cbn in E; lia).
    assert (str_len (to_dec z) <= 20).
    { unfold to_dec, fmt_pad, str_len. rewrite fixed_dec_length. unfold ndigits.
      pose proof (ndigits_aux_bound (Z.to_nat (Z.log2 z)) 19 z). unfold u64_max in *. lia. }
    rewrite Hd. fold (no_leading_zero (to_dec z)). rewrite to_dec_no_leading_zero by done.
    assert (0 < str_len (to_dec z)) by (destruct (to_dec z); [done|unfold str_len; cbn; lia]).
    rewrite (proj2 (Z.ltb_lt _ _)), (proj2 (Z.leb_le _ _)) by done. cbn [andb].
    rewrite parse_unsigned_digits; [|done|done|]; unfold to_dec; rewrite dec_val_fmt_pad; done.
Qed.

(** A merge entry is accepted against its output's record exactly when the ids it supersedes are a
    permutation of the record's input parts, with multiplicity. *)
Theorem check_supersedes_exact supersedes output :
  check_supersedes supersedes output = Ok tt <->
  exists parts, pr_inputs output = Parts parts /\ supersedes ≡ₚ ip_part_id <$> parts.
Proof.
  unfold check_supersedes. destruct (pr_inputs output) as [| parts |]; [split; [done|by intros (? & ? & _)]| |split; [done|by intros (? & ? & _)]].
  rewrite ensure_ok_inv, bool_decide_eq_true. split.
  - intros E. exists parts. split; [done|]. by rewrite <- (sort_by_perm pid_leb supersedes), <- E, sort_by_perm.
  - intros (parts' & [= <-] & Hp).
    apply (StronglySorted_unique_strong (fun a b => pid_leb a b = true)); [intros; by apply pid_leb_antisym| | |].
    + apply sort_by_sorted; [apply pid_leb_total|apply pid_leb_trans].
    + apply sort_by_sorted; [apply pid_leb_total|apply pid_leb_trans].
    + by rewrite !sort_by_perm, Hp.
Qed.

(** ** A valid record *)

Module ProvenanceExample.
Import ToyPlatform ToyJson.

Definition tenant : string := "11111111-2222-3333-4444-555555555555".
Definition id1 : PartId := mk_part_id "0000000000100-00112233445566aa" eq_refl.
Definition digest (n : Z) : string := sha256_hex (to_dec n).
Definition file (name : string) : FileDigest := {| fd_name := name; fd_bytes := 5; fd_sha256 := digest 1 |}.
Definition data0 : DataFileDigest := {|
  df_name := "data-00000.parquet"; df_bytes := 100; df_sha256 := digest 2; df_rows := 10; df_row_groups := 1;
  df_min_time_us := 0; df_max_time_us := 9; df_log_sources := None; df_uid_blooms := Some (file "uids-00000.json");
  df_entity_blooms := None; df_parquet_ranges := None; df_entity_locators := None; df_class_id := None;
  df_tokens := file "tokens-00000.nti" |}.
Definition files : PartFiles := {|
  pf_data := [data0];
  pf_partials := [{| pd_kind := Rollup; pd_name := "rollup.parquet"; pd_bytes := 7; pd_sha256 := digest 3; pd_rows := 2 |}] |}.
Definition record : ProvenanceRecord := {|
  pr_request_hours := None; pr_format := PROVENANCE_FORMAT; pr_signer_key_id := "owner-key-1"; pr_tenant_id := tenant;
  pr_part_id := id1; pr_level := L0; pr_created_at_ms := 100; pr_event_hour := 0; pr_event_day := None; pr_rows := 10;
  pr_min_time_us := 0; pr_max_time_us := 9; pr_schema_fingerprint := digest 4; pr_merkle_root := digest 5;
  pr_hours := [{| hd_event_hour := 0; hd_rows := 10; hd_min_time_us := 0; hd_max_time_us := 9; hd_merkle_root := digest 5 |}];
  pr_files := files;
  pr_inputs := Sources [{| so_key := "k"; so_version := "v"; so_bytes := 50; so_sha256 := digest 6; so_rows := 10; so_edge_sha256 := None |}] None;
  pr_admission := Some {| ad_ocsf_version := "1.3.0"; ad_admission_contract := ADMISSION_CONTRACT; ad_feed_pins := {["ioc" := None]} |};
  pr_lowercased_at_rest := LOWERCASED_AT_REST;
  pr_dedup := {| ds_rows_in := 10; ds_duplicates_dropped := 0; ds_window := Exact |};
  pr_writer := {| wi_role := "ingest"; wi_build := "b" |} |}.
Definition reference : PartRef := from_record record (digest 7) true.
Definition bytes : string := unwrap EmptyString (canonical_bytes record).

Lemma record_valid : record_validate record = Ok tt.
Proof. vm_compute. reflexivity. Qed.
End ProvenanceExample.

Lemma validated_files_exact_witness :
  10 = zsum (df_rows <$> pf_data ProvenanceExample.files) /\ pf_data_bytes ProvenanceExample.files <= MAX_DATA_FILES * MAX_OBJECT_BYTES.
Proof.
  destruct (validated_files_exact ProvenanceExample.files 10 None) as (E & _ & _ & Hb & _).
  - constructor; [split; cbn; lia|constructor].
  - vm_compute. reflexivity.
  - split; [exact E|exact Hb].
Defined.

Lemma record_reference_witness :
  let _ := ToyPlatform.toy in
  PartRef_validate ProvenanceExample.reference = Ok tt
  /\ check_record ProvenanceExample.reference ProvenanceExample.record (ProvenanceExample.digest 7) = Ok tt.
Proof.
  cbv zeta. destruct (record_reference (PL := ToyPlatform.toy_laws) ProvenanceExample.record (ProvenanceExample.digest 7) ProvenanceExample.reference) as [Hv Hc].
  - exact ProvenanceExample.record_valid.
  - vm_compute. reflexivity.
  - constructor; [cbn; lia|constructor].
  - vm_compute. reflexivity.
  - split; [exact Hv|]. apply Hc. reflexivity.
Defined.

Lemma canonical_bytes_inj_witness : ProvenanceExample.record = ProvenanceExample.record.
Proof.
  apply (canonical_bytes_inj (W := ToyJson.toy_writer) (WL := ToyJson.toy_writer_laws) _ _ ProvenanceExample.bytes);
    apply unwrap_ok; vm_compute; reflexivity.
Defined.
