(* ===== verification/Signing.v ===== *)
(** * Signing: signed provenance, sign requests and the owner's checks

    The signature and owner-signing sections of [parts/provenance.rs]. Ed25519, base64
    encoding, random UUIDs and [serde_json] parsing are the class [SignPlatform]; what the
    code relies on is [SignLaws]. *)
From S2P Require Import Prelude Platform Format EdgeLog PartTypes Json ProvenanceTypes Provenance.

Record Ed25519Signature := { sg_alg : string; sg_key_id : string; sg_sig : string }.
Record SignedProvenance := { sp_record : ProvenanceRecord; sp_signature : Ed25519Signature }.

Record RecordRef := { rr_key : string; rr_sha256 : string; rr_size_bytes : Z }.
Record SignRequestPart := {
  rp_part_id : PartId; rp_record_sha256 : string; rp_record_base64 : option string; rp_record_ref : option RecordRef }.
Record SignRequest := {
  rq_schema_version : Z; rq_request_id : string; rq_tenant_id : string; rq_parts : list SignRequestPart }.
Record SignPayload := { pl_canonical : string; pl_record_ref : option RecordRef }.
(** One planned call: the records [pq_first .. pq_end] of the caller's slice. *)
Record PlannedSignRequest := { pq_first : nat; pq_end : nat; pq_request : SignRequest; pq_body_bytes : Z }.

#[export] Instance value_Ed25519Signature : ToValue Ed25519Signature := fun s => obj [
  ("alg", req (sg_alg s)); ("key_id", req (sg_key_id s)); ("sig", req (sg_sig s))].
#[export] Instance value_SignedProvenance : ToValue SignedProvenance := fun s => obj [
  ("record", req (sp_record s)); ("signature", req (sp_signature s))].
#[export] Instance value_RecordRef : ToValue RecordRef := fun r => obj [
  ("key", req (rr_key r)); ("sha256", req (rr_sha256 r)); ("size_bytes", req (rr_size_bytes r))].
#[export] Instance value_SignRequestPart : ToValue SignRequestPart := fun p => obj [
  ("part_id", req (rp_part_id p)); ("record_sha256", req (rp_record_sha256 p));
  ("record_base64", skip_none (rp_record_base64 p)); ("record_ref", skip_none (rp_record_ref p))].
#[export] Instance value_SignRequest : ToValue SignRequest := fun r => obj [
  ("schema_version", req (rq_schema_version r)); ("request_id", req (rq_request_id r));
  ("tenant_id", req (rq_tenant_id r)); ("parts", req (rq_parts r))].

Class SignPlatform := {
  (** [ed25519_dalek]: keys, signing, strict verification; a signature is its 64 bytes *)
  VerifyingKey : Type;
  SigningKey : Type;
  verifying_key : SigningKey -> VerifyingKey;
  ed_sign : SigningKey -> string -> string;
  ed_from_slice : string -> option string;
  ed_verify_strict : VerifyingKey -> string -> string -> bool;
  base64_encode : string -> string;
  (** the uuid of the n-th request made *)
  fresh_uuid : nat -> string;
  (** [serde_json::from_slice] *)
  parse_record : string -> option ProvenanceRecord;
  parse_signed : string -> option SignedProvenance }.

Definition INLINE_RECORD_MAX_BASE64 : Z := 47 * 1024.
Definition OWNER_SIGN_BODY_MAX_BYTES : Z := 64 * 1024.
Definition SIGN_REQUEST_BUDGET_BYTES : Z := 48 * 1024.
Definition CELL_INLINE_RECORD_MAX_BASE64 : Z := 40 * 1024.

Inductive SignError :=
| AlgUnsupported | KeyNotTrusted | SigNotBase64 | SigMalformed | SigDoesNotVerify
| InvalidRecord (e : ProvError) | SignerDiffers | EnvelopeNotCanonical | TooLarge | DoesNotParse | OtherTenant
| BatchCount | MixesTenants | KeysInvalid (e : FormatError)
| RecordRefInvalid | InlineTooLarge | RecordUnreadable | PayloadInvalid | DigestMismatch | RecordNotCanonical | BindingMismatch
| SignerMismatch | AdoptedNotAllowed | AdoptedUnanchored | FileUnverified | PartialBatch | KeyIdInvalid.

(** [?] of an error of another type. *)
Definition lift_err {E F A} (f : E -> F) (r : result E A) : result F A :=
  match r with Ok a => Ok a | Err e => Err (f e) end.
Lemma lift_err_ok_inv {E F A} (f : E -> F) (r : result E A) a : lift_err f r = Ok a <-> r = Ok a.
Proof. destruct r; cbn; split; congruence. Qed.

(** [inv_ok] through lifted errors; a unit result is destructed. *)
Ltac inv_sign :=
  repeat (inv_ok; match goal with Hx : lift_err _ _ = Ok _ |- _ => apply lift_err_ok_inv in Hx end); inv_ok;
  repeat match goal with u : unit |- _ => destruct u end.

(** [iter().map(f).collect::<Result<Vec<_>>>()] *)
Fixpoint map_res {E A B} (f : A -> result E B) (l : list A) : result E (list B) :=
  match l with [] => Ok [] | a :: l => b ← f a; bs ← map_res f l; Ok (b :: bs) end.

Definition provenance_pending_file (record_sha256 : string) : string := "provenance.pending." +:+ record_sha256 +:+ ".json".
Definition provenance_pending (dir record_sha256 : string) : string := part_file dir (provenance_pending_file record_sha256).

(** ** The owner's callers, receipts and view of the bucket *)

Inductive OwnerCaller := Service | CellBearer.

Inductive ReceiptWriter := WorkerMtls | Cell.
Record WriterReceipt := { wr_bytes : Z; wr_sha256 : string; wr_etag : string; wr_writer : ReceiptWriter }.

#[export] Instance ReceiptWriter_eq_dec : EqDecision ReceiptWriter.
Proof. solve_decision. Defined.

(** What the owner observes of the tenant bucket. *)
Class OwnerObjectView := {
  view_receipt : string -> option WriterReceipt;
  view_live : string -> option (Z * string);
  view_rehash : string -> Z -> option (Z * string);
  view_adopted_in_ledger : AdoptionAnchor -> string -> string -> bool }.

Section signing.
Context `{P : Platform} {W : JsonWriter} {SP : SignPlatform}.

(** ** Signed records *)

Abbreviation TenantKeySet := (gmap string VerifyingKey).

(** [TenantKeySet::verify] *)
Definition keys_verify (self : TenantKeySet) (signature : Ed25519Signature) (message : string) : result SignError unit :=
  _ ← ensure (bool_decide (sg_alg signature = "ed25519")) AlgUnsupported;
  key ← of_option (self !! sg_key_id signature) KeyNotTrusted;
  bytes ← of_option (base64_decode (sg_sig signature)) SigNotBase64;
  sig ← of_option (ed_from_slice bytes) SigMalformed;
  ensure (ed_verify_strict key message sig) SigDoesNotVerify.

(** The checks shared by [assemble] and [verify_bytes]. *)
Definition check_signed (record : ProvenanceRecord) (signature : Ed25519Signature) (keys : TenantKeySet) : result SignError unit :=
  _ ← lift_err InvalidRecord (record_validate record);
  _ ← ensure (bool_decide (sg_key_id signature = pr_signer_key_id record)) SignerDiffers;
  message ← lift_err InvalidRecord (signing_message record);
  keys_verify keys signature message.

Definition assemble (record : ProvenanceRecord) (signature : Ed25519Signature) (keys : TenantKeySet) : result SignError SignedProvenance :=
  _ ← check_signed record signature keys;
  Ok {| sp_record := record; sp_signature := signature |}.

Definition signed_to_bytes (self : SignedProvenance) : result SignError string :=
  lift_err (fun _ => EnvelopeNotCanonical) (canonical_json_bytes (to_value self)).

(** [SignedProvenance::verify_bytes] *)
Definition verify_bytes (bytes tenant_id : string) (keys : TenantKeySet) : result SignError SignedProvenance :=
  _ ← ensure (str_len bytes <=? MAX_PROVENANCE_BYTES) TooLarge;
  signed ← of_option (parse_signed bytes) DoesNotParse;
  _ ← ensure (bool_decide (pr_tenant_id (sp_record signed) = tenant_id)) OtherTenant;
  _ ← check_signed (sp_record signed) (sp_signature signed) keys;
  Ok signed.

(** ** Sign requests *)

(** [SignPayload::for_record]: by reference once the base64 is too long. *)
Definition payload_for_record (record : ProvenanceRecord) : result SignError SignPayload :=
  _ ← lift_err InvalidRecord (record_validate record);
  canonical ← lift_err InvalidRecord (canonical_bytes record);
  let base64_len := (str_len canonical + 2) / 3 * 4 in
  if CELL_INLINE_RECORD_MAX_BASE64 <? base64_len then
    dir ← lift_err KeysInvalid (PartKeys_new (pr_tenant_id record) (pr_level record) (pr_event_hour record) (pr_part_id record));
    let sha256 := sha256_hex canonical in
    Ok {| pl_canonical := canonical;
          pl_record_ref := Some {| rr_key := provenance_pending dir sha256; rr_sha256 := sha256; rr_size_bytes := str_len canonical |} |}
  else Ok {| pl_canonical := canonical; pl_record_ref := None |}.

(** [SignRequestPart::for_record] *)
Definition part_for_record (tenant_id : string) (record : ProvenanceRecord) : result SignError SignRequestPart :=
  _ ← ensure (bool_decide (pr_tenant_id record = tenant_id)) MixesTenants;
  payload ← payload_for_record record;
  let record_sha256 := sha256_hex (pl_canonical payload) in
  Ok (match pl_record_ref payload with
      | Some record_ref => {| rp_part_id := pr_part_id record; rp_record_sha256 := record_sha256; rp_record_base64 := None; rp_record_ref := Some record_ref |}
      | None => {| rp_part_id := pr_part_id record; rp_record_sha256 := record_sha256;
                   rp_record_base64 := Some (base64_encode (pl_canonical payload)); rp_record_ref := None |}
      end).

(** [SignRequest::from_parts]; [n] counts the requests made. *)
Definition from_parts (n : nat) (tenant_id : string) (parts : list SignRequestPart) : SignRequest :=
  {| rq_schema_version := 1; rq_request_id := fresh_uuid n; rq_tenant_id := tenant_id; rq_parts := parts |}.

Definition SignRequest_new (n : nat) (tenant_id : string) (records : list ProvenanceRecord) : result SignError SignRequest :=
  _ ← ensure (negb (bool_decide (records = []) || (SIGN_BATCH_MAX <? length records)%nat)) BatchCount;
  parts ← map_res (part_for_record tenant_id) records;
  Ok (from_parts n tenant_id parts).

(** The serialized body length. *)
Definition body_bytes (self : SignRequest) : Z := str_len (write_json (to_value self)).
Definition part_bytes (part : SignRequestPart) : Z := str_len (write_json (to_value part)).

(** The inner loop: parts join the call while their number and the body allow. *)
Fixpoint grow (count : nat) (body budget : Z) (rest : list SignRequestPart) : list SignRequestPart * Z * list SignRequestPart :=
  match rest with
  | part :: rest' =>
      if (count <? SIGN_BATCH_MAX)%nat && (body + 1 + part_bytes part <=? budget) then
        let '(batch, body, rest'') := grow (S count) (body + 1 + part_bytes part) budget rest' in (part :: batch, body, rest'')
      else ([], body, rest)
  | [] => ([], body, [])
  end.

(** The outer loop. Every call takes at least one part, so as many rounds as parts are enough. *)
Fixpoint plan_loop (fuel : nat) (n start : nat) (tenant_id : string) (envelope budget : Z) (parts : list SignRequestPart) : list PlannedSignRequest :=
  match fuel, parts with
  | S fuel, part :: rest =>
      let '(batch, body, rest') := grow 1 (envelope + part_bytes part) budget rest in
      let end_ := (start + S (length batch))%nat in
      {| pq_first := start; pq_end := end_; pq_request := from_parts n tenant_id (part :: batch); pq_body_bytes := body |}
        :: plan_loop fuel (S n) end_ tenant_id envelope budget rest'
  | _, _ => []
  end.

(** [plan_sign_requests]; request number 0 is the empty envelope that is measured. *)
Definition plan_sign_requests (tenant_id : string) (records : list ProvenanceRecord) (budget : Z) : result SignError (list PlannedSignRequest) :=
  parts ← map_res (part_for_record tenant_id) records;
  Ok (plan_loop (length parts) 1 0 tenant_id (body_bytes (from_parts 0 tenant_id [])) budget parts).

(** ** The owner *)

(** [owner_precheck_ref], before any read. *)
Definition owner_precheck_ref (tenant_id : string) (part : SignRequestPart) : result SignError unit :=
  let digits (s : string) (n : nat) := (String.length s =? n)%nat && str_all is_digit s in
  of_option (
    reference ← rp_record_ref part;
    if bool_decide (is_Some (rp_record_base64 part)) || negb (bool_decide (rr_sha256 reference = rp_record_sha256 part))
       || negb (is_sha256_hex (rr_sha256 reference)) || (rr_size_bytes reference =? 0) || (MAX_PROVENANCE_BYTES <? rr_size_bytes reference)
    then None else
    rest ← strip_prefix (PARTS_ROOT +:+ "/tenant=" +:+ tenant_id +:+ "/parts/") (rr_key reference);
    match split_on "/" rest with
    | [level; yyyy; mm; dd; hh; part_id; file] =>
        if (bool_decide (level = "l0") || bool_decide (level = "m") || bool_decide (level = "h") || bool_decide (level = "d"))
           && digits yyyy 4%nat && digits mm 2%nat && digits dd 2%nat && digits hh 2%nat
           && bool_decide (part_id = pid_str (rp_part_id part)) && bool_decide (file = provenance_pending_file (rp_record_sha256 part))
        then Some tt else None
    | _ => None
    end) RecordRefInvalid.

(** The record's bytes, inline or fetched. *)
Definition owner_bytes (tenant_id : string) (part : SignRequestPart) (fetched : option string) : result SignError string :=
  match rp_record_base64 part, rp_record_ref part, fetched with
  | Some inline, None, None =>
      _ ← ensure (str_len inline <=? INLINE_RECORD_MAX_BASE64) InlineTooLarge;
      of_option (base64_decode inline) RecordUnreadable
  | None, Some reference, Some bytes =>
      _ ← owner_precheck_ref tenant_id part;
      _ ← ensure ((rr_size_bytes reference =? str_len bytes) && bool_decide (sha256_hex bytes = rr_sha256 reference)) RecordRefInvalid;
      Ok bytes
  | _, _, _ => Err PayloadInvalid
  end.

(** [owner_check_part] *)
Definition owner_check_part (tenant_id : string) (part : SignRequestPart) (fetched : option string) (signer_key_id : string) (caller : OwnerCaller) :
    result SignError ProvenanceRecord :=
  bytes ← owner_bytes tenant_id part fetched;
  _ ← ensure (bool_decide (sha256_hex bytes = rp_record_sha256 part) && (str_len bytes <=? MAX_PROVENANCE_BYTES)) DigestMismatch;
  record ← of_option (parse_record bytes) RecordUnreadable;
  canonical ← lift_err InvalidRecord (canonical_bytes record);
  _ ← ensure (bool_decide (canonical = bytes)) RecordNotCanonical;
  _ ← ensure (bool_decide (pr_tenant_id record = tenant_id) && bool_decide (pr_part_id record = rp_part_id part)) BindingMismatch;
  _ ← match rp_record_ref part with
      | Some reference =>
          dir ← lift_err KeysInvalid (PartKeys_new (pr_tenant_id record) (pr_level record) (pr_event_hour record) (pr_part_id record));
          ensure (bool_decide (rr_key reference = provenance_pending dir (rp_record_sha256 part))) RecordRefInvalid
      | None => Ok tt
      end;
  _ ← ensure (bool_decide (pr_signer_key_id record = signer_key_id)) SignerMismatch;
  _ ← ensure (negb (match caller with CellBearer => is_adopted record | Service => false end)) AdoptedNotAllowed;
  _ ← lift_err InvalidRecord (record_validate record);
  Ok record.

Context {V : OwnerObjectView}.

Definition sidecar_file (dir : string) (f : FileDigest) : string * string * Z := (part_file dir (fd_name f), fd_sha256 f, fd_bytes f).
(** The files of one data file, with their bucket keys. *)
Definition data_file_keys (record : ProvenanceRecord) (dir : string) (d : DataFileDigest) : list (string * string * Z) :=
  [((if is_adopted record then df_name d else part_file dir (df_name d)), df_sha256 d, df_bytes d); sidecar_file dir (df_tokens d)]
  ++ (sidecar_file dir <$> option_list (df_parquet_ranges d)) ++ (sidecar_file dir <$> option_list (df_entity_locators d))
  ++ (sidecar_file dir <$> option_list (df_entity_blooms d)) ++ (sidecar_file dir <$> option_list (df_uid_blooms d)).
Definition owner_files (record : ProvenanceRecord) (dir : string) : list (string * string * Z) :=
  (pf_data (pr_files record) ≫= data_file_keys record dir)
  ++ ((fun p => (part_file dir (pd_name p), pd_sha256 p, pd_bytes p)) <$> pf_partials (pr_files record)).

(** One file: a trusted receipt for the live object, or a re-hash of it. *)
Definition file_verified (key sha256 : string) (bytes : Z) : bool :=
  (match view_receipt key with
   | Some receipt => bool_decide (wr_writer receipt = WorkerMtls) && (wr_bytes receipt =? bytes)
                     && bool_decide (wr_sha256 receipt = sha256)
                     && bool_decide (view_live key = Some (wr_bytes receipt, wr_etag receipt))
   | None => false
   end)
  || (match view_rehash key bytes with
      | Some (len, digest) => (len =? bytes) && bool_decide (digest = sha256)
      | None => false
      end).

(** [owner_verify_files] *)
Definition owner_verify_files (record : ProvenanceRecord) : result SignError unit :=
  dir ← lift_err KeysInvalid (PartKeys_new (pr_tenant_id record) (pr_level record) (pr_event_hour record) (pr_part_id record));
  _ ← match pr_inputs record with
      | Adopted anchor objects =>
          object ← of_option (head objects) (InvalidRecord NoAdoptedObject);
          ensure (view_adopted_in_ledger anchor (ao_key object) (ao_sha256 object)) AdoptedUnanchored
      | _ => Ok tt
      end;
  ensure (forallb (fun '(key, sha256, bytes) => file_verified key sha256 bytes) (owner_files record dir)) FileUnverified.

(** ** Signers *)

(** [sign_within_budget]: one [signer.sign] call per planned request. *)
Definition sign_within_budget (signer : string -> list ProvenanceRecord -> result SignError (list Ed25519Signature))
    (tenant_id : string) (records : list ProvenanceRecord) : result SignError (list Ed25519Signature) :=
  plans ← plan_sign_requests tenant_id records SIGN_REQUEST_BUDGET_BYTES;
  fold_res (fun signatures plan =>
    let batch := take (pq_end plan - pq_first plan) (drop (pq_first plan) records) in
    signed ← signer tenant_id batch;
    _ ← ensure (length signed =? length batch)%nat PartialBatch;
    Ok (signatures ++ signed)) plans [].

(** [LocalPartSigner]: a key id that is well formed, and a key. *)
Record LocalPartSigner := { ls_key_id : string; ls_key : SigningKey }.
Definition LocalPartSigner_new (key_id : string) (key : SigningKey) : result SignError LocalPartSigner :=
  _ ← ensure (valid_key_id key_id) KeyIdInvalid;
  Ok {| ls_key_id := key_id; ls_key := key |}.
Definition trusted (self : LocalPartSigner) : TenantKeySet := {[ls_key_id self := verifying_key (ls_key self)]}.

(** One part of [LocalPartSigner::sign]: the owner's checks, then the signature. *)
Definition local_sign_one (self : LocalPartSigner) (tenant_id : string) (pr : SignRequestPart * ProvenanceRecord) : result SignError Ed25519Signature :=
  staged ← match rp_record_ref pr.1 with
           | Some _ => b ← lift_err InvalidRecord (canonical_bytes pr.2); Ok (Some b)
           | None => Ok None
           end;
  record ← owner_check_part tenant_id pr.1 staged (ls_key_id self) Service;
  message ← lift_err InvalidRecord (signing_message record);
  Ok {| sg_alg := "ed25519"; sg_key_id := ls_key_id self; sg_sig := base64_encode (ed_sign (ls_key self) message) |}.

Definition local_sign (self : LocalPartSigner) (n : nat) (tenant_id : string) (records : list ProvenanceRecord) : result SignError (list Ed25519Signature) :=
  request ← SignRequest_new n tenant_id records;
  map_res (local_sign_one self tenant_id) (zip (rq_parts request) records).
End signing.

(** ** What the code relies on *)

Class SignLaws (P : Platform) (SP : SignPlatform) : Prop := {
  base64_roundtrip : forall b, base64_decode (base64_encode b) = Some b;
  base64_length : forall b, str_len (base64_encode b) = (str_len b + 2) / 3 * 4;
  base64_plain : forall b, str_all is_plain (base64_encode b) = true;
  fresh_uuid_shape : forall n, str_len (fresh_uuid n) = 36 /\ str_all is_plain (fresh_uuid n) = true;
  uuid_shape : forall s u, uuid_hyphenated s = Some u -> str_len u = 36 /\ str_all is_plain u = true;
  ed_slice : forall k m, ed_from_slice (ed_sign k m) = Some (ed_sign k m);
  ed_verifies : forall k m, ed_verify_strict (verifying_key k) m (ed_sign k m) = true;
  sign_calendar :: CalendarLaws P }.

Section plan_facts.
Context {P : Platform} {W : JsonWriter} {SP : SignPlatform} {PL : PlatformLaws P} {WL : JsonLaws W} {SL : SignLaws P SP}.

Lemma map_res_Forall2 {E A B} (f : A -> result E B) l k : map_res f l = Ok k -> Forall2 (fun a b => f a = Ok b) l k.
Proof. revert k. induction l as [|a l IH]; intros k; cbn; [intros [= <-]; constructor|]. intros E1. inv_ok. constructor; auto. Qed.

Lemma Forall2_in_r {A B} (R : A -> B -> Prop) l k b : Forall2 R l k -> b ∈ k -> exists a, a ∈ l /\ R a b.
Proof.
  induction 1 as [|a b' l k Hab H IH]; [by intros ?%elem_of_nil|]. intros [->|Hb]%elem_of_cons.
  - exists a. split; [constructor|done].
  - destruct (IH Hb) as (a' & Ha & Hr). exists a'. split; [by constructor|done].
Qed.

(** The length of a list of items with its commas. *)
Lemma comma_rest_len l : str_len (comma_rest l) = zsum ((fun s => 1 + str_len s) <$> l).
Proof.
  induction l as [|s l IH]; [done|]. cbn [comma_rest fmap list_fmap]. unfold zsum in *. cbn [foldr]. rewrite <- IH.
  change (String "," (s +:+ comma_rest l)) with ("," +:+ (s +:+ comma_rest l)). rewrite !str_len_app. change (str_len ",") with 1. lia.
Qed.

Definition parts_len (parts : list SignRequestPart) : Z :=
  str_len (comma_sep ((fun p => write_json (to_value p)) <$> parts)).

Lemma parts_len_cons p l : parts_len (p :: l) = part_bytes p + zsum ((fun q => 1 + part_bytes q) <$> l).
Proof.
  unfold parts_len. cbn [fmap list_fmap comma_sep]. rewrite str_len_app, comma_rest_len, <- list_fmap_compose. done.
Qed.

Lemma str_len_cons c s : str_len (String c s) = 1 + str_len s.
Proof. unfold str_len. cbn [String.length]. lia. Qed.

(** The body is the empty envelope with the parts written into it. *)
Lemma body_bytes_split n m tenant parts :
  body_bytes (from_parts n tenant parts) = body_bytes (from_parts m tenant []) + parts_len parts.
Proof using WL SL.
  destruct (fresh_uuid_shape n) as [Ln Pn], (fresh_uuid_shape m) as [Lm Pm].
  unfold body_bytes, from_parts. cbv [to_value value_SignRequest obj]. cbn [fields req rq_schema_version rq_request_id rq_tenant_id rq_parts].
  cbv [to_value value_string value_Z value_list]. cbn [write_json write_scalar fmap list_fmap comma_sep comma_rest fst snd].
  unfold member. cbn [fst snd]. rewrite <- list_fmap_compose.
  rewrite !str_len_cons, !str_len_app, !str_len_cons, !str_len_app, !str_len_cons, !str_len_app, !str_len_cons.
  rewrite !str_len_app, !str_len_cons, !str_len_app, !str_len_cons. rewrite !(write_str_plain (fresh_uuid _)) by done.
  unfold parts_len. rewrite Ln, Lm. change (str_len (comma_sep [])) with 0. change (str_len EmptyString) with 0.
  unfold compose. cbv [to_value]. lia.
Qed.

Lemma grow_spec count body budget rest batch body' rest' :
  grow count body budget rest = (batch, body', rest') ->
  rest = batch ++ rest' /\ body' = body + zsum ((fun q => 1 + part_bytes q) <$> batch)
  /\ ((count <= SIGN_BATCH_MAX)%nat -> (count + length batch <= SIGN_BATCH_MAX)%nat) /\ (batch = [] \/ body' <= budget).
Proof using.
  revert count body batch body' rest'. induction rest as [|p rest IH]; intros count body batch body' rest'; cbn [grow].
  { intros [= <- <- <-]. cbn. repeat split; [lia|lia|by left]. }
  destruct (_ && _) eqn:E; [|intros [= <- <- <-]; cbn; repeat split; [lia|lia|by left]].
  apply andb_true_iff in E as [Ec Eb]. apply Nat.ltb_lt in Ec. apply Z.leb_le in Eb.
  destruct (grow (S count) _ budget rest) as [[batch0 body0] rest0] eqn:Eg. intros [= <- <- <-].
  apply IH in Eg as (-> & -> & Hc & Hb). cbn [app fmap list_fmap]. unfold zsum in *. cbn [foldr length].
  split; [done|]. split; [lia|]. split; [specialize (Hc ltac:(lia)); lia|]. right.
  destruct Hb as [->|Hb]; [cbn; lia|lia].
Qed.

(** Calls cover consecutive ranges of the records. *)
Fixpoint contiguous (start : nat) (plans : list PlannedSignRequest) (stop : nat) : Prop :=
  match plans with
  | [] => start = stop
  | q :: plans => pq_first q = start /\ contiguous (pq_end q) plans stop
  end.

(** One call: 1 to 16 parts of one tenant, its measured body, within the budget unless it is alone. *)
Definition call_ok (tenant : string) (budget : Z) (q : PlannedSignRequest) : Prop :=
  (1 <= length (rq_parts (pq_request q)) <= SIGN_BATCH_MAX)%nat
  /\ pq_end q = (pq_first q + length (rq_parts (pq_request q)))%nat
  /\ (exists n, pq_request q = from_parts n tenant (rq_parts (pq_request q)))
  /\ pq_body_bytes q = body_bytes (pq_request q)
  /\ (length (rq_parts (pq_request q)) = 1%nat \/ pq_body_bytes q <= budget).

Lemma plan_loop_spec fuel n start tenant budget parts :
  (length parts <= fuel)%nat ->
  let plans := plan_loop fuel n start tenant (body_bytes (from_parts 0 tenant [])) budget parts in
  (plans ≫= fun q => rq_parts (pq_request q)) = parts
  /\ contiguous start plans (start + length parts) /\ Forall (call_ok tenant budget) plans.
Proof using WL SL.
  revert n start parts. induction fuel as [|fuel IH]; intros n start [|p rest] Hf; cbn [plan_loop length] in *;
    try (split; [done|split; [cbn; lia|constructor]]); [lia|].
  destruct (grow 1 _ budget rest) as [[batch body] rest'] eqn:Eg. apply grow_spec in Eg as (-> & Hbody & Hc & Hb).
  rewrite length_app in Hf. destruct (IH (S n) (start + S (length batch))%nat rest') as (E1 & E2 & E3); [lia|].
  split; [rewrite bind_cons; cbn; by rewrite E1|]. split; [cbn; split; [done|]; rewrite length_app; by replace (start + S (length batch + length rest'))%nat with (start + S (length batch) + length rest')%nat by lia|].
  constructor; [|exact E3]. unfold call_ok. cbn [pq_first pq_end pq_request pq_body_bytes from_parts rq_parts rq_tenant_id length].
  assert (SIGN_BATCH_MAX = 16%nat) as E16 by done. specialize (Hc ltac:(lia)). split; [lia|]. split; [lia|]. split; [by exists n|]. split.
  - fold (from_parts n tenant (p :: batch)). rewrite (body_bytes_split n 0 tenant (p :: batch)), parts_len_cons. lia.
  - destruct Hb as [->|Hb]; [by left|by right].
Qed.
End plan_facts.

(** The plan of sign calls is exact: the calls carry every record's part once and in order, over
    consecutive ranges of the records; each has 1 to 16 parts, its recorded body size is exactly the
    length of its serialized request, and only a call with a single part may exceed the byte budget. *)
Theorem sign_plan_exact {P : Platform} {W : JsonWriter} {SP : SignPlatform} {WL : JsonLaws W} {SL : SignLaws P SP} tenant records budget plans :
  plan_sign_requests tenant records budget = Ok plans ->
  Forall2 (fun r p => part_for_record tenant r = Ok p) records (plans ≫= fun q => rq_parts (pq_request q))
  /\ contiguous 0 plans (length records) /\ Forall (call_ok tenant budget) plans.
Proof.
  unfold plan_sign_requests. intros E. inv_ok.
  match goal with Hx : map_res _ _ = Ok ?ps |- _ => apply map_res_Forall2 in Hx as Hf; rename ps into parts end.
  destruct (plan_loop_spec (length parts) 1 0 tenant budget parts) as (E1 & E2 & E3); [lia|].
  rewrite E1. split; [done|]. split; [|done]. by rewrite (Forall2_length _ _ _ Hf).
Qed.

(** ** Every call fits the byte budget *)

Section fit_facts.
Context {P : Platform} {W : JsonWriter} {SP : SignPlatform} {PL : PlatformLaws P} {WL : JsonLaws W} {SL : SignLaws P SP}.

Lemma hex_plain s : str_all is_hex_lower s = true -> str_all is_plain s = true.
Proof using. apply str_all_impl. intros c. destruct c as [[][][][][][][][]]; done. Qed.

Lemma digits_plain s : str_all is_digit s = true -> str_all is_plain s = true.
Proof using. apply str_all_impl. intros c. destruct c as [[][][][][][][][]]; done. Qed.

Lemma pid_plain id : str_len (pid_str id) = 30 /\ str_all is_plain (pid_str id) = true.
Proof using.
  destruct id as [s Hs]. cbn. unfold part_id_valid in Hs. rewrite !andb_true_iff, Nat.eqb_eq, bool_decide_eq_true in Hs.
  destruct Hs as [[[Hl Hd] Hdig] Hhex]. split; [unfold str_len; lia|].
  rewrite <- (str_take_drop 13 s), str_all_app, (digits_plain _ Hdig). unfold str_get in Hd.
  destruct (str_drop 13 s) as [|c t] eqn:E; [done|]. injection Hd as ->. cbn.
  assert (t = str_drop 14 s) as ->; [|by apply hex_plain].
  clear -E. revert s E. generalize 13%nat. induction n as [|n IH]; intros s E; destruct s; cbn in *; try done; [by injection E as _ ->|by apply IH].
Qed.

Lemma sha_plain b : str_len (sha256_hex b) = 64 /\ str_all is_plain (sha256_hex b) = true.
Proof using PL.
  pose proof (sha256_hex_wf b) as Hs. unfold is_sha256_hex in Hs. apply andb_true_iff in Hs as [Hl Hh].
  apply Nat.eqb_eq in Hl. split; [unfold str_len; lia|by apply hex_plain].
Qed.

Lemma pad_plain w k z : 0 <= z < 10 ^ Z.of_nat (S k) ->
  str_len (fmt_pad w z) <= Z.of_nat (w `max` S k) /\ str_all is_plain (fmt_pad w z) = true.
Proof using.
  intros Hz. split; [|apply digits_plain, fmt_pad_digits]. unfold str_len, fmt_pad. rewrite fixed_dec_length.
  pose proof (ndigits_aux_bound (Z.to_nat (Z.log2 z)) k z Hz). unfold ndigits. lia.
Qed.

Lemma pad_signed_plain w k z : - 10 ^ Z.of_nat (S k) < z < 10 ^ Z.of_nat (S k) ->
  str_len (fmt_pad_signed w z) <= Z.of_nat (S (w `max` S k)) /\ str_all is_plain (fmt_pad_signed w z) = true.
Proof using.
  intros Hz. unfold fmt_pad_signed. destruct (Z.ltb_spec z 0).
  - destruct (pad_plain (w - 1) k (- z)) as [Hl Hp]; [lia|]. rewrite str_len_app, str_all_app, Hp. change (str_len "-") with 1. split; [lia|done].
  - destruct (pad_plain w k z) as [Hl Hp]; [lia|]. split; [lia|done].
Qed.

Lemma tenant_plain tenant : validate_tenant_uuid tenant = Ok tt -> str_len tenant = 36 /\ str_all is_plain tenant = true.
Proof using SL.
  unfold validate_tenant_uuid. intros E. inv_ok. apply bool_decide_eq_true in E as ->. by eapply uuid_shape.
Qed.

(** The directory of a part is a plain string of at most 128 characters. *)
Lemma part_dir_plain tenant l h id dir :
  PartKeys_new tenant l h id = Ok dir -> str_len dir <= 128 /\ str_all is_plain dir = true.
Proof using SL.
  unfold PartKeys_new. intros E. inv_ok. repeat match goal with u : unit |- _ => destruct u end.
  match goal with Hx : validate_tenant_uuid _ = Ok _ |- _ => apply tenant_plain in Hx as [Lt Pt] end.
  match goal with Hx : from_timestamp _ = Some ?c |- _ => pose proof (civil_range _ _ Hx) as (Hy & Hm & Hd & Hh) end.
  destruct (pid_plain id) as [Li Pi].
  match goal with |- context [fmt_pad_signed 4 ?y] => destruct (pad_signed_plain 4 5 y) as [L1 P1]; [cbn; lia|] end.
  match goal with |- context [fmt_pad_signed 2 (month ?c)] => destruct (pad_signed_plain 2 1 (month c)) as [L2 P2]; [cbn; lia|];
    destruct (pad_signed_plain 2 1 (day c)) as [L3 P3]; [cbn; lia|];
    destruct (pad_signed_plain 2 1 (if bool_decide (l = Day) then 0 else hour c)) as [L4 P4]; [case_bool_decide; cbn; lia|] end.
  assert (str_len (Level_code l) <= 2 /\ str_all is_plain (Level_code l) = true) as [L5 P5] by (by destruct l).
  unfold tenant_root. rewrite !str_len_app, !str_all_app, Lt, Pt, Li, Pi, P1, P2, P3, P4, P5.
  cbn in L1, L2, L3, L4. split; [|reflexivity].
  change (str_len PARTS_ROOT) with 13. change (str_len "/tenant=") with 8. change (str_len "/parts/") with 7. change (str_len "/") with 1. lia.
Qed.

(** What a request part carries, inline and by reference. *)
Lemma part_shape tenant r p :
  part_for_record tenant r = Ok p ->
  record_validate r = Ok tt /\ pr_tenant_id r = tenant
  /\ exists canonical, canonical_bytes r = Ok canonical /\ rp_part_id p = pr_part_id r /\ rp_record_sha256 p = sha256_hex canonical
  /\ ((rp_record_base64 p = Some (base64_encode canonical) /\ rp_record_ref p = None
        /\ (str_len canonical + 2) / 3 * 4 <= CELL_INLINE_RECORD_MAX_BASE64)
      \/ (rp_record_base64 p = None
          /\ exists dir, PartKeys_new (pr_tenant_id r) (pr_level r) (pr_event_hour r) (pr_part_id r) = Ok dir
             /\ rp_record_ref p = Some {| rr_key := provenance_pending dir (sha256_hex canonical); rr_sha256 := sha256_hex canonical;
                                          rr_size_bytes := str_len canonical |})).
Proof using.
  unfold part_for_record, payload_for_record. intros E. inv_sign.
  match goal with Hx : bool_decide _ = true |- _ => apply bool_decide_eq_true in Hx end.
  match goal with Hx : canonical_bytes r = Ok ?c |- _ => rename c into canonical end.
  split; [done|]. split; [done|]. exists canonical. split; [done|].
  match goal with Hx : (if ?b then _ else _) = Ok _ |- _ => destruct (Z.ltb_spec CELL_INLINE_RECORD_MAX_BASE64 ((str_len canonical + 2) / 3 * 4)) end; inv_sign; cbn.
  - split; [done|]. split; [done|]. right. eauto.
  - split; [done|]. split; [done|]. left. done.
Qed.

Lemma part_bytes_bound tenant r p :
  part_for_record tenant r = Ok p -> (forall b, canonical_bytes r = Ok b -> str_len b <= u64_max) ->
  part_bytes p <= 41500.
Proof using PL WL SL.
  intros (_ & _ & canonical & Hc & E1 & E2 & Hp)%part_shape Hlen. specialize (Hlen _ Hc).
  destruct (pid_plain (pr_part_id r)) as [Li Pi], (sha_plain canonical) as [Ls Ps].
  assert (forall k, str_all is_plain k = true -> str_len (write_str k) = str_len k + 2) as Hw by (intros; by apply write_str_plain).
  unfold part_bytes. cbv [to_value value_SignRequestPart obj]. cbv [fields req skip_none fmap option_fmap option_map to_value value_PartId value_string].
  destruct Hp as [(-> & -> & Hb)|(-> & dir & Hdir & ->)]; cbv [value_RecordRef obj fields req to_value value_string value_Z];
    cbn [write_json write_scalar fmap list_fmap comma_sep comma_rest fst snd rr_key rr_sha256 rr_size_bytes]; unfold member; cbn [fst snd];
    repeat first [rewrite str_len_app | rewrite str_len_cons].
  - pose proof (base64_length canonical) as Lb. rewrite E1, E2, !Hw, Ls, Li, Lb by (done || apply base64_plain).
    change (str_len "part_id") with 7. change (str_len "record_sha256") with 13. change (str_len "record_base64") with 13.
    change (str_len EmptyString) with 0. unfold CELL_INLINE_RECORD_MAX_BASE64 in Hb. lia.
  - apply part_dir_plain in Hdir as [Ld Pd].
    assert (str_all is_plain (provenance_pending dir (sha256_hex canonical)) = true) as Pk.
    { unfold provenance_pending, part_file, provenance_pending_file. by rewrite !str_all_app, Pd, Ps. }
    assert (str_len (provenance_pending dir (sha256_hex canonical)) <= 250) as Lk.
    { unfold provenance_pending, part_file, provenance_pending_file. rewrite !str_len_app, Ls.
      change (str_len "/") with 1. change (str_len "provenance.pending.") with 19. change (str_len ".json") with 5. lia. }
    pose proof (write_int_len 19 (str_len canonical)) as Li'.
    rewrite E1, E2, !Hw, Ls, Li by done.
    change (str_len "part_id") with 7. change (str_len "record_sha256") with 13. change (str_len "record_ref") with 10.
    change (str_len "key") with 3. change (str_len "sha256") with 6. change (str_len "size_bytes") with 10. change (str_len EmptyString) with 0.
    assert (0 <= str_len canonical < 10 ^ Z.of_nat 20) by (unfold u64_max, str_len in *; lia). specialize (Li' ltac:(done)). lia.
Qed.

Lemma envelope_bound tenant : validate_tenant_uuid tenant = Ok tt -> body_bytes (from_parts 0 tenant []) <= 200.
Proof using WL SL.
  intros [Lt Pt]%tenant_plain. destruct (fresh_uuid_shape 0) as [Ln Pn].
  unfold body_bytes, from_parts. cbv [to_value value_SignRequest obj fields req rq_schema_version rq_request_id rq_tenant_id rq_parts value_string value_Z value_list fmap list_fmap].
  cbn [write_json write_scalar fmap list_fmap comma_sep comma_rest fst snd]. unfold member. cbn [fst snd].
  repeat first [rewrite str_len_app | rewrite str_len_cons]. rewrite !write_str_plain by done. rewrite Lt, Ln.
  change (str_len "schema_version") with 14. change (str_len "request_id") with 10. change (str_len "tenant_id") with 9. change (str_len "parts") with 5.
  change (str_len EmptyString) with 0. pose proof (write_int_len 0 1 ltac:(cbn; lia)). cbn in *. lia.
Qed.

End fit_facts.

(** No sign call of a planned batch exceeds the cell's 48 KiB budget, single-part calls included
    (so the owner's 64 KiB fence never refuses one), for records whose canonical bytes fit memory. *)
Theorem sign_bodies_fit {P : Platform} {W : JsonWriter} {SP : SignPlatform} {PL : PlatformLaws P} {WL : JsonLaws W} {SL : SignLaws P SP}
    tenant records plans :
  validate_tenant_uuid tenant = Ok tt ->
  Forall (fun r => forall b, canonical_bytes r = Ok b -> str_len b <= u64_max) records ->
  plan_sign_requests tenant records SIGN_REQUEST_BUDGET_BYTES = Ok plans ->
  Forall (fun q => body_bytes (pq_request q) <= SIGN_REQUEST_BUDGET_BYTES) plans.
Proof.
  intros Ht Hr. unfold plan_sign_requests. intros E. inv_ok.
  match goal with Hx : map_res _ _ = Ok ?ps |- _ => apply map_res_Forall2 in Hx as Hf; rename ps into parts end.
  destruct (plan_loop_spec (length parts) 1 0 tenant SIGN_REQUEST_BUDGET_BYTES parts) as (E1 & _ & E3); [lia|].
  apply Forall_forall. intros q Hq. pose proof (proj1 (Forall_forall _ _) E3 q Hq) as (_ & _ & Et & Eb & Hb).
  destruct Hb as [H1|Hb]; [|by rewrite <- Eb].
  destruct Et as [n Et]. destruct (rq_parts (pq_request q)) as [|p [|]] eqn:Ep; try done.
  assert (p ∈ parts) as Hp.
  { rewrite <- E1. apply list_elem_of_bind. exists q. rewrite Ep. split; [constructor|done]. }
  destruct (Forall2_in_r _ _ _ _ Hf Hp) as (r & Hin & Hpart).
  pose proof (part_bytes_bound _ _ _ Hpart (proj1 (Forall_forall _ _) Hr r Hin)). pose proof (envelope_bound tenant Ht).
  rewrite Et, (body_bytes_split n 0 tenant [p]), parts_len_cons. unfold SIGN_REQUEST_BUDGET_BYTES. cbn. lia.
Qed.

(** ** The owner's checks *)

Section owner_facts.
Context {P : Platform} {W : JsonWriter} {SP : SignPlatform} {PL : PlatformLaws P} {WL : JsonLaws W} {SL : SignLaws P SP}.

Definition no_slash (s : string) : bool := str_all (fun c => negb (Ascii.eqb c "/")) s.

Lemma split_on_seg s rest : no_slash s = true -> split_on "/" (s +:+ "/" +:+ rest) = s :: split_on "/" rest.
Proof using.
  induction s as [|c s IH]; [done|]. unfold no_slash. cbn [str_all]. intros [Hc Hs]%andb_true_iff. apply negb_true_iff in Hc.
  rewrite str_app_cons. cbn [split_on]. rewrite Hc. by rewrite IH.
Qed.

Lemma split_on_last s : no_slash s = true -> split_on "/" s = [s].
Proof using.
  induction s as [|c s IH]; [done|]. unfold no_slash. cbn [str_all]. intros [Hc Hs]%andb_true_iff. apply negb_true_iff in Hc.
  cbn [split_on]. rewrite Hc. by rewrite IH.
Qed.

Lemma hex_no_slash s : str_all is_hex_lower s = true -> no_slash s = true.
Proof using. apply str_all_impl. intros c. destruct c as [[][][][][][][][]]; done. Qed.

Lemma pid_no_slash id : no_slash (pid_str id) = true.
Proof using.
  destruct id as [s Hs]. cbn. unfold part_id_valid in Hs. rewrite !andb_true_iff, Nat.eqb_eq, bool_decide_eq_true in Hs.
  destruct Hs as [[[Hl Hd] Hdig] Hhex]. unfold no_slash. rewrite <- (str_take_drop 13 s), str_all_app, (digits_no_slash _ Hdig).
  unfold str_get in Hd. destruct (str_drop 13 s) as [|c t] eqn:E; [done|]. injection Hd as ->. cbn.
  assert (t = str_drop 14 s) as ->; [|by apply hex_no_slash].
  clear -E. revert s E. generalize 13%nat. induction n as [|n IH]; intros s E; destruct s; cbn in *; try done; [by injection E as _ ->|by apply IH].
Qed.

(** Dates the owner's key pattern admits: a four-digit year. *)
Definition four_digit_year (event_hour : Z) : Prop :=
  forall c, from_timestamp (event_hour * 3600) = Some c -> 0 <= year c <= 9999.

Lemma pad_digits w z : 0 <= z < 10 ^ Z.of_nat (S w) ->
  (String.length (fmt_pad_signed (S w) z) =? S w)%nat && str_all is_digit (fmt_pad_signed (S w) z) = true /\ no_slash (fmt_pad_signed (S w) z) = true.
Proof using.
  intros Hz. unfold fmt_pad_signed. destruct (Z.ltb_spec z 0); [lia|]. rewrite fmt_pad_fixed by done.
  rewrite fixed_dec_length, Nat.eqb_refl, fixed_dec_digits. split; [done|]. apply digits_no_slash, fixed_dec_digits.
Qed.

Lemma precheck_complete tenant r p :
  part_for_record tenant r = Ok p -> four_digit_year (pr_event_hour r) ->
  (forall b, canonical_bytes r = Ok b -> 0 < str_len b <= MAX_PROVENANCE_BYTES) ->
  is_Some (rp_record_ref p) -> owner_precheck_ref tenant p = Ok tt.
Proof using PL SL.
  intros (_ & Ht & canonical & Hc & E1 & E2 & Hp)%part_shape Hy Hlen [ref Href]. specialize (Hlen _ Hc).
  destruct Hp as [(_ & E & _)|(Eb & dir & Hdir & E)]; rewrite E in Href; [done|]. injection Href as <-.
  unfold owner_precheck_ref. rewrite E, Eb, E1, E2. cbn [mbind option_bind rr_sha256 rr_size_bytes rr_key].
  rewrite (sha256_hex_wf canonical), (bool_decide_eq_true_2 (sha256_hex canonical = _)) by done.
  rewrite (bool_decide_eq_false_2 (is_Some (@None string))) by (by intros [? ?]).
  assert ((str_len canonical =? 0) = false) as -> by lia. assert ((MAX_PROVENANCE_BYTES <? str_len canonical) = false) as -> by lia.
  cbn [orb negb]. unfold PartKeys_new in Hdir. inv_ok. repeat match goal with u : unit |- _ => destruct u end.
  match goal with Hx : from_timestamp _ = Some ?c |- _ => pose proof (civil_range _ _ Hx) as (_ & Hm & Hd & Hh); specialize (Hy _ Hx); rename c into c0 end.
  set (h' := if bool_decide (pr_level r = Day) then 0 else hour c0).
  assert (0 <= h' <= 23) as Hh' by (unfold h'; case_bool_decide; lia).
  destruct (pad_digits 3 (year c0)) as [D1 S1]; [cbn; lia|]. destruct (pad_digits 1 (month c0)) as [D2 S2]; [cbn; lia|].
  destruct (pad_digits 1 (day c0)) as [D3 S3]; [cbn; lia|]. destruct (pad_digits 1 h') as [D4 S4]; [cbn; lia|].
  set (file := provenance_pending_file (sha256_hex canonical)).
  assert (no_slash file = true) as Sf.
  { unfold file, provenance_pending_file, no_slash. rewrite !str_all_app.
    pose proof (sha256_hex_wf canonical) as Hs. unfold is_sha256_hex in Hs. apply andb_true_iff in Hs as [_ Hs].
    apply hex_no_slash in Hs. unfold no_slash in Hs. by rewrite Hs. }
  unfold provenance_pending, part_file, tenant_root. rewrite <- !str_app_assoc.
  rewrite !(str_app_assoc PARTS_ROOT), !(str_app_assoc (PARTS_ROOT +:+ "/tenant=")), !(str_app_assoc ((PARTS_ROOT +:+ "/tenant=") +:+ pr_tenant_id r)).
  rewrite strip_prefix_app. cbn [mbind option_bind]. fold file.
  rewrite split_on_seg by (by destruct (pr_level r)). rewrite split_on_seg by done. rewrite split_on_seg by done.
  rewrite split_on_seg by done. rewrite split_on_seg by done. rewrite split_on_seg by apply pid_no_slash. rewrite split_on_last by done.
  rewrite D1, D2, D3, D4. rewrite !(bool_decide_eq_true_2 (_ = pid_str _)) by done. rewrite (bool_decide_eq_true_2 (file = file)) by done.
  by destruct (pr_level r).
Qed.

(** The owner accepts what the cell sends. *)
Lemma owner_accepts tenant r p key caller :
  part_for_record tenant r = Ok p -> four_digit_year (pr_event_hour r) ->
  (forall b, canonical_bytes r = Ok b -> 0 < str_len b <= MAX_PROVENANCE_BYTES /\ parse_record b = Some r) ->
  pr_signer_key_id r = key -> (caller = CellBearer -> is_adopted r = false) ->
  exists canonical, canonical_bytes r = Ok canonical
    /\ owner_check_part tenant p (match rp_record_ref p with Some _ => Some canonical | None => None end) key caller = Ok r.
Proof using PL SL.
  intros Hp Hy Hb Hk Hcaller. assert (is_Some (rp_record_ref p) -> owner_precheck_ref tenant p = Ok tt) as Hpre.
  { intros. eapply precheck_complete; [done..| |done]. intros b ?. by apply Hb. }
  apply part_shape in Hp as (Hv & Ht & canonical & Hc & E1 & E2 & Hp). exists canonical. split; [done|].
  destruct (Hb _ Hc) as [[Hl0 Hl1] Hparse].
  assert (owner_bytes tenant p (match rp_record_ref p with Some _ => Some canonical | None => None end) = Ok canonical) as Hbytes.
  { unfold owner_bytes. destruct Hp as [(-> & -> & H64)|(-> & dir & Hdir & E)].
    - rewrite base64_length, base64_roundtrip. unfold CELL_INLINE_RECORD_MAX_BASE64, INLINE_RECORD_MAX_BASE64 in *.
      rewrite (proj2 (Z.leb_le _ _)) by lia. done.
    - rewrite Hpre by (by rewrite E). rewrite E. cbn [mbind result_bind rr_size_bytes rr_sha256].
      rewrite Z.eqb_refl, bool_decide_eq_true_2 by done. done. }
  unfold owner_check_part. eapply bind_intro; [exact Hbytes|]. cbv beta. rewrite E2, E1.
  eapply bind_intro; [apply ensure_intro; by rewrite (bool_decide_eq_true_2 (sha256_hex canonical = _)), (proj2 (Z.leb_le _ _) Hl1)|].
  eapply bind_intro; [by apply of_option_intro|]. eapply bind_intro; [apply lift_err_ok_inv, Hc|].
  eapply bind_intro; [apply ensure_intro; by apply bool_decide_eq_true_2|].
  eapply bind_intro; [apply ensure_intro; by rewrite !bool_decide_eq_true_2 by done|].
  eapply bind_intro.
  { destruct Hp as [(_ & -> & _)|(_ & dir & Hdir & ->)]; [reflexivity|].
    eapply bind_intro; [apply lift_err_ok_inv, Hdir|]. apply ensure_intro. by apply bool_decide_eq_true_2. }
  eapply bind_intro; [apply ensure_intro; by apply bool_decide_eq_true_2|].
  eapply bind_intro; [apply ensure_intro; destruct caller; [done|by rewrite Hcaller]|].
  eapply bind_intro; [apply lift_err_ok_inv, Hv|reflexivity].
Qed.
End owner_facts.

(** What the owner checked before it signs: the record it returns is valid, belongs to the request's
    tenant, part and signer, is the one whose canonical bytes have the digest the request names, and a
    cell's bearer never gets an adopted part through. *)
Theorem owner_check_sound {P : Platform} {W : JsonWriter} {SP : SignPlatform} tenant part fetched key caller record :
  owner_check_part tenant part fetched key caller = Ok record ->
  record_validate record = Ok tt /\ pr_tenant_id record = tenant /\ pr_part_id record = rp_part_id part
  /\ pr_signer_key_id record = key
  /\ (exists canonical, canonical_bytes record = Ok canonical /\ sha256_hex canonical = rp_record_sha256 part /\ str_len canonical <= MAX_PROVENANCE_BYTES)
  /\ (caller = CellBearer -> is_adopted record = false).
Proof.
  unfold owner_check_part. intros E. inv_sign.
  repeat match goal with Hx : (_ && _) = true |- _ => apply andb_true_iff in Hx as [? ?] | Hx : bool_decide _ = true |- _ => apply bool_decide_eq_true in Hx; subst
    | Hx : (_ <=? _) = true |- _ => apply Z.leb_le in Hx end.
  repeat (split; [done|]). split; [eauto|]. intros ->. by match goal with Hx : negb (is_adopted _) = true |- _ => apply negb_true_iff in Hx end.
Qed.

Section verify_facts.
Context {P : Platform} {V : OwnerObjectView}.

(** The owner's list names the digests and sizes of [PartFiles::all], in its order. *)
Lemma owner_files_all record dir : (fun f => (f.1.2, f.2)) <$> owner_files record dir = (fun f => (f.1.2, f.2)) <$> pf_all (pr_files record).
Proof.
  unfold owner_files, pf_all. rewrite !fmap_app. f_equal.
  - induction (pf_data (pr_files record)) as [|d l IH]; [done|]. rewrite !bind_cons, !fmap_app, IH. f_equal.
    unfold data_file_keys, data_entries. rewrite !fmap_app, <- !list_fmap_compose. done.
  - rewrite <- !list_fmap_compose. done.
Qed.
End verify_facts.

(** The owner's file check passes exactly when the part's directory exists, an adopted object is in
    the anchor's ledger, and every file the record names (the digests and sizes of [PartFiles::all], one
    key each) is vouched for: by a server-verified receipt of those bytes and digest whose length and
    strong tag the live object still has, or by a fresh hash of the live object. *)
Theorem owner_verify_exact {P : Platform} {V : OwnerObjectView} record :
  owner_verify_files record = Ok tt <->
  exists dir, PartKeys_new (pr_tenant_id record) (pr_level record) (pr_event_hour record) (pr_part_id record) = Ok dir
    /\ (forall anchor objects, pr_inputs record = Adopted anchor objects ->
          exists o os, objects = o :: os /\ view_adopted_in_ledger anchor (ao_key o) (ao_sha256 o) = true)
    /\ (fun f => (f.1.2, f.2)) <$> owner_files record dir = (fun f => (f.1.2, f.2)) <$> pf_all (pr_files record)
    /\ forall key sha256 bytes, (key, sha256, bytes) ∈ owner_files record dir ->
         (exists r, view_receipt key = Some r /\ wr_writer r = WorkerMtls /\ wr_bytes r = bytes /\ wr_sha256 r = sha256
                    /\ view_live key = Some (bytes, wr_etag r))
         \/ view_rehash key bytes = Some (bytes, sha256).
Proof.
  assert (forall key sha256 bytes, file_verified key sha256 bytes = true <->
    (exists r, view_receipt key = Some r /\ wr_writer r = WorkerMtls /\ wr_bytes r = bytes /\ wr_sha256 r = sha256 /\ view_live key = Some (bytes, wr_etag r))
    \/ view_rehash key bytes = Some (bytes, sha256)) as Hf.
  { intros key sha256 bytes. unfold file_verified. rewrite orb_true_iff. f_equiv.
    - destruct (view_receipt key) as [r|]; [|naive_solver]. rewrite !andb_true_iff, !bool_decide_eq_true, Z.eqb_eq. split.
      + intros [[[? <-] ?] ?]. eauto 10.
      + intros (r' & [= <-] & ? & <- & ? & ?). done.
    - destruct (view_rehash key bytes) as [[len digest]|]; [|naive_solver]. rewrite andb_true_iff, bool_decide_eq_true, Z.eqb_eq. naive_solver. }
  unfold owner_verify_files. split.
  - intros E. inv_sign. eexists. split; [done|]. split; [|split; [apply owner_files_all|]].
    + intros anchor objects Ei. rewrite Ei in *. inv_sign. destruct objects as [|o os]; [done|]. cbn in *. simplify_eq. eauto.
    + intros key sha256 bytes Hin%list_elem_of_In. rewrite forallb_forall in E. apply E in Hin. by apply Hf.
  - intros (dir & Hd & Ha & _ & Hall). rewrite Hd. cbn [lift_err mbind result_bind].
    assert (forallb (fun '(key, sha256, bytes) => file_verified key sha256 bytes) (owner_files record dir) = true) as ->.
    { apply forallb_forall. intros [[key sha] bytes] Hin%list_elem_of_In. by apply Hf, Hall. }
    destruct (pr_inputs record) as [| |anchor objects] eqn:Ei; [done|done|]. destruct (Ha _ _ eq_refl) as (o & os & -> & Hl).
    cbn. by rewrite Hl.
Qed.

(** Signing round trip: a local signer with a well-formed key id signs any batch of 1 to 16 valid
    records of the tenant that name it, within the record size bound and read back by the JSON parser;
    it returns one signature per record, and each record assembles with its signature under the keys
    the signer trusts, whether it travelled inline or by reference. *)
Theorem local_sign_roundtrip {P : Platform} {W : JsonWriter} {SP : SignPlatform} {PL : PlatformLaws P} {WL : JsonLaws W} {SL : SignLaws P SP}
    signer n tenant records :
  (1 <= length records <= SIGN_BATCH_MAX)%nat ->
  Forall (fun r => exists p, part_for_record tenant r = Ok p) records ->
  Forall (fun r => pr_signer_key_id r = ls_key_id signer /\ four_digit_year (pr_event_hour r)
    /\ forall b, canonical_bytes r = Ok b -> 0 < str_len b <= MAX_PROVENANCE_BYTES /\ parse_record b = Some r) records ->
  exists sigs, local_sign signer n tenant records = Ok sigs
    /\ Forall2 (fun r s => assemble r s (trusted signer) = Ok {| sp_record := r; sp_signature := s |}) records sigs.
Proof.
  intros Hn Hparts Hr. unfold local_sign, SignRequest_new.
  assert (negb (bool_decide (records = []) || (SIGN_BATCH_MAX <? length records)%nat) = true) as ->.
  { apply negb_true_iff, orb_false_iff. split; [apply bool_decide_eq_false; intros ->; cbn in Hn; lia|apply Nat.ltb_ge; lia]. }
  cbn [ensure mbind result_bind]. clear Hn.
  enough (exists parts sigs, map_res (part_for_record tenant) records = Ok parts /\ map_res (local_sign_one signer tenant) (zip parts records) = Ok sigs
    /\ Forall2 (fun r s => assemble r s (trusted signer) = Ok {| sp_record := r; sp_signature := s |}) records sigs) as (parts & sigs & E1 & E2 & E3).
  { rewrite E1. cbn [mbind result_bind from_parts rq_parts]. eauto. }
  induction Hparts as [|r records [p Hp] Hparts IH]; [exists [], []; repeat split; constructor|].
  apply Forall_cons in Hr as [(Hk & Hy & Hb) Hr]. destruct (IH Hr) as (parts & sigs & E1 & E2 & E3).
  destruct (owner_accepts tenant r p (ls_key_id signer) Service Hp Hy Hb Hk ltac:(done)) as (canonical & Hc & Ho).
  set (message := PROVENANCE_SIGNATURE_DOMAIN +:+ canonical).
  set (s := {| sg_alg := "ed25519"; sg_key_id := ls_key_id signer; sg_sig := base64_encode (ed_sign (ls_key signer) message) |}).
  assert (signing_message r = Ok message) as Hm by (unfold signing_message; by rewrite Hc).
  exists (p :: parts), (s :: sigs). split; [cbn; by rewrite Hp, E1|]. split.
  - cbn [zip zip_with map_res]. assert (local_sign_one signer tenant (p, r) = Ok s) as ->; [|cbn [mbind result_bind]; by rewrite E2].
    unfold local_sign_one. cbn [fst snd]. eapply bind_intro.
    { instantiate (1 := match rp_record_ref p with Some _ => Some canonical | None => None end).
      destruct (rp_record_ref p); [|reflexivity]. eapply bind_intro; [apply lift_err_ok_inv, Hc|reflexivity]. }
    eapply bind_intro; [exact Ho|]. eapply bind_intro; [apply lift_err_ok_inv, Hm|reflexivity].
  - constructor; [|exact E3]. unfold assemble, check_signed. apply part_shape in Hp as (Hv & _ & _).
    eapply bind_intro; [|reflexivity]. eapply bind_intro; [apply lift_err_ok_inv, Hv|].
    eapply bind_intro; [apply ensure_intro; by apply bool_decide_eq_true_2|].
    eapply bind_intro; [apply lift_err_ok_inv, Hm|]. unfold keys_verify, trusted, s. cbn [sg_alg sg_key_id sg_sig].
    eapply bind_intro; [apply ensure_intro; by apply bool_decide_eq_true_2|].
    eapply bind_intro; [apply of_option_intro, lookup_singleton_eq|]. eapply bind_intro; [apply of_option_intro, base64_roundtrip|].
    eapply bind_intro; [apply of_option_intro, ed_slice|]. apply ensure_intro, ed_verifies.
Qed.
