(* ===== verification/SigningExample.v ===== *)
(** * SigningExample: a concrete signing platform, and the signing theorems at it

    Base64 with its alphabet and padding, keyed tags as signatures and a parser that reads
    one record back satisfy [SignLaws]; the witnesses of [Signing] evaluate there. *)
From S2P Require Import Prelude Platform Format EdgeLog PartTypes Json ProvenanceTypes Provenance Signing.

(** ** Base64 *)
Module Base64.
Definition alphabet : string := "ABCDEFGHIJKLMNOPQRSTUVWXYZabcdefghijklmnopqrstuvwxyz0123456789+/".
Definition bit (b : bool) (w : nat) : nat := if b then w else 0%nat.
Definition sextet_char (a b c d e f : bool) : ascii :=
  default "A"%char (str_get (bit a 32 + bit b 16 + bit c 8 + bit d 4 + bit e 2 + bit f 1)%nat alphabet).
Fixpoint find_char (n : nat) (c : ascii) (s : string) : option nat :=
  match s with EmptyString => None | String d s => if Ascii.eqb c d then Some n else find_char (S n) c s end.
Definition bits_of (n : nat) : bool * bool * bool * bool * bool * bool :=
  let t k := N.testbit (N.of_nat n) k in (t 5, t 4, t 3, t 2, t 1, t 0)%N.
Definition char_sextet (c : ascii) : option (bool * bool * bool * bool * bool * bool) := bits_of <$> find_char 0 c alphabet.

Fixpoint encode (s : string) : string :=
  match s with
  | String (Ascii a0 a1 a2 a3 a4 a5 a6 a7) (String (Ascii b0 b1 b2 b3 b4 b5 b6 b7) (String (Ascii c0 c1 c2 c3 c4 c5 c6 c7) r)) =>
      String (sextet_char a7 a6 a5 a4 a3 a2) (String (sextet_char a1 a0 b7 b6 b5 b4)
        (String (sextet_char b3 b2 b1 b0 c7 c6) (String (sextet_char c5 c4 c3 c2 c1 c0) (encode r))))
  | String (Ascii a0 a1 a2 a3 a4 a5 a6 a7) (String (Ascii b0 b1 b2 b3 b4 b5 b6 b7) EmptyString) =>
      String (sextet_char a7 a6 a5 a4 a3 a2) (String (sextet_char a1 a0 b7 b6 b5 b4) (String (sextet_char b3 b2 b1 b0 false false) "="))
  | String (Ascii a0 a1 a2 a3 a4 a5 a6 a7) EmptyString =>
      String (sextet_char a7 a6 a5 a4 a3 a2) (String (sextet_char a1 a0 false false false false) "==")
  | EmptyString => EmptyString
  end.

Fixpoint decode (s : string) : option string :=
  match s with
  | EmptyString => Some EmptyString
  | String w (String x (String y (String z r))) =>
      '(a7, a6, a5, a4, a3, a2) ← char_sextet w;
      '(a1, a0, b7, b6, b5, b4) ← char_sextet x;
      let a := Ascii a0 a1 a2 a3 a4 a5 a6 a7 in
      if Ascii.eqb y "=" then Some (String a EmptyString) else
      '(b3, b2, b1, b0, c7, c6) ← char_sextet y;
      let b := Ascii b0 b1 b2 b3 b4 b5 b6 b7 in
      if Ascii.eqb z "=" then Some (String a (String b EmptyString)) else
      '(c5, c4, c3, c2, c1, c0) ← char_sextet z;
      t ← decode r; Some (String a (String b (String (Ascii c0 c1 c2 c3 c4 c5 c6 c7) t)))
  | _ => None
  end.

Lemma sextet_roundtrip a b c d e f :
  char_sextet (sextet_char a b c d e f) = Some (a, b, c, d, e, f) /\ Ascii.eqb (sextet_char a b c d e f) "=" = false
  /\ is_plain (sextet_char a b c d e f) = true.
Proof. by destruct a, b, c, d, e, f. Qed.

Ltac sextets :=
  repeat match goal with
  | |- context [char_sextet (sextet_char ?a ?b ?c ?d ?e ?f)] => rewrite (proj1 (sextet_roundtrip a b c d e f)); cbn [mbind option_bind]
  | |- context [Ascii.eqb (sextet_char ?a ?b ?c ?d ?e ?f) "="] => rewrite (proj1 (proj2 (sextet_roundtrip a b c d e f)))
  | |- context [is_plain (sextet_char ?a ?b ?c ?d ?e ?f)] => rewrite (proj2 (proj2 (sextet_roundtrip a b c d e f)))
  end.

(** Induction three bytes at a time. *)
Lemma string_ind3 (Q : string -> Prop) :
  Q EmptyString -> (forall a, Q (String a EmptyString)) -> (forall a b, Q (String a (String b EmptyString))) ->
  (forall a b c r, Q r -> Q (String a (String b (String c r)))) -> forall s, Q s.
Proof.
  intros H0 H1 H2 H3. fix IH 1. intros [|a [|b [|c r]]]; [exact H0|apply H1|apply H2|]. apply H3, IH.
Qed.

Lemma roundtrip s : decode (encode s) = Some s.
Proof.
  induction s as [|[]|[] []|[] [] [] r IH] using string_ind3; [done| | |]; cbn [encode decode]; sextets; try done.
  cbn [mbind option_bind]. by rewrite IH.
Qed.

Lemma encode_length s : str_len (encode s) = (str_len s + 2) / 3 * 4.
Proof.
  induction s as [|[]|[] []|[] [] [] r IH] using string_ind3; [done|done|done|]. cbn [encode]. rewrite !str_len_cons, IH.
  replace (1 + (1 + (1 + str_len r)) + 2) with (str_len r + 2 + 1 * 3) by lia. rewrite Z.div_add by lia. lia.
Qed.

Lemma encode_plain s : str_all is_plain (encode s) = true.
Proof.
  induction s as [|[]|[] []|[] [] [] r IH] using string_ind3; [done| | |]; cbn [encode str_all]; sextets; done.
Qed.
End Base64.

(** ** A signing platform *)
Module SignExample.

Definition uuid (s : string) : option string := if (String.length s =? 36)%nat && str_all is_plain s then Some s else None.
#[export] Instance toy : Platform := {|
  sha256_hex := ToyPlatform.toy_sha;
  uuid_hyphenated := uuid;
  from_timestamp := @from_timestamp ToyPlatform.toy;
  from_ymd_opt := @from_ymd_opt ToyPlatform.toy;
  base64_decode := Base64.decode;
  parquet_arrow_schema := @parquet_arrow_schema ToyPlatform.toy |}.
#[export] Instance toy_laws : PlatformLaws toy.
Proof. split. exact (@sha256_hex_wf ToyPlatform.toy ToyPlatform.toy_laws). Qed.

Import ToyJson.
Definition record : ProvenanceRecord := ProvenanceExample.record.
Definition bytes : string := unwrap EmptyString (canonical_bytes record).

#[export] Instance toy_sign : SignPlatform := {|
  VerifyingKey := string; SigningKey := string; verifying_key := fun k => k;
  ed_sign := fun k m => k +:+ m; ed_from_slice := Some;
  ed_verify_strict := fun k m s => bool_decide (s = k +:+ m);
  base64_encode := Base64.encode;
  fresh_uuid := fun _ => "99999999-8888-7777-6666-555555555555";
  parse_record := fun b => if bool_decide (b = bytes) then Some record else None;
  parse_signed := fun _ => None |}.

#[export] Instance toy_sign_laws : SignLaws toy toy_sign.
Proof.
  split; cbn.
  - apply Base64.roundtrip.
  - apply Base64.encode_length.
  - apply Base64.encode_plain.
  - done.
  - intros s u. unfold uuid. destruct (_ && _) eqn:E; [|done]. apply andb_true_iff in E as [El Ep]. apply Nat.eqb_eq in El.
    intros [= <-]. split; [unfold str_len; lia|done].
  - done.
  - intros k m. by apply bool_decide_eq_true.
  - destruct ToyPlatform.toy_calendar as [Hr Hd Hn]. split; [exact Hr|exact Hd|exact Hn].
Qed.

Lemma ok_inj {E A} (a b : A) : @Ok E A a = Ok b -> a = b.
Proof. congruence. Qed.

Definition tenant : string := ProvenanceExample.tenant.
Definition plans : list PlannedSignRequest := unwrap [] (plan_sign_requests tenant [record; record] SIGN_REQUEST_BUDGET_BYTES).
Definition no_part : SignRequestPart :=
  {| rp_part_id := pr_part_id record; rp_record_sha256 := EmptyString; rp_record_base64 := None; rp_record_ref := None |}.
Definition part : SignRequestPart := unwrap no_part (part_for_record tenant record).
Definition signer : LocalPartSigner := {| ls_key_id := "owner-key-1"; ls_key := "secret" |}.

Lemma bytes_ok : canonical_bytes record = Ok bytes.
Proof. apply unwrap_ok. vm_compute. reflexivity. Qed.

Lemma part_ok : part_for_record tenant record = Ok part.
Proof. apply unwrap_ok. vm_compute. reflexivity. Qed.

Lemma canonical_ok b : canonical_bytes record = Ok b -> b = bytes.
Proof. intros E. apply (ok_inj (E := ProvError)). rewrite <- E. exact bytes_ok. Qed.

Lemma bytes_small : 0 < str_len bytes <= MAX_PROVENANCE_BYTES.
Proof. vm_compute. split; [reflexivity|discriminate]. Qed.
End SignExample.

Lemma sign_plan_exact_witness :
  let _ := SignExample.toy in contiguous 0 SignExample.plans 2.
Proof.
  apply (sign_plan_exact (SL := SignExample.toy_sign_laws) (WL := ToyJson.toy_writer_laws) SignExample.tenant [SignExample.record; SignExample.record] SIGN_REQUEST_BUDGET_BYTES).
  apply unwrap_ok. vm_compute. reflexivity.
Defined.

Lemma sign_bodies_fit_witness :
  Forall (fun q => body_bytes (W := ToyJson.toy_writer) (pq_request q) <= SIGN_REQUEST_BUDGET_BYTES) SignExample.plans.
Proof.
  apply (sign_bodies_fit (PL := SignExample.toy_laws) (SL := SignExample.toy_sign_laws) (WL := ToyJson.toy_writer_laws) SignExample.tenant [SignExample.record; SignExample.record]).
  - vm_compute. reflexivity.
  - assert (forall b, canonical_bytes (W := ToyJson.toy_writer) SignExample.record = Ok b -> str_len b <= u64_max) as Hb.
    { intros b ->%SignExample.canonical_ok. pose proof SignExample.bytes_small. unfold MAX_PROVENANCE_BYTES, u64_max in *. lia. }
    repeat (constructor; [exact Hb|]). constructor.
  - apply unwrap_ok. vm_compute. reflexivity.
Defined.

Lemma owner_check_sound_witness :
  let _ := SignExample.toy in record_validate SignExample.record = Ok tt /\ pr_part_id SignExample.record = rp_part_id SignExample.part.
Proof.
  cbv zeta. destruct (owner_check_sound (P := SignExample.toy) (W := ToyJson.toy_writer) (SP := SignExample.toy_sign)
    SignExample.tenant SignExample.part None "owner-key-1" CellBearer SignExample.record) as (Hv & _ & Hp & _).
  - vm_compute. reflexivity.
  - split; [exact Hv|exact Hp].
Defined.

Lemma local_sign_roundtrip_witness :
  exists sigs, local_sign (P := SignExample.toy) (W := ToyJson.toy_writer) SignExample.signer 0 SignExample.tenant [SignExample.record] = Ok sigs
    /\ Forall2 (fun r s => assemble (P := SignExample.toy) (W := ToyJson.toy_writer) r s (trusted SignExample.signer) = Ok {| sp_record := r; sp_signature := s |}) [SignExample.record] sigs.
Proof.
  apply (local_sign_roundtrip (PL := SignExample.toy_laws) (SL := SignExample.toy_sign_laws) (WL := ToyJson.toy_writer_laws)).
  - cbn. unfold SIGN_BATCH_MAX. lia.
  - constructor; [exists SignExample.part; exact SignExample.part_ok|constructor].
  - constructor; [|constructor]. split; [reflexivity|]. split; [intros c Hc; injection Hc as <-; cbn; lia|].
    intros b ->%SignExample.canonical_ok. split; [exact SignExample.bytes_small|]. cbn. by rewrite bool_decide_eq_true_2.
Defined.
