(* ===== verification/CountRecord.v ===== *)
(** * CountRecord: the owner-signed count record of a published part

    Models [parts/count_record.rs]: the names of the two count files, the record and its
    bindings to the live part reference, and the signed envelope. The record's signature
    domain is not the provenance domain; [serde_json::from_slice] is [parse_count]. *)
From S2P Require Import Prelude Platform Format PartTypes Json ProvenanceTypes Provenance Signing SigningExample.

#[local] Arguments str_take : simpl never.

Record CountRecord := {
  cr_format : string; cr_tenant_id : string; cr_signer_key_id : string; cr_part_id : PartId; cr_level : Level;
  cr_event_hour : Z; cr_provenance_sha256 : string; cr_rows : Z; cr_min_time_us : Z; cr_max_time_us : Z;
  cr_coverage_mask : Z; cr_count_rows : Z; cr_file : FileDigest; cr_created_at_ms : Z }.
Record SignedCountRecord := { sc_record : CountRecord; sc_signature : Ed25519Signature }.

#[export] Instance value_CountRecord : ToValue CountRecord := fun r => obj [
  ("format", req (cr_format r)); ("tenant_id", req (cr_tenant_id r)); ("signer_key_id", req (cr_signer_key_id r));
  ("part_id", req (cr_part_id r)); ("level", req (cr_level r)); ("event_hour", req (cr_event_hour r));
  ("provenance_sha256", req (cr_provenance_sha256 r)); ("rows", req (cr_rows r)); ("min_time_us", req (cr_min_time_us r));
  ("max_time_us", req (cr_max_time_us r)); ("coverage_mask", req (cr_coverage_mask r));
  ("count_rows", req (cr_count_rows r)); ("file", req (cr_file r)); ("created_at_ms", req (cr_created_at_ms r))].
#[export] Instance value_SignedCountRecord : ToValue SignedCountRecord := fun s => obj [
  ("record", req (sc_record s)); ("signature", req (sc_signature s))].

#[export] Instance inj_CountRecord : ToValueInj CountRecord.
Proof. record_inj ["format"; "tenant_id"; "signer_key_id"; "part_id"; "level"; "event_hour"; "provenance_sha256"; "rows"; "min_time_us"; "max_time_us"; "coverage_mask"; "count_rows"; "file"; "created_at_ms"]. Qed.

Definition COUNT_RECORD_FORMAT : string := "nano.part.counts.v2".
Definition COUNT_RECORD_FILE : string := "counts-v2.json".
Definition COUNT_SIGNATURE_DOMAIN : string := "nano-lake-part-counts-v2" +:+ String (ascii_of_N 0) EmptyString.
Definition MAX_COUNT_RECORD_BYTES : Z := 16 * 1024.
Definition MAX_SIGNED_COUNT_RECORD_BYTES : Z := 32 * 1024.
(** [(1 << entity_counts::KINDS.len()) - 1] of its four kinds. *)
Definition ALL_KINDS : Z := Z.shiftl 1 4 - 1.

Inductive CountError :=
| CountDigest | CountFormat | CountKeyId | CountLevel | CountDayHour | CountProvenance | CountNoRows | CountBounds
| CountCoverage | CountFileSize | CountFileName
| CountOtherTenant | CountOtherPart | CountOtherProvenance | CountOtherBounds
| CountNotCanonical (e : JsonError) | CountTooLong | EnvelopeTooLong | CountNotParsed | CountEnvelopeForm
| CountSigner | CountSignature (e : SignError).

(** [counts-v2-{first 16 hex of sha256}.parquet] *)
Definition count_file_name (sha256 : string) : result CountError string :=
  _ ← ensure (is_sha256_hex sha256) CountDigest;
  Ok ("counts-v2-" +:+ str_take 16 sha256 +:+ ".parquet").

Definition is_count_file (name : string) : bool :=
  bool_decide (name = COUNT_RECORD_FILE)
  || match (rest ← strip_prefix "counts-v2-" name; strip_suffix ".parquet" rest) with
     | Some hex => (String.length hex =? 16)%nat && str_all is_hex_lower hex
     | None => false
     end.

(** [CountRecord::validate] *)
Definition count_validate (self : CountRecord) : result CountError unit :=
  _ ← ensure (bool_decide (cr_format self = COUNT_RECORD_FORMAT)) CountFormat;
  _ ← ensure (valid_key_id (cr_signer_key_id self)) CountKeyId;
  _ ← ensure (match cr_level self with Minute | Hour | Day => true | L0 => false end) CountLevel;
  _ ← ensure (negb (bool_decide (cr_level self = Day)) || (cr_event_hour self mod 24 =? 0)) CountDayHour;
  _ ← ensure (is_sha256_hex (cr_provenance_sha256 self)) CountProvenance;
  _ ← ensure ((0 <? cr_rows self) && (0 <? cr_count_rows self)) CountNoRows;
  _ ← ensure (cr_min_time_us self <=? cr_max_time_us self) CountBounds;
  _ ← ensure ((0 <? cr_coverage_mask self) && (cr_coverage_mask self <=? ALL_KINDS)) CountCoverage;
  _ ← ensure ((0 <? fd_bytes (cr_file self)) && (fd_bytes (cr_file self) <=? MAX_OBJECT_BYTES)) CountFileSize;
  name ← count_file_name (fd_sha256 (cr_file self));
  ensure (bool_decide (fd_name (cr_file self) = name)) CountFileName.

(** [CountRecord::binds] *)
Definition count_binds (self : CountRecord) (part : PartRef) (tenant_id : string) : result CountError unit :=
  _ ← ensure (bool_decide (cr_tenant_id self = tenant_id)) CountOtherTenant;
  _ ← ensure (bool_decide (cr_part_id self = part_id part) && bool_decide (cr_level self = level part)
              && (cr_event_hour self =? event_hour part)) CountOtherPart;
  _ ← ensure (bool_decide (cr_provenance_sha256 self = provenance_sha256 part)) CountOtherProvenance;
  ensure ((cr_rows self =? rows part) && (cr_min_time_us self =? min_time_us part)
          && (cr_max_time_us self =? max_time_us part)) CountOtherBounds.

(** [CountRecord::new] *)
Definition CountRecord_new (part : PartRef) (tenant_id signer_key_id : string) (coverage_mask count_rows : Z)
    (file : FileDigest) (created_at_ms : Z) : result CountError CountRecord :=
  let record := {|
    cr_format := COUNT_RECORD_FORMAT; cr_tenant_id := tenant_id; cr_signer_key_id := signer_key_id;
    cr_part_id := part_id part; cr_level := level part; cr_event_hour := event_hour part;
    cr_provenance_sha256 := provenance_sha256 part; cr_rows := rows part; cr_min_time_us := min_time_us part;
    cr_max_time_us := max_time_us part; cr_coverage_mask := coverage_mask; cr_count_rows := count_rows;
    cr_file := file; cr_created_at_ms := created_at_ms |} in
  _ ← count_validate record;
  _ ← count_binds record part tenant_id;
  Ok record.

Lemma count_binds_inv r part tenant :
  count_binds r part tenant = Ok tt ->
  cr_tenant_id r = tenant /\ cr_part_id r = part_id part /\ cr_level r = level part /\ cr_event_hour r = event_hour part
  /\ cr_provenance_sha256 r = provenance_sha256 part /\ cr_rows r = rows part
  /\ cr_min_time_us r = min_time_us part /\ cr_max_time_us r = max_time_us part.
Proof.
  unfold count_binds. intros E. inv_ok. rewrite !andb_true_iff, !bool_decide_eq_true, !Z.eqb_eq in *. naive_solver.
Qed.

Lemma CountRecord_new_inv part tenant key mask n file t record :
  CountRecord_new part tenant key mask n file t = Ok record ->
  count_validate record = Ok tt /\ count_binds record part tenant = Ok tt /\ cr_file record = file.
Proof.
  unfold CountRecord_new. intros E. apply bind_ok_inv in E as ([] & Hv & E). apply bind_ok_inv in E as ([] & Hb & [= <-]). done.
Qed.
Section count.
Context `{P : Platform} {W : JsonWriter} {SP : SignPlatform}.
(** [serde_json::from_slice::<SignedCountRecord>] *)
Context (parse_count : string -> option SignedCountRecord).

(** [CountRecord::canonical_bytes] *)
Definition count_canonical_bytes (self : CountRecord) : result CountError string :=
  bytes ← lift_err CountNotCanonical (canonical_json_bytes (to_value self));
  _ ← ensure (str_len bytes <=? MAX_COUNT_RECORD_BYTES) CountTooLong;
  Ok bytes.

(** [CountRecord::signing_message] *)
Definition count_signing_message (self : CountRecord) : result CountError string :=
  bytes ← count_canonical_bytes self; Ok (COUNT_SIGNATURE_DOMAIN +:+ bytes).

(** [SignedCountRecord::to_bytes] *)
Definition count_to_bytes (self : SignedCountRecord) : result CountError string :=
  bytes ← lift_err CountNotCanonical (canonical_json_bytes (to_value self));
  _ ← ensure (str_len bytes <=? MAX_SIGNED_COUNT_RECORD_BYTES) EnvelopeTooLong;
  Ok bytes.

(** [SignedCountRecord::assemble] *)
Definition count_assemble (record : CountRecord) (signature : Ed25519Signature) (keys : gmap string VerifyingKey) :
    result CountError SignedCountRecord :=
  _ ← count_validate record;
  _ ← ensure (bool_decide (sg_key_id signature = cr_signer_key_id record)) CountSigner;
  message ← count_signing_message record;
  _ ← lift_err CountSignature (keys_verify keys signature message);
  Ok {| sc_record := record; sc_signature := signature |}.

(** [SignedCountRecord::verify_bytes] *)
Definition count_verify_bytes (bytes : string) (part : PartRef) (tenant_id : string) (keys : gmap string VerifyingKey) :
    result CountError SignedCountRecord :=
  _ ← ensure (negb (MAX_SIGNED_COUNT_RECORD_BYTES <? str_len bytes)) EnvelopeTooLong;
  signed ← of_option (parse_count bytes) CountNotParsed;
  canonical ← count_to_bytes signed;
  _ ← ensure (bool_decide (canonical = bytes)) CountEnvelopeForm;
  _ ← count_validate (sc_record signed);
  _ ← count_binds (sc_record signed) part tenant_id;
  _ ← ensure (bool_decide (sg_key_id (sc_signature signed) = cr_signer_key_id (sc_record signed))) CountSigner;
  message ← count_signing_message (sc_record signed);
  _ ← lift_err CountSignature (keys_verify keys (sc_signature signed) message);
  Ok signed.

(** ** Facts *)

(** The envelope of a record that was created, signed and written reads back for its part. *)
Lemma count_verify_complete record signed part tenant keys bytes s :
  count_validate record = Ok tt -> count_binds record part tenant = Ok tt ->
  count_assemble record s keys = Ok signed -> count_to_bytes signed = Ok bytes -> parse_count bytes = Some signed ->
  count_verify_bytes bytes part tenant keys = Ok signed.
Proof.
  intros Hv Hb Ha Ht Hp. unfold count_assemble in Ha.
  apply bind_ok_inv in Ha as ([] & _ & Ha). apply bind_ok_inv in Ha as ([] & Hk & Ha).
  apply bind_ok_inv in Ha as (message & Hm & Ha). apply bind_ok_inv in Ha as ([] & Hs & Ha).
  injection Ha as <-. pose proof Ht as Hl. unfold count_to_bytes in Hl.
  apply bind_ok_inv in Hl as (b & _ & Hl). apply bind_ok_inv in Hl as ([] & Hl & [= ->]). apply ensure_ok_inv, Z.leb_le in Hl.
  unfold count_verify_bytes. eapply bind_intro; [apply ensure_intro, negb_true_iff, Z.ltb_ge, Hl|].
  eapply bind_intro; [by apply of_option_intro|]. eapply bind_intro; [exact Ht|].
  eapply bind_intro; [apply ensure_intro; by apply bool_decide_eq_true_2|]. eapply bind_intro; [exact Hv|].
  eapply bind_intro; [exact Hb|]. eapply bind_intro; [exact Hk|]. eapply bind_intro; [exact Hm|].
  eapply bind_intro; [exact Hs|reflexivity].
Qed.

End count.

(** The two file names a part directory may hold are the ones [count_file_name] writes. *)
Lemma count_file_name_admitted sha name : count_file_name sha = Ok name -> is_count_file name = true.
Proof.
  unfold count_file_name. intros E. inv_ok. unfold is_count_file. rewrite strip_prefix_app. cbn [mbind option_bind].
  rewrite strip_suffix_app. cbv iota beta. match goal with Hs : is_sha256_hex _ = true |- _ => apply andb_true_iff in Hs as [Hl Hh] end.
  apply Nat.eqb_eq in Hl. rewrite str_take_length by lia.
  rewrite <- (str_take_drop 16 sha), str_all_app in Hh. apply andb_true_iff in Hh as [-> _]. by rewrite orb_true_r.
Qed.

(** ** Statements *)

(** A signature of one kind of record never serves for the other, and never for another record: the
    messages of provenance records and of count records are pairwise distinct, across the two kinds
    and within each. *)
Theorem signing_messages_distinct `{P : Platform} {W : JsonWriter} {WL : JsonLaws W} (r r' : ProvenanceRecord) (c c' : CountRecord) m m' :
  (signing_message r = Ok m -> count_signing_message c = Ok m' -> m <> m')
  /\ (signing_message r = Ok m -> signing_message r' = Ok m -> r = r')
  /\ (count_signing_message c = Ok m -> count_signing_message c' = Ok m -> c = c').
Proof.
  unfold signing_message, count_signing_message, count_canonical_bytes, canonical_bytes. split; [|split]; intros E1 E2.
  - apply bind_ok_inv in E1 as (b & _ & [= <-]), E2 as (b' & _ & [= <-]). discriminate.
  - apply bind_ok_inv in E1 as (b & E1 & [= <-]), E2 as (b' & E2 & E). apply Ok_inj, (inj (String.app _)) in E. subst b'.
    destruct (canonical_json_bytes (to_value r)) eqn:F1; [|done]. destruct (canonical_json_bytes (to_value r')) eqn:F2; [|done].
    apply Ok_inj in E1, E2. subst. by eapply to_value_inj, canonical_json_inj.
  - apply bind_ok_inv in E1 as (b & E1 & [= <-]), E2 as (b' & E2 & E). apply Ok_inj, (inj (String.app _)) in E. subst b'.
    apply bind_ok_inv in E1 as (b1 & E1 & F1), E2 as (b2 & E2 & F2).
    apply bind_ok_inv in F1 as ([] & _ & F1), F2 as ([] & _ & F2). apply Ok_inj in F1, F2. subst b1 b2.
    apply lift_err_ok_inv in E1, E2. by eapply to_value_inj, canonical_json_inj.
Qed.

(** Count authority: a count record made for a live part and signed by a trusted key is read back from
    its stored bytes for that part, and whatever bytes are accepted for a part are accepted for no part
    that differs in tenant, id, level, hour, provenance digest, rows or time bounds. *)
Theorem count_record_authority `{P : Platform} {W : JsonWriter} {SP : SignPlatform} parse_count part tenant keys :
  (forall key mask n file t record s signed bytes,
     CountRecord_new part tenant key mask n file t = Ok record -> count_assemble record s keys = Ok signed ->
     count_to_bytes signed = Ok bytes -> parse_count bytes = Some signed ->
     count_verify_bytes parse_count bytes part tenant keys = Ok signed
     /\ is_count_file (fd_name (cr_file (sc_record signed))) = true)
  /\ (forall bytes signed part' tenant' keys' signed',
       count_verify_bytes parse_count bytes part tenant keys = Ok signed ->
       count_verify_bytes parse_count bytes part' tenant' keys' = Ok signed' ->
       signed = signed' /\ tenant = tenant' /\ part_id part = part_id part' /\ level part = level part'
       /\ event_hour part = event_hour part' /\ provenance_sha256 part = provenance_sha256 part'
       /\ rows part = rows part' /\ min_time_us part = min_time_us part' /\ max_time_us part = max_time_us part').
Proof.
  split.
  - intros key mask n file t record s signed bytes Hn Ha Ht Hp. destruct (CountRecord_new_inv _ _ _ _ _ _ _ _ Hn) as (Hv & Hb & Ef).
    split; [by eapply count_verify_complete|]. unfold count_assemble in Ha. inv_sign. cbn [sc_record].
    unfold count_validate in Hv. do 9 apply bind_ok_inv in Hv as (? & _ & Hv). apply bind_ok_inv in Hv as (name & Hname & Hv).
    apply ensure_ok_inv, bool_decide_eq_true in Hv as ->. by eapply count_file_name_admitted.
  - intros bytes signed part' tenant' keys' signed' H1 H2. unfold count_verify_bytes in *. inv_sign.
    match goal with A : parse_count _ = Some ?x, B : parse_count _ = Some ?y |- _ => rewrite A in B; injection B as <- end.
    repeat match goal with Hx : count_binds _ _ _ = Ok _ |- _ => apply count_binds_inv in Hx as (? & ? & ? & ? & ? & ? & ? & ?) end.
    split_and!; congruence.
Qed.

(** ** A signed count record *)
Module CountExample.
Import ToyJson SignExample.

Definition part : PartRef := {|
  request_hours := None; part_id := pr_part_id record; level := Hour; event_hour := 5; event_day := None; rows := 10;
  min_time_us := 0; max_time_us := 9; schema_fingerprint := ProvenanceExample.digest 4; provenance_sha256 := ProvenanceExample.digest 7;
  merkle_root := ProvenanceExample.digest 5; sorted := true; data_bytes := 100; row_groups := 1; data_files := 1 |}.
Definition file : FileDigest := {|
  fd_name := unwrap EmptyString (count_file_name (ProvenanceExample.digest 8)); fd_bytes := 40; fd_sha256 := ProvenanceExample.digest 8 |}.
Definition count : CountRecord := {|
  cr_format := COUNT_RECORD_FORMAT; cr_tenant_id := tenant; cr_signer_key_id := ls_key_id signer; cr_part_id := part_id part;
  cr_level := Hour; cr_event_hour := 5; cr_provenance_sha256 := provenance_sha256 part; cr_rows := 10; cr_min_time_us := 0;
  cr_max_time_us := 9; cr_coverage_mask := 15; cr_count_rows := 3; cr_file := file; cr_created_at_ms := 77 |}.
Definition message : string := unwrap EmptyString (count_signing_message count).
Definition signature : Ed25519Signature := {|
  sg_alg := "ed25519"; sg_key_id := ls_key_id signer; sg_sig := base64_encode (ed_sign (ls_key signer) message) |}.
Definition signed : SignedCountRecord := {| sc_record := count; sc_signature := signature |}.
Definition bytes : string := unwrap EmptyString (count_to_bytes signed).
Definition parse (b : string) : option SignedCountRecord := if bool_decide (b = bytes) then Some signed else None.
Definition provenance_message : string := unwrap EmptyString (signing_message record).

Lemma assembled : count_assemble count signature (trusted signer) = Ok signed.
Proof. vm_compute. reflexivity. Qed.
End CountExample.

Lemma signing_messages_distinct_witness : CountExample.provenance_message <> CountExample.message.
Proof.
  apply (proj1 (signing_messages_distinct (P := SignExample.toy) (W := ToyJson.toy_writer) (WL := ToyJson.toy_writer_laws)
    SignExample.record SignExample.record CountExample.count CountExample.count _ _)); apply unwrap_ok; vm_compute; reflexivity.
Defined.

Lemma count_record_authority_witness :
  count_verify_bytes (P := SignExample.toy) (W := ToyJson.toy_writer) (SP := SignExample.toy_sign) CountExample.parse CountExample.bytes
    CountExample.part SignExample.tenant (trusted SignExample.signer) = Ok CountExample.signed
  /\ is_count_file (fd_name (cr_file (sc_record CountExample.signed))) = true.
Proof.
  apply (proj1 (count_record_authority (P := SignExample.toy) (W := ToyJson.toy_writer) (SP := SignExample.toy_sign)
    CountExample.parse CountExample.part SignExample.tenant (trusted SignExample.signer))
    (ls_key_id SignExample.signer) 15 3 CountExample.file 77 CountExample.count CountExample.signature).
  - vm_compute. reflexivity.
  - exact CountExample.assembled.
  - apply unwrap_ok. vm_compute. reflexivity.
  - unfold CountExample.parse. by rewrite bool_decide_eq_true_2.
Defined.
