(* ===== verification/GcRequest.v ===== *)
(** * GcRequest: what a lake-part delete may name

    Models [lake_part_gc/request.rs]: the parsers of part-file keys and of bronze quarantine
    keys, and [LakePartDeleteRequest] with its validation, canonical JSON and permit id. The
    calendar is the [Platform]'s; the anchored regular expressions are [matches] over their
    character classes. *)
From S2P Require Import Prelude Platform Format PartTypes Json ProvenanceTypes Provenance Signing CountRecord.

#[local] Arguments str_take : simpl never.
#[local] Arguments str_drop : simpl never.

Definition MIN_GRACE_SECONDS : Z := 3600.
Definition MAX_GRACE_SECONDS : Z := 7 * 86400.
Definition MIN_ORPHAN_AGE_SECONDS : Z := 176400.
Definition MAX_ORPHAN_AGE_SECONDS : Z := 30 * 86400.
Definition ORPHAN_ID_MEMORY_MARGIN_MS : Z := 3600000.
Definition RETENTION_DAYS : list Z := [30; 90; 180; 365].
Definition MAX_KEY_BYTES : Z := 1024.
Definition QUARANTINE_DIR : string := "log/checkpoints/bronze-quarantine-v1/".
Definition QUARANTINE_MIN_AGE_SECONDS : Z := 8 * 86400.
Definition PROVENANCE_FILE : string := "provenance.json".
Definition PART_FILE_NAMES : list string :=
  [PROVENANCE_FILE; "partials/rollup.parquet"; "partials/prevalence.parquet"; "partials/entity_ranges.parquet"; "partials/risk.parquet"].
Definition OPERATION : string := "lake_part_delete".

(** ** The regular expressions *)

(** [[0-9a-f]{8}-[0-9a-f]{4}-4[0-9a-f]{3}-[89ab][0-9a-f]{3}-[0-9a-f]{12}] *)
Definition uuid_v4_classes : list (ascii -> bool) :=
  let hex n := replicate n is_hex_lower in let dash := [Ascii.eqb "-"] in
  hex 8%nat ++ dash ++ hex 4%nat ++ dash ++ [Ascii.eqb "4"] ++ hex 3%nat ++ dash
  ++ [fun c => Ascii.eqb "8" c || Ascii.eqb "9" c || Ascii.eqb "a" c || Ascii.eqb "b" c] ++ hex 3%nat ++ dash ++ hex 12%nat.
Definition is_uuid_v4 (s : string) : bool := matches uuid_v4_classes s.

Definition slug_end (c : ascii) : bool := is_digit c || ((97 <=? byte_val c) && (byte_val c <=? 122)).
(** [^[a-z0-9](?:[a-z0-9-]*[a-z0-9])?$] *)
Definition is_slug (s : string) : bool :=
  match s with
  | EmptyString => false
  | String c _ =>
      slug_end c && str_all (fun c => slug_end c || Ascii.eqb c "-") s
      && match str_get (String.length s - 1) s with Some d => slug_end d | None => false end
  end.

(** A quote, one or more characters that are neither quotes nor controls, a quote. *)
Definition is_strong_etag (s : string) : bool :=
  match (rest ← strip_prefix (String quote EmptyString) s; strip_suffix (String quote EmptyString) rest) with
  | Some tag =>
      (0 <? str_len tag)
      && str_all (fun c => negb (Ascii.eqb c quote) && negb (byte_val c <? 32) && negb (byte_val c =? 127)) tag
  | None => false
  end.

(** ** Part-file keys *)

Record PartFileKey := {
  fk_tenant_uuid : string;
  fk_level : string;
  (** [path_hour]: the date path as a UTC hour; [fk_days] counts days since 1970-01-01 *)
  fk_year : Z; fk_month : Z; fk_day_of_month : Z; fk_hour : Z; fk_days : Z;
  fk_part_id : PartId;
  fk_file : string }.

(** [path_hour.timestamp_millis()] *)
Definition path_hour_ms (self : PartFileKey) : Z := (fk_days self * 24 + fk_hour self) * 3600000.
(** [path_hour.format("%Y-%m-%d")] of the four-digit years [parse_part_file_key] admits. *)
Definition fk_day (self : PartFileKey) : string :=
  fmt_pad 4 (fk_year self) +:+ "-" +:+ fmt_pad 2 (fk_month self) +:+ "-" +:+ fmt_pad 2 (fk_day_of_month self).
Definition is_provenance (self : PartFileKey) : bool := bool_decide (fk_file self = PROVENANCE_FILE).

(** [decimal(value, width)] *)
Definition decimal (value : string) (width : nat) : option Z :=
  if (String.length value =? width)%nat && str_all is_digit value then parse_unsigned 4294967295 value else None.

Definition indexed_families : list (string * string) :=
  [("data-", ".parquet"); ("tokens-", ".nti"); ("uids-", ".json"); ("entities-", ".json"); ("locators-", ".json"); ("ranges-", ".json")].
Definition indexed_file (file : string) : bool :=
  existsb (fun '(prefix, suffix) =>
    match (s ← strip_prefix prefix file; s ← strip_suffix suffix s; decimal s 5%nat) with
    | Some i => i <? MAX_DATA_FILES
    | None => false
    end) indexed_families.
Definition pending_file (file : string) : bool :=
  match (s ← strip_prefix "provenance.pending." file; strip_suffix ".json" s) with Some s => is_sha256_hex s | None => false end.
(** The closed set of file names. *)
Definition part_file_name_ok (file : string) : bool :=
  indexed_file file || pending_file file || is_count_file file || bool_decide (file ∈ PART_FILE_NAMES).

Definition is_ascii (c : ascii) : bool := byte_val c <? 128.

Section keys.
Context `{Platform}.

Definition parse_part_file_key (key : string) : option PartFileKey :=
  if MAX_KEY_BYTES <? str_len key then None else
  rest ← strip_prefix "lake/parts/v1/tenant=" key;
  '(tenant, rest) ← split_once_str "/parts/" rest;
  if negb (is_uuid_v4 tenant) then None else
  match splitn 7 "/" rest with
  | level :: yyyy :: mm :: dd :: hh :: fields =>
      if negb (bool_decide (level ∈ ["l0"; "m"; "h"; "d"])) then None else
      year ← decimal yyyy 4%nat;
      month ← decimal mm 2%nat;
      day ← decimal dd 2%nat;
      hour ← decimal hh 2%nat;
      if (year <? 1970) || (bool_decide (level = "d") && negb (hour =? 0)) then None else
      match fields with
      | id :: fields =>
          if negb (str_all is_ascii id) then None else
          part_id ← match PartId_parse id with Ok part_id => Some part_id | Err _ => None end;
          match fields with
          | file :: _ =>
              if negb (part_file_name_ok file) then None else
              days ← from_ymd_opt year month day;
              (* [and_hms_opt(hour, 0, 0)] *)
              if 24 <=? hour then None else
              Some {| fk_tenant_uuid := tenant; fk_level := level; fk_year := year; fk_month := month; fk_day_of_month := day;
                      fk_hour := hour; fk_days := days; fk_part_id := part_id; fk_file := file |}
          | [] => None
          end
      | [] => None
      end
  | _ => None
  end.

(** Any key under a tenant's [log/] family. *)
Definition is_log_key (key : string) : bool :=
  match (rest ← strip_prefix "lake/parts/v1/tenant=" key; split_once "/" rest) with
  | Some (_, rest) => bool_decide (rest = "log") || starts_with "log/" rest
  | None => false
  end.

(** ** Bronze quarantine keys *)

Inductive QuarantineKeyKind := Object (id : string) | QRecord (written_ms : Z).
Record QuarantineKey := { qk_tenant_uuid : string; qk_kind : QuarantineKeyKind }.

Definition quarantine_record_name (name : string) : bool :=
  (String.length name =? 35)%nat && str_all is_digit (str_take 13 name) && bool_decide (str_get 13 name = Some "-"%char)
  && str_all is_hex_lower (str_take 16 (str_drop 14 name)) && bool_decide (str_drop 30 name = ".json").

Definition parse_quarantine_key (key : string) : option QuarantineKey :=
  if MAX_KEY_BYTES <? str_len key then None else
  rest ← strip_prefix "lake/parts/v1/tenant=" key;
  '(tenant, rest) ← split_at_checked 36 rest;
  if negb (is_uuid_v4 tenant) then None else
  rest ← strip_prefix "/" rest;
  rest ← strip_prefix QUARANTINE_DIR rest;
  match strip_prefix "objects/" rest with
  | Some name =>
      id ← strip_suffix ".parquet" name;
      if negb (is_sha256_hex id) then None else Some {| qk_tenant_uuid := tenant; qk_kind := Object id |}
  | None =>
      name ← strip_prefix "records/" rest;
      if negb (quarantine_record_name name) then None else
      written_ms ← Prelude.parse_signed i64_min i64_max (str_take 13 name);
      Some {| qk_tenant_uuid := tenant; qk_kind := QRecord written_ms |}
  end.
End keys.

(** ** Delete requests *)

Module LakePartDeleteReason.
Inductive t := Superseded | Orphan | Retention | QuarantineExpired.
Definition as_str (r : t) : string :=
  match r with Superseded => "superseded" | Orphan => "orphan" | Retention => "retention" | QuarantineExpired => "quarantine_expired" end.
#[export] Instance eq_dec : EqDecision t.
Proof. solve_decision. Defined.
End LakePartDeleteReason.
#[export] Existing Instance LakePartDeleteReason.eq_dec.

Record LakePartDeleteRequest := {
  dr_schema_version : Z; dr_operation : string; dr_tenant_id : string; dr_tenant_uuid : string; dr_bucket : string; dr_key : string;
  dr_strong_etag : string; dr_content_length : Z; dr_reason : LakePartDeleteReason.t; dr_removal_seq : option Z;
  dr_removal_entry_sha256 : option string; dr_grace_seconds : option Z; dr_orphan_min_age_seconds : option Z;
  dr_retention_day : option string; dr_retention_days : option Z; dr_quarantine_min_age_seconds : option Z }.

#[export] Instance value_LakePartDeleteReason : ToValue LakePartDeleteReason.t := fun r => JString (LakePartDeleteReason.as_str r).
#[export] Instance inj_LakePartDeleteReason : ToValueInj LakePartDeleteReason.t.
Proof. by intros [] []. Qed.
#[export] Instance value_LakePartDeleteRequest : ToValue LakePartDeleteRequest := fun r => obj [
  ("schema_version", req (dr_schema_version r)); ("operation", req (dr_operation r)); ("tenant_id", req (dr_tenant_id r));
  ("tenant_uuid", req (dr_tenant_uuid r)); ("bucket", req (dr_bucket r)); ("key", req (dr_key r)); ("strong_etag", req (dr_strong_etag r));
  ("content_length", req (dr_content_length r)); ("reason", req (dr_reason r)); ("removal_seq", skip_none (dr_removal_seq r));
  ("removal_entry_sha256", skip_none (dr_removal_entry_sha256 r)); ("grace_seconds", skip_none (dr_grace_seconds r));
  ("orphan_min_age_seconds", skip_none (dr_orphan_min_age_seconds r)); ("retention_day", skip_none (dr_retention_day r));
  ("retention_days", skip_none (dr_retention_days r)); ("quarantine_min_age_seconds", skip_none (dr_quarantine_min_age_seconds r))].
#[export] Instance inj_LakePartDeleteRequest : ToValueInj LakePartDeleteRequest.
Proof. record_inj ["schema_version"; "operation"; "tenant_id"; "tenant_uuid"; "bucket"; "key"; "strong_etag"; "content_length"; "reason"; "removal_seq"; "removal_entry_sha256"; "grace_seconds"; "orphan_min_age_seconds"; "retention_day"; "retention_days"; "quarantine_min_age_seconds"]. Qed.

Definition tenant_bucket (tenant_uuid : string) : string := "nano-shared-r2-" +:+ tenant_uuid.

(** [LakePartDeleteRequest::base] *)
Definition request_base (tenant_id tenant_uuid key strong_etag : string) (content_length : Z) (reason : LakePartDeleteReason.t) :
    LakePartDeleteRequest := {|
  dr_schema_version := 1; dr_operation := OPERATION; dr_tenant_id := tenant_id; dr_tenant_uuid := tenant_uuid;
  dr_bucket := tenant_bucket tenant_uuid; dr_key := key; dr_strong_etag := strong_etag; dr_content_length := content_length;
  dr_reason := reason; dr_removal_seq := None; dr_removal_entry_sha256 := None; dr_grace_seconds := None;
  dr_orphan_min_age_seconds := None; dr_retention_day := None; dr_retention_days := None; dr_quarantine_min_age_seconds := None |}.

Inductive DeleteError :=
| WrongSchema | TenantSlug | TenantUuid | TenantBucket | EtagOrLength | KeyLength | QuarantineKeyShape | OutsideTenant | QuarantineFields
| QuarantineOnly | LogKey | PartKeyShape | SupersededFields | SupersededProvenance | OrphanFields | QuarantineUnreachable
| RetentionFields | RetentionDay.

(** [o.is_some_and(p)] *)
Definition some_and {A} (o : option A) (p : A -> bool) : bool := match o with Some a => p a | None => false end.
(** [(lo..=hi).contains(&z)] *)
Definition between (lo hi z : Z) : bool := (lo <=? z) && (z <=? hi).

Section validate.
Context `{Platform}.

Definition removal_ok (self : LakePartDeleteRequest) : bool :=
  some_and (dr_removal_seq self) (fun seq => 1 <=? seq)
  && some_and (dr_removal_entry_sha256 self) (fun sha => is_sha256_hex sha && negb (bool_decide (sha = GENESIS_PREV)))
  && some_and (dr_grace_seconds self) (between MIN_GRACE_SECONDS MAX_GRACE_SECONDS).

(** The per-reason fields of a part-file delete. *)
Definition validate_reason (self : LakePartDeleteRequest) (key : PartFileKey) (trusted_local : bool) : result DeleteError unit :=
  match dr_reason self with
  | LakePartDeleteReason.Superseded =>
      _ ← ensure (negb (negb (removal_ok self) || is_some (dr_orphan_min_age_seconds self) || is_some (dr_retention_day self)
                        || is_some (dr_retention_days self))) SupersededFields;
      ensure (negb (is_provenance key)) SupersededProvenance
  | LakePartDeleteReason.Orphan =>
      ensure (negb (is_some (dr_removal_seq self) || is_some (dr_removal_entry_sha256 self) || is_some (dr_grace_seconds self)
                    || is_some (dr_retention_day self) || is_some (dr_retention_days self)
                    || negb (some_and (dr_orphan_min_age_seconds self) (between MIN_ORPHAN_AGE_SECONDS MAX_ORPHAN_AGE_SECONDS)))) OrphanFields
  | LakePartDeleteReason.QuarantineExpired => Err QuarantineUnreachable
  | LakePartDeleteReason.Retention =>
      _ ← ensure (negb (negb (removal_ok self) || is_some (dr_orphan_min_age_seconds self)
                        || negb (some_and (dr_retention_days self) (fun days =>
                             bool_decide (days ∈ RETENTION_DAYS) || (trusted_local && between 1 3650 days))))) RetentionFields;
      ensure (bool_decide (dr_retention_day self = Some (fk_day key))) RetentionDay
  end.

(** [LakePartDeleteRequest::validate_with_local] *)
Definition validate_with_local (self : LakePartDeleteRequest) (trusted_local : bool) : result DeleteError unit :=
  _ ← ensure (negb (negb (dr_schema_version self =? 1) || negb (bool_decide (dr_operation self = OPERATION)))) WrongSchema;
  _ ← ensure (negb ((63 <? str_len (dr_tenant_id self)) || negb (is_slug (dr_tenant_id self)))) TenantSlug;
  _ ← ensure (is_uuid_v4 (dr_tenant_uuid self)) TenantUuid;
  _ ← ensure (bool_decide (dr_bucket self = tenant_bucket (dr_tenant_uuid self))) TenantBucket;
  _ ← ensure (negb (negb (is_strong_etag (dr_strong_etag self)) || (dr_content_length self =? 0))) EtagOrLength;
  _ ← ensure (negb ((str_len (dr_key self) =? 0) || (MAX_KEY_BYTES <? str_len (dr_key self)))) KeyLength;
  if bool_decide (dr_reason self = LakePartDeleteReason.QuarantineExpired) then
    key ← of_option (parse_quarantine_key (dr_key self)) QuarantineKeyShape;
    _ ← ensure (bool_decide (qk_tenant_uuid key = dr_tenant_uuid self)) OutsideTenant;
    ensure (negb (is_some (dr_removal_seq self) || is_some (dr_removal_entry_sha256 self) || is_some (dr_grace_seconds self)
                  || is_some (dr_orphan_min_age_seconds self) || is_some (dr_retention_day self) || is_some (dr_retention_days self)
                  || negb (bool_decide (dr_quarantine_min_age_seconds self = Some QUARANTINE_MIN_AGE_SECONDS)))) QuarantineFields
  else
    _ ← ensure (negb (is_some (dr_quarantine_min_age_seconds self))) QuarantineOnly;
    _ ← ensure (negb (is_log_key (dr_key self))) LogKey;
    key ← of_option (parse_part_file_key (dr_key self)) PartKeyShape;
    _ ← ensure (bool_decide (fk_tenant_uuid key = dr_tenant_uuid self)) OutsideTenant;
    validate_reason self key trusted_local.

Context {W : JsonWriter}.

(** [canonical_json]: the fields collected into a [BTreeMap], then written. *)
Definition request_canonical_json (self : LakePartDeleteRequest) : string :=
  match to_value self with JObject map => write_json (JObject (sort_entries map)) | _ => EmptyString end.

(** [digest_with_local] and [permit_id] *)
Definition digest_with_local (self : LakePartDeleteRequest) (trusted_local : bool) : result DeleteError string :=
  _ ← validate_with_local self trusted_local;
  Ok (sha256_hex (request_canonical_json self)).
Definition permit_id (self : LakePartDeleteRequest) : result DeleteError string :=
  digest ← digest_with_local self false; Ok ("lpd_" +:+ digest).
End validate.

(** ** The grammar of part-file keys *)

(** The one spelling of a parsed key. *)
Definition spell_key (k : PartFileKey) : string :=
  "lake/parts/v1/tenant=" +:+ fk_tenant_uuid k +:+ "/parts/" +:+ fk_level k +:+ "/" +:+ fixed_dec 4 (fk_year k) +:+ "/"
  +:+ fixed_dec 2 (fk_month k) +:+ "/" +:+ fixed_dec 2 (fk_day_of_month k) +:+ "/" +:+ fixed_dec 2 (fk_hour k) +:+ "/"
  +:+ pid_str (fk_part_id k) +:+ "/" +:+ fk_file k.

(** What a parsed key satisfies. *)
Record key_wf `{Platform} (k : PartFileKey) : Prop := {
  kw_tenant : is_uuid_v4 (fk_tenant_uuid k) = true;
  kw_level : fk_level k ∈ ["l0"; "m"; "h"; "d"];
  kw_year : 1970 <= fk_year k <= 9999;
  kw_month : 0 <= fk_month k <= 99;
  kw_day : 0 <= fk_day_of_month k <= 99;
  kw_hour : 0 <= fk_hour k < 24;
  kw_day_hour : fk_level k = "d" -> fk_hour k = 0;
  kw_date : from_ymd_opt (fk_year k) (fk_month k) (fk_day_of_month k) = Some (fk_days k);
  kw_file : part_file_name_ok (fk_file k) = true }.

Lemma decimal_exact s w v :
  (w < 9)%nat -> decimal s (S w) = Some v <-> s = fixed_dec (S w) v /\ 0 <= v < 10 ^ Z.of_nat (S w).
Proof.
  intros Hw. assert (10 ^ Z.of_nat (S w) <= 10 ^ 9) as Hp by (apply Z.pow_le_mono_r; lia). unfold decimal. split.
  - destruct (_ && _) eqn:E; [|done]. apply andb_true_iff in E as [Hl Hd]. apply Nat.eqb_eq in Hl.
    pose proof (dec_val_bound s Hd) as Hb. unfold str_len in Hb. rewrite Hl in Hb.
    rewrite parse_unsigned_digits by (done || (intros ->; discriminate Hl) || lia). intros [= <-].
    split; [|done]. rewrite <- Hl. symmetry. by apply fixed_dec_dec_val.
  - intros [-> Hv]. rewrite fixed_dec_length, Nat.eqb_refl, fixed_dec_digits. cbn [andb].
    rewrite parse_unsigned_digits; [by rewrite dec_val_fixed|done|apply fixed_dec_digits|]. rewrite dec_val_fixed by done. lia.
Qed.

Lemma decimal_fixed w v : (w < 9)%nat -> 0 <= v < 10 ^ Z.of_nat (S w) -> decimal (fixed_dec (S w) v) (S w) = Some v.
Proof. intros. by apply decimal_exact. Qed.

Lemma splitn_cons n c s rest :
  str_all (fun d => negb (Ascii.eqb d c)) s = true -> splitn (S (S n)) c (s +:+ String c rest) = s :: splitn (S n) c rest.
Proof. intros Hs. cbn [splitn]. by rewrite split_once_app. Qed.

Lemma splitn_inv n c s x y l :
  splitn (S (S n)) c s = x :: y :: l -> exists r, s = x +:+ String c r /\ splitn (S n) c r = y :: l.
Proof.
  cbn [splitn]. destruct (split_once c s) as [[a r]|] eqn:E; [|done]. intros [= <- Er].
  exists r. split; [|done]. by apply split_once_inv in E as [-> _].
Qed.

Lemma class_no_slash : Forall (fun p : ascii -> bool => forall c, p c = true -> negb (Ascii.eqb c "/") = true) uuid_v4_classes.
Proof.
  assert (forall c, is_hex_lower c = true -> negb (Ascii.eqb c "/") = true) as Hh.
  { intros c Hc. destruct (Ascii.eqb_spec c "/") as [->|]; [discriminate Hc|done]. }
  assert (forall c, Ascii.eqb "-" c = true -> negb (Ascii.eqb c "/") = true) as Hd by (intros c <-%Ascii.eqb_eq; done).
  unfold uuid_v4_classes. cbn [replicate app]. repeat (constructor; [first [exact Hh|exact Hd|idtac]|]); [| |constructor].
  - by intros c <-%Ascii.eqb_eq.
  - intros c. rewrite !orb_true_iff, !Ascii.eqb_eq. by intros [[[<-|<-]|<-]|<-].
Qed.

Lemma uuid_no_slash s : is_uuid_v4 s = true -> str_all (fun c => negb (Ascii.eqb c "/")) s = true.
Proof. apply matches_all, class_no_slash. Qed.

Lemma pid_chars (p : ascii -> bool) id :
  (forall c, is_hex_lower c = true -> p c = true) -> p "-"%char = true -> str_all p (pid_str id) = true.
Proof.
  intros Hh Hd. pose proof (pid_valid id) as Hv. unfold part_id_valid in Hv. rewrite !andb_true_iff in Hv.
  destruct Hv as [[[Hl Hg] H1] H2]. apply bool_decide_eq_true in Hg. rewrite <- (str_take_drop 13 (pid_str id)), str_all_app.
  apply andb_true_iff. split.
  - eapply str_all_impl; [|exact H1]. intros c Hc. apply Hh. unfold is_hex_lower. by rewrite Hc.
  - unfold str_get in Hg. assert (str_drop 14 (pid_str id) = str_drop 1 (str_drop 13 (pid_str id))) as E14.
    { generalize (pid_str id). intros s. do 14 (destruct s as [|? s]; [done|]). done. }
    rewrite E14 in H2. destruct (str_drop 13 (pid_str id)) as [|c r]; [done|]. injection Hg as ->. cbn [str_all].
    rewrite Hd. eapply str_all_impl; [exact Hh|]. by destruct r.
Qed.

Section grammar.
Context `{Platform}.

Lemma parse_key_inv key k :
  parse_part_file_key key = Some k -> key = spell_key k /\ key_wf k /\ str_len key <= MAX_KEY_BYTES.
Proof.
  unfold parse_part_file_key. destruct (Z.ltb_spec MAX_KEY_BYTES (str_len key)) as [|Hlen]; [done|].
  intros (rest & E1%strip_prefix_inv & Hk)%bind_Some. apply bind_Some in Hk as ([tenant rest'] & E2%split_once_str_inv & Hk).
  destruct (is_uuid_v4 tenant) eqn:Ht; [|done]. cbn [negb] in Hk.
  destruct (splitn 7 "/" rest') as [|level [|yyyy [|mm [|dd [|hh fields]]]]] eqn:Es; try done.
  apply splitn_inv in Es as (r1 & E3 & Es). apply splitn_inv in Es as (r2 & E4 & Es). apply splitn_inv in Es as (r3 & E5 & Es).
  apply splitn_inv in Es as (r4 & E6 & Es). case_bool_decide as Hlev; [|done]. cbn [negb] in Hk.
  apply bind_Some in Hk as (y & Ey & Hk). apply bind_Some in Hk as (m & Em & Hk).
  apply bind_Some in Hk as (d & Ed & Hk). apply bind_Some in Hk as (h & Eh & Hk).
  apply decimal_exact in Ey as [Ey By]; [|lia]. apply decimal_exact in Em as [Em Bm]; [|lia].
  apply decimal_exact in Ed as [Ed Bd]; [|lia]. apply decimal_exact in Eh as [Eh Bh]; [|lia].
  destruct (Z.ltb_spec y 1970) as [|Hy]; [done|]. cbn [orb] in Hk.
  destruct (bool_decide (level = "d") && negb (h =? 0)) eqn:Edh; [done|].
  destruct fields as [|id fields]; [done|]. apply splitn_inv in Es as (r5 & E7 & Es).
  destruct (str_all is_ascii id); [|done]. cbn [negb] in Hk.
  apply bind_Some in Hk as (pid & Epid & Hk). destruct (PartId_parse id) as [p|] eqn:Ep; [|done]. injection Epid as <-.
  apply PartId_parse_valid in Ep. destruct fields as [|file fields]; [done|]. apply splitn_inv in Es as (r6 & E8 & Es).
  cbn in Es. injection Es as <- _. destruct (part_file_name_ok r6) eqn:Ef; [|done]. cbn [negb] in Hk.
  apply bind_Some in Hk as (days & Eday & Hk). destruct (Z.leb_spec 24 h); [done|]. injection Hk as <-.
  split; [|split; [|done]].
  - unfold spell_key. cbn [fk_tenant_uuid fk_level fk_year fk_month fk_day_of_month fk_hour fk_part_id fk_file]. by subst.
  - split; cbn [fk_tenant_uuid fk_level fk_year fk_month fk_day_of_month fk_hour fk_days fk_part_id fk_file]; try done; [lia..|].
    intros ->. rewrite bool_decide_eq_true_2 in Edh by done. cbn in Edh. by apply negb_false_iff, Z.eqb_eq in Edh.
Qed.

Lemma level_no_slash l : l ∈ ["l0"; "m"; "h"; "d"] -> str_all (fun c => negb (Ascii.eqb c "/")) l = true.
Proof. rewrite !elem_of_cons, elem_of_nil. by intros [->|[->|[->|[->|?]]]]. Qed.

Lemma parse_spell k : key_wf k -> str_len (spell_key k) <= MAX_KEY_BYTES -> parse_part_file_key (spell_key k) = Some k.
Proof.
  intros [Ht Hl Hy Hm Hd Hh Hdh Hdate Hf] Hlen. unfold parse_part_file_key. rewrite (proj2 (Z.ltb_ge _ _) Hlen).
  unfold spell_key. rewrite strip_prefix_app. cbn [mbind option_bind].
  rewrite (split_once_str_app "/" "parts/") by (by apply uuid_no_slash). cbn [mbind option_bind]. rewrite Ht. cbn [negb].
  assert (forall w z, str_all (fun c => negb (Ascii.eqb c "/")) (fixed_dec w z) = true) as Hns by (intros; apply digits_no_slash, fixed_dec_digits).
  assert (forall s r, s +:+ "/" +:+ r = s +:+ String "/" r) as Hsl by done. rewrite !Hsl.
  rewrite splitn_cons by (by apply level_no_slash). rewrite !splitn_cons by (apply Hns).
  rewrite splitn_cons.
  2: { apply pid_chars; [|done]. intros c Hc. destruct (Ascii.eqb_spec c "/") as [->|]; [discriminate Hc|done]. }
  cbn [splitn]. rewrite (bool_decide_eq_true_2 _ Hl). cbn [negb].
  rewrite (decimal_fixed 3), (decimal_fixed 1 (fk_month k)), (decimal_fixed 1 (fk_day_of_month k)), (decimal_fixed 1 (fk_hour k)) by (cbn; lia).
  cbn [mbind option_bind]. rewrite (proj2 (Z.ltb_ge _ _)) by lia. cbn [orb].
  assert (bool_decide (fk_level k = "d") && negb (fk_hour k =? 0) = false) as ->.
  { case_bool_decide as E; [|done]. by rewrite Hdh. }
  assert (str_all is_ascii (pid_str (fk_part_id k)) = true) as ->.
  { apply pid_chars; [|done]. intros c. unfold is_hex_lower, is_digit, is_ascii. rewrite orb_true_iff, !andb_true_iff. lia. }
  cbn [negb]. rewrite (proj2 (PartId_parse_valid _ (fk_part_id k)) eq_refl). cbn [mbind option_bind]. rewrite Hf. cbn [negb].
  rewrite Hdate. cbn [mbind option_bind]. rewrite (proj2 (Z.leb_gt _ _)) by lia. by destruct k.
Qed.

(** A part-file key is never a log key. *)
Lemma part_key_not_log key k : parse_part_file_key key = Some k -> is_log_key key = false.
Proof.
  intros (-> & Hw & _)%parse_key_inv. unfold is_log_key, spell_key. rewrite strip_prefix_app. cbn [mbind option_bind].
  change ("/parts/" +:+ ?r) with (String "/" ("parts/" +:+ r)). rewrite split_once_app by (apply uuid_no_slash, Hw). done.
Qed.

(** A quarantine key is always a log key, so it is never a part-file key. *)
Lemma quarantine_key_is_log key q : parse_quarantine_key key = Some q -> is_log_key key = true.
Proof.
  unfold parse_quarantine_key. destruct (_ <? _); [done|]. intros (rest & E1 & Hq)%bind_Some.
  apply bind_Some in Hq as ([tenant r] & E2 & Hq). unfold split_at_checked in E2. destruct (_ && _); [|done]. injection E2 as E2 E3.
  destruct (is_uuid_v4 tenant) eqn:Ht; [|done]. cbn [negb] in Hq. apply bind_Some in Hq as (r2 & E4%strip_prefix_inv & Hq).
  apply bind_Some in Hq as (r3 & E5%strip_prefix_inv & _). unfold is_log_key. rewrite E1. cbn [mbind option_bind].
  rewrite <- (str_take_drop 36 rest), E2, E3, E4, E5. change ("/" +:+ ?x) with (String "/" x).
  rewrite split_once_app by (by apply uuid_no_slash). cbv iota. apply orb_true_iff. right. apply starts_with_spec. by eexists.
Qed.
End grammar.

Section requests.
Context `{P : Platform}.

(** The names of the closed set are short. *)
Lemma file_name_len file : part_file_name_ok file = true -> str_len file <= 100.
Proof using.
  unfold part_file_name_ok. rewrite !orb_true_iff. intros [[[Hf|Hf]|Hf]|Hf].
  - unfold indexed_file in Hf. apply existsb_exists in Hf as ([pre suf] & Hin & Hf).
    destruct (_ ≫= _) as [i|] eqn:E; [|done]. apply bind_Some in E as (s & E1%strip_prefix_inv & E).
    apply bind_Some in E as (s' & E2%strip_suffix_inv & [E3 _]%decimal_exact); [|lia]. subst. rewrite !str_len_app.
    unfold str_len at 2. rewrite fixed_dec_length. cbn in Hin.
    destruct Hin as [[= <- <-]|[[= <- <-]|[[= <- <-]|[[= <- <-]|[[= <- <-]|[[= <- <-]|[]]]]]]]; unfold str_len; cbn; lia.
  - unfold pending_file in Hf. destruct (_ ≫= _) as [s|] eqn:E; [|done]. apply bind_Some in E as (s' & E1%strip_prefix_inv & E2%strip_suffix_inv).
    subst. rewrite !str_len_app. apply andb_true_iff in Hf as [Hl%Nat.eqb_eq _]. unfold str_len at 2. rewrite Hl. unfold str_len; cbn; lia.
  - unfold is_count_file in Hf. apply orb_true_iff in Hf as [->%bool_decide_eq_true|Hf]; [unfold str_len; cbn; lia|].
    destruct (_ ≫= _) as [s|] eqn:E; [|done]. apply bind_Some in E as (s' & E1%strip_prefix_inv & E2%strip_suffix_inv).
    subst. rewrite !str_len_app. apply andb_true_iff in Hf as [Hl%Nat.eqb_eq _]. unfold str_len at 2. rewrite Hl. unfold str_len; cbn; lia.
  - apply bool_decide_eq_true in Hf. unfold PART_FILE_NAMES in Hf. rewrite !elem_of_cons, elem_of_nil in Hf.
    destruct Hf as [->|[->|[->|[->|[->|[]]]]]]; unfold str_len; cbn; lia.
Qed.

Lemma uuid_len s : is_uuid_v4 s = true -> str_len s = 36.
Proof using. intros E%matches_length. unfold str_len. rewrite E. done. Qed.

Lemma spell_key_len k : key_wf k -> str_len (spell_key k) <= MAX_KEY_BYTES.
Proof using.
  intros [Ht Hl _ _ _ _ _ _ Hf]. apply uuid_len in Ht. apply file_name_len in Hf. unfold spell_key. rewrite !str_len_app, Ht.
  assert (str_len (fk_level k) <= 2) by (rewrite !elem_of_cons, elem_of_nil in Hl; destruct Hl as [->|[->|[->|[->|[]]]]]; unfold str_len; cbn; lia).
  assert (str_len (pid_str (fk_part_id k)) = 30) as ->.
  { unfold str_len. by rewrite (proj1 (part_id_valid_inv _ (pid_valid _))). }
  assert (forall w z, str_len (fixed_dec w z) = Z.of_nat w) as Hd by (intros; unfold str_len; by rewrite fixed_dec_length).
  rewrite !Hd. unfold MAX_KEY_BYTES. change (str_len "lake/parts/v1/tenant=") with 21. change (str_len "/parts/") with 7.
  change (str_len "/") with 1. lia.
Qed.

Lemma request_canonical_sorted {W : JsonWriter} r : request_canonical_json r = write_json (sort_keys (to_value r)).
Proof using.
  unfold request_canonical_json. cbn [to_value value_LakePartDeleteRequest]. unfold obj. cbn [sort_keys]. do 3 f_equal.
  unfold req, skip_none. destruct r; cbn.
  repeat match goal with |- context [?f <$> ?o] => is_var o; destruct o end; reflexivity.
Qed.

Lemma no_float_request r : no_float (to_value r) = true.
Proof using.
  unfold to_value, value_LakePartDeleteRequest, obj, req, skip_none. destruct r; cbn.
  repeat match goal with |- context [?f <$> ?o] => is_var o; destruct o end; reflexivity.
Qed.
End requests.

Section log_keys.
Context `{P : Platform}.
Implicit Types tenant : string.

Definition no_slash_tenant (tenant : string) : Prop := str_all (fun c => negb (Ascii.eqb c "/")) tenant = true.

(** Keys under the log root of a tenant, split as [is_log_key] splits them. *)
Lemma log_root_split tenant r :
  no_slash_tenant tenant ->
  (rest ← strip_prefix "lake/parts/v1/tenant=" ((tenant_root tenant +:+ "/log") +:+ r); split_once "/" rest) = Some (tenant, "log" +:+ r).
Proof using.
  intros Ht. unfold tenant_root. rewrite <- !str_app_assoc. change (PARTS_ROOT +:+ "/tenant=" +:+ ?x) with ("lake/parts/v1/tenant=" +:+ x).
  rewrite strip_prefix_app. cbn [mbind option_bind]. change ("/log" +:+ r) with (String "/" ("log" +:+ r)). by apply split_once_app.
Qed.

Lemma quarantine_split key q :
  parse_quarantine_key key = Some q ->
  exists tenant r, (rest ← strip_prefix "lake/parts/v1/tenant=" key; split_once "/" rest) = Some (tenant, QUARANTINE_DIR +:+ r).
Proof using.
  unfold parse_quarantine_key. destruct (_ <? _); [done|]. intros (rest & E1 & Hq)%bind_Some.
  apply bind_Some in Hq as ([tenant r] & E2 & Hq). unfold split_at_checked in E2. destruct (_ && _); [|done]. injection E2 as E2 E3.
  destruct (is_uuid_v4 tenant) eqn:Ht; [|done]. cbn [negb] in Hq. apply bind_Some in Hq as (r2 & E4%strip_prefix_inv & Hq).
  apply bind_Some in Hq as (r3 & E5%strip_prefix_inv & _). exists tenant, r3. rewrite E1. cbn [mbind option_bind].
  rewrite <- (str_take_drop 36 rest), E2, E3, E4, E5. change ("/" +:+ ?x) with (String "/" x).
  by rewrite split_once_app by (by apply uuid_no_slash).
Qed.

Lemma quarantine_not_log_object key q tenant seq :
  parse_quarantine_key key = Some q -> no_slash_tenant tenant ->
  key <> entry_key (tenant_root tenant +:+ "/log") seq /\ key <> checkpoint_key (tenant_root tenant +:+ "/log") seq.
Proof using.
  intros (t & r & E)%quarantine_split Ht. split; intros ->; unfold entry_key, checkpoint_key in E; rewrite log_root_split in E by done;
    injection E as _ E; [discriminate E|].
  change (fmt_pad 20 seq +:+ ".json" = "bronze-quarantine-v1/" +:+ r) in E. pose proof (fmt_pad_digits 20 seq) as Hd.
  destruct (fmt_pad 20 seq) as [|c s]; [discriminate E|]. cbn in E, Hd. injection E as -> _. discriminate Hd.
Qed.

Lemma log_object_is_log tenant seq :
  no_slash_tenant tenant ->
  is_log_key (entry_key (tenant_root tenant +:+ "/log") seq) = true /\ is_log_key (checkpoint_key (tenant_root tenant +:+ "/log") seq) = true.
Proof using. intros Ht. unfold is_log_key, entry_key, checkpoint_key. rewrite !log_root_split by done. done. Qed.

Lemma validate_key_inv r trusted_local :
  validate_with_local r trusted_local = Ok tt ->
  (exists q, dr_reason r = LakePartDeleteReason.QuarantineExpired /\ parse_quarantine_key (dr_key r) = Some q /\ qk_tenant_uuid q = dr_tenant_uuid r)
  \/ (exists k, dr_reason r <> LakePartDeleteReason.QuarantineExpired /\ is_log_key (dr_key r) = false /\ parse_part_file_key (dr_key r) = Some k
       /\ fk_tenant_uuid k = dr_tenant_uuid r /\ validate_reason r k trusted_local = Ok tt).
Proof using.
  unfold validate_with_local. intros E. do 6 apply bind_ok_inv in E as ([] & _ & E). case_bool_decide as Hr.
  - left. apply bind_ok_inv in E as (q & Hq%of_option_ok_inv & E). apply bind_ok_inv in E as ([] & Ht%ensure_ok_inv%bool_decide_eq_true & _). eauto.
  - right. apply bind_ok_inv in E as ([] & _ & E). apply bind_ok_inv in E as ([] & Hl%ensure_ok_inv%negb_true_iff & E).
    apply bind_ok_inv in E as (k & Hk%of_option_ok_inv & E). apply bind_ok_inv in E as ([] & Ht%ensure_ok_inv%bool_decide_eq_true & E). eauto 7.
Qed.
End log_keys.

(** ** Statements *)

(** The part-file key parser is exact: it accepts a key if and only if the key is the one spelling of
    the fields it returns, those fields being a lowercase UUIDv4 tenant, a level, a real calendar hour
    from 1970 on (hour 00 for a day part), a part id and a file name of the closed set; such a key is
    never a log key, and a key of the quarantine store always is. *)
Theorem part_key_grammar `{P : Platform} key :
  (forall k, parse_part_file_key key = Some k <-> key = spell_key k /\ key_wf k)
  /\ (is_Some (parse_part_file_key key) -> is_log_key key = false)
  /\ (is_Some (parse_quarantine_key key) -> is_log_key key = true).
Proof.
  split; [|split].
  - intros k. split; [by intros (-> & Hw & _)%parse_key_inv|]. intros [-> Hw]. by apply parse_spell, spell_key_len.
  - intros [k Hk]. by eapply part_key_not_log.
  - intros [q Hq]. by eapply quarantine_key_is_log.
Qed.

(** Keys round trip: the key the writer gives a file of a part (contract years 1970 to 9999) parses back
    to the writer's tenant, level, part id and file, and its date path is the part's event hour. *)
Theorem part_key_roundtrip `{P : Platform} {CL : CalendarLaws P} tenant level hour id dir file c :
  PartKeys_new tenant level hour id = Ok dir -> from_timestamp (hour * 3600) = Some c -> 1970 <= year c <= 9999 ->
  is_uuid_v4 tenant = true -> part_file_name_ok file = true ->
  exists k, parse_part_file_key (part_file dir file) = Some k /\ fk_tenant_uuid k = tenant /\ fk_level k = Level_code level
    /\ fk_part_id k = id /\ fk_file k = file /\ path_hour_ms k = hour * 3600000.
Proof.
  intros Hdir Hc Hy Ht Hf. unfold PartKeys_new in Hdir. apply bind_ok_inv in Hdir as ([] & _ & Hdir).
  apply bind_ok_inv in Hdir as (c' & E%of_option_ok_inv & Hdir). rewrite Hc in E. injection E as <-.
  apply bind_ok_inv in Hdir as ([] & Hday%ensure_ok_inv & Hdir). apply Ok_inj in Hdir.
  destruct (civil_range _ _ Hc) as (_ & Hm & Hd & Hh), (civil_date _ _ Hc) as [Hdate Hhour].
  assert ((if bool_decide (level = Day) then 0 else Platform.hour c) = Platform.hour c) as Eh.
  { case_bool_decide as El; [|done]. rewrite andb_true_l, negb_true_iff, negb_false_iff in Hday. lia. }
  rewrite Eh in Hdir.
  set (k := {| fk_tenant_uuid := tenant; fk_level := Level_code level; fk_year := year c; fk_month := month c; fk_day_of_month := day c;
               fk_hour := Platform.hour c; fk_days := hour / 24; fk_part_id := id; fk_file := file |}).
  assert (part_file dir file = spell_key k) as Es.
  { subst dir. unfold part_file, spell_key, tenant_root, fmt_pad_signed, k. cbn [fk_tenant_uuid fk_level fk_year fk_month fk_day_of_month fk_hour fk_part_id fk_file].
    rewrite !(proj2 (Z.ltb_ge _ 0)) by lia. rewrite (fmt_pad_fixed 3), !(fmt_pad_fixed 1) by (cbn; lia).
    rewrite <- !str_app_assoc. reflexivity. }
  assert (key_wf k) as Hw.
  { split; cbn [k fk_tenant_uuid fk_level fk_year fk_month fk_day_of_month fk_hour fk_days fk_part_id fk_file]; try done; [|lia..|].
    - destruct level; set_solver.
    - intros El. destruct level; try discriminate El. cbn in Hday. by apply negb_true_iff, negb_false_iff, Z.eqb_eq in Hday. }
  exists k. rewrite Es. split; [by apply parse_spell, spell_key_len|]. do 4 (split; [done|]).
  unfold path_hour_ms, k. cbn [fk_days fk_hour]. pose proof (Z.div_mod hour 24 ltac:(lia)). lia.
Qed.

(** C26: no request that validates, hosted or local, whatever its reason, names a log entry or a checkpoint
    of any tenant; and only a quarantine-expiry request names a key of the log family. *)
Theorem validated_never_log `{P : Platform} r trusted_local :
  validate_with_local r trusted_local = Ok tt ->
  (forall tenant seq, no_slash_tenant tenant ->
     dr_key r <> entry_key (tenant_root tenant +:+ "/log") seq /\ dr_key r <> checkpoint_key (tenant_root tenant +:+ "/log") seq)
  /\ (is_log_key (dr_key r) = true <-> dr_reason r = LakePartDeleteReason.QuarantineExpired).
Proof.
  intros [(q & Hr & Hq & _)|(k & Hr & Hl & _)]%validate_key_inv.
  - split; [intros; by eapply quarantine_not_log_object|]. rewrite (quarantine_key_is_log _ _ Hq). by split.
  - split; [|rewrite Hl; by split]. intros tenant seq Ht. destruct (log_object_is_log tenant seq Ht) as [E1 E2].
    split; intros E; rewrite E in Hl; congruence.
Qed.

(** C27: a permit binds one request: two valid requests with one permit id are the same request in every
    field, or two inputs of SHA-256 with one digest are exhibited. *)
Theorem permit_binds_request `{P : Platform} {W : JsonWriter} {WL : JsonLaws W} a b p :
  permit_id a = Ok p -> permit_id b = Ok p -> a = b \/ Collision.
Proof.
  unfold permit_id, digest_with_local. intros Ha Hb.
  apply bind_ok_inv in Ha as (da & Ha & Ea%Ok_inj), Hb as (db & Hb & Eb%Ok_inj).
  apply bind_ok_inv in Ha as ([] & _ & Ha%Ok_inj), Hb as ([] & _ & Hb%Ok_inj). subst.
  apply (inj (String.app "lpd_")) in Eb. apply sha256_hex_inj in Eb as [E|Hc]; [left|by right].
  symmetry. apply to_value_inj. rewrite !request_canonical_sorted in E.
  eapply (write_json_decodes (sort_keys (to_value b)) (sort_keys (to_value a)) EmptyString EmptyString); try done.
  - apply sort_keys_no_float, no_float_request.
  - apply sort_keys_no_float, no_float_request.
  - by rewrite E.
Qed.

(** ** Concrete keys and requests *)
Module GcRequestExample.
Import ToyPlatform ToyJson.

Definition tenant : string := "6f1c1e2a-5b8e-4d4c-9a3e-0e2b7c9d1f00".
Definition id : PartId := mk_part_id "0000000000100-00112233445566aa" eq_refl.
Definition dir : string := unwrap EmptyString (PartKeys_new tenant Hour 29 id).
Definition key : string := part_file dir "data-00000.parquet".
Definition etag : string := String quote ("e1" +:+ String quote EmptyString).
Definition superseded : LakePartDeleteRequest :=
  let r := request_base "tenant1" tenant key etag 42 LakePartDeleteReason.Superseded in {|
    dr_schema_version := dr_schema_version r; dr_operation := dr_operation r; dr_tenant_id := dr_tenant_id r;
    dr_tenant_uuid := dr_tenant_uuid r; dr_bucket := dr_bucket r; dr_key := dr_key r; dr_strong_etag := dr_strong_etag r;
    dr_content_length := dr_content_length r; dr_reason := dr_reason r; dr_removal_seq := Some 7;
    dr_removal_entry_sha256 := Some (sha256_hex "entry"); dr_grace_seconds := Some 3600; dr_orphan_min_age_seconds := None;
    dr_retention_day := None; dr_retention_days := None; dr_quarantine_min_age_seconds := None |}.
Definition permit : string := unwrap EmptyString (permit_id superseded).

Lemma key_parses : fk_day <$> parse_part_file_key key = Some "1970-01-02".
Proof. vm_compute. reflexivity. Qed.
Lemma superseded_valid : validate_with_local superseded false = Ok tt.
Proof. vm_compute. reflexivity. Qed.
Lemma quarantine_parses :
  parse_quarantine_key ("lake/parts/v1/tenant=" +:+ tenant +:+ "/log/checkpoints/bronze-quarantine-v1/records/0000000000123-00112233445566aa.json")
    = Some {| qk_tenant_uuid := tenant; qk_kind := QRecord 123 |}.
Proof. vm_compute. reflexivity. Qed.
End GcRequestExample.

Lemma part_key_grammar_witness :
  let _ := ToyPlatform.toy in is_log_key GcRequestExample.key = false.
Proof.
  cbv zeta. apply (part_key_grammar (P := ToyPlatform.toy) GcRequestExample.key).
  destruct (parse_part_file_key GcRequestExample.key) eqn:E; [by eexists|]. pose proof GcRequestExample.key_parses as F. by rewrite E in F.
Defined.

Lemma part_key_roundtrip_witness :
  let _ := ToyPlatform.toy in
  exists k, parse_part_file_key GcRequestExample.key = Some k /\ fk_tenant_uuid k = GcRequestExample.tenant /\ fk_level k = Level_code Hour
    /\ fk_part_id k = GcRequestExample.id /\ fk_file k = "data-00000.parquet" /\ path_hour_ms k = 29 * 3600000.
Proof.
  cbv zeta. eapply (part_key_roundtrip (CL := ToyPlatform.toy_calendar)).
  - apply unwrap_ok. vm_compute. reflexivity.
  - reflexivity.
  - cbn. lia.
  - vm_compute. reflexivity.
  - vm_compute. reflexivity.
Defined.

Lemma validated_never_log_witness :
  let _ := ToyPlatform.toy in
  is_log_key (dr_key GcRequestExample.superseded) = true <-> dr_reason GcRequestExample.superseded = LakePartDeleteReason.QuarantineExpired.
Proof.
  cbv zeta. apply (validated_never_log (P := ToyPlatform.toy) GcRequestExample.superseded false). exact GcRequestExample.superseded_valid.
Defined.

Lemma permit_binds_request_witness :
  let _ := ToyPlatform.toy in GcRequestExample.superseded = GcRequestExample.superseded \/ Collision.
Proof.
  cbv zeta. apply (permit_binds_request (P := ToyPlatform.toy) (W := ToyJson.toy_writer) (WL := ToyJson.toy_writer_laws) _ _ GcRequestExample.permit);
    apply unwrap_ok; vm_compute; reflexivity.
Defined.
