(* ===== verification/GcPlanner.v ===== *)
(** * GcPlanner: the verified log view and the pure GC planner

    Models [lake_part_gc/planner.rs]: [LakePartLogView] folded inline from verified entries
    (the paged SQLite history of the guarded cell is not modelled), [live_part_keys], the
    policy, [plan] with its cursor, [plan_local] and [InventorySelection]. The reader of
    verified provenance is a parameter. *)
From S2P Require Import Prelude Platform Format PartTypes LiveSet LiveSetFacts Replay Checkpoints Json ProvenanceTypes Provenance GcRequest.

Definition DAY_MS : Z := 86400000.

Module RemovalKind.
Inductive t := Merge | Rewrite | Retire.
End RemovalKind.

(** The committed entry that removed a part. *)
Record Removal := { rm_seq : Z; rm_entry_sha256 : string; rm_kind : RemovalKind.t; rm_committed_at_ms : Z }.

(** ** The view *)

Record LakePartLogView := {
  vw_live : LiveSet; vw_known : gset PartId; vw_removals : gmap PartId Removal; vw_from_genesis : bool;
  vw_adopted_keys : gmap PartId string }.

(** [LakePartLogView::genesis] *)
Definition view_genesis : LakePartLogView :=
  {| vw_live := empty_set; vw_known := ∅; vw_removals := ∅; vw_from_genesis := true; vw_adopted_keys := ∅ |}.

(** [LakePartLogView::from_checkpoint] *)
Definition view_from_checkpoint `{Platform} (cp : Checkpoint) : result LogError LakePartLogView :=
  s ← from_checkpoint cp;
  Ok {| vw_live := s; vw_known := list_to_set (part_id <$> btree_values pid_leb (live s)); vw_removals := ∅;
        vw_from_genesis := false; vw_adopted_keys := ∅ |}.

(** The closure [remove]: one removal per id, all with the entry's coordinates. *)
Definition record_removals (r : Removal) (ids : list PartId) (m : gmap PartId Removal) : gmap PartId Removal :=
  fold_left (fun m id => <[id := r]> m) ids m.

(** [LakePartLogView::apply] of an inline view: the view after the call and its result. *)
Definition gc_view_apply `{Platform} (v : LakePartLogView) (entry : LogEntry) (entry_sha256 : string) : LakePartLogView * result LogError unit :=
  match apply (vw_live v) entry entry_sha256 with
  | (s, Err e) =>
      ({| vw_live := s; vw_known := vw_known v; vw_removals := vw_removals v; vw_from_genesis := vw_from_genesis v;
          vw_adopted_keys := vw_adopted_keys v |}, Err e)
  | (s, Ok _) =>
      let removal kind := {| rm_seq := seq entry; rm_entry_sha256 := entry_sha256; rm_kind := kind; rm_committed_at_ms := appended_at_ms entry |} in
      let removals := match op entry with
        | Merge _ supersedes => record_removals (removal RemovalKind.Merge) supersedes (vw_removals v)
        | Rewrite _ supersedes _ => record_removals (removal RemovalKind.Rewrite) supersedes (vw_removals v)
        | Retire parts _ _ => record_removals (removal RemovalKind.Retire) parts (vw_removals v)
        | _ => vw_removals v
        end in
      let known := match op entry with
        | Add parts _ _ | Adopt parts => vw_known v ∪ list_to_set (part_id <$> parts)
        | Merge output _ | Rewrite output _ _ => {[part_id output]} ∪ vw_known v
        | _ => vw_known v
        end in
      ({| vw_live := s; vw_known := known; vw_removals := removals; vw_from_genesis := vw_from_genesis v;
          vw_adopted_keys := vw_adopted_keys v |}, Ok tt)
  end.

Definition is_live (v : LakePartLogView) (id : PartId) : bool := is_some (live (vw_live v) !! id).
Definition is_known (v : LakePartLogView) (id : PartId) : bool := bool_decide (id ∈ vw_known v).
Definition head_seq (v : LakePartLogView) : option Z := (fun '(s, _, _) => s) <$> head (vw_live v).
(** [part_count]: [usize] additions saturate. *)
Definition part_count (v : LakePartLogView) : Z := sat_u64 (Z.of_nat (size (vw_known v)) + Z.of_nat (size (vw_removals v))).

(** ** The keys live parts reference *)

Inductive GcError (E : Type) := NoKeyLayout (e : FormatError) | ReaderFailed (e : E) | NoDataFile.
Arguments NoKeyLayout {E} e.
Arguments ReaderFailed {E} e.
Arguments NoDataFile {E}.

Definition file_families (index : Z) : list string :=
  [data_file_name index; tokens_file_name index; indexed_json "uids" index; indexed_json "entities" index;
   indexed_json "locators" index; indexed_json "ranges" index].

(** The files of a part directory. *)
Definition part_dir_files (part : PartRef) : list string :=
  (seqZ 0 (data_files part) ≫= file_families) ++ PART_FILE_NAMES.

Section live_keys.
Context `{Platform} {E : Type} (verified_provenance : PartRef -> result E ProvenanceRecord).

(** The loop over the live parts. [adopted] is the view's cache, kept on every exit. *)
Fixpoint collect_keys (tenant_uuid : string) (adopted : gmap PartId string) (keys : gset string) (parts : list PartRef) :
    gmap PartId string * result (GcError E) (gset string) :=
  match parts with
  | [] => (adopted, Ok keys)
  | part :: parts =>
      match PartKeys_new tenant_uuid (level part) (event_hour part) (part_id part) with
      | Err e => (adopted, Err (NoKeyLayout e))
      | Ok dir =>
          let keys := list_to_set (part_file dir <$> part_dir_files part) ∪ keys in
          if sorted part then collect_keys tenant_uuid adopted keys parts else
          match adopted !! part_id part with
          | Some data_key => collect_keys tenant_uuid adopted ({[data_key]} ∪ keys) parts
          | None =>
              match verified_provenance part with
              | Err e => (adopted, Err (ReaderFailed e))
              | Ok record =>
                  match data_key record dir 0 with
                  | None => (adopted, Err NoDataFile)
                  | Some data_key => collect_keys tenant_uuid (<[part_id part := data_key]> adopted) ({[data_key]} ∪ keys) parts
                  end
              end
          end
      end
  end.

(** [live_part_keys] of an inline view *)
Definition live_part_keys (tenant_uuid : string) (v : LakePartLogView) : LakePartLogView * result (GcError E) (gset string) :=
  let retained := filter (fun kv => is_Some (live (vw_live v) !! kv.1)) (vw_adopted_keys v) in
  let '(adopted, r) := collect_keys tenant_uuid retained ∅ (btree_values pid_leb (live (vw_live v))) in
  ({| vw_live := vw_live v; vw_known := vw_known v; vw_removals := vw_removals v; vw_from_genesis := vw_from_genesis v;
      vw_adopted_keys := adopted |}, r).
End live_keys.

(** ** Policy and planner *)

Record ListedPartObject := { lo_key : string; lo_strong_etag : string; lo_content_length : Z; lo_uploaded_at_ms : Z }.
Record GcPolicy := { gp_grace_seconds : Z; gp_orphan_min_age_seconds : Z; gp_retention_days : option Z; gp_max_requests : Z }.

Definition default_policy : GcPolicy :=
  {| gp_grace_seconds := MIN_GRACE_SECONDS; gp_orphan_min_age_seconds := MIN_ORPHAN_AGE_SECONDS; gp_retention_days := None; gp_max_requests := 512 |}.

(** [GcPolicy::validate_with_local] *)
Definition policy_validate (self : GcPolicy) (trusted_local : bool) : bool :=
  negb (negb (between MIN_GRACE_SECONDS MAX_GRACE_SECONDS (gp_grace_seconds self))
        || negb (between MIN_ORPHAN_AGE_SECONDS MAX_ORPHAN_AGE_SECONDS (gp_orphan_min_age_seconds self))
        || some_and (gp_retention_days self) (fun days => negb (bool_decide (days ∈ RETENTION_DAYS) || (trusted_local && between 1 3650 days)))
        || (gp_max_requests self =? 0)).

Definition with_removal (removal : Removal) (grace_seconds : Z) (r : LakePartDeleteRequest) : LakePartDeleteRequest := {|
  dr_schema_version := dr_schema_version r; dr_operation := dr_operation r; dr_tenant_id := dr_tenant_id r; dr_tenant_uuid := dr_tenant_uuid r;
  dr_bucket := dr_bucket r; dr_key := dr_key r; dr_strong_etag := dr_strong_etag r; dr_content_length := dr_content_length r;
  dr_reason := dr_reason r; dr_removal_seq := Some (rm_seq removal); dr_removal_entry_sha256 := Some (rm_entry_sha256 removal);
  dr_grace_seconds := Some grace_seconds; dr_orphan_min_age_seconds := dr_orphan_min_age_seconds r; dr_retention_day := dr_retention_day r;
  dr_retention_days := dr_retention_days r; dr_quarantine_min_age_seconds := dr_quarantine_min_age_seconds r |}.
Definition with_retention (day : string) (days : Z) (r : LakePartDeleteRequest) : LakePartDeleteRequest := {|
  dr_schema_version := dr_schema_version r; dr_operation := dr_operation r; dr_tenant_id := dr_tenant_id r; dr_tenant_uuid := dr_tenant_uuid r;
  dr_bucket := dr_bucket r; dr_key := dr_key r; dr_strong_etag := dr_strong_etag r; dr_content_length := dr_content_length r;
  dr_reason := dr_reason r; dr_removal_seq := dr_removal_seq r; dr_removal_entry_sha256 := dr_removal_entry_sha256 r;
  dr_grace_seconds := dr_grace_seconds r; dr_orphan_min_age_seconds := dr_orphan_min_age_seconds r; dr_retention_day := Some day;
  dr_retention_days := Some days; dr_quarantine_min_age_seconds := dr_quarantine_min_age_seconds r |}.
Definition with_orphan_age (age : Z) (r : LakePartDeleteRequest) : LakePartDeleteRequest := {|
  dr_schema_version := dr_schema_version r; dr_operation := dr_operation r; dr_tenant_id := dr_tenant_id r; dr_tenant_uuid := dr_tenant_uuid r;
  dr_bucket := dr_bucket r; dr_key := dr_key r; dr_strong_etag := dr_strong_etag r; dr_content_length := dr_content_length r;
  dr_reason := dr_reason r; dr_removal_seq := dr_removal_seq r; dr_removal_entry_sha256 := dr_removal_entry_sha256 r;
  dr_grace_seconds := dr_grace_seconds r; dr_orphan_min_age_seconds := Some age; dr_retention_day := dr_retention_day r;
  dr_retention_days := dr_retention_days r; dr_quarantine_min_age_seconds := dr_quarantine_min_age_seconds r |}.

Section plan.
Context `{Platform}.
Context (tenant_id tenant_uuid : string) (view : LakePartLogView).

(** [plan_one]: the request for one listed object, or the reason it is passed over. *)
Definition plan_one (object : ListedPartObject) (now_ms : Z) (policy : GcPolicy) (grace_ms orphan_ms : Z) : result string LakePartDeleteRequest :=
  if is_log_key (lo_key object) then Err "log_key" else
  key ← of_option (parse_part_file_key (lo_key object)) "unparseable_key";
  if negb (bool_decide (fk_tenant_uuid key = tenant_uuid)) then Err "foreign_tenant" else
  if is_live view (fk_part_id key) then Err "live" else
  let base := request_base tenant_id tenant_uuid (lo_key object) (lo_strong_etag object) (lo_content_length object) in
  match vw_removals view !! fk_part_id key with
  | Some removal =>
      if sat_i64 (now_ms - rm_committed_at_ms removal) <? grace_ms then Err "within_grace" else
      let superseded := match rm_kind removal with RemovalKind.Merge | RemovalKind.Rewrite => true | RemovalKind.Retire => false end in
      if superseded && negb (is_provenance key)
      then Ok (with_removal removal (gp_grace_seconds policy) (base LakePartDeleteReason.Superseded)) else
      match gp_retention_days policy with
      | None => Err (if is_provenance key then "provenance_kept" else "retired_no_retention_policy")
      | Some days =>
          let day_end_ms := wrap_i64 (wrap_i64 (path_hour_ms key / DAY_MS * DAY_MS) + DAY_MS) in
          if now_ms <? sat_i64 (day_end_ms + wrap_i64 (wrap_i64 days * DAY_MS))
          then Err (if is_provenance key then "provenance_kept" else "within_retention")
          else Ok (with_retention (fk_day key) days (with_removal removal (gp_grace_seconds policy) (base LakePartDeleteReason.Retention)))
      end
  | None =>
      if is_known view (fk_part_id key) then Err "known_not_removed" else
      if negb (vw_from_genesis view) then Err "orphan_needs_full_log" else
      if (now_ms <? sat_i64 (lo_uploaded_at_ms object + orphan_ms))
         || (now_ms <? wrap_i64 (wrap_i64 (created_unix_ms (fk_part_id key) + ID_MEMORY_MS) + ORPHAN_ID_MEMORY_MARGIN_MS))
      then Err "orphan_too_young"
      else Ok (with_orphan_age (gp_orphan_min_age_seconds policy) (base LakePartDeleteReason.Orphan))
  end.

Context (live_keys : gset string) (now_ms : Z) (policy : GcPolicy).

(** [eligible_request_with_local] *)
Definition eligible_request (trusted_local : bool) (object : ListedPartObject) : result string LakePartDeleteRequest :=
  request ← plan_one object now_ms policy (wrap_i64 (wrap_i64 (gp_grace_seconds policy) * 1000))
              (wrap_i64 (wrap_i64 (gp_orphan_min_age_seconds policy) * 1000));
  if negb (starts_with (PARTS_ROOT +:+ "/tenant=" +:+ tenant_uuid +:+ "/parts/") (dr_key request)) then Err "outside_parts_prefix" else
  if bool_decide (dr_key request ∈ live_keys) then Err "live_key" else
  match validate_with_local request trusted_local with Ok _ => Ok request | Err _ => Err "invalid_request" end.

(** [sort_by] the key, then [dedup_by] the key: the first of equal neighbours stays. *)
Definition object_leb (a b : ListedPartObject) : bool := String.leb (lo_key a) (lo_key b).
Fixpoint dedup_after (last : string) (l : list ListedPartObject) : list ListedPartObject :=
  match l with
  | [] => []
  | o :: l => if bool_decide (lo_key o = last) then dedup_after last l else o :: dedup_after (lo_key o) l
  end.
Definition dedup_keys (l : list ListedPartObject) : list ListedPartObject :=
  match l with [] => [] | o :: l => o :: dedup_after (lo_key o) l end.
Definition ordered_objects (objects : list ListedPartObject) : list ListedPartObject := dedup_keys (sort_by object_leb objects).

(** [*skipped.entry(reason).or_default() += 1] *)
Definition count_skip (reason : string) (skipped : gmap string Z) : gmap string Z :=
  <[reason := wrap_u64 (default 0 (skipped !! reason) + 1)]> skipped.

(** [PlanCursor]: what its iteration changes. *)
Record PlanCursor := { pc_objects : list ListedPartObject; pc_emitted : Z; pc_skipped : gmap string Z; pc_truncated : bool }.
Definition cursor_new (objects : list ListedPartObject) : PlanCursor :=
  {| pc_objects := ordered_objects objects; pc_emitted := 0; pc_skipped := ∅; pc_truncated := false |}.

(** The loop of [next] over the remaining objects. *)
Fixpoint next_loop (objects : list ListedPartObject) (emitted : Z) (skipped : gmap string Z) : PlanCursor * option LakePartDeleteRequest :=
  match objects with
  | [] => ({| pc_objects := []; pc_emitted := emitted; pc_skipped := skipped; pc_truncated := false |}, None)
  | object :: objects =>
      match eligible_request false object with
      | Ok request =>
          if emitted <? gp_max_requests policy
          then ({| pc_objects := objects; pc_emitted := emitted + 1; pc_skipped := skipped; pc_truncated := false |}, Some request)
          else ({| pc_objects := objects; pc_emitted := emitted; pc_skipped := skipped; pc_truncated := true |}, None)
      | Err reason => next_loop objects emitted (count_skip reason skipped)
      end
  end.
Definition next (c : PlanCursor) : PlanCursor * option LakePartDeleteRequest :=
  if pc_truncated c then (c, None) else next_loop (pc_objects c) (pc_emitted c) (pc_skipped c).

(** [by_ref().collect()]; every request consumes an object, so one step more than objects is enough. *)
Fixpoint collect (fuel : nat) (c : PlanCursor) : list LakePartDeleteRequest * PlanCursor :=
  match fuel with
  | O => ([], c)
  | S fuel =>
      match next c with
      | (c', Some request) => let '(requests, c'') := collect fuel c' in (request :: requests, c'')
      | (c', None) => ([], c')
      end
  end.

Record PlanReport := { re_requests : list LakePartDeleteRequest; re_skipped : gmap string Z; re_truncated : bool }.

(** [plan] *)
Definition plan (objects : list ListedPartObject) : result unit PlanReport :=
  _ ← ensure (policy_validate policy false) tt;
  let '(requests, c) := collect (S (length (ordered_objects objects))) (cursor_new objects) in
  Ok {| re_requests := requests; re_skipped := pc_skipped c; re_truncated := pc_truncated c |}.

(** [InventorySelection]: a bounded selection of eligible objects. *)
Definition MAX_SELECTION_RETAINED : Z := 4 * 512.
Definition retaining (count : Z) : Z := Z.max 1 (Z.min MAX_SELECTION_RETAINED count).
Definition selection_limit (retain : option Z) : Z := default (Z.min (gp_max_requests policy) 512) retain.
Definition selection_eligible (is_refused : string -> bool) (object : ListedPartObject) : bool :=
  negb (is_refused (lo_key object)) && is_ok (eligible_request false object).
End plan.

(** The loop of [plan_local], which stops at the first request over the limit. *)
Fixpoint local_loop (eligible : ListedPartObject -> result string LakePartDeleteRequest) (max_requests : Z) (objects : list ListedPartObject)
    (requests : list LakePartDeleteRequest) (skipped : gmap string Z) : PlanReport :=
  match objects with
  | [] => {| re_requests := requests; re_skipped := skipped; re_truncated := false |}
  | object :: objects =>
      match eligible object with
      | Ok request =>
          if Z.of_nat (length requests) <? max_requests
          then local_loop eligible max_requests objects (requests ++ [request]) skipped
          else {| re_requests := requests; re_skipped := skipped; re_truncated := true |}
      | Err reason => local_loop eligible max_requests objects requests (count_skip reason skipped)
      end
  end.

(** [plan_local]: the tenant is its own uuid, and the open settings range is allowed. *)
Definition plan_local `{Platform} (tenant : string) (view : LakePartLogView) (live_keys : gset string) (objects : list ListedPartObject)
    (now_ms : Z) (policy : GcPolicy) : result unit PlanReport :=
  _ ← ensure (policy_validate policy true) tt;
  Ok (local_loop (eligible_request tenant tenant view live_keys now_ms policy true) (gp_max_requests policy)
        (ordered_objects objects) [] ∅).

(** ** The order of the listing *)

Section listing.
Implicit Types (o : ListedPartObject) (l : list ListedPartObject).

Definition key_lt (a b : ListedPartObject) : Prop := String.leb (lo_key a) (lo_key b) = true /\ lo_key a <> lo_key b.

Lemma object_leb_total a b : object_leb a b = true \/ object_leb b a = true.
Proof. apply String.leb_total. Qed.
Lemma object_leb_trans a b c : object_leb a b = true -> object_leb b c = true -> object_leb a c = true.
Proof. apply str_leb_trans. Qed.

Lemma dedup_after_elem k l o : o ∈ dedup_after k l -> o ∈ l /\ (Forall (fun x => String.leb k (lo_key x) = true) l -> StronglySorted (fun a b => object_leb a b = true) l -> lo_key o <> k).
Proof.
  revert k. induction l as [|x l IH]; intros k; cbn; [by intros ?%elem_of_nil|]. case_bool_decide as E.
  - intros [Ho Hk]%IH. split; [by right|]. intros Hf%Forall_cons Hs%StronglySorted_inv. apply Hk; [apply Hf|apply Hs].
  - intros [->|Ho]%elem_of_cons.
    + split; [by left|done].
    + pose proof (IH _ Ho) as [Hin _]. split; [by right|]. intros [Hx Hf]%Forall_cons [Hs Hlt]%StronglySorted_inv Eo.
      rewrite Forall_forall in Hlt. apply E. apply String.leb_antisym; [|done]. rewrite <- Eo. by apply (Hlt o).
Qed.

Lemma dedup_after_sorted k l :
  StronglySorted (fun a b => object_leb a b = true) l -> StronglySorted key_lt (dedup_after k l).
Proof.
  revert k. induction l as [|x l IH]; intros k Hs; [constructor|]. apply StronglySorted_inv in Hs as [Hs Hx]. cbn.
  case_bool_decide; [by apply IH|]. constructor; [by apply IH|]. apply Forall_forall. intros o Ho.
  destruct (dedup_after_elem _ _ _ Ho) as [Hin Hne]. rewrite Forall_forall in Hx. split; [by apply Hx|].
  intros E. apply Hne; [|done|done]. apply Forall_forall. intros y Hy. by apply Hx.
Qed.

Lemma ordered_objects_sorted l : StronglySorted key_lt (ordered_objects l).
Proof.
  unfold ordered_objects. pose proof (sort_by_sorted object_leb object_leb_total object_leb_trans l) as Hs.
  destruct (sort_by object_leb l) as [|x k]; [constructor|]. cbn. apply StronglySorted_inv in Hs as [Hs Hx].
  constructor; [by apply dedup_after_sorted|]. apply Forall_forall. intros o Ho.
  destruct (dedup_after_elem _ _ _ Ho) as [Hin Hne]. rewrite Forall_forall in Hx. split; [by apply Hx|].
  intros E. apply Hne; [|done|done]. apply Forall_forall. intros y Hy. by apply Hx.
Qed.

Lemma ordered_objects_elem l o : o ∈ ordered_objects l -> o ∈ l.
Proof.
  unfold ordered_objects. intros Ho. rewrite <- (elem_of_sort_by object_leb l). destruct (sort_by object_leb l) as [|x k]; [done|].
  cbn in Ho. apply elem_of_cons in Ho as [->|Ho]; [by left|]. right. by eapply dedup_after_elem.
Qed.

Lemma dedup_after_keys k l o : o ∈ l -> lo_key o = k \/ exists o', o' ∈ dedup_after k l /\ lo_key o' = lo_key o.
Proof.
  revert k. induction l as [|x l IH]; intros k; [by intros ?%elem_of_nil|]. cbn. case_bool_decide as E; intros [->|Ho]%elem_of_cons.
  - by left.
  - by apply IH.
  - right. exists x. split; [by left|done].
  - destruct (IH (lo_key x) Ho) as [Ek|(o' & Ho' & Ek)].
    + right. exists x. split; [by left|done].
    + right. exists o'. split; [by right|done].
Qed.

(** Every listed key keeps one object. *)
Lemma ordered_objects_keys l o : o ∈ l -> exists o', o' ∈ ordered_objects l /\ lo_key o' = lo_key o.
Proof.
  rewrite <- (elem_of_sort_by object_leb l). unfold ordered_objects. destruct (sort_by object_leb l) as [|x k]; [by intros ?%elem_of_nil|].
  intros [->|Ho]%elem_of_cons; [exists x; split; [by left|done]|]. cbn.
  destruct (dedup_after_keys (lo_key x) k o Ho) as [Ek|(o' & Ho' & Ek)]; [exists x; split; [by left|done]|exists o'; split; [by right|done]].
Qed.

(** A strictly sorted listing is in order already. *)
Lemma insert_below leb o l : Forall (fun x => leb o x = true) l -> insert_by leb o l = o :: l.
Proof. destruct 1 as [|x l Hx]; cbn; [done|]. by rewrite Hx. Qed.

Lemma dedup_after_id k l : StronglySorted key_lt l -> Forall (fun x => lo_key x <> k) l -> dedup_after k l = l.
Proof.
  revert k. induction l as [|x l IH]; intros k Hs Hk; [done|]. apply StronglySorted_inv in Hs as [Hs Hx]. apply Forall_cons in Hk as [Hk _].
  cbn. rewrite bool_decide_eq_false_2 by done. rewrite IH; [done|done|]. eapply Forall_impl; [exact Hx|]. intros y [_ Hy]. congruence.
Qed.

Lemma ordered_objects_id l : StronglySorted key_lt l -> ordered_objects l = l.
Proof.
  intros Hs. assert (sort_by object_leb l = l) as E.
  { induction Hs as [|x l Hs IH Hx]; [done|]. cbn. unfold sort_by in IH. rewrite IH. apply insert_below.
    eapply Forall_impl; [exact Hx|]. by intros y [? _]. }
  unfold ordered_objects. rewrite E. destruct Hs as [|x l Hs Hx]; [done|]. cbn. f_equal. apply dedup_after_id; [done|].
  eapply Forall_impl; [exact Hx|]. intros y [_ Hy]. congruence.
Qed.

Lemma StronglySorted_sublist {A} (R : A -> A -> Prop) (l k : list A) : l `sublist_of` k -> StronglySorted R k -> StronglySorted R l.
Proof.
  induction 1 as [|x l k Hs IH|x l k Hs IH]; intros Hk; [constructor| |].
  - apply StronglySorted_inv in Hk as [Hk Hx]. constructor; [by apply IH|]. rewrite Forall_forall in Hx |- *.
    intros y Hy. apply Hx. by eapply elem_of_submseteq, sublist_submseteq.
  - apply StronglySorted_inv in Hk as [Hk _]. by apply IH.
Qed.
End listing.

(** ** The planners against a reference *)

(** The requests of all eligible objects, in the listing's order. *)
Definition eligible_all (eligible : ListedPartObject -> result string LakePartDeleteRequest) (objects : list ListedPartObject) : list LakePartDeleteRequest :=
  omap (fun o => match eligible o with Ok r => Some r | Err _ => None end) objects.

(** How often each reason was given among the objects before the plan was full. *)
Fixpoint skip_all (eligible : ListedPartObject -> result string LakePartDeleteRequest) (room : nat) (objects : list ListedPartObject)
    (skipped : gmap string Z) : gmap string Z :=
  match objects with
  | [] => skipped
  | o :: objects =>
      match eligible o with
      | Err reason => skip_all eligible room objects (count_skip reason skipped)
      | Ok _ => match room with O => skipped | S room => skip_all eligible room objects skipped end
      end
  end.

(** The plan: the first [max] eligible objects of the ordered listing. *)
Definition plan_ref (eligible : ListedPartObject -> result string LakePartDeleteRequest) (max_requests : Z) (objects : list ListedPartObject) : PlanReport :=
  let room := Z.to_nat max_requests in
  {| re_requests := take room (eligible_all eligible objects); re_skipped := skip_all eligible room objects ∅;
     re_truncated := (room <? length (eligible_all eligible objects))%nat |}.

Section planners.
Context `{P : Platform} (tenant_id tenant_uuid : string) (view : LakePartLogView) (live_keys : gset string) (now_ms : Z) (policy : GcPolicy).

Abbreviation eligible := (eligible_request tenant_id tenant_uuid view live_keys now_ms policy false).
Abbreviation run := (collect tenant_id tenant_uuid view live_keys now_ms policy).

Lemma collect_exact fuel objects emitted skipped room :
  (length objects < fuel)%nat -> 0 <= emitted -> room = Z.to_nat (gp_max_requests policy - emitted) ->
  exists c, run fuel {| pc_objects := objects; pc_emitted := emitted; pc_skipped := skipped; pc_truncated := false |}
      = (take room (eligible_all eligible objects), c)
    /\ pc_skipped c = skip_all eligible room objects skipped
    /\ pc_truncated c = (room <? length (eligible_all eligible objects))%nat.
Proof using.
  revert emitted skipped fuel room. induction objects as [|o objects IH]; intros emitted skipped [|fuel] room Hf He ->; try (cbn in Hf; lia).
  { eexists. cbn. by rewrite take_nil. }
  cbn [collect eligible_all omap list_omap skip_all]. unfold next. cbn [pc_truncated pc_objects pc_emitted pc_skipped next_loop].
  destruct (eligible o) as [request|reason] eqn:Eo.
  - destruct (Z.ltb_spec emitted (gp_max_requests policy)) as [Hlt|Hge].
    + assert (Z.to_nat (gp_max_requests policy - emitted) = S (Z.to_nat (gp_max_requests policy - (emitted + 1)))) as -> by lia.
      edestruct (IH (emitted + 1) skipped fuel) as (c & E1 & E2 & E3); [cbn in Hf; lia|lia|reflexivity|].
      rewrite E1. exists c. done.
    + assert (Z.to_nat (gp_max_requests policy - emitted) = 0%nat) as -> by lia. eexists. done.
  - edestruct (IH emitted (count_skip reason skipped) (S fuel)) as (c & E1 & E2 & E3); [cbn in Hf; lia|done|reflexivity|].
    exists c. cbn [collect] in E1. unfold next in E1. cbn [pc_truncated pc_objects pc_emitted pc_skipped] in E1. done.
Qed.

Lemma plan_plan_ref objects :
  plan tenant_id tenant_uuid view live_keys now_ms policy objects =
    if policy_validate policy false then Ok (plan_ref eligible (gp_max_requests policy) (ordered_objects objects)) else Err tt.
Proof using.
  unfold plan. destruct (policy_validate policy false); [|done]. cbn [ensure mbind result_bind].
  edestruct (collect_exact (S (length (ordered_objects objects))) (ordered_objects objects) 0 ∅) as (c & E1 & E2 & E3); [lia|lia|reflexivity|].
  unfold cursor_new. rewrite E1, E2, E3, Z.sub_0_r. done.
Qed.
End planners.

Lemma local_loop_exact eligible max objects requests skipped :
  local_loop eligible max objects requests skipped =
    let room := (Z.to_nat max - length requests)%nat in
    {| re_requests := requests ++ take room (eligible_all eligible objects); re_skipped := skip_all eligible room objects skipped;
       re_truncated := (room <? length (eligible_all eligible objects))%nat |}.
Proof.
  revert requests skipped. induction objects as [|o objects IH]; intros requests skipped; cbn [local_loop eligible_all omap list_omap skip_all].
  { cbn. by rewrite take_nil, app_nil_r. }
  destruct (eligible o) as [request|reason]; [|apply IH]. destruct (Z.ltb_spec (Z.of_nat (length requests)) max).
  - rewrite IH, length_app. cbn [length]. assert (Z.to_nat max - length requests = S (Z.to_nat max - (length requests + 1)))%nat as -> by lia.
    cbn [take length]. by rewrite <- (assoc_L (++)).
  - assert (Z.to_nat max - length requests = 0)%nat as -> by lia. cbn. by rewrite app_nil_r.
Qed.

Lemma plan_local_ref `{P : Platform} tenant view live_keys objects now_ms policy :
  plan_local tenant view live_keys objects now_ms policy =
    if policy_validate policy true
    then Ok (plan_ref (eligible_request tenant tenant view live_keys now_ms policy true) (gp_max_requests policy) (ordered_objects objects))
    else Err tt.
Proof.
  unfold plan_local. destruct (policy_validate policy true); [|done]. cbn [ensure mbind result_bind]. rewrite local_loop_exact.
  unfold plan_ref. cbn [length app]. by rewrite Nat.sub_0_r.
Qed.

Section selection.
Context (eligible : ListedPartObject -> result string LakePartDeleteRequest).

Lemma eligible_all_filter (p : ListedPartObject -> bool) l :
  eligible_all eligible (filter (fun o => p o && is_ok (eligible o) = true) l) = eligible_all eligible (filter (fun o => p o = true) l).
Proof.
  induction l as [|o l IH]; [done|]. rewrite !filter_cons. unfold eligible_all in *.
  destruct (decide (p o && is_ok (eligible o) = true)) as [E|E], (decide (p o = true)) as [Ep|Ep]; cbn [omap list_omap].
  - by rewrite IH.
  - apply andb_true_iff in E as [? _]. done.
  - rewrite Ep in E. destruct (eligible o); [by destruct E|done].
  - done.
Qed.

(** Among eligible objects, the n-th object gives the n-th request. *)
Lemma eligible_all_take n l :
  Forall (fun o => is_ok (eligible o) = true) l -> eligible_all eligible (take n l) = take n (eligible_all eligible l).
Proof.
  intros Hl. revert n. induction Hl as [|o l Ho Hl IH]; intros n; [by destruct n|]. destruct n as [|n]; [done|].
  unfold eligible_all in *. cbn [take omap list_omap]. destruct (eligible o); [|done]. cbn [take]. by rewrite IH.
Qed.

Lemma selected_requests p n m l :
  (m <= n)%nat ->
  take m (eligible_all eligible (take n (filter (fun o => p o && is_ok (eligible o) = true) l)))
    = take m (eligible_all eligible (filter (fun o => p o = true) l)).
Proof.
  intros Hm. rewrite eligible_all_take, take_take, eligible_all_filter, Nat.min_l; [done|done|].
  apply Forall_forall. intros o [Ho _]%list_elem_of_filter. by apply andb_true_iff in Ho as [_ ?].
Qed.
End selection.

Definition plan_requests (r : result unit PlanReport) : result unit (list LakePartDeleteRequest) :=
  match r with Ok report => Ok (re_requests report) | Err e => Err e end.

(** ** Statements *)

(** Both planners compute the reference plan: they refuse a policy out of bounds, and otherwise return
    the requests of the first [max_requests] eligible objects of the listing in strict key order, one
    object per listed key, with the count of every reason an object was passed over before the plan
    was full, and report truncation exactly when more eligible objects remain. *)
Theorem plan_exact `{P : Platform} tenant_id tenant_uuid view live_keys now_ms policy objects :
  plan tenant_id tenant_uuid view live_keys now_ms policy objects =
    (if policy_validate policy false
     then Ok (plan_ref (eligible_request tenant_id tenant_uuid view live_keys now_ms policy false) (gp_max_requests policy) (ordered_objects objects))
     else Err tt)
  /\ plan_local tenant_uuid view live_keys objects now_ms policy =
    (if policy_validate policy true
     then Ok (plan_ref (eligible_request tenant_uuid tenant_uuid view live_keys now_ms policy true) (gp_max_requests policy) (ordered_objects objects))
     else Err tt)
  /\ StronglySorted key_lt (ordered_objects objects)
  /\ (forall o, o ∈ ordered_objects objects -> o ∈ objects)
  /\ (forall o, o ∈ objects -> exists o', o' ∈ ordered_objects objects /\ lo_key o' = lo_key o).
Proof.
  split; [apply plan_plan_ref|]. split; [apply plan_local_ref|]. split; [apply ordered_objects_sorted|]. split; [apply ordered_objects_elem|apply ordered_objects_keys].
Qed.

(** A bounded inventory selection loses nothing: planning over the first [limit] eligible, unrefused
    objects of the ordered listing gives the same requests as planning over all unrefused objects,
    whenever the selection's limit is at least the plan's. *)
Theorem selection_is_prefix `{P : Platform} tenant_id tenant_uuid view live_keys now_ms policy is_refused retain objects :
  gp_max_requests policy <= selection_limit policy retain ->
  let eligible := selection_eligible tenant_id tenant_uuid view live_keys now_ms policy is_refused in
  let selected := take (Z.to_nat (selection_limit policy retain)) (filter (fun o => eligible o = true) (ordered_objects objects)) in
  plan_requests (plan tenant_id tenant_uuid view live_keys now_ms policy selected)
    = plan_requests (plan tenant_id tenant_uuid view live_keys now_ms policy
        (filter (fun o => negb (is_refused (lo_key o)) = true) (ordered_objects objects))).
Proof.
  intros Hm eligible selected. rewrite !plan_plan_ref. destruct (policy_validate policy false); [|done]. cbn [plan_requests plan_ref re_requests].
  assert (forall p : ListedPartObject -> bool, StronglySorted key_lt (filter (fun o => p o = true) (ordered_objects objects))) as Hs.
  { intros p. eapply StronglySorted_sublist; [apply sublist_filter|apply ordered_objects_sorted]. }
  rewrite (ordered_objects_id selected) by (eapply StronglySorted_sublist; [apply sublist_take|apply Hs]).
  rewrite (ordered_objects_id (filter _ _)) by apply (Hs (fun o => negb (is_refused (lo_key o)))).
  f_equal. apply (selected_requests _ (fun o => negb (is_refused (lo_key o)))). lia.
Qed.
