(* ===== verification/GcSafety.v ===== *)
(** * GcSafety: what the part GC may delete

    The view of [lake_part_gc/planner.rs] against the history of the log it was folded from,
    the protected keys, and the safety of a plan: no request names a part that the log has
    live now or can make live later. *)
From S2P Require Import Prelude Platform Format PartTypes LiveSet LiveSetFacts Replay Checkpoints Json ProvenanceTypes Provenance GcRequest GcPlanner.

(** ** The view is the history *)

Definition removal_kind (o : LogOp) : option RemovalKind.t :=
  match o with
  | Merge _ _ => Some RemovalKind.Merge | Rewrite _ _ _ => Some RemovalKind.Rewrite | Retire _ _ _ => Some RemovalKind.Retire
  | _ => None
  end.

(** The removal an entry commits. *)
Definition entry_removal (es : LogEntry * string) (kind : RemovalKind.t) : Removal :=
  {| rm_seq := seq es.1; rm_entry_sha256 := es.2; rm_kind := kind; rm_committed_at_ms := appended_at_ms es.1 |}.

(** [r] is the removal of [id] by an entry of [log]. *)
Definition removed_by (log : list (LogEntry * string)) (id : PartId) (r : Removal) : Prop :=
  exists es kind, es ∈ log /\ id ∈ op_removes (op es.1) /\ removal_kind (op es.1) = Some kind /\ r = entry_removal es kind.

Lemma record_removals_lookup r ids m id :
  record_removals r ids m !! id = if decide (id ∈ ids) then Some r else m !! id.
Proof.
  unfold record_removals. revert m. induction ids as [|x ids IH]; intros m; cbn; [by rewrite decide_False by apply not_elem_of_nil|].
  rewrite IH. destruct (decide (id ∈ ids)) as [E|E]; [by rewrite decide_True by (by right)|].
  destruct (decide (id = x)) as [->|Hne].
  - by rewrite lookup_insert_eq, decide_True by left.
  - rewrite lookup_insert_ne by done. by rewrite decide_False by (by intros [?|?]%elem_of_cons).
Qed.

Section view.
Context `{P : Platform}.
Implicit Types v : LakePartLogView.

Definition view_step v (es : LogEntry * string) : result LogError LakePartLogView :=
  match gc_view_apply v es.1 es.2 with (v', Ok _) => Ok v' | (_, Err e) => Err e end.
Definition view_replay (log : list (LogEntry * string)) v : result LogError LakePartLogView := fold_res view_step log v.

Lemma view_step_inv v es v' :
  view_step v es = Ok v' ->
  apply_step (vw_live v) es = Ok (vw_live v')
  /\ vw_known v' = vw_known v ∪ list_to_set (part_id <$> op_adds (op es.1))
  /\ vw_from_genesis v' = vw_from_genesis v
  /\ forall id, vw_removals v' !! id =
       match removal_kind (op es.1) with
       | Some kind => if decide (id ∈ op_removes (op es.1)) then Some (entry_removal es kind) else vw_removals v !! id
       | None => vw_removals v !! id
       end.
Proof.
  unfold view_step, gc_view_apply, apply_step. destruct (apply (vw_live v) es.1 es.2) as [s [[]|e]]; [|done]. intros [= <-]. cbn.
  split; [done|]. split; [|split; [done|]].
  - destruct (op es.1); cbn; set_solver.
  - intros id. destruct (op es.1); cbn; try done; apply record_removals_lookup.
Qed.

Lemma op_removes_kind o id : id ∈ op_removes o -> is_Some (removal_kind o).
Proof. destruct o; cbn; try (by intros ?%elem_of_nil); by eexists. Qed.

Lemma view_replay_inv log v v' :
  view_replay log v = Ok v' ->
  replay log (vw_live v) = Ok (vw_live v')
  /\ vw_known v' = vw_known v ∪ list_to_set (part_id <$> log_adds log)
  /\ vw_from_genesis v' = vw_from_genesis v
  /\ (forall id, id ∉ log_removes log -> vw_removals v' !! id = vw_removals v !! id)
  /\ (NoDup (log_removes log) -> forall id r, id ∈ log_removes log -> vw_removals v' !! id = Some r <-> removed_by log id r).
Proof.
  revert v. induction log as [|es log IH]; intros v Hr.
  { injection Hr as <-. cbn. split_and!; [done|set_solver|done|done|]. intros _ id r ?%elem_of_nil. done. }
  unfold view_replay in Hr. cbn in Hr. apply bind_ok_inv in Hr as (v1 & Hs & Hr).
  destruct (view_step_inv _ _ _ Hs) as (E1 & E2 & E3 & E4). destruct (IH _ Hr) as (F1 & F2 & F3 & F4 & F5).
  split_and!.
  - unfold replay. cbn. rewrite E1. exact F1.
  - rewrite F2, E2, log_adds_cons, fmap_app, list_to_set_app_L. set_solver.
  - congruence.
  - intros id. rewrite log_removes_cons, not_elem_of_app. intros [N1 N2]. rewrite F4, E4 by done.
    destruct (removal_kind _); [by rewrite decide_False|done].
  - rewrite log_removes_cons. intros (Hn1 & Hd & Hn2)%NoDup_app id r Hin. apply elem_of_app in Hin as [Hin|Hin].
    + rewrite F4, E4 by (by apply Hd). destruct (op_removes_kind _ _ Hin) as [kind Hk]. rewrite Hk, decide_True by done. split.
      * intros [= <-]. exists es, kind. split_and!; [by left|done|done|done].
      * intros (es' & kind' & Hes & Hid & Hk' & ->). apply elem_of_cons in Hes as [->|Hes]; [congruence|]. destruct (Hd _ Hin).
        unfold log_removes. apply list_elem_of_bind. by exists es'.
    + rewrite F5 by done. split; intros (es' & kind' & Hes & Hid & Hk' & ->).
      * exists es', kind'. split_and!; [by right|done|done|done].
      * exists es', kind'. split_and!; [|done|done|done]. apply elem_of_cons in Hes as [->|Hes]; [|done]. by destruct (Hd _ Hid).
Qed.

(** A view folded from genesis over a log with monotone times. *)
Record view_of (log : list (LogEntry * string)) v : Prop := {
  vo_live : replay log empty_set = Ok (vw_live v);
  vo_known : vw_known v = list_to_set (part_id <$> log_adds log);
  vo_genesis : vw_from_genesis v = true;
  vo_removals : forall id r, vw_removals v !! id = Some r <-> removed_by log id r }.

Lemma view_of_replay log v :
  Sorted Z.le (log_times log) -> view_replay log view_genesis = Ok v -> view_of log v.
Proof.
  intros Ht Hr. destruct (view_replay_inv _ _ _ Hr) as (E1 & E2 & E3 & E4 & E5).
  destruct (history_log _ _ Ht E1) as [now Hh]. split; [done| |done|].
  - rewrite E2. cbn. set_solver.
  - intros id r. destruct (decide (id ∈ log_removes log)) as [Hin|Hin]; [apply E5; [apply Hh|done]|].
    rewrite (E4 _ Hin). cbn. rewrite lookup_empty. split; [done|]. intros (es & kind & Hes & Hid & _). destruct Hin.
    unfold log_removes. apply list_elem_of_bind. by exists es.
Qed.
End view.

(** ** Evidence *)

(** Why the part of a planned request may lose its file. *)
Inductive justified (log : list (LogEntry * string)) (now_ms : Z) (policy : GcPolicy) (uploaded_at_ms : Z) (r : LakePartDeleteRequest) (k : PartFileKey) : Prop :=
| by_supersession es kind :
    dr_reason r = LakePartDeleteReason.Superseded -> es ∈ log -> fk_part_id k ∈ op_removes (op es.1) ->
    removal_kind (op es.1) = Some kind -> kind <> RemovalKind.Retire ->
    dr_removal_seq r = Some (seq es.1) -> dr_removal_entry_sha256 r = Some es.2 ->
    gp_grace_seconds policy * 1000 <= now_ms - appended_at_ms es.1 -> is_provenance k = false ->
    justified log now_ms policy uploaded_at_ms r k
| by_retention es kind days :
    dr_reason r = LakePartDeleteReason.Retention -> es ∈ log -> fk_part_id k ∈ op_removes (op es.1) ->
    removal_kind (op es.1) = Some kind -> (kind = RemovalKind.Retire \/ is_provenance k = true) ->
    dr_removal_seq r = Some (seq es.1) -> dr_removal_entry_sha256 r = Some es.2 ->
    gp_grace_seconds policy * 1000 <= now_ms - appended_at_ms es.1 ->
    gp_retention_days policy = Some days -> dr_retention_days r = Some days -> dr_retention_day r = Some (fk_day k) ->
    (fk_days k + 1 + days) * DAY_MS <= now_ms ->
    justified log now_ms policy uploaded_at_ms r k
| by_orphanhood :
    dr_reason r = LakePartDeleteReason.Orphan -> fk_part_id k ∉ part_id <$> log_adds log ->
    uploaded_at_ms + gp_orphan_min_age_seconds policy * 1000 <= now_ms ->
    created_unix_ms (fk_part_id k) + ID_MEMORY_MS + ORPHAN_ID_MEMORY_MARGIN_MS <= now_ms ->
    justified log now_ms policy uploaded_at_ms r k.

Section evidence.
Context `{P : Platform} {CL : CalendarLaws P}.

Lemma sat_le_inv a b : b < i64_max -> sat_i64 a <= b -> a <= b.
Proof. unfold sat_i64, i64_max. lia. Qed.

Lemma le_sat_inv a b : i64_min < a -> a <= sat_i64 b -> a <= b.
Proof. unfold sat_i64, i64_min. lia. Qed.

Lemma policy_validate_inv policy trusted :
  policy_validate policy trusted = true ->
  MIN_GRACE_SECONDS <= gp_grace_seconds policy <= MAX_GRACE_SECONDS
  /\ MIN_ORPHAN_AGE_SECONDS <= gp_orphan_min_age_seconds policy <= MAX_ORPHAN_AGE_SECONDS
  /\ (forall days, gp_retention_days policy = Some days -> 1 <= days <= 3650).
Proof.
  unfold policy_validate. rewrite negb_true_iff, !orb_false_iff, !negb_false_iff. unfold between. rewrite !andb_true_iff, !Z.leb_le.
  intros [[[Hg Ho] Hd] _]. split_and!; try lia; intros days E; rewrite E in Hd; cbn in Hd; apply negb_false_iff, orb_true_iff in Hd;
    (destruct Hd as [Hd%bool_decide_eq_true|Hd]; [unfold RETENTION_DAYS in Hd; rewrite !elem_of_cons, elem_of_nil in Hd; lia|]);
    apply andb_true_iff in Hd as [_ Hd]; apply andb_true_iff in Hd; lia.
Qed.

(** The end of the key's day. *)
Lemma day_end_exact key k :
  parse_part_file_key key = Some k -> wrap_i64 (wrap_i64 (path_hour_ms k / DAY_MS * DAY_MS) + DAY_MS) = (fk_days k + 1) * DAY_MS.
Proof.
  intros (_ & Hw & _)%parse_key_inv. pose proof (date_range _ _ _ _ (kw_date _ Hw)) as Hr. pose proof (kw_hour _ Hw) as Hh.
  assert (path_hour_ms k / DAY_MS = fk_days k) as ->.
  { unfold path_hour_ms, DAY_MS. symmetry. apply Z.div_unique_pos with (fk_hour k * 3600000); lia. }
  rewrite (wrap_i64_id (fk_days k * DAY_MS)) by (unfold in_i64, i64_min, i64_max, DAY_MS; lia).
  rewrite wrap_i64_id by (unfold in_i64, i64_min, i64_max, DAY_MS; lia). lia.
Qed.

Lemma eligible_inv tenant_id tenant_uuid log view live_keys now_ms policy trusted o r :
  view_of log view -> policy_validate policy trusted = true -> now_ms < i64_max ->
  eligible_request tenant_id tenant_uuid view live_keys now_ms policy trusted o = Ok r ->
  dr_key r = lo_key o /\ (dr_key r ∉ live_keys) /\ validate_with_local r trusted = Ok tt
  /\ dr_tenant_uuid r = tenant_uuid /\ starts_with (PARTS_ROOT +:+ "/tenant=" +:+ tenant_uuid +:+ "/parts/") (dr_key r) = true
  /\ exists k, parse_part_file_key (dr_key r) = Some k /\ live (vw_live view) !! fk_part_id k = None
       /\ justified log now_ms policy (lo_uploaded_at_ms o) r k.
Proof.
  intros Hv Hp Hnow He. destruct (policy_validate_inv _ _ Hp) as (Hg & Ho & Hd). unfold eligible_request in He.
  apply bind_ok_inv in He as (r' & He & Hr). destruct (starts_with _ _) eqn:Hs; [|done]. cbn [negb] in Hr.
  case_bool_decide as Hlk; [done|]. destruct (validate_with_local r' trusted) as [[]|] eqn:Hval; [|done]. apply Ok_inj in Hr. subst r'.
  unfold plan_one in He. destruct (is_log_key (lo_key o)); [done|]. apply bind_ok_inv in He as (k & Hk%of_option_ok_inv & He).
  case_bool_decide; [|done]. cbn [negb] in He. unfold is_live in He. destruct (live (vw_live view) !! fk_part_id k) eqn:El; [done|]. cbn [is_some] in He.
  unfold MIN_GRACE_SECONDS, MAX_GRACE_SECONDS, MIN_ORPHAN_AGE_SECONDS, MAX_ORPHAN_AGE_SECONDS in *.
  rewrite (wrap_i64_id (gp_grace_seconds policy)), (wrap_i64_id (gp_grace_seconds policy * 1000)),
    (wrap_i64_id (gp_orphan_min_age_seconds policy)), (wrap_i64_id (gp_orphan_min_age_seconds policy * 1000)) in He
    by (unfold in_i64, i64_min, i64_max; lia).
  destruct (vw_removals view !! fk_part_id k) as [removal|] eqn:Er.
  - apply (vo_removals _ _ Hv) in Er as (es & kind & Hes & Hid & Hkind & ->). cbn [rm_committed_at_ms entry_removal] in He.
    destruct (Z.ltb_spec (sat_i64 (now_ms - appended_at_ms es.1)) (gp_grace_seconds policy * 1000)) as [|Hgr]; [done|].
    apply le_sat_inv in Hgr; [|unfold i64_min; lia]. cbn [rm_kind] in He.
    destruct (_ && negb (is_provenance k)) eqn:Esup.
    + apply Ok_inj in He. subst r. apply andb_true_iff in Esup as [Ek Epr%negb_true_iff]. split_and!; try done.
      exists k. split_and!; [done|done|]. eapply by_supersession; try done. by intros ->.
    + destruct (gp_retention_days policy) as [days|] eqn:Ed; [|done]. rewrite (day_end_exact _ _ Hk) in He. specialize (Hd _ eq_refl).
      rewrite (wrap_i64_id days), (wrap_i64_id (days * DAY_MS)) in He by (unfold in_i64, i64_min, i64_max, DAY_MS; lia).
      destruct (Z.ltb_spec now_ms (sat_i64 ((fk_days k + 1) * DAY_MS + days * DAY_MS))) as [|Hend]; [done|].
      apply sat_le_inv in Hend; [|done]. apply Ok_inj in He. subst r. split_and!; try done.
      exists k. split_and!; [done|done|]. eapply by_retention; try done; [|lia].
      apply andb_false_iff in Esup as [Ek|Epr%negb_false_iff]; [left; by destruct kind|by right].
  - unfold is_known in He. case_bool_decide as Hkn; [done|]. rewrite (vo_genesis _ _ Hv) in He. cbn [negb] in He.
    destruct (Z.ltb_spec now_ms (sat_i64 (lo_uploaded_at_ms o + gp_orphan_min_age_seconds policy * 1000))) as [|Hup]; [done|].
    apply sat_le_inv in Hup; [|done]. pose proof (created_unix_ms_range (fk_part_id k)) as Hc.
    rewrite (wrap_i64_id (created_unix_ms _ + _)) in He by (unfold in_i64, i64_min, i64_max, ID_MEMORY_MS; lia).
    rewrite wrap_i64_id in He by (unfold in_i64, i64_min, i64_max, ID_MEMORY_MS, ORPHAN_ID_MEMORY_MARGIN_MS; lia).
    destruct (Z.ltb_spec now_ms (created_unix_ms (fk_part_id k) + ID_MEMORY_MS + ORPHAN_ID_MEMORY_MARGIN_MS)); [done|]. cbn [orb] in He.
    apply Ok_inj in He. subst r. split_and!; try done. exists k. split_and!; [done|done|]. apply by_orphanhood; try done.
    rewrite (vo_known _ _ Hv), elem_of_list_to_set in Hkn. done.
Qed.
End evidence.

(** ** The future of the log *)

Section future.
Context `{P : Platform}.

Lemma replay_adds_recent log s s' es p :
  replay log s = Ok s' -> es ∈ log -> p ∈ op_adds (op es.1) -> horizon (appended_at_ms es.1) <= created_unix_ms (part_id p).
Proof.
  revert s. induction log as [|e log IH]; intros s Hr Hes Hp; [by apply elem_of_nil in Hes|].
  apply replay_cons in Hr as (s1 & Ha & Hr). apply elem_of_cons in Hes as [->|Hes]; [|by eapply IH].
  apply apply_ref_inv in Ha as (_ & s2 & He & _ & _). apply (oe_add_recent _ _ _ He p Hp).
Qed.

Lemma log_adds_app l1 l2 : log_adds (l1 ++ l2) = log_adds l1 ++ log_adds l2.
Proof. unfold log_adds. apply bind_app. Qed.
Lemma log_removes_app l1 l2 : log_removes (l1 ++ l2) = log_removes l1 ++ log_removes l2.
Proof. unfold log_removes. apply bind_app. Qed.

(** An id older than the id memory at [now], margin included, is added by no entry appended after [now] less the margin. *)
Lemma too_old_to_add log2 s s' now_ms id :
  replay log2 s = Ok s' -> Forall (fun t => now_ms - ORPHAN_ID_MEMORY_MARGIN_MS < t) (log_times log2) ->
  created_unix_ms id + ID_MEMORY_MS + ORPHAN_ID_MEMORY_MARGIN_MS <= now_ms -> id ∉ part_id <$> log_adds log2.
Proof.
  intros Hr Ht Hc (p & -> & Hp)%list_elem_of_fmap. unfold log_adds in Hp. apply list_elem_of_bind in Hp as (es & Hp & Hes).
  pose proof (replay_adds_recent _ _ _ _ _ Hr Hes Hp) as Hh. unfold log_times in Ht. rewrite Forall_forall in Ht.
  specialize (Ht (appended_at_ms es.1) (list_elem_of_fmap_2 (fun es => appended_at_ms es.1) _ _ Hes)).
  pose proof (created_unix_ms_range (part_id p)). unfold horizon, sat_i64, i64_min, i64_max in Hh. lia.
Qed.

(** The justification of a request outlives every extension of the log. *)
Lemma justified_final log log2 s2 now_ms policy up r k :
  justified log now_ms policy up r k -> Sorted Z.le (log_times (log ++ log2)) -> replay (log ++ log2) empty_set = Ok s2 ->
  Forall (fun t => now_ms - ORPHAN_ID_MEMORY_MARGIN_MS < t) (log_times log2) -> live s2 !! fk_part_id k = None.
Proof.
  intros Hj Ht Hr Hf. destruct (history_log _ _ Ht Hr) as [now Hh]. apply eq_None_not_Some. intros [p Hp].
  apply (hi_live _ _ _ _ Hh) in Hp as (Hadd & Hid & Hrem).
  assert (forall es : LogEntry * string, es ∈ log -> fk_part_id k ∈ op_removes (op es.1) -> False) as Hgone.
  { intros es Hes Hin. apply Hrem. rewrite log_removes_app. apply elem_of_app. left. unfold log_removes. apply list_elem_of_bind. by exists es. }
  destruct Hj as [es ? _ Hes Hin|es ? ? _ Hes Hin|_ Hn _ Hc]; [by eapply Hgone|by eapply Hgone|].
  rewrite log_adds_app in Hadd. apply elem_of_app in Hadd as [Hadd|Hadd].
  - destruct Hn. rewrite <- Hid. by apply list_elem_of_fmap_2.
  - apply replay_app in Hr as (s1 & _ & Hr2). destruct (too_old_to_add _ _ _ _ _ Hr2 Hf Hc). rewrite <- Hid. by apply list_elem_of_fmap_2.
Qed.
End future.

(** ** Planned requests *)

(** A request either planner returns; the local planner's tenant is its own uuid. *)
Definition planned `{P : Platform} (tenant_id tenant_uuid : string) (view : LakePartLogView) (live_keys : gset string) (now_ms : Z) (policy : GcPolicy)
    (objects : list ListedPartObject) (r : LakePartDeleteRequest) : Prop :=
  (exists report, plan tenant_id tenant_uuid view live_keys now_ms policy objects = Ok report /\ r ∈ re_requests report)
  \/ (tenant_id = tenant_uuid /\ exists report, plan_local tenant_uuid view live_keys objects now_ms policy = Ok report /\ r ∈ re_requests report).

Lemma plan_ref_elem eligible max objects r :
  r ∈ re_requests (plan_ref eligible max objects) -> exists o, o ∈ objects /\ eligible o = Ok r.
Proof.
  cbn. intros Hr. eapply elem_of_submseteq in Hr; [|apply sublist_submseteq, sublist_take].
  unfold eligible_all in Hr. apply list_elem_of_omap in Hr as (o & Ho & E). exists o. split; [done|].
  destruct (eligible o); [by injection E as ->|done].
Qed.

Lemma planned_eligible `{P : Platform} tenant_id tenant_uuid view live_keys now_ms policy objects r :
  planned tenant_id tenant_uuid view live_keys now_ms policy objects r ->
  exists trusted o, policy_validate policy trusted = true /\ o ∈ objects
    /\ eligible_request tenant_id tenant_uuid view live_keys now_ms policy trusted o = Ok r.
Proof.
  intros [(report & E & Hr)|(-> & report & E & Hr)]; rewrite ?plan_plan_ref, ?plan_local_ref in E.
  - destruct (policy_validate policy false) eqn:Hp; [|done]. apply Ok_inj in E as <-.
    apply plan_ref_elem in Hr as (o & Ho%ordered_objects_elem & E). exists false, o. auto.
  - destruct (policy_validate policy true) eqn:Hp; [|done]. apply Ok_inj in E as <-.
    apply plan_ref_elem in Hr as (o & Ho%ordered_objects_elem & E). exists true, o. auto.
Qed.

(** ** Protected keys *)

Section protected.
Context `{P : Platform} {E : Type} (verified_provenance : PartRef -> result E ProvenanceRecord).

(** The original object of an adopted part, cached or read from its record. *)
Definition original_of (adopted : gmap PartId string) (dir : string) (p : PartRef) (key : string) : Prop :=
  adopted !! part_id p = Some key \/ exists record, verified_provenance p = Ok record /\ Provenance.data_key record dir 0 = Some key.

Definition protects (tenant : string) (adopted adopted' : gmap PartId string) (keys : gset string) (p : PartRef) : Prop :=
  exists dir, PartKeys_new tenant (level p) (event_hour p) (part_id p) = Ok dir
    /\ (forall name, name ∈ part_dir_files p -> part_file dir name ∈ keys)
    /\ (sorted p = false -> exists key, adopted' !! part_id p = Some key /\ key ∈ keys /\ original_of adopted dir p key).

(** One part handled, then the rest: [a1] and [k2] are the cache and the keys after the part. *)
Lemma protects_cons tenant p parts adopted a1 keys k2 adopted' keys' dir :
  part_id p ∉ part_id <$> parts -> PartKeys_new tenant (level p) (event_hour p) (part_id p) = Ok dir ->
  (forall id, id <> part_id p -> a1 !! id = adopted !! id) -> adopted ⊆ a1 ->
  list_to_set (part_file dir <$> part_dir_files p) ∪ keys ⊆ k2 ->
  (sorted p = false -> exists key, a1 !! part_id p = Some key /\ key ∈ k2 /\ original_of adopted dir p key) ->
  k2 ⊆ keys' -> a1 ⊆ adopted' -> (forall q, q ∈ parts -> protects tenant a1 adopted' keys' q) ->
  keys ⊆ keys' /\ adopted ⊆ adopted' /\ forall q, q ∈ p :: parts -> protects tenant adopted adopted' keys' q.
Proof.
  intros Hp Hdir Ha1 Hsub Hk Hkey Hk2 Ha Hrest. split; [set_solver|]. split; [by etrans|].
  intros q [->|Hq]%elem_of_cons.
  - exists dir. split; [done|]. split.
    + intros name Hname. apply Hk2, Hk, elem_of_union_l, elem_of_list_to_set. by apply list_elem_of_fmap_2.
    + intros Hs. destruct (Hkey Hs) as (key & E1 & E2 & E3). exists key. split; [by eapply lookup_weaken|]. split; [by apply Hk2|done].
  - destruct (Hrest q Hq) as (dir' & E1 & E2 & E3). exists dir'. split; [done|]. split; [done|]. intros Hs.
    destruct (E3 Hs) as (key & F1 & F2 & F3). exists key. split; [done|]. split; [done|]. unfold original_of in *.
    rewrite Ha1 in F3; [done|]. intros Eid. apply Hp. rewrite <- Eid. by apply list_elem_of_fmap_2.
Qed.

Lemma collect_keys_exact tenant parts adopted keys adopted' keys' :
  NoDup (part_id <$> parts) -> collect_keys verified_provenance tenant adopted keys parts = (adopted', Ok keys') ->
  keys ⊆ keys' /\ adopted ⊆ adopted' /\ forall p, p ∈ parts -> protects tenant adopted adopted' keys' p.
Proof.
  revert adopted keys. induction parts as [|p parts IH]; intros adopted keys Hn; cbn [collect_keys].
  { intros [= <- <-]. split_and!; [done|done|]. by intros p ?%elem_of_nil. }
  destruct (PartKeys_new tenant (level p) (event_hour p) (part_id p)) as [dir|] eqn:Edir; [|done].
  apply NoDup_cons in Hn as [Hp Hn]. destruct (sorted p) eqn:Es; [|destruct (adopted !! part_id p) as [key|] eqn:Ek].
  - intros Hc. destruct (IH _ _ Hn Hc) as (H1 & H2 & H3). eapply (protects_cons tenant p parts adopted adopted keys _ adopted' keys' dir Hp Edir); [done|done|reflexivity|congruence|exact H1|exact H2|exact H3].
  - intros Hc. destruct (IH _ _ Hn Hc) as (H1 & H2 & H3). eapply (protects_cons tenant p parts adopted adopted keys _ adopted' keys' dir Hp Edir);
      [done|done|apply union_subseteq_r| |exact H1|exact H2|exact H3].
    intros _. exists key. split; [done|]. split; [set_solver|by left].
  - destruct (verified_provenance p) as [record|] eqn:Er; [|done]. destruct (Provenance.data_key record dir 0) as [key|] eqn:Ed; [|done].
    intros Hc. destruct (IH _ _ Hn Hc) as (H1 & H2 & H3). eapply (protects_cons tenant p parts adopted (<[part_id p := key]> adopted) keys _ adopted' keys' dir Hp Edir); [| | | |exact H1|exact H2|exact H3].
    + intros id Hid. by rewrite lookup_insert_ne.
    + by apply insert_subseteq.
    + apply union_subseteq_r.
    + intros _. exists key. rewrite lookup_insert_eq. split; [done|]. split; [set_solver|]. right. eauto.
Qed.

Lemma NoDup_live_ids s : (forall id p, live s !! id = Some p -> part_id p = id) -> NoDup (part_id <$> btree_values pid_leb (live s)).
Proof. intros Hw. rewrite part_ids_btree_values by done. apply NoDup_btree_keys. Qed.
End protected.

(** ** Statements *)

(** The view the GC folds is the log's history: its live set is the fold of the log, its known ids are
    exactly the ids the log ever added, and it holds a removal of a part exactly when an entry of the
    log removed it, with that entry's sequence number, digest, kind and time. *)
Theorem gc_view_exact `{P : Platform} log view :
  Sorted Z.le (log_times log) -> view_replay log view_genesis = Ok view ->
  replay log empty_set = Ok (vw_live view)
  /\ (forall id, is_known view id = true <-> id ∈ part_id <$> log_adds log)
  /\ (forall id r, vw_removals view !! id = Some r <-> removed_by log id r).
Proof.
  intros Ht Hr. destruct (view_of_replay _ _ Ht Hr) as [E1 E2 _ E4]. split; [done|]. split; [|done].
  intros id. unfold is_known. by rewrite bool_decide_eq_true, E2, elem_of_list_to_set.
Qed.

(** C18: over a log whose entry times do not go back, every request of a plan, hosted or local, names a listed part file of the tenant that is not live
    and not protected, passes validation, and carries evidence from the log: the entry that superseded
    or retired the part at least the grace ago (and past retention for retired parts and provenance),
    or, for an orphan, that no entry of the whole log ever added the part and it is older than the id
    memory; a superseded part never loses its provenance. *)
Theorem gc_requests_justified `{P : Platform} {CL : CalendarLaws P} log view tenant_id tenant_uuid live_keys now_ms policy objects r :
  Sorted Z.le (log_times log) -> view_replay log view_genesis = Ok view -> now_ms < i64_max ->
  planned tenant_id tenant_uuid view live_keys now_ms policy objects r ->
  exists o k, o ∈ objects /\ dr_key r = lo_key o /\ (dr_key r ∉ live_keys) /\ dr_tenant_uuid r = tenant_uuid
    /\ (exists trusted, validate_with_local r trusted = Ok tt)
    /\ starts_with (PARTS_ROOT +:+ "/tenant=" +:+ tenant_uuid +:+ "/parts/") (dr_key r) = true
    /\ parse_part_file_key (dr_key r) = Some k /\ live (vw_live view) !! fk_part_id k = None
    /\ justified log now_ms policy (lo_uploaded_at_ms o) r k.
Proof.
  intros Ht Hr Hnow (trusted & o & Hp & Ho & He)%planned_eligible. pose proof (view_of_replay _ _ Ht Hr) as Hv.
  destruct (eligible_inv _ _ _ _ _ _ _ _ _ _ Hv Hp Hnow He) as (E1 & E2 & E3 & E4 & E5 & k & E6 & E7 & E8).
  exists o, k. split_and!; try done. by exists trusted.
Qed.

(** C3: the GC never deletes a live part, now or later: in every extension of the log by entries that the
    part contract accepts, appended in order and after the plan's time less one hour, the part of a
    planned request is not live. *)
Theorem gc_never_deletes_live `{P : Platform} {CL : CalendarLaws P} log view tenant_id tenant_uuid live_keys now_ms policy objects r k log2 s2 :
  view_replay log view_genesis = Ok view -> now_ms < i64_max ->
  planned tenant_id tenant_uuid view live_keys now_ms policy objects r -> parse_part_file_key (dr_key r) = Some k ->
  replay (log ++ log2) empty_set = Ok s2 -> Sorted Z.le (log_times (log ++ log2)) ->
  Forall (fun t => now_ms - ORPHAN_ID_MEMORY_MARGIN_MS < t) (log_times log2) ->
  live s2 !! fk_part_id k = None.
Proof.
  intros Hr Hnow (trusted & o & Hp & Ho & He)%planned_eligible Hk Hr2 Ht Hf.
  assert (Sorted Z.le (log_times log)) as Ht1.
  { unfold log_times in Ht. rewrite fmap_app in Ht. 
    eapply StronglySorted_Sorted, (StronglySorted_sublist Z.le); [apply sublist_inserts_r; reflexivity|]. apply Sorted_StronglySorted; [intros x y z; lia|exact Ht]. }
  destruct (eligible_inv _ _ _ _ _ _ _ _ _ _ (view_of_replay _ _ Ht1 Hr) Hp Hnow He) as (_ & _ & _ & _ & _ & k' & E6 & _ & E8).
  rewrite Hk in E6. injection E6 as <-. by eapply justified_final.
Qed.

(** Protected keys are complete: when [live_part_keys] succeeds, its set holds, for every live part of
    the view, every file of the part's directory that its data-file count and the fixed names allow,
    and for an adopted part the original object its verified provenance names (or the cached key),
    which the view now caches. *)
Theorem live_keys_complete `{P : Platform} {E} (verified_provenance : PartRef -> result E ProvenanceRecord) tenant view view' keys :
  (forall id p, live (vw_live view) !! id = Some p -> part_id p = id) ->
  live_part_keys verified_provenance tenant view = (view', Ok keys) ->
  vw_live view' = vw_live view
  /\ forall id p, live (vw_live view) !! id = Some p ->
       protects verified_provenance tenant (filter (fun kv => is_Some (live (vw_live view) !! kv.1)) (vw_adopted_keys view)) (vw_adopted_keys view') keys p.
Proof.
  intros Hw. unfold live_part_keys. destruct (collect_keys _ _ _ _ _) as [adopted r] eqn:Ec. intros [= <- ->]. split; [done|].
  intros id p Hp. destruct (collect_keys_exact _ _ _ _ _ _ _ (NoDup_live_ids _ Hw) Ec) as (_ & _ & Hall).
  apply Hall, elem_of_btree_values. by exists id.
Qed.

(** ** A plan over the example log *)
Module GcExample.
Import ToyPlatform.

Definition tenant : string := GcRequestExample.tenant.
Definition log : list (LogEntry * string) := LogExample.log.
Definition view : LakePartLogView := unwrap view_genesis (view_replay log view_genesis).
(** The merge was appended at 350; one hour of grace later. *)
Definition now : Z := 350 + 3600000.
Definition dir (id : PartId) (l : Level) : string := unwrap EmptyString (PartKeys_new tenant l 0 id).
Definition object (key : string) : ListedPartObject :=
  {| lo_key := key; lo_strong_etag := GcRequestExample.etag; lo_content_length := 42; lo_uploaded_at_ms := 100 |}.
Definition data_of (id : PartId) (l : Level) : ListedPartObject := object (part_file (dir id l) "data-00000.parquet").
Definition objects : list ListedPartObject :=
  [data_of LogExample.pid3 Minute; data_of LogExample.pid2 L0; data_of LogExample.pid1 L0; object (part_file (dir LogExample.pid1 L0) PROVENANCE_FILE)].
Definition no_reader (p : PartRef) : result unit ProvenanceRecord := Err tt.
Definition live_keys : gset string := unwrap ∅ (live_part_keys no_reader tenant view).2.
Definition report : PlanReport :=
  unwrap {| re_requests := []; re_skipped := ∅; re_truncated := true |} (plan "tenant1" tenant view live_keys now default_policy objects).
Definition request : LakePartDeleteRequest := default GcRequestExample.superseded (re_requests report !! 0%nat).
Definition key : PartFileKey := default
  {| fk_tenant_uuid := ""; fk_level := ""; fk_year := 0; fk_month := 0; fk_day_of_month := 0; fk_hour := 0; fk_days := 0;
     fk_part_id := LogExample.pid3; fk_file := "" |} (parse_part_file_key (dr_key request)).
Definition later : list (LogEntry * string) := [LogExample.mk 4 (now + 50) (Schema LogExample.sc)].

Lemma view_ok : view_replay log view_genesis = Ok view.
Proof. apply unwrap_ok. vm_compute. reflexivity. Qed.
(** Both superseded data files are planned; the live part and the kept provenance are not. *)
Lemma report_shape :
  (dr_key <$> re_requests report, re_truncated report, re_skipped report !! "live", re_skipped report !! "provenance_kept")
    = ([lo_key (data_of LogExample.pid1 L0); lo_key (data_of LogExample.pid2 L0)], false, Some 1, Some 1).
Proof. vm_compute. reflexivity. Qed.
Lemma key_id : fk_part_id key = LogExample.pid1.
Proof. apply PartId_eq. vm_compute. reflexivity. Qed.
Lemma request_key_parses : parse_part_file_key (dr_key request) = Some key.
Proof.
  unfold key. destruct (parse_part_file_key (dr_key request)) eqn:E; [done|].
  assert (is_some (parse_part_file_key (dr_key request)) = true) as F by (vm_compute; reflexivity). by rewrite E in F.
Qed.
Lemma request_planned : planned "tenant1" tenant view live_keys now default_policy objects request.
Proof.
  left. exists report. split; [apply unwrap_ok; vm_compute; reflexivity|]. unfold request.
  destruct (re_requests report) as [|r l] eqn:Er; [|left].
  exfalso. assert (length (re_requests report) = 2%nat) as F by (vm_compute; reflexivity). by rewrite Er in F.
Qed.
Lemma no_saturation : now < i64_max.
Proof. vm_compute. reflexivity. Qed.
End GcExample.

Lemma selection_is_prefix_witness :
  let _ := ToyPlatform.toy in
  let P := plan "tenant1" GcExample.tenant GcExample.view GcExample.live_keys GcExample.now default_policy in
  plan_requests (P (take 512 (filter (fun o => selection_eligible "tenant1" GcExample.tenant GcExample.view GcExample.live_keys GcExample.now default_policy (fun _ => false) o = true)
      (ordered_objects GcExample.objects))))
    = plan_requests (P (filter (fun o => negb false = true) (ordered_objects GcExample.objects))).
Proof.
  cbv zeta. apply (selection_is_prefix (P := ToyPlatform.toy) "tenant1" GcExample.tenant GcExample.view GcExample.live_keys GcExample.now default_policy (fun _ => false) None).
  vm_compute. discriminate.
Defined.

Lemma gc_view_exact_witness :
  let _ := ToyPlatform.toy in
  is_known GcExample.view LogExample.pid3 = true <-> LogExample.pid3 ∈ part_id <$> log_adds GcExample.log.
Proof.
  cbv zeta. apply (gc_view_exact (P := ToyPlatform.toy) GcExample.log GcExample.view); [apply LogExample.log_sorted|exact GcExample.view_ok].
Defined.

Lemma gc_requests_justified_witness :
  let _ := ToyPlatform.toy in
  exists o k, o ∈ GcExample.objects /\ dr_key GcExample.request = lo_key o
    /\ justified GcExample.log GcExample.now default_policy (lo_uploaded_at_ms o) GcExample.request k.
Proof.
  cbv zeta. destruct (gc_requests_justified (P := ToyPlatform.toy) (CL := ToyPlatform.toy_calendar) GcExample.log GcExample.view "tenant1" GcExample.tenant
    GcExample.live_keys GcExample.now default_policy GcExample.objects GcExample.request) as (o & k & Ho & Hk & _ & _ & _ & _ & _ & _ & Hj).
  - apply LogExample.log_sorted.
  - exact GcExample.view_ok.
  - exact GcExample.no_saturation.
  - exact GcExample.request_planned.
  - exists o, k. split; [exact Ho|]. split; [exact Hk|exact Hj].
Defined.

Lemma gc_never_deletes_live_witness :
  let _ := ToyPlatform.toy in live (LogExample.final (GcExample.log ++ GcExample.later)) !! LogExample.pid1 = None.
Proof.
  cbv zeta. rewrite <- GcExample.key_id.
  apply (gc_never_deletes_live (P := ToyPlatform.toy) (CL := ToyPlatform.toy_calendar) GcExample.log GcExample.view "tenant1" GcExample.tenant
    GcExample.live_keys GcExample.now default_policy GcExample.objects GcExample.request GcExample.key GcExample.later).
  - exact GcExample.view_ok.
  - exact GcExample.no_saturation.
  - exact GcExample.request_planned.
  - exact GcExample.request_key_parses.
  - apply unwrap_ok. vm_compute. reflexivity.
  - cbn. unfold GcExample.now. repeat constructor; lia.
  - cbn. constructor; [|constructor]. unfold GcExample.now, ORPHAN_ID_MEMORY_MARGIN_MS. lia.
Defined.

Lemma live_keys_complete_witness :
  let _ := ToyPlatform.toy in
  exists view', live_part_keys GcExample.no_reader GcExample.tenant GcExample.view = (view', Ok GcExample.live_keys) /\ vw_live view' = vw_live GcExample.view.
Proof.
  intros P. exists (live_part_keys GcExample.no_reader GcExample.tenant GcExample.view).1.
  assert (live_part_keys GcExample.no_reader GcExample.tenant GcExample.view =
    ((live_part_keys GcExample.no_reader GcExample.tenant GcExample.view).1, Ok GcExample.live_keys)) as E.
  { rewrite (surjective_pairing (live_part_keys GcExample.no_reader GcExample.tenant GcExample.view)) at 1. by f_equal. }
  split; [exact E|]. refine (proj1 (live_keys_complete (P := P) GcExample.no_reader GcExample.tenant GcExample.view _ GcExample.live_keys _ E)).
  intros id p Hp. destruct (history_log (H := P) LogExample.log (vw_live GcExample.view) LogExample.log_sorted) as [now Hh].
  { apply (view_replay_inv _ _ _ GcExample.view_ok). }
  by apply (hi_live _ _ _ _ Hh) in Hp as (_ & ? & _).
Defined.
