(* ===== verification/GcEnv.v ===== *)
(** * GcEnv: the seams of the part GC

    The GC passes talk to a log reader ([PartLogReader]), to control's index
    ([LakePartIndexClient]), to the owner and the Worker ([LakePartDeleteAuthority]), to a
    lister of the bucket ([PartObjectLister]), to the tenant's writer in the same process
    ([ReceiptedAppends]) and to the clock. This file has
    the data that crosses those seams ([lake_part_gc/index.rs], [lake_part_gc/executor.rs],
    [lake_part_gc/delete_control.rs]), the seams as the class [GcWorld], and the monad the pass
    is written in: a computation passes the world on and records every call with its answer. A
    world is any state with any answers, so what is proved of a computation holds against
    every behaviour of the other side, other writers and lost answers included. *)
From S2P Require Import Prelude Platform Format PartTypes ProvenanceTypes GcRequest GcPlanner.

(** ** Errors *)

(** A refusal: [{"error": code}] with its HTTP status, [None] for a transport fault; times are in nanoseconds. *)
Record LakePartRefusal := { rf_status : option Z; rf_code : string; rf_retry_after : option Z }.
Record CatalogCustodyHeld := { ch_reason : string; ch_part_pinned : bool }.

(** [anyhow::Error], as far as the code looks at one: its rendered chain, the payloads
    [downcast_ref] finds and the causes [chain().any] finds. *)
Record AnyError := {
  ae_text : string;
  ae_refusal : option LakePartRefusal;
  ae_bearer_refused : bool;
  ae_custody : option CatalogCustodyHeld;
  (** [IndexReadProgress.pushed] *)
  ae_progress : option Z;
  (** [RefreshSuspended], [InventoryStale], [LogAdvanced] *)
  ae_refresh_suspended : bool; ae_inventory_stale : bool; ae_log_advanced : bool }.

(** [anyhow!(text)] *)
Definition plain_error (text : string) : AnyError :=
  {| ae_text := text; ae_refusal := None; ae_bearer_refused := false; ae_custody := None; ae_progress := None;
     ae_refresh_suspended := false; ae_inventory_stale := false; ae_log_advanced := false |}.

(** [error.context(IndexReadProgress { pushed })] *)
Definition with_progress (pushed : Z) (e : AnyError) : AnyError :=
  {| ae_text := "index read interrupted after publishing " +:+ to_dec pushed +:+ " verified entries: " +:+ ae_text e;
     ae_refusal := ae_refusal e; ae_bearer_refused := ae_bearer_refused e; ae_custody := ae_custody e; ae_progress := Some pushed;
     ae_refresh_suspended := ae_refresh_suspended e; ae_inventory_stale := ae_inventory_stale e; ae_log_advanced := ae_log_advanced e |}.

Definition CREDENTIAL_REFRESH : string := "credential_refresh".
Definition INVENTORY_STALE : string := "inventory_stale".
Definition LOG_CATCHING_UP : string := "log_catching_up".

(** [routine_fence] *)
Definition routine_fence (e : AnyError) : option string :=
  if ae_refresh_suspended e then Some CREDENTIAL_REFRESH
  else if ae_inventory_stale e then Some INVENTORY_STALE
  else if ae_log_advanced e then Some LOG_CATCHING_UP
  else None.

(** ** The log reader and the index *)

Record VerifiedEntryBytes := { ve_bytes : string; ve_sha256 : string; ve_entry : LogEntry }.
Record CheckpointClaim := { cc_seq : Z; cc_checkpoint_sha256 : string; cc_entry_sha256 : string }.
Record AdoptedClaim := { ac_part_id : string; ac_key : string; ac_sha256 : string }.
Record IndexEntry := { ie_seq : Z; ie_entry_base64 : string }.
Record DeletedKey := { dk_key : string; dk_permit_id : string; dk_receipt_sha256 : string }.
Record IndexRequest := {
  ir_request_id : string; ir_tenant_uuid : string; ir_entries : list IndexEntry; ir_adopted : list AdoptedClaim;
  ir_checkpoint : option CheckpointClaim; ir_deleted : list DeletedKey }.
Record IndexStatus := {
  is_tenant_uuid : string; is_indexed_through_seq : option Z; is_head_entry_sha256 : option string; is_checkpoint_seq : option Z;
  is_folded_through_seq : option Z }.

(** [ReceiptedRun]: the state under the lock of [ReceiptedAppends]. *)
Record ReceiptedRun := { rr_through : option Z; rr_started_at_ms : Z }.

(** ** The delete authority *)

Record DeleteOwnerAuthorization := {
  oa_schema_version : Z; oa_signer_key_id : string; oa_issued_at : string; oa_expires_at : string; oa_identity_sha256 : string;
  oa_signature_base64 : string }.
Record LakePartDeletePermit := {
  pm_request : LakePartDeleteRequest; pm_permit_id : string; pm_owner_authorization : DeleteOwnerAuthorization }.
Record LakePartDeleteReceipt := {
  rc_schema_version : Z; rc_permit_id : string; rc_identity_sha256 : string; rc_receipt_sha256 : string; rc_state : string;
  rc_final_head_absent : bool }.

#[export] Instance LakePartDeleteRequest_eq_dec : EqDecision LakePartDeleteRequest.
Proof. solve_decision. Defined.
#[export] Instance DeleteOwnerAuthorization_eq_dec : EqDecision DeleteOwnerAuthorization.
Proof. solve_decision. Defined.
#[export] Instance LakePartDeletePermit_eq_dec : EqDecision LakePartDeletePermit.
Proof. solve_decision. Defined.

(** ** The world *)

Class GcWorld := {
  World : Type;
  (** [LakePartIndexClient::index] *)
  call_index : IndexRequest -> World -> result AnyError IndexStatus * World;
  (** [PartLogReader] *)
  call_entry : Z -> World -> result AnyError (option VerifiedEntryBytes) * World;
  call_checkpoint : World -> result AnyError (option CheckpointClaim) * World;
  call_provenance : PartRef -> World -> result AnyError ProvenanceRecord * World;
  (** [LakePartDeleteAuthority] *)
  call_supports : World -> result AnyError bool * World;
  call_supports_quarantine : World -> result AnyError bool * World;
  call_authorize : LakePartDeleteRequest -> World -> result AnyError LakePartDeletePermit * World;
  call_prepare : LakePartDeletePermit -> World -> result AnyError LakePartDeletePermit * World;
  call_retire : LakePartDeletePermit -> World -> result AnyError LakePartDeleteReceipt * World;
  (** [PartObjectLister] *)
  call_list : string -> World -> result AnyError (list ListedPartObject) * World;
  call_get_small : string -> Z -> World -> result AnyError (option string) * World;
  (** one lock of the writer's [ReceiptedAppends] *)
  call_appends : World -> ReceiptedRun * World;
  (** [chrono::Utc::now()], nanoseconds *)
  call_utc_now : World -> Z * World;
  (** [tokio::time]: [Instant::now()], [sleep], [sleep_until], nanoseconds *)
  call_instant : World -> Z * World;
  call_sleep : Z -> World -> unit * World;
  call_sleep_until : Z -> World -> unit * World;
  (** [Uuid::new_v4()] *)
  call_uuid : World -> string * World;
  (** base64 encoding, standard alphabet *)
  encode_base64 : string -> string;
  (** [DateTime::parse_from_rfc3339], nanoseconds since the epoch *)
  parse_from_rfc3339 : string -> option Z }.

(** A call with its answer. *)
Inductive Event :=
| EvIndex (request : IndexRequest) (answer : result AnyError IndexStatus)
| EvEntry (seq : Z) (answer : result AnyError (option VerifiedEntryBytes))
| EvCheckpoint (answer : result AnyError (option CheckpointClaim))
| EvProvenance (part : PartRef) (answer : result AnyError ProvenanceRecord)
| EvSupports (answer : result AnyError bool)
| EvAuthorize (request : LakePartDeleteRequest) (answer : result AnyError LakePartDeletePermit)
| EvPrepare (permit : LakePartDeletePermit) (answer : result AnyError LakePartDeletePermit)
| EvRetire (permit : LakePartDeletePermit) (answer : result AnyError LakePartDeleteReceipt)
| EvAppends (run : ReceiptedRun)
| EvUtcNow (now : Z)
| EvInstant (now : Z)
| EvSleep (duration : Z)
| EvSleepUntil (deadline : Z)
| EvUuid (id : string)
| EvSupportsQuarantine (answer : result AnyError bool)
| EvList (prefix : string) (answer : result AnyError (list ListedPartObject))
| EvGetSmall (key : string) (answer : result AnyError (option string)).

(** ** The monad *)

(** The events of a run, the world after it and the result. *)
Definition GC `{GcWorld} (A : Type) : Type := World -> list Event * World * A.

Section monad.
Context `{W : GcWorld}.

#[export] Instance gc_ret : MRet GC := fun A a w => ([], w, a).
#[export] Instance gc_bind : MBind GC := fun A B k m w =>
  let '(e1, w1, a) := m w in let '(e2, w2, b) := k a w1 in (e1 ++ e2, w2, b).

Definition ask {X} (call : World -> X * World) (event : X -> Event) : GC X :=
  fun w => let '(x, w') := call w in ([event x], w', x).

Definition index_call (r : IndexRequest) : GC (result AnyError IndexStatus) := ask (call_index r) (EvIndex r).
Definition verified_entry (seq : Z) : GC (result AnyError (option VerifiedEntryBytes)) := ask (call_entry seq) (EvEntry seq).
Definition newest_checkpoint : GC (result AnyError (option CheckpointClaim)) := ask call_checkpoint EvCheckpoint.
Definition verified_provenance (p : PartRef) : GC (result AnyError ProvenanceRecord) := ask (call_provenance p) (EvProvenance p).
Definition worker_supports_lake_part_delete : GC (result AnyError bool) := ask call_supports EvSupports.
Definition authorize (r : LakePartDeleteRequest) : GC (result AnyError LakePartDeletePermit) := ask (call_authorize r) (EvAuthorize r).
Definition prepare (p : LakePartDeletePermit) : GC (result AnyError LakePartDeletePermit) := ask (call_prepare p) (EvPrepare p).
Definition retire (p : LakePartDeletePermit) : GC (result AnyError LakePartDeleteReceipt) := ask (call_retire p) (EvRetire p).
Definition lock_appends : GC ReceiptedRun := ask call_appends EvAppends.
Definition utc_now : GC Z := ask call_utc_now EvUtcNow.
Definition instant_now : GC Z := ask call_instant EvInstant.
Definition sleep (d : Z) : GC unit := ask (call_sleep d) (fun _ => EvSleep d).
Definition sleep_until (d : Z) : GC unit := ask (call_sleep_until d) (fun _ => EvSleepUntil d).
Definition new_uuid : GC string := ask call_uuid EvUuid.
Definition worker_supports_quarantine_expiry : GC (result AnyError bool) := ask call_supports_quarantine EvSupportsQuarantine.
Definition list_part_objects (prefix : string) : GC (result AnyError (list ListedPartObject)) := ask (call_list prefix) (EvList prefix).
Definition get_small_object (key : string) (limit : Z) : GC (result AnyError (option string)) := ask (call_get_small key limit) (EvGetSmall key).

(** ** Reasoning: what every run of a computation satisfies

    [yields m Q]: from every world, the events and the result of [m] satisfy [Q]. *)
Definition yields {A} (m : GC A) (Q : list Event -> A -> Prop) : Prop := forall w, let '(ev, _, a) := m w in Q ev a.

Lemma yields_ret {A} (a : A) (Q : list Event -> A -> Prop) : Q [] a -> yields (mret a) Q.
Proof. by intros HQ w. Qed.

Lemma yields_mono {A} (m : GC A) (Q Q' : list Event -> A -> Prop) :
  yields m Q -> (forall ev a, Q ev a -> Q' ev a) -> yields m Q'.
Proof. intros Hm HQ w. specialize (Hm w). destruct (m w) as [[ev w'] a]. by apply HQ. Qed.

Lemma yields_bind {A B} (m : GC A) (k : A -> GC B) (Q : list Event -> B -> Prop) :
  yields m (fun e1 a => yields (k a) (fun e2 b => Q (e1 ++ e2) b)) -> yields (m ≫= k) Q.
Proof.
  intros Hm w. specialize (Hm w). unfold mbind, gc_bind. destruct (m w) as [[e1 w1] a]. specialize (Hm w1).
  by destruct (k a w1) as [[e2 w2] b].
Qed.

Lemma yields_assoc {A B C} (m : GC A) (k : A -> GC B) (f : B -> GC C) (Q : list Event -> C -> Prop) :
  yields ((m ≫= k) ≫= f) Q -> yields (m ≫= fun a => k a ≫= f) Q.
Proof.
  intros Hm w. specialize (Hm w). unfold mbind, gc_bind in *. destruct (m w) as [[e1 w1] a]. destruct (k a w1) as [[e2 w2] b].
  destruct (f b w2) as [[e3 w3] c]. by rewrite app_assoc.
Qed.

Lemma yields_ask {X} call event (Q : list Event -> X -> Prop) : (forall x, Q [event x] x) -> yields (ask call event) Q.
Proof. intros HQ w. unfold ask. by destruct (call w) as [x w']. Qed.

Lemma yields_and {A} (m : GC A) (Q Q' : list Event -> A -> Prop) :
  yields m Q -> yields m Q' -> yields m (fun ev a => Q ev a /\ Q' ev a).
Proof. intros H1 H2 w. specialize (H1 w). specialize (H2 w). by destruct (m w) as [[ev w'] a]. Qed.

Lemma yields_run {A} (m : GC A) (Q : list Event -> A -> Prop) w ev w' a : yields m Q -> m w = (ev, w', a) -> Q ev a.
Proof. intros Hm E. specialize (Hm w). by rewrite E in Hm. Qed.

(** The parts of a run. *)
Lemma gc_run_eta {A} (m : GC A) w : m w = ((m w).1.1, (m w).1.2, (m w).2).
Proof. by destruct (m w) as [[? ?] ?]. Qed.

(** A property of every event of a run. *)
Definition all_events {A} (P : Event -> Prop) (m : GC A) : Prop := yields m (fun ev _ => Forall P ev).

Lemma all_events_ret {A} P (a : A) : all_events P (mret a).
Proof. by apply yields_ret. Qed.
Lemma all_events_bind {A B} P (m : GC A) (k : A -> GC B) : all_events P m -> (forall a, all_events P (k a)) -> all_events P (m ≫= k).
Proof.
  intros Hm Hk. apply yields_bind. eapply yields_mono; [exact Hm|]. cbn. intros e1 a He1.
  eapply yields_mono; [apply Hk|]. cbn. intros e2 b He2. by apply Forall_app.
Qed.
Lemma all_events_ask {X} P call (event : X -> Event) : (forall x, P (event x)) -> all_events P (ask call event).
Proof. intros Hx. apply yields_ask. intros x. by repeat constructor. Qed.
End monad.

(** A property of every event of a run and of what happened before it. *)
Definition each_event (Q : list Event -> Event -> Prop) (before ev : list Event) : Prop :=
  forall pre e post, ev = pre ++ e :: post -> Q (before ++ pre) e.

Lemma each_event_app Q before e1 e2 : each_event Q before e1 -> each_event Q (before ++ e1) e2 -> each_event Q before (e1 ++ e2).
Proof.
  intros H1 H2 pre e post E. apply app_eq_inv in E as [(k & -> & E)|(k & -> & E)].
  - destruct k as [|x k]; cbn in E.
    + rewrite app_nil_r in H2. rewrite <- (app_nil_r (before ++ pre)). by apply (H2 [] e post).
    + injection E as <- ->. by eapply H1.
  - rewrite app_assoc. by eapply H2.
Qed.
Lemma each_event_cons Q before e ev : Q before e -> each_event Q (before ++ [e]) ev -> each_event Q before (e :: ev).
Proof.
  intros H1 H2. apply (each_event_app Q before [e]); [|done]. intros [|x pre] y post E; [|by destruct pre]. cbn in E. simplify_eq. by rewrite app_nil_r.
Qed.
Lemma each_event_nil Q before : each_event Q before [].
Proof. by intros [] y post. Qed.
(** Events that never matter to [Q]. *)
Lemma each_event_quiet (Q : list Event -> Event -> Prop) (quiet : Event -> Prop) before ev :
  (forall b e, quiet e -> Q b e) -> Forall quiet ev -> each_event Q before ev.
Proof. intros HQ Hq pre e post ->. apply Forall_app in Hq as [_ [He _]%Forall_cons]. by apply HQ. Qed.

Create HintDb gc_events.
#[export] Hint Resolve all_events_ret all_events_ask each_event_nil : gc_events.

(** Walk a computation for a property of its events. *)
Ltac events_step :=
  match goal with
  | |- all_events _ (mret _) => apply all_events_ret
  | |- all_events _ (_ ≫= _) => apply all_events_bind; [|intros ?]
  | |- all_events _ (match ?x with _ => _ end) => destruct x
  | |- all_events _ (let '(_, _) := ?x in _) => destruct x
  | |- all_events _ _ => solve [eauto with gc_events | apply all_events_ask; intros ?; exact I]
  end.
Ltac events := repeat (events_step; cbn beta iota zeta).
