(* ===== verification/GcIndex.v ===== *)
(** * GcIndex: publishing the part log to control's index

    Models [lake_part_gc/index.rs]: the writer's receipted watermark, the index call with its
    retries, the in-order read-ahead, the batches of [sync_index_inner], the report of deleted
    keys and the bounded fold of the log into the GC's view. *)
From S2P Require Import Prelude Platform Format PartTypes LiveSet ProvenanceTypes GcRequest GcPlanner GcEnv.

Definition MAX_INDEX_ENTRIES : Z := 256.
Definition INDEX_SETTLE_MS : Z := 60000.
Definition RECEIPT_WINDOW_MS : Z := 5 * 60000.
Definition MAX_INDEX_BATCH_BASE64_BYTES : Z := 6 * 1024 * 1024.
Definition MAX_INDEX_BATCH_PART_REFS : Z := 4096.
Definition MAX_INDEX_REQUESTS_PER_SYNC : Z := 8.
Definition MAX_VIEW_INDEX_REQUESTS_PER_SYNC : Z := 1024.
Definition MAX_CONSECUTIVE_GAP_RECOVERIES : Z := 8.
Definition INDEX_READ_AHEAD : Z := 8.
Definition INDEX_BACKOFF_RETRIES : Z := 4.
Definition NANOS : Z := 1000000000.
Definition INDEX_BACKOFF_BASE : Z := 1 * NANOS.
Definition INDEX_BACKOFF_MAX : Z := 30 * NANOS.
Definition INDEX_RETRY_AFTER_MAX : Z := 60 * NANOS.
Definition MAX_DELETED_PER_REQUEST : Z := 1024.
Definition BEARER_REFUSED : string := "owner_bearer_refused_401".
Definition RECEIPT_MISSING : string := "lake_part_index_receipt_missing".

(** ** The receipted watermark *)

(** [ReceiptedRun::default()] *)
Definition run_default : ReceiptedRun := {| rr_through := None; rr_started_at_ms := 0 |}.
(** [ReceiptedAppends::record] *)
Definition appends_record (run : ReceiptedRun) (seq appended_at_ms : Z) : ReceiptedRun :=
  let gap := match rr_through run with None => true | Some through => negb (seq =? sat_u64 (through + 1)) end in
  {| rr_through := Some seq; rr_started_at_ms := if gap then Z.max (rr_started_at_ms run) appended_at_ms else rr_started_at_ms run |}.
(** [ReceiptedAppends::completed_head] *)
Definition completed_head (run : ReceiptedRun) : option Z := rr_through run.
(** [ReceiptedAppends::receipted_through] *)
Definition receipted_through (run : ReceiptedRun) (now_ms : Z) : option Z :=
  if INDEX_SETTLE_MS <=? sat_i64 (now_ms - rr_started_at_ms run) then rr_through run else None.

(** [part_refs] *)
Definition part_refs (o : LogOp) : Z :=
  match o with
  | Genesis _ | Schema _ | EdgeFloor _ _ _ | Reject _ | EdgeEnd _ _ _ => 0
  | Add parts _ _ | Adopt parts => Z.of_nat (length parts)
  | Merge _ supersedes | Rewrite _ supersedes _ => wrap_u64 (1 + Z.of_nat (length supersedes))
  | Retire parts _ _ => Z.of_nat (length parts)
  end.

(** [AdoptedClaim::from_record] *)
Definition claim_from_record (part : PartRef) (record : ProvenanceRecord) : result AnyError AdoptedClaim :=
  match pr_inputs record, pf_data (pr_files record) with
  | Adopted _ objects, [data] =>
      match objects with
      | [object] =>
          if bool_decide (pr_part_id record = part_id part) && bool_decide (ao_key object = df_name data)
             && bool_decide (ao_sha256 object = df_sha256 data)
          then Ok {| ac_part_id := pid_str (part_id part); ac_key := df_name data; ac_sha256 := df_sha256 data |}
          else Err (plain_error ("adopted record of part " +:+ pid_str (part_id part) +:+ " does not bind one object"))
      | _ => Err (plain_error ("adopted record of part " +:+ pid_str (part_id part) +:+ " does not bind one object"))
      end
  | _, _ => Err (plain_error ("part " +:+ pid_str (part_id part) +:+ " added by an adopt entry is not an adopted record"))
  end.

(** ** Refusals *)

(** [LakePartRefusal::is_backoff] *)
Definition is_backoff (self : LakePartRefusal) : bool :=
  bool_decide (rf_code self ∈ ["lake_part_tenant_rate_limit"; "lake_part_attestation_unavailable"; "lake_part_index_unavailable";
                               "lake_part_service_assertion_replay"; "lake_part_clock_skew"])
  || match rf_status self with None => true | Some status => (status =? 429) || (500 <=? status) end.

Inductive IndexSyncOutcome :=
| Synced (status : IndexStatus) (caught_up : bool) (pushed gap_recoveries : Z) (head_appended_ms : option Z) (settling : bool)
| RouteNotServed
| BackOff (code : string)
| Refused (code : string).

Module Call.
Inductive t := Ok (status : IndexStatus) | Gap | Stop (outcome : IndexSyncOutcome).
End Call.

(** [index_backoff_delay], nanoseconds; a [Duration] saturates. *)
Definition DURATION_MAX : Z := u64_max * NANOS + 999999999.
Definition dur_saturating_mul (d n : Z) : Z := Z.min DURATION_MAX (d * n).
Definition index_backoff_delay (attempt : Z) (retry_after : option Z) : Z :=
  match retry_after with
  | Some after => Z.min after INDEX_RETRY_AFTER_MAX
  | None => Z.min (dur_saturating_mul INDEX_BACKOFF_BASE (Z.shiftl 1 (Z.min (Z.max 0 (attempt - 1)) 16))) INDEX_BACKOFF_MAX
  end.

(** The [while] loop over a batch leaves it filled or returns from the sync. *)
Inductive Flow (S R : Type) := Continue (s : S) | Break (s : S) | Return (r : R).
Arguments Continue {S R} s.
Arguments Break {S R} s.
Arguments Return {S R} r.

(** [entries.is_empty()] *)
Definition nil_b {A} (l : list A) : bool := match l with [] => true | _ => false end.

Section index.
Context `{W : GcWorld}.

(** ** Calls *)

(** [call] *)
Definition call (request : IndexRequest) : GC Call.t :=
  answer ← index_call request;
  mret match answer with
  | Ok status =>
      if bool_decide (is_tenant_uuid status = ir_tenant_uuid request) then Call.Ok status
      else Call.Stop (Refused "index_response_tenant_mismatch")
  | Err error =>
      if ae_bearer_refused error then Call.Stop (Refused BEARER_REFUSED) else
      match ae_refusal error with
      | Some refusal =>
          if bool_decide (rf_status refusal = Some 404) then Call.Stop RouteNotServed
          else if bool_decide (rf_code refusal = "lake_part_index_gap") then Call.Gap
          else if is_backoff refusal then Call.Stop (BackOff (rf_code refusal))
          else Call.Stop (Refused (rf_code refusal))
      | None => Call.Stop (BackOff ("index_call_failed: " +:+ ae_text error))
      end
  end.

(** The loop of [call_retrying] with [retries] retries left: [attempt] is [INDEX_BACKOFF_RETRIES - retries]. *)
Fixpoint call_loop (retries : nat) (request : IndexRequest) : GC Call.t :=
  answer ← index_call request;
  match answer with
  | Ok status =>
      mret (if bool_decide (is_tenant_uuid status = ir_tenant_uuid request) then Call.Ok status
            else Call.Stop (Refused "index_response_tenant_mismatch"))
  | Err error =>
      let retry (retry_after : option Z) (stop : Call.t) : GC Call.t :=
        match retries with
        | O => mret stop
        | S retries =>
            let attempt := INDEX_BACKOFF_RETRIES - Z.of_nat retries in
            _ ← sleep (index_backoff_delay attempt retry_after);
            call_loop retries request
        end in
      if ae_bearer_refused error then mret (Call.Stop (Refused BEARER_REFUSED)) else
      match ae_refusal error with
      | Some refusal =>
          if bool_decide (rf_status refusal = Some 404) then mret (Call.Stop RouteNotServed)
          else if bool_decide (rf_code refusal = "lake_part_index_gap") then mret Call.Gap
          else if is_backoff refusal then retry (rf_retry_after refusal) (Call.Stop (BackOff (rf_code refusal)))
          else mret (Call.Stop (Refused (rf_code refusal)))
      | None => retry None (Call.Stop (BackOff ("index_call_failed: " +:+ ae_text error)))
      end
  end.
Definition call_retrying (request : IndexRequest) : GC Call.t := call_loop (Z.to_nat INDEX_BACKOFF_RETRIES) request.

(** [status_read] *)
Definition status_read (tenant_uuid : string) : GC IndexRequest :=
  id ← new_uuid;
  mret {| ir_request_id := id; ir_tenant_uuid := tenant_uuid; ir_entries := []; ir_adopted := []; ir_checkpoint := None; ir_deleted := [] |}.

(** The loop of [report_deleted]: every round takes a batch off the queue, so the length of the
    queue is enough fuel. The queue after the call and its result. *)
Fixpoint report_loop (fuel : nat) (tenant_uuid : string) (queue : list DeletedKey) (reported : Z) : GC (list DeletedKey * result string Z) :=
  match fuel, queue with
  | O, _ | _, [] => mret (queue, Ok reported)
  | S fuel, _ =>
      let batch := Nat.min (length queue) (Z.to_nat MAX_DELETED_PER_REQUEST) in
      base ← status_read tenant_uuid;
      answer ← call {| ir_request_id := ir_request_id base; ir_tenant_uuid := ir_tenant_uuid base; ir_entries := ir_entries base;
                       ir_adopted := ir_adopted base; ir_checkpoint := ir_checkpoint base; ir_deleted := take batch queue |};
      match answer with
      | Call.Ok _ => report_loop fuel tenant_uuid (drop batch queue) (wrap_u64 (reported + Z.of_nat batch))
      | Call.Gap => mret (queue, Err "lake_part_index_gap")
      | Call.Stop RouteNotServed => mret (queue, Err "index_route_not_served")
      | Call.Stop (BackOff code) | Call.Stop (Refused code) => mret (queue, Err code)
      | Call.Stop (Synced _ _ _ _ _ _) => mret (queue, Err "unexpected")
      end
  end.
Definition report_deleted (tenant_uuid : string) (queue : list DeletedKey) : GC (list DeletedKey * result string Z) :=
  report_loop (length queue) tenant_uuid queue 0.

(** ** Read-ahead

    A read in flight has its answer from the time it is queued; the world decides the answers,
    so every order of completion is among its behaviours. *)
Record ReadAhead := {
  ra_pending : list (Z * result AnyError (option VerifiedEntryBytes)); ra_front : option Z; ra_queued : Z; ra_limit : option Z;
  ra_window : Z; ra_held : option VerifiedEntryBytes }.

(** [ReadAhead::new] *)
Definition read_ahead_new (limit : option Z) (window : Z) : ReadAhead :=
  {| ra_pending := []; ra_front := None; ra_queued := 0; ra_limit := limit; ra_window := Z.max 1 window; ra_held := None |}.

(** The [while] of [entry]: at most [room] more reads fit the window. *)
Fixpoint queue_reads (room : nat) (a : ReadAhead) : GC (ReadAhead * result AnyError unit) :=
  match room with
  | O => mret (a, Ok tt)
  | S room =>
      if match ra_limit a with None => true | Some limit => ra_queued a <=? limit end then
        let next := ra_queued a in
        answer ← verified_entry next;
        let queued q := {| ra_pending := ra_pending a ++ [(next, answer)]; ra_front := ra_front a; ra_queued := q; ra_limit := ra_limit a;
                           ra_window := ra_window a; ra_held := ra_held a |} in
        if next =? u64_max then mret (queued next, Err (plain_error "index read-ahead sequence overflow"))
        else queue_reads room (queued (next + 1))
      else mret (a, Ok tt)
  end.

(** The rest of [entry], when nothing is held for [seq]. *)
Definition read (a : ReadAhead) (seq : Z) : GC (ReadAhead * result AnyError (option VerifiedEntryBytes)) :=
  let a := if bool_decide (ra_front a = Some seq) then a else
    {| ra_pending := []; ra_front := Some seq; ra_queued := seq; ra_limit := ra_limit a; ra_window := ra_window a; ra_held := ra_held a |} in
  '(a, r) ← queue_reads (Z.to_nat (ra_window a) - length (ra_pending a)) a;
  mret match r with
  | Err e => (a, Err e)
  | Ok _ =>
      match ra_pending a with
      | [] => (a, Err (plain_error "index read-ahead is empty"))
      | (read, answer) :: pending =>
          let popped front := {| ra_pending := pending; ra_front := front; ra_queued := ra_queued a; ra_limit := ra_limit a;
                                 ra_window := ra_window a; ra_held := ra_held a |} in
          if negb (read =? seq)
          then (popped (ra_front a), Err (plain_error ("index read-ahead returned entry " +:+ to_dec read +:+ " for seq " +:+ to_dec seq)))
          else (popped (if seq =? u64_max then None else Some (seq + 1)), answer)
      end
  end.

(** [ReadAhead::entry] *)
Definition entry (a : ReadAhead) (seq : Z) : GC (ReadAhead * result AnyError (option VerifiedEntryBytes)) :=
  let taken := {| ra_pending := ra_pending a; ra_front := ra_front a; ra_queued := ra_queued a; ra_limit := ra_limit a;
                  ra_window := ra_window a; ra_held := None |} in
  match ra_held a with
  | Some held => if PartTypes.seq (ve_entry held) =? seq then mret (taken, Ok (Some held)) else read taken seq
  | None => read taken seq
  end.

(** [ReadAhead::unread] *)
Definition unread (a : ReadAhead) (e : VerifiedEntryBytes) : ReadAhead :=
  {| ra_pending := ra_pending a; ra_front := ra_front a; ra_queued := ra_queued a; ra_limit := ra_limit a; ra_window := ra_window a;
     ra_held := Some e |}.
(** [ReadAhead::stop] *)
Definition ra_stop (a : ReadAhead) : ReadAhead :=
  {| ra_pending := []; ra_front := None; ra_queued := ra_queued a; ra_limit := ra_limit a; ra_window := ra_window a; ra_held := None |}.

(** ** One batch *)

Definition base64_len (bytes : Z) : Z := wrap_u64 ((bytes + 2) / 3 * 4).

(** What [batch_meta] keeps of an entry: seq, digest, append time, claims so far. *)
Record BatchMeta := { bm_seq : Z; bm_sha256 : string; bm_appended_ms : Z; bm_claims : nat }.

Record Batch := {
  b_entries : list IndexEntry; b_adopted : list AdoptedClaim; b_bytes : Z; b_refs : Z; b_exhausted : bool; b_unsettled : bool;
  b_meta : list BatchMeta; b_read_error : option AnyError; b_last : option (Z * string * Z); b_expected_prev : string; b_ahead : ReadAhead }.
Definition batch_new (expected_prev : string) (ahead : ReadAhead) : Batch :=
  {| b_entries := []; b_adopted := []; b_bytes := 0; b_refs := 0; b_exhausted := false; b_unsettled := false; b_meta := [];
     b_read_error := None; b_last := None; b_expected_prev := expected_prev; b_ahead := ahead |}.

Definition with_ahead (b : Batch) (a : ReadAhead) : Batch :=
  {| b_entries := b_entries b; b_adopted := b_adopted b; b_bytes := b_bytes b; b_refs := b_refs b; b_exhausted := b_exhausted b;
     b_unsettled := b_unsettled b; b_meta := b_meta b; b_read_error := b_read_error b; b_last := b_last b;
     b_expected_prev := b_expected_prev b; b_ahead := a |}.
(** The exits of the loop: nothing more to read, an unsettled entry, a failed read. *)
Definition exhaust (b : Batch) : Batch :=
  {| b_entries := b_entries b; b_adopted := b_adopted b; b_bytes := b_bytes b; b_refs := b_refs b; b_exhausted := true;
     b_unsettled := b_unsettled b; b_meta := b_meta b; b_read_error := b_read_error b; b_last := b_last b;
     b_expected_prev := b_expected_prev b; b_ahead := b_ahead b |}.
Definition unsettle (b : Batch) : Batch :=
  {| b_entries := b_entries b; b_adopted := b_adopted b; b_bytes := b_bytes b; b_refs := b_refs b; b_exhausted := true;
     b_unsettled := true; b_meta := b_meta b; b_read_error := b_read_error b; b_last := b_last b;
     b_expected_prev := b_expected_prev b; b_ahead := b_ahead b |}.
Definition fail_read (b : Batch) (e : AnyError) : Batch :=
  {| b_entries := b_entries b; b_adopted := b_adopted b; b_bytes := b_bytes b; b_refs := b_refs b; b_exhausted := b_exhausted b;
     b_unsettled := b_unsettled b; b_meta := b_meta b; b_read_error := Some e; b_last := b_last b;
     b_expected_prev := b_expected_prev b; b_ahead := b_ahead b |}.
(** The end of an iteration: the entry, its claims and its bookkeeping. *)
Definition push_entry (b : Batch) (v : VerifiedEntryBytes) (claims : list AdoptedClaim) (size refs seq : Z) : Batch :=
  let adopted := b_adopted b ++ claims in
  {| b_entries := b_entries b ++ [{| ie_seq := seq; ie_entry_base64 := encode_base64 (ve_bytes v) |}]; b_adopted := adopted;
     b_bytes := wrap_u64 (b_bytes b + size); b_refs := wrap_u64 (b_refs b + refs); b_exhausted := b_exhausted b; b_unsettled := b_unsettled b;
     b_meta := b_meta b ++ [{| bm_seq := seq; bm_sha256 := ve_sha256 v; bm_appended_ms := appended_at_ms (ve_entry v); bm_claims := length adopted |}];
     b_read_error := b_read_error b; b_last := Some (seq, ve_sha256 v, appended_at_ms (ve_entry v)); b_expected_prev := ve_sha256 v;
     b_ahead := b_ahead b |}.

(** The claims of an [adopt] entry, in part order; [?] returns at the first failure. *)
Fixpoint adopt_claims (parts : list PartRef) : GC (result AnyError (list AdoptedClaim)) :=
  match parts with
  | [] => mret (Ok [])
  | part :: parts =>
      record ← verified_provenance part;
      match (r ← record; claim_from_record part r) with
      | Err e => mret (Err e)
      | Ok claim =>
          rest ← adopt_claims parts;
          mret (claims ← rest; Ok (claim :: claims))
      end
  end.
Definition entry_claims (o : LogOp) : GC (result AnyError (list AdoptedClaim)) :=
  match o with Adopt parts => adopt_claims parts | _ => mret (Ok []) end.

Definition claim_size (c : AdoptedClaim) : Z := str_len (ac_part_id c) + str_len (ac_key c) + str_len (ac_sha256 c) + 48.
Definition entry_size (v : VerifiedEntryBytes) (claims : list AdoptedClaim) : Z :=
  wrap_u64 (base64_len (str_len (ve_bytes v)) + wrap_u64 (zsum (claim_size <$> claims))).

(** The age gate: younger than [INDEX_SETTLE_MS] and not under the receipted watermark. *)
Definition unsettled (now_ms : Z) (receipted : option Z) (v : VerifiedEntryBytes) (seq : Z) : bool :=
  (sat_i64 (now_ms - appended_at_ms (ve_entry v)) <? INDEX_SETTLE_MS)
  && match receipted with None => true | Some through => through <? seq end.

Section sync.
Context (tenant_uuid : string) (view_target : option (option Z)) (now_ms : Z) (receipted : option Z).

(** One iteration of the [while]; [next] is the first sequence of the batch. *)
Definition fill_step (next : Z) (b : Batch) : GC (Flow Batch (result AnyError IndexSyncOutcome)) :=
  let seq := wrap_u64 (next + Z.of_nat (length (b_entries b))) in
  if match view_target with None => false | Some None => true | Some (Some head) => head <? seq end then mret (Break (exhaust b)) else
  '(ahead, answer) ← entry (b_ahead b) seq;
  match answer with
  | Err e => mret (Break (fail_read (with_ahead b (ra_stop ahead)) e))
  | Ok None =>
      let b := with_ahead b (ra_stop ahead) in
      mret (Break (if is_some view_target then fail_read b (plain_error "complete_view_entry_missing") else exhaust b))
  | Ok (Some v) =>
      if negb (PartTypes.seq (ve_entry v) =? seq) || negb (bool_decide (prev_sha256 (ve_entry v) = b_expected_prev b))
      then mret (Return (Ok (Refused "local_chain_mismatch"))) else
      if unsettled now_ms receipted v seq then mret (Break (unsettle (with_ahead b (ra_stop ahead)))) else
      claims ← entry_claims (op (ve_entry v));
      match claims with
      | Err e => mret (Return (Err e))
      | Ok claims =>
          let size := entry_size v claims in
          let refs := part_refs (op (ve_entry v)) in
          mret (if negb (nil_b (b_entries b))
                   && ((MAX_INDEX_BATCH_BASE64_BYTES <? wrap_u64 (b_bytes b + size)) || (MAX_INDEX_BATCH_PART_REFS <? wrap_u64 (b_refs b + refs)))
                then Break (with_ahead b (unread ahead v))
                else Continue (push_entry (with_ahead b ahead) v claims size refs seq))
      end
  end.

(** Every iteration that goes on pushes an entry: [room] more fit the batch. *)
Fixpoint fill (room : nat) (next : Z) (b : Batch) : GC (Batch + result AnyError IndexSyncOutcome) :=
  match room with
  | O => mret (inl b)
  | S room =>
      step ← fill_step next b;
      match step with
      | Continue b => fill room next b
      | Break b => mret (inl b)
      | Return r => mret (inr r)
      end
  end.

(** ** The sync *)

(** The variables of [sync_index_inner]. *)
Record SyncState := {
  ss_status : IndexStatus; ss_pushed : Z; ss_gap_recoveries : Z; ss_stalled_gaps : Z; ss_head_appended_ms : option Z; ss_ahead : ReadAhead }.

(** [IndexSyncOutcome::Synced] with the variables as they are. *)
Definition synced (st : SyncState) (caught_up settling : bool) : IndexSyncOutcome :=
  Synced (ss_status st) caught_up (ss_pushed st) (ss_gap_recoveries st) (ss_head_appended_ms st) settling.

(** A batch that was sent: the request, what its acceptance means, and the answer. *)
Record Attempt := {
  at_request : IndexRequest; at_last : option (Z * string * Z); at_count : Z; at_exhausted : bool; at_unsettled : bool; at_answer : Call.t }.

Definition receipt_missing (answer : Call.t) : bool :=
  match answer with Call.Stop (Refused code) => bool_decide (code = RECEIPT_MISSING) | _ => false end.

(** [iter().position(p)] *)
Fixpoint find_position {A} (p : A -> bool) (l : list A) : option nat :=
  match l with [] => None | x :: l => if p x then Some O else S <$> find_position p l end.

(** The prefix a refused batch is retried with: up to the first entry not yet settled by age, one shorter otherwise. *)
Definition keep_prefix (b : Batch) : nat :=
  default (length (b_entries b) - 1)%nat (find_position (fun m => sat_i64 (now_ms - bm_appended_ms m) <=? INDEX_SETTLE_MS) (b_meta b)).

(** [request] cut to its first [keep] entries, with the claims and the checkpoint within them. *)
Definition truncate_request (request : IndexRequest) (id : string) (keep : nat) (m : BatchMeta) : IndexRequest :=
  {| ir_request_id := id; ir_tenant_uuid := ir_tenant_uuid request; ir_entries := take keep (ir_entries request);
     ir_adopted := take (bm_claims m) (ir_adopted request);
     ir_checkpoint := (claim ← ir_checkpoint request; if cc_seq claim <=? bm_seq m then Some claim else None);
     ir_deleted := ir_deleted request |}.

(** Send the batch; where control misses a young entry's receipt, retry a strictly shorter prefix once. *)
Definition send_batch (st : SyncState) (b : Batch) (request : IndexRequest) : GC (Attempt + IndexSyncOutcome) :=
  answer ← call_retrying request;
  let sent := {| at_request := request; at_last := b_last b; at_count := Z.of_nat (length (b_entries b)); at_exhausted := b_exhausted b;
                 at_unsettled := b_unsettled b; at_answer := answer |} in
  if negb (receipt_missing answer) then mret (inl sent) else
  match last (b_meta b) with
  | None => mret (inl sent)
  | Some newest =>
      if negb (sat_i64 (now_ms - bm_appended_ms newest) <? RECEIPT_WINDOW_MS) then mret (inl sent) else
      if Z.of_nat (length (ir_entries request)) =? 1 then mret (inr (synced st false true)) else
      let keep := keep_prefix b in
      match last (take keep (b_meta b)) with
      | None => mret (inr (synced st false true))
      | Some m =>
          id ← new_uuid;
          let request := truncate_request request id keep m in
          answer ← call_retrying request;
          mret (if receipt_missing answer && (sat_i64 (now_ms - bm_appended_ms m) <? RECEIPT_WINDOW_MS)
                then inr (synced st false true)
                else inl {| at_request := request; at_last := Some (bm_seq m, bm_sha256 m, bm_appended_ms m); at_count := Z.of_nat keep;
                            at_exhausted := true; at_unsettled := true; at_answer := answer |})
      end
  end.

(** Control's answer to an accepted batch must cover it. *)
Definition response_mismatch (last : option (Z * string * Z)) (next_status : IndexStatus) : bool :=
  match last with
  | None => false
  | Some (seq, sha, _) =>
      match is_indexed_through_seq next_status with
      | None => true
      | Some through =>
          (through <? seq) || ((through =? seq) && negb (bool_decide (is_head_entry_sha256 next_status = Some sha)))
      end
  end.

(** The checkpoint still needs sending. *)
Definition claim_pending (checkpoint : option CheckpointClaim) (status : IndexStatus) (through : option Z) : option CheckpointClaim :=
  claim ← checkpoint;
  if some_and through (fun through => cc_seq claim <=? through)
     && match is_checkpoint_seq status with None => true | Some indexed => indexed <? cc_seq claim end
  then Some claim else None.

(** The [match answer] at the end of a round. *)
Definition settle (checkpoint : option CheckpointClaim) (st : SyncState) (b : Batch) (sent : Attempt) :
    GC (Flow SyncState (result AnyError IndexSyncOutcome)) :=
  match at_answer sent with
  | Call.Ok next_status =>
      if response_mismatch (at_last sent) next_status then mret (Return (Ok (Refused "index_response_mismatch"))) else
      let st := {| ss_status := next_status; ss_pushed := wrap_u64 (ss_pushed st + at_count sent); ss_gap_recoveries := ss_gap_recoveries st;
                   ss_stalled_gaps := 0; ss_ahead := b_ahead b;
                   ss_head_appended_ms := match at_last sent with Some (_, _, appended_ms) => Some appended_ms | None => ss_head_appended_ms st end |} in
      mret match b_read_error b with
      | Some error => Return (Err (with_progress (ss_pushed st) error))
      | None =>
          if at_unsettled sent then Return (Ok (synced st false true)) else
          if at_exhausted sent && negb (is_some (ir_checkpoint (at_request sent))) && (0 <? at_count sent)
             && negb (is_some (claim_pending checkpoint next_status (is_indexed_through_seq next_status)))
          then Return (Ok (synced st (negb (at_unsettled sent)) (at_unsettled sent)))
          else Continue st
      end
  | Call.Gap =>
      let st := {| ss_status := ss_status st; ss_pushed := ss_pushed st; ss_gap_recoveries := wrap_u32 (ss_gap_recoveries st + 1);
                   ss_stalled_gaps := wrap_u32 (ss_stalled_gaps st + 1); ss_ahead := b_ahead b; ss_head_appended_ms := ss_head_appended_ms st |} in
      if MAX_CONSECUTIVE_GAP_RECOVERIES <=? ss_stalled_gaps st then mret (Break st) else
      request ← status_read tenant_uuid;
      answer ← call_retrying request;
      mret match answer with
      | Call.Ok status =>
          Continue {| ss_status := status; ss_pushed := ss_pushed st; ss_gap_recoveries := ss_gap_recoveries st;
                      ss_stalled_gaps := ss_stalled_gaps st; ss_ahead := ss_ahead st; ss_head_appended_ms := ss_head_appended_ms st |}
      | Call.Gap => Return (Ok (Refused "lake_part_index_gap"))
      | Call.Stop outcome => Return (Ok outcome)
      end
  | Call.Stop outcome => mret (Return (Ok outcome))
  end.

(** Where control stands: the next sequence it needs and the digest before it. *)
Definition control_head (status : IndexStatus) : option (Z * string) :=
  match is_indexed_through_seq status, is_head_entry_sha256 status with
  | None, _ => Some (0, GENESIS_PREV)
  | Some seq, Some sha => Some (wrap_u64 (seq + 1), sha)
  | Some _, None => None
  end.

(** One round of the [for]. *)
Definition sync_round (checkpoint : option CheckpointClaim) (st : SyncState) : GC (Flow SyncState (result AnyError IndexSyncOutcome)) :=
  match control_head (ss_status st) with
  | None => mret (Return (Ok (Refused "index_status_invalid")))
  | Some (next, expected_prev) =>
      filled ← fill (Z.to_nat MAX_INDEX_ENTRIES) next (batch_new expected_prev (ss_ahead st));
      match filled with
      | inr r => mret (Return r)
      | inl b =>
          let through := match b_last b with Some (seq, _, _) => Some seq | None => is_indexed_through_seq (ss_status st) end in
          let claim := claim_pending checkpoint (ss_status st) through in
          if nil_b (b_entries b) && negb (is_some claim) then
            mret (Return match b_read_error b with
                         | Some error => Err (with_progress (ss_pushed st) error)
                         | None => Ok (synced st (b_exhausted b && negb (b_unsettled b)) (b_unsettled b))
                         end)
          else
            base ← status_read tenant_uuid;
            sent ← send_batch st b {| ir_request_id := ir_request_id base; ir_tenant_uuid := ir_tenant_uuid base; ir_entries := b_entries b;
                                ir_adopted := b_adopted b; ir_checkpoint := claim; ir_deleted := ir_deleted base |};
            match sent with
            | inr outcome => mret (Return (Ok outcome))
            | inl sent => settle checkpoint st b sent
            end
      end
  end.

Fixpoint sync_rounds (requests : nat) (checkpoint : option CheckpointClaim) (st : SyncState) : GC (result AnyError IndexSyncOutcome) :=
  match requests with
  | O => mret (Ok (synced st false false))
  | S requests =>
      step ← sync_round checkpoint st;
      match step with
      | Continue st => sync_rounds requests checkpoint st
      | Break st => mret (Ok (synced st false false))
      | Return r => mret r
      end
  end.

(** [sync_index_inner] *)
Definition sync_index_inner : GC (result AnyError IndexSyncOutcome) :=
  request ← status_read tenant_uuid;
  answer ← call_retrying request;
  match answer with
  | Call.Gap => mret (Ok (Refused "lake_part_index_gap"))
  | Call.Stop outcome => mret (Ok outcome)
  | Call.Ok status =>
      checkpoint ← newest_checkpoint;
      match checkpoint with
      | Err e => mret (Err e)
      | Ok checkpoint =>
          let max_requests := if is_some view_target then MAX_VIEW_INDEX_REQUESTS_PER_SYNC else MAX_INDEX_REQUESTS_PER_SYNC in
          sync_rounds (Z.to_nat max_requests) checkpoint
            {| ss_status := status; ss_pushed := 0; ss_gap_recoveries := 0; ss_stalled_gaps := 0; ss_head_appended_ms := None;
               ss_ahead := read_ahead_new (default None view_target) INDEX_READ_AHEAD |}
      end
  end.
End sync.

(** [sync_index] and [sync_index_through_view] *)
Definition sync_index (tenant_uuid : string) (now_ms : Z) (receipted : option Z) : GC (result AnyError IndexSyncOutcome) :=
  sync_index_inner tenant_uuid None now_ms receipted.
Definition sync_index_through_view (tenant_uuid : string) (head : option Z) (now_ms : Z) (receipted : option Z) : GC (result AnyError IndexSyncOutcome) :=
  sync_index_inner tenant_uuid (Some head) now_ms receipted.

(** ** The fold of the log into the view *)

Inductive CatchUpError := ReadFailed (e : AnyError) | WrongEntry (got seq : Z) | NotApplied (e : LogError).

(** [catch_up_view_bounded]: the view after the call and its result. Every round applies an entry. *)
Fixpoint catch_up_view_loop `{Platform} (limit : nat) (view : LakePartLogView) (applied : Z) : GC (LakePartLogView * result CatchUpError Z) :=
  match limit with
  | O => mret (view, Ok applied)
  | S limit =>
      let seq := match head_seq view with None => 0 | Some seq => wrap_u64 (seq + 1) end in
      answer ← verified_entry seq;
      match answer with
      | Err e => mret (view, Err (ReadFailed e))
      | Ok None => mret (view, Ok applied)
      | Ok (Some v) =>
          if negb (PartTypes.seq (ve_entry v) =? seq) then mret (view, Err (WrongEntry (PartTypes.seq (ve_entry v)) seq)) else
          match gc_view_apply view (ve_entry v) (ve_sha256 v) with
          | (view, Err e) => mret (view, Err (NotApplied e))
          | (view, Ok _) => catch_up_view_loop limit view (applied + 1)
          end
      end
  end.
Definition catch_up_view_bounded `{Platform} (view : LakePartLogView) (limit : Z) : GC (LakePartLogView * result CatchUpError Z) :=
  catch_up_view_loop (Z.to_nat limit) view 0.
(** [catch_up_view]: no bound below [u64::MAX]. *)
Definition catch_up_view `{Platform} (view : LakePartLogView) : GC (LakePartLogView * result CatchUpError Z) := catch_up_view_bounded view u64_max.
End index.
