(* ===== verification/GcIndexSafety.v ===== *)
(** * GcIndexSafety: what control's index is told

    Every request [lake_part_gc/index.rs] sends is a status read or an in-order, chained,
    settled and bounded run of verified entries that starts where control stands, and a sync
    that says "caught up" leaves control with every entry the reader has (or the whole view). *)
From S2P Require Import Prelude Platform Format PartTypes LiveSet LiveSetFacts Replay ProvenanceTypes GcRequest GcPlanner GcSafety GcEnv GcIndex.

(** ** What a request may say *)

Section spec.
Context `{W : GcWorld}.
Context (tenant_uuid : string) (now_ms : Z) (receipted : option Z).

(** The reader answered with [v]. *)
Definition was_read (before : list Event) (v : VerifiedEntryBytes) : Prop := exists s, EvEntry s (Ok (Some v)) ∈ before.

(** Every entry names the digest of the one before it. *)
Fixpoint chained (prev : string) (vs : list VerifiedEntryBytes) : Prop :=
  match vs with [] => True | v :: vs => prev_sha256 (ve_entry v) = prev /\ chained (ve_sha256 v) vs end.
Fixpoint head_after (prev : string) (vs : list VerifiedEntryBytes) : string :=
  match vs with [] => prev | v :: vs => head_after (ve_sha256 v) vs end.

(** One claim per part an [adopt] entry adds, from the part's verified provenance. *)
Definition claims_for (before : list Event) (v : VerifiedEntryBytes) (claims : list AdoptedClaim) : Prop :=
  match op (ve_entry v) with
  | Adopt parts => Forall2 (fun part c => exists r, EvProvenance part (Ok r) ∈ before /\ claim_from_record part r = Ok c) parts claims
  | _ => claims = []
  end.

(** A run of entries, with their claims, that continues a log at [next] after [prev]. *)
Record entry_run (before : list Event) (next : Z) (prev : string) (vs : list VerifiedEntryBytes) (css : list (list AdoptedClaim)) : Prop := {
  ru_seqs : forall i v, vs !! i = Some v -> seq (ve_entry v) = wrap_u64 (next + Z.of_nat i);
  ru_chain : chained prev vs;
  ru_read : Forall (was_read before) vs;
  ru_settled : Forall (fun v => unsettled now_ms receipted v (seq (ve_entry v)) = false) vs;
  ru_claims : Forall2 (claims_for before) vs css }.

Definition sizes (vs : list VerifiedEntryBytes) (css : list (list AdoptedClaim)) : list Z := zip_with entry_size vs css.
Definition refs_of (vs : list VerifiedEntryBytes) : list Z := (fun v => part_refs (op (ve_entry v))) <$> vs.

(** The byte and work bounds of a request; an entry is never split, so one entry may exceed them. *)
Definition bounded (vs : list VerifiedEntryBytes) (css : list (list AdoptedClaim)) : Prop :=
  Forall (fun z => z <= 2 ^ 62) (sizes vs css) -> Forall (fun z => z <= 2 ^ 62) (refs_of vs) -> (1 < length vs)%nat ->
  zsum (sizes vs css) <= MAX_INDEX_BATCH_BASE64_BYTES /\ zsum (refs_of vs) <= MAX_INDEX_BATCH_PART_REFS.
Definition within_bounds (vs : list VerifiedEntryBytes) (css : list (list AdoptedClaim)) : Prop :=
  (length vs <= Z.to_nat MAX_INDEX_ENTRIES)%nat /\ bounded vs css.

Definition index_entries (vs : list VerifiedEntryBytes) : list IndexEntry :=
  (fun v => {| ie_seq := seq (ve_entry v); ie_entry_base64 := encode_base64 (ve_bytes v) |}) <$> vs.

(** [request] pushes a run of verified entries from where control said it stands. *)
Definition pushes_run (before : list Event) (request : IndexRequest) : Prop :=
  exists asked status next prev vs css,
    EvIndex asked (Ok status) ∈ before /\ is_tenant_uuid status = tenant_uuid /\ control_head status = Some (next, prev)
    /\ entry_run before next prev vs css /\ within_bounds vs css
    /\ ir_entries request = index_entries vs /\ ir_adopted request = concat css
    /\ forall claim, ir_checkpoint request = Some claim ->
         EvCheckpoint (Ok (Some claim)) ∈ before
         /\ exists through, cc_seq claim <= through
              /\ (is_indexed_through_seq status = Some through \/ exists v, v ∈ vs /\ seq (ve_entry v) = through).

Definition request_ok (before : list Event) (request : IndexRequest) : Prop :=
  ir_tenant_uuid request = tenant_uuid /\ ir_deleted request = []
  /\ ((ir_entries request = [] /\ ir_adopted request = [] /\ ir_checkpoint request = None) \/ pushes_run before request).

(** Every index request of a run, given what happened before it. *)
Definition requests_ok : list Event -> list Event -> Prop :=
  each_event (fun before e => match e with EvIndex request _ => request_ok before request | _ => True end).
End spec.

Section facts.
Context `{W : GcWorld}.

Lemma requests_ok_app tenant now receipted before e1 e2 :
  requests_ok tenant now receipted before e1 -> requests_ok tenant now receipted (before ++ e1) e2 ->
  requests_ok tenant now receipted before (e1 ++ e2).
Proof. apply each_event_app. Qed.

Definition quiet (e : Event) : Prop := match e with EvIndex _ _ => False | _ => True end.
Lemma requests_ok_quiet tenant now receipted before ev : Forall quiet ev -> requests_ok tenant now receipted before ev.
Proof. apply each_event_quiet. by intros b []. Qed.

Lemma was_read_mono before before' v : before ⊆ before' -> was_read before v -> was_read before' v.
Proof. intros Hs [s Hv]. exists s. by apply Hs. Qed.
Lemma claims_for_mono before before' v cs : before ⊆ before' -> claims_for before v cs -> claims_for before' v cs.
Proof.
  intros Hs. unfold claims_for. destruct (op (ve_entry v)); try done. intros Hf. eapply Forall2_impl; [exact Hf|].
  intros part c (r & Hr & Hc). exists r. split; [by apply Hs|done].
Qed.
Lemma entry_run_mono now receipted before before' next prev vs css :
  before ⊆ before' -> entry_run now receipted before next prev vs css -> entry_run now receipted before' next prev vs css.
Proof.
  intros Hs [H1 H2 H3 H4 H5]. split; [done|done| |done|].
  - eapply Forall_impl; [exact H3|]. intros v. by apply was_read_mono.
  - eapply Forall2_impl; [exact H5|]. intros v cs. by apply claims_for_mono.
Qed.
#[local] Hint Resolve was_read_mono claims_for_mono entry_run_mono : core.

Lemma subseteq_app_r {A} (l k : list A) : l ⊆ l ++ k.
Proof. intros x Hx. by apply elem_of_app; left. Qed.
Lemma subseteq_app_mono {A} (l k k' : list A) : k ⊆ k' -> l ++ k ⊆ l ++ k'.
Proof. intros Hk x. rewrite !elem_of_app. intros [?|?]; [by left|right; by apply Hk]. Qed.

(** ** Calls *)

(** A return from the middle of the sync is never a success. *)
Definition not_synced (r : result AnyError IndexSyncOutcome) : Prop := match r with Ok (Synced _ _ _ _ _ _) => False | _ => True end.

(** A call sends only its request, and [Call.Ok] is an answer for the tenant. *)
Definition call_post (request : IndexRequest) (ev : list Event) (c : Call.t) : Prop :=
  Forall (fun e => match e with EvIndex r _ => r = request | EvSleep _ => True | _ => False end) ev
  /\ match c with
     | Call.Ok status => EvIndex request (Ok status) ∈ ev /\ is_tenant_uuid status = ir_tenant_uuid request
     | Call.Gap => True
     | Call.Stop outcome => not_synced (Ok outcome)
     end.

Lemma call_loop_post retries request : yields (call_loop retries request) (call_post request).
Proof.
  induction retries as [|n IH]; cbn [call_loop]; (apply yields_bind, yields_ask; intros [status|e];
    [apply yields_ret; split; [by repeat constructor|]; case_bool_decide; [split; [set_solver|done]|done]|]);
    (destruct (ae_bearer_refused e); [apply yields_ret; split; [by repeat constructor|done]|]);
    (destruct (ae_refusal e) as [rf|]; [do 2 (case_bool_decide; [apply yields_ret; split; [by repeat constructor|done]|]);
      destruct (is_backoff rf); [|apply yields_ret; split; [by repeat constructor|done]]|]).
  1,2: apply yields_ret; split; [by repeat constructor|done].
  all: apply yields_bind, yields_ask; intros []; eapply yields_mono; [exact IH|]; intros ev c [Hf Hc];
    (split; [by repeat constructor|]); destruct c; set_solver.
Qed.

Lemma call_retrying_post request : yields (call_retrying request) (call_post request).
Proof. apply call_loop_post. Qed.

Lemma call_post_ok tenant now receipted before request ev c :
  call_post request ev c -> (forall pre, request_ok tenant now receipted (before ++ pre) request) -> requests_ok tenant now receipted before ev.
Proof. intros [Hf _] Hr pre e post ->. apply Forall_app in Hf as [_ [He _]%Forall_cons]. destruct e; try done. subst. apply Hr. Qed.

(** ** Read-ahead *)

(** Every answer in flight or held came from the reader. *)
Definition ahead_ok (before : list Event) (a : ReadAhead) : Prop :=
  Forall (fun p => EvEntry p.1 p.2 ∈ before) (ra_pending a) /\ forall v, ra_held a = Some v -> was_read before v.

Lemma ahead_ok_mono before before' a : before ⊆ before' -> ahead_ok before a -> ahead_ok before' a.
Proof.
  intros Hs [H1 H2]. split; [|by eauto]. eapply Forall_impl; [exact H1|]. intros p. apply Hs.
Qed.
Lemma ahead_new_ok before limit window : ahead_ok before (read_ahead_new limit window).
Proof. by split; [constructor|]. Qed.
Lemma ahead_stop_ok before a : ahead_ok before (ra_stop a).
Proof. by split; [constructor|]. Qed.

Lemma queue_reads_post room : forall before a, ahead_ok before a ->
  yields (queue_reads room a) (fun ev '(a', _) => Forall quiet ev /\ ahead_ok (before ++ ev) a').
Proof.
  induction room as [|room IH]; intros before a Ha; cbn [queue_reads].
  { apply yields_ret. rewrite app_nil_r. by split; [constructor|]. }
  destruct (match ra_limit a with None => true | Some limit => ra_queued a <=? limit end);
    [|apply yields_ret; rewrite app_nil_r; by split; [constructor|]].
  apply yields_bind, yields_ask. intros answer.
  set (a' q := {| ra_pending := ra_pending a ++ [(ra_queued a, answer)]; ra_front := ra_front a; ra_queued := q;
    ra_limit := ra_limit a; ra_window := ra_window a; ra_held := ra_held a |}).
  assert (forall q, ahead_ok (before ++ [EvEntry (ra_queued a) answer]) (a' q)) as Hq.
  { intros q. destruct (ahead_ok_mono before (before ++ [EvEntry (ra_queued a) answer]) a (subseteq_app_r _ _) Ha) as [H1 H2]. split; [|done].
    cbn. apply Forall_app. split; [done|]. constructor; [cbn; set_solver|constructor]. }
  destruct (ra_queued a =? u64_max).
  - apply yields_ret. rewrite app_nil_r. split; [by repeat constructor|apply Hq].
  - eapply yields_mono; [exact (IH _ _ (Hq (ra_queued a + 1)))|]. intros ev [a2 r] [H1 H2]. rewrite <- app_assoc in H2.
    split; [by repeat constructor|done].
Qed.

(** What one read gives: an entry the reader returned, or its word that [seq] is past the head. *)
Definition read_post (before : list Event) (seq : Z) (ev : list Event) (r : ReadAhead * result AnyError (option VerifiedEntryBytes)) : Prop :=
  Forall quiet ev /\ ahead_ok (before ++ ev) r.1 /\ (forall v, r.2 = Ok (Some v) -> was_read (before ++ ev) v)
  /\ (r.2 = Ok None -> EvEntry seq (Ok None) ∈ before ++ ev).

Lemma read_spec before a seq : ahead_ok before a -> yields (read a seq) (read_post before seq).
Proof.
  intros Ha. unfold read. set (a0 := if bool_decide _ then a else _). assert (ahead_ok before a0) as H0.
  { unfold a0. case_bool_decide; [done|]. destruct Ha as [_ Ha]. by split; [constructor|]. }
  clearbody a0. apply yields_bind. eapply yields_mono; [exact (queue_reads_post _ _ _ H0)|]. intros ev [a1 r] [Hq Ha1]. apply yields_ret.
  rewrite app_nil_r. unfold read_post. destruct r as [[]|e]; [|by split_and!]. destruct (ra_pending a1) as [|[s answer] pending] eqn:Ep; [by split_and!|].
  destruct Ha1 as [Hp Hh]. rewrite Ep in Hp. apply Forall_cons in Hp as [Hs Hp]. cbn in Hs.
  destruct (Z.eqb_spec s seq) as [->|]; cbn; [|by split_and!]. split_and!; [done|by split| |].
  - intros v ->. by exists seq.
  - by intros ->.
Qed.

Lemma entry_spec before a seq : ahead_ok before a -> yields (entry a seq) (read_post before seq).
Proof.
  intros Ha. unfold entry. set (taken := {| ra_held := None |}). assert (ahead_ok before taken) as Ht by (by split; [apply Ha|]).
  destruct (ra_held a) as [held|] eqn:Eh; [|by apply read_spec]. destruct (_ =? _); [|by apply read_spec].
  apply yields_ret. unfold read_post. rewrite app_nil_r. split_and!; [constructor|done| |done]. intros v [= <-]. by apply Ha.
Qed.

Lemma adopt_claims_spec parts : forall before,
  yields (adopt_claims parts) (fun ev r => Forall quiet ev /\ forall claims, r = Ok claims ->
    Forall2 (fun part c => exists r, EvProvenance part (Ok r) ∈ before ++ ev /\ claim_from_record part r = Ok c) parts claims).
Proof.
  induction parts as [|part parts IH]; intros before; cbn [adopt_claims].
  { apply yields_ret. split; [constructor|]. intros claims [= <-]. constructor. }
  apply yields_bind, yields_ask. intros record. destruct record as [record|e]; cbn; [|by apply yields_ret; split; [repeat constructor|]].
  destruct (claim_from_record part record) as [claim|e] eqn:Ec; [|by apply yields_ret; split; [repeat constructor|]].
  apply yields_bind. eapply yields_mono; [exact (IH (before ++ [EvProvenance part (Ok record)]))|]. intros ev [rest|e] [Hq Hf]; cbn; apply yields_ret;
    rewrite app_nil_r; (split; [by repeat constructor|]); [|done].
  intros claims [= <-]. specialize (Hf rest eq_refl). rewrite <- app_assoc in Hf. cbn in Hf. constructor; [|exact Hf].
  exists record. split; [set_solver|done].
Qed.

Lemma entry_claims_spec before v :
  yields (entry_claims (op (ve_entry v))) (fun ev r => Forall quiet ev /\ forall claims, r = Ok claims -> claims_for (before ++ ev) v claims).
Proof.
  unfold entry_claims, claims_for. destruct (op (ve_entry v)); try (apply yields_ret; split; [constructor|by intros claims [= <-]]).
  apply adopt_claims_spec.
Qed.

(** ** One batch *)

Lemma chained_snoc prev vs v : chained prev (vs ++ [v]) <-> chained prev vs /\ prev_sha256 (ve_entry v) = head_after prev vs.
Proof. revert prev. induction vs as [|x vs IH]; intros prev; cbn; [tauto|]. rewrite IH. tauto. Qed.
Lemma head_after_snoc prev vs v : head_after prev (vs ++ [v]) = ve_sha256 v.
Proof. revert prev. induction vs as [|x vs IH]; intros prev; cbn; [done|apply IH]. Qed.

Fixpoint metas (claims : nat) (vs : list VerifiedEntryBytes) (css : list (list AdoptedClaim)) : list BatchMeta :=
  match vs, css with
  | v :: vs, cs :: css =>
      {| bm_seq := seq (ve_entry v); bm_sha256 := ve_sha256 v; bm_appended_ms := appended_at_ms (ve_entry v); bm_claims := claims + length cs |}
      :: metas (claims + length cs) vs css
  | _, _ => []
  end.
Lemma metas_snoc n vs css v cs : length vs = length css ->
  metas n (vs ++ [v]) (css ++ [cs])
  = metas n vs css ++ [{| bm_seq := seq (ve_entry v); bm_sha256 := ve_sha256 v; bm_appended_ms := appended_at_ms (ve_entry v);
                          bm_claims := n + length (concat css ++ cs) |}].
Proof.
  revert n css. induction vs as [|x vs IH]; intros n [|c css]; cbn; try done. intros [= Hl]. rewrite IH by done. do 4 f_equal.
  rewrite <- app_assoc, (length_app c). lia.
Qed.

Definition last_of (v : VerifiedEntryBytes) : Z * string * Z := (seq (ve_entry v), ve_sha256 v, appended_at_ms (ve_entry v)).

(** The byte and work counters do not wrap when every entry is of a possible size. *)
Definition counters_ok (vs : list VerifiedEntryBytes) (css : list (list AdoptedClaim)) (bytes refs : Z) : Prop :=
  Forall (fun z => z <= 2 ^ 62) (sizes vs css) -> Forall (fun z => z <= 2 ^ 62) (refs_of vs) ->
  bytes = zsum (sizes vs css) /\ refs = zsum (refs_of vs)
  /\ ((1 < length vs)%nat -> bytes <= MAX_INDEX_BATCH_BASE64_BYTES /\ refs <= MAX_INDEX_BATCH_PART_REFS).

Lemma zsum_app l k : zsum (l ++ k) = zsum l + zsum k.
Proof. unfold zsum. induction l as [|x l IH]; cbn; lia. Qed.
Lemma entry_size_range v cs : 0 <= entry_size v cs.
Proof. unfold entry_size, wrap_u64. apply Z.mod_pos_bound. by unfold u64_max. Qed.
Lemma part_refs_range o : 0 <= part_refs o.
Proof. destruct o; cbn; unfold wrap_u64; try lia; apply Z.mod_pos_bound; by unfold u64_max. Qed.

Lemma counters_single v cs size refs :
  size = entry_size v cs -> refs = part_refs (op (ve_entry v)) -> counters_ok [v] [cs] (wrap_u64 (0 + size)) (wrap_u64 (0 + refs)).
Proof.
  intros -> ->. pose proof (entry_size_range v cs). pose proof (part_refs_range (op (ve_entry v))). intros [Hs _]%Forall_cons [Hr _]%Forall_cons.
  cbn. rewrite !wrap_u64_id by (unfold in_u64, u64_max; lia). split_and!; [lia|lia|lia].
Qed.

Lemma counters_snoc vs css v cs bytes refs :
  length vs = length css -> vs <> [] -> counters_ok vs css bytes refs ->
  wrap_u64 (bytes + entry_size v cs) <= MAX_INDEX_BATCH_BASE64_BYTES -> wrap_u64 (refs + part_refs (op (ve_entry v))) <= MAX_INDEX_BATCH_PART_REFS ->
  counters_ok (vs ++ [v]) (css ++ [cs]) (wrap_u64 (bytes + entry_size v cs)) (wrap_u64 (refs + part_refs (op (ve_entry v)))).
Proof.
  intros Hl Hne Hc Hb Hr. unfold counters_ok, sizes, refs_of in *. rewrite zip_with_app, fmap_app by done. cbn.
  rewrite !Forall_app, !Forall_cons, !zsum_app. intros [Hs [Hsv _]] [Hf [Hfv _]]. destruct (Hc Hs Hf) as (E1 & E2 & E3).
  pose proof (entry_size_range v cs). pose proof (part_refs_range (op (ve_entry v))).
  assert (0 <= bytes <= 2 ^ 62 /\ 0 <= refs <= 2 ^ 62) as [Hb2 Hr2].
  { assert (0 <= bytes /\ 0 <= refs) as [B0 R0].
    { subst bytes refs. split; apply zsum_nonneg, Forall_forall; intros z.
      - intros Hz. apply elem_of_lookup_zip_with in Hz as (i & x & y & -> & _). apply entry_size_range.
      - intros Hz. apply list_elem_of_fmap in Hz as (x & -> & _). apply part_refs_range. }
    destruct (decide (1 < length vs)%nat) as [Hlt|Hlt]; [specialize (E3 Hlt); unfold MAX_INDEX_BATCH_BASE64_BYTES, MAX_INDEX_BATCH_PART_REFS in E3; lia|].
    destruct vs as [|x [|y vs]]; [done| |cbn in Hlt; lia]. destruct css as [|c [|]]; try done. cbn in *.
    apply Forall_cons in Hs as [Hs _]. apply Forall_cons in Hf as [Hf _]. lia. }
  rewrite !wrap_u64_id in * by (unfold in_u64, u64_max; lia). unfold zsum at 2 4; cbn. split_and!; [lia|lia|done].
Qed.

Section batch.
Context (view_target : option (option Z)) (now_ms : Z) (receipted : option Z) (next : Z) (prev : string).

(** The variables of a batch stand for the run it holds. *)
Record batch_ok (before : list Event) (b : Batch) (vs : list VerifiedEntryBytes) (css : list (list AdoptedClaim)) : Prop := {
  bo_run : entry_run now_ms receipted before next prev vs css;
  bo_entries : b_entries b = index_entries vs;
  bo_adopted : b_adopted b = concat css;
  bo_meta : b_meta b = metas 0 vs css;
  bo_last : b_last b = last_of <$> last vs;
  bo_prev : b_expected_prev b = head_after prev vs;
  bo_counters : counters_ok vs css (b_bytes b) (b_refs b);
  bo_bounded : forall k, bounded (take k vs) (take k css);
  bo_ahead : ahead_ok before (b_ahead b) }.

(** Still filling. *)
Definition open_batch (b : Batch) : Prop := b_exhausted b = false /\ b_unsettled b = false /\ b_read_error b = None.

(** There was nothing more to read: the reader has no further entry, or the view ends here. *)
Definition at_end (before : list Event) (seq : Z) : Prop :=
  match view_target with
  | None => EvEntry seq (Ok None) ∈ before
  | Some None => True
  | Some (Some head) => head < seq
  end.

Lemma batch_ok_mono before before' b vs css : before ⊆ before' -> batch_ok before b vs css -> batch_ok before' b vs css.
Proof. intros Hs []. split; try done; [by eapply entry_run_mono|by eapply ahead_ok_mono]. Qed.

Lemma batch_new_ok before ahead : ahead_ok before ahead -> batch_ok before (batch_new prev ahead) [] [].
Proof.
  intros Ha. split; try done. intros k. by rewrite !take_nil.
Qed.

Lemma batch_lengths before b vs css : batch_ok before b vs css -> length vs = length css /\ length (b_entries b) = length vs.
Proof. intros Hb. split; [by eapply Forall2_length, ru_claims, bo_run|]. rewrite (bo_entries _ _ _ _ Hb). apply length_fmap. Qed.

(** The run grows by an entry that passed the checks. *)
Lemma entry_run_snoc before vs css v cs :
  entry_run now_ms receipted before next prev vs css -> seq (ve_entry v) = wrap_u64 (next + Z.of_nat (length vs)) ->
  prev_sha256 (ve_entry v) = head_after prev vs -> was_read before v -> unsettled now_ms receipted v (seq (ve_entry v)) = false ->
  claims_for before v cs -> entry_run now_ms receipted before next prev (vs ++ [v]) (css ++ [cs]).
Proof.
  intros [H1 H2 H3 H4 H5] Hs Hp Hr Hu Hc. split.
  - intros i x. rewrite lookup_app_Some. intros [Hx|[Hlen Hx]]; [by apply H1|]. apply list_lookup_singleton_Some in Hx as [Hi <-].
    rewrite Hs. do 2 f_equal. lia.
  - by apply chained_snoc.
  - apply Forall_app. split; [done|]. by repeat constructor.
  - apply Forall_app. split; [done|]. by repeat constructor.
  - apply Forall2_app; [done|]. by repeat constructor.
Qed.

Lemma push_entry_ok before b vs css v cs :
  batch_ok before b vs css -> seq (ve_entry v) = wrap_u64 (next + Z.of_nat (length vs)) ->
  prev_sha256 (ve_entry v) = head_after prev vs -> was_read before v -> unsettled now_ms receipted v (seq (ve_entry v)) = false ->
  claims_for before v cs ->
  negb (nil_b (b_entries b)) && ((MAX_INDEX_BATCH_BASE64_BYTES <? wrap_u64 (b_bytes b + entry_size v cs))
     || (MAX_INDEX_BATCH_PART_REFS <? wrap_u64 (b_refs b + part_refs (op (ve_entry v))))) = false ->
  batch_ok before (push_entry b v cs (entry_size v cs) (part_refs (op (ve_entry v))) (seq (ve_entry v))) (vs ++ [v]) (css ++ [cs]).
Proof.
  intros Hb Hs Hp Hr Hu Hc Hfit. destruct (batch_lengths _ _ _ _ Hb) as [Hl Hle]. pose proof Hb as [R E A M L P C Bd Ah].
  assert (counters_ok (vs ++ [v]) (css ++ [cs]) (wrap_u64 (b_bytes b + entry_size v cs)) (wrap_u64 (b_refs b + part_refs (op (ve_entry v))))) as C2.
  { destruct vs as [|x vs].
    { destruct css; [|done]. assert (b_bytes b = 0 /\ b_refs b = 0) as [-> ->] by (destruct C as (? & ? & _); [constructor|constructor|by cbn in *]).
      by apply counters_single. }
    apply counters_snoc; try done; rewrite E in Hfit; cbn in Hfit; apply orb_false_iff in Hfit as [?%Z.ltb_ge ?%Z.ltb_ge]; done. }
  split; cbn.
  - by apply entry_run_snoc.
  - unfold index_entries. rewrite fmap_app, E. done.
  - rewrite concat_app, A. cbn. by rewrite app_nil_r.
  - rewrite metas_snoc, M, A by done. do 3 f_equal.
  - by rewrite last_snoc.
  - by rewrite head_after_snoc.
  - exact C2.
  - intros k. destruct (decide (k <= length vs)%nat); [rewrite !take_app_le by lia; apply Bd|]. rewrite !take_ge by (rewrite length_app; cbn; lia).
    intros Hs2 Hr2. destruct (C2 Hs2 Hr2) as (<- & <- & ?). done.
  - done.
Qed.

Definition closed_batch (before : list Event) (b : Batch) (vs : list VerifiedEntryBytes) : Prop :=
  b_exhausted b = true -> b_unsettled b = false -> at_end before (wrap_u64 (next + Z.of_nat (length vs))).

Definition step_post (before : list Event) (vs : list VerifiedEntryBytes) (css : list (list AdoptedClaim)) (ev : list Event)
    (step : Flow Batch (result AnyError IndexSyncOutcome)) : Prop :=
  Forall quiet ev
  /\ match step with
     | Continue b => exists v cs, batch_ok (before ++ ev) b (vs ++ [v]) (css ++ [cs]) /\ open_batch b
     | Break b => batch_ok (before ++ ev) b vs css /\ closed_batch (before ++ ev) b vs
     | Return r => not_synced r
     end.

Lemma batch_same before b b' vs css a :
  batch_ok before b vs css -> ahead_ok before a ->
  (b_entries b', b_adopted b', b_bytes b', b_refs b', b_meta b', b_last b', b_expected_prev b', b_ahead b')
  = (b_entries b, b_adopted b, b_bytes b, b_refs b, b_meta b, b_last b, b_expected_prev b, a) -> batch_ok before b' vs css.
Proof. intros [] Ha [= E1 E2 E3 E4 E5 E6 E7 E8]. split; try congruence; [by rewrite E3, E4|done]. Qed.

Lemma fill_step_spec before b vs css :
  batch_ok before b vs css -> open_batch b -> yields (fill_step view_target now_ms receipted next b) (step_post before vs css).
Proof.
  intros Hb (Ho1 & Ho2 & Ho3). destruct (batch_lengths _ _ _ _ Hb) as [Hl Hle]. unfold fill_step. rewrite Hle.
  set (sq := wrap_u64 (next + Z.of_nat (length vs))). unfold step_post, closed_batch. fold sq.
  destruct (match view_target with None => false | Some None => true | Some (Some head) => head <? sq end) eqn:Ev.
  { apply yields_ret. rewrite app_nil_r. split; [constructor|]. split; [eapply batch_same; [exact Hb|apply (bo_ahead _ _ _ _ Hb)|done]|].
    intros _ _. unfold at_end. destruct view_target as [[head|]|]; [by apply Z.ltb_lt|done|done]. }
  apply yields_bind. eapply yields_mono; [exact (entry_spec before _ sq (bo_ahead _ _ _ _ Hb))|].
  intros ev [ahead answer] (Hq & Ha & Hv & Hn). cbn in Ha, Hv, Hn.
  assert (batch_ok (before ++ ev) b vs css) as Hb1 by (eapply batch_ok_mono; [apply subseteq_app_r|done]).
  assert (forall b' a, ahead_ok (before ++ ev) a -> (b_entries b', b_adopted b', b_bytes b', b_refs b', b_meta b', b_last b', b_expected_prev b', b_ahead b')
    = (b_entries b, b_adopted b, b_bytes b, b_refs b, b_meta b, b_last b, b_expected_prev b, a) -> batch_ok (before ++ ev) b' vs css) as Hsame by (intros; by eapply batch_same).
  destruct answer as [[v|]|e].
  2: { apply yields_ret. rewrite app_nil_r. split; [done|]. unfold at_end. destruct view_target as [t|]; cbn [is_some];
       (split; [eapply Hsame; [apply (ahead_stop_ok _ ahead)|done]|]); cbn; [congruence|]. intros _ _. by apply Hn. }
  2: { apply yields_ret. rewrite app_nil_r. split; [done|]. split; [eapply Hsame; [apply (ahead_stop_ok _ ahead)|done]|]. cbn. congruence. }
  destruct (_ || _) eqn:Echain; [by apply yields_ret; rewrite app_nil_r|].
  apply orb_false_iff in Echain as [Es%negb_false_iff%Z.eqb_eq Ep%negb_false_iff%bool_decide_eq_true].
  destruct (unsettled now_ms receipted v sq) eqn:Eu.
  { apply yields_ret. rewrite app_nil_r. split; [done|]. split; [eapply Hsame; [apply (ahead_stop_ok _ ahead)|done]|]. by cbn. }
  apply yields_bind. eapply yields_mono; [exact (entry_claims_spec (before ++ ev) v)|]. intros ev2 claims (Hq2 & Hc). rewrite <- app_assoc in Hc.
  assert (before ++ ev ⊆ before ++ ev ++ ev2) as Hsub by (apply subseteq_app_mono, subseteq_app_r).
  destruct claims as [cs|e]; apply yields_ret; rewrite app_nil_r; (split; [by apply Forall_app|]); [|done].
  assert (forall a, ahead_ok (before ++ ev) a -> batch_ok (before ++ ev ++ ev2) (with_ahead b a) vs css) as Hwith.
  { intros a Haa. eapply batch_ok_mono; [exact Hsub|]. eapply Hsame; [exact Haa|done]. }
  destruct (_ && _) eqn:Efit.
  - split; [|cbn; congruence]. apply Hwith. destruct Ha as [Ha _]. split; [done|]. cbn. intros x [= <-]. by apply Hv.
  - exists v, cs. rewrite <- Es. split; [|done]. apply push_entry_ok; try done; [by apply Hwith|by rewrite Ep, (bo_prev _ _ _ _ Hb)| |by rewrite Es|by apply Hc].
    eapply was_read_mono; [exact Hsub|by apply Hv].
Qed.

Lemma fill_spec room : forall before b vs css,
  batch_ok before b vs css -> open_batch b ->
  yields (fill view_target now_ms receipted room next b) (fun ev r =>
    Forall quiet ev
    /\ match r with
       | inl b => exists vs' css', batch_ok (before ++ ev) b vs' css' /\ closed_batch (before ++ ev) b vs' /\ (length vs' <= length vs + room)%nat
       | inr r => not_synced r
       end).
Proof.
  induction room as [|room IH]; intros before b vs css Hb Ho; cbn [fill].
  { apply yields_ret. rewrite app_nil_r. split; [constructor|]. exists vs, css. split_and!; [done| |lia]. destruct Ho as [Ho _]. intros ?. congruence. }
  apply yields_bind. eapply yields_mono; [exact (fill_step_spec _ _ _ _ Hb Ho)|]. intros ev [b1|b1|r] [Hq Hs].
  - destruct Hs as (v & cs & Hb1 & Ho1). eapply yields_mono; [exact (IH _ _ _ _ Hb1 Ho1)|]. intros ev2 [b2|r] [Hq2 H2]; (split; [by apply Forall_app|]); [|done].
    destruct H2 as (vs' & css' & H2 & H3 & H4). rewrite <- app_assoc in H2, H3. exists vs', css'. split_and!; [done|done|]. rewrite length_app in H4. cbn in H4. lia.
  - apply yields_ret. rewrite app_nil_r. split; [done|]. exists vs, css. destruct Hs. split_and!; [done|done|lia].
  - apply yields_ret. rewrite app_nil_r. done.
Qed.
End batch.

(** ** Prefixes of a batch *)

Lemma chained_take prev vs k : chained prev vs -> chained prev (take k vs).
Proof. revert prev k. induction vs as [|v vs IH]; intros prev [|k]; cbn; try done. intros [? ?]. split; [done|by apply IH]. Qed.
Lemma entry_run_take now receipted before next prev vs css k :
  entry_run now receipted before next prev vs css -> entry_run now receipted before next prev (take k vs) (take k css).
Proof.
  intros [H1 H2 H3 H4 H5]. split; [|by apply chained_take|by apply Forall_take|by apply Forall_take|by apply Forall2_take].
  intros i v Hv. apply lookup_take_Some in Hv as [Hv _]. by apply H1.
Qed.
Lemma metas_take n vs css k : take k (metas n vs css) = metas n (take k vs) (take k css).
Proof. revert n css k. induction vs as [|v vs IH]; intros n [|cs css] [|k]; cbn; try done. by rewrite IH. Qed.
Lemma metas_last vs css m : length vs = length css -> last (metas 0 vs css) = Some m ->
  exists v, last vs = Some v /\ last_of v = (bm_seq m, bm_sha256 m, bm_appended_ms m) /\ bm_claims m = length (concat css).
Proof.
  destruct vs as [|v vs] using rev_ind; [done|]. destruct css as [|cs css] using rev_ind; [rewrite length_app; cbn; lia|].
  rewrite !length_app. cbn. intros Hl. rewrite metas_snoc by lia. rewrite !last_snoc. intros [= <-]. exists v. cbn. split_and!; [done|done|].
  rewrite concat_app. cbn. by rewrite app_nil_r.
Qed.
Lemma take_concat {A} (ls : list (list A)) k : take (length (concat (take k ls))) (concat ls) = concat (take k ls).
Proof. rewrite <- (take_drop k ls) at 2. rewrite concat_app. apply take_app_length. Qed.

(** ** The rounds *)

Section rounds.
Context (tenant_uuid : string) (view_target : option (option Z)) (now_ms : Z) (receipted : option Z) (checkpoint : option CheckpointClaim).

(** Control said [status]. *)
Definition control_says (before : list Event) (status : IndexStatus) : Prop :=
  (exists asked, EvIndex asked (Ok status) ∈ before) /\ is_tenant_uuid status = tenant_uuid.

Record round_ok (before : list Event) (st : SyncState) : Prop := {
  ro_status : control_says before (ss_status st);
  ro_ahead : ahead_ok before (ss_ahead st);
  ro_checkpoint : forall claim, checkpoint = Some claim -> EvCheckpoint (Ok (Some claim)) ∈ before }.

(** The number after the last one control has. *)
Definition indexed_after (status : IndexStatus) : Z := match is_indexed_through_seq status with None => 0 | Some through => through + 1 end.
Definition indexed_wf (status : IndexStatus) : Prop := forall through, is_indexed_through_seq status = Some through -> 0 <= through.

(** A result that claims to be caught up is. *)
Definition outcome_ok (before : list Event) (r : result AnyError IndexSyncOutcome) : Prop :=
  forall status pushed gaps head settling, r = Ok (Synced status true pushed gaps head settling) ->
    settling = false /\ control_says before status
    /\ (indexed_wf status -> exists sq, at_end view_target before sq /\ sq <= indexed_after status).

Lemma control_says_mono before before' status : before ⊆ before' -> control_says before status -> control_says before' status.
Proof. intros Hs [[asked Ha] Ht]. split; [|done]. exists asked. by apply Hs. Qed.
Lemma round_ok_mono before before' st : before ⊆ before' -> round_ok before st -> round_ok before' st.
Proof. intros Hs []. split; [by eapply control_says_mono|by eapply ahead_ok_mono|by eauto]. Qed.
Lemma not_caught_up before st settling : outcome_ok before (Ok (synced st false settling)).
Proof. by intros ? ? ? ? ?. Qed.
Lemma not_synced_ok before r : not_synced r -> outcome_ok before r.
Proof. by intros Hn status p g h s' ->. Qed.

Lemma wrap_u64_succ a : wrap_u64 (a + 1) <= wrap_u64 a + 1.
Proof.
  unfold wrap_u64. rewrite <- (Zplus_mod_idemp_l a 1). apply Z.mod_le; [|by unfold u64_max].
  pose proof (Z.mod_pos_bound a (u64_max + 1)). unfold u64_max in *. lia.
Qed.

Lemma status_read_spec : yields (status_read tenant_uuid) (fun ev r =>
  Forall quiet ev /\ ir_tenant_uuid r = tenant_uuid /\ ir_entries r = [] /\ ir_adopted r = [] /\ ir_checkpoint r = None /\ ir_deleted r = []).
Proof. apply yields_bind, yields_ask. intros id. apply yields_ret. by split_and!; [repeat constructor|..]. Qed.

(** A status read, with its retries. *)
Lemma read_status_spec before : yields (request ← status_read tenant_uuid; call_retrying request) (fun ev c =>
  requests_ok tenant_uuid now_ms receipted before ev
  /\ match c with Call.Ok status => control_says (before ++ ev) status | Call.Gap => True | Call.Stop outcome => not_synced (Ok outcome) end).
Proof.
  apply yields_bind. eapply yields_mono; [exact status_read_spec|]. intros e1 r (Hq & Ht & He & Ha & Hc & Hd).
  eapply yields_mono; [exact (call_retrying_post r)|]. intros e2 c Hp. split.
  - apply requests_ok_app; [by apply requests_ok_quiet|]. eapply call_post_ok; [exact Hp|]. intros pre. split_and!; [done|done|by left].
  - destruct Hp as [_ Hp]. destruct c as [status| |o]; [|done|done]. destruct Hp as [Hin Hs]. split; [|congruence]. exists r.
    rewrite !elem_of_app. tauto.
Qed.

(** ** Sending a batch *)

(** [b] holds a run from where control stands. *)
Record round_batch (before : list Event) (st : SyncState) (b : Batch) (next : Z) (prev : string) (vs : list VerifiedEntryBytes)
    (css : list (list AdoptedClaim)) : Prop := {
  rb_round : round_ok before st;
  rb_head : control_head (ss_status st) = Some (next, prev);
  rb_batch : batch_ok now_ms receipted next prev before b vs css;
  rb_closed : closed_batch view_target next before b vs;
  rb_length : (length vs <= Z.to_nat MAX_INDEX_ENTRIES)%nat }.

Lemma round_batch_mono before before' st b next prev vs css :
  before ⊆ before' -> round_batch before st b next prev vs css -> round_batch before' st b next prev vs css.
Proof.
  intros Hs []. split; [by eapply round_ok_mono|done|by eapply batch_ok_mono| |done].
  intros He Hu. specialize (rb_closed0 He Hu). unfold at_end in *. destruct view_target as [[]|]; [done|done|by apply Hs].
Qed.

Definition claim_within (st : SyncState) (vs : list VerifiedEntryBytes) (claim : CheckpointClaim) : Prop :=
  checkpoint = Some claim /\ exists through, cc_seq claim <= through
    /\ (is_indexed_through_seq (ss_status st) = Some through \/ exists v, v ∈ vs /\ seq (ve_entry v) = through).

(** A prefix of the batch is a request control may get. *)
Lemma prefix_request_ok before st b next prev vs css k request :
  round_batch before st b next prev vs css -> ir_tenant_uuid request = tenant_uuid -> ir_deleted request = [] ->
  ir_entries request = index_entries (take k vs) -> ir_adopted request = concat (take k css) ->
  (forall claim, ir_checkpoint request = Some claim -> claim_within st (take k vs) claim) ->
  request_ok tenant_uuid now_ms receipted before request.
Proof.
  intros [Hr Hh Hb _ Hl] Ht Hd He Ha Hc. destruct (ro_status _ _ Hr) as [[asked Hin] Hs]. split_and!; [done|done|right].
  exists asked, (ss_status st), next, prev, (take k vs), (take k css). split_and!; try done.
  - apply entry_run_take, (bo_run _ _ _ _ _ _ _ _ Hb).
  - split; [rewrite length_take; lia|apply (bo_bounded _ _ _ _ _ _ _ _ Hb)].
  - intros claim Hcl. destruct (Hc claim Hcl) as [E Hthr]. split; [by apply (ro_checkpoint _ _ Hr)|done].
Qed.

Lemma sends_only before before' request ev c st b next prev vs css k :
  round_batch before st b next prev vs css -> before ⊆ before' -> call_post request ev c -> ir_tenant_uuid request = tenant_uuid -> ir_deleted request = [] ->
  ir_entries request = index_entries (take k vs) -> ir_adopted request = concat (take k css) ->
  (forall claim, ir_checkpoint request = Some claim -> claim_within st (take k vs) claim) ->
  requests_ok tenant_uuid now_ms receipted before' ev.
Proof.
  intros Hb Hs Hp Ht Hd He Ha Hc. eapply call_post_ok; [exact Hp|]. intros pre. eapply prefix_request_ok; try done.
  eapply round_batch_mono; [|exact Hb]. etrans; [exact Hs|apply subseteq_app_r].
Qed.

(** What was sent, and what its acceptance will mean. *)
Definition sent_ok (before : list Event) (b : Batch) (sent : Attempt) : Prop :=
  match at_answer sent with
  | Call.Ok status => control_says before status
  | Call.Gap => True
  | Call.Stop outcome => not_synced (Ok outcome)
  end
  /\ (at_unsettled sent = true
      \/ at_last sent = b_last b /\ at_count sent = Z.of_nat (length (b_entries b)) /\ at_exhausted sent = b_exhausted b /\ at_unsettled sent = b_unsettled b).

Lemma answer_says before request ev c : ir_tenant_uuid request = tenant_uuid -> call_post request ev c -> ev ⊆ before ->
  match c with Call.Ok status => control_says before status | Call.Gap => True | Call.Stop outcome => not_synced (Ok outcome) end.
Proof.
  intros Ht [_ Hp] Hs. destruct c as [status| |o]; [|done|done]. destruct Hp as [Hin E]. split; [|congruence]. exists request. by apply Hs.
Qed.

Lemma send_spec before st b next prev vs css request :
  round_batch before st b next prev vs css -> ir_tenant_uuid request = tenant_uuid -> ir_deleted request = [] ->
  ir_entries request = b_entries b -> ir_adopted request = b_adopted b ->
  (forall claim, ir_checkpoint request = Some claim -> claim_within st vs claim) ->
  yields (send_batch now_ms st b request) (fun ev r => requests_ok tenant_uuid now_ms receipted before ev
    /\ match r with inl sent => sent_ok (before ++ ev) b sent | inr outcome => outcome = synced st false true end).
Proof.
  intros Hrb Ht Hd He Ha Hc. pose proof (rb_batch _ _ _ _ _ _ _ Hrb) as Hb. destruct (batch_lengths _ _ _ _ _ _ _ _ Hb) as [Hl _].
  rewrite (bo_entries _ _ _ _ _ _ _ _ Hb) in He. rewrite (bo_adopted _ _ _ _ _ _ _ _ Hb) in Ha.
  unfold send_batch. apply yields_bind. eapply yields_mono; [exact (call_retrying_post request)|]. intros e1 answer Hp.
  assert (requests_ok tenant_uuid now_ms receipted before e1) as Hr1.
  { eapply (sends_only before before _ _ _ _ _ _ _ _ _ (length vs)); [exact Hrb|done|exact Hp|done|done|..]; by rewrite ?take_ge by lia. }
  assert (forall e, sent_ok (before ++ e1 ++ e) b {| at_request := request; at_last := b_last b; at_count := Z.of_nat (length (b_entries b));
    at_exhausted := b_exhausted b; at_unsettled := b_unsettled b; at_answer := answer |}) as Hsent.
  { intros e. split; [|by right]. cbn. eapply answer_says; [exact Ht|exact Hp|]. intros x Hx. rewrite !elem_of_app. tauto. }
  destruct (receipt_missing answer); cbn [negb]; [|apply yields_ret; rewrite app_nil_r; split; [done|]; specialize (Hsent []); by rewrite app_nil_r in Hsent].
  destruct (last (b_meta b)) as [newest|]; [|apply yields_ret; rewrite app_nil_r; split; [done|]; specialize (Hsent []); by rewrite app_nil_r in Hsent].
  destruct (sat_i64 _ <? _); cbn [negb]; [|apply yields_ret; rewrite app_nil_r; split; [done|]; specialize (Hsent []); by rewrite app_nil_r in Hsent].
  destruct (_ =? 1); [apply yields_ret; by rewrite app_nil_r|].
  destruct (last (take (keep_prefix now_ms b) (b_meta b))) as [m|] eqn:Em; [|apply yields_ret; by rewrite app_nil_r].
  rewrite (bo_meta _ _ _ _ _ _ _ _ Hb), metas_take in Em.
  assert (length (take (keep_prefix now_ms b) vs) = length (take (keep_prefix now_ms b) css)) as Hl2 by (rewrite !length_take, Hl; done).
  destruct (metas_last _ _ _ Hl2 Em) as (v & Hv & Elast & Ecl).
  apply yields_bind, yields_ask. intros id. apply yields_bind.
  set (req2 := truncate_request request id (keep_prefix now_ms b) m). eapply yields_mono; [exact (call_retrying_post req2)|]. intros e2 answer2 Hp2.
  apply yields_ret. rewrite app_nil_r. split.
  - apply requests_ok_app; [done|]. change (EvUuid id :: e2) with ([EvUuid id] ++ e2). apply requests_ok_app; [by apply requests_ok_quiet; repeat constructor|].
    eapply (sends_only before _ _ _ _ _ _ _ _ _ _ (keep_prefix now_ms b)); [exact Hrb| |exact Hp2|done|done|..]; cbn.
    + etrans; [apply (subseteq_app_r before e1)|apply subseteq_app_r].
    + rewrite He. unfold index_entries. by rewrite fmap_take.
    + rewrite Ecl, Ha. apply take_concat.
    + intros claim Hcl. apply bind_Some in Hcl as (claim' & Hcl & Hif). destruct (Z.leb_spec (cc_seq claim') (bm_seq m)); [|done]. injection Hif as ->.
      destruct (Hc _ Hcl) as [E _]. split; [done|]. exists (bm_seq m). split; [done|]. right. exists v. split; [by apply last_Some_elem_of|]. unfold last_of in Elast. congruence.
  - destruct (_ && _); [done|]. split; [|by left]. cbn. eapply answer_says; [|exact Hp2|]; [done|]. intros x Hx. rewrite !elem_of_app, elem_of_cons. tauto.
Qed.

Lemma at_end_mono before before' sq : before ⊆ before' -> at_end view_target before sq -> at_end view_target before' sq.
Proof. intros Hs. unfold at_end. destruct view_target as [[]|]; [done|done|apply Hs]. Qed.

(** An accepted batch that reached the end leaves control at the end. *)
Lemma accepted_at_end before st b next prev vs css status :
  round_batch before st b next prev vs css -> b_exhausted b = true -> b_unsettled b = false -> vs <> [] -> response_mismatch (b_last b) status = false ->
  exists sq, at_end view_target before sq /\ sq <= indexed_after status.
Proof.
  intros Hrb He Hu Hne Hm. exists (wrap_u64 (next + Z.of_nat (length vs))). split; [by apply (rb_closed _ _ _ _ _ _ _ Hrb)|].
  destruct vs as [|v vs _] using rev_ind; [done|]. pose proof (rb_batch _ _ _ _ _ _ _ Hrb) as Hb.
  rewrite (bo_last _ _ _ _ _ _ _ _ Hb), last_snoc in Hm. cbn in Hm. pose proof (ru_seqs _ _ _ _ _ _ _ (bo_run _ _ _ _ _ _ _ _ Hb) (length vs) v) as Hs.
  rewrite list_lookup_middle in Hs by done. specialize (Hs eq_refl). unfold indexed_after. destruct (is_indexed_through_seq status) as [t|]; [|done].
  apply orb_false_iff in Hm as [Hm%Z.ltb_ge _]. rewrite Hs in Hm. pose proof (wrap_u64_succ (next + Z.of_nat (length vs))).
  rewrite length_app. cbn. replace (next + Z.of_nat (length vs + 1)) with (next + Z.of_nat (length vs) + 1) by lia. lia.
Qed.

(** Nothing to send because control has everything. *)
Lemma empty_at_end before st b next prev css :
  round_batch before st b next prev [] css -> b_exhausted b = true -> b_unsettled b = false -> indexed_wf (ss_status st) ->
  exists sq, at_end view_target before sq /\ sq <= indexed_after (ss_status st).
Proof.
  intros Hrb He Hu Hw. eexists. split; [by apply (rb_closed _ _ _ _ _ _ _ Hrb)|]. pose proof (rb_head _ _ _ _ _ _ _ Hrb) as Hh.
  unfold control_head, indexed_after in *. destruct (is_indexed_through_seq (ss_status st)) as [t|] eqn:Et; [|by injection Hh as <- <-].
  destruct (is_head_entry_sha256 _); [|done]. injection Hh as <- <-. specialize (Hw t Et). cbn [length]. rewrite Z.add_0_r.
  unfold wrap_u64. rewrite Zmod_mod. apply Z.mod_le; [lia|done].
Qed.

Definition flow_ok (before ev : list Event) (step : Flow SyncState (result AnyError IndexSyncOutcome)) : Prop :=
  requests_ok tenant_uuid now_ms receipted before ev
  /\ match step with Continue st | Break st => round_ok (before ++ ev) st | Return r => outcome_ok (before ++ ev) r end.

Lemma settle_spec before st b next prev vs css sent :
  round_batch before st b next prev vs css -> sent_ok before b sent -> yields (settle tenant_uuid checkpoint st b sent) (flow_ok before).
Proof.
  intros Hrb [Hans Hsent]. pose proof (rb_round _ _ _ _ _ _ _ Hrb) as [Hst Hah Hcp]. pose proof (rb_batch _ _ _ _ _ _ _ Hrb) as Hb.
  pose proof (bo_ahead _ _ _ _ _ _ _ _ Hb) as Hah2. unfold settle, flow_ok. destruct (at_answer sent) as [status| |o].
  - destruct (response_mismatch _ _) eqn:Em; [apply yields_ret; rewrite app_nil_r; split; [by apply requests_ok_quiet|by apply not_synced_ok]|].
    apply yields_ret. rewrite app_nil_r. split; [by apply requests_ok_quiet|].
    destruct (b_read_error b); [by apply not_synced_ok|]. destruct (at_unsettled sent) eqn:Eu; [apply not_caught_up|].
    destruct Hsent as [?|(E1 & E2 & E3 & E4)]; [congruence|]. rewrite E1 in Em. rewrite E2, E3. destruct (_ && _) eqn:Ec; [|by split].
    rewrite !andb_true_iff in Ec. destruct Ec as [[[Ee _] Hn%Z.ltb_lt] _]. intros status' p g h s [= <- <- <- <- <-].
    split; [done|]. split; [done|]. intros _. eapply accepted_at_end; [exact Hrb|done|congruence| |done].
    intros ->. rewrite (bo_entries _ _ _ _ _ _ _ _ Hb) in Hn. by cbn in Hn.
  - destruct (_ <=? _); [apply yields_ret; rewrite app_nil_r; split; [by apply requests_ok_quiet|by split]|].
    apply yields_assoc, yields_bind. eapply yields_mono; [exact (read_status_spec before)|]. intros ev c [Hr Hc]. apply yields_ret.
    rewrite app_nil_r. split; [done|]. destruct c as [status| |o]; [|by apply not_synced_ok|by apply not_synced_ok].
    split; [done|by eapply ahead_ok_mono; [apply subseteq_app_r|]|]. intros claim Hcl. apply elem_of_app. left. by apply Hcp.
  - apply yields_ret. rewrite app_nil_r. split; [by apply requests_ok_quiet|by apply not_synced_ok].
Qed.

Lemma claim_pending_within st b next prev before vs css claim :
  batch_ok now_ms receipted next prev before b vs css ->
  claim_pending checkpoint (ss_status st) (match b_last b with Some (seq, _, _) => Some seq | None => is_indexed_through_seq (ss_status st) end) = Some claim ->
  claim_within st vs claim.
Proof.
  intros Hb Hc. apply bind_Some in Hc as (c & Hc & Hif). destruct (_ && _) eqn:E; [|done]. injection Hif as ->. apply andb_true_iff in E as [E _].
  split; [done|]. rewrite (bo_last _ _ _ _ _ _ _ _ Hb) in E. destruct (last vs) as [v|] eqn:El; cbn in E.
  - apply Z.leb_le in E. exists (seq (ve_entry v)). split; [done|]. right. exists v. split; [by apply last_Some_elem_of|done].
  - destruct (is_indexed_through_seq _) as [t|]; [|done]. apply Z.leb_le in E. exists t. split; [done|by left].
Qed.

Lemma sync_round_spec before st : round_ok before st -> yields (sync_round tenant_uuid view_target now_ms receipted checkpoint st) (flow_ok before).
Proof.
  intros Hst. unfold sync_round. destruct (control_head (ss_status st)) as [[next prev]|] eqn:Eh;
    [|apply yields_ret; split; [by apply requests_ok_quiet|by apply not_synced_ok]].
  apply yields_bind. eapply yields_mono.
  { exact (fill_spec view_target now_ms receipted next prev _ before _ [] [] (batch_new_ok now_ms receipted next prev before _ (ro_ahead _ _ Hst)) (conj eq_refl (conj eq_refl eq_refl))). }
  intros e1 [b|r] [Hq Hf]; [|apply yields_ret; rewrite app_nil_r; split; [by apply requests_ok_quiet|by apply not_synced_ok]].
  destruct Hf as (vs & css & Hb & Hcl & Hlen).
  assert (round_batch (before ++ e1) st b next prev vs css) as Hrb by (split; try done; eapply round_ok_mono; [apply subseteq_app_r|done]).
  destruct (nil_b (b_entries b) && _) eqn:Enil.
  { apply andb_true_iff in Enil as [Enil _]. apply yields_ret. rewrite app_nil_r. split; [by apply requests_ok_quiet|].
    destruct (b_read_error b); [by apply not_synced_ok|]. intros status p g h s [= <- Ec <- <- <- <-]. apply andb_true_iff in Ec as [Ee Eu%negb_true_iff].
    split; [done|]. split; [apply (ro_status _ _ (rb_round _ _ _ _ _ _ _ Hrb))|]. intros Hw. destruct vs as [|v vs]; [by eapply empty_at_end|].
    by rewrite (bo_entries _ _ _ _ _ _ _ _ Hb) in Enil. }
  apply yields_bind. eapply yields_mono; [exact status_read_spec|]. intros e2 base (Hq2 & Ht & _ & _ & _ & Hd).
  apply yields_bind. eapply yields_mono.
  { apply (send_spec (before ++ e1 ++ e2) st b next prev vs css); [|exact Ht|exact Hd|done|done|].
    - eapply round_batch_mono; [|exact Hrb]. rewrite app_assoc. apply subseteq_app_r.
    - intros claim Hc. by eapply claim_pending_within. }
  intros e3 [sent|outcome] [Hr3 Hs3].
  - eapply yields_mono.
    { eapply (settle_spec ((before ++ e1 ++ e2) ++ e3)); [|exact Hs3]. eapply round_batch_mono; [|exact Hrb]. rewrite <- !app_assoc, (app_assoc before). apply subseteq_app_r. }
    intros e4 step [Hr4 H4]. rewrite <- !app_assoc in *. split; [|done].
    apply requests_ok_app; [by apply requests_ok_quiet|]. apply requests_ok_app; [by apply requests_ok_quiet|]. rewrite <- !app_assoc in *. by apply requests_ok_app; rewrite <- ?app_assoc.
  - subst outcome. apply yields_ret. rewrite app_nil_r. split; [|apply not_caught_up].
    apply requests_ok_app; [by apply requests_ok_quiet|]. apply requests_ok_app; [by apply requests_ok_quiet|]. by rewrite <- !app_assoc.
Qed.

Lemma sync_rounds_spec n : forall before st, round_ok before st ->
  yields (sync_rounds tenant_uuid view_target now_ms receipted n checkpoint st) (fun ev r =>
    requests_ok tenant_uuid now_ms receipted before ev /\ outcome_ok (before ++ ev) r).
Proof.
  induction n as [|n IH]; intros before st Hst; cbn [sync_rounds]; [apply yields_ret; split; [by apply requests_ok_quiet|apply not_caught_up]|].
  apply yields_bind. eapply yields_mono; [exact (sync_round_spec _ _ Hst)|]. intros e1 [st1|st1|r] [Hr Hs].
  - eapply yields_mono; [exact (IH _ _ Hs)|]. intros e2 r [Hr2 Ho]. rewrite <- app_assoc in Ho. split; [by apply requests_ok_app|done].
  - apply yields_ret. rewrite app_nil_r. split; [done|apply not_caught_up].
  - apply yields_ret. rewrite app_nil_r. by split.
Qed.
End rounds.

Lemma sync_spec tenant_uuid view_target now_ms receipted :
  yields (sync_index_inner tenant_uuid view_target now_ms receipted) (fun ev r =>
    requests_ok tenant_uuid now_ms receipted [] ev /\ outcome_ok tenant_uuid view_target ev r).
Proof.
  unfold sync_index_inner. apply yields_assoc, yields_bind. eapply yields_mono; [exact (read_status_spec tenant_uuid now_ms receipted [])|].
  intros e1 c [Hr1 Hc]. destruct c as [status| |o]; [|apply yields_ret; rewrite app_nil_r; split; [done|by apply not_synced_ok]..].
  apply yields_bind, yields_ask. intros [checkpoint|e]; [|apply yields_ret; split; [apply requests_ok_app; [done|by apply requests_ok_quiet; repeat constructor]|by apply not_synced_ok]].
  eapply yields_mono.
  { apply (sync_rounds_spec tenant_uuid view_target now_ms receipted checkpoint _ (e1 ++ [EvCheckpoint (Ok checkpoint)])). split; cbn.
    - eapply control_says_mono; [apply subseteq_app_r|exact Hc].
    - apply ahead_new_ok.
    - intros claim ->. set_solver. }
  intros e2 r [Hr2 Ho]. rewrite <- app_assoc in Ho. split; [|done]. apply requests_ok_app; [done|].
  change (EvCheckpoint (Ok checkpoint) :: e2) with ([EvCheckpoint (Ok checkpoint)] ++ e2). apply requests_ok_app; [by apply requests_ok_quiet; repeat constructor|done].
Qed.
End facts.
