(* ===== verification/GcExecutor.v ===== *)
(** * GcExecutor: the GC pass

    Models [lake_part_gc/executor.rs]: permits and receipts and their checks, the memory of
    refused keys, the pacer of authorize calls, one delete, the loop over planned requests with
    its re-sync, and the whole pass with its report. Logging is left out. *)
From S2P Require Import Prelude Platform Format PartTypes LiveSet LiveSetFacts Replay Json ProvenanceTypes Provenance GcRequest GcPlanner GcEnv GcIndex.

Definition PERMIT_SKEW : Z := 2 * NANOS.
Definition DELETE_AUTHORIZATION_MAX_TTL : Z := 5 * 60 * NANOS.
Definition DELETE_CONTROL_SCHEMA_VERSION : Z := 2.
Definition MAX_CONSECUTIVE_WORKER_FAILURES : Z := 3.
Definition MAX_PENDING_DELETED : Z := 65536.
Definition MAX_LOG_ENTRIES_PER_PASS : Z := 2048.
Definition MAX_BACKOFF : Z := 6 * 3600 * NANOS.
Definition REFUSED_KEY_TTL_MS : Z := 3600000.
Definition UNAUTHORIZABLE_KEY_TTL_MS : Z := 24 * 3600000.
Definition OBJECT_NOT_FOUND : string := "lake_part_object_not_found".
Definition MAX_REFUSED_KEYS : Z := 65536.
Definition MAX_AUTHORIZES_PER_MINUTE : Z := 240.
Definition CATALOG_CUSTODY_HELD : string := "catalog_custody_held".
Definition CATALOG_PINNED : string := "catalog_pinned".
Definition INDEX_SETTLING : string := "index_settling".
Definition INDEX_INCOMPLETE : string := "lake_part_index_incomplete".

(** ** Refusals *)

Module RefusalAction.
Inductive t := Pause | IndexIncomplete | Skip | BackOff.
End RefusalAction.

(** [LakePartRefusal::action] *)
Definition action (self : LakePartRefusal) : RefusalAction.t :=
  if bool_decide (rf_code self ∈ ["lake_part_held"; "lake_part_protected"; "lake_part_grant_required"; "lake_part_inactive_assignment";
                                  "lake_part_control_forbidden"; "lake_part_binding_mismatch"]) then RefusalAction.Pause
  else if bool_decide (rf_code self = INDEX_INCOMPLETE) then RefusalAction.IndexIncomplete
  else if is_backoff self then RefusalAction.BackOff
  else RefusalAction.Skip.

(** ** Permits and receipts *)

Inductive PermitError := PermitRequest (e : DeleteError) | BadTimestamp | PermitDiffers | ReceiptDiffers.
Definition on_request {A} (r : result DeleteError A) : result PermitError A := match r with Ok a => Ok a | Err e => Err (PermitRequest e) end.

Section verify.
Context `{P : Platform} {J : JsonWriter} `{W : GcWorld}.

(** [LakePartDeletePermit::verify_with_local]; times in nanoseconds *)
Definition permit_verify (self : LakePartDeletePermit) (request : LakePartDeleteRequest) (now : Z) (trusted_local : bool) : result PermitError unit :=
  digest ← on_request (digest_with_local request trusted_local);
  let auth := pm_owner_authorization self in
  issued ← of_option (parse_from_rfc3339 (oa_issued_at auth)) BadTimestamp;
  expires ← of_option (parse_from_rfc3339 (oa_expires_at auth)) BadTimestamp;
  ensure (negb (negb (bool_decide (pm_request self = request))
                || negb (bool_decide (pm_permit_id self = "lpd_" +:+ digest))
                || negb (bool_decide (oa_identity_sha256 auth = digest))
                || negb (oa_schema_version auth =? 1)
                || bool_decide (oa_signer_key_id auth = "")
                || bool_decide (oa_signature_base64 auth = "")
                || (expires <=? now)
                || (expires <=? issued)
                || (now + PERMIT_SKEW <? issued)
                || (DELETE_AUTHORIZATION_MAX_TTL + PERMIT_SKEW <? expires - issued))) PermitDiffers.

(** ["0".repeat(64)] *)
Definition zero_digest : string := Nat.iter 64 (String "0") EmptyString.

(** [LakePartDeleteReceipt::verify_with_local]: the digest is computed only when the checks before it pass. *)
Definition receipt_verify (self : LakePartDeleteReceipt) (permit : LakePartDeletePermit) (trusted_local : bool) : result PermitError unit :=
  _ ← ensure (negb (negb (rc_schema_version self =? DELETE_CONTROL_SCHEMA_VERSION)
                    || negb (bool_decide (rc_permit_id self = pm_permit_id permit))
                    || negb (bool_decide (rc_identity_sha256 self = oa_identity_sha256 (pm_owner_authorization permit))))) ReceiptDiffers;
  digest ← on_request (digest_with_local (pm_request permit) trusted_local);
  ensure (negb (negb (bool_decide (rc_identity_sha256 self = digest))
                || negb (bool_decide (rc_state self = "receipt_appended"))
                || negb (rc_final_head_absent self)
                || negb (is_sha256_hex (rc_receipt_sha256 self))
                || bool_decide (rc_receipt_sha256 self = zero_digest))) ReceiptDiffers.
End verify.

(** ** Refused keys *)

Record RefusedKey := { rk_until_ms : Z; rk_reason : string }.
Record RefusedKeys := { rk_keys : gmap string RefusedKey; rk_dirty : bool }.
Definition refused_default : RefusedKeys := {| rk_keys := ∅; rk_dirty := false |}.

(** The iteration order of a [HashMap]. *)
Class HashIter := { hash_iter : gmap string RefusedKey -> list (string * RefusedKey) }.
Class HashIterLaws (H : HashIter) : Prop := { hash_iter_perm : forall m, hash_iter m ≡ₚ map_to_list m }.

(** [min_by_key]: the first of the least. *)
Fixpoint min_by_key {A} (key : A -> Z) (l : list A) : option A :=
  match l with
  | [] => None
  | x :: l => match min_by_key key l with Some y => if key y <? key x then Some y else Some x | None => Some x end
  end.

Section refused.
Context `{H : HashIter}.

Definition is_refused (self : RefusedKeys) (key : string) (now_ms : Z) : bool :=
  some_and (rk_keys self !! key) (fun refused => now_ms <? rk_until_ms refused).

(** [RefusedKeys::prune] *)
Definition rk_prune (self : RefusedKeys) (now_ms : Z) : RefusedKeys :=
  let keys := filter (fun kv => now_ms < rk_until_ms kv.2) (rk_keys self) in
  {| rk_keys := keys; rk_dirty := rk_dirty self || negb (size keys =? size (rk_keys self))%nat |}.

(** The room [remember] makes for a new key. *)
Definition rk_room (self : RefusedKeys) (key : string) (now_ms : Z) : RefusedKeys :=
  if (MAX_REFUSED_KEYS <=? Z.of_nat (size (rk_keys self))) && negb (is_some (rk_keys self !! key)) then
    let self := rk_prune self now_ms in
    if MAX_REFUSED_KEYS <=? Z.of_nat (size (rk_keys self)) then
      match min_by_key (fun kv => rk_until_ms kv.2) (hash_iter (rk_keys self)) with
      | Some (soonest, _) => {| rk_keys := delete soonest (rk_keys self); rk_dirty := rk_dirty self |}
      | None => self
      end
    else self
  else self.

(** [RefusedKeys::remember] *)
Definition refusal_ttl (reason : string) : Z := if bool_decide (reason = OBJECT_NOT_FOUND) then UNAUTHORIZABLE_KEY_TTL_MS else REFUSED_KEY_TTL_MS.
Definition rk_remember (self : RefusedKeys) (key reason : string) (now_ms : Z) : RefusedKeys :=
  {| rk_keys := <[key := {| rk_until_ms := sat_i64 (now_ms + refusal_ttl reason); rk_reason := reason |}]> (rk_keys (rk_room self key now_ms));
     rk_dirty := true |}.

(** [RefusedKeys::count] and [take_dirty] *)
Definition rk_count (self : RefusedKeys) (reason : string) (now_ms : Z) : Z :=
  Z.of_nat (size (filter (fun kv : string * RefusedKey => rk_reason kv.2 = reason /\ now_ms < rk_until_ms kv.2) (rk_keys self))).
Definition take_dirty (self : RefusedKeys) : bool * RefusedKeys := (rk_dirty self, {| rk_keys := rk_keys self; rk_dirty := false |}).
End refused.

(** ** The pacer *)

Record AuthorizePacer := { ap_per_minute : Z; ap_window_started : option Z; ap_used : Z }.
(** [AuthorizePacer::new] and [default] *)
Definition pacer_new (per_minute : Z) : AuthorizePacer := {| ap_per_minute := Z.max 1 per_minute; ap_window_started := None; ap_used := 0 |}.
Definition pacer_default : AuthorizePacer := pacer_new MAX_AUTHORIZES_PER_MINUTE.
Definition WINDOW : Z := 60 * NANOS.

(** The loop of [acquire]. A sleep ends at or after its deadline, so the round after one takes a
    slot: two rounds are enough. *)
Fixpoint acquire_loop `{W : GcWorld} (fuel : nat) (self : AuthorizePacer) : GC AuthorizePacer :=
  match fuel with
  | O => mret self
  | S fuel =>
      now ← instant_now;
      let fresh := mret {| ap_per_minute := ap_per_minute self; ap_window_started := Some now; ap_used := 1 |} in
      match ap_window_started self with
      | Some started =>
          if now <? started + WINDOW then
            if ap_used self <? ap_per_minute self
            then mret {| ap_per_minute := ap_per_minute self; ap_window_started := Some started; ap_used := ap_used self + 1 |}
            else _ ← sleep_until (started + WINDOW); acquire_loop fuel self
          else fresh
      | None => fresh
      end
  end.
Definition acquire `{W : GcWorld} (self : AuthorizePacer) : GC AuthorizePacer := acquire_loop 2 self.

(** ** The report and the state across passes *)

Record PassReport := {
  rp_planned : Z; rp_deleted : Z; rp_skipped : gmap string Z; rp_plan_skipped : gmap string Z; rp_paused_reason : option string;
  rp_backoff : bool; rp_indexed : Z; rp_deleted_reported : Z; rp_deleted_report_failed : option string; rp_deleted_dropped : Z;
  rp_index_head_seq : option Z; rp_index_head_appended_ms : option Z; rp_more_eligible : bool }.
Definition report_default : PassReport := {|
  rp_planned := 0; rp_deleted := 0; rp_skipped := ∅; rp_plan_skipped := ∅; rp_paused_reason := None; rp_backoff := false; rp_indexed := 0;
  rp_deleted_reported := 0; rp_deleted_report_failed := None; rp_deleted_dropped := 0; rp_index_head_seq := None;
  rp_index_head_appended_ms := None; rp_more_eligible := false |}.

(** Assignments to the fields of a report. *)
Definition set_planned (z : Z) (r : PassReport) : PassReport := {|
  rp_planned := z; rp_deleted := rp_deleted r; rp_skipped := rp_skipped r; rp_plan_skipped := rp_plan_skipped r; rp_paused_reason := rp_paused_reason r;
  rp_backoff := rp_backoff r; rp_indexed := rp_indexed r; rp_deleted_reported := rp_deleted_reported r; rp_deleted_report_failed := rp_deleted_report_failed r;
  rp_deleted_dropped := rp_deleted_dropped r; rp_index_head_seq := rp_index_head_seq r; rp_index_head_appended_ms := rp_index_head_appended_ms r;
  rp_more_eligible := rp_more_eligible r |}.
Definition set_deleted (z : Z) (r : PassReport) : PassReport := {|
  rp_planned := rp_planned r; rp_deleted := z; rp_skipped := rp_skipped r; rp_plan_skipped := rp_plan_skipped r; rp_paused_reason := rp_paused_reason r;
  rp_backoff := rp_backoff r; rp_indexed := rp_indexed r; rp_deleted_reported := rp_deleted_reported r; rp_deleted_report_failed := rp_deleted_report_failed r;
  rp_deleted_dropped := rp_deleted_dropped r; rp_index_head_seq := rp_index_head_seq r; rp_index_head_appended_ms := rp_index_head_appended_ms r;
  rp_more_eligible := rp_more_eligible r |}.
Definition set_index (indexed : Z) (head : option Z) (appended : option Z) (r : PassReport) : PassReport := {|
  rp_planned := rp_planned r; rp_deleted := rp_deleted r; rp_skipped := rp_skipped r; rp_plan_skipped := rp_plan_skipped r; rp_paused_reason := rp_paused_reason r;
  rp_backoff := rp_backoff r; rp_indexed := indexed; rp_deleted_reported := rp_deleted_reported r; rp_deleted_report_failed := rp_deleted_report_failed r;
  rp_deleted_dropped := rp_deleted_dropped r; rp_index_head_seq := head; rp_index_head_appended_ms := appended; rp_more_eligible := rp_more_eligible r |}.
Definition set_plan_skipped (m : gmap string Z) (r : PassReport) : PassReport := {|
  rp_planned := rp_planned r; rp_deleted := rp_deleted r; rp_skipped := rp_skipped r; rp_plan_skipped := m; rp_paused_reason := rp_paused_reason r;
  rp_backoff := rp_backoff r; rp_indexed := rp_indexed r; rp_deleted_reported := rp_deleted_reported r; rp_deleted_report_failed := rp_deleted_report_failed r;
  rp_deleted_dropped := rp_deleted_dropped r; rp_index_head_seq := rp_index_head_seq r; rp_index_head_appended_ms := rp_index_head_appended_ms r;
  rp_more_eligible := rp_more_eligible r |}.
Definition set_dropped (z : Z) (r : PassReport) : PassReport := {|
  rp_planned := rp_planned r; rp_deleted := rp_deleted r; rp_skipped := rp_skipped r; rp_plan_skipped := rp_plan_skipped r; rp_paused_reason := rp_paused_reason r;
  rp_backoff := rp_backoff r; rp_indexed := rp_indexed r; rp_deleted_reported := rp_deleted_reported r; rp_deleted_report_failed := rp_deleted_report_failed r;
  rp_deleted_dropped := z; rp_index_head_seq := rp_index_head_seq r; rp_index_head_appended_ms := rp_index_head_appended_ms r;
  rp_more_eligible := rp_more_eligible r |}.
Definition set_reported (z : Z) (failed : option string) (r : PassReport) : PassReport := {|
  rp_planned := rp_planned r; rp_deleted := rp_deleted r; rp_skipped := rp_skipped r; rp_plan_skipped := rp_plan_skipped r; rp_paused_reason := rp_paused_reason r;
  rp_backoff := rp_backoff r; rp_indexed := rp_indexed r; rp_deleted_reported := z; rp_deleted_report_failed := failed;
  rp_deleted_dropped := rp_deleted_dropped r; rp_index_head_seq := rp_index_head_seq r; rp_index_head_appended_ms := rp_index_head_appended_ms r;
  rp_more_eligible := rp_more_eligible r |}.
(** [PassReport::skip] and [PassReport::pause] *)
Definition skip (code : string) (r : PassReport) : PassReport := {|
  rp_planned := rp_planned r; rp_deleted := rp_deleted r; rp_skipped := count_skip code (rp_skipped r); rp_plan_skipped := rp_plan_skipped r;
  rp_paused_reason := rp_paused_reason r; rp_backoff := rp_backoff r; rp_indexed := rp_indexed r; rp_deleted_reported := rp_deleted_reported r;
  rp_deleted_report_failed := rp_deleted_report_failed r; rp_deleted_dropped := rp_deleted_dropped r; rp_index_head_seq := rp_index_head_seq r;
  rp_index_head_appended_ms := rp_index_head_appended_ms r; rp_more_eligible := rp_more_eligible r |}.
Definition pause (reason : string) (backoff : bool) (r : PassReport) : PassReport := {|
  rp_planned := rp_planned r; rp_deleted := rp_deleted r; rp_skipped := rp_skipped r; rp_plan_skipped := rp_plan_skipped r; rp_paused_reason := Some reason;
  rp_backoff := backoff; rp_indexed := rp_indexed r; rp_deleted_reported := rp_deleted_reported r; rp_deleted_report_failed := rp_deleted_report_failed r;
  rp_deleted_dropped := rp_deleted_dropped r; rp_index_head_seq := rp_index_head_seq r; rp_index_head_appended_ms := rp_index_head_appended_ms r;
  rp_more_eligible := rp_more_eligible r |}.

Record LakePartGcState := {
  gs_view : LakePartLogView; gs_pending_deleted : list DeletedKey; gs_backoff_passes : Z; gs_refused_keys : RefusedKeys; gs_authorize_pacer : AuthorizePacer }.
(** [LakePartGcState::genesis] *)
Definition gc_genesis : LakePartGcState := {|
  gs_view := view_genesis; gs_pending_deleted := []; gs_backoff_passes := 0; gs_refused_keys := refused_default; gs_authorize_pacer := pacer_default |}.

(** [LakePartGcState::next_pass_delay], nanoseconds *)
Definition next_pass_delay (self : LakePartGcState) (base : Z) : Z :=
  if gs_backoff_passes self =? 0 then base else
  Z.min (dur_saturating_mul base (Z.shiftl 1 (Z.min (gs_backoff_passes self) 16))) (Z.max MAX_BACKOFF base).

(** [index_not_caught_up] *)
Definition index_not_caught_up (settling : bool) : string := if settling then INDEX_SETTLING else "index_catching_up".

(** ** The budget of a retained inventory *)

Record InventoryBudget := { ib_deleted : Z; ib_budget : Z }.
(** [InventoryBudget::next_pass] *)
Definition next_pass (self : InventoryBudget) (max_requests : Z) : option Z :=
  if ib_deleted self <? ib_budget self then Some (Z.min max_requests (ib_budget self - ib_deleted self)) else None.
(** [InventoryBudget::after_pass]: the budget and the objects after the call, and whether to run on at once. *)
Definition after_pass (self : InventoryBudget) (objects : list ListedPartObject) (receipted : list string) (refused : RefusedKeys) (now_ms : Z)
    (report : PassReport) : InventoryBudget * list ListedPartObject * bool :=
  let self' := {| ib_deleted := wrap_u64 (ib_deleted self + Z.of_nat (length receipted)); ib_budget := ib_budget self |} in
  let objects' := filter (fun o => negb (bool_decide (lo_key o ∈ receipted)) && negb (is_refused refused (lo_key o) now_ms) = true) objects in
  (self', objects',
   negb (is_some (rp_paused_reason report)) && (length objects' <? length objects)%nat && negb (nil_b objects') && is_some (next_pass self' 1)).

(** ** One delete *)

Module Step.
Inductive t := Deleted (record : DeletedKey) | Skip (code : string) | Stop (reason : string) (backoff : bool) | WorkerFailure (code : string).
End Step.

(** [custody_held] *)
Definition custody_held (error : AnyError) : option Step.t :=
  held ← ae_custody error;
  Some (if ch_part_pinned held then Step.Skip CATALOG_PINNED else Step.Stop CATALOG_CUSTODY_HELD true).

Section executor.
Context `{P : Platform} {J : JsonWriter} `{W : GcWorld} `{H : HashIter}.

(** [delete_one] *)
Definition delete_one (request : LakePartDeleteRequest) (trusted_local : bool) : GC Step.t :=
  if negb (is_ok (validate_with_local request trusted_local)) then mret (Step.Skip "invalid_request") else
  answer ← authorize request;
  match answer with
  | Err error =>
      mret match ae_refusal error with
      | None => Step.Stop ("owner_unavailable: " +:+ ae_text error) true
      | Some refusal =>
          match action refusal with
          | RefusalAction.Pause | RefusalAction.IndexIncomplete => Step.Stop (rf_code refusal) false
          | RefusalAction.BackOff => Step.Stop (rf_code refusal) true
          | RefusalAction.Skip => Step.Skip (rf_code refusal)
          end
      end
  | Ok permit =>
      now ← utc_now;
      if negb (is_ok (permit_verify permit request now trusted_local)) then mret (Step.Stop "permit_mismatch" false) else
      prepared ← prepare permit;
      match prepared with
      | Err error => mret (default (Step.WorkerFailure "worker_prepare_failed") (custody_held error))
      | Ok prepared =>
          if negb (bool_decide (prepared = permit)) then mret (Step.Stop "worker_prepare_mismatch" false) else
          receipt ← retire permit;
          mret match receipt with
          | Err error => default (Step.WorkerFailure "worker_retire_failed") (custody_held error)
          | Ok receipt =>
              if negb (is_ok (receipt_verify receipt permit trusted_local)) then Step.Stop "receipt_mismatch" false
              else Step.Deleted {| dk_key := dr_key request; dk_permit_id := pm_permit_id permit; dk_receipt_sha256 := rc_receipt_sha256 receipt |}
          end
      end
  end.

(** ** The loop over planned requests *)

(** [PassIndex]: the tenant, whether this process has the writer's ledger, and the head published. *)
Record PassIndex := { pi_tenant_uuid : string; pi_receipted : bool; pi_through : option Z }.

(** [PassIndex::writer_advanced] *)
Definition writer_advanced (self : PassIndex) : GC bool :=
  if negb (pi_receipted self) then mret false else
  run ← lock_appends;
  mret (some_and (completed_head run) (fun seq => match pi_through self with None => true | Some through => through <? seq end)).

(** [receipted.and_then(|receipted| receipted.receipted_through(now_ms))] *)
Definition ledger_through (has_ledger : bool) (now_ms : Z) : GC (option Z) :=
  if has_ledger then run ← lock_appends; mret (receipted_through run now_ms) else mret None.

(** The variables of [execute_requests]. *)
Record Exec := {
  xs_report : PassReport; xs_worker_failures : Z; xs_resynced : bool; xs_deleted : list DeletedKey; xs_refused : RefusedKeys;
  xs_pacer : AuthorizePacer; xs_resync : option PassIndex }.

Definition with_report (f : PassReport -> PassReport) (x : Exec) : Exec := {|
  xs_report := f (xs_report x); xs_worker_failures := xs_worker_failures x; xs_resynced := xs_resynced x; xs_deleted := xs_deleted x;
  xs_refused := xs_refused x; xs_pacer := xs_pacer x; xs_resync := xs_resync x |}.
Definition with_pacer (p : AuthorizePacer) (x : Exec) : Exec := {|
  xs_report := xs_report x; xs_worker_failures := xs_worker_failures x; xs_resynced := xs_resynced x; xs_deleted := xs_deleted x;
  xs_refused := xs_refused x; xs_pacer := p; xs_resync := xs_resync x |}.
Definition with_resync (index : PassIndex) (x : Exec) : Exec := {|
  xs_report := xs_report x; xs_worker_failures := xs_worker_failures x; xs_resynced := true; xs_deleted := xs_deleted x;
  xs_refused := xs_refused x; xs_pacer := xs_pacer x; xs_resync := Some index |}.
Definition with_failures (n : Z) (x : Exec) : Exec := {|
  xs_report := xs_report x; xs_worker_failures := n; xs_resynced := xs_resynced x; xs_deleted := xs_deleted x;
  xs_refused := xs_refused x; xs_pacer := xs_pacer x; xs_resync := xs_resync x |}.
Definition with_deleted (d : list DeletedKey) (x : Exec) : Exec := {|
  xs_report := xs_report x; xs_worker_failures := xs_worker_failures x; xs_resynced := xs_resynced x; xs_deleted := d;
  xs_refused := xs_refused x; xs_pacer := xs_pacer x; xs_resync := xs_resync x |}.
Definition with_refused (r : RefusedKeys) (x : Exec) : Exec := {|
  xs_report := xs_report x; xs_worker_failures := xs_worker_failures x; xs_resynced := xs_resynced x; xs_deleted := xs_deleted x;
  xs_refused := r; xs_pacer := xs_pacer x; xs_resync := xs_resync x |}.

Section execute.
Context (now_ms : Z) (trusted_local : bool).

Definition index_incomplete (step : Step.t) : bool :=
  match step with Step.Stop reason _ => bool_decide (reason = INDEX_INCOMPLETE) | _ => false end.

(** The re-sync of an index control calls incomplete, at most once a pass, and the second attempt. *)
Definition resync_step (request : LakePartDeleteRequest) (step : Step.t) (x : Exec) : GC (Step.t * Exec) :=
  match xs_resync x with
  | None => mret (step, x)
  | Some index =>
      if negb (index_incomplete step) || xs_resynced x then mret (step, x) else
      let x := with_resync index x in
      through ← ledger_through (pi_receipted index) now_ms;
      outcome ← sync_index (pi_tenant_uuid index) now_ms through;
      match outcome with
      | Ok (Synced status true pushed _ head_appended_ms _) =>
          let index := {| pi_tenant_uuid := pi_tenant_uuid index; pi_receipted := pi_receipted index; pi_through := is_indexed_through_seq status |} in
          let x := with_resync index (with_report (fun r =>
                     set_index (wrap_u64 (rp_indexed r + pushed)) (is_indexed_through_seq status) head_appended_ms r) x) in
          pacer ← acquire (xs_pacer x);
          let x := with_pacer pacer x in
          advanced ← writer_advanced index;
          if (advanced : bool) then mret (Step.Stop LOG_CATCHING_UP false, x)
          else step ← delete_one request trusted_local; mret (step, x)
      | Ok (BackOff reason) => mret (Step.Stop reason true, x)
      | Ok (Refused reason) => mret (Step.Stop reason false, x)
      | Ok (Synced _ false _ _ _ settling) => mret (Step.Stop (index_not_caught_up settling) false, x)
      | Ok RouteNotServed => mret (Step.Stop "index_route_not_served" false, x)
      | Err error =>
          let x := match ae_progress error with
                   | Some pushed => with_report (fun r => set_index (wrap_u64 (rp_indexed r + pushed)) (rp_index_head_seq r) (rp_index_head_appended_ms r) r) x
                   | None => x
                   end in
          let reason := routine_fence error in
          mret (Step.Stop (default "log_unverifiable" reason)
                  match reason with None => true | Some reason => bool_decide (reason = CREDENTIAL_REFRESH) end, x)
      end
  end.

(** The [match step] at the end of an iteration: [inl] goes on, [inr] breaks. *)
Definition conclude (request : LakePartDeleteRequest) (step : Step.t) (x : Exec) : Exec + Exec :=
  match step with
  | Step.Deleted record =>
      inl (with_deleted (xs_deleted x ++ [record]) (with_report (fun r => set_deleted (wrap_u64 (rp_deleted r + 1)) r) (with_failures 0 x)))
  | Step.Skip code => inl (with_report (skip code) (with_refused (rk_remember (xs_refused x) (dr_key request) code now_ms) x))
  | Step.WorkerFailure code =>
      let x := with_failures (wrap_u32 (xs_worker_failures x + 1)) (with_report (skip code) x) in
      if MAX_CONSECUTIVE_WORKER_FAILURES <=? xs_worker_failures x then inr (with_report (pause "worker_unavailable" true) x) else inl x
  | Step.Stop reason backoff =>
      let x := if bool_decide (reason = "receipt_mismatch") || bool_decide (reason = "permit_mismatch") then with_report (skip reason) x else x in
      inr (with_report (pause reason backoff) x)
  end.

(** One iteration for a key that is not refused: pace, yield to a writer that moved on, delete, re-sync. *)
Definition execute_attempt (request : LakePartDeleteRequest) (x : Exec) : GC (Exec + Exec) :=
  pacer ← (if negb trusted_local && is_ok (validate_with_local request false) then acquire (xs_pacer x) else mret (xs_pacer x));
  let x := with_pacer pacer x in
  advanced ← match xs_resync x with Some index => writer_advanced index | None => mret false end;
  if (advanced : bool) then mret (inr (with_report (pause LOG_CATCHING_UP false) x)) else
  step ← delete_one request trusted_local;
  '(step, x) ← resync_step request step x;
  mret (conclude request step x).

(** One iteration of the [for]. *)
Definition execute_step (request : LakePartDeleteRequest) (x : Exec) : GC (Exec + Exec) :=
  let x := with_report (fun r => set_planned (wrap_u64 (rp_planned r + 1)) r) x in
  if is_refused (xs_refused x) (dr_key request) now_ms then mret (inl (with_report (skip "recently_refused") x))
  else execute_attempt request x.

(** The [for] over an iterator with state [C]; the fuel is the number of items it has left, plus one. *)
Fixpoint execute_loop {C} (next : C -> C * option LakePartDeleteRequest) (fuel : nat) (c : C) (x : Exec) : GC (C * Exec) :=
  match fuel with
  | O => mret (c, x)
  | S fuel =>
      match next c with
      | (c, None) => mret (c, x)
      | (c, Some request) =>
          flow ← execute_step request x;
          match flow with
          | inl x => execute_loop next fuel c x
          | inr x => mret (c, x)
          end
      end
  end.
End execute.

(** A vector as an iterator. *)
Definition list_next {A} (l : list A) : list A * option A := match l with [] => ([], None) | x :: l => (l, Some x) end.

Definition exec_new (deleted : list DeletedKey) (refused : RefusedKeys) (pacer : AuthorizePacer) (resync : option PassIndex) : Exec := {|
  xs_report := report_default; xs_worker_failures := 0; xs_resynced := false; xs_deleted := deleted; xs_refused := refused; xs_pacer := pacer;
  xs_resync := resync |}.

(** [execute_requests] over a vector: its variables at the end. *)
Definition execute_requests (requests : list LakePartDeleteRequest) (deleted : list DeletedKey) (refused : RefusedKeys) (pacer : AuthorizePacer)
    (now_ms : Z) (trusted_local : bool) (resync : option PassIndex) : GC Exec :=
  '(_, x) ← execute_loop now_ms trusted_local list_next (S (length requests)) requests (exec_new deleted refused pacer resync);
  mret x.

(** [chrono::Utc::now().timestamp_millis()] *)
Definition now_millis : GC Z := now ← utc_now; mret (now / 1000000).

(** [execute], [execute_local] and [execute_quarantine] *)
Definition execute (requests : list LakePartDeleteRequest) (deleted : list DeletedKey) : GC (list DeletedKey * PassReport) :=
  now_ms ← now_millis;
  x ← execute_requests requests deleted refused_default pacer_default now_ms false None;
  mret (xs_deleted x, set_planned (Z.of_nat (length requests)) (xs_report x)).
Definition execute_local (requests : list LakePartDeleteRequest) : GC PassReport :=
  now_ms ← now_millis;
  x ← execute_requests requests [] refused_default pacer_default now_ms true None;
  mret (xs_report x).
Definition execute_quarantine (requests : list LakePartDeleteRequest) (refused : RefusedKeys) (pacer : AuthorizePacer) (now_ms : Z) :
    GC (RefusedKeys * AuthorizePacer * PassReport) :=
  x ← execute_requests requests [] refused pacer now_ms false None; mret (xs_refused x, xs_pacer x, xs_report x).

(** ** The pass *)

(** The loop of [live_part_keys], reading provenance through the reader. *)
Fixpoint collect_live_keys (tenant_uuid : string) (adopted : gmap PartId string) (keys : gset string) (parts : list PartRef) :
    GC (gmap PartId string * result (GcError AnyError) (gset string)) :=
  match parts with
  | [] => mret (adopted, Ok keys)
  | part :: parts =>
      match PartKeys_new tenant_uuid (level part) (event_hour part) (part_id part) with
      | Err e => mret (adopted, Err (NoKeyLayout e))
      | Ok dir =>
          let keys := list_to_set (part_file dir <$> part_dir_files part) ∪ keys in
          if sorted part then collect_live_keys tenant_uuid adopted keys parts else
          match adopted !! part_id part with
          | Some data_key => collect_live_keys tenant_uuid adopted ({[data_key]} ∪ keys) parts
          | None =>
              answer ← verified_provenance part;
              match answer with
              | Err e => mret (adopted, Err (ReaderFailed e))
              | Ok record =>
                  match data_key record dir 0 with
                  | None => mret (adopted, Err NoDataFile)
                  | Some data_key => collect_live_keys tenant_uuid (<[part_id part := data_key]> adopted) ({[data_key]} ∪ keys) parts
                  end
              end
          end
      end
  end.
Definition resolve_live_keys (tenant_uuid : string) (v : LakePartLogView) : GC (LakePartLogView * result (GcError AnyError) (gset string)) :=
  let retained := filter (fun kv => is_Some (live (vw_live v) !! kv.1)) (vw_adopted_keys v) in
  '(adopted, r) ← collect_live_keys tenant_uuid retained ∅ (btree_values pid_leb (live (vw_live v)));
  mret ({| vw_live := vw_live v; vw_known := vw_known v; vw_removals := vw_removals v; vw_from_genesis := vw_from_genesis v;
           vw_adopted_keys := adopted |}, r).

Definition with_view (v : LakePartLogView) (s : LakePartGcState) : LakePartGcState := {|
  gs_view := v; gs_pending_deleted := gs_pending_deleted s; gs_backoff_passes := gs_backoff_passes s; gs_refused_keys := gs_refused_keys s;
  gs_authorize_pacer := gs_authorize_pacer s |}.
Definition with_exec (x : Exec) (s : LakePartGcState) : LakePartGcState := {|
  gs_view := gs_view s; gs_pending_deleted := xs_deleted x; gs_backoff_passes := gs_backoff_passes s; gs_refused_keys := xs_refused x;
  gs_authorize_pacer := xs_pacer x |}.

Section pass.
Context (tenant_id tenant_uuid : string) (objects : list ListedPartObject) (now_ms : Z) (policy : GcPolicy) (has_ledger bounded_fold_complete : bool).

Definition paused (state : LakePartGcState) (report : PassReport) (reason : string) (backoff : bool) : LakePartGcState * PassReport :=
  (state, pause reason backoff report).

(** The index must stand exactly at the head of a view that was folded before. *)
Definition view_mismatch (view : LakePartLogView) (status : IndexStatus) : option string :=
  if negb bounded_fold_complete then None else
  let head := head (vw_live view) in
  if some_and (is_indexed_through_seq status) (fun indexed => match head with None => true | Some (seq, _, _) => seq <? indexed end)
  then Some LOG_CATCHING_UP
  else if negb (bool_decide (is_indexed_through_seq status = ((fun '(seq, _, _) => seq) <$> head)))
          || negb (bool_decide (is_head_entry_sha256 status = ((fun '(_, sha, _) => sha) <$> head)))
  then Some "index_complete_view_mismatch"
  else None.

(** The plan and its execution, lazy in the cell and eager otherwise; [indexed] is the report of the index sync. *)
Definition run_plan (state : LakePartGcState) (live_keys : gset string) (indexed : PassReport) : GC (LakePartGcState * PassReport) :=
  let next := next tenant_id tenant_uuid (gs_view state) live_keys now_ms policy in
  let cursor := cursor_new objects in
  let fuel := S (length (pc_objects cursor)) in
  let start := exec_new (gs_pending_deleted state) (gs_refused_keys state) (gs_authorize_pacer state)
                 (Some {| pi_tenant_uuid := tenant_uuid; pi_receipted := has_ledger; pi_through := rp_index_head_seq indexed |}) in
  '(skipped, x) ←
    (if bounded_fold_complete then
       '(c, x) ← execute_loop now_ms false next fuel cursor start;
       mret (pc_skipped c, x)
     else
       let '(requests, c) := collect tenant_id tenant_uuid (gs_view state) live_keys now_ms policy fuel cursor in
       '(_, x) ← execute_loop now_ms false list_next (S (length requests)) requests start;
       mret (pc_skipped c, with_report (set_planned (Z.of_nat (length requests))) x));
  let executed := xs_report x in
  let or (a b : option Z) := match a with Some _ => a | None => b end in
  mret (with_exec x state,
        set_plan_skipped skipped (set_index (wrap_u64 (rp_indexed indexed + rp_indexed executed))
          (or (rp_index_head_seq executed) (rp_index_head_seq indexed))
          (or (rp_index_head_appended_ms executed) (rp_index_head_appended_ms indexed)) executed)).

(** [pass] from the index sync on; planning needs a valid policy ([PlanCursor::new]). *)
Definition sync_and_run (state : LakePartGcState) (live_keys : gset string) : GC (LakePartGcState * PassReport) :=
  through ← ledger_through has_ledger now_ms;
  outcome ← (if bounded_fold_complete then sync_index_through_view tenant_uuid (head_seq (gs_view state)) now_ms through
             else sync_index tenant_uuid now_ms through);
  match outcome with
  | Ok (Synced status caught_up pushed _ head_appended_ms settling) =>
      let report := set_index pushed (is_indexed_through_seq status) head_appended_ms report_default in
      if negb caught_up then mret (paused state report (index_not_caught_up settling) false) else
      match view_mismatch (gs_view state) status with
      | Some reason => mret (paused state report reason false)
      | None => run_plan state live_keys report
      end
  | Ok RouteNotServed => mret (paused state report_default "index_route_not_served" false)
  | Ok (BackOff code) => mret (paused state report_default code true)
  | Ok (Refused code) => mret (paused state report_default code false)
  | Err error =>
      let report := match ae_progress error with Some pushed => set_index pushed None None report_default | None => report_default end in
      mret match routine_fence error with
      | Some reason => paused state report reason (bool_decide (reason = CREDENTIAL_REFRESH))
      | None => paused state report "log_unverifiable" true
      end
  end.

(** [pass]: the state after it and the report. *)
Definition pass (state : LakePartGcState) : GC (LakePartGcState * PassReport) :=
  supports ← worker_supports_lake_part_delete;
  match supports with
  | Err _ => mret (paused state report_default "worker_unavailable" true)
  | Ok false => mret (paused state report_default "worker_capability_missing" false)
  | Ok true =>
      '(view, caught_up) ←
        (if bounded_fold_complete then mret (gs_view state, Ok 0) else catch_up_view_bounded (gs_view state) MAX_LOG_ENTRIES_PER_PASS);
      let state := with_view view state in
      match caught_up with
      | Err _ => mret (paused state report_default "log_unverifiable" true)
      | Ok applied =>
          if applied =? MAX_LOG_ENTRIES_PER_PASS then mret (paused state report_default LOG_CATCHING_UP false) else
          '(view, keys) ← resolve_live_keys tenant_uuid (gs_view state);
          let state := with_view view state in
          match keys with
          | Err _ => mret (paused state report_default "live_keys_unresolved" true)
          | Ok live_keys =>
              if negb (policy_validate policy false) then mret (paused state report_default "policy_invalid" false)
              else sync_and_run state live_keys
          end
      end
  end.

(** [run_pass_inner] *)
Definition run_pass_inner (state : LakePartGcState) : GC (LakePartGcState * PassReport) :=
  '(state, report) ← pass state;
  let excess := (length (gs_pending_deleted state) - Z.to_nat MAX_PENDING_DELETED)%nat in
  let report := if (0 <? excess)%nat then set_dropped (Z.of_nat excess) report else report in
  '(pending, report) ←
    match drop excess (gs_pending_deleted state) with
    | [] => mret ([], report)
    | pending =>
        '(pending, r) ← report_deleted tenant_uuid pending;
        mret (pending, match r with Ok reported => set_reported reported None report | Err code => set_reported 0 (Some code) report end)
    end;
  mret ({| gs_view := gs_view state; gs_pending_deleted := pending;
           gs_backoff_passes := if rp_backoff report then Z.min u32_max (gs_backoff_passes state + 1) else 0;
           gs_refused_keys := gs_refused_keys state; gs_authorize_pacer := gs_authorize_pacer state |}, report).
End pass.

(** [run_pass] and [run_pass_after_bounded_fold] *)
Definition run_pass tenant_id tenant_uuid objects now_ms policy has_ledger (state : LakePartGcState) : GC (LakePartGcState * PassReport) :=
  run_pass_inner tenant_id tenant_uuid objects now_ms policy has_ledger false state.
Definition run_pass_after_bounded_fold tenant_id tenant_uuid objects now_ms policy has_ledger (state : LakePartGcState) : GC (LakePartGcState * PassReport) :=
  run_pass_inner tenant_id tenant_uuid objects now_ms policy has_ledger true state.
End executor.
