(* ===== verification/GcPassSafety.v ===== *)
(** * GcPassSafety: what a GC pass may do to the store

    Whatever the owner, the Worker, control, the reader and the clock answer, every retire call of
    a pass of [lake_part_gc/executor.rs] carries a permit that was asked for, checked and prepared
    for a planned request, the plan is over the fold of the verified log, and a delete is
    recorded exactly when the Worker gave an exact receipt. *)
From S2P Require Import Prelude Platform Format PartTypes LiveSet LiveSetFacts Replay Json ProvenanceTypes Provenance GcRequest GcPlanner GcSafety GcEnv GcIndex GcIndexSafety GcExecutor.

(** ** Calls to the delete authority *)

(** Not a call that authorizes or deletes. *)
Definition harmless (e : Event) : Prop :=
  match e with EvAuthorize _ _ | EvPrepare _ _ | EvRetire _ _ => False | _ => True end.

Section harmless.
Context `{P : Platform} {J : JsonWriter} `{W : GcWorld}.

Lemma call_loop_harmless n r : all_events harmless (call_loop n r).
Proof. induction n as [|n IH]; cbn [call_loop]; events. Qed.
#[local] Hint Resolve call_loop_harmless : gc_events.
Lemma call_retrying_harmless r : all_events harmless (call_retrying r).
Proof. apply call_loop_harmless. Qed.
#[local] Hint Resolve call_retrying_harmless : gc_events.
Lemma status_read_harmless t : all_events harmless (status_read t).
Proof. unfold status_read, new_uuid. events. Qed.
#[local] Hint Resolve status_read_harmless : gc_events.
Lemma report_loop_harmless fuel : forall t q n, all_events harmless (report_loop fuel t q n).
Proof. induction fuel as [|fuel IH]; intros t [|d q] n; cbn [report_loop]; unfold call, index_call; events. Qed.
Lemma queue_reads_harmless room : forall a, all_events harmless (queue_reads room a).
Proof. induction room as [|room IH]; intros a; cbn [queue_reads]; unfold verified_entry; events. Qed.
#[local] Hint Resolve queue_reads_harmless : gc_events.
Lemma entry_harmless a s : all_events harmless (entry a s).
Proof. unfold entry, read. events. Qed.
#[local] Hint Resolve entry_harmless : gc_events.
Lemma adopt_claims_harmless parts : all_events harmless (adopt_claims parts).
Proof. induction parts as [|p parts IH]; cbn [adopt_claims]; unfold verified_provenance; events. Qed.
#[local] Hint Resolve adopt_claims_harmless : gc_events.
Lemma fill_harmless t n r room : forall next b, all_events harmless (fill t n r room next b).
Proof. induction room as [|room IH]; intros next b; cbn [fill]; unfold fill_step, entry_claims; events. Qed.
#[local] Hint Resolve fill_harmless : gc_events.
Lemma sync_rounds_harmless tu t n r k : forall cp st, all_events harmless (sync_rounds tu t n r k cp st).
Proof. induction k as [|k IH]; intros cp st; cbn [sync_rounds]; unfold sync_round, send_batch, settle, new_uuid; events. Qed.
#[local] Hint Resolve sync_rounds_harmless : gc_events.
Lemma sync_harmless tu t n r : all_events harmless (sync_index_inner tu t n r).
Proof. unfold sync_index_inner, newest_checkpoint. events. Qed.
Lemma catch_up_harmless k : forall v n, all_events harmless (catch_up_view_loop k v n).
Proof. induction k as [|k IH]; intros v n; cbn [catch_up_view_loop]; unfold verified_entry; events. Qed.
Lemma collect_live_keys_harmless tu parts : forall a k, all_events harmless (collect_live_keys tu a k parts).
Proof. induction parts as [|p parts IH]; intros a k; cbn [collect_live_keys]; unfold verified_provenance; events. Qed.
Lemma acquire_harmless fuel : forall p, all_events harmless (acquire_loop fuel p).
Proof. induction fuel as [|fuel IH]; intros p; cbn [acquire_loop]; unfold instant_now, sleep_until; events. Qed.
Lemma writer_advanced_harmless i : all_events harmless (writer_advanced i).
Proof. unfold writer_advanced, lock_appends. events. Qed.
Lemma ledger_harmless h n : all_events harmless (ledger_through h n).
Proof. unfold ledger_through, lock_appends. events. Qed.
End harmless.

(** ** One delete *)

Section guard.
Context `{P : Platform} {J : JsonWriter} `{W : GcWorld} `{H : HashIter}.
Context (good : LakePartDeleteRequest -> Prop) (trusted_local : bool).

(** What must have happened before a retire call. *)
Record retire_guarded (before : list Event) (permit : LakePartDeletePermit) : Prop := {
  rg_good : good (pm_request permit);
  rg_authorized : EvAuthorize (pm_request permit) (Ok permit) ∈ before;
  rg_verified : exists now, EvUtcNow now ∈ before /\ permit_verify permit (pm_request permit) now trusted_local = Ok tt;
  rg_prepared : EvPrepare permit (Ok permit) ∈ before }.

(** Only planned requests are asked for, and only guarded permits are retired. *)
Definition authority_guard (before : list Event) (e : Event) : Prop :=
  match e with
  | EvAuthorize request _ => good request /\ validate_with_local request trusted_local = Ok tt
  | EvRetire permit _ => retire_guarded before permit
  | _ => True
  end.

(** The record of a delete with an exact receipt. *)
Definition receipt_of (e : Event) : option DeletedKey :=
  match e with
  | EvRetire permit (Ok receipt) =>
      if is_ok (receipt_verify receipt permit trusted_local)
      then Some {| dk_key := dr_key (pm_request permit); dk_permit_id := pm_permit_id permit; dk_receipt_sha256 := rc_receipt_sha256 receipt |}
      else None
  | _ => None
  end.
Definition step_record (step : Step.t) : list DeletedKey := match step with Step.Deleted record => [record] | _ => [] end.

Lemma permit_verify_request permit request now : permit_verify permit request now trusted_local = Ok tt -> pm_request permit = request.
Proof.
  unfold permit_verify. intros Hv. inv_ok. apply negb_true_iff in Hv. rewrite !orb_false_iff in Hv.
  destruct Hv as [[[[[[[[[E _] _] _] _] _] _] _] _] _]. by apply negb_false_iff, bool_decide_eq_true in E.
Qed.

Lemma guard_harmless before ev : Forall harmless ev -> each_event authority_guard before ev /\ omap receipt_of ev = [].
Proof.
  intros Hh. split.
  - eapply each_event_quiet; [|exact Hh]. by intros b [].
  - induction Hh as [|e ev He _ IH]; [done|]. by destruct e.
Qed.

Lemma custody_no_record e code : step_record (default (Step.WorkerFailure code) (custody_held e)) = [].
Proof. unfold custody_held. destruct (ae_custody e) as [[? []]|]; done. Qed.

(** The claim about a run that ends in a step. *)
Definition step_claim (before ev : list Event) (step : Step.t) : Prop :=
  each_event authority_guard before ev /\ step_record step = omap receipt_of ev.

Lemma delete_one_spec before request : good request -> yields (delete_one request trusted_local) (step_claim before).
Proof.
  intros Hg. unfold delete_one, step_claim. destruct (validate_with_local request trusted_local) as [[]|] eqn:Ev; cbn [is_ok negb];
    [|apply yields_ret; split; [apply each_event_nil|done]].
  assert (forall b a, authority_guard b (EvAuthorize request a)) as Ha by done.
  apply yields_bind, yields_ask. intros [permit|e].
  2: { apply yields_ret. split; [apply each_event_cons; [apply Ha|apply each_event_nil]|].
       destruct (ae_refusal e) as [rf|]; [destruct (action rf)|]; done. }
  apply yields_bind, yields_ask. intros now. destruct (permit_verify permit request now trusted_local) as [[]|] eqn:Ep; cbn [is_ok negb].
  2: { apply yields_ret. split; [|done]. apply each_event_cons; [apply Ha|]. apply each_event_cons; [done|apply each_event_nil]. }
  apply yields_bind, yields_ask. intros [prepared|e].
  2: { apply yields_ret. split; [|apply custody_no_record]. apply each_event_cons; [apply Ha|]. do 2 (apply each_event_cons; [done|]). apply each_event_nil. }
  case_bool_decide as E; cbn [negb].
  2: { apply yields_ret. split; [|done]. apply each_event_cons; [apply Ha|]. do 2 (apply each_event_cons; [done|]). apply each_event_nil. }
  subst prepared. apply yields_bind, yields_ask. intros answer. apply yields_ret. cbn [app]. split.
  - apply each_event_cons; [apply Ha|]. do 2 (apply each_event_cons; [done|]). apply each_event_cons; [|apply each_event_nil].
    pose proof (permit_verify_request _ _ _ Ep) as Er. split; rewrite ?Er; [done|set_solver| |set_solver]. exists now. split; [set_solver|done].
  - destruct answer as [receipt|e]; cbn; [|apply custody_no_record].
    rewrite (permit_verify_request _ _ _ Ep). by destruct (receipt_verify receipt permit trusted_local).
Qed.

(** ** The loop *)

Context (now_ms : Z).

Lemma guard_bind {A B} (m : GC A) (k : A -> GC B) before (Q : list DeletedKey -> B -> Prop) :
  all_events harmless m ->
  (forall ev a, Forall harmless ev -> yields (k a) (fun ev' b => each_event authority_guard (before ++ ev) ev' /\ Q (omap receipt_of ev') b)) ->
  yields (m ≫= k) (fun ev b => each_event authority_guard before ev /\ Q (omap receipt_of ev) b).
Proof.
  intros Hm Hk. apply yields_bind. eapply yields_mono; [exact Hm|]. cbn. intros ev a Hh. destruct (guard_harmless before ev Hh) as [Hg Ho].
  eapply yields_mono; [apply Hk, Hh|]. cbn. intros ev' b [Hg' HQ]. split; [by apply each_event_app|]. by rewrite omap_app, Ho.
Qed.

(** What [resync_step] and [conclude] keep. *)
Definition same_deleted (x x' : Exec) : Prop := xs_deleted x' = xs_deleted x /\ rp_deleted (xs_report x') = rp_deleted (xs_report x).
Definition same_refused (x x' : Exec) : Prop := xs_refused x' = xs_refused x.

Lemma resync_step_spec before request step x : good request ->
  yields (resync_step now_ms trusted_local request step x) (fun ev r =>
    each_event authority_guard before ev /\ (step_record r.1 = step_record step ++ omap receipt_of ev /\ same_deleted x r.2)).
Proof.
  intros Hg. unfold resync_step. assert (forall x', same_deleted x x' ->
    yields (mret (step, x')) (fun ev r => each_event authority_guard before ev /\ (step_record r.1 = step_record step ++ omap receipt_of ev /\ same_deleted x r.2))) as Hret.
  { intros x' Hx. apply yields_ret. split; [apply each_event_nil|]. cbn. by rewrite app_nil_r. }
  destruct (xs_resync x) as [index|]; [|by apply Hret]. destruct (index_incomplete step) eqn:Ei; cbn [negb orb]; [|by apply Hret].
  destruct (xs_resynced x); [by apply Hret|]. assert (step_record step = []) as -> by (by destruct step).
  assert (forall b step' x', step_record step' = [] -> same_deleted x x' ->
    yields (mret (step', x')) (fun ev r => each_event authority_guard b ev /\ (step_record r.1 = [] ++ omap receipt_of ev /\ same_deleted x r.2))) as Hend.
  { intros b step' x' Hs Hx. apply yields_ret. split; [apply each_event_nil|]. by split. }
  apply (guard_bind _ _ before (fun o r => step_record r.1 = [] ++ o /\ same_deleted x r.2)); [apply ledger_harmless|]. intros e1 through _.
  apply (guard_bind _ _ _ (fun o r => step_record r.1 = [] ++ o /\ same_deleted x r.2)); [apply sync_harmless|]. intros e2 outcome _.
  destruct outcome as [[status [] pushed gaps head settling| |code|code]|e]; [|by apply Hend..|apply Hend; [done|by destruct (ae_progress e)]].
  apply (guard_bind _ _ _ (fun o r => step_record r.1 = [] ++ o /\ same_deleted x r.2)); [apply acquire_harmless|]. intros e3 pacer _.
  apply (guard_bind _ _ _ (fun o r => step_record r.1 = [] ++ o /\ same_deleted x r.2)); [apply writer_advanced_harmless|]. intros e4 [] _; [by apply Hend|].
  apply yields_bind. eapply yields_mono; [apply delete_one_spec, Hg|]. intros e5 step' [Hs He]. apply yields_ret. rewrite app_nil_r. by split.
Qed.

(** The claim about a part of the loop: guarded calls, and a record for every exact receipt. *)
Definition exec_claim (before : list Event) (x : Exec) (ev : list Event) (x' : Exec) : Prop :=
  each_event authority_guard before ev
  /\ (xs_deleted x' = xs_deleted x ++ omap receipt_of ev
      /\ rp_deleted (xs_report x') = wrap_u64 (rp_deleted (xs_report x) + Z.of_nat (length (omap receipt_of ev)))).

Definition deleted_wf (x : Exec) : Prop := in_u64 (rp_deleted (xs_report x)).

Lemma conclude_deleted request step x x' :
  (conclude now_ms request step x = inl x' \/ conclude now_ms request step x = inr x') -> deleted_wf x ->
  xs_deleted x' = xs_deleted x ++ step_record step
  /\ rp_deleted (xs_report x') = wrap_u64 (rp_deleted (xs_report x) + Z.of_nat (length (step_record step))).
Proof.
  intros Hc Hw. destruct step as [record|code|reason backoff|code]; cbn in Hc |- *; rewrite ?app_nil_r, ?Z.add_0_r, ?(wrap_u64_id _ Hw).
  - destruct Hc as [[= <-]|[=]]. done.
  - destruct Hc as [[= <-]|[=]]. done.
  - destruct Hc as [[=]|[= <-]]. by destruct (_ || _).
  - destruct (_ <=? _); destruct Hc as [[=]|[=]]; by subst.
Qed.

Lemma exec_claim_ret before x (r : Exec + Exec) : deleted_wf x -> same_deleted x (match r with inl x | inr x => x end) ->
  yields (mret r) (fun ev r => exec_claim before x ev (match r with inl x | inr x => x end)).
Proof.
  intros Hw [E1 E2]. apply yields_ret. split; [apply each_event_nil|]. cbn. by rewrite E1, E2, app_nil_r, Z.add_0_r, (wrap_u64_id _ Hw).
Qed.

Lemma execute_attempt_spec before request x : good request -> deleted_wf x ->
  yields (execute_attempt now_ms trusted_local request x) (fun ev r => exec_claim before x ev (match r with inl x | inr x => x end)).
Proof.
  intros Hg Hw. unfold execute_attempt.
  apply (guard_bind _ _ before (fun o r => xs_deleted (match r with inl x | inr x => x end) = xs_deleted x ++ o
    /\ rp_deleted (xs_report (match r with inl x | inr x => x end)) = wrap_u64 (rp_deleted (xs_report x) + Z.of_nat (length o)))).
  { destruct (_ && _); [apply acquire_harmless|apply all_events_ret]. } intros e1 pacer _.
  apply (guard_bind _ _ _ (fun o r => xs_deleted (match r with inl x | inr x => x end) = xs_deleted x ++ o
    /\ rp_deleted (xs_report (match r with inl x | inr x => x end)) = wrap_u64 (rp_deleted (xs_report x) + Z.of_nat (length o)))).
  { destruct (xs_resync _); [apply writer_advanced_harmless|apply all_events_ret]. } intros e2 [] _; [by apply exec_claim_ret|].
  apply yields_bind. eapply yields_mono; [exact (delete_one_spec ((before ++ e1) ++ e2) request Hg)|]. intros e3 step [Hs He].
  apply yields_bind. eapply yields_mono; [apply (resync_step_spec (((before ++ e1) ++ e2) ++ e3) request step _ Hg)|]. intros e4 [step' x'] (Hs' & He' & E1 & E2). cbn in He', E1, E2.
  apply yields_ret. rewrite app_nil_r. split; [by apply each_event_app|]. rewrite omap_app, <- He, <- He', <- E1, <- E2. apply (conclude_deleted request).
  - by destruct (conclude _ _ _ _); [left|right].
  - unfold deleted_wf. by rewrite E2.
Qed.

Lemma execute_step_spec before request x : good request -> deleted_wf x ->
  yields (execute_step now_ms trusted_local request x) (fun ev r => exec_claim before x ev (match r with inl x | inr x => x end)).
Proof.
  intros Hg Hw. unfold execute_step. cbn zeta. destruct (is_refused _ _ _); [by apply exec_claim_ret|].
  eapply yields_mono; [apply (execute_attempt_spec before request); [exact Hg|exact Hw]|]. intros ev r Hc. exact Hc.
Qed.

Lemma exec_claim_trans before x e1 x1 e2 x2 :
  exec_claim before x e1 x1 -> exec_claim (before ++ e1) x1 e2 x2 -> exec_claim before x (e1 ++ e2) x2.
Proof.
  intros (G1 & D1 & N1) (G2 & D2 & N2). split; [by apply each_event_app|]. rewrite omap_app, length_app. split; [by rewrite D2, D1, app_assoc|].
  rewrite N2, N1. unfold wrap_u64. rewrite Zplus_mod_idemp_l. f_equal. lia.
Qed.
Lemma exec_claim_wf before x ev x' : exec_claim before x ev x' -> deleted_wf x'.
Proof.
  intros (_ & _ & E). unfold deleted_wf. rewrite E. unfold wrap_u64, in_u64. pose proof (Z.mod_pos_bound (rp_deleted (xs_report x) + Z.of_nat (length (omap receipt_of ev))) (u64_max + 1) ltac:(done)). lia.
Qed.

(** An iterator that gives only good requests. *)
Lemma execute_loop_spec {C} (next : C -> C * option LakePartDeleteRequest) (inv : C -> Prop) fuel :
  (forall c c' r, inv c -> next c = (c', Some r) -> good r /\ inv c') ->
  forall before c x, inv c -> deleted_wf x -> yields (execute_loop now_ms trusted_local next fuel c x) (fun ev r => exec_claim before x ev r.2).
Proof.
  intros Hnext. induction fuel as [|fuel IH]; intros before c x Hc Hw; cbn [execute_loop]; [apply (exec_claim_ret before x (inl x)); [done|done]|].
  destruct (next c) as [c' [request|]] eqn:En; [|by apply (exec_claim_ret before x (inl x))].
  destruct (Hnext _ _ _ Hc En) as [Hg Hc']. apply yields_bind. eapply yields_mono; [exact (execute_step_spec before request x Hg Hw)|].
  intros e1 [x1|x1] H1; [|apply yields_ret; by rewrite app_nil_r]. eapply yields_mono; [exact (IH (before ++ e1) c' x1 Hc' (exec_claim_wf _ _ _ _ H1))|].
  intros e2 r H2. by eapply exec_claim_trans.
Qed.
End guard.

(** ** The view a pass plans over *)

Section view.
Context `{P : Platform} {J : JsonWriter} `{W : GcWorld} `{H : HashIter}.

(** The view without its cache of adopted keys, which the fold does not touch. *)
Definition forget_adopted (v : LakePartLogView) : LakePartLogView :=
  {| vw_live := vw_live v; vw_known := vw_known v; vw_removals := vw_removals v; vw_from_genesis := vw_from_genesis v; vw_adopted_keys := ∅ |}.
(** [v] is the fold of [log] from genesis. *)
Definition folded (log : list (LogEntry * string)) (v : LakePartLogView) : Prop := view_replay log view_genesis = Ok (forget_adopted v).

Lemma view_apply_ok v e sha v' u : gc_view_apply v e sha = (v', Ok u) -> view_step (forget_adopted v) (e, sha) = Ok (forget_adopted v').
Proof. unfold view_step, gc_view_apply. cbn. destruct (apply (vw_live v) e sha) as [s [[]|er]]; [|done]. by intros [= <- _]. Qed.
Lemma view_apply_err v e sha v' er : gc_view_apply v e sha = (v', Err er) -> v' = v.
Proof.
  unfold gc_view_apply. destruct (apply (vw_live v) e sha) as [s [[]|er']] eqn:Ea; [done|]. apply apply_err_unchanged in Ea as ->.
  intros [= <- _]. by destruct v.
Qed.
Lemma folded_snoc log v e sha v' u : folded log v -> gc_view_apply v e sha = (v', Ok u) -> folded (log ++ [(e, sha)]) v'.
Proof.
  unfold folded, view_replay. intros Hf Ha%view_apply_ok. rewrite fold_res_app, Hf. cbn. by rewrite Ha.
Qed.

Definition read_entry (ev : list Event) (es : LogEntry * string) : Prop := exists v, was_read ev v /\ es = (ve_entry v, ve_sha256 v).
Lemma read_entry_mono ev ev' es : ev ⊆ ev' -> read_entry ev es -> read_entry ev' es.
Proof. intros Hs (v & Hv & ->). exists v. split; [by eapply was_read_mono|done]. Qed.

(** The sequence after the head of a view. *)
Definition next_seq (v : LakePartLogView) : Z := match head_seq v with None => 0 | Some seq => wrap_u64 (seq + 1) end.

(** The bounded fold extends the view by what it read, and short of its limit it stopped at the head. *)
Definition fold_claim (log : list (LogEntry * string)) (applied : Z) (limit : nat) (ev : list Event) (r : LakePartLogView * result CatchUpError Z) : Prop :=
  exists more, folded (log ++ more) r.1 /\ Forall (read_entry ev) more
    /\ forall n, r.2 = Ok n -> n = applied + Z.of_nat (length more) /\ (n = applied + Z.of_nat limit \/ EvEntry (next_seq r.1) (Ok None) ∈ ev).

Lemma catch_up_loop_spec limit : forall log v applied, folded log v -> yields (catch_up_view_loop limit v applied) (fold_claim log applied limit).
Proof.
  induction limit as [|limit IH]; intros log v applied Hf; cbn [catch_up_view_loop].
  { apply yields_ret. exists []. rewrite app_nil_r. split_and!; [done|constructor|]. intros n [= <-]. cbn. split; [lia|left; lia]. }
  apply yields_bind, yields_ask. intros answer. assert (forall (e : Event) x, fold_claim log applied (S limit) [e] (v, Err x)) as Herr.
  { intros e x. exists []. rewrite app_nil_r. by split_and!; [|constructor|]. }
  destruct answer as [[ve|]|e]; [| |apply yields_ret; apply Herr].
  2: { apply yields_ret. exists []. rewrite app_nil_r. split_and!; [done|constructor|]. intros n [= <-]. cbn. split; [lia|right; set_solver]. }
  destruct (negb _); [apply yields_ret; apply Herr|]. destruct (gc_view_apply v (ve_entry ve) (ve_sha256 ve)) as [v' [u|e]] eqn:Ea.
  2: { apply view_apply_err in Ea as ->. apply yields_ret. apply Herr. }
  eapply yields_mono; [exact (IH _ v' (applied + 1) (folded_snoc _ _ _ _ _ _ Hf Ea))|]. intros ev r (more & F1 & F2 & F3).
  exists ((ve_entry ve, ve_sha256 ve) :: more). rewrite <- app_assoc in F1. split; [exact F1|]. split.
  - constructor; [exists ve; split; [eexists; apply list_elem_of_here|done]|]. eapply Forall_impl; [exact F2|]. intros es. apply read_entry_mono. set_solver.
  - intros n Hn. destruct (F3 n Hn) as [E1 E2]. cbn [length]. split; [lia|]. destruct E2 as [E2|E2]; [left; lia|right; set_solver].
Qed.

(** ** Protected keys *)

Lemma collect_keys_ext {E} (f g : PartRef -> result E ProvenanceRecord) tu parts : forall adopted keys,
  (forall p, adopted !! part_id p = None -> f p = g p) -> collect_keys f tu adopted keys parts = collect_keys g tu adopted keys parts.
Proof.
  induction parts as [|p parts IH]; intros adopted keys Hfg; cbn; [done|]. destruct (PartKeys_new _ _ _ _); [|done].
  destruct (sorted p); [by apply IH|]. destruct (adopted !! part_id p) eqn:Ea; [by apply IH|]. rewrite (Hfg p Ea).
  destruct (g p) as [r|]; [|done]. destruct (data_key r _ 0); [|done]. apply IH. intros q [Hq _]%lookup_insert_None. by apply Hfg.
Qed.

(** The provenance answers a run got. *)
Definition provenance_answers (ev : list Event) (f : PartRef -> result AnyError ProvenanceRecord) : Prop := forall p r, f p = Ok r -> EvProvenance p (Ok r) ∈ ev.

Lemma collect_live_keys_spec tu parts : forall adopted keys,
  yields (collect_live_keys tu adopted keys parts) (fun ev r => exists f, provenance_answers ev f /\ collect_keys f tu adopted keys parts = r).
Proof.
  set (none := fun _ : PartRef => @Err AnyError ProvenanceRecord (plain_error "")). assert (provenance_answers [] none) as Hnone by done.
  induction parts as [|p parts IH]; intros adopted keys; cbn [collect_live_keys collect_keys]; [apply yields_ret; by exists none|].
  destruct (PartKeys_new tu _ _ _) as [dir|e]; [|apply yields_ret; by exists none]. destruct (sorted p); [apply IH|].
  destruct (adopted !! part_id p) eqn:Ea; [apply IH|]. apply yields_bind, yields_ask. intros answer.
  set (only := fun q : PartRef => if decide (q = p) then answer else @Err AnyError ProvenanceRecord (plain_error "")).
  assert (only p = answer) as Hp by (unfold only; by rewrite decide_True).
  assert (provenance_answers [EvProvenance p answer] only) as Honly.
  { intros q r. unfold only. case_decide as E; [|done]. rewrite E. intros <-. apply list_elem_of_here. }
  clearbody only. destruct answer as [record|e]; [|apply yields_ret; exists only; by rewrite Hp].
  destruct (data_key record dir 0) as [key|] eqn:Ek; [|apply yields_ret; exists only; by rewrite Hp, Ek].
  eapply yields_mono; [apply IH|]. intros ev r (f & Hf & <-). exists (fun q => if decide (q = p) then Ok record else f q). split.
  - intros q x. case_decide as E; [intros [= <-]; subst; set_solver|]. intros Hq%Hf. set_solver.
  - rewrite decide_True, Ek by done. apply collect_keys_ext. intros q Hq. case_decide as E; [|done]. subst. by rewrite lookup_insert_eq in Hq.
Qed.

(** The keys [live_keys] protect the live parts of [v], as the provenance that was read says. *)
Definition resolved (ev : list Event) (tu : string) (v : LakePartLogView) (live_keys : gset string) : Prop :=
  exists f v0, provenance_answers ev f /\ live_part_keys f tu v0 = (v, Ok live_keys).

Lemma resolve_spec tu log v : folded log v ->
  yields (resolve_live_keys tu v) (fun ev r => folded log r.1 /\ forall keys, r.2 = Ok keys -> resolved ev tu r.1 keys).
Proof.
  intros Hf. unfold resolve_live_keys. apply yields_bind. eapply yields_mono; [apply collect_live_keys_spec|].
  intros ev [adopted r] (f & Ha & Hc). apply yields_ret. rewrite app_nil_r. split; [exact Hf|]. cbn. intros keys ->. exists f, v. split; [done|].
  unfold live_part_keys. by rewrite Hc.
Qed.
End view.

(** ** The pass *)

Section pass.
Context `{P : Platform} {J : JsonWriter} `{W : GcWorld} `{H : HashIter}.
Context (tenant_id tenant_uuid : string) (objects : list ListedPartObject) (now_ms : Z) (policy : GcPolicy) (has_ledger bounded : bool).

(** A request the planner makes for a listed object over [view]. *)
Definition eligible_for (view : LakePartLogView) (live_keys : gset string) (r : LakePartDeleteRequest) : Prop :=
  exists o, o ∈ objects /\ eligible_request tenant_id tenant_uuid view live_keys now_ms policy false o = Ok r.

Section plan.
Context (view : LakePartLogView) (live_keys : gset string).

Definition all_listed (c : PlanCursor) : Prop := forall o, o ∈ pc_objects c -> o ∈ objects.
Lemma next_loop_eligible os : forall emitted skipped c r, (forall o, o ∈ os -> o ∈ objects) ->
  next_loop tenant_id tenant_uuid view live_keys now_ms policy os emitted skipped = (c, Some r) -> eligible_for view live_keys r /\ all_listed c.
Proof.
  induction os as [|o os IH]; intros emitted skipped c r Hos; cbn; [done|].
  destruct (eligible_request _ _ _ _ _ _ _ o) as [request|reason] eqn:Ee; [|apply IH; set_solver].
  destruct (_ <? _); [|done]. intros [= <- <-]. split; [exists o; split; [set_solver|done]|]. unfold all_listed. cbn. set_solver.
Qed.
Lemma next_eligible c c' r : all_listed c -> next tenant_id tenant_uuid view live_keys now_ms policy c = (c', Some r) -> eligible_for view live_keys r /\ all_listed c'.
Proof. intros Hc. unfold next. destruct (pc_truncated c); [done|]. by apply next_loop_eligible. Qed.
Lemma collect_eligible fuel : forall c, all_listed c -> Forall (eligible_for view live_keys) (collect tenant_id tenant_uuid view live_keys now_ms policy fuel c).1.
Proof.
  induction fuel as [|fuel IH]; intros c Hc; cbn; [constructor|]. destruct (next _ _ _ _ _ _ c) as [c' [r|]] eqn:En; [|constructor].
  destruct (next_eligible _ _ _ Hc En) as [Hr Hc']. specialize (IH c' Hc'). destruct (collect _ _ _ _ _ _ fuel c') as [rs c'']. cbn in *. by constructor.
Qed.
Lemma cursor_listed : all_listed (cursor_new objects).
Proof. intros o Ho. by apply ordered_objects_elem. Qed.
End plan.

(** Guarded calls, and the records of the exact receipts, over one view. *)
Definition run_claim (before : list Event) (state : LakePartGcState) (live_keys : gset string) (ev : list Event) (r : LakePartGcState * PassReport) : Prop :=
  gs_view r.1 = gs_view state
  /\ each_event (authority_guard (eligible_for (gs_view state) live_keys) false) before ev
  /\ gs_pending_deleted r.1 = gs_pending_deleted state ++ omap (receipt_of false) ev
  /\ rp_deleted r.2 = wrap_u64 (Z.of_nat (length (omap (receipt_of false) ev))).

Lemma run_plan_spec before state live_keys indexed :
  yields (run_plan tenant_id tenant_uuid objects now_ms policy has_ledger bounded state live_keys indexed) (run_claim before state live_keys).
Proof.
  unfold run_plan. cbn zeta. apply yields_bind. set (x0 := exec_new _ _ _ _).
  set (Q := fun ev (sx : gmap string Z * Exec) => exec_claim (eligible_for (gs_view state) live_keys) false before x0 ev sx.2).
  apply (yields_mono _ Q); cycle 1.
  { intros ev [skipped x] (Hg & Hd & Hn). cbn in *. apply yields_ret. rewrite app_nil_r. split_and!; [done|done|done|]. cbn. rewrite Hn. done. }
  destruct bounded.
  - apply yields_bind. eapply yields_mono.
    { refine (execute_loop_spec (eligible_for (gs_view state) live_keys) false now_ms _ all_listed _ _ before _ x0 cursor_listed _); [apply next_eligible|done]. }
    intros ev [c x] Hx. apply yields_ret. rewrite app_nil_r. exact Hx.
  - pose proof (collect_eligible (gs_view state) live_keys (S (length (pc_objects (cursor_new objects)))) _ cursor_listed) as He.
    destruct (collect _ _ _ _ _ _ _ _) as [requests c]. cbn in He. apply yields_bind. eapply yields_mono.
    { refine (execute_loop_spec (eligible_for (gs_view state) live_keys) false now_ms list_next (Forall (eligible_for (gs_view state) live_keys)) _ _ before _ x0 He _); [|done].
      intros [|y l] c' r Hl; cbn; [done|]. intros [= <- <-]. by apply Forall_cons in Hl. }
    intros ev [c' x] Hx. apply yields_ret. rewrite app_nil_r. exact Hx.
Qed.

(** What a pass does to its state. *)
Definition pass_claim (log : list (LogEntry * string)) (state : LakePartGcState) (ev : list Event) (r : LakePartGcState * PassReport) : Prop :=
  exists more live_keys,
    folded (log ++ more) (gs_view r.1) /\ Forall (read_entry ev) more
    /\ (Forall harmless ev \/ policy_validate policy false = true /\ resolved ev tenant_uuid (gs_view r.1) live_keys)
    /\ each_event (authority_guard (eligible_for (gs_view r.1) live_keys) false) [] ev
    /\ gs_pending_deleted r.1 = gs_pending_deleted state ++ omap (receipt_of false) ev
    /\ rp_deleted r.2 = wrap_u64 (Z.of_nat (length (omap (receipt_of false) ev))).

Lemma paused_claim log more state state' ev report reason backoff :
  folded (log ++ more) (gs_view state') -> Forall (read_entry ev) more -> Forall harmless ev ->
  gs_pending_deleted state' = gs_pending_deleted state -> rp_deleted report = 0 ->
  pass_claim log state ev (paused state' report reason backoff).
Proof.
  intros Hf Hr Hh Hp Hd. exists more, ∅. destruct (guard_harmless (eligible_for (gs_view state') ∅) false [] ev Hh) as [Hg Ho].
  cbn. rewrite Ho, app_nil_r. split_and!; try done. by left.
Qed.

Lemma sync_and_run_spec log more before state0 state live_keys :
  folded (log ++ more) (gs_view state) -> Forall (read_entry before) more -> Forall harmless before ->
  gs_pending_deleted state = gs_pending_deleted state0 -> policy_validate policy false = true -> resolved before tenant_uuid (gs_view state) live_keys ->
  yields (sync_and_run tenant_id tenant_uuid objects now_ms policy has_ledger bounded state live_keys) (fun ev r => pass_claim log state0 (before ++ ev) r).
Proof.
  intros Hf Hr Hh Hp Hpol Hres. unfold sync_and_run. apply yields_bind. eapply yields_mono; [exact (ledger_harmless has_ledger now_ms)|]. cbn. intros e1 through H1.
  apply yields_bind. apply (yields_mono _ (fun ev _ => Forall harmless ev)); [destruct bounded; apply sync_harmless|]. intros e2 outcome H2.
  assert (Forall (read_entry (before ++ e1 ++ e2)) more /\ Forall harmless (before ++ e1 ++ e2)) as [Hr2 Hh2].
  { split; [|by rewrite !Forall_app]. eapply Forall_impl; [exact Hr|]. intros es. apply read_entry_mono. apply subseteq_app_r. }
  assert (forall report reason backoff, rp_deleted report = 0 ->
    yields (mret (paused state report reason backoff)) (fun ev r => pass_claim log state0 (before ++ e1 ++ e2 ++ ev) r)) as Hpause.
  { intros report reason backoff Hd. apply yields_ret. rewrite app_nil_r. by eapply paused_claim. }
  destruct outcome as [[status [] pushed gaps head settling| |code|code]|e]; cbn [negb]; try (by apply Hpause).
  2: { destruct (routine_fence e); apply Hpause; by destruct (ae_progress e). }
  destruct (view_mismatch _ _ _); [by apply Hpause|]. eapply yields_mono; [exact (run_plan_spec (before ++ e1 ++ e2) state live_keys _)|].
  intros e3 [state' report] (E1 & E2 & E3 & E4). cbn in E1, E3, E4. replace (before ++ e1 ++ e2 ++ e3) with ((before ++ e1 ++ e2) ++ e3) by (by rewrite <- !app_assoc).
  destruct (guard_harmless (eligible_for (gs_view state) live_keys) false [] _ Hh2) as [Hg Ho].
  exists more, live_keys. cbn. rewrite E1, omap_app, Ho. cbn [app]. split_and!; [done| | |by apply each_event_app|by rewrite <- Hp|done].
  - eapply Forall_impl; [exact Hr2|]. intros es. apply read_entry_mono, subseteq_app_r.
  - right. split; [done|]. destruct Hres as (f & v0 & Ha & Hl). exists f, v0. split; [|done]. intros p r Hpr. rewrite !elem_of_app. left. left. by apply Ha.
Qed.

Lemma pass_spec log state : folded log (gs_view state) ->
  yields (pass tenant_id tenant_uuid objects now_ms policy has_ledger bounded state) (pass_claim log state).
Proof.
  intros Hf. unfold pass. apply yields_bind, yields_ask. intros supports.
  assert (forall reason backoff, yields (mret (paused state report_default reason backoff)) (fun ev r => pass_claim log state (EvSupports supports :: ev) r)) as Hp0.
  { intros reason backoff. apply yields_ret. eapply (paused_claim log []); [by rewrite app_nil_r|constructor|by repeat constructor|done|done]. }
  destruct supports as [[]|e]; [|apply Hp0|apply Hp0]. apply yields_bind.
  apply (yields_mono _ (fun ev r => Forall harmless ev /\ exists more, folded (log ++ more) r.1 /\ Forall (read_entry ev) more)).
  { destruct bounded; [apply yields_ret; split; [constructor|]; exists []; rewrite app_nil_r; by split|].
    eapply yields_mono; [apply yields_and; [apply catch_up_harmless|exact (catch_up_loop_spec _ log (gs_view state) 0 Hf)]|].
    cbn. intros ev r [Hh (more & F1 & F2 & _)]. split; [done|]. by exists more. }
  intros e1 [view caught_up] (Hh1 & more & F1 & F2). cbn in F1.
  assert (forall e2 state' reason backoff, gs_pending_deleted state' = gs_pending_deleted state -> folded (log ++ more) (gs_view state') -> Forall harmless e2 ->
    yields (mret (paused state' report_default reason backoff)) (fun ev r => pass_claim log state (EvSupports (Ok true) :: e1 ++ e2 ++ ev) r)) as Hp1.
  { intros e2 state' reason backoff Hp Hv He2. apply yields_ret. rewrite app_nil_r. eapply paused_claim; [exact Hv| |by constructor; [|apply Forall_app]|done|done].
    eapply Forall_impl; [exact F2|]. intros es. apply read_entry_mono. set_solver. }
  destruct caught_up as [applied|e]; [|by apply (Hp1 [])]. destruct (_ =? _); [by apply (Hp1 [])|]. cbn zeta.
  apply yields_bind. eapply yields_mono.
  { apply yields_and; [|exact (resolve_spec tenant_uuid _ view F1)]. unfold resolve_live_keys.
    apply all_events_bind; [apply collect_live_keys_harmless|]. intros [a r]. apply all_events_ret. }
  intros e2 [view' keys] [Hh2 [F3 F4]]. cbn in F3, F4. destruct keys as [live_keys|e]; [|by apply Hp1].
  destruct (policy_validate policy false) eqn:Hpol; cbn [negb]; [|by apply Hp1].
  eapply yields_mono; [eapply (sync_and_run_spec log more (EvSupports (Ok true) :: e1 ++ e2) state)|].
  - exact F3.
  - eapply Forall_impl; [exact F2|]. intros es. apply read_entry_mono. set_solver.
  - constructor; [done|by apply Forall_app].
  - done.
  - done.
  - destruct (F4 _ eq_refl) as (f & v0 & Ha & Hl). exists f, v0. split; [|done]. intros p r Hpr%Ha. set_solver.
  - intros ev r Hc. cbn in Hc. by rewrite <- app_assoc in Hc.
Qed.
End pass.
