(* ===== verification/GcPass.v ===== *)
(** * GcPass: the GC pass end to end

    The theorems about [run_pass] and [run_pass_after_bounded_fold] of
    [lake_part_gc/executor.rs], composed from the planner, the fold of the log and the index
    sync, and a small world in which a whole pass runs. *)
From S2P Require Import Prelude Platform Format PartTypes LiveSet LiveSetFacts Replay Json ProvenanceTypes Provenance GcRequest GcPlanner GcSafety GcEnv GcIndex GcIndexSafety GcExecutor GcPassSafety.

(** ** The report of deleted keys *)

Section report.
Context `{P : Platform} {J : JsonWriter} `{W : GcWorld} `{H : HashIter}.

(** Control accepted a request that names [d]. *)
Definition accepted (tenant_uuid : string) (ev : list Event) (d : DeletedKey) : Prop :=
  exists request status, EvIndex request (Ok status) ∈ ev /\ d ∈ ir_deleted request /\ ir_tenant_uuid request = tenant_uuid
    /\ is_tenant_uuid status = tenant_uuid /\ (length (ir_deleted request) <= Z.to_nat MAX_DELETED_PER_REQUEST)%nat.

Lemma accepted_mono tu ev ev' d : ev ⊆ ev' -> accepted tu ev d -> accepted tu ev' d.
Proof. intros Hs (r & s & Hin & Hrest). exists r, s. split; [by apply Hs|done]. Qed.

(** The reported records leave the queue from its front, and success empties it. *)
Definition report_claim (tenant_uuid : string) (queue : list DeletedKey) (ev : list Event) (r : list DeletedKey * result string Z) : Prop :=
  exists sent, queue = sent ++ r.1 /\ Forall (accepted tenant_uuid ev) sent /\ (is_ok r.2 = true -> r.1 = []).

Lemma report_loop_spec fuel : forall tu queue n, (length queue <= fuel)%nat -> yields (report_loop fuel tu queue n) (report_claim tu queue).
Proof.
  induction fuel as [|fuel IH]; intros tu [|d queue] n Hl; cbn [report_loop]; try (cbn in Hl; lia); try (apply yields_ret; by exists []).
  set (q := d :: queue) in *. assert (length q = S (length queue)) as Hq by done. clearbody q. set (batch := Nat.min (length q) (Z.to_nat MAX_DELETED_PER_REQUEST)).
  assert (0 < batch <= Z.to_nat MAX_DELETED_PER_REQUEST)%nat as Hb by (unfold batch, MAX_DELETED_PER_REQUEST; lia).
  apply yields_bind. eapply yields_mono; [exact (status_read_spec tu)|]. intros e1 base (_ & Ht & _). apply yields_bind. unfold call. apply yields_bind, yields_ask. intros answer.
  set (request := {| ir_request_id := _ |}). apply yields_ret.
  assert (forall ev x y, report_claim tu q ev (q, @Err string Z x) /\ report_claim tu q ev (q, @Err string Z y)) as Hstay.
  { intros ev x y. split; exists []; done. }
  destruct answer as [status|e].
  2: { destruct (ae_bearer_refused e); [apply yields_ret; by apply Hstay|]. destruct (ae_refusal e) as [rf|]; [|apply yields_ret; by apply Hstay].
       case_bool_decide; [apply yields_ret; by apply Hstay|]. case_bool_decide; [apply yields_ret; by apply Hstay|]. destruct (is_backoff rf); apply yields_ret; by apply Hstay. }
  case_bool_decide as Es; [|apply yields_ret; by apply Hstay].
  eapply yields_mono; [apply (IH tu (drop batch q)); rewrite length_drop; lia|]. intros e2 r (sent & E1 & E2 & E3).
  exists (take batch q ++ sent). split; [|split; [|done]].
  - rewrite <- app_assoc, <- E1. symmetry. apply take_drop.
  - apply Forall_app. split.
    + apply Forall_forall. intros x Hx. exists request, status. split; [rewrite !elem_of_app; right; left; left; apply list_elem_of_here|]. split; [exact Hx|].
      cbn in Es. split; [exact Ht|]. split; [congruence|]. cbn. rewrite length_take. lia.
    + eapply Forall_impl; [exact E2|]. intros x. apply accepted_mono. intros y Hy. rewrite !elem_of_app. right. by right.
Qed.

(** What [run_pass_inner] adds to the pass. *)
Definition inner_claim tenant_id tenant_uuid objects now_ms policy (log : list (LogEntry * string)) (state : LakePartGcState) (ev : list Event)
    (r : LakePartGcState * PassReport) : Prop :=
  exists e1 e2 state1 report1, ev = e1 ++ e2 /\ pass_claim tenant_id tenant_uuid objects now_ms policy log state e1 (state1, report1)
    /\ Forall harmless e2 /\ gs_view r.1 = gs_view state1 /\ rp_deleted r.2 = rp_deleted report1
    /\ exists dropped sent, gs_pending_deleted state1 = dropped ++ sent ++ gs_pending_deleted r.1 /\ Forall (accepted tenant_uuid e2) sent
         /\ length dropped = (length (gs_pending_deleted state1) - Z.to_nat MAX_PENDING_DELETED)%nat.

Lemma run_pass_inner_spec tenant_id tenant_uuid objects now_ms policy has_ledger bounded log state : folded log (gs_view state) ->
  yields (run_pass_inner tenant_id tenant_uuid objects now_ms policy has_ledger bounded state) (inner_claim tenant_id tenant_uuid objects now_ms policy log state).
Proof.
  intros Hf. unfold run_pass_inner. apply yields_bind. eapply yields_mono; [exact (pass_spec tenant_id tenant_uuid objects now_ms policy has_ledger bounded log state Hf)|].
  intros e1 [state1 report1] Hp. cbn zeta. set (excess := (length (gs_pending_deleted state1) - Z.to_nat MAX_PENDING_DELETED)%nat).
  set (report2 := if (0 <? excess)%nat then _ else report1). assert (rp_deleted report2 = rp_deleted report1) as Hd by (unfold report2; by destruct (0 <? excess)%nat).
  apply yields_bind. apply (yields_mono _ (fun e2 r => Forall harmless e2 /\ rp_deleted r.2 = rp_deleted report1
    /\ exists sent, drop excess (gs_pending_deleted state1) = sent ++ r.1 /\ Forall (accepted tenant_uuid e2) sent)).
  - destruct (drop excess (gs_pending_deleted state1)) as [|d pending]; [apply yields_ret; split_and!; [constructor|done|by exists []]|].
    apply yields_bind. eapply yields_mono; [apply yields_and; [apply report_loop_harmless|exact (report_loop_spec _ tenant_uuid (d :: pending) 0 (le_n _))]|].
    intros e2 [rest r] [Hh (sent & E1 & E2 & _)]. apply yields_ret. rewrite app_nil_r. split_and!; [done|by destruct r|]. by exists sent.
  - intros e2 [pending report] (Hh & Hd2 & sent & E1 & E2). apply yields_ret. rewrite app_nil_r. cbn in *.
    exists e1, e2, state1, report1. split_and!; try done. exists (take excess (gs_pending_deleted state1)), sent. cbn. split_and!; [by rewrite <- E1, take_drop|done|].
    rewrite length_take. unfold excess. lia.
Qed.
End report.

(** ** Statements *)

Section theorems.
Context `{P : Platform} {CL : CalendarLaws P} {J : JsonWriter} `{W : GcWorld} `{H : HashIter}.

(** C2: whatever the owner, the Worker, control, the reader and the clocks answer, a retire call of a
    pass carries a permit that the owner gave for exactly this planned request, that verified and
    that the Worker echoed, all before the call; the request names a listed part file over the fold
    of the log, with the entries this pass read. And where the entry times of the log do not go
    back, the part is not live in any accepted continuation whose entry times do not go back and
    are later than the pass's time less one hour ([clock_regression_readds] shows that times that
    go back can bring a part back). *)
Theorem pass_deletes_only_dead tenant_id tenant_uuid objects now_ms policy has_ledger bounded log state w ev w' state' report permit answer :
  folded log (gs_view state) -> now_ms < i64_max ->
  run_pass_inner tenant_id tenant_uuid objects now_ms policy has_ledger bounded state w = (ev, w', (state', report)) ->
  EvRetire permit answer ∈ ev ->
  exists more live_keys pre post,
    folded (log ++ more) (gs_view state') /\ Forall (read_entry ev) more /\ resolved ev tenant_uuid (gs_view state') live_keys
    /\ ev = pre ++ EvRetire permit answer :: post
    /\ retire_guarded (eligible_for tenant_id tenant_uuid objects now_ms policy (gs_view state') live_keys) false pre permit
    /\ (Sorted Z.le (log_times (log ++ more)) ->
        exists o k, o ∈ objects /\ dr_key (pm_request permit) = lo_key o /\ (dr_key (pm_request permit) ∉ live_keys)
          /\ parse_part_file_key (dr_key (pm_request permit)) = Some k
          /\ justified (log ++ more) now_ms policy (lo_uploaded_at_ms o) (pm_request permit) k
          /\ forall log2 s2, replay ((log ++ more) ++ log2) empty_set = Ok s2 -> Sorted Z.le (log_times ((log ++ more) ++ log2)) ->
               Forall (fun t => now_ms - ORPHAN_ID_MEMORY_MARGIN_MS < t) (log_times log2) -> live s2 !! fk_part_id k = None).
Proof.
  intros Hf Hnow Hrun Hin.
  destruct (yields_run _ _ _ _ _ _ (run_pass_inner_spec tenant_id tenant_uuid objects now_ms policy has_ledger bounded log state Hf) Hrun)
    as (e1 & e2 & state1 & report1 & -> & (more & live_keys & F1 & F2 & F3 & F4 & _) & Hh & Hv & _). cbn in Hv, F1, F3, F4.
  apply elem_of_app in Hin as [Hin|Hin]; [|by rewrite Forall_forall in Hh; destruct (Hh _ Hin)].
  destruct F3 as [F3|[Hpol (f & v0 & Ha & Hl)]]; [by rewrite Forall_forall in F3; destruct (F3 _ Hin)|].
  apply list_elem_of_split in Hin as (pre & post & ->). exists more, live_keys, pre, (post ++ e2). rewrite Hv.
  pose proof (F4 pre _ post eq_refl) as Hg. split_and!; [done| | |by rewrite <- app_assoc|done|].
  - eapply Forall_impl; [exact F2|]. intros es. apply read_entry_mono, subseteq_app_r.
  - exists f, v0. split; [|done]. intros p r Hr%Ha. apply elem_of_app. by left.
  - intros Ht. destruct (rg_good _ _ _ _ Hg) as (o & Ho & He).
    assert (view_of (log ++ more) (gs_view state1)) as Hvo by (destruct (view_of_replay _ _ Ht F1) as [E1 E2 E3 E4]; by split).
    destruct (eligible_inv _ _ _ _ _ _ _ _ _ _ Hvo Hpol Hnow He) as (E1 & E2 & _ & _ & _ & k & E6 & _ & E8).
    exists o, k. split_and!; try done. intros log2 s2 Hr Hs Ht2. by eapply justified_final.
Qed.

(** C34: the books of a pass balance: its report counts exactly the retire calls the Worker answered with
    an exact receipt, and the records of those, after the ones still queued, are each dropped over the
    queue bound, accepted by control in a request of at most 1,024, or still queued, in order. *)
Theorem pass_accounts_exactly tenant_id tenant_uuid objects now_ms policy has_ledger bounded log state w ev w' state' report :
  folded log (gs_view state) ->
  run_pass_inner tenant_id tenant_uuid objects now_ms policy has_ledger bounded state w = (ev, w', (state', report)) ->
  rp_deleted report = wrap_u64 (Z.of_nat (length (omap (receipt_of false) ev)))
  /\ exists dropped sent,
      gs_pending_deleted state ++ omap (receipt_of false) ev = dropped ++ sent ++ gs_pending_deleted state'
      /\ Forall (accepted tenant_uuid ev) sent
      /\ length dropped = (length (gs_pending_deleted state ++ omap (receipt_of false) ev) - Z.to_nat MAX_PENDING_DELETED)%nat
      /\ (length (gs_pending_deleted state') <= Z.to_nat MAX_PENDING_DELETED)%nat.
Proof.
  intros Hf Hrun.
  destruct (yields_run _ _ _ _ _ _ (run_pass_inner_spec tenant_id tenant_uuid objects now_ms policy has_ledger bounded log state Hf) Hrun)
    as (e1 & e2 & state1 & report1 & -> & (more & live_keys & _ & _ & _ & _ & Hd & Hn) & Hh & _ & Hr & dropped & sent & E1 & E2 & E3). cbn in *.
  destruct (guard_harmless (fun _ => True) false [] e2 Hh) as [_ Ho]. rewrite omap_app, Ho, app_nil_r, <- Hd. split; [congruence|].
  exists dropped, sent. split_and!; [done| |done|].
  - eapply Forall_impl; [exact E2|]. intros d. apply accepted_mono. intros x Hx. apply elem_of_app. by right.
  - apply (f_equal length) in E1. rewrite !length_app in E1. lia.
Qed.

(** C8: every request of an index sync is a status read, or pushes a run of verified entries: from the
    sequence and digest where control said it stands, consecutive and chained, each settled by age or
    under the receipted watermark, with one claim from verified provenance per adopted part, at most
    256 entries and, for more than one, within the byte and part-reference bounds, and a checkpoint
    claim only for what control then has. *)
Theorem index_pushes_exact tenant_uuid view_target now_ms receipted w ev w' r pre request answer post :
  sync_index_inner tenant_uuid view_target now_ms receipted w = (ev, w', r) -> ev = pre ++ EvIndex request answer :: post ->
  request_ok tenant_uuid now_ms receipted pre request.
Proof.
  intros Hrun E. destruct (yields_run _ _ _ _ _ _ (sync_spec tenant_uuid view_target now_ms receipted) Hrun) as [Hr _].
  exact (Hr pre _ post E).
Qed.

(** A sync that says it is caught up is: control itself answered with the returned status, nothing is
    unsettled, and control has indexed up to a sequence the reader called past the head (or, for a sync
    through a folded view, through the head of that view). *)
Theorem index_caught_up_exact tenant_uuid view_target now_ms receipted w ev w' status pushed gaps head settling :
  sync_index_inner tenant_uuid view_target now_ms receipted w = (ev, w', Ok (Synced status true pushed gaps head settling)) -> indexed_wf status ->
  settling = false /\ control_says tenant_uuid ev status
  /\ exists sq, at_end view_target ev sq /\ sq <= indexed_after status.
Proof.
  intros Hrun Hw. destruct (yields_run _ _ _ _ _ _ (sync_spec tenant_uuid view_target now_ms receipted) Hrun) as [_ Ho].
  destruct (Ho _ _ _ _ _ eq_refl) as (E1 & E2 & E3). split_and!; [done|done|by apply E3].
Qed.
End theorems.

(** ** A world

    Control keeps the status it was last pushed to; the owner signs what it is asked, the Worker
    echoes and receipts; the log is the example log. *)
Module PassExample.
Import ToyPlatform ToyJson.

Definition verified (es : LogEntry * string) : VerifiedEntryBytes := {| ve_bytes := "entry"; ve_sha256 := es.2; ve_entry := es.1 |}.
Definition read_log (seq : Z) : option VerifiedEntryBytes := if seq <? 0 then None else verified <$> LogExample.log !! Z.to_nat seq.
Definition push (r : IndexRequest) (s : IndexStatus) : IndexStatus :=
  match last (ir_entries r) with
  | None => s
  | Some e => {| is_tenant_uuid := is_tenant_uuid s; is_indexed_through_seq := Some (ie_seq e);
                 is_head_entry_sha256 := ve_sha256 <$> read_log (ie_seq e); is_checkpoint_seq := None; is_folded_through_seq := None |}
  end.
Definition digest_of (r : LakePartDeleteRequest) : string := unwrap EmptyString (digest_with_local r false).
Definition sign (r : LakePartDeleteRequest) : LakePartDeletePermit :=
  {| pm_request := r; pm_permit_id := "lpd_" +:+ digest_of r;
     pm_owner_authorization := {| oa_schema_version := 1; oa_signer_key_id := "owner"; oa_issued_at := "issued"; oa_expires_at := "expires";
                                  oa_identity_sha256 := digest_of r; oa_signature_base64 := "sig" |} |}.
Definition receipt (p : LakePartDeletePermit) : LakePartDeleteReceipt :=
  {| rc_schema_version := 2; rc_permit_id := pm_permit_id p; rc_identity_sha256 := digest_of (pm_request p); rc_receipt_sha256 := sha256_hex "receipt";
     rc_state := "receipt_appended"; rc_final_head_absent := true |}.
Definition no_provenance : AnyError := plain_error "no provenance".

#[export] Instance pass_world : GcWorld := {|
  World := IndexStatus;
  call_index r s := (Ok (push r s), push r s);
  call_entry seq s := (Ok (read_log seq), s);
  call_checkpoint s := (Ok None, s);
  call_provenance p s := (Err no_provenance, s);
  call_supports s := (Ok true, s);
  call_supports_quarantine s := (Ok true, s);
  call_list _ s := (Ok [], s);
  call_get_small _ _ s := (Ok None, s);
  call_authorize r s := (Ok (sign r), s);
  call_prepare p s := (Ok p, s);
  call_retire p s := (Ok (receipt p), s);
  call_appends s := (run_default, s);
  call_utc_now s := (5 * NANOS, s);
  call_instant s := (0, s);
  call_sleep _ s := (tt, s);
  call_sleep_until _ s := (tt, s);
  call_uuid s := ("uuid", s);
  encode_base64 b := b;
  parse_from_rfc3339 s := if bool_decide (s = "issued") then Some (4 * NANOS) else if bool_decide (s = "expires") then Some (60 * NANOS) else None |}.
#[export] Instance hash_order : HashIter := {| hash_iter m := map_to_list m |}.

Definition control0 : IndexStatus :=
  {| is_tenant_uuid := GcExample.tenant; is_indexed_through_seq := None; is_head_entry_sha256 := None; is_checkpoint_seq := None; is_folded_through_seq := None |}.
Definition pass_run := run_pass_inner "tenant1" GcExample.tenant GcExample.objects GcExample.now default_policy true false gc_genesis control0.
Definition events : list Event := pass_run.1.1.
Definition pass_after : LakePartGcState := pass_run.2.1.
Definition pass_report : PassReport := pass_run.2.2.
Lemma run_eq : pass_run = (events, pass_run.1.2, (pass_after, pass_report)).
Proof. unfold events, pass_after, pass_report. by destruct pass_run as [[? ?] [? ?]]. Qed.
Lemma genesis_folded : folded [] (gs_view gc_genesis).
Proof. reflexivity. Qed.

(** The pass folds four entries, publishes them, deletes both superseded files and reports them. *)
Example pass_result :
  (rp_planned pass_report, rp_deleted pass_report, rp_indexed pass_report, rp_index_head_seq pass_report, rp_deleted_reported pass_report, rp_paused_reason pass_report,
   length (gs_pending_deleted pass_after), head_seq (gs_view pass_after)) = (2, 2, 4, Some 3, 2, None, O, Some 3).
Proof. vm_compute. reflexivity. Qed.

Definition retirement (e : Event) : option (LakePartDeletePermit * result AnyError LakePartDeleteReceipt) :=
  match e with EvRetire p a => Some (p, a) | _ => None end.
Lemma first_retirement l d : is_some (hd_error (omap retirement l)) = true ->
  EvRetire (default d (hd_error (omap retirement l))).1 (default d (hd_error (omap retirement l))).2 ∈ l.
Proof.
  destruct (omap retirement l) as [|[p a] k] eqn:Eo; [done|]. intros _. cbn.
  assert ((p, a) ∈ omap retirement l) as Hin by (rewrite Eo; apply list_elem_of_here).
  apply list_elem_of_omap in Hin as (e & He & Hm). destruct e; try done. by injection Hm as -> ->.
Qed.
Definition retired : LakePartDeletePermit * result AnyError LakePartDeleteReceipt :=
  default (sign GcRequestExample.superseded, Err no_provenance) (hd_error (omap retirement events)).
Lemma retired_in : EvRetire retired.1 retired.2 ∈ events.
Proof. apply first_retirement. vm_compute. reflexivity. Qed.

Definition sync_run := sync_index_inner GcExample.tenant None GcExample.now None control0.
Definition sync_events : list Event := sync_run.1.1.
Lemma sync_run_eq : sync_index_inner GcExample.tenant None GcExample.now None control0 = (sync_events, sync_run.1.2, sync_run.2).
Proof. unfold sync_events, sync_run. by destruct (sync_index_inner _ _ _ _ _) as [[? ?] ?]. Qed.
Definition pushes (e : Event) : bool := match e with EvIndex r _ => negb (nil_b (ir_entries r)) | _ => false end.
Definition push_at : nat := default O (find_position pushes sync_events).
Definition pushed : Event := default (EvSleep 0) (sync_events !! push_at).
Lemma lookup_default {A} (d : A) (l : list A) (n : nat) : is_some (l !! n) = true -> l !! n = Some (default d (l !! n)).
Proof. by destruct (l !! n). Qed.
Lemma pushed_at : sync_events !! push_at = Some pushed.
Proof. apply lookup_default. vm_compute. reflexivity. Qed.
Lemma pushed_pushes : pushes pushed = true.
Proof. vm_compute. reflexivity. Qed.
Definition status_of (r : result AnyError IndexSyncOutcome) : IndexStatus := match r with Ok (Synced status _ _ _ _ _) => status | _ => control0 end.
Definition rest_of (r : result AnyError IndexSyncOutcome) : option (bool * Z * Z * option Z * bool) :=
  match r with Ok (Synced _ c p g h s) => Some (c, p, g, h, s) | _ => None end.
Lemma synced_of r c p g h s : rest_of r = Some (c, p, g, h, s) -> r = Ok (Synced (status_of r) c p g h s).
Proof. destruct r as [[]|]; try done. by intros [= -> -> -> -> ->]. Qed.
Definition synced_status : IndexStatus := status_of sync_run.2.
Lemma sync_caught_up : sync_index_inner GcExample.tenant None GcExample.now None control0
  = (sync_events, sync_run.1.2, Ok (Synced synced_status true 4 0 (Some 350) false)).
Proof. rewrite sync_run_eq. apply (f_equal (pair _)), synced_of. vm_compute. reflexivity. Qed.
Lemma synced_wf : indexed_wf synced_status.
Proof. intros through. vm_compute. intros [= <-]. done. Qed.
End PassExample.

Section witnesses.
Import ToyPlatform ToyJson PassExample.

Lemma pass_deletes_only_dead_witness :
  exists more k, folded more (gs_view PassExample.pass_after) /\ Forall (read_entry PassExample.events) more
    /\ (Sorted Z.le (log_times more) -> parse_part_file_key (dr_key (pm_request PassExample.retired.1)) = Some k).
Proof.
  destruct (pass_deletes_only_dead (W := pass_world) "tenant1" GcExample.tenant GcExample.objects GcExample.now default_policy true false
    [] gc_genesis PassExample.control0 PassExample.events PassExample.pass_run.1.2 PassExample.pass_after PassExample.pass_report PassExample.retired.1 PassExample.retired.2)
    as (more & live_keys & pre & post & E1 & E2 & _ & _ & _ & E6).
  - exact PassExample.genesis_folded.
  - exact GcExample.no_saturation.
  - exact PassExample.run_eq.
  - exact PassExample.retired_in.
  - exists more. destruct (decide (Sorted Z.le (log_times more))) as [Hs|Hs].
    + destruct (E6 Hs) as (o & k & _ & _ & _ & Hk & _). exists k. split; [exact E1|]. split; [exact E2|]. intros _. exact Hk.
    + exists GcExample.key. split; [exact E1|]. split; [exact E2|]. intros Hs'. destruct (Hs Hs').
Defined.

Lemma pass_accounts_exactly_witness :
  rp_deleted PassExample.pass_report = wrap_u64 (Z.of_nat (length (omap (receipt_of false) PassExample.events))).
Proof.
  apply (pass_accounts_exactly (W := pass_world) "tenant1" GcExample.tenant GcExample.objects GcExample.now default_policy true false
    [] gc_genesis PassExample.control0 PassExample.events PassExample.pass_run.1.2 PassExample.pass_after PassExample.pass_report).
  - exact PassExample.genesis_folded.
  - exact PassExample.run_eq.
Defined.

Lemma index_pushes_exact_witness :
  exists pre request answer post, PassExample.sync_events = pre ++ EvIndex request answer :: post
    /\ nil_b (ir_entries request) = false /\ request_ok GcExample.tenant GcExample.now None pre request.
Proof.
  pose proof PassExample.pushed_at as Ha. pose proof PassExample.pushed_pushes as Hp. destruct PassExample.pushed as [request answer| | | | | | | | | | | | | | | | ]; try discriminate Hp.
  pose proof (take_drop_middle _ _ _ Ha) as E. exists (take PassExample.push_at PassExample.sync_events), request, answer, (drop (S PassExample.push_at) PassExample.sync_events).
  split; [symmetry; exact E|]. split; [apply negb_true_iff; exact Hp|].
  apply (index_pushes_exact (W := pass_world) GcExample.tenant None GcExample.now None PassExample.control0 PassExample.sync_events PassExample.sync_run.1.2 PassExample.sync_run.2
    _ request answer (drop (S PassExample.push_at) PassExample.sync_events)).
  - exact sync_run_eq.
  - symmetry. exact E.
Defined.

Lemma index_caught_up_exact_witness :
  exists sq, at_end None PassExample.sync_events sq /\ sq <= indexed_after PassExample.synced_status.
Proof.
  apply (index_caught_up_exact (W := pass_world) GcExample.tenant None GcExample.now None PassExample.control0 PassExample.sync_events PassExample.sync_run.1.2
    PassExample.synced_status 4 0 (Some 350) false).
  - exact PassExample.sync_caught_up.
  - exact PassExample.synced_wf.
Defined.
End witnesses.
