(* ===== verification/GcLimits.v ===== *)
(** * GcLimits: what the GC asks for, how often, and what it remembers

    The bounds of [lake_part_gc/executor.rs] and [lake_part_gc/index.rs]: the pacer of authorize
    calls, the memory of refused keys, one re-sync per pass, the delays between passes, and the
    receipted watermark. *)
From S2P Require Import Prelude Platform Format PartTypes LiveSet Json GcRequest GcPlanner GcEnv GcIndex GcIndexSafety GcExecutor GcPassSafety.

(** ** The pacer *)

(** The clock of a world: time does not go back, and a sleep ends at or after its deadline. *)
Class ClockLaws (W : GcWorld) := {
  time : World -> Z;
  instant_reads : forall w, time w <= (call_instant w).1 /\ (call_instant w).1 <= time (call_instant w).2;
  sleep_until_reaches : forall d w, d <= time (call_sleep_until d w).2 /\ time w <= time (call_sleep_until d w).2 }.

Definition last_instant (ev : list Event) : option Z := last (omap (fun e => match e with EvInstant t => Some t | _ => None end) ev).

Section pacer.
Context `{W : GcWorld} {CK : ClockLaws W}.

(** Taking a slot at [t]: in the open window, or opening the next one. *)
Definition takes (p : AuthorizePacer) (t : Z) (p' : AuthorizePacer) : Prop :=
  ap_per_minute p' = ap_per_minute p
  /\ ((exists s, ap_window_started p = Some s /\ ap_window_started p' = Some s /\ t < s + WINDOW /\ ap_used p < ap_per_minute p /\ ap_used p' = ap_used p + 1)
      \/ (ap_window_started p' = Some t /\ ap_used p' = 1 /\ forall s, ap_window_started p = Some s -> s + WINDOW <= t)).

Lemma acquire_takes p w ev w' p' : acquire p w = (ev, w', p') -> exists t, last_instant ev = Some t /\ time w <= t <= time w' /\ takes p t p'.
Proof.
  unfold acquire, acquire_loop, mbind, gc_bind, mret, gc_ret, instant_now, sleep_until, ask. pose proof (instant_reads w) as Hi.
  destruct (call_instant w) as [now w1]. cbn in Hi. unfold takes. destruct (ap_window_started p) as [s|] eqn:Es.
  - destruct (Z.ltb_spec now (s + WINDOW)) as [Hw|Hw].
    + destruct (Z.ltb_spec (ap_used p) (ap_per_minute p)) as [Hu|Hu].
      * intros [= <- <- <-]. exists now. split; [done|]. split; [lia|]. split; [done|]. left. by exists s.
      * pose proof (sleep_until_reaches (s + WINDOW) w1) as Hs. destruct (call_sleep_until (s + WINDOW) w1) as [[] w2]. cbn in Hs.
        pose proof (instant_reads w2) as Hi2. destruct (call_instant w2) as [now2 w3]. cbn in Hi2.
        destruct (Z.ltb_spec now2 (s + WINDOW)); [lia|]. intros [= <- <- <-]. exists now2. split; [done|]. split; [lia|]. split; [done|]. right.
        split_and!; [done|done|]. intros x [= <-]. lia.
    + intros [= <- <- <-]. exists now. split; [done|]. split; [lia|]. split; [done|]. right. split_and!; [done|done|]. by intros x [= <-].
  - intros [= <- <- <-]. exists now. split; [done|]. split; [lia|]. split; [done|]. right. by split_and!.
Qed.

(** A run of acquires with anything that lets time pass between them; the times of the slots. *)
Inductive slots : AuthorizePacer -> World -> list Z -> AuthorizePacer -> Prop :=
| slots_nil p w : slots p w [] p
| slots_cons p w ev w1 p1 t w2 ts p2 :
    acquire p w = (ev, w1, p1) -> last_instant ev = Some t -> time w1 <= time w2 -> slots p1 w2 ts p2 -> slots p w (t :: ts) p2.

(** The slots in the minute from [t0]. *)
Definition in_minute (t0 : Z) (ts : list Z) : Z := Z.of_nat (length (filter (fun t => t0 <= t < t0 + WINDOW) ts)).

(** The count so far, against the window that is open. *)
Definition window_ok (n t0 now c : Z) (p : AuthorizePacer) : Prop :=
  ap_per_minute p = n /\ 0 <= c
  /\ match ap_window_started p with
     | None => c = 0
     | Some s => 1 <= ap_used p <= n /\ s <= now /\ (0 < c -> t0 < s + WINDOW)
         /\ (s < t0 -> c <= ap_used p - 1) /\ (t0 <= s < t0 + WINDOW -> c <= n - 1 + ap_used p) /\ (t0 + WINDOW <= s -> c <= 2 * n - 1)
     end.

Lemma window_step n t0 now c p t p' : 1 <= n -> window_ok n t0 now c p -> now <= t -> takes p t p' ->
  window_ok n t0 t (c + if decide (t0 <= t < t0 + WINDOW) then 1 else 0) p'.
Proof.
  intros Hn (Hpm & Hc & Hw) Ht [Hpm' [(s & Es & Es' & Hlt & Hu & Hu')|(Es' & Hu' & Hs)]]; unfold window_ok; rewrite Es', Hu'; (split; [congruence|]).
  - rewrite Es in Hw. case_decide; split_and!; try lia.
  - unfold WINDOW, NANOS in *. destruct (ap_window_started p) as [s|]; [specialize (Hs s eq_refl)|]; case_decide; split_and!; lia.
Qed.

Lemma slots_bound n t0 p w ts p' : slots p w ts p' -> forall c, 1 <= n -> window_ok n t0 (time w) c p -> c + in_minute t0 ts <= 2 * n - 1.
Proof.
  induction 1 as [p w|p w ev w1 p1 t w2 ts p2 Ha Hl Htime _ IH]; intros c Hn Hw.
  - unfold in_minute. cbn. destruct Hw as (_ & _ & Hw). destruct (ap_window_started p) as [s|]; [|lia].
    destruct (Z.lt_ge_cases s t0), (Z.lt_ge_cases s (t0 + WINDOW)); lia.
  - destruct (acquire_takes _ _ _ _ _ Ha) as (t' & Hl' & Ht & Htk). assert (t' = t) as -> by congruence.
    assert (window_ok n t0 (time w2) (c + if decide (t0 <= t < t0 + WINDOW) then 1 else 0) p1) as Hw1.
    { destruct (window_step n t0 (time w) c p t p1 Hn Hw ltac:(lia) Htk) as (E1 & E2 & E3). split_and!; [done|done|].
      destruct (ap_window_started p1); [|done]. destruct E3 as (? & ? & ?). split_and!; try done; lia. }
    specialize (IH _ Hn Hw1). unfold in_minute in *. rewrite filter_cons. case_decide; cbn [length]; lia.
Qed.
End pacer.

(** C35: authorize calls are paced: with a pacer of [n] a minute, any run of acquires, whatever happens
    between them, takes at most [2n - 1] slots in any 60 seconds, on any clock that does not go back and
    whose sleeps last. *)
Theorem pacer_bound `{W : GcWorld} {CK : ClockLaws W} n w ts p t0 :
  slots (pacer_new n) w ts p -> in_minute t0 ts <= 2 * Z.max 1 n - 1.
Proof. intros Hs. apply (slots_bound (Z.max 1 n) t0 _ _ _ _ Hs 0); [lia|]. by split_and!. Qed.

(** A world that is its clock. *)
Module ClockExample.
Definition down : AnyError := plain_error "down".
#[export] Instance clock_world : GcWorld := {|
  World := Z;
  call_index _ w := (Err down, w); call_entry _ w := (Err down, w); call_checkpoint w := (Err down, w); call_provenance _ w := (Err down, w);
  call_supports w := (Err down, w); call_authorize _ w := (Err down, w); call_prepare _ w := (Err down, w); call_retire _ w := (Err down, w);
  call_supports_quarantine w := (Err down, w);
  call_list _ w := (Err down, w);
  call_get_small _ _ w := (Err down, w);
  call_appends w := (run_default, w); call_utc_now w := (w, w); call_instant w := (w, w); call_sleep d w := (tt, w + Z.max 0 d);
  call_sleep_until d w := (tt, Z.max d w); call_uuid w := ("uuid", w); encode_base64 b := b; parse_from_rfc3339 _ := None |}.
#[export] Instance laws : ClockLaws clock_world.
Proof. refine {| time := fun w : @World clock_world => (w : Z) |}; intros; cbn in *; lia. Defined.

Definition second (n : Z) : Z := n * NANOS.
(** Two a minute: one slot at 0 and one at 59 s, then two in the window that opens at 60 s. *)
Definition burst : list Z := [0; second 59; second 60; second 60].
Definition open_since (s used : Z) : AuthorizePacer := {| ap_per_minute := 2; ap_window_started := Some s; ap_used := used |}.
Lemma burst_slots : slots (W := clock_world) (pacer_new 2) 0 burst (open_since (second 60) 2).
Proof.
  apply (slots_cons (W := clock_world) _ _ [EvInstant 0] 0 (open_since 0 1) _ (second 59)); [reflexivity|reflexivity|cbn; unfold second, NANOS; lia|].
  apply (slots_cons (W := clock_world) _ _ [EvInstant (second 59)] (second 59) (open_since 0 2) _ (second 59)); [reflexivity|reflexivity|cbn; lia|].
  apply (slots_cons (W := clock_world) _ _ [EvInstant (second 59); EvSleepUntil (second 60); EvInstant (second 60)] (second 60) (open_since (second 60) 1) _ (second 60));
    [reflexivity|reflexivity|cbn; lia|].
  apply (slots_cons (W := clock_world) _ _ [EvInstant (second 60)] (second 60) (open_since (second 60) 2) _ (second 60)); [reflexivity|reflexivity|cbn; lia|].
  constructor.
Qed.
(** The bound is met, and it is more than two in a minute. *)
Example burst_minute : in_minute (second 59) burst = 3.
Proof. reflexivity. Qed.
End ClockExample.

Lemma pacer_bound_witness : in_minute (ClockExample.second 59) ClockExample.burst <= 3.
Proof.
  exact (pacer_bound (W := ClockExample.clock_world) (CK := ClockExample.laws) 2 0 ClockExample.burst _ (ClockExample.second 59) ClockExample.burst_slots).
Defined.

(** ** Refused keys *)

Section refused.
Context `{H : HashIter} {HL : HashIterLaws H}.

Lemma min_by_key_elem {A} (key : A -> Z) l x : min_by_key key l = Some x -> x ∈ l.
Proof.
  revert x. induction l as [|y l IH]; intros x; cbn; [done|]. destruct (min_by_key key l) as [z|]; [|intros [= <-]; left].
  destruct (_ <? _); intros [= <-]; [right; by apply IH|left].
Qed.
Lemma min_by_key_none {A} (key : A -> Z) l : min_by_key key l = None -> l = [].
Proof. destruct l as [|y l]; cbn; [done|]. destruct (min_by_key key l); [by destruct (_ <? _)|done]. Qed.

Lemma prune_subset r now : rk_keys (rk_prune r now) ⊆ rk_keys r.
Proof. apply map_filter_subseteq. Qed.

Lemma rk_room_spec r key now : Z.of_nat (size (rk_keys r)) <= MAX_REFUSED_KEYS ->
  (forall x, Z.of_nat (size (<[key := x]> (rk_keys (rk_room r key now)))) <= MAX_REFUSED_KEYS)
  /\ rk_keys (rk_room r key now) ⊆ rk_keys r
  /\ (Z.of_nat (size (rk_keys r)) < MAX_REFUSED_KEYS -> rk_room r key now = r).
Proof.
  intros Hs. assert (forall m : gmap string RefusedKey, Z.of_nat (size m) < MAX_REFUSED_KEYS ->
    forall x, Z.of_nat (size (<[key := x]> m)) <= MAX_REFUSED_KEYS) as Hins.
  { intros m Hm x. rewrite map_size_insert. destruct (m !! key); cbn; lia. }
  unfold rk_room. destruct (Z.leb_spec MAX_REFUSED_KEYS (Z.of_nat (size (rk_keys r)))) as [Hfull|Hfull]; cbn [andb]; [|split_and!; [by apply Hins|done|done]].
  destruct (rk_keys r !! key) as [old|] eqn:Ek; cbn [is_some negb].
  { split_and!; [|done|lia]. intros x. by rewrite map_size_insert_Some by (by eexists). }
  set (m := rk_keys (rk_prune r now)). pose proof (prune_subset r now) as Hsub. fold m in Hsub. pose proof (map_subseteq_size _ _ Hsub) as Hle.
  destruct (Z.leb_spec MAX_REFUSED_KEYS (Z.of_nat (size m))) as [Hm|Hm]; [|split_and!; [by apply Hins|done|lia]].
  destruct (min_by_key _ (hash_iter m)) as [[soonest x]|] eqn:Emin.
  - cbn [rk_keys]. fold m. apply min_by_key_elem in Emin. rewrite hash_iter_perm in Emin. apply elem_of_map_to_list in Emin.
    split_and!; [|by etrans; [apply delete_subseteq|]|lia]. apply Hins. rewrite (map_size_delete_Some soonest m) by (by eexists). unfold MAX_REFUSED_KEYS in *. lia.
  - apply min_by_key_none in Emin. pose proof (hash_iter_perm m) as Hp. rewrite Emin in Hp. apply Permutation_nil in Hp. apply map_to_list_empty_iff in Hp.
    rewrite Hp, map_size_empty in Hm. unfold MAX_REFUSED_KEYS in Hm. lia.
Qed.
End refused.

Section memory.
Context `{H : HashIter} {HL : HashIterLaws H}.

Lemma remember_spec r key reason now : Z.of_nat (size (rk_keys r)) <= MAX_REFUSED_KEYS ->
  Z.of_nat (size (rk_keys (rk_remember r key reason now))) <= MAX_REFUSED_KEYS
  /\ (forall t, is_refused (rk_remember r key reason now) key t = (t <? sat_i64 (now + refusal_ttl reason)))
  /\ (forall k t, k <> key -> is_refused (rk_remember r key reason now) k t = true -> is_refused r k t = true)
  /\ (Z.of_nat (size (rk_keys r)) < MAX_REFUSED_KEYS -> forall k t, k <> key -> is_refused (rk_remember r key reason now) k t = is_refused r k t).
Proof.
  intros Hs. destruct (rk_room_spec r key now Hs) as (H1 & H2 & H3). unfold rk_remember, is_refused. cbn [rk_keys]. split_and!.
  - apply H1.
  - intros t. by rewrite lookup_insert_eq.
  - intros k t Hk. rewrite lookup_insert_ne by done. destruct (rk_keys (rk_room r key now) !! k) as [x|] eqn:E; [|done].
    by rewrite (lookup_weaken _ _ _ _ E H2).
  - intros Hlt k t Hk. by rewrite lookup_insert_ne, (H3 Hlt) by done.
Qed.

Definition remember_all (l : list (string * string * Z)) (r : RefusedKeys) : RefusedKeys :=
  foldl (fun r '(key, reason, now) => rk_remember r key reason now) r l.
Lemma remember_all_bounded l : forall r, Z.of_nat (size (rk_keys r)) <= MAX_REFUSED_KEYS -> Z.of_nat (size (rk_keys (remember_all l r))) <= MAX_REFUSED_KEYS.
Proof. induction l as [|[[key reason] now] l IH]; intros r Hr; [done|]. apply IH, remember_spec, Hr. Qed.

(** The memory of refused keys stays within its bound whatever is remembered; a key is refused from
    then on exactly until its time to live is over, a day for an object control does not know and an
    hour otherwise; no other key becomes refused by it; and below the bound no other key is forgotten. *)
Theorem refused_memory l key reason now :
  let before := remember_all l refused_default in let after := rk_remember before key reason now in
  Z.of_nat (size (rk_keys after)) <= MAX_REFUSED_KEYS
  /\ (forall t, is_refused after key t = (t <? sat_i64 (now + refusal_ttl reason)))
  /\ (forall k t, k <> key -> is_refused after k t = true -> is_refused before k t = true)
  /\ (Z.of_nat (size (rk_keys before)) < MAX_REFUSED_KEYS -> forall k t, k <> key -> is_refused after k t = is_refused before k t).
Proof. cbn zeta. apply remember_spec, remember_all_bounded. done. Qed.
End memory.

Module HashExample.
#[export] Instance order : HashIter := {| hash_iter := map_to_list |}.
#[export] Instance order_laws : HashIterLaws order.
Proof. by split. Qed.
End HashExample.

Lemma refused_memory_witness :
  let after := rk_remember (H := HashExample.order) (remember_all (H := HashExample.order) [("a", "lake_part_within_grace", 0)] refused_default) "b" OBJECT_NOT_FOUND 1000 in
  is_refused after "b" 86400999 = true /\ is_refused after "b" 86401000 = false /\ is_refused after "a" 2000 = true.
Proof.
  pose proof (refused_memory (H := HashExample.order) (HL := HashExample.order_laws) [("a", "lake_part_within_grace", 0)] "b" OBJECT_NOT_FOUND 1000) as Hm.
  cbv zeta in Hm |- *. destruct Hm as (_ & Hb & _ & Ha). split; [rewrite Hb; reflexivity|]. split; [rewrite Hb; reflexivity|].
  rewrite Ha; [reflexivity|vm_compute; reflexivity|discriminate].
Defined.

(** ** What is asked *)

Definition asked_for (ev : list Event) : list LakePartDeleteRequest := omap (fun e => match e with EvAuthorize r _ => Some r | _ => None end) ev.

Section asks.
Context `{P : Platform} {J : JsonWriter} `{W : GcWorld} `{H : HashIter} {HL : HashIterLaws H}.
Context (now_ms : Z) (trusted_local : bool).

Lemma asked_harmless ev : Forall harmless ev -> asked_for ev = [].
Proof. induction 1 as [|e ev He _ IH]; [done|]. by destruct e. Qed.
Lemma asked_app e1 e2 : asked_for (e1 ++ e2) = asked_for e1 ++ asked_for e2.
Proof. apply omap_app. Qed.

Lemma delete_one_asks request : yields (delete_one request trusted_local) (fun ev _ => exists k, (k <= 1)%nat /\ asked_for ev = replicate k request).
Proof.
  unfold delete_one. destruct (negb _); [apply yields_ret; exists O; split; [lia|done]|]. apply yields_bind, yields_ask. intros [permit|e]; [|apply yields_ret; exists 1%nat; split; [lia|done]].
  apply yields_bind, yields_ask. intros now. destruct (negb _); [apply yields_ret; exists 1%nat; split; [lia|done]|].
  apply yields_bind, yields_ask. intros [prepared|e]; [|apply yields_ret; exists 1%nat; split; [lia|done]]. destruct (negb _); [apply yields_ret; exists 1%nat; split; [lia|done]|].
  apply yields_bind, yields_ask. intros answer. apply yields_ret. exists 1%nat. split; [lia|done].
Qed.

(** A re-sync is still possible. *)
Definition spare (x : Exec) : nat := if xs_resynced x then 0 else 1.

Lemma harmless_bind {A B} (m : GC A) (k : A -> GC B) (Q : list LakePartDeleteRequest -> B -> Prop) :
  all_events harmless m -> (forall a, yields (k a) (fun ev b => Q (asked_for ev) b)) -> yields (m ≫= k) (fun ev b => Q (asked_for ev) b).
Proof.
  intros Hm Hk. apply yields_bind. eapply yields_mono; [exact Hm|]. cbn. intros ev a Hh. eapply yields_mono; [apply Hk|]. cbn. intros ev' b HQ.
  by rewrite asked_app, (asked_harmless _ Hh).
Qed.

Lemma resync_step_asks request step x :
  yields (resync_step now_ms trusted_local request step x) (fun ev r =>
    exists k, asked_for ev = replicate k request /\ (k + spare r.2 <= spare x)%nat /\ xs_refused r.2 = xs_refused x).
Proof.
  unfold resync_step. destruct (xs_resync x) as [index|]; [|apply yields_ret; exists O; split_and!; [done|cbn; lia|done]].
  destruct (index_incomplete step); cbn [negb orb]; [|apply yields_ret; exists O; split_and!; [done|cbn; lia|done]].
  destruct (xs_resynced x) eqn:Er; [apply yields_ret; exists O; split_and!; [done|cbn; lia|done]|].
  assert (spare x = 1)%nat as -> by (unfold spare; by rewrite Er).
  set (Q := fun (o : list LakePartDeleteRequest) (r : Step.t * Exec) => exists k, o = replicate k request /\ (k + spare r.2 <= 1)%nat /\ xs_refused r.2 = xs_refused x).
  assert (forall step' x', xs_resynced x' = true -> xs_refused x' = xs_refused x -> yields (mret (step', x')) (fun ev r => Q (asked_for ev) r)) as Hend.
  { intros step' x' Hx Hr. apply yields_ret. exists O. unfold spare. cbn. rewrite Hx. by split_and!; [|lia|]. }
  apply (harmless_bind _ _ Q); [apply ledger_harmless|]. intros through. apply (harmless_bind _ _ Q); [apply sync_harmless|]. intros outcome.
  destruct outcome as [[status [] pushed gaps head settling| |code|code]|e]; [|by apply Hend..|apply Hend; by destruct (ae_progress e)].
  apply (harmless_bind _ _ Q); [apply acquire_harmless|]. intros pacer. apply (harmless_bind _ _ Q); [apply writer_advanced_harmless|]. intros []; [by apply Hend|].
  apply yields_bind. eapply yields_mono; [exact (delete_one_asks request)|]. intros ev step' (k & Hk & Hev). apply yields_ret. rewrite app_nil_r. exists k. by cbn; split_and!; [|lia|].
Qed.

(** The memory after an iteration: as before, or with the request's key refused. *)
Definition evolves (request : LakePartDeleteRequest) (r r' : RefusedKeys) : Prop := r' = r \/ exists code, r' = rk_remember r (dr_key request) code now_ms.

Lemma conclude_evolves request step x :
  let x' := match conclude now_ms request step x with inl x | inr x => x end in
  evolves request (xs_refused x) (xs_refused x') /\ xs_resynced x' = xs_resynced x.
Proof.
  destruct step as [record|code|reason backoff|code]; cbn; [by split; [left|]|split; [right; by exists code|done]| |].
  - by destruct (_ || _); split; [left| |left|].
  - by destruct (_ <=? _); split; [left| |left|].
Qed.

Definition step_asks (request : LakePartDeleteRequest) (x : Exec) (ev : list Event) (x' : Exec) : Prop :=
  exists k, asked_for ev = replicate k request /\ (k + spare x' <= 1 + spare x)%nat /\ evolves request (xs_refused x) (xs_refused x')
    /\ (0 < k -> is_refused (xs_refused x) (dr_key request) now_ms = false)%nat.

Lemma execute_step_asks request x :
  yields (execute_step now_ms trusted_local request x) (fun ev r => step_asks request x ev (match r with inl x | inr x => x end)).
Proof.
  unfold execute_step. cbn zeta. set (x0 := with_report _ x). change (xs_refused x0) with (xs_refused x).
  destruct (is_refused (xs_refused x) (dr_key request) now_ms) eqn:Eref; [apply yields_ret; exists O; split_and!; [done|change (0 + spare x <= 1 + spare x)%nat; lia|by left|intros ?; lia]|].
  set (Q := fun (o : list LakePartDeleteRequest) (r : Exec + Exec) => let x' := match r with inl x | inr x => x end in
    exists k, o = replicate k request /\ (k + spare x' <= 1 + spare x)%nat /\ evolves request (xs_refused x) (xs_refused x') /\ (0 < k -> false = false)%nat).
  change (yields _ _) with (yields (execute_attempt now_ms trusted_local request x0) (fun ev r => step_asks request x ev (match r with inl x | inr x => x end))).
  apply (yields_mono _ (fun ev r => Q (asked_for ev) r)); [|intros ev r (k & E1 & E2 & E3 & _); by exists k].
  assert (xs_refused x0 = xs_refused x /\ spare x0 = spare x) as [Hr Hs] by done. clearbody x0. unfold execute_attempt.
  apply (harmless_bind _ _ Q). { destruct (_ && _); [apply acquire_harmless|apply all_events_ret]. } intros pacer.
  apply (harmless_bind _ _ Q). { destruct (xs_resync _); [apply writer_advanced_harmless|apply all_events_ret]. }
  intros []; [apply yields_ret; exists O; split_and!; [done|change (0 + spare x0 <= 1 + spare x)%nat; lia|left; exact Hr|done]|].
  apply yields_bind. eapply yields_mono; [exact (delete_one_asks request)|]. intros e1 step (k1 & Hk1 & E1).
  apply yields_bind. eapply yields_mono; [exact (resync_step_asks request step (with_pacer pacer x0))|]. intros e2 [step' x'] (k2 & E2 & Hk2 & Hx'). cbn in Hk2, Hx'.
  apply yields_ret. rewrite app_nil_r, asked_app, E1, E2. exists (k1 + k2)%nat. destruct (conclude_evolves request step' x') as [E3 E4].
  split_and!; [by rewrite replicate_add| |by rewrite <- Hr, <- Hx'|done].
  unfold spare in Hk2 |- *. rewrite E4. change (xs_resynced (with_pacer pacer x0)) with (xs_resynced x0) in Hk2. unfold spare in Hs. lia.
Qed.

Lemma evolves_size request r r' : evolves request r r' -> Z.of_nat (size (rk_keys r)) < MAX_REFUSED_KEYS -> (size (rk_keys r') <= S (size (rk_keys r)))%nat.
Proof.
  intros [->|[code ->]] Hs; [lia|]. unfold rk_remember. cbn [rk_keys]. destruct (rk_room_spec r (dr_key request) now_ms ltac:(lia)) as (_ & _ & ->); [|done].
  rewrite map_size_insert. destruct (rk_keys r !! dr_key request); cbn; lia.
Qed.
Lemma evolves_refused request r r' key : evolves request r r' -> Z.of_nat (size (rk_keys r)) < MAX_REFUSED_KEYS -> in_i64 now_ms -> now_ms < i64_max ->
  is_refused r' key now_ms = false -> is_refused r key now_ms = false.
Proof.
  intros [->|[code ->]] Hs Hn Hnow Hr; [done|]. destruct (remember_spec r (dr_key request) code now_ms ltac:(lia)) as (_ & Hk & _ & Ho).
  destruct (decide (key = dr_key request)) as [->|Hne]; [|by rewrite <- (Ho Hs key now_ms Hne)]. rewrite Hk in Hr. apply Z.ltb_ge in Hr.
  unfold sat_i64, refusal_ttl, UNAUTHORIZABLE_KEY_TTL_MS, REFUSED_KEY_TTL_MS, in_i64, i64_min, i64_max in *. case_bool_decide; lia.
Qed.

Definition loop_asks (l : list LakePartDeleteRequest) (x : Exec) (ev : list Event) (x' : Exec) : Prop :=
  (length (asked_for ev) + spare x' <= length l + spare x)%nat
  /\ (Z.of_nat (size (rk_keys (xs_refused x))) + Z.of_nat (length l) <= MAX_REFUSED_KEYS -> in_i64 now_ms -> now_ms < i64_max ->
      forall q, q ∈ asked_for ev -> q ∈ l /\ is_refused (xs_refused x) (dr_key q) now_ms = false).

Lemma execute_loop_asks fuel : forall l x, yields (execute_loop now_ms trusted_local list_next fuel l x) (fun ev r => loop_asks l x ev r.2).
Proof.
  assert (forall l x (c : list LakePartDeleteRequest), yields (mret (c, x)) (fun ev (r : list LakePartDeleteRequest * Exec) => loop_asks l x ev r.2)) as Hstop.
  { intros l x c. apply yields_ret. split; [cbn; lia|]. intros _ _ _ q []%elem_of_nil. }
  induction fuel as [|fuel IH]; intros [|request l] x; cbn [execute_loop list_next]; try apply Hstop.
  apply yields_bind. eapply yields_mono; [exact (execute_step_asks request x)|]. intros e1 flow (k & E1 & E2 & E3 & E4).
  apply (yields_mono _ (fun ev r => loop_asks l (match flow with inl x | inr x => x end) ev r.2)); [destruct flow; [apply IH|apply Hstop]|].
  intros e2 [c x'] [F1 F2]. cbn in F1, F2 |- *. set (x1 := match flow with inl x | inr x => x end) in *. unfold loop_asks. rewrite asked_app, length_app, E1, length_replicate.
  split; [cbn [length]; lia|]. intros Hs Hn Hnow q. cbn [length] in Hs. rewrite elem_of_app. intros [Hq|Hq].
  - apply elem_of_replicate in Hq as [-> Hk]. split; [left|apply E4; lia].
  - pose proof (evolves_size _ _ _ E3 ltac:(lia)). destruct (F2 ltac:(lia) Hn Hnow q Hq) as [G1 G2]. split; [by right|]. apply (evolves_refused _ _ _ _ E3); [lia|done|done|done].
Qed.

(** Enough fuel for the loop: more than the items left. *)
Lemma execute_loop_enough {C} (next : C -> C * option LakePartDeleteRequest) (left : C -> nat) :
  (forall c c' r, next c = (c', Some r) -> left c' < left c)%nat ->
  forall f1 f2 c x w, (left c < f1)%nat -> (left c < f2)%nat ->
  execute_loop now_ms trusted_local next f1 c x w = execute_loop now_ms trusted_local next f2 c x w.
Proof.
  intros Hn. induction f1 as [|f1 IH]; intros [|f2] c x w H1 H2; try lia. cbn [execute_loop]. destruct (next c) as [c' [r|]] eqn:En; [|done].
  pose proof (Hn _ _ _ En). unfold mbind, gc_bind. destruct (execute_step now_ms trusted_local r x w) as [[e w1] [x1|x1]]; [|done]. by rewrite (IH f2) by lia.
Qed.
Lemma list_next_left (l l' : list LakePartDeleteRequest) r : list_next l = (l', Some r) -> (length l' < length l)%nat.
Proof. destruct l; cbn; [done|]. intros [= <- <-]. lia. Qed.
End asks.

(** The loop asks the owner at most once per planned request and once more after a re-sync; it asks only
    for planned requests, and never for a key it remembers as refused, as long as this pass cannot fill
    the memory. *)
Theorem asks_bounded `{P : Platform} {J : JsonWriter} `{W : GcWorld} `{HI : HashIter} {HL : HashIterLaws HI}
    requests deleted refused pacer now_ms trusted_local resync w ev w' x :
  execute_requests requests deleted refused pacer now_ms trusted_local resync w = (ev, w', x) ->
  (length (asked_for ev) <= length requests + 1)%nat
  /\ (Z.of_nat (size (rk_keys refused)) + Z.of_nat (length requests) <= MAX_REFUSED_KEYS -> in_i64 now_ms -> now_ms < i64_max ->
      forall q, q ∈ asked_for ev -> q ∈ requests /\ is_refused refused (dr_key q) now_ms = false).
Proof.
  intros Hrun. assert (yields (execute_requests requests deleted refused pacer now_ms trusted_local resync)
    (fun ev x' => loop_asks now_ms requests (exec_new deleted refused pacer resync) ev x')) as Hy.
  { unfold execute_requests. apply yields_bind. eapply yields_mono; [apply execute_loop_asks|]. intros e1 [c x'] Hl. apply yields_ret. by rewrite app_nil_r. }
  destruct (yields_run _ _ _ _ _ _ Hy Hrun) as [H1 H2]. split; [|exact H2]. cbn in H1. lia.
Qed.

(** ** Delays *)

(** The wait between passes is at least the base, doubles with the back-offs and is capped. *)
Lemma next_pass_delay_bounds s base : 0 <= base <= DURATION_MAX -> 0 <= gs_backoff_passes s -> base <= next_pass_delay s base <= Z.max MAX_BACKOFF base.
Proof.
  intros Hb Hn. unfold next_pass_delay. destruct (Z.eqb_spec (gs_backoff_passes s) 0); [lia|]. rewrite Z.shiftl_mul_pow2 by lia. unfold dur_saturating_mul.
  assert (1 <= 2 ^ Z.min (gs_backoff_passes s) 16) by (apply (Z.pow_le_mono_r 2 0); lia). nia.
Qed.
Lemma index_backoff_delay_bounds attempt retry_after :
  (forall after, retry_after = Some after -> 0 <= after) -> 0 <= index_backoff_delay attempt retry_after <= 60 * NANOS.
Proof.
  intros Hr. unfold index_backoff_delay, INDEX_RETRY_AFTER_MAX, INDEX_BACKOFF_MAX, INDEX_BACKOFF_BASE, dur_saturating_mul, DURATION_MAX, NANOS, u64_max. destruct retry_after as [after|].
  - specialize (Hr after eq_refl). lia.
  - rewrite Z.shiftl_mul_pow2 by lia. assert (1 <= 2 ^ Z.min (Z.max 0 (attempt - 1)) 16) by (apply (Z.pow_le_mono_r 2 0); lia). lia.
Qed.

(** ** The receipted watermark *)

Definition record_all (l : list (Z * Z)) (run : ReceiptedRun) : ReceiptedRun := foldl (fun run '(seq, t) => appends_record run seq t) run l.

(** [l] ends in the appends [start], [start + 1], ..., [through], of which the first was at [t0]. *)
Definition ends_in_run (l : list (Z * Z)) (start t0 through : Z) : Prop :=
  exists earlier rest, l = earlier ++ (start, t0) :: rest /\ through = start + Z.of_nat (length rest)
    /\ forall i s t, ((start, t0) :: rest) !! i = Some (s, t) -> s = start + Z.of_nat i.

Lemma record_all_run l : Forall (fun st => 0 <= st.1 < u64_max) l -> forall through, rr_through (record_all l run_default) = Some through ->
  0 <= through < u64_max /\ exists start t0, ends_in_run l start t0 through /\ t0 <= rr_started_at_ms (record_all l run_default).
Proof.
  induction l as [|[sq t] l IH] using rev_ind; [done|]. intros [Hl [Hsq _]%Forall_cons]%Forall_app. cbn in Hsq. specialize (IH Hl).
  unfold record_all in *. rewrite foldl_snoc. set (run := foldl _ run_default l) in *. intros through [= <-]. split; [done|].
  destruct (rr_through run) as [before|] eqn:Eb; cbn [negb]; [|exists sq, t; split; [exists l, []; cbn; split_and!; [done|lia|]|cbn; rewrite Eb; lia]].
  2: { intros [|i] s u; cbn; [intros [= <- <-]; lia|done]. }
  destruct (IH before eq_refl) as (Hb & start & t0 & (earlier & rest & E1 & E2 & E3) & Ht). unfold appends_record. rewrite Eb. cbn.
  destruct (Z.eqb_spec sq (sat_u64 (before + 1))) as [Es|Es]; cbn [negb].
  - rewrite sat_u64_id in Es by (unfold in_u64; lia). exists start, t0. split; [|done]. exists earlier, (rest ++ [(sq, t)]). rewrite length_app. cbn [length]. split_and!; [by rewrite E1, <- app_assoc|lia|].
    intros i s u. rewrite app_comm_cons, lookup_app_Some. intros [Hi|[Hlen Hi]]; [by eapply E3|]. apply list_lookup_singleton_Some in Hi as [Hi [= <- <-]]. cbn in Hi, Hlen. lia.
  - exists sq, t. split; [|lia]. exists l, []. cbn. split_and!; [done|lia|]. intros [|i] s u; cbn; [intros [= <- <-]; lia|done].
Qed.

(** C36: the watermark that lets young entries into the index is sound: it is the last of a consecutive run of
    appends whose completion the writer recorded, and the run began at least the settle time ago, so
    every entry is under a recorded receipt or older than the run. *)
Theorem watermark_sound l now_ms through :
  Forall (fun st => 0 <= st.1 < u64_max) l -> receipted_through (record_all l run_default) now_ms = Some through ->
  exists start t0, ends_in_run l start t0 through /\ INDEX_SETTLE_MS <= now_ms - t0.
Proof.
  intros Hl Hr. unfold receipted_through in Hr. destruct (Z.leb_spec INDEX_SETTLE_MS (sat_i64 (now_ms - rr_started_at_ms (record_all l run_default)))) as [Hs|]; [|done].
  destruct (record_all_run l Hl through Hr) as (_ & start & t0 & Hrun & Ht). exists start, t0. split; [done|].
  unfold sat_i64, i64_min, INDEX_SETTLE_MS in *. lia.
Qed.

Lemma watermark_sound_witness :
  exists start t0, ends_in_run [(4, 1000); (7, 2000); (8, 63000)] start t0 8 /\ INDEX_SETTLE_MS <= 62000 - t0.
Proof.
  apply (watermark_sound [(4, 1000); (7, 2000); (8, 63000)] 62000 8).
  - repeat constructor; cbn; lia.
  - vm_compute. reflexivity.
Defined.

(** A pass over one request in a world that is down. *)
Module AskExample.
Import ToyPlatform ToyJson ClockExample HashExample.
Definition ask_start : @World clock_world := 0.
Definition ask_attempt := execute_requests [GcRequestExample.superseded] [] refused_default pacer_default 0 false None ask_start.
Lemma attempt_eq : ask_attempt = (ask_attempt.1.1, ask_attempt.1.2, ask_attempt.2).
Proof. apply (gc_run_eta (execute_requests [GcRequestExample.superseded] [] refused_default pacer_default 0 false None)). Qed.
Example attempt_stops : asked_for ask_attempt.1.1 = [GcRequestExample.superseded] /\ rp_paused_reason (xs_report ask_attempt.2) = Some "owner_unavailable: down".
Proof. vm_compute. done. Qed.
End AskExample.

Lemma asks_bounded_witness : (length (asked_for AskExample.ask_attempt.1.1) <= 1 + 1)%nat.
Proof.
  refine (proj1 (asks_bounded (P := ToyPlatform.toy) (J := ToyJson.toy_writer) (W := ClockExample.clock_world) (HI := HashExample.order) (HL := HashExample.order_laws)
    [GcRequestExample.superseded] [] refused_default pacer_default 0 false None AskExample.ask_start _ _ _ _)).
  exact AskExample.attempt_eq.
Defined.

(** ** A report that is cut short *)

(** A world where control accepts one index request and refuses the next. *)
Module FlakyExample.
Definition down : AnyError := plain_error "down".
Definition ready : IndexStatus :=
  {| is_tenant_uuid := "t"; is_indexed_through_seq := None; is_head_entry_sha256 := None; is_checkpoint_seq := None; is_folded_through_seq := None |}.
#[export] Instance flaky_world : GcWorld := {|
  World := bool;
  call_index _ w := (if (w : bool) then Ok ready else Err down, false); call_entry _ w := (Err down, w); call_checkpoint w := (Err down, w);
  call_provenance _ w := (Err down, w); call_supports w := (Err down, w); call_authorize _ w := (Err down, w); call_prepare _ w := (Err down, w);
  call_supports_quarantine w := (Err down, w); call_list _ w := (Err down, w); call_get_small _ _ w := (Err down, w);
  call_retire _ w := (Err down, w); call_appends w := (run_default, w); call_utc_now w := (0, w); call_instant w := (0, w); call_sleep _ w := (tt, w);
  call_sleep_until _ w := (tt, w); call_uuid w := ("uuid", w); encode_base64 b := b; parse_from_rfc3339 _ := None |}.
Definition deletion : DeletedKey := {| dk_key := "k"; dk_permit_id := "p"; dk_receipt_sha256 := "r" |}.
Definition cut_short : list DeletedKey * result string Z := (report_deleted (W := flaky_world) "t" (replicate 1025 deletion) (true : @World flaky_world)).2.
(** Control took 1,024 of 1,025 records; the error that is returned does not say so, and the pass reports none. *)
Example partial_report_uncounted : (length cut_short.1, cut_short.2) = (1%nat, Err "index_call_failed: down").
Proof. vm_compute. reflexivity. Qed.
End FlakyExample.
