(* ===== verification/Quarantine.v ===== *)
(** * Quarantine: the bronze objects a tenant's ingest refused

    Models [part_ingest/quarantine.rs]: the directory that keeps every object admission refused
    whole, with its reason, until it expires, is evicted by the size cap or its replay commits.

    The directory is a map from paths to contents. Every system call may fail, and a failing
    write may leave any bytes: the calls take their outcome from a list of faults in the state,
    so a theorem about all states covers every sequence of I/O errors. A name that is not UTF-8
    is skipped by every operation and is not in the map. *)
From S2P Require Import Prelude Platform Format PartTypes Utf8.

(** ** Constants *)

Definition QUARANTINE_TTL_MS : Z := 7 * 86400000.
Definition MAX_QUARANTINE_BYTES : Z := 1073741824.
Definition MAX_QUARANTINED_OBJECT_BYTES : Z := 134217728.
Definition ENTRY_KIND : string := "nano.lake.bronze-quarantine.v1".
Definition RESTORED_MARKER : string := "restored-v1".
Definition IMPORT_STAGING_MAX_AGE_MS : Z := 60 * 60000.
Definition RECORD_SKEW_MS : Z := 86400000.
Definition REPLAY_HANDLE_PREFIX : string := "bronze-quarantine-replay:".
Definition MAX_IMPORTED_ENTRIES : nat := 1024.

(** ** Data *)

Record QuarantineEntry := {
  qe_kind : string; qe_tenant_id : string; qe_id : string; qe_source_key : string; qe_source_version : string; qe_scope : string;
  qe_reason : string; qe_detail : string; qe_rows_rejected : Z; qe_bytes : Z; qe_quarantined_at_ms : Z; qe_expires_at_ms : Z;
  qe_refusals : Z; qe_replay_requested_at_ms : option Z }.
#[export] Instance QuarantineEntry_eq_dec : EqDecision QuarantineEntry.
Proof. solve_decision. Defined.

Inductive ReplayRefused := ReplayCrossTenant | ReplayInvalidId | ReplayNotFound.
Inductive Kept := KeptNew | KeptAgain | KeptTooLarge.
Inductive Imported := ImportedNew | ImportedExists.
Inductive ImportRefused :=
| CrossTenant | Malformed | Digest | Size | Expired | ObjectTooLarge | OverCap | TooManyEntries | Conflict | Released | RestorePending
| BeyondRestoreBound.

Inductive QError :=
| QIo | QInvalidId | QEncode | QScope | QTenant (e : FormatError) | QReplay (r : ReplayRefused) | QImport (r : ImportRefused)
(** of the bucket mirror *)
| QRecordTime | QVanished | QDisagrees | QRecordDiffers | QEscaped | QBackwards | QBucket
(** the listing went past the fuel of the model *)
| QOutOfFuel.

Record Quarantine := { q_tenant : string; q_max_bytes : Z; q_max_object_bytes : Z }.
Record Refusal := {
  rf_source_key : string; rf_source_version : string; rf_scope : string; rf_reason : string; rf_detail : string; rf_rows_rejected : Z }.

(** [serde_json] of an entry: [to_vec] may refuse, and what it writes reads back. *)
Class EntryCodec := { entry_to_vec : QuarantineEntry -> option string; entry_from_slice : string -> option QuarantineEntry }.
Class EntryCodecLaws (C : EntryCodec) : Prop := {
  entry_codec_roundtrip : forall e b, entry_to_vec e = Some b -> entry_from_slice b = Some e }.

(** ** The directory *)

(** The directory itself, its [outbox/] and its [released/]. *)
Inductive Folder := InDir | InOutbox | InReleased.
#[export] Instance Folder_eq_dec : EqDecision Folder.
Proof. solve_decision. Defined.
#[export] Instance Folder_countable : Countable Folder.
Proof.
  refine (inj_countable' (fun f => match f with InDir => 0%nat | InOutbox => 1%nat | InReleased => 2%nat end)
            (fun n => match n with 0%nat => InDir | 1%nat => InOutbox | _ => InReleased end) _).
  by intros [].
Defined.
Abbreviation Path := (Folder * string)%type.
Abbreviation Files := (gmap (Folder * string) string).

(** A system call works, fails, or fails after writing some bytes. *)
Inductive Fault := Fine | Fails | Torn (bytes : string).
Record Disk := { d_files : Files; d_faults : list Fault }.

(** The order [read_dir] lists a directory in. *)
Class DirOrder := { dir_order : Files -> Folder -> list string }.
Class DirOrderLaws (D : DirOrder) : Prop := {
  dir_order_nodup : forall m f, NoDup (dir_order m f);
  dir_order_names : forall m f name, name ∈ dir_order m f <-> is_Some (m !! (f, name)) }.

(** A fallible computation on a state; what was done before an error stays done. *)
Definition Eff (S A : Type) : Type := S -> S * result QError A.
#[export] Instance Eff_ret {S} : MRet (Eff S) := fun A a s => (s, Ok a).
#[export] Instance Eff_bind {S} : MBind (Eff S) := fun A B k m s =>
  match m s with (s', Ok a) => k a s' | (s', Err e) => (s', Err e) end.
Definition eff_lift {S A} (r : result QError A) : Eff S A := fun s => (s, r).
Definition eff_fail {S A} (e : QError) : Eff S A := fun s => (s, Err e).
(** [let _ = ...] *)
Definition eff_ignore {S A} (m : Eff S A) : Eff S unit := fun s => ((m s).1, Ok tt).
(** [for x in l { ...? }] *)
Fixpoint eff_for {S X} (l : list X) (body : X -> Eff S unit) : Eff S unit :=
  match l with [] => mret tt | x :: l => _ ← body x; eff_for l body end.

(** ** System calls *)

Section syscalls.
Abbreviation FsM := (Eff Disk).

Definition set_files (f : Files -> Files) (d : Disk) : Disk := {| d_files := f (d_files d); d_faults := d_faults d |}.
(** The outcome of the next call. *)
Definition next_fault : FsM Fault := fun d =>
  match d_faults d with
  | [] => (d, Ok Fine)
  | x :: rest => ({| d_files := d_files d; d_faults := rest |}, Ok x)
  end.
Definition fs_call {A} (m : FsM A) : FsM A :=
  x ← next_fault; match x with Fine => m | _ => eff_fail QIo end.
Definition fs_files : FsM Files := fun d => (d, Ok (d_files d)).
Definition fs_update (f : Files -> Files) : FsM unit := fun d => (set_files f d, Ok tt).

(** [std::fs::read]; [None] when the file is not there. *)
Definition fs_read (p : Path) : FsM (option string) := fs_call (m ← fs_files; mret (m !! p)).
(** [std::fs::read_to_string]: also refuses what is not UTF-8. *)
Definition fs_read_to_string (p : Path) : FsM (option string) :=
  body ← fs_read p;
  match body with
  | Some b => if valid_utf8 b then mret (Some b) else eff_fail QIo
  | None => mret None
  end.
(** [Path::exists]: false on an error. *)
Definition fs_exists (p : Path) : FsM bool :=
  x ← next_fault; m ← fs_files; mret (match x with Fine => is_some (m !! p) | _ => false end).
(** [std::fs::metadata(p).len()] *)
Definition fs_len (p : Path) : FsM (option Z) := fs_call (m ← fs_files; mret (str_len <$> m !! p)).
(** [std::fs::write] and [std::fs::copy] onto [p]. *)
Definition fs_write (p : Path) (bytes : string) : FsM unit :=
  x ← next_fault;
  match x with
  | Fine => fs_update <[p := bytes]>
  | Fails => eff_fail QIo
  | Torn part => _ ← fs_update <[p := part]>; eff_fail QIo
  end.
(** [File::open(p)?.sync_all()?] *)
Definition fs_sync (p : Path) : FsM unit :=
  fs_call (m ← fs_files; if is_some (m !! p) then mret tt else eff_fail QIo).
(** [std::fs::rename]: atomic, replaces the target. *)
Definition fs_rename (from to : Path) : FsM unit :=
  fs_call (m ← fs_files;
           match m !! from with
           | Some bytes => fs_update (fun m => <[to := bytes]> (delete from m))
           | None => eff_fail QIo
           end).
(** [std::fs::remove_file]; [false] when the file is not there. *)
Definition fs_remove (p : Path) : FsM bool :=
  fs_call (m ← fs_files; if is_some (m !! p) then _ ← fs_update (delete p); mret true else mret false).
(** [std::fs::read_dir]; an item of the listing may fail as well ([item?]). *)
Definition fs_read_dir `{DirOrder} (f : Folder) : FsM (list string) := fs_call (m ← fs_files; mret (dir_order m f)).
Definition fs_item : FsM unit := fs_call (mret tt).
End syscalls.

(** ** Operations *)

Section operations.
Context `{P : Platform} `{C : EntryCodec} `{D : DirOrder}.
Abbreviation FsM := (Eff Disk).

(** [Quarantine::open], on created directories, and [with_limits]. *)
Definition open (tenant : string) : result QError Quarantine :=
  match validate_tenant_uuid tenant with
  | Ok _ => Ok {| q_tenant := tenant; q_max_bytes := MAX_QUARANTINE_BYTES; q_max_object_bytes := MAX_QUARANTINED_OBJECT_BYTES |}
  | Err e => Err (QTenant e)
  end.
Definition with_limits (self : Quarantine) (max_bytes max_object_bytes : Z) : Quarantine :=
  {| q_tenant := q_tenant self; q_max_bytes := max_bytes; q_max_object_bytes := Z.min max_object_bytes max_bytes |}.

Definition replay_handle (id : string) : string := REPLAY_HANDLE_PREFIX +:+ id.
Definition is_replay_handle (handle : string) : bool := starts_with REPLAY_HANDLE_PREFIX handle.

Definition data_path (id : string) : Path := (InDir, id +:+ ".parquet").
Definition entry_path (id : string) : Path := (InDir, id +:+ ".json").
Definition marker_path : Path := (InDir, RESTORED_MARKER).
Definition staging_path (name : string) : Path := (InDir, "." +:+ name +:+ ".tmp").
Definition valid_id (id : string) : FsM unit := eff_lift (ensure (is_sha256_hex id) QInvalidId).

(** Write [bytes] to [staged], flush them and move them to [target]. *)
Definition write_rename (staged target : Path) (bytes : string) : FsM unit :=
  _ ← fs_write staged bytes; _ ← fs_sync staged; fs_rename staged target.

Section self.
Context (self : Quarantine).

(** [replay_id]: the id of this tenant's replay source [key]. *)
Definition replay_id (key : string) : option string :=
  rest ← strip_prefix "bronze-quarantine/tenant_id=" key;
  rest ← strip_prefix (q_tenant self) rest;
  rest ← strip_prefix "/" rest;
  id ← strip_suffix ".parquet" rest;
  if is_sha256_hex id then Some id else None.

(** [copy_to]: the bytes copied out, if they are kept. *)
Definition copy_to (id : string) : FsM (option string) := _ ← valid_id id; fs_read (data_path id).

Definition store (entry : QuarantineEntry) : FsM unit :=
  body ← eff_lift (of_option (entry_to_vec entry) QEncode);
  write_rename (InDir, "." +:+ qe_id entry +:+ ".json.tmp") (entry_path (qe_id entry)) body.

(** The entry in a file's bytes, when it is this tenant's entry [id]. *)
Definition decode_entry (id bytes : string) : option QuarantineEntry :=
  entry ← entry_from_slice bytes;
  if negb (bool_decide (qe_kind entry = ENTRY_KIND)) || negb (bool_decide (qe_tenant_id entry = q_tenant self)) || negb (bool_decide (qe_id entry = id))
  then None else Some entry.
Definition load (id : string) : FsM (option QuarantineEntry) :=
  bytes ← fs_read (entry_path id); mret (b ← bytes; decode_entry id b).
Definition get (id : string) : FsM (option QuarantineEntry) := _ ← valid_id id; load id.

(** Oldest first. *)
Definition entry_leb (a b : QuarantineEntry) : bool :=
  (qe_quarantined_at_ms a <? qe_quarantined_at_ms b)
  || ((qe_quarantined_at_ms a =? qe_quarantined_at_ms b) && String.leb (qe_id a) (qe_id b)).
Fixpoint list_loop (names : list string) : FsM (list QuarantineEntry) :=
  match names with
  | [] => mret []
  | name :: names =>
      _ ← fs_item;
      match strip_suffix ".json" name with
      | Some id =>
          if negb (is_sha256_hex id) then list_loop names else
          entry ← load id; entries ← list_loop names;
          mret (match entry with Some entry => entry :: entries | None => entries end)
      | None => list_loop names
      end
  end.
Definition list_entries : FsM (list QuarantineEntry) :=
  names ← fs_read_dir InDir; entries ← list_loop names; mret (sort_by entry_leb entries).

(** [usage]: entries and bytes held. *)
Definition usage : FsM (nat * Z) := entries ← list_entries; mret (length entries, sum_u64 (qe_bytes <$> entries)).

(** [enqueue]: queue [id] for the bucket mirror. *)
Definition enqueue (id : string) (now_ms : Z) : FsM unit :=
  queued ← fs_exists (InOutbox, id);
  if (queued : bool) then mret tt else
  write_rename (InOutbox, "." +:+ id +:+ ".tmp") (InOutbox, id) (i64_to_string now_ms).
Definition enqueue_mirror (id : string) (now_ms : Z) : FsM unit := _ ← valid_id id; enqueue id now_ms.

Definition remove_local (id : string) : FsM unit :=
  _ ← valid_id id; _ ← fs_remove (entry_path id); _ ← fs_remove (data_path id); mret tt.

(** [enforce_cap]: evict the oldest entries, never [keep], while over the cap. *)
Fixpoint enforce_loop (keep : option string) (entries : list QuarantineEntry) (total : Z) (evicted : nat) : FsM nat :=
  match entries with
  | [] => mret evicted
  | entry :: entries =>
      if total <=? q_max_bytes self then mret evicted else
      if bool_decide (Some (qe_id entry) = keep) then enforce_loop keep entries total evicted else
      _ ← remove_local (qe_id entry);
      enforce_loop keep entries (sat_u64 (total - qe_bytes entry)) (S evicted)
  end.
Definition enforce_cap (keep : option string) : FsM nat :=
  entries ← list_entries; enforce_loop keep entries (sum_u64 (qe_bytes <$> entries)) 0.

(** [chars().take(n)] *)
Definition take_chars (n : nat) (s : string) : string := concat_str (take n (chars s)).
Definition clean_detail (detail : string) : string :=
  concat_str (take 480 (List.filter (fun c => negb (is_control c)) (chars detail))).

(** The entry a first refusal is kept with, and the one a refused replay updates. *)
Definition new_entry (id : string) (refusal : Refusal) (bytes now_ms : Z) : QuarantineEntry := {|
  qe_kind := ENTRY_KIND; qe_tenant_id := q_tenant self; qe_id := id; qe_source_key := take_chars 1024 (rf_source_key refusal);
  qe_source_version := take_chars 256 (rf_source_version refusal); qe_scope := rf_scope refusal; qe_reason := rf_reason refusal;
  qe_detail := clean_detail (rf_detail refusal); qe_rows_rejected := rf_rows_rejected refusal; qe_bytes := bytes; qe_quarantined_at_ms := now_ms;
  qe_expires_at_ms := sat_i64 (now_ms + QUARANTINE_TTL_MS); qe_refusals := 1; qe_replay_requested_at_ms := None |}.
Definition refused_again (refusal : Refusal) (e : QuarantineEntry) : QuarantineEntry := {|
  qe_kind := qe_kind e; qe_tenant_id := qe_tenant_id e; qe_id := qe_id e; qe_source_key := qe_source_key e; qe_source_version := qe_source_version e;
  qe_scope := qe_scope e; qe_reason := rf_reason refusal; qe_detail := clean_detail (rf_detail refusal); qe_rows_rejected := qe_rows_rejected e;
  qe_bytes := qe_bytes e; qe_quarantined_at_ms := qe_quarantined_at_ms e; qe_expires_at_ms := qe_expires_at_ms e;
  qe_refusals := Z.min u32_max (qe_refusals e + 1); qe_replay_requested_at_ms := None |}.
Definition set_replay (at_ms : option Z) (e : QuarantineEntry) : QuarantineEntry := {|
  qe_kind := qe_kind e; qe_tenant_id := qe_tenant_id e; qe_id := qe_id e; qe_source_key := qe_source_key e; qe_source_version := qe_source_version e;
  qe_scope := qe_scope e; qe_reason := qe_reason e; qe_detail := qe_detail e; qe_rows_rejected := qe_rows_rejected e; qe_bytes := qe_bytes e;
  qe_quarantined_at_ms := qe_quarantined_at_ms e; qe_expires_at_ms := qe_expires_at_ms e; qe_refusals := qe_refusals e;
  qe_replay_requested_at_ms := at_ms |}.

(** [keep]: [file] is the contents of the refused object's file. *)
Definition keep (file id : string) (refusal : Refusal) (now_ms : Z) : FsM Kept :=
  _ ← valid_id id;
  bytes ← fs_call (mret (str_len file));
  if q_max_object_bytes self <? bytes then mret KeptTooLarge else
  kept ← load id;
  match kept with
  | Some entry =>
      _ ← store (refused_again refusal entry); _ ← enqueue id now_ms; mret KeptAgain
  | None =>
      _ ← write_rename (InDir, "." +:+ id +:+ ".parquet.tmp") (data_path id) file;
      _ ← store (new_entry id refusal bytes now_ms);
      _ ← enqueue id now_ms;
      _ ← enforce_cap (Some id);
      mret KeptNew
  end.

(** [request_replay] *)
Definition request_replay (tenant id : string) (now_ms : Z) : FsM QuarantineEntry :=
  if negb (bool_decide (tenant = q_tenant self)) then eff_fail (QReplay ReplayCrossTenant) else
  if negb (is_sha256_hex id) then eff_fail (QReplay ReplayInvalidId) else
  found ← load id;
  match found with
  | None => eff_fail (QReplay ReplayNotFound)
  | Some entry =>
      there ← fs_exists (data_path id);
      if negb (there : bool) then eff_fail (QReplay ReplayNotFound) else
      let entry := set_replay (Some (default now_ms (qe_replay_requested_at_ms entry))) entry in
      _ ← store entry; _ ← enqueue id now_ms; mret entry
  end.

(** [next_replay]: the first of the least by request time, then age. *)
Definition replay_before (a b : QuarantineEntry) : bool :=
  match qe_replay_requested_at_ms a, qe_replay_requested_at_ms b with
  | Some x, Some y => (x <? y) || ((x =? y) && (qe_quarantined_at_ms a <? qe_quarantined_at_ms b))
  | None, Some _ => true
  | None, None => qe_quarantined_at_ms a <? qe_quarantined_at_ms b
  | Some _, None => false
  end.
Fixpoint first_least (l : list QuarantineEntry) : option QuarantineEntry :=
  match l with
  | [] => None
  | x :: l => match first_least l with Some y => Some (if replay_before y x then y else x) | None => Some x end
  end.
Definition next_replay : FsM (option QuarantineEntry) :=
  entries ← list_entries; mret (first_least (List.filter (fun e => is_some (qe_replay_requested_at_ms e)) entries)).

Definition clear_replay (id : string) (now_ms : Z) : FsM unit :=
  found ← load id;
  match found with
  | Some entry =>
      if is_some (qe_replay_requested_at_ms entry) then _ ← store (set_replay None entry); enqueue id now_ms else mret tt
  | None => mret tt
  end.

(** The time a tombstone's text holds; unreadable text counts as the latest time. *)
Definition released_value (body : string) : Z := default i64_max (parse_i64 (trim body)).
Definition released_at (id : string) : FsM (option Z) :=
  _ ← valid_id id; body ← fs_read_to_string (InReleased, id); mret (released_value <$> body).
Definition tombstone (id : string) (at_ms : Z) : FsM unit :=
  _ ← valid_id id;
  kept ← released_at id;
  if (match kept with Some kept => kept <=? at_ms | None => false end) then mret tt else
  write_rename (InReleased, "." +:+ id +:+ ".tmp") (InReleased, id) (i64_to_string at_ms).

Definition release (id : string) (now_ms : Z) : FsM unit :=
  _ ← tombstone id now_ms; _ ← remove_local id; enqueue id now_ms.

(** ** Sweep *)

(** [young]: [modified] is the modification time of a name, when it can be read. *)
Definition young (modified : string -> option Z) (name : string) (now_ms : Z) : bool :=
  match modified name with Some at_ms => sat_i64 (now_ms - at_ms) <? IMPORT_STAGING_MAX_AGE_MS | None => true end.

Fixpoint sweep_expired (entries : list QuarantineEntry) (now_ms : Z) (dropped : nat) : FsM nat :=
  match entries with
  | [] => mret dropped
  | entry :: entries =>
      if qe_expires_at_ms entry <=? now_ms then _ ← remove_local (qe_id entry); sweep_expired entries now_ms (S dropped)
      else sweep_expired entries now_ms dropped
  end.
(** One name of the directory: staging files and bytes without an entry go. *)
Definition sweep_name (modified : string -> option Z) (now_ms : Z) (name : string) : FsM unit :=
  _ ← fs_item;
  orphan ← match strip_suffix ".parquet" name with
           | Some id => there ← fs_exists (entry_path id); mret (negb there)
           | None => mret false
           end;
  if starts_with ".import-" name && young modified name now_ms then mret tt else
  if starts_with "." name || (orphan : bool) then eff_ignore (fs_remove (InDir, name)) else mret tt.
(** One tombstone. *)
Definition sweep_released (now_ms : Z) (name : string) : FsM unit :=
  _ ← fs_item;
  expired ← (if is_sha256_hex name then
               at_ms ← released_at name;
               mret (match at_ms with Some at_ms => negb (at_ms =? i64_max) && (sat_i64 (at_ms + QUARANTINE_TTL_MS) <=? now_ms) | None => false end)
             else mret false);
  if (expired : bool) || starts_with "." name then eff_ignore (fs_remove (InReleased, name)) else mret tt.
Definition sweep (modified : string -> option Z) (now_ms : Z) : FsM nat :=
  entries ← list_entries;
  dropped ← sweep_expired entries now_ms 0;
  names ← fs_read_dir InDir;
  _ ← eff_for names (sweep_name modified now_ms);
  tombstones ← fs_read_dir InReleased;
  _ ← eff_for tombstones (sweep_released now_ms);
  evicted ← enforce_cap None;
  mret (dropped + evicted)%nat.

(** ** The mirror's outbox and the restore marker *)

Fixpoint outbox_loop (names : list string) : FsM (list (string * Z)) :=
  match names with
  | [] => mret []
  | id :: names =>
      _ ← fs_item;
      if negb (is_sha256_hex id) then outbox_loop names else
      body ← (fun d => let '(d, r) := fs_read_to_string (InOutbox, id) d in (d, Ok (match r with Ok b => b | Err _ => None end)));
      rest ← outbox_loop names;
      mret ((id, default 0 (b ← body; parse_i64 (trim b))) :: rest)
  end.
Definition queued_leb (a b : string * Z) : bool := (a.2 <? b.2) || ((a.2 =? b.2) && String.leb a.1 b.1).
Definition outbox : FsM (list (string * Z)) :=
  names ← fs_read_dir InOutbox; queued ← outbox_loop names; mret (sort_by queued_leb queued).
Definition outbox_done (id : string) : FsM unit := _ ← valid_id id; _ ← fs_remove (InOutbox, id); mret tt.

(** [data_file]: the length of the kept bytes. *)
Definition data_file (id : string) : FsM (option Z) := _ ← valid_id id; fs_len (data_path id).
(** [file_digest]: length and SHA-256 of a file. *)
Definition file_digest (p : Path) : FsM (Z * string) :=
  body ← fs_read p; match body with Some b => mret (str_len b, sha256_hex b) | None => eff_fail QIo end.

Definition adopt (entry : QuarantineEntry) (staged : Path) : FsM unit :=
  _ ← eff_lift (ensure (bool_decide (qe_tenant_id entry = q_tenant self) && is_sha256_hex (qe_id entry)) QScope);
  _ ← fs_sync staged; _ ← fs_rename staged (data_path (qe_id entry)); store entry.

Definition needs_restore : FsM bool := there ← fs_exists marker_path; mret (negb there).
Definition marker_body (low_water_ms : option Z) : string :=
  match low_water_ms with None => "1" | Some low => "low_water_ms=" +:+ i64_to_string low end.
Definition mark_restored (low_water_ms : option Z) : FsM unit :=
  write_rename (InDir, "." +:+ RESTORED_MARKER +:+ ".tmp") marker_path (marker_body low_water_ms).
Definition low_water (body : string) : option Z :=
  low ← strip_prefix "low_water_ms=" (trim body); Some (default i64_max (parse_i64 low)).
Definition restore_low_water_ms : FsM (option Z) := body ← fs_read_to_string marker_path; mret (b ← body; low_water b).

(** ** Import *)

Section import.
Context (entry : QuarantineEntry) (staged : Path) (now_ms : Z).
Definition refused {A} (reason : ImportRefused) : FsM A := _ ← eff_ignore (fs_remove staged); eff_fail (QImport reason).

(** An id that is kept already. *)
Definition import_kept : FsM Imported :=
  data ← data_file (qe_id entry);
  match data with
  | Some _ =>
      '(_, digest) ← file_digest (data_path (qe_id entry));
      if bool_decide (digest = qe_id entry) then _ ← eff_ignore (fs_remove staged); mret ImportedExists else refused Conflict
  | None => refused Conflict
  end.
(** An id that is not kept: the caps, then the move. *)
Definition import_new (bytes : Z) : FsM Imported :=
  '(entries, used) ← usage;
  if (MAX_IMPORTED_ENTRIES <? entries + 1)%nat then refused TooManyEntries else
  if q_max_bytes self <? sat_u64 (used + bytes) then refused OverCap else
  let entry := set_replay None entry in
  _ ← adopt entry staged; _ ← enqueue_mirror (qe_id entry) now_ms; mret ImportedNew.
(** The checks of the bytes and the entry itself. *)
Definition import_bytes : FsM Imported :=
  '(bytes, digest) ← file_digest staged;
  if negb (bool_decide (digest = qe_id entry)) then refused Digest else
  if negb (bytes =? qe_bytes entry) then refused Size else
  if qe_expires_at_ms entry <=? now_ms then refused Expired else
  if q_max_object_bytes self <? bytes then refused ObjectTooLarge else
  kept ← get (qe_id entry);
  if is_some kept then import_kept else import_new bytes.
Definition import : FsM Imported :=
  if negb (bool_decide (qe_tenant_id entry = q_tenant self)) then refused CrossTenant else
  if negb (bool_decide (qe_kind entry = ENTRY_KIND)) || negb (is_sha256_hex (qe_id entry)) then refused Malformed else
  pending ← needs_restore;
  if (pending : bool) then refused RestorePending else
  at_ms ← released_at (qe_id entry);
  if is_some at_ms then refused Released else
  low ← restore_low_water_ms;
  if (match low with Some low => qe_quarantined_at_ms entry <? sat_i64 (low + RECORD_SKEW_MS) | None => false end) then refused BeyondRestoreBound else
  import_bytes.
End import.
End self.
End operations.
