(* ===== verification/QuarantineFacts.v ===== *)
(** * QuarantineFacts: reasoning about the quarantine directory

    Which files a computation of [Quarantine] can change ([touches]), what it reads ([reads]),
    what it has done when it succeeds ([does]), and the entries of a directory as a function of
    its files ([entries_in]). *)
From S2P Require Import Prelude Platform Format PartTypes Utf8 Quarantine.

(** ** The files a computation can change *)

Definition touches {A} (T : Path -> Prop) (m : Eff Disk A) : Prop :=
  forall d p, ~ T p -> d_files (m d).1 !! p = d_files d !! p.

Section touches.
Context (T : Path -> Prop).

Lemma touches_ret {A} (a : A) : touches T (mret a).
Proof. done. Qed.
Lemma touches_fail {A} e : touches T (@eff_fail Disk A e).
Proof. done. Qed.
Lemma touches_lift {A} r : touches T (@eff_lift Disk A r).
Proof. done. Qed.
Lemma touches_bind {A B} (m : Eff Disk A) (k : A -> Eff Disk B) : touches T m -> (forall a, touches T (k a)) -> touches T (m ≫= k).
Proof.
  intros Hm Hk d p Hp. specialize (Hm d p Hp). unfold mbind, Eff_bind. destruct (m d) as [d' [a|e]]; [|done]. cbn in Hm. by rewrite Hk.
Qed.
Lemma touches_ignore {A} (m : Eff Disk A) : touches T m -> touches T (eff_ignore m).
Proof. intros Hm d p Hp. by apply Hm. Qed.
Lemma touches_for {X} (l : list X) body : (forall x, x ∈ l -> touches T (body x)) -> touches T (eff_for l body).
Proof.
  induction l as [|x l IH]; intros Hb; [apply touches_ret|]. cbn. apply touches_bind; [apply Hb; set_solver|].
  intros _. apply IH. set_solver.
Qed.
Lemma touches_fault : touches T next_fault.
Proof. intros d p _. unfold next_fault. by destruct (d_faults d). Qed.
Lemma touches_files : touches T fs_files.
Proof. done. Qed.
Lemma touches_update f : (forall m p, ~ T p -> f m !! p = m !! p) -> touches T (fs_update f).
Proof. intros Hf d p Hp. by apply Hf. Qed.
Lemma touches_call {A} (m : Eff Disk A) : touches T m -> touches T (fs_call m).
Proof. intros Hm. apply touches_bind; [apply touches_fault|]. by intros []. Qed.
End touches.

Create HintDb touch.
#[export] Hint Resolve touches_ret touches_fail touches_lift touches_fault touches_files : touch.

(** Walk a computation; what is left is that the paths it writes are among [T]. *)
Ltac touch_step :=
  match goal with
  | |- touches _ (_ ≫= _) => apply touches_bind; [|intros ?]
  | |- touches _ (eff_ignore _) => apply touches_ignore
  | |- touches _ (fs_call _) => apply touches_call
  | |- touches _ (match ?x with _ => _ end) => destruct x
  | |- touches _ (let '(_, _) := ?x in _) => destruct x
  | |- touches _ _ => solve [eauto with touch]
  end.
Ltac touch := repeat (touch_step; cbn beta iota zeta).

Section syscalls.
Context (T : Path -> Prop).
Lemma touches_read p : touches T (fs_read p).
Proof. unfold fs_read. touch. Qed.
Lemma touches_exists p : touches T (fs_exists p).
Proof. unfold fs_exists. touch. Qed.
Lemma touches_len p : touches T (fs_len p).
Proof. unfold fs_len. touch. Qed.
Lemma touches_sync p : touches T (fs_sync p).
Proof. unfold fs_sync. touch. Qed.
Lemma touches_item : touches T fs_item.
Proof. unfold fs_item. touch. Qed.
Lemma touches_read_dir `{DirOrder} f : touches T (fs_read_dir f).
Proof. unfold fs_read_dir. touch. Qed.
#[local] Hint Resolve touches_read : touch.
Lemma touches_read_to_string p : touches T (fs_read_to_string p).
Proof. unfold fs_read_to_string. touch. Qed.
Lemma touches_write p b : T p -> touches T (fs_write p b).
Proof.
  intros Hp. unfold fs_write. touch; apply touches_update; intros m q Hq; apply lookup_insert_ne; intros ->; contradiction.
Qed.
Lemma touches_rename p q : T p -> T q -> touches T (fs_rename p q).
Proof.
  intros Hp Hq. unfold fs_rename. touch. apply touches_update. intros m r Hr.
  rewrite lookup_insert_ne, lookup_delete_ne; [done|..]; intros ->; contradiction.
Qed.
Lemma touches_remove p : T p -> touches T (fs_remove p).
Proof.
  intros Hp. unfold fs_remove. touch. apply touches_update. intros m r Hr. apply lookup_delete_ne. intros ->; contradiction.
Qed.
Lemma touches_write_rename p q b : T p -> T q -> touches T (write_rename p q b).
Proof. intros. unfold write_rename. touch; auto using touches_write, touches_sync, touches_rename. Qed.
End syscalls.
#[export] Hint Resolve touches_read touches_exists touches_len touches_sync touches_item touches_read_dir touches_read_to_string
  touches_write touches_rename touches_remove touches_write_rename : touch.

Section operations.
Context `{P : Platform} `{C : EntryCodec} `{D : DirOrder} (self : Quarantine).
Implicit Types (id name : string) (e : QuarantineEntry) (T : Path -> Prop).

(** Reads touch nothing. *)
Lemma touches_load T id : touches T (load self id).
Proof. unfold load. touch. Qed.
#[local] Hint Resolve touches_load : touch.
Lemma touches_valid_id T id : touches T (valid_id id).
Proof. unfold valid_id. touch. Qed.
#[local] Hint Resolve touches_valid_id : touch.
Lemma touches_list_loop T names : touches T (list_loop self names).
Proof. induction names as [|name names IH]; cbn; touch. Qed.
#[local] Hint Resolve touches_list_loop : touch.
Lemma touches_list_entries T : touches T (list_entries self).
Proof. unfold list_entries. touch. Qed.
#[local] Hint Resolve touches_list_entries : touch.
Lemma touches_released_at T id : touches T (released_at id).
Proof. unfold released_at. touch. Qed.
Lemma touches_file_digest T p : touches T (file_digest p).
Proof. unfold file_digest. touch. Qed.
#[local] Hint Resolve touches_released_at touches_file_digest : touch.

(** The entry files. *)
Definition is_entry_file (p : Path) : Prop := exists id, is_sha256_hex id = true /\ p = entry_path id.
(** Everything outside [released/]. *)
Definition outside_released (p : Path) : Prop := p.1 <> InReleased.

Lemma touches_store T e : T (InDir, "." +:+ qe_id e +:+ ".json.tmp") -> T (entry_path (qe_id e)) -> touches T (store e).
Proof. intros. unfold store. touch. Qed.
Lemma touches_enqueue T id now : T (InOutbox, "." +:+ id +:+ ".tmp") -> T (InOutbox, id) -> touches T (enqueue id now).
Proof. intros. unfold enqueue. touch. Qed.
Lemma touches_remove_local T id : T (entry_path id) -> T (data_path id) -> touches T (remove_local id).
Proof. intros. unfold remove_local. touch. Qed.
Lemma touches_adopt T e staged :
  T staged -> T (data_path (qe_id e)) -> T (InDir, "." +:+ qe_id e +:+ ".json.tmp") -> T (entry_path (qe_id e)) -> touches T (adopt self e staged).
Proof. intros. unfold adopt. touch; auto using touches_store. Qed.
Lemma touches_tombstone T id at_ms : T (InReleased, "." +:+ id +:+ ".tmp") -> T (InReleased, id) -> touches T (tombstone id at_ms).
Proof. intros. unfold tombstone. touch. Qed.

#[local] Hint Resolve touches_store touches_enqueue touches_remove_local touches_adopt touches_tombstone : touch.
#[local] Hint Extern 1 (outside_released _) => discriminate : touch.

Lemma touches_enforce_loop T keep entries total n :
  (forall id, T (entry_path id)) -> (forall id, T (data_path id)) -> touches T (enforce_loop self keep entries total n).
Proof. intros He Hd. revert total n. induction entries as [|e entries IH]; intros total n; cbn; touch. Qed.
Lemma touches_enforce_cap T keep : (forall id, T (entry_path id)) -> (forall id, T (data_path id)) -> touches T (enforce_cap self keep).
Proof. intros. unfold enforce_cap. touch. by apply touches_enforce_loop. Qed.
Lemma touches_sweep_expired T entries now n :
  (forall id, T (entry_path id)) -> (forall id, T (data_path id)) -> touches T (sweep_expired entries now n).
Proof. intros He Hd. revert n. induction entries as [|e entries IH]; intros n; cbn; touch. Qed.
Lemma touches_sweep_name T modified now name : T (InDir, name) -> touches T (sweep_name modified now name).
Proof. intros. unfold sweep_name. touch. Qed.

Lemma keep_outside file id refusal now : touches outside_released (keep self file id refusal now).
Proof. unfold keep. touch. apply touches_enforce_cap; discriminate. Qed.
Lemma request_replay_outside tenant id now : touches outside_released (request_replay self tenant id now).
Proof. unfold request_replay. touch. Qed.
Lemma clear_replay_outside id now : touches outside_released (clear_replay self id now).
Proof. unfold clear_replay. touch. Qed.
Lemma import_outside e staged now : staged.1 <> InReleased -> touches outside_released (import self e staged now).
Proof.
  intros Hs. assert (outside_released staged) as Hs' by done.
  unfold import, needs_restore, restore_low_water_ms, import_bytes, import_kept, import_new, refused, get, usage, data_file, enqueue_mirror. touch.
Qed.
End operations.
#[export] Hint Resolve touches_load touches_valid_id touches_list_entries touches_released_at touches_file_digest touches_store touches_enqueue
  touches_remove_local touches_adopt touches_tombstone : touch.
#[export] Hint Extern 1 (outside_released _) => discriminate : touch.

(** ** Results of the reads *)

Lemma Eff_bind_ok {S A B} (m : Eff S A) (k : A -> Eff S B) s s' b :
  (m ≫= k) s = (s', Ok b) -> exists s1 a, m s = (s1, Ok a) /\ k a s1 = (s', Ok b).
Proof. unfold mbind, Eff_bind. destruct (m s) as [s1 [a|e]]; [by exists s1, a|done]. Qed.

(** A computation that only reads: its result is [f] of the files. *)
Definition reads {A} (m : Eff Disk A) (f : Files -> A -> Prop) : Prop :=
  forall d d' r, m d = (d', r) -> d_files d' = d_files d /\ (forall a, r = Ok a -> f (d_files d) a).

Lemma reads_ret {A} (a : A) (f : Files -> A -> Prop) : (forall m, f m a) -> reads (mret a) f.
Proof. intros Hf d d' r [= <- <-]. split; [done|]. intros b Hb. injection Hb as <-. apply Hf. Qed.
Lemma reads_bind {A B} (m : Eff Disk A) (k : A -> Eff Disk B) f g :
  reads m f -> (forall a, reads (k a) (fun files b => f files a -> g files b)) -> reads (m ≫= k) g.
Proof.
  intros Hm Hk d d' r. unfold mbind, Eff_bind. destruct (m d) as [d1 [a|e]] eqn:Em; apply Hm in Em as [E1 Ha].
  - intros (E2 & Hb)%Hk. rewrite E1 in *. split; [done|]. intros b ->. by apply Hb; [|apply Ha].
  - intros [= <- <-]. by split.
Qed.
Lemma reads_fail {A} e f : reads (@eff_fail Disk A e) f.
Proof. by intros d d' r [= <- <-]. Qed.
Lemma reads_mono {A} (m : Eff Disk A) (f g : Files -> A -> Prop) : reads m f -> (forall files a, f files a -> g files a) -> reads m g.
Proof. intros Hm Hfg d d' r [E Ha]%Hm. split; [done|]. intros a Hr. apply Hfg. by apply Ha. Qed.
Lemma reads_fault : reads next_fault (fun _ _ => True).
Proof. intros d d' r. unfold next_fault. destruct (d_faults d); by intros [= <- <-]. Qed.
Lemma reads_files : reads fs_files (fun files a => a = files).
Proof. intros d d' r E. injection E as <- <-. split; [done|]. intros a Ha. by injection Ha. Qed.
Lemma reads_call {A} (m : Eff Disk A) f : reads m f -> reads (fs_call m) f.
Proof. intros Hm. eapply reads_bind; [apply reads_fault|]. intros [| |]; try apply reads_fail. by eapply reads_mono. Qed.

Lemma reads_look {A} (g : Files -> A) : reads (m ← fs_files; mret (g m)) (fun files a => a = g files).
Proof. eapply reads_bind; [apply reads_files|]. intros m. apply reads_ret. by intros ? ->. Qed.
Lemma reads_read p : reads (fs_read p) (fun files a => a = files !! p).
Proof. apply reads_call, (reads_look (fun m => m !! p)). Qed.
Lemma reads_len p : reads (fs_len p) (fun files a => a = str_len <$> files !! p).
Proof. apply reads_call, (reads_look (fun m => str_len <$> m !! p)). Qed.
Lemma reads_read_dir `{DirOrder} f : reads (fs_read_dir f) (fun files a => a = dir_order files f).
Proof. apply reads_call, (reads_look (fun m => dir_order m f)). Qed.
Lemma reads_item : reads fs_item (fun _ _ => True).
Proof. apply reads_call. by apply reads_ret. Qed.
(** A name that is reported is there; a call that failed reports nothing. *)
Lemma reads_exists p : reads (fs_exists p) (fun files a => a = true -> is_Some (files !! p)).
Proof.
  eapply reads_bind; [apply reads_fault|]. intros x. eapply reads_bind; [apply reads_files|]. intros m. apply reads_ret. intros files -> _.
  destruct x; [|done..]. by intros ?%is_some_spec.
Qed.
Lemma reads_valid_id id : reads (valid_id id) (fun _ _ => is_sha256_hex id = true).
Proof. unfold valid_id, eff_lift, ensure. destruct (is_sha256_hex id); intros d d' r [= <- <-]; (split; [done|]); by intros ? [=]. Qed.
Lemma reads_read_to_string p : reads (fs_read_to_string p) (fun files a => a = files !! p).
Proof.
  eapply reads_bind; [apply reads_read|]. intros [b|]; [|by apply reads_ret]. cbn. destruct (valid_utf8 b); [by apply reads_ret|apply reads_fail].
Qed.

Section released.
Context `{P : Platform} `{C : EntryCodec} `{D : DirOrder} (self : Quarantine).

Lemma reads_released_at id : reads (released_at id) (fun files a => a = released_value <$> files !! (InReleased, id)).
Proof.
  eapply reads_bind; [apply reads_valid_id|]. intros []. eapply reads_bind; [apply reads_read_to_string|]. intros o. apply reads_ret. by intros ? -> _.
Qed.

(** A later release keeps the first one's time. *)
Lemma tombstone_keeps id at_ms c d :
  d_files d !! (InReleased, id) = Some c -> released_value c <= at_ms -> d_files (tombstone id at_ms d).1 !! (InReleased, id) = Some c.
Proof.
  intros Hc Hle. unfold tombstone, mbind, Eff_bind. destruct (valid_id id d) as [d1 [u|e]] eqn:E1; apply reads_valid_id in E1 as [F1 _]; cbn; [|by rewrite F1].
  destruct (released_at id d1) as [d2 [o|e]] eqn:E2; apply reads_released_at in E2 as [F2 Ho]; cbn; [|by rewrite F2, F1].
  rewrite (Ho o eq_refl), F1, Hc. cbn. rewrite (proj2 (Z.leb_le _ _) Hle). cbn. by rewrite F2, F1.
Qed.

(** A sweep drops a tombstone only when its time is over. *)
Lemma sweep_released_keeps now name id c d :
  is_sha256_hex id = true -> d_files d !! (InReleased, id) = Some c ->
  d_files (sweep_released now name d).1 !! (InReleased, id) = Some c \/ sat_i64 (released_value c + QUARANTINE_TTL_MS) <= now.
Proof.
  intros Hid Hc. destruct (decide (name = id)) as [->|Hne].
  - unfold sweep_released, mbind, Eff_bind. destruct (fs_item d) as [d1 [u|e]] eqn:E1; apply reads_item in E1 as [F1 _]; cbn; [|left; by rewrite F1].
    rewrite Hid. destruct (released_at id d1) as [d2 [o|e]] eqn:E2; apply reads_released_at in E2 as [F2 Ho]; cbn; [|left; by rewrite F2, F1].
    rewrite (Ho o eq_refl), F1, Hc. cbn. assert (starts_with "." id = false) as ->.
    { apply not_true_iff_false. intros [r ->]%starts_with_spec. unfold is_sha256_hex in Hid. apply andb_true_iff in Hid as [_ Hd]. discriminate Hd. }
    rewrite orb_false_r. destruct (_ && _) eqn:Ee; [|left; cbn; by rewrite F2, F1]. right. apply andb_true_iff in Ee as [_ ?]. lia.
  - assert (touches (fun p => p = (InReleased, name)) (sweep_released now name)) as Ht
      by (unfold sweep_released; touch; apply touches_released_at).
    left. rewrite <- Hc. apply Ht. congruence.
Qed.

Lemma sweep_released_loop now names id c d :
  is_sha256_hex id = true -> d_files d !! (InReleased, id) = Some c ->
  d_files (eff_for names (sweep_released now) d).1 !! (InReleased, id) = Some c \/ sat_i64 (released_value c + QUARANTINE_TTL_MS) <= now.
Proof.
  intros Hid. revert d. induction names as [|name names IH]; intros d Hc; [by left|]. cbn. unfold mbind, Eff_bind.
  destruct (sweep_released_keeps now name id c d Hid Hc) as [H1|]; [|by right].
  destruct (sweep_released now name d) as [d1 [u|e]]; [by apply IH|by left].
Qed.
End released.

(** ** The entries of a directory *)

(** What a computation does when it succeeds. *)
Definition does {A} (m : Eff Disk A) (Q : Files -> Files -> A -> Prop) : Prop :=
  forall d d' a, m d = (d', Ok a) -> Q (d_files d) (d_files d') a.

Lemma does_bind {A B} (m : Eff Disk A) (k : A -> Eff Disk B) (Q : Files -> Files -> B -> Prop) (R : Files -> Files -> A -> Prop) :
  does m R -> (forall f0 a, does (k a) (fun f1 f2 b => R f0 f1 a -> Q f0 f2 b)) -> does (m ≫= k) Q.
Proof. intros Hm Hk d d' b (d1 & a & E1 & E2)%Eff_bind_ok. apply (Hk (d_files d) a _ _ _ E2). by apply Hm. Qed.
Lemma does_mono {A} (m : Eff Disk A) (Q Q' : Files -> Files -> A -> Prop) : does m Q -> (forall f f' a, Q f f' a -> Q' f f' a) -> does m Q'.
Proof. intros Hm HQ d d' a E. by apply HQ, Hm. Qed.
Lemma does_reads {A} (m : Eff Disk A) f : reads m f -> does m (fun f0 f1 a => f1 = f0 /\ f f0 a).
Proof. intros Hm d d' a [E Ha]%Hm. split; [done|by apply Ha]. Qed.
Lemma does_ret {A} (a : A) Q : (forall f, Q f f a) -> does (mret a) Q.
Proof. intros HQ d d' b [= <- <-]. apply HQ. Qed.
Lemma does_touches {A} T (m : Eff Disk A) : touches T m -> does m (fun f0 f1 _ => forall p, ~ T p -> f1 !! p = f0 !! p).
Proof. intros Hm d d' a E p Hp. specialize (Hm d p Hp). by rewrite E in Hm. Qed.
Lemma does_remove p : does (fs_remove p) (fun f0 f1 _ => f1 = delete p f0).
Proof.
  unfold fs_remove, fs_call. intros d d' a (d1 & x & E1 & E2)%Eff_bind_ok. apply reads_fault in E1 as [<- _]. destruct x; [|done..].
  apply Eff_bind_ok in E2 as (d2 & m & [= <- <-] & E). destruct (is_some _) eqn:Es.
  - apply Eff_bind_ok in E as (d3 & u & [= <- <-] & [= <- <-]). done.
  - injection E as <- <-. apply is_some_false in Es. by rewrite delete_id.
Qed.

Lemma does_write p b : does (fs_write p b) (fun f0 f1 _ => f1 = <[p := b]> f0).
Proof.
  unfold fs_write. intros d d' a (d1 & x & E1 & E2)%Eff_bind_ok. apply reads_fault in E1 as [<- _]. destruct x; [by injection E2 as <- <-|done|].
  by apply Eff_bind_ok in E2 as (d2 & u & _ & [=]).
Qed.
Lemma does_rename p q : does (fs_rename p q) (fun f0 f1 _ => exists b, f0 !! p = Some b /\ f1 = <[q := b]> (delete p f0)).
Proof.
  unfold fs_rename, fs_call. intros d d' a (d1 & x & E1 & E2)%Eff_bind_ok. apply reads_fault in E1 as [<- _]. destruct x; [|done..].
  apply Eff_bind_ok in E2 as (d2 & m & [= <- <-] & E). destruct (d_files d1 !! p) as [b|] eqn:Eb; [|done]. injection E as <- <-. by exists b.
Qed.
Lemma reads_sync p : reads (fs_sync p) (fun files _ => is_Some (files !! p)).
Proof.
  apply reads_call. eapply reads_bind; [apply reads_files|]. intros m. cbn. destruct (is_some _) eqn:E; [|apply reads_fail]. apply reads_ret. intros f ->.
  by apply is_some_spec.
Qed.
Lemma does_write_rename s t b :
  s <> t -> does (write_rename s t b) (fun f0 f1 _ => f1 !! t = Some b /\ forall p, p <> s -> p <> t -> f1 !! p = f0 !! p).
Proof.
  intros Hne. eapply does_bind; [apply does_write|]. intros f []. eapply does_bind; [apply does_reads, reads_sync|]. intros f' [].
  eapply does_mono; [apply does_rename|]. cbn. intros f1 f2 u (b' & Hb & ->) [-> _] ->. rewrite lookup_insert_eq in Hb. injection Hb as <-.
  rewrite lookup_insert_eq. split; [done|]. intros p H1 H2. by rewrite lookup_insert_ne, lookup_delete_ne, lookup_insert_ne.
Qed.

(** The bytes moved in are the bytes written. *)
Lemma write_rename_lands s t b d p : p <> s -> d_files (write_rename s t b d).1 !! p = d_files d !! p \/ (p = t /\ d_files (write_rename s t b d).1 !! p = Some b).
Proof.
  intros Hp. unfold write_rename, mbind, Eff_bind. destruct (fs_write s b d) as [d1 [u|e]] eqn:E1; cbn.
  2: { left. change d1 with ((d1, Err (A := unit) e).1). rewrite <- E1. by apply (touches_write (fun q => q = s)). }
  apply does_write in E1. destruct (fs_sync s d1) as [d2 [v|e]] eqn:E2; apply reads_sync in E2 as [F2 _]; cbn.
  2: { left. by rewrite F2, E1, lookup_insert_ne. }
  destruct (fs_rename s t d2) as [d3 [w|e]] eqn:E3; cbn.
  - apply does_rename in E3 as (b' & Hb & ->). rewrite F2, E1 in *. rewrite lookup_insert_eq in Hb. injection Hb as <-.
    destruct (decide (t = p)) as [->|]; [right; split; [done|apply lookup_insert_eq]|left]. by rewrite lookup_insert_ne, lookup_delete_ne, lookup_insert_ne.
  - left. unfold fs_rename, fs_call, mbind, Eff_bind, next_fault in E3. destruct (d_faults d2) as [|[] fs]; cbn in E3; try (injection E3 as <- _; cbn; by rewrite F2, E1, lookup_insert_ne).
    all: destruct (d_files d2 !! s); [done|]; injection E3 as <- _; cbn; by rewrite F2, E1, lookup_insert_ne.
Qed.
Lemma NoDup_omap_inj {A B} (f : A -> option B) (l : list A) : (forall x y b, f x = Some b -> f y = Some b -> x = y) -> NoDup l -> NoDup (omap f l).
Proof.
  intros Hf. induction 1 as [|x l Hx Hl IH]; cbn; [constructor|]. destruct (f x) as [b|] eqn:E; [|done]. constructor; [|done].
  intros (y & Hy & Hb)%list_elem_of_omap. by rewrite (Hf x y b E Hb) in Hx.
Qed.
Lemma filter_all_id {A} (Q : A -> Prop) `{forall x, Decision (Q x)} (l : list A) : (forall x, x ∈ l -> Q x) -> filter Q l = l.
Proof.
  induction l as [|x l IH]; intros HQ; [done|]. rewrite filter_cons, decide_True by (apply HQ; set_solver). f_equal. apply IH. intros y Hy. apply HQ. set_solver.
Qed.
Lemma StronglySorted_filter_P {A} (R : A -> A -> Prop) (Q : A -> Prop) `{forall x, Decision (Q x)} l : StronglySorted R l -> StronglySorted R (filter Q l).
Proof.
  induction 1 as [|x l Hs IH Hx]; [constructor|]. rewrite filter_cons. destruct (decide _); [|done]. constructor; [done|].
  rewrite Forall_forall in *. intros y [_ Hy]%list_elem_of_filter. by apply Hx.
Qed.

Section entries.
Context `{P : Platform} `{C : EntryCodec} `{D : DirOrder} `{DL : !DirOrderLaws D} (self : Quarantine).
Implicit Types (id name : string) (e : QuarantineEntry) (m : Files).

Definition entry_of m name : option QuarantineEntry :=
  id ← strip_suffix ".json" name; if is_sha256_hex id then b ← m !! entry_path id; decode_entry self id b else None.
(** The entries of the files, oldest first: what [list] returns. *)
Definition entries_in m : list QuarantineEntry := sort_by entry_leb (omap (entry_of m) (dir_order m InDir)).

Lemma reads_load id : reads (load self id) (fun files a => a = (b ← files !! entry_path id; decode_entry self id b)).
Proof. eapply reads_bind; [apply reads_read|]. intros o. apply reads_ret. by intros ? ->. Qed.
Lemma reads_list_loop names : reads (list_loop self names) (fun files l => l = omap (entry_of files) names).
Proof.
  induction names as [|name names IH]; cbn [list_loop omap list_omap]; [by apply reads_ret|].
  eapply reads_bind; [apply reads_item|]. intros []. unfold entry_of at 1. destruct (strip_suffix ".json" name) as [id|]; cbn; [|by eapply reads_mono].
  destruct (is_sha256_hex id); cbn; [|by eapply reads_mono]. eapply reads_bind; [apply reads_load|]. intros e. cbn. eapply reads_bind; [exact IH|].
  intros es. apply reads_ret. cbn. intros m -> <- _. by destruct e.
Qed.
Lemma reads_list_entries : reads (list_entries self) (fun files l => l = entries_in files).
Proof.
  eapply reads_bind; [apply reads_read_dir|]. intros names. eapply reads_bind; [apply reads_list_loop|]. intros es. apply reads_ret. by intros m -> ->.
Qed.

Lemma decode_entry_id id b e : decode_entry self id b = Some e -> qe_id e = id /\ qe_tenant_id e = q_tenant self /\ qe_kind e = ENTRY_KIND.
Proof.
  unfold decode_entry. intros (x & _ & E)%bind_Some. destruct (_ || _) eqn:Eb; [done|]. injection E as ->.
  rewrite !orb_false_iff, !negb_false_iff, !bool_decide_eq_true in Eb. by destruct Eb as [[? ?] ?].
Qed.
Lemma entry_of_spec m name e :
  entry_of m name = Some e <-> name = qe_id e +:+ ".json" /\ is_sha256_hex (qe_id e) = true
                               /\ exists b, m !! entry_path (qe_id e) = Some b /\ decode_entry self (qe_id e) b = Some e.
Proof.
  unfold entry_of. split.
  - intros (id & ->%strip_suffix_inv & E)%bind_Some. destruct (is_sha256_hex id) eqn:Hid; [|done].
    apply bind_Some in E as (b & Hb & Hd). pose proof (decode_entry_id id b e Hd) as (-> & _ & _). eauto.
  - intros (-> & Hid & b & Hb & Hd). rewrite strip_suffix_app. cbn. by rewrite Hid, Hb.
Qed.
Lemma elem_of_entries_in m e :
  e ∈ entries_in m <-> is_sha256_hex (qe_id e) = true /\ exists b, m !! entry_path (qe_id e) = Some b /\ decode_entry self (qe_id e) b = Some e.
Proof.
  unfold entries_in. rewrite elem_of_sort_by, list_elem_of_omap. split.
  - intros (name & _ & (_ & ? & ?)%entry_of_spec). done.
  - intros (Hid & b & Hb & Hd). exists (qe_id e +:+ ".json"). split; [|by apply entry_of_spec; eauto]. apply dir_order_names. by eexists.
Qed.
Lemma entries_in_inj m e e' : e ∈ entries_in m -> e' ∈ entries_in m -> qe_id e = qe_id e' -> e = e'.
Proof. intros (_ & b & Hb & Hd)%elem_of_entries_in (_ & b' & Hb' & Hd')%elem_of_entries_in E. rewrite E in *. congruence. Qed.
Lemma NoDup_entries_in m : NoDup (entries_in m).
Proof.
  apply NoDup_sort_by. apply (NoDup_omap_inj (entry_of m)); [|apply dir_order_nodup].
  intros x y e (-> & _)%entry_of_spec (-> & _)%entry_of_spec. done.
Qed.

Lemma entry_leb_total a b : entry_leb a b = true \/ entry_leb b a = true.
Proof.
  unfold entry_leb. rewrite !orb_true_iff, !andb_true_iff. rewrite !Z.ltb_lt, !Z.eqb_eq.
  destruct (Z.lt_trichotomy (qe_quarantined_at_ms a) (qe_quarantined_at_ms b)) as [H|[H|H]]; [by left; left| |by right; left].
  destruct (String.leb_total (qe_id a) (qe_id b)) as [L|L]; [left|right]; right; auto.
Qed.
Lemma entry_leb_trans a b c : entry_leb a b = true -> entry_leb b c = true -> entry_leb a c = true.
Proof.
  unfold entry_leb. rewrite !orb_true_iff, !andb_true_iff. intros [H1|[H1 L1]] [H2|[H2 L2]]; try (left; lia).
  right. split; [lia|by eapply str_leb_trans].
Qed.
Lemma entry_leb_id a b : entry_leb a b = true -> entry_leb b a = true -> qe_id a = qe_id b.
Proof. unfold entry_leb. rewrite !orb_true_iff, !andb_true_iff. intros [H1|[H1 L1]] [H2|[H2 L2]]; try lia. by apply String.leb_antisym. Qed.
Lemma entries_in_sorted m : StronglySorted (fun a b => entry_leb a b = true) (entries_in m).
Proof. apply sort_by_sorted; [apply entry_leb_total|apply entry_leb_trans]. Qed.

(** Removing the entry files of some ids removes those entries. *)
Lemma entries_in_ext (X : list string) m m' :
  (forall id, is_sha256_hex id = true -> m' !! entry_path id = if decide (id ∈ X) then None else m !! entry_path id) ->
  entries_in m' = filter (fun e => qe_id e ∉ X) (entries_in m).
Proof.
  intros Hm. assert (forall e, e ∈ entries_in m' <-> e ∈ filter (fun e => qe_id e ∉ X) (entries_in m)) as Hiff.
  { intros e. rewrite list_elem_of_filter, !elem_of_entries_in. split.
    - intros (Hid & b & Hb & Hd). rewrite Hm in Hb by done. destruct (decide _); [done|]. eauto.
    - intros (Hx & Hid & b & Hb & Hd). split; [done|]. exists b. rewrite Hm by done. by rewrite decide_False. }
  apply (StronglySorted_unique_strong (fun a b => entry_leb a b = true)).
  - intros a b Ha Hb H1 H2. apply Hiff in Ha. apply list_elem_of_filter in Ha as [_ Ha]. apply list_elem_of_filter in Hb as [_ Hb].
    apply (entries_in_inj m); [done|done|by apply entry_leb_id].
  - apply entries_in_sorted.
  - apply StronglySorted_filter_P, entries_in_sorted.
  - apply NoDup_Permutation; [apply NoDup_entries_in|apply NoDup_filter, NoDup_entries_in|exact Hiff].
Qed.
Lemma entries_in_same m m' : (forall id, is_sha256_hex id = true -> m' !! entry_path id = m !! entry_path id) -> entries_in m' = entries_in m.
Proof.
  intros Hm. rewrite (entries_in_ext [] m m'); [|intros id Hid; rewrite decide_False by set_solver; by apply Hm].
  apply filter_all_id. set_solver.
Qed.
End entries.
