(* ===== verification/QuarantineSafety.v ===== *)
(** * QuarantineSafety: what the quarantine keeps, drops and never takes back

    Theorems about [Quarantine], for every sequence of I/O faults: a released object is not
    imported again while its tombstone's time counts, what a sweep drops and the size it leaves,
    and what keeping an object does. *)
From S2P Require Import Prelude Platform Format PartTypes Utf8 Quarantine QuarantineFacts.

(** ** Histories *)

(** Every operation that changes the directory, an import's body streaming in included. *)
Inductive QOp :=
| OpKeep (file id : string) (refusal : Refusal)
| OpRequestReplay (tenant id : string)
| OpClearReplay (id : string)
| OpRelease (id : string)
| OpTombstone (id : string) (at_ms : Z)
| OpRemoveLocal (id : string)
| OpSweep (modified : string -> option Z)
| OpStage (name bytes : string)
| OpAdopt (entry : QuarantineEntry) (staged : string)
| OpImport (entry : QuarantineEntry) (staged : string)
| OpEnqueue (id : string)
| OpOutboxDone (id : string)
| OpMarkRestored (low_water_ms : option Z).

Section histories.
Context `{P : Platform} `{C : EntryCodec} `{D : DirOrder} (self : Quarantine).

Definition run_op (now : Z) (op : QOp) (d : Disk) : Disk :=
  match op with
  | OpKeep file id refusal => (keep self file id refusal now d).1
  | OpRequestReplay tenant id => (request_replay self tenant id now d).1
  | OpClearReplay id => (clear_replay self id now d).1
  | OpRelease id => (release id now d).1
  | OpTombstone id at_ms => (tombstone id at_ms d).1
  | OpRemoveLocal id => (remove_local id d).1
  | OpSweep modified => (sweep self modified now d).1
  | OpStage name bytes => (fs_write (InDir, name) bytes d).1
  | OpAdopt entry staged => (adopt self entry (InDir, staged) d).1
  | OpImport entry staged => (import self entry (InDir, staged) now d).1
  | OpEnqueue id => (enqueue_mirror id now d).1
  | OpOutboxDone id => (outbox_done id d).1
  | OpMarkRestored low => (mark_restored low d).1
  end.
Definition run_ops (h : list (Z * QOp)) (d : Disk) : Disk := fold_left (fun d x => run_op x.1 x.2 d) h d.

(** The earliest time at which [id] is released: [from] of the tombstone that is there, a replay
    that commits at the clock of its operation, or a release read back from the bucket. *)
Definition released_by (id : string) (x : Z * QOp) : option Z :=
  match x.2 with
  | OpRelease id' => if decide (id' = id) then Some x.1 else None
  | OpTombstone id' at_ms => if decide (id' = id) then Some at_ms else None
  | _ => None
  end.
Definition earliest_release (id : string) (from : Z) (h : list (Z * QOp)) : Z := foldr Z.min from (omap (released_by id) h).
Lemma earliest_le id from h : earliest_release id from h <= from /\ Forall (fun x => forall t, released_by id x = Some t -> earliest_release id from h <= t) h.
Proof.
  unfold earliest_release. induction h as [|x h [IH1 IH2]]; [by split|]. cbn [omap list_omap]. destruct (released_by id x) as [t|] eqn:E.
  - cbn [foldr]. split; [lia|]. constructor; [intros t'; rewrite E; intros [= <-]; lia|]. eapply Forall_impl; [exact IH2|]. cbn. intros y Hy t' Ht. specialize (Hy t' Ht). lia.
  - split; [done|]. constructor; [intros t'; by rewrite E|done].
Qed.

(** An invariant of the disk, through a computation. *)
Definition preserves {A} (I : Disk -> Prop) (m : Eff Disk A) : Prop := forall d, I d -> I (m d).1.
Lemma preserves_bind {A B} I (m : Eff Disk A) (k : A -> Eff Disk B) : preserves I m -> (forall a, preserves I (k a)) -> preserves I (m ≫= k).
Proof. intros Hm Hk d Hd. specialize (Hm d Hd). unfold mbind, Eff_bind. destruct (m d) as [d' [a|e]]; [by apply Hk|done]. Qed.

(** The tombstone [c] of [id] is there, or its time is over. *)
Definition tombstoned (id c : string) (now : Z) (d : Disk) : Prop :=
  d_files d !! (InReleased, id) = Some c \/ sat_i64 (released_value c + QUARANTINE_TTL_MS) <= now.

Lemma outside_tombstoned {A} id c now (m : Eff Disk A) : touches outside_released m -> preserves (tombstoned id c now) m.
Proof. intros Hm d [Hc|Hn]; [left|by right]. rewrite <- Hc. apply Hm. intros H. by apply H. Qed.

Lemma sweep_tombstoned modified id c now : is_sha256_hex id = true -> preserves (tombstoned id c now) (sweep self modified now).
Proof.
  intros Hid. unfold sweep. apply preserves_bind; [apply outside_tombstoned, touches_list_entries|intros entries].
  apply preserves_bind; [apply outside_tombstoned, touches_sweep_expired; discriminate|intros dropped].
  apply preserves_bind; [apply outside_tombstoned; touch|intros names].
  apply preserves_bind; [apply outside_tombstoned, touches_for; intros name _; by apply touches_sweep_name|intros []].
  apply preserves_bind; [apply outside_tombstoned; touch|intros tombstones].
  apply preserves_bind; [|intros []; apply outside_tombstoned; touch; apply touches_enforce_cap; discriminate].
  intros d [Hc|Hn]; [by apply sweep_released_loop|by right].
Qed.

(** A tombstone of [id] not older than [m] is there, or the time to live of [m] is over. *)
Definition marked (id : string) (m now : Z) (d : Disk) : Prop :=
  (exists c, d_files d !! (InReleased, id) = Some c /\ m <= released_value c) \/ sat_i64 (m + QUARANTINE_TTL_MS) <= now.
Lemma tombstoned_marked id c m now d : m <= released_value c -> tombstoned id c now d -> marked id m now d.
Proof. intros Hm [Hc|Hn]; [left; by exists c|right]. pose proof (sat_i64_mono (m + QUARANTINE_TTL_MS) (released_value c + QUARANTINE_TTL_MS)). lia. Qed.

(** A written release time is read back, or saturates. *)
Lemma released_value_written m at_ms : m <= at_ms -> m <= i64_max -> m <= released_value (i64_to_string at_ms).
Proof.
  intros Hm Hmax. unfold released_value, i64_to_string. assert (forall z, 0 <= z -> str_all is_digit (to_dec z) = true) as Hdig by (intros; apply fmt_pad_digits).
  assert (forall s, str_all is_digit s = true -> str_all is_dec_char s = true) as Hdec by (intros s; apply str_all_impl; unfold is_dec_char; intros c ->; done).
  destruct (Z.ltb_spec at_ms 0).
  - rewrite trim_dec by (cbn; apply Hdec, Hdig; lia). unfold parse_i64. cbn [parse_signed]. destruct (_ && _); [|done]. cbn. unfold to_dec. rewrite dec_val_fmt_pad by lia. lia.
  - rewrite trim_dec by (apply Hdec, Hdig; lia). unfold parse_i64. destruct (to_dec_head at_ms) as (c & t & E & Hc); [lia|]. rewrite E.
    assert (parse_signed i64_min i64_max (String c t) = parse_unsigned i64_max (String c t)) as -> by (destruct c as [[] [] [] [] [] [] [] []]; done).
    unfold parse_unsigned. assert (match String c t with String "+" r => r | _ => String c t end = String c t) as -> by (destruct c as [[] [] [] [] [] [] [] []]; done).
    rewrite <- E. destruct (_ && _); [|done]. cbn. unfold to_dec. rewrite dec_val_fmt_pad by lia. done.
Qed.
Lemma released_value_max c : released_value c <= i64_max.
Proof.
  unfold released_value, parse_i64. destruct (parse_signed i64_min i64_max (trim c)) as [z|] eqn:E; [|done]. cbn. unfold parse_signed in E.
  assert (forall s, parse_unsigned i64_max s = Some z -> z <= i64_max) as Hu.
  { intros s. unfold parse_unsigned. destruct (_ && _) eqn:Eb; [|done]. intros [= <-]. apply andb_true_iff in Eb as [_ ?]. lia. }
  destruct (trim c) as [|a t]; [by apply (Hu EmptyString)|]. destruct (decide (a = "-"%char)) as [->|Hne].
  - destruct (_ && _) eqn:Eb; [|done]. injection E as <-. rewrite !andb_true_iff in Eb. destruct Eb as [[_ Hd] _]. pose proof (dec_val_bound t Hd). unfold i64_max. lia.
  - apply (Hu (String a t)). revert E. by destruct a as [[] [] [] [] [] [] [] []].
Qed.

(** A release keeps the mark of [m] when it is not older. *)
Lemma tombstone_marked id id' at_ms c m d : is_sha256_hex id = true -> d_files d !! (InReleased, id) = Some c -> m <= released_value c -> (id' = id -> m <= at_ms) ->
  exists c', d_files (tombstone id' at_ms d).1 !! (InReleased, id) = Some c' /\ m <= released_value c'.
Proof.
  intros Hid Hc Hm Hat. assert ((InReleased, id) <> (InReleased, "." +:+ id' +:+ ".tmp")) as Hdot.
  { intros [= E]. subst id. apply andb_true_iff in Hid as [_ Hx]. discriminate Hx. }
  unfold tombstone, mbind, Eff_bind. destruct (valid_id id' d) as [d1 [u|e]] eqn:E1; apply reads_valid_id in E1 as [F1 _]; cbn; [|exists c; by rewrite F1].
  destruct (released_at id' d1) as [d2 [o|e]] eqn:E2; apply reads_released_at in E2 as [F2 _]; cbn; [|exists c; by rewrite F2, F1].
  destruct (match o with Some kept => kept <=? at_ms | None => false end); cbn; [exists c; by rewrite F2, F1|].
  destruct (write_rename_lands _ (InReleased, id') (i64_to_string at_ms) d2 _ Hdot) as [E|[E ->]]; [exists c; by rewrite E, F2, F1|].
  injection E as <-. exists (i64_to_string at_ms). split; [done|]. apply released_value_written; [by apply Hat|]. pose proof (released_value_max c). lia.
Qed.

(** One operation on a known tombstone. *)
Lemma run_op_marked now op id c m d :
  is_sha256_hex id = true -> d_files d !! (InReleased, id) = Some c -> m <= released_value c -> (forall t, released_by id (now, op) = Some t -> m <= t) ->
  marked id m now (run_op now op d).
Proof.
  intros Hid Hc Hm Hop.
  assert (forall A (k : Eff Disk A), touches outside_released k -> exists c', d_files (k d).1 !! (InReleased, id) = Some c' /\ m <= released_value c') as Hout.
  { intros A k Hk. exists c. split; [|done]. rewrite <- Hc. apply Hk. intros H. by apply H. }
  destruct op; cbn [run_op];
    try (left; apply Hout; (solve [auto using keep_outside, request_replay_outside, clear_replay_outside] || solve [apply import_outside; discriminate]
                            || (unfold outbox_done, enqueue_mirror, mark_restored; solve [touch]))).
  - left. destruct (tombstone_marked id id0 now c m d Hid Hc Hm) as (c' & H1 & Hm').
    { intros ->. apply Hop. cbn. by rewrite decide_True. }
    exists c'. split; [|done]. unfold release, mbind, Eff_bind. destruct (tombstone id0 now d) as [d1 [u|e]]; [|done]. cbn in H1 |- *.
    assert (touches outside_released (_ ← remove_local id0; enqueue id0 now)) as Ht by touch.
    rewrite <- H1. apply (Ht d1). intros H. by apply H.
  - left. apply tombstone_marked with c; [done|done|done|]. intros ->. apply Hop. cbn. by rewrite decide_True.
  - apply (tombstoned_marked id c); [done|]. apply sweep_tombstoned; [done|by left].
Qed.

Lemma run_ops_marked h id m now d :
  is_sha256_hex id = true -> (exists c, d_files d !! (InReleased, id) = Some c /\ m <= released_value c) -> Sorted Z.le (h.*1 ++ [now]) ->
  Forall (fun x => forall t, released_by id x = Some t -> m <= t) h -> marked id m now (run_ops h d).
Proof.
  intros Hid Hc Hs Hf. assert (match h with x :: _ => marked id m x.1 d | [] => marked id m now d end) as Hd by (destruct h; by left). clear Hc. revert d Hd.
  induction h as [|[at_ms op] h IH]; intros d Hd; [done|]. cbn in Hs. apply Sorted_inv in Hs as [Hs Hr]. apply Forall_cons in Hf as [Hop Hf]. cbn. apply (IH Hs Hf). clear IH.
  assert (marked id m at_ms (run_op at_ms op d)) as H1.
  { destruct Hd as [(c & Hc & Hm)|Hd]; [by apply (run_op_marked at_ms op id c m)|by right]. }
  assert (forall t, at_ms <= t -> marked id m t (run_op at_ms op d)) as Hlater by (intros t Ht; destruct H1 as [?|?]; [by left|right; lia]).
  destruct h as [|[t op'] h]; cbn in Hr; apply HdRel_inv in Hr; by apply Hlater.
Qed.

Definition is_err {E A} (r : result E A) : bool := negb (is_ok r).
(** An import that only removes its staging file and fails. *)
Definition refuses {A} (staged : Path) (m : Eff Disk A) (d : Disk) : Prop :=
  is_err (m d).2 = true /\ forall p, p <> staged -> d_files (m d).1 !! p = d_files d !! p.

Lemma refuses_refused {A} staged reason d : refuses staged (refused (A := A) staged reason) d.
Proof.
  split; [done|]. intros p Hp. apply (touches_bind (fun q => q = staged)); [|done|by intros ->]. apply touches_ignore. by apply touches_remove.
Qed.
(** Reads before the refusal. *)
Lemma refuses_read {A B} staged (m : Eff Disk A) (k : A -> Eff Disk B) f d :
  reads m f -> (forall d1 a, d_files d1 = d_files d -> f (d_files d) a -> refuses staged (k a) d1) -> refuses staged (m ≫= k) d.
Proof.
  intros Hm Hk. unfold refuses, mbind, Eff_bind. destruct (m d) as [d1 [a|e]] eqn:E; apply Hm in E as [F Ha]; cbn; [|by rewrite F].
  destruct (Hk d1 a F (Ha a eq_refl)) as [H1 H2]. split; [done|]. intros p Hp. by rewrite H2, F.
Qed.

Lemma reads_needs_restore : reads needs_restore (fun _ _ => True).
Proof. eapply reads_bind; [apply reads_exists|]. intros b. by apply reads_ret. Qed.
Lemma reads_low_water : reads restore_low_water_ms (fun _ _ => True).
Proof. eapply reads_bind; [apply reads_read_to_string|]. intros b. by apply reads_ret. Qed.
Lemma reads_file_digest p : reads (file_digest p) (fun files a => exists b, files !! p = Some b /\ a = (str_len b, sha256_hex b)).
Proof.
  eapply reads_bind; [apply reads_read|]. intros [b|]; [|apply reads_fail]. apply reads_ret. intros m E. by exists b.
Qed.

(** An import is refused while the tombstone is there and once the entry expired. *)
Lemma import_refused entry staged now d :
  is_Some (d_files d !! (InReleased, qe_id entry)) \/ qe_expires_at_ms entry <= now -> refuses staged (import self entry staged now) d.
Proof.
  intros Hcase. unfold import. destruct (negb _); [apply refuses_refused|]. destruct (_ || _); [apply refuses_refused|].
  eapply refuses_read; [apply reads_needs_restore|]. intros d1 pending F1 _. destruct pending; [apply refuses_refused|].
  eapply refuses_read; [apply reads_released_at|]. intros d2 at_ms F2 Hat. cbn beta in Hat.
  destruct (is_some at_ms) eqn:Es; [apply refuses_refused|]. apply is_some_false in Es. subst at_ms. destruct Hcase as [[c Hc]|Hexp].
  { rewrite F1, Hc in Es. done. }
  eapply refuses_read; [apply reads_low_water|]. intros d3 low F3 _. destruct (match low with Some _ => _ | None => _ end); [apply refuses_refused|].
  unfold import_bytes. eapply refuses_read; [apply reads_file_digest|]. intros d4 [bytes digest] F4 _.
  do 2 (destruct (negb _); [apply refuses_refused|]). rewrite (proj2 (Z.leb_le _ _) Hexp). apply refuses_refused.
Qed.
End histories.

Section theorems.
Context `{P : Platform} `{C : EntryCodec} `{D : DirOrder} (self : Quarantine).

(** C9: a released object is not imported again. From a directory with a tombstone for an id,
    after any sequence of operations with non-decreasing clock readings and any I/O faults,
    releases and restored releases of the same id included, an import of an entry of that id that
    expires no later than the earliest of the id's release times plus the TTL fails, and leaves
    every file but its staging file as it was. The release times are that of the tombstone, the
    clock of each later release, and the time of each release read back from the bucket; the
    directory keeps the earliest ([second_release_forgotten] shows that a later one adds nothing). *)
Theorem released_stays_released h id c now entry staged d :
  is_sha256_hex id = true -> d_files d !! (InReleased, id) = Some c -> Sorted Z.le (h.*1 ++ [now]) ->
  qe_id entry = id -> qe_expires_at_ms entry <= sat_i64 (earliest_release id (released_value c) h + QUARANTINE_TTL_MS) ->
  refuses staged (import self entry staged now) (run_ops self h d).
Proof.
  intros Hid Hc Hs <- Hexp. destruct (earliest_le (qe_id entry) (released_value c) h) as [Hle Hall]. apply import_refused.
  destruct (run_ops_marked self h (qe_id entry) _ now d Hid (ex_intro _ c (conj Hc Hle)) Hs Hall) as [(c' & Hc' & _)|H].
  - left. by eexists.
  - right. lia.
Qed.
End theorems.

(** ** What a sweep leaves *)

Lemma filter_ext_elem {A} (Q R : A -> Prop) `{forall x, Decision (Q x)} `{forall x, Decision (R x)} (l : list A) :
  (forall x, x ∈ l -> Q x <-> R x) -> filter Q l = filter R l.
Proof.
  induction l as [|x l IH]; intros HQR; [done|]. rewrite !filter_cons, IH by (intros y Hy; apply HQR; set_solver).
  specialize (HQR x ltac:(set_solver)). destruct (decide (Q x)), (decide (R x)); tauto || done.
Qed.
Lemma filter_none_nil {A} (Q : A -> Prop) `{forall x, Decision (Q x)} (l : list A) : (forall x, x ∈ l -> ~ Q x) -> filter Q l = [].
Proof. induction l as [|x l IH]; intros HQ; [done|]. rewrite filter_cons, decide_False by (apply HQ; set_solver). apply IH. intros y Hy. apply HQ. set_solver. Qed.

Lemma str_app_cancel_r s t u : s +:+ u = t +:+ u -> s = t.
Proof. intros E%(f_equal (strip_suffix u)). rewrite !strip_suffix_app in E. by injection E. Qed.

(** A data file is never an entry file. *)
Lemma data_not_entry id id' : data_path id <> entry_path id'.
Proof.
  unfold data_path, entry_path. intros [= E]. change ".parquet" with (".pa" +:+ "rquet") in E. rewrite str_app_assoc in E.
  assert (String.length (id +:+ ".pa") = String.length id') as Hl.
  { apply (f_equal String.length) in E. rewrite !str_length_app in E. rewrite str_length_app. cbn in *. lia. }
  apply (f_equal (str_drop (String.length id'))) in E. rewrite <- Hl in E at 1. by rewrite !str_drop_app in E.
Qed.

Section sweep.
Context `{P : Platform} `{C : EntryCodec} `{D : DirOrder} `{DL : !DirOrderLaws D} (self : Quarantine).
Implicit Types (id name : string) (e : QuarantineEntry) (m : Files).

(** The entry files of [X], and no others, are gone. *)
Definition lost (X : list string) m m' : Prop :=
  forall id, is_sha256_hex id = true -> m' !! entry_path id = if decide (id ∈ X) then None else m !! entry_path id.
Lemma lost_refl m : lost [] m m.
Proof. intros id _. by rewrite decide_False by set_solver. Qed.
Lemma lost_trans X Y m m' m'' : lost X m m' -> lost Y m' m'' -> lost (X ++ Y) m m''.
Proof.
  intros H1 H2 id Hid. rewrite (H2 id Hid). destruct (decide (id ∈ Y)); [by rewrite decide_True by set_solver|].
  rewrite (H1 id Hid). destruct (decide (id ∈ X)); [by rewrite decide_True by set_solver|by rewrite decide_False by set_solver].
Qed.
Lemma lost_touches X m m' T : lost X m m' -> forall m'', (forall p, ~ T p -> m'' !! p = m' !! p) -> (forall p, is_entry_file p -> ~ T p) -> lost X m m''.
Proof. intros H m'' Hm HT id Hid. rewrite Hm; [by apply H|]. apply HT. by exists id. Qed.

Lemma does_remove_local id : does (remove_local id) (fun f0 f1 _ => lost [id] f0 f1).
Proof.
  eapply does_bind; [apply does_reads, reads_valid_id|]. intros f []. eapply does_bind; [apply does_remove|]. intros f' b.
  eapply does_bind; [apply does_remove|]. intros f'' b'. apply does_ret. intros f3 -> -> [-> Hid] id' Hid'.
  rewrite lookup_delete_ne by apply data_not_entry. destruct (decide (id' ∈ [id])) as [->%list_elem_of_singleton|Hne].
  - by rewrite lookup_delete_eq.
  - rewrite lookup_delete_ne; [done|]. intros [= E]. apply Hne. apply str_app_cancel_r in E. set_solver.
Qed.

Abbreviation expired now := (fun e => qe_expires_at_ms e <= now).
Lemma does_sweep_expired entries now n :
  does (sweep_expired entries now n)
    (fun f0 f1 a => lost (qe_id <$> filter (expired now) entries) f0 f1 /\ a = (n + length (filter (expired now) entries))%nat).
Proof.
  revert n. induction entries as [|e entries IH]; intros n; cbn [sweep_expired].
  { apply does_ret. intros f. split; [apply lost_refl|cbn; lia]. }
  rewrite filter_cons. destruct (Z.leb_spec (qe_expires_at_ms e) now); [rewrite decide_True by done|rewrite decide_False by lia; apply IH].
  eapply does_bind; [apply does_remove_local|]. intros f []. eapply does_mono; [apply IH|]. cbn. intros f1 f2 a [H2 ->] H1. split; [|cbn; lia].
  by apply (lost_trans [qe_id e] _ f f1).
Qed.

(** The cap keeps the newest entries that fit: the shortest prefix goes. *)
Definition cap_prefix (max : Z) (sizes : list Z) (k : nat) : Prop :=
  (k <= length sizes)%nat /\ zsum (drop k sizes) <= max /\ forall j, (j < k)%nat -> max < zsum (drop j sizes).

Lemma does_enforce_loop entries n :
  Forall (fun e => 0 <= qe_bytes e) entries -> zsum (qe_bytes <$> entries) <= u64_max -> 0 <= q_max_bytes self ->
  does (enforce_loop self None entries (zsum (qe_bytes <$> entries)) n)
    (fun f0 f1 a => exists k, cap_prefix (q_max_bytes self) (qe_bytes <$> entries) k /\ a = (n + k)%nat /\ lost (qe_id <$> take k entries) f0 f1).
Proof.
  intros Hb Hsum Hmax. revert n Hsum. induction Hb as [|e entries He Hb IH]; intros n Hsum.
  { apply does_ret. intros f. exists O. split; [split; [lia|]; cbn; split; [done|lia]|]. split; [lia|apply lost_refl]. }
  rewrite fmap_cons in *. change (zsum (qe_bytes e :: (qe_bytes <$> entries))) with (qe_bytes e + zsum (qe_bytes <$> entries)) in *. cbn [enforce_loop].
  pose proof (zsum_nonneg (qe_bytes <$> entries) ltac:(by apply Forall_fmap)) as Hnn.
  destruct (Z.leb_spec (qe_bytes e + zsum (qe_bytes <$> entries)) (q_max_bytes self)) as [Hle|Hgt].
  { apply does_ret. intros f. exists O. split; [split; [lia|]; cbn; split; [done|lia]|]. split; [lia|apply lost_refl]. }
  rewrite bool_decide_eq_false_2 by done. eapply does_bind; [apply does_remove_local|]. intros f [].
  assert (sat_u64 (qe_bytes e + zsum (qe_bytes <$> entries) - qe_bytes e) = zsum (qe_bytes <$> entries)) as -> by (unfold sat_u64; lia).
  eapply does_mono; [apply IH; lia|]. cbn. intros f1 f2 a (k & (Hk1 & Hk2 & Hk3) & -> & Hl) H1. exists (S k). split; [|split; [lia|]].
  - split; [cbn; lia|]. split; [done|]. intros [|j] Hj; cbn; [done|apply Hk3; lia].
  - cbn. by apply (lost_trans [qe_id e] _ f f1).
Qed.

Lemma NoDup_entry_ids m : NoDup (qe_id <$> entries_in self m).
Proof.
  assert (forall l, NoDup l -> (forall e e', e ∈ l -> e' ∈ l -> qe_id e = qe_id e' -> e = e') -> NoDup (qe_id <$> l)) as Hgen.
  { intros l. induction 1 as [|e l He Hl IH]; intros Hinj; cbn; [constructor|]. constructor; [|apply IH; set_solver].
    intros (e' & E & He')%list_elem_of_fmap. apply He. rewrite (Hinj e e'); set_solver. }
  apply Hgen; [apply NoDup_entries_in|intros; by eapply entries_in_inj].
Qed.
Lemma filter_lost_take (k : nat) (l : list QuarantineEntry) :
  NoDup (qe_id <$> l) -> filter (fun e => qe_id e ∉ qe_id <$> take k l) l = drop k l.
Proof.
  intros Hn. transitivity (filter (fun e => qe_id e ∉ qe_id <$> take k l) (take k l ++ drop k l)); [by rewrite take_drop|].
  rewrite filter_app, filter_none_nil, filter_all_id; [done|..].
  - intros e He (e' & E & He')%list_elem_of_fmap. rewrite <- (take_drop k l), fmap_app in Hn. apply NoDup_app in Hn as (_ & Hd & _).
    apply (Hd (qe_id e)); apply list_elem_of_fmap; eauto.
  - intros e He Hx. apply Hx. apply list_elem_of_fmap. eauto.
Qed.
Lemma filter_lost_filter (Q : QuarantineEntry -> Prop) `{forall e, Decision (Q e)} m :
  filter (fun e => qe_id e ∉ qe_id <$> filter Q (entries_in self m)) (entries_in self m) = filter (fun e => ~ Q e) (entries_in self m).
Proof.
  apply filter_ext_elem. intros e He. split; intros Hx.
  - intros HQ. apply Hx, list_elem_of_fmap. exists e. split; [done|]. by apply list_elem_of_filter.
  - intros (e' & E & [HQ He']%list_elem_of_filter)%list_elem_of_fmap. apply Hx. by rewrite (entries_in_inj self m e e').
Qed.

(** Between the expiry and the cap, a sweep leaves the entry files alone. *)
Lemma sweep_name_entries modified now name : touches (fun p => ~ is_entry_file p) (sweep_name modified now name).
Proof.
  assert (forall c : Eff Disk bool, touches (fun p => ~ is_entry_file p) c -> touches (fun p => ~ is_entry_file p) (eff_ignore c)) as Hi by (intros; by apply touches_ignore).
  assert (starts_with "." name = true -> ~ is_entry_file (InDir, name)) as Hdot.
  { intros [r ->]%starts_with_spec ([|c id] & Hid & E); [done|]. unfold entry_path in E. rewrite !str_app_cons in E. injection E as E1 E2.
    apply andb_true_iff in Hid as [_ Hx]. by rewrite <- E1 in Hx. }
  unfold sweep_name. apply touches_bind; [touch|intros []]. destruct (strip_suffix ".parquet" name) as [id|] eqn:Es.
  - apply touches_bind; [touch|intros orphan]. destruct (_ && _); [touch|]. destruct (_ || _); [|touch]. apply Hi, touches_remove.
    apply strip_suffix_inv in Es as ->. intros (id' & _ & E). by apply (data_not_entry id id').
  - change (touches (fun p => ~ is_entry_file p)
      (if starts_with ".import-" name && young modified name now then mret tt else if starts_with "." name || false then eff_ignore (fs_remove (InDir, name)) else mret tt)).
    destruct (_ && _); [touch|]. rewrite orb_false_r. destruct (starts_with "." name); [|touch]. apply Hi, touches_remove. by apply Hdot.
Qed.

Lemma does_untouched {A} (m : Eff Disk A) : touches (fun p => ~ is_entry_file p) m -> does m (fun f0 f1 _ => lost [] f0 f1).
Proof.
  intros Hm. eapply does_mono; [by apply does_touches|]. cbn. intros f f' a H id Hid. rewrite decide_False by set_solver. apply H. intros Hn. apply Hn. by exists id.
Qed.
Lemma sweep_released_entries now name : touches (fun p => ~ is_entry_file p) (sweep_released now name).
Proof. unfold sweep_released. touch. apply touches_remove. by intros (id & _ & [=]). Qed.

Definition survivors now m : list QuarantineEntry := filter (fun e => ~ qe_expires_at_ms e <= now) (entries_in self m).

Lemma does_enforce_cap :
  0 <= q_max_bytes self ->
  does (enforce_cap self None) (fun f0 f1 a => let l := entries_in self f0 in
    Forall (fun e => 0 <= qe_bytes e) l -> zsum (qe_bytes <$> l) <= u64_max ->
    exists k, cap_prefix (q_max_bytes self) (qe_bytes <$> l) k /\ a = k /\ entries_in self f1 = drop k l).
Proof.
  intros Hmax d d' a (d1 & l & E1 & E2)%Eff_bind_ok. cbn zeta. intros Hb Hs. apply (does_reads _ _ (reads_list_entries self)) in E1 as [F ->]. cbn zeta in *.
  rewrite sum_u64_exact in E2 by (done || by apply Forall_fmap). apply does_enforce_loop in E2 as (k & Hk & -> & Hl); [|done..]. exists k. split_and!; [done|lia|].
  rewrite F in Hl. rewrite (entries_in_ext self _ _ _ Hl). apply filter_lost_take, NoDup_entry_ids.
Qed.

Lemma does_sweep modified now :
  0 <= q_max_bytes self ->
  does (sweep self modified now) (fun f0 f1 n => let l := survivors now f0 in
    Forall (fun e => 0 <= qe_bytes e) l -> zsum (qe_bytes <$> l) <= u64_max ->
    exists k, cap_prefix (q_max_bytes self) (qe_bytes <$> l) k /\ entries_in self f1 = drop k l
      /\ n = (length (filter (expired now) (entries_in self f0)) + k)%nat).
Proof.
  intros Hmax d d' n (d1 & l & E1 & E)%Eff_bind_ok. apply (does_reads _ _ (reads_list_entries self)) in E1 as [F1 ->].
  apply Eff_bind_ok in E as (d2 & dropped & E2 & E). apply does_sweep_expired in E2 as [L2 ->]. rewrite F1 in L2.
  apply Eff_bind_ok in E as (d3 & names & E3 & E). apply (does_reads _ _ (reads_read_dir _)) in E3 as [F3 _].
  apply Eff_bind_ok in E as (d4 & [] & E4 & E).
  apply does_untouched in E4; [|apply touches_for; intros; apply sweep_name_entries]. rewrite F3 in E4.
  apply Eff_bind_ok in E as (d5 & tombs & E5 & E). apply (does_reads _ _ (reads_read_dir _)) in E5 as [F5 _].
  apply Eff_bind_ok in E as (d6 & [] & E6 & E).
  apply does_untouched in E6; [|apply touches_for; intros; apply sweep_released_entries]. rewrite F5 in E6.
  apply Eff_bind_ok in E as (d7 & k & E7 & [= <- <-]). pose proof (lost_trans _ _ _ _ _ (lost_trans _ _ _ _ _ L2 E4) E6) as L. rewrite !app_nil_r in L.
  apply (does_enforce_cap Hmax) in E7. rewrite (entries_in_ext self _ _ _ L), filter_lost_filter in E7. fold (survivors now (d_files d)) in E7.
  cbn zeta. intros Hb Hs. destruct (E7 Hb Hs) as (k' & Hk & -> & He). exists k'. split_and!; [done|done|lia].
Qed.
End sweep.

(** ** A working disk: the sweep succeeds *)

(** No fault to come, and every tombstone is text. *)
Definition calm (d : Disk) : Prop :=
  d_faults d = [] /\ forall id b, is_sha256_hex id = true -> d_files d !! (InReleased, id) = Some b -> valid_utf8 b = true.
Definition works {A} (m : Eff Disk A) (Q : A -> Prop) : Prop := forall d, calm d -> calm (m d).1 /\ exists a, (m d).2 = Ok a /\ Q a.

Lemma works_ret {A} (a : A) (Q : A -> Prop) : Q a -> works (mret a) Q.
Proof. intros HQ d Hd. split; [done|]. by exists a. Qed.
Lemma works_bind {A B} (m : Eff Disk A) (k : A -> Eff Disk B) Q R : works m R -> (forall a, R a -> works (k a) Q) -> works (m ≫= k) Q.
Proof.
  intros Hm Hk d Hd. destruct (Hm d Hd) as (H1 & a & E & Ha). unfold mbind, Eff_bind. destruct (m d) as [d' r]. cbn in *. subst r. by apply Hk.
Qed.
Lemma works_mono {A} (m : Eff Disk A) (Q R : A -> Prop) : works m Q -> (forall a, Q a -> R a) -> works m R.
Proof. intros Hm HQ d (H1 & a & E & Ha)%Hm. split; [done|]. exists a. auto. Qed.
Lemma works_call {A} (m : Eff Disk A) Q : works m Q -> works (fs_call m) Q.
Proof.
  intros Hm d Hd. pose proof (Hm d Hd) as H. unfold fs_call, mbind, Eff_bind, next_fault. by rewrite (proj1 Hd).
Qed.
Lemma works_ignore {A} (m : Eff Disk A) Q : works m Q -> works (eff_ignore m) (fun _ => True).
Proof. intros Hm d (H1 & a & E & Ha)%Hm. split; [done|]. by exists tt. Qed.
Lemma works_for {X} (l : list X) body : (forall x, works (body x) (fun _ => True)) -> works (eff_for l body) (fun _ => True).
Proof. intros Hb. induction l as [|x l IH]; cbn; [by apply works_ret|]. eapply works_bind; [apply Hb|]. by intros []. Qed.
Lemma works_look {A} (g : Files -> A) : works (m ← fs_files; mret (g m)) (fun _ => True).
Proof. intros d Hd. split; [done|]. by eexists. Qed.
Lemma works_read p : works (fs_read p) (fun _ => True).
Proof. apply works_call, (works_look (fun m => m !! p)). Qed.
Lemma works_item : works fs_item (fun _ => True).
Proof. apply works_call. by apply works_ret. Qed.
Lemma works_read_dir `{DirOrder} f : works (fs_read_dir f) (fun _ => True).
Proof. apply works_call, (works_look (fun m => dir_order m f)). Qed.
Lemma works_exists p : works (fs_exists p) (fun _ => True).
Proof. intros d Hd. unfold fs_exists, mbind, Eff_bind, next_fault. rewrite (proj1 Hd). cbn. split; [done|]. by eexists. Qed.
Lemma works_remove p : works (fs_remove p) (fun _ => True).
Proof.
  apply works_call. intros d [Hf Hu]. unfold mbind, Eff_bind, fs_files, fs_update, set_files. destruct (is_some _); cbn; [|split; [done|by eexists]].
  split; [|by eexists]. split; [done|]. cbn. intros id b Hid Hb. apply lookup_delete_Some in Hb as [_ Hb]. by eapply Hu.
Qed.

Create HintDb works.
#[export] Hint Resolve works_read works_item works_read_dir works_exists works_remove works_ret I : works.
Ltac works_step :=
  match goal with
  | |- works (_ ≫= _) _ => eapply works_bind; [|intros ? ?]
  | |- works (eff_ignore _) _ => eapply works_ignore
  | |- works (match ?x with _ => _ end) _ => destruct x
  | |- works (mret _) _ => apply works_ret
  | |- works _ _ => solve [eauto with works]
  | |- True => exact I
  end.
Ltac work := repeat (works_step; cbn beta iota zeta).

Section works.
Context `{P : Platform} `{C : EntryCodec} `{D : DirOrder} `{DL : !DirOrderLaws D} (self : Quarantine).

Lemma works_valid_id id : is_sha256_hex id = true -> works (valid_id id) (fun _ => True).
Proof. intros Hid d Hd. unfold valid_id. rewrite Hid. split; [done|]. by exists tt. Qed.
Lemma works_load id : works (load self id) (fun o => forall e, o = Some e -> qe_id e = id).
Proof.
  unfold load. eapply works_bind; [apply works_read|]. intros o _. apply works_ret. intros e (b & _ & Hd)%bind_Some. by apply decode_entry_id in Hd as [-> _].
Qed.
Abbreviation with_ids := (Forall (fun e => is_sha256_hex (qe_id e) = true)).
Lemma works_list_loop names : works (list_loop self names) with_ids.
Proof.
  induction names as [|name names IH]; cbn; [by apply works_ret; constructor|]. eapply works_bind; [apply works_item|]. intros [] _.
  destruct (strip_suffix ".json" name) as [id|]; [|done]. destruct (is_sha256_hex id) eqn:Hid; cbn; [|done].
  eapply works_bind; [apply works_load|]. intros o Ho. eapply works_bind; [apply IH|]. intros es Hes. apply works_ret. destruct o as [e|]; [|done].
  constructor; [by rewrite (Ho e)|done].
Qed.
Lemma works_list_entries : works (list_entries self) with_ids.
Proof.
  unfold list_entries. eapply works_bind; [apply works_read_dir|]. intros names _. eapply works_bind; [apply works_list_loop|]. intros es Hes.
  apply works_ret. by rewrite sort_by_perm.
Qed.
Lemma works_remove_local id : is_sha256_hex id = true -> works (remove_local id) (fun _ => True).
Proof. intros Hid. unfold remove_local. eapply works_bind; [by apply works_valid_id|]. intros [] _. work. Qed.
Lemma works_sweep_expired entries now n : with_ids entries -> works (sweep_expired entries now n) (fun _ => True).
Proof.
  intros H. revert n. induction H as [|e entries He _ IH]; intros n; cbn; [work|]. destruct (_ <=? _); [|apply IH].
  eapply works_bind; [by apply works_remove_local|]. intros [] _. apply IH.
Qed.
Lemma works_enforce_loop keep entries total n : with_ids entries -> works (enforce_loop self keep entries total n) (fun _ => True).
Proof.
  intros H. revert total n. induction H as [|e entries He _ IH]; intros total n; cbn; [work|]. destruct (_ <=? _); [work|]. destruct (bool_decide _); [apply IH|].
  eapply works_bind; [by apply works_remove_local|]. intros [] _. apply IH.
Qed.
Lemma works_enforce_cap keep : works (enforce_cap self keep) (fun _ => True).
Proof. unfold enforce_cap. eapply works_bind; [apply works_list_entries|]. intros l Hl. by apply works_enforce_loop. Qed.
Lemma works_released_at id : is_sha256_hex id = true -> works (released_at id) (fun _ => True).
Proof.
  intros Hid. unfold released_at. eapply works_bind; [by apply works_valid_id|]. intros [] _. apply (works_bind _ _ _ (fun _ => True)); [|intros o _; by apply works_ret].
  intros d Hd. unfold fs_read_to_string, fs_read, fs_call, mbind, Eff_bind, next_fault. rewrite (proj1 Hd). cbn. destruct (d_files d !! (InReleased, id)) as [b|] eqn:Eb.
  - rewrite (proj2 Hd id b Hid Eb). split; [exact Hd|]. eexists. split; [reflexivity|done].
  - split; [exact Hd|]. eexists. split; [reflexivity|done].
Qed.
Lemma works_sweep_name modified now name : works (sweep_name modified now name) (fun _ => True).
Proof.
  unfold sweep_name. eapply works_bind; [apply works_item|]. intros [] _. apply (works_bind _ _ _ (fun _ => True)).
  - destruct (strip_suffix _ _); [|work]. eapply works_bind; [apply works_exists|]. intros b _. work.
  - intros orphan _. work.
Qed.
Lemma works_sweep_released now name : works (sweep_released now name) (fun _ => True).
Proof.
  unfold sweep_released. eapply works_bind; [apply works_item|]. intros [] _. eapply (works_bind _ _ _ (fun _ => True)).
  - destruct (is_sha256_hex name) eqn:Hid; [|work]. eapply works_bind; [by apply works_released_at|]. intros o _. work.
  - intros expired _. work.
Qed.
Lemma works_sweep modified now : works (sweep self modified now) (fun _ => True).
Proof.
  unfold sweep. eapply works_bind; [apply works_list_entries|]. intros l Hl. eapply works_bind; [by apply works_sweep_expired|]. intros n _.
  eapply works_bind; [apply works_read_dir|]. intros names _. eapply works_bind; [apply works_for, works_sweep_name|]. intros [] _.
  eapply works_bind; [apply works_read_dir|]. intros tombs _. eapply works_bind; [apply works_for, works_sweep_released|]. intros [] _.
  eapply works_bind; [apply works_enforce_cap|]. intros k _. work.
Qed.
End works.

(** ** What keeping an object does *)

Section keep.
Context `{P : Platform} `{C : EntryCodec} `{CL : !EntryCodecLaws C} `{D : DirOrder} `{DL : !DirOrderLaws D} (self : Quarantine).
Implicit Types (id : string) (e : QuarantineEntry).

(** The entry file of [e] holds [e]. *)
Definition stored e (f : Files) : Prop := exists b, f !! entry_path (qe_id e) = Some b /\ entry_to_vec e = Some b.
Lemma stored_decode e f :
  stored e f -> qe_kind e = ENTRY_KIND -> qe_tenant_id e = q_tenant self -> exists b, f !! entry_path (qe_id e) = Some b /\ decode_entry self (qe_id e) b = Some e.
Proof.
  intros (b & Hb & He%entry_codec_roundtrip) Hk Ht. exists b. split; [done|]. unfold decode_entry. rewrite He. cbn.
  by rewrite !bool_decide_eq_true_2 by done.
Qed.
Lemma does_store e : does (store e) (fun f0 f1 _ => stored e f1
  /\ forall p, p <> (InDir, "." +:+ qe_id e +:+ ".json.tmp") -> p <> entry_path (qe_id e) -> f1 !! p = f0 !! p).
Proof.
  intros d d' a (d1 & b & E1 & E2)%Eff_bind_ok. unfold eff_lift, of_option in E1. destruct (entry_to_vec e) as [b'|] eqn:Ee; [|done].
  injection E1 as <- <-. apply does_write_rename in E2 as [H1 H2]; [|intros [= E]; by apply (f_equal String.length) in E; rewrite !str_length_app in E; cbn in E; lia].
  split; [by exists b'|done].
Qed.
Lemma does_enqueue id now : does (enqueue id now) (fun f0 f1 _ => is_Some (f1 !! (InOutbox, id)) /\ forall p, p.1 <> InOutbox -> f1 !! p = f0 !! p).
Proof.
  intros d d' a (d1 & queued & E1 & E2)%Eff_bind_ok. apply (does_reads _ _ (reads_exists _)) in E1 as [F1 Hq]. destruct queued.
  - injection E2 as <- <-. rewrite F1. split; [by apply Hq|done].
  - apply does_write_rename in E2 as [H1 H2]; [|intros [= E]; by apply (f_equal String.length) in E; rewrite !str_length_app in E; cbn in E; lia].
    rewrite F1 in H2. split; [by eexists|]. intros p Hp. apply H2; intros ->; by apply Hp.
Qed.

(** Enforcing the cap for a new object: the others go, oldest first, until the rest fits. *)
Lemma does_enforce_keep id entries s n :
  Forall (fun e => 0 <= qe_bytes e) entries -> 0 <= s -> s + zsum (qe_bytes <$> entries) <= u64_max -> NoDup (qe_id <$> entries) ->
  does (enforce_loop self (Some id) entries (s + zsum (qe_bytes <$> entries)) n)
    (fun f0 f1 a => exists X, X ⊆ (qe_id <$> entries) /\ (id ∉ X) /\ lost X f0 f1
      /\ (s + zsum (qe_bytes <$> filter (fun e => qe_id e ∉ X) entries) <= q_max_bytes self
          \/ forall e, e ∈ entries -> (qe_id e ∉ X) -> qe_id e = id)).
Proof.
  intros Hb. revert s n. induction Hb as [|e entries He Hb IH]; intros s n Hs Hsum Hn.
  { apply does_ret. intros f. exists []. split_and!; [set_solver|set_solver|apply lost_refl|right; set_solver]. }
  rewrite fmap_cons in *. change (zsum (qe_bytes e :: (qe_bytes <$> entries))) with (qe_bytes e + zsum (qe_bytes <$> entries)) in *. cbn [enforce_loop].
  apply NoDup_cons in Hn as [Hne Hn]. pose proof (zsum_nonneg (qe_bytes <$> entries) ltac:(by apply Forall_fmap)) as Hnn.
  destruct (Z.leb_spec (s + (qe_bytes e + zsum (qe_bytes <$> entries))) (q_max_bytes self)) as [Hle|Hgt].
  { apply does_ret. intros f. exists []. split_and!; [set_solver|set_solver|apply lost_refl|]. left. rewrite filter_all_id by set_solver. done. }
  case_bool_decide as Hk.
  - injection Hk as Hk. replace (s + (qe_bytes e + zsum (qe_bytes <$> entries))) with ((s + qe_bytes e) + zsum (qe_bytes <$> entries)) by lia.
    eapply does_mono; [apply IH; [lia|lia|done]|]. cbn beta. intros f f1 a (X & H1 & H2 & H3 & H4). exists X. split_and!; [set_solver|done|done|].
    rewrite filter_cons, decide_True by (by rewrite Hk). destruct H4 as [H4|H4]; [left; rewrite fmap_cons; cbn [zsum foldr]; unfold zsum in *; lia|right].
    intros e' [->|He']%elem_of_cons; [done|by apply H4].
  - eapply does_bind; [apply does_remove_local|]. intros f [].
    assert (sat_u64 (s + (qe_bytes e + zsum (qe_bytes <$> entries)) - qe_bytes e) = s + zsum (qe_bytes <$> entries)) as -> by (unfold sat_u64; lia).
    eapply does_mono; [apply IH; [done|lia|done]|]. cbn beta. intros f1 f2 a (X & H1 & H2 & H3 & H4) Hl. exists (qe_id e :: X).
    split_and!; [set_solver|intros [->|]%elem_of_cons; [by apply Hk|done]|by apply (lost_trans [qe_id e] X f f1 f2)|].
    rewrite filter_cons, decide_False by set_solver.
    rewrite (filter_ext_elem _ (fun e => qe_id e ∉ X)).
    2: { intros e' He'. split; [set_solver|]. intros Hx [E|]%elem_of_cons; [|done]. apply Hne. rewrite <- E. apply list_elem_of_fmap. eauto. }
    destruct H4 as [H4|H4]; [by left|right]. intros e' [->|He']%elem_of_cons Hx; [set_solver|]. apply H4; set_solver.
Qed.

(** The new object survives its own eviction round. *)
Lemma enforce_spares id entries total n :
  touches (fun p => p.1 = InDir /\ p <> data_path id) (enforce_loop self (Some id) entries total n).
Proof.
  revert total n. induction entries as [|e entries IH]; intros total n; cbn; [touch|]. destruct (_ <=? _); [touch|]. case_bool_decide as Hk; [apply IH|].
  apply touches_bind; [|intros []; apply IH]. apply touches_remove_local.
  - split; [done|]. intros E. symmetry in E. by apply data_not_entry in E.
  - split; [done|]. unfold data_path. intros [= E]. apply str_app_cancel_r in E. by rewrite E in Hk.
Qed.

Lemma dot_not_entry name : ~ is_entry_file (InDir, "." +:+ name).
Proof.
  intros ([|c id] & Hid & E); [done|]. unfold entry_path in E. rewrite !str_app_cons in E. injection E as E1 E2.
  apply andb_true_iff in Hid as [_ Hx]. by rewrite <- E1 in Hx.
Qed.
Lemma entry_path_inj id id' : entry_path id = entry_path id' -> id = id'.
Proof. unfold entry_path. intros [= E]. by apply str_app_cancel_r in E. Qed.

(** Storing a new entry adds it to the list. *)
Lemma entries_in_add e f f' :
  is_sha256_hex (qe_id e) = true -> qe_kind e = ENTRY_KIND -> qe_tenant_id e = q_tenant self -> stored e f' ->
  (forall id, is_sha256_hex id = true -> id <> qe_id e -> f' !! entry_path id = f !! entry_path id) ->
  (b ← f !! entry_path (qe_id e); decode_entry self (qe_id e) b) = None ->
  entries_in self f' ≡ₚ e :: entries_in self f.
Proof.
  intros Hid Hk Ht Hst Hsame Hnone. destruct (stored_decode e f' Hst Hk Ht) as (b & Hb & Hd).
  assert (forall e', e' ∈ entries_in self f -> qe_id e' <> qe_id e) as Hnew.
  { intros e' (_ & b' & Hb' & Hd')%elem_of_entries_in E. rewrite E in *. by rewrite Hb' in Hnone; cbn in Hnone; rewrite Hd' in Hnone. }
  apply NoDup_Permutation; [apply NoDup_entries_in; exact _|constructor; [intros H; by apply (Hnew e)|apply NoDup_entries_in; exact _]|].
  intros e'. rewrite elem_of_cons, !elem_of_entries_in. destruct (decide (qe_id e' = qe_id e)) as [E|E].
  - rewrite E. split.
    + intros (_ & b' & Hb' & Hd'). left. congruence.
    + intros [->|(_ & b' & Hb' & Hd')]; [eauto|]. rewrite Hb' in Hnone. cbn in Hnone. congruence.
  - split.
    + intros (Hid' & b' & Hb' & Hd'). right. split; [done|]. exists b'. by rewrite <- Hsame.
    + intros [->|(Hid' & b' & Hb' & Hd')]; [done|]. split; [done|]. exists b'. by rewrite Hsame.
Qed.

(** The first three steps of keeping a new object. *)
Definition keep_writes (file id : string) (refusal : Refusal) (now : Z) : Eff Disk unit :=
  _ ← write_rename (InDir, "." +:+ id +:+ ".parquet.tmp") (data_path id) file;
  _ ← store (new_entry self id refusal (str_len file) now);
  enqueue id now.
Lemma does_keep_writes file id refusal now :
  is_sha256_hex id = true ->
  does (keep_writes file id refusal now) (fun f0 f1 _ => stored (new_entry self id refusal (str_len file) now) f1
    /\ f1 !! data_path id = Some file /\ is_Some (f1 !! (InOutbox, id))
    /\ forall id', is_sha256_hex id' = true -> id' <> id -> f1 !! entry_path id' = f0 !! entry_path id').
Proof.
  intros Hid d d' u (d1 & [] & E1 & E)%Eff_bind_ok. apply Eff_bind_ok in E as (d2 & [] & E2 & E3).
  apply does_write_rename in E1 as [W1 S1]; [|intros [= E]; by apply (f_equal String.length) in E; rewrite !str_length_app in E; cbn in E; lia].
  apply does_store in E2 as [W2 S2]. cbn [qe_id new_entry] in *. apply does_enqueue in E3 as [W3 S3].
  assert (forall name, data_path id <> (InDir, "." +:+ name)) as Hdot.
  { intros name [= E]. destruct id as [|c id]; [done|]. rewrite !str_app_cons in E. injection E as E1 E2. apply andb_true_iff in Hid as [_ Hx]. by rewrite E1 in Hx. }
  split_and!; [|rewrite S3, S2; [done|apply Hdot|apply data_not_entry|done]|done|].
  - destruct W2 as (b & Hb & He). exists b. by rewrite S3.
  - intros id' Hid' Hne. rewrite S3 by done. rewrite S2, S1; [done|..].
    + intros E. apply (dot_not_entry (id +:+ ".parquet.tmp")). exists id'. by rewrite <- E.
    + intros E. symmetry in E. by apply data_not_entry in E.
    + intros E. apply (dot_not_entry (id +:+ ".json.tmp")). exists id'. by rewrite <- E.
    + intros E. by apply entry_path_inj in E.
Qed.

Lemma keep_new_steps file id refusal now d d' :
  keep self file id refusal now d = (d', Ok KeptNew) ->
  is_sha256_hex id = true /\ str_len file <= q_max_object_bytes self
  /\ (b ← d_files d !! entry_path id; decode_entry self id b) = None
  /\ exists d1 d2 d3 n, d_files d1 = d_files d /\ keep_writes file id refusal now d1 = (d2, Ok tt) /\ enforce_cap self (Some id) d2 = (d3, Ok n) /\ d' = d3.
Proof.
  intros (d1 & [] & E1 & E)%Eff_bind_ok. apply (does_reads _ _ (reads_valid_id _)) in E1 as [F1 Hid].
  apply Eff_bind_ok in E as (d2 & bytes & E2 & E). unfold fs_call in E2. apply Eff_bind_ok in E2 as (dx & x & Ex & E2). apply reads_fault in Ex as [Fx _].
  destruct x; [|done..]. injection E2 as <- <-. destruct (Z.ltb_spec (q_max_object_bytes self) (str_len file)) as [|Hle]; [done|].
  apply Eff_bind_ok in E as (d3 & o & E3 & E). apply (does_reads _ _ (reads_load self _)) in E3 as [F3 Ho]. destruct o as [e|].
  { apply Eff_bind_ok in E as (d4 & u & _ & E). by apply Eff_bind_ok in E as (d5 & v & _ & [=]). }
  split_and!; [done|done|by rewrite <- F1, <- Fx|]. apply Eff_bind_ok in E as (d4 & [] & E4 & E). apply Eff_bind_ok in E as (d5 & [] & E5 & E).
  apply Eff_bind_ok in E as (d6 & [] & E6 & E). apply Eff_bind_ok in E as (d7 & n & E7 & [= <-]). exists d3, d6, d7, n.
  split_and!; [congruence| |done|done]. unfold keep_writes, mbind, Eff_bind. by rewrite E4, E5.
Qed.
End keep.

Section results.
Context `{P : Platform} `{C : EntryCodec} `{CL : !EntryCodecLaws C} `{D : DirOrder} `{DL : !DirOrderLaws D} (self : Quarantine).

(** C37: what a sweep does. On a working disk it succeeds; and whenever it succeeds, whatever
    I/O faults it went through, the entries left are the unexpired ones less the shortest run
    of the oldest that brings the rest within the size cap, and it reports how many it dropped. *)
Theorem sweep_exact modified now d :
  0 <= q_max_bytes self -> Forall (fun e => 0 <= qe_bytes e) (entries_in self (d_files d)) ->
  zsum (qe_bytes <$> survivors self now (d_files d)) <= u64_max ->
  (calm d -> exists d' n, sweep self modified now d = (d', Ok n))
  /\ forall d' n, sweep self modified now d = (d', Ok n) ->
       exists k, entries_in self (d_files d') = drop k (survivors self now (d_files d))
         /\ cap_prefix (q_max_bytes self) (qe_bytes <$> survivors self now (d_files d)) k
         /\ n = (length (filter (fun e => (qe_expires_at_ms e <= now)%Z) (entries_in self (d_files d))) + k)%nat.
Proof.
  intros Hmax Hb Hs. split.
  - intros (_ & n & E & _)%(works_sweep self modified now). exists (sweep self modified now d).1, n. rewrite <- E. by destruct (sweep self modified now d).
  - intros d' n E. apply (does_sweep self modified now Hmax) in E. destruct E as (k & H1 & H2 & H3); [|done|by exists k].
    rewrite Forall_forall in *. intros e [_ He]%list_elem_of_filter. by apply Hb.
Qed.

(** C38: what keeping a refused object does. When it is kept as new, the directory lists an
    entry with the refusal's reason that expires after the TTL, holds the object's bytes and
    has the id queued for the bucket; every other entry listed was listed before; and the
    total size is within the cap, however large the directory was. *)
Theorem keep_new_exact file id refusal now d d' :
  q_max_object_bytes self <= q_max_bytes self -> Forall (fun e => 0 <= qe_bytes e) (entries_in self (d_files d)) ->
  str_len file + zsum (qe_bytes <$> entries_in self (d_files d)) <= u64_max ->
  keep self file id refusal now d = (d', Ok KeptNew) ->
  let e := new_entry self id refusal (str_len file) now in
  e ∈ entries_in self (d_files d') /\ d_files d' !! data_path id = Some file /\ is_Some (d_files d' !! (InOutbox, id))
  /\ (forall e', e' ∈ entries_in self (d_files d') -> e' = e \/ e' ∈ entries_in self (d_files d))
  /\ zsum (qe_bytes <$> entries_in self (d_files d')) <= q_max_bytes self.
Proof.
  intros Hobj Hb Hs (Hid & Hlen & Hnone & d1 & d2 & d3 & n & F1 & Ew & Ec & ->)%keep_new_steps. cbn zeta. set (e := new_entry self id refusal (str_len file) now).
  apply does_keep_writes in Ew as (Hst & Hdata & Hq & Hsame); [|done]. rewrite F1 in Hsame.
  pose proof (entries_in_add self e (d_files d) (d_files d2) Hid eq_refl eq_refl Hst Hsame Hnone) as Hperm.
  assert (Forall (fun e => 0 <= qe_bytes e) (entries_in self (d_files d2))) as Hb2 by (rewrite Hperm; constructor; [apply Nat2Z.is_nonneg|done]).
  assert (zsum (qe_bytes <$> entries_in self (d_files d2)) = str_len file + zsum (qe_bytes <$> entries_in self (d_files d))) as Hsum by (rewrite (zsum_perm _ _ (fmap_Permutation qe_bytes _ _ Hperm)); done).
  apply Eff_bind_ok in Ec as (d4 & l & E1 & E2). apply (does_reads _ _ (reads_list_entries self)) in E1 as [F4 ->].
  pose proof (does_touches _ _ (enforce_spares self id _ _ _) _ _ _ E2) as Sp. cbn beta in Sp. rewrite F4 in Sp.
  pose proof (Sp (data_path id) ltac:(intros [_ H]; by apply H)) as Sd. pose proof (Sp (InOutbox, id) ltac:(by intros [H _])) as So. clear Sp.
  rewrite sum_u64_exact in E2; [|by apply Forall_fmap|lia].
  replace (zsum _) with (0 + zsum (qe_bytes <$> entries_in self (d_files d2))) in E2 by lia.
  apply does_enforce_keep in E2 as (X & HX & Hx & Hl & Hfit); [|done|lia|lia|by apply NoDup_entry_ids]. rewrite F4 in Hl.
  rewrite (entries_in_ext self X _ _ Hl). split_and!.
  - apply list_elem_of_filter. split; [done|]. rewrite Hperm. set_solver.
  - by rewrite Sd.
  - by rewrite So.
  - intros e' [_ He']%list_elem_of_filter. rewrite Hperm in He'. set_solver.
  - destruct Hfit as [Hfit|Hall]; [lia|]. rewrite (zsum_perm _ [qe_bytes e]); [cbn; lia|]. change [qe_bytes e] with (qe_bytes <$> [e]). apply fmap_Permutation.
    apply NoDup_Permutation; [apply NoDup_filter, NoDup_entries_in; exact _|apply NoDup_singleton|]. intros e'. rewrite list_elem_of_filter, list_elem_of_singleton. split.
    + intros [Hn He']. apply (entries_in_inj self (d_files d2)); [done|rewrite Hperm; set_solver|]. by apply Hall.
    + intros ->. split; [done|]. rewrite Hperm. set_solver.
Qed.
End results.

Lemma forallb_bytes (l : list QuarantineEntry) : forallb (fun e => 0 <=? qe_bytes e) l = true -> Forall (fun e => 0 <= qe_bytes e) l.
Proof. rewrite forallb_forall, Forall_forall. intros H e He. apply Z.leb_le, H. by apply list_elem_of_In. Qed.
(** A folder that lists nothing. *)
Lemma no_names `{D : DirOrder} `{DL : !DirOrderLaws D} m f name b : dir_order m f = [] -> m !! (f, name) = Some b -> False.
Proof. intros En Hb. assert (name ∈ dir_order m f) as Hin by (apply dir_order_names; by eexists). rewrite En in Hin. by apply elem_of_nil in Hin. Qed.

(** ** A concrete directory *)

Module QuarantineExample.
Import ToyPlatform.
Definition entry_tuple (e : QuarantineEntry) :=
  (qe_kind e, qe_tenant_id e, qe_id e, qe_source_key e, qe_source_version e, qe_scope e, qe_reason e, qe_detail e,
   (qe_rows_rejected e, qe_bytes e, qe_quarantined_at_ms e, qe_expires_at_ms e, qe_refusals e, qe_replay_requested_at_ms e)).
#[export] Instance entry_countable : Countable QuarantineEntry.
Proof.
  refine (inj_countable' entry_tuple
    (fun '(a, b, c, d, e, f, g, h, (i, j, k, l, m, n)) => Build_QuarantineEntry a b c d e f g h i j k l m n) _).
  by intros [].
Defined.
(** A positive in binary, least bit first. *)
Fixpoint pos_text (p : positive) : string :=
  match p with xI p => String "1" (pos_text p) | xO p => String "0" (pos_text p) | xH => EmptyString end.
Fixpoint text_pos (s : string) : positive :=
  match s with String c s => if Ascii.eqb c "1" then xI (text_pos s) else xO (text_pos s) | EmptyString => xH end.
Lemma text_pos_text p : text_pos (pos_text p) = p.
Proof. induction p as [p IH|p IH|]; cbn; [by rewrite IH..|done]. Qed.
#[export] Instance toy_entries : EntryCodec := {|
  entry_to_vec e := Some (pos_text (encode e)); entry_from_slice b := decode (text_pos b) |}.
#[export] Instance toy_entries_laws : EntryCodecLaws toy_entries.
Proof. split. intros e b [= <-]. cbn. by rewrite text_pos_text, decode_encode. Qed.

#[export] Instance toy_order : DirOrder := {| dir_order m f := omap (fun kv => if decide (kv.1.1 = f) then Some kv.1.2 else None) (map_to_list m) |}.
#[export] Instance toy_order_laws : DirOrderLaws toy_order.
Proof.
  split.
  - intros m f. cbn. assert (forall l : list (Path * string), NoDup (l.*1) -> NoDup (omap (fun kv => if decide (kv.1.1 = f) then Some kv.1.2 else None) l)) as H.
    { induction l as [|[[g n] b] l IH]; cbn; [constructor|]. intros [Hn Hl]%NoDup_cons. destruct (decide (g = f)) as [->|]; [|by apply IH].
      constructor; [|by apply IH]. intros ([[g n'] b'] & Hin & E)%list_elem_of_omap. cbn in E. destruct (decide (g = f)) as [->|]; [|done]. injection E as ->.
      apply Hn. apply list_elem_of_fmap. by exists ((f, n), b'). }
    apply H, NoDup_fst_map_to_list.
  - intros m f name. cbn. rewrite list_elem_of_omap. split.
    + intros ([[g n] b] & Hin & E). cbn in E. destruct (decide (g = f)) as [->|]; [|done]. injection E as ->. apply elem_of_map_to_list in Hin. by eexists.
    + intros [b Hb]. exists ((f, name), b). split; [by apply elem_of_map_to_list|]. cbn. by rewrite decide_True.
Qed.

Definition tenant : string := "11111111-1111-4111-8111-111111111111".
Definition quarantine : Quarantine := {| q_tenant := tenant; q_max_bytes := 10; q_max_object_bytes := 8 |}.
Definition object : string := "payload".
Definition id : string := sha256_hex object.
Definition other : string := "second".
Definition refusal : Refusal :=
  {| rf_source_key := "edge/seg"; rf_source_version := "v"; rf_scope := "scope"; rf_reason := "reserve_refused"; rf_detail := "detail"; rf_rows_rejected := 3 |}.
Definition empty_disk : Disk := {| d_files := {[marker_path := "1"]}; d_faults := [] |}.
Definition kept_disk : Disk := run_op quarantine 1000 (OpKeep object id refusal) empty_disk.
Definition two_disk : Disk := run_op quarantine 2000 (OpKeep other (sha256_hex other) refusal) kept_disk.
Definition exported : QuarantineEntry := new_entry quarantine id refusal (str_len object) 1000.

Example kept_lists : entries_in quarantine (d_files kept_disk) = [exported].
Proof. vm_compute. reflexivity. Qed.
(** The second object evicts the first: seven and six bytes exceed the cap of ten. *)
Example two_evicts : qe_bytes <$> entries_in quarantine (d_files two_disk) = [6].
Proof. vm_compute. reflexivity. Qed.
Definition released_disk : Disk := run_op quarantine 5000 (OpRelease id) kept_disk.
Example released_mark : d_files released_disk !! (InReleased, id) = Some "5000" /\ entries_in quarantine (d_files released_disk) = [].
Proof. vm_compute. done. Qed.

(** After the release: the object is refused again, swept around and offered as an import. *)
Definition history : list (Z * QOp) :=
  [(6000, OpKeep object id refusal); (8000, OpTombstone id 4000); (9000, OpSweep (fun _ => None)); (9500, OpStage ".import-1" object)].
Lemma history_sorted : Sorted Z.le (history.*1 ++ [10000]).
Proof. repeat constructor; done. Qed.

(** Releasing an object twice: the tombstone keeps the first time, so the second release is forgotten at the first one's end. *)
Definition twice : list (Z * QOp) :=
  [(5000, OpRelease id); (6000, OpKeep object id refusal); (7000, OpRelease id); (5000 + QUARANTINE_TTL_MS, OpSweep (fun _ => None));
   (5000 + QUARANTINE_TTL_MS, OpStage ".import-1" object)].
End QuarantineExample.

Section witnesses.
Import ToyPlatform QuarantineExample.

(** An entry that was kept at 6000 and whose replay committed at 7000 is imported again once the
    tombstone of an earlier release of the same bytes, at 5000, is over: the later release does
    not move the tombstone. *)
Theorem second_release_forgotten :
  let e := new_entry quarantine QuarantineExample.id refusal (str_len object) 6000 in
  (import quarantine e (InDir, ".import-1") (5000 + QUARANTINE_TTL_MS) (run_ops quarantine twice kept_disk)).2 = Ok ImportedNew.
Proof. vm_compute. reflexivity. Qed.

Lemma released_stays_released_witness :
  refuses (InDir, ".import-1") (import quarantine exported (InDir, ".import-1") 10000) (run_ops quarantine history released_disk).
Proof.
  apply (released_stays_released quarantine history QuarantineExample.id "5000").
  - vm_compute. reflexivity.
  - exact (proj1 released_mark).
  - exact history_sorted.
  - reflexivity.
  - vm_compute. discriminate.
Defined.

Lemma sweep_exact_witness :
  exists d' n k, sweep quarantine (fun _ => None) (1000 + QUARANTINE_TTL_MS) two_disk = (d', Ok n)
    /\ entries_in quarantine (d_files d') = drop k (survivors quarantine (1000 + QUARANTINE_TTL_MS) (d_files two_disk)).
Proof.
  destruct (sweep_exact quarantine (fun _ => None) (1000 + QUARANTINE_TTL_MS) two_disk) as [H1 H2].
  - vm_compute. discriminate.
  - apply forallb_bytes. vm_compute. reflexivity.
  - vm_compute. discriminate.
  - destruct H1 as (d' & n & E).
    + split; [vm_compute; reflexivity|]. intros i b _ Hb. exfalso. revert Hb. apply no_names. vm_compute. reflexivity.
    + exists d', n. destruct (H2 d' n E) as (k & Hk & _). exists k. split; [exact E|exact Hk].
Defined.

Lemma keep_new_exact_witness :
  zsum (qe_bytes <$> entries_in quarantine (d_files two_disk)) <= 10.
Proof.
  refine (proj2 (proj2 (proj2 (proj2 (keep_new_exact quarantine other (sha256_hex other) refusal 2000 kept_disk two_disk _ _ _ _))))).
  - vm_compute. discriminate.
  - apply forallb_bytes. vm_compute. reflexivity.
  - vm_compute. discriminate.
  - assert ((keep quarantine other (sha256_hex other) refusal 2000 kept_disk).2 = Ok KeptNew) as Ek by (vm_compute; reflexivity).
    unfold two_disk, run_op. rewrite <- Ek. by destruct (keep quarantine other (sha256_hex other) refusal 2000 kept_disk).
Defined.
End witnesses.
