(* ===== verification/QuarantineStore.v ===== *)
(** * QuarantineStore: the quarantine's copy in the tenant bucket

    Models [part_ingest/quarantine_store.rs]: the keys of the mirrored objects and records,
    [mirror_once], and [restore_bounded], which rebuilds a fresh directory. The bucket is any
    [ObjectStore] with any answers; the free-space probe is injected as in the source. *)
From S2P Require Import Prelude Platform Format PartTypes ObjectStore Utf8 Quarantine.

Definition QUARANTINE_STORE_DIR : string := "bronze-quarantine-v1/".
Definition RECORD_KIND : string := "nano.lake.bronze-quarantine-record.v1".
Definition RESTORE_HORIZON_MS : Z := QUARANTINE_TTL_MS + 86400000.
Definition MIRROR_RETRY_MAX_MS : Z := 5 * 60000.
Definition MIRROR_RETRY_BASE_MS : Z := 2000.
Definition RESTORE_PAGE_KEYS : nat := 1000.
Definition RESTORE_MAX_RECORDS : nat := 64 * RESTORE_PAGE_KEYS.
Definition RESTORE_DISK_LOW : string := "restore_disk_low".
Definition RESTORE_DISK_RESERVE_BYTES : Z := 2147483648.

(** The wait before a retry; [failures] counts from one. *)
Definition retry_after_ms (failures : Z) : Z :=
  Z.min (sat_i64 (MIRROR_RETRY_BASE_MS * Z.shiftl 1 (Z.min (Z.max 0 (failures - 1)) 20))) MIRROR_RETRY_MAX_MS.

(** [Record] of the source. *)
Record QuarantineRecord := {
  qr_kind : string; qr_tenant_id : string; qr_id : string; qr_entry : option QuarantineEntry; qr_released : bool }.
#[export] Instance QuarantineRecord_eq_dec : EqDecision QuarantineRecord.
Proof. solve_decision. Defined.
Class RecordCodec := { record_to_vec : QuarantineRecord -> option string; record_from_slice : string -> option QuarantineRecord }.
Class RecordCodecLaws (C : RecordCodec) : Prop := {
  record_codec_roundtrip : forall r b, record_to_vec r = Some b -> record_from_slice b = Some r }.

(** The operations of the bucket; [put_file] streams a local file, absent or with its contents. *)
Class Bucket := {
  BucketWorld : Type;
  bucket_get : string -> Eff BucketWorld (option string);
  bucket_put_if_absent : string -> string -> Eff BucketWorld bool;
  bucket_put_file : string -> option string -> string -> Z -> WriteHints -> Eff BucketWorld bool;
  bucket_list_page : string -> option string -> nat -> Eff BucketWorld (list string);
  (** free bytes of the volume *)
  free_space : Eff BucketWorld Z }.

Definition on_fst {S T A} (m : Eff S A) : Eff (S * T) A := fun s => let '(x, r) := m s.1 in ((x, s.2), r).
Definition on_snd {S T A} (m : Eff T A) : Eff (S * T) A := fun s => let '(x, r) := m s.2 in ((s.1, x), r).

Section keys.
Context `{P : Platform} `{R : RecordCodec}.

Definition store_prefix (tenant_id : string) : result QError string :=
  match LogKeys_new tenant_id with Ok root => Ok (checkpoints_prefix root +:+ QUARANTINE_STORE_DIR) | Err e => Err (QTenant e) end.
Definition object_key (tenant_id id : string) : result QError string :=
  _ ← ensure (is_sha256_hex id) QInvalidId; prefix ← store_prefix tenant_id; Ok (prefix +:+ "objects/" +:+ id +:+ ".parquet").
Definition records_prefix (tenant_id : string) : result QError string := prefix ← store_prefix tenant_id; Ok (prefix +:+ "records/").
Definition record_key (prefix : string) (written_ms : Z) (body : string) : string :=
  prefix +:+ fmt_pad 13 written_ms +:+ "-" +:+ str_take 16 (sha256_hex body) +:+ ".json".

Definition record_matches (prefix key bytes : string) : bool :=
  match strip_prefix prefix key with
  | Some name =>
      (String.length name =? 35)%nat && str_all is_digit (str_take 13 name)
      && bool_decide (str_drop 13 name = "-" +:+ str_take 16 (sha256_hex bytes) +:+ ".json")
  | None => false
  end.
(** A record exactly as restore accepts it. *)
Definition record_ok (tenant prefix key body : string) (record : QuarantineRecord) : bool :=
  record_matches prefix key body && bool_decide (qr_kind record = RECORD_KIND) && bool_decide (qr_tenant_id record = tenant)
  && is_sha256_hex (qr_id record)
  && match qr_entry record with
     | Some e => bool_decide (qe_id e = qr_id record) && bool_decide (qe_tenant_id e = tenant)
     | None => true
     end.
Definition parse_record (tenant prefix key body : string) : option QuarantineRecord :=
  record ← record_from_slice body; if record_ok tenant prefix key body record then Some record else None.
Definition record_id (tenant_id key body : string) : option string :=
  match records_prefix tenant_id with
  | Ok prefix => qr_id <$> parse_record tenant_id prefix key body
  | Err _ => None
  end.
Definition record_written_ms (prefix key : string) : option Z :=
  name ← strip_prefix prefix key; '(digits, _) ← split_at_checked 13 name; parse_i64 digits.
End keys.

(** ** Mirroring *)

Section mirror.
Context `{P : Platform} `{C : EntryCodec} `{R : RecordCodec} `{B : Bucket} (self : Quarantine).
(** The disk, the bucket and the caller's [object_mirrored]. *)
Abbreviation MM := (Eff (Disk * BucketWorld * bool)).
Definition m_disk {A} (m : Eff Disk A) : MM A := on_fst (on_fst m).
Definition m_bucket {A} (m : Eff BucketWorld A) : MM A := on_fst (on_snd m).
Definition get_mirrored : MM bool := fun s => (s, Ok s.2).
Definition set_mirrored : MM unit := fun s => ((s.1, true), Ok tt).

(** The entry to mirror: one whose bytes are gone is mirrored as dropped. *)
Definition mirrored_entry (id : string) : MM (option QuarantineEntry) :=
  found ← m_disk (get self id);
  match found with
  | Some entry => data ← m_disk (data_file id); mret (if is_some data then Some entry else None)
  | None => mret None
  end.
Definition mirror_hints (written_ms : Z) : WriteHints :=
  {| wh_class := LakePart; wh_event_hour := event_hour_of (written_ms * 1000); wh_min_time_ms := written_ms; wh_max_time_ms := written_ms |}.
(** Put the bytes, unless an earlier try did. *)
Definition mirror_object (id : string) (written_ms : Z) (entry : QuarantineEntry) : MM unit :=
  data ← m_disk (data_file id);
  bytes ← eff_lift (of_option data QVanished);
  key ← eff_lift (object_key (q_tenant self) id);
  _ ← eff_lift (ensure (qe_bytes entry =? bytes) QDisagrees);
  mirrored ← get_mirrored;
  if (mirrored : bool) then mret tt else
  files ← m_disk fs_files;
  _ ← m_bucket (bucket_put_file key (files !! data_path id) id bytes (mirror_hints written_ms));
  set_mirrored.
Definition mirror_record (record : QuarantineRecord) (written_ms : Z) : MM unit :=
  body ← eff_lift (of_option (record_to_vec record) QEncode);
  prefix ← eff_lift (records_prefix (q_tenant self));
  let key := record_key prefix written_ms body in
  created ← m_bucket (bucket_put_if_absent key body);
  if (created : bool) then mret tt else
  existing ← m_bucket (bucket_get key);
  eff_lift (ensure (bool_decide (existing = Some body)) QRecordDiffers).
Definition mirror_once (id : string) (written_ms : Z) : MM unit :=
  _ ← eff_lift (ensure ((0 <=? written_ms) && (written_ms <=? 9999999999999)) QRecordTime);
  entry ← mirrored_entry id;
  _ ← match entry with Some e => mirror_object id written_ms e | None => mret tt end;
  released ← match entry with Some _ => mret false | None => at_ms ← m_disk (released_at id); mret (is_some at_ms) end;
  mirror_record {| qr_kind := RECORD_KIND; qr_tenant_id := q_tenant self; qr_id := id; qr_entry := entry; qr_released := released |} written_ms.
(** [mirror]: with no earlier try. *)
Definition mirror (id : string) (written_ms : Z) (s : Disk * BucketWorld) : Disk * BucketWorld * result QError unit :=
  let '(s', r) := mirror_once id written_ms (s, false) in (s'.1, r).
End mirror.

(** ** Restoring *)

Record Restored := {
  rs_entries : nat; rs_skipped : nat; rs_over_cap : nat; rs_records_beyond_bound : nat; rs_refused : option string; rs_low_water_ms : option Z }.
Definition restored_default : Restored :=
  {| rs_entries := 0; rs_skipped := 0; rs_over_cap := 0; rs_records_beyond_bound := 0; rs_refused := None; rs_low_water_ms := None |}.
Definition add_entries (n : nat) (r : Restored) : Restored :=
  {| rs_entries := rs_entries r + n; rs_skipped := rs_skipped r; rs_over_cap := rs_over_cap r; rs_records_beyond_bound := rs_records_beyond_bound r;
     rs_refused := rs_refused r; rs_low_water_ms := rs_low_water_ms r |}.
Definition add_skipped (n : nat) (r : Restored) : Restored :=
  {| rs_entries := rs_entries r; rs_skipped := rs_skipped r + n; rs_over_cap := rs_over_cap r; rs_records_beyond_bound := rs_records_beyond_bound r;
     rs_refused := rs_refused r; rs_low_water_ms := rs_low_water_ms r |}.
Definition add_over_cap (n : nat) (r : Restored) : Restored :=
  {| rs_entries := rs_entries r; rs_skipped := rs_skipped r; rs_over_cap := rs_over_cap r + n; rs_records_beyond_bound := rs_records_beyond_bound r;
     rs_refused := rs_refused r; rs_low_water_ms := rs_low_water_ms r |}.
Definition set_refused (reason : string) (r : Restored) : Restored :=
  {| rs_entries := rs_entries r; rs_skipped := rs_skipped r; rs_over_cap := rs_over_cap r; rs_records_beyond_bound := rs_records_beyond_bound r;
     rs_refused := Some reason; rs_low_water_ms := rs_low_water_ms r |}.
Definition set_bound (beyond : nat) (low : option Z) (r : Restored) : Restored :=
  {| rs_entries := rs_entries r; rs_skipped := rs_skipped r; rs_over_cap := rs_over_cap r; rs_records_beyond_bound := beyond;
     rs_refused := rs_refused r; rs_low_water_ms := low |}.

Section restore.
Context `{P : Platform} `{C : EntryCodec} `{R : RecordCodec} `{D : DirOrder} `{B : Bucket} (self : Quarantine).
Abbreviation RM := (Eff (Disk * BucketWorld)).
Definition r_disk {A} (m : Eff Disk A) : RM A := on_fst m.
Definition r_bucket {A} (m : Eff BucketWorld A) : RM A := on_snd m.

Definition after_key (prefix : string) (now_ms : Z) : string := prefix +:+ fmt_pad 13 (Z.max 0 (sat_i64 (now_ms - RESTORE_HORIZON_MS))).
Definition str_gt (a b : string) : bool := bool_decide (String.compare a b = Gt).

(** One key of a page: the newest [max_records] are kept. *)
Definition push_key (max_records : nat) (acc : list string * nat) (key : string) : list string * nat :=
  let keys := acc.1 ++ [key] in
  if (max_records <? length keys)%nat then (drop 1 keys, S acc.2) else (keys, acc.2).
(** The listing loop, at most [fuel] pages. *)
Fixpoint list_records (prefix : string) (max_records fuel : nat) (after : option string) (acc : list string * nat) : RM (list string * nat) :=
  match fuel with
  | O => eff_fail QOutOfFuel
  | S fuel =>
      page ← r_bucket (bucket_list_page prefix after RESTORE_PAGE_KEYS);
      _ ← eff_for page (fun key =>
            _ ← eff_lift (ensure (starts_with prefix key) QEscaped);
            eff_lift (ensure (match after with Some after => str_gt key after | None => true end) QBackwards));
      let after := match last page with Some key => Some key | None => after end in
      let acc := fold_left (push_key max_records) page acc in
      if (length page =? RESTORE_PAGE_KEYS)%nat then list_records prefix max_records fuel after acc else mret acc
  end.

(** The newest record of every id, the ids seen and the records skipped. *)
Abbreviation Newest := (gmap string (option QuarantineEntry * bool * Z)).
Fixpoint read_records (tenant prefix : string) (now_ms : Z) (keys : list string) (newest : Newest) (mirrored : gset string) (restored : Restored) :
    RM (Newest * gset string * Restored) :=
  match keys with
  | [] => mret (newest, mirrored, restored)
  | key :: keys =>
      body ← r_bucket (bucket_get key);
      match body with
      | None => read_records tenant prefix now_ms keys newest mirrored restored
      | Some body =>
          match parse_record tenant prefix key body with
          | None => read_records tenant prefix now_ms keys newest mirrored (add_skipped 1 restored)
          | Some record =>
              let written_ms := default now_ms (record_written_ms prefix key) in
              read_records tenant prefix now_ms keys (<[qr_id record := (qr_entry record, qr_released record, written_ms)]> newest)
                ({[qr_id record]} ∪ mirrored) restored
          end
      end
  end.

(** Releases are applied here; the entries to download are collected. *)
Fixpoint live_records (now_ms : Z) (newest : list (string * (option QuarantineEntry * bool * Z))) : RM (list QuarantineEntry) :=
  match newest with
  | [] => mret []
  | (id, (entry, released, written_ms)) :: newest =>
      kept ← match entry with
             | None =>
                 _ ← (if released : bool then r_disk (tombstone id written_ms) else mret tt);
                 _ ← r_disk (remove_local id); mret []
             | Some entry =>
                 if qe_expires_at_ms entry <=? now_ms then mret [] else
                 here ← r_disk (get self id);
                 if is_some here then mret [] else
                 at_ms ← r_disk (released_at id);
                 mret (if is_some at_ms then [] else [entry])
             end;
      live ← live_records now_ms newest;
      mret (kept ++ live)
  end.
(** Newest first. *)
Definition live_leb (a b : QuarantineEntry) : bool :=
  (qe_quarantined_at_ms b <? qe_quarantined_at_ms a)
  || ((qe_quarantined_at_ms b =? qe_quarantined_at_ms a) && String.leb (qe_id a) (qe_id b)).

(** [get_to_file] onto the staging file. *)
Definition get_to_file (key : string) (staging : Path) : RM bool :=
  body ← r_bucket (bucket_get key);
  match body with Some bytes => _ ← r_disk (fs_write staging bytes); mret true | None => mret false end.
(** One download, verified before it is adopted; the flag is whether it was. *)
Definition restore_entry (entry : QuarantineEntry) : RM bool :=
  key ← eff_lift (object_key (q_tenant self) (qe_id entry));
  found ← get_to_file key (staging_path "restore");
  if negb (found : bool) then mret false else
  '(bytes, digest) ← r_disk (file_digest (staging_path "restore"));
  if negb (bool_decide (digest = qe_id entry)) || negb (bytes =? qe_bytes entry)
  then _ ← r_disk (eff_ignore (fs_remove (staging_path "restore"))); mret false
  else _ ← r_disk (adopt self entry (staging_path "restore")); mret true.
Fixpoint download (live : list QuarantineEntry) (used : Z) (restored : Restored) : RM Restored :=
  match live with
  | [] => mret restored
  | entry :: live =>
      if q_max_object_bytes self <? qe_bytes entry then download live used (add_over_cap 1 restored) else
      if q_max_bytes self <? sat_u64 (used + qe_bytes entry) then mret (add_over_cap (1 + length live) restored) else
      free ← r_bucket free_space;
      if free <? sat_u64 (qe_bytes entry + RESTORE_DISK_RESERVE_BYTES) then mret (set_refused RESTORE_DISK_LOW restored) else
      adopted ← restore_entry entry;
      if (adopted : bool) then download live (wrap_u64 (used + qe_bytes entry)) (add_entries 1 restored)
      else download live used (add_skipped 1 restored)
  end.

(** [restore_bounded]; [modified] as in [sweep]. *)
Definition restore_bounded (modified : string -> option Z) (now_ms : Z) (max_records fuel : nat) : RM Restored :=
  let tenant := q_tenant self in
  prefix ← eff_lift (records_prefix tenant);
  '(keys, beyond) ← list_records prefix max_records fuel (Some (after_key prefix now_ms)) ([], O);
  let keys := sort_by String.leb keys in
  let low := if (0 <? beyond)%nat then Some (default i64_max (key ← head keys; record_written_ms prefix key)) else None in
  '(newest, mirrored, restored) ← read_records tenant prefix now_ms keys ∅ ∅ (set_bound beyond low restored_default);
  live ← live_records now_ms (omap (fun id => pair id <$> newest !! id) (btree_keys String.leb newest));
  '(_, used) ← r_disk (usage self);
  restored ← download (sort_by live_leb live) used restored;
  _ ← r_disk (eff_ignore (fs_remove (staging_path "restore")));
  _ ← r_disk (sweep self modified now_ms);
  entries ← r_disk (list_entries self);
  _ ← eff_for entries (fun entry => if bool_decide (qe_id entry ∈ mirrored) then mret tt else r_disk (enqueue_mirror (qe_id entry) now_ms));
  mret restored.
Definition restore (modified : string -> option Z) (now_ms : Z) (fuel : nat) : RM Restored := restore_bounded modified now_ms RESTORE_MAX_RECORDS fuel.
End restore.
