(* ===== verification/QuarantineMirror.v ===== *)
(** * QuarantineMirror: the quarantine through the bucket

    Theorems that join [Quarantine] and [QuarantineStore], for any I/O faults and any answers of
    the bucket: kept bytes always hash to their id, and what a mirror writes a restore reads
    back. *)
From S2P Require Import Prelude Platform Format PartTypes ObjectStore Utf8 Quarantine QuarantineFacts QuarantineSafety QuarantineStore.

(** ** Kept bytes always hash to their id *)

(** Every data file holds bytes with its id. *)
Definition data_right `{P : Platform} (f : Files) : Prop :=
  forall id b, is_sha256_hex id = true -> f !! data_path id = Some b -> sha256_hex b = id.

Section data_right.
Context `{P : Platform} `{C : EntryCodec} `{R : RecordCodec} `{D : DirOrder} `{B : Bucket} (self : Quarantine).
Implicit Types (d : Disk) (f : Files).
Abbreviation right := (fun d => data_right (d_files d)).

Definition is_data_file (p : Path) : Prop := exists id, is_sha256_hex id = true /\ p = data_path id.
(** Data files are only removed. *)
Definition shrinks {A} (m : Eff Disk A) : Prop :=
  forall d p, is_data_file p -> d_files (m d).1 !! p = d_files d !! p \/ d_files (m d).1 !! p = None.
Lemma shrinks_right {A} (m : Eff Disk A) : shrinks m -> preserves right m.
Proof.
  intros Hm d Hd id b Hid Hb. destruct (Hm d (data_path id)) as [E|E]; [by exists id| |congruence]. apply Hd; [done|]. by rewrite <- E.
Qed.
Lemma touches_shrinks {A} (T : Path -> Prop) (m : Eff Disk A) : touches T m -> (forall p, T p -> ~ is_data_file p) -> shrinks m.
Proof. intros Hm HT d p Hp. left. apply Hm. intros H. by apply (HT p). Qed.
Lemma shrinks_ret {A} (a : A) : shrinks (mret a).
Proof. intros d p _. by left. Qed.
Lemma shrinks_bind {A A'} (m : Eff Disk A) (k : A -> Eff Disk A') : shrinks m -> (forall a, shrinks (k a)) -> shrinks (m ≫= k).
Proof.
  intros Hm Hk d p Hp. specialize (Hm d p Hp). unfold mbind, Eff_bind. destruct (m d) as [d' [a|e]]; [|done]. cbn in Hm.
  destruct (Hk a d' p Hp) as [E|E]; [|by right]. by rewrite E.
Qed.
Lemma shrinks_ignore {A} (m : Eff Disk A) : shrinks m -> shrinks (eff_ignore m).
Proof. intros Hm d p Hp. by apply Hm. Qed.
Lemma shrinks_for {X} (l : list X) body : (forall x, shrinks (body x)) -> shrinks (eff_for l body).
Proof. intros Hb. induction l as [|x l IH]; cbn; [apply shrinks_ret|]. apply shrinks_bind; [apply Hb|by intros []]. Qed.
(** Computations that change nothing. *)
Lemma still_shrinks {A} (m : Eff Disk A) : touches (fun _ => False) m -> shrinks m.
Proof. intros Hm. by eapply touches_shrinks. Qed.
Lemma shrinks_remove p : shrinks (fs_remove p).
Proof.
  intros d q Hq. destruct (decide (p = q)) as [<-|Hne].
  - unfold fs_remove, fs_call, mbind, Eff_bind, next_fault. destruct (d_faults d) as [|[] fs]; cbn; try (by left).
    + destruct (is_some _); cbn; [right; apply lookup_delete_eq|by left].
    + destruct (is_some _); cbn; [right; apply lookup_delete_eq|by left].
  - left. apply (touches_remove (fun r => r = p)); [done|by intros ->].
Qed.

Lemma dot_not_data name : ~ is_data_file (InDir, "." +:+ name).
Proof.
  intros ([|c id] & Hid & E); [done|]. unfold data_path in E. rewrite !str_app_cons in E. injection E as E1 E2.
  apply andb_true_iff in Hid as [_ Hx]. by rewrite <- E1 in Hx.
Qed.
Lemma entry_not_data id : ~ is_data_file (entry_path id).
Proof. intros (id' & _ & E). symmetry in E. by apply data_not_entry in E. Qed.
Lemma outside_not_data p : p.1 <> InDir -> ~ is_data_file p.
Proof. intros Hp (id & _ & ->). by apply Hp. Qed.

(** The operations that write no data file. *)
Lemma shrinks_store e : shrinks (store e).
Proof.
  eapply touches_shrinks; [apply (touches_store (fun p => p = (InDir, "." +:+ qe_id e +:+ ".json.tmp") \/ p = entry_path (qe_id e))); auto|].
  intros p [->| ->]; [apply dot_not_data|apply entry_not_data].
Qed.
Lemma shrinks_enqueue id now : shrinks (enqueue id now).
Proof. eapply touches_shrinks; [by apply (touches_enqueue (fun p => p.1 <> InDir))|by apply outside_not_data]. Qed.
Lemma shrinks_tombstone id at_ms : shrinks (tombstone id at_ms).
Proof. eapply touches_shrinks; [by apply (touches_tombstone (fun p => p.1 <> InDir))|by apply outside_not_data]. Qed.
Lemma shrinks_remove_local id : shrinks (remove_local id).
Proof.
  unfold remove_local. apply shrinks_bind; [by apply still_shrinks; touch|intros []].
  apply shrinks_bind; [apply shrinks_remove|intros _]. apply shrinks_bind; [apply shrinks_remove|intros _]. apply shrinks_ret.
Qed.
Lemma shrinks_enforce_cap keep : shrinks (enforce_cap self keep).
Proof.
  unfold enforce_cap. apply shrinks_bind; [apply still_shrinks; touch|intros l]. generalize (sum_u64 (qe_bytes <$> l)) as total. generalize 0%nat as n.
  induction l as [|e l IH]; intros n total; cbn; [apply shrinks_ret|]. destruct (_ <=? _); [apply shrinks_ret|]. destruct (bool_decide _); [apply IH|].
  apply shrinks_bind; [apply shrinks_remove_local|intros []; apply IH].
Qed.
Lemma shrinks_sweep modified now : shrinks (sweep self modified now).
Proof.
  unfold sweep. apply shrinks_bind; [apply still_shrinks; touch|intros l]. apply shrinks_bind.
  { generalize 0%nat as n. induction l as [|e l IH]; intros n; cbn; [apply shrinks_ret|]. destruct (_ <=? _); [|apply IH].
    apply shrinks_bind; [apply shrinks_remove_local|intros []; apply IH]. }
  intros n. apply shrinks_bind; [apply still_shrinks; touch|intros names]. apply shrinks_bind.
  { apply shrinks_for. intros name. unfold sweep_name. apply shrinks_bind; [apply still_shrinks; touch|intros []].
    apply shrinks_bind; [destruct (strip_suffix _ _); apply still_shrinks; touch|intros orphan].
    destruct (_ && _); [apply shrinks_ret|]. destruct (_ || _); [apply shrinks_ignore, shrinks_remove|apply shrinks_ret]. }
  intros []. apply shrinks_bind; [apply still_shrinks; touch|intros tombs]. apply shrinks_bind.
  { apply shrinks_for. intros name. unfold sweep_released. apply shrinks_bind; [apply still_shrinks; touch|intros []].
    apply shrinks_bind; [destruct (is_sha256_hex name); apply still_shrinks; touch|intros expired].
    destruct (_ || _); [apply shrinks_ignore, shrinks_remove|apply shrinks_ret]. }
  intros []. apply shrinks_bind; [apply shrinks_enforce_cap|intros k; apply shrinks_ret].
Qed.
Lemma marker_not_data : ~ is_data_file marker_path.
Proof.
  intros (id & Hid & E). unfold marker_path, data_path in E. injection E as E. apply (f_equal String.length) in E. rewrite str_length_app in E.
  apply andb_true_iff in Hid as [Hl%Nat.eqb_eq _]. rewrite Hl in E. discriminate E.
Qed.
Lemma shrinks_mark_restored low : shrinks (mark_restored low).
Proof.
  eapply touches_shrinks; [apply (touches_write_rename (fun p => p = (InDir, "." +:+ RESTORED_MARKER +:+ ".tmp") \/ p = marker_path)); auto|].
  intros p [->| ->]; [apply dot_not_data|apply marker_not_data].
Qed.

Lemma write_data_right id file : sha256_hex file = id -> preserves right (write_rename (InDir, "." +:+ id +:+ ".parquet.tmp") (data_path id) file).
Proof.
  intros Hfile d Hd id' b Hid' Hb. assert (data_path id' <> (InDir, "." +:+ id +:+ ".parquet.tmp")) as Hdot.
  { intros E. apply (dot_not_data (id +:+ ".parquet.tmp")). exists id'. by rewrite <- E. }
  destruct (write_rename_lands _ (data_path id) file d _ Hdot) as [E|[E1 E]]; rewrite E in Hb; [by apply Hd|]. injection Hb as <-.
  unfold data_path in E1. injection E1 as E1. apply str_app_cancel_r in E1. by rewrite E1.
Qed.

(** Reads, then the rest. *)
Lemma right_read {A A'} (m : Eff Disk A) (k : A -> Eff Disk A') (g : Files -> A -> Prop) d :
  reads m g -> right d -> (forall d1 a, d_files d1 = d_files d -> g (d_files d) a -> right (k a d1).1) -> right ((m ≫= k) d).1.
Proof.
  intros Hm Hd Hk. unfold mbind, Eff_bind. destruct (m d) as [d1 [a|e]] eqn:E; apply Hm in E as [F Ha]; [by apply Hk; [|apply Ha]|]. cbn. by rewrite F.
Qed.

Lemma rename_lands s t d p : let f := d_files (fs_rename s t d).1 in f !! p = d_files d !! p \/ f !! p = None \/ (p = t /\ f !! p = d_files d !! s).
Proof.
  cbn zeta. unfold fs_rename, fs_call, mbind, Eff_bind, next_fault. destruct (d_faults d) as [|[] fs]; cbn; try (by left).
  all: destruct (d_files d !! s) as [b|] eqn:Eb; cbn; [|by left]; destruct (decide (p = t)) as [->|Ht]; [right; right; by rewrite lookup_insert_eq|];
    rewrite lookup_insert_ne by done; destruct (decide (p = s)) as [->|Hs]; [right; left; apply lookup_delete_eq|left; by rewrite lookup_delete_ne].
Qed.
Lemma adopt_right e staged b d : d_files d !! staged = Some b -> sha256_hex b = qe_id e -> right d -> right (adopt self e staged d).1.
Proof.
  intros Hb Hsha Hd. unfold adopt, eff_lift, ensure. destruct (_ && _); [|done].
  change (right ((_ ← fs_sync staged; _ ← fs_rename staged (data_path (qe_id e)); store e) d).1).
  eapply right_read; [apply reads_sync|done|]. intros d1 [] F1 _.
  assert (right (fs_rename staged (data_path (qe_id e)) d1).1) as Hr.
  { intros id c Hid Hc. destruct (rename_lands staged (data_path (qe_id e)) d1 (data_path id)) as [E|[E|[E1 E]]]; rewrite E in Hc; [|done|].
    - apply Hd; [done|]. by rewrite <- F1.
    - rewrite F1, Hb in Hc. injection Hc as <-. unfold data_path in E1. injection E1 as E1. apply str_app_cancel_r in E1. by rewrite E1. }
  unfold mbind, Eff_bind. destruct (fs_rename _ _ d1) as [d2 [u|err]]; [|done]. by apply shrinks_right; [apply shrinks_store|].
Qed.

Lemma reads_usage : reads (usage self) (fun _ _ => True).
Proof. eapply reads_bind; [apply reads_list_entries|]. intros l. by apply reads_ret. Qed.
Lemma reads_get id : reads (get self id) (fun _ _ => True).
Proof. eapply reads_bind; [apply reads_valid_id|]. intros []. eapply reads_mono; [apply reads_load|done]. Qed.
Lemma reads_data_file id : reads (data_file id) (fun _ _ => True).
Proof. eapply reads_bind; [apply reads_valid_id|]. intros []. eapply reads_mono; [apply reads_len|done]. Qed.

Lemma refused_right {A} staged reason d : right d -> right (refused (A := A) staged reason d).1.
Proof. intros Hd. apply shrinks_right; [|done]. apply shrinks_bind; [apply shrinks_ignore, shrinks_remove|]. intros []. by apply still_shrinks. Qed.

Lemma import_right e staged now d : right d -> right (import self e staged now d).1.
Proof.
  intros Hd. unfold import. destruct (negb _); [by apply refused_right|]. destruct (_ || _); [by apply refused_right|].
  eapply right_read; [apply reads_needs_restore|done|]. intros d1 pending F1 _. assert (right d1) as H1 by (by rewrite F1). destruct pending; [by apply refused_right|].
  eapply right_read; [apply reads_released_at|done|]. intros d2 at_ms F2 _. assert (right d2) as H2 by (by rewrite F2). destruct (is_some at_ms); [by apply refused_right|].
  eapply right_read; [apply reads_low_water|done|]. intros d3 low F3 _. assert (right d3) as H3 by (by rewrite F3).
  destruct (match low with Some _ => _ | None => _ end); [by apply refused_right|].
  unfold import_bytes. eapply right_read; [apply reads_file_digest|done|]. intros d4 [bytes digest] F4 (b & Hb & [= -> ->]). assert (right d4) as H4 by (by rewrite F4).
  destruct (bool_decide (sha256_hex b = qe_id e)) eqn:Hsha; [apply bool_decide_eq_true in Hsha; cbn [negb]|by apply refused_right].
  destruct (negb _); [by apply refused_right|]. destruct (_ <=? _); [by apply refused_right|]. destruct (_ <? _); [by apply refused_right|].
  eapply right_read; [apply reads_get|done|]. intros d5 kept F5 _. assert (right d5) as H5 by (by rewrite F5). destruct (is_some kept).
  - unfold import_kept. eapply right_read; [apply reads_data_file|done|]. intros d6 data F6 _. assert (right d6) as H6 by (by rewrite F6).
    destruct data; [|by apply refused_right]. eapply right_read; [apply reads_file_digest|done|]. intros d7 [? digest] F7 _. assert (right d7) as H7 by (by rewrite F7).
    destruct (bool_decide _); [|by apply refused_right]. apply shrinks_right; [|done]. apply shrinks_bind; [apply shrinks_ignore, shrinks_remove|intros []; apply shrinks_ret].
  - unfold import_new. eapply right_read; [apply reads_usage|done|]. intros d6 [n used] F6 _. assert (right d6) as H6 by (by rewrite F6).
    destruct (_ <? _)%nat; [by apply refused_right|]. destruct (_ <? _); [by apply refused_right|].
    assert (right (adopt self (set_replay None e) staged d6).1) as Ha by (apply (adopt_right _ _ b); [by rewrite F6, F5, F4|done|done]).
    unfold mbind, Eff_bind. destruct (adopt self (set_replay None e) staged d6) as [d7 [u|err]]; [|done].
    refine (shrinks_right (mbind (fun _ => mret ImportedNew) (enqueue_mirror (qe_id (set_replay None e)) now)) _ d7 Ha).
    apply shrinks_bind; [|intros []; apply shrinks_ret]. apply shrinks_bind; [by apply still_shrinks; touch|intros []; apply shrinks_enqueue].
Qed.

Lemma keep_right file id refusal now : id = sha256_hex file -> preserves right (keep self file id refusal now).
Proof.
  intros Hid. unfold keep. assert (forall A (m : Eff Disk A), touches (fun _ => False) m -> preserves right m) as Hstill by (intros; by apply shrinks_right, still_shrinks).
  apply preserves_bind; [apply Hstill; touch|intros []]. apply preserves_bind; [apply Hstill; touch|intros bytes]. destruct (_ <? _); [apply Hstill; touch|].
  apply preserves_bind; [apply Hstill; touch|]. intros [e|].
  - apply shrinks_right. apply shrinks_bind; [apply shrinks_store|intros []]. apply shrinks_bind; [apply shrinks_enqueue|intros []; apply shrinks_ret].
  - apply preserves_bind; [by apply write_data_right|intros []]. apply shrinks_right. apply shrinks_bind; [apply shrinks_store|intros []].
    apply shrinks_bind; [apply shrinks_enqueue|intros []]. apply shrinks_bind; [apply shrinks_enforce_cap|intros n; apply shrinks_ret].
Qed.

(** The operations as the ingest uses them: an object is kept under its digest, and staging
    files are hidden files. Entries are adopted only by an import or a restore. *)
Definition honest (op : QOp) : Prop :=
  match op with
  | OpKeep file id _ => id = sha256_hex file
  | OpStage name _ => starts_with "." name = true
  | OpAdopt _ _ => False
  | _ => True
  end.
Lemma run_op_right now op d : honest op -> right d -> right (run_op self now op d).
Proof.
  assert (forall A (m : Eff Disk A), touches (fun _ => False) m -> shrinks m) as Hstill by (intros; by apply still_shrinks).
  intros Hop Hd. destruct op; cbn [run_op].
  - by apply keep_right.
  - apply shrinks_right; [|done]. unfold request_replay. destruct (negb _); [by apply Hstill|]. destruct (negb _); [by apply Hstill|].
    apply shrinks_bind; [apply Hstill; touch|]. intros [e|]; [|by apply Hstill]. apply shrinks_bind; [apply Hstill; touch|intros there].
    destruct (negb there); [by apply Hstill|]. apply shrinks_bind; [apply shrinks_store|intros []]. apply shrinks_bind; [apply shrinks_enqueue|intros []; apply shrinks_ret].
  - apply shrinks_right; [|done]. unfold clear_replay. apply shrinks_bind; [apply Hstill; touch|]. intros [e|]; [|apply shrinks_ret].
    destruct (is_some _); [|apply shrinks_ret]. apply shrinks_bind; [apply shrinks_store|intros []; apply shrinks_enqueue].
  - apply shrinks_right; [|done]. apply shrinks_bind; [apply shrinks_tombstone|intros []]. apply shrinks_bind; [apply shrinks_remove_local|intros []; apply shrinks_enqueue].
  - apply shrinks_right; [apply shrinks_tombstone|done].
  - apply shrinks_right; [apply shrinks_remove_local|done].
  - apply shrinks_right; [apply shrinks_sweep|done].
  - apply shrinks_right; [|done]. apply starts_with_spec in Hop as [r ->].
    eapply touches_shrinks; [by apply (touches_write (fun p => p = (InDir, "." +:+ r)))|]. intros p ->. apply dot_not_data.
  - done.
  - by apply import_right.
  - apply shrinks_right; [|done]. apply shrinks_bind; [apply Hstill; touch|intros []; apply shrinks_enqueue].
  - apply shrinks_right; [|done]. apply shrinks_bind; [apply Hstill; touch|intros []]. apply shrinks_bind; [apply shrinks_remove|intros b; apply shrinks_ret].
  - apply shrinks_right; [apply shrinks_mark_restored|done].
Qed.

(** A restore, whatever the bucket answers. *)
Definition keeps_right {A} (m : Eff (Disk * BucketWorld) A) : Prop := forall s, right s.1 -> right (m s).1.1.
Lemma keeps_ret {A} (a : A) : keeps_right (mret a).
Proof. by intros s Hs. Qed.
Lemma keeps_fail {A} e : keeps_right (eff_fail (A := A) e).
Proof. by intros s Hs. Qed.
Lemma keeps_lift {A} r : keeps_right (eff_lift (A := A) r).
Proof. by intros s Hs. Qed.
Lemma keeps_bind {A A'} (m : Eff (Disk * BucketWorld) A) (k : A -> Eff (Disk * BucketWorld) A') : keeps_right m -> (forall a, keeps_right (k a)) -> keeps_right (m ≫= k).
Proof. intros Hm Hk s Hs. specialize (Hm s Hs). unfold mbind, Eff_bind. destruct (m s) as [s' [a|e]]; [by apply Hk|done]. Qed.
Lemma keeps_disk {A} (m : Eff Disk A) : preserves right m -> keeps_right (r_disk m).
Proof. intros Hm [d w] Hd. specialize (Hm d Hd). unfold r_disk, on_fst. cbn. by destruct (m d). Qed.
Lemma keeps_bucket {A} (m : Eff BucketWorld A) : keeps_right (r_bucket m).
Proof. intros [d w] Hd. unfold r_bucket, on_snd. cbn. by destruct (m w). Qed.
Lemma keeps_for {X} (l : list X) body : (forall x, keeps_right (body x)) -> keeps_right (eff_for l body).
Proof. intros Hb. induction l as [|x l IH]; cbn; [apply keeps_ret|]. apply keeps_bind; [apply Hb|by intros []]. Qed.
Lemma keeps_still {A} (m : Eff Disk A) : touches (fun _ => False) m -> keeps_right (r_disk m).
Proof. intros Hm. by apply keeps_disk, shrinks_right, still_shrinks. Qed.

Lemma keeps_restore_entry e : keeps_right (restore_entry self e).
Proof.
  unfold restore_entry. apply keeps_bind; [apply keeps_lift|intros key]. apply keeps_bind.
  { unfold get_to_file. apply keeps_bind; [apply keeps_bucket|]. intros [b|]; [|apply keeps_ret]. apply keeps_bind; [|intros []; apply keeps_ret].
    apply keeps_disk, shrinks_right. eapply touches_shrinks; [by apply (touches_write (fun p => p = staging_path "restore"))|]. intros p ->. apply dot_not_data. }
  intros found. destruct (negb found); [apply keeps_ret|]. intros [d w] Hd. unfold mbind, Eff_bind, r_disk, on_fst. cbn.
  destruct (file_digest (staging_path "restore") d) as [d1 [[bytes digest]|err]] eqn:E; apply reads_file_digest in E as [F Ha]; cbn in *; [|by rewrite F].
  destruct (Ha _ eq_refl) as (b & Hb & [= -> ->]). destruct (_ || _) eqn:Eo.
  - assert (right (eff_ignore (fs_remove (staging_path "restore")) d1).1) as Hr by (apply shrinks_right; [apply shrinks_ignore, shrinks_remove|by rewrite F]).
    exact Hr.
  - apply orb_false_iff in Eo as [Eo _]. apply negb_false_iff, bool_decide_eq_true in Eo.
    assert (right (adopt self e (staging_path "restore") d1).1) as Hr by (apply (adopt_right _ _ b); [by rewrite F|done|by rewrite F]).
    cbn [fst snd]. by destruct (adopt self e (staging_path "restore") d1) as [d2 [u|err]].
Qed.
Lemma keeps_download live used restored : keeps_right (download self live used restored).
Proof.
  revert used restored. induction live as [|e live IH]; intros used restored; cbn; [apply keeps_ret|]. destruct (_ <? _); [apply IH|]. destruct (_ <? _); [apply keeps_ret|].
  apply keeps_bind; [apply keeps_bucket|intros free]. destruct (_ <? _); [apply keeps_ret|]. apply keeps_bind; [apply keeps_restore_entry|]. intros []; apply IH.
Qed.
Lemma keeps_live_records now newest : keeps_right (live_records self now newest).
Proof.
  induction newest as [|[id [[entry released] written]] newest IH]; cbn; [apply keeps_ret|]. apply keeps_bind; [|intros kept; apply keeps_bind; [apply IH|intros live; apply keeps_ret]].
  destruct entry as [e|].
  - destruct (_ <=? _); [apply keeps_ret|]. apply keeps_bind; [apply keeps_still; unfold get; touch|intros here]. destruct (is_some here); [apply keeps_ret|].
    apply keeps_bind; [apply keeps_still; touch|intros at_ms; apply keeps_ret].
  - apply keeps_bind; [destruct released; [apply keeps_disk, shrinks_right, shrinks_tombstone|apply keeps_ret]|intros []].
    apply keeps_bind; [apply keeps_disk, shrinks_right, shrinks_remove_local|intros []; apply keeps_ret].
Qed.
Lemma keeps_restore modified now max_records fuel : keeps_right (restore_bounded self modified now max_records fuel).
Proof.
  unfold restore_bounded. apply keeps_bind; [apply keeps_lift|intros prefix]. apply keeps_bind.
  { generalize (Some (after_key prefix now)) as after, (@nil string, O) as acc. induction fuel as [|fuel IH]; intros after acc; cbn [list_records]; [apply keeps_fail|].
    apply keeps_bind; [apply keeps_bucket|intros page]. apply keeps_bind; [|intros []; destruct (_ =? _)%nat; [apply IH|apply keeps_ret]].
    apply keeps_for. intros key. apply keeps_bind; [apply keeps_lift|intros []; apply keeps_lift]. }
  intros [keys beyond]. apply keeps_bind.
  { generalize (set_bound beyond (if (0 <? beyond)%nat then Some (default i64_max (key ← head (sort_by String.leb keys); record_written_ms prefix key)) else None) restored_default) as restored.
    generalize (∅ : gmap string (option QuarantineEntry * bool * Z)) as newest. generalize (∅ : gset string) as mirrored.
    induction (sort_by String.leb keys) as [|key l IH]; intros mirrored newest restored; cbn [read_records]; [apply keeps_ret|].
    apply keeps_bind; [apply keeps_bucket|]. intros [body|]; [|apply IH]. destruct (parse_record _ _ _ _); apply IH. }
  intros [[newest mirrored] restored]. apply keeps_bind; [apply keeps_live_records|intros live]. apply keeps_bind; [apply keeps_still; unfold usage; touch|intros [n used]].
  apply keeps_bind; [apply keeps_download|intros restored']. apply keeps_bind; [apply keeps_disk, shrinks_right, shrinks_ignore, shrinks_remove|intros []].
  apply keeps_bind; [apply keeps_disk, shrinks_right, shrinks_sweep|intros dropped]. apply keeps_bind; [apply keeps_still; touch|intros entries].
  apply keeps_bind; [|intros []; apply keeps_ret]. apply keeps_for. intros e. destruct (bool_decide _); [apply keeps_ret|].
  apply keeps_disk, shrinks_right. apply shrinks_bind; [by apply still_shrinks; touch|intros []; apply shrinks_enqueue].
Qed.

(** A step of the directory's life: an operation, or a restore from a bucket in any state. *)
Inductive QStep :=
| StepOp (now : Z) (op : QOp)
| StepRestore (modified : string -> option Z) (now : Z) (max_records fuel : nat) (w : BucketWorld).
Definition run_step (d : Disk) (step : QStep) : Disk :=
  match step with
  | StepOp now op => run_op self now op d
  | StepRestore modified now max_records fuel w => (restore_bounded self modified now max_records fuel (d, w)).1.1
  end.
Definition honest_step (step : QStep) : Prop := match step with StepOp _ op => honest op | StepRestore _ _ _ _ _ => True end.

(** C22: the bytes handed to a replay hash to the id they were asked by. Through any sequence of
    operations and restores, with any I/O faults, torn writes included, and whatever the bucket
    answers, a data file that holds bytes under an id holds bytes with that SHA-256. *)
Theorem replay_bytes_verified steps id b d d' :
  data_right (d_files d) -> Forall honest_step steps -> copy_to id (fold_left run_step steps d) = (d', Ok (Some b)) -> sha256_hex b = id.
Proof.
  intros Hd Hs E. assert (data_right (d_files (fold_left run_step steps d))) as Hr.
  { clear E. revert d Hd. induction Hs as [|step steps Hstep _ IH]; intros d Hd; [done|]. cbn [fold_left]. apply IH. destruct step as [now op|modified now mr fuel w].
    - by apply run_op_right.
    - by apply (keeps_restore modified now mr fuel (d, w)). }
  apply Eff_bind_ok in E as (d1 & [] & E1 & E2). apply (does_reads _ _ (reads_valid_id _)) in E1 as [F1 Hid].
  apply (does_reads _ _ (reads_read _)) in E2 as [_ Hb]. symmetry in Hb. rewrite F1 in Hb. by apply (Hr id b Hid).
Qed.
End data_right.

(** ** What a mirror writes, a restore reads *)

(** What the [ObjectStore] trait promises: objects are immutable, a read returns what is stored,
    [Ok(true)] means these bytes are stored. A file put that succeeds was of a file with the
    digest and the length it was called with; [Ok(true)] means the file's bytes are stored,
    [Ok(false)] that the key was there already. *)
Class BucketLaws `{P : Platform} `{B : Bucket} (objects : BucketWorld -> gmap string string) : Prop := {
  bget_grows : forall key w, objects w ⊆ objects (bucket_get key w).1;
  bput_grows : forall key bytes w, objects w ⊆ objects (bucket_put_if_absent key bytes w).1;
  bget_some : forall key w w' bytes, bucket_get key w = (w', Ok (Some bytes)) -> objects w' !! key = Some bytes;
  bput_true : forall key bytes w w', bucket_put_if_absent key bytes w = (w', Ok true) -> objects w' !! key = Some bytes;
  bput_file_grows : forall key body sha bytes hints w, objects w ⊆ objects (bucket_put_file key body sha bytes hints w).1;
  bput_file : forall key body sha bytes hints w w' created, bucket_put_file key body sha bytes hints w = (w', Ok created) ->
    exists b, body = Some b /\ sha256_hex b = sha /\ str_len b = bytes /\ if created then objects w' !! key = Some b else is_Some (objects w !! key) }.

Section mirror.
Context `{P : Platform} `{PL : !PlatformLaws P} `{C : EntryCodec} `{R : RecordCodec} `{RL : !RecordCodecLaws R} `{B : Bucket}.
Context (objects : BucketWorld -> gmap string string) `{BL : !BucketLaws objects} (self : Quarantine).
(** The tenant's objects are content-addressed: what lies under an id's key hashes to the id. *)
Definition addressed (w : BucketWorld) : Prop :=
  forall id key b, object_key (q_tenant self) id = Ok key -> objects w !! key = Some b -> sha256_hex b = id.
(** The object under an id's key. *)
Definition object_of (id : string) (w : BucketWorld) : option string :=
  match object_key (q_tenant self) id with Ok key => objects w !! key | Err _ => None end.
Abbreviation State := (Disk * BucketWorld * bool)%type.
Abbreviation files s := (d_files s.1.1).
Abbreviation stored_in s := (objects s.1.2).

Lemma m_disk_ok {A} (m : Eff Disk A) (s s' : State) a : m_disk m s = (s', Ok a) -> exists d', m s.1.1 = (d', Ok a) /\ s' = ((d', s.1.2), s.2).
Proof. destruct s as [[d w] b]. unfold m_disk, on_fst. cbn. destruct (m d) as [d' r]. intros [= <- ->]. by exists d'. Qed.
Lemma m_bucket_ok {A} (m : Eff BucketWorld A) (s s' : State) a : m_bucket m s = (s', Ok a) -> exists w', m s.1.2 = (w', Ok a) /\ s' = ((s.1.1, w'), s.2).
Proof. destruct s as [[d w] b]. unfold m_bucket, on_fst, on_snd. cbn. destruct (m w) as [w' r]. intros [= <- ->]. by exists w'. Qed.
Lemma lift_ok {A} (r : result QError A) (s s' : State) a : eff_lift r s = (s', Ok a) -> s' = s /\ r = Ok a.
Proof. unfold eff_lift. by intros [= <- ->]. Qed.

(** The current state of an id: its entry when its bytes are there. *)
Definition current_entry (id : string) (f : Files) : option QuarantineEntry :=
  if is_some (f !! data_path id) then b ← f !! entry_path id; decode_entry self id b else None.

Lemma mirrored_entry_ok id (s s' : State) entry :
  mirrored_entry self id s = (s', Ok entry) -> is_sha256_hex id = true /\ files s' = files s /\ s'.1.2 = s.1.2 /\ s'.2 = s.2 /\ entry = current_entry id (files s).
Proof.
  intros (s1 & found & E1 & E2)%Eff_bind_ok. apply m_disk_ok in E1 as (d1 & E1 & ->). unfold get in E1. apply Eff_bind_ok in E1 as (d0 & [] & E0 & E1).
  apply (does_reads _ _ (reads_valid_id _)) in E0 as [F0 Hid]. apply (does_reads _ _ (reads_load self _)) in E1 as [F1 Hf]. rewrite F0 in *. unfold current_entry. rewrite <- Hf.
  destruct found as [e|].
  - apply Eff_bind_ok in E2 as (s2 & data & E2 & [= <- <-]). apply m_disk_ok in E2 as (d2 & E2 & ->). unfold data_file in E2. apply Eff_bind_ok in E2 as (d3 & [] & E3 & E2).
    apply (does_reads _ _ (reads_valid_id _)) in E3 as [F3 _]. apply (does_reads _ _ (reads_len _)) in E2 as [F2 ->]. cbn in *. rewrite F3, F1 in *. split_and!; [done|done|done|done|].
    by destruct (d_files s.1.1 !! data_path id).
  - injection E2 as <- <-. cbn. split_and!; [done|done|done|done|]. by destruct (is_some _).
Qed.

Lemma mirror_record_ok record written_ms rp (s s' : State) :
  records_prefix (q_tenant self) = Ok rp -> mirror_record self record written_ms s = (s', Ok tt) ->
  exists body, record_to_vec record = Some body /\ stored_in s' !! record_key rp written_ms body = Some body /\ stored_in s ⊆ stored_in s'.
Proof.
  intros Hrp (s1 & body & [-> Eb]%lift_ok & E)%Eff_bind_ok. unfold of_option in Eb. destruct (record_to_vec record) as [b|] eqn:Er; [|done]. injection Eb as ->.
  apply Eff_bind_ok in E as (s2 & rp' & [-> Ep]%lift_ok & E). rewrite Hrp in Ep. injection Ep as <-. apply Eff_bind_ok in E as (s3 & created & E3 & E).
  apply m_bucket_ok in E3 as (w3 & E3 & ->). exists body. split; [done|]. pose proof (bput_grows (objects := objects) (record_key rp written_ms body) body s.1.2) as G3. rewrite E3 in G3. cbn in G3. destruct created.
  - injection E as <-. cbn. split; [by eapply bput_true|done].
  - apply Eff_bind_ok in E as (s4 & existing & E4 & [-> Ee]%lift_ok). apply m_bucket_ok in E4 as (w4 & E4 & ->). apply ensure_ok_inv, bool_decide_eq_true in Ee as ->. cbn in *.
    pose proof (bget_grows (objects := objects) (record_key rp written_ms body) w3) as G4. rewrite E4 in G4. cbn in G4. split; [by eapply bget_some|by etrans].
Qed.

Lemma record_key_matches rp written_ms body :
  0 <= written_ms <= 9999999999999 -> record_matches rp (record_key rp written_ms body) body = true /\ record_written_ms rp (record_key rp written_ms body) = Some written_ms.
Proof.
  intros Hw. unfold record_matches, record_written_ms, record_key. rewrite strip_prefix_app. rewrite (fmt_pad_fixed 12) by (cbn; lia).
  pose proof (sha256_hex_wf body) as Hsha. unfold is_sha256_hex in Hsha. rewrite andb_true_iff, Nat.eqb_eq in Hsha. destruct Hsha as [Hl _].
  assert (String.length (str_take 16 (sha256_hex body)) = 16%nat) as H16 by (apply str_take_length; lia).
  rewrite !str_length_app, fixed_dec_length, H16, str_take_app, str_drop_app, fixed_dec_digits by apply fixed_dec_length. split.
  - cbn [Nat.add Nat.eqb String.length andb]. by apply bool_decide_eq_true.
  - cbn [mbind option_bind]. unfold split_at_checked. rewrite str_take_app, str_drop_app, !str_length_app, fixed_dec_length by apply fixed_dec_length.
    unfold str_get. rewrite str_drop_app by apply fixed_dec_length. cbn [Nat.leb Nat.add andb]. change (str_drop 0 ?x) with x.
    change (match ("-" +:+ ?r) with EmptyString => _ | String c _ => _ end) with (Some "-"%char). cbn iota beta.
    change (negb ((128 <=? byte_val "-") && (byte_val "-" <? 192))) with true. cbn [mbind option_bind]. unfold parse_i64.
    pose proof (dec_val_fixed 13 written_ms ltac:(cbn; lia)) as Hv. rewrite parse_signed_digits; [by rewrite Hv|..].
    + intros E. apply (f_equal String.length) in E. by rewrite fixed_dec_length in E.
    + apply fixed_dec_digits.
    + rewrite Hv. unfold i64_max. lia.
Qed.

(** A record within the horizon is listed. *)
Lemma record_listed rp written_ms body now :
  0 <= written_ms <= 9999999999999 -> now - RESTORE_HORIZON_MS <= written_ms -> str_gt (record_key rp written_ms body) (after_key rp now) = true.
Proof.
  intros Hw Hn. unfold str_gt, after_key, record_key. apply bool_decide_eq_true. set (n := Z.max 0 (sat_i64 (now - RESTORE_HORIZON_MS))).
  assert (0 <= n <= written_ms) as Hb by (unfold n, sat_i64, i64_min, i64_max; lia).
  rewrite str_compare_app, str_compare_refl by done. rewrite !(fmt_pad_fixed 12) by (cbn; lia).
  replace (fixed_dec 13 n) with (fixed_dec 13 n +:+ EmptyString) by (clear; induction (fixed_dec 13 n) as [|c t IH]; [done|by rewrite str_app_cons, IH]).
  rewrite str_compare_app by (by rewrite !fixed_dec_length). rewrite fixed_dec_compare by (cbn; lia).
  destruct (Z.compare_spec written_ms n); [done|lia|done].
Qed.

Lemma mirror_object_ok id written_ms e (s s' : State) :
  mirror_object self id written_ms e s = (s', Ok tt) -> addressed s.1.2 -> (s.2 = true -> is_Some (object_of id s.1.2)) ->
  files s' = files s /\ exists stored, object_of id s'.1.2 = Some stored /\ sha256_hex stored = id
    /\ (s.2 = false -> exists kept, files s !! data_path id = Some kept /\ sha256_hex kept = id /\ str_len kept = qe_bytes e
                                  /\ (object_of id s.1.2 = None -> stored = kept)).
Proof.
  intros (s1 & data & E1 & E)%Eff_bind_ok Haddr Hflag. apply m_disk_ok in E1 as (d1 & E1 & ->). apply Eff_bind_ok in E1 as (d0 & [] & E0 & E1).
  apply (does_reads _ _ (reads_valid_id _)) in E0 as [F0 _]. apply (does_reads _ _ (reads_len _)) in E1 as [F1 Hlen].
  apply Eff_bind_ok in E as (s2 & bytes & [-> Eb]%lift_ok & E). apply Eff_bind_ok in E as (s3 & key & [-> Ek]%lift_ok & E). apply Eff_bind_ok in E as (s4 & [] & [-> Ee]%lift_ok & E).
  apply Eff_bind_ok in E as (s5 & mirrored & [= <- <-] & E). cbn [snd] in E. unfold object_of in *. rewrite Ek in *. destruct s.2.
  - injection E as <-. cbn. split; [congruence|]. destruct (Hflag eq_refl) as [stored Hs]. exists stored. split_and!; [done|by eapply Haddr|done].
  - apply Eff_bind_ok in E as (s6 & f & E6 & E). apply m_disk_ok in E6 as (d6 & [= <- <-] & ->). apply Eff_bind_ok in E as (s7 & created & E7 & [= <-]).
    apply m_bucket_ok in E7 as (w7 & E7 & ->). cbn [fst snd] in *. split; [congruence|].
    pose proof (bput_file_grows (objects := objects) key (d_files d1 !! data_path id) id bytes (mirror_hints written_ms) s.1.2) as G. rewrite E7 in G. cbn in G.
    destruct (bput_file (objects := objects) _ _ _ _ _ _ _ _ E7) as (kept & Hk & Hsha & Hl & Hc). rewrite F1, F0 in Hk.
    apply ensure_ok_inv, Z.eqb_eq in Ee. assert (exists stored, objects w7 !! key = Some stored /\ sha256_hex stored = id /\ (objects s.1.2 !! key = None -> stored = kept)) as (stored & Hs1 & Hs2 & Hs3).
    { destruct created; [by exists kept|]. destruct Hc as [stored Hs]. exists stored. split_and!; [by eapply lookup_weaken|by eapply Haddr|congruence]. }
    exists stored. split_and!; [done|done|]. intros _. exists kept. split_and!; [done|done|lia|done].
Qed.

(** C23: what the mirror writes is what a restore reads back. When mirroring an id succeeds, the
    bucket holds a record that a restore accepts and, within the horizon, lists; the record
    carries the write time and the id's local state: its entry while its bytes are kept, else
    nothing, marked released exactly when it has a tombstone. And for an entry, with a bucket
    whose objects are content-addressed, the key the restore downloads holds bytes with the id as
    their SHA-256, as the local bytes that were uploaded have; where the bucket had no such object
    before, they are the local bytes, of the entry's length. (A mirror told that an earlier try put
    the object uploads nothing; then the object is the one that try put.) *)
Theorem mirror_restores id written_ms now rp (s s' : State) :
  mirror_once self id written_ms s = (s', Ok tt) -> records_prefix (q_tenant self) = Ok rp ->
  addressed s.1.2 -> (s.2 = true -> is_Some (object_of id s.1.2)) ->
  let entry := current_entry id (files s) in
  exists body record, let key := record_key rp written_ms body in
    stored_in s' !! key = Some body /\ parse_record (q_tenant self) rp key body = Some record
    /\ record_written_ms rp key = Some written_ms /\ qr_id record = id /\ qr_entry record = entry
    /\ (qr_released record = true <-> entry = None /\ is_Some (files s !! (InReleased, id)))
    /\ (forall e, entry = Some e -> exists stored, object_of id s'.1.2 = Some stored /\ sha256_hex stored = id
          /\ (s.2 = false -> exists kept, files s !! data_path id = Some kept /\ sha256_hex kept = id /\ str_len kept = qe_bytes e
                                        /\ (object_of id s.1.2 = None -> stored = kept)))
    /\ (now - RESTORE_HORIZON_MS <= written_ms -> str_gt key (after_key rp now) = true).
Proof.
  intros (s1 & [] & [-> Hw]%lift_ok & E)%Eff_bind_ok Hrp Haddr Hflag. apply ensure_ok_inv in Hw. rewrite andb_true_iff, !Z.leb_le in Hw.
  apply Eff_bind_ok in E as (s2 & entry & E2 & E). apply mirrored_entry_ok in E2 as (Hid & F2 & W2 & B2 & Hentry). cbn zeta. rewrite <- Hentry.
  apply Eff_bind_ok in E as (s3 & [] & E3 & E).
  assert (files s3 = files s /\ forall e, entry = Some e -> exists stored, object_of id s3.1.2 = Some stored /\ sha256_hex stored = id
      /\ (s.2 = false -> exists kept, files s !! data_path id = Some kept /\ sha256_hex kept = id /\ str_len kept = qe_bytes e
                                    /\ (object_of id s.1.2 = None -> stored = kept))) as [F3 Hobj].
  { destruct entry as [e|]; [|injection E3 as <-; by split]. rewrite <- W2 in Haddr, Hflag. rewrite <- B2 in Hflag. apply mirror_object_ok in E3 as [F3 Ho]; [|done|done].
    rewrite W2, B2, F2 in *. split; [done|]. by intros e' [= <-]. }
  apply Eff_bind_ok in E as (s4 & released & E4 & E).
  assert (s4.1.2 = s3.1.2 /\ (released = true <-> entry = None /\ is_Some (files s !! (InReleased, id)))) as [W4 Hrel].
  { destruct entry as [e|]; [injection E4 as <- <-; split; [done|]; split; [done|by intros [? _]]|]. apply Eff_bind_ok in E4 as (s5 & at_ms & E5 & [= <- <-]).
    apply m_disk_ok in E5 as (d5 & E5 & ->). apply (does_reads _ _ (reads_released_at _)) in E5 as [_ ->]. rewrite F3. split; [done|].
    rewrite is_some_spec, fmap_is_Some. by split; [|intros [_ ?]]. }
  apply (mirror_record_ok _ _ rp) in E as (body & Eb & Hb & Hsub); [|done].
  exists body, {| qr_kind := RECORD_KIND; qr_tenant_id := q_tenant self; qr_id := id; qr_entry := entry; qr_released := released |}.
  destruct (record_key_matches rp written_ms body ltac:(lia)) as [Hm Hms]. split_and!; [done| |done|done|done|done| |].
  - unfold parse_record. rewrite (record_codec_roundtrip _ _ Eb). cbn. unfold record_ok. rewrite Hm. cbn. rewrite !bool_decide_eq_true_2, Hid by done. cbn.
    destruct entry as [e|]; [|done]. assert (exists b, decode_entry self id b = Some e) as [b Hd].
    { unfold current_entry in Hentry. destruct (is_some _); [|done]. symmetry in Hentry. apply bind_Some in Hentry as (b & _ & ?). eauto. }
    apply decode_entry_id in Hd as (-> & -> & _). by rewrite !bool_decide_eq_true_2.
  - intros e He. destruct (Hobj e He) as (stored & Ho & Hrest). exists stored. split; [|done]. unfold object_of in *. destruct (object_key _ _); [|done].
    eapply lookup_weaken; [|exact Hsub]. by rewrite W4.
  - intros Hn. apply record_listed; [lia|done].
Qed.
End mirror.

(** ** A concrete bucket *)

Module BucketExample.
Import ToyPlatform QuarantineExample.
Definition record_tuple (r : QuarantineRecord) := (qr_kind r, qr_tenant_id r, qr_id r, qr_entry r, qr_released r).
#[export] Instance record_countable : Countable QuarantineRecord.
Proof. refine (inj_countable' record_tuple (fun '(a, b, c, d, e) => Build_QuarantineRecord a b c d e) _). by intros []. Defined.
#[export] Instance toy_records : RecordCodec := {|
  record_to_vec r := Some (pos_text (encode r)); record_from_slice b := decode (text_pos b) |}.
#[export] Instance toy_records_laws : RecordCodecLaws toy_records.
Proof. split. intros r b [= <-]. cbn. by rewrite text_pos_text, decode_encode. Qed.

Definition toy_put (key : string) (bytes : string) : Eff (gmap string string) bool := fun w =>
  match w !! key with Some _ => (w, Ok false) | None => (<[key := bytes]> w, Ok true) end.
Definition toy_put_file (key : string) (body : option string) (sha : string) (bytes : Z) : Eff (gmap string string) bool :=
  match body with Some b => if bool_decide (sha256_hex b = sha) && (str_len b =? bytes) then toy_put key b else eff_fail QIo | None => eff_fail QIo end.
#[export] Instance toy_bucket : Bucket := {|
  BucketWorld := gmap string string;
  bucket_get key w := (w, Ok (w !! key));
  bucket_put_if_absent := toy_put;
  bucket_put_file key body sha bytes _ := toy_put_file key body sha bytes;
  bucket_list_page prefix after limit w :=
    (w, Ok (take limit (sort_by String.leb (List.filter (fun k => starts_with prefix k && match after with Some a => str_gt k a | None => true end)
                                                        (map_to_list w).*1))));
  free_space w := (w, Ok 100000000000) |}.
Lemma toy_put_grows key bytes w : w ⊆ (toy_put key bytes w).1.
Proof. unfold toy_put. destruct (w !! key) eqn:E; [done|]. by apply insert_subseteq. Qed.
Lemma toy_put_ok key bytes w w' created : toy_put key bytes w = (w', Ok created) -> if created then w' !! key = Some bytes else is_Some (w !! key).
Proof.
  unfold toy_put. destruct (w !! key) eqn:E; intros [= <- <-]; [by eauto|]. apply lookup_insert_eq.
Qed.
#[export] Instance toy_bucket_laws : BucketLaws (B := toy_bucket) (fun w => w).
Proof.
  split.
  - done.
  - intros key bytes w. apply toy_put_grows.
  - by intros key w w' bytes [= <- ->].
  - intros key bytes w w' Hp. by apply toy_put_ok in Hp.
  - intros key [b|] sha bytes hints w; [|done]. cbn. destruct (_ && _); [apply toy_put_grows|done].
  - intros key [b|] sha bytes hints w w' created Hp; [|done]. cbn in Hp. destruct (_ && _) eqn:E; [|done]. apply toy_put_ok in Hp.
    apply andb_true_iff in E as [E1%bool_decide_eq_true E2%Z.eqb_eq]. by exists b.
Qed.

Definition prefix : string := unwrap EmptyString (records_prefix tenant).
Definition mirrored := mirror_once quarantine id 1500 ((kept_disk, ∅), false).
Definition fresh : Disk := {| d_files := ∅; d_faults := [] |}.
Definition restored := restore_bounded quarantine (fun _ => None) 2000 10 3 (fresh, mirrored.1.1.2).
(** The kept object reaches a fresh directory through the bucket. *)
Example mirror_then_restore :
  entries_in quarantine (d_files restored.1.1) = [exported] /\ d_files restored.1.1 !! data_path id = Some object
  /\ (rs_entries <$> match restored.2 with Ok r => Some r | Err _ => None end) = Some 1%nat.
Proof. vm_compute. done. Qed.

(** A metadata error on the entry file during a sweep: the bytes of a live entry go. *)
Definition faulty (k : nat) : Disk := {| d_files := d_files kept_disk; d_faults := replicate k Fine ++ [Fails] |}.

Definition steps : list (QStep (B := toy_bucket)) :=
  [StepOp 1000 (OpKeep object id refusal); StepRestore (fun _ => None) 2000 10 3 ∅; StepOp 3000 (OpSweep (fun _ => None))].
Definition lived : Disk := fold_left (run_step quarantine) steps fresh.
End BucketExample.

Section witnesses.
Import ToyPlatform QuarantineExample BucketExample.

(** [Path::exists] reports an error as absence: a sweep that meets one metadata error deletes the
    bytes of an entry it keeps, and reports success. *)
Theorem sweep_error_drops_bytes :
  let '(d, r) := sweep quarantine (fun _ => None) 2000 (faulty 8) in
  is_ok r = true /\ entries_in quarantine (d_files d) = [exported] /\ d_files d !! data_path QuarantineExample.id = None.
Proof. vm_compute. done. Qed.

Lemma replay_bytes_verified_witness : sha256_hex object = QuarantineExample.id.
Proof.
  apply (replay_bytes_verified quarantine steps QuarantineExample.id object fresh (copy_to QuarantineExample.id lived).1).
  - intros i b _ Hb. change ((∅ : Files) !! data_path i = Some b) in Hb. by rewrite lookup_empty in Hb.
  - repeat constructor.
  - assert ((copy_to QuarantineExample.id lived).2 = Ok (Some object)) as E by (vm_compute; reflexivity). rewrite <- E. unfold lived.
    by destruct (copy_to QuarantineExample.id (fold_left (run_step quarantine) steps fresh)).
Defined.

Lemma mirror_restores_witness :
  exists body record, mirrored.1.1.2 !! record_key prefix 1500 body = Some body /\ parse_record tenant prefix (record_key prefix 1500 body) body = Some record
    /\ qr_entry record = Some exported.
Proof.
  destruct (mirror_restores (B := toy_bucket) (fun w : gmap string string => w) quarantine QuarantineExample.id 1500 2000 prefix ((kept_disk, ∅), false) mirrored.1) as (body & record & H1 & H2 & _ & _ & H3 & _).
  - assert (mirrored.2 = Ok tt) as E by (vm_compute; reflexivity). rewrite <- E. unfold mirrored. by destruct (mirror_once quarantine QuarantineExample.id 1500 _).
  - vm_compute. reflexivity.
  - intros i key b _ Hb. change ((∅ : gmap string string) !! key = Some b) in Hb. by rewrite lookup_empty in Hb.
  - discriminate.
  - exists body, record. split; [exact H1|]. split; [exact H2|]. rewrite H3. vm_compute. reflexivity.
Defined.
End witnesses.
