(* ===== verification/QuarantineExpiry.v ===== *)
(** * QuarantineExpiry: the GC of expired quarantine keys

    Models [lake_part_gc/quarantine_expiry.rs]: which listed keys of the tenant's mirrored
    quarantine are expired, the records read to learn which objects are still named, the plan
    and the pass that hands it to the delete authority. The theorem joins it to
    [QuarantineStore]: what a pass deletes is nothing a later restore reads. *)
From S2P Require Import Prelude Platform Format PartTypes Json GcRequest GcPlanner GcEnv GcIndex GcExecutor GcPassSafety GcSafety GcPass ObjectStore.
From S2P Require Import Utf8 Quarantine QuarantineFacts QuarantineSafety QuarantineStore QuarantineMirror.

Definition MAX_QUARANTINE_DELETES_PER_PASS : nat := 64.
Definition MAX_YOUNG_RECORD_READS : nat := 256.
Definition MAX_QUARANTINE_LISTED : nat := 100 * 1000.
Definition MAX_RECORD_BYTES : Z := 65536.
Definition MIN_AGE_MS : Z := QUARANTINE_MIN_AGE_SECONDS * 1000.

Definition quarantine_prefix (tenant_uuid : string) : string := PARTS_ROOT +:+ "/tenant=" +:+ tenant_uuid +:+ "/" +:+ QUARANTINE_DIR.

Record QuarantinePlan := {
  qp_requests : list LakePartDeleteRequest; qp_objects : nat; qp_records : nat; qp_kept_by_young_record : nat; qp_objects_blocked : nat }.
Definition plan_default : QuarantinePlan :=
  {| qp_requests := []; qp_objects := 0; qp_records := 0; qp_kept_by_young_record := 0; qp_objects_blocked := 0 |}.

Definition is_old (at_ms now_ms : Z) : bool := sat_i64 (at_ms + MIN_AGE_MS) <=? now_ms.
Definition is_young (object : ListedPartObject) (written_ms : option Z) (now_ms : Z) : bool :=
  negb (is_old (lo_uploaded_at_ms object) now_ms) || match written_ms with Some at_ms => negb (is_old at_ms now_ms) | None => false end.

Section plan.
Context `{P : Platform} {J : JsonWriter}.

(** The records a pass must read: every record that is not deletable yet. *)
Definition young_record (tenant_uuid : string) (now_ms : Z) (object : ListedPartObject) : bool :=
  match parse_quarantine_key (lo_key object) with
  | Some key =>
      if bool_decide (qk_tenant_uuid key = tenant_uuid)
      then match qk_kind key with QRecord written_ms => is_young object (Some written_ms) now_ms | Object _ => false end
      else false
  | None => false
  end.
Definition young_record_keys (tenant_uuid : string) (listed : list ListedPartObject) (now_ms : Z) : list string :=
  lo_key <$> List.filter (young_record tenant_uuid now_ms) listed.

Definition expiry_request (tenant_slug tenant_uuid : string) (object : ListedPartObject) : LakePartDeleteRequest :=
  let r := request_base tenant_slug tenant_uuid (lo_key object) (lo_strong_etag object) (lo_content_length object) LakePartDeleteReason.QuarantineExpired in {|
  dr_schema_version := dr_schema_version r; dr_operation := dr_operation r; dr_tenant_id := dr_tenant_id r; dr_tenant_uuid := dr_tenant_uuid r;
  dr_bucket := dr_bucket r; dr_key := dr_key r; dr_strong_etag := dr_strong_etag r; dr_content_length := dr_content_length r; dr_reason := dr_reason r;
  dr_removal_seq := dr_removal_seq r; dr_removal_entry_sha256 := dr_removal_entry_sha256 r; dr_grace_seconds := dr_grace_seconds r;
  dr_orphan_min_age_seconds := dr_orphan_min_age_seconds r; dr_retention_day := dr_retention_day r; dr_retention_days := dr_retention_days r;
  dr_quarantine_min_age_seconds := Some QUARANTINE_MIN_AGE_SECONDS |}.

(** The loop over the listing: objects, records, kept and blocked so far. *)
Definition sort_step (tenant_slug tenant_uuid : string) (young_ids : option (gset string)) (now_ms : Z)
    (acc : list LakePartDeleteRequest * list LakePartDeleteRequest * nat * nat) (object : ListedPartObject) :
    list LakePartDeleteRequest * list LakePartDeleteRequest * nat * nat :=
  let '(objects, records, kept, blocked) := acc in
  match parse_quarantine_key (lo_key object) with
  | Some key =>
      if negb (bool_decide (qk_tenant_uuid key = tenant_uuid)) then acc else
      match qk_kind key with
      | Object id =>
          if is_young object None now_ms then acc else
          match young_ids with
          | None => (objects, records, kept, S blocked)
          | Some ids => if bool_decide (id ∈ ids) then (objects, records, S kept, blocked)
                        else (objects ++ [expiry_request tenant_slug tenant_uuid object], records, kept, blocked)
          end
      | QRecord written_ms =>
          if negb (is_young object (Some written_ms) now_ms) then (objects, records ++ [expiry_request tenant_slug tenant_uuid object], kept, blocked)
          else acc
      end
  | None => acc
  end.

Definition by_key (a b : LakePartDeleteRequest) : bool := String.leb (dr_key a) (dr_key b).
(** The loop over the candidates, up to the bound. *)
Fixpoint take_requests (max_requests : nat) (candidates : list (LakePartDeleteRequest * bool)) (p : QuarantinePlan) : QuarantinePlan :=
  match candidates with
  | [] => p
  | (request, is_object) :: candidates =>
      if (max_requests <=? length (qp_requests p))%nat then p else
      if negb (is_ok (validate_with_local request false)) then take_requests max_requests candidates p else
      take_requests max_requests candidates
        {| qp_requests := qp_requests p ++ [request]; qp_objects := (if is_object : bool then S (qp_objects p) else qp_objects p);
           qp_records := (if is_object : bool then qp_records p else S (qp_records p));
           qp_kept_by_young_record := qp_kept_by_young_record p; qp_objects_blocked := qp_objects_blocked p |}
  end.
Definition plan (tenant_slug tenant_uuid : string) (listed : list ListedPartObject) (young_ids : option (gset string)) (now_ms : Z)
    (max_requests : nat) : QuarantinePlan :=
  let '(objects, records, kept, blocked) := fold_left (sort_step tenant_slug tenant_uuid young_ids now_ms) listed ([], [], O, O) in
  take_requests max_requests (((fun r => (r, true)) <$> sort_by by_key objects) ++ ((fun r => (r, false)) <$> sort_by by_key records))
    {| qp_requests := []; qp_objects := 0; qp_records := 0; qp_kept_by_young_record := kept; qp_objects_blocked := blocked |}.
End plan.

(** ** The pass *)

Record QuarantineExpiryReport := {
  qx_skipped : option string; qx_listed : nat; qx_young_records : nat; qx_plan : QuarantinePlan; qx_executed : PassReport }.
Definition expiry_default : QuarantineExpiryReport :=
  {| qx_skipped := None; qx_listed := 0; qx_young_records := 0; qx_plan := plan_default; qx_executed := report_default |}.

(** [error.context(text)] *)
Definition with_context (text : string) (e : AnyError) : AnyError :=
  {| ae_text := text +:+ ": " +:+ ae_text e; ae_refusal := ae_refusal e; ae_bearer_refused := ae_bearer_refused e; ae_custody := ae_custody e;
     ae_progress := ae_progress e; ae_refresh_suspended := ae_refresh_suspended e; ae_inventory_stale := ae_inventory_stale e;
     ae_log_advanced := ae_log_advanced e |}.

Section run.
Context `{P : Platform} {J : JsonWriter} `{R : RecordCodec} `{W : GcWorld} `{H : HashIter}.

(** The ids the young records name, or [None] if they cannot all be read. *)
Fixpoint young_ids_loop (tenant_uuid : string) (listed : list ListedPartObject) (keys : list string) (ids : gset string) : GC (option (gset string)) :=
  match keys with
  | [] => mret (Some ids)
  | key :: keys =>
      if existsb (fun object => bool_decide (lo_key object = key) && (MAX_RECORD_BYTES <? lo_content_length object)) listed then mret None else
      answer ← get_small_object key MAX_RECORD_BYTES;
      match answer with
      | Ok (Some body) =>
          young_ids_loop tenant_uuid listed keys (match record_id tenant_uuid key body with Some id => {[id]} ∪ ids | None => ids end)
      | Ok None => young_ids_loop tenant_uuid listed keys ids
      | Err _ => mret None
      end
  end.
Definition young_ids (tenant_uuid : string) (listed : list ListedPartObject) (keys : list string) : GC (option (gset string)) :=
  if (MAX_YOUNG_RECORD_READS <? length keys)%nat then mret None else young_ids_loop tenant_uuid listed keys ∅.

(** The checks of the listing, sorted. *)
Definition check_listing (prefix : string) (listed : list ListedPartObject) : result AnyError (list ListedPartObject) :=
  _ ← ensure (length listed <=? MAX_QUARANTINE_LISTED)%nat (plain_error "bronze quarantine listing is over its bound");
  _ ← ensure (forallb (fun object => starts_with prefix (lo_key object)) listed) (plain_error "bronze quarantine listing escaped its prefix");
  let listed := sort_by (fun a b => String.leb (lo_key a) (lo_key b)) listed in
  _ ← ensure (negb (any_pair (fun a b => bool_decide (lo_key a = lo_key b)) listed)) (plain_error "bronze quarantine listing repeats a key");
  Ok listed.

Definition with_keys (refused : RefusedKeys) (pacer : AuthorizePacer) (state : LakePartGcState) : LakePartGcState :=
  {| gs_view := gs_view state; gs_pending_deleted := gs_pending_deleted state; gs_backoff_passes := gs_backoff_passes state;
     gs_refused_keys := refused; gs_authorize_pacer := pacer |}.

(** From a checked listing on. *)
Definition run_listed (tenant_slug tenant_uuid : string) (now_ms : Z) (state : LakePartGcState) (listed : list ListedPartObject) :
    GC (LakePartGcState * QuarantineExpiryReport) :=
  let young := young_record_keys tenant_uuid listed now_ms in
  ids ← young_ids tenant_uuid listed young;
  let p := plan tenant_slug tenant_uuid listed ids now_ms MAX_QUARANTINE_DELETES_PER_PASS in
  let report skipped executed :=
    {| qx_skipped := skipped; qx_listed := length listed; qx_young_records := length young; qx_plan := p; qx_executed := executed |} in
  match qp_requests p with
  | [] => mret (state, report (Some "nothing_expired") report_default)
  | requests =>
      '(refused, pacer, executed) ← execute_quarantine requests (gs_refused_keys state) (gs_authorize_pacer state) now_ms;
      mret (with_keys refused pacer state, report None executed)
  end.

Definition run (tenant_slug tenant_uuid : string) (now_ms : Z) (state : LakePartGcState) :
    GC (LakePartGcState * result AnyError QuarantineExpiryReport) :=
  supported ← worker_supports_quarantine_expiry;
  match supported with
  | Err e => mret (state, Err (with_context "quarantine expiry capability probe" e))
  | Ok false => mret (state, Ok {| qx_skipped := Some "worker_capability_missing"; qx_listed := 0; qx_young_records := 0; qx_plan := plan_default;
                                   qx_executed := report_default |})
  | Ok true =>
      answer ← list_part_objects (quarantine_prefix tenant_uuid);
      match answer with
      | Err e => mret (state, Err (with_context "list the bronze quarantine" e))
      | Ok listed =>
          match check_listing (quarantine_prefix tenant_uuid) listed with
          | Err e => mret (state, Err e)
          | Ok listed => '(state, report) ← run_listed tenant_slug tenant_uuid now_ms state listed; mret (state, Ok report)
          end
      end
  end.
End run.

(** ** What a pass may delete *)

Section justified.
Context `{P : Platform} {J : JsonWriter} `{R : RecordCodec} `{W : GcWorld} `{H : HashIter}.
Context (tenant_slug tenant : string) (now_ms : Z).
Implicit Types (o : ListedPartObject) (r : LakePartDeleteRequest).

(** A planned request: an old record, or an old object that no record read names. *)
Definition justified (listed : list ListedPartObject) (young_ids : option (gset string)) r : Prop :=
  exists o q, o ∈ listed /\ dr_key r = lo_key o /\ dr_tenant_uuid r = tenant /\ parse_quarantine_key (lo_key o) = Some q /\ qk_tenant_uuid q = tenant
    /\ match qk_kind q with
       | Object id => is_young o None now_ms = false /\ exists ids, young_ids = Some ids /\ id ∉ ids
       | QRecord written_ms => is_young o (Some written_ms) now_ms = false
       end.

Lemma sort_step_justified listed young_ids acc o :
  o ∈ listed -> Forall (justified listed young_ids) (acc.1.1.1 ++ acc.1.1.2) ->
  let acc' := sort_step tenant_slug tenant young_ids now_ms acc o in Forall (justified listed young_ids) (acc'.1.1.1 ++ acc'.1.1.2).
Proof.
  destruct acc as [[[objects records] kept] blocked]. cbn [fst snd]. intros Ho Hacc. cbn zeta. unfold sort_step.
  destruct (parse_quarantine_key (lo_key o)) as [q|] eqn:Eq; [|done]. destruct (bool_decide _) eqn:Et; [|done]. apply bool_decide_eq_true in Et. cbn [negb].
  apply Forall_app in Hacc as [Ho1 Ho2]. destruct (qk_kind q) as [id|written] eqn:Ek.
  - destruct (is_young o None now_ms) eqn:Ey; cbn [fst snd]; [by apply Forall_app|]. destruct young_ids as [ids|]; [|by apply Forall_app].
    destruct (bool_decide (id ∈ ids)) eqn:Ei; cbn [fst snd]; [by apply Forall_app|]. apply bool_decide_eq_false in Ei. rewrite !Forall_app, Forall_singleton. split_and!; [done| |done].
    exists o, q. rewrite Ek. split_and!; [done..|]. by exists ids.
  - destruct (is_young o (Some written) now_ms) eqn:Ey; cbn [fst snd negb]; [by apply Forall_app|]. rewrite !Forall_app, Forall_singleton. split_and!; [done|done|].
    exists o, q. rewrite Ek. split_and!; done.
Qed.
Lemma sort_fold_justified listed young_ids l acc :
  l ⊆ listed -> Forall (justified listed young_ids) (acc.1.1.1 ++ acc.1.1.2) ->
  let acc' := fold_left (sort_step tenant_slug tenant young_ids now_ms) l acc in Forall (justified listed young_ids) (acc'.1.1.1 ++ acc'.1.1.2).
Proof.
  cbn zeta. revert acc. induction l as [|o l IH]; intros acc Hl Hacc; [done|]. cbn [fold_left]. apply IH; [set_solver|]. apply sort_step_justified; [set_solver|done].
Qed.
Lemma take_requests_sub n candidates p r :
  r ∈ qp_requests (take_requests n candidates p) -> r ∈ qp_requests p \/ (r ∈ candidates.*1 /\ validate_with_local r false = Ok tt).
Proof.
  revert p. induction candidates as [|[c b] candidates IH]; intros p; cbn [take_requests]; [by left|]. destruct (_ <=? _)%nat; [by left|].
  destruct (validate_with_local c false) as [[]|e] eqn:Ev; cbn [is_ok negb].
  - intros [Hp|[Hc Hv]]%IH; [|right; cbn; set_solver]. cbn in Hp. apply elem_of_app in Hp as [|Hp]; [by left|]. apply list_elem_of_singleton in Hp as ->. right. cbn. set_solver.
  - intros [Hp|[Hc Hv]]%IH; [by left|right; cbn; set_solver].
Qed.
Lemma plan_justified listed young_ids n r :
  r ∈ qp_requests (plan tenant_slug tenant listed young_ids now_ms n) -> justified listed young_ids r /\ validate_with_local r false = Ok tt.
Proof.
  unfold plan. pose proof (sort_fold_justified listed young_ids listed ([], [], O, O) ltac:(done) (Forall_nil_2 _)) as Hj. cbn zeta in Hj.
  destruct (fold_left _ listed _) as [[[objects records] kept] blocked]. cbn [fst snd] in Hj. intros [Hr|[Hr Hv]]%take_requests_sub; [by apply elem_of_nil in Hr|]. split; [|done].
  rewrite Forall_forall in Hj. apply Hj. rewrite fmap_app, elem_of_app in Hr. rewrite elem_of_app.
  destruct Hr as [Hr|Hr]; [left|right]; apply list_elem_of_fmap in Hr as ([r' b] & -> & Hr); apply list_elem_of_fmap in Hr as (r'' & [= <- _] & Hr); by apply elem_of_sort_by in Hr.
Qed.

(** Every young record was read, and what it names is among the ids. *)
Definition records_read (ev : list Event) (keys : list string) (ids : gset string) : Prop :=
  forall key, key ∈ keys -> exists body, EvGetSmall key (Ok body) ∈ ev /\ forall b id, body = Some b -> record_id tenant key b = Some id -> id ∈ ids.

Lemma young_ids_loop_spec listed keys ids :
  yields (young_ids_loop tenant listed keys ids) (fun ev out => Forall harmless ev /\ forall ids', out = Some ids' -> ids ⊆ ids' /\ records_read ev keys ids').
Proof.
  revert ids. induction keys as [|key keys IH]; intros ids; cbn [young_ids_loop].
  { apply yields_ret. split; [constructor|]. intros ids' [= <-]. split; [done|]. by intros key ?%elem_of_nil. }
  destruct (existsb _ _); [apply yields_ret; split; [constructor|done]|]. apply yields_bind, yields_ask. intros answer.
  assert (forall ids1, ids ⊆ ids1 -> (forall body, answer = Ok body -> forall b id, body = Some b -> record_id tenant key b = Some id -> id ∈ ids1) -> is_ok answer = true ->
    yields (young_ids_loop tenant listed keys ids1) (fun e2 out => Forall harmless ([EvGetSmall key answer] ++ e2)
      /\ forall ids', out = Some ids' -> ids ⊆ ids' /\ records_read ([EvGetSmall key answer] ++ e2) (key :: keys) ids')) as Hrest.
  { intros ids1 Hsub Hin Hok. eapply yields_mono; [apply IH|]. intros e2 out [Hh Ho]. split; [by constructor|]. intros ids' Ei. destruct (Ho ids' Ei) as [Hs Hr]. split; [set_solver|].
    intros k [->|Hk]%elem_of_cons.
    - destruct answer as [body|]; [|done]. exists body. split; [set_solver|]. intros b id Eb Er. apply Hs. by eapply Hin.
    - destruct (Hr k Hk) as (body & Hb & Hids). exists body. split; [set_solver|done]. }
  destruct answer as [[body|]|e].
  - apply Hrest; [destruct (record_id tenant key body); set_solver| |done]. intros ? [= <-] b id [= <-] ->. set_solver.
  - apply Hrest; [done| |done]. by intros ? [= <-].
  - apply yields_ret. split; [by repeat constructor|done].
Qed.

Lemma check_listing_elems prefix listed0 listed : check_listing prefix listed0 = Ok listed -> forall o, o ∈ listed <-> o ∈ listed0.
Proof. unfold check_listing. intros Hc. inv_ok. intros o. by rewrite elem_of_sort_by. Qed.

(** What a pass knows when it retires a permit. *)
Definition retire_justified (ev : list Event) (permit : LakePartDeletePermit) : Prop :=
  exists listed0 listed ids, EvList (quarantine_prefix tenant) (Ok listed0) ∈ ev /\ (forall o, o ∈ listed <-> o ∈ listed0)
    /\ justified listed ids (pm_request permit) /\ validate_with_local (pm_request permit) false = Ok tt
    /\ forall ids', ids = Some ids' -> records_read ev (young_record_keys tenant listed now_ms) ids'.

Lemma execute_quarantine_spec (good : LakePartDeleteRequest -> Prop) requests refused pacer :
  Forall good requests -> yields (execute_quarantine requests refused pacer now_ms) (fun ev _ => each_event (authority_guard good false) [] ev).
Proof.
  intros Hg. unfold execute_quarantine. apply yields_bind. eapply (yields_mono _ (fun ev _ => each_event (authority_guard good false) [] ev)).
  - unfold execute_requests. apply yields_bind. eapply yields_mono.
    + apply (execute_loop_spec good false now_ms list_next (Forall good)) with (before := []); [|done|by vm_compute].
      intros [|x l] c' r Hl [= <- <-]. by apply Forall_cons in Hl.
    + intros ev [c x] [Hguard _]. apply yields_ret. by rewrite app_nil_r.
  - intros ev x Hev. apply yields_ret. by rewrite app_nil_r.
Qed.

Lemma retire_mono ev ev' permit : ev ⊆ ev' -> retire_justified ev permit -> retire_justified ev' permit.
Proof.
  intros Hsub (l0 & l & ids & H1 & H2 & H3 & H4 & H5). exists l0, l, ids. split_and!; [set_solver|done|done|done|]. intros ids' Ei key Hk.
  destruct (H5 ids' Ei key Hk) as (body & Hb & Hids). exists body. split; [set_solver|done].
Qed.

Lemma run_listed_spec state listed0 listed :
  (forall o, o ∈ listed <-> o ∈ listed0) ->
  yields (run_listed tenant_slug tenant now_ms state listed)
    (fun ev _ => forall permit answer, EvRetire permit answer ∈ ev -> retire_justified (EvList (quarantine_prefix tenant) (Ok listed0) :: ev) permit).
Proof.
  intros Hl. unfold run_listed. apply yields_bind.
  eapply (yields_mono _ (fun ev ids => Forall harmless ev /\ forall ids', ids = Some ids' -> records_read ev (young_record_keys tenant listed now_ms) ids')).
  { unfold young_ids. destruct (_ <? _)%nat; [apply yields_ret; split; [constructor|done]|]. eapply yields_mono; [apply young_ids_loop_spec|]. intros ev o [Hh Ho]. split; [done|].
    intros ids' Ei. by apply Ho. }
  intros e1 ids [Hh Hids]. set (p := plan tenant_slug tenant listed ids now_ms MAX_QUARANTINE_DELETES_PER_PASS). cbn zeta. fold p.
  assert (forall ev, ev ⊆ e1 -> forall permit answer, EvRetire permit answer ∈ ev -> False) as Hno.
  { intros ev Hsub permit answer Hin. apply Hsub in Hin. rewrite Forall_forall in Hh. by apply (Hh _ Hin). }
  set (good := fun r => justified listed ids r /\ validate_with_local r false = Ok tt).
  assert (Forall good (qp_requests p)) as Hg by (apply Forall_forall; intros r Hr; by eapply plan_justified).
  destruct (qp_requests p) as [|r0 rs] eqn:Er; [apply yields_ret; intros permit answer Hin; rewrite app_nil_r in Hin; by apply (Hno e1) in Hin|].
  apply yields_bind. eapply yields_mono; [apply (execute_quarantine_spec good); exact Hg|]. intros e2 [[refused pacer] executed] Hguard. apply yields_ret.
  intros permit answer. rewrite app_nil_r. intros [Hin|Hin]%elem_of_app; [by apply (Hno e1) in Hin|]. apply list_elem_of_split in Hin as (pre & post & Hev).
  destruct (Hguard pre _ post Hev) as [[Hj Hv] _ _ _]. exists listed0, listed, ids. split_and!; [set_solver|done|done|done|].
  intros ids' Ei key Hk. destruct (Hids ids' Ei key Hk) as (body & Hb & Hb'). exists body. split; [set_solver|done].
Qed.

Lemma run_spec state :
  yields (run tenant_slug tenant now_ms state) (fun ev _ => forall permit answer, EvRetire permit answer ∈ ev -> retire_justified ev permit).
Proof.
  unfold run. apply yields_bind, yields_ask. intros [[]|e]; [|apply yields_ret; set_solver|apply yields_ret; set_solver].
  apply yields_bind, yields_ask. intros [listed0|e]; [|apply yields_ret; set_solver].
  destruct (check_listing _ listed0) as [listed|e] eqn:Ec; [|apply yields_ret; set_solver]. pose proof (check_listing_elems _ _ _ Ec) as Hl.
  apply yields_bind. eapply yields_mono; [by apply run_listed_spec|]. intros e2 [state' report] Hev. apply yields_ret. intros permit answer Hin. rewrite app_nil_r in Hin |- *.
  eapply retire_mono; [|apply (Hev permit answer)]; [set_solver|]. rewrite !elem_of_app, !list_elem_of_singleton in Hin. by destruct Hin as [[=]|[[=]|Hin]].
Qed.
End justified.

(** ** What a restore reads *)

#[local] Arguments str_take : simpl never.
#[local] Arguments str_drop : simpl never.

Section restore.
Context `{P : Platform} `{PL : !PlatformLaws P} {J : JsonWriter} `{R : RecordCodec} `{W : GcWorld} `{H : HashIter}.
Context (tenant : string).

Lemma records_prefix_eq rp : records_prefix tenant = Ok rp -> rp = quarantine_prefix tenant +:+ "records/".
Proof.
  unfold records_prefix, store_prefix, LogKeys_new. destruct (validate_tenant_uuid tenant) as [[]|e]; cbn; [|done]. intros [= <-].
  unfold quarantine_prefix, checkpoints_prefix, tenant_root, QUARANTINE_STORE_DIR, QUARANTINE_DIR. by rewrite <- !str_app_assoc.
Qed.

(** The name of a record key that restore accepts: its time, then the digest of its bytes. *)
Record record_name (body name stamp : string) : Prop := {
  rn_name : name = stamp +:+ "-" +:+ str_take 16 (sha256_hex body) +:+ ".json";
  rn_length : String.length stamp = 13%nat;
  rn_digits : str_all is_digit stamp = true }.
Lemma parse_record_name rp key body record :
  parse_record tenant rp key body = Some record -> exists name stamp, key = rp +:+ name /\ record_name body name stamp.
Proof.
  unfold parse_record. intros (r & _ & E)%bind_Some. destruct (record_ok _ _ _ _ _) eqn:Eo; [|done]. unfold record_ok in Eo. rewrite !andb_true_iff in Eo.
  destruct Eo as [[[[Hm _] _] _] _]. unfold record_matches in Hm. destruct (strip_prefix rp key) as [name|] eqn:Es; [|done]. apply strip_prefix_inv in Es.
  rewrite !andb_true_iff, Nat.eqb_eq, bool_decide_eq_true in Hm. destruct Hm as [[Hl Hd] Hr]. exists name, (str_take 13 name). split; [done|].
  split; [by rewrite <- Hr, str_take_drop|apply str_take_length; lia|done].
Qed.

Lemma sha16 body : String.length (str_take 16 (sha256_hex body)) = 16%nat /\ str_all is_hex_lower (str_take 16 (sha256_hex body)) = true.
Proof.
  pose proof (sha256_hex_wf body) as Hw. unfold is_sha256_hex in Hw. rewrite andb_true_iff, Nat.eqb_eq in Hw. destruct Hw as [Hl Ha]. split; [apply str_take_length; lia|].
  rewrite <- (str_take_drop 16 (sha256_hex body)), str_all_app, andb_true_iff in Ha. by destruct Ha.
Qed.
Lemma record_name_ok body name stamp : record_name body name stamp -> quarantine_record_name name = true /\ str_take 13 name = stamp.
Proof.
  intros [-> Hl Hd]. destruct (sha16 body) as [Hl16 Hh]. set (h := str_take 16 (sha256_hex body)) in *. unfold quarantine_record_name, str_get.
  rewrite (str_take_app stamp) by done. split; [|done]. rewrite !str_length_app, Hl, Hl16, Hd, (str_drop_app stamp) by done. cbn [Nat.eqb Nat.add String.length andb].
  rewrite bool_decide_eq_true_2 by done. cbn [andb].
  assert (str_drop 14 (stamp +:+ "-" +:+ h +:+ ".json") = h +:+ ".json") as ->.
  { rewrite str_app_assoc. apply str_drop_app. rewrite str_length_app, Hl. done. }
  rewrite (str_take_app h), Hh by done. cbn [andb]. apply bool_decide_eq_true. rewrite !str_app_assoc. apply str_drop_app. by rewrite !str_length_app, Hl, Hl16.
Qed.
Lemma parse_stamp stamp : String.length stamp = 13%nat -> str_all is_digit stamp = true -> parse_signed i64_min i64_max stamp = Some (dec_val 0 stamp).
Proof.
  intros Hl Hd. pose proof (dec_val_bound stamp Hd) as Hv. unfold str_len in Hv. rewrite Hl in Hv. apply parse_signed_digits; [by intros ->|done|].
  unfold i64_max. cbn in Hv. lia.
Qed.

(** A key under the tenant's quarantine prefix parses by what follows the prefix. *)
Lemma parse_quarantine_rest rest :
  is_uuid_v4 tenant = true -> (String.length rest <= 200)%nat ->
  parse_quarantine_key (quarantine_prefix tenant +:+ rest) =
    match strip_prefix "objects/" rest with
    | Some name => id ← strip_suffix ".parquet" name; if negb (is_sha256_hex id) then None else Some {| qk_tenant_uuid := tenant; qk_kind := Object id |}
    | None => name ← strip_prefix "records/" rest; if negb (quarantine_record_name name) then None else
              written_ms ← parse_signed i64_min i64_max (str_take 13 name); Some {| qk_tenant_uuid := tenant; qk_kind := QRecord written_ms |}
    end.
Proof.
  intros Ht Hlen. pose proof (uuid_len tenant Ht) as Htl. unfold str_len in Htl. unfold parse_quarantine_key, quarantine_prefix, QUARANTINE_DIR.
  rewrite (proj2 (Z.ltb_ge _ _)) by (unfold str_len, MAX_KEY_BYTES; rewrite !str_length_app; cbn; lia).
  replace ((PARTS_ROOT +:+ "/tenant=" +:+ tenant +:+ "/" +:+ "log/checkpoints/bronze-quarantine-v1/") +:+ rest)
    with ("lake/parts/v1/tenant=" +:+ tenant +:+ "/" +:+ "log/checkpoints/bronze-quarantine-v1/" +:+ rest) by (unfold PARTS_ROOT; by rewrite <- !str_app_assoc).
  rewrite strip_prefix_app. cbn [mbind option_bind]. unfold split_at_checked. rewrite str_drop_app, str_take_app by lia.
  rewrite str_length_app. rewrite (proj2 (Nat.leb_le _ _)) by lia. unfold str_get. rewrite str_drop_app by lia. cbn [andb].
  change (match ("/" +:+ ?r) with EmptyString => _ | String c _ => _ end) with (Some "/"%char). cbn iota beta.
  change (negb ((128 <=? byte_val "/") && (byte_val "/" <? 192))) with true. cbn [mbind option_bind]. rewrite Ht. cbn [negb].
  by rewrite strip_prefix_app; cbn [mbind option_bind]; rewrite strip_prefix_app.
Qed.

(** A record key that restore accepts is a quarantine key of the tenant to the GC. *)
Lemma parse_key_of_record body name stamp :
  is_uuid_v4 tenant = true -> record_name body name stamp ->
  parse_quarantine_key (quarantine_prefix tenant +:+ "records/" +:+ name) = Some {| qk_tenant_uuid := tenant; qk_kind := QRecord (dec_val 0 stamp) |}.
Proof.
  intros Ht Hn. destruct (record_name_ok _ _ _ Hn) as [Hok Htake]. destruct Hn as [En Hl Hd]. rewrite parse_quarantine_rest; [|done|].
  2: { destruct (sha16 body) as [Hl16 _]. rewrite En, !str_length_app, Hl, Hl16. cbn. lia. }
  change (strip_prefix "objects/" ("records/" +:+ name)) with (@None string). cbn iota. rewrite strip_prefix_app. cbn [mbind option_bind].
  rewrite Hok, Htake. cbn [negb]. by rewrite (parse_stamp stamp Hl Hd).
Qed.

(** What a restore lists is young: its time is within the horizon. *)
Lemma listed_young rp body name stamp now' :
  record_name body name stamp -> now' - RESTORE_HORIZON_MS < 10000000000000 -> in_i64 (now' - RESTORE_HORIZON_MS) ->
  str_gt (rp +:+ name) (after_key rp now') = true -> now' - RESTORE_HORIZON_MS <= dec_val 0 stamp.
Proof.
  intros [-> Hl Hd] Hmax Hi. unfold str_gt, after_key. rewrite bool_decide_eq_true. set (n := Z.max 0 (sat_i64 (now' - RESTORE_HORIZON_MS))).
  assert (0 <= n < 10 ^ Z.of_nat 13 /\ now' - RESTORE_HORIZON_MS <= n) as [Hn Hle] by (unfold n, sat_i64, in_i64 in *; cbn; lia).
  rewrite (fmt_pad_fixed 12 n Hn), str_compare_app, str_compare_refl by done.
  replace (fixed_dec 13 n) with (fixed_dec 13 n +:+ EmptyString) by (clear; induction (fixed_dec 13 n) as [|c s IH]; [done|by rewrite str_app_cons, IH]).
  rewrite str_compare_app by (by rewrite fixed_dec_length). rewrite dec_compare by (by rewrite ?fixed_dec_length, ?fixed_dec_digits).
  rewrite dec_val_fixed by done. destruct (Z.compare_spec (dec_val 0 stamp) n); [lia|done|lia].
Qed.

Lemma parse_key_of_object id :
  is_uuid_v4 tenant = true -> is_sha256_hex id = true ->
  parse_quarantine_key (quarantine_prefix tenant +:+ "objects/" +:+ id +:+ ".parquet") = Some {| qk_tenant_uuid := tenant; qk_kind := Object id |}.
Proof.
  intros Ht Hid. pose proof Hid as Hid'. apply andb_true_iff in Hid' as [Hl%Nat.eqb_eq _]. rewrite parse_quarantine_rest; [|done|rewrite !str_length_app, Hl; cbn; lia].
  rewrite strip_prefix_app, strip_suffix_app. cbn [mbind option_bind]. by rewrite Hid.
Qed.

Lemma object_key_eq id key : object_key tenant id = Ok key -> is_sha256_hex id = true /\ key = quarantine_prefix tenant +:+ "objects/" +:+ id +:+ ".parquet".
Proof.
  unfold object_key, store_prefix, LogKeys_new. destruct (is_sha256_hex id); [|done]. cbn. destruct (validate_tenant_uuid tenant) as [[]|e]; cbn; [|done]. intros [= <-]. split; [done|].
  unfold quarantine_prefix, checkpoints_prefix, tenant_root, QUARANTINE_STORE_DIR, QUARANTINE_DIR. by rewrite <- !str_app_assoc.
Qed.
Lemma validated_uuid r : validate_with_local r false = Ok tt -> is_uuid_v4 (dr_tenant_uuid r) = true.
Proof. unfold validate_with_local. intros Hv. inv_ok. done. Qed.
End restore.

Section spares.
Context `{P : Platform} `{PL : !PlatformLaws P} {J : JsonWriter} `{R : RecordCodec} `{W : GcWorld} `{H : HashIter}.
Context (tenant_slug tenant : string) (now_ms : Z).

(** The listing of a pass covers the bucket's quarantine, and its reads are of the bucket. *)
Record observes (ev : list Event) (bucket : gmap string string) : Prop := {
  ob_complete : forall listed key, EvList (quarantine_prefix tenant) (Ok listed) ∈ ev -> starts_with (quarantine_prefix tenant) key = true ->
    is_Some (bucket !! key) -> key ∈ lo_key <$> listed;
  ob_truthful : forall key body, EvGetSmall key (Ok body) ∈ ev -> body = bucket !! key }.

Lemma record_young rp body name stamp later o :
  record_name body name stamp -> now_ms < later -> later - RESTORE_HORIZON_MS < 10000000000000 -> in_i64 (later - RESTORE_HORIZON_MS) ->
  str_gt (rp +:+ name) (after_key rp later) = true -> is_young o (Some (dec_val 0 stamp)) now_ms = true.
Proof.
  intros Hn Hlt Hmax Hi Hgt. pose proof (listed_young rp body name stamp later Hn Hmax Hi Hgt) as Hy. destruct Hn as [_ Hl Hd].
  pose proof (dec_val_bound stamp Hd) as Hv. unfold str_len in Hv. rewrite Hl in Hv. cbn in Hv.
  unfold is_young, is_old. apply orb_true_iff. right. apply negb_true_iff, Z.leb_gt.
  assert (MIN_AGE_MS = RESTORE_HORIZON_MS) as -> by reflexivity. assert (RESTORE_HORIZON_MS = 691200000) as E by reflexivity.
  unfold sat_i64, i64_min, i64_max in *. lia.
Qed.

(** C10: what the quarantine GC deletes is nothing a later restore reads. For every pass over any
    authority and lister, if its listing covers the tenant's quarantine and its reads are of
    the bucket, then a key it asks the Worker to retire is neither a record that a restore at
    any later time lists and accepts, nor the object such a record names. *)
Theorem expiry_spares_restore state w ev w' out permit answer bucket later rp key body record :
  run tenant_slug tenant now_ms state w = (ev, w', out) -> EvRetire permit answer ∈ ev -> observes ev bucket ->
  now_ms < later -> later - RESTORE_HORIZON_MS < 10000000000000 -> in_i64 (later - RESTORE_HORIZON_MS) ->
  records_prefix tenant = Ok rp -> bucket !! key = Some body -> str_gt key (after_key rp later) = true -> parse_record tenant rp key body = Some record ->
  key <> dr_key (pm_request permit) /\ object_key tenant (qr_id record) <> Ok (dr_key (pm_request permit)).
Proof.
  intros Hrun Hin [Hcomplete Htrue] Hlt Hmax Hi Hrp Hbody Hgt Hrec.
  pose proof (yields_run _ _ _ _ _ _ (run_spec tenant_slug tenant now_ms state) Hrun permit answer Hin) as (listed0 & listed & ids & Hl & Hiff & Hj & Hv & Hread).
  destruct Hj as (o & q & Ho & Ekey & Etenant & Hq & Hqt & Hkind). pose proof (validated_uuid _ Hv) as Huuid. rewrite Etenant in Huuid.
  destruct (parse_record_name tenant rp key body record Hrec) as (name & stamp & Ek & Hn). pose proof (records_prefix_eq tenant rp Hrp) as Erp.
  pose proof (parse_key_of_record tenant body name stamp Huuid Hn) as Hpk. rewrite Ek in Hgt. pose proof (fun o => record_young rp body name stamp later o Hn Hlt Hmax Hi Hgt) as Hyoung.
  assert (key = quarantine_prefix tenant +:+ "records/" +:+ name) as Ek' by (by rewrite Ek, Erp, str_app_assoc). rewrite <- Ek' in Hpk. rewrite Ekey. split.
  - intros E. rewrite <- E, Hpk in Hq. injection Hq as <-. cbn in Hkind. by rewrite Hyoung in Hkind.
  - intros [Hid E]%object_key_eq. rewrite E, (parse_key_of_object tenant _ Huuid Hid) in Hq. injection Hq as <-. cbn in Hkind. destruct Hkind as [_ (ids' & -> & Hnot)].
    apply Hnot. assert (key ∈ young_record_keys tenant listed now_ms) as Hyk.
    { apply list_elem_of_fmap. pose proof (Hcomplete listed0 key Hl) as Hc. rewrite starts_with_spec, list_elem_of_fmap in Hc.
      destruct Hc as (o' & Eo & Ho'); [by exists ("records/" +:+ name)|by eexists|]. exists o'. split; [done|]. apply list_elem_of_In, filter_In. split; [by apply list_elem_of_In, Hiff|].
      unfold young_record. rewrite <- Eo, Hpk. cbn. by rewrite bool_decide_eq_true_2, Hyoung. }
    destruct (Hread ids' eq_refl key Hyk) as (b & Hb & Hids). apply (Hids body).
    + by rewrite (Htrue key b Hb).
    + unfold record_id. by rewrite Hrp, Hrec.
Qed.
End spares.

(** ** A concrete pass *)

Module ExpiryExample.
Import ToyPlatform ToyJson QuarantineExample BucketExample PassExample.
Definition tenant : string := GcExample.tenant.
Definition prefix : string := unwrap EmptyString (records_prefix tenant).
Definition day : Z := 86400000.
Definition now : Z := 20 * day.
Definition gone : string := sha256_hex "an expired object".
Definition named : string := sha256_hex "an object that is kept again".
Definition record (id : string) : QuarantineRecord :=
  {| qr_kind := RECORD_KIND; qr_tenant_id := tenant; qr_id := id; qr_entry := None; qr_released := false |}.
Definition body (id : string) : string := default EmptyString (record_to_vec (record id)).
Definition key_of (written_ms : Z) (id : string) : string := record_key prefix written_ms (body id).
Definition object_of (id : string) : string := unwrap EmptyString (object_key tenant id).
(** An expired record, a young one, and two old objects, one of them named by the young record. *)
Definition bucket : gmap string string :=
  list_to_map [(key_of day gone, body gone); (key_of (19 * day) named, body named); (object_of gone, "x"); (object_of named, "y")].
Definition listing : list ListedPartObject :=
  (fun key => {| lo_key := key; lo_strong_etag := GcRequestExample.etag; lo_content_length := 10; lo_uploaded_at_ms := day |}) <$>
    [key_of day gone; key_of (19 * day) named; object_of gone; object_of named].

#[export] Instance expiry_world : GcWorld := {|
  World := unit;
  call_index r s := (Err no_provenance, s);
  call_entry seq s := (Err no_provenance, s);
  call_checkpoint s := (Ok None, s);
  call_provenance p s := (Err no_provenance, s);
  call_supports s := (Ok true, s);
  call_supports_quarantine s := (Ok true, s);
  call_list _ s := (Ok listing, s);
  call_get_small key _ s := (Ok (bucket !! key), s);
  call_authorize r s := (Ok (sign r), s);
  call_prepare p s := (Ok p, s);
  call_retire p s := (Ok (receipt p), s);
  call_appends s := (run_default, s);
  call_utc_now s := (5 * NANOS, s);
  call_instant s := (0, s);
  call_sleep _ s := (tt, s);
  call_sleep_until _ s := (tt, s);
  call_uuid s := ("uuid", s);
  encode_base64 b := b;
  parse_from_rfc3339 s := if bool_decide (s = "issued") then Some (4 * NANOS) else if bool_decide (s = "expires") then Some (60 * NANOS) else None |}.

Definition expiry_run := run "tenant1" tenant now gc_genesis tt.
Definition expiry_events : list Event := expiry_run.1.1.
Definition retired_keys (ev : list Event) : list string := omap (fun e => match e with EvRetire p _ => Some (dr_key (pm_request p)) | _ => None end) ev.
(** The unnamed object and the expired record go, in this order. *)
Example expiry_deletes : retired_keys expiry_events = [object_of gone; key_of day gone].
Proof. vm_compute. reflexivity. Qed.
End ExpiryExample.

(** A pass that listed once. *)
Definition list_answer (e : Event) : option (list ListedPartObject) := match e with EvList _ (Ok l) => Some l | _ => None end.
Definition small_answer (e : Event) : option (string * option string) := match e with EvGetSmall key (Ok b) => Some (key, b) | _ => None end.
Lemma observes_by tenant (ev : list Event) (bucket : gmap string string) (listing : list ListedPartObject) :
  omap list_answer ev = [listing] -> Forall (fun kb => kb.2 = bucket !! kb.1) (omap small_answer ev) ->
  map_Forall (fun k _ => k ∈ lo_key <$> listing) bucket -> observes tenant ev bucket.
Proof.
  intros El Es Eb. split.
  - intros listed key Hin _ [b Hb]. assert (listed ∈ omap list_answer ev) as Hl by (apply list_elem_of_omap; by exists (EvList (quarantine_prefix tenant) (Ok listed))).
    rewrite El in Hl. apply list_elem_of_singleton in Hl as ->. by eapply Eb.
  - intros key b Hin. rewrite Forall_forall in Es. apply (Es (key, b)). apply list_elem_of_omap. by exists (EvGetSmall key (Ok b)).
Qed.

Section witnesses.
Import ToyPlatform ToyJson QuarantineExample BucketExample PassExample ExpiryExample.

Lemma example_observes : observes ExpiryExample.tenant expiry_events bucket.
Proof.
  apply (observes_by _ _ _ listing).
  - vm_compute. reflexivity.
  - vm_compute. repeat constructor.
  - eapply bool_decide_eq_true_1. vm_compute. reflexivity.
Qed.
Definition expiry_retired : LakePartDeletePermit * result AnyError LakePartDeleteReceipt :=
  default (sign GcRequestExample.superseded, Err no_provenance) (hd_error (omap retirement expiry_events)).
Lemma expiry_run_eq : run (W := expiry_world) "tenant1" ExpiryExample.tenant now gc_genesis tt = (expiry_events, expiry_run.1.2, expiry_run.2).
Proof. unfold expiry_events, expiry_run. by destruct (run _ _ _ _ _) as [[? ?] ?]. Qed.

Lemma expiry_spares_restore_witness :
  key_of (19 * day) named <> dr_key (pm_request expiry_retired.1) /\ object_key ExpiryExample.tenant named <> Ok (dr_key (pm_request expiry_retired.1)).
Proof.
  apply (expiry_spares_restore (W := expiry_world) "tenant1" ExpiryExample.tenant now gc_genesis tt expiry_events expiry_run.1.2 expiry_run.2 expiry_retired.1 expiry_retired.2 bucket
    (now + 1) prefix (key_of (19 * day) named) (body named) (record named)).
  - exact expiry_run_eq.
  - apply first_retirement. vm_compute. reflexivity.
  - exact example_observes.
  - vm_compute. reflexivity.
  - vm_compute. reflexivity.
  - split; vm_compute; discriminate.
  - vm_compute. reflexivity.
  - vm_compute. reflexivity.
  - vm_compute. reflexivity.
  - vm_compute. reflexivity.
Defined.
End witnesses.
