(* ===== verification/QuarantineLedger.v ===== *)
(** * QuarantineLedger: reports of quarantined segments

    Models [part_ingest/quarantine_ledger.rs]: the outbox of reports to the tenant's landing
    ledger, its file, the flight that sends a batch off the tick, and the tick. The sink's
    answers and the scheduling of the flight are inputs; logging is left out. *)
From S2P Require Import Prelude.

Definition MAX_OUTBOX : nat := 1024.
Definition MAX_PER_FLIGHT : nat := 16.
Definition RETRY_MS : Z := 30000.

Inductive ReportState := Quarantined | Replayed.
#[export] Instance ReportState_eq_dec : EqDecision ReportState.
Proof. solve_decision. Defined.
Record QuarantineReport := { qrp_segment_key : string; qrp_rows : Z; qrp_state : ReportState }.
#[export] Instance QuarantineReport_eq_dec : EqDecision QuarantineReport.
Proof. solve_decision. Defined.
Inductive ReportOutcome := Recorded | Unsupported.

(** [serde_json] of the outbox: what it writes reads back. *)
Class OutboxCodec := { outbox_to_vec : list QuarantineReport -> option string; outbox_from_slice : string -> option (list QuarantineReport) }.
Class OutboxCodecLaws (C : OutboxCodec) : Prop := {
  outbox_codec_roundtrip : forall l b, outbox_to_vec l = Some b -> outbox_from_slice b = Some l }.

(** The ledger; [ql_file] is the outbox file, when there is a work dir, and the flight in the
    air carries its batch. *)
Record QuarantineLedger := {
  ql_outbox : list QuarantineReport; ql_path : bool; ql_file : option string; ql_flight : option (list QuarantineReport); ql_next_send_ms : Z;
  ql_recorded : Z; ql_unsupported : Z }.

Section ledger.
Context `{C : OutboxCodec}.

(** [load_outbox]: a file that does not read or parse counts as empty. *)
Definition load_outbox (file : option string) : list QuarantineReport := default [] (b ← file; outbox_from_slice b).
Definition open (path : bool) (file : option string) : QuarantineLedger :=
  {| ql_outbox := (if path then load_outbox file else []); ql_path := path; ql_file := file; ql_flight := None; ql_next_send_ms := 0;
     ql_recorded := 0; ql_unsupported := 0 |}.
Definition pending (self : QuarantineLedger) : nat := length (ql_outbox self).

Definition set_file (file : option string) (q : QuarantineLedger) : QuarantineLedger :=
  {| ql_outbox := ql_outbox q; ql_path := ql_path q; ql_file := file; ql_flight := ql_flight q; ql_next_send_ms := ql_next_send_ms q;
     ql_recorded := ql_recorded q; ql_unsupported := ql_unsupported q |}.
Definition set_outbox (outbox : list QuarantineReport) (q : QuarantineLedger) : QuarantineLedger :=
  {| ql_outbox := outbox; ql_path := ql_path q; ql_file := ql_file q; ql_flight := ql_flight q; ql_next_send_ms := ql_next_send_ms q;
     ql_recorded := ql_recorded q; ql_unsupported := ql_unsupported q |}.
Definition set_flight (flight : option (list QuarantineReport)) (q : QuarantineLedger) : QuarantineLedger :=
  {| ql_outbox := ql_outbox q; ql_path := ql_path q; ql_file := ql_file q; ql_flight := flight; ql_next_send_ms := ql_next_send_ms q;
     ql_recorded := ql_recorded q; ql_unsupported := ql_unsupported q |}.
Definition set_next_send (at_ms : Z) (q : QuarantineLedger) : QuarantineLedger :=
  {| ql_outbox := ql_outbox q; ql_path := ql_path q; ql_file := ql_file q; ql_flight := ql_flight q; ql_next_send_ms := at_ms;
     ql_recorded := ql_recorded q; ql_unsupported := ql_unsupported q |}.
Definition count_outcome (outcome : ReportOutcome) (q : QuarantineLedger) : QuarantineLedger :=
  {| ql_outbox := ql_outbox q; ql_path := ql_path q; ql_file := ql_file q; ql_flight := ql_flight q; ql_next_send_ms := ql_next_send_ms q;
     ql_recorded := (match outcome with Recorded => wrap_u64 (ql_recorded q + 1) | Unsupported => ql_recorded q end);
     ql_unsupported := (match outcome with Unsupported => wrap_u64 (ql_unsupported q + 1) | Recorded => ql_unsupported q end) |}.

(** [persist]: the staged file is renamed in, or the old one stays; [writes] is whether the disk takes it. *)
Definition persist (writes : bool) (self : QuarantineLedger) : QuarantineLedger :=
  if negb (ql_path self) then self else
  match outbox_to_vec (ql_outbox self) with
  | Some bytes => if writes then set_file (Some bytes) self else self
  | None => self
  end.

(** The last queued report for a segment. *)
Definition latest_for (key : string) (outbox : list QuarantineReport) : option QuarantineReport :=
  find (fun queued => bool_decide (qrp_segment_key queued = key)) (rev outbox).
Definition enqueue (writes : bool) (report : QuarantineReport) (self : QuarantineLedger) : QuarantineLedger :=
  if bool_decide (latest_for (qrp_segment_key report) (ql_outbox self) = Some report) then self else
  if (MAX_OUTBOX <=? length (ql_outbox self))%nat then self else
  persist writes (set_outbox (ql_outbox self ++ [report]) self).

(** The task of a flight: the reports in order, up to the first failed or timed-out call.
    [answers] are the sink's, [None] for a failure. *)
Fixpoint fly (batch : list QuarantineReport) (answers : list (option ReportOutcome)) : list ReportOutcome * bool :=
  match batch, answers with
  | [], _ => ([], false)
  | _ :: batch, Some outcome :: answers => let '(outcomes, failed) := fly batch answers in (outcome :: outcomes, failed)
  | _ :: _, _ => ([], true)
  end.
(** How a flight stands at a tick: still flying, ended, or its task died. *)
Inductive FlightEnd := Flying | Ended (answers : list (option ReportOutcome)) | Died.
Definition flight_result (batch : list QuarantineReport) (e : FlightEnd) : option (list ReportOutcome * bool) :=
  match e with Flying => None | Ended answers => Some (fly batch answers) | Died => Some ([], true) end.

Definition collect (writes : bool) (now_ms : Z) (outcomes : list ReportOutcome) (failed : bool) (self : QuarantineLedger) : QuarantineLedger :=
  let q := fold_left (fun q outcome => count_outcome outcome (set_outbox (drop 1 (ql_outbox q)) q)) outcomes self in
  let q := match outcomes with [] => q | _ => persist writes q end in
  if failed then set_next_send (wrap_i64 (now_ms + RETRY_MS)) q else q.
(** Start the next flight when one is due. *)
Definition depart (now_ms : Z) (self : QuarantineLedger) : QuarantineLedger :=
  match ql_outbox self with
  | [] => self
  | _ => if now_ms <? ql_next_send_ms self then self else set_flight (Some (take MAX_PER_FLIGHT (ql_outbox self))) self
  end.
Definition tick (writes : bool) (now_ms : Z) (e : FlightEnd) (self : QuarantineLedger) : QuarantineLedger :=
  match ql_flight self with
  | Some batch =>
      match flight_result batch e with
      | None => self
      | Some (outcomes, failed) => depart now_ms (collect writes now_ms outcomes failed (set_flight None self))
      end
  | None => depart now_ms self
  end.
(** [settle]: start a flight when one is due, wait for its end [e], collect it. *)
Definition settle (writes : bool) (now_ms : Z) (e : FlightEnd) (self : QuarantineLedger) : QuarantineLedger :=
  tick writes now_ms e (if is_some (ql_flight self) then self else tick writes now_ms e self).
End ledger.

(** ** Delivery *)

Section delivery.
Context `{C : OutboxCodec} `{CL : !OutboxCodecLaws C}.
Implicit Types (q : QuarantineLedger).

Inductive LedgerOp :=
| LEnqueue (writes : bool) (report : QuarantineReport)
| LTick (writes : bool) (now_ms : Z) (e : FlightEnd).
Definition ledger_step (op : LedgerOp) q : QuarantineLedger :=
  match op with LEnqueue writes report => enqueue writes report q | LTick writes now_ms e => tick writes now_ms e q end.

(** The reports an operation takes into the outbox, and the ones the sink answered, with the answers. *)
Definition taken (op : LedgerOp) q : list QuarantineReport :=
  match op with
  | LEnqueue _ report =>
      if bool_decide (latest_for (qrp_segment_key report) (ql_outbox q) = Some report) then [] else
      if (MAX_OUTBOX <=? length (ql_outbox q))%nat then [] else [report]
  | LTick _ _ _ => []
  end.
Definition answered (op : LedgerOp) q : list (QuarantineReport * ReportOutcome) :=
  match op with
  | LEnqueue _ _ => []
  | LTick _ _ e => match ql_flight q with
                   | Some batch => match flight_result batch e with Some (outcomes, _) => zip batch outcomes | None => [] end
                   | None => []
                   end
  end.
(** A history with everything it took and had answered. *)
Fixpoint ledger_run (ops : list LedgerOp) q : QuarantineLedger * list QuarantineReport * list (QuarantineReport * ReportOutcome) :=
  match ops with
  | [] => (q, [], [])
  | op :: ops => let '(q', t, a) := ledger_run ops (ledger_step op q) in (q', taken op q ++ t, answered op q ++ a)
  end.

(** The outbox is bounded, and a flight carries a prefix of it. *)
Record ledger_wf q : Prop := {
  lw_bound : (length (ql_outbox q) <= MAX_OUTBOX)%nat;
  lw_flight : forall batch, ql_flight q = Some batch -> batch ≠ [] /\ (length batch <= MAX_PER_FLIGHT)%nat /\ exists rest, ql_outbox q = batch ++ rest }.

Lemma persist_same writes q : ql_outbox (persist writes q) = ql_outbox q /\ ql_flight (persist writes q) = ql_flight q.
Proof. unfold persist. destruct (negb _); [done|]. destruct (outbox_to_vec _); [|done]. by destruct writes. Qed.
Lemma fly_length batch answers : (length (fly batch answers).1 <= length batch)%nat.
Proof.
  revert answers. induction batch as [|r batch IH]; intros answers; cbn; [lia|]. destruct answers as [|[o|] answers]; cbn; [lia| |lia].
  specialize (IH answers). destruct (fly batch answers) as [outcomes failed]. cbn in *. lia.
Qed.
Lemma collect_same writes now outcomes failed q :
  ql_outbox (collect writes now outcomes failed q) = drop (length outcomes) (ql_outbox q) /\ ql_flight (collect writes now outcomes failed q) = ql_flight q.
Proof.
  unfold collect. assert (forall l q, let q' := fold_left (fun q outcome => count_outcome outcome (set_outbox (drop 1 (ql_outbox q)) q)) l q in
    ql_outbox q' = drop (length l) (ql_outbox q) /\ ql_flight q' = ql_flight q) as Hf.
  { induction l as [|o l IH]; intros q0; cbn zeta; [by rewrite drop_0|]. cbn [fold_left]. destruct (IH (count_outcome o (set_outbox (drop 1 (ql_outbox q0)) q0))) as [E1 E2].
    cbn zeta in *. rewrite E1, E2. cbn [count_outcome set_outbox ql_outbox ql_flight length]. by rewrite drop_drop. }
  destruct (Hf outcomes q) as [E1 E2]. cbn zeta in *. destruct (persist_same writes (fold_left (fun q outcome => count_outcome outcome (set_outbox (drop 1 (ql_outbox q)) q)) outcomes q)) as [E3 E4].
  destruct outcomes; destruct failed; cbn [set_next_send ql_outbox ql_flight]; rewrite ?E3, ?E4; by split.
Qed.
Lemma depart_wf now q : ql_flight q = None -> (length (ql_outbox q) <= MAX_OUTBOX)%nat -> ledger_wf (depart now q) /\ ql_outbox (depart now q) = ql_outbox q.
Proof.
  intros Hf Hb. unfold depart. destruct (ql_outbox q) as [|r l] eqn:El; [split; [|done]; split; [by rewrite El|congruence]|].
  destruct (_ <? _); [split; [|done]; split; [by rewrite El|congruence]|]. cbn [set_flight ql_outbox]. split; [|done]. split; cbn [set_flight ql_outbox ql_flight]; [by rewrite El|].
  rewrite El. intros batch Hbatch. assert (batch = take MAX_PER_FLIGHT (r :: l)) as -> by congruence. split; [done|].
  split; [rewrite length_take; apply Nat.le_min_l|]. exists (drop MAX_PER_FLIGHT (r :: l)). by rewrite take_drop.
Qed.

Lemma fst_zip_take {A B} (l : list A) (k : list B) : (zip l k).*1 = take (length k) l.
Proof. revert k. induction l as [|x l IH]; intros [|y k]; cbn; [done..|]. f_equal. apply IH. Qed.

(** One step: the order is kept, and nothing else leaves the outbox. *)
Lemma ledger_step_spec op q : ledger_wf q ->
  ledger_wf (ledger_step op q) /\ ql_outbox q ++ taken op q = (answered op q).*1 ++ ql_outbox (ledger_step op q).
Proof.
  intros [Hb Hf]. destruct op as [writes report|writes now e]; cbn [ledger_step taken answered].
  - unfold enqueue. destruct (bool_decide _); [rewrite app_nil_r; by split|]. destruct (Nat.leb_spec MAX_OUTBOX (length (ql_outbox q))); [rewrite app_nil_r; by split|].
    destruct (persist_same writes (set_outbox (ql_outbox q ++ [report]) q)) as [E1 E2]. rewrite E1. split; [|done]. split; [rewrite E1; cbn; rewrite length_app; cbn; lia|].
    rewrite E1, E2. cbn. intros batch Hbatch. destruct (Hf batch Hbatch) as (H1 & H2 & rest & ->). split_and!; [done|done|]. exists (rest ++ [report]). by rewrite app_assoc.
  - rewrite app_nil_r. unfold tick. destruct (ql_flight q) as [batch|] eqn:Ef; [|destruct (depart_wf now q Ef Hb) as [H1 H2]; by rewrite H2].
    destruct (flight_result batch e) as [[outcomes failed]|] eqn:Er; [|by split; [split; [|rewrite Ef]|]].
    destruct (Hf batch eq_refl) as (_ & _ & rest & Eo). destruct (collect_same writes now outcomes failed (set_flight None q)) as [E1 E2]. cbn [set_flight ql_outbox ql_flight] in E1, E2.
    assert (length outcomes <= length batch)%nat as Hl.
    { destruct e as [|answers|]; [done| |injection Er as <- <-; cbn; lia]. cbn in Er. injection Er as Er. pose proof (fly_length batch answers) as Hl. by rewrite Er in Hl. }
    destruct (depart_wf now (collect writes now outcomes failed (set_flight None q)) E2) as [H1 H2]; [rewrite E1, length_drop; lia|]. split; [done|]. rewrite H2, E1, Eo.
    rewrite fst_zip_take, drop_app_le by done. rewrite app_assoc, take_drop. done.
Qed.

(** C39: reports reach the ledger in order and none is lost. Through any sequence of enqueues and
    ticks, whatever the sink answers and however its calls fail, the reports the sink answered,
    followed by those still in the outbox, are the initial outbox followed by the reports taken
    since, in that order; and the outbox and every flight stay within their bounds. *)
Theorem reports_in_order ops q q' t a :
  ledger_wf q -> ledger_run ops q = (q', t, a) -> ql_outbox q ++ t = a.*1 ++ ql_outbox q' /\ ledger_wf q'.
Proof.
  revert q t a. induction ops as [|op ops IH]; intros q t a Hq; cbn [ledger_run]; [intros [= <- <- <-]; by rewrite app_nil_r|].
  destruct (ledger_step_spec op q Hq) as [Hq' E]. destruct (ledger_run ops (ledger_step op q)) as [[q1 t1] a1] eqn:Er. intros [= <- <- <-].
  destruct (IH _ _ _ Hq' Er) as [E1 Hw]. split; [|done]. by rewrite app_assoc, E, <- app_assoc, E1, fmap_app, <- app_assoc.
Qed.

(** A restart after the last write reloads the outbox. *)
Theorem outbox_survives_restart q : ql_path q = true -> is_Some (outbox_to_vec (ql_outbox q)) -> ql_outbox (open true (ql_file (persist true q))) = ql_outbox q.
Proof.
  intros Hp [b Hb]. unfold persist. rewrite Hp, Hb. cbn. unfold load_outbox. cbn. by rewrite (outbox_codec_roundtrip _ _ Hb).
Qed.
End delivery.

Module LedgerExample.
#[export] Instance toy_outbox : OutboxCodec := {| outbox_to_vec _ := None; outbox_from_slice _ := None |}.
Definition report (state : ReportState) : QuarantineReport := {| qrp_segment_key := "bronze-v2/seg"; qrp_rows := 50000; qrp_state := state |}.
Definition start : QuarantineLedger := open false None.
(** The first flight fails at once, the second delivers both reports. *)
Definition ops : list LedgerOp :=
  [LEnqueue true (report Quarantined); LEnqueue true (report Quarantined); LEnqueue true (report Replayed); LTick true 1000 Flying; LTick true 2000 (Ended [None]);
   LTick true 32000 Flying; LTick true 33000 (Ended [Some Recorded; Some Unsupported])].
Definition result := ledger_run ops start.
Example delivered : result.2 = [(report Quarantined, Recorded); (report Replayed, Unsupported)] /\ pending result.1.1 = 0%nat.
Proof. vm_compute. done. Qed.
Lemma reports_in_order_witness : [] ++ result.1.2 = result.2.*1 ++ ql_outbox result.1.1.
Proof.
  apply (reports_in_order ops start result.1.1 result.1.2 result.2).
  - split; [cbn; lia|done].
  - vm_compute. reflexivity.
Defined.
End LedgerExample.
