(* ===== verification/WriterLease.v ===== *)
(** * WriterLease: the writer lease of a lake cell

    Models [part_ingest/writer_lease.rs]: the lease table ([MemLeaseStore], the in-memory
    store with the database's semantics), the lease a writer holds with its commit deadline,
    the renew loop's reaction, and the whole protocol as a step relation in which requests
    travel on a wire, are served late or never, answers arrive late or never, and pods crash
    and restart. Times are nanoseconds of one clock, so the part of the margin that allows for
    drift between clocks is spare here; epochs are integers ([u64] in the source, one step per
    acquisition). *)
From stdpp Require Import relations.
From S2P Require Import Prelude.

Definition MS : Z := 1000000.
Definition DEFAULT_TTL : Z := 10000 * MS.
Definition MIN_TTL : Z := 2000 * MS.
Definition MAX_TTL : Z := 600000 * MS.
Definition CALL_TIMEOUT : Z := 3000 * MS.

(** The safety margin subtracted from the TTL, and the renew period. *)
Definition margin (ttl : Z) : Z := Z.max (ttl / 5) (200 * MS).
Definition renew_every (ttl : Z) : Z := Z.max (ttl / 4) (250 * MS).

Record LeaseKey := { cell_id : string; holder : string }.

#[export] Instance LeaseKey_eq_dec : EqDecision LeaseKey.
Proof. solve_decision. Defined.
#[export] Program Instance LeaseKey_countable : Countable LeaseKey :=
  inj_countable' (fun k => (cell_id k, holder k)) (fun '(c, h) => {| cell_id := c; holder := h |}) _.
Next Obligation. by intros []. Qed.

Definition is_alphanumeric (c : ascii) : bool :=
  is_digit c || ((65 <=? byte_val c) && (byte_val c <=? 90)) || ((97 <=? byte_val c) && (byte_val c <=? 122)).
(** A name of at most [n] bytes that starts alphanumerically and goes on with [extra] too. *)
Definition name_ok (n : Z) (extra : list ascii) (s : string) : bool :=
  negb (str_len s =? 0) && (str_len s <=? n)
  && match s with String c _ => is_alphanumeric c | EmptyString => false end
  && str_all (fun c => is_alphanumeric c || bool_decide (c ∈ extra)) s.
(** [LeaseKey::valid] *)
Definition key_valid (self : LeaseKey) : bool :=
  name_ok 128 ["."; "_"; "-"]%char (cell_id self) && name_ok 160 ["."; "_"; "-"; ":"; "/"]%char (holder self).

(** ** The lease table *)

Record MemRow := { row_holder : string; row_epoch : Z; expires_at : Z }.
Inductive Acquire := Acquired (epoch : Z) | Held (by_holder : string) (epoch remaining : Z).

(** [MemLeaseStore::acquire] *)
Definition mem_acquire (key : LeaseKey) (ttl now : Z) (rows : gmap string MemRow) : gmap string MemRow * Acquire :=
  let take epoch := (<[cell_id key := {| row_holder := holder key; row_epoch := epoch; expires_at := now + ttl |}]> rows, Acquired epoch) in
  match rows !! cell_id key with
  | Some row =>
      if (now <? expires_at row) && negb (bool_decide (row_holder row = holder key))
      then (rows, Held (row_holder row) (row_epoch row) (expires_at row - now))
      else take (row_epoch row + 1)
  | None => take 1
  end.

(** [(holder, epoch)] own the row. *)
Definition owns (key : LeaseKey) (epoch : Z) (row : MemRow) : bool :=
  bool_decide (row_holder row = holder key) && (row_epoch row =? epoch).
Definition set_expiry (t : Z) (row : MemRow) : MemRow :=
  {| row_holder := row_holder row; row_epoch := row_epoch row; expires_at := t |}.

(** [MemLeaseStore::renew] *)
Definition mem_renew (key : LeaseKey) (epoch ttl now : Z) (rows : gmap string MemRow) : gmap string MemRow * bool :=
  match rows !! cell_id key with
  | Some row => if owns key epoch row then (<[cell_id key := set_expiry (now + ttl) row]> rows, true) else (rows, false)
  | None => (rows, false)
  end.

(** [MemLeaseStore::release] *)
Definition mem_release (key : LeaseKey) (epoch now : Z) (rows : gmap string MemRow) : gmap string MemRow * bool :=
  match rows !! cell_id key with
  | Some row => if owns key epoch row && (now <? expires_at row) then (<[cell_id key := set_expiry now row]> rows, true) else (rows, false)
  | None => (rows, false)
  end.

(** ** The held lease *)

(** [WriterLease] with its [State]. *)
Record WriterLease := { wl_key : LeaseKey; wl_epoch : Z; wl_ttl : Z; valid_until : Z; lost : option string }.
Record LeaseLost := { ll_epoch : Z; ll_reason : string }.
Inductive Renewed := RenewedOk | RenewedLost (reason : string) | RenewedTransient (error : string).
(** How a bounded call of the store ends. *)
Inductive Call (A : Type) := Done (a : A) | Failed (error : string) | TimedOut.
Arguments Done {A} a.
Arguments Failed {A} error.
Arguments TimedOut {A}.

Definition RELEASED : string := "released on drain".
Definition NOT_RENEWED : string := "not renewed before its deadline".
Definition TAKEN : string := "another pod generation took the lease".

(** [sent + ttl.saturating_sub(margin(ttl))] *)
Definition deadline (sent ttl : Z) : Z := sent + Z.max 0 (ttl - margin ttl).

Definition set_lost (reason : string) (l : WriterLease) : WriterLease :=
  {| wl_key := wl_key l; wl_epoch := wl_epoch l; wl_ttl := wl_ttl l; valid_until := valid_until l; lost := Some reason |}.
Definition set_valid_until (t : Z) (l : WriterLease) : WriterLease :=
  {| wl_key := wl_key l; wl_epoch := wl_epoch l; wl_ttl := wl_ttl l; valid_until := t; lost := lost l |}.

(** [check] *)
Definition check (now : Z) (l : WriterLease) : WriterLease * result LeaseLost unit :=
  match lost l with
  | Some reason => (l, Err {| ll_epoch := wl_epoch l; ll_reason := reason |})
  | None =>
      if valid_until l <=? now then (set_lost NOT_RENEWED l, Err {| ll_epoch := wl_epoch l; ll_reason := NOT_RENEWED |})
      else (l, Ok tt)
  end.

(** [mark_lost] *)
Definition mark_lost (reason : string) (l : WriterLease) : WriterLease * bool :=
  match lost l with Some _ => (l, false) | None => (set_lost reason l, true) end.

(** [transient] *)
Definition transient (now : Z) (error : string) (l : WriterLease) : WriterLease * Renewed :=
  match check now l with
  | (l, Ok _) => (l, RenewedTransient error)
  | (l, Err e) => (l, RenewedLost (ll_reason e +:+ "; last renew error: " +:+ error))
  end.

(** [renew_once] after its call, sent at [sent] and ended at [now]. *)
Definition renew_reply (sent now : Z) (r : Call bool) (l : WriterLease) : WriterLease * Renewed :=
  match r with
  | Done true =>
      (match lost l with None => set_valid_until (Z.max (valid_until l) (deadline sent (wl_ttl l))) l | Some _ => l end, RenewedOk)
  | Done false => ((mark_lost TAKEN l).1, RenewedLost TAKEN)
  | Failed error => transient now error l
  | TimedOut => transient now "renew timed out" l
  end.

(** [acquire] after its call: a lease, or standby. *)
Definition acquire_reply (key : LeaseKey) (ttl sent : Z) (outcome : Acquire) : option WriterLease :=
  match outcome with
  | Acquired epoch => Some {| wl_key := key; wl_epoch := epoch; wl_ttl := ttl; valid_until := deadline sent ttl; lost := None |}
  | Held _ _ _ => None
  end.

(** One round of [run] after [renew_once]: go on with a failure count, or stop and call
    [on_lost] unless the lease was released. *)
Inductive RunStep := RunOn (failing : Z) | RunStop (on_lost : option LeaseLost).
Definition run_react (failing : Z) (l : WriterLease) (r : Renewed) : RunStep :=
  match r with
  | RenewedOk => RunOn 0
  | RenewedTransient _ => RunOn ((failing + 1) mod 4294967296)
  | RenewedLost reason =>
      if bool_decide (lost l = Some RELEASED) then RunStop None
      else RunStop (Some {| ll_epoch := wl_epoch l; ll_reason := reason |})
  end.

(** ** The protocol *)

Inductive Request := RAcquire (key : LeaseKey) | RRenew (key : LeaseKey) (epoch : Z) | RRelease (key : LeaseKey) (epoch : Z).
Inductive Answer := AAcquire (outcome : Acquire) | ARenew (ok : bool) | ARelease (ok : bool).

(** The process of a pod generation: not started, waiting for its acquisition, or holding a
    lease (lost or not) with at most one renew under way. *)
Inductive Proc := PIdle | PAcquiring (id : nat) (sent : Z) | PHolding (l : WriterLease) (renew : option (nat * Z)).

Record Sys := {
  now : Z; rows : gmap string MemRow; procs : gmap LeaseKey Proc; wire : list (nat * Request); answers : list (nat * Answer); fresh : nat }.

Definition init : Sys := {| now := 0; rows := ∅; procs := ∅; wire := []; answers := []; fresh := 0 |}.

(** The store executes a request. *)
Definition serve (ttl now : Z) (r : Request) (rows : gmap string MemRow) : gmap string MemRow * Answer :=
  match r with
  | RAcquire key => let '(rows, a) := mem_acquire key ttl now rows in (rows, AAcquire a)
  | RRenew key epoch => let '(rows, ok) := mem_renew key epoch ttl now rows in (rows, ARenew ok)
  | RRelease key epoch => let '(rows, ok) := mem_release key epoch now rows in (rows, ARelease ok)
  end.

Definition set_proc (key : LeaseKey) (p : Proc) (s : Sys) : Sys :=
  {| now := now s; rows := rows s; procs := <[key := p]> (procs s); wire := wire s; answers := answers s; fresh := fresh s |}.
(** Put a request on the wire under the next id. *)
Definition send (r : Request) (s : Sys) : Sys :=
  {| now := now s; rows := rows s; procs := procs s; wire := (fresh s, r) :: wire s; answers := answers s; fresh := S (fresh s) |}.

(** The TTLs [acquire] accepts. *)
Definition ttl_ok (ttl : Z) : bool := (MIN_TTL <=? ttl) && (ttl <=? MAX_TTL).

Inductive step (ttl : Z) (s : Sys) : Sys -> Prop :=
| step_tick d : 0 <= d ->
    step ttl s {| now := now s + d; rows := rows s; procs := procs s; wire := wire s; answers := answers s; fresh := fresh s |}
| step_restart key : (* a pod starts, or crashes and starts again *)
    step ttl s (set_proc key PIdle s)
| step_acquire key : ttl_ok ttl = true -> procs s !! key = Some PIdle ->
    step ttl s (set_proc key (PAcquiring (fresh s) (now s)) (send (RAcquire key) s))
| step_acquired key id sent outcome l : procs s !! key = Some (PAcquiring id sent) -> (id, AAcquire outcome) ∈ answers s ->
    acquire_reply key ttl sent outcome = Some l -> step ttl s (set_proc key (PHolding l None) s)
| step_standby key id sent : (* held by another, or the call failed *)
    procs s !! key = Some (PAcquiring id sent) -> step ttl s (set_proc key PIdle s)
| step_check key l r : (* an append asks, or anything else that calls [check] *)
    procs s !! key = Some (PHolding l r) -> step ttl s (set_proc key (PHolding (check (now s) l).1 r) s)
| step_renew key l : procs s !! key = Some (PHolding l None) -> (check (now s) l).2 = Ok tt ->
    step ttl s (set_proc key (PHolding l (Some (fresh s, now s))) (send (RRenew key (wl_epoch l)) s))
| step_renewed key l id sent ok : procs s !! key = Some (PHolding l (Some (id, sent))) -> (id, ARenew ok) ∈ answers s ->
    step ttl s (set_proc key (PHolding (renew_reply sent (now s) (Done ok) l).1 None) s)
| step_renew_failed key l id sent error : procs s !! key = Some (PHolding l (Some (id, sent))) ->
    step ttl s (set_proc key (PHolding (transient (now s) error l).1 None) s)
| step_release key l r l' : procs s !! key = Some (PHolding l r) -> mark_lost RELEASED l = (l', true) ->
    step ttl s (set_proc key (PHolding l' r) (send (RRelease key (wl_epoch l)) s))
| step_serve w1 id r w2 rows' a : wire s = w1 ++ (id, r) :: w2 -> serve ttl (now s) r (rows s) = (rows', a) ->
    step ttl s {| now := now s; rows := rows'; procs := procs s; wire := w1 ++ w2; answers := (id, a) :: answers s; fresh := fresh s |}.



(** ** The renew loop *)

(** [run]: sleep, [renew_once] (its call lasts [d] and ends as [r]), react; on the given calls. *)
Fixpoint run (ttl : Z) (calls : list (Z * Call bool)) (failing now : Z) (l : WriterLease) : WriterLease * RunStep :=
  match calls with
  | [] => (l, RunOn failing)
  | (d, r) :: calls =>
      let sent := now + renew_every ttl in
      let '(l, now, out) :=
        match check sent l with
        | (l, Err e) => (l, sent, RenewedLost (ll_reason e))
        | (l, Ok _) => let '(l, out) := renew_reply sent (sent + d) r l in (l, sent + d, out)
        end in
      match run_react failing l out with
      | RunOn failing => run ttl calls failing now l
      | stop => (l, stop)
      end
  end.

(** * Exclusion *)

Definition epoch_of (s : Sys) (cell : string) : Z := from_option row_epoch 0 (rows s !! cell).






Lemma margin_bounds ttl : MIN_TTL <= ttl -> 0 < margin ttl <= ttl.
Proof. unfold MIN_TTL, margin, MS. intros. pose proof (Z.div_le_upper_bound ttl 5 ttl). pose proof (Z.div_pos ttl 5). lia. Qed.


Lemma key_eta k k' : cell_id k = cell_id k' -> holder k = holder k' -> k = k'.
Proof. destruct k, k'. by intros [= ->] [= ->]. Qed.



Definition row_epoch_at (rws : gmap string MemRow) (cell : string) : Z := from_option row_epoch 0 (rws !! cell).

(** Epochs only go up, and an acquisition takes one that was never used. *)
Lemma serve_epoch ttl t r rws rws' a cell :
  serve ttl t r rws = (rws', a) -> row_epoch_at rws cell <= row_epoch_at rws' cell.
Proof.
  unfold row_epoch_at. intros Hs.
  destruct r as [k'|k' e'|k' e']; cbn in Hs;
    unfold mem_acquire, mem_renew, mem_release, owns, set_expiry in Hs;
    destruct (decide (cell_id k' = cell)) as [<-|Hc]; repeat case_match; simplify_eq;
    rewrite ?lookup_insert_eq, ?lookup_insert_ne by done; simplify_option_eq; lia.
Qed.

Lemma serve_acquired ttl t k rws rws' e :
  serve ttl t (RAcquire k) rws = (rws', AAcquire (Acquired e)) ->
  e = row_epoch_at rws (cell_id k) + 1
  /\ rws' !! cell_id k = Some {| row_holder := holder k; row_epoch := e; expires_at := t + ttl |}.
Proof.
  unfold row_epoch_at. cbn. unfold mem_acquire. intros.
  repeat case_match; simplify_eq; rewrite lookup_insert_eq; done.
Qed.


Section Serve.
Context (ttl : Z) (s s' : Sys) (w1 w2 : list (nat * Request)) (id0 : nat) (r : Request) (a : Answer).
Hypothesis (Httl : 0 <= ttl) (Hwire : wire s = w1 ++ (id0, r) :: w2) (Hwire' : wire s' = w1 ++ w2)
  (Hnow : now s' = now s) (Hserve : serve ttl (now s) r (rows s) = (rows s', a)).







End Serve.

Section Steps.
Context (ttl : Z) (Httl : MIN_TTL <= ttl).

















End Steps.




(** * Fencing by the epoch *)

Lemma step_epoch ttl s s' cell : step ttl s s' -> epoch_of s cell <= epoch_of s' cell.
Proof. destruct 1; try done. by eapply (serve_epoch _ _ _ _ _ _ cell). Qed.

Lemma reach_epoch ttl s s' cell : rtc (step ttl) s s' -> epoch_of s cell <= epoch_of s' cell.
Proof. induction 1; [done|]. etrans; [by eapply step_epoch|done]. Qed.

(** A writer whose lease was taken can never extend it or expire its successor's: once an
    acquisition of the cell was granted epoch [e], a renew or a release of an earlier epoch
    fails and leaves the table alone, then and in every later state. *)
Theorem taken_never_renewed ttl s rows' k e s' k' e' t :
  mem_acquire k ttl (now s) (rows s) = (rows', Acquired e) ->
  rtc (step ttl) {| now := now s; rows := rows'; procs := procs s; wire := wire s; answers := answers s; fresh := fresh s |} s' ->
  cell_id k' = cell_id k -> e' < e ->
  mem_renew k' e' ttl t (rows s') = (rows s', false) /\ mem_release k' e' t (rows s') = (rows s', false).
Proof.
  intros Ha Hr Hc He. apply (reach_epoch _ _ _ (cell_id k)) in Hr.
  assert (Hs : serve ttl (now s) (RAcquire k) (rows s) = (rows', AAcquire (Acquired e))) by (cbn; by rewrite Ha).
  destruct (serve_acquired _ _ _ _ _ _ Hs) as [_ Hrow].
  unfold epoch_of in Hr. cbn in Hr. rewrite Hrow in Hr. cbn in Hr.
  unfold mem_renew, mem_release. rewrite Hc. destruct (rows s' !! cell_id k) as [row|]; [|done]. cbn in Hr.
  unfold owns. replace (row_epoch row =? e') with false by (symmetry; apply Z.eqb_neq; lia).
  by rewrite andb_false_r.
Qed.

(** C28: Failover: after an acquisition served at [t], another pod generation of the cell is
    refused, with the time left, until the lease expires; at expiry, and at once after the
    holder's release, it takes the lease with the next epoch. *)
Theorem failover k k' e ttl t t' rws rws' :
  0 < ttl -> t <= t' -> mem_acquire k ttl t rws = (rws', Acquired e) -> cell_id k' = cell_id k -> k' <> k ->
  (mem_acquire k' ttl t' rws').2 = (if t' <? t + ttl then Held (holder k) e (t + ttl - t') else Acquired (e + 1))
  /\ (mem_acquire k' ttl t' (mem_release k e t' rws').1).2 = Acquired (e + 1).
Proof.
  intros Httl Ht Ha Hc Hk.
  assert (Hs : serve ttl t (RAcquire k) rws = (rws', AAcquire (Acquired e))) by (cbn; by rewrite Ha).
  destruct (serve_acquired _ _ _ _ _ _ Hs) as [_ Hrow].
  assert (Hh : bool_decide (holder k = holder k') = false)
    by (apply bool_decide_eq_false; intros Hh; apply Hk, key_eta; congruence).
  unfold mem_acquire, mem_release, owns. rewrite Hc, Hrow; cbn. rewrite Hh, bool_decide_true, Z.eqb_refl by done. cbn.
  split; [by destruct (t' <? t + ttl)|].
  destruct (Z.ltb_spec t' (t + ttl)); cbn.
  - rewrite lookup_insert_eq. cbn. by rewrite Z.ltb_irrefl.
  - rewrite Hrow. cbn. destruct (Z.ltb_spec t' (t + ttl)); [lia|done].
Qed.

(** * The renew cadence *)

Lemma check_live t l : lost l = None -> t < valid_until l -> check t l = (l, Ok tt).
Proof. intros Hl Ht. unfold check. rewrite Hl. by destruct (Z.leb_spec (valid_until l) t); [lia|]. Qed.

Lemma check_late t l : lost l = None -> valid_until l <= t -> check t l = (set_lost NOT_RENEWED l, Err {| ll_epoch := wl_epoch l; ll_reason := NOT_RENEWED |}).
Proof. intros Hl Ht. unfold check. rewrite Hl. by destruct (Z.leb_spec (valid_until l) t); [|lia]. Qed.

Lemma div_le_num a b : 0 < b -> 0 <= a -> b * (a / b) <= a.
Proof. intros. by apply Z.mul_div_le. Qed.

(** Three renew periods and a twentieth of the TTL fit before the deadline. *)
Lemma cadence_slack ttl : MIN_TTL <= ttl -> 0 < renew_every ttl /\ 3 * renew_every ttl + ttl / 20 <= ttl - margin ttl.
Proof.
  unfold MIN_TTL, renew_every, margin, MS. intros H.
  pose proof (div_le_num ttl 4). pose proof (div_le_num ttl 5). pose proof (div_le_num ttl 20).
  pose proof (Z.div_le_lower_bound ttl 4 (250 * 1000000)). pose proof (Z.div_le_lower_bound ttl 5 (200 * 1000000)). lia.
Qed.

(** Two consecutive renews that fail are absorbed at every accepted TTL, as long as the
    failed calls and the delay since the acquisition was sent are short (a twentieth of the
    TTL together): the third renew still goes out before the deadline and its success
    restores a full lease and clears the failure count. *)
Theorem two_failures_absorbed ttl sent l d0 d1 d2 d3 e1 e2 :
  MIN_TTL <= ttl -> lost l = None -> wl_ttl l = ttl -> valid_until l = deadline sent ttl ->
  0 <= d0 -> 0 <= d1 -> 0 <= d2 -> d0 + d1 + d2 < ttl / 20 ->
  run ttl [(d1, Failed e1); (d2, Failed e2); (d3, Done true)] 0 (sent + d0) l
  = (set_valid_until (deadline (sent + (d0 + d1 + d2) + 3 * renew_every ttl) ttl) l, RunOn 0).
Proof.
  intros Httl Hl Hw Hv H0 H1 H2 Hd. pose proof (cadence_slack ttl Httl) as [Hp Hs].
  assert (Hdl : valid_until l = sent + (ttl - margin ttl)).
  { pose proof (margin_bounds ttl Httl). rewrite Hv. unfold deadline. lia. }
  cbn -[check deadline renew_every Z.mul].
  unfold transient. rewrite !check_live; cbn -[check deadline renew_every Z.mul]; [|first [done|lia]..].
  rewrite Hl, Hw. do 2 f_equal.
  assert (Hmax : forall a b c, a <= b -> b = c -> Z.max a b = c) by lia.
  apply Hmax; [rewrite Hv; unfold deadline; lia|f_equal; lia].
Qed.

(** One renew that ends by [CALL_TIMEOUT] loses the lease at the default TTL and below
    (a whole number of milliseconds):
    by the next round the deadline has passed, so the loop stops and reports the loss,
    however the later calls would have ended. *)
Theorem single_timeout_loses ttl ms sent l d0 call calls :
  ttl = ms * MS -> MIN_TTL <= ttl <= DEFAULT_TTL -> lost l = None -> valid_until l = deadline sent ttl -> 0 <= d0 ->
  exists reason, (run ttl ((CALL_TIMEOUT, TimedOut) :: call :: calls) 0 (sent + d0) l).2
                 = RunStop (Some {| ll_epoch := wl_epoch l; ll_reason := reason |}).
Proof.
  intros Hms [Httl Hmax] Hl Hv H0. pose proof (cadence_slack ttl Httl) as [Hp _].
  assert (Hlate : valid_until l <= sent + d0 + renew_every ttl + CALL_TIMEOUT + renew_every ttl).
  { rewrite Hv. unfold deadline, margin, renew_every, MIN_TTL, DEFAULT_TTL, CALL_TIMEOUT, MS in *.
    replace (ttl / 4) with (ms * 250000) by (apply Z.div_unique_exact; lia).
    replace (ttl / 5) with (ms * 200000) by (apply Z.div_unique_exact; lia). lia. }
  set (t := sent + d0 + renew_every ttl) in *. destruct call as [d r].
  cbn -[check deadline renew_every CALL_TIMEOUT]. fold t.
  destruct (Z.le_gt_cases (valid_until l) t).
  { rewrite check_late by done. by eexists. }
  rewrite (check_live t) by done. cbn -[check deadline renew_every CALL_TIMEOUT]. unfold transient.
  destruct (Z.le_gt_cases (valid_until l) (t + CALL_TIMEOUT)).
  { rewrite check_late by done. by eexists. }
  rewrite check_live by done. cbn -[check deadline renew_every CALL_TIMEOUT].
  rewrite check_late by done. by eexists.
Qed.

(** * Examples *)

Module LeaseExample.
Definition A : LeaseKey := {| cell_id := "cell-1"; holder := "cell-1/a" |}.
Definition B : LeaseKey := {| cell_id := "cell-1"; holder := "cell-1/b" |}.
Definition ttl : Z := DEFAULT_TTL.
Definition held (k : LeaseKey) (epoch sent : Z) : WriterLease :=
  {| wl_key := k; wl_epoch := epoch; wl_ttl := ttl; valid_until := deadline sent ttl; lost := None |}.

Definition started (k : LeaseKey) (s : Sys) : Sys :=
  let s := set_proc k PIdle s in set_proc k (PAcquiring (fresh s) (now s)) (send (RAcquire k) s).
(** The one request under way is served. *)
Definition answered (id : nat) (k : LeaseKey) (s : Sys) : Sys :=
  {| now := now s; rows := (serve ttl (now s) (RAcquire k) (rows s)).1; procs := procs s; wire := [];
     answers := (id, (serve ttl (now s) (RAcquire k) (rows s)).2) :: answers s; fresh := fresh s |}.
Definition at_time (t : Z) (s : Sys) : Sys :=
  {| now := t; rows := rows s; procs := procs s; wire := wire s; answers := answers s; fresh := fresh s |}.

(** A acquires and is cut off; B takes over when A's lease expires. *)
Definition a_holds : Sys := set_proc A (PHolding (held A 1 0) None) (answered 0 A (started A init)).
Definition b_waits : Sys := started B (at_time ttl a_holds).
Definition b_holds : Sys := set_proc B (PHolding (held B 2 ttl) None) (answered 1 B b_waits).



End LeaseExample.


(** B's acquisition fences A's renews. *)
Lemma taken_never_renewed_witness :
  let ttl := LeaseExample.ttl in let s := LeaseExample.b_holds in
  mem_renew LeaseExample.A 1 ttl ttl (rows s) = (rows s, false) /\ mem_release LeaseExample.A 1 ttl (rows s) = (rows s, false).
Proof.
  intros ttl s.
  apply (taken_never_renewed ttl LeaseExample.b_waits (rows s) LeaseExample.B 2
    {| now := now LeaseExample.b_waits; rows := rows s; procs := procs LeaseExample.b_waits; wire := wire LeaseExample.b_waits;
       answers := answers LeaseExample.b_waits; fresh := fresh LeaseExample.b_waits |});
    [reflexivity|apply rtc_refl|reflexivity|lia].
Defined.

(** B waits for A's lease to run out. *)
Lemma failover_witness :
  let ttl := LeaseExample.ttl in let rws := rows LeaseExample.a_holds in
  (mem_acquire LeaseExample.B ttl (1000 * MS) rws).2 = Held "cell-1/a" 1 (9000 * MS)
  /\ (mem_acquire LeaseExample.B ttl (1000 * MS) (mem_release LeaseExample.A 1 (1000 * MS) rws).1).2 = Acquired 2.
Proof.
  intros ttl rws.
  apply (failover LeaseExample.A LeaseExample.B 1 ttl 0 (1000 * MS) ∅); [by vm_compute..| |]; [reflexivity|done].
Defined.

(** At the default TTL, two renews that fail within 200 ms each. *)
Lemma two_failures_absorbed_witness :
  run DEFAULT_TTL [(200 * MS, Failed "connection refused"); (200 * MS, Failed "connection refused"); (30 * MS, Done true)] 0 0
    (LeaseExample.held LeaseExample.A 1 0)
  = (LeaseExample.held LeaseExample.A 1 (7900 * MS), RunOn 0).
Proof.
  apply (two_failures_absorbed DEFAULT_TTL 0 (LeaseExample.held LeaseExample.A 1 0) 0 (200 * MS) (200 * MS) (30 * MS));
    by vm_compute.
Defined.

(** At the default TTL, a renew that times out and one that would have succeeded. *)
Lemma single_timeout_loses_witness :
  exists reason, (run DEFAULT_TTL [(CALL_TIMEOUT, TimedOut); (30 * MS, Done true)] 0 (0 + 0) (LeaseExample.held LeaseExample.A 1 0)).2
                 = RunStop (Some {| ll_epoch := 1; ll_reason := reason |}).
Proof.
  apply (single_timeout_loses DEFAULT_TTL 10000 0 (LeaseExample.held LeaseExample.A 1 0) 0 (30 * MS, Done true) []); by vm_compute.
Defined.
